(* ===== verification/_CoqProject ===== *)
-Q . S2P
Prelude.v
Text.v
Duration.v
Cwd.v
RateLimit.v
Glob.v
ShellWords.v
ShellAnalysis.v
Policy.v
PolicySpec.v
Store.v
Keyset.v
Writer.v
SinkOutbox.v
SinkWorker.v
ChangeFeed.v
SessionEvents.v
PermissionStore.v
CommandStore.v
PermissionService.v
OutputStream.v
Redaction.v
CommandGateway.v
GatewaySafety.v
Terminal.v
TerminalSafety.v
HttpHardening.v
Async.v
Posix.v
Walk.v
WalkSafety.v
WalkExact.v
SafeExtract.v
Workspace.v
AuthStore.v
ApiAuth.v
SecretTemplate.v
Secrets.v
ManagedState.v
PromptStore.v
SessionStore.v
SubagentStore.v
Fork.v
LogFilter.v
SessionListing.v
SessionQueries.v
SessionSink.v
SinkSafety.v
SessionChanges.v
ChangesSafety.v
AcpCodec.v
SessionLocks.v
Supervisor.v
SupervisorSafety.v
Sweeper.v
Histories.v
