(* ===== verification/Prelude.v ===== *)
(** * A verification development for acp-stack

    acp-stack is a daemon that runs coding agents on a hosted computer. It keeps
    one SQLite database of sessions, prompts, commands, permissions and events,
    runs the commands agents and clients submit after a policy and, where the
    policy asks for it, a human decision, serves an authenticated HTTP API, keeps
    an encrypted store of secrets, touches the workload's files without trusting
    them, and exports every row to an external sink. This library models the parts
    of it that carry that logic and proves what they promise to each other.

    ** The parts and how they interact

    - A client submits a command to the gateway (runtime/mediation/commands.rs).
      The gateway checks the working directory, classifies the command with the
      policy (commands/policy.rs and its modules), asks the permission service
      (runtime/mediation/permissions.rs) when the policy says so, and runs the
      child under a supervisor task (commands/supervisor.rs) whose output passes
      a UTF-8 reader and a cap (commands/output.rs).
    - Every write goes through one writer thread (state/handle.rs) that groups
      jobs into a transaction, with a savepoint per job. A job's rows, its outbox
      rows and the publications it defers commit or vanish together.
    - The store (state/) keeps the rows. Writes that touch a session stamp it in
      the change feed (state/sessions/changes.rs) that clients page through; the
      event log (state/events.rs, state/sessions/events.rs) numbers each
      session's events; live streams filter with the Rust twin of the SQL
      predicates (state/records.rs, state/rows.rs).
    - The agent supervisor (runtime/agent/supervisor.rs and its modules) submits a
      prompt, drives its turn in a task of its own, cancels it and stops the agent,
      under a lock per session and a gate that a stop takes alone.
    - The updates an agent streams pass the codec's worker
      (runtime/agent/acp_codec.rs), which holds those of a session that is still
      being opened, and then the session sink (runtime/agent/session_sink.rs),
      which resolves the agent's session id, feeds the tracker of changed files
      (runtime/agent/session_changes.rs) and queues the rows for a batching writer.
      Terminals that the agent opens (runtime/agent/acp_terminal.rs) are owned by
      one task each.
    - The sink worker (runtime/logging/supabase_sink.rs) drains the outbox while
      writers keep adding to it.
    - A request to the API passes the hardening layer (http_hardening.rs) and the
      authentication layer (api/auth.rs over auth.rs and state/auth.rs) before a
      handler runs.
    - Secrets live in one encrypted file (secrets.rs); extensions deposit
      credentials and environments there (extensions/managed_state.rs), which the
      spawn of a workload reads back; configuration values name secrets in templates
      (config/secret_template.rs).
    - File operations in a directory that the workload also writes go through a
      walker of system calls (workload_fs/walk.rs); the workspace routes
      (workspace.rs) and the unpacking of archives
      (runtime/workspace_sources/safe_extract.rs) check names before it.
    - Text that leaves the process is redacted (redaction.rs), and outbound
      requests are paced per domain (runtime/net_rate_limit.rs).

    ** Files

    Shared: [Prelude] (results, tactics, list lemmas), [Text] (characters, UTF-8,
    [str] methods), [Store] (rows as records, the database as one value of type
    [Store], the error monad [M] of its operations, text order), [Async] (programs
    that interleave at their awaits, with a rely/guarantee logic), [Posix] (inodes,
    entries and the system calls on them).

    Command policy: [Glob] (policy/matching.rs, the wildcard matcher),
    [ShellWords] (policy/normalize.rs, quote removal into words),
    [ShellAnalysis] (policy/substitution.rs, segments and substitutions),
    [Policy] (policy.rs, deny, review and composition), [PolicySpec] (command lines
    written by construction, against which the policy is proved), [Cwd]
    (policy/matching.rs, the directory a command runs in, over the interface
    [FileSystem]).

    Command execution: [OutputStream] (output.rs and [handle_chunk]),
    [CommandGateway] (commands.rs and supervisor.rs, the task from await to
    await), [GatewaySafety] (what the gateway guarantees over all interleavings
    with the permission service).

    Permissions: [PermissionStore] (state/permissions.rs), [PermissionService]
    (runtime/mediation/permissions.rs, waiters, deciders and timers as steps).

    Store: [Writer] (state/handle.rs), [SinkOutbox] (state/sink_outbox.rs),
    [SinkWorker] (supabase_sink.rs), [ChangeFeed] (state/sessions/changes.rs),
    [SessionEvents] (state/sessions/events.rs and state/events.rs),
    [CommandStore] (state/commands.rs), [PromptStore] (state/sessions/prompts.rs),
    [SessionStore], [SessionListing] and [SessionQueries]
    (state/sessions/queries.rs: rows and sweeps, metadata and the agent's
    listing, reads), [SubagentStore]
    (state/sessions/subagents.rs), [Fork] (state/sessions/fork.rs), [LogFilter]
    (state/records.rs, state/rows.rs, state/security_category.rs and the queries
    of state/events.rs), [Keyset] (the paging both use), [Histories] (every
    sequence of committed operations).

    Agent side: [SessionLocks] (supervisor/session_locks.rs), [Supervisor] (prompts.rs,
    parse.rs and the agent states of supervisor.rs and bridge.rs) with
    [SupervisorSafety], [Sweeper] (sweeper.rs), [AcpCodec] (acp_codec.rs and
    config_options.rs: the update worker, option lanes, permission answers, metadata),
    [SessionSink] (session_sink.rs and [delete_session] of supervisor/sessions.rs) with
    [SinkSafety], [SessionChanges] (session_changes.rs) with [ChangesSafety],
    [Terminal] (acp_terminal.rs) with [TerminalSafety]. Of each pair the first holds
    data and operations, the second the invariants and theorems.

    API: [HttpHardening] (http_hardening.rs), [AuthStore] (auth.rs and
    state/auth.rs), [ApiAuth] (api/auth.rs, api/core.rs, api/routes/auth.rs).

    Secrets: [SecretTemplate] (config/secret_template.rs), [Secrets] (secrets.rs),
    [ManagedState] (extensions/managed_state.rs, config/validate/workload_env.rs and
    the environment of a spawn).

    Files: [Walk] (workload_fs/walk.rs, [symlink_chain] of workload_fs.rs),
    [WalkSafety] (what holds while the workload changes the tree between any two
    calls), [WalkExact] (what holds when nothing else does), [SafeExtract]
    (safe_extract.rs), [Workspace] (workspace.rs).

    Utilities: [Duration] (config/validate/primitives.rs and time_util.rs),
    [Redaction] (redaction.rs), [RateLimit] (runtime/net_rate_limit.rs).

    ** How the code is translated

    A pure function is a function, a fallible one returns [result], [option] or
    [outcome] where a panic is possible, and a database operation is a function
    from [Store] to a result and a new [Store]; an error returns no store, as the
    transaction rolls back. SQL statements are the selection, update or ordering
    they describe, over finite maps keyed by the primary key, with the unique
    indexes, foreign keys and checks that can reject a write. Text that is inspected
    character by character is a list of Unicode scalar values with its byte length
    beside it; identifiers, kinds and timestamps that are only compared are strings
    in byte order. Counters and sequence numbers are integers with the bound and the
    wrapping, saturating or checked arithmetic the code has.

    Asynchronous code comes in two forms. A task with a few phases ([PermissionService],
    [CommandGateway], [SinkWorker], [Terminal], [Supervisor]) is a record with its phase and a step
    from one await to the next; a reachable state is what any sequence of such steps
    of any tasks leads to. A handler ([ApiAuth], [SessionSink]) is a program of type
    [Async.Proc], whose awaits are atomic actions on the shared state; a pool runs any
    number of them in any order, and its theorems are proved per program from an
    invariant and a relation between the states before and after every other
    program's action. The walker's programs ([Walk]) have system calls for actions,
    and between two of them the environment may change the tree.

    What the program gets from elsewhere is a parameter: SQLite's [json_valid] and
    [json_extract] and serde's reading of a payload, the payload printers, the
    hydration of outbox rows and the upload, the metadata objects
    ([MetadataJson]), the file system, archive readers, the child process, hashes,
    random bytes and encryption, serialized and in-memory sizes ([Platform] in
    [SessionChanges]), the chrono constructors, fresh ids and the clock. The
    hypotheses on them are stated where they are used and each theorem that has one
    is applied to a concrete instance in its witness.

    ** What the theorems show

    - Policy: for command lines built from words, quotes, escapes and operators, a
      deny pattern that matches the literal words of any of the commands denies the
      line and a review pattern at least has it reviewed, however the words are
      quoted, and an allowed line is a single command; deny patterns reach into
      substitutions; the matcher agrees with the declarative reading of wildcards on
      commands without wildcard characters; the parsers terminate.
      [Policy.deny_bypasses] and [CommandGateway.auto_gate_composed] state where the
      code stops short of its documentation.
    - Gateway: no child is spawned without the approval its policy asks for, a
      command's row follows its task, output is lossless up to the cap. Of the
      working directory only the checks are stated ([Cwd.cwd_checked]).
    - Permissions: every waiter is answered, the answer agrees with the row, a
      decision is final and the audit trail matches the requests, over every
      operation that touches a request, the sweep of orphaned commands included
      ([CommandStore.permission_audit_trail]).
    - Store: a batch that commits is a serial execution of its successful jobs, on a
      connection with SQLite's transaction, savepoints and failing statements
      ([Writer.failed_rollback_commits_part], [aborted_savepoint_commits_refused] and
      [open_transaction_refuses] are the failures it does not survive); no update is
      lost between store and sink; the change feed reports every change to a reader
      that pages at any pace; events of a session are numbered without gaps;
      pages of the log resume where they stopped; verdicts of prompts are final;
      subagents form trees and replay grants them nothing; deletion leaves nothing
      but a tombstone; a fork inherits exactly the kept conversation, column by
      column; a session listing converges where merged metadata reads back as
      printed; the live filter passes only what the query returns.
    - Agent side: the session locks are one mutex per session; a session has one live
      turn at a time, a cancel that succeeds ended the turns it was for, a settled
      turn leaves no row in flight, and the sweep settles the quiet ones
      ([SupervisorSafety.dropped_submission_two_turns] and [dropped_stop_strands]
      state what a request dropped at the wrong await costs). The updates of a session
      being opened are written all, in order, or none; a deleted session is not
      resolved again, except through a release or an announcement that comes after
      the deletion ([SinkSafety.release_revives_session],
      [announcement_revives_session]); a drain waits for what was queued before it; a
      snapshot of changed files that is not marked truncated is complete, equal
      revisions mean equal content, and a snapshot fits its response; a terminal
      answers with its newest output, publishes its exit last, and shutdown leaves no
      child running, where a child whose wait failed was at least sent SIGKILL.
    - API: a handler runs only for a request with a key of its tier, whatever
      regenerations race with it; an address that reaches the configured number of
      failures within a minute is blocked for the configured time, in every
      interleaving at the blocker's locks. [ApiAuth.regenerations_can_disagree]
      states where two regenerations leave database and memory apart.
    - Secrets: whatever writes fail before or after the new file is in place, the
      file always opens, a deposit is one transaction, a revision names one state,
      every spawn that opens the file finds its environment (as long as no catalog
      replacement removes a secret an environment names,
      [ManagedState.pruning_breaks_spawns]); templates are exactly their printed form.
    - Files: a walk that refuses links never leaves its anchor, replacing a file is
      all or nothing, unpacking stays inside destination and limits, and the two
      checks of a path agree.
    - Utilities: registered secrets, words of the credential shapes and values after
      the word Bearer do not survive redaction, parser messages do not echo values,
      requests to a paced host stay spaced in every interleaving and a lone waiter
      is let through or refused in three asks, durations round-trip through their
      text.

    ** Fuel and bounds

    The matcher, the normalizer and the analyzer run with fuel computed from the
    length of their input, and theorems show the result does not depend on more
    ([Glob.glob_match_terminates], [ShellWords.normalize_terminates],
    [ShellAnalysis.analyze_terminates]). [Redaction.strip_loop] has the length of
    the message as fuel ([strip_loop_fuel]), [SecretTemplate.parse_loop] one more than
    the text it reads ([parse_loop_total]), [Terminal.raise_cutoff] the
    distance to the end of the text, which is a character boundary. The walker reads
    with one step more than the bytes it may return and writes with one per byte, as
    every call moves at least one ([WalkExact.read_loop_reads],
    [WalkExact.write_all_alone]); the removal of a tree has its fuel as an argument,
    since a workload that keeps creating entries can keep it busy, and its theorems
    hold for every amount. A reader of the change feed is given as many pages as there
    are stamps. [Duration.decimal] has the twenty digits a 64-bit count needs, and the
    boundary scan of [OutputStream] the three continuation bytes a character can have.
    Evictions of [SessionChanges] run through the list of victims the code computes,
    and [ChangesSafety.snapshot_fits_response] shows that a session's list is long
    enough.

    ** Not modelled

    The schema migrations (SQL the database runs once), the tables no modelled
    operation reads, the ACP bridge and the agent processes (an external
    protocol crate and child I/O), of the codec the file handlers and the waits at
    the ends of its queue, of the supervisor session creation, fork dispatch,
    configuration options, the listing loop and the agent's lifecycle rows, the agent
    switch, installers, sandbox and workspace downloads (processes, namespaces and
    the network), HTTP handlers beyond authentication and key regeneration, command
    line, init wizard and configuration writers (terminal interaction and external
    formats), the bytes of the encryption, of the walker [copy_file] and the executor
    that runs it under other credentials, and the threads and channels of the runtime,
    whose scheduling the step relations leave open. Within the modelled parts: how a
    child is spawned, sandboxed and killed, the live event hub, the reader pool,
    and the two activity reports over sessions. *)

From stdpp Require Export base list strings gmap sorting.
From Stdlib Require Export ZArith Lia.

(** ** Results: the [Result<T>] of the crate *)

(** Every fallible operation of the crate returns [Result<T, StackError>]; the
    error type stays a parameter because each component has its own errors. *)
Inductive result (E A : Type) : Type :=
| Ok : A -> result E A
| Err : E -> result E A.
Arguments Ok {E A} _.
Arguments Err {E A} _.

Definition rbind {E A B} (m : result E A) (f : A -> result E B) : result E B :=
  match m with
  | Ok a => f a
  | Err e => Err e
  end.

(** The call succeeded. *)
Definition is_Ok {E A} (m : result E A) : Prop := exists a, m = Ok a.

Declare Scope result_scope.
Delimit Scope result_scope with res.
Notation "'let?' x ':=' m 'in' k" := (rbind m (fun x => k))
  (at level 10, x pattern, m at level 100, k at level 200)
  : result_scope.

Lemma rbind_Ok {E A B} (m : result E A) (f : A -> result E B) b :
  rbind m f = Ok b <-> exists a, m = Ok a /\ f a = Ok b.
Proof. destruct m; simpl; naive_solver. Qed.

Lemma rbind_Err {E A B} (m : result E A) (f : A -> result E B) e :
  rbind m f = Err e <-> m = Err e \/ exists a, m = Ok a /\ f a = Err e.
Proof. destruct m; simpl; naive_solver. Qed.

(** ** Automation *)

Create HintDb acps.

(** Split every boolean conjunction, disjunction and equality test in the
    hypotheses into its propositional reading. *)
Ltac bool_hyps :=
  repeat match goal with
  | H : _ && _ = true |- _ => apply andb_prop in H as [? ?]
  | H : _ || _ = false |- _ => apply orb_false_elim in H as [? ?]
  | H : negb _ = true |- _ => apply negb_true_iff in H
  | H : negb _ = false |- _ => apply negb_false_iff in H
  | H : (_ =? _)%Z = true |- _ => apply Z.eqb_eq in H
  | H : (_ =? _)%Z = false |- _ => apply Z.eqb_neq in H
  | H : (_ <? _)%Z = true |- _ => apply Z.ltb_lt in H
  | H : (_ <? _)%Z = false |- _ => apply Z.ltb_ge in H
  | H : (_ <=? _)%Z = true |- _ => apply Z.leb_le in H
  | H : (_ <=? _)%Z = false |- _ => apply Z.leb_gt in H
  end.

(** Case analysis on the scrutinee of the first [match] or [if] in the goal. *)
Ltac split_match := case_match; simplify_eq/=.
Ltac split_matches := repeat (split_match; try done).

(** ** Lists *)

Section lists.
Context {A : Type}.

Lemma drop_S_lookup (l : list A) i x :
  l !! i = Some x -> drop i l = x :: drop (S i) l.
Proof. apply drop_S. Qed.

Lemma drop_all_ge (l : list A) i : length l <= i -> drop i l = [].
Proof. apply drop_ge. Qed.

Fixpoint drop_while (f : A -> bool) (l : list A) : list A :=
  match l with
  | [] => []
  | x :: l' => if f x then drop_while f l' else l
  end.

Lemma drop_while_suffix f (l : list A) : exists k, l = k ++ drop_while f l.
Proof.
  induction l as [|x l [k Hk]]; simpl; [by exists []|].
  destruct (f x); [exists (x :: k); simpl; congruence | by exists []].
Qed.

Lemma drop_while_length f (l : list A) : length (drop_while f l) <= length l.
Proof. induction l; simpl; [lia|]. split_match; lia. Qed.

Lemma drop_while_head f (l : list A) x r : drop_while f l = x :: r -> f x = false.
Proof. induction l; simpl; [done|]. case_match; [done|]. by intros [= -> ->]. Qed.

Lemma drop_while_id f (l : list A) x r : l = x :: r -> f x = false -> drop_while f l = l.
Proof. intros -> H. simpl. by rewrite H. Qed.

Lemma filter_keep (P : A -> Prop) `{!forall x, Decision (P x)} (l : list A) :
  (forall x, x ∈ l -> P x) -> filter P l = l.
Proof.
  induction l as [|x l IH]; [done|]. intros Hall.
  rewrite filter_cons_True by (apply Hall; set_solver).
  f_equal. apply IH. intros y Hy. apply Hall. set_solver.
Qed.

Lemma filter_none (P : A -> Prop) `{!forall x, Decision (P x)} (l : list A) :
  (forall x, x ∈ l -> ~ P x) -> filter P l = [].
Proof.
  induction l as [|x l IH]; [done|]. intros Hall.
  rewrite filter_cons_False by (apply Hall; set_solver).
  apply IH. intros y Hy. apply Hall. set_solver.
Qed.

Lemma StronglySorted_split (R : A -> A -> Prop) (l1 l2 : list A) x y :
  StronglySorted R (l1 ++ l2) -> x ∈ l1 -> y ∈ l2 -> R x y.
Proof.
  induction l1 as [|z l1 IH]; simpl; [by intros _ ?%not_elem_of_nil|].
  intros [Hs Hz]%StronglySorted_inv [->|Hx]%elem_of_cons Hy; [|by apply IH].
  rewrite Forall_forall in Hz. apply Hz. set_solver.
Qed.

Lemma StronglySorted_filter (R : A -> A -> Prop) (P : A -> Prop) `{!forall x, Decision (P x)} (l : list A) :
  StronglySorted R l -> StronglySorted R (filter P l).
Proof.
  induction 1 as [|x l Hs IH Hx]; [constructor|]. rewrite filter_cons.
  destruct (decide (P x)); [|done]. constructor; [done|].
  rewrite Forall_forall in Hx |- *. intros y [_ Hy]%list_elem_of_filter. by apply Hx.
Qed.
End lists.
