(* ===== verification/Text.v ===== *)
(** Rust text: characters as Unicode scalar values, strings as lists of them,
    the UTF-8 encoding behind [str::as_bytes] and [str::len], and the
    [char]/[str] methods the modelled code calls. *)

From S2P Require Import Prelude.
From Stdlib Require Import Ascii.
Export Ascii.AsciiSyntax.
From Stdlib Require String.
Open Scope Z_scope.

(** A [char] is a Unicode scalar value; a [str]/[String] is its characters. *)
Notation char := Z (only parsing).
Notation str := (list Z) (only parsing).

(** Literals: [chr "x"] is the scalar value of an ASCII character (the
    three-digit form [chr "010"] gives it by its decimal code) and [lit "ls"]
    the characters of an ASCII string. *)
Definition chr (a : ascii) : char := Z.of_N (N_of_ascii a).
Arguments chr a%_char_scope.
Definition lit (s : string) : str := map chr (String.list_ascii_of_string s).
Arguments lit s%_string_scope.

(** ** UTF-8 *)

(** [char::len_utf8]. *)
Definition len_utf8 (c : char) : nat :=
  if c <? 128 then 1 else if c <? 2048 then 2 else if c <? 65536 then 3 else 4.

(** [char::encode_utf8]: the leading byte carries the length, every
    continuation byte six bits. *)
Definition cont (c : char) (shift : Z) : Z := Z.lor 128 (Z.land (Z.shiftr c shift) 63).

Definition encode_utf8 (c : char) : list Z :=
  if c <? 128 then [c]
  else if c <? 2048 then [Z.lor 192 (Z.shiftr c 6); cont c 0]
  else if c <? 65536 then [Z.lor 224 (Z.shiftr c 12); cont c 6; cont c 0]
  else [Z.lor 240 (Z.shiftr c 18); cont c 12; cont c 6; cont c 0].

(** [str::as_bytes] and [str::len]. *)
Fixpoint as_bytes (s : str) : list Z :=
  match s with
  | [] => []
  | c :: s' => encode_utf8 c ++ as_bytes s'
  end.

Fixpoint str_len (s : str) : nat :=
  match s with
  | [] => 0
  | c :: s' => len_utf8 c + str_len s'
  end.

(** ** Character classes *)

Definition in_range (lo hi c : char) : bool := (lo <=? c) && (c <=? hi).

(** [char::is_whitespace]: the Unicode [White_Space] property. *)
Definition is_whitespace (c : char) : bool :=
  in_range 9 13 c || (c =? 32) || (c =? 133) || (c =? 160) || (c =? 5760)
  || in_range 8192 8202 c || (c =? 8232) || (c =? 8233) || (c =? 8239)
  || (c =? 8287) || (c =? 12288).

Definition is_ascii_digit (c : char) : bool := in_range 48 57 c.
Definition is_ascii_lower (c : char) : bool := in_range 97 122 c.
Definition is_ascii_upper (c : char) : bool := in_range 65 90 c.
Definition is_ascii_alphabetic (c : char) : bool := is_ascii_lower c || is_ascii_upper c.
Definition is_ascii_alphanumeric (c : char) : bool :=
  is_ascii_alphabetic c || is_ascii_digit c.
Definition is_ascii_hexdigit (c : char) : bool :=
  is_ascii_digit c || in_range 97 102 c || in_range 65 70 c.

(** [char::from_u32]: surrogates and values past [0x10FFFF] are no scalars. *)
Definition char_from_u32 (v : Z) : option char :=
  if in_range 0 55295 v || in_range 57344 1114111 v then Some v else None.

(** ** Trimming *)

Definition trim_start (s : str) : str := drop_while is_whitespace s.
Definition trim_end (s : str) : str := reverse (drop_while is_whitespace (reverse s)).
Definition trim (s : str) : str := trim_end (trim_start s).

#[global] Arguments trim : simpl never.

(** [slice.join(sep)]. *)
Fixpoint join (sep : str) (ws : list str) : str :=
  match ws with
  | [] => []
  | [w] => w
  | w :: ws' => w ++ sep ++ join sep ws'
  end.

(** [str::starts_with]. *)
Fixpoint starts_with (p s : str) : bool :=
  match p, s with
  | [], _ => true
  | x :: p', y :: s' => (x =? y) && starts_with p' s'
  | _ :: _, [] => false
  end.

Definition str_eqb (a b : str) : bool := bool_decide (a = b).

(** ** Lemmas *)

Lemma len_utf8_bounds c : (1 <= len_utf8 c <= 4)%nat.
Proof. unfold len_utf8. repeat case_match; lia. Qed.

Lemma encode_utf8_length c : length (encode_utf8 c) = len_utf8 c.
Proof. unfold encode_utf8, len_utf8. by repeat case_match. Qed.

Lemma as_bytes_length s : length (as_bytes s) = str_len s.
Proof.
  induction s as [|c s IH]; simpl; [done|].
  by rewrite length_app, encode_utf8_length, IH.
Qed.

Lemma as_bytes_app s t : as_bytes (s ++ t) = as_bytes s ++ as_bytes t.
Proof. induction s; simpl; [done|]. by rewrite IHs, (assoc_L (++)). Qed.

Lemma as_bytes_ascii s : Forall (fun c => c < 128) s -> as_bytes s = s.
Proof.
  induction 1 as [|c s Hc _ IH]; simpl; [done|].
  unfold encode_utf8. by rewrite (proj2 (Z.ltb_lt c 128) Hc), IH.
Qed.

Lemma str_len_app s t : str_len (s ++ t) = (str_len s + str_len t)%nat.
Proof. induction s; simpl; lia. Qed.

Lemma str_eqb_eq a b : str_eqb a b = true <-> a = b.
Proof. unfold str_eqb. apply bool_decide_eq_true. Qed.

Lemma starts_with_spec p s : starts_with p s = true <-> exists t, s = p ++ t.
Proof.
  revert s. induction p as [|x p IH]; intros s; simpl; [naive_solver|].
  destruct s as [|y s]; [naive_solver|].
  rewrite andb_true_iff, Z.eqb_eq, IH. naive_solver.
Qed.

Lemma trim_start_no_lead s :
  (forall c r, s = c :: r -> is_whitespace c = false) -> trim_start s = s.
Proof.
  unfold trim_start. destruct s as [|c r]; simpl; [done|]. intros H. by rewrite (H c r).
Qed.

(** A string is its own trim exactly when it neither starts nor ends with
    whitespace. *)
Definition no_edge_ws (s : str) : Prop :=
  (forall c r, s = c :: r -> is_whitespace c = false)
  /\ (forall c r, s = r ++ [c] -> is_whitespace c = false).

Lemma trim_end_id s :
  (forall c r, s = r ++ [c] -> is_whitespace c = false) -> trim_end s = s.
Proof.
  intros H. unfold trim_end. destruct s as [|c r _] using rev_ind; [done|].
  rewrite reverse_snoc. simpl. by rewrite (H c r), reverse_cons, reverse_involutive.
Qed.

Lemma trim_id s : no_edge_ws s -> trim s = s.
Proof. intros [H1 H2]. unfold trim. by rewrite trim_start_no_lead, trim_end_id. Qed.

Lemma trim_end_last s c r : trim_end s = r ++ [c] -> is_whitespace c = false.
Proof.
  unfold trim_end. intros H. apply (f_equal reverse) in H.
  rewrite reverse_involutive, reverse_snoc in H. by eapply drop_while_head.
Qed.

Lemma trim_end_prefix s : exists t, s = trim_end s ++ t.
Proof.
  unfold trim_end. destruct (drop_while_suffix is_whitespace (reverse s)) as [k Hk].
  exists (reverse k). by rewrite <- reverse_app, <- Hk, reverse_involutive.
Qed.

Lemma trim_no_edge_ws s : no_edge_ws (trim s).
Proof.
  split; intros c r H; [|by eapply trim_end_last].
  destruct (trim_end_prefix (trim_start s)) as [t Ht]. fold (trim s) in Ht. rewrite H in Ht.
  by eapply drop_while_head.
Qed.

Lemma trim_fixed s : trim s = s <-> no_edge_ws s.
Proof. split; [intros <-; apply trim_no_edge_ws | apply trim_id]. Qed.

Lemma trim_idemp s : trim (trim s) = trim s.
Proof. apply trim_id, trim_no_edge_ws. Qed.

Lemma trim_pad pre s post :
  Forall (fun c => is_whitespace c = true) pre -> Forall (fun c => is_whitespace c = true) post ->
  no_edge_ws s -> s <> [] -> trim (pre ++ s ++ post) = s.
Proof.
  intros Hpre Hpost [H1 H2] Hne. unfold trim.
  assert (trim_start (pre ++ s ++ post) = s ++ post) as ->.
  { unfold trim_start. induction Hpre as [|c pre Hc _ IH]; simpl; [|by rewrite Hc].
    destruct s as [|c s]; [done|]. simpl. by rewrite (H1 c s). }
  unfold trim_end. rewrite reverse_app.
  assert (forall l, Forall (fun c => is_whitespace c = true) l ->
    drop_while is_whitespace (l ++ reverse s) = reverse s) as ->.
  { destruct s as [|c s _] using rev_ind; [done|]. rewrite reverse_snoc.
    induction 1 as [|x l Hx _ IH]; simpl; [by rewrite (H2 c s)|by rewrite Hx]. }
  - apply reverse_involutive.
  - by apply Forall_reverse.
Qed.

Lemma no_edge_ws_insert a m b :
  a <> [] -> (forall c r, m = r ++ [c] -> is_whitespace c = false) -> m <> [] ->
  no_edge_ws (a ++ b) -> no_edge_ws (a ++ m ++ b).
Proof.
  intros Ha Hm Hm0 [H1 H2]. split.
  - intros c r H. destruct a as [|x a]; [done|]. simpl in *. by eapply H1; simplify_eq.
  - intros c r. destruct b as [|y b _] using rev_ind.
    + rewrite app_nil_r. destruct m as [|z m _] using rev_ind; [done|].
      rewrite app_assoc. intros [_ ->]%app_inj_tail. by eapply Hm.
    + rewrite !app_assoc. intros [_ ->]%app_inj_tail.
      eapply (H2 c (a ++ b)). by rewrite app_assoc.
Qed.

(** [str::cmp]: byte order is the order of scalar values. *)
Fixpoint str_le (a b : str) : bool :=
  match a, b with
  | [], _ => true
  | _ :: _, [] => false
  | x :: a', y :: b' => (x <? y) || ((x =? y) && str_le a' b')
  end.
Definition text_le (a b : str) : Prop := str_le a b = true.
#[export] Instance text_le_dec : RelDecision text_le.
Proof. intros a b. unfold text_le. apply _. Defined.
