(* ===== verification/Duration.v ===== *)
(** Durations: the configuration syntax ([parse_duration_string],
    [DurationUnit], [DurationLimits] and [normalize_duration] of
    src/src/config/validate/primitives.rs), the query suffixes and the retry
    backoff (src/src/time_util.rs).

    A [std::time::Duration] is its number of nanoseconds. The text of an
    [InvalidParam] reason is represented by the check that failed. *)

From S2P Require Import Prelude Text.
Open Scope Z_scope.

Definition U64_MAX : Z := 2 ^ 64 - 1.
Definition I64_MAX : Z := 2 ^ 63 - 1.

(** ** [str::parse] *)

Definition digit_value (c : char) : Z := c - 48.

(** The digit loop of [from_str_radix], which stops at the first overflow. *)
Fixpoint parse_digits (max acc : Z) (s : str) : option Z :=
  match s with
  | [] => Some acc
  | c :: s' =>
      if is_ascii_digit c then
        let v := acc * 10 + digit_value c in
        if v <=? max then parse_digits max v s' else None
      else None
  end.

(** [parse::<u64>]: an optional plus sign, then at least one digit. *)
Definition parse_u64 (s : str) : option Z :=
  match s with
  | [] => None
  | c :: s' => if c =? chr "+" then (if s' is [] then None else parse_digits U64_MAX 0 s')
               else parse_digits U64_MAX 0 s
  end.

(** [parse::<i64>], whose minus sign reaches one further down. *)
Definition parse_i64 (s : str) : option Z :=
  match s with
  | [] => None
  | c :: s' =>
      if c =? chr "+" then (if s' is [] then None else parse_digits I64_MAX 0 s')
      else if c =? chr "-" then
        (if s' is [] then None else Z.opp <$> parse_digits (I64_MAX + 1) 0 s')
      else parse_digits I64_MAX 0 s
  end.

(** [u64::checked_mul]. *)
Definition checked_mul (a b : Z) : option Z := if a * b <=? U64_MAX then Some (a * b) else None.

(** ** Durations *)

Definition from_millis (v : Z) : Z := v * 1000000.
Definition from_secs (v : Z) : Z := v * 1000000000.
Definition as_secs (d : Z) : Z := d / 1000000000.
Definition DURATION_MAX : Z := U64_MAX * 1000000000 + 999999999.

(** The digits before the first other character, and the rest. *)
Fixpoint span_digits (s : str) : str * str :=
  match s with
  | [] => ([], [])
  | c :: s' => if is_ascii_digit c then let '(a, b) := span_digits s' in (c :: a, b) else ([], s)
  end.

Definition parse_duration_string (input : str) : option Z :=
  let trimmed := trim input in
  match trimmed with
  | [] => None
  | _ =>
      let '(number_part, unit_part) := span_digits trimmed in
      match unit_part, number_part with
      | [], _ => None
      | _, [] => None
      | _, _ =>
          match parse_u64 number_part with
          | None => None
          | Some value =>
              if str_eqb unit_part (lit "ms") then Some (from_millis value)
              else if str_eqb unit_part (lit "s") then Some (from_secs value)
              else if str_eqb unit_part (lit "m") then from_secs <$> checked_mul value 60
              else if str_eqb unit_part (lit "h") then from_secs <$> checked_mul value 3600
              else if str_eqb unit_part (lit "d") then from_secs <$> checked_mul value 86400
              else if str_eqb unit_part (lit "w") then from_secs <$> checked_mul value 604800
              else None
          end
      end
  end.

Inductive DurationError :=
| InvalidDurationField   (* the variant of that name *)
| PastEpoch              (* [InvalidParam]: longer than the time since 1970 *)
| MissingUnit            (* [InvalidParam]: no unit after the count *)
| UnitNotAccepted        (* [InvalidParam]: the unit is unknown or refused *)
| InvalidCount           (* [InvalidParam]: the count does not parse *)
| BelowMinimum.          (* [InvalidParam]: shorter than the field's minimum *)

Section fields.
(** [max_duration_since_epoch()]: the clock's reading. *)
Context (max_duration_since_epoch : Z).

Definition validate_duration_epoch_hardstop (duration : Z) : result DurationError unit :=
  if max_duration_since_epoch <? duration then Err PastEpoch else Ok tt.

Definition validate_duration_field (raw : str) : result DurationError Z :=
  match parse_duration_string raw with
  | None => Err InvalidDurationField
  | Some duration => rbind (validate_duration_epoch_hardstop duration) (fun _ => Ok duration)
  end.
End fields.

Inductive DurationUnit := Millisecond | Second | Minute | Hour | Day | Week | Month.

#[export] Instance DurationUnit_eq_dec : EqDecision DurationUnit.
Proof. solve_decision. Defined.

Definition from_suffix (suffix : str) : option DurationUnit :=
  if str_eqb suffix (lit "ms") then Some Millisecond
  else if str_eqb suffix (lit "s") then Some Second
  else if str_eqb suffix (lit "m") then Some Minute
  else if str_eqb suffix (lit "h") then Some Hour
  else if str_eqb suffix (lit "d") then Some Day
  else if str_eqb suffix (lit "w") then Some Week
  else if str_eqb suffix (lit "mo") then Some Month
  else None.

Definition suffix (u : DurationUnit) : str :=
  match u with
  | Millisecond => lit "ms"
  | Second => lit "s"
  | Minute => lit "m"
  | Hour => lit "h"
  | Day => lit "d"
  | Week => lit "w"
  | Month => lit "mo"
  end.

Definition DAY_SECS : Z := 86400.

Definition unit_length (u : DurationUnit) : Z :=
  match u with
  | Millisecond => from_millis 1
  | Second => from_secs 1
  | Minute => from_secs 60
  | Hour => from_secs 3600
  | Day => from_secs DAY_SECS
  | Week => from_secs (7 * DAY_SECS)
  | Month => from_secs (30 * DAY_SECS)
  end.

Definition checked_duration (u : DurationUnit) (count : Z) : option Z :=
  match u with
  | Millisecond => Some (from_millis count)
  | _ => from_secs <$> checked_mul (as_secs (unit_length u)) count
  end.

Record DurationLimits := mkLimits { accepted_units : list DurationUnit; minimum : Z }.

(** The discriminant [as u8] reads. *)
Definition unit_rank (u : DurationUnit) : Z :=
  match u with
  | Millisecond => 0 | Second => 1 | Minute => 2 | Hour => 3 | Day => 4 | Week => 5 | Month => 6
  end.

(** The loop of [DurationLimits::new]: the finest-first assertion at each step,
    then the assertion on the two flags. *)
Fixpoint limits_ok (previous : option DurationUnit) (has_minute has_month : bool)
    (units : list DurationUnit) : bool :=
  match units with
  | [] => negb (has_minute && has_month)
  | u :: rest =>
      match previous with Some p => unit_rank p <=? unit_rank u | None => true end
      && limits_ok (Some u) (match u with Minute => true | _ => has_minute end)
           (match u with Month => true | _ => has_month end) rest
  end.

(** [None] is a failed assertion. *)
Definition new_limits (units : list DurationUnit) (minimum : Z) : option DurationLimits :=
  match units with
  | [] => None
  | _ => if limits_ok None false false units then Some (mkLimits units minimum) else None
  end.

Section normalize.
Context (max_duration_since_epoch : Z).

Definition normalize_duration (raw : str) (limits : DurationLimits) : result DurationError str :=
  let value := trim raw in
  let '(digits, unit_text) := span_digits value in
  match unit_text with
  | [] => Err MissingUnit
  | _ =>
      match from_suffix unit_text with
      | None => Err UnitNotAccepted
      | Some unit =>
          if bool_decide (unit ∈ accepted_units limits) then
            match parse_u64 digits with
            | None => Err InvalidCount
            | Some count =>
                match checked_duration unit count with
                | None => Err InvalidDurationField
                | Some duration =>
                    rbind (validate_duration_epoch_hardstop max_duration_since_epoch duration)
                      (fun _ => if duration <? minimum limits then Err BelowMinimum else Ok value)
                end
            end
          else Err UnitNotAccepted
      end
  end.
End normalize.

(** ** Query suffixes *)

(** What a call that may panic gives back. *)
Inductive outcome (A : Type) := Panics | Returns (a : A).
Arguments Panics {A}.
Arguments Returns {A} a.

(** [trimmed.split_at(trimmed.len() - 1)] on a nonempty string: a panic unless
    the last character is one byte long. *)
Definition split_last_byte (s : str) : outcome (str * str) :=
  match reverse s with
  | [] => Panics
  | c :: r => if (len_utf8 c =? 1)%nat then Returns (reverse r, [c]) else Panics
  end.

(** The ending [mo], stripped. *)
Definition strip_suffix (ending s : str) : option str :=
  if starts_with (reverse ending) (reverse s)
  then Some (take (length s - length ending) s) else None.

Section suffixes.
Context {D : Type}.
(** chrono's constructors, which panic when the value is out of bounds. *)
Context (seconds minutes hours days weeks : Z -> outcome D).

Definition constructed (o : outcome D) : outcome (option D) :=
  match o with Panics => Panics | Returns d => Returns (Some d) end.

Definition parse_duration_suffix (input : str) : outcome (option D) :=
  let trimmed := trim input in
  match trimmed with
  | [] => Returns None
  | _ =>
      match split_last_byte trimmed with
      | Panics => Panics
      | Returns (number_part, unit) =>
          match parse_i64 number_part with
          | None => Returns None
          | Some value =>
              if value <? 0 then Returns None
              else if str_eqb unit (lit "s") then constructed (seconds value)
              else if str_eqb unit (lit "m") then constructed (minutes value)
              else if str_eqb unit (lit "h") then constructed (hours value)
              else if str_eqb unit (lit "d") then constructed (days value)
              else if str_eqb unit (lit "w") then constructed (weeks value)
              else Returns None
          end
      end
  end.

(** [i64::checked_mul] on the nonnegative counts of the callers. *)
Definition checked_mul_i64 (a b : Z) : option Z := if a * b <=? I64_MAX then Some (a * b) else None.

Definition days_of (o : option Z) : outcome (option D) :=
  match o with None => Returns None | Some n => constructed (days n) end.

Definition parse_coarse_duration_suffix (input : str) : outcome (option D) :=
  let trimmed := trim input in
  match trimmed with
  | [] => Returns None
  | _ =>
      match strip_suffix (lit "mo") trimmed with
      | Some number_part =>
          match parse_i64 number_part with
          | None => Returns None
          | Some value => if value <? 0 then Returns None else days_of (checked_mul_i64 value 30)
          end
      | None =>
          match split_last_byte trimmed with
          | Panics => Panics
          | Returns (number_part, unit) =>
              match parse_i64 number_part with
              | None => Returns None
              | Some value =>
                  if value <? 0 then Returns None
                  else if str_eqb unit (lit "m") then constructed (minutes value)
                  else if str_eqb unit (lit "h") then constructed (hours value)
                  else if str_eqb unit (lit "d") then constructed (days value)
                  else if str_eqb unit (lit "w") then constructed (weeks value)
                  else if str_eqb unit (lit "y") then days_of (checked_mul_i64 value 365)
                  else Returns None
              end
          end
      end
  end.
End suffixes.

(** ** Backoff *)

Definition SHIFT_CEILING : Z := 31.

(** [attempt], [max_exponent] are u32; [Duration::checked_mul] fails past
    [Duration::MAX]. *)
Definition exponential_backoff_delay (attempt base max max_exponent : Z) : Z :=
  let exponent := Z.min (Z.min (Z.max (attempt - 1) 0) max_exponent) SHIFT_CEILING in
  let product := base * Z.shiftl 1 exponent in
  Z.min (if product <=? DURATION_MAX then product else max) max.

(** ** Counts *)

(** [u64::to_string]; twenty digits hold every value. *)
Fixpoint decimal_digits (fuel : nat) (n : Z) : str :=
  match fuel with
  | O => []
  | S fuel' => if n <? 10 then [48 + n] else decimal_digits fuel' (n / 10) ++ [48 + n mod 10]
  end.
Definition decimal (n : Z) : str := decimal_digits 20 n.

Lemma parse_digits_app max acc s t :
  parse_digits max acc (s ++ t) = parse_digits max acc s ≫= fun v => parse_digits max v t.
Proof. revert acc. induction s as [|c s IH]; intros acc; simpl; [done|]. by repeat case_match. Qed.

Lemma digit_ascii d : 0 <= d < 10 -> is_ascii_digit (48 + d) = true.
Proof. intros H. unfold is_ascii_digit, in_range. apply andb_true_iff. rewrite !Z.leb_le. lia. Qed.

Lemma parse_digit max acc d :
  0 <= d < 10 -> acc * 10 + d <= max -> parse_digits max acc [48 + d] = Some (acc * 10 + d).
Proof.
  intros Hd Hm. simpl. rewrite digit_ascii by done. unfold digit_value.
  replace (acc * 10 + (48 + d - 48)) with (acc * 10 + d) by lia.
  by rewrite (proj2 (Z.leb_le _ _)).
Qed.

Lemma parse_decimal max fuel n :
  0 <= n <= max -> n < 10 ^ Z.of_nat fuel -> parse_digits max 0 (decimal_digits fuel n) = Some n.
Proof.
  revert n. induction fuel as [|fuel IH]; intros n Hn Hf; [simpl in Hf; by replace n with 0 by lia|].
  cbn [decimal_digits]. destruct (Z.ltb_spec n 10) as [Hlt|Hge]; [by rewrite parse_digit by lia|].
  pose proof (Z.div_mod n 10 ltac:(lia)) as Hdm. pose proof (Z.mod_pos_bound n 10 ltac:(lia)).
  rewrite Nat2Z.inj_succ, Z.pow_succ_r in Hf by lia.
  rewrite parse_digits_app, IH; [|lia|apply Z.div_lt_upper_bound; lia].
  cbn [mbind option_bind]. rewrite parse_digit by lia. f_equal. lia.
Qed.

Lemma decimal_is_digits fuel n : 0 <= n -> Forall (fun c => is_ascii_digit c = true) (decimal_digits fuel n).
Proof.
  revert n. induction fuel as [|fuel IH]; intros n Hn; [constructor|]. cbn [decimal_digits].
  destruct (Z.ltb_spec n 10); [constructor; [by apply digit_ascii|constructor]|].
  apply Forall_app. split; [apply IH, Z.div_pos; lia|]. constructor; [|constructor].
  apply digit_ascii, Z.mod_pos_bound. lia.
Qed.

Lemma decimal_cons n : exists c s, decimal n = c :: s.
Proof.
  unfold decimal. cbn [decimal_digits]. case_match; [eauto|].
  destruct (_ ++ [_]) eqn:E; [by apply app_eq_nil in E as [_ ?]|eauto].
Qed.

Lemma digit_not_plus c : is_ascii_digit c = true -> (c =? chr "+") = false.
Proof. unfold is_ascii_digit, in_range. intros H. bool_hyps. apply Z.eqb_neq. unfold chr. simpl. lia. Qed.

Lemma parse_u64_decimal n : 0 <= n <= U64_MAX -> parse_u64 (decimal n) = Some n.
Proof.
  intros Hn. assert (parse_digits U64_MAX 0 (decimal n) = Some n) as H
    by (apply parse_decimal; [done|unfold U64_MAX in Hn; simpl; lia]).
  destruct (decimal_cons n) as (c & s & E). rewrite E in *. unfold parse_u64.
  pose proof (decimal_is_digits 20 n ltac:(lia)) as Hd. fold (decimal n) in Hd. rewrite E in Hd.
  apply Forall_cons in Hd as [Hc _]. by rewrite digit_not_plus.
Qed.

Lemma span_digits_app a b :
  Forall (fun c => is_ascii_digit c = true) a ->
  (forall c r, b = c :: r -> is_ascii_digit c = false) -> span_digits (a ++ b) = (a, b).
Proof.
  induction 1 as [|c a Hc _ IH]; intros Hb; simpl.
  - destruct b as [|c b]; simpl; [done|]. by rewrite (Hb c b).
  - by rewrite Hc, IH.
Qed.

(** ** Units *)

Lemma str_eqb_refl a : str_eqb a a = true.
Proof. by apply str_eqb_eq. Qed.

Lemma from_suffix_suffix u : from_suffix (suffix u) = Some u.
Proof. by destruct u. Qed.

Lemma from_suffix_spec s u : from_suffix s = Some u <-> s = suffix u.
Proof.
  split; [|intros ->; apply from_suffix_suffix]. unfold from_suffix.
  repeat (case_match; [intros [= <-]; by apply str_eqb_eq|]). done.
Qed.

Lemma checked_mul_comm a b : checked_mul a b = checked_mul b a.
Proof. unfold checked_mul. by rewrite Z.mul_comm. Qed.

(** The parser in terms of the units: the units of the configuration syntax
    are those of the parser, less the month. *)
Definition unit_duration (u : DurationUnit) (count : Z) : option Z :=
  match u with Month => None | _ => checked_duration u count end.

Lemma checked_second value :
  0 <= value <= U64_MAX -> from_secs <$> checked_mul 1 value = Some (from_secs value).
Proof. intros H. unfold checked_mul. rewrite Z.mul_1_l. by rewrite (proj2 (Z.leb_le _ _)) by lia. Qed.

Lemma parse_digits_range max acc s v :
  0 <= acc <= max -> parse_digits max acc s = Some v -> 0 <= v <= max.
Proof.
  revert acc. induction s as [|c s IH]; intros acc Ha; simpl; [by intros [= <-]|].
  destruct (is_ascii_digit c) eqn:Ed; [|done]. destruct (Z.leb_spec (acc * 10 + digit_value c) max); [|done].
  apply IH. unfold is_ascii_digit, in_range, digit_value in *. bool_hyps. lia.
Qed.

Lemma parse_u64_range s v : parse_u64 s = Some v -> 0 <= v <= U64_MAX.
Proof.
  unfold parse_u64. destruct s as [|c s]; [done|]. assert (0 <= 0 <= U64_MAX) as H0 by done.
  repeat case_match; try done; by apply parse_digits_range.
Qed.

Lemma parse_duration_units input digits unit_text :
  span_digits (trim input) = (digits, unit_text) -> unit_text <> [] -> digits <> [] ->
  parse_duration_string input
  = from_suffix unit_text ≫= fun u => parse_u64 digits ≫= unit_duration u.
Proof.
  intros Es Hu Hd. unfold parse_duration_string. rewrite Es.
  destruct (trim input) as [|t0 tr] eqn:Et; [by injection Es as <- <-|].
  destruct unit_text as [|u0 ur]; [done|]. destruct digits as [|d0 dr]; [done|].
  unfold from_suffix. destruct (parse_u64 (d0 :: dr)) as [value|] eqn:Ev.
  - apply parse_u64_range in Ev.
    repeat (case_match; [simpl; first [done|apply checked_mul_comm|by rewrite checked_mul_comm
      |by rewrite checked_second]|]). done.
  - by repeat case_match.
Qed.

(** ** The properties *)

Lemma digit_not_ws c : is_ascii_digit c = true -> is_whitespace c = false.
Proof.
  unfold is_ascii_digit, is_whitespace, in_range. intros H. bool_hyps.
  repeat rewrite orb_false_iff. repeat split; try (apply Z.eqb_neq; lia); apply andb_false_iff;
    rewrite !Z.leb_gt; lia.
Qed.

Lemma count_no_edge_ws n u : 0 <= n -> no_edge_ws (decimal n ++ suffix u).
Proof.
  intros Hn. pose proof (decimal_is_digits 20 n Hn) as Hd. fold (decimal n) in Hd. split.
  - destruct (decimal_cons n) as (c & s & E). rewrite E in *. intros c' r [= <- _].
    apply digit_not_ws. by apply Forall_cons in Hd as [? _].
  - intros c r H. assert (exists c0 r0, suffix u = r0 ++ [c0] /\ is_whitespace c0 = false) as (c0 & r0 & E & Hw).
    { destruct u; first [by exists (chr "s"), (lit "m")|by exists (chr "o"), (lit "m")
        |by eexists _, []]. }
    rewrite E, (assoc_L (++)) in H. by apply app_inj_tail in H as [_ ->].
Qed.

(** Durations print and parse back: a count and a unit of the
    configuration syntax, padded with any whitespace, parse to exactly that
    many units, or to nothing when the seconds overflow 64 bits; a month, and
    a count without a unit, never parse. *)
Theorem duration_roundtrip n u pre post :
  0 <= n <= U64_MAX ->
  Forall (fun c => is_whitespace c = true) pre -> Forall (fun c => is_whitespace c = true) post ->
  parse_duration_string (pre ++ (decimal n ++ suffix u) ++ post)
  = match u with
    | Month => None
    | Millisecond => Some (n * unit_length u)
    | _ => if n * unit_length u <=? U64_MAX * unit_length Second then Some (n * unit_length u) else None
    end
  /\ parse_duration_string (pre ++ decimal n ++ post) = None.
Proof.
  intros Hn Hpre Hpost. pose proof (decimal_is_digits 20 n ltac:(lia)) as Hd. fold (decimal n) in Hd.
  pose proof (decimal_cons n) as (c0 & s0 & Ec). split.
  - assert (trim (pre ++ (decimal n ++ suffix u) ++ post) = decimal n ++ suffix u) as Et.
    { apply trim_pad; [done..|apply count_no_edge_ws; lia|by rewrite Ec]. }
    rewrite (parse_duration_units _ (decimal n) (suffix u)).
    + rewrite from_suffix_suffix, parse_u64_decimal by done. cbn [mbind option_bind].
      unfold unit_duration, checked_duration, checked_mul.
      destruct u; cbn [unit_length]; unfold from_millis, from_secs, as_secs, DAY_SECS; try done;
        try (f_equal; lia);
        repeat match goal with |- context [?a * 1000000000 / 1000000000] =>
          rewrite (Z.div_mul a 1000000000) by done end; simpl;
        repeat match goal with |- context [?a <=? ?b] => destruct (Z.leb_spec a b) end; simpl;
        try (f_equal; lia); try lia; done.
    + rewrite Et. apply span_digits_app; [done|]. intros c r E. by destruct u; injection E as <- _.
    + by destruct u.
    + by rewrite Ec.
  - unfold parse_duration_string. rewrite trim_pad; [|done|done| |by rewrite Ec].
    + cbv zeta. assert (span_digits (decimal n) = (decimal n, [])) as ->
        by (rewrite <- (app_nil_r (decimal n)) at 1; by apply span_digits_app).
      by rewrite Ec.
    + split; [intros c r E|intros c r E]; apply digit_not_ws; rewrite E in Hd;
        [by apply Forall_cons in Hd as [? _]|by apply Forall_app in Hd as [_ [? _]%Forall_cons]].
Qed.

Lemma duration_roundtrip_witness :
  parse_duration_string (lit " 90m ") = Some (from_secs 5400).
Proof.
  refine (proj1 (duration_roundtrip 90 Minute (lit " ") (lit " ") _ _ _));
    first [vm_compute; intuition discriminate | repeat constructor].
Defined.

Lemma normalize_ok now raw limits v :
  normalize_duration now raw limits = Ok v ->
  v = trim raw /\ exists digits u count d, span_digits v = (digits, suffix u) /\ u ∈ accepted_units limits
  /\ parse_u64 digits = Some count /\ checked_duration u count = Some d
  /\ minimum limits <= d <= now.
Proof.
  unfold normalize_duration. destruct (span_digits (trim raw)) as [digits unit_text] eqn:Es.
  destruct unit_text as [|u0 ur] eqn:Eu; [done|]. rewrite <- Eu in *.
  destruct (from_suffix unit_text) as [u|] eqn:Ef; [|done]. case_bool_decide as Hin; [|done].
  destruct (parse_u64 digits) as [count|] eqn:Ec; [|done].
  destruct (checked_duration u count) as [d|] eqn:Ed; [|done].
  unfold validate_duration_epoch_hardstop. destruct (Z.ltb_spec now d); [done|]. simpl.
  destruct (Z.ltb_spec d (minimum limits)); [done|]. intros [= <-]. split; [done|].
  apply from_suffix_spec in Ef as ->. exists digits, u, count, d. by auto with lia.
Qed.

Lemma limits_ok_units p mi mo units :
  limits_ok p mi mo units = true ->
  mi && mo = false /\ ((mi = true \/ Minute ∈ units) -> (mo = true \/ Month ∈ units) -> False).
Proof.
  revert p mi mo. induction units as [|u units IH]; intros p mi mo H.
  - simpl in H. apply negb_true_iff in H. split; [done|].
    intros [->|?%not_elem_of_nil] [->|?%not_elem_of_nil]; done.
  - apply andb_true_iff in H as [_ [H1 H2]%IH]. rewrite andb_false_iff in H1 |- *.
    split; [destruct u; naive_solver|]. rewrite !elem_of_cons.
    intros Ha Hb. apply H2; destruct u; naive_solver.
Qed.

(** A field that passes its limits stays usable: the text [normalize_duration]
    stores is accepted again unchanged by the same rules, and unless the field
    accepts months every later parse of it gives a duration between the field's
    minimum and the time since the epoch, which [validate_duration_field]
    accepts too. A field never accepts both minutes and months. *)
Theorem normalized_duration_reparses now raw limits units low v :
  new_limits units low = Some limits -> normalize_duration now raw limits = Ok v ->
  normalize_duration now v limits = Ok v
  /\ ~ (Minute ∈ units /\ Month ∈ units)
  /\ (Month ∉ units -> exists d, parse_duration_string v = Some d /\ low <= d <= now
                         /\ validate_duration_field now v = Ok d).
Proof.
  intros Hl Hn. pose proof Hn as (Ev & digits & u & count & d & Es & Hu & Ec & Ed & Hd)%normalize_ok.
  unfold new_limits in Hl. destruct units as [|u0 units]; [done|].
  destruct (limits_ok None false false (u0 :: units)) eqn:Eok; [|done]. injection Hl as <-.
  split; [|split].
  - subst v. unfold normalize_duration in *. by rewrite trim_idemp.
  - apply limits_ok_units in Eok as [_ Hx]. intros [H1 H2]. apply Hx; by right.
  - intros Hm. exists d. assert (parse_duration_string v = Some d) as Ep.
    { rewrite (parse_duration_units v digits (suffix u)); [|subst v; by rewrite trim_idemp|by destruct u
        |by intros ->].
      rewrite from_suffix_suffix, Ec. cbn [mbind option_bind]. unfold unit_duration.
      by destruct u. }
    split; [done|]. split; [done|]. unfold validate_duration_field. rewrite Ep.
    unfold validate_duration_epoch_hardstop. simpl in Hd. by rewrite (proj2 (Z.ltb_ge _ _)) by lia.
Qed.

Lemma normalized_duration_reparses_witness :
  exists limits d, new_limits [Hour; Day; Week] (from_secs 3600) = Some limits
  /\ normalize_duration (from_secs 1700000000) (lit " 36h ") limits = Ok (lit "36h")
  /\ parse_duration_string (lit "36h") = Some d.
Proof.
  exists (mkLimits [Hour; Day; Week] (from_secs 3600)).
  assert (new_limits [Hour; Day; Week] (from_secs 3600) = Some (mkLimits [Hour; Day; Week] (from_secs 3600)))
    as H1 by (vm_compute; reflexivity).
  assert (normalize_duration (from_secs 1700000000) (lit " 36h ")
            (mkLimits [Hour; Day; Week] (from_secs 3600)) = Ok (lit "36h")) as H2
    by (vm_compute; reflexivity).
  destruct (proj2 (proj2 (normalized_duration_reparses _ _ _ _ _ _ H1 H2))
    ltac:(apply (bool_decide_unpack _); vm_compute; exact I)) as (d & Hd & _).
  exists d. split; [exact H1|]. split; [exact H2|exact Hd].
Defined.

(** ** Backoff *)

(** The retry backoff of the runtime, as it documents itself: the first
    failure waits the base delay, each later one twice as long as the one
    before, until the exponent cap or the maximum is reached; the delay never
    leaves [base, max], never shrinks from one attempt to the next, and the
    shift never overflows 32 bits. *)
Theorem backoff_doubles_and_caps attempt base max max_exponent :
  1 <= attempt -> 0 <= max_exponent -> 0 < base <= max -> max <= DURATION_MAX ->
  let delay n := exponential_backoff_delay n base max max_exponent in
  delay 1 = base
  /\ base <= delay attempt <= max
  /\ delay attempt <= delay (attempt + 1)
  /\ (attempt <= Z.min max_exponent SHIFT_CEILING ->
      delay (attempt + 1) = Z.min (2 * delay attempt) max)
  /\ (Z.min max_exponent SHIFT_CEILING < attempt -> delay (attempt + 1) = delay attempt)
  /\ forall n, Z.shiftl 1 (Z.min (Z.min (Z.max (n - 1) 0) max_exponent) SHIFT_CEILING) < 2 ^ 32.
Proof.
  intros Ha He Hb Hm delay.
  assert (forall n, delay n = Z.min (base * 2 ^ Z.min (Z.min (Z.max (n - 1) 0) max_exponent) 31) max) as Hd.
  { intros n. unfold delay, exponential_backoff_delay, SHIFT_CEILING.
    rewrite Z.shiftl_1_l. destruct (Z.leb_spec (base * 2 ^ Z.min (Z.min (Z.max (n - 1) 0) max_exponent) 31) DURATION_MAX);
      lia. }
  unfold SHIFT_CEILING. rewrite !Hd.
  replace (Z.min (Z.min (Z.max (1 - 1) 0) max_exponent) 31) with 0 by lia.
  set (k := Z.min (Z.min (Z.max (attempt - 1) 0) max_exponent) 31).
  set (k' := Z.min (Z.min (Z.max (attempt + 1 - 1) 0) max_exponent) 31).
  assert (0 <= k <= k') as Hk by lia.
  pose proof (Z.pow_pos_nonneg 2 k ltac:(lia) ltac:(lia)).
  pose proof (Z.pow_le_mono_r 2 k k' ltac:(lia) ltac:(lia)).
  split; [rewrite Z.pow_0_r; lia|]. split; [nia|]. split; [nia|]. split; [|split].
  - intros Hle. replace k' with (Z.succ k) by lia. rewrite Z.pow_succ_r by lia. nia.
  - intros Hgt. by replace k' with k by lia.
  - intros n. rewrite Z.shiftl_1_l. apply Z.pow_lt_mono_r; lia.
Qed.

Lemma backoff_doubles_and_caps_witness :
  exponential_backoff_delay 6 (from_secs 2) (from_secs 60) 5 <= from_secs 60.
Proof.
  refine (proj2 (proj1 (proj2 (backoff_doubles_and_caps 6 (from_secs 2) (from_secs 60) 5 _ _ _ _))));
    vm_compute; intuition discriminate.
Defined.

(** ** Panics on a query *)

Section panics.
Context {D : Type} (seconds minutes hours days weeks : Z -> outcome D).

Lemma split_last_snoc r c :
  split_last_byte (r ++ [c]) = if (len_utf8 c =? 1)%nat then Returns (r, [c]) else Panics.
Proof. unfold split_last_byte. rewrite reverse_snoc. by rewrite reverse_involutive. Qed.

(** When a query suffix panics: on every input that ends in a character
    longer than one byte, and otherwise only when a duration constructor does,
    on a count that fits 64 bits; every other malformed input is [None]. *)
Theorem duration_suffix_panics input :
  parse_duration_suffix seconds minutes hours days weeks input = Panics
  <-> exists r c, trim input = r ++ [c]
      /\ ((1 < len_utf8 c)%nat
          \/ exists v, 0 <= v /\ parse_i64 r = Some v
             /\ (c = chr "s" /\ seconds v = Panics \/ c = chr "m" /\ minutes v = Panics
                 \/ c = chr "h" /\ hours v = Panics \/ c = chr "d" /\ days v = Panics
                 \/ c = chr "w" /\ weeks v = Panics)).
Proof.
  unfold parse_duration_suffix. destruct (trim input) as [|c r _] using rev_ind.
  { split; [done|]. intros (r & c & H & _). symmetry in H. by apply app_eq_nil in H as [_ ?]. }
  assert (forall P, (exists r0 c0, r ++ [c] = r0 ++ [c0] /\ P r0 c0) <-> P r c) as Hsnoc.
  { intros P. split; [intros (r0 & c0 & [<- <-]%app_inj_tail & H); done|eauto]. }
  rewrite Hsnoc, split_last_snoc. destruct (r ++ [c]) eqn:E; [by apply app_eq_nil in E as [_ ?]|]. clear E.
  pose proof (len_utf8_bounds c) as Hlen. destruct (Nat.eqb_spec (len_utf8 c) 1) as [H1|H1]; [|intuition lia].
  split.
  - intros H. right. destruct (parse_i64 r) as [v|]; [|done]. exists v. revert H.
    destruct (Z.ltb_spec v 0); [done|]. unfold constructed.
    repeat (case_match; [match goal with H : str_eqb [_] _ = true |- _ =>
      apply str_eqb_eq in H; injection H as -> end; case_match; [by auto 10|done]|]). done.
  - intros [?|(v & Hv & -> & H)]; [lia|]. rewrite (proj2 (Z.ltb_ge _ _)) by done.
    by destruct H as [[-> ->]|[[-> ->]|[[-> ->]|[[-> ->]|[-> ->]]]]].
Qed.
End panics.
