(* ===== verification/Cwd.v ===== *)
(** The working directory of a command: [resolve_cwd_under_workspace] and
    [ResolvedCommandCwd] of src/src/runtime/mediation/commands/policy/matching.rs.
    The file system is an interface; it may change between any two calls. *)

From S2P Require Import Prelude Text.
Open Scope Z_scope.

Record FileIdentity := mkIdentity { fi_dev : Z; fi_ino : Z }.

#[export] Instance FileIdentity_eq_dec : EqDecision FileIdentity.
Proof. solve_decision. Defined.

(** A canonical path is absolute: its components, free of [.], [..] and links. *)
Notation canonical_path := (list str) (only parsing).

(** The calls of [std::fs] the code makes; [None] is an I/O error. *)
Class FileSystem (F : Type) := {
  fs_canonicalize : F -> str -> option canonical_path;
  fs_metadata : F -> canonical_path -> option (bool * FileIdentity);
  (* open with O_DIRECTORY | O_NOFOLLOW, then the handle's own metadata *)
  fs_open_dir : F -> canonical_path -> option FileIdentity;
}.

Record ResolvedCommandCwd := mkCwd { cwd_path : canonical_path; cwd_identity : FileIdentity }.

Definition slash : char := chr "/".
Definition NUL : char := 0.

(** [Path::is_absolute] and [Path::join]. *)
Definition is_absolute (p : str) : bool := starts_with [slash] p.
Definition path_join (root requested : str) : str :=
  if is_absolute requested then requested
  else if str_eqb (drop (length root - 1) root) [slash] || str_eqb root [] then root ++ requested
  else root ++ [slash] ++ requested.

(** [Path::starts_with] compares whole components. *)
Fixpoint path_starts_with (prefix p : canonical_path) : bool :=
  match prefix, p with
  | [], _ => true
  | x :: prefix', y :: p' => str_eqb x y && path_starts_with prefix' p'
  | _ :: _, [] => false
  end.

(** [to_string_lossy] of a path whose names are text. *)
Definition display_path (cwd : ResolvedCommandCwd) : str :=
  match cwd_path cwd with
  | [] => [slash]
  | components => concat (map (fun c => slash :: c) components)
  end.

Inductive CwdError := CommandCwdOutsideWorkspace (requested : str).

Section cwd.
Context {F : Type} `{!FileSystem F}.

(** Every failure is the same refusal. The two [canonicalize] calls and the
    [metadata] call each see the file system of their moment. *)
Definition resolve_cwd_under_workspace (fs_root fs_candidate fs_meta : F) (root requested : str)
  : result CwdError ResolvedCommandCwd :=
  let refused := Err (CommandCwdOutsideWorkspace requested) in
  if existsb (Z.eqb NUL) requested then refused
  else
    let candidate := if is_absolute requested then requested else path_join root requested in
    match fs_canonicalize fs_root root with
    | None => refused
    | Some canonical_root =>
        match fs_canonicalize fs_candidate candidate with
        | None => refused
        | Some canonical_candidate =>
            match fs_metadata fs_meta canonical_candidate with
            | None => refused
            | Some (is_dir, identity) =>
                if negb is_dir then refused
                else if negb (path_starts_with canonical_root canonical_candidate) then refused
                else Ok (mkCwd canonical_candidate identity)
            end
        end
    end.

(** The directory handle the child is started in: the identity it has, or the
    I/O error. *)
Definition open_verified (fs : F) (cwd : ResolvedCommandCwd) : option FileIdentity :=
  match fs_open_dir fs (cwd_path cwd) with
  | None => None
  | Some identity => if bool_decide (identity = cwd_identity cwd) then Some identity else None
  end.

Lemma path_starts_with_prefix p q : path_starts_with p q = true <-> p `prefix_of` q.
Proof.
  revert q. induction p as [|x p IH]; intros q; simpl.
  - split; [intros _; apply prefix_nil|done].
  - destruct q as [|y q]; [split; [done|by intros [k ?]]|].
    rewrite andb_true_iff, str_eqb_eq, IH. split.
    + intros [-> H0]. by apply prefix_cons.
    + intros [k E]. injection E as -> ->. split; [done|]. by exists k.
Qed.

(** What the checks establish. Each of the four calls sees the file system of its
    moment, and nothing ties these moments together: the path was a directory when
    its metadata was read, it lies below what the root resolved to component by
    component, and an open gives the directory with that identity or nothing.
    Whether that directory is still below the root when the child starts is up to
    whoever may rename directories in between. *)
Lemma cwd_checked fs1 fs2 fs3 fs4 root requested :
  match resolve_cwd_under_workspace fs1 fs2 fs3 root requested with
  | Ok cwd =>
      NUL ∉ requested
      /\ (exists canonical_root, fs_canonicalize fs1 root = Some canonical_root
          /\ canonical_root `prefix_of` cwd_path cwd)
      /\ fs_metadata fs3 (cwd_path cwd) = Some (true, cwd_identity cwd)
      /\ (forall identity, open_verified fs4 cwd = Some identity -> identity = cwd_identity cwd)
  | Err e => e = CommandCwdOutsideWorkspace requested
  end.
Proof.
  unfold resolve_cwd_under_workspace, open_verified.
  destruct (existsb _ requested) eqn:En; [done|].
  destruct (fs_canonicalize fs1 root) as [r|]; [|done].
  destruct (fs_canonicalize fs2 _) as [c|]; [|done].
  destruct (fs_metadata fs3 c) as [[[] identity]|] eqn:Em; [|done|done]. simpl.
  destruct (path_starts_with r c) eqn:Es; [|done]. simpl.
  apply path_starts_with_prefix in Es. split; [|split; [by eauto|split; [done|]]].
  - intros Hin. rewrite <- not_true_iff_false, existsb_exists in En. apply En.
    exists NUL. split; [by apply list_elem_of_In|done].
  - intros i. case_match; [|done]. by case_bool_decide; [intros [= <-]|].
Qed.
End cwd.
