(* ===== verification/RateLimit.v ===== *)
(** Per-domain pacing of outbound requests (src/src/runtime/net_rate_limit.rs):
    the slot reservation, the circuit a rate-limit response opens, the process-wide
    table, and the waiting loop of [acquire].

    Instants and durations are nanoseconds. Every call reads the clock before it
    takes the lock, so calls of different threads may reach the table with
    instants out of order; a history below is any sequence of calls. *)

From S2P Require Import Prelude.
Open Scope Z_scope.

Definition from_secs (s : Z) : Z := s * 1000000000.
Definition as_secs (d : Z) : Z := d / 1000000000.

Definition GITHUB_API_HOST : string := "api.github.com".
Definition GITHUB_API_MIN_INTERVAL : Z := from_secs 10.
Definition DEFAULT_COOLDOWN : Z := from_secs (5 * 60).
Definition MAX_COOLDOWN : Z := from_secs (60 * 60).
Definition MAX_WAIT : Z := from_secs (15 * 60).

Record DomainPolicy := mkPolicy { min_interval : Z }.

Definition policy_for (host : string) : option DomainPolicy :=
  if bool_decide (host = GITHUB_API_HOST) then Some (mkPolicy GITHUB_API_MIN_INTERVAL) else None.

Record DomainState := mkDomain { next_allowed_at : option Z; circuit_open_until : option Z }.

Definition default_domain : DomainState := mkDomain None None.

Inductive Reservation := Ready | Wait (d : Z).

Definition reserve_slot (s : DomainState) (policy : DomainPolicy) (now : Z) : Reservation * DomainState :=
  let slot (s : DomainState) :=
    let ready := (Ready, mkDomain (Some (now + min_interval policy)) (circuit_open_until s)) in
    match next_allowed_at s with
    | Some at' => if now <? at' then (Wait (at' - now), s) else ready
    | None => ready
    end in
  match circuit_open_until s with
  | Some until => if now <? until then (Wait (until - now), s) else slot (mkDomain (next_allowed_at s) None)
  | None => slot s
  end.

Definition open_circuit (s : DomainState) (now cooldown : Z) : DomainState :=
  let until := now + cooldown in
  match circuit_open_until s with
  | Some current => if current <? until then mkDomain (next_allowed_at s) (Some until) else s
  | None => mkDomain (next_allowed_at s) (Some until)
  end.

(** [DOMAIN_STATES]: [entry(host).or_default()]. *)
Notation Domains := (gmap string DomainState) (only parsing).
Definition domain (host : string) (ds : Domains) : DomainState := default default_domain (ds !! host).

Definition report_rate_limited (host : string) (retry_after : option Z) (now : Z) (ds : Domains) : Domains :=
  match policy_for host with
  | None => ds
  | Some _ =>
      let cooldown := Z.min (default DEFAULT_COOLDOWN retry_after) MAX_COOLDOWN in
      <[host := open_circuit (domain host ds) now cooldown]> ds
  end.

Inductive AcquireError := DomainRateLimited (d : string) (retry_after_secs : Z).

(** One pass of the loop body under the lock: done, an error, or a sleep. *)
Inductive Attempt := Granted | Refused (e : AcquireError) | Sleep (d : Z).

Definition attempt (host : string) (now : Z) (ds : Domains) : Attempt * Domains :=
  match policy_for host with
  | None => (Granted, ds)
  | Some policy =>
      let (r, s) := reserve_slot (domain host ds) policy now in
      let ds' := <[host := s]> ds in
      match r with
      | Ready => (Granted, ds')
      | Wait wait =>
          if MAX_WAIT <? wait then (Refused (DomainRateLimited host (as_secs wait)), ds') else (Sleep wait, ds')
      end
  end.

(** The loop, run on the successive clock readings of its thread; [None] when
    the readings run out while it still waits. *)
Fixpoint acquire (host : string) (clock : list Z) (ds : Domains) : option (result AcquireError unit) * Domains :=
  match clock with
  | [] => (None, ds)
  | now :: later =>
      match attempt host now ds with
      | (Granted, ds') => (Some (Ok tt), ds')
      | (Refused e, ds') => (Some (Err e), ds')
      | (Sleep _, ds') => acquire host later ds'
      end
  end.

(** ** Histories of a paced host *)

(** Calls in the order they take the lock, whatever thread they come from. *)
Inductive call := CAttempt (host : string) (now : Z) | CReport (host : string) (retry_after : option Z) (now : Z).

(** What the calls about [host] did: when a request was let through and until
    when a rate-limit response forbade one. *)
Inductive mark := MGrant (at_ : Z) | MLimit (until : Z).

Definition run_call (host : string) (c : call) (ds : Domains) : list mark * Domains :=
  match c with
  | CAttempt h now =>
      let (a, ds') := attempt h now ds in
      (match a with Granted => if bool_decide (h = host) then [MGrant now] else [] | _ => [] end, ds')
  | CReport h retry now =>
      (if bool_decide (h = host)
       then [MLimit (now + Z.min (default DEFAULT_COOLDOWN retry) MAX_COOLDOWN)] else [],
       report_rate_limited h retry now ds)
  end.

(** The marks, oldest first. *)
Fixpoint run_calls (host : string) (cs : list call) (ds : Domains) : list mark * Domains :=
  match cs with
  | [] => ([], ds)
  | c :: cs =>
      let (m, ds1) := run_call host c ds in
      let (ms, ds2) := run_calls host cs ds1 in
      (m ++ ms, ds2)
  end.

(** A mark leaves a bound no later request may precede. *)
Definition mark_bound (interval : Z) (m : mark) : Z :=
  match m with MGrant t => t + interval | MLimit until => until end.

Definition respects (interval : Z) (earlier later : mark) : Prop :=
  match later with MGrant t => mark_bound interval earlier <= t | MLimit _ => True end.

(** The latest bound the state still holds. *)
Definition held_until (s : DomainState) (b : Z) : Prop :=
  (exists t, next_allowed_at s = Some t /\ b <= t) \/ (exists t, circuit_open_until s = Some t /\ b <= t).

Lemma reserve_holds s policy now r s' b :
  0 <= min_interval policy ->
  reserve_slot s policy now = (r, s') -> held_until s b -> held_until s' b /\ (r = Ready -> b <= now).
Proof.
  unfold reserve_slot, held_until. intros Hp H Hb.
  destruct s as [[n|] [c|]]; simpl in *;
    repeat match type of H with context [?x <? ?y] => destruct (Z.ltb_spec x y) end;
    simplify_eq; simpl; destruct Hb as [(t & E & Hb)|(t & E & Hb)]; simplify_eq;
    (split; [eauto with lia|]); try done; try (intros _; lia).
  all: left; eexists; split; [reflexivity|lia].
Qed.

Lemma reserve_ready_holds s policy now s' :
  reserve_slot s policy now = (Ready, s') -> held_until s' (now + min_interval policy).
Proof.
  unfold reserve_slot, held_until. intros H.
  destruct s as [[n|] [c|]]; simpl in *;
    repeat match type of H with context [?x <? ?y] => destruct (Z.ltb_spec x y) end;
    simplify_eq; left; by eexists.
Qed.

Lemma open_circuit_holds s now cooldown :
  held_until (open_circuit s now cooldown) (now + cooldown)
  /\ forall b, held_until s b -> held_until (open_circuit s now cooldown) b.
Proof.
  unfold open_circuit, held_until. destruct s as [n [c|]]; simpl; [destruct (Z.ltb_spec c (now + cooldown))|];
    simpl; split; try (intros b [(t & E & Hb)|(t & E & Hb)]; simplify_eq); eauto with lia.
Qed.

Section paced.
Context (host : string) (policy : DomainPolicy) (Hpolicy : policy_for host = Some policy).

Lemma policy_positive : 0 <= min_interval policy.
Proof. unfold policy_for in Hpolicy. case_bool_decide; simplify_eq. done. Qed.

(** One call: it keeps every bound, adds its own, and grants past all of them. *)
Lemma run_call_holds c ds ms ds' :
  run_call host c ds = (ms, ds') ->
  (forall b, held_until (domain host ds) b -> held_until (domain host ds') b)
  /\ (forall m, m ∈ ms -> held_until (domain host ds') (mark_bound (min_interval policy) m)
               /\ forall b, held_until (domain host ds) b -> match m with MGrant t => b <= t | MLimit _ => True end)
  /\ (length ms <= 1)%nat.
Proof.
  assert (forall h s (ds : Domains), h <> host -> domain host (<[h := s]> ds) = domain host ds) as Hother.
  { intros h s ds0 Hn. unfold domain. by rewrite lookup_insert_ne. }
  assert (forall s (ds : Domains), domain host (<[host := s]> ds) = s) as Hself.
  { intros s ds0. unfold domain. by rewrite lookup_insert_eq. }
  destruct c as [h now|h retry now]; simpl; intros H.
  - destruct (decide (h = host)) as [->|Hn].
    + unfold attempt in H. rewrite Hpolicy, bool_decide_eq_true_2 in H by done.
      destruct (reserve_slot _ _ _) as [r s'] eqn:Er.
      pose proof (fun b => reserve_holds _ _ _ _ _ b policy_positive Er) as Hh.
      destruct r as [|w]; [|destruct (MAX_WAIT <? w)]; simplify_eq; rewrite Hself;
        (split; [intros b Hb; by apply Hh|]); (split; [|simpl; lia]).
      * intros m ->%list_elem_of_singleton. split; [by apply reserve_ready_holds in Er|]. intros b Hb. by apply Hh.
      * by intros m ?%not_elem_of_nil.
      * by intros m ?%not_elem_of_nil.
    + rewrite bool_decide_eq_false_2 in H by done. destruct (attempt h now ds) as [a ds1] eqn:Ea.
      assert (domain host ds1 = domain host ds) as Ed.
      { unfold attempt in Ea. destruct (policy_for h); [|by simplify_eq].
        destruct (reserve_slot _ _ _) as [[|w] s']; [|destruct (MAX_WAIT <? w)]; simplify_eq; by apply Hother. }
      assert (ms = []) as -> by (destruct a; by simplify_eq). simplify_eq. rewrite Ed.
      split; [done|]. split; [by intros m ?%not_elem_of_nil|simpl; lia].
  - unfold report_rate_limited in H. destruct (decide (h = host)) as [->|Hn].
    + rewrite Hpolicy, bool_decide_eq_true_2 in H by done. simplify_eq. rewrite Hself.
      destruct (open_circuit_holds (domain host ds) now (Z.min (default DEFAULT_COOLDOWN retry) MAX_COOLDOWN))
        as [H1 H2]. split; [done|]. split; [|simpl; lia]. by intros m ->%list_elem_of_singleton.
    + rewrite bool_decide_eq_false_2 in H by done. simplify_eq. split; [|split; [by intros m ?%not_elem_of_nil|simpl; lia]].
      destruct (policy_for h); [|done]. by rewrite Hother.
Qed.

Lemma run_calls_holds cs ds ms ds' b :
  run_calls host cs ds = (ms, ds') -> held_until (domain host ds) b ->
  forall t, MGrant t ∈ ms -> b <= t.
Proof.
  revert ds ms. induction cs as [|c cs IH]; intros ds ms H Hb t Ht; simpl in H; simplify_eq;
    [by apply not_elem_of_nil in Ht|].
  destruct (run_call host c ds) as [m1 ds1] eqn:E1. destruct (run_calls host cs ds1) as [m2 ds2] eqn:E2.
  simplify_eq. apply run_call_holds in E1 as (Hk & Hm & _).
  apply elem_of_app in Ht as [Ht|Ht]; [|by eapply IH; eauto]. by apply (proj2 (Hm _ Ht)) in Hb.
Qed.

(** C33. Requests to a paced host stay spaced and off a rate-limited host. In
    any interleaving of acquisitions and rate-limit reports of any threads, from
    any state of the table and with clock readings in any order, a request is let
    through no sooner than the host's minimum interval after every earlier one,
    and no sooner than the end of every cooldown reported before it. *)
Theorem requests_paced cs ds ms ds' :
  run_calls host cs ds = (ms, ds') -> StronglySorted (respects (min_interval policy)) ms.
Proof.
  revert ds ms. induction cs as [|c cs IH]; intros ds ms H; simpl in H; simplify_eq; [constructor|].
  destruct (run_call host c ds) as [m1 ds1] eqn:E1. destruct (run_calls host cs ds1) as [m2 ds2] eqn:E2.
  simplify_eq. pose proof (IH _ _ E2) as Hs. apply run_call_holds in E1 as (_ & Hm & Hl).
  destruct m1 as [|m [|]]; simpl in *; [done| |lia]. constructor; [done|]. apply Forall_forall. intros [t|u] Ht; [|done].
  simpl. eapply run_calls_holds; [done| |done]. by apply Hm, elem_of_cons; left.
Qed.
End paced.

(** ** The waiting loop *)

(** The time a request at [now] has to wait for: the end of the open circuit, and
    once that is over the next slot. *)
Inductive in_force (s : DomainState) (now : Z) : Z -> Prop :=
| in_force_circuit t : circuit_open_until s = Some t -> now < t -> in_force s now t
| in_force_slot t :
    (forall c, circuit_open_until s = Some c -> c <= now) -> next_allowed_at s = Some t -> now < t ->
    in_force s now t.

Lemma in_force_ahead s now b : in_force s now b -> now < b.
Proof. by destruct 1. Qed.

Lemma in_force_cases s now : (exists b, in_force s now b) \/ forall b, ~ in_force s now b.
Proof.
  destruct s as [n c].
  destruct c as [c|]; [destruct (decide (now < c)) as [Hc|Hc]; [left; exists c; by apply in_force_circuit|]|];
    (destruct n as [n|]; [destruct (decide (now < n)) as [Hn|Hn]|]);
    try (left; exists n; apply in_force_slot; [intros ? ?; simplify_eq/=; lia|done|done]);
    right; intros b [t E Hlt|t _ E Hlt]; simplify_eq/=; lia.
Qed.

(** The state with an elapsed circuit dropped bounds later requests alike. *)
Definition dropped (s : DomainState) (now : Z) (s' : DomainState) : Prop :=
  s' = s \/ s' = mkDomain (next_allowed_at s) None /\ exists c, circuit_open_until s = Some c /\ c <= now.

Lemma in_force_dropped s now s' u b : dropped s now s' -> now <= u -> in_force s' u b <-> in_force s u b.
Proof.
  intros [->|[-> (c & Ec & Hc)]] Hu; [done|]. split; intros [t E Hlt|t H E Hlt]; simpl in *.
  - done.
  - apply in_force_slot; [|done|done]. intros c'. rewrite Ec. intros [= <-]. lia.
  - rewrite Ec in E. simplify_eq. lia.
  - by apply in_force_slot.
Qed.

Lemma dropped_again s now u s1 s2 : dropped s now s1 -> now <= u -> dropped s1 u s2 -> dropped s u s2.
Proof.
  intros [->|[-> (c & Ec & Hc)]] Hu [->|[-> (c' & Ec' & Hc')]]; simpl in *.
  - by left.
  - right. by eauto.
  - right. split; [done|]. exists c. split; [done|lia].
  - done.
Qed.

Section waiting.
Context (host : string) (policy : DomainPolicy) (Hpolicy : policy_for host = Some policy).

(** One pass: let through with nothing in force, else told to wait for what is. *)
Lemma attempt_free now ds :
  (forall b, ~ in_force (domain host ds) now b) ->
  attempt host now ds = (Granted, <[host := mkDomain (Some (now + min_interval policy)) None]> ds).
Proof.
  unfold attempt, reserve_slot. rewrite Hpolicy. destruct (domain host ds) as [n c]. intros Hb.
  assert (forall t, c = Some t -> t <= now) as Hc.
  { intros t ->. apply Z.nlt_ge. intros Hlt. by apply (Hb t), in_force_circuit. }
  assert (forall t, n = Some t -> t <= now) as Hn.
  { intros t ->. apply Z.nlt_ge. intros Hlt. by apply (Hb t), in_force_slot. }
  destruct c as [c|]; simpl; [rewrite (proj2 (Z.ltb_ge now c)) by auto|];
    (destruct n as [n|]; simpl; [rewrite (proj2 (Z.ltb_ge now n)) by auto|]); done.
Qed.

Lemma attempt_held now ds b :
  in_force (domain host ds) now b ->
  exists s', dropped (domain host ds) now s'
  /\ attempt host now ds
     = (if MAX_WAIT <? b - now then Refused (DomainRateLimited host (as_secs (b - now))) else Sleep (b - now),
        <[host := s']> ds).
Proof.
  unfold attempt, reserve_slot. rewrite Hpolicy. destruct (domain host ds) as [n c].
  intros [t E Hlt|t Hc E Hlt]; simpl in *; subst.
  - rewrite (proj2 (Z.ltb_lt now t)) by done. eexists. split; [by left|]. by destruct (MAX_WAIT <? t - now).
  - destruct c as [c|].
    + rewrite (proj2 (Z.ltb_ge now c)), (proj2 (Z.ltb_lt now t)) by auto. simpl.
      eexists. split; [right; by eauto|]. by destruct (MAX_WAIT <? t - now).
    + rewrite (proj2 (Z.ltb_lt now t)) by done. eexists. split; [by left|]. by destruct (MAX_WAIT <? t - now).
Qed.

(** What the loop does at a reading it reaches: all readings before found a bound
    within the longest wait. *)
Definition outcome (s : DomainState) (ds : Domains) (t : Z) (out : option (result AcquireError unit) * Domains) : Prop :=
  ((forall b, ~ in_force s t b)
   /\ out = (Some (Ok tt), <[host := mkDomain (Some (t + min_interval policy)) None]> ds))
  \/ (exists b s', in_force s t b /\ from_secs 900 < b - t /\ dropped s t s'
      /\ out = (Some (Err (DomainRateLimited host ((b - t) / 1000000000))), <[host := s']> ds)).

(** One reading of the loop, from a table whose entry for the host bounds as [s]. *)
Lemma acquire_reading s s1 ds0 ds u t later :
  dropped s u s1 -> u <= t -> domain host ds = s1 -> ds = ds0 \/ ds = <[host := s1]> ds0 ->
  outcome s ds0 t (acquire host (t :: later) ds)
  \/ exists b s', in_force s t b /\ b - t <= from_secs 900 /\ dropped s t s'
     /\ acquire host (t :: later) ds = acquire host later (<[host := s']> ds0).
Proof.
  intros Hd Hu Es Hds. assert (forall s', <[host := s']> ds = <[host := s']> ds0) as Eins
    by (intros s'; destruct Hds as [->| ->]; [done|apply insert_insert_eq]).
  cbn [acquire]. destruct (in_force_cases (domain host ds) t) as [(b & Hb)|Hb].
  - destruct (attempt_held t ds b Hb) as (s' & Hd' & ->). rewrite Eins.
    rewrite Es in Hb, Hd'. pose proof (dropped_again _ _ _ _ _ Hd Hu Hd') as Hd2.
    apply (in_force_dropped _ _ _ _ _ Hd Hu) in Hb. destruct (Z.ltb_spec MAX_WAIT (b - t)).
    + left. right. by exists b, s'.
    + right. by exists b, s'.
  - rewrite (attempt_free t ds Hb), Eins. left. left. split; [|done].
    intros b Hf. apply (Hb b). rewrite Es. by apply (in_force_dropped _ _ _ _ _ Hd Hu).
Qed.

(** C40. [acquire] settles. A thread that no other overtakes, and that on every
    wait sleeps at least until the time it waits for, asks at most three times, from
    any state of the table. At the reading where it stops, either nothing is in force
    and it is let through, taking the next slot one interval later and closing the
    circuit; or the end of the circuit (or, with the circuit over, the next slot) is
    more than fifteen minutes away and it is refused with that wait in whole seconds,
    no slot taken. It slept exactly on the readings before, each with a bound at most
    fifteen minutes away. Other hosts' entries are untouched. *)
Theorem acquire_settles t1 t2 t3 ds :
  let s := domain host ds in
  let sleeps t next := forall b, in_force s t b -> b - t <= from_secs 900 -> b <= next in
  sleeps t1 t2 -> sleeps t2 t3 ->
  exists i t, [t1; t2; t3] !! i = Some t
  /\ (forall j u, (j < i)%nat -> [t1; t2; t3] !! j = Some u -> exists b, in_force s u b /\ b - u <= from_secs 900)
  /\ outcome s ds t (acquire host [t1; t2; t3] ds).
Proof.
  intros s sleeps H12 H23.
  destruct (acquire_reading s s ds ds t1 t1 [t2; t3]) as [Ho|(b1 & s1 & Hb1 & Hw1 & Hd1 & E1)];
    [by left|done|done|by left|exists 0%nat, t1; split_and!; [done|lia|done]|].
  pose proof (H12 b1 Hb1 Hw1). pose proof (in_force_ahead _ _ _ Hb1).
  destruct (acquire_reading s s1 ds (<[host := s1]> ds) t1 t2 [t3]) as [Ho|(b2 & s2 & Hb2 & Hw2 & Hd2 & E2)];
    [done|lia|unfold domain; by rewrite lookup_insert_eq|by right| |].
  { rewrite <- E1 in Ho. exists 1%nat, t2. split_and!; [done| |done]. intros [|j] u Hj Eu; [|lia]. simplify_eq/=. by eauto. }
  pose proof (H23 b2 Hb2 Hw2). pose proof (in_force_ahead _ _ _ Hb2).
  destruct (acquire_reading s s2 ds (<[host := s2]> ds) t2 t3 []) as [Ho|(b3 & s3 & Hb3 & Hw3 & _)];
    [done|lia|unfold domain; by rewrite lookup_insert_eq|by right| |].
  - rewrite <- E2, <- E1 in Ho. exists 2%nat, t3. split_and!; [done| |done].
    intros [|[|j]] u Hj Eu; [..|lia]; simplify_eq/=; by eauto.
  - exfalso. destruct Hb1 as [c Ec1 Hc1|n Hc1 En1 Hn1], Hb2 as [c' Ec2 Hc2|n' Hc2 En2 Hn2],
      Hb3 as [c'' Ec3 Hc3|n'' Hc3' En3 Hn3]; simplify_eq; try lia.
Qed.
End waiting.

(** A host without a policy is not held up. *)
Lemma acquire_unpaced host t clock ds : policy_for host = None -> acquire host (t :: clock) ds = (Some (Ok tt), ds).
Proof. intros Hp. cbn [acquire]. unfold attempt. by rewrite Hp. Qed.

(** ** A rate-limited host *)

Definition busy : Domains :=
  report_rate_limited GITHUB_API_HOST (Some (from_secs 60)) 0
    (snd (attempt GITHUB_API_HOST (from_secs 55) ∅)).

Lemma requests_paced_witness :
  fst (run_calls GITHUB_API_HOST
         [CAttempt GITHUB_API_HOST 5; CReport GITHUB_API_HOST (Some 7000) 6; CAttempt GITHUB_API_HOST 8;
          CAttempt GITHUB_API_HOST (from_secs 20)] ∅)
  = [MGrant 5; MLimit 7006; MGrant (from_secs 20)]
  /\ StronglySorted (respects GITHUB_API_MIN_INTERVAL) [MGrant 5; MLimit 7006; MGrant (from_secs 20)].
Proof.
  split; [vm_compute; reflexivity|].
  eapply (requests_paced GITHUB_API_HOST (mkPolicy GITHUB_API_MIN_INTERVAL) eq_refl
    [CAttempt GITHUB_API_HOST 5; CReport GITHUB_API_HOST (Some 7000) 6; CAttempt GITHUB_API_HOST 8;
     CAttempt GITHUB_API_HOST (from_secs 20)] ∅).
  vm_compute. reflexivity.
Defined.

(** Three passes are needed: the circuit, the slot, the grant. *)
Lemma acquire_settles_witness :
  exists t out, acquire GITHUB_API_HOST [0; from_secs 60; from_secs 65] busy = out
  /\ outcome GITHUB_API_HOST (mkPolicy GITHUB_API_MIN_INTERVAL) (domain GITHUB_API_HOST busy) busy t out.
Proof.
  assert (domain GITHUB_API_HOST busy = mkDomain (Some (from_secs 65)) (Some (from_secs 60))) as Hs by (vm_compute; reflexivity).
  destruct (acquire_settles GITHUB_API_HOST (mkPolicy GITHUB_API_MIN_INTERVAL) eq_refl 0 (from_secs 60) (from_secs 65) busy)
    as (i & t & _ & _ & Ho).
  - intros b Hb _. rewrite Hs in Hb. destruct Hb as [c [= <-] _|n Hc _ _]; [done|]. specialize (Hc _ eq_refl). vm_compute in Hc. done.
  - intros b Hb _. rewrite Hs in Hb. destruct Hb as [c [= <-] _|n _ [= <-] _]; vm_compute; discriminate.
  - exists t. eexists. split; [reflexivity|exact Ho].
Defined.

Lemma busy_waits :
  (acquire GITHUB_API_HOST [0; from_secs 60; from_secs 65] busy).1 = Some (Ok tt)
  /\ (acquire GITHUB_API_HOST [0] (report_rate_limited GITHUB_API_HOST (Some (from_secs 1000)) 0 ∅)).1
     = Some (Err (DomainRateLimited GITHUB_API_HOST 1000)).
Proof. vm_compute. done. Qed.
