(* ===== verification/Glob.v ===== *)
(** The wildcard matcher of the command policy
    (src/src/runtime/mediation/commands/policy/matching.rs: [glob_match],
    [glob_match_inner]), its termination, and its relation to the declarative
    reading of a [*]/[?] pattern. *)

From S2P Require Import Prelude Text.
Open Scope Z_scope.

Definition star : Z := chr "*".
Definition quest : Z := chr "?".

(** ** The loop *)

(** The four mutable locals of [glob_match_inner]. *)
Record glob_state := GlobState {
  g_p : nat;
  g_i : nat;
  g_star_p : option nat;
  g_star_i : nat;
}.

Definition glob_init : glob_state := GlobState 0 0 None 0.

(** One iteration of the [while i < input.len()] body: the next state, or
    [None] where the body returns [false]. *)
Definition glob_step (pattern input : list Z) (s : glob_state) : option glob_state :=
  match pattern !! g_p s, input !! g_i s with
  | Some pc, Some ic =>
      if (pc =? ic) || (pc =? quest)
      then Some (GlobState (S (g_p s)) (S (g_i s)) (g_star_p s) (g_star_i s))
      else if pc =? star
      then Some (GlobState (S (g_p s)) (g_i s) (Some (g_p s)) (g_i s))
      else match g_star_p s with
           | Some sp => Some (GlobState (S sp) (S (g_star_i s)) (Some sp) (S (g_star_i s)))
           | None => None
           end
  | None, Some _ =>
      match g_star_p s with
      | Some sp => Some (GlobState (S sp) (S (g_star_i s)) (Some sp) (S (g_star_i s)))
      | None => None
      end
  | _, None => None
  end.

(** The trailing [while p < pattern.len() && pattern[p] == b'*'] loop together
    with the final [p == pattern.len()]: what is left is all stars. *)
Fixpoint only_stars (rest : list Z) : bool :=
  match rest with
  | [] => true
  | c :: rest' => if c =? star then only_stars rest' else false
  end.

(** The whole loop; [None] only when the fuel runs out. *)
Fixpoint glob_loop (fuel : nat) (pattern input : list Z) (s : glob_state) : option bool :=
  match fuel with
  | O => None
  | S fuel' =>
      if decide (g_i s < length input)%nat then
        match glob_step pattern input s with
        | Some s' => glob_loop fuel' pattern input s'
        | None => Some false
        end
      else Some (only_stars (drop (g_p s) pattern))
  end.

(** Every iteration lowers this measure, so it bounds the iterations. *)
Definition glob_measure (pattern input : list Z) (s : glob_state) : nat :=
  (length input - g_star_i s) * S (length input + length pattern)
  + (length input - g_i s) + (length pattern - g_p s).

Definition glob_fuel (pattern input : list Z) : nat :=
  S (glob_measure pattern input glob_init).

Definition glob_match_inner (pattern input : list Z) : bool :=
  default false (glob_loop (glob_fuel pattern input) pattern input glob_init).

Definition glob_match (pattern input : str) : bool :=
  glob_match_inner (as_bytes pattern) (as_bytes input).

(** ** What a pattern means *)

(** [*] stands for any bytes, [?] for one byte, anything else for itself. *)
Inductive gmatch : list Z -> list Z -> Prop :=
| gm_nil : gmatch [] []
| gm_skip p s : gmatch p s -> gmatch (star :: p) s
| gm_take p c s : gmatch (star :: p) s -> gmatch (star :: p) (c :: s)
| gm_any p c s : gmatch p s -> gmatch (quest :: p) (c :: s)
| gm_lit p c s : c <> star -> gmatch p s -> gmatch (c :: p) (c :: s).

#[export] Hint Constructors gmatch : acps.

(** ** Termination *)

(** The loop keeps its indices in range and never moves [i] behind the
    position the last [*] was tried from. *)
Definition glob_wf (pattern input : list Z) (s : glob_state) : Prop :=
  (g_star_i s <= g_i s <= length input /\ g_p s <= length pattern)%nat
  /\ match g_star_p s with
     | Some sp => (sp < length pattern)%nat
     | None => True
     end.

Ltac glob_cases H :=
  unfold glob_step in H;
  repeat match type of H with
  | context [match ?x with _ => _ end] =>
      let E := fresh "E" in destruct x eqn:E; try discriminate H
  end; injection H as <-; simpl in *.

Ltac lookup_bounds :=
  repeat match goal with
  | H : ?l !! ?i = Some _ |- _ =>
      lazymatch goal with
      | _ : (i < length l)%nat |- _ => fail
      | _ => pose proof (lookup_lt_Some l i _ H)
      end
  end.

Lemma glob_step_wf pattern input s s' :
  glob_wf pattern input s -> glob_step pattern input s = Some s' -> glob_wf pattern input s'.
Proof.
  destruct s as [p i sp si]. unfold glob_wf. intros [H1 H2] H.
  glob_cases H; lookup_bounds; destruct sp; simplify_eq; repeat split; lia.
Qed.

Lemma glob_step_decreases pattern input s s' :
  glob_wf pattern input s -> glob_step pattern input s = Some s' ->
  (glob_measure pattern input s' < glob_measure pattern input s)%nat.
Proof.
  destruct s as [p i sp si]. unfold glob_wf, glob_measure. intros [H1 H2] H.
  glob_cases H; lookup_bounds; destruct sp; simplify_eq; try lia; nia.
Qed.

Lemma glob_loop_total fuel pattern input s :
  glob_wf pattern input s -> (glob_measure pattern input s < fuel)%nat ->
  exists b, glob_loop fuel pattern input s = Some b.
Proof.
  revert s. induction fuel as [|fuel IH]; intros s Hwf Hf; simpl; [lia|].
  case_decide; [|by eexists].
  destruct (glob_step pattern input s) as [s'|] eqn:E; [|by eexists].
  apply IH; [by eapply glob_step_wf|].
  pose proof (glob_step_decreases _ _ _ _ Hwf E). lia.
Qed.

Lemma glob_init_wf pattern input : glob_wf pattern input glob_init.
Proof. unfold glob_wf, glob_init; simpl. split; [lia|done]. Qed.

(** ** Soundness *)

Lemma only_stars_gmatch rest : only_stars rest = true <-> gmatch rest [].
Proof.
  induction rest as [|c rest IH]; simpl; [split; auto with acps|].
  destruct (Z.eqb_spec c star) as [->|Hc].
  - rewrite IH. split; [auto with acps|]. by inversion 1.
  - split; [done|]. inversion 1; congruence.
Qed.

(** What is still to be matched from a state: the rest of the pattern against
    the rest of the input, or the last [*] taking at least one byte more. *)
Definition glob_goal (pattern input : list Z) (s : glob_state) : Prop :=
  gmatch (drop (g_p s) pattern) (drop (g_i s) input)
  \/ match g_star_p s with
     | Some sp => gmatch (drop sp pattern) (drop (S (g_star_i s)) input)
     | None => False
     end.

Definition star_marked (pattern : list Z) (s : glob_state) : Prop :=
  match g_star_p s with
  | Some sp => pattern !! sp = Some star
  | None => True
  end.

Lemma glob_step_star_marked pattern input s s' :
  star_marked pattern s -> glob_step pattern input s = Some s' -> star_marked pattern s'.
Proof.
  destruct s as [p i sp si]. unfold star_marked. intros Hm H.
  glob_cases H; bool_hyps; subst; auto.
Qed.

Lemma gmatch_star_drop p s k : gmatch (star :: p) (drop k s) -> gmatch (star :: p) s.
Proof.
  revert k. induction s as [|c s IH]; intros [|k]; simpl; eauto with acps.
Qed.

Lemma gmatch_star_drop_S p s k :
  gmatch (star :: p) (drop (S k) s) -> gmatch (star :: p) (drop k s).
Proof.
  intros H. apply (gmatch_star_drop _ _ 1). by rewrite drop_drop, Nat.add_1_r.
Qed.

Lemma gmatch_head pc p ic s :
  pc = ic \/ pc = quest -> gmatch p s -> gmatch (pc :: p) (ic :: s).
Proof.
  intros [->| ->] H; [|by constructor].
  destruct (decide (ic = star)) as [->|]; auto with acps.
Qed.

Lemma glob_step_sound pattern input s s' :
  star_marked pattern s -> glob_step pattern input s = Some s' ->
  glob_goal pattern input s' -> glob_goal pattern input s.
Proof.
  destruct s as [p i sp si]. unfold star_marked, glob_goal. intros Hm H.
  glob_cases H; bool_hyps; subst.
  - intros [Hg|Hg]; [left|right; done].
    rewrite (drop_S _ _ _ E), (drop_S _ _ _ E0). apply gmatch_head; [|done].
    apply orb_true_iff in E1 as [?%Z.eqb_eq|?%Z.eqb_eq]; auto.
  - intros [Hg|Hg]; left; rewrite (drop_S _ _ _ E); [by constructor|].
    rewrite (drop_S _ _ _ E0). apply gm_take. by rewrite <- (drop_S _ _ _ E).
  - intros [Hg|Hg]; right; rewrite (drop_S _ _ _ Hm); [by constructor|].
    rewrite (drop_S _ _ _ Hm) in Hg. by apply gmatch_star_drop_S.
  - intros [Hg|Hg]; right; rewrite (drop_S _ _ _ Hm); [by constructor|].
    rewrite (drop_S _ _ _ Hm) in Hg. by apply gmatch_star_drop_S.
Qed.

Lemma glob_loop_sound fuel pattern input s :
  star_marked pattern s -> glob_wf pattern input s ->
  glob_loop fuel pattern input s = Some true -> glob_goal pattern input s.
Proof.
  revert s. induction fuel as [|fuel IH]; intros s Hm Hwf; simpl; [done|].
  case_decide as Hlt.
  - destruct (glob_step pattern input s) as [s'|] eqn:E; [|done]. intros H.
    eapply glob_step_sound; eauto.
    apply IH; eauto using glob_step_star_marked, glob_step_wf.
  - intros [= H%only_stars_gmatch]. left. by rewrite (drop_ge input) by lia.
Qed.

(** ** Completeness on inputs without a literal [*] *)

Definition no_star (s : list Z) : Prop := Forall (fun c => c <> star) s.

(** Since the last [*], pattern and input advanced in step over star-free
    pattern bytes. *)
Definition star_track (pattern : list Z) (s : glob_state) : Prop :=
  match g_star_p s with
  | Some sp => exists w, no_star w /\ (length w = g_i s - g_star_i s)%nat
      /\ (g_star_i s <= g_i s)%nat
      /\ drop (S sp) pattern = w ++ drop (g_p s) pattern
  | None => True
  end.

Lemma gmatch_app_inv w q s :
  no_star w -> gmatch (w ++ q) s ->
  (length w <= length s)%nat /\ gmatch q (drop (length w) s).
Proof.
  intros Hw. revert s. induction Hw as [|c w Hc _ IH]; intros s; simpl; [split; [lia|done]|].
  inversion 1; simplify_eq; simpl; edestruct IH; eauto with lia.
Qed.

Lemma gmatch_star_inv p s :
  gmatch (star :: p) s -> exists k, (k <= length s)%nat /\ gmatch p (drop k s).
Proof.
  remember (star :: p) as q eqn:E. intros H. revert p E.
  induction H as [| |p' c s H IH| |]; intros q' E; simplify_eq.
  - exists 0%nat. split; [lia|done].
  - destruct (IH q') as (k & Hk & Hg); [done|]. exists (S k). simpl. split; [lia|done].
Qed.

(** A later [*] makes every longer extent of the previous one unnecessary. *)
Lemma gmatch_later_star w q s k :
  no_star w -> (length w = k)%nat ->
  gmatch (star :: w ++ star :: q) s -> gmatch (star :: q) (drop k s) /\ (k <= length s)%nat.
Proof.
  intros Hw <- (j & Hj & Hg)%gmatch_star_inv.
  apply gmatch_app_inv in Hg as [Hl Hg]; [|done].
  rewrite drop_drop in Hg. rewrite length_drop in Hl. split; [|lia].
  apply (gmatch_star_drop _ _ j). by rewrite drop_drop, Nat.add_comm.
Qed.

Lemma gmatch_star_unfold p s k :
  gmatch (star :: p) (drop k s) ->
  gmatch p (drop k s) \/ gmatch (star :: p) (drop (S k) s).
Proof.
  inversion 1 as [|? ? Hs|? c s' Hs|? ? ? Hs|? ? ? Hn]; simplify_eq; auto.
  - right. assert (s' = drop (S k) s) as <-; [|done].
    rewrite <- Nat.add_1_r, <- drop_drop. by rewrite <- H1.
Qed.

Lemma glob_step_track pattern input s s' :
  no_star input -> star_track pattern s -> star_marked pattern s ->
  glob_step pattern input s = Some s' -> star_track pattern s'.
Proof.
  destruct s as [p i sp si]. unfold star_track, star_marked. intros Hno Ht Hm H.
  glob_cases H; bool_hyps; subst; try (exists []; simpl; repeat split; [constructor|lia..]).
  destruct sp as [sp|]; [|done]. destruct Ht as (w & Hw & Hl & Hle & Hd).
  exists (w ++ [z]). rewrite length_app; simpl. repeat split; [|lia..|].
  - apply Forall_app; split; [done|]. constructor; [|done]. intros ->.
    apply orb_true_iff in E1 as [E1|E1]; bool_hyps; [subst|done].
    by apply (Forall_lookup_1 _ _ _ _ Hno E0).
  - by rewrite Hd, (drop_S _ _ _ E), <- (assoc_L (++)).
Qed.

Lemma glob_goal_backtrack pattern input sp si :
  pattern !! sp = Some star ->
  gmatch (drop sp pattern) (drop (S si) input) ->
  glob_goal pattern input (GlobState (S sp) (S si) (Some sp) (S si)).
Proof.
  intros Hm Hg. unfold glob_goal; simpl.
  rewrite (drop_S _ _ _ Hm) in *. by apply gmatch_star_unfold.
Qed.

(** At a [*] of the pattern, the alternatives of the previous [*] are all
    covered by this one. *)
Lemma glob_goal_star pattern input p i sp si :
  pattern !! p = Some star -> star_marked pattern (GlobState p i sp si) ->
  star_track pattern (GlobState p i sp si) ->
  glob_goal pattern input (GlobState p i sp si) ->
  glob_goal pattern input (GlobState (S p) i (Some p) i).
Proof.
  unfold glob_goal, star_marked, star_track; simpl. intros Hp Hm Ht Hg.
  assert (gmatch (drop p pattern) (drop i input)) as Hg'.
  { destruct Hg as [?|Hg]; [done|]. destruct sp as [sp|]; [|done].
    destruct Ht as (w & Hw & Hl & Hle & Hd).
    rewrite (drop_S _ _ _ Hm), Hd, (drop_S _ _ _ Hp) in Hg.
    apply (gmatch_later_star w _ _ (i - si)) in Hg as [Hg _]; [|done..].
    rewrite (drop_S _ _ _ Hp). apply gmatch_star_drop_S.
    rewrite drop_drop in Hg. by replace (S i) with (S si + (i - si))%nat by lia. }
  rewrite (drop_S _ _ _ Hp) in *. by apply gmatch_star_unfold.
Qed.

Lemma glob_step_complete pattern input s :
  no_star input -> star_marked pattern s -> star_track pattern s ->
  (g_i s < length input)%nat -> glob_goal pattern input s ->
  exists s', glob_step pattern input s = Some s' /\ glob_goal pattern input s'.
Proof.
  destruct s as [p i sp si]. intros Hno Hm Ht Hi Hg. unfold glob_step; simpl in *.
  destruct (lookup_lt_is_Some_2 input i Hi) as [ic Eic]. rewrite Eic.
  pose proof (Forall_lookup_1 _ _ _ _ Hno Eic) as Hic; simpl in Hic.
  assert (forall q, drop p pattern = q -> ~ gmatch q (ic :: drop (S i) input) ->
    exists s', match sp with
      | Some sp0 => Some (GlobState (S sp0) (S si) (Some sp0) (S si))
      | None => None end = Some s' /\ glob_goal pattern input s') as Hback.
  { intros q <- Hn. unfold glob_goal in Hg; simpl in Hg. rewrite (drop_S _ _ _ Eic) in Hg.
    destruct Hg as [?|Hg]; [done|]. destruct sp as [sp|]; [|done].
    eauto using glob_goal_backtrack. }
  destruct (pattern !! p) as [pc|] eqn:Ep.
  2:{ apply (Hback []); [by apply drop_ge, lookup_ge_None|]. by inversion 1. }
  destruct ((pc =? ic) || (pc =? quest)) eqn:E1; [|destruct (pc =? star) eqn:E2; bool_hyps].
  - eexists; split; [reflexivity|]. unfold glob_goal in *; simpl in *.
    destruct Hg as [Hg|Hg]; [left|by right].
    rewrite (drop_S _ _ _ Eic), (drop_S _ _ _ Ep) in Hg.
    apply orb_true_iff in E1 as [E1|E1]; bool_hyps; subst; inversion Hg; by subst.
  - subst. eauto using glob_goal_star.
  - apply (Hback (pc :: drop (S p) pattern)); [by apply drop_S|]. by inversion 1.
Qed.

Lemma glob_loop_complete fuel pattern input s b :
  no_star input -> star_marked pattern s -> star_track pattern s -> glob_wf pattern input s ->
  glob_goal pattern input s -> glob_loop fuel pattern input s = Some b -> b = true.
Proof.
  intros Hno. revert s. induction fuel as [|fuel IH]; intros s Hm Ht Hwf Hg; simpl; [done|].
  case_decide as Hlt.
  - destruct (glob_step_complete pattern input s) as (s' & E & Hg'); [done..|].
    rewrite E. apply IH; eauto using glob_step_star_marked, glob_step_track, glob_step_wf.
  - intros [= <-]. apply only_stars_gmatch. unfold glob_goal in Hg.
    rewrite (drop_ge input) in Hg by lia. destruct Hg as [?|Hg]; [done|].
    unfold star_track, star_marked in *. destruct (g_star_p s) as [sp|] eqn:Esp; [|done].
    destruct Ht as (w & Hw & Hl & Hle & Hd). rewrite (drop_S _ _ _ Hm), Hd in Hg.
    apply gmatch_star_inv in Hg as (k & _ & Hg). apply gmatch_app_inv in Hg as [Hlen Hg]; [|done].
    rewrite !length_drop in Hlen. rewrite !drop_drop in Hg.
    by rewrite (drop_ge input) in Hg by (unfold glob_wf in Hwf; lia).
Qed.

Lemma glob_match_inner_loop pattern input :
  glob_loop (glob_fuel pattern input) pattern input glob_init
  = Some (glob_match_inner pattern input).
Proof.
  unfold glob_match_inner.
  destruct (glob_loop_total (glob_fuel pattern input) pattern input glob_init) as [b ->];
    [apply glob_init_wf | unfold glob_fuel; lia | done].
Qed.

Lemma lor_bit7_not_star a x : Z.testbit a 7 = true -> Z.lor a x <> star.
Proof.
  intros Ha E. apply (f_equal (fun z => Z.testbit z 7)) in E.
  by rewrite Z.lor_spec, Ha in E.
Qed.

Lemma encode_utf8_no_star c : c <> star -> no_star (encode_utf8 c).
Proof.
  intros Hc. unfold encode_utf8, cont.
  repeat case_match; repeat constructor; auto using lor_bit7_not_star.
Qed.

Lemma as_bytes_no_star s : no_star s -> no_star (as_bytes s).
Proof.
  unfold no_star. induction 1; simpl; [constructor|].
  apply Forall_app; split; [by apply encode_utf8_no_star | done].
Qed.

Lemma glob_match_gmatch pattern input :
  glob_match pattern input = true -> gmatch (as_bytes pattern) (as_bytes input).
Proof.
  unfold glob_match. intros H.
  pose proof (glob_match_inner_loop (as_bytes pattern) (as_bytes input)) as HL. rewrite H in HL.
  apply glob_loop_sound in HL as [HL|HL]; [done..|apply glob_init_wf].
Qed.

Lemma gmatch_glob_match pattern input :
  Forall (fun c => c <> star) input ->
  gmatch (as_bytes pattern) (as_bytes input) -> glob_match pattern input = true.
Proof.
  intros Hno Hg.
  apply (glob_loop_complete (glob_fuel (as_bytes pattern) (as_bytes input))
           (as_bytes pattern) (as_bytes input) glob_init);
    [by apply as_bytes_no_star | done | done | apply glob_init_wf | by left
    | apply glob_match_inner_loop].
Qed.

(** ** The properties of the matcher *)

(** The matcher's loop always returns: from its initial state it answers
    within the iterations its measure allows, whatever pattern and input. *)
Theorem glob_match_terminates pattern input :
  exists b, glob_loop (glob_fuel pattern input) pattern input glob_init = Some b
            /\ glob_match_inner pattern input = b.
Proof. eexists. by rewrite glob_match_inner_loop. Qed.

(** A positive answer is right: when [glob_match] says a command matches a
    pattern, the pattern's bytes do denote the command's bytes. *)
Theorem glob_match_sound pattern input :
  glob_match pattern input = true -> gmatch (as_bytes pattern) (as_bytes input).
Proof. apply glob_match_gmatch. Qed.

(** C36. On a command without a literal [*], the greedy loop with its single
    backtracking point decides exactly the declarative meaning of the pattern. *)
Theorem glob_match_equiv pattern input :
  Forall (fun c => c <> star) input ->
  glob_match pattern input = true <-> gmatch (as_bytes pattern) (as_bytes input).
Proof. intros Hno. split; [apply glob_match_gmatch | by apply gmatch_glob_match]. Qed.

Lemma glob_match_equiv_witness :
  Forall (fun c => c <> star) (lit "git push") /\
  (glob_match (lit "git *sh") (lit "git push") = true <->
   gmatch (as_bytes (lit "git *sh")) (as_bytes (lit "git push"))).
Proof.
  assert (Forall (fun c => c <> star) (lit "git push")) as H.
  { repeat constructor; discriminate. }
  split; [exact H | exact (glob_match_equiv _ _ H)].
Defined.

Lemma glob_match_sound_witness :
  glob_match (lit "rm *") (lit "rm -rf foo") = true /\
  gmatch (as_bytes (lit "rm *")) (as_bytes (lit "rm -rf foo")).
Proof.
  assert (glob_match (lit "rm *") (lit "rm -rf foo") = true) as H by (vm_compute; reflexivity).
  split; [exact H | exact (glob_match_sound _ _ H)].
Defined.

(** The restriction of the previous property is real: a [*] of the
    pattern that faces a literal [*] of the command is consumed as that one
    byte and forgotten as a wildcard, so [rm *] does not match [rm *.txt]. *)
Theorem glob_match_literal_star_missed :
  gmatch (as_bytes (lit "rm *")) (as_bytes (lit "rm *.txt"))
  /\ glob_match (lit "rm *") (lit "rm *.txt") = false.
Proof.
  split; [|vm_compute; reflexivity].
  change (gmatch (chr "r" :: chr "m" :: chr " " :: [star]) (lit "rm *.txt")).
  repeat (apply gm_lit; [discriminate|]). repeat (apply gm_take). apply gm_skip, gm_nil.
Qed.
