(* ===== verification/ShellWords.v ===== *)
(** Shell-word normalization of the command policy
    (src/src/runtime/mediation/commands/policy/normalize.rs and the word
    classifiers of policy/matching.rs): quotes, escapes and [$'..'] strings are
    removed so that deny and review patterns see the words the shell would run.

    The [Peekable<Chars>] cursor of the source is the list of characters still
    to be read; a function that advances it returns the remaining list. Byte
    offsets ([String::len], slice bounds) stay byte offsets. *)

From S2P Require Import Prelude Text.
Open Scope Z_scope.

(** ** Words *)

Record NormalizedShellWord := {
  w_text : str;
  w_constructed : bool;
  w_assignment_operator_index : option nat;
  w_assignment_name_constructed : bool;
  w_redirection_operator_end : option nat;
}.

Record NormalizedShellWords := {
  ns_text : str;
  ns_command_text : option str;
  ns_command_word_constructed : bool;
}.

Definition join_words (words : list NormalizedShellWord) : str :=
  join [chr " "] (map w_text words).

(** [&text[..n]]: the slice, or [None] where Rust panics because [n] is past
    the end or inside a character. *)
Fixpoint slice_to (s : str) (n : nat) : option str :=
  match n, s with
  | O, _ => Some []
  | _, [] => None
  | _, c :: s' => if (len_utf8 c <=? n)%nat
                  then cons c <$> slice_to s' (n - len_utf8 c) else None
  end.

(** ** Word classifiers (matching.rs) *)

Definition is_name_start (c : char) : bool := (c =? chr "_") || is_ascii_alphabetic c.
Definition is_name_char (c : char) : bool := (c =? chr "_") || is_ascii_alphanumeric c.

Definition is_shell_assignment_word (word : NormalizedShellWord) : bool :=
  if w_assignment_name_constructed word then false
  else match w_assignment_operator_index word with
  | None => false
  | Some operator_index =>
      match slice_to (w_text word) operator_index with
      | Some (first :: name) => is_name_start first && forallb is_name_char name
      | _ => false
      end
  end.

Definition redirection_prefix_width (words : list NormalizedShellWord) (index : nat)
  : option nat :=
  match words !! index with
  | None => None
  | Some word =>
      match w_redirection_operator_end word with
      | None => None
      | Some operator_end =>
          if bool_decide (str_len (w_text word) = operator_end)
             && bool_decide (is_Some (words !! S index))
          then Some 2%nat else Some 1%nat
      end
  end.

(** The [while words.get(index + width) is "-p"] loop behind [time]: how many
    [-p] follow. *)
Fixpoint leading_dash_p (words : list NormalizedShellWord) : nat :=
  match words with
  | word :: words' => if str_eqb (w_text word) (lit "-p") then S (leading_dash_p words') else 0
  | [] => 0
  end.

Definition shell_pipeline_prefix_width (words : list NormalizedShellWord) (index : nat)
  : option nat :=
  match words !! index with
  | None => None
  | Some word =>
      if str_eqb (w_text word) (lit "!") then Some 1%nat
      else if negb (str_eqb (w_text word) (lit "time")) then None
      else Some (S (leading_dash_p (drop (S index) words)))
  end.

(** The width of the prefix token at [index], in the order the loop tries
    them; [None] where the word is the command word. *)
Definition prefix_width (words : list NormalizedShellWord) (index : nat)
    (word : NormalizedShellWord) : option nat :=
  if is_shell_assignment_word word then Some 1%nat
  else match redirection_prefix_width words index with
  | Some width => Some width
  | None => shell_pipeline_prefix_width words index
  end.

Fixpoint command_word_index_from (fuel : nat) (words : list NormalizedShellWord)
    (index : nat) : option nat :=
  match fuel with
  | O => None
  | S fuel' =>
      match words !! index with
      | None => None
      | Some word =>
          match prefix_width words index word with
          | Some width => command_word_index_from fuel' words (index + width)
          | None => Some index
          end
      end
  end.

Definition command_word_index (words : list NormalizedShellWord) : option nat :=
  command_word_index_from (S (length words)) words 0.

(** First [<] or [>] of the word: its byte offset and the text from there. *)
Fixpoint find_redirect (word : str) (offset : nat) : option (nat * str) :=
  match word with
  | [] => None
  | c :: word' =>
      if (c =? chr "<") || (c =? chr ">") then Some (offset, word)
      else find_redirect word' (offset + len_utf8 c)
  end.

Definition operator_len (operator : str) : nat :=
  if starts_with (lit "<<-") operator || starts_with (lit "<<<") operator then 3
  else if starts_with (lit ">>") operator || starts_with (lit "<>") operator
       || starts_with (lit "<&") operator || starts_with (lit ">&") operator
       || starts_with (lit ">|") operator || starts_with (lit "<<") operator
  then 2 else 1.

Definition redirection_operator_end (word : str) (operator_prefix : bool) : option nat :=
  if operator_prefix then
    match find_redirect word 0 with
    | Some (start, operator) => Some (start + operator_len operator)%nat
    | None => None
    end
  else None.

(** ** ANSI-C quoted strings (normalize.rs) *)

Definition is_octal_digit (c : char) : bool := in_range 48 55 c.

Definition hex_value (c : char) : Z :=
  if is_ascii_digit c then c - 48 else if in_range 97 102 c then c - 87 else c - 55.

Definition from_radix (radix : Z) (digits : str) : Z :=
  foldl (fun v d => v * radix + hex_value d) 0 digits.

(** At most [max] characters satisfying [ok], and what follows them. *)
Fixpoint take_digits (max : nat) (ok : char -> bool) (chars : str) : str * str :=
  match max, chars with
  | S max', c :: chars' =>
      if ok c then let '(ds, rest) := take_digits max' ok chars' in (c :: ds, rest)
      else ([], chars)
  | _, _ => ([], chars)
  end.

(** The character a numeric escape stands for; [None] ends the string at a
    NUL, an invalid scalar value stands for nothing. *)
Definition decode_value (v : Z) : option str :=
  match char_from_u32 v with
  | None => Some []
  | Some c => if c =? 0 then None else Some [c]
  end.

Definition decode_octal_escape (chars : str) (first : char) : option str * str :=
  let '(more, rest) := take_digits 2 is_octal_digit chars in
  (decode_value (from_radix 8 (first :: more)), rest).

Definition decode_hex_escape (chars : str) (max : nat) : option str * str :=
  let '(digits, rest) := take_digits max is_ascii_hexdigit chars in
  match digits with
  | [] => (Some [], rest)
  | _ => (decode_value (from_radix 16 digits), rest)
  end.

Definition decode_ansi_c_escape (chars : str) : option str * str :=
  match chars with
  | [] => (Some [chr "\"], [])
  | ch :: rest =>
      if ch =? chr "a" then (Some [7], rest)
      else if ch =? chr "b" then (Some [8], rest)
      else if (ch =? chr "e") || (ch =? chr "E") then (Some [27], rest)
      else if ch =? chr "f" then (Some [12], rest)
      else if ch =? chr "n" then (Some [10], rest)
      else if ch =? chr "r" then (Some [13], rest)
      else if ch =? chr "t" then (Some [9], rest)
      else if ch =? chr "v" then (Some [11], rest)
      else if ch =? chr "x" then decode_hex_escape rest 2
      else if ch =? chr "u" then decode_hex_escape rest 4
      else if ch =? chr "U" then decode_hex_escape rest 8
      else if is_octal_digit ch then decode_octal_escape rest ch
      else (Some [ch], rest)
  end.

Fixpoint drain_ansi_c_quoted (chars : str) : str :=
  match chars with
  | [] => []
  | ch :: rest => if ch =? chr "'" then rest else drain_ansi_c_quoted rest
  end.

(** The loop of [consume_ansi_c_quoted]: the decoded output and the remaining
    characters; [None] only when the fuel runs out. *)
Fixpoint consume_ansi_c_loop (fuel : nat) (chars output : str) : option (str * str) :=
  match fuel with
  | O => None
  | S fuel' =>
      match chars with
      | [] => Some (output, [])
      | ch :: rest =>
          if ch =? chr "'" then Some (output, rest)
          else if ch =? chr "\" then
            match decode_ansi_c_escape rest with
            | (Some decoded, rest') => consume_ansi_c_loop fuel' rest' (output ++ decoded)
            | (None, rest') => Some (output, drain_ansi_c_quoted rest')
            end
          else if ch =? 0 then Some (output, drain_ansi_c_quoted rest)
          else consume_ansi_c_loop fuel' rest (output ++ [ch])
      end
  end.

Definition consume_ansi_c_quoted (chars : str) : str * str :=
  default ([], []) (consume_ansi_c_loop (S (length chars)) chars []).

(** ** The normalizer *)

(** The mutable locals of [normalize_shell_words]. *)
Record norm_state := NormState {
  n_words : list NormalizedShellWord;
  n_current : str;
  n_in_single : bool;
  n_in_double : bool;
  n_word_constructed : bool;
  n_assignment_operator_index : option nat;
  n_assignment_name_constructed : bool;
  n_redirection_operator_prefix : bool;
}.

Definition norm_init : norm_state := NormState [] [] false false false None false false.

(** [word_constructed = true; if assignment_operator_index.is_none() {
    assignment_name_constructed = true }]. *)
Definition mark_constructed (s : norm_state) : norm_state :=
  NormState (n_words s) (n_current s) (n_in_single s) (n_in_double s) true
    (n_assignment_operator_index s)
    (match n_assignment_operator_index s with
     | None => true
     | Some _ => n_assignment_name_constructed s
     end)
    (n_redirection_operator_prefix s).

Definition push_current (t : str) (s : norm_state) : norm_state :=
  NormState (n_words s) (n_current s ++ t) (n_in_single s) (n_in_double s)
    (n_word_constructed s) (n_assignment_operator_index s)
    (n_assignment_name_constructed s) (n_redirection_operator_prefix s).

Definition set_quotes (single double : bool) (s : norm_state) : norm_state :=
  NormState (n_words s) (n_current s) single double
    (n_word_constructed s) (n_assignment_operator_index s)
    (n_assignment_name_constructed s) (n_redirection_operator_prefix s).

Definition push_normalized_word (s : norm_state) : norm_state :=
  if negb (bool_decide (n_current s = [])) || n_word_constructed s then
    NormState
      (n_words s ++ [{|
         w_text := n_current s;
         w_constructed := n_word_constructed s;
         w_assignment_operator_index := n_assignment_operator_index s;
         w_assignment_name_constructed := n_assignment_name_constructed s;
         w_redirection_operator_end :=
           redirection_operator_end (n_current s) (n_redirection_operator_prefix s) |}])
      [] (n_in_single s) (n_in_double s) false None false false
  else NormState (n_words s) (n_current s) (n_in_single s) (n_in_double s)
         false None false false.

Definition is_expansion_char (c : char) : bool :=
  (c =? chr "*") || (c =? chr "?") || (c =? chr "{") || (c =? chr "}").

(** A guarded update of the locals: [if guard { .. }]. *)
Definition when (guard : bool) (f : norm_state -> norm_state) (s : norm_state) : norm_state :=
  if guard then f s else s.

(** [redirection_operator_prefix = true]. *)
Definition mark_redirection (s : norm_state) : norm_state :=
  NormState (n_words s) (n_current s) (n_in_single s) (n_in_double s)
    (n_word_constructed s) (n_assignment_operator_index s)
    (n_assignment_name_constructed s) true.

(** [assignment_operator_index = Some(current.len())]. *)
Definition mark_assignment (s : norm_state) : norm_state :=
  NormState (n_words s) (n_current s) (n_in_single s) (n_in_double s)
    (n_word_constructed s) (Some (str_len (n_current s)))
    (n_assignment_name_constructed s) (n_redirection_operator_prefix s).

(** The tail of the loop body, from the plain [$] test on: a character that no
    quote rule consumed. *)
Definition norm_plain (s : norm_state) (ch : char) : norm_state :=
  let neutral := negb (n_in_single s) && negb (n_in_double s) in
  let s := when ((ch =? chr "$") && negb (n_in_single s)) mark_constructed s in
  let s := when (neutral
              && (is_expansion_char ch
                  || (((ch =? chr "[") || (ch =? chr "]"))
                      && negb (bool_decide (n_current s = []))))) mark_constructed s in
  if is_whitespace ch && neutral then push_normalized_word s
  else
    let s := when (neutral && ((ch =? chr "<") || (ch =? chr ">"))
                && bool_decide (n_assignment_operator_index s = None)
                && negb (n_assignment_name_constructed s)
                && (bool_decide (n_current s = []) || forallb is_ascii_digit (n_current s)))
               mark_redirection s in
    let s := when ((ch =? chr "=") && neutral
                && bool_decide (n_assignment_operator_index s = None))
               mark_assignment s in
    push_current [ch] s.

(** One iteration of the [while let Some(ch) = chars.next()] body: the state
    after it and the characters left. *)
Definition norm_step (s : norm_state) (ch : char) (rest : str) : norm_state * str :=
  if (ch =? chr "\") && negb (n_in_single s) then
    let s := mark_constructed s in
    match rest with
    | next :: rest' => (if next =? chr "010" then s else push_current [next] s, rest')
    | [] => (push_current [ch] s, [])
    end
  else if (ch =? chr "'") && negb (n_in_double s) then
    (set_quotes (negb (n_in_single s)) (n_in_double s) (mark_constructed s), rest)
  else if (ch =? chr "034") && negb (n_in_single s) then
    (set_quotes (n_in_single s) (negb (n_in_double s)) (mark_constructed s), rest)
  else if (ch =? chr "$") && negb (n_in_single s) && negb (n_in_double s) then
    match rest with
    | next :: rest' =>
        if next =? chr "'" then
          let '(output, rest'') := consume_ansi_c_quoted rest' in
          (push_current output (mark_constructed s), rest'')
        else if next =? chr "034" then
          (set_quotes (n_in_single s) (negb (n_in_double s)) (mark_constructed s), rest')
        else (norm_plain s ch, rest)
    | [] => (norm_plain s ch, rest)
    end
  else (norm_plain s ch, rest).

(** [None] only when the fuel runs out. *)
Fixpoint norm_loop (fuel : nat) (s : norm_state) (chars : str) : option norm_state :=
  match chars with
  | [] => Some s
  | ch :: rest =>
      match fuel with
      | O => None
      | S fuel' => let '(s', rest') := norm_step s ch rest in norm_loop fuel' s' rest'
      end
  end.

(** The words of an already trimmed input. *)
Definition norm_words (input : str) : list NormalizedShellWord :=
  n_words (push_normalized_word (default norm_init (norm_loop (length input) norm_init input))).

Definition normalize_shell_words (input : str) : NormalizedShellWords :=
  let words := norm_words (trim input) in
  let command_index := command_word_index words in
  {| ns_text := join_words words;
     ns_command_text :=
       match command_index with
       | Some index => if (0 <? index)%nat then Some (join_words (drop index words)) else None
       | None => None
       end;
     ns_command_word_constructed :=
       match command_index with
       | Some index => match words !! index with
                       | Some word => w_constructed word
                       | None => false
                       end
       | None => false
       end |}.

(** [push_normalized_shell_words] and [push_normalized_candidates]: the
    candidates with the normalized forms that differ from the input. *)
Definition push_normalized_shell_words (candidates : list str) (input : str)
    (normalized : NormalizedShellWords) : list str :=
  let candidates := if str_eqb (ns_text normalized) input then candidates
                    else candidates ++ [ns_text normalized] in
  match ns_command_text normalized with
  | Some command_text =>
      if negb (str_eqb command_text input) && negb (str_eqb command_text (ns_text normalized))
      then candidates ++ [command_text] else candidates
  | None => candidates
  end.

Definition push_normalized_candidates (candidates : list str) (input : str) : list str :=
  push_normalized_shell_words candidates input (normalize_shell_words input).

#[global] Arguments normalize_shell_words : simpl never.
#[global] Arguments push_normalized_shell_words : simpl never.

(** ** Termination *)

Lemma take_digits_length max ok chars :
  (length (take_digits max ok chars).2 <= length chars)%nat.
Proof.
  revert chars. induction max as [|max IH]; intros [|c chars]; simpl; try lia.
  destruct (ok c); simpl; [|lia].
  specialize (IH chars). destruct (take_digits max ok chars); simpl in *. lia.
Qed.

Lemma decode_ansi_c_escape_length chars :
  (length (decode_ansi_c_escape chars).2 <= length chars)%nat.
Proof.
  destruct chars as [|c rest]; simpl; [lia|].
  assert (forall max, length (decode_hex_escape rest max).2 <= length rest)%nat as Hx.
  { intros max. unfold decode_hex_escape.
    pose proof (take_digits_length max is_ascii_hexdigit rest).
    destruct (take_digits max is_ascii_hexdigit rest) as [[|? ?] ?]; simpl in *; lia. }
  assert (length (decode_octal_escape rest c).2 <= length rest)%nat as Ho.
  { unfold decode_octal_escape. pose proof (take_digits_length 2 is_octal_digit rest).
    by destruct (take_digits 2 is_octal_digit rest). }
  repeat case_match; simpl; auto with lia.
Qed.

Lemma drain_ansi_c_quoted_length chars :
  (length (drain_ansi_c_quoted chars) <= length chars)%nat.
Proof. induction chars; simpl; [lia|]. case_match; lia. Qed.

Lemma consume_ansi_c_loop_total fuel chars output :
  (length chars < fuel)%nat ->
  exists out rest, consume_ansi_c_loop fuel chars output = Some (out, rest)
                   /\ (length rest <= length chars)%nat.
Proof.
  revert chars output. induction fuel as [|fuel IH]; intros [|c chars] output Hf; simpl in *;
    [lia..|by eauto|].
  destruct (c =? chr "'"); [by eauto with lia|].
  destruct (c =? chr "\").
  - pose proof (decode_ansi_c_escape_length chars) as Hl.
    destruct (decode_ansi_c_escape chars) as [[d|] rest]; simpl in Hl.
    + destruct (IH rest (output ++ d)) as (o & r & -> & Hr); [lia|]. eauto with lia.
    + pose proof (drain_ansi_c_quoted_length rest). eauto with lia.
  - pose proof (drain_ansi_c_quoted_length chars).
    destruct (c =? 0); [by eauto with lia|].
    destruct (IH chars (output ++ [c])) as (o & r & -> & Hr); [lia|]. eauto with lia.
Qed.

Lemma consume_ansi_c_quoted_length chars :
  (length (consume_ansi_c_quoted chars).2 <= length chars)%nat.
Proof.
  unfold consume_ansi_c_quoted.
  destruct (consume_ansi_c_loop_total (S (length chars)) chars []) as (o & r & -> & Hr); [lia|done].
Qed.

Lemma norm_step_length s ch rest : (length (norm_step s ch rest).2 <= length rest)%nat.
Proof.
  unfold norm_step. destruct rest as [|next rest]; repeat case_match; simplify_eq/=; try lia.
  pose proof (consume_ansi_c_quoted_length rest). simplify_option_eq.
  match goal with H : consume_ansi_c_quoted _ = _ |- _ => rewrite H in * end. simpl in *. lia.
Qed.

Lemma norm_loop_total fuel s chars :
  (length chars <= fuel)%nat -> exists s', norm_loop fuel s chars = Some s'.
Proof.
  revert s chars. induction fuel as [|fuel IH]; intros s [|c chars] Hf; simpl in *;
    [by eauto|lia|by eauto|].
  pose proof (norm_step_length s c chars).
  destruct (norm_step s c chars) as [s' rest]; simpl in *. apply IH. lia.
Qed.

(** With enough fuel the result does not depend on it. *)
Lemma norm_loop_fuel fuel1 fuel2 s chars :
  (length chars <= fuel1)%nat -> (length chars <= fuel2)%nat ->
  norm_loop fuel1 s chars = norm_loop fuel2 s chars.
Proof.
  revert fuel2 s chars.
  induction fuel1 as [|fuel1 IH]; intros [|fuel2] s [|c chars] H1 H2; simpl in *; try done; try lia.
  pose proof (norm_step_length s c chars).
  destruct (norm_step s c chars) as [s' rest]; simpl in *. apply IH; lia.
Qed.

(** The state the loop reaches, as a total function. *)
Definition norm_run (s : norm_state) (chars : str) : norm_state :=
  default s (norm_loop (length chars) s chars).

Lemma norm_run_loop fuel s chars :
  (length chars <= fuel)%nat -> norm_loop fuel s chars = Some (norm_run s chars).
Proof.
  intros Hf. unfold norm_run. rewrite (norm_loop_fuel fuel (length chars)) by lia.
  by destruct (norm_loop_total (length chars) s chars) as [s' ->].
Qed.

Lemma norm_run_nil s : norm_run s [] = s.
Proof. done. Qed.

Lemma norm_run_cons s ch rest :
  norm_run s (ch :: rest) = norm_run (norm_step s ch rest).1 (norm_step s ch rest).2.
Proof.
  apply (inj Some). rewrite <- (norm_run_loop (S (length rest))) by done. simpl.
  pose proof (norm_step_length s ch rest).
  destruct (norm_step s ch rest) as [s' rest']; simpl in *. by apply norm_run_loop.
Qed.

Lemma norm_words_run input :
  norm_words input = n_words (push_normalized_word (norm_run norm_init input)).
Proof. unfold norm_words. by rewrite norm_run_loop. Qed.

(** ** Reasoning principles for the loop *)

Lemma norm_run_invariant (P : norm_state -> Prop) s chars :
  (forall s ch rest, P s -> P (norm_step s ch rest).1) -> P s -> P (norm_run s chars).
Proof.
  intros Hstep. remember (length chars) as n eqn:Hn. revert s chars Hn.
  induction n as [n IH] using lt_wf_ind. intros s [|c chars] -> Hs; [done|].
  rewrite norm_run_cons. pose proof (norm_step_length s c chars).
  eapply IH; [|done|auto]. simpl. lia.
Qed.

Lemma norm_run_related (R : norm_state -> norm_state -> Prop) s t chars :
  (forall s t ch rest, R s t ->
     (norm_step s ch rest).2 = (norm_step t ch rest).2
     /\ R (norm_step s ch rest).1 (norm_step t ch rest).1) ->
  R s t -> R (norm_run s chars) (norm_run t chars).
Proof.
  intros Hstep. remember (length chars) as n eqn:Hn. revert s t chars Hn.
  induction n as [n IH] using lt_wf_ind. intros s t [|c chars] -> Hst; [done|].
  rewrite !norm_run_cons. destruct (Hstep s t c chars Hst) as [Hrest HR]. rewrite <- Hrest.
  pose proof (norm_step_length s c chars). eapply IH; [|done|done]. simpl. lia.
Qed.

(** ** The assignment slice never panics *)

Definition slice_ok (text : str) (index : option nat) : Prop :=
  forall k, index = Some k -> exists p q, text = p ++ q /\ str_len p = k.

Definition assign_inv (s : norm_state) : Prop :=
  slice_ok (n_current s) (n_assignment_operator_index s)
  /\ Forall (fun w => slice_ok (w_text w) (w_assignment_operator_index w)) (n_words s).

Lemma slice_ok_app text t index : slice_ok text index -> slice_ok (text ++ t) index.
Proof.
  intros H k Hk. destruct (H k Hk) as (p & q & -> & Hp). exists p, (q ++ t).
  by rewrite (assoc_L (++)).
Qed.

Lemma slice_ok_None text : slice_ok text None.
Proof. by intros k. Qed.

#[local] Hint Resolve slice_ok_app slice_ok_None : acps.

Lemma assign_inv_mark s : assign_inv s -> assign_inv (mark_constructed s).
Proof. done. Qed.

Lemma assign_inv_push t s : assign_inv s -> assign_inv (push_current t s).
Proof. intros [H1 H2]. split; simpl; auto with acps. Qed.

Lemma assign_inv_word s : assign_inv s -> assign_inv (push_normalized_word s).
Proof.
  intros [H1 H2]. unfold push_normalized_word. case_match; split; simpl; auto with acps.
  apply Forall_app; split; [done|]. by repeat constructor.
Qed.

Lemma assign_inv_when guard f s :
  (assign_inv s -> assign_inv (f s)) -> assign_inv s -> assign_inv (when guard f s).
Proof. unfold when. destruct guard; auto. Qed.

Lemma assign_inv_assignment s : assign_inv s -> assign_inv (mark_assignment s).
Proof.
  intros [_ H]. split; [|done]. intros k [= <-]. exists (n_current s), [].
  by rewrite app_nil_r.
Qed.

Lemma norm_plain_assign_inv s ch : assign_inv s -> assign_inv (norm_plain s ch).
Proof.
  intros H. unfold norm_plain.
  set (s1 := when _ mark_constructed s). assert (assign_inv s1) as H1 by by apply assign_inv_when.
  set (s2 := when _ mark_constructed s1). assert (assign_inv s2) as H2 by by apply assign_inv_when.
  case_match; [by apply assign_inv_word|].
  apply assign_inv_push, assign_inv_when; [apply assign_inv_assignment|].
  by apply assign_inv_when.
Qed.

Lemma norm_step_assign_inv s ch rest : assign_inv s -> assign_inv (norm_step s ch rest).1.
Proof.
  intros H. pose proof (norm_plain_assign_inv s ch H). unfold norm_step.
  repeat case_match; simpl; auto using assign_inv_push, assign_inv_mark.
Qed.

Lemma slice_to_cons c s n :
  (0 < n)%nat ->
  slice_to (c :: s) n = if (len_utf8 c <=? n)%nat
                        then cons c <$> slice_to s (n - len_utf8 c) else None.
Proof. destruct n; [lia|done]. Qed.

Lemma len_utf8_pos c : (0 < len_utf8 c)%nat.
Proof. unfold len_utf8. repeat case_match; lia. Qed.

Lemma slice_to_app p q : slice_to (p ++ q) (str_len p) = Some p.
Proof.
  induction p as [|c p IH]; [by destruct q|]. pose proof (len_utf8_pos c).
  change (str_len (c :: p)) with (len_utf8 c + str_len p)%nat.
  change ((c :: p) ++ q) with (c :: p ++ q). rewrite slice_to_cons by lia.
  destruct (Nat.leb_spec (len_utf8 c) (len_utf8 c + str_len p)); [|lia].
  replace (len_utf8 c + str_len p - len_utf8 c)%nat with (str_len p) by lia. by rewrite IH.
Qed.

Lemma norm_words_slice input w k :
  w ∈ norm_words input -> w_assignment_operator_index w = Some k ->
  is_Some (slice_to (w_text w) k).
Proof.
  rewrite norm_words_run. intros Hw Hk.
  assert (assign_inv (push_normalized_word (norm_run norm_init input))) as [_ HF].
  { apply assign_inv_word, norm_run_invariant; [apply norm_step_assign_inv|].
    split; simpl; [apply slice_ok_None|constructor]. }
  rewrite Forall_forall in HF. destruct (HF w Hw k Hk) as (p & q & -> & <-).
  rewrite slice_to_app. eauto.
Qed.

(** ** Plain text *)

(** Characters the normalizer gives no meaning to. *)
Definition plain_char (c : char) : bool :=
  negb ((c =? chr "\") || (c =? chr "'") || (c =? chr "034") || (c =? chr "$")
        || is_expansion_char c || (c =? chr "[") || (c =? chr "]")).

(** [str::split_whitespace] with a word in progress. *)
Fixpoint split_ws (s current : str) : list str :=
  match s with
  | [] => if bool_decide (current = []) then [] else [current]
  | c :: s' =>
      if is_whitespace c
      then (if bool_decide (current = []) then [] else [current]) ++ split_ws s' []
      else split_ws s' (current ++ [c])
  end.

Definition neutral_state (s : norm_state) : Prop :=
  n_in_single s = false /\ n_in_double s = false.

Lemma plain_char_inv c :
  plain_char c = true ->
  (c =? chr "\") = false /\ (c =? chr "'") = false /\ (c =? chr "034") = false
  /\ (c =? chr "$") = false /\ is_expansion_char c = false
  /\ (c =? chr "[") = false /\ (c =? chr "]") = false.
Proof. unfold plain_char. intros H%negb_true_iff. by rewrite !orb_false_iff in H; intuition. Qed.

Lemma norm_step_plain s c rest :
  plain_char c = true -> norm_step s c rest = (norm_plain s c, rest).
Proof.
  intros (E1 & E2 & E3 & E4 & _)%plain_char_inv. unfold norm_step.
  by rewrite E1, E2, E3, E4.
Qed.

Lemma norm_run_plain_app s a b :
  Forall (fun c => plain_char c = true) a ->
  norm_run s (a ++ b) = norm_run (norm_run s a) b.
Proof.
  intros Ha. revert s. induction Ha as [|c a Hc _ IH]; intros s; [done|].
  change ((c :: a) ++ b) with (c :: a ++ b).
  rewrite !norm_run_cons, !norm_step_plain by done. apply IH.
Qed.

(** A plain character leaves a neutral, unconstructed state neutral and
    unconstructed; it ends the word or extends it. *)
Lemma norm_plain_neutral s c :
  plain_char c = true -> neutral_state s -> n_word_constructed s = false ->
  let s' := norm_plain s c in
  neutral_state s' /\ n_word_constructed s' = false
  /\ if is_whitespace c
     then n_current s' = []
          /\ n_words s' = n_words (push_normalized_word s)
     else n_current s' = n_current s ++ [c] /\ n_words s' = n_words s.
Proof.
  intros (_ & _ & _ & E4 & E5 & E6 & E7)%plain_char_inv [Hs Hd] Hc. unfold norm_plain.
  rewrite E4, E5, E6, E7, Hs, Hd. simpl. unfold when at 5.
  destruct (is_whitespace c); simpl.
  - unfold push_normalized_word, neutral_state. rewrite Hc.
    destruct (bool_decide_reflect (n_current s = [])) as [E|E]; simpl; by rewrite ?E, ?Hs, ?Hd.
  - unfold neutral_state, when. repeat case_match; simpl; by rewrite ?Hs, ?Hd, ?Hc.
Qed.

Lemma push_word_texts s :
  n_word_constructed s = false ->
  map w_text (n_words (push_normalized_word s))
  = map w_text (n_words s) ++ (if bool_decide (n_current s = []) then [] else [n_current s])
  /\ (Forall (fun w => w_constructed w = false) (n_words s) ->
      Forall (fun w => w_constructed w = false) (n_words (push_normalized_word s))).
Proof.
  intros Hc. unfold push_normalized_word. rewrite Hc.
  destruct (bool_decide (n_current s = [])); simpl; [by rewrite app_nil_r|].
  rewrite map_app. split; [done|]. intros H. apply Forall_app; split; [done|].
  by repeat constructor.
Qed.

Lemma norm_run_plain s chars :
  Forall (fun c => plain_char c = true) chars -> neutral_state s ->
  n_word_constructed s = false ->
  let s' := norm_run s chars in
  n_word_constructed s' = false /\ neutral_state s'
  /\ map w_text (n_words (push_normalized_word s'))
     = map w_text (n_words s) ++ split_ws chars (n_current s)
  /\ (Forall (fun w => w_constructed w = false) (n_words s) ->
      Forall (fun w => w_constructed w = false) (n_words (push_normalized_word s'))).
Proof.
  intros Hp. revert s. induction Hp as [|c chars Hc _ IH]; intros s Hn Hcon.
  { rewrite norm_run_nil. destruct (push_word_texts s Hcon). done. }
  rewrite norm_run_cons, norm_step_plain by done. cbn [fst snd].
  destruct (norm_plain_neutral s c Hc Hn Hcon) as (Hn' & Hcon' & Heff).
  specialize (IH _ Hn' Hcon'). cbn zeta in *. destruct IH as (IH1 & IH2 & IH3 & IH4).
  split; [done|]. split; [done|]. simpl split_ws.
  destruct (push_word_texts s Hcon) as [HT HC].
  destruct (is_whitespace c); destruct Heff as [E1 E2]; rewrite E1, E2 in *.
  - rewrite IH3, HT, <- (assoc_L (++)). auto.
  - auto.
Qed.

(** ** Quoting a character away *)

(** Two loop states the normalized text cannot tell apart. *)
Definition same_text (s t : norm_state) : Prop :=
  map w_text (n_words s) = map w_text (n_words t)
  /\ n_current s = n_current t
  /\ n_in_single s = n_in_single t /\ n_in_double s = n_in_double t
  /\ (n_word_constructed s = n_word_constructed t \/ n_current s <> []).

Lemma same_text_refl s : same_text s s.
Proof. repeat split; auto. Qed.

Lemma same_text_mark s t : same_text s t -> same_text (mark_constructed s) (mark_constructed t).
Proof. intros (?&?&?&?&?). repeat split; simpl; auto. Qed.

Lemma same_text_push x s t : same_text s t -> same_text (push_current x s) (push_current x t).
Proof.
  intros (?&E&?&?&H). repeat split; simpl; auto; [by rewrite E|].
  destruct H as [?|H]; [by left|right]. intros [? _]%app_eq_nil. done.
Qed.

Lemma same_text_quotes q d s t : same_text s t -> same_text (set_quotes q d s) (set_quotes q d t).
Proof. intros (?&?&?&?&?). repeat split; simpl; auto. Qed.

(** Updates of the bookkeeping flags do not show in the text, so their guards
    may differ between the two states. *)
Lemma same_text_flags b b' s t :
  same_text s t ->
  same_text (when b mark_redirection s) (when b' mark_redirection t)
  /\ same_text (when b mark_assignment s) (when b' mark_assignment t).
Proof. intros (?&?&?&?&?). split; destruct b, b'; repeat split; simpl; auto. Qed.

Lemma same_text_when_mark b s t :
  same_text s t -> same_text (when b mark_constructed s) (when b mark_constructed t).
Proof. destruct b; simpl; auto using same_text_mark. Qed.

Lemma same_text_word s t :
  same_text s t -> same_text (push_normalized_word s) (push_normalized_word t).
Proof.
  intros (E1&E2&E3&E4&H). unfold push_normalized_word. rewrite E2 in *.
  assert (negb (bool_decide (n_current t = [])) || n_word_constructed s
          = negb (bool_decide (n_current t = [])) || n_word_constructed t) as ->.
  { destruct H as [->|H]; [done|]. by rewrite (bool_decide_eq_false_2 _ H). }
  case_match; repeat split; simpl; auto. by rewrite !map_app, E1.
Qed.

Lemma norm_plain_same_text s t c :
  same_text s t -> same_text (norm_plain s c) (norm_plain t c).
Proof.
  intros H. unfold norm_plain. pose proof H as (_&E&Es&Ed&_). rewrite Es, Ed.
  set (g := (c =? chr "$") && negb (n_in_single t)).
  pose proof (same_text_when_mark g s t H) as H1. pose proof H1 as (_&E1&_). rewrite E1.
  set (g1 := _ && (is_expansion_char c || _)).
  pose proof (same_text_when_mark g1 _ _ H1) as H2.
  case_match; [by apply same_text_word|].
  by apply same_text_push, same_text_flags, same_text_flags.
Qed.

Lemma norm_step_same_text s t c rest :
  same_text s t ->
  (norm_step s c rest).2 = (norm_step t c rest).2
  /\ same_text (norm_step s c rest).1 (norm_step t c rest).1.
Proof.
  intros H. pose proof (norm_plain_same_text s t c H).
  pose proof H as (_&_&Es&Ed&_). unfold norm_step. rewrite Es, Ed.
  repeat case_match; simpl; simplify_eq;
    auto using same_text_push, same_text_mark, same_text_quotes.
Qed.

Lemma norm_run_same_text s t chars :
  same_text s t -> same_text (norm_run s chars) (norm_run t chars).
Proof. apply norm_run_related, norm_step_same_text. Qed.

Lemma same_text_words s t :
  same_text s t ->
  join_words (n_words (push_normalized_word s)) = join_words (n_words (push_normalized_word t)).
Proof. intros [H _]%same_text_word. unfold join_words. by rewrite H. Qed.

Lemma norm_step_single_quote s rest :
  n_in_double s = false ->
  norm_step s (chr "'") rest
  = (set_quotes (negb (n_in_single s)) (n_in_double s) (mark_constructed s), rest).
Proof. intros H. unfold norm_step. change (chr "'" =? chr "\") with false. by rewrite H. Qed.

Lemma norm_step_double_quote s rest :
  n_in_single s = false ->
  norm_step s (chr "034") rest
  = (set_quotes (n_in_single s) (negb (n_in_double s)) (mark_constructed s), rest).
Proof.
  intros H. unfold norm_step. change (chr "034" =? chr "\") with false.
  change (chr "034" =? chr "'") with false. by rewrite H.
Qed.

(** An empty pair of quotes inside a word changes nothing the text shows. *)
Lemma empty_quotes_same_text q s b :
  q = chr "'" \/ q = chr "034" -> neutral_state s -> n_current s <> [] ->
  same_text (norm_run s (q :: q :: b)) (norm_run s b).
Proof.
  intros Hq [Es Ed] Hcur. rewrite norm_run_cons.
  destruct Hq as [-> | ->].
  - rewrite norm_step_single_quote by done. cbn [fst snd].
    rewrite norm_run_cons, norm_step_single_quote by done. cbn [fst snd].
    apply norm_run_same_text. repeat split; simpl; auto. by rewrite Es.
  - rewrite norm_step_double_quote by done. cbn [fst snd].
    rewrite norm_run_cons, norm_step_double_quote by done. cbn [fst snd].
    apply norm_run_same_text. repeat split; simpl; auto. by rewrite Ed.
Qed.

(** So does a backslash before a character that means itself. *)
Lemma backslash_same_text c s b :
  plain_char c = true -> is_whitespace c = false -> neutral_state s ->
  same_text (norm_run s (chr "\" :: c :: b)) (norm_run s (c :: b)).
Proof.
  intros Hc Hw Hn. rewrite (norm_run_cons s c), norm_step_plain by done.
  rewrite norm_run_cons. destruct Hn as [Es Ed]. unfold norm_step. simpl. rewrite Es. simpl.
  assert (c =? chr "010" = false) as ->.
  { apply Z.eqb_neq. intros ->. done. }
  apply norm_run_same_text. unfold norm_plain.
  destruct (plain_char_inv c Hc) as (_ & _ & _ & E4 & E5 & E6 & E7).
  rewrite Hw, E4, E5, E6, E7, Es, Ed. simpl.
  unfold same_text, when. repeat case_match; simpl; repeat split; auto.
  all: right; by intros [_ ?]%app_eq_nil.
Qed.

Lemma norm_run_plain_current a c :
  Forall (fun x => plain_char x = true) (a ++ [c]) -> is_whitespace c = false ->
  neutral_state (norm_run norm_init (a ++ [c]))
  /\ n_current (norm_run norm_init (a ++ [c])) <> [].
Proof.
  intros [Ha Hc]%Forall_app Hw. rewrite Forall_singleton in Hc.
  rewrite norm_run_plain_app by done.
  destruct (norm_run_plain norm_init a) as (Hcon & Hn & _); [done..|].
  set (s := norm_run norm_init a) in *. rewrite norm_run_cons, norm_step_plain by done.
  cbn [fst snd]. rewrite norm_run_nil.
  destruct (norm_plain_neutral s c) as (Hn' & _ & Heff); [done..|].
  rewrite Hw in Heff. destruct Heff as [-> _]. split; [done|]. by intros [_ ?]%app_eq_nil.
Qed.

(** ** The command word *)

(** The positions reached by skipping prefix tokens (assignments,
    redirections, [!], [time -p]). *)
Inductive prefix_chain (words : list NormalizedShellWord) (i : nat) : nat -> Prop :=
| pc_here : prefix_chain words i i
| pc_skip j word width :
    prefix_chain words i j -> words !! j = Some word ->
    prefix_width words j word = Some width -> prefix_chain words i (j + width).

Lemma prefix_width_pos words index word width :
  prefix_width words index word = Some width -> (0 < width)%nat.
Proof.
  unfold prefix_width, redirection_prefix_width, shell_pipeline_prefix_width.
  repeat case_match; intros; simplify_eq; lia.
Qed.

Lemma command_word_index_from_spec fuel words i j :
  (length words < fuel + j)%nat -> prefix_chain words i j ->
  match command_word_index_from fuel words j with
  | Some k => prefix_chain words i k
              /\ exists word, words !! k = Some word /\ prefix_width words k word = None
  | None => exists k, prefix_chain words i k /\ (length words <= k)%nat
  end.
Proof.
  revert j. induction fuel as [|fuel IH]; intros j Hf Hc; simpl; [exists j; split; [done|lia]|].
  destruct (words !! j) as [word|] eqn:E.
  - destruct (prefix_width words j word) as [width|] eqn:Ew; [|by eauto].
    pose proof (prefix_width_pos _ _ _ _ Ew). apply IH; [lia|]. by eapply pc_skip.
  - exists j. split; [done|]. by apply lookup_ge_None.
Qed.

(** ** The properties of the normalizer *)

(** Normalization always returns: neither the word loop nor the ANSI-C
    string loop runs out of the fuel its input length gives. *)
Theorem normalize_terminates input chars :
  (exists s, norm_loop (length input) norm_init input = Some s
             /\ norm_words input = n_words (push_normalized_word s))
  /\ (exists out rest, consume_ansi_c_loop (S (length chars)) chars [] = Some (out, rest)
                       /\ consume_ansi_c_quoted chars = (out, rest)).
Proof.
  split.
  - exists (norm_run norm_init input). split; [by apply norm_run_loop|apply norm_words_run].
  - unfold consume_ansi_c_quoted.
    destruct (consume_ansi_c_loop_total (S (length chars)) chars []) as (o & r & -> & _);
      [lia|eauto].
Qed.

(** The slice [&word.text[..operator_index]] of [is_shell_assignment_word]
    is in range and on a character boundary for every word the normalizer
    produces, so the policy check cannot panic there. *)
Theorem assignment_slice_in_bounds input word index :
  word ∈ norm_words input -> w_assignment_operator_index word = Some index ->
  is_Some (slice_to (w_text word) index).
Proof. apply norm_words_slice. Qed.

Lemma assignment_slice_in_bounds_witness :
  exists word, word ∈ norm_words (lit "X=1 ls") /\ is_Some (slice_to (w_text word) 1).
Proof.
  eexists. split; [|eapply (assignment_slice_in_bounds (lit "X=1 ls"))].
  - vm_compute. apply list_elem_of_here.
  - vm_compute. apply list_elem_of_here.
  - vm_compute. reflexivity.
Defined.

(** On text without quotes, escapes, expansions or brackets, normalization
    is whitespace splitting: the text is the words joined by single spaces and
    the command word counts as written literally. *)
Theorem normalize_plain_text input :
  Forall (fun c => plain_char c = true) (trim input) ->
  ns_text (normalize_shell_words input) = join [chr " "] (split_ws (trim input) [])
  /\ ns_command_word_constructed (normalize_shell_words input) = false.
Proof.
  intros Hp. destruct (norm_run_plain norm_init (trim input)) as (_ & _ & HT & HC); [done..|].
  unfold normalize_shell_words; cbn [ns_text ns_command_word_constructed].
  rewrite norm_words_run. split; [by unfold join_words; rewrite HT|].
  specialize (HC ltac:(constructor)). repeat case_match; try done.
  by eapply (Forall_lookup_1 _ _ _ _ HC).
Qed.

Lemma normalize_plain_text_witness :
  ns_text (normalize_shell_words (lit "  ls   -la ")) = lit "ls -la"
  /\ ns_command_word_constructed (normalize_shell_words (lit "  ls   -la ")) = false.
Proof.
  apply (normalize_plain_text (lit "  ls   -la ")). vm_compute. repeat constructor.
Defined.

(** Quoting tricks do not change what the patterns see: inserting an empty
    pair of quotes inside a word, or a backslash before an ordinary character,
    leaves the normalized text as it was. *)
Lemma quoting_leaves_text a c b q d :
  Forall (fun x => plain_char x = true) (a ++ [c]) -> is_whitespace c = false ->
  q = chr "'" \/ q = chr "034" ->
  plain_char d = true -> is_whitespace d = false ->
  no_edge_ws ((a ++ [c]) ++ b) -> no_edge_ws ((a ++ [c]) ++ [d] ++ b) ->
  ns_text (normalize_shell_words ((a ++ [c]) ++ [q; q] ++ b))
  = ns_text (normalize_shell_words ((a ++ [c]) ++ b))
  /\ ns_text (normalize_shell_words ((a ++ [c]) ++ [chr "\"; d] ++ b))
     = ns_text (normalize_shell_words ((a ++ [c]) ++ [d] ++ b)).
Proof.
  intros Hp Hw Hq Hd Hdw He1 He2.
  destruct (norm_run_plain_current a c Hp Hw) as [Hn Hcur].
  assert (a ++ [c] <> []) as Hne by by intros [_ ?]%app_eq_nil.
  assert (is_whitespace q = false) as Hqw by by destruct Hq as [-> | ->].
  unfold normalize_shell_words; cbn [ns_text]. rewrite !norm_words_run. split.
  - rewrite (trim_id ((a ++ [c]) ++ b)) by done.
    rewrite (trim_id ((a ++ [c]) ++ [q; q] ++ b)).
    2:{ apply no_edge_ws_insert; [done| |done|done].
        by intros x r [_ <-]%(app_inj_tail [q] r). }
    rewrite !(norm_run_plain_app norm_init (a ++ [c])) by done.
    by apply same_text_words, empty_quotes_same_text.
  - rewrite (trim_id ((a ++ [c]) ++ [d] ++ b)) by done.
    rewrite (trim_id ((a ++ [c]) ++ [chr "\"; d] ++ b)).
    2:{ apply (no_edge_ws_insert (a ++ [c]) [chr "\"] ([d] ++ b)); [done| |done|done].
        by intros x r [_ <-]%(app_inj_tail [] r). }
    rewrite !(norm_run_plain_app norm_init (a ++ [c])) by done.
    by apply same_text_words, backslash_same_text.
Qed.

(** [command_word_index] returns the first word that is no assignment,
    redirection, [!] or [time] prefix, skipping exactly the prefix tokens
    before it, and nothing only when the prefixes run past the last word. *)
Theorem command_word_index_spec words :
  match command_word_index words with
  | Some k => prefix_chain words 0 k
              /\ exists word, words !! k = Some word /\ prefix_width words k word = None
  | None => exists k, prefix_chain words 0 k /\ (length words <= k)%nat
  end.
Proof. apply command_word_index_from_spec; [lia|constructor]. Qed.
