(* ===== verification/ShellAnalysis.v ===== *)
(** Shell command analysis of the command policy
    (src/src/runtime/mediation/commands/policy/substitution.rs): splitting a
    command line into the simple commands behind control operators, command
    substitution and process substitution.

    The index into [chars] is represented by the suffix from that index on. *)

From S2P Require Import Prelude Text ShellWords.
Open Scope Z_scope.

Record ShellCommandAnalysis := {
  sa_segments : list str;
  sa_normalized_segments : list str;
  sa_composed : bool;
  sa_command_word_constructed : bool;
}.

(** ** Substitution parsers *)

(** The [while] loop of [parse_dollar_command_substitution]: the content and
    the characters after the closing parenthesis. *)
Fixpoint dollar_loop (chars content : str) (depth : nat) (in_single in_double escaped : bool)
  : option (str * str) :=
  match chars with
  | [] => None
  | ch :: rest =>
      if escaped then dollar_loop rest (content ++ [ch]) depth in_single in_double false
      else if (ch =? chr "\") && negb in_single then
        dollar_loop rest (content ++ [ch]) depth in_single in_double true
      else if (ch =? chr "'") && negb in_double then
        dollar_loop rest (content ++ [ch]) depth (negb in_single) in_double false
      else if (ch =? chr "034") && negb in_single then
        dollar_loop rest (content ++ [ch]) depth in_single (negb in_double) false
      else
        let neutral := negb in_single && negb in_double in
        match rest with
        | next :: rest' =>
            if neutral && (ch =? chr "$") && (next =? chr "(") then
              dollar_loop rest' (content ++ [ch; chr "("]) (S depth) in_single in_double false
            else if neutral && (ch =? chr ")") then
              if (depth - 1 =? 0)%nat then Some (content, rest)
              else dollar_loop rest (content ++ [ch]) (depth - 1) in_single in_double false
            else dollar_loop rest (content ++ [ch]) depth in_single in_double false
        | [] =>
            if neutral && (ch =? chr ")") then
              if (depth - 1 =? 0)%nat then Some (content, rest)
              else dollar_loop rest (content ++ [ch]) (depth - 1) in_single in_double false
            else dollar_loop rest (content ++ [ch]) depth in_single in_double false
        end
  end.

Definition parse_dollar_command_substitution (chars : str) : option (str * str) :=
  dollar_loop chars [] 1 false false false.

(** The [while] loop of [parse_parenthesized_shell_content]. *)
Fixpoint paren_loop (chars content : str) (depth : nat) (in_single in_double escaped : bool)
  : option (str * str) :=
  match chars with
  | [] => None
  | ch :: rest =>
      if escaped then paren_loop rest (content ++ [ch]) depth in_single in_double false
      else if (ch =? chr "\") && negb in_single then
        paren_loop rest (content ++ [ch]) depth in_single in_double true
      else if (ch =? chr "'") && negb in_double then
        paren_loop rest (content ++ [ch]) depth (negb in_single) in_double false
      else if (ch =? chr "034") && negb in_single then
        paren_loop rest (content ++ [ch]) depth in_single (negb in_double) false
      else if negb in_single && negb in_double && (ch =? chr "(") then
        paren_loop rest (content ++ [ch]) (S depth) in_single in_double false
      else if negb in_single && negb in_double && (ch =? chr ")") then
        if (depth - 1 =? 0)%nat then Some (content, rest)
        else paren_loop rest (content ++ [ch]) (depth - 1) in_single in_double false
      else paren_loop rest (content ++ [ch]) depth in_single in_double false
  end.

Definition parse_parenthesized_shell_content (chars : str) : option (str * str) :=
  paren_loop chars [] 1 false false false.

Definition parse_process_substitution (chars : str) : option (str * str) :=
  parse_parenthesized_shell_content chars.

(** The [while] loop of [parse_backtick_command_substitution]. *)
Fixpoint backtick_loop (chars content : str) (escaped : bool) : option (str * str) :=
  match chars with
  | [] => None
  | ch :: rest =>
      if escaped then backtick_loop rest (content ++ [ch]) false
      else if ch =? chr "\" then backtick_loop rest (content ++ [ch]) true
      else if ch =? chr "`" then Some (content, rest)
      else backtick_loop rest (content ++ [ch]) false
  end.

Definition parse_backtick_command_substitution (chars : str) : option (str * str) :=
  backtick_loop chars [] false.

(** ** The analyzer *)

Definition is_shell_separator (ch : char) : bool :=
  (ch =? chr ";") || (ch =? chr "&") || (ch =? chr "|") || (ch =? chr "010").

(** The mutable locals of [analyze_shell_command] besides the index. *)
Record an_state := AnState {
  a_segments : list str;
  a_normalized_segments : list str;
  a_current : str;
  a_in_single : bool;
  a_in_double : bool;
  a_escaped : bool;
  a_composed : bool;
  a_command_word_constructed : bool;
}.

Definition an_init : an_state := AnState [] [] [] false false false false false.

Definition an_push (t : str) (s : an_state) : an_state :=
  AnState (a_segments s) (a_normalized_segments s) (a_current s ++ t)
    (a_in_single s) (a_in_double s) (a_escaped s) (a_composed s)
    (a_command_word_constructed s).

Definition an_lex (single double escaped : bool) (s : an_state) : an_state :=
  AnState (a_segments s) (a_normalized_segments s) (a_current s)
    single double escaped (a_composed s) (a_command_word_constructed s).

Definition an_composed (s : an_state) : an_state :=
  AnState (a_segments s) (a_normalized_segments s) (a_current s)
    (a_in_single s) (a_in_double s) (a_escaped s) true (a_command_word_constructed s).

(** [command_word_constructed |= push_segment(..)]. *)
Definition push_segment (s : an_state) : an_state :=
  let segment := trim (a_current s) in
  if bool_decide (segment = []) then
    AnState (a_segments s) (a_normalized_segments s) []
      (a_in_single s) (a_in_double s) (a_escaped s) (a_composed s)
      (a_command_word_constructed s)
  else
    let normalized := normalize_shell_words segment in
    AnState (a_segments s ++ [segment])
      (push_normalized_shell_words (a_normalized_segments s) segment normalized) []
      (a_in_single s) (a_in_double s) (a_escaped s) (a_composed s)
      (a_command_word_constructed s || ns_command_word_constructed normalized).

(** What follows the loop: the last segment and the returned record. *)
Definition an_finish (s : an_state) : ShellCommandAnalysis :=
  let s := push_segment s in
  {| sa_segments := a_segments s;
     sa_normalized_segments := a_normalized_segments s;
     sa_composed := a_composed s;
     sa_command_word_constructed := a_command_word_constructed s |}.

(** [push_substitution_segments_with_normalized], given the analysis of the
    substitution's content. *)
Definition push_substitution (substitution : str) (analysis : ShellCommandAnalysis)
    (s : an_state) : an_state :=
  match sa_segments analysis with
  | [] =>
      let trimmed := trim substitution in
      if bool_decide (trimmed = []) then s
      else AnState (a_segments s ++ [trimmed])
             (push_normalized_candidates (a_normalized_segments s) trimmed) (a_current s)
             (a_in_single s) (a_in_double s) (a_escaped s) (a_composed s)
             (a_command_word_constructed s)
  | _ =>
      AnState (a_segments s ++ sa_segments analysis)
        (a_normalized_segments s ++ sa_normalized_segments analysis) (a_current s)
        (a_in_single s) (a_in_double s) (a_escaped s) (a_composed s)
        (a_command_word_constructed s)
  end.

(** The three substitution tests of the loop body, in order: the content and
    the characters after the substitution that starts at [ch], if one does. *)
Definition substitution_at (in_single in_double : bool) (ch : char) (rest : str)
  : option (str * str) :=
  match rest with
  | next :: rest' =>
      if negb in_single && (ch =? chr "$") && (next =? chr "(")
         && negb (match rest' with third :: _ => third =? chr "(" | [] => false end)
      then parse_dollar_command_substitution rest'
      else if negb in_single && negb in_double && ((ch =? chr "<") || (ch =? chr ">"))
              && (next =? chr "(")
      then parse_process_substitution rest'
      else if negb in_single && (ch =? chr "`")
      then parse_backtick_command_substitution rest
      else None
  | [] => None
  end.

(** The index step past a separator: [&&] and [||] take both characters. *)
Definition skip_separator (ch : char) (rest : str) : str :=
  match rest with
  | next :: rest' =>
      if ((ch =? chr "&") || (ch =? chr "|")) && (next =? ch) then rest' else rest
  | [] => rest
  end.

(** The loop of [analyze_shell_command], calling itself on the content of a
    substitution; [None] only when the fuel runs out. *)
Fixpoint analyze_loop (fuel : nat) (s : an_state) (chars : str) : option an_state :=
  match chars with
  | [] => Some s
  | ch :: rest =>
      match fuel with
      | O => None
      | S fuel' =>
          if a_escaped s then
            analyze_loop fuel' (an_lex (a_in_single s) (a_in_double s) false (an_push [ch] s)) rest
          else if (ch =? chr "\") && negb (a_in_single s) then
            analyze_loop fuel' (an_lex (a_in_single s) (a_in_double s) true (an_push [ch] s)) rest
          else if (ch =? chr "'") && negb (a_in_double s) then
            analyze_loop fuel'
              (an_lex (negb (a_in_single s)) (a_in_double s) false (an_push [ch] s)) rest
          else if (ch =? chr "034") && negb (a_in_single s) then
            analyze_loop fuel'
              (an_lex (a_in_single s) (negb (a_in_double s)) false (an_push [ch] s)) rest
          else
            match substitution_at (a_in_single s) (a_in_double s) ch rest with
            | Some (substitution, rest') =>
                match analyze_loop fuel' an_init substitution with
                | None => None
                | Some inner =>
                    analyze_loop fuel'
                      (an_push (take (length chars - length rest') chars)
                         (push_substitution substitution (an_finish inner) (an_composed s)))
                      rest'
                end
            | None =>
                if negb (a_in_single s) && negb (a_in_double s) && is_shell_separator ch then
                  analyze_loop fuel' (push_segment (an_composed s)) (skip_separator ch rest)
                else analyze_loop fuel' (an_push [ch] s) rest
            end
      end
  end.

Definition analyze_shell_command (command : str) : ShellCommandAnalysis :=
  an_finish (default an_init (analyze_loop (length command) an_init command)).

(** ** Termination *)

Lemma dollar_loop_length chars content depth sg db esc out rest :
  dollar_loop chars content depth sg db esc = Some (out, rest) ->
  (length out + length rest < length content + length chars)%nat.
Proof.
  remember (length chars) as n eqn:Hn. revert chars content depth sg db esc Hn.
  induction n as [n IH] using lt_wf_ind. intros [|c chars] content depth sg db esc ->; [done|].
  assert (forall ct ch' d s b e, (length ch' < length (c :: chars))%nat ->
    (length ct + length ch' <= length content + length (c :: chars))%nat ->
    dollar_loop ch' ct d s b e = Some (out, rest) ->
    (length out + length rest < length content + length (c :: chars))%nat) as Hrec.
  { intros ct ch' d s b e Hl Hle H. eapply (IH (length ch')) in H; [lia|lia|done]. }
  simpl. repeat case_match; intros HH; simplify_eq;
    try (eapply Hrec; [| |exact HH]; simpl; rewrite ?length_app; simpl; lia).
  all: simpl; lia.
Qed.

Lemma paren_loop_length chars content depth sg db esc out rest :
  paren_loop chars content depth sg db esc = Some (out, rest) ->
  (length out + length rest < length content + length chars)%nat.
Proof.
  revert content depth sg db esc.
  induction chars as [|c chars IH]; intros content depth sg db esc; simpl; [done|].
  repeat case_match; intros HH; simplify_eq; try lia;
    apply IH in HH; rewrite length_app in HH; simpl in *; lia.
Qed.

Lemma backtick_loop_length chars content esc out rest :
  backtick_loop chars content esc = Some (out, rest) ->
  (length out + length rest < length content + length chars)%nat.
Proof.
  revert content esc. induction chars as [|c chars IH]; intros content esc; simpl; [done|].
  repeat case_match; intros HH; simplify_eq; try lia;
    apply IH in HH; rewrite length_app in HH; simpl in *; lia.
Qed.

(** A substitution's content and what follows it are shorter than the text it
    was found in. *)
Lemma substitution_at_length sg db ch rest sub rest' :
  substitution_at sg db ch rest = Some (sub, rest') ->
  (length sub + length rest' < length rest)%nat.
Proof.
  unfold substitution_at. destruct rest as [|next rest]; [done|].
  repeat case_match; try done; intros HH.
  all: first [apply dollar_loop_length in HH | apply paren_loop_length in HH
             | apply backtick_loop_length in HH]; simpl in *; lia.
Qed.

Lemma skip_separator_length ch rest : (length (skip_separator ch rest) <= length rest)%nat.
Proof. unfold skip_separator. repeat case_match; simpl; lia. Qed.

Lemma analyze_loop_total fuel s chars :
  (length chars <= fuel)%nat -> exists s', analyze_loop fuel s chars = Some s'.
Proof.
  revert s chars. induction fuel as [|fuel IH]; intros s [|c chars] Hf; simpl in *;
    [by eauto|lia|by eauto|].
  repeat (case_match; [apply IH; lia|]).
  destruct (substitution_at _ _ c chars) as [[sub rest']|] eqn:E.
  - apply substitution_at_length in E. destruct (IH an_init sub) as [inner ->]; [lia|].
    apply IH. lia.
  - pose proof (skip_separator_length c chars). case_match; apply IH; lia.
Qed.

Lemma analyze_loop_mono fuel1 fuel2 s chars s' :
  (fuel1 <= fuel2)%nat -> analyze_loop fuel1 s chars = Some s' ->
  analyze_loop fuel2 s chars = Some s'.
Proof.
  revert fuel2 s chars s'.
  induction fuel1 as [|fuel1 IH]; intros fuel2 s [|c chars] s' Hf; simpl; try done.
  { by destruct fuel2. }
  { by destruct fuel2. }
  destruct fuel2 as [|fuel2]; [lia|]. simpl.
  repeat (case_match; [apply IH; lia|]).
  destruct (substitution_at _ _ c chars) as [[sub rest']|] eqn:E.
  - destruct (analyze_loop fuel1 an_init sub) as [inner|] eqn:Ei; [|done].
    rewrite (IH fuel2 _ _ inner) by (done || lia). apply IH. lia.
  - case_match; apply IH; lia.
Qed.

(** The state the loop reaches, as a total function. *)
Definition analyze_run (s : an_state) (chars : str) : an_state :=
  default s (analyze_loop (length chars) s chars).

Lemma analyze_run_loop fuel s chars :
  (length chars <= fuel)%nat -> analyze_loop fuel s chars = Some (analyze_run s chars).
Proof.
  intros Hf. unfold analyze_run.
  destruct (analyze_loop_total (length chars) s chars) as [s' E]; [lia|]. rewrite E. simpl.
  by eapply analyze_loop_mono.
Qed.

Lemma analyze_shell_command_run command :
  analyze_shell_command command = an_finish (analyze_run an_init command).
Proof. unfold analyze_shell_command. by rewrite analyze_run_loop. Qed.

(** The loop's own equation, without fuel. *)
Lemma analyze_run_cons s ch rest :
  analyze_run s (ch :: rest) =
  if a_escaped s then
    analyze_run (an_lex (a_in_single s) (a_in_double s) false (an_push [ch] s)) rest
  else if (ch =? chr "\") && negb (a_in_single s) then
    analyze_run (an_lex (a_in_single s) (a_in_double s) true (an_push [ch] s)) rest
  else if (ch =? chr "'") && negb (a_in_double s) then
    analyze_run (an_lex (negb (a_in_single s)) (a_in_double s) false (an_push [ch] s)) rest
  else if (ch =? chr "034") && negb (a_in_single s) then
    analyze_run (an_lex (a_in_single s) (negb (a_in_double s)) false (an_push [ch] s)) rest
  else
    match substitution_at (a_in_single s) (a_in_double s) ch rest with
    | Some (substitution, rest') =>
        analyze_run
          (an_push (take (length (ch :: rest) - length rest') (ch :: rest))
             (push_substitution substitution (analyze_shell_command substitution)
                (an_composed s)))
          rest'
    | None =>
        if negb (a_in_single s) && negb (a_in_double s) && is_shell_separator ch
        then analyze_run (push_segment (an_composed s)) (skip_separator ch rest)
        else analyze_run (an_push [ch] s) rest
    end.
Proof.
  apply (inj Some). rewrite <- (analyze_run_loop (S (length rest))) by done.
  cbn [analyze_loop].
  repeat (case_match; [by apply analyze_run_loop|]).
  destruct (substitution_at _ _ ch rest) as [[sub rest']|] eqn:E.
  - apply substitution_at_length in E.
    rewrite (analyze_run_loop (length rest) an_init sub) by lia.
    rewrite <- analyze_shell_command_run. apply analyze_run_loop. lia.
  - pose proof (skip_separator_length ch rest). case_match; by apply analyze_run_loop.
Qed.

Lemma analyze_run_nil s : analyze_run s [] = s.
Proof. done. Qed.

(** ** The shell's quoting rules as an automaton *)

(** Inside single quotes, inside double quotes, after a backslash. *)
Record lex := Lex { l_single : bool; l_double : bool; l_escaped : bool }.

Definition lex_of (s : an_state) : lex := Lex (a_in_single s) (a_in_double s) (a_escaped s).

(** Whether the character is consumed by a quoting rule, and the state after
    any character. *)
Definition lex_char (q : lex) (ch : char) : bool :=
  l_escaped q || ((ch =? chr "\") && negb (l_single q))
  || ((ch =? chr "'") && negb (l_double q)) || ((ch =? chr "034") && negb (l_single q)).

Definition lex_step (q : lex) (ch : char) : lex :=
  if l_escaped q then Lex (l_single q) (l_double q) false
  else if (ch =? chr "\") && negb (l_single q) then Lex (l_single q) (l_double q) true
  else if (ch =? chr "'") && negb (l_double q) then Lex (negb (l_single q)) (l_double q) false
  else if (ch =? chr "034") && negb (l_single q) then Lex (l_single q) (negb (l_double q)) false
  else q.

Definition lex_scan (q : lex) (chars : str) : lex := foldl lex_step q chars.

Definition lex_start : lex := Lex false false false.

Definition an_relex (q : lex) (s : an_state) : an_state :=
  an_lex (l_single q) (l_double q) (l_escaped q) s.

(** ** Reasoning principles for the loop *)

(** The loop body by its four kinds of step. *)
Lemma analyze_run_step s ch rest :
  analyze_run s (ch :: rest) =
  if lex_char (lex_of s) ch
  then analyze_run (an_relex (lex_step (lex_of s) ch) (an_push [ch] s)) rest
  else match substitution_at (a_in_single s) (a_in_double s) ch rest with
  | Some (sub, rest') =>
      analyze_run
        (an_push (take (length (ch :: rest) - length rest') (ch :: rest))
           (push_substitution sub (analyze_shell_command sub) (an_composed s))) rest'
  | None =>
      if negb (a_in_single s) && negb (a_in_double s) && is_shell_separator ch
      then analyze_run (push_segment (an_composed s)) (skip_separator ch rest)
      else analyze_run (an_push [ch] s) rest
  end.
Proof.
  rewrite analyze_run_cons. unfold lex_char, lex_step, an_relex; simpl.
  destruct (a_escaped s); [done|]. simpl.
  destruct (_ && negb (a_in_single s)); [done|].
  destruct (_ && negb (a_in_double s)); [done|].
  by destruct (_ && negb (a_in_single s)).
Qed.

Lemma analyze_run_ind (P : an_state -> str -> an_state -> Prop) :
  (forall s, P s [] s) ->
  (forall s ch rest t, lex_char (lex_of s) ch = true ->
     P (an_relex (lex_step (lex_of s) ch) (an_push [ch] s)) rest t -> P s (ch :: rest) t) ->
  (forall s ch rest t sub rest', lex_char (lex_of s) ch = false ->
     substitution_at (a_in_single s) (a_in_double s) ch rest = Some (sub, rest') ->
     P (an_push (take (length (ch :: rest) - length rest') (ch :: rest))
          (push_substitution sub (analyze_shell_command sub) (an_composed s))) rest' t ->
     P s (ch :: rest) t) ->
  (forall s ch rest t, lex_char (lex_of s) ch = false ->
     a_in_single s = false -> a_in_double s = false -> is_shell_separator ch = true ->
     P (push_segment (an_composed s)) (skip_separator ch rest) t -> P s (ch :: rest) t) ->
  (forall s ch rest t, lex_char (lex_of s) ch = false ->
     substitution_at (a_in_single s) (a_in_double s) ch rest = None ->
     negb (a_in_single s) && negb (a_in_double s) && is_shell_separator ch = false ->
     P (an_push [ch] s) rest t -> P s (ch :: rest) t) ->
  forall s chars, P s chars (analyze_run s chars).
Proof.
  intros Hnil Hlex Hsub Hsep Hother s chars.
  remember (length chars) as n eqn:Hn. revert s chars Hn.
  induction n as [n IH] using lt_wf_ind. intros s [|ch rest] ->; [apply Hnil|].
  assert (forall s' r, (length r <= length rest)%nat -> P s' r (analyze_run s' r)) as IH'.
  { intros s' r Hr. eapply IH; [|done]. simpl. lia. }
  rewrite analyze_run_step. destruct (lex_char (lex_of s) ch) eqn:E0; [by auto|].
  destruct (substitution_at _ _ ch rest) as [[sub rest']|] eqn:E4.
  { eapply Hsub; [done..|]. apply IH'. apply substitution_at_length in E4. lia. }
  destruct (negb _ && _ && _) eqn:E5; [|by auto].
  bool_hyps. apply Hsep; auto. apply IH', skip_separator_length.
Qed.

(** ** Composition *)

(** Reduce projections of an explicit state, and nothing else. *)
Ltac an_cbn := cbn [a_current a_segments a_normalized_segments a_in_single
  a_in_double a_escaped a_composed a_command_word_constructed].

Lemma push_segment_composed s : a_composed (push_segment s) = a_composed s.
Proof. unfold push_segment. by case_match. Qed.

Lemma push_substitution_composed sub an s :
  a_composed (push_substitution sub an s) = a_composed s.
Proof. unfold push_substitution. by repeat case_match. Qed.

(** A position of the command where the analysis would have to start a new
    simple command. *)
Definition breaks_at (q : lex) (ch : char) (rest : str) : Prop :=
  l_escaped q = false
  /\ (is_Some (substitution_at (l_single q) (l_double q) ch rest)
      \/ l_single q = false /\ l_double q = false /\ is_shell_separator ch = true).

Lemma lex_char_no_break q ch rest : lex_char q ch = true -> ~ breaks_at q ch rest.
Proof.
  unfold lex_char, breaks_at. intros H [He Hb]. rewrite He in H. simpl in H.
  assert (ch = chr "\" \/ ch = chr "'" \/ ch = chr "034") as Hch.
  { rewrite !orb_true_iff in H. destruct H as [[H|H]|H]; bool_hyps; auto. }
  destruct Hb as [[x Hx]|(_ & _ & Hs)].
  - revert Hx. unfold substitution_at. destruct rest as [|next r]; [done|].
    destruct Hch as [->|[->| ->]]; simpl; rewrite ?andb_false_r; simpl; by rewrite ?andb_false_r.
  - by destruct Hch as [->|[->| ->]].
Qed.

Lemma lex_of_relex q s : lex_of (an_relex q s) = q.
Proof. by destruct q. Qed.

Lemma lex_step_other q ch : lex_char q ch = false -> lex_step q ch = q.
Proof.
  unfold lex_char, lex_step. intros H. rewrite !orb_false_iff in H.
  destruct H as [[[-> ->] ->] ->]. done.
Qed.

(** Once composed, always composed; and a result that is not composed means the
    scan met no break. *)
Lemma analyze_run_not_composed s chars :
  (a_composed s = true -> a_composed (analyze_run s chars) = true)
  /\ (a_composed (analyze_run s chars) = false ->
      forall pre ch rest, chars = pre ++ ch :: rest ->
      ~ breaks_at (lex_scan (lex_of s) pre) ch rest).
Proof.
  apply (analyze_run_ind (fun s cs t => (a_composed s = true -> a_composed t = true) /\
    (a_composed t = false -> forall pre ch rest, cs = pre ++ ch :: rest ->
     ~ breaks_at (lex_scan (lex_of s) pre) ch rest))).
  - intros s'. split; [done|]. intros _ [|? ?] ? ? ?; simplify_eq.
  - intros s' c r t Hl [IH1 IH2]. split; [done|].
    intros Ht [|p pre] ch rest [= <- E]; [by apply lex_char_no_break|].
    rewrite lex_of_relex in IH2. by apply (IH2 Ht pre ch rest E).
  - intros s' c r t sub r' _ _ [IH1 _].
    simpl in IH1. rewrite push_substitution_composed in IH1. specialize (IH1 eq_refl).
    split; [done|]. congruence.
  - intros s' c r t _ _ _ _ [IH1 _].
    rewrite push_segment_composed in IH1. specialize (IH1 eq_refl). split; [done|]. congruence.
  - intros s' c r t Hl Hs Hsep [IH1 IH2]. split; [done|].
    intros Ht [|p pre] ch rest [= <- E].
    + intros [_ [[x Hx]|(H1 & H2 & H3)]]; simpl in *; [subst; congruence|].
      by rewrite H1, H2, H3 in Hsep.
    + simpl. rewrite lex_step_other by done. by apply (IH2 Ht pre ch rest E).
Qed.

(** ** Accumulated segments *)

Definition an_prepend (segs nsegs : list str) (c w : bool) (s : an_state) : an_state :=
  AnState (segs ++ a_segments s) (nsegs ++ a_normalized_segments s) (a_current s)
    (a_in_single s) (a_in_double s) (a_escaped s) (c || a_composed s)
    (w || a_command_word_constructed s).

Lemma push_normalized_shell_words_app l1 l2 input n :
  push_normalized_shell_words (l1 ++ l2) input n
  = l1 ++ push_normalized_shell_words l2 input n.
Proof.
  unfold push_normalized_shell_words. repeat case_match; by rewrite <- ?(assoc_L (++)).
Qed.

Lemma push_segment_prepend segs nsegs c w s :
  push_segment (an_prepend segs nsegs c w s) = an_prepend segs nsegs c w (push_segment s).
Proof.
  unfold push_segment, an_prepend; an_cbn.
  case_match; an_cbn; [done|].
  by rewrite push_normalized_shell_words_app, <- (assoc_L (++)), orb_assoc.
Qed.

Lemma push_substitution_prepend sub an segs nsegs c w s :
  push_substitution sub an (an_prepend segs nsegs c w s)
  = an_prepend segs nsegs c w (push_substitution sub an s).
Proof.
  unfold push_substitution, push_normalized_candidates, an_prepend.
  destruct (sa_segments an); simpl.
  - case_match; simpl; [done|]. by rewrite push_normalized_shell_words_app, (assoc_L (++)).
  - by rewrite !(assoc_L (++)).
Qed.

Lemma an_composed_prepend segs nsegs c w s :
  an_composed (an_prepend segs nsegs c w s) = an_prepend segs nsegs c w (an_composed s).
Proof. unfold an_composed, an_prepend; simpl. by rewrite orb_true_r. Qed.

Lemma analyze_run_prepend segs nsegs c w s chars :
  analyze_run (an_prepend segs nsegs c w s) chars
  = an_prepend segs nsegs c w (analyze_run s chars).
Proof.
  remember (length chars) as n eqn:Hn. revert s chars Hn.
  induction n as [n IH] using lt_wf_ind. intros s [|ch rest] ->; [done|].
  assert (forall s' r, (length r <= length rest)%nat ->
    analyze_run (an_prepend segs nsegs c w s') r
    = an_prepend segs nsegs c w (analyze_run s' r)) as IH'.
  { intros s' r Hr. eapply IH; [|done]. simpl. lia. }
  rewrite !analyze_run_step. simpl a_in_single. simpl a_in_double.
  change (lex_of (an_prepend segs nsegs c w s)) with (lex_of s).
  destruct (lex_char (lex_of s) ch); [by rewrite <- IH'|].
  destruct (substitution_at _ _ ch rest) as [[sub rest']|] eqn:E.
  - apply substitution_at_length in E.
    rewrite an_composed_prepend, push_substitution_prepend, <- IH' by lia. done.
  - case_match.
    + rewrite an_composed_prepend, push_segment_prepend, <- IH'; [done|].
      apply skip_separator_length.
    + by rewrite <- IH'.
Qed.

(** The segments collected so far stay at the front. *)
Lemma an_prepend_self s :
  s = an_prepend (a_segments s) (a_normalized_segments s) (a_composed s)
        (a_command_word_constructed s)
        (AnState [] [] (a_current s) (a_in_single s) (a_in_double s) (a_escaped s) false false).
Proof.
  destruct s. unfold an_prepend; simpl. by rewrite !app_nil_r, !orb_false_r.
Qed.

(** ** Text before a break *)

(** Characters that neither quote, nor separate, nor start a substitution. *)
Definition simple_char (c : char) : bool :=
  negb ((c =? chr "\") || (c =? chr "'") || (c =? chr "034") || (c =? chr "$")
        || (c =? chr "`") || (c =? chr "<") || (c =? chr ">") || is_shell_separator c).

Lemma simple_char_inv c :
  simple_char c = true ->
  (forall sg db, lex_char (Lex sg db false) c = false)
  /\ (forall sg db rest, substitution_at sg db c rest = None)
  /\ is_shell_separator c = false.
Proof.
  unfold simple_char. intros H%negb_true_iff. rewrite !orb_false_iff in H.
  destruct H as [[[[[[[E1 E2] E3] E4] E5] E6] E7] E8]. repeat split; [| |done].
  - intros sg db. unfold lex_char. simpl. by rewrite E1, E2, E3.
  - intros sg db [|next rest]; [done|]. unfold substitution_at.
    by rewrite E4, E5, E6, E7, !andb_false_r.
Qed.

Lemma an_push_push t1 t2 s : an_push t2 (an_push t1 s) = an_push (t1 ++ t2) s.
Proof. unfold an_push; simpl. by rewrite (assoc_L (++)). Qed.

Lemma an_push_nil s : an_push [] s = s.
Proof. destruct s. unfold an_push; simpl. by rewrite app_nil_r. Qed.

Lemma analyze_run_simple s a rest :
  a_escaped s = false -> Forall (fun c => simple_char c = true) a ->
  analyze_run s (a ++ rest) = analyze_run (an_push a s) rest.
Proof.
  intros He Ha. revert s He. induction Ha as [|c a Hc _ IH]; intros s He.
  { by rewrite an_push_nil. }
  destruct (simple_char_inv c Hc) as (H1 & H2 & H3).
  change ((c :: a) ++ rest) with (c :: (a ++ rest)). rewrite analyze_run_step.
  unfold lex_of. rewrite He, H1, H2, H3, andb_false_r, IH by done.
  by rewrite an_push_push.
Qed.

Lemma separator_char_inv ch :
  is_shell_separator ch = true ->
  (forall sg db, lex_char (Lex sg db false) ch = false)
  /\ (forall sg db rest, substitution_at sg db ch rest = None).
Proof.
  unfold is_shell_separator. rewrite !orb_true_iff, !Z.eqb_eq.
  intros [[[->| ->]| ->]| ->]; (split; [done|]); intros sg db [|next rest]; try done;
    unfold substitution_at; simpl; by rewrite !andb_false_r.
Qed.

Lemma analyze_run_separator s ch b :
  lex_of s = lex_start -> is_shell_separator ch = true ->
  analyze_run s (ch :: b) = analyze_run (push_segment (an_composed s)) (skip_separator ch b).
Proof.
  intros Hl Hch. destruct (separator_char_inv ch Hch) as [H1 H2].
  rewrite analyze_run_step, Hl, H2, Hch. injection Hl as -> -> _. unfold lex_start.
  by rewrite H1.
Qed.

(** What one simple command in front of a separator contributes. *)
Definition segment_of (a : str) : list str :=
  if bool_decide (trim a = []) then [] else [trim a].

Definition normalized_of (a : str) : list str :=
  if bool_decide (trim a = []) then []
  else push_normalized_shell_words [] (trim a) (normalize_shell_words (trim a)).

Definition constructed_of (a : str) : bool :=
  if bool_decide (trim a = []) then false
  else ns_command_word_constructed (normalize_shell_words (trim a)).

Lemma push_segment_fresh a :
  push_segment (an_composed (an_push a an_init))
  = an_prepend (segment_of a) (normalized_of a) true (constructed_of a) an_init.
Proof.
  unfold push_segment, an_composed, an_prepend, segment_of, normalized_of, constructed_of, an_push.
  an_cbn. change (a_current an_init ++ a) with a.
  destruct (bool_decide (trim a = [])); an_cbn; [done|].
  f_equal; simpl; by rewrite ?app_nil_r, ?orb_false_r.
Qed.

Lemma an_finish_prepend segs nsegs c w s :
  an_finish (an_prepend segs nsegs c w s)
  = {| sa_segments := segs ++ sa_segments (an_finish s);
       sa_normalized_segments := nsegs ++ sa_normalized_segments (an_finish s);
       sa_composed := c || sa_composed (an_finish s);
       sa_command_word_constructed := w || sa_command_word_constructed (an_finish s) |}.
Proof. unfold an_finish. by rewrite push_segment_prepend. Qed.

(** ** Segments behind a break *)

(** A separator splits: after unquoted simple text, a control operator
    ends a segment that is screened on its own (raw and normalized), and what
    follows is analyzed exactly as a command of its own. *)
Lemma separator_splits a ch b :
  Forall (fun c => simple_char c = true) a -> is_shell_separator ch = true ->
  let rest := analyze_shell_command (skip_separator ch b) in
  let whole := analyze_shell_command (a ++ ch :: b) in
  sa_segments whole = segment_of a ++ sa_segments rest
  /\ sa_normalized_segments whole = normalized_of a ++ sa_normalized_segments rest
  /\ sa_composed whole = true
  /\ sa_command_word_constructed whole
     = constructed_of a || sa_command_word_constructed rest.
Proof.
  intros Ha Hch. cbn zeta. rewrite !analyze_shell_command_run, analyze_run_simple by done.
  rewrite analyze_run_separator, push_segment_fresh, analyze_run_prepend, an_finish_prepend by done.
  done.
Qed.

(** What a substitution runs is screened: where unquoted simple text is
    followed by a closed command or process substitution, the command counts
    as composed and every segment of the substitution's own analysis (or its
    text, when it has none) is a segment of the whole. *)
Lemma substitution_screened a ch rest sub rest' :
  Forall (fun c => simple_char c = true) a ->
  substitution_at false false ch rest = Some (sub, rest') ->
  let whole := analyze_shell_command (a ++ ch :: rest) in
  sa_composed whole = true
  /\ (forall seg, seg ∈ sa_segments (analyze_shell_command sub) -> seg ∈ sa_segments whole)
  /\ (forall seg, seg ∈ sa_normalized_segments (analyze_shell_command sub) ->
      sa_segments (analyze_shell_command sub) <> [] ->
      seg ∈ sa_normalized_segments whole)
  /\ (sa_segments (analyze_shell_command sub) = [] -> trim sub <> [] ->
      trim sub ∈ sa_segments whole).
Proof.
  intros Ha Hs. cbn zeta. rewrite (analyze_shell_command_run (a ++ ch :: rest)).
  rewrite analyze_run_simple, analyze_run_step by done.
  change (lex_of (an_push a an_init)) with lex_start.
  destruct (lex_char lex_start ch) eqn:El.
  { exfalso. apply (lex_char_no_break lex_start ch rest El). split; [done|].
    left. exists (sub, rest'). exact Hs. }
  change (a_in_single (an_push a an_init)) with false.
  change (a_in_double (an_push a an_init)) with false. rewrite Hs.
  set (t := take _ _). set (s0 := an_composed (an_push a an_init)).
  rewrite (an_prepend_self (an_push t (push_substitution sub (analyze_shell_command sub) s0))).
  rewrite analyze_run_prepend, an_finish_prepend; cbn [sa_segments sa_normalized_segments sa_composed].
  unfold an_push at 1 2 3; an_cbn. rewrite push_substitution_composed. split; [done|].
  unfold push_substitution. split; [|split].
  - intros seg Hseg. destruct (sa_segments (analyze_shell_command sub)) eqn:E; [by inversion Hseg|].
    an_cbn. set_solver.
  - intros seg Hseg Hne. destruct (sa_segments (analyze_shell_command sub)) eqn:E; [done|].
    an_cbn. set_solver.
  - intros -> Hne. rewrite (bool_decide_eq_false_2 _ Hne). an_cbn. set_solver.
Qed.

(** Without a break the scan only collects the text. *)
Lemma analyze_run_uncomposed s chars :
  a_composed (analyze_run s chars) = false ->
  exists q, analyze_run s chars = an_relex q (an_push chars s).
Proof.
  apply (analyze_run_ind (fun s cs t => a_composed t = false ->
    exists q, t = an_relex q (an_push cs s))).
  - intros s' _. exists (lex_of s'). destruct s'. unfold an_relex, an_push, an_lex; simpl.
    by rewrite app_nil_r.
  - intros s' c r t _ IH Ht. destruct (IH Ht) as [q ->]. exists q.
    unfold an_relex, an_push, an_lex; simpl. by rewrite <- (assoc_L (++)).
  - intros s' c r t sub r' _ _ IH Ht. destruct (IH Ht) as [q ->]. exfalso.
    unfold an_relex, an_lex, an_push in Ht; simpl in Ht.
    by rewrite push_substitution_composed in Ht.
  - intros s' c r t _ _ _ _ IH Ht. destruct (IH Ht) as [q ->]. exfalso.
    unfold an_relex, an_lex, an_push in Ht; simpl in Ht. by rewrite push_segment_composed in Ht.
  - intros s' c r t _ _ _ IH Ht. destruct (IH Ht) as [q ->]. exists q.
    by rewrite an_push_push.
Qed.

(** A command that is not composed is its own only segment. *)
Lemma analyze_uncomposed command :
  sa_composed (analyze_shell_command command) = false ->
  sa_segments (analyze_shell_command command) = segment_of command
  /\ sa_normalized_segments (analyze_shell_command command) = normalized_of command
  /\ sa_command_word_constructed (analyze_shell_command command) = constructed_of command.
Proof.
  rewrite analyze_shell_command_run. unfold an_finish; cbn [sa_composed].
  rewrite push_segment_composed. intros H.
  destruct (analyze_run_uncomposed an_init command H) as [q ->].
  unfold push_segment, segment_of, normalized_of, constructed_of, an_relex, an_lex, an_push; an_cbn.
  change (a_current an_init ++ command) with command.
  by destruct (bool_decide (trim command = [])).
Qed.

(** ** The properties of the analyzer *)

(** The analysis always returns: its scan and its recursion into
    substitutions need no more steps than the command has characters. *)
Theorem analyze_terminates command :
  exists s, analyze_loop (length command) an_init command = Some s
            /\ analyze_shell_command command = an_finish s.
Proof.
  exists (analyze_run an_init command).
  split; [by apply analyze_run_loop | apply analyze_shell_command_run].
Qed.

(** A command that is not reported as composed is one simple command: at no
    position does the shell's quoting leave a control operator ([;], [&], [|],
    newline) or a closed command or process substitution exposed. *)
Theorem uncomposed_has_no_break command :
  sa_composed (analyze_shell_command command) = false ->
  forall pre ch rest, command = pre ++ ch :: rest ->
  ~ breaks_at (lex_scan lex_start pre) ch rest.
Proof.
  rewrite analyze_shell_command_run. unfold an_finish; cbn [sa_composed].
  rewrite push_segment_composed. apply (analyze_run_not_composed an_init command).
Qed.

Lemma uncomposed_has_no_break_witness :
  sa_composed (analyze_shell_command (lit "echo 'a;b'")) = false
  /\ ~ breaks_at (lex_scan lex_start (lit "echo 'a")) (chr ";") (lit "b'").
Proof.
  assert (sa_composed (analyze_shell_command (lit "echo 'a;b'")) = false) as H
    by (vm_compute; reflexivity).
  split; [exact H|]. apply (uncomposed_has_no_break (lit "echo 'a;b'") H). reflexivity.
Defined.
