(* ===== verification/Policy.v ===== *)
(** The command gateway's static policy
    (src/src/runtime/mediation/commands/policy.rs: [evaluate_policy]). *)

From S2P Require Import Prelude Text Glob ShellWords ShellAnalysis.
Open Scope Z_scope.

Inductive PolicyDecision := Allow | Review | ReviewRequired | Deny.

#[export] Instance PolicyDecision_eq_dec : EqDecision PolicyDecision.
Proof. solve_decision. Defined.

(** The fields of [PermissionsConfig] the static policy reads. *)
Record PermissionsConfig := { p_review : list str; p_deny : list str }.

(** The candidate strings [evaluate_policy] builds, in order. *)
Definition policy_candidates (command : str) : list str :=
  let analysis := analyze_shell_command command in
  let normalized := normalize_shell_words command in
  [trim command]
  ++ (if negb (str_eqb (ns_text normalized) (trim command)) then [ns_text normalized] else [])
  ++ (match ns_command_text normalized with
      | Some command_text =>
          if negb (str_eqb command_text (trim command))
             && negb (str_eqb command_text (ns_text normalized))
          then [command_text] else []
      | None => []
      end)
  ++ sa_segments analysis
  ++ sa_normalized_segments analysis.

(** [patterns.iter().any(|pattern| candidates.iter().any(..))]. *)
Definition any_match (patterns candidates : list str) : bool :=
  existsb (fun pattern => existsb (glob_match pattern) candidates) patterns.

Definition evaluate_policy (command : str) (permissions : PermissionsConfig) : PolicyDecision :=
  let analysis := analyze_shell_command command in
  let normalized_command := normalize_shell_words command in
  let candidates := policy_candidates command in
  if any_match (p_deny permissions) candidates then Deny
  else if any_match (p_review permissions) candidates then Review
  else if sa_composed analysis then ReviewRequired
  else if ns_command_word_constructed normalized_command
          || sa_command_word_constructed analysis
  then ReviewRequired
  else Allow.

(** ** Candidates *)

Lemma any_match_true patterns candidates :
  any_match patterns candidates = true
  <-> exists pattern candidate, pattern ∈ patterns /\ candidate ∈ candidates
                                /\ glob_match pattern candidate = true.
Proof.
  unfold any_match. rewrite existsb_exists. setoid_rewrite existsb_exists.
  setoid_rewrite <- list_elem_of_In. naive_solver.
Qed.

Lemma any_match_mono patterns l1 l2 :
  (forall c, c ∈ l1 -> c ∈ l2) -> any_match patterns l1 = true -> any_match patterns l2 = true.
Proof. rewrite !any_match_true. naive_solver. Qed.

Lemma normalize_trim command :
  normalize_shell_words (trim command) = normalize_shell_words command.
Proof. unfold normalize_shell_words. by rewrite trim_idemp. Qed.

(** The candidates of one simple command are its segment and the normalized
    forms of the segment. *)
Lemma candidates_uncomposed command c :
  sa_composed (analyze_shell_command command) = false -> trim command <> [] ->
  c ∈ policy_candidates command ->
  c ∈ sa_segments (analyze_shell_command command)
  \/ c ∈ sa_normalized_segments (analyze_shell_command command).
Proof.
  intros Hc Hne. destruct (analyze_uncomposed command Hc) as (Hs & Hn & _).
  unfold policy_candidates. rewrite Hs, Hn.
  unfold segment_of, normalized_of. rewrite !(bool_decide_eq_false_2 _ Hne).
  rewrite normalize_trim. unfold push_normalized_shell_words.
  destruct (str_eqb (ns_text _) (trim command)), (ns_command_text _) as [t|];
    simpl; try case_match; set_solver.
Qed.

Lemma segments_are_candidates command c :
  c ∈ sa_segments (analyze_shell_command command)
  \/ c ∈ sa_normalized_segments (analyze_shell_command command) ->
  c ∈ policy_candidates command.
Proof. unfold policy_candidates. cbv zeta. rewrite !elem_of_app. tauto. Qed.

Lemma evaluate_policy_deny command permissions :
  evaluate_policy command permissions = Deny
  <-> any_match (p_deny permissions) (policy_candidates command) = true.
Proof. unfold evaluate_policy. cbn zeta. split; repeat case_match; congruence. Qed.

Lemma evaluate_policy_allow command permissions :
  evaluate_policy command permissions = Allow
  <-> any_match (p_deny permissions) (policy_candidates command) = false
      /\ any_match (p_review permissions) (policy_candidates command) = false
      /\ sa_composed (analyze_shell_command command) = false
      /\ ns_command_word_constructed (normalize_shell_words command) = false
      /\ sa_command_word_constructed (analyze_shell_command command) = false.
Proof.
  unfold evaluate_policy. cbn zeta.
  destruct (any_match (p_deny _) _), (any_match (p_review _) _), (sa_composed _),
    (ns_command_word_constructed _), (sa_command_word_constructed _); naive_solver.
Qed.

(** A command whose candidates include another's is at least as restricted. *)
Lemma candidates_deny c1 c2 permissions :
  (forall c, c ∈ policy_candidates c1 -> c ∈ policy_candidates c2) ->
  evaluate_policy c1 permissions = Deny -> evaluate_policy c2 permissions = Deny.
Proof. rewrite !evaluate_policy_deny. apply any_match_mono. Qed.

Lemma separator_candidates a ch b c :
  Forall (fun c => simple_char c = true) a -> is_shell_separator ch = true ->
  let b' := skip_separator ch b in
  sa_composed (analyze_shell_command b') = false -> trim b' <> [] ->
  c ∈ policy_candidates b' -> c ∈ policy_candidates (a ++ ch :: b).
Proof.
  intros Ha Hch b' Hb Hne Hc. apply segments_are_candidates.
  destruct (separator_splits a ch b Ha Hch) as (-> & -> & _).
  rewrite !elem_of_app. destruct (candidates_uncomposed b' c Hb Hne Hc); tauto.
Qed.

Lemma substitution_candidates a ch rest sub rest' c :
  Forall (fun c => simple_char c = true) a ->
  substitution_at false false ch rest = Some (sub, rest') ->
  sa_composed (analyze_shell_command sub) = false -> trim sub <> [] ->
  c ∈ policy_candidates sub -> c ∈ policy_candidates (a ++ ch :: rest).
Proof.
  intros Ha Hs Hb Hne Hc. apply segments_are_candidates.
  destruct (substitution_screened a ch rest sub rest' Ha Hs) as (_ & H1 & H2 & _).
  destruct (candidates_uncomposed sub c Hb Hne Hc) as [H|H]; [left; auto|right; apply H2; [done|]].
  destruct (analyze_uncomposed sub Hb) as [-> _]. unfold segment_of.
  by rewrite (bool_decide_eq_false_2 _ Hne).
Qed.

(** ** The properties of the policy *)

(** A denied simple command stays denied behind a control operator: after
    any unquoted simple text and a separator the whole line is denied too. *)
Theorem deny_behind_separator a ch b permissions :
  Forall (fun c => simple_char c = true) a -> is_shell_separator ch = true ->
  sa_composed (analyze_shell_command (skip_separator ch b)) = false ->
  trim (skip_separator ch b) <> [] ->
  evaluate_policy (skip_separator ch b) permissions = Deny ->
  evaluate_policy (a ++ ch :: b) permissions = Deny.
Proof. intros Ha Hch Hb Hne. apply candidates_deny. intros c. by apply separator_candidates. Qed.

Lemma deny_behind_separator_witness :
  evaluate_policy (lit "true && r''m -rf x") {| p_review := []; p_deny := [lit "rm *"] |} = Deny.
Proof.
  refine (deny_behind_separator (lit "true ") (chr "&") (lit "& r''m -rf x")
    {| p_review := []; p_deny := [lit "rm *"] |} _ _ _ _ _);
    first [repeat constructor; fail | vm_compute; reflexivity | vm_compute; discriminate].
Defined.

(** A denied simple command stays denied inside a command or process
    substitution that follows unquoted simple text. *)
Theorem deny_in_substitution a ch rest sub rest' permissions :
  Forall (fun c => simple_char c = true) a ->
  substitution_at false false ch rest = Some (sub, rest') ->
  sa_composed (analyze_shell_command sub) = false -> trim sub <> [] ->
  evaluate_policy sub permissions = Deny ->
  evaluate_policy (a ++ ch :: rest) permissions = Deny.
Proof.
  intros Ha Hs Hb Hne. apply candidates_deny. intros c.
  by apply (substitution_candidates a ch rest sub rest').
Qed.

Lemma deny_in_substitution_witness :
  evaluate_policy (lit "echo $(rm -rf x) y") {| p_review := []; p_deny := [lit "rm *"] |} = Deny.
Proof.
  refine (deny_in_substitution (lit "echo ") (chr "$") (lit "(rm -rf x) y") (lit "rm -rf x")
    (lit " y") {| p_review := []; p_deny := [lit "rm *"] |} _ _ _ _ _);
    first [repeat constructor; fail | vm_compute; reflexivity | vm_compute; discriminate].
Defined.

(** Quoting tricks do not get past the deny list: when the normalized text
    of a command is denied, so are the spellings with an empty pair of quotes
    inside a word or a backslash before an ordinary character. *)
Theorem deny_survives_quoting a c b q d permissions :
  Forall (fun x => plain_char x = true) (a ++ [c]) -> is_whitespace c = false ->
  q = chr "'" \/ q = chr "034" ->
  plain_char d = true -> is_whitespace d = false ->
  no_edge_ws ((a ++ [c]) ++ b) -> no_edge_ws ((a ++ [c]) ++ [d] ++ b) ->
  let denied s := any_match (p_deny permissions) [ns_text (normalize_shell_words s)] = true in
  (denied ((a ++ [c]) ++ b) ->
   evaluate_policy ((a ++ [c]) ++ [q; q] ++ b) permissions = Deny)
  /\ (denied ((a ++ [c]) ++ [d] ++ b) ->
      evaluate_policy ((a ++ [c]) ++ [chr "\"; d] ++ b) permissions = Deny).
Proof.
  intros Hp Hw Hq Hd Hdw He1 He2 denied.
  destruct (quoting_leaves_text a c b q d Hp Hw Hq Hd Hdw He1 He2) as [E1 E2].
  assert (forall s, denied s -> evaluate_policy s permissions = Deny) as Hdeny.
  { intros s Hs. apply evaluate_policy_deny. revert Hs. apply any_match_mono.
    intros x ->%list_elem_of_singleton. unfold policy_candidates.
    destruct (str_eqb (ns_text (normalize_shell_words s)) (trim s)) eqn:E; cbn [negb].
    - apply str_eqb_eq in E. rewrite E. set_solver.
    - set_solver. }
  split; intros Hden; apply Hdeny; unfold denied in *; by rewrite ?E1, ?E2.
Qed.

Lemma deny_survives_quoting_witness :
  evaluate_policy (lit "r''m -rf x") {| p_review := []; p_deny := [lit "rm *"] |} = Deny.
Proof.
  refine (proj1 (deny_survives_quoting [] (chr "r") (lit "m -rf x") (chr "'") (chr "m")
    {| p_review := []; p_deny := [lit "rm *"] |} _ _ (or_introl eq_refl) _ _ _ _) _);
    first [vm_compute; reflexivity | repeat constructor; fail
          | apply trim_fixed; vm_compute; reflexivity].
Defined.

(** Three spellings of [rm] that the deny pattern [rm *] does not stop and
    that are not even routed to review: a literal star among the arguments, a
    parenthesized subshell, and a subshell inside a command substitution whose
    first character is an opening parenthesis. *)
Theorem deny_bypasses :
  let permissions := {| p_review := []; p_deny := [lit "rm *"] |} in
  evaluate_policy (lit "rm -rf target") permissions = Deny
  /\ evaluate_policy (lit "rm *.txt") permissions = Allow
  /\ evaluate_policy (lit "(rm -rf target)") permissions = Allow
  /\ evaluate_policy (lit "echo $((rm -rf target) )") permissions = Allow.
Proof. vm_compute. repeat split. Qed.
