(* ===== verification/PolicySpec.v ===== *)
(** What the command policy means for command lines a shell user writes. A line is
    given by its grammar: simple commands joined by control operators, a command as
    words between blanks, a word as bare characters, escaped characters and quoted
    strings. Its text is what the policy gets; its literal words are what the shell
    runs. [allow_sound] relates the two without mentioning how the policy reads the
    text. Redirections, assignments, expansions, substitutions and parentheses are not
    part of the grammar. *)

From S2P Require Import Prelude Text Glob ShellWords ShellAnalysis Policy.
Open Scope Z_scope.

(** ** The grammar *)

Definition special : list char :=
  [chr "\"; chr "'"; chr "034"; chr "$"; chr "`"; chr "<"; chr ">"; chr ";"; chr "&"; chr "|"; chr "("; chr ")";
   chr "{"; chr "}"; chr "["; chr "]"; chr "*"; chr "?"; chr "="].
Definition bare_char (c : char) : bool := negb (is_whitespace c) && negb (existsb (Z.eqb c) special).
(** Blanks separate words; a newline separates commands. *)
Definition blank (c : char) : bool := is_whitespace c && negb (c =? chr "010").

Inductive Piece := Bare (c : char) | Escaped (c : char) | Single (s : str) | Double (s : str).
Definition piece_ok (p : Piece) : bool :=
  match p with
  | Bare c => bare_char c
  | Escaped c => negb (is_whitespace c)
  | Single s => forallb (fun c => negb (c =? chr "'")) s
  | Double s => forallb (fun c => negb (existsb (Z.eqb c) [chr "034"; chr "\"; chr "$"; chr "`"])) s
  end.
Definition piece_text (p : Piece) : str :=
  match p with
  | Bare c => [c]
  | Escaped c => [chr "\"; c]
  | Single s => chr "'" :: s ++ [chr "'"]
  | Double s => chr "034" :: s ++ [chr "034"]
  end.
Definition piece_value (p : Piece) : str := match p with Bare c | Escaped c => [c] | Single s | Double s => s end.

Definition Word := list Piece.
Definition word_ok (w : Word) : bool := negb (bool_decide (w = [])) && forallb piece_ok w.
Definition word_text (w : Word) : str := concat (piece_text <$> w).
Definition word_value (w : Word) : str := concat (piece_value <$> w).
Definition word_bare (w : Word) : bool := forallb (fun p => match p with Bare _ => true | _ => false end) w.

(** A word with the blanks in front of it; the first of a command may have none. *)
Record Command := mkCommand { co_lead : str; co_first : Word; co_rest : list (str * Word); co_trail : str }.
Definition command_ok (c : Command) : bool :=
  forallb blank (co_lead c) && word_ok (co_first c)
  && forallb (fun p => negb (bool_decide (p.1 = [])) && forallb blank p.1 && word_ok p.2) (co_rest c)
  && forallb blank (co_trail c).
Definition words_text (first : Word) (rest : list (str * Word)) : str :=
  word_text first ++ concat ((fun p : str * Word => p.1 ++ word_text p.2) <$> rest).
Definition command_text (c : Command) : str := co_lead c ++ words_text (co_first c) (co_rest c) ++ co_trail c.
(** The words the shell runs, with one space between them. *)
Definition literal (c : Command) : str := join [chr " "] (word_value <$> co_first c :: (co_rest c).*2).

Inductive Operator := Semicolon | Ampersand | Pipe | AndAnd | OrOr | Newline.
Definition operator_text (o : Operator) : str :=
  match o with
  | Semicolon => [chr ";"] | Ampersand => [chr "&"] | Pipe => [chr "|"]
  | AndAnd => [chr "&"; chr "&"] | OrOr => [chr "|"; chr "|"] | Newline => [chr "010"]
  end.
Record Line := mkLine { li_first : Command; li_rest : list (Operator * Command) }.
Definition line_ok (l : Line) : bool := command_ok (li_first l) && forallb (fun p => command_ok p.2) (li_rest l).
Fixpoint line_tail (rest : list (Operator * Command)) : str :=
  match rest with [] => [] | (o, c) :: rest => operator_text o ++ command_text c ++ line_tail rest end.
Definition line_text (l : Line) : str := command_text (li_first l) ++ line_tail (li_rest l).
Definition commands (l : Line) : list Command := li_first l :: (li_rest l).*2.

(** ** Characters *)

Lemma bare_char_inv c : bare_char c = true -> is_whitespace c = false /\ plain_char c = true /\ simple_char c = true /\ (c =? chr "=") = false.
Proof.
  unfold bare_char, special, plain_char, simple_char, is_expansion_char, is_shell_separator. cbn [existsb].
  rewrite andb_true_iff, !negb_true_iff, !orb_false_iff. intros (H1 & H2). destruct_and! H2.
  repeat match goal with H : (c =? _) = false |- _ => rewrite H end. split_and!; try done. simpl.
  destruct (Z.eqb_spec c (chr "010")) as [->|]; [discriminate H1|done].
Qed.
Lemma blank_inv c : blank c = true -> is_whitespace c = true /\ plain_char c = true /\ simple_char c = true.
Proof.
  unfold blank. rewrite andb_true_iff, negb_true_iff. intros [Hw Hn]. split; [done|].
  assert (Hs : forall d, is_whitespace d = false -> (c =? d) = false).
  { intros d Hd. destruct (Z.eqb_spec c d) as [->|]; [congruence|done]. }
  unfold plain_char, simple_char, is_expansion_char, is_shell_separator.
  rewrite Hn. by rewrite !Hs.
Qed.

(** ** How the analyzer reads a command *)

Lemma analyze_run_single s body rest :
  a_in_single s = true -> a_in_double s = false -> a_escaped s = false -> forallb (fun c => negb (c =? chr "'")) body = true ->
  analyze_run s (body ++ rest) = analyze_run (an_push body s) rest.
Proof.
  revert s. induction body as [|c body IH]; intros s Hs Hd He Hb; [by rewrite an_push_nil|].
  simpl in Hb. apply andb_true_iff in Hb as [Hc%negb_true_iff Hb]. simpl. rewrite analyze_run_step.
  unfold lex_of, lex_char. rewrite Hs, Hd, He. simpl. rewrite Hc, !andb_false_r. simpl.
  assert (substitution_at true false c (body ++ rest) = None) as -> by by destruct (body ++ rest).
  by rewrite IH, an_push_push.
Qed.
Lemma analyze_run_double s body rest :
  a_in_single s = false -> a_in_double s = true -> a_escaped s = false ->
  forallb (fun c => negb (existsb (Z.eqb c) [chr "034"; chr "\"; chr "$"; chr "`"])) body = true ->
  analyze_run s (body ++ rest) = analyze_run (an_push body s) rest.
Proof.
  revert s. induction body as [|c body IH]; intros s Hs Hd He Hb; [by rewrite an_push_nil|].
  simpl in Hb. rewrite andb_true_iff, negb_true_iff, !orb_false_iff in Hb. destruct Hb as [(Hq & Hbs & Hdl & Hbt & _) Hb].
  simpl. rewrite analyze_run_step. unfold lex_of, lex_char. rewrite Hs, Hd, He, Hq, Hbs. simpl. rewrite !andb_false_r. simpl.
  assert (substitution_at false true c (body ++ rest) = None) as ->.
  { destruct (body ++ rest); [done|]. unfold substitution_at. simpl. by rewrite Hdl, Hbt. }
  by rewrite IH, an_push_push.
Qed.
Lemma analyze_run_piece s p rest :
  lex_of s = lex_start -> piece_ok p = true -> analyze_run s (piece_text p ++ rest) = analyze_run (an_push (piece_text p) s) rest.
Proof.
  intros [= Hs Hd He]%(f_equal id). destruct p as [c|c|body|body]; simpl; intros Hp.
  - destruct (bare_char_inv c Hp) as (_ & _ & Hc & _). apply (analyze_run_simple s [c] rest); [done|by constructor].
  - rewrite analyze_run_step. unfold lex_of, lex_char. rewrite Hs, Hd, He. simpl.
    rewrite analyze_run_step. unfold lex_char, an_relex. simpl. rewrite ?Hs, ?Hd, ?He. simpl. destruct s; simpl in *; subst. simpl.
    unfold an_lex, an_push. simpl. by rewrite <- (assoc_L (++)).
  - rewrite analyze_run_step. unfold lex_of, lex_char. rewrite Hs, Hd, He. simpl. rewrite <- (assoc_L (++)).
    rewrite analyze_run_single; [|by rewrite ?Hs, ?Hd, ?He..|done]. simpl. rewrite analyze_run_step. unfold lex_char, lex_step, an_relex. simpl.
    destruct s; simpl in *; subst. unfold an_lex, an_push. simpl. f_equal. f_equal. by rewrite <- !(assoc_L (++)).
  - rewrite analyze_run_step. unfold lex_of, lex_char. rewrite Hs, Hd, He. simpl. rewrite <- (assoc_L (++)).
    rewrite analyze_run_double; [|by rewrite ?Hs, ?Hd, ?He..|done]. simpl. rewrite analyze_run_step. unfold lex_char, lex_step, an_relex. simpl.
    destruct s; simpl in *; subst. unfold an_lex, an_push. simpl. f_equal. f_equal. by rewrite <- !(assoc_L (++)).
Qed.

(** Text the analyzer takes over unread. *)
Definition inert (t : str) : Prop :=
  forall s rest, lex_of s = lex_start -> analyze_run s (t ++ rest) = analyze_run (an_push t s) rest.
Lemma inert_nil : inert [].
Proof. intros s rest _. by rewrite an_push_nil. Qed.
Lemma inert_app t u : inert t -> inert u -> inert (t ++ u).
Proof. intros Ht Hu s rest Hs. rewrite <- (assoc_L (++)), Ht, Hu by done. by rewrite an_push_push. Qed.
Lemma inert_blanks t : forallb blank t = true -> inert t.
Proof.
  intros Ht s rest Hs. apply analyze_run_simple; [by injection Hs|]. apply Forall_forall. intros c Hc.
  rewrite forallb_forall in Ht. apply list_elem_of_In in Hc. by destruct (blank_inv c (Ht c Hc)) as (_ & _ & ?).
Qed.
Lemma inert_word w : word_ok w = true -> inert (word_text w).
Proof.
  unfold word_ok, word_text. intros [_ Hw]%andb_true_iff. induction w as [|p w IH]; [apply inert_nil|].
  simpl in *. apply andb_true_iff in Hw as [Hp Hw]. apply inert_app; [|by apply IH]. intros s rest Hs. by apply analyze_run_piece.
Qed.
Lemma inert_command c : command_ok c = true -> inert (command_text c).
Proof.
  unfold command_ok, command_text, words_text. rewrite !andb_true_iff. intros [[[Hl Hf] Hr] Ht].
  apply inert_app; [by apply inert_blanks|]. apply inert_app; [|by apply inert_blanks]. apply inert_app; [by apply inert_word|].
  induction (co_rest c) as [|[gap w] rest IH]; [apply inert_nil|]. simpl in *. rewrite !andb_true_iff in Hr. destruct Hr as [[[_ Hg] Hw] Hr].
  apply inert_app; [|by apply IH]. apply inert_app; [by apply inert_blanks|by apply inert_word].
Qed.

(** ** How the analyzer splits a line *)

Lemma command_head c : command_ok c = true -> exists d t, command_text c = d :: t /\ (d =? chr "&") = false /\ (d =? chr "|") = false.
Proof.
  unfold command_ok, command_text, words_text. rewrite !andb_true_iff. intros [[[Hl Hf] _] _].
  assert (Hsimple : forall d, simple_char d = true -> (d =? chr "&") = false /\ (d =? chr "|") = false).
  { intros d (_ & _ & H)%simple_char_inv. unfold is_shell_separator in H. rewrite !orb_false_iff in H. by destruct_and! H. }
  destruct (co_lead c) as [|d lead]; simpl in *.
  - unfold word_ok in Hf. destruct (co_first c) as [|[d|d|body|body] w]; simpl in *; [done| |by eexists _, _..].
    apply andb_true_iff in Hf as [Hd _]. eexists _, _. split; [done|]. apply Hsimple. by destruct (bare_char_inv d Hd) as (_ & _ & ? & _).
  - apply andb_true_iff in Hl as [Hd _]. eexists _, _. split; [done|]. apply Hsimple. by destruct (blank_inv d Hd) as (_ & _ & ?).
Qed.

Lemma operator_splits t o next :
  inert t -> (exists d u, next = d :: u /\ (d =? chr "&") = false /\ (d =? chr "|") = false) ->
  let rest := analyze_shell_command next in
  let whole := analyze_shell_command (t ++ operator_text o ++ next) in
  sa_segments whole = segment_of t ++ sa_segments rest
  /\ sa_normalized_segments whole = normalized_of t ++ sa_normalized_segments rest /\ sa_composed whole = true.
Proof.
  intros Ht (d & u & -> & Hd1 & Hd2). cbn zeta. rewrite !analyze_shell_command_run, Ht by done.
  assert (Hsep : forall ch more, is_shell_separator ch = true -> skip_separator ch (more ++ d :: u) = d :: u ->
    analyze_run (an_push t an_init) (ch :: more ++ d :: u) = analyze_run (push_segment (an_composed (an_push t an_init))) (d :: u)).
  { intros ch more Hch Hskip. rewrite analyze_run_separator by done. by rewrite Hskip. }
  assert (E : analyze_run (an_push t an_init) (operator_text o ++ d :: u) = analyze_run (push_segment (an_composed (an_push t an_init))) (d :: u)).
  { destruct o.
    - by apply (Hsep (chr ";") []).
    - apply (Hsep (chr "&") []); [done|]. unfold skip_separator. simpl. by rewrite Hd1.
    - apply (Hsep (chr "|") []); [done|]. unfold skip_separator. simpl. by rewrite Hd2.
    - by apply (Hsep (chr "&") [chr "&"]).
    - by apply (Hsep (chr "|") [chr "|"]).
    - by apply (Hsep (chr "010") []). }
  rewrite E, push_segment_fresh, analyze_run_prepend, an_finish_prepend. done.
Qed.

Lemma analyze_line l :
  line_ok l = true ->
  let a := analyze_shell_command (line_text l) in
  sa_segments a = concat ((segment_of ∘ command_text) <$> commands l)
  /\ sa_normalized_segments a = concat ((normalized_of ∘ command_text) <$> commands l)
  /\ sa_composed a = negb (bool_decide (li_rest l = [])).
Proof.
  destruct l as [c rest]. unfold line_ok, line_text, commands. cbn [li_first li_rest]. rewrite andb_true_iff. intros [Hc Hr]. revert c Hc.
  induction rest as [|[o c'] rest IH]; intros c Hc; cbn zeta; cbn [line_tail].
  - assert (E : sa_composed (analyze_shell_command (command_text c ++ [])) = false).
    { rewrite analyze_shell_command_run, (inert_command c Hc) by done. unfold an_finish. cbn [sa_composed]. by rewrite push_segment_composed. }
    destruct (analyze_uncomposed _ E) as (-> & -> & _). rewrite E, app_nil_r. simpl. by rewrite !app_nil_r.
  - simpl in Hr. apply andb_true_iff in Hr as [Hc' Hr]. specialize (IH Hr c' Hc'). cbn zeta in IH. destruct IH as (IH1 & IH2 & _).
    destruct (command_head c' Hc') as (d & t & Ed & Hd). destruct (operator_splits (command_text c) o (command_text c' ++ line_tail rest))
      as (-> & -> & ->); [by apply inert_command|rewrite Ed; by eexists _, _|]. by rewrite IH1, IH2.
Qed.

(** ** How the normalizer reads a command *)

(** Between words, and inside one. *)
Definition fresh (ws : list NormalizedShellWord) : norm_state := NormState ws [] false false false None false false.
Definition in_word (ws : list NormalizedShellWord) (text : str) (quoted : bool) : norm_state :=
  NormState ws text false false quoted None quoted false.
Definition shell_word (w : Word) : NormalizedShellWord :=
  Build_NormalizedShellWord (word_value w) (negb (word_bare w)) None (negb (word_bare w)) None.

Lemma norm_run_single ws text body rest :
  forallb (fun c => negb (c =? chr "'")) body = true ->
  norm_run (NormState ws text true false true None true false) (body ++ rest)
  = norm_run (NormState ws (text ++ body) true false true None true false) rest.
Proof.
  revert text. induction body as [|c body IH]; intros text Hb; [by rewrite app_nil_r|]. simpl in *.
  apply andb_true_iff in Hb as [Hc%negb_true_iff Hb]. rewrite norm_run_cons. unfold norm_step, norm_plain. simpl.
  rewrite Hc, ?andb_false_r. simpl. rewrite ?andb_false_r. simpl. unfold push_current. simpl. rewrite IH by done. by rewrite <- (assoc_L (++)).
Qed.
Lemma norm_run_double ws text body rest :
  forallb (fun c => negb (existsb (Z.eqb c) [chr "034"; chr "\"; chr "$"; chr "`"])) body = true ->
  norm_run (NormState ws text false true true None true false) (body ++ rest)
  = norm_run (NormState ws (text ++ body) false true true None true false) rest.
Proof.
  revert text. induction body as [|c body IH]; intros text Hb; [by rewrite app_nil_r|]. simpl in *.
  rewrite andb_true_iff, negb_true_iff, !orb_false_iff in Hb. destruct Hb as [(Hq & Hbs & Hdl & _) Hb].
  rewrite norm_run_cons. unfold norm_step, norm_plain. simpl.
  rewrite Hq, Hbs, Hdl, ?andb_false_r. simpl. rewrite ?andb_false_r. simpl. unfold push_current. simpl. rewrite IH by done.
  by rewrite <- (assoc_L (++)).
Qed.
Definition piece_bare (p : Piece) : bool := match p with Bare _ => true | _ => false end.
Lemma norm_run_piece ws text q p rest :
  piece_ok p = true ->
  norm_run (in_word ws text q) (piece_text p ++ rest) = norm_run (in_word ws (text ++ piece_value p) (q || negb (piece_bare p))) rest.
Proof.
  destruct p as [c|c|body|body]; simpl; intros Hp.
  - destruct (bare_char_inv c Hp) as (Hw & Hpl & Hs & Heq). rewrite norm_run_cons, norm_step_plain by done. simpl.
    apply plain_char_inv in Hpl as (_ & _ & _ & E4 & E5 & E6 & E7). unfold simple_char in Hs. rewrite negb_true_iff, !orb_false_iff in Hs.
    destruct_and! Hs. unfold norm_plain. simpl. rewrite E4, E5, E6, E7, Hw, Heq. simpl.
    repeat match goal with H : (c =? _) = false |- _ => rewrite H end. simpl. unfold push_current. simpl. by rewrite orb_false_r.
  - rewrite norm_run_cons. unfold norm_step. simpl. destruct (Z.eqb_spec c (chr "010")) as [->|]; [discriminate Hp|].
    unfold in_word, push_current, mark_constructed. simpl. by rewrite orb_true_r.
  - rewrite norm_run_cons. unfold norm_step. simpl. unfold in_word, set_quotes, mark_constructed. simpl. rewrite <- (assoc_L (++)).
    rewrite norm_run_single by done. cbn [app]. rewrite norm_run_cons. unfold norm_step. simpl. unfold set_quotes, mark_constructed. simpl. by rewrite orb_true_r.
  - rewrite norm_run_cons. unfold norm_step. simpl. unfold in_word, set_quotes, mark_constructed. simpl. rewrite <- (assoc_L (++)).
    rewrite norm_run_double by done. cbn [app]. rewrite norm_run_cons. unfold norm_step. simpl. unfold set_quotes, mark_constructed. simpl. by rewrite orb_true_r.
Qed.
Lemma norm_run_word ws text q w rest :
  forallb piece_ok w = true ->
  norm_run (in_word ws text q) (word_text w ++ rest) = norm_run (in_word ws (text ++ word_value w) (q || negb (word_bare w))) rest.
Proof.
  revert text q. unfold word_text, word_value, word_bare. induction w as [|p w IH]; intros text q Hw; simpl in *.
  - by rewrite app_nil_r, orb_false_r.
  - apply andb_true_iff in Hw as [Hp Hw]. rewrite <- (assoc_L (++)), norm_run_piece, IH by done. rewrite <- (assoc_L (++)).
    f_equal. f_equal. destruct p; simpl; by rewrite ?orb_true_r, ?orb_false_r.
Qed.
Lemma word_ends ws w : word_ok w = true -> push_normalized_word (in_word ws (word_value w) (negb (word_bare w))) = fresh (ws ++ [shell_word w]).
Proof.
  unfold word_ok, push_normalized_word. rewrite andb_true_iff, negb_true_iff. intros [Hne%bool_decide_eq_false _]. simpl.
  assert (E : negb (bool_decide (word_value w = [])) || negb (word_bare w) = true); [|by rewrite E].
  destruct (word_bare w) eqn:Eb; [|by rewrite orb_true_r]. destruct w as [|[]]; done.
Qed.
Lemma norm_run_blanks ws gap rest : forallb blank gap = true -> norm_run (fresh ws) (gap ++ rest) = norm_run (fresh ws) rest.
Proof.
  induction gap as [|c gap IH]; [done|]. simpl. intros [Hc Hg]%andb_true_iff. destruct (blank_inv c Hc) as (Hw & Hpl & _).
  rewrite norm_run_cons, norm_step_plain by done. simpl. rewrite <- (IH Hg). f_equal.
  apply plain_char_inv in Hpl as (_ & _ & _ & E4 & E5 & E6 & E7). unfold norm_plain. simpl. by rewrite E4, E5, E6, E7, Hw.
Qed.
Lemma norm_run_gap ws w gap rest :
  word_ok w = true -> gap <> [] -> forallb blank gap = true ->
  norm_run (in_word ws (word_value w) (negb (word_bare w))) (gap ++ rest) = norm_run (fresh (ws ++ [shell_word w])) rest.
Proof.
  intros Hw Hne Hg. destruct gap as [|c gap]; [done|]. simpl in *. apply andb_true_iff in Hg as [Hc Hg]. destruct (blank_inv c Hc) as (Hws & Hpl & _).
  rewrite norm_run_cons, norm_step_plain by done. simpl. rewrite <- (norm_run_blanks _ gap rest Hg), <- word_ends by done. f_equal.
  apply plain_char_inv in Hpl as (_ & _ & _ & E4 & E5 & E6 & E7). unfold norm_plain. simpl. by rewrite E4, E5, E6, E7, Hws.
Qed.

Lemma norm_words_text first rest :
  word_ok first = true ->
  forallb (fun p : str * Word => negb (bool_decide (p.1 = [])) && forallb blank p.1 && word_ok p.2) rest = true ->
  norm_words (words_text first rest) = shell_word <$> first :: rest.*2.
Proof.
  intros Hf Hr. rewrite norm_words_run.
  assert (H : forall ws w rest, word_ok w = true ->
    forallb (fun p : str * Word => negb (bool_decide (p.1 = [])) && forallb blank p.1 && word_ok p.2) rest = true ->
    n_words (push_normalized_word (norm_run (fresh ws) (words_text w rest))) = ws ++ (shell_word <$> w :: rest.*2)).
  { clear. intros ws w rest. revert ws w. induction rest as [|[gap w'] rest IH]; intros ws w Hw Hr; unfold words_text; simpl.
    - change (fresh ws) with (in_word ws [] false). rewrite norm_run_word by by apply andb_true_iff in Hw as [_ ?]. simpl.
      rewrite norm_run_nil, word_ends by done. done.
    - simpl in Hr. rewrite !andb_true_iff, negb_true_iff in Hr. destruct Hr as [[[Hne%bool_decide_eq_false Hg] Hw'] Hr].
      change (fresh ws) with (in_word ws [] false). rewrite norm_run_word by by apply andb_true_iff in Hw as [_ ?]. simpl.
      rewrite <- (assoc_L (++)), norm_run_gap by done. unfold words_text in IH. rewrite IH by done. by rewrite <- (assoc_L (++)). }
  by rewrite (H []).
Qed.

Lemma piece_edges p : piece_ok p = true -> (exists c t, piece_text p = c :: t /\ is_whitespace c = false) /\ (exists t c, piece_text p = t ++ [c] /\ is_whitespace c = false).
Proof.
  destruct p as [c|c|body|body]; simpl; intros Hp.
  - destruct (bare_char_inv c Hp) as (Hc & _). split; [by eexists _, _|by exists [], c].
  - apply negb_true_iff in Hp. split; [by eexists _, _|by exists [chr "\"], c].
  - split; [by eexists _, _|by exists (chr "'" :: body), (chr "'")].
  - split; [by eexists _, _|by exists (chr "034" :: body), (chr "034")].
Qed.
Lemma word_edges w : word_ok w = true -> (exists c t, word_text w = c :: t /\ is_whitespace c = false) /\ (exists t c, word_text w = t ++ [c] /\ is_whitespace c = false).
Proof.
  unfold word_ok, word_text. rewrite andb_true_iff, negb_true_iff. intros [Hne%bool_decide_eq_false Hw]. split.
  - destruct w as [|p w]; [done|]. simpl in *. apply andb_true_iff in Hw as [Hp _]. destruct (piece_edges p Hp) as [(c & t & -> & Hc) _]. by eexists _, _.
  - destruct w as [|p w _] using rev_ind; [done|]. rewrite forallb_app, andb_true_iff in Hw. destruct Hw as [_ Hp]. simpl in Hp. rewrite andb_true_r in Hp.
    destruct (piece_edges p Hp) as [_ (t & c & E & Hc)]. rewrite fmap_app, concat_app. simpl. rewrite app_nil_r, E. exists (concat (piece_text <$> w) ++ t), c.
    by rewrite (assoc_L (++)).
Qed.
Lemma words_edges first rest :
  word_ok first = true ->
  forallb (fun p : str * Word => negb (bool_decide (p.1 = [])) && forallb blank p.1 && word_ok p.2) rest = true ->
  no_edge_ws (words_text first rest) /\ words_text first rest <> [].
Proof.
  intros Hf Hr. unfold words_text. destruct (word_edges first Hf) as [(c & t & E & Hc) (t' & c' & E' & Hc')]. split; [|by rewrite E].
  split; intros d u Hd; [rewrite E in Hd; by injection Hd as <- _|].
  destruct rest as [|[gap w] rest _] using rev_ind; [simpl in Hd; rewrite app_nil_r, E' in Hd; by apply app_inj_tail in Hd as [_ <-]|].
  rewrite forallb_app, andb_true_iff in Hr. destruct Hr as [_ Hr]. simpl in Hr. rewrite andb_true_r, andb_true_iff in Hr. destruct Hr as [_ Hw].
  destruct (word_edges w Hw) as [_ (t1 & c1 & E1 & Hc1)]. rewrite fmap_app, concat_app in Hd. simpl in Hd. rewrite app_nil_r, E1, !(assoc_L (++)) in Hd.
  by apply app_inj_tail in Hd as [_ <-].
Qed.

Lemma trim_command c : command_ok c = true -> trim (command_text c) = words_text (co_first c) (co_rest c) /\ trim (command_text c) <> [].
Proof.
  unfold command_ok. rewrite !andb_true_iff. intros [[[Hl Hf] Hr] Ht]. destruct (words_edges _ _ Hf Hr) as [He Hne].
  assert (Hb : forall t, forallb blank t = true -> Forall (fun c => is_whitespace c = true) t).
  { intros t H. apply Forall_forall. intros d Hd%list_elem_of_In. rewrite forallb_forall in H. by destruct (blank_inv d (H d Hd)). }
  unfold command_text. rewrite trim_pad; auto.
Qed.
Lemma no_prefix w ws :
  word_value w <> lit "!" -> word_value w <> lit "time" -> prefix_width (shell_word w :: ws) 0 (shell_word w) = None.
Proof.
  intros H1 H2. unfold prefix_width. assert (is_shell_assignment_word (shell_word w) = false) as ->.
  { unfold is_shell_assignment_word. simpl. by destruct (word_bare w). }
  unfold redirection_prefix_width, shell_pipeline_prefix_width. cbn [lookup list_lookup shell_word w_redirection_operator_end w_text].
  destruct (str_eqb (word_value w) (lit "!")) eqn:E1; [by apply str_eqb_eq in E1|].
  destruct (str_eqb (word_value w) (lit "time")) eqn:E2; [by apply str_eqb_eq in E2|]. done.
Qed.
Lemma normalize_command c :
  command_ok c = true ->
  ns_text (normalize_shell_words (trim (command_text c))) = literal c
  /\ (word_value (co_first c) <> lit "!" -> word_value (co_first c) <> lit "time" ->
      ns_command_word_constructed (normalize_shell_words (trim (command_text c))) = negb (word_bare (co_first c))).
Proof.
  intros Hc. destruct (trim_command c Hc) as [E _]. unfold command_ok in Hc. rewrite !andb_true_iff in Hc. destruct Hc as [[[_ Hf] Hr] _].
  unfold normalize_shell_words. rewrite trim_idemp, E, norm_words_text by done. cbn [ns_text ns_command_word_constructed]. split.
  - unfold join_words, literal. f_equal. change (map w_text (shell_word <$> co_first c :: (co_rest c).*2)) with (w_text <$> (shell_word <$> co_first c :: (co_rest c).*2)).
    by rewrite <- list_fmap_compose.
  - intros H1 H2. unfold command_word_index. cbn [command_word_index_from fmap list_fmap length lookup list_lookup].
    by rewrite (no_prefix (co_first c)).
Qed.

(** ** The policy *)

(** The literal words of every command on the line are a candidate. *)
Lemma literal_is_candidate l c : line_ok l = true -> c ∈ commands l -> literal c ∈ policy_candidates (line_text l).
Proof.
  intros Hl Hc. apply segments_are_candidates. destruct (analyze_line l Hl) as (-> & -> & _).
  assert (Hok : command_ok c = true).
  { unfold line_ok in Hl. apply andb_true_iff in Hl as [H1 H2]. unfold commands in Hc. apply elem_of_cons in Hc as [->|Hc]; [done|].
    apply list_elem_of_fmap in Hc as ([o d] & -> & Hin). rewrite forallb_forall in H2. apply list_elem_of_In in Hin. exact (H2 _ Hin). }
  destruct (normalize_command c Hok) as [En _]. destruct (trim_command c Hok) as [_ Hne].
  assert (Hin : forall f : str -> list str, literal c ∈ f (command_text c) -> literal c ∈ concat ((f ∘ command_text) <$> commands l)).
  { intros f Hf. apply list_elem_of_In, in_concat. exists (f (command_text c)). split; [|by apply list_elem_of_In].
    apply list_elem_of_In, list_elem_of_fmap. by exists c. }
  destruct (str_eqb (literal c) (trim (command_text c))) eqn:E.
  - left. apply Hin. unfold segment_of. rewrite bool_decide_eq_false_2 by done. apply str_eqb_eq in E. rewrite E. by left.
  - right. apply Hin. unfold normalized_of. rewrite bool_decide_eq_false_2 by done. unfold push_normalized_shell_words.
    rewrite En, E. destruct (ns_command_text _) as [t|]; [destruct (negb _ && negb _)|]; left.
Qed.

(** C1. The policy sees through quoting. For every line of simple commands, however its
    words are split into bare characters, escapes and quotes and whatever operators and
    blanks stand between them: when the literal words of one of the commands, joined by
    spaces, are matched by a deny pattern in its declarative meaning, the line is
    denied, and when they are matched by a review pattern the line is denied or
    reviewed (literal words that contain a star apart); and a line that is allowed is a
    single command, whose first word is spelled without quoting unless it is one of the
    shell's prefixes [!] and [time]. Lines with redirections, assignments, expansions,
    substitutions or parentheses are outside the claim; some of them do pass a deny
    pattern ([Policy.deny_bypasses]). *)
Theorem allow_sound l permissions :
  line_ok l = true ->
  let decision := evaluate_policy (line_text l) permissions in
  (forall c pattern, c ∈ commands l -> Forall (fun ch => ch <> star) (literal c) ->
     gmatch (as_bytes pattern) (as_bytes (literal c)) ->
     (pattern ∈ p_deny permissions -> decision = Deny) /\ (pattern ∈ p_review permissions -> decision = Deny \/ decision = Review))
  /\ (decision = Allow -> exists c, commands l = [c]
        /\ (word_bare (co_first c) = true \/ word_value (co_first c) = lit "!" \/ word_value (co_first c) = lit "time")).
Proof.
  intros Hl decision. split.
  - intros c pattern Hc Hs Hg. pose proof (literal_is_candidate l c Hl Hc) as Hcand. apply gmatch_glob_match in Hg; [|done].
    assert (Hm : forall patterns, pattern ∈ patterns -> any_match patterns (policy_candidates (line_text l)) = true).
    { intros patterns Hp. apply any_match_true. eauto. }
    unfold decision, evaluate_policy. split; intros Hp; rewrite (Hm _ Hp); [done|]. case_match; auto.
  - intros (_ & _ & Hc & Hw & _)%evaluate_policy_allow. destruct (analyze_line l Hl) as (_ & _ & E). rewrite Hc in E.
    symmetry in E. apply negb_false_iff, bool_decide_eq_true in E. destruct l as [c rest]. simpl in E. subst rest. exists c. split; [done|].
    unfold line_text in Hw. cbn [li_first li_rest line_tail] in Hw. rewrite app_nil_r in Hw. unfold line_ok in Hl. apply andb_true_iff in Hl as [Hok _]. simpl in Hok.
    rewrite <- normalize_trim in Hw. destruct (normalize_command c Hok) as [_ Hn].
    destruct (decide (word_value (co_first c) = lit "!")) as [?|H1]; [by right; left|].
    destruct (decide (word_value (co_first c) = lit "time")) as [?|H2]; [by right; right|].
    left. rewrite Hn in Hw by done. by apply negb_false_iff.
Qed.

(** [cd /tmp && r'm' -\rf "a b"]. *)
Definition demo_line : Line :=
  let bare s := Bare <$> lit s in
  mkLine (mkCommand [] (bare "cd") [([chr " "], bare "/tmp")] [chr " "])
    [(AndAnd, mkCommand [chr " "] [Bare (chr "r"); Single (lit "m")]
       [([chr " "], [Bare (chr "-"); Escaped (chr "r"); Bare (chr "f")]); ([chr " "], [Double (lit "a b")])] [])].
Lemma allow_sound_witness :
  literal (mkCommand [chr " "] [Bare (chr "r"); Single (lit "m")] [([chr " "], Bare <$> lit "x")] []) = lit "rm x"
  /\ evaluate_policy (line_text demo_line) {| p_review := []; p_deny := [lit "rm *"] |} = Deny.
Proof.
  split; [vm_compute; reflexivity|].
  refine (proj1 (proj1 (allow_sound demo_line {| p_review := []; p_deny := [lit "rm *"] |} _) _ (lit "rm *") _ _ _) _).
  - vm_compute. reflexivity.
  - unfold demo_line, commands. simpl. right. left.
  - repeat constructor; discriminate.
  - apply glob_match_gmatch. vm_compute. reflexivity.
  - left.
Defined.
