(* ===== verification/Store.v ===== *)
(** The durable store (src/src/state): the SQLite tables the modelled
    operations read and write, and the form every write scope has.

    A write scope ([begin_immediate] .. [commit], src/src/state/core.rs) runs
    under the database's write lock and is rolled back on error, so an
    operation is a function from the store to either an error, which leaves
    the store as it was, or a value with the next store. Rows are the records
    of the source; a table is a finite map from primary key to row. What SQLite
    itself refuses (a primary key or unique index already taken, a missing
    foreign key, an integer past 64 bits) is the error [Sqlite]. Clock
    readings and generated ids are arguments. A statement without ORDER BY
    returns rows in the order of the finite map. *)

From S2P Require Import Prelude Text.
Open Scope Z_scope.

(** ** Errors *)

(** The variants of [StackError] the modelled operations return. *)
Inductive StackError :=
| Sqlite
| InvalidEventPayload
| PermissionNotFound (id : string)
| InvalidPermissionTransition (id from to : string)
| CommandNotFound (id : string)
| PromptNotFound (id : string)
| SessionNotFound (id : string)
| SessionDeleted (id : string)
| SessionEventCursorUnknown (session_id : string)
| SessionTargetRenameConflict (old_target_id new_target_id : string)
| InvalidParam (field : string)
| MissingField (field : string)
| InvalidAuthFailurePayload
| StateInvalidJson (field : string).

(** ** Rows *)

Record Event := mkEvent {
  e_id : string;
  e_created_at : string;
  e_level : string;
  e_kind : string;
  e_message : string;
  e_payload_json : string;
  e_source : string;
  e_session_id : option string;
  e_seq : option Z;
}.

Record SessionRow := mkSession {
  s_id : string;
  s_target_id : string;
  s_agent_session_id : string;
  s_created_at : string;
  s_updated_at : string;
  s_status : string;
  s_agent_id : string;
  s_cwd : string;
  s_title : option string;
  s_metadata_json : string;
  s_change_seq : Z;
}.

Record Tombstone := mkTombstone { t_deleted_at : string; t_change_seq : Z }.

Record SubagentRecord := mkSubagent {
  sa_session_id : string;
  sa_parent_session_id : string;
  sa_root_session_id : string;
  sa_title : option string;
  sa_description : option string;
  sa_state_json : option string;
  sa_state_current : bool;
  sa_cancel_granted : bool;
  sa_announced_at : string;
  sa_updated_at : string;
}.

Record PromptRecord := mkPrompt {
  p_id : string;
  p_session_id : string;
  p_created_at : string;
  p_updated_at : string;
  p_status : string;
  p_stop_reason : option string;
  p_error_code : option string;
  p_error_message : option string;
  p_prompt_json : string;
  p_message_id : option string;
  p_message_id_acknowledged : bool;
  p_failure_class : option string;
  p_failure_detail_json : option string;
  p_agent_message_id : option string;
}.

Record PermissionRequestRecord := mkPermission {
  pr_id : string;
  pr_created_at : string;
  pr_updated_at : string;
  pr_status : string;
  pr_source : string;
  pr_requester : option string;
  pr_subject_id : option string;
  pr_detail_json : string;
  pr_expires_at : option string;
}.

Record PermissionDecisionRecord := mkDecision {
  pd_id : string;
  pd_request_id : string;
  pd_created_at : string;
  pd_decision : string;
  pd_deciding_principal : option string;
  pd_reason : option string;
}.

Record CommandRecord := mkCommand {
  c_id : string;
  c_created_at : string;
  c_updated_at : string;
  c_status : string;
  c_command : string;
  c_exit_status : option Z;
  c_started_at : option string;
  c_finished_at : option string;
  c_cwd : option string;
  c_env_json : option string;
  c_duration_ms : option Z;
  c_truncated : bool;
  c_last_output_event_id : option string;
  c_last_output_at : option string;
  c_last_output_seq : option Z;
  c_output_bytes : Z;
  c_last_progress_at : option string;
  c_origin : string;
  c_session_id : option string;
  c_terminal_id : option string;
}.

Record AuthFailure := mkAuthFailure {
  af_id : string;
  af_created_at : string;
  af_key_kind : string;
  af_reason : string;
  af_client_ip : option str;
  af_route : option str;
  af_payload_json : str;
}.

Record AuthKeyRecord := mkAuthKey {
  ak_key_kind : string;
  ak_algorithm : string;
  ak_salt : str;
  ak_digest : str;
  ak_created_at : string;
  ak_updated_at : string;
}.

(** A row of [sink_outbox]; the CHECK constraint closes the status column. *)
Inductive OutboxStatus := OPending | OSending | OSent | OFailed.

#[export] Instance OutboxStatus_eq_dec : EqDecision OutboxStatus.
Proof. solve_decision. Defined.

Record OutboxRow := mkOutbox {
  o_source_table : string;
  o_source_id : string;
  o_created_at : string;
  o_status : OutboxStatus;
  o_attempts : Z;
  o_next_attempt_at : option string;
  o_last_error : option string;
  o_last_attempt_at : option string;
}.

Record FailureRow := mkFailure {
  f_failure_count : Z;
  f_last_error : option string;
  f_last_observed_at : string;
}.

(** What [publish] hands to the event hub once the write is durable. *)
Inductive HubMessage :=
| HubLog (event : Event)
| HubSession (session_id : string) (event : Event).

(** ** The store *)

Record Store := mkStore {
  st_sessions : gmap string SessionRow;
  st_tombstones : gmap string Tombstone;
  st_change_seq : Z;
  st_pruned_through : Z;
  st_subagents : gmap string SubagentRecord;
  st_prompts : gmap string PromptRecord;
  st_events : gmap string Event;
  st_permissions : gmap string PermissionRequestRecord;
  st_decisions : gmap string PermissionDecisionRecord;
  st_commands : gmap string CommandRecord;
  st_outbox : gmap string OutboxRow;
  st_failures : gmap string FailureRow;
  st_auth_failures : gmap string AuthFailure;
  st_auth_keys : gmap string AuthKeyRecord;
  st_published : list HubMessage;
}.

Definition set_sessions v st := mkStore v (st_tombstones st) (st_change_seq st)
  (st_pruned_through st) (st_subagents st) (st_prompts st) (st_events st) (st_permissions st)
  (st_decisions st) (st_commands st) (st_outbox st) (st_failures st) (st_auth_failures st)
  (st_auth_keys st) (st_published st).
Definition set_tombstones v st := mkStore (st_sessions st) v (st_change_seq st)
  (st_pruned_through st) (st_subagents st) (st_prompts st) (st_events st) (st_permissions st)
  (st_decisions st) (st_commands st) (st_outbox st) (st_failures st) (st_auth_failures st)
  (st_auth_keys st) (st_published st).
Definition set_counter c p st := mkStore (st_sessions st) (st_tombstones st) c p (st_subagents st)
  (st_prompts st) (st_events st) (st_permissions st) (st_decisions st) (st_commands st)
  (st_outbox st) (st_failures st) (st_auth_failures st) (st_auth_keys st) (st_published st).
Definition set_subagents v st := mkStore (st_sessions st) (st_tombstones st) (st_change_seq st)
  (st_pruned_through st) v (st_prompts st) (st_events st) (st_permissions st) (st_decisions st)
  (st_commands st) (st_outbox st) (st_failures st) (st_auth_failures st) (st_auth_keys st)
  (st_published st).
Definition set_prompts v st := mkStore (st_sessions st) (st_tombstones st) (st_change_seq st)
  (st_pruned_through st) (st_subagents st) v (st_events st) (st_permissions st) (st_decisions st)
  (st_commands st) (st_outbox st) (st_failures st) (st_auth_failures st) (st_auth_keys st)
  (st_published st).
Definition set_events v st := mkStore (st_sessions st) (st_tombstones st) (st_change_seq st)
  (st_pruned_through st) (st_subagents st) (st_prompts st) v (st_permissions st) (st_decisions st)
  (st_commands st) (st_outbox st) (st_failures st) (st_auth_failures st) (st_auth_keys st)
  (st_published st).
Definition set_permissions v st := mkStore (st_sessions st) (st_tombstones st) (st_change_seq st)
  (st_pruned_through st) (st_subagents st) (st_prompts st) (st_events st) v (st_decisions st)
  (st_commands st) (st_outbox st) (st_failures st) (st_auth_failures st) (st_auth_keys st)
  (st_published st).
Definition set_decisions v st := mkStore (st_sessions st) (st_tombstones st) (st_change_seq st)
  (st_pruned_through st) (st_subagents st) (st_prompts st) (st_events st) (st_permissions st) v
  (st_commands st) (st_outbox st) (st_failures st) (st_auth_failures st) (st_auth_keys st)
  (st_published st).
Definition set_commands v st := mkStore (st_sessions st) (st_tombstones st) (st_change_seq st)
  (st_pruned_through st) (st_subagents st) (st_prompts st) (st_events st) (st_permissions st)
  (st_decisions st) v (st_outbox st) (st_failures st) (st_auth_failures st) (st_auth_keys st)
  (st_published st).
Definition set_outbox v st := mkStore (st_sessions st) (st_tombstones st) (st_change_seq st)
  (st_pruned_through st) (st_subagents st) (st_prompts st) (st_events st) (st_permissions st)
  (st_decisions st) (st_commands st) v (st_failures st) (st_auth_failures st) (st_auth_keys st)
  (st_published st).
Definition set_failures v st := mkStore (st_sessions st) (st_tombstones st) (st_change_seq st)
  (st_pruned_through st) (st_subagents st) (st_prompts st) (st_events st) (st_permissions st)
  (st_decisions st) (st_commands st) (st_outbox st) v (st_auth_failures st) (st_auth_keys st)
  (st_published st).
Definition set_auth_failures v st := mkStore (st_sessions st) (st_tombstones st) (st_change_seq st)
  (st_pruned_through st) (st_subagents st) (st_prompts st) (st_events st) (st_permissions st)
  (st_decisions st) (st_commands st) (st_outbox st) (st_failures st) v (st_auth_keys st)
  (st_published st).
Definition set_auth_keys v st := mkStore (st_sessions st) (st_tombstones st) (st_change_seq st)
  (st_pruned_through st) (st_subagents st) (st_prompts st) (st_events st) (st_permissions st)
  (st_decisions st) (st_commands st) (st_outbox st) (st_failures st) (st_auth_failures st) v
  (st_published st).
Definition set_published v st := mkStore (st_sessions st) (st_tombstones st) (st_change_seq st)
  (st_pruned_through st) (st_subagents st) (st_prompts st) (st_events st) (st_permissions st)
  (st_decisions st) (st_commands st) (st_outbox st) (st_failures st) (st_auth_failures st)
  (st_auth_keys st) v.

(** A freshly migrated database. *)
Definition empty_store : Store := mkStore ∅ ∅ 0 0 ∅ ∅ ∅ ∅ ∅ ∅ ∅ ∅ ∅ ∅ [].

(** ** Operations *)

(** A store operation: an error rolls back, so it carries no store. *)
Definition M (A : Type) : Type := Store -> result StackError (A * Store).

Definition ret {A} (a : A) : M A := fun st => Ok (a, st).
Definition fail {A} (e : StackError) : M A := fun _ => Err e.
Definition bind {A B} (m : M A) (f : A -> M B) : M B :=
  fun st => match m st with
            | Ok (a, st') => f a st'
            | Err e => Err e
            end.
Definition gets {A} (f : Store -> A) : M A := fun st => Ok (f st, st).
Definition modify (f : Store -> Store) : M unit := fun st => Ok (tt, f st).

Notation "'let*' x ':=' m 'in' k" := (bind m (fun x => k))
  (at level 10, x pattern, m at level 100, k at level 200) : result_scope.
Notation "m ;; k" := (bind m (fun _ => k))
  (at level 100, right associativity) : result_scope.
Open Scope result_scope.

(** [for x in l { f(x)?; }] *)
Fixpoint for_each {A} (l : list A) (f : A -> M unit) : M unit :=
  match l with
  | [] => ret tt
  | x :: l' => f x ;; for_each l' f
  end.

(** The largest value an INTEGER column holds. *)
Definition i64_max : Z := 9223372036854775807.

(** ** Text order *)

Lemma ltb_negb_leb a b : String.ltb a b = negb (String.leb b a).
Proof. unfold String.ltb, String.leb. rewrite (String.compare_antisym a b). by destruct (String.compare b a). Qed.

Lemma leb_trans a b c : String.leb a b = true -> String.leb b c = true -> String.leb a c = true.
Proof.
  intros H1 H2. apply Is_true_true. trans b; by apply Is_true_true.
Qed.

(** SQLite's BINARY collation on [(timestamp, id)] pairs. *)
Definition key_le (a b : string * string) : Prop :=
  (a.1 <> b.1 /\ String.le a.1 b.1) \/ (a.1 = b.1 /\ String.le a.2 b.2).

#[export] Instance key_le_dec : RelDecision key_le.
Proof. intros a b. unfold key_le. apply _. Defined.

#[export] Instance key_le_total : Total key_le.
Proof.
  intros a b. unfold key_le. destruct (decide (a.1 = b.1)) as [E|E].
  - destruct (total String.le a.2 b.2); naive_solver.
  - destruct (total String.le a.1 b.1); naive_solver.
Qed.

#[export] Instance key_le_trans : Transitive key_le.
Proof.
  intros a b c H1 H2. unfold key_le in *.
  destruct H1 as [[N1 L1]|[E1 L1]], H2 as [[N2 L2]|[E2 L2]].
  - left. split; [|by trans b.1]. intros E. apply N1.
    apply (anti_symm String.le); [done|]. by rewrite E.
  - rewrite <- E2. by left.
  - rewrite E1. by left.
  - right. split; [congruence|]. by trans b.2.
Qed.

Definition on_key {A} (key : A -> string * string) (a b : A) : Prop := key_le (key a) (key b).

#[export] Instance on_key_dec {A} (key : A -> string * string) : RelDecision (on_key key).
Proof. intros a b. unfold on_key. apply _. Defined.
#[export] Instance on_key_total {A} (key : A -> string * string) : Total (on_key key).
Proof. intros a b. apply key_le_total. Qed.
#[export] Instance on_key_trans {A} (key : A -> string * string) : Transitive (on_key key).
Proof. intros a b c. unfold on_key. apply key_le_trans. Qed.

(** [ORDER BY k1 ASC, k2 ASC]. *)
Definition order_by {A} (key : A -> string * string) (l : list A) : list A :=
  merge_sort (on_key key) l.

Lemma order_by_perm {A} (key : A -> string * string) l : order_by key l ≡ₚ l.
Proof. apply merge_sort_Permutation. Qed.

Lemma order_by_sorted {A} (key : A -> string * string) l :
  StronglySorted (on_key key) (order_by key l).
Proof. apply StronglySorted_merge_sort; apply _. Qed.

(** The store after an operation, and whether it succeeded. *)
Definition exec {A} (m : M A) (st : Store) : Store :=
  match m st with Ok (_, st') => st' | Err _ => st end.
Definition succeeds {A} (m : M A) (st : Store) : bool :=
  match m st with Ok _ => true | Err _ => false end.

Lemma exec_ok {A} (m : M A) st : succeeds m st = true -> exists a, m st = Ok (a, exec m st).
Proof. unfold succeeds, exec. destruct (m st) as [[a st']|]; [by eexists|done]. Qed.

(** ** Reasoning about operations *)

(** A property of stores that an operation keeps whenever it succeeds. *)
Definition preserves {A} (P : Store -> Prop) (m : M A) : Prop :=
  forall st a st', P st -> m st = Ok (a, st') -> P st'.

Lemma bind_ok {A B} (m : M A) (f : A -> M B) st b st' :
  bind m f st = Ok (b, st') <-> exists a st1, m st = Ok (a, st1) /\ f a st1 = Ok (b, st').
Proof. unfold bind. destruct (m st) as [[a st1]|e]; naive_solver. Qed.

Lemma preserves_bind {A B} P (m : M A) (f : A -> M B) :
  preserves P m -> (forall a, preserves P (f a)) -> preserves P (bind m f).
Proof. intros Hm Hf st b st' HP (a & st1 & H1 & H2)%bind_ok. exact (Hf a st1 b st' (Hm st a st1 HP H1) H2). Qed.

Lemma preserves_ret {A} P (a : A) : preserves P (ret a).
Proof. by intros st b st' HP [= <- <-]. Qed.

Lemma preserves_fail {A} P e : preserves P (fail (A := A) e).
Proof. by intros st b st' HP. Qed.

Lemma preserves_gets {A} P (f : Store -> A) : preserves P (gets f).
Proof. by intros st b st' HP [= <- <-]. Qed.

Lemma preserves_modify (P : Store -> Prop) f :
  (forall st, P st -> P (f st)) -> preserves P (modify f).
Proof. intros H st b st' HP [= <- <-]. auto. Qed.

Lemma preserves_for_each {A} P (l : list A) (f : A -> M unit) :
  (forall x, preserves P (f x)) -> preserves P (for_each l f).
Proof.
  intros H. induction l; simpl; [apply preserves_ret|]. by apply preserves_bind.
Qed.

#[export] Hint Resolve preserves_bind preserves_ret preserves_fail preserves_gets
  preserves_for_each : acps.

(** Split a successful run of a composed operation into its steps. *)
Ltac run_hyps :=
  repeat match goal with
  | H : bind _ _ _ = Ok _ |- _ => apply bind_ok in H as (? & ? & ? & ?)
  | H : ret _ _ = Ok _ |- _ => unfold ret in H; simplify_eq
  | H : gets _ _ = Ok _ |- _ => unfold gets in H; simplify_eq
  | H : modify _ _ = Ok _ |- _ => unfold modify in H; simplify_eq
  | H : fail _ _ = Ok _ |- _ => discriminate H
  end.

(** Walk an operation that leaves alone what [P] reads; statements that touch
    it are left as goals. *)
Ltac walk_preserves :=
  repeat first
    [ apply preserves_bind; [|intros ?] | apply preserves_ret | apply preserves_fail
    | apply preserves_gets | apply preserves_for_each; intros ?
    | progress (apply preserves_modify; intros ? ?; simpl); try assumption
    | case_match ].
