(* ===== verification/Keyset.v ===== *)
(** Keyset paging, shared by the log and the session queries: rows ordered by a
    timestamp and an id, and the row-value comparison with the cursor row
    ([LogOrder] of src/src/state/records.rs and the cursor predicates of
    src/src/state/rows.rs). *)

From S2P Require Import Prelude Store.
Open Scope Z_scope.

Inductive LogOrder := Desc | Asc.

(** [(a1, a2) < (b1, b2)]. *)
Definition key_lt (a b : string * string) : bool :=
  String.ltb a.1 b.1 || (bool_decide (a.1 = b.1) && String.ltb a.2 b.2).

Lemma key_lt_spec a b : key_lt a b = true <-> key_le a b /\ a <> b.
Proof.
  destruct a as [a1 a2], b as [b1 b2]. unfold key_lt, key_le. simpl.
  assert (forall x y, String.ltb x y = true <-> String.le x y /\ x <> y) as Hlt.
  { intros x y. rewrite ltb_negb_leb, negb_true_iff. unfold String.le. rewrite Is_true_true. split.
    - intros H. destruct (String.leb_total x y) as [E|E]; [|congruence]. split; [done|].
      intros ->. congruence.
    - intros [H Hn]. destruct (String.leb y x) eqn:E; [|done]. destruct Hn.
      apply (anti_symm String.le); by apply Is_true_true. }
  rewrite orb_true_iff, andb_true_iff, !Hlt, bool_decide_eq_true. split.
  - intros [[H1 H2]|[-> [H1 H2]]]; (split; [tauto|congruence]).
  - intros [[[H1 H2]|[-> H1]] Hn]; [tauto|]. right. split; [done|]. split; [done|congruence].
Qed.

Lemma key_le_antisym a b : key_le a b -> key_le b a -> a = b.
Proof.
  destruct a as [a1 a2], b as [b1 b2]. unfold key_le. simpl. intros [[N1 L1]|[E1 L1]] [[N2 L2]|[E2 L2]]; try congruence.
  - destruct N1. by apply (anti_symm String.le).
  - subst. f_equal. by apply (anti_symm String.le).
Qed.

Lemma key_lt_ge a b : key_le a b -> key_lt b a = false.
Proof.
  intros H. destruct (key_lt b a) eqn:E; [|done]. apply key_lt_spec in E as [H' Hn]. destruct Hn.
  by apply key_le_antisym.
Qed.

Section keyset.
Context {A : Type} (key : A -> string * string).

(** [ORDER BY k1 dir, k2 dir]: no two rows share a key, so a descending order is
    the ascending one reversed. *)
Definition direction (o : LogOrder) (l : list A) : list A :=
  match o with Asc => order_by key l | Desc => reverse (order_by key l) end.

(** The rows past a cursor row. *)
Definition past (o : LogOrder) (c e : A) : bool :=
  match o with Desc => key_lt (key e) (key c) | Asc => key_lt (key c) (key e) end.

Definition distinct_keys (l : list A) : Prop :=
  NoDup l /\ forall a b, a ∈ l -> b ∈ l -> key a = key b -> a = b.

Lemma distinct_filter P `{!forall x, Decision (P x)} l : distinct_keys l -> distinct_keys (filter P l).
Proof.
  intros [Hn Hi]. split; [by apply NoDup_filter|].
  intros a b [_ Ha]%list_elem_of_filter [_ Hb]%list_elem_of_filter. by apply Hi.
Qed.

Lemma elem_of_direction o l x : x ∈ direction o l <-> x ∈ l.
Proof. destruct o; simpl; rewrite ?elem_of_reverse; by rewrite order_by_perm. Qed.

Lemma order_filter P `{!forall x, Decision (P x)} l :
  distinct_keys l -> order_by key (filter P l) = filter P (order_by key l).
Proof.
  intros [Hn Hi]. apply (StronglySorted_unique_strong (on_key key)).
  - intros a b Ha Hb. rewrite order_by_perm in Ha. apply list_elem_of_filter in Ha as [_ Ha], Hb as [_ Hb].
    rewrite order_by_perm in Hb. intros H1 H2. apply Hi; [done..|]. by apply key_le_antisym.
  - apply order_by_sorted.
  - apply StronglySorted_filter, order_by_sorted.
  - by rewrite !order_by_perm.
Qed.

(** Rows on the two sides of a row of an ordered list. *)
Lemma cursor_split l1 c l2 :
  StronglySorted (on_key key) (l1 ++ c :: l2) -> distinct_keys (l1 ++ c :: l2) ->
  filter (fun e => key_lt (key c) (key e) = true) (l1 ++ c :: l2) = l2
  /\ filter (fun e => key_lt (key e) (key c) = true) (l1 ++ c :: l2) = l1.
Proof.
  intros Hs [Hn Hi]. apply NoDup_app in Hn as (_ & Hd & [Hc _]%NoDup_cons).
  assert (forall e, e ∈ l1 -> key_le (key e) (key c)) as H1.
  { intros e He. apply (StronglySorted_split _ _ _ e c Hs He). set_solver. }
  assert (forall e, e ∈ l2 -> key_le (key c) (key e)) as H2.
  { apply StronglySorted_app_1_r in Hs. apply StronglySorted_inv in Hs as [_ Hs].
    by rewrite Forall_forall in Hs. }
  assert (forall e, e ∈ l1 \/ e ∈ l2 -> key e <> key c) as Hne.
  { intros e He E. assert (e = c) as -> by (apply Hi; [set_solver..|done]).
    destruct He; [|done]. apply (Hd c); set_solver. }
  assert (key_lt (key c) (key c) = false) as Hcc.
  { destruct (key_lt _ _) eqn:E; [|done]. by apply key_lt_spec in E as [_ []]. }
  rewrite !filter_app, !filter_cons, !(decide_False (P := key_lt _ _ = true)) by congruence.
  rewrite (filter_none _ l1), (filter_keep _ l2), (filter_keep _ l1), (filter_none _ l2).
  - by rewrite app_nil_r.
  - intros e He. by rewrite key_lt_ge by auto.
  - intros e He. apply key_lt_spec. eauto.
  - intros e He. apply key_lt_spec. split; [auto|]. intros E. by destruct (Hne e (or_intror He)).
  - intros e He. by rewrite key_lt_ge by auto.
Qed.

(** The rows past the row at position [k] are the rows from [k + 1] on. *)
Lemma direction_past o l k c :
  distinct_keys l -> direction o l !! k = Some c ->
  direction o (filter (fun e => past o c e = true) l) = drop (S k) (direction o l).
Proof.
  intros Hl Hk. pose proof (take_drop_middle _ _ _ Hk) as Hsp. pose proof (order_by_sorted key l) as Hs.
  assert (distinct_keys (order_by key l)) as Hd.
  { destruct Hl as [Hn Hi]. split; [by rewrite order_by_perm|]. intros a b. rewrite !order_by_perm. apply Hi. }
  unfold past. destruct o; simpl in *; rewrite order_filter by done; set (L := order_by key l) in *; clearbody L.
  - pose proof (f_equal reverse Hsp) as E. rewrite reverse_involutive, reverse_app, reverse_cons, <- app_assoc in E.
    simpl in E. rewrite <- E in Hs, Hd. apply cursor_split in Hs as [_ Hs]; [|done]. rewrite E in Hs.
    by rewrite Hs, reverse_involutive.
  - rewrite <- Hsp in Hs, Hd. apply cursor_split in Hs as [Hs _]; [|done]. by rewrite Hsp in Hs.
Qed.
End keyset.

(** A key that ends in the id of the row tells rows of a table apart. *)
Lemma rows_distinct {A} (key : A -> string * string) (m : gmap string A) :
  map_Forall (fun id e => (key e).2 = id) m -> distinct_keys key (map_to_list m).*2.
Proof.
  intros Hids.
  assert (forall e, e ∈ (map_to_list m).*2 -> m !! (key e).2 = Some e) as Hlk.
  { intros e ([id e'] & -> & H%elem_of_map_to_list)%list_elem_of_fmap. simpl. by rewrite (Hids _ _ H). }
  split.
  - apply (NoDup_fmap_1 (fun e => (key e).2)).
    replace ((fun e => (key e).2) <$> (map_to_list m).*2) with ((map_to_list m).*1) by
      (rewrite <- list_fmap_compose; apply list_fmap_ext; intros i [id e] H; simpl; symmetry;
       apply Hids, elem_of_map_to_list; by eapply list_elem_of_lookup_2).
    apply NoDup_fst_map_to_list.
  - intros a b Ha%Hlk Hb%Hlk E. rewrite E in Ha. congruence.
Qed.
