(* ===== verification/Writer.v ===== *)
(** The state writer (src/src/state/handle.rs): queued write jobs are committed
    in groups, each job under its own savepoint, and published and answered
    once the outcome of the commit is known.

    The database, the hub messages and the replies are parameters. The connection
    is modelled with its transaction and its stack of savepoints, as SQLite
    documents them; how each statement ends is an argument, and so is whether
    SQLite rolls the whole transaction back while a job runs (disk full, I/O error,
    interrupt). A job is a function of the database the transaction has reached,
    which may fail or panic after writing part of what it meant to; of a job that
    runs while SQLite rolls back, nothing is kept. *)

From S2P Require Import Prelude.

Section writer.
Context {Db Pub Reply Error : Type}.
(** [StackError::StateAccessFailed], the error of a job the writer refuses. *)
Context (access_failed : Error).

(** ** The connection *)

(** A statement succeeds, fails, or fails and makes SQLite roll back. *)
Inductive Statement := Succeeds | Fails | Aborts.

(** An open transaction: the database as the connection sees it, the savepoints
    with the database at each, innermost first, and whether [BEGIN] opened it. *)
Record Transaction := mkTransaction {
  t_db : Db;
  t_savepoints : list Db;
  t_begun : bool;
}.

(** [c_open] is [None] in autocommit mode. *)
Record Connection := mkConnection { c_committed : Db; c_open : option Transaction }.

Definition is_autocommit (c : Connection) : bool := match c_open c with None => true | Some _ => false end.
Definition rolled_back (c : Connection) : Connection := mkConnection (c_committed c) None.
Definition in_transaction (t : Transaction) (c : Connection) : Connection := mkConnection (c_committed c) (Some t).

(** What a failing statement leaves. *)
Definition failed (how : Statement) (c : Connection) : Connection :=
  match how with Aborts => rolled_back c | _ => c end.

(** [BEGIN IMMEDIATE] is an error inside a transaction. *)
Definition begin_immediate (how : Statement) (c : Connection) : bool * Connection :=
  match how, c_open c with
  | Succeeds, None => (true, in_transaction (mkTransaction (c_committed c) [] true) c)
  | _, _ => (false, c)
  end.

(** [SAVEPOINT] in autocommit mode opens a transaction that ends with it. *)
Definition savepoint (how : Statement) (c : Connection) : bool * Connection :=
  match how with
  | Succeeds =>
      (true, match c_open c with
             | Some t => in_transaction (mkTransaction (t_db t) (t_db t :: t_savepoints t) (t_begun t)) c
             | None => in_transaction (mkTransaction (c_committed c) [c_committed c] false) c
             end)
  | _ => (false, failed how c)
  end.

(** Without a savepoint both are errors; the outermost one, of a transaction that
    it opened, commits it. *)
Definition release (how : Statement) (c : Connection) : bool * Connection :=
  match how, c_open c with
  | Succeeds, Some (mkTransaction db [_] false) => (true, mkConnection db None)
  | Succeeds, Some (mkTransaction db (_ :: outer) begun) => (true, in_transaction (mkTransaction db outer begun) c)
  | Succeeds, _ => (false, c)
  | _, _ => (false, failed how c)
  end.

Definition rollback_to (how : Statement) (c : Connection) : bool * Connection :=
  match how, c_open c with
  | Succeeds, Some (mkTransaction _ (at_savepoint :: outer) begun) =>
      (true, in_transaction (mkTransaction at_savepoint (at_savepoint :: outer) begun) c)
  | Succeeds, _ => (false, c)
  | _, _ => (false, failed how c)
  end.

(** [COMMIT] ends the transaction with all its savepoints. *)
Definition commit (how : Statement) (c : Connection) : bool * Connection :=
  match how, c_open c with
  | Succeeds, Some t => (true, mkConnection (t_db t) None)
  | Succeeds, None => (false, c)
  | _, _ => (false, failed how c)
  end.

Definition rollback (how : Statement) (c : Connection) : Connection :=
  match how with Succeeds => rolled_back c | _ => failed how c end.

(** ** Jobs *)

(** What running a job's closure does: its result, the database it leaves in
    the transaction and the messages it queued; or a panic. *)
Inductive JobRun :=
| JobReturns (r : result Error Reply) (db : Db) (queued : list Pub)
| JobPanics (db : Db) (queued : list Pub).

(** A job, and how the statements around it end. *)
Record Job := mkJob {
  j_run : Db -> JobRun;
  j_savepoint : Statement;
  j_aborts : bool;
  j_rollback_to : Statement;
  j_release : Statement;
}.

(** The writer's connection and its publish queue. *)
Record Writer := mkWriter {
  w_connection : Connection;
  w_pending : list Pub;
  w_published : list Pub;
}.

(** [JobOutcome]: the result waiting to be settled; a panicked job has none. *)
Definition Outcome : Type := option (result Error Reply).

(** The closure runs in the transaction the connection is in. *)
Definition run_closure (job : Job) (c : Connection) (pending : list Pub) : Outcome * Connection * list Pub :=
  let db := match c_open c with Some t => t_db t | None => c_committed c end in
  let '(outcome, db', queued) :=
    match j_run job db with
    | JobReturns r db' queued => (Some r, db', queued)
    | JobPanics db' queued => (None, db', queued)
    end in
  let c' :=
    match c_open c with
    | Some t => if j_aborts job then rolled_back c else in_transaction (mkTransaction db' (t_savepoints t) (t_begun t)) c
    | None => c
    end in
  (outcome, c', pending ++ queued).

Definition succeeded (o : Outcome) : bool := match o with Some (Ok _) => true | _ => false end.

(** The savepoint is released, or rolled back to and released; a failure of either
    is only logged. *)
Definition end_savepoint (keep : bool) (job : Job) (c : Connection) : Connection :=
  if keep then (release (j_release job) c).2
  else
    let '(rolled, c') := rollback_to (j_rollback_to job) c in
    if rolled then (release (j_release job) c').2 else c'.

(** The loop of [run_batch] over the jobs. *)
Fixpoint run_jobs (jobs : list Job) (aborted : bool) (c : Connection) (pending : list Pub)
  : bool * Connection * list Pub * list Outcome :=
  match jobs with
  | [] => (aborted, c, pending, [])
  | job :: rest =>
      let refused := Some (Err access_failed) in
      if aborted then
        let '(a, c', p, outcomes) := run_jobs rest true c pending in (a, c', p, refused :: outcomes)
      else
        let '(opened, c1) := savepoint (j_savepoint job) c in
        if negb opened then
          let '(a, c', p, outcomes) := run_jobs rest false c1 pending in (a, c', p, refused :: outcomes)
        else
          let '(outcome, c2, pending2) := run_closure job c1 pending in
          let keep := succeeded outcome in
          let pending3 := if keep then pending2 else take (length pending) pending2 in
          let c3 := end_savepoint keep job c2 in
          let '(a, c', p, outcomes) := run_jobs rest (is_autocommit c3) c3 pending3 in
          (a, c', p, outcome :: outcomes)
  end.

(** [settle]: a result that was [Ok] turns into an error when the commit
    failed. *)
Definition settle (commit_failed : bool) (o : Outcome) : Outcome :=
  match o with
  | Some (Ok r) => if commit_failed then Some (Err access_failed) else Some (Ok r)
  | o => o
  end.

(** How the statements around a batch end. *)
Record Batch := mkBatch { b_begin : Statement; b_commit : Statement; b_rollback : Statement }.

Definition run_batch (b : Batch) (jobs : list Job) (w : Writer) : Writer * list Outcome :=
  let '(begun, c1) := begin_immediate (b_begin b) (w_connection w) in
  if negb begun then (mkWriter c1 (w_pending w) (w_published w), (fun _ => Some (Err access_failed)) <$> jobs)
  else
    let '(aborted, c2, pending, outcomes) := run_jobs jobs false c1 (w_pending w) in
    let '(committed, c3) := if aborted then (false, c2) else commit (b_commit b) c2 in
    if committed then (mkWriter c3 [] (w_published w ++ pending), settle false <$> outcomes)
    else
      let c4 := if is_autocommit c3 then c3 else rollback (b_rollback b) c3 in
      (mkWriter c4 [] (w_published w), settle true <$> outcomes).

(** ** The specification: jobs one after another, all or nothing each

    Neither transactions nor savepoints: a job that answers [Ok] has taken the
    database from one state to the next and published its messages; any other has no
    effect. *)

Inductive serial : list Job -> Db -> Db -> list Pub -> list Outcome -> Prop :=
| serial_nil db : serial [] db db [] []
| serial_ok job rest db db1 db2 queued published r outcomes :
    j_run job db = JobReturns (Ok r) db1 queued -> serial rest db1 db2 published outcomes ->
    serial (job :: rest) db db2 (queued ++ published) (Some (Ok r) :: outcomes)
| serial_err job rest db db1 db2 queued published e outcomes :
    j_run job db = JobReturns (Err e) db1 queued -> serial rest db db2 published outcomes ->
    serial (job :: rest) db db2 published (Some (Err e) :: outcomes)
| serial_panic job rest db db1 db2 queued published outcomes :
    j_run job db = JobPanics db1 queued -> serial rest db db2 published outcomes ->
    serial (job :: rest) db db2 published (None :: outcomes)
| serial_refused job rest db db2 published outcomes :
    j_savepoint job <> Succeeds -> serial rest db db2 published outcomes ->
    serial (job :: rest) db db2 published (Some (Err access_failed) :: outcomes).

Definition refused (o : Outcome) : Prop := match o with Some (Ok _) => False | _ => True end.

(** What the writer relies on and does not check: rolling back to a savepoint does
    not fail with the transaction left open, and opening a savepoint does not make
    SQLite roll back. *)
Definition orderly (job : Job) : Prop := j_rollback_to job <> Fails /\ j_savepoint job <> Aborts.

(** ** Proofs *)

Lemma settle_false o : settle false o = o.
Proof. by destruct o as [[|]|]. Qed.
Lemma settle_true o : refused (settle true o).
Proof. by destruct o as [[|]|]. Qed.

(** Once aborted, nothing more happens. *)
Lemma run_jobs_aborted jobs c pending :
  exists os, run_jobs jobs true c pending = (true, c, pending, os).
Proof. induction jobs as [|job rest (os & E)]; simpl; [by exists []|]. rewrite E. by eexists. Qed.

(** The connection in the batch's transaction, at [db]. *)
Definition reached (committed db : Db) (c : Connection) : Prop :=
  exists savepoints, c = mkConnection committed (Some (mkTransaction db savepoints true)).

Lemma release_reached committed db (at_savepoint : Db) savepoints how :
  let c := (release how (mkConnection committed (Some (mkTransaction db (at_savepoint :: savepoints) true)))).2 in
  reached committed db c \/ c = mkConnection committed None.
Proof. destruct how; simpl; [|left; by eexists|by right]. left. destruct savepoints; by eexists. Qed.

(** A job under its savepoint: done, undone, or the whole transaction is gone. *)
Lemma end_savepoint_reached keep job committed db db' savepoints :
  orderly job ->
  let c := end_savepoint keep job (mkConnection committed (Some (mkTransaction db' (db :: savepoints) true))) in
  reached committed (if keep then db' else db) c \/ c = mkConnection committed None.
Proof.
  intros [Hr _]. destruct keep; unfold end_savepoint; [apply release_reached|].
  destruct (j_rollback_to job); [|done|by right]. cbn [rollback_to c_open in_transaction c_committed]. apply release_reached.
Qed.

Lemma end_savepoint_gone keep job committed :
  end_savepoint keep job (mkConnection committed None) = mkConnection committed None.
Proof. unfold end_savepoint. destruct keep; [by destruct (j_release job)|]. by destruct (j_rollback_to job). Qed.

(** While the transaction stands, the loop is the serial execution. *)
Lemma run_jobs_serial jobs committed db c pending :
  Forall orderly jobs -> reached committed db c ->
  let '(aborted, c', pending', outcomes) := run_jobs jobs false c pending in
  (aborted = true /\ c' = mkConnection committed None)
  \/ (aborted = false /\ exists db' published,
        reached committed db' c' /\ pending' = pending ++ published /\ serial jobs db db' published outcomes).
Proof.
  revert db c pending. induction jobs as [|job rest IH]; intros db c pending Hj Hc; simpl.
  { right. split; [done|]. exists db, []. rewrite (right_id_L [] (++)). repeat constructor; done. }
  apply Forall_cons in Hj as [Ho Hj]. destruct Hc as [savepoints ->]. unfold savepoint.
  destruct (j_savepoint job) eqn:Es; [| |by destruct Ho].
  2:{ simpl. specialize (IH db _ pending Hj (ex_intro _ savepoints eq_refl)).
      destruct (run_jobs rest false _ pending) as [[[a c'] p] os]. destruct IH as [?|(-> & db' & pub & ? & ? & ?)]; [by left|right].
      split; [done|]. exists db', pub. split_and!; [done..|]. apply serial_refused; [by rewrite Es|done]. }
  cbn [c_open in_transaction t_db t_savepoints t_begun c_committed negb]. unfold run_closure.
  cbn [c_open in_transaction t_db t_savepoints t_begun c_committed].
  set (ran := match j_run job db with JobReturns r db' queued => _ | JobPanics db' queued => _ end).
  destruct ran as [[outcome db1] queued] eqn:Er. subst ran. cbv zeta iota.
  set (c2 := if j_aborts job then _ else _).
  set (next := if succeeded outcome then db1 else db).
  assert (Hend : reached committed next (end_savepoint (succeeded outcome) job c2)
                 \/ end_savepoint (succeeded outcome) job c2 = mkConnection committed None).
  { unfold c2, next. destruct (j_aborts job); [right; apply end_savepoint_gone|]. by apply end_savepoint_reached. }
  destruct Hend as [[sps Hend]|Hend].
  - rewrite Hend. cbn [is_autocommit c_open].
    set (pending3 := if succeeded outcome then pending ++ queued else take (length pending) (pending ++ queued)).
    specialize (IH next _ pending3 Hj (ex_intro _ sps eq_refl)).
    destruct (run_jobs rest false _ pending3) as [[[a c'] p] os].
    destruct IH as [?|(-> & db' & pub & Hr & Hp & Hs)]; [by left|right]. split; [done|]. exists db'.
    unfold next, pending3 in *. destruct (j_run job db) as [[r|e] d q|d q] eqn:Ej; simplify_eq/=.
    + exists (queued ++ pub). rewrite (assoc_L (++)). split_and!; [done..|]. by eapply serial_ok.
    + exists pub. rewrite take_app_length. split_and!; [done..|]. by eapply serial_err.
    + exists pub. rewrite take_app_length. split_and!; [done..|]. by eapply serial_panic.
  - rewrite Hend. cbn [is_autocommit c_open].
    match goal with |- context [run_jobs rest true ?c ?p] => destruct (run_jobs_aborted rest c p) as (os & ->) end.
    by left.
Qed.

(** C14. Group commit refines running the jobs one by one. From a connection outside
    any transaction, and if rolling back to a savepoint never fails with the
    transaction left open and opening one never makes SQLite roll back: either the
    batch commits, and then the database, the published messages and every reply are
    those of the serial execution, without transactions or savepoints, in which each
    job that is not answered [Ok] had no effect; or nothing of it is durable, nothing
    is published, no caller is answered [Ok], and the connection is outside any
    transaction again unless the final [ROLLBACK] failed. It holds however beginning,
    releasing, committing and rolling back end, and whenever SQLite rolls the whole
    transaction back by itself. *)
Theorem run_batch_refines b jobs w :
  c_open (w_connection w) = None -> w_pending w = [] -> Forall orderly jobs ->
  let '(w', replies) := run_batch b jobs w in
  (exists db published,
     serial jobs (c_committed (w_connection w)) db published replies
     /\ w' = mkWriter (mkConnection db None) [] (w_published w ++ published))
  \/ (c_committed (w_connection w') = c_committed (w_connection w) /\ w_published w' = w_published w /\ w_pending w' = []
      /\ (c_open (w_connection w') = None \/ b_rollback b = Fails) /\ Forall refused replies).
Proof.
  destruct w as [[committed o] pending published]; simpl. intros -> -> Hj.
  unfold run_batch, begin_immediate. cbn [w_connection c_open].
  destruct (b_begin b); [|right; split_and!; try done; [by left|by apply Forall_fmap, Forall_true]..].
  cbn [negb in_transaction c_committed w_pending w_published].
  pose proof (run_jobs_serial jobs committed committed _ [] Hj (ex_intro _ [] eq_refl)) as H.
  destruct (run_jobs jobs false _ []) as [[[aborted c'] p] os].
  assert (Hsettled : Forall refused (settle true <$> os)) by (apply Forall_fmap, Forall_true; intros; apply settle_true).
  destruct H as [[-> ->]|(-> & db & pub & [sps ->] & -> & Hs)].
  { right. simpl. split_and!; try done. by left. }
  destruct (b_commit b); simpl.
  - left. exists db, pub. split; [|done]. replace (settle false <$> os) with os; [done|].
    rewrite <- (list_fmap_id os) at 1. by apply list_fmap_ext; intros ? o ?; rewrite settle_false.
  - right. destruct (b_rollback b); simpl; split_and!; auto.
  - right. split_and!; auto.
Qed.

(** Why it has to start outside a transaction: a batch whose commit and whose
    rollback both fail leaves the transaction open, and then every later batch is
    refused whole, whatever the database answers. *)
Theorem open_transaction_refuses b jobs w :
  c_open (w_connection w) <> None -> run_batch b jobs w = (w, (fun _ => Some (Err access_failed)) <$> jobs).
Proof.
  intros Ho. unfold run_batch, begin_immediate. destruct w as [[committed [t|]] pending published]; [|done].
  by destruct (b_begin b).
Qed.
End writer.
Arguments Job : clear implicits.
Arguments JobRun : clear implicits.
Arguments Writer : clear implicits.
Arguments Connection : clear implicits.

Definition ordinary (run : nat -> JobRun nat string nat string) : Job nat string nat string :=
  mkJob run Succeeds false Succeeds Succeeds.
Definition demo_ok : Job nat string nat string := ordinary (fun db => JobReturns (Ok db) (db + 1) ["m"]).
Definition demo_bad : Job nat string nat string := ordinary (fun db => JobReturns (Err "e") (db + 7) ["lost"]).
Definition demo_writer : Writer nat string := mkWriter (mkConnection 5 None) [] [].
Definition demo_batch : Batch := mkBatch Succeeds Succeeds Succeeds.

Lemma run_batch_refines_witness :
  run_batch "refused" demo_batch [demo_ok; demo_bad; demo_ok] demo_writer
    = (mkWriter (mkConnection 7 None) [] ["m"; "m"], [Some (Ok 5); Some (Err "e"); Some (Ok 6)])
  /\ let '(w', replies) := run_batch "refused" demo_batch [demo_ok; demo_bad; demo_ok] demo_writer in
     (exists db published, serial "refused" [demo_ok; demo_bad; demo_ok] 5 db published replies
        /\ w' = mkWriter (mkConnection db None) [] ([] ++ published))
     \/ (c_committed (w_connection w') = 5 /\ w_published w' = [] /\ w_pending w' = []
         /\ (c_open (w_connection w') = None \/ b_rollback demo_batch = Fails) /\ Forall refused replies).
Proof.
  split; [reflexivity|].
  refine (run_batch_refines "refused" demo_batch [demo_ok; demo_bad; demo_ok] demo_writer eq_refl eq_refl _).
  repeat constructor; discriminate.
Defined.

(** Why rolling back to a savepoint must not fail: a failed job whose [ROLLBACK TO]
    fails, which the writer only logs, leaves its partial writes in the transaction,
    and the batch commits them although its caller gets the error. *)
Theorem failed_rollback_commits_part :
  let bad := mkJob (j_run demo_bad) Succeeds false Fails Succeeds in
  run_batch "refused" demo_batch [bad] demo_writer = (mkWriter (mkConnection 12 None) [] [], [Some (Err "e")]).
Proof. reflexivity. Qed.

(** Why opening a savepoint must not make SQLite roll back: the writer does not look
    at the autocommit mode then; the next job's savepoint opens a transaction of its
    own, whose release commits it, and then the batch counts as rolled back. The
    job's write is durable, its caller is told that it failed. *)
Theorem aborted_savepoint_commits_refused :
  let first := mkJob (j_run demo_bad) Aborts false Succeeds Succeeds in
  run_batch "refused" demo_batch [first; demo_ok] demo_writer
  = (mkWriter (mkConnection 6 None) [] [], [Some (Err "refused"); Some (Err "refused")]).
Proof. reflexivity. Qed.
