(* ===== verification/SinkOutbox.v ===== *)
(** The delivery outbox of the logging sink (src/src/state/sink_outbox.rs), the
    write scopes that feed it (src/src/state/core.rs) and the worker that
    drains it (src/src/runtime/logging/supabase_sink.rs). *)

From S2P Require Import Prelude Text Store.
Open Scope Z_scope.
Open Scope result_scope.

Definition outbox_id (source_table source_id : string) : string :=
  source_table +:+ ":" +:+ source_id.

(** [INSERT .. ON CONFLICT(id) DO UPDATE]: the conflict branch keeps the
    source columns and resets the rest. *)
Definition enqueue_row (source_table source_id created_at : string)
    (outbox : gmap string OutboxRow) : gmap string OutboxRow :=
  let id := outbox_id source_table source_id in
  match outbox !! id with
  | None => <[id := mkOutbox source_table source_id created_at OPending 0 None None None]> outbox
  | Some row => <[id := mkOutbox (o_source_table row) (o_source_id row) created_at
                          OPending 0 None None None]> outbox
  end.

Definition enqueue (source_table source_id created_at : string) : M unit :=
  modify (fun st => set_outbox (enqueue_row source_table source_id created_at (st_outbox st)) st).

(** ** The claim *)

(** The columns [next_batch] returns. *)
Record ClaimedRow := mkClaimed {
  cl_id : string;
  cl_source_table : string;
  cl_source_id : string;
  cl_created_at : string;
  cl_attempts : Z;
}.

Definition is_due (now : string) (row : OutboxRow) : bool :=
  bool_decide (o_status row = OPending)
  && match o_next_attempt_at row with
     | None => true
     | Some t => bool_decide (String.le t now)
     end.

Definition claim_of (p : string * OutboxRow) : ClaimedRow :=
  mkClaimed p.1 (o_source_table p.2) (o_source_id p.2) (o_created_at p.2) (o_attempts p.2).

Definition claim_key (c : ClaimedRow) : string * string := (cl_created_at c, cl_id c).

Definition due_rows (now : string) (outbox : gmap string OutboxRow) : list ClaimedRow :=
  claim_of <$> filter (fun p => is_due now p.2 = true) (map_to_list outbox).

(** The subquery: [ORDER BY created_at ASC, id ASC LIMIT ?2]. *)
Definition select_batch (limit : nat) (now : string) (outbox : gmap string OutboxRow)
  : list ClaimedRow :=
  take limit (order_by claim_key (due_rows now outbox)).

Definition with_status (status : OutboxStatus) (row : OutboxRow) : OutboxRow :=
  mkOutbox (o_source_table row) (o_source_id row) (o_created_at row) status (o_attempts row)
    (o_next_attempt_at row) (o_last_error row) (o_last_attempt_at row).

(** [UPDATE .. WHERE id IN (ids)], with the per-row change [f]. *)
Definition update_ids (ids : list string) (f : OutboxRow -> OutboxRow)
    (outbox : gmap string OutboxRow) : gmap string OutboxRow :=
  map_imap (fun id row => Some (if bool_decide (id ∈ ids) then f row else row)) outbox.

Definition next_batch (limit : nat) (now : string) : M (list ClaimedRow) :=
  let* outbox := gets st_outbox in
  let batch := select_batch limit now outbox in
  modify (set_outbox (update_ids (cl_id <$> batch) (with_status OSending) outbox)) ;;
  ret (order_by claim_key batch).

Definition recover_row (row : OutboxRow) : OutboxRow :=
  if bool_decide (o_status row = OSending) then with_status OPending row else row.

Definition recover_in_flight : M nat :=
  let* outbox := gets st_outbox in
  modify (set_outbox (recover_row <$> outbox)) ;;
  ret (length (filter (fun p => o_status p.2 = OSending) (map_to_list outbox))).

(** ** The acknowledgements *)

Definition sent_row (now : string) (row : OutboxRow) : OutboxRow :=
  if bool_decide (o_status row = OSending) then
    mkOutbox (o_source_table row) (o_source_id row) (o_created_at row) OSent (o_attempts row)
      (o_next_attempt_at row) None (Some now)
  else row.

Definition mark_sent (ids : list string) (now : string) : M unit :=
  match ids with
  | [] => ret tt
  | _ => modify (fun st => set_outbox (update_ids ids (sent_row now) (st_outbox st)) st)
  end.

Definition failed_row (error next_attempt_at now : string) (row : OutboxRow) : OutboxRow :=
  if bool_decide (o_status row = OSending) then
    mkOutbox (o_source_table row) (o_source_id row) (o_created_at row) OPending
      (o_attempts row + 1) (Some next_attempt_at) (Some error) (Some now)
  else row.

Definition mark_failure (ids : list string) (error next_attempt_at now : string) : M unit :=
  match ids with
  | [] => ret tt
  | _ => modify (fun st =>
           set_outbox (update_ids ids (failed_row error next_attempt_at now) (st_outbox st)) st)
  end.

(** ** Failure accounting *)

Definition FAILURE_SUMMARY_ERROR_CAP : nat := 512.

(** [error.chars()..]: the error as a list of characters. *)
Definition bounded_error (error : str) : str :=
  if (length error <=? FAILURE_SUMMARY_ERROR_CAP)%nat then error
  else take FAILURE_SUMMARY_ERROR_CAP error ++ lit "...".

(** [encode] stands for the bytes of the bounded text. *)
Definition record_failure_window (encode : str -> string) (window_started_at : string)
    (failure_count : Z) (error : str) (now : string) : M unit :=
  modify (fun st => set_failures
    (<[window_started_at :=
         mkFailure failure_count (Some (encode (bounded_error error))) now]> (st_failures st)) st).

Definition open_failure_count (st : Store) : nat :=
  length (filter (fun p => (o_status p.2 = OPending \/ o_status p.2 = OSending)
                           /\ (0 < o_attempts p.2)) (map_to_list (st_outbox st))).

(** ** Write scopes (core.rs) *)

Section write_scopes.
Context (external_logging_enabled : bool).

Definition enqueue_if (source_table source_id created_at : string) : M unit :=
  if external_logging_enabled then enqueue source_table source_id created_at else ret tt.

Definition persist_with_outbox {R} (source_table source_id created_at : string) (inner : M R)
  : M R :=
  let* value := inner in
  enqueue_if source_table source_id created_at ;;
  ret value.

Definition persist_many_with_outbox (source_table created_at : string)
    (inner : M (list string)) : M (list string) :=
  let* ids := inner in
  (if external_logging_enabled
   then for_each ids (fun id => enqueue source_table id created_at) else ret tt) ;;
  ret ids.
End write_scopes.

(** ** Lemmas on the table *)

Lemma lookup_update_ids ids f outbox id :
  update_ids ids f outbox !! id
  = (fun row => if bool_decide (id ∈ ids) then f row else row) <$> outbox !! id.
Proof. unfold update_ids. rewrite map_lookup_imap. by destruct (outbox !! id). Qed.

Lemma lookup_enqueue_row t s c outbox id :
  enqueue_row t s c outbox !! id
  = if bool_decide (id = outbox_id t s)
    then Some (match outbox !! id with
               | Some row => mkOutbox (o_source_table row) (o_source_id row) c OPending 0 None None None
               | None => mkOutbox t s c OPending 0 None None None
               end)
    else outbox !! id.
Proof.
  unfold enqueue_row. case_bool_decide as E; [subst|].
  - destruct (outbox !! outbox_id t s); by rewrite lookup_insert_eq.
  - destruct (outbox !! outbox_id t s); by rewrite lookup_insert_ne by done.
Qed.

Lemma due_rows_spec now outbox c :
  c ∈ due_rows now outbox <-> exists row, outbox !! cl_id c = Some row /\ is_due now row = true
                                          /\ c = claim_of (cl_id c, row).
Proof.
  unfold due_rows. rewrite list_elem_of_fmap. split.
  - intros ([id row] & -> & [Hd Hin]%list_elem_of_filter). apply elem_of_map_to_list in Hin.
    by exists row.
  - intros (row & Hl & Hd & E). exists (cl_id c, row). split; [done|].
    apply list_elem_of_filter. split; [done|]. by apply elem_of_map_to_list.
Qed.

Lemma NoDup_fst_filter {A B} (P : A * B -> Prop) `{!forall x, Decision (P x)} (l : list (A * B)) :
  NoDup l.*1 -> NoDup (filter P l).*1.
Proof.
  induction l as [|x l IH]; simpl; [done|]. intros [Hx Hl]%NoDup_cons.
  rewrite filter_cons. case_decide; simpl; [|by auto]. apply NoDup_cons. split; [|by auto].
  intros (y & Hy & Hin)%list_elem_of_fmap. apply list_elem_of_filter in Hin as [_ Hin].
  apply Hx. rewrite Hy. by apply list_elem_of_fmap_2.
Qed.

Lemma due_rows_nodup now outbox : NoDup (cl_id <$> due_rows now outbox).
Proof.
  unfold due_rows. rewrite <- list_fmap_compose.
  apply NoDup_fst_filter, NoDup_fst_map_to_list.
Qed.

Lemma select_batch_sub limit now outbox c :
  c ∈ select_batch limit now outbox -> c ∈ due_rows now outbox.
Proof.
  unfold select_batch. intros H%list_elem_of_In. apply list_elem_of_In.
  apply (Permutation_in (l := order_by claim_key (due_rows now outbox))).
  { apply order_by_perm. }
  rewrite <- (take_drop limit (order_by _ _)). apply in_or_app. by left.
Qed.

Lemma select_batch_nodup limit now outbox : NoDup (cl_id <$> select_batch limit now outbox).
Proof.
  unfold select_batch. rewrite fmap_take.
  assert (NoDup (cl_id <$> order_by claim_key (due_rows now outbox))) as H.
  { rewrite order_by_perm. apply due_rows_nodup. }
  rewrite <- (take_drop limit (cl_id <$> _)) in H. by apply NoDup_app in H as [H _].
Qed.

Lemma order_by_batch limit now outbox :
  order_by claim_key (select_batch limit now outbox) ≡ₚ select_batch limit now outbox.
Proof. apply order_by_perm. Qed.

(** The claim: [next_batch] returns the oldest due rows, at most [limit]
    of them, in delivery order and without repetition; it moves exactly those
    rows to [sending], and no due row it leaves behind is older than one it took. *)
Theorem next_batch_spec limit now st :
  exists batch st', next_batch limit now st = Ok (batch, st')
  /\ StronglySorted (on_key claim_key) batch
  /\ NoDup (cl_id <$> batch)
  /\ length batch = (limit `min` length (due_rows now (st_outbox st)))%nat
  /\ (forall c, c ∈ batch -> exists row, st_outbox st !! cl_id c = Some row
        /\ is_due now row = true /\ st_outbox st' !! cl_id c = Some (with_status OSending row))
  /\ (forall id, id ∉ cl_id <$> batch -> st_outbox st' !! id = st_outbox st !! id)
  /\ (forall c d, c ∈ batch -> d ∈ due_rows now (st_outbox st) -> d ∉ batch ->
      on_key claim_key c d).
Proof.
  set (outbox := st_outbox st). set (sel := select_batch limit now outbox).
  assert (order_by claim_key sel ≡ₚ sel) as Hp by apply order_by_perm.
  exists (order_by claim_key sel),
    (set_outbox (update_ids (cl_id <$> sel) (with_status OSending) outbox) st).
  split; [done|]. split; [apply order_by_sorted|]. split.
  { rewrite Hp. apply select_batch_nodup. }
  split.
  { rewrite Hp. unfold sel, select_batch. by rewrite length_take, order_by_perm. }
  split; [|split].
  - intros c Hc. rewrite Hp in Hc. pose proof Hc as Hd.
    apply select_batch_sub, due_rows_spec in Hd as (row & Hl & Hd & _).
    exists row. split; [done|]. split; [done|]. simpl. rewrite lookup_update_ids, Hl. simpl.
    rewrite bool_decide_eq_true_2; [done|]. by apply list_elem_of_fmap_2.
  - intros id Hid. rewrite Hp in Hid. simpl. rewrite lookup_update_ids.
    rewrite bool_decide_eq_false_2 by done. by destruct (outbox !! id).
  - intros c d Hc Hd Hnd. rewrite Hp in Hc, Hnd. unfold sel, select_batch in *.
    pose proof (order_by_sorted claim_key (due_rows now outbox)) as Hs.
    rewrite <- (take_drop limit (order_by _ _)) in Hs.
    eapply StronglySorted_split; [exact Hs|done|].
    rewrite <- (order_by_perm claim_key), <- (take_drop limit (order_by _ _)) in Hd. set_solver.
Qed.
