(* ===== verification/SinkWorker.v ===== *)
(** The logging sink's worker (src/src/runtime/logging/supabase_sink.rs) as a
    step relation, interleaved with the writers of the store.

    The contents of source rows are abstracted to versions: [sy_local] maps the
    outbox id of every live source row to the version the store holds, and
    [sy_remote] to the version the sink holds. One step is one write job, one
    read job or one upload; between any two of them writers may commit, and
    the worker may be interrupted. An upload that reports an error may or may
    not have reached the sink. *)

From S2P Require Import Prelude Store SinkOutbox.
Open Scope Z_scope.
Open Scope result_scope.

Definition BATCH_SIZE : nat := 128.

(** Where [process_one_batch] and [upload_group] are: the groups left, and the
    locals of the group in hand ([payload_ids] with the hydrated versions,
    [acked_ids], [hydration_failed]). *)
Inductive Worker :=
| Idle
| Groups (groups : list (list string))
| Hydrated (payloads : list (string * nat)) (acked failed : list string) (groups : list (list string))
| Parked (payloads : list (string * nat)) (acked : list string) (groups : list (list string))
| Acked (payloads : list (string * nat)) (groups : list (list string))
| Posted (payloads : list (string * nat)) (groups : list (list string))
| Rejected (payloads : list (string * nat)) (groups : list (list string)).

Record Sys := mkSys {
  sy_outbox : gmap string OutboxRow;
  sy_local : gmap string nat;
  sy_remote : gmap string nat;
  sy_worker : Worker;
}.

(** Run an outbox operation on the table alone. *)
Definition on_outbox {A} (m : M A) (outbox outbox' : gmap string OutboxRow) (a : A) : Prop :=
  exists st st', st_outbox st = outbox /\ m st = Ok (a, st') /\ st_outbox st' = outbox'.

(** [groups.entry(row.source_table).or_default().push(row)]: the batch split
    by source table, in the order of the table names. *)
Definition group_batch (batch : list ClaimedRow) : list (list string) :=
  let tables := merge_sort String.le (remove_dups (cl_source_table <$> batch)) in
  (fun table => cl_id <$> filter (fun c => cl_source_table c = table) batch) <$> tables.

(** The upload of a group of payloads: merge-duplicates, later rows win. *)
Definition upload (payloads : list (string * nat)) (remote : gmap string nat) : gmap string nat :=
  list_to_map payloads ∪ remote.

(** One hydration: a live row yields its current version or a redaction
    error, a deleted one nothing. *)
Inductive hydrate (local : gmap string nat) :
  list string -> list (string * nat) -> list string -> list string -> Prop :=
| hydrate_nil : hydrate local [] [] [] []
| hydrate_payload id v ids ps ack failed :
    local !! id = Some v -> hydrate local ids ps ack failed ->
    hydrate local (id :: ids) ((id, v) :: ps) ack failed
| hydrate_gone id ids ps ack failed :
    local !! id = None -> hydrate local ids ps ack failed ->
    hydrate local (id :: ids) ps (id :: ack) failed
| hydrate_failed id ids ps ack failed :
    hydrate local ids ps ack failed -> hydrate local (id :: ids) ps ack (id :: failed).

(** [recover_sink_outbox_in_flight]'s error is logged and the claim goes on. *)
Definition poll (now : string) (recovered : bool) : M (list ClaimedRow) :=
  (if recovered then (recover_in_flight ;; ret tt) else ret tt) ;; next_batch BATCH_SIZE now.

(** The groups after the one in hand. *)
Definition rest_groups (w : Worker) : option (list (list string)) :=
  match w with
  | Idle | Groups [] => None
  | Groups (_ :: gs) | Hydrated _ _ _ gs | Parked _ _ gs | Acked _ gs | Posted _ gs
  | Rejected _ gs => Some gs
  end.

Inductive step : Sys -> Sys -> Prop :=
(* A writer commits a source row together with its outbox row. *)
| step_write table id now v s outbox :
    on_outbox (enqueue table id now) (sy_outbox s) outbox tt ->
    step s (mkSys outbox (<[outbox_id table id := v]> (sy_local s)) (sy_remote s) (sy_worker s))
(* A source row is deleted; its outbox row may stay as it is. *)
| step_delete oid s :
    step s (mkSys (sy_outbox s) (delete oid (sy_local s)) (sy_remote s) (sy_worker s))
| step_poll now recovered s outbox batch :
    sy_worker s = Idle ->
    on_outbox (poll now recovered) (sy_outbox s) outbox batch ->
    step s (mkSys outbox (sy_local s) (sy_remote s) (Groups (group_batch batch)))
| step_hydrate ids gs ps ack failed s :
    sy_worker s = Groups (ids :: gs) -> hydrate (sy_local s) ids ps ack failed ->
    step s (mkSys (sy_outbox s) (sy_local s) (sy_remote s) (Hydrated ps ack failed gs))
| step_park ps ack failed gs error next now s outbox :
    sy_worker s = Hydrated ps ack failed gs ->
    on_outbox (mark_failure failed error next now) (sy_outbox s) outbox tt ->
    step s (mkSys outbox (sy_local s) (sy_remote s) (Parked ps ack gs))
| step_ack ps ack gs now s outbox :
    sy_worker s = Parked ps ack gs ->
    on_outbox (mark_sent ack now) (sy_outbox s) outbox tt ->
    step s (mkSys outbox (sy_local s) (sy_remote s) (Acked ps gs))
| step_post_ok ps gs s :
    sy_worker s = Acked ps gs ->
    step s (mkSys (sy_outbox s) (sy_local s) (upload ps (sy_remote s)) (Posted ps gs))
| step_post_err ps gs reached s :
    sy_worker s = Acked ps gs ->
    step s (mkSys (sy_outbox s) (sy_local s)
              (if (reached : bool) then upload ps (sy_remote s) else sy_remote s) (Rejected ps gs))
| step_sent ps gs now s outbox :
    sy_worker s = Posted ps gs ->
    on_outbox (mark_sent ps.*1 now) (sy_outbox s) outbox tt ->
    step s (mkSys outbox (sy_local s) (sy_remote s) (Groups gs))
| step_release ps gs error next now s outbox :
    sy_worker s = Rejected ps gs ->
    on_outbox (mark_failure ps.*1 error next now) (sy_outbox s) outbox tt ->
    step s (mkSys outbox (sy_local s) (sy_remote s) (Groups gs))
| step_done s :
    sy_worker s = Groups [] ->
    step s (mkSys (sy_outbox s) (sy_local s) (sy_remote s) Idle)
(* A failed job abandons the group in hand; a crash loses the worker. *)
| step_abandon gs s :
    rest_groups (sy_worker s) = Some gs ->
    step s (mkSys (sy_outbox s) (sy_local s) (sy_remote s) (Groups gs))
| step_interrupt s : step s (mkSys (sy_outbox s) (sy_local s) (sy_remote s) Idle).

Definition sys_init : Sys := mkSys ∅ ∅ ∅ Idle.

Inductive reachable : Sys -> Prop :=
| reach_init : reachable sys_init
| reach_step s s' : reachable s -> step s s' -> reachable s'.

(** ** The invariant *)

(** The claimed ids the worker has yet to settle, and the versions it holds. *)
Definition todo (w : Worker) : list string :=
  match w with
  | Idle => []
  | Groups gs => mjoin gs
  | Hydrated ps ack failed gs => ps.*1 ++ ack ++ failed ++ mjoin gs
  | Parked ps ack gs => ps.*1 ++ ack ++ mjoin gs
  | Acked ps gs | Posted ps gs | Rejected ps gs => ps.*1 ++ mjoin gs
  end.

Definition held (w : Worker) : list (string * nat) :=
  match w with
  | Idle | Groups _ => []
  | Hydrated ps _ _ _ | Parked ps _ _ | Acked ps _ | Posted ps _ | Rejected ps _ => ps
  end.

Definition gone (w : Worker) : list string :=
  match w with
  | Hydrated _ ack _ _ | Parked _ ack _ => ack
  | _ => []
  end.

Definition posted (w : Worker) : list (string * nat) :=
  match w with Posted ps _ => ps | _ => [] end.

Record delivery_inv (s : Sys) : Prop := {
  (* Every live row is queued, or the sink holds its current version. *)
  inv_delivered : forall id v, sy_local s !! id = Some v ->
    exists row, sy_outbox s !! id = Some row /\ o_status row <> OFailed
                /\ (o_status row = OSent -> sy_remote s !! id = Some v);
  inv_nodup : NoDup (todo (sy_worker s));
  (* Nothing the worker still has to settle counts as sent. *)
  inv_open : forall id row, id ∈ todo (sy_worker s) -> sy_outbox s !! id = Some row ->
    o_status row <> OSent;
  (* While a row stays claimed, the hydrated version is the current one. *)
  inv_held : forall id v' v row, (id, v') ∈ held (sy_worker s) -> sy_outbox s !! id = Some row ->
    o_status row = OSending -> sy_local s !! id = Some v -> v = v';
  inv_gone : forall id row, id ∈ gone (sy_worker s) -> sy_outbox s !! id = Some row ->
    o_status row = OSending -> sy_local s !! id = None;
  inv_posted : forall id v, (id, v) ∈ posted (sy_worker s) -> sy_remote s !! id = Some v;
}.

(** ** Lemmas *)

Lemma NoDup_fmap_eq {A B} (f : A -> B) (l : list A) x y :
  NoDup (f <$> l) -> x ∈ l -> y ∈ l -> f x = f y -> x = y.
Proof.
  induction l as [|z l IH]; simpl; [by intros _ ?%not_elem_of_nil|].
  intros [Hz Hl]%NoDup_cons [->|Hx]%elem_of_cons [->|Hy]%elem_of_cons E; try done.
  - exfalso. apply Hz. rewrite E. by apply list_elem_of_fmap_2.
  - exfalso. apply Hz. rewrite <- E. by apply list_elem_of_fmap_2.
  - by apply IH.
Qed.

Lemma NoDup_groups (batch : list ClaimedRow) (tables : list string) :
  NoDup (cl_id <$> batch) -> NoDup tables ->
  NoDup (mjoin ((fun t => cl_id <$> filter (fun c => cl_source_table c = t) batch) <$> tables)).
Proof.
  intros Hb. induction 1 as [|t tables Ht _ IH]; simpl; [constructor|].
  apply NoDup_app. split; [|split; [|done]].
  - clear -Hb. induction batch as [|c l IH]; simpl in *; [constructor|].
    apply NoDup_cons in Hb as [Hc Hl]. rewrite filter_cons. case_decide; [|by auto]. simpl.
    apply NoDup_cons. split; [|by auto]. intros (d & E & Hd)%list_elem_of_fmap. apply Hc.
    apply list_elem_of_filter in Hd as [_ Hd]. rewrite E. by apply list_elem_of_fmap_2.
  - intros id (c & -> & [Hct Hc]%list_elem_of_filter)%list_elem_of_fmap Hin.
    apply list_elem_of_join in Hin as (ids & Hin & Hids).
    apply list_elem_of_fmap in Hids as (t' & -> & Ht').
    apply list_elem_of_fmap in Hin as (d & E & [Hdt Hd]%list_elem_of_filter).
    apply (NoDup_fmap_eq cl_id batch c d) in E as <-; [|done..]. congruence.
Qed.

Lemma group_batch_nodup batch : NoDup (cl_id <$> batch) -> NoDup (mjoin (group_batch batch)).
Proof.
  intros Hb. apply NoDup_groups; [done|].
  rewrite merge_sort_Permutation. apply NoDup_remove_dups.
Qed.

Lemma group_batch_elem batch id :
  id ∈ mjoin (group_batch batch) -> id ∈ cl_id <$> batch.
Proof.
  intros (ids & Hin & Hids)%list_elem_of_join. unfold group_batch in Hids.
  apply list_elem_of_fmap in Hids as (t & -> & _).
  apply list_elem_of_fmap in Hin as (c & -> & [_ Hc]%list_elem_of_filter).
  by apply list_elem_of_fmap_2.
Qed.

Lemma hydrate_perm local ids ps ack failed :
  hydrate local ids ps ack failed -> ids ≡ₚ ps.*1 ++ ack ++ failed.
Proof. induction 1 as [|? ? ? ? ? ? ? _ ->|? ? ? ? ? ? _ ->|? ? ? ? ? _ ->]; simpl; solve_Permutation. Qed.

Lemma hydrate_held local ids ps ack failed id v :
  hydrate local ids ps ack failed -> (id, v) ∈ ps -> local !! id = Some v.
Proof. induction 1; set_solver. Qed.

Lemma hydrate_gone_spec local ids ps ack failed id :
  hydrate local ids ps ack failed -> id ∈ ack -> local !! id = None.
Proof. induction 1; set_solver. Qed.

Lemma lookup_upload ps remote id v :
  NoDup ps.*1 -> (id, v) ∈ ps -> upload ps remote !! id = Some v.
Proof. intros Hn Hin. apply lookup_union_Some_l, elem_of_list_to_map; done. Qed.

Lemma lookup_upload_other ps remote id :
  id ∉ ps.*1 -> upload ps remote !! id = remote !! id.
Proof. intros Hn. unfold upload. by rewrite lookup_union_r; [|apply not_elem_of_list_to_map]. Qed.

(** What each outbox operation does to one row of the table. *)
Lemma on_enqueue t s c outbox outbox' :
  on_outbox (enqueue t s c) outbox outbox' tt -> outbox' = enqueue_row t s c outbox.
Proof. intros (st & st' & <- & [= <-] & <-). done. Qed.

Lemma on_mark_sent ids now outbox outbox' :
  on_outbox (mark_sent ids now) outbox outbox' tt -> outbox' = update_ids ids (sent_row now) outbox.
Proof.
  intros (st & st' & <- & H & <-). apply map_eq. intros id.
  destruct ids as [|i ids]; injection H as <-; [|done]. rewrite lookup_update_ids.
  rewrite bool_decide_eq_false_2 by apply not_elem_of_nil. by destruct (st_outbox st !! id).
Qed.

Lemma on_mark_failure ids e n now outbox outbox' :
  on_outbox (mark_failure ids e n now) outbox outbox' tt ->
  outbox' = update_ids ids (failed_row e n now) outbox.
Proof.
  intros (st & st' & <- & H & <-). apply map_eq. intros id.
  destruct ids as [|i ids]; injection H as <-; [|done]. rewrite lookup_update_ids.
  rewrite bool_decide_eq_false_2 by apply not_elem_of_nil. by destruct (st_outbox st !! id).
Qed.

(** A row that is neither delivered nor failed. *)
Definition row_open (row : OutboxRow) : Prop := o_status row = OPending \/ o_status row = OSending.

Definition row_moves (row row' : OutboxRow) : Prop :=
  o_status row' = o_status row \/ row_open row /\ row_open row'.

Lemma row_moves_recover row : row_moves row (recover_row row).
Proof.
  unfold row_moves, row_open, recover_row. case_bool_decide; simpl; auto.
Qed.

Lemma row_moves_trans a b c : row_moves a b -> row_moves b c -> row_moves a c.
Proof. unfold row_moves, row_open. intros [->|[? ?]] [->|[? ?]]; intuition congruence. Qed.

Lemma recover_run recovered st u st' :
  (if recovered : bool then (recover_in_flight ;; ret tt) else ret tt) st = Ok (u, st') ->
  forall id, option_Forall2 row_moves (st_outbox st !! id) (st_outbox st' !! id).
Proof.
  destruct recovered; intros H id.
  - unfold recover_in_flight in H. run_hyps. simpl. rewrite lookup_fmap.
    destruct (st_outbox _ !! id); constructor. apply row_moves_recover.
  - run_hyps. destruct (st_outbox _ !! id); constructor. by left.
Qed.

Lemma next_batch_run limit now st batch st' :
  next_batch limit now st = Ok (batch, st') ->
  NoDup (cl_id <$> batch)
  /\ (forall id row, id ∈ cl_id <$> batch -> st_outbox st' !! id = Some row -> o_status row = OSending)
  /\ (forall id, option_Forall2 row_moves (st_outbox st !! id) (st_outbox st' !! id)).
Proof.
  unfold next_batch. intros H. run_hyps. simpl.
  match goal with |- context [select_batch limit now ?o] => set (outbox := o) end.
  rewrite order_by_perm. split; [apply select_batch_nodup|]. split.
  - intros id row Hin. rewrite order_by_perm in Hin. rewrite lookup_update_ids, (bool_decide_eq_true_2 _ Hin).
    destruct (outbox !! id); intros; by simplify_eq/=.
  - intros id. rewrite lookup_update_ids. destruct (outbox !! id) as [row|] eqn:El; constructor.
    case_bool_decide as Hin; [|by left].
    apply list_elem_of_fmap in Hin as (c & -> & Hc).
    apply select_batch_sub, due_rows_spec in Hc as (row' & Hl & Hd & _).
    rewrite El in Hl. injection Hl as <-. unfold is_due in Hd. apply andb_prop in Hd as [Hd _].
    apply bool_decide_eq_true in Hd. right. split; [by left|by right].
Qed.

(** A poll only moves rows between [pending] and [sending], and everything it
    returns is claimed. *)
Lemma on_poll now recovered outbox outbox' batch :
  on_outbox (poll now recovered) outbox outbox' batch ->
  NoDup (cl_id <$> batch)
  /\ (forall id row, id ∈ cl_id <$> batch -> outbox' !! id = Some row -> o_status row = OSending)
  /\ (forall id, option_Forall2 row_moves (outbox !! id) (outbox' !! id)).
Proof.
  intros (st & st' & <- & H & <-). unfold poll in H.
  apply bind_ok in H as (u & st1 & H1 & H2).
  apply next_batch_run in H2 as (Hn & Hs & Hm). split; [done|]. split; [done|]. intros id.
  pose proof (recover_run _ _ _ _ H1 id) as Hr. specialize (Hm id).
  destruct Hr; inversion Hm; constructor. by eapply row_moves_trans.
Qed.

(** ** Preservation *)

Lemma lookup_sent_row now ids outbox id row' :
  update_ids ids (sent_row now) outbox !! id = Some row' ->
  exists row, outbox !! id = Some row
  /\ (id ∈ ids /\ o_status row = OSending /\ o_status row' = OSent
      \/ (id ∈ ids -> o_status row <> OSending) /\ row' = row).
Proof.
  rewrite lookup_update_ids. destruct (outbox !! id) as [row|]; [|done]. intros [= <-].
  exists row. split; [done|]. unfold sent_row. repeat case_bool_decide; naive_solver.
Qed.

Lemma lookup_failed_row e n now ids outbox id row' :
  update_ids ids (failed_row e n now) outbox !! id = Some row' ->
  exists row, outbox !! id = Some row
  /\ (row' = row \/ o_status row = OSending /\ o_status row' = OPending).
Proof.
  rewrite lookup_update_ids. destruct (outbox !! id) as [row|]; [|done]. intros [= <-].
  exists row. split; [done|]. unfold failed_row. repeat case_bool_decide; naive_solver.
Qed.

Lemma lookup_update_is_some ids f outbox id row :
  outbox !! id = Some row -> exists row', update_ids ids f outbox !! id = Some row'.
Proof. intros H. rewrite lookup_update_ids, H. by eexists. Qed.

(** Releasing claims keeps the invariant, whatever the worker drops. *)
Lemma inv_failure s ids e n now w :
  delivery_inv s -> NoDup (todo w) ->
  (forall id, id ∈ todo w -> id ∈ todo (sy_worker s)) ->
  held w = [] \/ held w = held (sy_worker s) -> (forall id, id ∈ gone w -> id ∈ gone (sy_worker s)) ->
  posted w = [] ->
  delivery_inv (mkSys (update_ids ids (failed_row e n now) (sy_outbox s)) (sy_local s) (sy_remote s) w).
Proof.
  intros [H1 H2 H3 H4 H5 H6] Hn Hsub Hheld Hgone Hpost. split; simpl; [|done| | | |].
  - intros id v Hl. destruct (H1 id v Hl) as (row & Hr & Hf & Hs).
    destruct (lookup_update_is_some ids (failed_row e n now) _ _ _ Hr) as [row' Hr'].
    exists row'. split; [done|].
    apply lookup_failed_row in Hr' as (r & Hr2 & [->|[? ?]]); [simplify_eq; done|].
    split; congruence.
  - intros id row' Hin (row & Hr & [->|[? ?]])%lookup_failed_row; [|congruence]. eauto.
  - intros id v' v row' Hin (row & Hr & [->|[? ?]])%lookup_failed_row; [|congruence].
    destruct Hheld as [Hheld|Hheld]; rewrite Hheld in Hin; [set_solver|]. eauto.
  - intros id row' Hin (row & Hr & [->|[? ?]])%lookup_failed_row; [|congruence]. eauto.
  - rewrite Hpost. set_solver.
Qed.

(** Acknowledging rows whose version the sink holds, or that are gone. *)
Lemma inv_sent s ids now w :
  delivery_inv s -> NoDup (todo w) ->
  (forall id, id ∈ todo w -> id ∈ todo (sy_worker s) /\ id ∉ ids) ->
  held w = [] \/ held w = held (sy_worker s) -> gone w = [] -> posted w = [] ->
  (forall id v row, id ∈ ids -> sy_outbox s !! id = Some row -> o_status row = OSending ->
     sy_local s !! id = Some v -> sy_remote s !! id = Some v) ->
  delivery_inv (mkSys (update_ids ids (sent_row now) (sy_outbox s)) (sy_local s) (sy_remote s) w).
Proof.
  intros [H1 H2 H3 H4 H5 H6] Hn Hsub Hheld Hgone Hpost Hids. split; simpl; [|done| | | |].
  - intros id v Hl. destruct (H1 id v Hl) as (row & Hr & Hf & Hs).
    destruct (lookup_update_is_some ids (sent_row now) _ _ _ Hr) as [row' Hr'].
    exists row'. split; [done|].
    apply lookup_sent_row in Hr' as (r & Hr2 & [(? & ? & ->)|[_ ->]]); [|simplify_eq; done].
    split; [done|]. intros _. eauto.
  - intros id row' Hin (row & Hr & [(? & _ & _)|[_ ->]])%lookup_sent_row; [|by eapply H3; [apply Hsub|]].
    destruct (Hsub id Hin); done.
  - intros id v' v row' Hin (row & Hr & [(_ & _ & E)|[_ ->]])%lookup_sent_row; [congruence|].
    destruct Hheld as [Hheld|Hheld]; rewrite Hheld in Hin; [set_solver|]. eauto.
  - rewrite Hgone. set_solver.
  - rewrite Hpost. set_solver.
Qed.

(** A worker move that touches neither the table nor the sink. *)
Lemma inv_worker s w :
  delivery_inv s -> NoDup (todo w) ->
  (forall id, id ∈ todo w -> id ∈ todo (sy_worker s)) ->
  (forall id v, (id, v) ∈ held w -> sy_local s !! id = Some v) ->
  (forall id, id ∈ gone w -> sy_local s !! id = None) -> posted w = [] ->
  delivery_inv (mkSys (sy_outbox s) (sy_local s) (sy_remote s) w).
Proof.
  intros [H1 H2 H3 H4 H5 H6] Hn Hsub Hheld Hgone Hpost. split; simpl; [done|done| | | |].
  - eauto.
  - intros id v' v row Hin _ _ Hl. apply Hheld in Hin. congruence.
  - eauto.
  - rewrite Hpost. set_solver.
Qed.

Lemma lookup_enqueue_open t i c outbox id row' :
  enqueue_row t i c outbox !! id = Some row' ->
  id = outbox_id t i /\ o_status row' = OPending \/ id <> outbox_id t i /\ outbox !! id = Some row'.
Proof.
  rewrite lookup_enqueue_row. case_bool_decide as E; [|by auto].
  intros [= <-]. left. split; [done|]. by destruct (outbox !! id).
Qed.

Lemma inv_write s t i c v :
  delivery_inv s ->
  delivery_inv (mkSys (enqueue_row t i c (sy_outbox s)) (<[outbox_id t i := v]> (sy_local s))
                  (sy_remote s) (sy_worker s)).
Proof.
  intros [H1 H2 H3 H4 H5 H6]. split; simpl; [|done| | | |done].
  - intros id v0 [[<- <-]|[Hne Hl]]%lookup_insert_Some.
    + rewrite lookup_enqueue_row, bool_decide_eq_true_2 by done.
      eexists. split; [done|]. by destruct (sy_outbox s !! _).
    + rewrite lookup_enqueue_row, bool_decide_eq_false_2 by done. by apply H1.
  - intros id row Hin [[_ E]|[_ Hr]]%lookup_enqueue_open; [congruence|]. eauto.
  - intros id v' v0 row Hin [[_ E]|[Hne Hr]]%lookup_enqueue_open Hs; [congruence|].
    rewrite lookup_insert_ne by done. eauto.
  - intros id row Hin [[_ E]|[Hne Hr]]%lookup_enqueue_open Hs; [congruence|].
    rewrite lookup_insert_ne by done. eauto.
Qed.

Lemma inv_delete s id0 :
  delivery_inv s ->
  delivery_inv (mkSys (sy_outbox s) (delete id0 (sy_local s)) (sy_remote s) (sy_worker s)).
Proof.
  intros [H1 H2 H3 H4 H5 H6]. split; simpl; [|done|done| | |done].
  - intros id v [_ Hl]%lookup_delete_Some. eauto.
  - intros id v' v row Hin Hr Hs [_ Hl]%lookup_delete_Some. eauto.
  - intros id row Hin Hr Hs. apply lookup_delete_None. eauto.
Qed.

Lemma inv_poll s now recovered outbox batch :
  delivery_inv s -> on_outbox (poll now recovered) (sy_outbox s) outbox batch ->
  delivery_inv (mkSys outbox (sy_local s) (sy_remote s) (Groups (group_batch batch))).
Proof.
  intros [H1 H2 H3 H4 H5 H6] (Hn & Hc & Hm)%on_poll. split; simpl; [| | |set_solver..].
  - intros id v Hl. destruct (H1 id v Hl) as (row & Hr & Hf & Hs).
    specialize (Hm id). rewrite Hr in Hm. inversion Hm as [? row' Hmv|]; subst.
    exists row'. split; [done|]. unfold row_moves, row_open in Hmv.
    destruct Hmv as [E|[_ E]]; [by rewrite E|]. destruct E as [->| ->]; done.
  - by apply group_batch_nodup.
  - intros id row Hin%group_batch_elem Hl E. rewrite (Hc id row) in E; done.
Qed.

Lemma inv_post s ps gs remote w :
  delivery_inv s -> sy_worker s = Acked ps gs ->
  todo w = ps.*1 ++ mjoin gs -> held w = ps -> gone w = [] ->
  (remote = upload ps (sy_remote s) \/ remote = sy_remote s /\ posted w = []) ->
  posted w = ps \/ posted w = [] ->
  delivery_inv (mkSys (sy_outbox s) (sy_local s) remote w).
Proof.
  intros [H1 H2 H3 H4 H5 H6] Hw Ht Hh Hg Hr Hp. rewrite Hw in *. simpl in *.
  assert (NoDup ps.*1) as Hn by by apply NoDup_app in H2 as [? _].
  split; simpl.
  - intros id v Hl. destruct (H1 id v Hl) as (row & Hrow & Hf & Hs). exists row.
    split; [done|]. split; [done|]. intros E. destruct Hr as [->|[-> _]]; [|by apply Hs].
    rewrite lookup_upload_other; [by apply Hs|]. intros Hin. eapply (H3 id row); [set_solver|done..].
  - by rewrite Ht.
  - intros id row. rewrite Ht. apply H3.
  - intros id v' v row. rewrite Hh. apply H4.
  - rewrite Hg. set_solver.
  - intros id v Hin. destruct Hp as [Hp|Hp]; rewrite Hp in Hin; [|set_solver].
    destruct Hr as [->|[-> Hr]]; [by apply lookup_upload|]. rewrite <- Hp, Hr in Hin. by apply not_elem_of_nil in Hin.
Qed.

(** Dropping what the worker holds. *)
Lemma inv_drop s w :
  delivery_inv s -> NoDup (todo w) -> (forall id, id ∈ todo w -> id ∈ todo (sy_worker s)) ->
  held w = [] -> gone w = [] -> posted w = [] ->
  delivery_inv (mkSys (sy_outbox s) (sy_local s) (sy_remote s) w).
Proof.
  intros Hi Hn Hsub Hh Hg Hp. apply inv_worker; [done..| | |done].
  - intros id v. rewrite Hh. by intros ?%not_elem_of_nil.
  - intros id. rewrite Hg. by intros ?%not_elem_of_nil.
Qed.

Lemma delivery_inv_step s s' : delivery_inv s -> step s s' -> delivery_inv s'.
Proof.
  intros Hi Hstep. pose proof (inv_nodup s Hi) as Hn. pose proof (inv_held s Hi) as Hh.
  pose proof (inv_gone s Hi) as Hg. pose proof (inv_posted s Hi) as Hpost.
  destruct Hstep as [t i c v s o Ho%on_enqueue|oid s|now rc s o batch Hw Ho|ids gs ps ack fl s Hw Hhy
    |ps ack fl gs e n now s o Hw Ho%on_mark_failure|ps ack gs now s o Hw Ho%on_mark_sent
    |ps gs s Hw|ps gs rc s Hw|ps gs now s o Hw Ho%on_mark_sent|ps gs e n now s o Hw Ho%on_mark_failure
    |s Hw|gs s Hw|s]; subst; try (rewrite Hw in *; simpl in *).
  - by apply inv_write.
  - by apply inv_delete.
  - by eapply inv_poll.
  - pose proof (hydrate_perm _ _ _ _ _ Hhy) as Hp.
    apply inv_worker; [done|simpl..|done].
    + by rewrite (assoc_L (++)), (assoc_L (++)), <- (assoc_L (++) ps.*1), <- Hp.
    + intros id Hin. rewrite Hw. simpl. rewrite Hp. set_solver.
    + intros id v. by eapply hydrate_held.
    + intros id. by eapply hydrate_gone_spec.
  - apply inv_failure; rewrite ?Hw; simpl; [done| |set_solver|by right|set_solver|done].
    apply (sublist_NoDup _ _ Hn). repeat first [apply sublist_app; [done|] | apply sublist_inserts_l]; done.
  - apply inv_sent; rewrite ?Hw; simpl; [done| | |by right|done|done|].
    + apply (sublist_NoDup _ _ Hn). repeat first [apply sublist_app; [done|] | apply sublist_inserts_l]; done.
    + intros id Hin. split; [set_solver|]. intros Hack.
      apply NoDup_app in Hn as (_ & Hd & Hn). apply NoDup_app in Hn as (_ & Hd2 & _).
      apply elem_of_app in Hin as [Hin|Hin]; [apply (Hd id Hin); set_solver|by apply (Hd2 id)].
    + intros id v row Hin Hr Hs Hl. rewrite (Hg id row Hin Hr Hs) in Hl. done.
  - eapply inv_post; [done|done|done|done|done|by left|by left].
  - eapply inv_post; [done|done|done|done|done| |by right]. destruct rc; [by left|by right].
  - apply NoDup_app in Hn as (Hn1 & Hd & Hn2).
    apply inv_sent; rewrite ?Hw; simpl; [done|done| |by left|done|done|].
    + intros id Hin. split; [set_solver|]. intros Hps. by apply (Hd id).
    + intros id v row Hin Hr Hs Hl. apply list_elem_of_fmap in Hin as ([id' v'] & -> & Hin).
      rewrite (Hh _ _ _ _ Hin Hr Hs Hl). by apply Hpost.
  - apply inv_failure; rewrite ?Hw; simpl; [done| |set_solver|by left|set_solver|done].
    by apply NoDup_app in Hn as (_ & _ & ?).
  - apply inv_drop; [done|by apply NoDup_nil|by intros ? ?%not_elem_of_nil|done..].
  - apply inv_drop; [done| | |done..]; destruct (sy_worker s) as [|[|? ?]| | | | |]; simplify_eq/=;
      try (intros id Hin; set_solver);
      repeat match goal with H : NoDup (_ ++ _) |- _ => apply NoDup_app in H as (_ & _ & H) end; done.
  - apply inv_drop; [done|by apply NoDup_nil|by intros ? ?%not_elem_of_nil|done..].
Qed.

Lemma delivery_inv_init : delivery_inv sys_init.
Proof. split; simpl; try set_solver. constructor. Qed.

Lemma reachable_inv s : reachable s -> delivery_inv s.
Proof. induction 1; [apply delivery_inv_init | by eapply delivery_inv_step]. Qed.

(** ** The property *)

(** C4. No update is lost: however writers, deletions, polls, uploads, failures
    and crashes interleave, every live row that has been written has an outbox
    row, and once that row counts as delivered the sink holds the version the
    store holds. In particular an acknowledgement never covers a version that
    was replaced while its upload was in flight. *)
Theorem no_lost_update s id v :
  reachable s -> sy_local s !! id = Some v ->
  exists row, sy_outbox s !! id = Some row
  /\ (row_open row \/ o_status row = OSent /\ sy_remote s !! id = Some v).
Proof.
  intros Hr%reachable_inv Hl. destruct (inv_delivered s Hr id v Hl) as (row & Hrow & Hf & Hs).
  exists row. split; [done|]. unfold row_open. destruct (o_status row); by auto.
Qed.

Lemma no_lost_update_witness :
  let id := outbox_id "sessions" "s1" in
  let batch := [mkClaimed id "sessions" "s1" "t1" 0] in
  let o1 := enqueue_row "sessions" "s1" "t1" ∅ in
  let o2 := update_ids [id] (with_status OSending) o1 in
  let o3 := enqueue_row "sessions" "s1" "t3" o2 in
  let s := mkSys o3 (<[id := 2%nat]> (<[id := 1%nat]> ∅)) ∅ (Groups (group_batch batch)) in
  reachable s
  /\ exists row, sy_outbox s !! id = Some row
     /\ (row_open row \/ o_status row = OSent /\ sy_remote s !! id = Some 2%nat).
Proof.
  intros id batch o1 o2 o3 s.
  set (s2 := mkSys o2 (<[id := 1%nat]> ∅) ∅ (Groups (group_batch batch))).
  set (s1 := mkSys o1 (<[id := 1%nat]> ∅) ∅ Idle).
  assert (reachable s) as H.
  { apply (reach_step s2).
    - apply (reach_step s1).
      + apply (reach_step sys_init); [apply reach_init|].
        apply (step_write "sessions" "s1" "t1" 1 sys_init o1).
        exists empty_store, (set_outbox o1 empty_store). done.
      + apply (step_poll "t2" false s1 o2 batch); [done|].
        exists (set_outbox o1 empty_store), (set_outbox o2 empty_store).
        split; [reflexivity|]. split; [|reflexivity]. vm_compute. reflexivity.
    - apply (step_write "sessions" "s1" "t3" 2 s2 o3).
      exists (set_outbox o2 empty_store), (set_outbox o3 empty_store). done. }
  split; [exact H|]. apply (no_lost_update s id 2 H). vm_compute. reflexivity.
Defined.
