(* ===== verification/ChangeFeed.v ===== *)
(** The session change feed (src/src/state/sessions/changes.rs): one counter
    stamps every session that changes, a deleted session leaves a stamped
    tombstone, and readers page through the stamps. *)

From S2P Require Import Prelude Store.
Open Scope Z_scope.
Open Scope result_scope.

(** ** Operations *)

(** [UPDATE session_change_counter SET change_seq = change_seq + 1 RETURNING
    change_seq]: past 64 bits SQLite returns a float, which is refused. *)
Definition next_change_seq : M Z :=
  let* c := gets st_change_seq in
  if i64_max <=? c then fail Sqlite
  else modify (fun st => set_counter (c + 1) (st_pruned_through st) st) ;; ret (c + 1).

Definition with_change_seq (seq : Z) (row : SessionRow) : SessionRow :=
  mkSession (s_id row) (s_target_id row) (s_agent_session_id row) (s_created_at row)
    (s_updated_at row) (s_status row) (s_agent_id row) (s_cwd row) (s_title row)
    (s_metadata_json row) seq.

Definition bump_session_change (session_id : string) : M unit :=
  let* sessions := gets st_sessions in
  match sessions !! session_id with
  | None => ret tt
  | Some _ =>
      let* seq := next_change_seq in
      modify (fun st => set_sessions (alter (with_change_seq seq) session_id (st_sessions st)) st)
  end.

(** [INSERT INTO session_tombstones .. ON CONFLICT(session_id) DO UPDATE]. *)
Definition insert_session_tombstone (session_id deleted_at : string) : M unit :=
  let* seq := next_change_seq in
  modify (fun st => set_tombstones
    (<[session_id := mkTombstone deleted_at seq]> (st_tombstones st)) st).

Definition clear_session_tombstone (session_id : string) : M unit :=
  modify (fun st => set_tombstones (delete session_id (st_tombstones st)) st).

(** [cutoff] is the formatted [now - retention]. *)
Definition prune_session_tombstones (cutoff : string) : M nat :=
  let* tombstones := gets st_tombstones in
  let pruned := filter (fun p => String.ltb (t_deleted_at p.2) cutoff = true)
                  (map_to_list tombstones) in
  modify (set_tombstones (filter (fun p => String.ltb (t_deleted_at p.2) cutoff = false) tombstones)) ;;
  modify (fun st => set_counter (st_change_seq st)
    (foldr (fun p acc => Z.max (t_change_seq p.2) acc) (st_pruned_through st) pruned) st) ;;
  ret (length pruned).

(** ** Reading *)

Record SessionChangeRecord := mkChange {
  ch_session_id : string;
  ch_change_seq : Z;
  ch_deleted : bool;
}.

Record SessionChangesPage := mkPage {
  pg_changes : list SessionChangeRecord;
  pg_head : Z;
  pg_pruned_through : Z;
}.

Definition change_le (a b : SessionChangeRecord) : Prop := ch_change_seq a <= ch_change_seq b.
#[export] Instance change_le_dec : RelDecision change_le.
Proof. intros a b. unfold change_le. apply _. Defined.
#[export] Instance change_le_total : Total change_le.
Proof. intros a b. unfold change_le. lia. Qed.
#[export] Instance change_le_trans : Transitive change_le.
Proof. intros a b c. unfold change_le. lia. Qed.

(** The [UNION ALL] of live rows and tombstones past a position. *)
Definition changes_after (after : Z) (st : Store) : list SessionChangeRecord :=
  filter (fun c => after < ch_change_seq c)
    (((fun p => mkChange p.1 (s_change_seq p.2) false) <$> map_to_list (st_sessions st))
     ++ ((fun p => mkChange p.1 (t_change_seq p.2) true) <$> map_to_list (st_tombstones st))).

Definition query_session_changes (after : Z) (limit : nat) (st : Store) : SessionChangesPage :=
  let after := Z.min after i64_max in
  mkPage (take limit (merge_sort change_le (changes_after after st)))
    (st_change_seq st) (st_pruned_through st).

(** [event_seq] is a subquery over the events and does not change the answer. *)
Definition require_live_session (id : string) (st : Store) : result StackError SessionRow :=
  match st_sessions st !! id with
  | Some row => Ok row
  | None => match st_tombstones st !! id with
            | Some _ => Err (SessionDeleted id)
            | None => Err (SessionNotFound id)
            end
  end.

(** ** The invariant of the feed *)

(** The stamp an id carries, and whether it is a tombstone's. *)
Definition stamp (sessions tombstones : gmap string Z) (id : string) : option (Z * bool) :=
  match sessions !! id with
  | Some n => Some (n, false)
  | None => (fun n => (n, true)) <$> tombstones !! id
  end.

(** Live and deleted ids are disjoint; stamps are positive, issued, and never
    shared by two ids. *)
Record stamps_wf (sessions tombstones : gmap string Z) (counter pruned : Z) : Prop := {
  wf_counter : 0 <= pruned <= counter /\ counter <= i64_max;
  wf_disjoint : forall id, is_Some (sessions !! id) -> tombstones !! id = None;
  wf_range : forall id n d, stamp sessions tombstones id = Some (n, d) -> 0 < n <= counter;
  wf_inj : forall id1 id2 n d1 d2, stamp sessions tombstones id1 = Some (n, d1) ->
    stamp sessions tombstones id2 = Some (n, d2) -> id1 = id2;
}.

Definition live_seqs (st : Store) : gmap string Z := s_change_seq <$> st_sessions st.
Definition dead_seqs (st : Store) : gmap string Z := t_change_seq <$> st_tombstones st.

Definition feed_inv (st : Store) : Prop :=
  stamps_wf (live_seqs st) (dead_seqs st) (st_change_seq st) (st_pruned_through st).

(** What a reader at the position [st_change_seq st] can rely on when the store
    has moved on to [st']: an id in [dirty] is live and about to be stamped,
    any other id is unchanged, carries a newer stamp, or lost its tombstone to
    pruning, in which case [pruned_through] tells. *)
Definition feed_dirty (dirty : gset string) (st st' : Store) : Prop :=
  st_change_seq st <= st_change_seq st'
  /\ st_pruned_through st <= st_pruned_through st'
  /\ forall id,
     (st_sessions st' !! id = st_sessions st !! id
      /\ st_tombstones st' !! id = st_tombstones st !! id)
     \/ (exists row, st_sessions st' !! id = Some row /\ st_change_seq st < s_change_seq row)
     \/ (st_sessions st' !! id = None
         /\ exists t, st_tombstones st' !! id = Some t /\ st_change_seq st < t_change_seq t)
     \/ (st_sessions st' !! id = None /\ st_tombstones st' !! id = None
         /\ (st_change_seq st < st_pruned_through st'
             \/ st_sessions st !! id = None
                /\ forall t, st_tombstones st !! id = Some t -> t_change_seq t <= st_pruned_through st'))
     \/ (id ∈ dirty /\ is_Some (st_sessions st' !! id)).

Definition feed_step : Store -> Store -> Prop := feed_dirty ∅.

(** An operation that keeps the invariant and is visible to readers. *)
Definition feed_ok {A} (m : M A) : Prop :=
  forall st a st', feed_inv st -> m st = Ok (a, st') -> feed_inv st' /\ feed_step st st'.

(** An operation that leaves the feed's tables alone. *)
Definition feed_same_stores (st st' : Store) : Prop :=
  st_sessions st' = st_sessions st /\ st_tombstones st' = st_tombstones st
  /\ st_change_seq st' = st_change_seq st /\ st_pruned_through st' = st_pruned_through st.

Definition feed_same {A} (m : M A) : Prop :=
  forall st a st', m st = Ok (a, st') -> feed_same_stores st st'.

(** ** Composition *)

Lemma feed_step_refl st : feed_step st st.
Proof. split; [lia|]. split; [lia|]. by left. Qed.

Lemma feed_step_dirty dirty st st1 st2 :
  feed_step st st1 -> feed_dirty dirty st1 st2 -> feed_dirty dirty st st2.
Proof.
  intros (C1 & P1 & H1) (C2 & P2 & H2). split; [lia|]. split; [lia|]. intros id.
  destruct (H2 id) as [[-> ->]|[(row & -> & ?)|[(-> & t & -> & ?)|[(E1 & E2 & H)|[? ?]]]]].
  - destruct (H1 id) as [?|[?|[?|[(? & ? & [?|[? Ht]])|[Hin _]]]]]; eauto 6.
    + right; right; right; left. split; [done|]. split; [done|]. left. lia.
    + right; right; right; left. split; [done|]. split; [done|]. right. split; [done|].
      intros t Et. specialize (Ht t Et). lia.
    + set_solver.
  - right; left. exists row. split; [done|lia].
  - right; right; left. split; [done|]. exists t. split; [done|lia].
  - right; right; right; left. split; [done|]. split; [done|].
    destruct H as [H|[Hs Ht]]; [left; lia|].
    destruct (H1 id) as [[Es Et]|[(row & Es & ?)|[(Es & t & Et & ?)|[(Es & Et & [?|[? Ht']])|[Hin _]]]]].
    + right. rewrite <- Es, <- Et. done.
    + congruence.
    + left. specialize (Ht t Et). lia.
    + left. lia.
    + right. split; [done|]. intros t' Et'. specialize (Ht' t' Et'). lia.
    + set_solver.
  - right; right; right; right. done.
Qed.

Lemma feed_step_trans st st1 st2 : feed_step st st1 -> feed_step st1 st2 -> feed_step st st2.
Proof. apply feed_step_dirty. Qed.

Lemma feed_same_step st st' : feed_same_stores st st' -> feed_inv st -> feed_inv st' /\ feed_step st st'.
Proof.
  intros (Es & Et & Ec & Ep) Hi. split.
  - unfold feed_inv, live_seqs, dead_seqs. by rewrite Es, Et, Ec, Ep.
  - split; [lia|]. split; [lia|]. intros id. left. by rewrite Es, Et.
Qed.

Lemma feed_ok_bind {A B} (m : M A) (f : A -> M B) :
  feed_ok m -> (forall a, feed_ok (f a)) -> feed_ok (bind m f).
Proof.
  intros Hm Hf st b st' Hi (a & st1 & H1 & H2)%bind_ok.
  destruct (Hm _ _ _ Hi H1) as [Hi1 Hs1]. destruct (Hf a _ _ _ Hi1 H2) as [Hi2 Hs2].
  split; [done|]. by eapply feed_step_trans.
Qed.

Lemma feed_same_bind {A B} (m : M A) (f : A -> M B) :
  feed_same m -> (forall a, feed_same (f a)) -> feed_same (bind m f).
Proof.
  intros Hm Hf st b st' (a & st1 & H1 & H2)%bind_ok.
  destruct (Hm _ _ _ H1) as (E1 & E2 & E3 & E4), (Hf a _ _ _ H2) as (F1 & F2 & F3 & F4).
  split; [congruence|]. split; [congruence|]. split; congruence.
Qed.

Lemma feed_same_ok {A} (m : M A) : feed_same m -> feed_ok m.
Proof. intros H st a st' Hi Hm. apply feed_same_step; eauto. Qed.

Lemma feed_same_ret {A} (a : A) : feed_same (ret a).
Proof. by intros st b st' [= <- <-]. Qed.
Lemma feed_same_fail {A} e : feed_same (fail (A := A) e).
Proof. by intros st b st'. Qed.
Lemma feed_same_gets {A} (f : Store -> A) : feed_same (gets f).
Proof. by intros st b st' [= <- <-]. Qed.
Lemma feed_same_modify f : (forall st, feed_same_stores st (f st)) -> feed_same (modify f).
Proof. by intros H st b st' [= <- <-]. Qed.
Lemma feed_same_for_each {A} (l : list A) (f : A -> M unit) :
  (forall x, feed_same (f x)) -> feed_same (for_each l f).
Proof. intros H. induction l; simpl; [apply feed_same_ret|]. by apply feed_same_bind. Qed.
Lemma feed_ok_for_each {A} (l : list A) (f : A -> M unit) :
  (forall x, feed_ok (f x)) -> feed_ok (for_each l f).
Proof.
  intros H. induction l; simpl; [apply feed_same_ok, feed_same_ret|]. by apply feed_ok_bind.
Qed.

#[export] Hint Resolve feed_same_ret feed_same_fail feed_same_gets : acps.

(** ** Stamping *)

Lemma stamps_wf_fresh s t c p s' t' id d :
  stamps_wf s t c p -> c < i64_max ->
  stamp s' t' id = Some (c + 1, d) -> (forall id', id' <> id -> stamp s' t' id' = stamp s t id') ->
  (forall id', is_Some (s' !! id') -> t' !! id' = None) -> stamps_wf s' t' (c + 1) p.
Proof.
  intros [Hc Hd Hr Hi] Hlt Hid Hother Hdis. split; [lia|done| |].
  - intros id' n d' H. destruct (decide (id' = id)) as [->|Hne].
    + rewrite Hid in H. injection H as <- <-. lia.
    + rewrite Hother in H by done. apply Hr in H. lia.
  - intros id1 id2 n d1 d2 H1 H2.
    destruct (decide (id1 = id)) as [->|N1], (decide (id2 = id)) as [->|N2]; [done| | |].
    + rewrite Hid in H1. rewrite Hother in H2 by done. apply Hr in H2. naive_solver lia.
    + rewrite Hid in H2. rewrite Hother in H1 by done. apply Hr in H1. naive_solver lia.
    + rewrite Hother in H1, H2 by done. eauto.
Qed.

Lemma stamps_wf_live s t c p id :
  stamps_wf s t c p -> c < i64_max -> stamps_wf (<[id := c + 1]> s) (delete id t) (c + 1) p.
Proof.
  intros Hwf Hlt. apply (stamps_wf_fresh s t c p _ _ id false); [done..| | |].
  - unfold stamp. by rewrite lookup_insert_eq.
  - intros id' Hne. unfold stamp. by rewrite lookup_insert_ne, lookup_delete_ne by done.
  - intros id'. destruct (decide (id' = id)) as [->|Hne]; [by rewrite lookup_delete_eq|].
    rewrite lookup_insert_ne, lookup_delete_ne by done. apply Hwf.
Qed.

Lemma stamps_wf_dead s t c p id :
  stamps_wf s t c p -> c < i64_max -> stamps_wf (delete id s) (<[id := c + 1]> t) (c + 1) p.
Proof.
  intros Hwf Hlt. apply (stamps_wf_fresh s t c p _ _ id true); [done..| | |].
  - unfold stamp. by rewrite lookup_delete_eq, lookup_insert_eq.
  - intros id' Hne. unfold stamp. by rewrite lookup_insert_ne, lookup_delete_ne by done.
  - intros id'. destruct (decide (id' = id)) as [->|Hne]; [rewrite lookup_delete_eq; by intros []|].
    rewrite lookup_insert_ne, lookup_delete_ne by done. apply Hwf.
Qed.

Lemma next_change_seq_run st seq st' :
  next_change_seq st = Ok (seq, st') ->
  st_change_seq st < i64_max /\ seq = st_change_seq st + 1
  /\ st' = set_counter (st_change_seq st + 1) (st_pruned_through st) st.
Proof.
  unfold next_change_seq, bind, gets. destruct (Z.leb_spec i64_max (st_change_seq st)); [done|].
  intros (u & st1 & H1 & H2)%bind_ok. injection H1 as _ <-. by injection H2 as <- <-.
Qed.

Lemma bump_session_change_run id st u st' :
  bump_session_change id st = Ok (u, st') ->
  st_sessions st !! id = None /\ st' = st
  \/ exists row, st_sessions st !! id = Some row /\ st_change_seq st < i64_max
     /\ st' = set_sessions (<[id := with_change_seq (st_change_seq st + 1) row]> (st_sessions st))
                (set_counter (st_change_seq st + 1) (st_pruned_through st) st).
Proof.
  unfold bump_session_change. intros H. apply bind_ok in H as (ss & st0 & H0 & H).
  injection H0 as <- <-. destruct (st_sessions st !! id) as [row|] eqn:E.
  - apply bind_ok in H as (seq & st1 & H1 & H2). apply next_change_seq_run in H1 as (Hlt & -> & ->).
    injection H2 as _ <-. right. exists row. split; [done|]. split; [done|]. simpl.
    f_equal. apply map_eq. intros id'. destruct (decide (id = id')) as [->|Hne].
    + by rewrite lookup_alter_eq, lookup_insert_eq, E.
    + by rewrite lookup_alter_ne, lookup_insert_ne by done.
  - injection H as _ <-. by left.
Qed.

(** Stamping a live session settles it for readers. *)
Lemma bump_dirty dirty id st st1 u st2 :
  feed_inv st1 -> feed_dirty dirty st st1 -> bump_session_change id st1 = Ok (u, st2) ->
  feed_inv st2 /\ feed_dirty (dirty ∖ {[id]}) st st2.
Proof.
  intros Hi (C & P & H) [[Hn ->]|(row & Hrow & Hlt & ->)]%bump_session_change_run.
  - split; [done|]. split; [done|]. split; [done|]. intros id'.
    destruct (H id') as [?|[?|[?|[?|[Hin Hs]]]]]; [tauto..|].
    do 4 right. split; [|done]. destruct (decide (id' = id)) as [->|]; [|set_solver].
    rewrite Hn in Hs. by destruct Hs.
  - split.
    + unfold feed_inv, live_seqs, dead_seqs in *; simpl. rewrite fmap_insert; simpl.
      assert (t_change_seq <$> st_tombstones st1 = delete id (t_change_seq <$> st_tombstones st1)) as ->.
      { symmetry. apply delete_id. apply (wf_disjoint _ _ _ _ Hi). rewrite lookup_fmap, Hrow. eauto. }
      by apply stamps_wf_live.
    + split; [simpl; lia|]. split; [done|]. simpl. intros id'.
      destruct (decide (id' = id)) as [->|Hne].
      * right; left. eexists. rewrite lookup_insert_eq. split; [done|]. simpl. lia.
      * rewrite lookup_insert_ne by done.
        destruct (H id') as [?|[?|[?|[?|[Hin Hs]]]]]; [tauto..|]. do 4 right. set_solver.
Qed.

Lemma bump_all_dirty dirty ids st st1 u st2 :
  feed_inv st1 -> feed_dirty dirty st st1 ->
  for_each ids bump_session_change st1 = Ok (u, st2) ->
  feed_inv st2 /\ feed_dirty (dirty ∖ list_to_set ids) st st2.
Proof.
  revert dirty st1. induction ids as [|id ids IH]; intros dirty st1 Hi Hd H; simpl in H.
  - injection H as _ <-. split; [done|]. by replace (dirty ∖ list_to_set []) with dirty by set_solver.
  - apply bind_ok in H as (u1 & st3 & H1 & H2).
    destruct (bump_dirty dirty id st st1 u1 st3 Hi Hd H1) as [Hi3 Hd3].
    destruct (IH _ _ Hi3 Hd3 H2) as [Hi2 Hd2]. split; [done|].
    by replace (dirty ∖ list_to_set (id :: ids)) with (dirty ∖ {[id]} ∖ list_to_set ids)
      by (simpl; set_solver).
Qed.

(** Changing rows without touching stamps leaves those ids to be stamped. *)
Lemma edit_dirty dirty st sessions :
  feed_inv st -> s_change_seq <$> sessions = live_seqs st ->
  (forall id, id ∉ dirty -> sessions !! id = st_sessions st !! id) ->
  feed_inv (set_sessions sessions st) /\ feed_dirty dirty st (set_sessions sessions st).
Proof.
  intros Hi Hs Hd. split.
  - unfold feed_inv, live_seqs, dead_seqs in *; simpl. by rewrite Hs.
  - split; [simpl; lia|]. split; [simpl; lia|]. simpl. intros id.
    destruct (decide (id ∈ dirty)) as [Hin|Hn]; [|left; by rewrite Hd].
    destruct (sessions !! id) as [row|] eqn:E; [by do 4 right; eauto|].
    left. split; [|done]. unfold live_seqs in Hs.
    apply (f_equal (lookup id)) in Hs. rewrite !lookup_fmap, E in Hs.
    by destruct (st_sessions st !! id).
Qed.

Lemma feed_same_dirty dirty st st1 st2 :
  feed_inv st1 -> feed_dirty dirty st st1 -> feed_same_stores st1 st2 ->
  feed_inv st2 /\ feed_dirty dirty st st2.
Proof.
  intros Hi Hd (Es & Et & Ec & Ep). split.
  - unfold feed_inv, live_seqs, dead_seqs in *. by rewrite Es, Et, Ec, Ep.
  - unfold feed_dirty in *. by rewrite Es, Et, Ec, Ep.
Qed.

Lemma feed_dirty_empty dirty st st' : dirty = ∅ -> feed_dirty dirty st st' -> feed_step st st'.
Proof. by intros ->. Qed.

(** Inserting a stamped row and clearing its tombstone. *)
Lemma insert_live_step st id row :
  feed_inv st -> st_change_seq st < i64_max -> s_change_seq row = st_change_seq st + 1 ->
  let st' := set_tombstones (delete id (st_tombstones st))
               (set_sessions (<[id := row]> (st_sessions st))
                  (set_counter (st_change_seq st + 1) (st_pruned_through st) st)) in
  feed_inv st' /\ feed_step st st'.
Proof.
  intros Hi Hlt Hseq st'. split.
  - unfold feed_inv, live_seqs, dead_seqs, st'; simpl. rewrite fmap_insert, Hseq, fmap_delete.
    by apply stamps_wf_live.
  - split; [simpl; lia|]. split; [done|]. simpl. intros id'.
    destruct (decide (id' = id)) as [->|Hne].
    + right; left. exists row. rewrite lookup_insert_eq. split; [done|lia].
    + left. by rewrite lookup_insert_ne, lookup_delete_ne by done.
Qed.

(** Deleting a row and leaving a tombstone. *)
Lemma delete_live_step st id deleted_at u st' :
  feed_inv st ->
  insert_session_tombstone id deleted_at (set_sessions (delete id (st_sessions st)) st) = Ok (u, st') ->
  feed_inv st' /\ feed_step st st'.
Proof.
  intros Hi H. unfold insert_session_tombstone in H. apply bind_ok in H as (seq & st1 & H1 & H2).
  apply next_change_seq_run in H1 as (Hlt & -> & ->). injection H2 as _ <-. simpl in *. split.
  - unfold feed_inv, live_seqs, dead_seqs in *; simpl. rewrite fmap_insert, fmap_delete; simpl.
    by apply stamps_wf_dead.
  - split; [simpl; lia|]. split; [done|]. simpl. intros id'.
    destruct (decide (id' = id)) as [->|Hne].
    + right; right; left. rewrite lookup_delete_eq. split; [done|]. eexists.
      rewrite lookup_insert_eq. split; [done|simpl; lia].
    + left. by rewrite lookup_insert_ne, lookup_delete_ne by done.
Qed.

(** ** Pruning *)

Lemma foldr_max_ge {A} (f : A -> Z) (l : list A) b :
  b <= foldr (fun x acc => Z.max (f x) acc) b l
  /\ (forall x, x ∈ l -> f x <= foldr (fun x acc => Z.max (f x) acc) b l).
Proof.
  induction l as [|y l [IH1 IH2]]; simpl; [split; [lia|by intros x ?%not_elem_of_nil]|].
  split; [lia|]. intros x [->|Hx]%elem_of_cons; [lia|]. specialize (IH2 x Hx). lia.
Qed.

Lemma foldr_max_le {A} (f : A -> Z) (l : list A) b c :
  b <= c -> (forall x, x ∈ l -> f x <= c) -> foldr (fun x acc => Z.max (f x) acc) b l <= c.
Proof.
  intros Hb. induction l as [|y l IH]; simpl; [done|]. intros H.
  pose proof (H y ltac:(set_solver)). assert (foldr (fun x acc => Z.max (f x) acc) b l <= c) by
    (apply IH; intros; apply H; set_solver). lia.
Qed.

Lemma stamp_filter s t id n d (P : string * Z -> Prop) `{!forall x, Decision (P x)} :
  stamp s (filter P t) id = Some (n, d) -> stamp s t id = Some (n, d).
Proof.
  unfold stamp. destruct (s !! id); [done|].
  rewrite fmap_Some. intros (x & [Hx _]%map_lookup_filter_Some & ->). by rewrite Hx.
Qed.

Lemma stamps_wf_prune s t t' c p p' :
  stamps_wf s t c p -> (forall id n, t' !! id = Some n -> t !! id = Some n) ->
  p <= p' <= c -> stamps_wf s t' c p'.
Proof.
  intros [Hc Hd Hr Hi] Hsub Hp.
  assert (forall id n d, stamp s t' id = Some (n, d) -> stamp s t id = Some (n, d)) as Hst.
  { intros id n d. unfold stamp. destruct (s !! id); [done|].
    intros (x & Hx & ->)%fmap_Some. by rewrite (Hsub id x Hx). }
  split; [lia| |eauto..].
  intros id Hs. specialize (Hd id Hs). destruct (t' !! id) eqn:E; [|done].
  apply Hsub in E. congruence.
Qed.

Lemma feed_disjoint st id row :
  feed_inv st -> st_sessions st !! id = Some row -> st_tombstones st !! id = None.
Proof.
  intros Hi Hs. pose proof (wf_disjoint _ _ _ _ Hi id) as Hd. unfold live_seqs, dead_seqs in Hd.
  rewrite !lookup_fmap, Hs in Hd. destruct (st_tombstones st !! id); [|done].
  discriminate Hd. by eexists.
Qed.

Lemma feed_dead_range st id t :
  feed_inv st -> st_tombstones st !! id = Some t -> 0 < t_change_seq t <= st_change_seq st.
Proof.
  intros Hi Ht. apply (wf_range _ _ _ _ Hi id (t_change_seq t) true).
  unfold stamp, live_seqs, dead_seqs. rewrite !lookup_fmap, Ht.
  destruct (st_sessions st !! id) as [row|] eqn:Es; [|done].
  rewrite (feed_disjoint _ _ _ Hi Es) in Ht. done.
Qed.

(** The effect of pruning on the feed's tables. *)
Lemma prune_run cutoff st n st' :
  prune_session_tombstones cutoff st = Ok (n, st') ->
  exists p,
    st' = set_counter (st_change_seq st) p
            (set_tombstones (filter (fun q => String.ltb (t_deleted_at q.2) cutoff = false)
                               (st_tombstones st)) st)
    /\ st_pruned_through st <= p
    /\ (forall id t, st_tombstones st !! id = Some t -> st_tombstones st' !! id = None ->
        t_change_seq t <= p)
    /\ (feed_inv st -> p <= st_change_seq st).
Proof.
  intros H. unfold prune_session_tombstones in H.
  apply bind_ok in H as (ts & st0 & H0 & H). injection H0 as <- <-.
  apply bind_ok in H as (u & st1 & H1 & H). injection H1 as _ <-.
  apply bind_ok in H as (u2 & st2 & H2 & H). injection H2 as _ <-. injection H as _ <-. simpl.
  set (pruned := filter _ (map_to_list (st_tombstones st))).
  destruct (foldr_max_ge (fun q : string * Tombstone => t_change_seq q.2) pruned
              (st_pruned_through st)) as [Hge Hall].
  eexists. split; [done|]. split; [done|]. split.
  - intros id t Ht Hn. apply (Hall (id, t)). apply list_elem_of_filter.
    split; [|by apply elem_of_map_to_list]. simpl. destruct (String.ltb _ _) eqn:E; [done|].
    apply map_lookup_filter_None_1 in Hn as [Hn|Hn]; [congruence|]. by destruct (Hn t Ht).
  - intros Hi. apply foldr_max_le; [apply Hi|].
    intros [id t] [_ Ht%elem_of_map_to_list]%list_elem_of_filter. by apply (feed_dead_range st id).
Qed.

Lemma prune_ok cutoff : feed_ok (prune_session_tombstones cutoff).
Proof.
  intros st n st' Hi H. destruct (prune_run _ _ _ _ H) as (p & -> & Hp & Hdrop & Hle). simpl in *.
  assert (forall id t, filter (fun q => String.ltb (t_deleted_at q.2) cutoff = false)
    (st_tombstones st) !! id = Some t -> st_tombstones st !! id = Some t) as Hsub.
  { by intros id t [? _]%map_lookup_filter_Some. }
  split.
  - unfold feed_inv, live_seqs, dead_seqs; simpl.
    apply (stamps_wf_prune _ _ _ _ _ _ Hi); [|by auto].
    intros id k. unfold dead_seqs. rewrite !lookup_fmap.
    intros (t & Ht & ->)%fmap_Some. by rewrite (Hsub id t Ht).
  - split; [simpl; lia|]. split; [done|]. simpl. intros id.
    destruct (filter _ (st_tombstones st) !! id) as [t|] eqn:E.
    { left. by rewrite (Hsub id t E). }
    destruct (st_sessions st !! id) as [row|] eqn:Es.
    + left. by rewrite (feed_disjoint _ _ _ Hi Es).
    + right; right; right; left. split; [done|]. split; [done|]. right. split; [done|]. eauto.
Qed.

(** ** Reading *)

Lemma elem_of_changes_after after st c :
  c ∈ changes_after after st
  <-> after < ch_change_seq c
      /\ ((exists row, st_sessions st !! ch_session_id c = Some row
             /\ c = mkChange (ch_session_id c) (s_change_seq row) false)
          \/ (exists t, st_tombstones st !! ch_session_id c = Some t
             /\ c = mkChange (ch_session_id c) (t_change_seq t) true)).
Proof.
  unfold changes_after. rewrite list_elem_of_filter, elem_of_app, !list_elem_of_fmap.
  split; (intros [Ha H]; split; [done|]; destruct H as [H|H]; [left|right]).
  - destruct H as ([id row] & -> & Hin%elem_of_map_to_list). by exists row.
  - destruct H as ([id t] & -> & Hin%elem_of_map_to_list). by exists t.
  - destruct H as (row & Hl & ->). exists (ch_session_id c, row).
    split; [done|]. by apply elem_of_map_to_list.
  - destruct H as (t & Hl & ->). exists (ch_session_id c, t).
    split; [done|]. by apply elem_of_map_to_list.
Qed.

Lemma changes_after_stamp after st c :
  feed_inv st -> c ∈ changes_after after st ->
  stamp (live_seqs st) (dead_seqs st) (ch_session_id c) = Some (ch_change_seq c, ch_deleted c).
Proof.
  intros Hi [_ [(row & Hl & ->)|(t & Hl & ->)]]%elem_of_changes_after;
    unfold stamp, live_seqs, dead_seqs; simpl in *; rewrite !lookup_fmap, Hl; [done|].
  destruct (st_sessions st !! _) as [row|] eqn:E; [|done].
  rewrite (feed_disjoint _ _ _ Hi E) in Hl. done.
Qed.

Lemma changes_after_inj after st c d :
  feed_inv st -> c ∈ changes_after after st -> d ∈ changes_after after st ->
  ch_change_seq c = ch_change_seq d -> c = d.
Proof.
  intros Hi Hc Hd E. pose proof (changes_after_stamp _ _ _ Hi Hc) as Sc.
  pose proof (changes_after_stamp _ _ _ Hi Hd) as Sd.
  rewrite E in Sc. pose proof (wf_inj _ _ _ _ Hi _ _ _ _ _ Sc Sd) as Eid.
  rewrite Eid in Sc. rewrite Sc in Sd. destruct c, d; simpl in *. by simplify_eq.
Qed.

Lemma changes_after_nodup after st : feed_inv st -> NoDup (changes_after after st).
Proof.
  intros Hi. unfold changes_after. apply NoDup_filter, NoDup_app. split; [|split].
  - apply NoDup_fmap_2_strong; [|apply NoDup_map_to_list].
    intros [i r] [j q] Hr%elem_of_map_to_list Hq%elem_of_map_to_list [= -> _]. congruence.
  - intros c Hc Hd. apply list_elem_of_fmap in Hc as (? & -> & _).
    by apply list_elem_of_fmap in Hd as (? & ? & _).
  - apply NoDup_fmap_2_strong; [|apply NoDup_map_to_list].
    intros [i r] [j q] Hr%elem_of_map_to_list Hq%elem_of_map_to_list [= -> _]. congruence.
Qed.

Definition change_lt (a b : SessionChangeRecord) : Prop := ch_change_seq a < ch_change_seq b.

(** The page before its limit is applied is strictly ascending. *)
Lemma sorted_changes after st :
  feed_inv st ->
  StronglySorted change_lt (merge_sort change_le (changes_after after st)).
Proof.
  intros Hi. set (l := merge_sort _ _).
  assert (StronglySorted change_le l) as Hs by (apply StronglySorted_merge_sort; apply _).
  assert (NoDup l) as Hn by (unfold l; rewrite merge_sort_Permutation; by apply changes_after_nodup).
  assert (forall c, c ∈ l -> c ∈ changes_after after st) as Hin
    by (intros c; unfold l; by rewrite merge_sort_Permutation).
  clearbody l. induction Hs as [|c l Hs IH Hc]; [constructor|].
  apply NoDup_cons in Hn as [Hnc Hn]. constructor; [apply IH; set_solver|].
  rewrite Forall_forall in Hc |- *. intros d Hd. specialize (Hc d Hd). unfold change_le in Hc.
  unfold change_lt. destruct (decide (ch_change_seq c = ch_change_seq d)) as [E|]; [|lia].
  apply (changes_after_inj after st) in E as ->; [done..| |]; apply Hin; set_solver.
Qed.

(** A reader that follows the feed: pages from the last stamp it saw until a
    page comes back short. *)
Fixpoint read_feed (fuel : nat) (after : Z) (limit : nat) (st : Store)
  : option (list SessionChangeRecord) :=
  match fuel with
  | O => None
  | S fuel' =>
      let page := pg_changes (query_session_changes after limit st) in
      if (length page <? limit)%nat then Some page
      else match last page with
           | None => Some page
           | Some c => app page <$> read_feed fuel' (ch_change_seq c) limit st
           end
  end.

Lemma filter_sorted_split (l1 l2 : list SessionChangeRecord) c :
  StronglySorted change_lt (l1 ++ l2) -> last l1 = Some c ->
  filter (fun d => ch_change_seq c < ch_change_seq d) (l1 ++ l2) = l2.
Proof.
  intros Hs (l1' & ->)%last_Some. rewrite filter_app, (filter_none _ (l1' ++ [c])), filter_keep; [done|..].
  - intros d Hd. apply (StronglySorted_split _ _ _ c d Hs); set_solver.
  - intros d [Hd|Hd]%elem_of_app; [|apply list_elem_of_singleton in Hd; subst; lia].
    rewrite <- app_assoc in Hs. pose proof (StronglySorted_split _ _ _ d c Hs Hd ltac:(set_solver)) as H.
    unfold change_lt in H. lia.
Qed.

Lemma changes_after_later a b st :
  a <= b -> changes_after b st = filter (fun d => b < ch_change_seq d) (changes_after a st).
Proof.
  intros Hab. unfold changes_after. rewrite list_filter_filter. apply list_filter_iff.
  intros d. lia.
Qed.

Lemma changes_after_seq after st c :
  feed_inv st -> c ∈ changes_after after st -> after < ch_change_seq c <= i64_max.
Proof.
  intros Hi Hc. pose proof (changes_after_stamp _ _ _ Hi Hc) as Hs.
  apply (wf_range _ _ _ _ Hi) in Hs. pose proof (wf_counter _ _ _ _ Hi).
  apply elem_of_changes_after in Hc. lia.
Qed.

Lemma read_feed_perm fuel after limit st :
  feed_inv st -> (0 < limit)%nat -> after <= i64_max ->
  (length (changes_after after st) < fuel)%nat ->
  exists l, read_feed fuel after limit st = Some l /\ l ≡ₚ changes_after after st.
Proof.
  intros Hi Hlim. revert after. induction fuel as [|fuel IH]; intros after Ha Hf; [lia|].
  cbn [read_feed]. unfold query_session_changes. rewrite Z.min_l by done.
  set (sorted := merge_sort change_le (changes_after after st)). cbn [pg_changes].
  assert (sorted ≡ₚ changes_after after st) as Hp by apply merge_sort_Permutation.
  case_match eqn:El.
  - apply Nat.ltb_lt in El. rewrite length_take in El. exists sorted. split; [|done].
    by rewrite take_ge by lia.
  - apply Nat.ltb_ge in El. destruct (last (take limit sorted)) as [c|] eqn:Elast.
    2:{ apply last_None in Elast. rewrite Elast in El. simpl in El. lia. }
    assert (c ∈ changes_after after st) as Hc.
    { rewrite <- Hp. apply last_Some_elem_of in Elast.
      rewrite <- (take_drop limit sorted). set_solver. }
    destruct (changes_after_seq _ _ _ Hi Hc) as [Hc1 Hc2].
    assert (changes_after (ch_change_seq c) st ≡ₚ drop limit sorted) as Hrest.
    { rewrite (changes_after_later after) by lia. rewrite <- Hp.
      rewrite <- (take_drop limit sorted) at 1. rewrite filter_sorted_split; [done| |done].
      rewrite take_drop. by apply sorted_changes. }
    destruct (IH (ch_change_seq c)) as (l & -> & Hl); [done| |].
    { rewrite Hrest, length_drop. rewrite <- Hp in Hf. rewrite length_take in El. lia. }
    eexists. split; [done|]. by rewrite Hl, Hrest, take_drop.
Qed.

(** What a step leaves for a reader at the old head. *)
Lemma feed_step_visible st st' id :
  feed_step st st' -> st_pruned_through st' <= st_change_seq st ->
  st_sessions st !! id <> st_sessions st' !! id ->
  exists c, c ∈ changes_after (st_change_seq st) st' /\ ch_session_id c = id
            /\ ch_deleted c = bool_decide (st_sessions st' !! id = None).
Proof.
  intros (_ & _ & H) Hp Hne. destruct (H id) as [[E _]|[(row & E & Hs)|[(E & t & Et & Hs)|[(E & Et & Hd)|[Hin _]]]]].
  - congruence.
  - exists (mkChange id (s_change_seq row) false). split; [|by rewrite E].
    apply elem_of_changes_after. simpl. eauto.
  - exists (mkChange id (t_change_seq t) true). split; [|by rewrite E].
    apply elem_of_changes_after. simpl. eauto.
  - destruct Hd as [Hd|[E0 _]]; [lia|]. congruence.
  - set_solver.
Qed.
