(* ===== verification/SessionEvents.v ===== *)
(** The event log (src/src/state/events.rs, src/src/state/sessions/events.rs):
    unscoped events, and the per-session log numbered 1, 2, 3, ... *)

From S2P Require Import Prelude Store SinkOutbox ChangeFeed.
Open Scope Z_scope.
Open Scope result_scope.

Definition EVENT_SOURCE_SYSTEM : string := "system".
Definition EVENT_SOURCE_ACP : string := "acp".
Definition EVENT_SOURCE_COMMAND : string := "command".
Definition SESSION_UPDATE_EVENT_MESSAGE : string := "ACP session update".

(** Where a forward page starts. *)
Inductive SessionEventCursor := CursorEventId (id : string) | CursorSeq (seq : Z).

Definition in_session (session_id : string) (e : Event) : bool :=
  bool_decide (e_session_id e = Some session_id).

(** [SELECT .. FROM events WHERE session_id = ?1]. *)
Definition session_events (session_id : string) (events : gmap string Event) : list Event :=
  filter (fun e => in_session session_id e = true) (map_to_list events).*2.

(** [COALESCE(MAX(seq), 0)]. *)
Definition session_event_head (session_id : string) (events : gmap string Event) : Z :=
  foldr (fun e acc => Z.max (default 0 (e_seq e)) acc) 0 (session_events session_id events).

Definition next_session_event_seq (session_id : string) (events : gmap string Event)
  : result StackError Z :=
  let head := session_event_head session_id events in
  if i64_max <=? head then Err Sqlite else Ok (head + 1).

Definition with_session_seq (session_id : string) (seq : Z) (e : Event) : Event :=
  mkEvent (e_id e) (e_created_at e) (e_level e) (e_kind e) (e_message e) (e_payload_json e)
    (e_source e) (Some session_id) (Some seq).

Definition publish (m : HubMessage) : M unit :=
  modify (fun st => set_published (st_published st ++ [m]) st).

Section events.
(** SQLite's [json_valid], and whether external logging is on. *)
Context (json_valid : string -> bool) (external : bool).

(** An INSERT into [events]: the primary key and the CHECK on the payload. *)
Definition insert_event (e : Event) : M unit :=
  let* events := gets st_events in
  match events !! e_id e with
  | Some _ => fail Sqlite
  | None =>
      if json_valid (e_payload_json e)
      then modify (fun st => set_events (<[e_id e := e]> (st_events st)) st)
      else fail Sqlite
  end.

(** [seq] exceeds every seq of the session, so the unique [(session_id, seq)]
    index accepts the row. *)
Definition insert_session_event_row (session_id : string) (e : Event) : M Z :=
  let* events := gets st_events in
  match next_session_event_seq session_id events with
  | Err err => fail err
  | Ok seq => insert_event (with_session_seq session_id seq e) ;; ret seq
  end.

Definition insert_unscoped_event_row (e : Event) : M unit :=
  insert_event (mkEvent (e_id e) (e_created_at e) (e_level e) (e_kind e) (e_message e)
                  (e_payload_json e) (e_source e) None None).

Definition publish_session_event (session_id : string) (e : Event) : M unit :=
  publish (HubLog e) ;; publish (HubSession session_id e).

Definition append_session_event_with_source (session_id level kind source message payload_json
    new_id now : string) : M Event :=
  if negb (json_valid payload_json) then fail InvalidEventPayload
  else
    let event := mkEvent new_id now level kind message payload_json source (Some session_id) None in
    let* seq := persist_with_outbox external "events" new_id now
      (let* seq := insert_session_event_row session_id event in
       bump_session_change session_id ;; ret seq) in
    let event := with_session_seq session_id seq event in
    publish_session_event session_id event ;;
    ret event.

Definition append_session_event (session_id level kind message payload_json new_id now : string)
  : M Event :=
  append_session_event_with_source session_id level kind EVENT_SOURCE_SYSTEM message payload_json
    new_id now.

Definition append_event_with_source (level kind source message payload_json new_id now : string)
  : M Event :=
  if negb (json_valid payload_json) then fail InvalidEventPayload
  else
    let event := mkEvent new_id now level kind message payload_json source None None in
    persist_with_outbox external "events" new_id now (insert_unscoped_event_row event) ;;
    publish (HubLog event) ;;
    ret event.

Definition append_event (level kind message payload_json new_id now : string) : M Event :=
  append_event_with_source level kind EVENT_SOURCE_SYSTEM message payload_json new_id now.

(** ** Agent-streamed updates *)

(** [serde_json::from_str::<IgnoredAny>] accepts the payload. *)
Context (json_parses : string -> bool).

Definition session_update_event (session_id kind payload_json new_id now : string)
  : result StackError Event :=
  if json_parses payload_json
  then Ok (mkEvent new_id now "info" kind SESSION_UPDATE_EVENT_MESSAGE payload_json
             EVENT_SOURCE_ACP (Some session_id) None)
  else Err InvalidEventPayload.

(** [COALESCE((SELECT root_session_id ..), ?2)]. *)
Definition tree_root (session_id : string) (subagents : gmap string SubagentRecord) : string :=
  match subagents !! session_id with
  | Some sa => sa_root_session_id sa
  | None => session_id
  end.

Definition prompt_in_flight (p : PromptRecord) : bool :=
  bool_decide (p_status p = "pending" \/ p_status p = "running").

Definition prompt_key (p : PromptRecord) : string * string := (p_created_at p, p_id p).

(** Prompts of a session in flight, oldest first. *)
Definition in_flight_prompts_for_session (session_id : string) (st : Store) : list PromptRecord :=
  order_by prompt_key
    (filter (fun p => p_session_id p = session_id /\ prompt_in_flight p = true)
       (map_to_list (st_prompts st)).*2).

Definition touch_prompt (updated_at : string) (p : PromptRecord) : PromptRecord :=
  mkPrompt (p_id p) (p_session_id p) (p_created_at p) updated_at (p_status p) (p_stop_reason p)
    (p_error_code p) (p_error_message p) (p_prompt_json p) (p_message_id p)
    (p_message_id_acknowledged p) (p_failure_class p) (p_failure_detail_json p)
    (p_agent_message_id p).

(** [UPDATE prompts SET updated_at = ?1 WHERE id = (..) RETURNING id]. *)
Definition touch_oldest_prompt (session_id updated_at : string) : M (option string) :=
  let* st := gets id in
  match in_flight_prompts_for_session (tree_root session_id (st_subagents st)) st with
  | [] => ret None
  | p :: _ =>
      modify (fun st => set_prompts (alter (touch_prompt updated_at) (p_id p) (st_prompts st)) st) ;;
      ret (Some (p_id p))
  end.

Definition insert_session_update_row (session_id : string) (event : Event) : M Z :=
  let* seq := insert_session_event_row session_id event in
  bump_session_change session_id ;;
  let* touched := touch_oldest_prompt session_id (e_created_at event) in
  (if external then
     enqueue "events" (e_id event) (e_created_at event) ;;
     match touched with
     | Some prompt_id => enqueue "prompts" prompt_id (e_created_at event)
     | None => ret tt
     end
   else ret tt) ;;
  ret seq.

Definition append_session_update (session_id kind payload_json new_id now : string) : M Event :=
  match session_update_event session_id kind payload_json new_id now with
  | Err e => fail e
  | Ok event =>
      let* seq := insert_session_update_row session_id event in
      let event := with_session_seq session_id seq event in
      publish_session_event session_id event ;;
      ret event
  end.
End events.

(** ** Reading *)

Definition event_seq_le (a b : Event) : Prop := default 0 (e_seq a) <= default 0 (e_seq b).
#[export] Instance event_seq_le_dec : RelDecision event_seq_le.
Proof. intros a b. unfold event_seq_le. apply _. Defined.
#[export] Instance event_seq_le_total : Total event_seq_le.
Proof. intros a b. unfold event_seq_le. lia. Qed.
#[export] Instance event_seq_le_trans : Transitive event_seq_le.
Proof. intros a b c. unfold event_seq_le. lia. Qed.

Definition session_event_seq (session_id event_id : string) (st : Store) : option Z :=
  match st_events st !! event_id with
  | Some e => if in_session session_id e then e_seq e else None
  | None => None
  end.

(** [seq > ?2], false on NULL. *)
Definition seq_after (after : Z) (e : Event) : bool :=
  match e_seq e with Some seq => after <? seq | None => false end.

Definition query_session_events (session_id : string) (after : option SessionEventCursor)
    (limit : nat) (st : Store) : result StackError (list Event) :=
  (let? after_seq :=
     match after with
     | None => Ok 0
     | Some (CursorEventId event_id) =>
         match session_event_seq session_id event_id st with
         | Some seq => Ok seq
         | None => Err (SessionEventCursorUnknown session_id)
         end
     | Some (CursorSeq seq) =>
         if session_event_head session_id (st_events st) <? seq
         then Err (SessionEventCursorUnknown session_id) else Ok seq
     end in
   Ok (take limit (merge_sort event_seq_le
         (filter (fun e => seq_after after_seq e = true)
            (session_events session_id (st_events st))))))%res.

Definition latest_session_events (session_id : string) (limit : nat) (st : Store) : list Event :=
  take limit (merge_sort (flip event_seq_le) (session_events session_id (st_events st))).

(** ** The log's invariant *)

Definition event_seq (e : Event) : Z := default 0 (e_seq e).

(** Rows sit under their id, carry a seq exactly when they carry a session,
    and each session's seqs are 1, 2, ..., n without gap or repetition. *)
Record log_wf (events : gmap string Event) : Prop := {
  lw_id : forall id e, events !! id = Some e -> e_id e = id;
  lw_scope : forall id e, events !! id = Some e -> (is_Some (e_session_id e) <-> is_Some (e_seq e));
  lw_seq : forall sid, event_seq <$> session_events sid events
                       ≡ₚ seqZ 1 (Z.of_nat (length (session_events sid events)));
}.

Definition log_inv (st : Store) : Prop := log_wf (st_events st).

Lemma elem_of_session_events sid events e :
  log_wf events ->
  e ∈ session_events sid events <-> events !! e_id e = Some e /\ e_session_id e = Some sid.
Proof.
  intros Hwf. unfold session_events, in_session.
  rewrite list_elem_of_filter, bool_decide_eq_true, list_elem_of_fmap. split.
  - intros [Hs ([id e'] & -> & Hin%elem_of_map_to_list)]. split; [|done]. simpl.
    by rewrite (lw_id _ Hwf _ _ Hin).
  - intros [Hl Hs]. split; [done|]. exists (e_id e, e). split; [done|].
    by apply elem_of_map_to_list.
Qed.

Lemma session_events_insert sid events e :
  events !! e_id e = None ->
  session_events sid (<[e_id e := e]> events)
  ≡ₚ (if in_session sid e then [e] else []) ++ session_events sid events.
Proof.
  intros Hn. unfold session_events. rewrite map_to_list_insert by done. rewrite fmap_cons.
  rewrite filter_cons. simpl. by destruct (in_session sid e).
Qed.

(** The head of a well-formed log is its length. *)
Lemma session_event_head_length sid events :
  log_wf events ->
  session_event_head sid events = Z.of_nat (length (session_events sid events)).
Proof.
  intros Hwf. pose proof (lw_seq _ Hwf sid) as Hp. unfold session_event_head.
  set (l := session_events sid events) in *. fold event_seq.
  destruct (foldr_max_ge event_seq l 0) as [H0 Hall]. unfold event_seq in H0, Hall.
  assert (foldr (fun e acc => Z.max (default 0 (e_seq e)) acc) 0 l <= Z.of_nat (length l)) as Hle.
  { apply (foldr_max_le event_seq); [lia|]. intros e He.
    assert (event_seq e ∈ seqZ 1 (Z.of_nat (length l))) as Hin.
    { rewrite <- Hp. by apply list_elem_of_fmap_2. }
    apply elem_of_seqZ in Hin. lia. }
  destruct (length l) as [|n] eqn:En; [simpl in *; lia|].
  assert (Z.of_nat (S n) ∈ event_seq <$> l) as (e & He & Hin)%list_elem_of_fmap.
  { rewrite Hp. apply elem_of_seqZ. lia. }
  specialize (Hall e Hin). unfold event_seq in He. lia.
Qed.

Lemma log_wf_insert events e :
  log_wf events -> events !! e_id e = None ->
  match e_session_id e with
  | Some sid => e_seq e = Some (session_event_head sid events + 1)
  | None => e_seq e = None
  end -> log_wf (<[e_id e := e]> events).
Proof.
  intros Hwf Hn Hseq. split.
  - intros id e' [[<- <-]|[_ Hl]]%lookup_insert_Some; [done|]. by apply (lw_id _ Hwf).
  - intros id e' [[<- <-]|[_ Hl]]%lookup_insert_Some; [|by eapply (lw_scope _ Hwf)].
    destruct (e_session_id e); rewrite Hseq; clear; unfold is_Some; naive_solver.
  - intros sid. rewrite session_events_insert by done. unfold in_session.
    case_bool_decide as E; [|apply (lw_seq _ Hwf)]. rewrite E in Hseq.
    rewrite session_event_head_length in Hseq by done. simpl.
    rewrite (lw_seq _ Hwf sid). unfold event_seq at 1. rewrite Hseq. simpl.
    set (n := length (session_events sid events)).
    change (Z.pos (Pos.of_succ_nat n)) with (Z.of_nat (S n)). rewrite seqZ_S.
    rewrite (Z.add_comm (Z.of_nat n)). by rewrite Permutation_cons_append.
Qed.

(** Removing every event of one session. *)
Definition drop_session_events (sid : string) (events : gmap string Event) : gmap string Event :=
  filter (fun p => in_session sid p.2 = false) events.

Lemma session_events_drop sid sid' events :
  session_events sid' (drop_session_events sid events)
  ≡ₚ if bool_decide (sid' = sid) then [] else session_events sid' events.
Proof.
  unfold session_events, drop_session_events. case_bool_decide as Esid; [subst|].
  - rewrite filter_none; [done|]. intros e ([id e'] & -> & Hin)%list_elem_of_fmap.
    apply elem_of_map_to_list, map_lookup_filter_Some in Hin as [_ Hin]. simpl in *. congruence.
  - induction events as [|id e events Hn IH] using map_ind.
    { by rewrite map_filter_empty. }
    rewrite map_filter_insert. simpl. case_decide as E.
    + rewrite !map_to_list_insert; [|done|by apply map_lookup_filter_None_2; left].
      rewrite !fmap_cons, !filter_cons. simpl. case_decide; by rewrite IH.
    + rewrite map_filter_delete, delete_id by (apply map_lookup_filter_None_2; by left).
      rewrite IH, map_to_list_insert, fmap_cons, filter_cons by done. simpl.
      apply not_false_is_true, bool_decide_eq_true in E. case_decide as E'; [|done].
      apply bool_decide_eq_true in E'. congruence.
Qed.

Lemma log_wf_drop sid events : log_wf events -> log_wf (drop_session_events sid events).
Proof.
  intros Hwf. split.
  - intros id e [Hl _]%map_lookup_filter_Some. by apply (lw_id _ Hwf).
  - intros id e [Hl _]%map_lookup_filter_Some. by apply (lw_scope _ Hwf id).
  - intros sid'. rewrite session_events_drop. case_bool_decide; [done|]. apply (lw_seq _ Hwf).
Qed.

(** ** Operations on the log *)

Lemma insert_event_run json_valid e st u st' :
  insert_event json_valid e st = Ok (u, st') ->
  st_events st !! e_id e = None /\ st' = set_events (<[e_id e := e]> (st_events st)) st.
Proof.
  unfold insert_event, bind, gets. destruct (st_events st !! e_id e); [done|].
  destruct (json_valid _); [|done]. by intros [= <- <-].
Qed.

Lemma insert_session_event_row_run json_valid sid e st seq st' :
  insert_session_event_row json_valid sid e st = Ok (seq, st') ->
  seq = session_event_head sid (st_events st) + 1 /\ seq <= i64_max
  /\ st_events st !! e_id e = None
  /\ st' = set_events (<[e_id e := with_session_seq sid seq e]> (st_events st)) st.
Proof.
  unfold insert_session_event_row. intros (es & st0 & H0 & H)%bind_ok. injection H0 as <- <-.
  unfold next_session_event_seq in H. destruct (Z.leb_spec i64_max (session_event_head sid (st_events st))); [done|].
  apply bind_ok in H as (u & st1 & H1 & H2). injection H2 as <- <-.
  apply insert_event_run in H1 as [Hn ->]. simpl in *. split; [done|]. split; [lia|]. done.
Qed.

Lemma insert_session_event_row_log json_valid sid e :
  preserves log_inv (insert_session_event_row json_valid sid e).
Proof.
  intros st seq st' Hi (-> & _ & Hn & ->)%insert_session_event_row_run. unfold log_inv; simpl.
  change (e_id e) with (e_id (with_session_seq sid (session_event_head sid (st_events st) + 1) e)).
  by apply log_wf_insert.
Qed.

Lemma insert_unscoped_event_row_log json_valid e :
  preserves log_inv (insert_unscoped_event_row json_valid e).
Proof.
  intros st seq st' Hi [Hn ->]%insert_event_run. unfold log_inv; simpl in *.
  match goal with |- log_wf (<[_ := ?e']> _) => change (e_id e) with (e_id e') end.
  by apply log_wf_insert.
Qed.

Lemma insert_event_feed json_valid e : feed_same (insert_event json_valid e).
Proof. intros st u st' [_ ->]%insert_event_run. done. Qed.

Lemma insert_session_event_row_feed json_valid sid e :
  feed_same (insert_session_event_row json_valid sid e).
Proof. intros st u st' (_ & _ & _ & ->)%insert_session_event_row_run. done. Qed.

(** Operations that leave the log alone. *)
Lemma enqueue_preserves (P : Store -> Prop) t i c :
  (forall st o, P st -> P (set_outbox o st)) -> preserves P (enqueue t i c).
Proof. intros H. apply preserves_modify. auto. Qed.

Lemma bump_preserves (P : Store -> Prop) id :
  (forall st ss c p, P st -> P (set_sessions ss (set_counter c p st))) ->
  preserves P (bump_session_change id).
Proof. intros H st u st' HP [[_ ->]|(row & _ & _ & ->)]%bump_session_change_run; auto. Qed.

Lemma bump_log id : preserves log_inv (bump_session_change id).
Proof. by apply bump_preserves. Qed.

Lemma enqueue_log t i c : preserves log_inv (enqueue t i c).
Proof. by apply enqueue_preserves. Qed.

Lemma enqueue_feed t i c : feed_same (enqueue t i c).
Proof. by apply feed_same_modify. Qed.

Lemma enqueue_if_feed external t i c : feed_same (enqueue_if external t i c).
Proof. unfold enqueue_if. destruct external; [apply enqueue_feed | apply feed_same_ret]. Qed.

Lemma enqueue_if_log external t i c : preserves log_inv (enqueue_if external t i c).
Proof. unfold enqueue_if. destruct external; [apply enqueue_log | apply preserves_ret]. Qed.

Lemma publish_feed m : feed_same (publish m).
Proof. by apply feed_same_modify. Qed.

Lemma publish_log m : preserves log_inv (publish m).
Proof. by apply preserves_modify. Qed.

Lemma persist_with_outbox_feed {R} external t i c (inner : M R) :
  feed_ok inner -> feed_ok (persist_with_outbox external t i c inner).
Proof.
  intros Hi. apply feed_ok_bind; [done|]. intros r. apply feed_ok_bind; [|intros _].
  - apply feed_same_ok, enqueue_if_feed.
  - apply feed_same_ok, feed_same_ret.
Qed.

Lemma persist_with_outbox_log {R} external t i c (inner : M R) :
  preserves log_inv inner -> preserves log_inv (persist_with_outbox external t i c inner).
Proof.
  intros Hi. apply preserves_bind; [done|]. intros r. apply preserves_bind; [|intros _].
  - apply enqueue_if_log.
  - apply preserves_ret.
Qed.

Lemma bump_feed id : feed_ok (bump_session_change id).
Proof.
  intros st u st' Hi H. destruct (bump_dirty ∅ id st st u st' Hi (feed_step_refl st) H) as [Hi' Hd].
  split; [done|]. eapply feed_dirty_empty; [|done]. set_solver.
Qed.

#[export] Hint Resolve insert_session_event_row_log insert_unscoped_event_row_log bump_log enqueue_log
  enqueue_if_log publish_log persist_with_outbox_log preserves_ret preserves_fail : acps.
#[export] Hint Resolve insert_event_feed insert_session_event_row_feed enqueue_feed enqueue_if_feed
  publish_feed : acps.

(** Walk an operation, closing the statements the database knows. *)
Ltac walk_log :=
  repeat first
    [ solve [auto with acps] | apply preserves_bind; [|intros ?] | apply preserves_gets
    | apply preserves_for_each; intros ? | apply persist_with_outbox_log
    | apply preserves_modify; intros ? ?; simpl; assumption | case_match ].

Ltac walk_feed :=
  repeat first
    [ solve [auto using feed_same_ok with acps] | apply bump_feed
    | apply persist_with_outbox_feed | apply feed_ok_bind; [|intros ?]
    | apply feed_ok_for_each; intros ?
    | apply feed_same_ok, feed_same_gets
    | apply feed_same_ok, feed_same_modify; done | case_match ].

Lemma touch_oldest_prompt_log sid t : preserves log_inv (touch_oldest_prompt sid t).
Proof. unfold touch_oldest_prompt. walk_log. Qed.

Lemma touch_oldest_prompt_feed sid t : feed_same (touch_oldest_prompt sid t).
Proof.
  unfold touch_oldest_prompt. apply feed_same_bind; [apply feed_same_gets|intros st].
  case_match; [apply feed_same_ret|]. apply feed_same_bind; [by apply feed_same_modify|].
  intros _. apply feed_same_ret.
Qed.
#[export] Hint Resolve touch_oldest_prompt_log touch_oldest_prompt_feed : acps.

Lemma insert_session_update_row_log json_valid external sid e :
  preserves log_inv (insert_session_update_row json_valid external sid e).
Proof. unfold insert_session_update_row. walk_log. Qed.

Lemma insert_session_update_row_feed json_valid external sid e :
  feed_ok (insert_session_update_row json_valid external sid e).
Proof. unfold insert_session_update_row. walk_feed. Qed.
#[export] Hint Resolve insert_session_update_row_log : acps.

Lemma append_session_event_log json_valid external sid level kind source message payload id now :
  preserves log_inv (append_session_event_with_source json_valid external sid level kind source
                       message payload id now).
Proof. unfold append_session_event_with_source, publish_session_event. walk_log. Qed.

Lemma append_session_event_feed json_valid external sid level kind source message payload id now :
  feed_ok (append_session_event_with_source json_valid external sid level kind source message
             payload id now).
Proof. unfold append_session_event_with_source, publish_session_event. walk_feed. Qed.

Lemma append_event_log json_valid external level kind source message payload id now :
  preserves log_inv (append_event_with_source json_valid external level kind source message payload id now).
Proof. unfold append_event_with_source. walk_log. Qed.

Lemma append_event_feed json_valid external level kind source message payload id now :
  feed_ok (append_event_with_source json_valid external level kind source message payload id now).
Proof. unfold append_event_with_source. walk_feed. Qed.

Lemma append_session_update_log json_valid external parses sid kind payload id now :
  preserves log_inv (append_session_update json_valid external parses sid kind payload id now).
Proof. unfold append_session_update, publish_session_event. walk_log. Qed.

Lemma append_session_update_feed json_valid external parses sid kind payload id now :
  feed_ok (append_session_update json_valid external parses sid kind payload id now).
Proof.
  unfold append_session_update, publish_session_event. case_match; [|walk_feed].
  apply feed_ok_bind; [apply insert_session_update_row_feed|intros ?]. walk_feed.
Qed.

(** ** Pages *)

Lemma filter_after_seqZ a n :
  0 <= a -> filter (fun k => a < k) (seqZ 1 n) = seqZ (a + 1) (n - a).
Proof.
  intros Ha. destruct (Z.le_gt_cases n a) as [Hn|Hn].
  - rewrite (seqZ_nil (a + 1)) by lia. apply filter_none. intros k Hk%elem_of_seqZ. lia.
  - replace n with (a + (n - a)) at 1 by lia. rewrite seqZ_app by lia.
    rewrite filter_app, filter_none, filter_keep; [by rewrite (Z.add_comm 1)| |].
    + intros k Hk%elem_of_seqZ. lia.
    + intros k Hk%elem_of_seqZ. lia.
Qed.

Lemma sorted_fmap_seq l : Sorted event_seq_le l -> Sorted Z.le (event_seq <$> l).
Proof.
  induction 1 as [|e l Hs IH Hd]; simpl; [constructor|]. constructor; [done|].
  destruct Hd; simpl; constructor; done.
Qed.

Lemma Sorted_seqZ m n : Sorted Z.le (seqZ m n).
Proof.
  destruct (Z.le_gt_cases n 0) as [Hn|Hn]; [rewrite seqZ_nil by lia; constructor|].
  replace n with (Z.of_nat (Z.to_nat n)) by lia. generalize (Z.to_nat n) as k. clear.
  intros k. revert m. induction k as [|k IH]; intros m; [constructor|].
  rewrite seqZ_cons by lia. rewrite <- Nat2Z.inj_pred by lia. constructor; [apply IH|].
  destruct k; [constructor|]. rewrite seqZ_cons by lia. constructor. lia.
Qed.

Lemma filter_seq_fmap a l :
  Forall (fun e => is_Some (e_seq e)) l ->
  event_seq <$> filter (fun e => seq_after a e = true) l = filter (fun k => a < k) (event_seq <$> l).
Proof.
  induction 1 as [|e l [k Hk] _ IH]; [done|]. rewrite fmap_cons, !filter_cons.
  assert (seq_after a e = true <-> a < event_seq e) as Heq.
  { unfold seq_after, event_seq. rewrite Hk. simpl. apply Z.ltb_lt. }
  destruct (decide (seq_after a e = true)) as [H1|H1], (decide (a < event_seq e)) as [H2|H2];
    [by rewrite fmap_cons, IH | tauto | tauto | done].
Qed.

Lemma session_events_scoped sid events :
  log_wf events -> Forall (fun e => is_Some (e_seq e)) (session_events sid events).
Proof.
  intros Hwf. apply Forall_forall. intros e [Hl Hs]%elem_of_session_events; [|done].
  apply (lw_scope _ Hwf (e_id e) e Hl). rewrite Hs. eauto.
Qed.

Lemma page_seqs sid a events :
  log_wf events -> 0 <= a ->
  event_seq <$> merge_sort event_seq_le
     (filter (fun e => seq_after a e = true) (session_events sid events))
  = seqZ (a + 1) (session_event_head sid events - a).
Proof.
  intros Hwf Ha. apply (Sorted_unique Z.le).
  - apply sorted_fmap_seq, Sorted_merge_sort, _.
  - apply Sorted_seqZ.
  - rewrite merge_sort_Permutation, filter_seq_fmap by by apply session_events_scoped.
    rewrite (lw_seq _ Hwf sid), filter_after_seqZ by done.
    by rewrite session_event_head_length.
Qed.

Lemma take_seqZ k m n : 0 <= n -> take k (seqZ m n) = seqZ m (Z.of_nat k `min` n).
Proof.
  intros Hn. destruct (Z.le_gt_cases n (Z.of_nat k)) as [Hk|Hk].
  - rewrite Z.min_r by lia. apply take_ge. rewrite length_seqZ. lia.
  - rewrite Z.min_l by lia. replace n with (Z.of_nat k + (n - Z.of_nat k)) by lia.
    rewrite seqZ_app by lia. rewrite take_app_le by (rewrite length_seqZ; lia).
    apply take_ge. rewrite length_seqZ. lia.
Qed.

(** A page of a session's log has no gaps: reading after position [a]
    answers the events numbered [a + 1, a + 2, ...], all of the session, up to
    the limit or the head; a position past the head is an error and not an
    empty page. *)
Theorem session_page_contiguous sid a limit st :
  log_inv st -> 0 <= a ->
  let head := session_event_head sid (st_events st) in
  match query_session_events sid (Some (CursorSeq a)) limit st with
  | Err e => head < a /\ e = SessionEventCursorUnknown sid
  | Ok page => a <= head
               /\ event_seq <$> page = seqZ (a + 1) (Z.of_nat limit `min` (head - a))
               /\ Forall (fun e => e_session_id e = Some sid) page
  end.
Proof.
  intros Hwf Ha head. unfold query_session_events. fold head.
  destruct (Z.ltb_spec head a); simpl; [done|]. split; [done|]. split.
  - rewrite fmap_take, page_seqs by done. fold head. apply take_seqZ. lia.
  - apply Forall_forall. intros e He. apply elem_of_take in He as (i & He & _).
    apply list_elem_of_lookup_2 in He. rewrite merge_sort_Permutation in He.
    apply list_elem_of_filter in He as [_ He]. by apply elem_of_session_events in He as [_ ?].
Qed.

(** A log with two events of session [s], the running example. *)
Definition sample_event (n : Z) (id : string) : Event :=
  mkEvent id "t" "info" "k" "m" "{}" "acp" (Some "s") (Some n).
Definition sample_log : Store :=
  set_events (<["e2" := sample_event 2 "e2"]> (<["e1" := sample_event 1 "e1"]> ∅)) empty_store.

Lemma log_wf_empty : log_wf ∅.
Proof. split; [done..|]. intros sid. done. Qed.

Lemma sample_log_inv : log_inv sample_log.
Proof.
  apply (log_wf_insert _ (sample_event 2 "e2")); [|reflexivity|vm_compute; reflexivity].
  apply (log_wf_insert _ (sample_event 1 "e1")); [apply log_wf_empty|reflexivity|].
  vm_compute. reflexivity.
Qed.

Lemma session_page_contiguous_witness :
  log_inv sample_log
  /\ match query_session_events "s" (Some (CursorSeq 1)) 10 sample_log with
     | Err e => 2 < 1 /\ e = SessionEventCursorUnknown "s"
     | Ok page => 1 <= 2 /\ event_seq <$> page = seqZ (1 + 1) (Z.of_nat 10 `min` (2 - 1))
                  /\ Forall (fun e => e_session_id e = Some "s") page
     end.
Proof.
  split; [exact sample_log_inv|].
  apply (session_page_contiguous "s" 1 10 sample_log sample_log_inv). discriminate.
Defined.
