(* ===== verification/PermissionStore.v ===== *)
(** The permission tables (src/src/state/permissions.rs): requests that wait for
    a decision, and the decision rows that make up the audit trail. *)

From S2P Require Import Prelude Store SinkOutbox ChangeFeed SessionEvents.
Open Scope Z_scope.
Open Scope result_scope.

Inductive PermissionStatus := PsPending | PsApproved | PsDenied | PsExpired | PsCanceled.

#[export] Instance PermissionStatus_eq_dec : EqDecision PermissionStatus.
Proof. solve_decision. Defined.

Definition status_str (s : PermissionStatus) : string :=
  match s with
  | PsPending => "pending"
  | PsApproved => "approved"
  | PsDenied => "denied"
  | PsExpired => "expired"
  | PsCanceled => "cancelled"
  end.

Definition is_terminal (s : PermissionStatus) : bool :=
  match s with PsPending => false | _ => true end.

(** An unrecognized value reads as pending. *)
Definition from_wire (value : string) : PermissionStatus :=
  if bool_decide (value = "approved") then PsApproved
  else if bool_decide (value = "denied") then PsDenied
  else if bool_decide (value = "expired") then PsExpired
  else if bool_decide (value = "cancelled") then PsCanceled
  else PsPending.

Record NewPermissionRequest := mkNewPermission {
  np_source : string;
  np_requester : option string;
  np_subject_id : option string;
  np_detail_json : string;
  np_expires_at : option string;
}.

Definition PERMISSION_SOURCE_ACP : string := "acp".

Definition bump_acp_permission_session (request_id : string) : M unit :=
  let* requests := gets st_permissions in
  match requests !! request_id with
  | Some r =>
      if bool_decide (pr_source r = PERMISSION_SOURCE_ACP) then
        match pr_subject_id r with
        | Some session_id => bump_session_change session_id
        | None => ret tt
        end
      else ret tt
  | None => ret tt
  end.

Definition with_permission_status (status updated_at : string) (r : PermissionRequestRecord)
  : PermissionRequestRecord :=
  mkPermission (pr_id r) (pr_created_at r) updated_at status (pr_source r) (pr_requester r)
    (pr_subject_id r) (pr_detail_json r) (pr_expires_at r).

(** [UPDATE permission_requests SET status, updated_at WHERE id]: the number of
    rows affected. *)
Definition update_permission (id status now : string) : M nat :=
  let* requests := gets st_permissions in
  match requests !! id with
  | None => ret 0%nat
  | Some r =>
      modify (fun st => set_permissions
        (<[id := with_permission_status status now r]> (st_permissions st)) st) ;;
      ret 1%nat
  end.

(** An INSERT into [permission_decisions]: primary key and foreign key. *)
Definition insert_decision (d : PermissionDecisionRecord) : M unit :=
  let* st := gets id in
  match st_decisions st !! pd_id d, st_permissions st !! pd_request_id d with
  | None, Some _ =>
      modify (fun st => set_decisions (<[pd_id d := d]> (st_decisions st)) st)
  | _, _ => fail Sqlite
  end.

Section permissions.
Context (json_valid : string -> bool) (external : bool).

(** An INSERT into [permission_requests]: primary key and CHECK. *)
Definition insert_request (r : PermissionRequestRecord) : M unit :=
  let* requests := gets st_permissions in
  match requests !! pr_id r with
  | Some _ => fail Sqlite
  | None =>
      if json_valid (pr_detail_json r)
      then modify (fun st => set_permissions (<[pr_id r := r]> (st_permissions st)) st)
      else fail Sqlite
  end.

Definition append_permission_request (input : NewPermissionRequest) (new_id now : string)
  : M PermissionRequestRecord :=
  if negb (json_valid (np_detail_json input)) then fail InvalidEventPayload
  else
    let record := mkPermission new_id now now (status_str PsPending) (np_source input)
      (np_requester input) (np_subject_id input) (np_detail_json input) (np_expires_at input) in
    persist_with_outbox external "permission_requests" new_id now
      (insert_request record ;; bump_acp_permission_session new_id) ;;
    ret record.

Definition append_approved_permission_request (input : NewPermissionRequest)
    (deciding_principal reason : option string) (new_id decision_id now : string)
  : M (PermissionRequestRecord * PermissionDecisionRecord) :=
  if negb (json_valid (np_detail_json input)) then fail InvalidEventPayload
  else
    let record := mkPermission new_id now now (status_str PsApproved) (np_source input)
      (np_requester input) (np_subject_id input) (np_detail_json input) None in
    let decision := mkDecision decision_id new_id now (status_str PsApproved)
      deciding_principal reason in
    insert_request record ;;
    insert_decision decision ;;
    bump_acp_permission_session new_id ;;
    enqueue_if external "permission_requests" new_id now ;;
    enqueue_if external "permission_decisions" decision_id now ;;
    ret (record, decision).

Definition get_permission_request (id : string) (st : Store) : option PermissionRequestRecord :=
  st_permissions st !! id.

Definition transition_permission_status (id : string) (new_status : PermissionStatus) (now : string)
  : M PermissionStatus :=
  let* requests := gets st_permissions in
  match requests !! id with
  | None => fail (PermissionNotFound id)
  | Some r =>
      let current_status := from_wire (pr_status r) in
      if is_terminal current_status then
        fail (InvalidPermissionTransition id (status_str current_status) (status_str new_status))
      else
        persist_with_outbox external "permission_requests" id now
          (let* affected := update_permission id (status_str new_status) now in
           if (affected =? 0)%nat then fail (PermissionNotFound id)
           else bump_acp_permission_session id) ;;
        ret current_status
  end.

Definition decide_permission (id : string) (new_status : PermissionStatus)
    (deciding_principal reason : option string) (decision_id now decided_at : string)
  : M PermissionDecisionRecord :=
  let* requests := gets st_permissions in
  match requests !! id with
  | None => fail (PermissionNotFound id)
  | Some r =>
      let current_status := from_wire (pr_status r) in
      if is_terminal current_status then
        fail (InvalidPermissionTransition id (status_str current_status) (status_str new_status))
      else
        let* affected := update_permission id (status_str new_status) now in
        if (affected =? 0)%nat then fail (PermissionNotFound id)
        else
          bump_acp_permission_session id ;;
          (let decision := mkDecision decision_id id decided_at (status_str new_status)
             deciding_principal reason in
           insert_decision decision ;;
           enqueue_if external "permission_requests" id now ;;
           enqueue_if external "permission_decisions" decision_id decided_at ;;
           ret decision)
  end.

Definition record_permission_decision (request_id : string) (decision : PermissionStatus)
    (deciding_principal reason : option string) (decision_id now : string)
  : M PermissionDecisionRecord :=
  let record := mkDecision decision_id request_id now (status_str decision)
    deciding_principal reason in
  persist_with_outbox external "permission_decisions" decision_id now (insert_decision record) ;;
  ret record.

(** ** Queries *)

Definition permission_key (r : PermissionRequestRecord) : string * string :=
  (pr_created_at r, pr_id r).

Definition pending_where (keep : PermissionRequestRecord -> bool) (st : Store)
  : list PermissionRequestRecord :=
  filter (fun r => pr_status r = "pending" /\ keep r = true) (map_to_list (st_permissions st)).*2.

Definition query_pending_permissions (limit : nat) (st : Store) : list PermissionRequestRecord :=
  take limit (order_by permission_key (pending_where (fun _ => true) st)).

Definition query_pending_permissions_for_subject (source subject_id : string) (limit : nat)
    (st : Store) : list PermissionRequestRecord :=
  take limit (order_by permission_key
    (pending_where (fun r => bool_decide (pr_source r = source /\ pr_subject_id r = Some subject_id)) st)).

(** ** Startup reconciliation *)

(** Settle one stranded request: [next_permission_decision_id()] is
    [decision_id]. *)
Definition settle_orphan (bump : bool) (status reason : string) (now decision_id id : string)
  : M unit :=
  update_permission id status now ;;
  (if bump then bump_acp_permission_session id else ret tt) ;;
  insert_decision (mkDecision decision_id id now status (Some "system") (Some reason)) ;;
  enqueue_if external "permission_requests" id now ;;
  enqueue_if external "permission_decisions" decision_id now.

(** Settle the listed requests, drawing decision ids from [ids] from the
    [k]th on. *)
Fixpoint settle_orphans (bump : bool) (status reason now : string) (ids : nat -> string)
    (k : nat) (requests : list string) : M unit :=
  match requests with
  | [] => ret tt
  | id :: rest =>
      settle_orphan bump status reason now (ids k) id ;;
      settle_orphans bump status reason now ids (S k) rest
  end.

Definition pending_ids (source : string) (st : Store) : list string :=
  (filter (fun p => pr_status p.2 = "pending" /\ pr_source p.2 = source)
     (map_to_list (st_permissions st))).*1.

Definition reconcile_orphaned_permissions (ids : nat -> string) (now : string) : M (nat * nat) :=
  let* acp_ids := gets (pending_ids "acp") in
  settle_orphans true "cancelled" "daemon-restart" now ids 0 acp_ids ;;
  let* cmd_ids := gets (pending_ids "command") in
  settle_orphans false "expired" "daemon-restart" now ids (length acp_ids) cmd_ids ;;
  ret (length acp_ids, length cmd_ids).
End permissions.

(** ** The audit trail *)

Definition pending_row (r : PermissionRequestRecord) : Prop :=
  is_terminal (from_wire (pr_status r)) = false.

(** Every terminal request has exactly one decision row, which records its
    status, and no pending request has one. *)
Record audit_wf (requests : gmap string PermissionRequestRecord)
    (decisions : gmap string PermissionDecisionRecord) : Prop := {
  au_request : forall id r, requests !! id = Some r ->
    pr_id r = id /\ exists s, pr_status r = status_str s;
  au_decision : forall did d, decisions !! did = Some d ->
    pd_id d = did /\ exists r, requests !! pd_request_id d = Some r
                               /\ pr_status r = pd_decision d /\ ~ pending_row r;
  au_decided : forall id r, requests !! id = Some r -> ~ pending_row r ->
    exists did d, decisions !! did = Some d /\ pd_request_id d = id;
  au_once : forall did1 did2 d1 d2, decisions !! did1 = Some d1 -> decisions !! did2 = Some d2 ->
    pd_request_id d1 = pd_request_id d2 -> did1 = did2;
}.

Definition audit_inv (st : Store) : Prop := audit_wf (st_permissions st) (st_decisions st).

Lemma from_wire_str s : from_wire (status_str s) = s.
Proof. by destruct s. Qed.

Lemma audit_insert_pending requests decisions r :
  audit_wf requests decisions -> requests !! pr_id r = None -> pr_status r = status_str PsPending ->
  audit_wf (<[pr_id r := r]> requests) decisions.
Proof.
  intros [H1 H2 H3 H4] Hn Hs.
  assert (pending_row r) as Hp by (unfold pending_row; by rewrite Hs). split; [| | |done].
  - intros id r' [[<- <-]|[_ Hl]]%lookup_insert_Some; [eauto|]. by apply H1.
  - intros did d Hd. destruct (H2 did d Hd) as (Hid & r' & Hr & Hst). split; [done|].
    exists r'. split; [|done]. rewrite lookup_insert_ne; [done|]. congruence.
  - intros id r' [[<- <-]|[_ Hl]]%lookup_insert_Some Ht; [done|]. eauto.
Qed.

(** Settling a pending request together with its decision row. *)
Lemma audit_settle requests decisions id r s now did at' principal reason :
  audit_wf requests decisions -> requests !! id = Some r -> pending_row r ->
  is_terminal s = true -> decisions !! did = None ->
  audit_wf (<[id := with_permission_status (status_str s) now r]> requests)
    (<[did := mkDecision did id at' (status_str s) principal reason]> decisions).
Proof.
  intros [H1 H2 H3 H4] Hr Hp Ht Hd.
  assert (forall did' d, decisions !! did' = Some d -> pd_request_id d <> id) as Hno.
  { intros did' d Hd' <-. destruct (H2 _ _ Hd') as (_ & r' & Hr' & _ & Hn). simplify_eq. done. }
  assert (~ pending_row (with_permission_status (status_str s) now r)) as Hterm.
  { unfold pending_row. simpl. rewrite from_wire_str, Ht. done. }
  split.
  - intros id' r' [[<- <-]|[_ Hl]]%lookup_insert_Some; [|by apply H1].
    split; [apply (H1 id r Hr)|by eexists].
  - intros did' d [[<- <-]|[_ Hl]]%lookup_insert_Some; simpl.
    + split; [done|]. eexists. rewrite lookup_insert_eq. done.
    + destruct (H2 _ _ Hl) as (Hid & r' & Hr' & Hst). split; [done|]. exists r'.
      split; [|done]. rewrite lookup_insert_ne; [done|]. intros E. by apply (Hno did' d Hl).
  - intros id' r' [[<- <-]|[Hne Hl]]%lookup_insert_Some Hn.
    + exists did. eexists. by rewrite lookup_insert_eq.
    + destruct (H3 _ _ Hl Hn) as (did' & d & Hd' & <-). exists did', d. split; [|done].
      rewrite lookup_insert_ne; [done|]. congruence.
  - intros did1 did2 d1 d2 [[<- <-]|[N1 L1]]%lookup_insert_Some [[<- <-]|[N2 L2]]%lookup_insert_Some E;
      simpl in E; [done| | |by eauto].
    + by destruct (Hno _ _ L2).
    + by destruct (Hno _ _ L1).
Qed.

Lemma audit_insert_approved requests decisions r s did at' principal reason :
  audit_wf requests decisions -> requests !! pr_id r = None -> pr_status r = status_str s ->
  is_terminal s = true -> decisions !! did = None ->
  audit_wf (<[pr_id r := r]> requests)
    (<[did := mkDecision did (pr_id r) at' (status_str s) principal reason]> decisions).
Proof.
  intros Hwf Hn Hs Ht Hd.
  set (r0 := with_permission_status (status_str PsPending) (pr_updated_at r) r).
  pose proof (audit_insert_pending requests decisions r0 Hwf Hn eq_refl) as Hwf0.
  pose proof (audit_settle _ _ (pr_id r) r0 s (pr_updated_at r) did at' principal reason Hwf0
                (lookup_insert_eq _ _ _) eq_refl Ht Hd) as H.
  change (pr_id r0) with (pr_id r) in H. rewrite insert_insert_eq in H.
  replace (with_permission_status (status_str s) (pr_updated_at r) r0) with r in H; [done|].
  destruct r; simpl in *; by subst.
Qed.

(** ** Operations and the tables *)

(** What the audit trail reads. *)
Definition audit_same {A} (m : M A) : Prop :=
  forall st a st', m st = Ok (a, st') ->
  st_permissions st' = st_permissions st /\ st_decisions st' = st_decisions st.

Lemma audit_same_ret {A} (a : A) : audit_same (ret a).
Proof. by intros st b st' [= <- <-]. Qed.

Lemma audit_same_bind {A B} (m : M A) (f : A -> M B) :
  audit_same m -> (forall a, audit_same (f a)) -> audit_same (bind m f).
Proof.
  intros Hm Hf st b st' (a & st1 & H1 & H2)%bind_ok.
  destruct (Hm _ _ _ H1) as [E1 E2], (Hf a _ _ _ H2) as [F1 F2]. split; congruence.
Qed.

Lemma bump_audit id : audit_same (bump_session_change id).
Proof. intros st u st' [[_ ->]|(row & _ & _ & ->)]%bump_session_change_run; done. Qed.

Lemma bump_acp_audit id : audit_same (bump_acp_permission_session id).
Proof.
  unfold bump_acp_permission_session. apply audit_same_bind; [by intros st a st' [= <- <-]|].
  intros rs. repeat case_match; first [apply audit_same_ret | apply bump_audit].
Qed.

Lemma enqueue_if_audit external t i c : audit_same (enqueue_if external t i c).
Proof. unfold enqueue_if. destruct external; [intros st u st' [= <- <-]; done|apply audit_same_ret]. Qed.

Lemma update_permission_run id status now st n st' :
  update_permission id status now st = Ok (n, st') ->
  st_permissions st !! id = None /\ st' = st /\ n = 0%nat
  \/ exists r, st_permissions st !! id = Some r /\ n = 1%nat
     /\ st' = set_permissions (<[id := with_permission_status status now r]> (st_permissions st)) st.
Proof.
  unfold update_permission, bind, gets. destruct (st_permissions st !! id) as [r|].
  - intros [= <- <-]. right. by exists r.
  - intros [= <- <-]. by left.
Qed.

Lemma insert_decision_run d st u st' :
  insert_decision d st = Ok (u, st') ->
  st_decisions st !! pd_id d = None /\ is_Some (st_permissions st !! pd_request_id d)
  /\ st' = set_decisions (<[pd_id d := d]> (st_decisions st)) st.
Proof.
  unfold insert_decision, bind, gets, id. destruct (st_decisions st !! pd_id d); [done|].
  destruct (st_permissions st !! pd_request_id d); [|done]. intros [= <- <-]. by eauto.
Qed.

Lemma insert_request_run json_valid r st u st' :
  insert_request json_valid r st = Ok (u, st') ->
  st_permissions st !! pr_id r = None
  /\ st' = set_permissions (<[pr_id r := r]> (st_permissions st)) st.
Proof.
  unfold insert_request, bind, gets. destruct (st_permissions st !! pr_id r); [done|].
  destruct (json_valid _); [|done]. by intros [= <- <-].
Qed.

(** ** Each operation keeps the audit trail *)

Lemma append_permission_request_run json_valid external input id now st r st' :
  append_permission_request json_valid external input id now st = Ok (r, st') ->
  st_permissions st !! id = None
  /\ r = mkPermission id now now "pending" (np_source input) (np_requester input)
           (np_subject_id input) (np_detail_json input) (np_expires_at input)
  /\ st_permissions st' = <[id := r]> (st_permissions st) /\ st_decisions st' = st_decisions st.
Proof.
  unfold append_permission_request. destruct (json_valid _); [|done]. simpl.
  intros (u & st1 & H & H')%bind_ok. injection H' as <- <-.
  apply bind_ok in H as (u1 & st2 & H & He). apply bind_ok in H as (u2 & st3 & H & Hb).
  apply insert_request_run in H as [Hn ->]. apply bump_acp_audit in Hb as [E1 E2].
  apply bind_ok in He as (u3 & st4 & He & Hr). injection Hr as _ <-.
  apply enqueue_if_audit in He as [F1 F2]. simpl in *. rewrite F1, F2, E1, E2. done.
Qed.

Lemma append_approved_run json_valid external input principal reason id did now st rd st' :
  append_approved_permission_request json_valid external input principal reason id did now st
  = Ok (rd, st') ->
  st_permissions st !! id = None /\ st_decisions st !! did = None
  /\ rd.1 = mkPermission id now now "approved" (np_source input) (np_requester input)
              (np_subject_id input) (np_detail_json input) None
  /\ rd.2 = mkDecision did id now "approved" principal reason
  /\ st_permissions st' = <[id := rd.1]> (st_permissions st)
  /\ st_decisions st' = <[did := rd.2]> (st_decisions st).
Proof.
  unfold append_approved_permission_request. destruct (json_valid _); [|done]. simpl.
  intros (u1 & st1 & H1 & H)%bind_ok. apply insert_request_run in H1 as [Hn ->].
  apply bind_ok in H as (u2 & st2 & H2 & H). apply insert_decision_run in H2 as (Hd & _ & ->).
  apply bind_ok in H as (u3 & st3 & H3 & H). apply bump_acp_audit in H3 as [E1 E2].
  apply bind_ok in H as (u4 & st4 & H4 & H). apply enqueue_if_audit in H4 as [F1 F2].
  apply bind_ok in H as (u5 & st5 & H5 & H). apply enqueue_if_audit in H5 as [G1 G2].
  injection H as <- <-. simpl in *. rewrite G1, G2, F1, F2, E1, E2. done.
Qed.

Lemma decide_permission_run external id s principal reason did now at' st d st' :
  decide_permission external id s principal reason did now at' st = Ok (d, st') ->
  exists r, st_permissions st !! id = Some r /\ pending_row r /\ st_decisions st !! did = None
  /\ d = mkDecision did id at' (status_str s) principal reason
  /\ st_permissions st' = <[id := with_permission_status (status_str s) now r]> (st_permissions st)
  /\ st_decisions st' = <[did := d]> (st_decisions st).
Proof.
  unfold decide_permission. intros (rs & st0 & H0 & H)%bind_ok. injection H0 as <- <-.
  destruct (st_permissions st !! id) as [r|] eqn:Er; [|done].
  destruct (is_terminal _) eqn:Et; [done|]. exists r. split; [done|]. split; [done|].
  apply bind_ok in H as (n & st1 & H1 & H).
  apply update_permission_run in H1 as [(? & _ & _)|(r' & Hr' & -> & ->)]; [congruence|].
  rewrite Er in Hr'. injection Hr' as <-. simpl in H.
  apply bind_ok in H as (u2 & st2 & H2 & H). apply bump_acp_audit in H2 as [E1 E2].
  apply bind_ok in H as (u3 & st3 & H3 & H). apply insert_decision_run in H3 as (Hd & _ & ->).
  apply bind_ok in H as (u4 & st4 & H4 & H). apply enqueue_if_audit in H4 as [F1 F2].
  apply bind_ok in H as (u5 & st5 & H5 & H). apply enqueue_if_audit in H5 as [G1 G2].
  injection H as <- <-. simpl in *. rewrite E2 in Hd. rewrite G1, G2, F1, F2, E1, E2. done.
Qed.

Lemma settle_orphan_run external bump status reason now did id st u st' :
  settle_orphan external bump status reason now did id st = Ok (u, st') ->
  exists r, st_permissions st !! id = Some r /\ st_decisions st !! did = None
  /\ st_permissions st' = <[id := with_permission_status status now r]> (st_permissions st)
  /\ st_decisions st' = <[did := mkDecision did id now status (Some "system") (Some reason)]>
                          (st_decisions st).
Proof.
  unfold settle_orphan. intros (n & st1 & H1 & H)%bind_ok.
  apply bind_ok in H as (u2 & st2 & H2 & H).
  assert (st_permissions st2 = st_permissions st1 /\ st_decisions st2 = st_decisions st1) as [E1 E2].
  { destruct bump; [by eapply bump_acp_audit|by eapply audit_same_ret]. }
  apply bind_ok in H as (u3 & st3 & H3 & H). apply insert_decision_run in H3 as (Hd & [r0 Hf] & ->).
  apply bind_ok in H as (u4 & st4 & H4 & H5). apply enqueue_if_audit in H4 as [F1 F2].
  apply enqueue_if_audit in H5 as [G1 G2]. simpl in *.
  rewrite E2 in Hd. rewrite E1 in Hf.
  apply update_permission_run in H1 as [(Hn & -> & _)|(r & Hr & _ & ->)]; [congruence|].
  exists r. simpl in *. rewrite G1, G2, F1, F2, E1, E2. done.
Qed.

(** Settling a list of distinct pending requests. *)
Lemma settle_orphans_run external bump s reason now ids k requests st u st' :
  settle_orphans external bump (status_str s) reason now ids k requests st = Ok (u, st') ->
  is_terminal s = true -> NoDup requests -> audit_inv st ->
  (forall id, id ∈ requests -> exists r, st_permissions st !! id = Some r /\ pending_row r) ->
  audit_inv st' /\ forall id, st_permissions st' !! id
    = (if bool_decide (id ∈ requests) then with_permission_status (status_str s) now
       else fun r => r) <$> st_permissions st !! id.
Proof.
  intros H Ht Hn. revert k st H. induction Hn as [|id rest Hid _ IH]; intros k st H Hi Hp; simpl in H.
  - injection H as _ <-. split; [done|]. intros id.
    rewrite bool_decide_eq_false_2 by apply not_elem_of_nil. by destruct (st_permissions st !! id).
  - apply bind_ok in H as (u1 & st1 & H1 & H2).
    apply settle_orphan_run in H1 as (r & Hr & Hd & E1 & E2).
    destruct (Hp id ltac:(set_solver)) as (r' & Hr' & Hpend). simplify_eq.
    assert (audit_inv st1) as Hi1.
    { unfold audit_inv. rewrite E1, E2. by apply audit_settle. }
    destruct (IH (S k) st1 H2 Hi1) as [Hi' Hl].
    { intros id' Hid'. rewrite E1, lookup_insert_ne by set_solver. apply Hp. set_solver. }
    split; [done|]. intros id'. rewrite Hl, E1. destruct (decide (id' = id)) as [->|Hne].
    + rewrite (bool_decide_eq_false_2 (id ∈ rest)), bool_decide_eq_true_2 by set_solver.
      by rewrite lookup_insert_eq, Hr.
    + rewrite lookup_insert_ne by done. f_equal.
      destruct (decide (id' ∈ rest)); [rewrite !bool_decide_eq_true_2 by set_solver; done|].
      by rewrite !bool_decide_eq_false_2 by set_solver.
Qed.

Lemma elem_of_pending_ids source st id :
  id ∈ pending_ids source st
  <-> exists r, st_permissions st !! id = Some r /\ pr_status r = "pending" /\ pr_source r = source.
Proof.
  unfold pending_ids. rewrite list_elem_of_fmap. split.
  - intros ([i r] & -> & [[? ?] Hin%elem_of_map_to_list]%list_elem_of_filter). eauto.
  - intros (r & Hl & Hs & Hsrc). exists (id, r). split; [done|].
    apply list_elem_of_filter. split; [done|]. by apply elem_of_map_to_list.
Qed.

Lemma pending_ids_nodup source st : NoDup (pending_ids source st).
Proof. apply NoDup_fst_filter, NoDup_fst_map_to_list. Qed.

Lemma pending_status_row r : pr_status r = "pending" -> pending_row r.
Proof. unfold pending_row. by intros ->. Qed.

Lemma reconcile_run external ids now st n st' :
  reconcile_orphaned_permissions external ids now st = Ok (n, st') -> audit_inv st ->
  audit_inv st' /\ forall id, st_permissions st' !! id
    = (fun r => if bool_decide (pr_status r = "pending" /\ pr_source r = "acp")
                then with_permission_status "cancelled" now r
                else if bool_decide (pr_status r = "pending" /\ pr_source r = "command")
                then with_permission_status "expired" now r else r) <$> st_permissions st !! id.
Proof.
  unfold reconcile_orphaned_permissions. intros (acp & st0 & H0 & H)%bind_ok Hi. injection H0 as <- <-.
  apply bind_ok in H as (u1 & st1 & H1 & H).
  apply (settle_orphans_run _ _ PsCanceled) in H1 as [Hi1 Hl1]; [|done|apply pending_ids_nodup|done|].
  2:{ intros id (r & ? & ?%pending_status_row & _)%elem_of_pending_ids. eauto. }
  apply bind_ok in H as (cmd & st2 & H0 & H). injection H0 as <- <-.
  apply bind_ok in H as (u3 & st3 & H3 & H). injection H as _ <-.
  apply (settle_orphans_run _ _ PsExpired) in H3 as [Hi3 Hl3]; [|done|apply pending_ids_nodup|done|].
  2:{ intros id (r & ? & ?%pending_status_row & _)%elem_of_pending_ids. eauto. }
  split; [done|]. intros id. rewrite Hl3, Hl1. rewrite <- option_fmap_compose.
  destruct (st_permissions st !! id) as [r|] eqn:Er; [|done]. simpl. f_equal.
  assert (id ∈ pending_ids "acp" st <-> pr_status r = "pending" /\ pr_source r = "acp") as Ha.
  { rewrite elem_of_pending_ids, Er. naive_solver. }
  assert (id ∈ pending_ids "command" st1 <->
          ~ id ∈ pending_ids "acp" st /\ pr_status r = "pending" /\ pr_source r = "command") as Hc.
  { rewrite elem_of_pending_ids, Hl1, Er. simpl. case_bool_decide as E; simpl.
    - split; [intros (r' & [= <-] & Hs & _); discriminate Hs | by intros [? _]].
    - split; [by intros (r' & [= <-] & Hs & Hsrc) | intros (_ & Hs & Hsrc); eauto]. }
  repeat case_bool_decide; try done; tauto.
Qed.

(** A request and its approval, the running example. *)
Definition sample_request : NewPermissionRequest :=
  mkNewPermission "command" None (Some "cmd_1") "{}" None.
Definition sample_requested : Store :=
  exec (append_permission_request (fun _ => true) true sample_request "perm_1" "t0") empty_store.
Definition sample_decided : Store :=
  exec (decide_permission true "perm_1" PsApproved (Some "admin") None "pdec_1" "t1" "t1")
    sample_requested.
