(* ===== verification/CommandStore.v ===== *)
(** The command rows (src/src/state/commands.rs): lifecycle, output progress and
    the startup sweep that settles commands a restart stranded together with
    the permissions they wait for. *)

From S2P Require Import Prelude Text Store SinkOutbox ChangeFeed SessionEvents PermissionStore.
Open Scope Z_scope.
Open Scope result_scope.

Inductive CommandOrigin := Operator | Acp.
Definition origin_str (o : CommandOrigin) : string :=
  match o with Operator => "operator" | Acp => "acp" end.

Inductive CommandStatus := CsPending | CsRunning | CsExited | CsFailed | CsCanceled.
#[export] Instance CommandStatus_eq_dec : EqDecision CommandStatus.
Proof. solve_decision. Defined.

Definition command_status_str (s : CommandStatus) : string :=
  match s with
  | CsPending => "pending"
  | CsRunning => "running"
  | CsExited => "exited"
  | CsFailed => "failed"
  | CsCanceled => "cancelled"
  end.

Definition COMMAND_RECONCILED_REASON : string := "command-reconciled".

Record NewCommandRecord := mkNewCommand {
  nc_command : string;
  nc_cwd : option string;
  nc_env_json : option string;
  nc_origin : CommandOrigin;
  nc_session_id : option string;
  nc_terminal_id : option string;
}.

Definition get_command (id : string) (st : Store) : option CommandRecord := st_commands st !! id.

(** [UPDATE commands SET .. WHERE id], [CommandNotFound] when no row matched. *)
Definition update_command (id : string) (f : CommandRecord -> CommandRecord) : M unit :=
  let* commands := gets st_commands in
  match commands !! id with
  | None => fail (CommandNotFound id)
  | Some c => modify (fun st => set_commands (<[id := f c]> (st_commands st)) st)
  end.

Definition started_row (now : string) (c : CommandRecord) : CommandRecord :=
  mkCommand (c_id c) (c_created_at c) now (command_status_str CsRunning) (c_command c)
    (c_exit_status c) (Some now) (c_finished_at c) (c_cwd c) (c_env_json c) (c_duration_ms c)
    (c_truncated c) (c_last_output_event_id c) (c_last_output_at c) (c_last_output_seq c)
    (c_output_bytes c) (Some now) (c_origin c) (c_session_id c) (c_terminal_id c).

Definition finished_row (status : CommandStatus) (exit_status duration_ms : option Z) (now : string)
    (c : CommandRecord) : CommandRecord :=
  mkCommand (c_id c) (c_created_at c) now (command_status_str status) (c_command c)
    exit_status (c_started_at c) (Some now) (c_cwd c) (c_env_json c) duration_ms
    (c_truncated c) (c_last_output_event_id c) (c_last_output_at c) (c_last_output_seq c)
    (c_output_bytes c) (c_last_progress_at c) (c_origin c) (c_session_id c) (c_terminal_id c).

Definition truncated_row (now : string) (c : CommandRecord) : CommandRecord :=
  mkCommand (c_id c) (c_created_at c) now (c_status c) (c_command c)
    (c_exit_status c) (c_started_at c) (c_finished_at c) (c_cwd c) (c_env_json c) (c_duration_ms c)
    true (c_last_output_event_id c) (c_last_output_at c) (c_last_output_seq c)
    (c_output_bytes c) (c_last_progress_at c) (c_origin c) (c_session_id c) (c_terminal_id c).

Definition output_row (event : Event) (seq byte_len : Z) (c : CommandRecord) : CommandRecord :=
  mkCommand (c_id c) (c_created_at c) (e_created_at event) (c_status c) (c_command c)
    (c_exit_status c) (c_started_at c) (c_finished_at c) (c_cwd c) (c_env_json c) (c_duration_ms c)
    (c_truncated c) (Some (e_id event)) (Some (e_created_at event)) (Some seq)
    (c_output_bytes c + byte_len) (Some (e_created_at event)) (c_origin c) (c_session_id c)
    (c_terminal_id c).

Definition progress_row (created_at : string) (c : CommandRecord) : CommandRecord :=
  mkCommand (c_id c) (c_created_at c) created_at (c_status c) (c_command c)
    (c_exit_status c) (c_started_at c) (c_finished_at c) (c_cwd c) (c_env_json c) (c_duration_ms c)
    (c_truncated c) (c_last_output_event_id c) (c_last_output_at c) (c_last_output_seq c)
    (c_output_bytes c) (Some created_at) (c_origin c) (c_session_id c) (c_terminal_id c).

(** The sweep's row update: [finished_at] keeps an earlier value. *)
Definition orphaned_row (now : string) (c : CommandRecord) : CommandRecord :=
  mkCommand (c_id c) (c_created_at c) now "failed" (c_command c)
    (c_exit_status c) (c_started_at c) (Some (default now (c_finished_at c))) (c_cwd c) (c_env_json c)
    (c_duration_ms c) (c_truncated c) (c_last_output_event_id c) (c_last_output_at c)
    (c_last_output_seq c) (c_output_bytes c) (c_last_progress_at c) (c_origin c) (c_session_id c)
    (c_terminal_id c).

Definition command_open (c : CommandRecord) : bool :=
  bool_decide (c_status c = "pending" \/ c_status c = "running").

Section commands.
Context (json_valid : string -> bool) (external : bool).
(** The JSON text of an output or progress payload, as [serde_json] prints it. *)
Context (output_payload : string -> string -> Z -> string -> string)
  (progress_payload : string -> string).

Definition append_command (input : NewCommandRecord) (new_id now : string) : M CommandRecord :=
  let env_ok := match nc_env_json input with Some p => json_valid p | None => true end in
  if negb env_ok then fail InvalidEventPayload
  else
    let record := mkCommand new_id now now (command_status_str CsPending) (nc_command input) None
      None None (nc_cwd input) (nc_env_json input) None false None None None 0 None
      (origin_str (nc_origin input)) (nc_session_id input) (nc_terminal_id input) in
    persist_with_outbox external "commands" new_id now
      (let* commands := gets st_commands in
       match commands !! new_id with
       | Some _ => fail Sqlite
       | None => modify (fun st => set_commands (<[new_id := record]> (st_commands st)) st)
       end) ;;
    ret record.

Definition start_command (id now : string) : M unit :=
  persist_with_outbox external "commands" id now (update_command id (started_row now)).

Definition finish_command (id : string) (status : CommandStatus) (exit_status duration_ms : option Z)
    (now : string) : M unit :=
  persist_with_outbox external "commands" id now
    (update_command id (finished_row status exit_status duration_ms now)).

Definition mark_command_truncated (id now : string) : M unit :=
  persist_with_outbox external "commands" id now (update_command id (truncated_row now)).

(** [i64::try_from(..).unwrap_or(i64::MAX)]. *)
Definition saturate_i64 (n : Z) : Z := Z.min n i64_max.

(** [chunk] is the text and [byte_len] its [len()]. *)
Definition append_command_output (command_id stream : string) (seq : Z) (chunk : string)
    (new_id now : string) : M Event :=
  let* event := append_event_with_source json_valid external "info"
    ("command." +:+ stream) EVENT_SOURCE_COMMAND "" (output_payload command_id stream seq chunk)
    new_id now in
  persist_with_outbox external "commands" command_id (e_created_at event)
    (update_command command_id
       (output_row event (saturate_i64 seq) (saturate_i64 (Z.of_nat (String.length chunk))))) ;;
  ret event.

Definition append_command_progress (command_id new_id now : string) : M Event :=
  let* event := append_event_with_source json_valid external "info" "command.progress"
    EVENT_SOURCE_COMMAND "" (progress_payload command_id) new_id now in
  persist_with_outbox external "commands" command_id (e_created_at event)
    (update_command command_id (progress_row (e_created_at event))) ;;
  ret event.

(** ** The startup sweep *)

(** [SELECT id FROM permission_requests WHERE status = 'pending' AND source =
    'command' AND subject_id = ?1]. *)
Definition command_permission_ids (command_id : string) (st : Store) : list string :=
  (filter (fun p => pr_status p.2 = "pending" /\ pr_source p.2 = "command"
                    /\ pr_subject_id p.2 = Some command_id)
     (map_to_list (st_permissions st))).*1.

Fixpoint reconcile_commands (ids : nat -> string) (k : nat) (now : string) (commands : list string)
  : M nat :=
  match commands with
  | [] => ret 0%nat
  | command_id :: rest =>
      let* permission_ids := gets (command_permission_ids command_id) in
      settle_orphans external false "cancelled" COMMAND_RECONCILED_REASON now ids k permission_ids ;;
      enqueue_if external "commands" command_id now ;;
      let* n := reconcile_commands ids (k + length permission_ids) now rest in
      ret (length permission_ids + n)%nat
  end.

Definition reconcile_orphaned_commands (ids : nat -> string) (now : string)
  : M (list string * nat) :=
  let* commands := gets st_commands in
  let stranded := (filter (fun p => command_open p.2 = true) (map_to_list commands)).*1 in
  modify (set_commands ((fun c => if command_open c then orphaned_row now c else c) <$> commands)) ;;
  let* canceled := reconcile_commands ids 0 now stranded in
  ret (stranded, canceled).
End commands.

(** ** The sweep *)

(** A permission this sweep may have canceled, and nothing else. *)
Definition swept (now : string) (cs : list string) (st st' : Store) : Prop :=
  forall id, st_permissions st' !! id = st_permissions st !! id
  \/ exists r, st_permissions st !! id = Some r /\ pr_status r = "pending" /\ pr_source r = "command"
     /\ (exists c, pr_subject_id r = Some c /\ c ∈ cs)
     /\ st_permissions st' !! id = Some (with_permission_status "cancelled" now r).

Definition no_pending_for (command_id : string) (st : Store) : Prop :=
  forall id r, st_permissions st !! id = Some r -> pr_source r = "command" ->
  pr_subject_id r = Some command_id -> pr_status r <> "pending".

Lemma swept_trans now cs1 cs2 st1 st2 st3 :
  swept now cs1 st1 st2 -> swept now cs2 st2 st3 -> swept now (cs1 ++ cs2) st1 st3.
Proof.
  intros H1 H2 id. destruct (H2 id) as [->|(r & Hr & Hs & Hsrc & (c & Hc & Hin) & E)].
  - destruct (H1 id) as [?|(r & Hr & Hs & Hsrc & (c & Hc & Hin) & E)]; [by left|].
    right. exists r. do 3 (split; [done|]). split; [|done]. exists c. set_solver.
  - right. destruct (H1 id) as [E1|(r1 & _ & _ & _ & _ & E1)]; rewrite E1 in Hr; [|by simplify_eq].
    exists r. do 3 (split; [done|]). split; [|done]. exists c. set_solver.
Qed.

Lemma swept_no_pending now cs st st' c : swept now cs st st' -> no_pending_for c st -> no_pending_for c st'.
Proof.
  intros H Hn id r Hr Hsrc Hsub. destruct (H id) as [E|(r' & _ & _ & _ & _ & E)]; rewrite E in Hr.
  - by eapply Hn.
  - by simplify_eq.
Qed.

Lemma elem_of_command_permission_ids c st id :
  id ∈ command_permission_ids c st
  <-> exists r, st_permissions st !! id = Some r /\ pr_status r = "pending"
                /\ pr_source r = "command" /\ pr_subject_id r = Some c.
Proof.
  unfold command_permission_ids. rewrite list_elem_of_fmap. split.
  - intros ([i r] & -> & [(? & ? & ?) Hin%elem_of_map_to_list]%list_elem_of_filter). eauto.
  - intros (r & Hl & Hs). exists (id, r). split; [done|].
    apply list_elem_of_filter. split; [done|]. by apply elem_of_map_to_list.
Qed.

(** The settle loop leaves the command rows alone. *)
Definition commands_same {A} (m : M A) : Prop :=
  forall st a st', m st = Ok (a, st') -> st_commands st' = st_commands st.

Lemma settle_orphans_commands external status reason now ids k l :
  commands_same (settle_orphans external false status reason now ids k l).
Proof.
  revert k. induction l as [|id l IH]; intros k st u st' H; simpl in H; [by injection H as _ <-|].
  apply bind_ok in H as (u1 & st1 & H1 & H2). rewrite (IH _ _ _ _ H2). clear H2.
  unfold settle_orphan in H1. apply bind_ok in H1 as (n & st2 & H2 & H).
  apply bind_ok in H as (u3 & st3 & H3 & H). injection H3 as _ <-.
  apply bind_ok in H as (u4 & st4 & H4 & H). apply insert_decision_run in H4 as (_ & _ & ->).
  assert (forall t i, commands_same (enqueue_if external t i now)) as He.
  { intros t i s a s' E. unfold enqueue_if in E. destruct external; by injection E as _ <-. }
  apply bind_ok in H as (u5 & st5 & H5 & H6). rewrite (He _ _ _ _ _ H6), (He _ _ _ _ _ H5). simpl.
  apply update_permission_run in H2 as [(_ & -> & _)|(r & _ & _ & ->)]; done.
Qed.

Lemma sweep_one external ids k now c st u st' :
  settle_orphans external false "cancelled" COMMAND_RECONCILED_REASON now ids k
    (command_permission_ids c st) st = Ok (u, st') -> audit_inv st ->
  audit_inv st' /\ swept now [c] st st' /\ no_pending_for c st'.
Proof.
  intros H Hi. apply (settle_orphans_run _ _ PsCanceled) in H as [Hi' Hl]; [|done| |done|].
  2:{ apply NoDup_fst_filter, NoDup_fst_map_to_list. }
  2:{ intros id (r & Hr & ?%pending_status_row & _)%elem_of_command_permission_ids. eauto. }
  split; [done|]. split.
  - intros id. rewrite Hl. case_bool_decide as Hin; [|left; by destruct (st_permissions st !! id)].
    apply elem_of_command_permission_ids in Hin as (r & Hr & Hs & Hsrc & Hsub). right. exists r.
    rewrite Hr. do 3 (split; [done|]). split; [|done]. exists c. set_solver.
  - intros id r Hr Hsrc Hsub Hs. rewrite Hl in Hr.
    destruct (st_permissions st !! id) as [r0|] eqn:E0; [|done]. simpl in Hr. injection Hr as <-.
    case_bool_decide as Hin; [done|]. apply Hin, elem_of_command_permission_ids. eauto.
Qed.

Lemma reconcile_commands_run external ids k now cs st n st' :
  reconcile_commands external ids k now cs st = Ok (n, st') -> audit_inv st ->
  audit_inv st' /\ swept now cs st st' /\ st_commands st' = st_commands st
  /\ forall c, c ∈ cs -> no_pending_for c st'.
Proof.
  revert k st n. induction cs as [|c cs IH]; intros k st n H Hi; simpl in H.
  { injection H as _ <-. split; [done|]. split; [by left|]. split; [done|].
    by intros c ?%not_elem_of_nil. }
  apply bind_ok in H as (ps & st0 & H0 & H). injection H0 as <- <-.
  apply bind_ok in H as (u1 & st1 & H1 & H). pose proof (settle_orphans_commands _ _ _ _ _ _ _ _ _ _ H1) as C1.
  apply sweep_one in H1 as (Hi1 & Hs1 & Hn1); [|done].
  apply bind_ok in H as (u2 & st2 & H2 & H).
  assert (audit_inv st2 /\ st_permissions st2 = st_permissions st1 /\ st_commands st2 = st_commands st1)
    as (Hi2 & P2 & C2).
  { unfold enqueue_if in H2. destruct external; by injection H2 as _ <-. }
  apply bind_ok in H as (m & st3 & H3 & H). injection H as _ <-.
  destruct (IH _ _ _ H3 Hi2) as (Hi3 & Hs3 & C3 & Hn3).
  assert (swept now [] st1 st2) as Hs2 by (intros id; left; by rewrite P2).
  split; [done|]. split.
  { by apply (swept_trans now [c] cs st st1 st3), (swept_trans now [] cs st1 st2 st3). }
  split; [congruence|].
  intros c' [->|Hin]%elem_of_cons; [|by apply Hn3].
  by eapply swept_no_pending, swept_no_pending, Hn1.
Qed.

(** The startup sweep leaves nothing half settled: every command that was
    open ends [failed] with a finish time, every other command row is as it
    was, and no permission request of a swept command can still be approved,
    while every other permission request is untouched. *)
Theorem command_sweep_settles external ids now st cs n st' :
  reconcile_orphaned_commands external ids now st = Ok ((cs, n), st') -> audit_inv st ->
  audit_inv st'
  /\ (forall id c, st_commands st !! id = Some c ->
      if command_open c
      then id ∈ cs /\ no_pending_for id st' /\ exists c', st_commands st' !! id = Some c'
           /\ c_status c' = "failed" /\ is_Some (c_finished_at c')
      else id ∉ cs /\ st_commands st' !! id = Some c)
  /\ (forall id r, st_permissions st !! id = Some r ->
      st_permissions st' !! id = Some r
      \/ pr_status r = "pending" /\ pr_source r = "command" /\ (exists c, pr_subject_id r = Some c /\ c ∈ cs)
         /\ st_permissions st' !! id = Some (with_permission_status "cancelled" now r)).
Proof.
  unfold reconcile_orphaned_commands. intros (cmds & st0 & H0 & H)%bind_ok Hi. injection H0 as <- <-.
  apply bind_ok in H as (u & st1 & H1 & H). injection H1 as _ <-.
  apply bind_ok in H as (m & st2 & H2 & H). injection H as <- _ <-.
  apply reconcile_commands_run in H2 as (Hi2 & Hs2 & C2 & Hn2); [|exact Hi].
  set (cs := (filter _ (map_to_list (st_commands st))).*1) in *.
  assert (forall id c, st_commands st !! id = Some c -> (id ∈ cs <-> command_open c = true)) as Hcs.
  { intros id c Hc. unfold cs. rewrite list_elem_of_fmap. split.
    - intros ([i c'] & -> & [Ho Hin%elem_of_map_to_list]%list_elem_of_filter). simpl in *. congruence.
    - intros Ho. exists (id, c). split; [done|]. apply list_elem_of_filter.
      split; [done|]. by apply elem_of_map_to_list. }
  split; [done|]. split.
  - intros id c Hc. rewrite C2. simpl. rewrite lookup_fmap, Hc. simpl.
    destruct (command_open c) eqn:Eo.
    + assert (id ∈ cs) as Hin by by apply (Hcs id c Hc). split; [done|]. split; [by apply Hn2|].
      eexists. split; [done|]. simpl. by eauto.
    + split; [|done]. intros Hin. apply (Hcs id c Hc) in Hin. congruence.
  - intros id r Hr. destruct (Hs2 id) as [E|(r' & Hr' & Hpend & Hsrc & Hsub & E)]; simpl in *.
    + left. by rewrite E.
    + right. rewrite Hr in Hr'. injection Hr' as <-. done.
Qed.

(** ** Histories of the permission tables *)

Section history.
Context (json_valid : string -> bool) (external : bool).

(** One committed operation of the daemon on the permission tables, or any other
    write, which leaves them alone: no other statement of the source names them. Its
    callers decide with a terminal status only. [transition_permission_status] and
    [record_permission_decision], each half of a decision, have no caller. *)
Inductive perm_step : Store -> Store -> Prop :=
| ps_append input id now st r st' :
    append_permission_request json_valid external input id now st = Ok (r, st') -> perm_step st st'
| ps_approved input principal reason id did now st rd st' :
    append_approved_permission_request json_valid external input principal reason id did now st
    = Ok (rd, st') -> perm_step st st'
| ps_decide id s principal reason did now at' st d st' :
    is_terminal s = true ->
    decide_permission external id s principal reason did now at' st = Ok (d, st') -> perm_step st st'
| ps_reconcile ids now st n st' :
    reconcile_orphaned_permissions external ids now st = Ok (n, st') -> perm_step st st'
| ps_reconcile_commands ids now st r st' :
    reconcile_orphaned_commands external ids now st = Ok (r, st') -> perm_step st st'
| ps_other st st' :
    st_permissions st' = st_permissions st -> st_decisions st' = st_decisions st -> perm_step st st'.

Lemma perm_step_inv st st' :
  perm_step st st' -> audit_inv st ->
  audit_inv st' /\ forall id r, st_permissions st !! id = Some r -> ~ pending_row r ->
                    st_permissions st' !! id = Some r.
Proof.
  intros Hs Hi. destruct Hs as [input id now st r st' H|input pr re id did now st rd st' H
    |id s pr re did now at' st d st' Ht H|ids now st n st' H|ids now st [cs n] st' H|st st' E1 E2].
  - apply append_permission_request_run in H as (Hn & -> & E1 & E2). unfold audit_inv.
    rewrite E1, E2. split; [by apply (audit_insert_pending _ _ (mkPermission id _ _ _ _ _ _ _ _))|].
    intros id' r' Hr' _. rewrite lookup_insert_ne; [done|congruence].
  - apply append_approved_run in H as (Hn & Hd & Er & Ed & E1 & E2). unfold audit_inv.
    rewrite E1, E2, Er, Ed. split.
    + by apply (audit_insert_approved _ _ (mkPermission id _ _ _ _ _ _ _ _) PsApproved).
    + intros id' r' Hr' _. rewrite lookup_insert_ne; [done|congruence].
  - apply decide_permission_run in H as (r & Hr & Hp & Hd & -> & E1 & E2). unfold audit_inv.
    rewrite E1, E2. split; [by apply audit_settle|].
    intros id' r' Hr' Hn. rewrite lookup_insert_ne; [done|congruence].
  - apply reconcile_run in H as [Hi' Hl]; [|done]. split; [done|]. intros id r Hr Hn.
    rewrite Hl, Hr. simpl. f_equal.
    repeat case_bool_decide; try done; exfalso; apply Hn, pending_status_row; tauto.
  - apply command_sweep_settles in H as (Hi' & _ & Hl); [|done]. split; [done|]. intros id r Hr Hn.
    destruct (Hl id r Hr) as [?|(Hp & _)]; [done|]. by destruct Hn; apply pending_status_row.
  - unfold audit_inv. rewrite E1, E2. done.
Qed.

Lemma audit_inv_empty : audit_inv empty_store.
Proof. split; intros; simplify_map_eq. Qed.

Lemma perm_history_inv st st' : rtc perm_step st st' -> audit_inv st -> audit_inv st'.
Proof. induction 1 as [|a b c Hs _ IH]; [done|]. intros Hi. by apply IH, (perm_step_inv a b Hs). Qed.

(** C24. The audit trail is complete and unambiguous: after any history of the
    daemon's permission operations (requests, pre-approved requests, decisions with a
    terminal status, and the two startup sweeps, that of the permissions and that of
    the commands, which cancels what they wait for), a request is decided exactly when
    it has a decision row, that row is unique, and it records the request's status.
    Left out are two operations without a caller, each of which does one half of a
    decision and so breaks this ([transition_alone], [decision_alone]). *)
Theorem permission_audit_trail st id r :
  rtc perm_step empty_store st -> st_permissions st !! id = Some r ->
  (pending_row r /\ (forall did d, st_decisions st !! did = Some d -> pd_request_id d <> id))
  \/ (~ pending_row r /\ exists did d, st_decisions st !! did = Some d /\ pd_request_id d = id
        /\ pd_decision d = pr_status r
        /\ forall did' d', st_decisions st !! did' = Some d' -> pd_request_id d' = id -> did' = did).
Proof.
  intros H Hr. pose proof (perm_history_inv _ _ H audit_inv_empty) as [H1 H2 H3 H4].
  destruct (is_terminal (from_wire (pr_status r))) eqn:Et.
  - right. assert (~ pending_row r) as Hn by (unfold pending_row; congruence). split; [done|].
    destruct (H3 id r Hr Hn) as (did & d & Hd & Hid). exists did, d. split; [done|]. split; [done|].
    destruct (H2 did d Hd) as (_ & r' & Hr' & Es & _). rewrite Hid in Hr'. simplify_eq.
    split; [done|]. intros did' d' Hd' E. eapply H4; [done..|]. congruence.
  - left. split; [done|]. intros did d Hd E. destruct (H2 did d Hd) as (_ & r' & Hr' & _ & Hn).
    rewrite E in Hr'. simplify_eq. done.
Qed.

(** The first decision stands: once a request is terminal its row is never
    written again, whatever decisions, timeouts and restarts follow. *)
Theorem permission_decision_final st st' id r :
  rtc perm_step empty_store st -> rtc perm_step st st' ->
  st_permissions st !! id = Some r -> ~ pending_row r ->
  st_permissions st' !! id = Some r.
Proof.
  intros H0 H Hr Hn. pose proof (perm_history_inv _ _ H0 audit_inv_empty) as Hi. clear H0.
  induction H as [|a b c Hs _ IH]; [done|]. destruct (perm_step_inv a b Hs Hi) as [Hib Hkeep].
  apply IH; [by apply Hkeep|done].
Qed.
End history.

(** A running command that waits for a permission, the running example. *)
Definition sample_running : Store :=
  exec (start_command true "cmd_1" "t1")
    (exec (append_permission_request (fun _ => true) true sample_request "perm_1" "t0")
       (exec (append_command (fun _ => true) true
                (mkNewCommand "ls" None None Operator None None) "cmd_1" "t0") empty_store)).

Lemma sample_running_audit : audit_inv sample_running.
Proof.
  apply (perm_history_inv (fun _ => true) true empty_store); [|apply audit_inv_empty].
  eapply rtc_l; [|eapply rtc_l; [|apply rtc_once]].
  - by apply (ps_other _ _ _ (exec (append_command (fun _ => true) true
      (mkNewCommand "ls" None None Operator None None) "cmd_1" "t0") empty_store)).
  - destruct (exec_ok (append_permission_request (fun _ => true) true sample_request "perm_1" "t0")
      (exec (append_command (fun _ => true) true
        (mkNewCommand "ls" None None Operator None None) "cmd_1" "t0") empty_store) eq_refl) as [r H].
    by eapply ps_append.
  - by apply ps_other.
Qed.

Lemma command_sweep_settles_witness :
  let st' := exec (reconcile_orphaned_commands true (fun _ => "pdec_1") "t9") sample_running in
  audit_inv st' /\ no_pending_for "cmd_1" st'.
Proof.
  intros st'.
  assert (reconcile_orphaned_commands true (fun _ => "pdec_1") "t9" sample_running
          = Ok ((["cmd_1"], 1%nat), st')) as H by (vm_compute; reflexivity).
  destruct (command_sweep_settles true _ "t9" sample_running _ _ st' H sample_running_audit)
    as (Hi & Hc & _).
  split; [exact Hi|].
  assert (exists c, st_commands sample_running !! "cmd_1" = Some c /\ command_open c = true)
    as (c & Hl & Ho) by (vm_compute; eexists; split; reflexivity).
  specialize (Hc "cmd_1" c Hl). rewrite Ho in Hc. exact (proj1 (proj2 Hc)).
Defined.

(** Output is accounted for exactly: a chunk is logged as one new event,
    the command row counts its bytes and points at that event, and every other
    command row is as it was; for an unknown command nothing is written. *)
Theorem command_output_accounted json_valid external payload id stream seq chunk new_id now st :
  match append_command_output json_valid external payload id stream seq chunk new_id now st with
  | Ok (e, st') =>
      e_id e = new_id /\ st_events st !! new_id = None /\ st_events st' = <[new_id := e]> (st_events st)
      /\ exists c, st_commands st !! id = Some c
         /\ st_commands st' = <[id := output_row e (saturate_i64 seq)
                                   (saturate_i64 (Z.of_nat (String.length chunk))) c]> (st_commands st)
  | Err err => err = CommandNotFound id /\ st_commands st !! id = None
               \/ err = InvalidEventPayload \/ err = Sqlite
  end.
Proof.
  unfold append_command_output, append_event_with_source, insert_unscoped_event_row, insert_event,
    persist_with_outbox, enqueue_if, update_command, publish, bind, gets, modify, ret, fail.
  destruct (json_valid (payload id stream seq chunk)) eqn:Ej; simpl; [|by auto].
  destruct (st_events st !! new_id) eqn:Ee; [by auto|]. rewrite Ej.
  destruct external; simpl; destruct (st_commands st !! id) as [c|] eqn:Ec; simpl;
    try (by auto); (split; [done|]); (split; [done|]); (split; [done|]); by exists c.
Qed.

(** [start_command] does not look at the status it replaces: a command that
    was cancelled, failed or had exited goes back to [running]. *)
Theorem start_command_revives external id c now st :
  st_commands st !! id = Some c ->
  exists st' c', start_command external id now st = Ok (tt, st')
  /\ st_commands st' !! id = Some c' /\ c_status c' = "running" /\ c_finished_at c' = c_finished_at c.
Proof.
  intros Hc. unfold start_command, persist_with_outbox, update_command, enqueue_if, enqueue, bind, gets,
    modify, ret. rewrite Hc. destruct external; simpl; do 2 eexists; (split; [done|]); simpl;
    rewrite lookup_insert_eq; done.
Qed.

Lemma start_command_revives_witness :
  let st := exec (finish_command true "cmd_1" CsCanceled None None "t2") sample_running in
  exists st' c', start_command true "cmd_1" "t3" st = Ok (tt, st')
  /\ st_commands st' !! "cmd_1" = Some c' /\ c_status c' = "running" /\ c_finished_at c' = Some "t2".
Proof.
  intros st.
  assert (exists c, st_commands st !! "cmd_1" = Some c /\ c_status c = "cancelled"
                    /\ c_finished_at c = Some "t2") as (c & Hc & _ & Hf)
    by (vm_compute; eexists; repeat split).
  destruct (start_command_revives true "cmd_1" c "t3" st Hc) as (st' & c' & H1 & H2 & H3 & H4).
  exists st', c'. rewrite H4. auto.
Defined.

Lemma sample_history :
  rtc (perm_step (fun _ => true) true) empty_store sample_decided.
Proof.
  eapply rtc_l; [|apply rtc_once].
  - destruct (exec_ok (append_permission_request (fun _ => true) true sample_request "perm_1" "t0")
      empty_store eq_refl) as [r H]. by eapply ps_append.
  - destruct (exec_ok (decide_permission true "perm_1" PsApproved (Some "admin") None "pdec_1" "t1" "t1")
      sample_requested eq_refl) as [d H]. by eapply ps_decide; [|exact H].
Qed.

Lemma permission_audit_trail_witness :
  let r := mkPermission "perm_1" "t0" "t1" "approved" "command" None (Some "cmd_1") "{}" None in
  st_permissions sample_decided !! "perm_1" = Some r
  /\ ((pending_row r /\ (forall did d, st_decisions sample_decided !! did = Some d ->
         pd_request_id d <> "perm_1"))
      \/ (~ pending_row r /\ exists did d, st_decisions sample_decided !! did = Some d
            /\ pd_request_id d = "perm_1" /\ pd_decision d = pr_status r
            /\ forall did' d', st_decisions sample_decided !! did' = Some d' ->
               pd_request_id d' = "perm_1" -> did' = did)).
Proof.
  intros r. assert (st_permissions sample_decided !! "perm_1" = Some r) as H by (vm_compute; reflexivity).
  split; [exact H|].
  exact (permission_audit_trail (fun _ => true) true sample_decided "perm_1" r sample_history H).
Defined.

Lemma permission_decision_final_witness :
  let st' := exec (reconcile_orphaned_permissions true (fun _ => "pdec_9") "t9") sample_decided in
  let r := mkPermission "perm_1" "t0" "t1" "approved" "command" None (Some "cmd_1") "{}" None in
  st_permissions st' !! "perm_1" = Some r.
Proof.
  intros st' r.
  assert (rtc (perm_step (fun _ => true) true) sample_decided st') as H.
  { apply rtc_once. destruct (exec_ok (reconcile_orphaned_permissions true (fun _ => "pdec_9") "t9")
      sample_decided eq_refl) as [n H]. by eapply ps_reconcile. }
  apply (permission_decision_final (fun _ => true) true sample_decided st' "perm_1" r sample_history H).
  - vm_compute. reflexivity.
  - vm_compute. discriminate.
Defined.

(** The two halves of a decision, alone. *)
Theorem transition_alone :
  exists current st' r, transition_permission_status true "perm_1" PsApproved "t1" sample_requested = Ok (current, st')
  /\ st_permissions st' !! "perm_1" = Some r /\ ~ pending_row r /\ st_decisions st' = ∅.
Proof. do 3 eexists. split; [vm_compute; reflexivity|]. split; [vm_compute; reflexivity|]. split; [vm_compute; discriminate|vm_compute; reflexivity]. Qed.

Theorem decision_alone :
  exists d st' r, record_permission_decision true "perm_1" PsApproved None None "pdec_1" "t1" sample_requested = Ok (d, st')
  /\ st_decisions st' !! "pdec_1" = Some d /\ st_permissions st' !! "perm_1" = Some r /\ pending_row r.
Proof. do 3 eexists. split; [vm_compute; reflexivity|]. split; [vm_compute; reflexivity|]. split; [vm_compute; reflexivity|vm_compute; reflexivity]. Qed.
