(* ===== verification/PermissionService.v ===== *)
(** The permission service (src/src/runtime/mediation/permissions.rs): every
    request is a durable row and an in-memory waiter, and deciders, the expiry
    timer and the requester itself race to answer the waiter. Each section of
    code between two awaits is one step of the model. *)

From S2P Require Import Prelude Store SinkOutbox ChangeFeed SessionEvents PermissionStore CommandStore.
Open Scope Z_scope.
Open Scope result_scope.

(** ** Data *)

Inductive PermissionSource := SrcCommand | SrcAcp.

Definition source_str (s : PermissionSource) : string :=
  match s with SrcCommand => "command" | SrcAcp => "acp" end.

(** [detail_json] is the serialized [detail]. *)
Record NewPermission := mkNewPerm {
  nw_source : PermissionSource;
  nw_requester : option string;
  nw_subject_id : option string;
  nw_detail_json : string;
}.

Inductive PermissionOutcome :=
| Approved (option_id reason : option string)
| Denied (reason : option string)
| Canceled (reason : string)
| Expired.

Definition as_status (o : PermissionOutcome) : PermissionStatus :=
  match o with
  | Approved _ _ => PsApproved
  | Denied _ => PsDenied
  | Canceled _ => PsCanceled
  | Expired => PsExpired
  end.

Inductive PermissionTimeoutAction := TimeoutDeny | TimeoutApprove.

Definition RACED_DECISION_REASON : string := "decided before the waiter was registered".
Definition POLICY_DECIDING_PRINCIPAL : string := "policy".
Definition POLICY_APPROVAL_REASON : string := "auto-approved by policy".
Definition EVENT_SOURCE_PERMISSION : string := "permission".
Definition EVENT_KIND_PERMISSION_APPROVED : string := "permission.approved".
Definition EVENT_KIND_PERMISSION_DENIED : string := "permission.denied".
Definition EVENT_KIND_PERMISSION_CANCELLED : string := "permission.cancelled".
Definition EVENT_KIND_PERMISSION_EXPIRED : string := "permission.expired".

(** The event kind [resolve] picks. *)
Definition outcome_kind (o : PermissionOutcome) : string :=
  match o with
  | Approved _ _ => EVENT_KIND_PERMISSION_APPROVED
  | Denied _ => EVENT_KIND_PERMISSION_DENIED
  | Canceled _ => EVENT_KIND_PERMISSION_CANCELLED
  | Expired => EVENT_KIND_PERMISSION_EXPIRED
  end.

Definition event_message (kind : string) : string :=
  if bool_decide (kind = "permission.created") then "permission requested"
  else if bool_decide (kind = EVENT_KIND_PERMISSION_APPROVED) then "permission approved"
  else if bool_decide (kind = EVENT_KIND_PERMISSION_DENIED) then "permission denied"
  else if bool_decide (kind = EVENT_KIND_PERMISSION_CANCELLED) then "permission cancelled"
  else if bool_decide (kind = EVENT_KIND_PERMISSION_EXPIRED) then "permission expired"
  else "permission event".

(** A request in terms of the store's input. *)
Definition store_input (input : NewPermission) (expires_at : option string) : NewPermissionRequest :=
  mkNewPermission (source_str (nw_source input)) (nw_requester input) (nw_subject_id input)
    (nw_detail_json input) expires_at.

(** What the re-read of a fresh row answers the waiter with, if anything. *)
Definition settle_outcome (row : option PermissionRequestRecord) : option PermissionOutcome :=
  match row with
  | None => Some Expired
  | Some r =>
      match from_wire (pr_status r) with
      | PsPending => None
      | PsApproved | PsCanceled => Some (Canceled RACED_DECISION_REASON)
      | PsDenied => Some (Denied (Some RACED_DECISION_REASON))
      | PsExpired => Some Expired
      end
  end.

Definition timeout_outcome (action : PermissionTimeoutAction) : PermissionOutcome :=
  match action with
  | TimeoutDeny => Expired
  | TimeoutApprove => Approved None (Some "auto-approved on timeout")
  end.

(** The session whose log a decision belongs to. *)
Definition link_request_subject (row : option PermissionRequestRecord) : option string :=
  match row with
  | None => None
  | Some r =>
      match pr_subject_id r with
      | None => None
      | Some subject_id =>
          if bool_decide (pr_source r = source_str SrcCommand) then None
          else if bool_decide (pr_source r = source_str SrcAcp) then Some subject_id
          else None
      end
  end.

(** A store call whose error is logged and dropped. *)
Definition attempt {A} (m : M A) : M unit :=
  fun st => match m st with Ok (_, st') => Ok (tt, st') | Err _ => Ok (tt, st) end.

Section service.
Context (json_valid : string -> bool) (external : bool).
(** The JSON texts of the event payloads, as [serde_json] prints them. *)
Context (created_payload : PermissionRequestRecord -> string)
  (decision_payload : string -> PermissionDecisionRecord -> option PermissionRequestRecord -> string).
Context (timeout_action : PermissionTimeoutAction).

(** ** Write jobs *)

Definition append_permission_event (kind payload : string) (session_id : option string)
    (event_id now : string) : M unit :=
  attempt
    match session_id with
    | Some sid => append_session_event_with_source json_valid external sid "info" kind
                    EVENT_SOURCE_PERMISSION (event_message kind) payload event_id now
    | None => append_event_with_source json_valid external "info" kind
                EVENT_SOURCE_PERMISSION (event_message kind) payload event_id now
    end.

Definition record_decision_event (id : string) (decision : PermissionDecisionRecord)
    (kind event_id now : string) : M string :=
  let* row := gets (get_permission_request id) in
  let payload := decision_payload id decision row in
  append_permission_event kind payload (link_request_subject row) event_id now ;;
  ret payload.

(** The closure [decide_and_publish] hands to the writer. *)
Definition decide_job (id : string) (outcome : PermissionOutcome) (deciding_principal : string)
    (reason : option string) (kind decision_id event_id now decided_at event_at : string)
  : M (PermissionDecisionRecord * string) :=
  let* decision := decide_permission external id (as_status outcome) (Some deciding_principal)
    reason decision_id now decided_at in
  let* payload := record_decision_event id decision kind event_id event_at in
  ret (decision, payload).

Definition insert_request_job (input : NewPermission) (expires_at : option string)
    (new_id now : string) : M PermissionRequestRecord :=
  append_permission_request json_valid external (store_input input expires_at) new_id now.

Definition approve_by_policy_job (input : NewPermission) (new_id decision_id now : string)
  : M (PermissionRequestRecord * PermissionDecisionRecord) :=
  append_approved_permission_request json_valid external (store_input input None)
    (Some POLICY_DECIDING_PRINCIPAL) (Some POLICY_APPROVAL_REASON) new_id decision_id now.

Definition created_job (record : PermissionRequestRecord) (event_id now : string) : M unit :=
  append_permission_event "permission.created" (created_payload record) None event_id now.

(** ** Deciders *)

Record Decide := mkDecide {
  dc_id : string;
  dc_outcome : PermissionOutcome;
  dc_deciding_principal : string;
  dc_reason : option string;
  dc_kind : string;
}.

Definition resolve (id : string) (outcome : PermissionOutcome) (deciding_principal : string)
    (reason : option string) : Decide :=
  mkDecide id outcome deciding_principal reason (outcome_kind outcome).

Definition approve (id : string) (option_id reason : option string) (deciding_principal : string)
  : Decide := resolve id (Approved option_id reason) deciding_principal reason.

Definition deny (id : string) (reason : option string) (deciding_principal : string) : Decide :=
  resolve id (Denied reason) deciding_principal reason.

Definition cancel (id reason : string) : Decide :=
  resolve id (Canceled reason) "system" (Some reason).

(** The timer's decision. *)
Definition timeout (id : string) : Decide :=
  let outcome := timeout_outcome timeout_action in
  mkDecide id outcome "system" (Some "timeout"%string) (outcome_kind outcome).

Definition run_decide (dc : Decide) (decision_id event_id now decided_at event_at : string)
  : M (PermissionDecisionRecord * string) :=
  decide_job (dc_id dc) (dc_outcome dc) (dc_deciding_principal dc) (dc_reason dc) (dc_kind dc)
    decision_id event_id now decided_at event_at.

(** ** Tasks *)

(** What a task still has to do. *)
Inductive Task :=
| TRegister (record : PermissionRequestRecord)   (* request: the row is written *)
| TCreated (record : PermissionRequestRecord)    (* request: the waiter is registered *)
| TReread (id : string)                          (* request: the created event is out *)
| TSettle (id : string) (outcome : PermissionOutcome)  (* request: the row was decided already *)
| TTimer (id : string)                           (* the timer sleeps *)
| TExpire (id : string)                          (* the timer's decision failed *)
| TAnswer (id : string) (outcome : PermissionOutcome) (kind payload : string)
                                                 (* a decision committed *)
| TPolicyCreated (record : PermissionRequestRecord) (decision : PermissionDecisionRecord)
| TPolicyDecided (id : string) (decision : PermissionDecisionRecord).

Record Svc := mkSvc {
  sv_store : Store;
  sv_pending : gset string;                     (* the waiters *)
  sv_inbox : gmap string PermissionOutcome;     (* what the receivers got *)
  sv_tasks : list Task;
  sv_requested : gset string;                   (* ids whose caller holds a receiver *)
  sv_live : list (string * string * string);    (* the permissions topic *)
}.

Definition with_store (st : Store) (s : Svc) : Svc :=
  mkSvc st (sv_pending s) (sv_inbox s) (sv_tasks s) (sv_requested s) (sv_live s).
Definition with_tasks (l : list Task) (s : Svc) : Svc :=
  mkSvc (sv_store s) (sv_pending s) (sv_inbox s) l (sv_requested s) (sv_live s).
Definition register (id : string) (s : Svc) : Svc :=
  mkSvc (sv_store s) ({[id]} ∪ sv_pending s) (sv_inbox s) (sv_tasks s) (sv_requested s) (sv_live s).
Definition live (id kind payload : string) (s : Svc) : Svc :=
  mkSvc (sv_store s) (sv_pending s) (sv_inbox s) (sv_tasks s) (sv_requested s)
    (sv_live s ++ [(id, kind, payload)]).

(** [if let Some(op) = pending.remove(id) { op.waiter.send(outcome) }] *)
Definition fire (id : string) (outcome : PermissionOutcome) (s : Svc) : Svc :=
  if bool_decide (id ∈ sv_pending s) then
    mkSvc (sv_store s) (sv_pending s ∖ {[id]}) (<[id := outcome]> (sv_inbox s)) (sv_tasks s)
      (sv_requested s) (sv_live s)
  else s.

(** ** The session-cancel sweep, run without interruption *)

(** [decide_and_publish]: the job, then the waiter, then the live event. *)
Definition decide_and_publish (dc : Decide) (decision_id event_id now decided_at event_at : string)
    (s : Svc) : result StackError PermissionDecisionRecord * Svc :=
  match run_decide dc decision_id event_id now decided_at event_at (sv_store s) with
  | Ok ((d, payload), st') =>
      (Ok d, live (dc_id dc) (dc_kind dc) payload (fire (dc_id dc) (dc_outcome dc) (with_store st' s)))
  | Err e => (Err e, s)
  end.

Definition cancel_if_pending (id reason decision_id event_id now decided_at event_at : string)
    (s : Svc) : result StackError bool * Svc :=
  match decide_and_publish (cancel id reason) decision_id event_id now decided_at event_at s with
  | (Ok _, s') => (Ok true, s')
  | (Err (InvalidPermissionTransition _ _ _), s') => (Ok false, s')
  | (Err e, s') => (Err e, s')
  end.

Definition SESSION_PENDING_PERMISSION_SCAN_LIMIT : nat := 1000.

(** The loop; [ids] draws the decision and event ids of the [k]th request. *)
Fixpoint cancel_rows (rows : list PermissionRequestRecord) (reason : string)
    (ids : nat -> string * string) (now : string) (k : nat) (settled : nat) (s : Svc)
  : result StackError nat * Svc :=
  match rows with
  | [] => (Ok settled, s)
  | row :: rest =>
      match cancel_if_pending (pr_id row) reason (ids k).1 (ids k).2 now now now s with
      | (Ok true, s') => cancel_rows rest reason ids now (S k) (S settled) s'
      | (Ok false, s') => cancel_rows rest reason ids now (S k) settled s'
      | (Err e, s') => (Err e, s')
      end
  end.

Definition cancel_pending_for_session (session_id reason : string) (ids : nat -> string * string)
    (now : string) (s : Svc) : result StackError nat * Svc :=
  cancel_rows (query_pending_permissions_for_subject (source_str SrcAcp) session_id
                 SESSION_PENDING_PERMISSION_SCAN_LIMIT (sv_store s))
    reason ids now 0 0 s.

(** ** Steps *)

(** One outstanding task runs to its next await. *)
Inductive task_step : Svc -> Svc -> Prop :=
| ts_register s l1 l2 r :
    sv_tasks s = l1 ++ TRegister r :: l2 ->
    task_step s (register (pr_id r) (with_tasks (l1 ++ TCreated r :: l2) s))
| ts_created s l1 l2 r event_id now st' :
    sv_tasks s = l1 ++ TCreated r :: l2 ->
    (created_job r event_id now (sv_store s) = Ok (tt, st') \/ st' = sv_store s) ->
    task_step s (live (pr_id r) "permission.created" (created_payload r)
                   (with_store st' (with_tasks (l1 ++ TReread (pr_id r) :: l2) s)))
| ts_reread s l1 l2 id :
    sv_tasks s = l1 ++ TReread id :: l2 ->
    task_step s (with_tasks (l1 ++ match settle_outcome (get_permission_request id (sv_store s)) with
                                   | None => TTimer id
                                   | Some o => TSettle id o
                                   end :: l2) s)
| ts_reread_failed s l1 l2 id :
    sv_tasks s = l1 ++ TReread id :: l2 ->
    task_step s (with_tasks (l1 ++ TSettle id Expired :: l2) s)
| ts_settle s l1 l2 id o :
    sv_tasks s = l1 ++ TSettle id o :: l2 ->
    task_step s (fire id o (with_tasks (l1 ++ TTimer id :: l2) s))
| ts_timer_decided s l1 l2 id decision_id event_id now at1 at2 d payload st' :
    sv_tasks s = l1 ++ TTimer id :: l2 ->
    run_decide (timeout id) decision_id event_id now at1 at2 (sv_store s)
      = Ok ((d, payload), st') ->
    task_step s (with_store st' (with_tasks
      (l1 ++ TAnswer id (timeout_outcome timeout_action)
               (outcome_kind (timeout_outcome timeout_action)) payload :: l2) s))
| ts_timer_late s l1 l2 id decision_id event_id now at1 at2 from to :
    sv_tasks s = l1 ++ TTimer id :: l2 ->
    run_decide (timeout id) decision_id event_id now at1 at2 (sv_store s)
      = Err (InvalidPermissionTransition id from to) ->
    task_step s (with_tasks (l1 ++ l2) s)
| ts_timer_failed s l1 l2 id :
    sv_tasks s = l1 ++ TTimer id :: l2 ->
    task_step s (with_tasks (l1 ++ TExpire id :: l2) s)
| ts_expire s l1 l2 id :
    sv_tasks s = l1 ++ TExpire id :: l2 ->
    task_step s (fire id Expired (with_tasks (l1 ++ l2) s))
| ts_answer s l1 l2 id o kind payload :
    sv_tasks s = l1 ++ TAnswer id o kind payload :: l2 ->
    task_step s (live id kind payload (fire id o (with_tasks (l1 ++ l2) s)))
| ts_policy_created s l1 l2 r d event_id now st' :
    sv_tasks s = l1 ++ TPolicyCreated r d :: l2 ->
    (created_job r event_id now (sv_store s) = Ok (tt, st') \/ st' = sv_store s) ->
    task_step s (live (pr_id r) "permission.created" (created_payload r)
                   (with_store st' (with_tasks (l1 ++ TPolicyDecided (pr_id r) d :: l2) s)))
| ts_policy_decided s l1 l2 id d event_id now payload st' :
    sv_tasks s = l1 ++ TPolicyDecided id d :: l2 ->
    record_decision_event id d EVENT_KIND_PERMISSION_APPROVED event_id now (sv_store s)
      = Ok (payload, st') ->
    task_step s (live id EVENT_KIND_PERMISSION_APPROVED payload
                   (with_store st' (with_tasks (l1 ++ l2) s)))
| ts_policy_failed s l1 l2 id d :
    sv_tasks s = l1 ++ TPolicyDecided id d :: l2 ->
    task_step s (with_tasks (l1 ++ l2) s).

(** A caller arrives, a decider's write commits, or the rest of the daemon
    writes tables of its own. *)
Inductive env_step : Svc -> Svc -> Prop :=
| es_request s input expires_at new_id now r st' :
    insert_request_job input expires_at new_id now (sv_store s) = Ok (r, st') ->
    env_step s (mkSvc st' (sv_pending s) (sv_inbox s) (sv_tasks s ++ [TRegister r])
                  ({[pr_id r]} ∪ sv_requested s) (sv_live s))
| es_resolve s id o principal reason decision_id event_id now at1 at2 d payload st' :
    run_decide (resolve id o principal reason) decision_id event_id now at1 at2 (sv_store s)
      = Ok ((d, payload), st') ->
    env_step s (with_store st' (with_tasks (sv_tasks s ++ [TAnswer id o (outcome_kind o) payload]) s))
| es_policy s input new_id decision_id now r d st' :
    approve_by_policy_job input new_id decision_id now (sv_store s) = Ok ((r, d), st') ->
    env_step s (with_store st' (with_tasks (sv_tasks s ++ [TPolicyCreated r d]) s))
| es_other s st' :
    st_permissions st' = st_permissions (sv_store s) ->
    st_decisions st' = st_decisions (sv_store s) -> env_step s (with_store st' s).

Definition svc_step (s s' : Svc) : Prop := task_step s s' \/ env_step s s'.

(** A daemon that starts: the store as the start-up sweeps left it. *)
Definition svc_init (st : Store) : Svc := mkSvc st ∅ ∅ [] ∅ [].

(** ** The write jobs and the audit tables *)

Lemma attempt_audit {A} (m : M A) : audit_same m -> audit_same (attempt m).
Proof.
  intros Hm st u st' H. unfold attempt in H. destruct (m st) as [[a st1]|] eqn:E; simplify_eq; [|done].
  by apply (Hm _ _ _ E).
Qed.

Lemma insert_session_event_row_audit sid e : audit_same (insert_session_event_row json_valid sid e).
Proof. by intros st n st' (_ & _ & _ & ->)%insert_session_event_row_run. Qed.

Lemma insert_event_audit e : audit_same (insert_event json_valid e).
Proof. by intros st n st' [_ ->]%insert_event_run. Qed.

Lemma publish_audit m : audit_same (publish m).
Proof. by intros st u st' [= <- <-]. Qed.

Lemma append_permission_event_audit kind payload sid event_id now :
  audit_same (append_permission_event kind payload sid event_id now).
Proof.
  apply attempt_audit. destruct sid as [sid|];
    unfold append_session_event_with_source, append_event_with_source, persist_with_outbox,
      publish_session_event, insert_unscoped_event_row;
    destruct (negb _); try done;
    repeat first [apply audit_same_ret | apply bump_audit | apply enqueue_if_audit
      | apply insert_session_event_row_audit | apply insert_event_audit | apply publish_audit
      | apply audit_same_bind; [|intros ?]].
Qed.

Lemma record_decision_event_audit id d kind event_id now :
  audit_same (record_decision_event id d kind event_id now).
Proof.
  apply audit_same_bind; [by intros st a st' [= <- <-]|intros row].
  apply audit_same_bind; [apply append_permission_event_audit|intros _; apply audit_same_ret].
Qed.

Lemma decide_job_run id o principal reason kind did eid now at1 at2 st d payload st' :
  decide_job id o principal reason kind did eid now at1 at2 st = Ok ((d, payload), st') ->
  exists r, st_permissions st !! id = Some r /\ pending_row r
  /\ st_permissions st'
     = <[id := with_permission_status (status_str (as_status o)) now r]> (st_permissions st).
Proof.
  intros (d1 & st1 & H1 & H)%bind_ok. apply bind_ok in H as (p1 & st2 & H2 & H).
  injection H as <- <- <-. apply decide_permission_run in H1 as (r & Hr & Hp & _ & _ & E & _).
  apply record_decision_event_audit in H2 as [E2 _]. exists r. by rewrite E2.
Qed.

(** Calls that never refuse a transition. *)
Definition no_late {A} (m : M A) : Prop :=
  forall st id from to, m st <> Err (InvalidPermissionTransition id from to).

Lemma no_late_bind {A B} (m : M A) (f : A -> M B) :
  no_late m -> (forall a, no_late (f a)) -> no_late (bind m f).
Proof.
  intros Hm Hf st id from to H. unfold bind in H. destruct (m st) as [[a st1]|e] eqn:E.
  - by apply Hf in H.
  - simplify_eq. by apply Hm in E.
Qed.

Ltac walk_no_late :=
  repeat first
    [ progress (unfold no_late; intros; discriminate) | apply no_late_bind; [|intros ?]
    | progress (intros ? ? ? ?; unfold gets, ret, modify, fail; discriminate) | case_match ].

Lemma decide_tail_no_late id decision now at' (affected : nat) :
  no_late (if (affected =? 0)%nat then fail (PermissionNotFound id)
           else bump_acp_permission_session id ;;
             (insert_decision decision ;;
              enqueue_if external "permission_requests" id now ;;
              enqueue_if external "permission_decisions" (pd_id decision) at' ;;
              ret decision)).
Proof.
  unfold bump_acp_permission_session, bump_session_change, next_change_seq, insert_decision,
    enqueue_if, enqueue. walk_no_late.
Qed.

(** A decision is refused as late only when the row is decided. *)
Lemma decide_job_late id o principal reason kind did eid now at1 at2 st i from to r :
  decide_job id o principal reason kind did eid now at1 at2 st
    = Err (InvalidPermissionTransition i from to) ->
  st_permissions st !! id = Some r -> ~ pending_row r.
Proof.
  intros H Hr Hp. unfold decide_job, bind at 1 in H.
  destruct (decide_permission _ _ _ _ _ _ _ _ _) as [[d st1]|e] eqn:E.
  { unfold record_decision_event, append_permission_event, attempt, bind, gets in H.
    destruct (match link_request_subject _ with _ => _ end st1) as [[? ?]|]; done. }
  simplify_eq. unfold decide_permission, bind at 1, gets in E. rewrite Hr, Hp in E.
  unfold bind at 1, update_permission, bind at 1, gets in E. rewrite Hr in E.
  unfold bind at 1, modify in E. simpl ret in E.
  by apply (decide_tail_no_late id (mkDecision did id at1 (status_str (as_status o))
    (Some principal) reason) now at1 1) in E.
Qed.

(** ** No receiver is forgotten *)

Definition task_id (t : Task) : string :=
  match t with
  | TRegister r | TCreated r | TPolicyCreated r _ => pr_id r
  | TReread id | TSettle id _ | TTimer id | TExpire id | TAnswer id _ _ _ | TPolicyDecided id _ => id
  end.

(** Tasks after which the request's waiter is answered, or its timer runs. *)
Definition will_answer (id : string) (t : Task) : Prop :=
  match t with
  | TCreated r => pr_id r = id
  | TReread i | TSettle i _ | TExpire i | TAnswer i _ _ _ => i = id
  | _ => False
  end.

Definition row_open (id : string) (st : Store) : Prop :=
  exists r, st_permissions st !! id = Some r /\ pending_row r.

(** Where the answer to a request is. *)
Definition tracked (id : string) (s : Svc) : Prop :=
  is_Some (sv_inbox s !! id)
  \/ (exists r, TRegister r ∈ sv_tasks s /\ pr_id r = id)
  \/ (id ∈ sv_pending s
      /\ ((exists t, t ∈ sv_tasks s /\ will_answer id t)
          \/ (row_open id (sv_store s) /\ TTimer id ∈ sv_tasks s))).

(** Moving on from one task to its successors. *)
Lemma tracked_task id (s s' : Svc) t new l1 l2 :
  sv_tasks s = l1 ++ t :: l2 -> sv_tasks s' = l1 ++ new ++ l2 ->
  (is_Some (sv_inbox s !! id) -> is_Some (sv_inbox s' !! id)) ->
  (id ∈ sv_pending s -> id ∈ sv_pending s' \/ is_Some (sv_inbox s' !! id)) ->
  (row_open id (sv_store s) -> row_open id (sv_store s') \/ exists x, x ∈ new /\ will_answer id x) ->
  (forall r, t = TRegister r -> pr_id r = id ->
     id ∈ sv_pending s' /\ exists x, x ∈ new /\ will_answer id x) ->
  (id ∈ sv_pending s -> will_answer id t \/ (t = TTimer id /\ row_open id (sv_store s)) ->
     is_Some (sv_inbox s' !! id)
     \/ (exists x, x ∈ new /\ will_answer id x)
     \/ (row_open id (sv_store s') /\ TTimer id ∈ new)) ->
  tracked id s -> tracked id s'.
Proof.
  intros E E' Hin Hp Hrow Hreg Hans H.
  assert (forall x, x ∈ sv_tasks s -> x = t \/ x ∈ sv_tasks s') as Hkeep.
  { intros x. rewrite E, E', !elem_of_app, elem_of_cons. tauto. }
  assert (forall x, x ∈ new -> x ∈ sv_tasks s') as Hnew by (intros x; rewrite E', !elem_of_app; auto).
  assert (forall x, x ∈ new -> will_answer id x -> id ∈ sv_pending s' -> tracked id s') as Hdone.
  { intros x Hx Hw Hpe. right; right. split; [done|]. left. eauto. }
  destruct H as [H|[(r & Hr & Hid)|[Hpe H]]]; [by left; auto| |].
  - destruct (Hkeep _ Hr) as [<-|Hr']; [|by right; left; eauto].
    destruct (Hreg r eq_refl Hid) as (Hpe & x & Hx & Hw). eauto.
  - destruct (Hp Hpe) as [Hpe'|?]; [|by left].
    assert (will_answer id t \/ (t = TTimer id /\ row_open id (sv_store s)) -> tracked id s') as Hgo.
    { intros Ht. destruct (Hans Hpe Ht) as [?|[(x & Hx & Hw)|[Ho Htm]]]; [by left|by eauto|].
      right; right. split; [done|]. right. split; [done|auto]. }
    destruct H as [(x & Hx & Hw)|[Ho Htm]].
    + destruct (Hkeep _ Hx) as [->|Hx']; [by auto|]. right; right. split; [done|]. left. eauto.
    + destruct (Hkeep _ Htm) as [<-|Htm']; [by auto|].
      destruct (Hrow Ho) as [Ho'|(x & Hx & Hw)]; [|by eauto].
      right; right. split; [done|]. by right.
Qed.

Lemma fire_spec id o s :
  (id ∈ sv_pending s /\ sv_inbox (fire id o s) = <[id := o]> (sv_inbox s)
   /\ sv_pending (fire id o s) = sv_pending s ∖ {[id]})
  \/ (id ∉ sv_pending s /\ fire id o s = s).
Proof. unfold fire. case_bool_decide; [left|right]; done. Qed.

Lemma fire_same id o s :
  sv_store (fire id o s) = sv_store s /\ sv_tasks (fire id o s) = sv_tasks s
  /\ sv_requested (fire id o s) = sv_requested s.
Proof. unfold fire. by case_bool_decide. Qed.

Lemma fire_inbox id o s i : is_Some (sv_inbox s !! i) -> is_Some (sv_inbox (fire id o s) !! i).
Proof.
  intros H. destruct (fire_spec id o s) as [(_ & -> & _)|[_ ->]]; [|done].
  apply lookup_insert_is_Some. destruct (decide (id = i)); auto.
Qed.

Lemma fire_pending id o s i :
  i ∈ sv_pending s -> i ∈ sv_pending (fire id o s) \/ is_Some (sv_inbox (fire id o s) !! i).
Proof.
  intros H. destruct (fire_spec id o s) as [(_ & -> & ->)|[_ ->]]; [|by left].
  destruct (decide (i = id)) as [->|]; [right; rewrite lookup_insert_eq; eauto|left; set_solver].
Qed.

Lemma row_open_same id st st' :
  st_permissions st' = st_permissions st -> row_open id st -> row_open id st'.
Proof. intros E (r & Hr & Hp). exists r. by rewrite E. Qed.

(** A committed decision closes one row and leaves the others. *)
Lemma decide_job_open i id o principal reason kind did eid now at1 at2 st d payload st' :
  decide_job id o principal reason kind did eid now at1 at2 st = Ok ((d, payload), st') ->
  row_open i st -> row_open i st' \/ i = id.
Proof.
  intros (r & Hr & Hp & E)%decide_job_run (r' & Hr' & Hp'). destruct (decide (i = id)); [by right|].
  left. exists r'. split; [|done]. by rewrite E, lookup_insert_ne.
Qed.

Lemma created_job_same r event_id now st st' :
  created_job r event_id now st = Ok (tt, st') \/ st' = st -> st_permissions st' = st_permissions st.
Proof.
  intros [H| ->]; [|done]. unfold created_job in H.
  apply append_permission_event_audit in H as [? _]. done.
Qed.

(** Answering a waiter is always a way on. *)
Lemma tracked_fire id i o s t new l1 l2 :
  sv_tasks s = l1 ++ t :: l2 -> (forall r, t <> TRegister r) -> (will_answer id t -> i = id) ->
  t <> TTimer id -> tracked id s -> tracked id (fire i o (with_tasks (l1 ++ new ++ l2) s)).
Proof.
  intros E Hr Hw Ht. destruct (fire_same i o (with_tasks (l1 ++ new ++ l2) s)) as (Es & Et & _).
  apply (tracked_task _ _ _ _ new l1 l2 E Et).
  - apply (fire_inbox i o (with_tasks (l1 ++ new ++ l2) s)).
  - apply (fire_pending i o (with_tasks (l1 ++ new ++ l2) s)).
  - rewrite Es. by left.
  - intros r ->. by destruct (Hr r).
  - intros Hpe [->%Hw|[? _]]; [|done]. left.
    destruct (fire_spec id o (with_tasks (l1 ++ new ++ l2) s)) as [(_ & -> & _)|[Hn _]]; [|done].
    rewrite lookup_insert_eq. eauto.
Qed.

Lemma tracked_live id i k pl s : tracked id s -> tracked id (live i k pl s).
Proof. done. Qed.

Ltac by_new := right; left; eexists; split; [by left|done].

Lemma tracked_task_step s s' id : task_step s s' -> tracked id s -> tracked id s'.
Proof.
  destruct 1 as [s l1 l2 r E|s l1 l2 r ev now st' E Hst|s l1 l2 i E|s l1 l2 i E|s l1 l2 i o E
    |s l1 l2 i did ev now at1 at2 d payload st' E Hd|s l1 l2 i did ev now at1 at2 from to E Hd
    |s l1 l2 i E|s l1 l2 i E|s l1 l2 i o k pl E|s l1 l2 r d ev now st' E Hst
    |s l1 l2 i d ev now payload st' E Hd|s l1 l2 i d E].
  - eapply (tracked_task _ _ _ _ [TCreated r] l1 l2); [exact E|reflexivity|..]; simpl; auto.
    + intros Hpe. left. set_solver.
    + intros r' [= <-] <-. split; [set_solver|]. eexists. split; [by left|done].
    + intros _ [[]|[? _]]; done.
  - apply created_job_same in Hst.
    eapply (tracked_task _ _ _ _ [TReread (pr_id r)] l1 l2); [exact E|reflexivity|..]; simpl; auto; [|done|].
    + intros Ho. left. by apply (row_open_same _ (sv_store s)).
    + intros _ [<-|[? _]]; [by_new|done].
  - eapply (tracked_task _ _ _ _ [match settle_outcome (get_permission_request i (sv_store s)) with
      | None => TTimer i | Some o => TSettle i o end] l1 l2); [exact E|reflexivity|..]; simpl; auto; [done|].
    intros _ [<-|[? _]]; [|done]. unfold settle_outcome, get_permission_request.
    destruct (st_permissions (sv_store s) !! i) as [r|] eqn:Er; [|by_new].
    destruct (from_wire (pr_status r)) eqn:Ew; [|by_new..].
    right; right. split; [|by left]. exists r. unfold pending_row. by rewrite Ew.
  - eapply (tracked_task _ _ _ _ [TSettle i Expired] l1 l2); [exact E|reflexivity|..]; simpl; auto; [done|].
    intros _ [<-|[? _]]; [by_new|done].
  - by apply (tracked_fire id i o s _ [TTimer i] l1 l2 E).
  - eapply (tracked_task _ _ _ _ [TAnswer i (timeout_outcome timeout_action)
      (outcome_kind (timeout_outcome timeout_action)) payload] l1 l2); [exact E|reflexivity|..]; simpl; auto; [|done|].
    + intros Ho. destruct (decide_job_open id _ _ _ _ _ _ _ _ _ _ _ _ _ _ Hd Ho) as [?| ->]; [by left|].
      right. eexists. split; [by left|done].
    + intros _ [[]|[[= ->] _]]. by_new.
  - eapply (tracked_task _ _ _ _ [] l1 l2); [exact E|reflexivity|..]; simpl; auto; [done|].
    intros _ [[]|[[= ->] (r & Hr & Hp)]]. by destruct (decide_job_late _ _ _ _ _ _ _ _ _ _ _ _ _ _ r Hd Hr).
  - eapply (tracked_task _ _ _ _ [TExpire i] l1 l2); [exact E|reflexivity|..]; simpl; auto; [done|].
    intros _ [[]|[[= ->] _]]. by_new.
  - by apply (tracked_fire id i Expired s _ [] l1 l2 E).
  - intros H. apply tracked_live. by apply (tracked_fire id i o s _ [] l1 l2 E).
  - apply created_job_same in Hst.
    eapply (tracked_task _ _ _ _ [TPolicyDecided (pr_id r) d] l1 l2); [exact E|reflexivity|..]; simpl; auto; [|done|].
    + intros Ho. left. by apply (row_open_same _ (sv_store s)).
    + intros _ [[]|[? _]]; done.
  - apply record_decision_event_audit in Hd as [Hd _].
    eapply (tracked_task _ _ _ _ [] l1 l2); [exact E|reflexivity|..]; simpl; auto; [|done|].
    + intros Ho. left. by apply (row_open_same _ (sv_store s)).
    + intros _ [[]|[? _]]; done.
  - eapply (tracked_task _ _ _ _ [] l1 l2); [exact E|reflexivity|..]; simpl; auto; [done|].
    intros _ [[]|[? _]]; done.
Qed.

(** More tasks, and rows that stay open or get a decider. *)
Lemma tracked_more id (s s' : Svc) new :
  sv_tasks s' = sv_tasks s ++ new -> sv_inbox s' = sv_inbox s -> sv_pending s' = sv_pending s ->
  (row_open id (sv_store s) -> row_open id (sv_store s') \/ exists x, x ∈ new /\ will_answer id x) ->
  tracked id s -> tracked id s'.
Proof.
  intros Et Ei Ep Hrow H. unfold tracked. rewrite Ei, Ep, Et.
  destruct H as [H|[(r & Hr & Hid)|[Hpe [(x & Hx & Hw)|[Ho Htm]]]]]; [by left|right; left|right; right..].
  - exists r. rewrite elem_of_app. auto.
  - split; [done|]. left. exists x. rewrite elem_of_app. auto.
  - split; [done|]. rewrite elem_of_app. destruct (Hrow Ho) as [?|(x & Hx & Hw)]; [by auto|].
    left. exists x. rewrite elem_of_app. auto.
Qed.

Lemma request_run input expires_at new_id now st r st' :
  insert_request_job input expires_at new_id now st = Ok (r, st') ->
  pr_id r = new_id /\ st_permissions st !! new_id = None /\ pending_row r
  /\ st_permissions st' = <[new_id := r]> (st_permissions st).
Proof. by intros (Hn & -> & E & _)%append_permission_request_run. Qed.

Lemma policy_run input new_id did now st r d st' :
  approve_by_policy_job input new_id did now st = Ok ((r, d), st') ->
  st_permissions st !! new_id = None /\ st_permissions st' = <[new_id := r]> (st_permissions st).
Proof. intros (Hn & _ & Er & _ & E & _)%append_approved_run. simpl in *. subst r. done. Qed.

(** Nothing in the service unregisters a request it took. *)
Lemma tracked_env_step s s' id :
  env_step s s' -> (id ∈ sv_requested s -> tracked id s) -> id ∈ sv_requested s' -> tracked id s'.
Proof.
  destruct 1 as [s input ex new_id now r st' H|s i o pr re did ev now at1 at2 d payload st' H
    |s input new_id did now r d st' H|s st' E1 E2]; simpl; intros Ht Hid.
  - apply request_run in H as (Eid & Hn & Hp & E).
    destruct (decide (id = pr_id r)) as [->|Hne].
    { right; left. exists r. split; [|done]. simpl. rewrite elem_of_app. right. by left. }
    eapply (tracked_more id s _ [TRegister r]); [done..| |apply Ht; set_solver].
    intros (q & Hq & Hpq). left. exists q. split; [|done]. simpl. rewrite E, lookup_insert_ne; [done|].
    congruence.
  - eapply (tracked_more id s _ [TAnswer i o (outcome_kind o) payload]); [done..| |by auto].
    intros Ho. destruct (decide_job_open id _ _ _ _ _ _ _ _ _ _ _ _ _ _ H Ho) as [?| ->]; [by left|].
    right. eexists. split; [by left|done].
  - apply policy_run in H as [Hn E].
    eapply (tracked_more id s _ [TPolicyCreated r d]); [done..| |by auto].
    intros (q & Hq & Hpq). left. exists q. split; [|done]. simpl. rewrite E, lookup_insert_ne; [done|].
    congruence.
  - eapply (tracked_more id s _ []); [by rewrite app_nil_r|done..| |by auto].
    intros Ho. left. by apply (row_open_same _ (sv_store s)).
Qed.

Lemma task_step_requested s s' : task_step s s' -> sv_requested s' = sv_requested s.
Proof. destruct 1; try done; unfold live; simpl; by rewrite ?(proj2 (proj2 (fire_same _ _ _))). Qed.

Lemma reachable_tracked st s id :
  rtc svc_step (svc_init st) s -> id ∈ sv_requested s -> tracked id s.
Proof.
  intros H. remember (svc_init st) as s0 eqn:E0.
  assert (id ∈ sv_requested s0 -> tracked id s0) as H0 by (subst; set_solver). clear E0.
  induction H as [|a b c [Hs|Hs] _ IH]; [done|..]; apply IH.
  - rewrite (task_step_requested _ _ Hs). intros Hid. eapply tracked_task_step; eauto.
  - by apply tracked_env_step with a.
Qed.

(** ** What the receiver hears agrees with the row *)

Definition row_status (id : string) (st : Store) : option PermissionStatus :=
  (fun r => from_wire (pr_status r)) <$> st_permissions st !! id.

(** An approval or a denial is only ever the row's. *)
Definition agrees (id : string) (o : PermissionOutcome) (st : Store) : Prop :=
  match o with
  | Approved _ _ => row_status id st = Some PsApproved
  | Denied _ => row_status id st = Some PsDenied
  | _ => True
  end.

Definition task_agrees (st : Store) (t : Task) : Prop :=
  match t with
  | TSettle id o | TAnswer id o _ _ => agrees id o st
  | _ => True
  end.

Definition agree_inv (s : Svc) : Prop :=
  Forall (task_agrees (sv_store s)) (sv_tasks s)
  /\ forall id o, sv_inbox s !! id = Some o -> agrees id o (sv_store s).

(** Rows that are decided stay as they are. *)
Definition decided_kept (st st' : Store) : Prop :=
  forall id s, row_status id st = Some s -> s <> PsPending -> row_status id st' = Some s.

Lemma agrees_kept id o st st' : decided_kept st st' -> agrees id o st -> agrees id o st'.
Proof. intros H. destruct o; simpl; [|..|done|done]; intros E; by apply H. Qed.

Lemma task_agrees_kept st st' t : decided_kept st st' -> task_agrees st t -> task_agrees st' t.
Proof. intros H. destruct t; simpl; try done; by apply agrees_kept. Qed.

Lemma same_kept st st' : st_permissions st' = st_permissions st -> decided_kept st st'.
Proof. intros E id s. unfold row_status. by rewrite E. Qed.

Lemma insert_kept id r st st' :
  st_permissions st' = <[id := r]> (st_permissions st) ->
  (forall q, st_permissions st !! id = Some q -> pending_row q) -> decided_kept st st'.
Proof.
  intros E Hold i s. unfold row_status. rewrite E. destruct (decide (i = id)) as [->|Hne].
  - intros (q & Hq & ->)%fmap_Some Hs. apply Hold in Hq. unfold pending_row in Hq.
    by destruct (from_wire (pr_status q)).
  - by rewrite lookup_insert_ne.
Qed.

(** A task makes way for others that agree. *)
Lemma agree_task s s' t new l1 l2 :
  sv_tasks s = l1 ++ t :: l2 -> sv_tasks s' = l1 ++ new ++ l2 ->
  decided_kept (sv_store s) (sv_store s') -> Forall (task_agrees (sv_store s')) new ->
  (forall id o, sv_inbox s' !! id = Some o ->
     sv_inbox s !! id = Some o \/ task_agrees (sv_store s) t /\ agrees id o (sv_store s')) ->
  agree_inv s -> agree_inv s'.
Proof.
  intros E E' Hk Hnew Hin [Ht Hi]. split.
  - rewrite E' . rewrite E in Ht. apply Forall_app in Ht as [H1 H2]. apply Forall_cons in H2 as [_ H2].
    apply Forall_app. split; [|apply Forall_app; split; [done|]];
      (eapply Forall_impl; [done|intros x; by apply task_agrees_kept]).
  - intros id o Ho. destruct (Hin id o Ho) as [H|[_ H]]; [|done]. eapply agrees_kept; eauto.
Qed.

Lemma agree_fire id o s t new l1 l2 :
  sv_tasks s = l1 ++ t :: l2 -> Forall (task_agrees (sv_store s)) new -> agrees id o (sv_store s) ->
  agree_inv s -> agree_inv (fire id o (with_tasks (l1 ++ new ++ l2) s)).
Proof.
  clear. intros E Hnew Ho [Ht Hi]. destruct (fire_same id o (with_tasks (l1 ++ new ++ l2) s)) as (Es & Et & _).
  split.
  - rewrite Es, Et. simpl. rewrite E in Ht. rewrite !Forall_app, Forall_cons in *. tauto.
  - rewrite Es. intros i q. destruct (fire_spec id o (with_tasks (l1 ++ new ++ l2) s)) as
      [(_ & -> & _)|[_ ->]]; [|apply Hi].
    intros [[<- <-]|[_ ?]]%lookup_insert_Some; [done|by apply Hi].
Qed.

Lemma settle_outcome_agrees id st o :
  settle_outcome (get_permission_request id st) = Some o -> agrees id o st.
Proof.
  unfold settle_outcome, get_permission_request, agrees, row_status.
  destruct (st_permissions st !! id) as [r|]; simpl; [|by intros [= <-]].
  destruct (from_wire (pr_status r)); by intros [= <-].
Qed.

Lemma decide_job_kept id o principal reason kind did eid now at1 at2 st d payload st' :
  decide_job id o principal reason kind did eid now at1 at2 st = Ok ((d, payload), st') ->
  decided_kept st st' /\ agrees id o st'.
Proof.
  intros (r & Hr & Hp & E)%decide_job_run. split.
  - eapply insert_kept; [exact E|]. intros q Hq. congruence.
  - unfold agrees, row_status. rewrite E, lookup_insert_eq. simpl. rewrite from_wire_str.
    by destruct o.
Qed.

Lemma agree_task_step s s' : task_step s s' -> agree_inv s -> agree_inv s'.
Proof.
  destruct 1 as [s l1 l2 r E|s l1 l2 r ev now st' E Hst|s l1 l2 i E|s l1 l2 i E|s l1 l2 i o E
    |s l1 l2 i did ev now at1 at2 d payload st' E Hd|s l1 l2 i did ev now at1 at2 from to E Hd
    |s l1 l2 i E|s l1 l2 i E|s l1 l2 i o k pl E|s l1 l2 r d ev now st' E Hst
    |s l1 l2 i d ev now payload st' E Hd|s l1 l2 i d E]; intros Hi;
    try (assert (task_agrees (sv_store s) (TSettle i o)) as Ho
           by (destruct Hi as [Ht _]; rewrite E in Ht; by apply Forall_elt in Ht));
    try (assert (task_agrees (sv_store s) (TAnswer i o k pl)) as Ho
           by (destruct Hi as [Ht _]; rewrite E in Ht; by apply Forall_elt in Ht)).
  - eapply (agree_task s _ _ [TCreated r] l1 l2); [exact E|reflexivity|by apply same_kept| |by left|done].
    by repeat constructor.
  - apply created_job_same in Hst.
    eapply (agree_task s _ _ [TReread _] l1 l2); [exact E|reflexivity|by apply same_kept| |by left|done].
    by repeat constructor.
  - eapply (agree_task s _ _ [_] l1 l2); [exact E|reflexivity|by apply same_kept| |by left|done].
    constructor; [|constructor]. simpl.
    destruct (settle_outcome _) as [o|] eqn:Eo; [|done]. by apply settle_outcome_agrees.
  - eapply (agree_task s _ _ [TSettle i Expired] l1 l2); [exact E|reflexivity|by apply same_kept| |by left|done].
    by repeat constructor.
  - apply (agree_fire i o s _ [TTimer i] l1 l2 E); [by repeat constructor|done|done].
  - apply decide_job_kept in Hd as [Hk Ha].
    eapply (agree_task s _ _ [TAnswer _ _ _ _] l1 l2); [exact E|reflexivity|done| |by left|done].
    by repeat constructor.
  - eapply (agree_task s _ _ [] l1 l2); [exact E|reflexivity|by apply same_kept| |by left|done].
    constructor.
  - eapply (agree_task s _ _ [TExpire i] l1 l2); [exact E|reflexivity|by apply same_kept| |by left|done].
    by repeat constructor.
  - apply (agree_fire i Expired s _ [] l1 l2 E); [constructor|done|done].
  - apply (agree_fire i o s _ [] l1 l2 E); [constructor|done|done].
  - apply created_job_same in Hst.
    eapply (agree_task s _ _ [TPolicyDecided _ d] l1 l2); [exact E|reflexivity|by apply same_kept| |by left|done].
    by repeat constructor.
  - apply record_decision_event_audit in Hd as [Hd _].
    eapply (agree_task s _ _ [] l1 l2); [exact E|reflexivity|by apply same_kept| |by left|done].
    constructor.
  - eapply (agree_task s _ _ [] l1 l2); [exact E|reflexivity|by apply same_kept| |by left|done].
    constructor.
Qed.

Lemma agree_more s s' new :
  sv_tasks s' = sv_tasks s ++ new -> sv_inbox s' = sv_inbox s ->
  decided_kept (sv_store s) (sv_store s') -> Forall (task_agrees (sv_store s')) new ->
  agree_inv s -> agree_inv s'.
Proof.
  intros Et Ei Hk Hnew [Ht Hi]. split.
  - rewrite Et. apply Forall_app. split; [|done].
    eapply Forall_impl; [done|intros x; by apply task_agrees_kept].
  - rewrite Ei. intros id o Ho. eapply agrees_kept; eauto.
Qed.

Lemma agree_env_step s s' : env_step s s' -> agree_inv s -> agree_inv s'.
Proof.
  destruct 1 as [s input ex new_id now r st' H|s i o pr re did ev now at1 at2 d payload st' H
    |s input new_id did now r d st' H|s st' E1 E2]; simpl.
  - apply request_run in H as (Eid & Hn & Hp & E).
    eapply (agree_more s _ [TRegister r]); [done..| |by repeat constructor].
    eapply insert_kept; [exact E|]. congruence.
  - apply decide_job_kept in H as [Hk Ha].
    by eapply (agree_more s _ [TAnswer i o (outcome_kind o) payload]); [..|repeat constructor].
  - apply policy_run in H as [Hn E].
    eapply (agree_more s _ [TPolicyCreated r d]); [done..| |by repeat constructor].
    eapply insert_kept; [exact E|]. congruence.
  - eapply (agree_more s _ []); [by rewrite app_nil_r|done|by apply same_kept|constructor].
Qed.

Lemma reachable_agree st s : rtc svc_step (svc_init st) s -> agree_inv s.
Proof.
  intros H. remember (svc_init st) as s0 eqn:E0.
  assert (agree_inv s0) as H0 by (subst; split; [constructor|done]). clear E0.
  induction H as [|a b c [Hs|Hs] _ IH]; [done|..]; apply IH;
    [by apply agree_task_step with a|by apply agree_env_step with a].
Qed.

(** ** The session-cancel sweep *)

(** A request of a session's agent that is still open. *)
Definition asks (session_id : string) (r : PermissionRequestRecord) : Prop :=
  pr_source r = source_str SrcAcp /\ pr_subject_id r = Some session_id
  /\ pr_status r = "pending"%string.

Lemma cancel_if_pending_run id reason did eid now at1 at2 s b s' r :
  st_permissions (sv_store s) !! id = Some r -> pr_status r = "pending"%string ->
  cancel_if_pending id reason did eid now at1 at2 s = (Ok b, s') ->
  b = true
  /\ st_permissions (sv_store s')
     = <[id := with_permission_status "cancelled" now r]> (st_permissions (sv_store s))
  /\ (id ∈ sv_pending s -> sv_inbox s' !! id = Some (Canceled reason))
  /\ (forall i, i <> id -> sv_inbox s' !! i = sv_inbox s !! i
                           /\ (i ∈ sv_pending s' <-> i ∈ sv_pending s)).
Proof.
  clear. intros Hr Hst H. assert (pending_row r) as Hp by (by apply pending_status_row).
  unfold cancel_if_pending, decide_and_publish in H.
  destruct (run_decide _ _ _ _ _ _ _) as [[[d payload] st']|e] eqn:E.
  - injection H as <- <-. apply decide_job_run in E as (r' & Hr' & _ & E).
    simpl in *. rewrite Hr in Hr'. injection Hr' as <-. split; [done|].
    destruct (fire_same id (Canceled reason) (with_store st' s)) as (-> & _ & _).
    split; [done|].
    destruct (fire_spec id (Canceled reason) (with_store st' s)) as [(_ & -> & ->)|[Hn ->]]; simpl.
    + split; [by rewrite lookup_insert_eq|]. intros i Hi. rewrite lookup_insert_ne by done.
      split; [done|set_solver].
    + split; [done|]. done.
  - destruct e; try done. by destruct (decide_job_late _ _ _ _ _ _ _ _ _ _ _ _ _ _ r E Hr).
Qed.

Lemma cancel_rows_run rows reason ids now k n s m s' :
  NoDup (pr_id <$> rows) ->
  (forall r, r ∈ rows -> st_permissions (sv_store s) !! pr_id r = Some r
                         /\ pr_status r = "pending"%string) ->
  cancel_rows rows reason ids now k n s = (Ok m, s') ->
  m = (n + length rows)%nat
  /\ (forall i, i ∉ pr_id <$> rows ->
        st_permissions (sv_store s') !! i = st_permissions (sv_store s) !! i)
  /\ (forall r, r ∈ rows ->
        st_permissions (sv_store s') !! pr_id r = Some (with_permission_status "cancelled" now r)
        /\ (pr_id r ∈ sv_pending s -> sv_inbox s' !! pr_id r = Some (Canceled reason)))
  /\ (forall i, i ∉ pr_id <$> rows -> sv_inbox s' !! i = sv_inbox s !! i).
Proof.
  clear. revert k n s. induction rows as [|row rows IH]; intros k n s Hnd Hrows H; simpl in H.
  { injection H as <- <-. simpl. split; [lia|]. split; [done|]. split; [|done].
    by intros r ?%not_elem_of_nil. }
  rewrite fmap_cons in Hnd |- *. apply NoDup_cons in Hnd as [Hnot Hnd].
  destruct (Hrows row ltac:(by left)) as [Hr Hst].
  destruct (cancel_if_pending _ _ _ _ _ _ _ _) as [[b|e] s1] eqn:E; [|done].
  destruct (cancel_if_pending_run _ _ _ _ _ _ _ _ _ _ row Hr Hst E) as (-> & Ep & Hans & Hoth).
  assert (forall r, r ∈ rows -> st_permissions (sv_store s1) !! pr_id r = Some r
                                /\ pr_status r = "pending"%string) as Hrows1.
  { intros r Hr'. rewrite Ep, lookup_insert_ne; [apply Hrows; by right|].
    intros Heq. apply Hnot. rewrite Heq. by apply list_elem_of_fmap_2. }
  destruct (IH (S k) (S n) s1 Hnd Hrows1 H) as (-> & Hout & Hin & Hbox).
  split; [simpl; lia|]. split; [|split].
  - intros i [Hne Hn]%not_elem_of_cons. by rewrite Hout, Ep, lookup_insert_ne by done.
  - intros r [->|Hr']%elem_of_cons.
    + rewrite Hout, Ep, lookup_insert_eq by done. split; [done|]. intros Hpe.
      rewrite Hbox by done. auto.
    + destruct (Hin r Hr') as [H1 H2]. split; [done|]. intros Hpe. apply H2. apply Hoth; [|done].
      intros Heq. apply Hnot. rewrite <- Heq. by apply list_elem_of_fmap_2.
  - intros i [Hne Hn]%not_elem_of_cons. rewrite Hbox by done. by apply Hoth.
Qed.

Lemma elem_of_session_asks limit sid st r :
  (forall i q, st_permissions st !! i = Some q -> pr_id q = i) ->
  r ∈ query_pending_permissions_for_subject (source_str SrcAcp) sid limit st ->
  st_permissions st !! pr_id r = Some r /\ asks sid r.
Proof.
  clear. intros Hid H. unfold query_pending_permissions_for_subject in H.
  apply elem_of_take in H as (j & H & _). apply list_elem_of_lookup_2 in H. rewrite order_by_perm in H.
  unfold pending_where in H. apply list_elem_of_filter in H as [[Hs Hb%bool_decide_eq_true] H].
  apply list_elem_of_fmap in H as ([i q] & -> & Hq%elem_of_map_to_list). simpl in *.
  rewrite (Hid _ _ Hq). unfold asks. tauto.
Qed.

Definition session_asks (sid : string) (st : Store) : list PermissionRequestRecord :=
  pending_where (fun r => bool_decide (pr_source r = source_str SrcAcp
                                       /\ pr_subject_id r = Some sid)) st.

Lemma session_asks_nodup sid st :
  (forall i q, st_permissions st !! i = Some q -> pr_id q = i) ->
  NoDup (pr_id <$> session_asks sid st).
Proof.
  clear. intros Hid. unfold session_asks, pending_where. apply NoDup_fmap_2_strong.
  - intros x y [_ ([i q] & -> & Hq%elem_of_map_to_list)%list_elem_of_fmap]%list_elem_of_filter
      [_ ([j q'] & -> & Hq'%elem_of_map_to_list)%list_elem_of_fmap]%list_elem_of_filter E.
    simpl in *. rewrite (Hid _ _ Hq), (Hid _ _ Hq') in E. subst. congruence.
  - apply NoDup_filter, NoDup_fmap_2_strong; [|apply NoDup_map_to_list].
    intros [i q] [j q'] Hq%elem_of_map_to_list Hq'%elem_of_map_to_list E. simpl in E. subst.
    by rewrite <- (Hid _ _ Hq), <- (Hid _ _ Hq').
Qed.

Lemma elem_of_asks sid st i r :
  st_permissions st !! i = Some r -> asks sid r -> r ∈ session_asks sid st.
Proof.
  intros Hr (H1 & H2 & H3). apply list_elem_of_filter.
  split; [split; [done|by apply bool_decide_eq_true]|]. apply list_elem_of_fmap.
  exists (i, r). split; [done|]. by apply elem_of_map_to_list.
Qed.

(** Cancelling a session answers every open question of its agent: with at
    most a thousand of them open, the sweep reports their number, each row is
    cancelled and its waiter, if registered, told so; no other row and no other
    receiver is touched, and none of the session's requests is left open. *)
Theorem session_cancel_settles sid reason ids now s n s' :
  audit_inv (sv_store s) ->
  (length (session_asks sid (sv_store s)) <= SESSION_PENDING_PERMISSION_SCAN_LIMIT)%nat ->
  cancel_pending_for_session sid reason ids now s = (Ok n, s') ->
  n = length (session_asks sid (sv_store s))
  /\ (forall i r, st_permissions (sv_store s) !! i = Some r -> asks sid r ->
        st_permissions (sv_store s') !! i = Some (with_permission_status "cancelled" now r)
        /\ (i ∈ sv_pending s -> sv_inbox s' !! i = Some (Canceled reason)))
  /\ (forall i r, st_permissions (sv_store s) !! i = Some r -> ~ asks sid r ->
        st_permissions (sv_store s') !! i = Some r /\ sv_inbox s' !! i = sv_inbox s !! i)
  /\ (forall i r, st_permissions (sv_store s') !! i = Some r -> ~ asks sid r).
Proof.
  clear. intros Hi Hlim H. assert (forall i q, st_permissions (sv_store s) !! i = Some q -> pr_id q = i) as Hid
    by (intros i q Hq; by apply (au_request _ _ Hi)).
  unfold cancel_pending_for_session in H. set (rows := query_pending_permissions_for_subject _ _ _ _) in H.
  assert (rows ≡ₚ session_asks sid (sv_store s)) as Hperm.
  { unfold rows, query_pending_permissions_for_subject. rewrite take_ge; rewrite order_by_perm; done. }
  assert (forall r, r ∈ rows <-> r ∈ session_asks sid (sv_store s)) as Hel by (intros r; by rewrite Hperm).
  assert (forall r, r ∈ rows -> st_permissions (sv_store s) !! pr_id r = Some r /\ asks sid r) as Hrow
    by (intros r; by apply elem_of_session_asks).
  apply cancel_rows_run in H as (-> & Hout & Hin & Hbox).
  2:{ rewrite Hperm. by apply session_asks_nodup. }
  2:{ intros r Hr%Hrow. unfold asks in Hr. tauto. }
  assert (forall i r, st_permissions (sv_store s) !! i = Some r -> ~ asks sid r ->
            i ∉ pr_id <$> rows) as Hother.
  { intros i r Hr Hn (q & -> & Hq%Hrow)%list_elem_of_fmap. destruct Hq as [Hq Ha]. congruence. }
  split; [by rewrite Hperm|]. split; [|split].
  - intros i r Hr Ha. pose proof (elem_of_asks _ _ _ _ Hr Ha) as Hq%Hel.
    apply Hin in Hq. by rewrite (Hid _ _ Hr) in Hq.
  - intros i r Hr Hn. specialize (Hother i r Hr Hn). by rewrite Hout, Hbox.
  - intros i r Hr Ha. destruct (decide (i ∈ pr_id <$> rows)) as [(q & -> & Hq)%list_elem_of_fmap|Hn].
    + apply Hin in Hq as [Hq _]. rewrite Hq in Hr. injection Hr as <-. by destruct Ha as (_ & _ & ?).
    + rewrite Hout in Hr by done. apply Hn. rewrite <- (Hid _ _ Hr).
      apply list_elem_of_fmap_2, Hel. by eapply elem_of_asks.
Qed.

(** ** The tasks run out *)

Definition weight (t : Task) : nat :=
  match t with
  | TRegister _ => 7 | TCreated _ => 6 | TReread _ => 5 | TSettle _ _ => 4 | TTimer _ => 3
  | TExpire _ => 1 | TAnswer _ _ _ _ => 1 | TPolicyCreated _ _ => 2 | TPolicyDecided _ _ => 1
  end.

Definition backlog (s : Svc) : nat := foldr (fun t n => (weight t + n)%nat) 0%nat (sv_tasks s).

Lemma backlog_app l1 l2 :
  foldr (fun t n => (weight t + n)%nat) 0%nat (l1 ++ l2)
  = (foldr (fun t n => (weight t + n)%nat) 0%nat l1 + foldr (fun t n => (weight t + n)%nat) 0%nat l2)%nat.
Proof. induction l1; simpl; lia. Qed.

Lemma task_step_backlog s s' : task_step s s' -> (backlog s' < backlog s)%nat.
Proof.
  unfold backlog. destruct 1 as [s l1 l2 r E|s l1 l2 r ev now st' E Hst|s l1 l2 i E|s l1 l2 i E|s l1 l2 i o E
    |s l1 l2 i did ev now at1 at2 d payload st' E Hd|s l1 l2 i did ev now at1 at2 from to E Hd
    |s l1 l2 i E|s l1 l2 i E|s l1 l2 i o k pl E|s l1 l2 r d ev now st' E Hst
    |s l1 l2 i d ev now payload st' E Hd|s l1 l2 i d E]; rewrite E;
    simpl; rewrite ?(proj1 (proj2 (fire_same _ _ _))); simpl; rewrite !backlog_app; simpl; try lia.
  destruct (settle_outcome _); simpl; lia.
Qed.

Lemma task_step_exists s t l : sv_tasks s = t :: l -> exists s', task_step s s'.
Proof.
  intros E. change (sv_tasks s = [] ++ t :: l) in E. destruct t.
  - eexists. by eapply ts_register.
  - eexists. eapply (ts_created s [] l record ""%string ""%string); [exact E|by right].
  - eexists. by eapply ts_reread.
  - eexists. by eapply ts_settle.
  - eexists. by eapply ts_timer_failed.
  - eexists. by eapply ts_expire.
  - eexists. by eapply ts_answer.
  - eexists. eapply (ts_policy_created s [] l record decision ""%string ""%string); [exact E|by right].
  - eexists. by eapply ts_policy_failed.
Qed.

Lemma drains n s : (backlog s <= n)%nat -> exists s', rtc task_step s s' /\ sv_tasks s' = [].
Proof.
  revert s. induction n as [|n IH]; intros s Hn; destruct (sv_tasks s) as [|t l] eqn:E; [by exists s| |by exists s|].
  - unfold backlog in Hn. rewrite E in Hn. destruct t; simpl in Hn; lia.
  - destruct (task_step_exists s t l E) as [s1 H1]. pose proof (task_step_backlog _ _ H1).
    destruct (IH s1) as (s2 & H2 & E2); [lia|]. exists s2. split; [by eapply rtc_l|done].
Qed.

Lemma svc_steps_of_tasks s s' : rtc task_step s s' -> rtc svc_step s s'.
Proof. induction 1 as [|a b c H _ IH]; [done|]. eapply rtc_l; [by left|done]. Qed.

(** C18. No caller waits forever. In every reachable state a request whose row
    is decided has been answered or has a task left that answers it, so a
    request left with nothing but its sleeping timer is an open one; the tasks
    outstanding at any moment run out after finitely many steps, in any order,
    and once they have every receiver holds an answer. *)
Theorem no_waiter_hangs st s :
  rtc svc_step (svc_init st) s ->
  (forall id, id ∈ sv_requested s -> sv_inbox s !! id = None ->
     (forall t, t ∈ sv_tasks s -> task_id t = id -> t = TTimer id) ->
     row_open id (sv_store s) /\ TTimer id ∈ sv_tasks s)
  /\ (exists s', rtc task_step s s' /\ sv_tasks s' = [])
  /\ (forall n s', nsteps task_step n s s' -> (n <= backlog s)%nat)
  /\ (forall s', rtc task_step s s' -> sv_tasks s' = [] ->
       forall id, id ∈ sv_requested s -> is_Some (sv_inbox s' !! id)).
Proof.
  intros H. split; [|split; [by eapply drains|split]].
  - intros id Hid Hn Hall. destruct (reachable_tracked st s id H Hid) as
      [[o Ho]|[(r & Hr & Er)|[_ [(t & Ht & Hw)|Hopen]]]]; [congruence|..|done].
    + by specialize (Hall _ Hr Er).
    + assert (task_id t = id) as Et by (by destruct t). rewrite (Hall t Ht Et) in Hw. done.
  - intros n s'. clear H. induction 1 as [|n a b c Hs _ IH]; [lia|].
    pose proof (task_step_backlog _ _ Hs). lia.
  - intros s' Hs' He id Hid. assert (id ∈ sv_requested s') as Hid'.
    { clear H He. induction Hs' as [|a b c Hs _ IH]; [done|]. apply IH.
      by rewrite (task_step_requested _ _ Hs). }
    destruct (reachable_tracked st s' id) as [?|[(r & Hr & _)|[_ [(t & Ht & _)|[_ Ht]]]]]; [|done|done| | |].
    + etrans; [exact H|]. by apply svc_steps_of_tasks.
    + rewrite He in Hr. by apply not_elem_of_nil in Hr.
    + rewrite He in Ht. by apply not_elem_of_nil in Ht.
    + rewrite He in Ht. by apply not_elem_of_nil in Ht.
Qed.

(** C23. A caller acts on an approval, or on a denial, only when the durable row
    says so: whatever deciders, the timer and the requester's own re-read raced,
    an answer [Approved] was delivered only if the row is approved, and [Denied]
    only if it is denied. *)
Theorem answer_agrees_with_row st s id o :
  rtc svc_step (svc_init st) s -> sv_inbox s !! id = Some o ->
  match o with
  | Approved _ _ => row_status id (sv_store s) = Some PsApproved
  | Denied _ => row_status id (sv_store s) = Some PsDenied
  | Canceled _ | Expired => True
  end.
Proof. intros H Ho. destruct (reachable_agree st s H) as [_ Hi]. specialize (Hi id o Ho). by destruct o. Qed.
End service.

(** ** A small run *)

Definition demo_record : PermissionRequestRecord :=
  mkPermission "perm_1" "t0" "t0" "pending" "acp" None (Some "s"%string) "{}" None.
Definition demo_request : M PermissionRequestRecord :=
  insert_request_job (fun _ => true) true (mkNewPerm SrcAcp None (Some "s"%string) "{}") None
    "perm_1" "t0".
Definition demo_decide : M (PermissionDecisionRecord * string) :=
  decide_job (fun _ => true) true (fun _ _ _ => "{}"%string) "perm_1" (Approved None None) "admin" None
    EVENT_KIND_PERMISSION_APPROVED "pdec_1" "evt_1" "t1" "t1" "t1".
Definition demo_svc_step : Svc -> Svc -> Prop :=
  svc_step (fun _ => true) true (fun _ => "{}"%string) (fun _ _ _ => "{}"%string) TimeoutDeny.

(** The row is decided between its insert and the registration of its waiter. *)
Definition demo_asked : Svc :=
  mkSvc (exec demo_request empty_store) ∅ ∅ [TRegister demo_record]
    ({["perm_1"%string]} ∪ ∅) [].
Definition demo_raced : Svc :=
  with_store (exec demo_decide (exec demo_request empty_store))
    (with_tasks (sv_tasks demo_asked ++
       [TAnswer "perm_1" (Approved None None) (outcome_kind (Approved None None)) "{}"]) demo_asked).

Lemma demo_raced_reached : rtc demo_svc_step (svc_init empty_store) demo_raced.
Proof.
  apply rtc_l with demo_asked.
  - right. apply (es_request _ _ _ (svc_init empty_store)
      (mkNewPerm SrcAcp None (Some "s"%string) "{}") None "perm_1" "t0"
      demo_record (exec demo_request empty_store)). vm_compute. reflexivity.
  - apply rtc_once. right.
    apply (es_resolve _ _ _ demo_asked "perm_1" (Approved None None) "admin" None "pdec_1" "evt_1"
      "t1" "t1" "t1"
      (mkDecision "pdec_1" "perm_1" "t1" "approved" (Some "admin"%string) None) "{}"
      (exec demo_decide (exec demo_request empty_store))).
    vm_compute. reflexivity.
Qed.

Lemma no_waiter_hangs_witness :
  exists s', rtc (task_step (fun _ => true) true (fun _ => "{}"%string) (fun _ _ _ => "{}"%string) TimeoutDeny)
               demo_raced s' /\ sv_tasks s' = [] /\ is_Some (sv_inbox s' !! "perm_1"%string).
Proof.
  destruct (no_waiter_hangs (fun _ => true) true (fun _ => "{}"%string) (fun _ _ _ => "{}"%string)
    TimeoutDeny empty_store demo_raced demo_raced_reached) as (_ & (s' & Hs' & He) & _ & Hall).
  exists s'. split; [exact Hs'|]. split; [exact He|]. apply (Hall s' Hs' He). set_solver.
Defined.

Lemma answer_agrees_with_row_witness :
  exists s, rtc demo_svc_step (svc_init empty_store) s
  /\ sv_inbox s !! "perm_1"%string = Some (Approved None None)
  /\ row_status "perm_1" (sv_store s) = Some PsApproved.
Proof.
  assert (exists s, rtc demo_svc_step demo_raced s
            /\ sv_inbox s !! "perm_1"%string = Some (Approved None None)) as (s & Hs & Ho).
  { eexists. split; [eapply rtc_l; [left; by eapply (ts_register _ _ _ _ _ _ [])|apply rtc_once; left;
      by eapply (ts_answer _ _ _ _ _ _ [TCreated demo_record])]|vm_compute; reflexivity]. }
  exists s. assert (rtc demo_svc_step (svc_init empty_store) s) as Hr
    by (etrans; [exact demo_raced_reached|exact Hs]).
  split; [exact Hr|]. split; [exact Ho|].
  exact (answer_agrees_with_row (fun _ => true) true (fun _ => "{}"%string) (fun _ _ _ => "{}"%string)
    TimeoutDeny empty_store s "perm_1" (Approved None None) Hr Ho).
Defined.

Lemma session_cancel_settles_witness :
  let s := mkSvc (exec demo_request empty_store) {["perm_1"%string]} ∅ [] ∅ [] in
  let s' := (cancel_pending_for_session (fun _ => true) true (fun _ _ _ => "{}"%string) "s" "stop"
               (fun _ => ("pdec_1", "evt_1")) "t1" s).2 in
  sv_inbox s' !! "perm_1"%string = Some (Canceled "stop").
Proof.
  intros s s'.
  assert (audit_inv (sv_store s)) as Hi.
  { apply (perm_history_inv (fun _ => true) true empty_store); [|apply audit_inv_empty]. apply rtc_once.
    destruct (exec_ok demo_request empty_store eq_refl) as [r H]. eapply ps_append. exact H. }
  apply (session_cancel_settles (fun _ => true) true (fun _ _ _ => "{}"%string) "s" "stop"
    (fun _ => ("pdec_1", "evt_1")) "t1" s 1 s' Hi) with (r := demo_record).
  - vm_compute. lia.
  - vm_compute. reflexivity.
  - vm_compute. reflexivity.
  - done.
  - set_solver.
Defined.
