(* ===== verification/OutputStream.v ===== *)
(** Output streaming of a supervised command
    (src/src/runtime/mediation/commands/output.rs, and [handle_chunk] of
    supervisor.rs): bytes read from a pipe become chunks of whole characters,
    and a counter caps what is persisted. *)

From S2P Require Import Prelude Text.
Open Scope Z_scope.

(** ** Reading a pipe *)

Definition BOUNDED_READ_CHUNK_BYTES : nat := 4 * 1024.

(** One turn of the [for offset in 1..=3] loop: [None] is [continue]. *)
Definition boundary_at (buf : list Z) (offset : nat) : option (nat * nat) :=
  let len := length buf in
  let i := (len - offset)%nat in
  let byte := nth i buf 0 in
  if Z.land byte 192 =? 128 then None
  else if (Z.land byte 248 =? 240) && (offset <? 4)%nat then Some (i, i)
  else if (Z.land byte 240 =? 224) && (offset <? 3)%nat then Some (i, i)
  else if (Z.land byte 224 =? 192) && (offset <? 2)%nat then Some (i, i)
  else Some (len, len).

(** The loop over the remaining offsets, with its [break] and the final [(0, 0)]. *)
Fixpoint split_from (buf : list Z) (offset fuel : nat) : nat * nat :=
  match fuel with
  | O => (0, 0)%nat
  | S fuel' =>
      if (length buf <? offset)%nat then (0, 0)%nat
      else match boundary_at buf offset with
           | Some r => r
           | None => split_from buf (S offset) fuel'
           end
  end.

Definition utf8_split_boundary (buf : list Z) : nat * nat := split_from buf 1 3.

(** One read: the bytes to decode and the new carryover. *)
Definition read_step (carryover data : list Z) : list Z * list Z :=
  let combined := carryover ++ data in
  let '(decoded_end, residue_start) := utf8_split_boundary combined in
  let '(decoded_end, residue_start) :=
    if (3 <? length combined - residue_start)%nat
    then (length combined, length combined) else (decoded_end, residue_start) in
  (take decoded_end combined, drop residue_start combined).

(** Emit a chunk unless it is empty. *)
Definition emit (chunk : list Z) (rest : list (list Z)) : list (list Z) :=
  match chunk with [] => rest | _ => chunk :: rest end.

(** The byte slices handed to [String::from_utf8_lossy]: [reads] are the
    results of the reads before end of file, [None] an I/O error. *)
Fixpoint read_loop (reads : list (option (list Z))) (carryover : list Z) : list (list Z) :=
  match reads with
  | [] => emit carryover []
  | None :: _ => []
  | Some data :: rest =>
      let '(chunk, carryover') := read_step carryover data in
      emit chunk (read_loop rest carryover')
  end.

Definition read_stream (reads : list (option (list Z))) : list (list Z) := read_loop reads [].

(** ** The output cap *)

(** [str::is_char_boundary]. *)
Fixpoint is_char_boundary (s : str) (i : nat) : bool :=
  match s with
  | [] => (i =? 0)%nat
  | c :: s' => (i =? 0)%nat || ((len_utf8 c <=? i)%nat && is_char_boundary s' (i - len_utf8 c))
  end.

(** [&s[..i]], for a char boundary [i]. *)
Fixpoint slice (s : str) (i : nat) : str :=
  match s with
  | [] => []
  | c :: s' => if (len_utf8 c <=? i)%nat then c :: slice s' (i - len_utf8 c) else []
  end.

(** [while cutoff > 0 && !input.is_char_boundary(cutoff) { cutoff -= 1 }] *)
Fixpoint lower_cutoff (input : str) (cutoff : nat) : nat :=
  match cutoff with
  | O => O
  | S cutoff' => if is_char_boundary input cutoff then cutoff else lower_cutoff input cutoff'
  end.

Definition floor_char_boundary (input : str) (max : nat) : nat :=
  if (str_len input <=? max)%nat then str_len input else lower_cutoff input max.

Record OutputCounter := mkCounter {
  oc_used : nat;
  oc_max : nat;
  oc_exhausted : bool;
  oc_seq : nat;
}.

Definition new_counter (max : nat) : OutputCounter := mkCounter 0 max false 0.
Definition remaining (c : OutputCounter) : nat := (oc_max c - oc_used c)%nat.

(** What a chunk makes the supervisor persist, in order. *)
Inductive OutputWrite :=
| WriteOutput (seq : nat) (data : str)
| WriteTruncated.

Definition persist (counter : OutputCounter) (data : str) : OutputCounter :=
  mkCounter (oc_used counter + str_len data) (oc_max counter) (oc_exhausted counter)
    (S (oc_seq counter)).

Definition exhaust (counter : OutputCounter) : OutputCounter :=
  mkCounter (oc_used counter) (oc_max counter) true (oc_seq counter).

Definition handle_chunk (counter : OutputCounter) (data : str) : list OutputWrite * OutputCounter :=
  if oc_exhausted counter then ([], counter)
  else if (remaining counter <? str_len data)%nat then
    let head := slice data (floor_char_boundary data (remaining counter)) in
    match head with
    | [] => ([WriteTruncated], exhaust counter)
    | _ => ([WriteOutput (oc_seq counter) head; WriteTruncated], exhaust (persist counter head))
    end
  else ([WriteOutput (oc_seq counter) data], persist counter data).

(** Every chunk of a run. *)
Fixpoint handle_chunks (counter : OutputCounter) (chunks : list str)
  : list OutputWrite * OutputCounter :=
  match chunks with
  | [] => ([], counter)
  | data :: rest =>
      let '(ws, counter') := handle_chunk counter data in
      let '(ws', counter'') := handle_chunks counter' rest in
      (ws ++ ws', counter'')
  end.

(** ** Bytes of a character *)

Lemma range_forall (f : Z -> bool) n v :
  forallb f (seqZ 0 n) = true -> 0 <= v < n -> f v = true.
Proof. intros H Hv. rewrite forallb_forall in H. apply H. apply list_elem_of_In, elem_of_seqZ. lia. Qed.

(** What the boundary scan asks of a byte: continuation, or the length a
    leading byte announces. *)
Definition is_cont (b : Z) : bool := Z.land b 192 =? 128.

Definition leads (b : Z) (n : nat) : bool :=
  negb (is_cont b)
  && match n with
     | 1%nat => negb (Z.land b 248 =? 240) && negb (Z.land b 240 =? 224) && negb (Z.land b 224 =? 192)
     | 2%nat => negb (Z.land b 248 =? 240) && negb (Z.land b 240 =? 224) && (Z.land b 224 =? 192)
     | 3%nat => negb (Z.land b 248 =? 240) && (Z.land b 240 =? 224)
     | 4%nat => Z.land b 248 =? 240
     | _ => false
     end.

(** [0 <= c <= 0x10FFFF]. *)
Definition scalar (c : char) : Prop := 0 <= c < 1114112.

Lemma cont_is_cont c sh : is_cont (cont c sh) = true.
Proof.
  unfold cont, is_cont.
  apply (range_forall (fun v => Z.land (Z.lor 128 v) 192 =? 128) 64); [vm_compute; reflexivity|].
  replace 63 with (Z.ones 6) by reflexivity. rewrite Z.land_ones by lia.
  apply Z.mod_pos_bound. lia.
Qed.

Lemma shiftr_range c sh lo hi : 0 <= c < hi * 2 ^ sh -> 0 <= sh -> lo = 0 -> lo <= Z.shiftr c sh < hi.
Proof.
  intros H Hs ->. rewrite Z.shiftr_div_pow2 by done. pose proof (Z.pow_pos_nonneg 2 sh ltac:(lia) Hs).
  split; [apply Z.div_pos; lia|]. apply Z.div_lt_upper_bound; lia.
Qed.

(** The encoding of a character: a leading byte that announces its length,
    then continuation bytes. *)
Lemma encode_utf8_shape c :
  scalar c -> exists b conts, encode_utf8 c = b :: conts /\ leads b (len_utf8 c) = true
  /\ Forall (fun x => is_cont x = true) conts.
Proof.
  intros Hc. unfold scalar in Hc. unfold encode_utf8, len_utf8.
  destruct (Z.ltb_spec c 128); [|destruct (Z.ltb_spec c 2048); [|destruct (Z.ltb_spec c 65536)]].
  - exists c, []. split; [done|]. split; [|constructor].
    apply (range_forall (fun v => leads v 1) 128); [vm_compute; reflexivity|lia].
  - eexists _, _. split; [done|]. split; [|repeat constructor; apply cont_is_cont].
    apply (range_forall (fun v => leads (Z.lor 192 v) 2) 32); [vm_compute; reflexivity|].
    apply shiftr_range; simpl; lia.
  - eexists _, _. split; [done|]. split; [|repeat constructor; apply cont_is_cont].
    apply (range_forall (fun v => leads (Z.lor 224 v) 3) 16); [vm_compute; reflexivity|].
    apply shiftr_range; simpl; lia.
  - eexists _, _. split; [done|]. split; [|repeat constructor; apply cont_is_cont].
    apply (range_forall (fun v => leads (Z.lor 240 v) 4) 8); [vm_compute; reflexivity|].
    apply shiftr_range; simpl; lia.
Qed.

(** ** The boundary scan *)

(** The scan skips the continuation bytes at the end of the buffer and decides
    at the byte before them. *)
Lemma boundary_cont pre b conts k :
  Forall (fun x => is_cont x = true) conts -> (1 <= k <= length conts)%nat ->
  boundary_at (pre ++ b :: conts) k = None.
Proof.
  intros Hc Hk. unfold boundary_at.
  assert (is_cont (nth (length (pre ++ b :: conts) - k) (pre ++ b :: conts) 0) = true) as H.
  { rewrite length_app. simpl. rewrite app_nth2 by lia.
    replace (length pre + S (length conts) - k - length pre)%nat with (S (length conts - k)) by lia.
    simpl. rewrite Forall_forall in Hc. apply Hc. apply list_elem_of_In, nth_In. lia. }
  unfold is_cont in H. by rewrite H.
Qed.

Lemma boundary_lead pre b conts n :
  leads b n = true ->
  boundary_at (pre ++ b :: conts) (S (length conts))
  = if (length conts + 1 <? n)%nat then Some (length pre, length pre)
    else Some (length (pre ++ b :: conts), length (pre ++ b :: conts)).
Proof.
  intros Hl. unfold boundary_at.
  replace (length (pre ++ b :: conts) - S (length conts))%nat with (length pre)
    by (rewrite length_app; simpl; lia).
  rewrite nth_middle. unfold leads in Hl. apply andb_true_iff in Hl as [Hnc Hl].
  unfold is_cont in Hnc. rewrite negb_true_iff in Hnc. rewrite Hnc.
  destruct n as [|[|[|[|[|n]]]]]; try done;
    repeat match goal with
    | H : _ && _ = true |- _ => apply andb_true_iff in H as [? ?]
    | H : negb _ = true |- _ => rewrite negb_true_iff in H; rewrite H
    | H : (_ =? _) = true |- _ => rewrite H
    end; simpl; clear;
    repeat match goal with |- context [Z.land ?b ?m =? ?v] => destruct (Z.land b m =? v) end; simpl;
    repeat match goal with |- context [(?a <? ?b)%nat] => destruct (Nat.ltb_spec a b) end;
    try done; simpl; lia.
Qed.

Lemma split_skips pre b conts fuel k :
  Forall (fun x => is_cont x = true) conts -> (1 <= k <= S (length conts))%nat ->
  (S (length conts) - k < fuel)%nat ->
  split_from (pre ++ b :: conts) k fuel
  = match boundary_at (pre ++ b :: conts) (S (length conts)) with
    | Some r => r
    | None => split_from (pre ++ b :: conts) (S (S (length conts))) (fuel - (S (S (length conts)) - k))
    end.
Proof.
  intros Hc. revert k. induction fuel as [|fuel IH]; intros k Hk Hf; [lia|]. simpl.
  destruct (Nat.ltb_spec (length (pre ++ b :: conts)) k) as [Hlt|_];
    [rewrite length_app in Hlt; simpl in Hlt; lia|].
  destruct (decide (k = S (length conts))) as [->|Hne].
  - destruct (boundary_at _ _) eqn:E; [done|]. f_equal. lia.
  - rewrite boundary_cont by (done || lia). rewrite IH by lia.
    destruct (boundary_at _ _); [done|]. f_equal. lia.
Qed.

(** ** Cutting a text at any byte *)

(** [p] is what a cut inside the first character of [u] leaves before the
    cut, or nothing. *)
Definition partial (p : list Z) (u : str) : Prop :=
  p = [] \/ exists c u' q, u = c :: u' /\ encode_utf8 c = p ++ q /\ p <> [] /\ q <> [].

Lemma partial_length p u : partial p u -> (length p <= 3)%nat.
Proof.
  intros [->|(c & u' & q & _ & E & _ & Hq)]; simpl; [lia|].
  pose proof (encode_utf8_length c) as Hl. rewrite E, length_app in Hl.
  pose proof (len_utf8_bounds c). destruct q; [done|]. simpl in Hl. lia.
Qed.

(** Any cut of the bytes of a text falls after whole characters and at most a
    part of the next one. *)
Lemma cut_bytes s bs rest :
  as_bytes s = bs ++ rest ->
  exists t u p, s = t ++ u /\ bs = as_bytes t ++ p /\ partial p u.
Proof.
  revert bs. induction s as [|c s IH]; intros bs E; simpl in E.
  { symmetry in E. apply app_eq_nil in E as [-> ->]. exists [], [], []. repeat split. by left. }
  destruct (decide (length (encode_utf8 c) <= length bs)%nat) as [Hle|Hgt].
  - assert (bs = encode_utf8 c ++ drop (length (encode_utf8 c)) bs) as Hbs.
    { rewrite <- (take_drop (length (encode_utf8 c)) bs) at 1. f_equal.
      apply (f_equal (take (length (encode_utf8 c)))) in E.
      by rewrite take_app_length, take_app_le in E by lia. }
    rewrite Hbs in E. rewrite <- (assoc_L (++)) in E. apply (inj (app _)) in E.
    destruct (IH _ E) as (t & u & p & -> & Et & Hp). exists (c :: t), u, p. split; [done|].
    split; [|done]. rewrite Hbs, Et. simpl. by rewrite (assoc_L (++)).
  - exists [], (c :: s), bs. split; [done|]. split; [done|].
    destruct bs as [|b bs]; [by left|]. right. exists c, s, (drop (length (b :: bs)) (encode_utf8 c)).
    split; [done|]. split; [|split; [done|]].
    + rewrite <- (take_drop (length (b :: bs)) (encode_utf8 c)) at 1. f_equal.
      apply (f_equal (take (length (b :: bs)))) in E.
      by rewrite take_app_le, take_app_length in E by lia.
    + intros H%(f_equal length). rewrite length_drop in H. cbn [length] in *. lia.
Qed.

(** ** One read *)

Lemma partial_shape p u :
  Forall scalar u -> partial p u -> p <> [] ->
  exists b conts n, p = b :: conts /\ leads b n = true /\ (length p < n <= 4)%nat
  /\ Forall (fun x => is_cont x = true) conts.
Proof.
  intros Hu [->|(c & u' & q & -> & E & Hp & Hq)] Hne; [done|].
  apply Forall_cons in Hu as [Hc _]. destruct (encode_utf8_shape c Hc) as (b & conts & Eb & Hb & Hcs).
  destruct p as [|b' p]; [done|]. rewrite Eb in E. injection E as <- ->.
  exists b, p, (len_utf8 c). split; [done|]. split; [done|]. split; [|by apply Forall_app in Hcs as [? _]].
  pose proof (len_utf8_bounds c). pose proof (encode_utf8_length c) as Hl.
  rewrite Eb in Hl. cbn [length] in *. rewrite length_app in Hl. destruct q; [done|].
  cbn [length] in Hl. lia.
Qed.

Lemma split_partial t p u :
  Forall scalar u -> partial p u -> p <> [] ->
  utf8_split_boundary (as_bytes t ++ p) = (length (as_bytes t), length (as_bytes t)).
Proof.
  intros Hu Hp Hne. destruct (partial_shape p u Hu Hp Hne) as (b & conts & n & -> & Hb & Hn & Hc).
  cbn [length] in Hn. unfold utf8_split_boundary. rewrite split_skips by (done || lia).
  rewrite (boundary_lead _ _ _ n Hb). by rewrite (proj2 (Nat.ltb_lt _ _)) by lia.
Qed.

Lemma split_whole t :
  Forall scalar t ->
  let l := length (as_bytes t) in
  utf8_split_boundary (as_bytes t) = (l, l) \/ utf8_split_boundary (as_bytes t) = (0, 0)%nat /\ (3 < l)%nat.
Proof.
  intros Ht l. destruct t as [|c t _] using rev_ind; [by left|].
  apply Forall_app in Ht as [_ [Hc _]%Forall_cons].
  destruct (encode_utf8_shape c Hc) as (b & conts & Eb & Hb & Hcs). subst l.
  rewrite as_bytes_app. simpl. rewrite app_nil_r, Eb. unfold utf8_split_boundary.
  pose proof (len_utf8_bounds c). pose proof (encode_utf8_length c) as Hl. rewrite Eb in Hl.
  cbn [length] in Hl. destruct (decide (length conts < 3)%nat) as [Hlt|Hge].
  - rewrite split_skips by (done || lia). rewrite (boundary_lead _ _ _ _ Hb).
    rewrite (proj2 (Nat.ltb_ge _ _)) by lia. by left.
  - right. split; [|rewrite length_app; simpl; lia]. cbn [split_from].
    rewrite !(proj2 (Nat.ltb_ge _ _)) by (rewrite length_app; simpl; lia).
    by rewrite !boundary_cont by (done || lia).
Qed.

(** A read decodes the whole characters it completes and carries the rest. *)
Lemma read_step_cut carry data t p u :
  Forall scalar t -> Forall scalar u -> partial p u ->
  carry ++ data = as_bytes t ++ p -> read_step carry data = (as_bytes t, p).
Proof.
  intros Ht Hu Hp E. unfold read_step. rewrite E. pose proof (partial_length p u Hp) as Hlen.
  destruct (decide (p = [])) as [->|Hne].
  - rewrite app_nil_r in *. set (bs := as_bytes t) in *.
    pose proof (split_whole t Ht) as Hs. cbn zeta in Hs. fold bs in Hs. destruct Hs as [->|[-> H3]].
    + rewrite Nat.sub_diag. simpl. by rewrite take_ge, drop_ge.
    + rewrite (proj2 (Nat.ltb_lt _ _)) by lia. by rewrite take_ge, drop_ge.
  - rewrite (split_partial t p u) by done. rewrite length_app.
    rewrite (proj2 (Nat.ltb_ge _ _)) by lia. by rewrite take_app_length, drop_app_length.
Qed.

(** ** The loop *)

(** The chunks a decoded text makes: none when it is empty. *)
Definition whole (t : str) : list str := match t with [] => [] | _ => [t] end.

Lemma emit_bytes t rest : emit (as_bytes t) rest = (as_bytes <$> whole t) ++ rest.
Proof.
  destruct t as [|c t]; [done|]. simpl. destruct (encode_utf8 c ++ as_bytes t) eqn:E; [|done].
  apply app_eq_nil in E as [E _]. pose proof (encode_utf8_length c) as Hl. rewrite E in Hl.
  pose proof (len_utf8_bounds c). simpl in Hl. lia.
Qed.

Lemma concat_whole t l : concat (whole t ++ l) = t ++ concat l.
Proof. by destruct t. Qed.

(** A chunk is not empty and comes from one read and a carryover. *)
Definition chunk_of (reads : list (list Z)) (t : str) : Prop :=
  t <> [] /\ exists d, d ∈ reads /\ (str_len t <= length d + 3)%nat.

Lemma read_loop_cut reads rest tail carry u :
  Forall scalar u -> partial carry u -> carry ++ concat reads ++ tail = as_bytes u ->
  exists chunks u' carry', u = concat chunks ++ u' /\ partial carry' u' /\ carry' ++ tail = as_bytes u'
  /\ read_loop ((Some <$> reads) ++ rest) carry = (as_bytes <$> chunks) ++ read_loop rest carry'
  /\ Forall (chunk_of reads) chunks.
Proof.
  revert carry u. induction reads as [|d reads IH]; intros carry u Hu Hp E.
  { exists [], u, carry. simpl in *. repeat split; done. }
  simpl in E. rewrite <- (assoc_L (++)), (assoc_L (++)) in E. symmetry in E.
  destruct (cut_bytes u _ _ E) as (t & v & p & -> & Ec & Hp').
  apply Forall_app in Hu as [Ht Hv]. rewrite Ec, as_bytes_app, <- (assoc_L (++)) in E.
  apply (inj (app _)) in E.
  destruct (IH p v Hv Hp' (eq_sym E)) as (chunks & u' & carry' & -> & Hc & Eu & Er & Hch).
  exists (whole t ++ chunks), u', carry'. rewrite concat_whole. split; [by rewrite (assoc_L (++))|].
  split; [done|]. split; [done|]. split.
  - cbn [fmap list_fmap app read_loop]. rewrite (read_step_cut _ _ t p _ Ht Hv Hp' Ec), emit_bytes.
    rewrite fmap_app, <- (assoc_L (++)). f_equal. exact Er.
  - apply Forall_app. split.
    + destruct t as [|c t]; [constructor|]. constructor; [|constructor]. split; [done|].
      exists d. split; [left|]. apply (f_equal length) in Ec. rewrite !length_app, as_bytes_length in Ec.
      pose proof (partial_length _ _ Hp). lia.
    + eapply Forall_impl; [exact Hch|]. intros x (Hx & d' & Hd & Hl). split; [done|].
      exists d'. split; [by right|done].
Qed.

Lemma partial_whole p u : partial p u -> p = as_bytes u -> p = [].
Proof.
  intros [->|(c & u' & q & -> & E & _ & Hq)] ->; [done|]. simpl in E.
  apply (f_equal length) in E. rewrite !length_app in E. destruct q; [done|]. simpl in E. lia.
Qed.

Lemma as_bytes_nil u : as_bytes u = [] -> u = [].
Proof.
  destruct u as [|c u]; [done|]. simpl. intros [E _]%app_eq_nil.
  pose proof (encode_utf8_length c) as Hl. rewrite E in Hl. pose proof (len_utf8_bounds c). simpl in Hl. lia.
Qed.

(** C35. However the pipe splits a valid UTF-8 stream into reads, the reader
    loses and invents no character: every slice it decodes is the encoding of
    a nonempty text, the texts concatenate to the stream, no slice is longer
    than a read buffer and a carryover of three bytes, and on an I/O error the
    texts sent are a prefix of the stream. *)
Theorem read_stream_lossless s reads :
  Forall scalar s -> Forall (fun d => (length d <= BOUNDED_READ_CHUNK_BYTES)%nat) reads ->
  let sent chunks := Forall (fun t => t <> [] /\ (str_len t <= BOUNDED_READ_CHUNK_BYTES + 3)%nat) chunks in
  (concat reads = as_bytes s ->
   exists chunks, read_stream (Some <$> reads) = as_bytes <$> chunks /\ concat chunks = s /\ sent chunks)
  /\ (forall lost, concat reads ++ lost = as_bytes s ->
      exists chunks rest, read_stream ((Some <$> reads) ++ [None]) = as_bytes <$> chunks
                          /\ concat chunks ++ rest = s /\ sent chunks).
Proof.
  intros Hs Hr sent. assert (forall chunks, Forall (chunk_of reads) chunks -> sent chunks) as Hsent.
  { intros chunks H. eapply Forall_impl; [exact H|]. intros t (Ht & d & Hd & Hl). split; [done|].
    rewrite Forall_forall in Hr. specialize (Hr d Hd). lia. }
  assert (partial [] s) as Hp by by left. split.
  - intros E. destruct (read_loop_cut reads [] [] [] s Hs Hp) as (chunks & u & p & -> & Hp' & Eu & Er & Hc).
    { simpl. by rewrite app_nil_r. }
    rewrite app_nil_r in Eu. pose proof (partial_whole _ _ Hp' Eu) as ->.
    symmetry in Eu. apply as_bytes_nil in Eu as ->. rewrite app_nil_r in Er. simpl in Er.
    rewrite app_nil_r in Er. exists chunks. rewrite app_nil_r. by auto.
  - intros lost E.
    destruct (read_loop_cut reads [None] lost [] s Hs Hp E) as (chunks & u & p & -> & _ & _ & Er & Hc).
    exists chunks, u. simpl in Er. rewrite app_nil_r in Er. by auto.
Qed.

(** A euro sign split over two reads, then a complete four-byte character. *)
Lemma read_stream_lossless_witness :
  let s := [97; 8364; 128512] in
  exists chunks, read_stream (Some <$> [[97; 226]; [130]; [172; 240; 159; 152; 128]]) = as_bytes <$> chunks
                 /\ concat chunks = s.
Proof.
  assert (Forall scalar [97; 8364; 128512]) as Hs by (repeat constructor; unfold scalar; lia).
  destruct (proj1 (read_stream_lossless [97; 8364; 128512]
    [[97; 226]; [130]; [172; 240; 159; 152; 128]] Hs
    ltac:(repeat (apply Forall_cons_2; [apply Nat.leb_le; vm_compute; reflexivity|]); apply Forall_nil_2))
    ltac:(vm_compute; reflexivity)) as (chunks & H1 & H2 & _).
  exists chunks. split; [exact H1|exact H2].
Defined.

(** ** The cut at the cap *)

Lemma slice_zero s : slice s 0 = [].
Proof. destruct s as [|c s]; [done|]. simpl. pose proof (len_utf8_bounds c). by destruct (len_utf8 c); [lia|]. Qed.

(** [slice] takes the characters that fit, and what follows does not. *)
Lemma slice_fits s i :
  exists tail, s = slice s i ++ tail /\ (str_len (slice s i) <= i)%nat
  /\ forall c rest, tail = c :: rest -> (i < str_len (slice s i) + len_utf8 c)%nat.
Proof.
  revert i. induction s as [|c s IH]; intros i; [exists []; simpl; split; [done|split; [lia|done]]|].
  simpl. destruct (Nat.leb_spec (len_utf8 c) i) as [Hle|Hgt].
  - destruct (IH (i - len_utf8 c)%nat) as (tail & E & Hl & Hn). exists tail.
    split; [simpl; by rewrite <- E|]. simpl. split; [lia|]. intros c' rest Hc. specialize (Hn _ _ Hc). lia.
  - exists (c :: s). split; [done|]. simpl. split; [lia|]. intros c' rest [= <- <-]. lia.
Qed.

Lemma slice_prefix h t : slice (h ++ t) (str_len h) = h.
Proof.
  induction h as [|c h IH]; simpl; [apply slice_zero|].
  rewrite (proj2 (Nat.leb_le _ _)) by lia. f_equal.
  by replace (len_utf8 c + str_len h - len_utf8 c)%nat with (str_len h) by lia.
Qed.

Lemma boundary_slice s i : is_char_boundary s i = true -> str_len (slice s i) = i.
Proof.
  revert i. induction s as [|c s IH]; intros i; simpl; [by intros ->%Nat.eqb_eq|].
  intros [->%Nat.eqb_eq|[Hle H]%andb_true_iff]%orb_true_iff.
  - pose proof (len_utf8_bounds c). by destruct (len_utf8 c); [lia|].
  - rewrite Hle. simpl. apply IH in H. apply Nat.leb_le in Hle. lia.
Qed.

Lemma not_boundary_slice s i :
  is_char_boundary s (S i) = false -> (S i <= str_len s)%nat -> slice s (S i) = slice s i.
Proof.
  revert i. induction s as [|c s IH]; intros i; [simpl; lia|]. cbn [is_char_boundary slice str_len].
  rewrite orb_false_iff, andb_false_iff. intros [_ Hb] Hl.
  destruct (Nat.leb_spec (len_utf8 c) (S i)) as [Hle|Hgt]; [|by rewrite (proj2 (Nat.leb_gt _ _)) by lia].
  destruct Hb as [?|Hb]; [done|]. destruct (decide (len_utf8 c = S i)) as [E|Hne].
  { rewrite E, Nat.sub_diag in Hb. by destruct s. }
  rewrite (proj2 (Nat.leb_le _ _)) by lia. f_equal.
  replace (S i - len_utf8 c)%nat with (S (i - len_utf8 c)) in * by lia. apply IH; [done|lia].
Qed.

Lemma lower_cutoff_slice s i : (i <= str_len s)%nat -> lower_cutoff s i = str_len (slice s i).
Proof.
  induction i as [|i IH]; intros Hi; [by rewrite slice_zero|]. cbn [lower_cutoff].
  destruct (is_char_boundary s (S i)) eqn:Eb; [symmetry; by apply boundary_slice|].
  rewrite not_boundary_slice by done. apply IH. lia.
Qed.

(** The head kept at the cap. *)
Lemma head_fits data r :
  (r < str_len data)%nat -> slice data (floor_char_boundary data r) = slice data r.
Proof.
  intros Hr. unfold floor_char_boundary. rewrite (proj2 (Nat.leb_gt _ _)) by done.
  rewrite lower_cutoff_slice by lia. destruct (slice_fits data r) as (tail & E & _).
  rewrite E at 1. apply slice_prefix.
Qed.

(** ** The cap *)

(** The writes of consecutive pieces from a sequence number on. *)
Fixpoint numbered (seq : nat) (pieces : list str) : list OutputWrite :=
  match pieces with [] => [] | p :: rest => WriteOutput seq p :: numbered (S seq) rest end.

Lemma handle_chunks_exhausted c chunks : oc_exhausted c = true -> handle_chunks c chunks = ([], c).
Proof.
  intros He. induction chunks as [|d chunks IH]; simpl; [done|]. unfold handle_chunk. by rewrite He, IH.
Qed.

(** What a run of the counter does, from any counter that still accepts. *)
Lemma handle_chunks_run chunks used max seq :
  (used <= max)%nat ->
  let total := str_len (concat chunks) in
  exists pieces dropped c', handle_chunks (mkCounter used max false seq) chunks
    = (numbered seq pieces ++ (if (used + total <=? max)%nat then [] else [WriteTruncated]), c')
  /\ concat chunks = concat pieces ++ dropped
  /\ oc_used c' = (used + str_len (concat pieces))%nat /\ (oc_used c' <= max)%nat
  /\ (if (used + total <=? max)%nat then dropped = []
      else exists c rest, dropped = c :: rest /\ (max < oc_used c' + len_utf8 c)%nat).
Proof.
  revert used seq. induction chunks as [|d chunks IH]; intros used seq Hu; cbn zeta.
  { exists [], [], (mkCounter used max false seq). simpl. rewrite (proj2 (Nat.leb_le _ _)) by lia.
    repeat split; simpl; lia. }
  cbn [handle_chunks concat]. rewrite str_len_app. unfold handle_chunk, remaining. cbn [oc_exhausted oc_max oc_used oc_seq].
  destruct (Nat.ltb_spec (max - used) (str_len d)) as [Hlt|Hge].
  - rewrite (proj2 (Nat.leb_gt _ _)) by lia. rewrite head_fits by done.
    destruct (slice_fits d (max - used)) as (tail & Ed & Hl & Hn).
    assert (exists c rest, tail = c :: rest) as (c & rest & Et).
    { destruct tail; [|eauto]. rewrite app_nil_r in Ed. rewrite <- Ed in Hl. lia. }
    specialize (Hn _ _ Et). subst tail. set (head := slice d (max - used)) in *.
    assert (concat (d :: chunks) = head ++ c :: rest ++ concat chunks) as Ec
      by (simpl; rewrite Ed at 1; by rewrite <- (assoc_L (++))).
    clearbody head. destruct head as [|h hd]; rewrite handle_chunks_exhausted by done; rewrite app_nil_r.
    + exists [], (c :: rest ++ concat chunks), (exhaust (mkCounter used max false seq)). simpl in *.
      split; [done|]. split; [done|]. split; [lia|]. split; [lia|]. exists c. eexists. split; [done|]. lia.
    + exists [h :: hd], (c :: rest ++ concat chunks),
        (exhaust (persist (mkCounter used max false seq) (h :: hd))).
      simpl in *. rewrite app_nil_r. split; [done|]. split; [done|]. split; [lia|]. split; [lia|].
      exists c. eexists. split; [done|]. lia.
  - unfold persist. cbn [oc_exhausted oc_max oc_used oc_seq].
    destruct (IH (used + str_len d)%nat (S seq) ltac:(lia)) as (pieces & dropped & c' & -> & Ec & Hu' & Hm & Hd).
    exists (d :: pieces), dropped, c'. cbn [numbered concat app]. rewrite str_len_app, <- (assoc_L (++)), <- Ec.
    replace (used + (str_len d + str_len (concat chunks)))%nat
      with (used + str_len d + str_len (concat chunks))%nat by lia.
    split; [done|]. split; [done|]. split; [lia|]. split; [lia|done].
Qed.

(** The output cap: a run persists the longest prefix of the output, in
    whole characters, that fits in [max_output_bytes], as events numbered 0, 1,
    2, ..; it marks the command truncated exactly when the output is longer
    than the cap, once, after everything it persists; and the counter holds
    the bytes persisted, never more than the cap. *)
Theorem output_capped max chunks :
  let total := str_len (concat chunks) in
  exists pieces dropped c', handle_chunks (new_counter max) chunks
    = (numbered 0 pieces ++ (if (total <=? max)%nat then [] else [WriteTruncated]), c')
  /\ concat chunks = concat pieces ++ dropped
  /\ oc_used c' = str_len (concat pieces) /\ (oc_used c' <= max)%nat
  /\ (if (total <=? max)%nat then dropped = []
      else exists c rest, dropped = c :: rest /\ (max < str_len (concat pieces) + len_utf8 c)%nat).
Proof.
  intros total. destruct (handle_chunks_run chunks 0 max 0 ltac:(lia)) as (pieces & dropped & c' & Hr & Hc & Hu & Hm & Hd).
  exists pieces, dropped, c'. rewrite Hu in Hd, Hm |- *. by auto.
Qed.
