(* ===== verification/Redaction.v ===== *)
(** Redaction of text that leaves the process (src/src/redaction.rs): the registry
    of known secret values, the credential shapes, and the single pass that
    replaces the spans both find.

    Texts are lists of characters and positions are character positions: every
    offset the code computes comes from a search over characters of the same text,
    so it is a character boundary, and a byte range there is the character range
    here. Lengths the code compares are byte lengths ([str_len]). A slice out of
    range is a panic in Rust and [None] here. *)

From S2P Require Import Prelude Text Duration ShellWords OutputStream.
Open Scope Z_scope.

Definition REDACTION_PLACEHOLDER : str := lit "[redacted]".
#[global] Arguments REDACTION_PLACEHOLDER : simpl never.
Definition MIN_REDACTED_SECRET_LEN : nat := 6.
Definition HTTP_ERROR_BODY_MAX_BYTES : nat := 1024.
Definition UNKNOWN_VARIANT_MARKER : str := lit "unknown variant `".
Definition MIN_REDACTED_SECRET_FRAGMENT_LEN : nat := 8.
Definition CREDENTIAL_PREFIX_MIN_BODY_LEN : nat := 9.
Definition JWT_MIN_SEGMENT_LEN : nat := 10.
Definition JWT_SEGMENT_COUNT : nat := 3.

Definition dquote : char := chr "034".
Definition squote : char := chr "'".
Definition backslash : char := chr "\".
Definition backtick : char := chr "`".

Definition TOKEN_SEPARATORS : list char := dquote :: lit "'`=:,;()[]{}<>/\&?".
Definition VALUE_TERMINATORS : list char := dquote :: lit "'`,;&)]}<>".
Definition LINE_VALUE_TERMINATORS : list char := 10 :: 13 :: dquote :: lit "'`)]}<>".
Definition ASSIGNMENT_GAP_CHARS : list char := [32; 9; dquote; squote; backslash; chr ":"; chr "="].
Definition ASSIGNMENT_OPERATORS : list char := lit ":=".
Definition AUTH_SCHEME_WORDS : list str := [lit "bearer"; lit "basic"; lit "token"].
Definition BEARER_SCHEME : str := lit "bearer".
Definition BEARER_SCHEME_PREFIX : str := lit "bearer ".
Definition MIN_SCHEME_CREDENTIAL_LEN : nat := 8.

Definition SENSITIVE_HEADER_NAMES : list str :=
  map lit ["authorization"; "proxy_authorization"; "cookie"; "set_cookie"; "x_api_key"; "x_auth_token"]%string.
Definition SENSITIVE_FIELD_NAMES : list str :=
  map lit ["api_key"; "apikey"; "auth_token"; "access_token"; "refresh_token"; "id_token"; "session_token";
           "password"; "passwd"; "secret"; "client_secret"; "secret_key"; "private_key"]%string.
Definition SENSITIVE_FIELD_NAME_SUFFIXES : list str :=
  map lit ["_api_key"; "_apikey"; "_secret"; "_password"; "_passwd"; "_access_token"; "_auth_token";
           "_refresh_token"; "_secret_key"; "_private_key"; "_secret_access_key"]%string.

Record CredentialPrefix := mkCredentialPrefix {
  cp_prefix : str;
  cp_config_screened : bool;
  cp_native_import_screened : bool;
}.
Definition credential_prefix (prefix : string) (config native : bool) : CredentialPrefix :=
  mkCredentialPrefix (lit prefix) config native.

Definition CREDENTIAL_PREFIXES : list CredentialPrefix :=
  [ credential_prefix "acps_" true false; credential_prefix "sk-" true true;
    credential_prefix "pk-" false true; credential_prefix "rk-" false true;
    credential_prefix "ghp_" true true; credential_prefix "gho_" false true;
    credential_prefix "ghu_" false true; credential_prefix "ghs_" false true;
    credential_prefix "ghr_" false true; credential_prefix "github_pat_" true true;
    credential_prefix "glpat-" false true; credential_prefix "xoxb-" true true;
    credential_prefix "xoxp-" true true; credential_prefix "xoxa-" true true;
    credential_prefix "xoxs-" false true ].

(** ** Text helpers *)

Definition one_of (set : list char) (c : char) : bool := existsb (Z.eqb c) set.

Definition to_ascii_lowercase (c : char) : char := if is_ascii_upper c then c + 32 else c.

Fixpoint eq_ignore_ascii_case (a b : str) : bool :=
  match a, b with
  | [], [] => true
  | x :: a', y :: b' => (to_ascii_lowercase x =? to_ascii_lowercase y) && eq_ignore_ascii_case a' b'
  | _, _ => false
  end.

(** [str::find] of a character class and of a text. *)
Fixpoint find_char (test : char -> bool) (s : str) : option nat :=
  match s with
  | [] => None
  | c :: s' => if test c then Some O else S <$> find_char test s'
  end.

Fixpoint find_str (needle s : str) : option nat :=
  if starts_with needle s then Some O
  else match s with [] => None | _ :: s' => S <$> find_str needle s' end.

(** [str::rfind] of a character class: the text after the last hit. *)
Fixpoint after_last (test : char -> bool) (s : str) : option str :=
  match s with
  | [] => None
  | c :: s' => match after_last test s' with
               | Some rest => Some rest
               | None => if test c then Some s' else None
               end
  end.

Fixpoint split_char (sep : char) (s current : str) : list str :=
  match s with
  | [] => [reverse current]
  | c :: s' => if c =? sep then reverse current :: split_char sep s' [] else split_char sep s' (c :: current)
  end.

Notation span := (nat * nat)%type (only parsing).

Definition slice_range (text : str) (a b : nat) : option str :=
  if ((a <=? b) && (b <=? length text))%nat then Some (take (b - a) (drop a text)) else None.
Definition slice_from (text : str) (a : nat) : option str :=
  if (a <=? length text)%nat then Some (drop a text) else None.

(** [str::match_indices] of a non-empty text: matches from left to right that do
    not overlap. [skip] characters still belong to the last match. *)
Fixpoint match_from (needle : str) (i skip : nat) (s : str) : list span :=
  match s with
  | [] => []
  | _ :: s' =>
      match skip with
      | S skip' => match_from needle (S i) skip' s'
      | O => if starts_with needle s then (i, i + length needle)%nat :: match_from needle (S i) (length needle - 1) s'
             else match_from needle (S i) O s'
      end
  end.
Definition match_indices (needle text : str) : list span := match_from needle 0 0 text.

(** [str::replace], with the same matches. *)
Fixpoint replace_from (needle to : str) (skip : nat) (s : str) : str :=
  match s with
  | [] => []
  | c :: s' =>
      match skip with
      | S skip' => replace_from needle to skip' s'
      | O => if starts_with needle s then to ++ replace_from needle to (length needle - 1) s'
             else c :: replace_from needle to O s'
      end
  end.
Definition replace (text needle to : str) : str := replace_from needle to 0 text.

(** ** The registry *)

(** [right.len().cmp(&left.len()).then_with(|| left.cmp(right))] *)
Definition registry_le (a b : str) : Prop :=
  (str_len b < str_len a)%nat \/ (str_len a = str_len b /\ str_le a b = true).
#[export] Instance registry_le_dec : RelDecision registry_le.
Proof. intros a b. unfold registry_le. apply _. Defined.

Fixpoint push_fresh (fresh registry : list str) : list str :=
  match fresh with
  | [] => registry
  | v :: rest => push_fresh rest (if bool_decide (v ∈ registry) then registry else registry ++ [v])
  end.

(** The values are screened against the registry [seen] under the read lock and
    pushed under the write lock, when other threads may have grown it to
    [registry]. On a sorted list [dedup] removes every repetition. *)
Definition register_secret_values (values seen registry : list str) : list str :=
  let candidates := filter (fun v => (MIN_REDACTED_SECRET_LEN <= str_len v)%nat) values in
  match candidates with
  | [] => registry
  | _ =>
      let fresh := remove_dups (merge_sort text_le (filter (fun c => c ∉ seen) candidates)) in
      match fresh with
      | [] => registry
      | _ => merge_sort registry_le (push_fresh fresh registry)
      end
  end.

Definition registered_value_spans (registry : list str) (text : str) : list span :=
  registry ≫= fun value => match_indices value text.

(** ** Credential shapes *)

Definition has_credential_prefix (token prefix : str) : bool :=
  match slice_to token (str_len prefix) with
  | Some head => eq_ignore_ascii_case head prefix
  | None => false
  end
  && (str_len prefix + CREDENTIAL_PREFIX_MIN_BODY_LEN <=? str_len token)%nat.

Definition is_base64url_char (c : char) : bool :=
  is_ascii_alphanumeric c || (c =? chr "_") || (c =? chr "-").

Fixpoint jwt_segments (count : nat) (segments : list str) : bool :=
  match segments with
  | [] => (count =? JWT_SEGMENT_COUNT)%nat
  | segment :: rest =>
      if ((JWT_SEGMENT_COUNT <? S count) || (str_len segment <? JWT_MIN_SEGMENT_LEN))%nat
         || negb (forallb is_base64url_char segment)
      then false else jwt_segments (S count) rest
  end.
Definition looks_like_jwt (text : str) : bool := jwt_segments 0 (split_char (chr ".") text []).

Definition starts_with_bearer_scheme (text : str) : bool :=
  match slice_to (trim_start text) (str_len BEARER_SCHEME_PREFIX) with
  | Some head => eq_ignore_ascii_case head BEARER_SCHEME_PREFIX
  | None => false
  end.

(** The characters of the token that are redacted. *)
Definition credential_token_len (token : str) : option nat :=
  if existsb (fun entry => has_credential_prefix token (cp_prefix entry)) CREDENTIAL_PREFIXES
  then Some (length token)
  else
    let candidate := reverse (drop_while (fun c => c =? chr ".") (reverse token)) in
    if looks_like_jwt candidate then Some (length candidate) else None.

Definition is_separator (c : char) : bool := is_whitespace c || one_of TOKEN_SEPARATORS c.

Fixpoint tokens_from (i : nat) (start : option nat) (s : str) : list span :=
  match s with
  | [] => match start with Some token_start => [(token_start, i)] | None => [] end
  | c :: s' =>
      match is_separator c, start with
      | true, Some token_start => (token_start, i) :: tokens_from (S i) None s'
      | false, None => tokens_from (S i) (Some i) s'
      | true, None | false, Some _ => tokens_from (S i) start s'
      end
  end.
Definition token_spans (text : str) : list span := tokens_from 0 None text.

Inductive FieldName := Header | Field.
Inductive OpeningQuote := Unquoted | Quoted (closing : str) | EmptyValue.
Inductive ValueExtent := ExtentWord | ExtentLine | ExtentQuoted (closing : str).

Definition ends_with (ending s : str) : bool := starts_with (reverse ending) (reverse s).

Definition assignment_opening_quote (gap : str) : option OpeningQuote :=
  if negb (existsb (one_of ASSIGNMENT_OPERATORS) gap) || negb (forallb (one_of ASSIGNMENT_GAP_CHARS) gap) then None
  else
    match after_last (one_of ASSIGNMENT_OPERATORS) gap with
    | None => None
    | Some after_operator =>
        Some (match List.filter (one_of [dquote; squote]) after_operator with
              | [] => Unquoted
              | [q] => if q =? squote then Quoted [squote]
                       else if ends_with [backslash; dquote] after_operator then Quoted [backslash; dquote]
                       else Quoted [dquote]
              | _ => EmptyValue
              end)
    end.

Definition value_end (text : str) (start : nat) (extent : ValueExtent) : option nat :=
  rest ← slice_from text start;
  let offset :=
    match extent with
    | ExtentWord => find_char (fun c => is_whitespace c || one_of VALUE_TERMINATORS c) rest
    | ExtentLine =>
        let line_end := default (length rest) (find_char (one_of LINE_VALUE_TERMINATORS) rest) in
        Some (length (trim_end (take line_end rest)))
    | ExtentQuoted closing =>
        match find_str closing rest with
        | Some i => Some i
        | None => find_char (one_of [10; 13]) rest
        end
    end in
  Some (match offset with Some o => (start + o)%nat | None => length text end).

Definition is_inline_whitespace (gap : str) : bool :=
  match gap with [] => false | _ => forallb (one_of [32; 9]) gap end.

Definition fold_byte (b : Z) : Z := if b =? chr "-" then chr "_" else to_ascii_lowercase b.
Definition folded_eq (name entry : list Z) : bool :=
  (length name =? length entry)%nat && forallb (fun p => fold_byte p.1 =? p.2) (zip name entry).

Definition sensitive_field_name (token : str) : option FieldName :=
  let name := as_bytes (drop_while (fun c => c =? chr "-") token) in
  if existsb (fun header => folded_eq name (as_bytes header)) SENSITIVE_HEADER_NAMES then Some Header
  else if existsb (fun field => folded_eq name (as_bytes field)) SENSITIVE_FIELD_NAMES
          || existsb (fun suffix => (length (as_bytes suffix) <=? length name)%nat
                       && folded_eq (drop (length name - length (as_bytes suffix)) name) (as_bytes suffix))
               SENSITIVE_FIELD_NAME_SUFFIXES
       then Some Field else None.

(** The span [value_start..end] when it has at least [minimum] bytes. *)
Definition claim (text : str) (value_start : nat) (extent : ValueExtent) (minimum : nat) : option (list span) :=
  stop ← value_end text value_start extent;
  value ← slice_range text value_start stop;
  Some (if (minimum <=? str_len value)%nat then [(value_start, stop)] else []).

(** The credential the token before [next] names, if it does; [after] are the
    tokens past [next]. *)
Definition claimed_spans (text token gap : str) (next : span) (after : list span) : option (list span) :=
  if eq_ignore_ascii_case token BEARER_SCHEME && is_inline_whitespace gap
  then claim text next.1 ExtentWord MIN_SCHEME_CREDENTIAL_LEN
  else
    match sensitive_field_name token, assignment_opening_quote gap with
    | None, _ | _, None | _, Some EmptyValue => Some []
    | Some name, Some opening_quote =>
        let extent :=
          match opening_quote with
          | Quoted closing => ExtentQuoted closing
          | _ => match name with
                 | Header => if existsb (Z.eqb (chr ":")) gap then ExtentLine else ExtentWord
                 | Field => ExtentWord
                 end
          end in
        value_token ← slice_range text next.1 next.2;
        if existsb (eq_ignore_ascii_case value_token) AUTH_SCHEME_WORDS then
          match after with
          | [] => Some []
          | credential :: _ =>
              space ← slice_range text next.2 credential.1;
              if is_inline_whitespace space then claim text credential.1 extent MIN_SCHEME_CREDENTIAL_LEN
              else Some []
          end
        else claim text next.1 extent 1
    end.

Fixpoint shape_spans (text : str) (tokens : list span) : option (list span) :=
  match tokens with
  | [] => Some []
  | token_span :: rest =>
      token ← slice_range text token_span.1 token_span.2;
      found ←
        match credential_token_len token with
        | Some len => Some [(token_span.1, (token_span.1 + len)%nat)]
        | None =>
            match rest with
            | [] => Some []
            | next :: after =>
                gap ← slice_range text token_span.2 next.1;
                claimed_spans text token gap next after
            end
        end;
      spans ← shape_spans text rest;
      Some (found ++ spans)
  end.
Definition credential_shape_spans (text : str) : option (list span) := shape_spans text (token_spans text).

(** ** Replacement *)

Definition span_le (a b : span) : Prop := (a.1 <= b.1)%nat.
#[export] Instance span_le_dec : RelDecision span_le.
Proof. intros a b. unfold span_le. apply _. Defined.

Fixpoint replace_loop (text : str) (spans : list span) (output : str) (cursor : nat) (pending : option span)
  : option str :=
  match spans, pending with
  | [], None => tail ← slice_from text cursor; Some (output ++ tail)
  | [], Some done =>
      kept ← slice_range text cursor done.1;
      tail ← slice_from text done.2;
      Some (output ++ kept ++ REDACTION_PLACEHOLDER ++ tail)
  | span :: rest, None => replace_loop text rest output cursor (Some span)
  | span :: rest, Some current =>
      if (span.1 <=? current.2)%nat
      then replace_loop text rest output cursor (Some (current.1, (current.2 `max` span.2)%nat))
      else
        kept ← slice_range text cursor current.1;
        replace_loop text rest (output ++ kept ++ REDACTION_PLACEHOLDER) current.2 (Some span)
  end.

Definition replace_spans (text : str) (spans : list span) : option str :=
  replace_loop text (merge_sort span_le spans) [] 0 None.

Definition redact_text (registry : list str) (text : str) : option str :=
  shapes ← credential_shape_spans text;
  match registered_value_spans registry text ++ shapes with
  | [] => Some text
  | spans => replace_spans text spans
  end.

(** ** JSON, bounds and error texts *)

Inductive Value :=
| VNull | VBool (b : bool) | VNumber (n : str) | VString (s : str)
| VArray (items : list Value) | VObject (fields : list (str * Value)).

Fixpoint redact_json (registry : list str) (value : Value) : option Value :=
  match value with
  | VString text => VString <$> redact_text registry text
  | VArray items => VArray <$> mapM (redact_json registry) items
  | VObject fields => VObject <$> mapM (fun f => pair f.1 <$> redact_json registry f.2) fields
  | VNull | VBool _ | VNumber _ => Some value
  end.

Definition bounded (text : str) (max_bytes : nat) : option str :=
  if (str_len text <=? max_bytes)%nat then Some text
  else
    let cut := lower_cutoff text max_bytes in
    let dropped := (str_len text - cut)%nat in
    head ← slice_to text cut;
    Some (head ++ lit " [truncated " ++ decimal (Z.of_nat dropped) ++ lit " bytes]").

Definition error_body (registry : list str) (text : str) : option str :=
  redacted ← redact_text registry text; bounded redacted HTTP_ERROR_BODY_MAX_BYTES.

(** The text after the closing quote; empty when it never closes. *)
Fixpoint skip_debug (escaped : bool) (s : str) : str :=
  match s with
  | [] => []
  | c :: s' =>
      if escaped then skip_debug false s'
      else if c =? backslash then skip_debug true s'
      else if c =? dquote then s'
      else skip_debug false s'
  end.
Definition skip_debug_string (after_open_quote : str) : str := skip_debug false after_open_quote.

(** The earlier of the next quote and the next marker; [true] is the quote. *)
Definition next_literal (rest : str) : option (nat * bool) :=
  match find_char (Z.eqb dquote) rest, find_str UNKNOWN_VARIANT_MARKER rest with
  | None, None => None
  | Some q, None => Some (q, true)
  | None, Some v => Some (v, false)
  | Some q, Some v => if (v <=? q)%nat then Some (v, false) else Some (q, true)
  end.

Fixpoint strip_loop (fuel : nat) (rest : str) : option str :=
  match fuel with
  | O => None
  | S fuel' =>
      match next_literal rest with
      | None => Some rest
      | Some (index, true) =>
          stripped ← strip_loop fuel' (skip_debug_string (drop (S index) rest));
          Some (take index rest ++ REDACTION_PLACEHOLDER ++ stripped)
      | Some (index, false) =>
          let token_start := (index + length UNKNOWN_VARIANT_MARKER)%nat in
          let after := drop token_start rest in
          stripped ← strip_loop fuel'
            (match find_char (Z.eqb backtick) after with Some close => drop (S close) after | None => [] end);
          Some (take token_start rest ++ REDACTION_PLACEHOLDER ++ [backtick] ++ stripped)
      end
  end.
Definition strip_serde_value_literals (message : str) : option str := strip_loop (S (length message)) message.

(** ** Explicit value lists *)

(** The suffixes of the value from the longest down to the shortest of at least
    [MIN_REDACTED_SECRET_FRAGMENT_LEN] bytes. *)
Fixpoint redact_leading_secret_fragment (text suffix : str) : str :=
  if (str_len suffix <? MIN_REDACTED_SECRET_FRAGMENT_LEN)%nat then text
  else if ((str_len suffix <=? str_len text)%nat && starts_with suffix text)
  then REDACTION_PLACEHOLDER ++ drop (length suffix) text
  else match suffix with [] => text | _ :: shorter => redact_leading_secret_fragment text shorter end.

Definition redact_value (front_truncated : bool) (text value : str) : str :=
  if (str_len value <? MIN_REDACTED_SECRET_LEN)%nat then text
  else
    let replaced := replace text value REDACTION_PLACEHOLDER in
    if front_truncated then redact_leading_secret_fragment replaced value else replaced.

Definition longer_first (a b : str) : Prop := (str_len b <= str_len a)%nat.
#[export] Instance longer_first_dec : RelDecision longer_first.
Proof. intros a b. unfold longer_first. apply _. Defined.

(** A text without the value is its own replacement. *)
Definition redact_values (text : str) (values : list str) (front_truncated : bool) : str :=
  foldl (redact_value front_truncated) text (merge_sort longer_first values).

(** ** Spans *)

Definition span_ok (n : nat) (s : span) : Prop := (s.1 < s.2 <= n)%nat.

Lemma slice_range_ok text a b :
  (a <= b <= length text)%nat -> slice_range text a b = Some (take (b - a) (drop a text)).
Proof.
  intros H. unfold slice_range. by rewrite (proj2 (Nat.leb_le a b)), (proj2 (Nat.leb_le b (length text))) by lia.
Qed.
Lemma slice_from_ok text a : (a <= length text)%nat -> slice_from text a = Some (drop a text).
Proof. intros H. unfold slice_from. by rewrite (proj2 (Nat.leb_le _ _)). Qed.

Lemma starts_with_length p s : starts_with p s = true -> (length p <= length s)%nat.
Proof. intros (t & ->)%starts_with_spec. rewrite length_app. lia. Qed.

Lemma match_from_ok needle i skip s sp :
  needle <> [] -> sp ∈ match_from needle i skip s -> (i <= sp.1)%nat /\ span_ok (i + length s) sp.
Proof.
  intros Hn. revert i skip. induction s as [|c s IH]; intros i skip H; simpl in H; [by apply not_elem_of_nil in H|].
  destruct skip as [|skip].
  - destruct (starts_with needle (c :: s)) eqn:E.
    + apply elem_of_cons in H as [->|H].
      * apply starts_with_length in E. simpl in *. destruct needle; [done|]. unfold span_ok. simpl in *. lia.
      * apply IH in H as [H1 H2]. unfold span_ok in *. simpl. lia.
    + apply IH in H as [H1 H2]. unfold span_ok in *. simpl. lia.
  - apply IH in H as [H1 H2]. unfold span_ok in *. simpl. lia.
Qed.

(** Every occurrence overlaps a match. *)
Lemma match_from_covers needle i skip s k :
  needle <> [] -> (k < length s)%nat -> starts_with needle (drop k s) = true ->
  (k < skip)%nat
  \/ exists sp, sp ∈ match_from needle i skip s /\ (sp.1 < i + k + length needle)%nat /\ (i + k < sp.2)%nat.
Proof.
  intros Hn. assert (0 < length needle)%nat as Hl by (destruct needle; simpl; [done|lia]).
  revert i skip k. induction s as [|c s IH]; intros i skip k Hk Ho; simpl in Hk; [lia|].
  destruct skip as [|skip]; simpl.
  - right. destruct k as [|k]; simpl in Ho.
    + rewrite Ho. eexists. split; [by left|]. simpl. lia.
    + destruct (starts_with needle (c :: s)) eqn:E.
      * destruct (IH (S i) (length needle - 1)%nat k) as [Hs|(sp & Hsp & H1 & H2)]; [lia|done|..].
        -- exists (i, i + length needle)%nat. split; [by left|]. simpl. lia.
        -- exists sp. split; [by right|]. lia.
      * destruct (IH (S i) O k) as [Hs|(sp & Hsp & H1 & H2)]; [lia|done|lia|]. exists sp. split; [done|lia].
  - destruct k as [|k]; [left; lia|]. simpl in Ho.
    destruct (IH (S i) skip k) as [Hs|(sp & Hsp & H1 & H2)]; [lia|done|left; lia|].
    right. exists sp. split; [done|lia].
Qed.

(** ** What a set of spans leaves of a text *)

Definition covered (spans : list span) (i : nat) : bool :=
  existsb (fun s => (s.1 <=? i) && (i <? s.2))%nat spans.

(** The text with every maximal covered run replaced by one placeholder;
    [inside] tells that the character before was covered. *)
Fixpoint mask (cov : nat -> bool) (i : nat) (inside : bool) (text : str) : str :=
  match text with
  | [] => []
  | c :: rest =>
      if cov i then (if inside then [] else REDACTION_PLACEHOLDER) ++ mask cov (S i) true rest
      else c :: mask cov (S i) false rest
  end.

Lemma mask_agree cov1 cov2 i b text :
  (forall j, (i <= j)%nat -> cov1 j = cov2 j) -> mask cov1 i b text = mask cov2 i b text.
Proof.
  revert i b. induction text as [|c t IH]; intros i b H; simpl; [done|].
  by rewrite H, !IH by (try intros j Hj; try apply H; lia).
Qed.

Lemma mask_kept cov n i b text :
  (n <= length text)%nat -> (forall j, (i <= j < i + n)%nat -> cov j = false) ->
  mask cov i b text = take n text ++ mask cov (i + n) (if decide (n = 0%nat) then b else false) (drop n text).
Proof.
  revert i b text. induction n as [|n IH]; intros i b [|c t] Hn Hc; simpl in *; try lia;
    [by rewrite ?Nat.add_0_r..|].
  rewrite Hc by lia. f_equal. rewrite IH; [|lia|intros j Hj; apply Hc; lia].
  rewrite Nat.add_succ_r. simpl. by destruct (decide (n = 0%nat)).
Qed.

Lemma mask_hidden cov n i b text :
  (n <= length text)%nat -> (0 < n)%nat -> (forall j, (i <= j < i + n)%nat -> cov j = true) ->
  mask cov i b text = (if b then [] else REDACTION_PLACEHOLDER) ++ mask cov (i + n) true (drop n text).
Proof.
  revert i b text. induction n as [|n IH]; intros i b [|c t] Hn H0 Hc; simpl in *; try lia.
  rewrite Hc by lia. f_equal. rewrite Nat.add_succ_r. destruct n as [|n]; [by rewrite Nat.add_0_r|].
  by rewrite (IH (S i) true t) by (try lia; intros j Hj; apply Hc; lia).
Qed.

Lemma mask_all_kept cov i b text :
  (forall j, (i <= j)%nat -> cov j = false) -> mask cov i b text = text.
Proof.
  revert i b. induction text as [|c t IH]; intros i b H; simpl; [done|]. rewrite H by lia. f_equal. apply IH.
  intros j Hj. apply H. lia.
Qed.

(** The merged spans of the loop. *)
Fixpoint merged (pending : option span) (spans : list span) : list span :=
  match spans, pending with
  | [], None => []
  | [], Some p => [p]
  | s :: rest, None => merged (Some s) rest
  | s :: rest, Some p =>
      if (s.1 <=? p.2)%nat then merged (Some (p.1, (p.2 `max` s.2)%nat)) rest
      else p :: merged (Some s) rest
  end.

Fixpoint emit_spans (text : str) (cursor : nat) (spans : list span) : option str :=
  match spans with
  | [] => slice_from text cursor
  | s :: rest =>
      kept ← slice_range text cursor s.1;
      tail ← emit_spans text s.2 rest;
      Some (kept ++ REDACTION_PLACEHOLDER ++ tail)
  end.

Lemma replace_loop_emit text spans output cursor pending :
  replace_loop text spans output cursor pending
  = emit_spans text cursor (merged pending spans) ≫= fun tail => Some (output ++ tail).
Proof.
  revert output cursor pending. induction spans as [|s spans IH]; intros output cursor [p|]; simpl.
  - destruct (slice_range text cursor p.1), (slice_from text p.2); done.
  - by destruct (slice_from text cursor).
  - destruct (s.1 <=? p.2)%nat; [apply IH|]. simpl. destruct (slice_range text cursor p.1); simpl; [|done].
    rewrite IH. destruct (emit_spans _ _ _); simpl; [|done]. by rewrite <- !app_assoc.
  - apply IH.
Qed.

(** Spans in order that neither overlap nor touch. *)
Fixpoint separated (n from : nat) (spans : list span) : Prop :=
  match spans with
  | [] => True
  | s :: rest => (from <= s.1)%nat /\ span_ok n s /\ separated n (S s.2) rest
  end.

Lemma separated_weaken n a b spans : (a <= b)%nat -> separated n b spans -> separated n a spans.
Proof. destruct spans; simpl; [done|]. intros ? (? & ? & ?). split_and!; [lia|done..]. Qed.

Lemma separated_uncovered n from spans i : separated n from spans -> (i < from)%nat -> covered spans i = false.
Proof.
  revert from. induction spans as [|s spans IH]; intros from; simpl; [done|]. intros (H1 & H2 & H3) Hi.
  rewrite (proj2 (Nat.leb_gt _ _)) by lia. simpl. apply (IH _ H3). unfold span_ok in H2. lia.
Qed.

Lemma emit_mask text cursor spans :
  (cursor <= length text)%nat -> separated (length text) cursor spans ->
  emit_spans text cursor spans = Some (mask (covered spans) cursor false (drop cursor text)).
Proof.
  revert cursor. induction spans as [|[a b] spans IH]; intros cursor Hc Hs; simpl.
  - rewrite slice_from_ok by done. by rewrite mask_all_kept.
  - simpl in Hs. destruct Hs as (H1 & [H2 H2'] & H3). simpl in *.
    rewrite slice_range_ok by lia. simpl. rewrite IH; [|lia|by eapply separated_weaken; [|exact H3]; lia].
    simpl. f_equal. set (cov := fun i => ((a <=? i) && (i <? b))%nat || covered spans i).
    change (covered ((a, b) :: spans)) with cov.
    rewrite (mask_kept cov (a - cursor) cursor false (drop cursor text)).
    2: { rewrite length_drop. lia. }
    2: { intros j Hj. unfold cov. rewrite (proj2 (Nat.leb_gt a j)) by lia. simpl.
         eapply separated_uncovered; [exact H3|]. lia. }
    f_equal. replace (if decide ((a - cursor)%nat = 0%nat) then false else false) with false by (by destruct (decide _)).
    replace (cursor + (a - cursor))%nat with a by lia. rewrite drop_drop.
    replace (cursor + (a - cursor))%nat with a by lia.
    rewrite (mask_hidden cov (b - a) a false (drop a text)).
    2: { rewrite length_drop. lia. }
    2: lia.
    2: { intros j Hj. unfold cov. by rewrite (proj2 (Nat.leb_le a j)), (proj2 (Nat.ltb_lt j b)) by lia. }
    replace (a + (b - a))%nat with b by lia. rewrite drop_drop. replace (a + (b - a))%nat with b by lia.
    assert (forall j, (b <= j)%nat -> cov j = covered spans j) as Hj.
    { intros j Hj. unfold cov. rewrite (proj2 (Nat.ltb_ge j b)) by lia. by rewrite andb_false_r. }
    rewrite (mask_agree _ _ b true _ Hj). assert (covered spans b = false) as Eb.
    { eapply separated_uncovered; [exact H3|lia]. }
    by destruct (drop b text) as [|c t]; simpl; rewrite ?Eb.
Qed.

Lemma merged_ok n p spans from :
  StronglySorted span_le (p :: spans) -> Forall (span_ok n) (p :: spans) -> (from <= p.1)%nat ->
  separated n from (merged (Some p) spans)
  /\ forall i, covered (merged (Some p) spans) i = covered (p :: spans) i.
Proof.
  revert p from. induction spans as [|s spans IH]; intros p from Hs Hok Hf.
  { simpl. inversion_clear Hok. by split. }
  apply StronglySorted_inv in Hs as [Hs [Hp1 Hp2]%Forall_cons].
  apply StronglySorted_inv in Hs as [Hs Hs1]. apply Forall_cons in Hok as [Hop [Hos Hok]%Forall_cons].
  unfold span_ok, span_le in Hop, Hos, Hp1. simpl. destruct (Nat.leb_spec s.1 p.2) as [Hle|Hlt].
  - destruct (IH (p.1, (p.2 `max` s.2)%nat) from) as [H1 H2]; [| |done|].
    + constructor; [done|]. eapply Forall_impl; [exact Hp2|]. done.
    + constructor; [|done]. unfold span_ok. simpl. lia.
    + split; [done|]. intros i. rewrite H2. simpl. rewrite orb_assoc. f_equal. apply eq_true_iff_eq.
      rewrite orb_true_iff, !andb_true_iff, !Nat.leb_le, !Nat.ltb_lt. lia.
  - destruct (IH s (S p.2)) as [H1 H2]; [by constructor|by constructor|lia|].
    split; [split_and!; [done|unfold span_ok; lia|done]|]. intros i. simpl. by rewrite H2.
Qed.

#[export] Instance span_le_total : Total span_le.
Proof. intros a b. unfold span_le. lia. Qed.
#[export] Instance span_le_trans : Transitive span_le.
Proof. intros a b c. unfold span_le. lia. Qed.

Lemma covered_perm l1 l2 i : l1 ≡ₚ l2 -> covered l1 i = covered l2 i.
Proof.
  intros Hp. unfold covered. apply eq_true_iff_eq. rewrite !existsb_exists.
  setoid_rewrite <- list_elem_of_In. by setoid_rewrite Hp.
Qed.

(** The single pass never slices out of range, and its output is the masked text. *)
Lemma replace_spans_mask text spans :
  Forall (span_ok (length text)) spans ->
  replace_spans text spans = Some (mask (covered spans) 0 false text).
Proof.
  intros Hok. unfold replace_spans. rewrite replace_loop_emit.
  pose proof (merge_sort_Permutation span_le spans) as Hp.
  assert (StronglySorted span_le (merge_sort span_le spans)) as Hs by (apply StronglySorted_merge_sort; apply _).
  rewrite <- Hp in Hok. destruct (merge_sort span_le spans) as [|p rest] eqn:E.
  - simpl. apply Permutation_nil_l in Hp as <-. simpl. by rewrite mask_all_kept.
  - change (merged None (p :: rest)) with (merged (Some p) rest).
    destruct (merged_ok (length text) p rest 0) as [H1 H2]; [done|done|lia|].
    rewrite emit_mask by (done || lia). simpl. f_equal. apply mask_agree. intros j _. rewrite H2. by apply covered_perm.
Qed.

(** ** The credential shapes stay inside the text *)

Lemma find_char_lt test s i : find_char test s = Some i -> (i < length s)%nat.
Proof.
  revert i. induction s as [|c s IH]; intros i; simpl; [done|]. destruct (test c); [intros [= <-]; lia|].
  destruct (find_char test s); intros [= <-]. specialize (IH _ eq_refl). lia.
Qed.

Lemma find_str_le needle s i : find_str needle s = Some i -> (i + length needle <= length s)%nat.
Proof.
  revert i. induction s as [|c s IH]; intros i; simpl.
  - destruct needle; [|done]. simpl. intros [= <-]. lia.
  - destruct (starts_with needle (c :: s)) eqn:E; [intros [= <-]; by apply starts_with_length in E|].
    destruct (find_str needle s); intros [= <-]. specialize (IH _ eq_refl). lia.
Qed.

Lemma trim_end_length s : (length (trim_end s) <= length s)%nat.
Proof. destruct (trim_end_prefix s) as [t E]. rewrite E at 2. rewrite length_app. lia. Qed.

Lemma value_end_ok text start extent :
  (start <= length text)%nat ->
  exists stop, value_end text start extent = Some stop /\ (start <= stop <= length text)%nat.
Proof.
  intros H. unfold value_end. rewrite slice_from_ok by done. simpl. eexists. split; [done|].
  pose proof (length_drop text start) as Hd. set (rest := drop start text) in *. clearbody rest.
  destruct extent as [| |closing].
  - destruct (find_char _ rest) eqn:E; [apply find_char_lt in E|]; lia.
  - set (k := default _ _). pose proof (trim_end_length (take k rest)). rewrite length_take in *. lia.
  - destruct (find_str closing rest) eqn:E; [apply find_str_le in E; lia|].
    destruct (find_char _ rest) eqn:E2; [apply find_char_lt in E2|]; lia.
Qed.

Lemma claim_ok text start extent minimum :
  (start <= length text)%nat -> (0 < minimum)%nat ->
  exists spans, claim text start extent minimum = Some spans /\ Forall (span_ok (length text)) spans.
Proof.
  intros H Hm. unfold claim. destruct (value_end_ok text start extent H) as (stop & -> & Hs). simpl.
  rewrite slice_range_ok by done. simpl. eexists. split; [done|]. case_match eqn:E; [|done].
  constructor; [|done]. unfold span_ok. simpl. split; [|lia]. apply Nat.leb_le in E.
  destruct (decide (start = stop)) as [->|]; [|lia]. rewrite Nat.sub_diag in E. simpl in E. lia.
Qed.

(** Token spans come in order and are separated by at least one character. *)
Lemma tokens_from_ok i start s :
  (forall a, start = Some a -> (a < i)%nat) ->
  separated (i + length s) (default i start) (tokens_from i start s).
Proof.
  revert i start. induction s as [|c s IH]; intros i start Hst; simpl.
  - destruct start as [a|]; simpl; [|done]. specialize (Hst a eq_refl). unfold span_ok. simpl. split_and!; [lia..|done].
  - replace (i + S (length s))%nat with (S i + length s)%nat by lia.
    destruct (is_separator c), start as [a|]; simpl.
    + specialize (Hst a eq_refl). split_and!; [lia|unfold span_ok; simpl; lia..|]. by apply (IH (S i) None).
    + eapply separated_weaken; [|by apply (IH (S i) None)]. simpl. lia.
    + apply (IH (S i) (Some a)). intros a' [= <-]. specialize (Hst a eq_refl). lia.
    + apply (IH (S i) (Some i)). intros a' [= <-]. lia.
Qed.

Lemma candidate_length (token : str) :
  (length (reverse (drop_while (fun c => (c =? chr ".")%Z) (reverse token))) <= length token)%nat.
Proof. rewrite length_reverse. etrans; [apply drop_while_length|]. by rewrite length_reverse. Qed.

Lemma credential_token_len_ok token len :
  token <> [] -> credential_token_len token = Some len -> (0 < len <= length token)%nat.
Proof.
  intros Ht. unfold credential_token_len. destruct (existsb _ _).
  - intros [= <-]. destruct token; [done|simpl; lia].
  - case_match eqn:E; [|done]. intros [= <-]. pose proof (candidate_length token).
    destruct (reverse _) eqn:Er; [|simpl in *; lia]. vm_compute in E. done.
Qed.

Lemma claimed_spans_ok text token gap next after from :
  separated (length text) from (next :: after) ->
  exists spans, claimed_spans text token gap next after = Some spans /\ Forall (span_ok (length text)) spans.
Proof.
  intros (_ & [Hn1 Hn2] & Ha). unfold claimed_spans. case_match; [apply claim_ok; unfold MIN_SCHEME_CREDENTIAL_LEN; lia|].
  destruct (sensitive_field_name token) as [name|]; [|by eauto].
  destruct (assignment_opening_quote gap) as [q|]; [|by eauto].
  destruct q; try (by eauto); rewrite slice_range_ok by lia; simpl;
    (case_match; [|apply claim_ok; lia]);
    (destruct after as [|cr after]; [by eauto|]); simpl in Ha; destruct Ha as (Hc & [Hc1 Hc2] & _);
    rewrite slice_range_ok by lia; simpl; (case_match; [apply claim_ok; unfold MIN_SCHEME_CREDENTIAL_LEN; lia|by eauto]).
Qed.

Lemma shape_spans_ok text tokens from :
  separated (length text) from tokens ->
  exists spans, shape_spans text tokens = Some spans /\ Forall (span_ok (length text)) spans.
Proof.
  revert from. induction tokens as [|tok rest IH]; intros from Hs; simpl; [by eauto|].
  pose proof Hs as (_ & [Ht1 Ht2] & Hr). destruct (IH _ Hr) as (spans & -> & Hok).
  rewrite slice_range_ok by lia. simpl. set (token := take _ _).
  assert (token <> [] /\ (length token <= tok.2 - tok.1)%nat) as [Hne Hlen].
  { split; [|unfold token; rewrite length_take; lia]. intros E. apply (f_equal length) in E. unfold token in E.
    rewrite length_take, length_drop in E. simpl in E. lia. }
  destruct (credential_token_len token) as [len|] eqn:E.
  - apply credential_token_len_ok in E; [|done]. simpl. eexists. split; [done|].
    constructor; [unfold span_ok; simpl; lia|done].
  - destruct rest as [|next after]; simpl; [by eexists; split; [done|]; simpl|].
    rewrite slice_range_ok by (simpl in Hr; unfold span_ok in Hr; lia). simpl.
    destruct (claimed_spans_ok text token (take (next.1 - tok.2) (drop tok.2 text)) next after _ Hr) as (found & -> & Hf).
    simpl. eexists. split; [done|]. by apply Forall_app.
Qed.

(** What a later token contributes is among the spans. *)
Lemma shape_spans_app text pre rest spans :
  shape_spans text (pre ++ rest) = Some spans ->
  exists more, shape_spans text rest = Some more /\ forall sp, sp ∈ more -> sp ∈ spans.
Proof.
  revert spans. induction pre as [|tok pre IH]; intros spans H; simpl in H; [by exists spans|].
  apply bind_Some in H as (token & _ & H). apply bind_Some in H as (found & _ & (more & Hm & [= <-])%bind_Some).
  destruct (IH more Hm) as (late & Hl & Hin). exists late. split; [done|]. intros sp Hsp. apply elem_of_app. auto.
Qed.

Lemma credential_shape_spans_ok text :
  exists spans, credential_shape_spans text = Some spans /\ Forall (span_ok (length text)) spans.
Proof.
  unfold credential_shape_spans, token_spans. eapply shape_spans_ok. by apply (tokens_from_ok 0 None text).
Qed.

Lemma registered_spans_ok registry text :
  Forall (fun v => v <> []) registry -> Forall (span_ok (length text)) (registered_value_spans registry text).
Proof.
  intros Hr. rewrite Forall_forall in Hr. apply Forall_forall. intros sp. unfold registered_value_spans.
  rewrite list_elem_of_bind. intros (v & Hsp & Hv). eapply match_from_ok in Hsp as [_ H]; [done|by apply Hr].
Qed.

Lemma redact_text_run registry text :
  Forall (fun v => v <> []) registry ->
  exists shapes, credential_shape_spans text = Some shapes
  /\ redact_text registry text
     = Some (mask (covered (registered_value_spans registry text ++ shapes)) 0 false text).
Proof.
  intros Hr. destruct (credential_shape_spans_ok text) as (shapes & E & Hok). exists shapes. split; [done|].
  unfold redact_text. rewrite E. simpl.
  assert (Forall (span_ok (length text)) (registered_value_spans registry text ++ shapes)) as Hall
    by (apply Forall_app; auto using registered_spans_ok).
  destruct (registered_value_spans registry text ++ shapes) as [|s l] eqn:El; [by rewrite mask_all_kept|].
  rewrite <- El in *. by apply replace_spans_mask.
Qed.

(** ** No secret in a masked text *)

Definition occurs (v s : str) : Prop := exists a b, s = a ++ v ++ b.

(** A value the placeholder cannot be mistaken for part of. *)
Record telling (v : str) : Prop := {
  tl_nonempty : v <> [];
  tl_open : chr "[" ∉ v;
  tl_close : chr "]" ∉ v;
  tl_word : ~ occurs v (lit "redacted");
}.

Lemma occurs_starts v s : occurs v s <-> exists k, starts_with v (drop k s) = true.
Proof.
  split.
  - intros (a & b & ->). exists (length a). rewrite drop_app_length. apply starts_with_spec. by exists b.
  - intros (k & (t & E)%starts_with_spec). exists (take k s), t. by rewrite <- E, take_drop.
Qed.

Lemma placeholder_shape : REDACTION_PLACEHOLDER = chr "[" :: lit "redacted" ++ [chr "]"].
Proof. reflexivity. Qed.

Lemma telling_not_in_placeholder v k x :
  telling v -> (k < length REDACTION_PLACEHOLDER)%nat ->
  starts_with v (drop k (REDACTION_PLACEHOLDER ++ x)) = true -> False.
Proof.
  intros [Hne Ho Hc Hw] Hk (t & E)%starts_with_spec. rewrite placeholder_shape in *.
  assert (length (lit "redacted") = 8%nat) as H8 by reflexivity. set (w := lit "redacted") in *. clearbody w.
  simpl in Hk. rewrite length_app in Hk. simpl in Hk.
  destruct k as [|k]; [destruct v; [done|]; injection E as <- _; by apply Ho, elem_of_cons; left|].
  simpl in E. rewrite <- app_assoc in E.
  rewrite drop_app_le in E by lia.
  destruct (decide (length v <= length (drop k w))%nat) as [Hl|Hl].
  - apply Hw. pose proof (f_equal (take (length v)) E) as Et.
    rewrite take_app_le, take_app_length in Et by done.
    exists (take k w), (drop (length v) (drop k w)). rewrite <- Et at 1. by rewrite !take_drop.
  - apply Hc. apply (list_elem_of_lookup_2 _ (length (drop k w))).
    rewrite <- (lookup_app_l v t) by lia. rewrite <- E, lookup_app_r by lia. by rewrite Nat.sub_diag.
Qed.

Lemma mask_starts cov v i t :
  chr "[" ∉ v -> starts_with v (mask cov i false t) = true ->
  starts_with v t = true /\ forall j, (j < length v)%nat -> cov (i + j)%nat = false.
Proof.
  revert i t. induction v as [|x v IH]; intros i t Hb H; [split; [done|simpl; lia]|].
  apply not_elem_of_cons in Hb as [Hx Hb]. destruct t as [|c t]; [done|]. simpl in H.
  destruct (cov i) eqn:Ec.
  { apply andb_prop in H as [H%Z.eqb_eq _]. by destruct Hx. }
  apply andb_prop in H as [Hc H]. destruct (IH (S i) t Hb H) as [H1 H2].
  simpl. split; [by rewrite Hc, H1|]. intros [|j] Hj; [by rewrite Nat.add_0_r|].
  replace (i + S j)%nat with (S i + j)%nat by lia. apply H2. simpl in Hj. lia.
Qed.

(** A telling value in the masked text is one the spans left whole. *)
Lemma mask_occurs cov v i b t k :
  telling v -> starts_with v (drop k (mask cov i b t)) = true ->
  exists m, (m < length t)%nat /\ starts_with v (drop m t) = true
           /\ forall j, (j < length v)%nat -> cov (i + m + j)%nat = false.
Proof.
  intros Hv. revert i b k. induction t as [|c t IH]; intros i b k H; simpl in H.
  { rewrite drop_nil in H. destruct v; [by destruct (tl_nonempty _ Hv)|done]. }
  assert (forall b k, starts_with v (drop k (mask cov (S i) b t)) = true ->
    exists m, (m < length (c :: t))%nat /\ starts_with v (drop m (c :: t)) = true
             /\ forall j, (j < length v)%nat -> cov (i + m + j)%nat = false) as Hrec.
  { intros b' k' (m & Hm & Hs & Hc)%IH. exists (S m). simpl. split; [lia|]. split; [done|].
    intros j Hj. rewrite <- (Hc j Hj). f_equal. lia. }
  destruct (cov i) eqn:Ec.
  - destruct b; [by eapply Hrec|].
    destruct (decide (k < length REDACTION_PLACEHOLDER)%nat) as [Hk|Hk];
      [by destruct (telling_not_in_placeholder v k _ Hv Hk H)|].
    rewrite drop_app_ge in H by lia. by eapply Hrec.
  - destruct k as [|k]; [|by eapply Hrec]. exists 0%nat. simpl. split; [lia|].
    destruct (mask_starts cov v i (c :: t) (tl_open _ Hv)) as [H1 H2]; [simpl; by rewrite Ec|].
    split; [done|]. intros j Hj. rewrite Nat.add_0_r. by apply H2.
Qed.

Lemma covered_elem spans s j : s ∈ spans -> (s.1 <= j < s.2)%nat -> covered spans j = true.
Proof.
  intros Hs Hj. apply existsb_exists. exists s. split; [by apply list_elem_of_In|].
  by rewrite (proj2 (Nat.leb_le _ _)), (proj2 (Nat.ltb_lt _ _)) by lia.
Qed.

(** C30. A registered secret never leaves the process: redacting any text is
    total, and no registered value occurs in the result, however often, nested or
    overlapping it occurs in the text, for every value without brackets that is
    not itself part of the word the placeholder shows. *)
Theorem registered_secret_hidden registry text v :
  Forall (fun v => v <> []) registry -> v ∈ registry -> telling v ->
  exists output, redact_text registry text = Some output /\ ~ occurs v output.
Proof.
  intros Hr Hv Ht. destruct (redact_text_run registry text Hr) as (shapes & _ & ->).
  eexists. split; [done|]. intros (k & H)%occurs_starts.
  apply mask_occurs in H as (m & Hm & Hs & Hc); [|done].
  destruct (match_from_covers v 0 0 text m) as [H0|(sp & Hsp & H1 & H2)]; [by apply Ht|done|done|lia|].
  assert (sp ∈ registered_value_spans registry text ++ shapes) as Hin.
  { apply elem_of_app. left. apply list_elem_of_bind. by exists v. }
  pose proof (match_from_ok v 0 0 text sp (tl_nonempty _ Ht) Hsp) as [_ [Hlt _]].
  specialize (Hc (sp.1 - m)%nat). rewrite (covered_elem _ sp) in Hc; [|done|lia].
  assert (0 < length v)%nat by (destruct v; [by destruct (tl_nonempty _ Ht)|simpl; lia]).
  specialize (Hc ltac:(lia)). done.
Qed.

(** Checked by search. *)
Definition telling_b (v : str) : bool :=
  negb (bool_decide (v = [])) && negb (one_of v (chr "[")) && negb (one_of v (chr "]"))
  && bool_decide (find_str v (lit "redacted") = None).

Lemma find_str_occurs v s : occurs v s -> find_str v s <> None.
Proof.
  intros (a & b & ->). induction a as [|c a IH]; simpl.
  - assert (starts_with v (v ++ b) = true) as E by (apply starts_with_spec; by exists b).
    destruct (v ++ b); simpl; rewrite E; done.
  - destruct (starts_with v (c :: a ++ v ++ b)); [done|]. by destruct (find_str v (a ++ v ++ b)).
Qed.

Lemma telling_check v : telling_b v = true -> telling v.
Proof.
  unfold telling_b. rewrite !andb_true_iff, !negb_true_iff, bool_decide_eq_false, bool_decide_eq_true.
  intros (((Hn & Ho) & Hc) & Hw).
  assert (forall c, one_of v c = false -> c ∉ v) as Hone.
  { intros c H Hin. apply not_true_iff_false in H. apply H. apply existsb_exists. exists c.
    split; [by apply list_elem_of_In|apply Z.eqb_refl]. }
  split; [done|auto..|]. by intros ?%find_str_occurs.
Qed.

Definition demo_secrets : list str := [lit "hunter2hunter"; lit "aaaaaa"].
Definition demo_text : str := lit "curl -u hunter2hunter2hunter aaaaaaa".

Lemma registered_secret_hidden_witness :
  exists output, redact_text demo_secrets demo_text = Some output /\ ~ occurs (lit "hunter2hunter") output.
Proof.
  apply registered_secret_hidden.
  - repeat constructor; discriminate.
  - left.
  - apply telling_check. vm_compute. reflexivity.
Defined.

Lemma demo_redacted : redact_text demo_secrets demo_text = Some (lit "curl -u [redacted]2hunter [redacted]a").
Proof. vm_compute. reflexivity. Qed.

(** ** The credential shapes *)

(** What ends a word: white space, quotes, brackets and the punctuation of
    assignments, lists, paths and query strings. *)
Definition delimiter (c : char) : Prop :=
  is_whitespace c = true \/ c ∈ [34; 39; 96; 61; 58; 44; 59; 40; 41; 91; 93; 123; 125; 60; 62; 47; 92; 38; 63].

(** A word may start after [a], and end before [b]. *)
Definition opens (a : str) : Prop := a = [] \/ exists a' c, a = a' ++ [c] /\ delimiter c.
Definition closes (b : str) : Prop := match b with [] => True | c :: _ => delimiter c end.

(** A segment of a JSON web token. *)
Definition segment (w : str) : Prop :=
  (10 <= length w)%nat
  /\ Forall (fun c => c ∈ lit "ABCDEFGHIJKLMNOPQRSTUVWXYZabcdefghijklmnopqrstuvwxyz0123456789_-") w.

(** The prefixes the issuers publish. *)
Definition published : list string :=
  ["acps_"; "sk-"; "pk-"; "rk-"; "ghp_"; "gho_"; "ghu_"; "ghs_"; "ghr_"; "github_pat_"; "glpat-";
   "xoxb-"; "xoxp-"; "xoxa-"; "xoxs-"]%string.

(** The words that are credentials: a published prefix, in any case, with at
    least nine bytes behind it; or three segments of a web token, and perhaps
    full stops behind them that belong to the sentence. *)
Inductive credential : str -> str -> Prop :=
| credential_prefixed p head body :
    p ∈ published ->
    map to_ascii_lowercase head = lit p -> (9 <= str_len body)%nat -> credential (head ++ body) []
| credential_jwt x y z dots :
    segment x -> segment y -> segment z -> Forall (eq (chr ".")) dots ->
    credential (x ++ chr "." :: y ++ chr "." :: z) dots.

(** What ends the word behind a scheme, where slashes, colons and equals signs
    belong to the credential. *)
Definition ends_value (c : char) : Prop :=
  is_whitespace c = true \/ c ∈ [34; 39; 96; 44; 59; 38; 41; 93; 125; 60; 62].

(** [a ++ secret ++ b] shows a credential: a word that is one, or what follows
    the word Bearer. *)
Inductive exposes : str -> str -> str -> Prop :=
| exposes_word a secret dots b :
    opens a -> closes b -> Forall (fun c => ~ delimiter c) (secret ++ dots) -> credential secret dots ->
    exposes a secret (dots ++ b)
| exposes_bearer a scheme gap c secret b :
    opens a -> map to_ascii_lowercase scheme = lit "bearer" ->
    gap <> [] -> Forall (fun c => c = 32 \/ c = 9) gap ->
    ~ delimiter c -> Forall (fun c => ~ ends_value c) secret -> match b with [] => True | e :: _ => ends_value e end ->
    (8 <= str_len (c :: secret))%nat ->
    exposes (a ++ scheme ++ gap) (c :: secret) b.

Lemma one_of_spec set c : one_of set c = true <-> c ∈ set.
Proof.
  unfold one_of. rewrite existsb_exists. setoid_rewrite <- list_elem_of_In. split.
  - by intros (x & Hx & ->%Z.eqb_eq).
  - intros H. exists c. split; [done|apply Z.eqb_refl].
Qed.

Lemma is_separator_spec c : is_separator c = true <-> delimiter c.
Proof. unfold is_separator, delimiter. by rewrite orb_true_iff, one_of_spec. Qed.

Lemma not_separator c : ~ delimiter c <-> is_separator c = false.
Proof. by rewrite <- is_separator_spec, not_true_iff_false. Qed.

Lemma ends_value_spec c : is_whitespace c || one_of VALUE_TERMINATORS c = true <-> ends_value c.
Proof. unfold ends_value. by rewrite orb_true_iff, one_of_spec. Qed.

(** *** Where the tokens are *)

Lemma split_char_word sep w s current :
  forallb (fun c => negb (c =? sep)) w = true ->
  split_char sep (w ++ sep :: s) current = (reverse current ++ w) :: split_char sep s [].
Proof.
  revert current. induction w as [|c w IH]; intros current; simpl.
  - intros _. by rewrite Z.eqb_refl, app_nil_r.
  - intros [Hc Hw]%andb_prop. apply negb_true_iff in Hc. rewrite Hc, IH by done.
    by rewrite reverse_cons, <- (assoc_L (++)).
Qed.

Lemma split_char_last sep w current :
  forallb (fun c => negb (c =? sep)) w = true -> split_char sep w current = [reverse current ++ w].
Proof.
  revert current. induction w as [|c w IH]; intros current; simpl; [by rewrite app_nil_r|].
  intros [Hc Hw]%andb_prop. apply negb_true_iff in Hc. rewrite Hc, IH by done.
  by rewrite reverse_cons, <- (assoc_L (++)).
Qed.

Lemma tokens_from_after a c i start s :
  is_separator c = true -> exists pre,
  tokens_from i start (a ++ c :: s) = pre ++ tokens_from (S (i + length a)) None s.
Proof.
  intros Hc. revert i start. induction a as [|x a IH]; intros i start; simpl.
  - rewrite Hc, Nat.add_0_r. destruct start as [t|]; [by exists [(t, i)]|by exists []].
  - destruct (IH (S i) (if is_separator x then None else Some (default i start))) as [pre E].
    replace (S (i + S (length a)))%nat with (S (S i + length a))%nat by lia.
    destruct (is_separator x), start as [t|]; simpl in E; rewrite E; [eexists (_ :: pre)|exists pre..]; done.
Qed.

Lemma tokens_from_opens a s : opens a -> exists pre,
  tokens_from 0 None (a ++ s) = pre ++ tokens_from (length a) None s.
Proof.
  intros [->|(a' & c & -> & Hc%is_separator_spec)]; [by exists []|].
  rewrite length_app, <- (assoc_L (++)), Nat.add_1_r. by apply tokens_from_after.
Qed.

Lemma tokens_from_gap gap i s :
  Forall (fun c => is_separator c = true) gap -> tokens_from i None (gap ++ s) = tokens_from (i + length gap) None s.
Proof.
  intros H. revert i. induction H as [|c gap Hc _ IH]; intros i; simpl; [by rewrite Nat.add_0_r|].
  rewrite Hc, IH. f_equal. lia.
Qed.

Lemma tokens_from_started w i start s :
  Forall (fun c => is_separator c = false) w -> closes s ->
  tokens_from i (Some start) (w ++ s) = (start, (i + length w)%nat) :: tokens_from (i + length w) None s.
Proof.
  intros H Hs. revert i. induction H as [|c w Hc _ IH]; intros i; simpl.
  - rewrite Nat.add_0_r. destruct s as [|c s]; [done|]. simpl in Hs. apply is_separator_spec in Hs. simpl. by rewrite Hs.
  - by rewrite Hc, IH, Nat.add_succ_comm.
Qed.

Lemma tokens_from_word c w i s :
  Forall (fun c => is_separator c = false) (c :: w) -> closes s ->
  tokens_from i None ((c :: w) ++ s)
  = (i, (i + length (c :: w))%nat) :: tokens_from (i + length (c :: w)) None s.
Proof.
  intros [Hc Hw]%Forall_cons Hs. simpl. rewrite Hc, tokens_from_started by done. by rewrite Nat.add_succ_comm.
Qed.

Lemma tokens_from_start c i s : is_separator c = false -> exists e rest, tokens_from i None (c :: s) = (i, e) :: rest.
Proof.
  intros Hc. simpl. rewrite Hc. generalize (S i). induction s as [|x s IH]; intros j; simpl; [by eauto|].
  destruct (is_separator x); [by eauto|apply IH].
Qed.

(** *** The words are recognised *)

Lemma eq_ignore_lower a b : map to_ascii_lowercase a = map to_ascii_lowercase b -> eq_ignore_ascii_case a b = true.
Proof.
  revert b. induction a as [|x a IH]; intros [|y b]; simpl; try done. intros [= E1 E2]. by rewrite E1, Z.eqb_refl, IH.
Qed.

(** A text spelled like an ASCII word takes one byte per character. *)
Lemma spelled_len p head :
  Forall (fun c => 0 <= c < 128) p -> map to_ascii_lowercase head = p -> str_len head = length p.
Proof.
  intros Hp <-. rewrite length_map. induction head as [|c head IH]; simpl in *; [done|].
  apply Forall_cons in Hp as [Hc Hp]. rewrite IH by done. unfold len_utf8.
  unfold to_ascii_lowercase, is_ascii_upper in Hc. do 2 f_equal.
  repeat case_match; bool_hyps; lia.
Qed.

Lemma prefixed_recognised p head body :
  Forall (fun c => 0 <= c < 128) p -> map to_ascii_lowercase p = p ->
  map to_ascii_lowercase head = p -> (9 <= str_len body)%nat -> has_credential_prefix (head ++ body) p = true.
Proof.
  intros Hp Hlow Hh Hb. unfold has_credential_prefix.
  assert (str_len p = str_len head) as -> by (rewrite (spelled_len p head), (spelled_len p p); done).
  rewrite slice_to_app, str_len_app. rewrite eq_ignore_lower by congruence. simpl.
  apply Nat.leb_le. unfold CREDENTIAL_PREFIX_MIN_BODY_LEN. lia.
Qed.

Lemma published_listed p :
  p ∈ published ->
  Forall (fun c => 0 <= c < 128) (lit p) /\ map to_ascii_lowercase (lit p) = lit p
  /\ exists e, In e CREDENTIAL_PREFIXES /\ cp_prefix e = lit p.
Proof.
  intros Hp. assert (forallb (fun p => forallb (fun c => (0 <=? c) && (c <? 128)) (lit p)
    && (bool_decide (map to_ascii_lowercase (lit p) = lit p)
        && existsb (fun e => bool_decide (cp_prefix e = lit p)) CREDENTIAL_PREFIXES)) published = true) as H
    by (vm_compute; reflexivity).
  rewrite forallb_forall in H. specialize (H p (proj1 (list_elem_of_In _ _) Hp)).
  apply andb_prop in H as [H1 [H2%bool_decide_eq_true (e & He & Ee%bool_decide_eq_true)%existsb_exists]%andb_prop].
  split; [|by eauto]. rewrite forallb_forall in H1. apply Forall_forall. intros c Hc%list_elem_of_In%H1. bool_hyps. lia.
Qed.

Lemma segment_plain w :
  segment w ->
  (JWT_MIN_SEGMENT_LEN <= str_len w)%nat /\ forallb is_base64url_char w = true
  /\ forallb (fun c => negb (c =? chr ".")) w = true.
Proof.
  intros [Hl Hw].
  assert (forall c, c ∈ lit "ABCDEFGHIJKLMNOPQRSTUVWXYZabcdefghijklmnopqrstuvwxyz0123456789_-" ->
    len_utf8 c = 1%nat /\ is_base64url_char c = true /\ negb (c =? chr ".") = true) as Ha.
  { assert (forallb (fun c => (len_utf8 c =? 1)%nat && (is_base64url_char c && negb (c =? chr ".")))
      (lit "ABCDEFGHIJKLMNOPQRSTUVWXYZabcdefghijklmnopqrstuvwxyz0123456789_-") = true) as Hb by (vm_compute; reflexivity).
    rewrite forallb_forall in Hb. intros c Hc%list_elem_of_In%Hb. apply andb_prop in Hc as [?%Nat.eqb_eq [? ?]%andb_prop]. done. }
  assert (length w <= str_len w)%nat as Hs.
  { clear Hl. induction Hw as [|c w Hc _ IH]; simpl; [lia|]. destruct (Ha c Hc) as [-> _]. lia. }
  rewrite Forall_forall in Hw. split; [unfold JWT_MIN_SEGMENT_LEN; lia|].
  split; apply forallb_forall; intros c Hc%list_elem_of_In; by apply Ha, Hw.
Qed.

Lemma jwt_recognised x y z :
  segment x -> segment y -> segment z -> looks_like_jwt (x ++ chr "." :: y ++ chr "." :: z) = true.
Proof.
  intros (Lx & Bx & Px)%segment_plain (Ly & By & Py)%segment_plain (Lz & Bz & Pz)%segment_plain.
  unfold looks_like_jwt. rewrite !split_char_word, split_char_last by done. simpl.
  rewrite Bx, By, Bz. apply Nat.ltb_ge in Lx, Ly, Lz. by rewrite Lx, Ly, Lz.
Qed.

Lemma trailing_dots (s dots : str) :
  Forall (eq (chr ".")) dots -> s <> [] -> last s <> Some (chr ".") ->
  reverse (drop_while (fun c => c =? chr ".") (reverse (s ++ dots))) = s.
Proof.
  intros Hd Hne Hl. rewrite reverse_app.
  assert (Forall (eq (chr ".")) (reverse dots)) as Hr by (rewrite Forall_forall in *; intros c; rewrite elem_of_reverse; auto).
  induction Hr as [|c ds <- _ IH]; simpl; [|done].
  destruct (reverse s) as [|c r] eqn:E; [by apply (f_equal reverse) in E; rewrite reverse_involutive in E|].
  assert (s = reverse r ++ [c]) as Es by (by rewrite <- reverse_cons, <- E, reverse_involutive).
  rewrite (drop_while_id _ _ c r); [by rewrite reverse_cons|done|].
  apply Z.eqb_neq. intros ->. apply Hl. by rewrite Es, last_snoc.
Qed.

Lemma credential_recognised secret dots :
  credential secret dots ->
  exists len, credential_token_len (secret ++ dots) = Some len /\ (length secret <= len)%nat /\ secret <> [].
Proof.
  intros [p head body Hp Hh Hb|x y z ds Hx Hy Hz Hd].
  - exists (length (head ++ body)). rewrite app_nil_r. split; [|split; [done|by destruct head, body; simpl in *; [lia|..]]].
    unfold credential_token_len. rewrite (proj2 (existsb_exists _ _)); [done|].
    destruct (published_listed p Hp) as (H1 & H2 & e & He & Ee).
    exists e. split; [done|]. rewrite Ee. by apply prefixed_recognised.
  - unfold credential_token_len. case_match; [eexists; split; [done|]; rewrite (length_app _ ds); split; [lia|by destruct x]|].
    rewrite trailing_dots; [|done|by destruct x|].
    + rewrite jwt_recognised by done. eexists. split; [done|]. split; [done|by destruct x].
    + rewrite app_comm_cons, app_assoc, last_app_cons, last_cons.
      destruct (last z) as [c|] eqn:El; [|destruct Hz as [Hl _]; apply last_None in El; subst; simpl in Hl; lia].
      apply last_Some_elem_of in El. destruct (segment_plain z Hz) as (_ & _ & Hp).
      rewrite forallb_forall in Hp. apply list_elem_of_In, Hp in El. intros [= ->]. done.
Qed.

(** *** The spans cover them *)

Lemma slice_range_at (a w s : str) : slice_range (a ++ w ++ s) (length a) (length a + length w) = Some w.
Proof.
  rewrite slice_range_ok by (rewrite !length_app; lia). f_equal.
  rewrite drop_app_length. replace (length a + length w - length a)%nat with (length w) by lia. apply take_app_length.
Qed.

Lemma find_char_end test (w b : str) :
  Forall (fun c => test c = false) w -> match b with [] => True | c :: _ => test c = true end ->
  match find_char test (w ++ b) with Some o => o | None => length (w ++ b) end = length w.
Proof.
  intros Hw Hb. induction Hw as [|c w Hc _ IH]; simpl; [destruct b as [|c b]; simpl; [done|by rewrite Hb]|].
  rewrite Hc. destruct (find_char test (w ++ b)); simpl; congruence.
Qed.

Lemma word_covered a secret dots b spans :
  opens a -> closes b -> Forall (fun c => ~ delimiter c) (secret ++ dots) -> credential secret dots ->
  credential_shape_spans (a ++ secret ++ dots ++ b) = Some spans ->
  exists len, (length secret <= len)%nat /\ (length a, length a + len)%nat ∈ spans.
Proof.
  intros Ha Hb Hw (len & Hc & Hlen & Hne)%credential_recognised H. exists len. split; [done|].
  unfold credential_shape_spans, token_spans in H. destruct (tokens_from_opens a (secret ++ dots ++ b) Ha) as [pre E].
  rewrite E in H. apply shape_spans_app in H as (more & Hm & Hin). apply Hin. clear Hin E.
  rewrite (app_assoc secret) in Hm. destruct (secret ++ dots) as [|c w] eqn:Ew; [by destruct secret|].
  rewrite tokens_from_word in Hm; [|by eapply Forall_impl; [done|]; intros ? ?%not_separator|done].
  cbn [shape_spans fst snd] in Hm. rewrite slice_range_at in Hm. cbn [mbind option_bind] in Hm. rewrite Hc in Hm.
  apply bind_Some in Hm as (found & [= <-] & (rest & _ & [= <-])%bind_Some). by left.
Qed.

Lemma lowered x k : to_ascii_lowercase x = k -> x = k \/ x = k - 32.
Proof. unfold to_ascii_lowercase. case_match; lia. Qed.

(** The scheme word is a word, and no credential itself. *)
Lemma scheme_plain scheme :
  map to_ascii_lowercase scheme = lit "bearer" ->
  Forall (fun c => is_separator c = false) scheme /\ credential_token_len scheme = None
  /\ eq_ignore_ascii_case scheme BEARER_SCHEME = true.
Proof.
  intros H. assert (forallb (fun c => negb (is_separator c)) scheme && bool_decide (credential_token_len scheme = None)
    && eq_ignore_ascii_case scheme BEARER_SCHEME = true) as Hb.
  { change (lit "bearer") with [98; 101; 97; 114; 101; 114] in H.
    destruct scheme as [|c0 [|c1 [|c2 [|c3 [|c4 [|c5 [|]]]]]]]; try done.
    injection H as H0%lowered H1%lowered H2%lowered H3%lowered H4%lowered H5%lowered.
    destruct H0 as [ -> | -> ], H1 as [ -> | -> ], H2 as [ -> | -> ], H3 as [ -> | -> ], H4 as [ -> | -> ], H5 as [ -> | -> ];
      vm_compute; reflexivity. }
  apply andb_prop in Hb as [[Hs Hc%bool_decide_eq_true]%andb_prop He]. split; [|done].
  rewrite forallb_forall in Hs. apply Forall_forall. intros c Hc'%list_elem_of_In%Hs. by apply negb_true_iff.
Qed.

(** The word behind a scheme is claimed to its end. *)
Lemma claim_word (a : str) c secret b minimum :
  ~ delimiter c -> Forall (fun c => ~ ends_value c) secret -> match b with [] => True | e :: _ => ends_value e end ->
  (minimum <= str_len (c :: secret))%nat ->
  claim (a ++ (c :: secret) ++ b) (length a) ExtentWord minimum = Some [(length a, (length a + length (c :: secret))%nat)].
Proof.
  intros Hc Hs Hb Hm. unfold claim, value_end. rewrite slice_from_ok by (rewrite length_app; lia). cbn [mbind option_bind].
  rewrite drop_app_length. set (test := fun c => is_whitespace c || one_of VALUE_TERMINATORS c).
  pose proof (find_char_end test (c :: secret) b) as Hf.
  assert (forall o, match o with Some k => length a + k | None => length (a ++ (c :: secret) ++ b) end
    = length a + match o with Some k => k | None => length ((c :: secret) ++ b) end)%nat as Ho
    by (intros [o|]; [done|by rewrite length_app]).
  rewrite Ho, Hf.
  - rewrite slice_range_at. cbn [mbind option_bind]. by rewrite (proj2 (Nat.leb_le _ _)).
  - constructor; [|eapply Forall_impl; [done|]]; intros; apply not_true_iff_false; unfold test; rewrite ends_value_spec; [|done].
    intros Hv. apply Hc. unfold delimiter, ends_value in *. destruct Hv as [Hv|Hv]; [by left|right]. set_solver.
  - destruct b; [done|by apply ends_value_spec].
Qed.

Lemma bearer_covered a scheme gap c secret b spans :
  opens a -> map to_ascii_lowercase scheme = lit "bearer" -> gap <> [] -> Forall (fun c => c = 32 \/ c = 9) gap ->
  ~ delimiter c -> Forall (fun c => ~ ends_value c) secret -> match b with [] => True | e :: _ => ends_value e end ->
  (8 <= str_len (c :: secret))%nat ->
  credential_shape_spans ((a ++ scheme ++ gap) ++ (c :: secret) ++ b) = Some spans ->
  (length (a ++ scheme ++ gap), length (a ++ scheme ++ gap) + length (c :: secret))%nat ∈ spans.
Proof.
  intros Ha Hs Hg Hgap Hc Hsec Hb Hlen H. destruct (scheme_plain scheme Hs) as (Hsep & Hcred & Heq).
  assert (Forall (fun c => is_separator c = true) gap /\ is_inline_whitespace gap = true) as [Hgs Hgw].
  { split; [by eapply Forall_impl; [done|]; intros ? [ -> | -> ]|]. destruct gap as [|g gap]; [done|].
    apply forallb_forall. intros x Hx%list_elem_of_In. rewrite Forall_forall in Hgap. by destruct (Hgap x Hx) as [ -> | -> ]. }
  assert (length (a ++ scheme ++ gap) = length a + length scheme + length gap)%nat as Ela by (rewrite !length_app; lia).
  unfold credential_shape_spans, token_spans in H. rewrite <- !(assoc_L (++)) in H.
  destruct (tokens_from_opens a (scheme ++ gap ++ (c :: secret) ++ b) Ha) as [pre E].
  rewrite E in H. apply shape_spans_app in H as (more & Hm & Hin). apply Hin. clear Hin E.
  set (text := a ++ scheme ++ gap ++ (c :: secret) ++ b) in *. set (N := length (a ++ scheme ++ gap)) in *.
  assert (exists e rest, tokens_from (length a) None (scheme ++ gap ++ (c :: secret) ++ b)
    = (length a, (length a + length scheme)%nat) :: (N, e) :: rest) as (e & rest & Et).
  { destruct scheme as [|s0 scheme]; [done|].
    rewrite tokens_from_word; [|done|by destruct gap; [|simpl; apply is_separator_spec; inversion Hgs]].
    rewrite tokens_from_gap by done. rewrite <- Ela. cbn [app].
    destruct (tokens_from_start c N (secret ++ b)) as (e & rest & ->); [by apply not_separator|]. by eauto. }
  rewrite Et in Hm. clear Et pre. cbn [shape_spans fst snd] in Hm.
  assert (slice_range text (length a) (length a + length scheme) = Some scheme) as Es by apply slice_range_at.
  assert (slice_range text (length a + length scheme) N = Some gap) as Eg.
  { rewrite Ela. unfold text. rewrite app_assoc, <- length_app. apply slice_range_at. }
  rewrite Es in Hm. cbn [mbind option_bind] in Hm. rewrite Hcred, Eg in Hm. cbn [mbind option_bind] in Hm.
  unfold claimed_spans in Hm. rewrite Heq, Hgw in Hm. cbn [andb fst] in Hm.
  assert (claim text N ExtentWord MIN_SCHEME_CREDENTIAL_LEN = Some [(N, (N + length (c :: secret))%nat)]) as Ecl.
  { unfold text, N. rewrite 2!app_assoc, <- (app_assoc a). by apply claim_word. }
  rewrite Ecl in Hm. apply bind_Some in Hm as (found & [= <-] & (after & _ & [= <-])%bind_Some). by left.
Qed.

(** C31. Redaction is total and hides every credential. Wherever the text shows a
    word of one of the credential shapes (a published prefix in any case with at
    least nine bytes behind it, or three dotted web-token segments of ten or more
    characters), between the delimiters or the ends of the text, or shows a value of
    eight or more bytes after the word Bearer and blanks, [redact_text] does not
    panic on a slice and returns the text with each maximal run of covered
    characters replaced by one placeholder, where every character of that credential
    is covered. The shapes are stated here on their own, not by the code's scanner. *)
Theorem credential_tokens_hidden registry a secret b :
  Forall (fun v => v <> []) registry -> exposes a secret b ->
  let text := a ++ secret ++ b in
  exists spans, redact_text registry text = Some (mask (covered spans) 0 false text)
  /\ Forall (span_ok (length text)) spans
  /\ forall j, (length a <= j < length a + length secret)%nat -> covered spans j = true.
Proof.
  intros Hr He text. destruct (redact_text_run registry text Hr) as (shapes & E & H).
  destruct (credential_shape_spans_ok text) as (shapes' & E' & Hok). rewrite E in E'. injection E' as <-.
  eexists. split; [exact H|]. split; [apply Forall_app; auto using registered_spans_ok|]. intros j Hj.
  destruct He as [a secret dots b Ha Hb Hw Hc|a scheme gap c secret b Ha Hs Hg Hgap Hc Hsec Hb Hl].
  - destruct (word_covered a secret dots b shapes) as (len & Hlen & Hin); [done..|].
    apply (covered_elem _ (length a, (length a + len)%nat)); [apply elem_of_app; by right|simpl; lia].
  - pose proof (bearer_covered a scheme gap c secret b shapes Ha Hs Hg Hgap Hc Hsec Hb Hl E) as Hin.
    eapply covered_elem; [apply elem_of_app; right; exact Hin|exact Hj].
Qed.

(** A token at the very end, a web token before a full stop, and a header. *)
Definition demo_jwt : str := lit "eyJhbGciOiJ.eyJzdWIiOiI.c2lnbmF0dXJl".

Lemma demo_shapes_redacted :
  map (redact_text []) [lit "key sK-0123456789"; lit "saw " ++ demo_jwt ++ lit "."; lit "bearer  ab/cd=ef:gh, next"]
  = map Some [lit "key [redacted]"; lit "saw [redacted]."; lit "bearer  [redacted], next"].
Proof. vm_compute. reflexivity. Qed.

Lemma credential_tokens_hidden_witness :
  exists spans, redact_text demo_secrets (lit "x=" ++ lit "ghp_0123456789" ++ lit ";")
    = Some (mask (covered spans) 0 false (lit "x=" ++ lit "ghp_0123456789" ++ lit ";"))
  /\ covered spans 2 = true /\ covered spans 15 = true.
Proof.
  destruct (credential_tokens_hidden demo_secrets (lit "x=") (lit "ghp_0123456789") (lit ";")) as (spans & H & _ & Hc).
  - repeat constructor; discriminate.
  - apply (exposes_word _ _ [] (lit ";")).
    + right. exists (lit "x"), (chr "="). split; [reflexivity|]. apply is_separator_spec. vm_compute. reflexivity.
    + apply is_separator_spec. vm_compute. reflexivity.
    + repeat constructor; apply not_separator; vm_compute; reflexivity.
    + apply (credential_prefixed "ghp_" (lit "ghp_") (lit "0123456789")); [do 4 right; left|reflexivity|].
      vm_compute. lia.
  - exists spans. split; [exact H|]. split; apply Hc; vm_compute; lia.
Defined.

(** ** Explicit values *)

Lemma replace_starts w v s :
  chr "[" ∉ v -> v <> [] -> starts_with v (replace_from w REDACTION_PLACEHOLDER 0 s) = true ->
  starts_with v s = true /\ starts_with w s = false.
Proof.
  revert s. induction v as [|x v IH]; intros s Hb Hne H; [done|].
  apply not_elem_of_cons in Hb as [Hx Hb]. destruct s as [|c s]; [done|].
  cbn [replace_from] in H. destruct (starts_with w (c :: s)) eqn:Ew.
  { apply andb_prop in H as [H%Z.eqb_eq _]. by destruct Hx. }
  simpl in H. apply andb_prop in H as [Hc H]. split; [|done]. simpl. rewrite Hc. simpl.
  destruct v as [|y v]; [done|]. by apply IH.
Qed.

Lemma replace_occurs w v skip s k :
  telling v -> starts_with v (drop k (replace_from w REDACTION_PLACEHOLDER skip s)) = true ->
  exists m, starts_with v (drop m s) = true /\ starts_with w (drop m s) = false.
Proof.
  intros Hv. revert skip k. induction s as [|c s IH]; intros skip k H.
  { simpl in H. rewrite drop_nil in H. destruct v; [by destruct (tl_nonempty _ Hv)|done]. }
  assert (forall skip k, starts_with v (drop k (replace_from w REDACTION_PLACEHOLDER skip s)) = true ->
    exists m, starts_with v (drop m (c :: s)) = true /\ starts_with w (drop m (c :: s)) = false) as Hrec.
  { intros skip' k' (m & Hm)%IH. by exists (S m). }
  cbn [replace_from] in H. destruct skip as [|skip]; [|by eapply Hrec].
  destruct (starts_with w (c :: s)) eqn:Ew.
  - destruct (decide (k < length REDACTION_PLACEHOLDER)%nat) as [Hk|Hk];
      [by destruct (telling_not_in_placeholder v k _ Hv Hk H)|].
    rewrite drop_app_ge in H by lia. by eapply Hrec.
  - destruct k as [|k]; [|by eapply Hrec]. exists 0%nat.
    apply (replace_starts w v (c :: s) (tl_open _ Hv) (tl_nonempty _ Hv)). simpl. by rewrite Ew.
Qed.

(** The leading fragment: the text as it was, or a placeholder and its end. *)
Lemma leading_fragment_cases text suffix :
  let out := redact_leading_secret_fragment text suffix in
  (out = text /\ forall p s, suffix = p ++ s -> (MIN_REDACTED_SECRET_FRAGMENT_LEN <= str_len s)%nat -> starts_with s text = false)
  \/ exists n, out = REDACTION_PLACEHOLDER ++ drop n text.
Proof.
  induction suffix as [|c suffix IH]; cbn [redact_leading_secret_fragment].
  { left. split; [reflexivity|]. intros [] []; try done. simpl. intros _ H. vm_compute in H. lia. }
  destruct (Nat.ltb_spec (str_len (c :: suffix)) MIN_REDACTED_SECRET_FRAGMENT_LEN) as [Hlt|Hge].
  { left. split; [done|]. intros p s E Hs. rewrite E, str_len_app in Hlt. lia. }
  destruct ((str_len (c :: suffix) <=? str_len text)%nat && starts_with (c :: suffix) text) eqn:Em; [right; by eexists|].
  destruct IH as [[-> Hno]|[n ->]]; [left|right; by eexists]. split; [done|].
  intros [|x p] s E Hs; [|injection E as _ ->; by eapply Hno]. simpl in E. subst s.
  destruct (starts_with (c :: suffix) text) eqn:Es; [|done]. rewrite andb_true_r in Em.
  apply Nat.leb_gt in Em. apply starts_with_spec in Es as [t Et]. rewrite Et, str_len_app in Em. lia.
Qed.

Lemma redact_value_occurs front w text v :
  telling v -> occurs v (redact_value front text w) ->
  occurs v text /\ (v = w -> (str_len w < MIN_REDACTED_SECRET_LEN)%nat).
Proof.
  intros Hv. unfold redact_value. destruct (Nat.ltb_spec (str_len w) MIN_REDACTED_SECRET_LEN) as [Hw|Hw]; [done|].
  assert (occurs v (replace text w REDACTION_PLACEHOLDER) ->
    occurs v text /\ (v = w -> (str_len w < MIN_REDACTED_SECRET_LEN)%nat)) as Hrep.
  { rewrite !occurs_starts. intros (k & (m & H1 & H2)%replace_occurs); [|done].
    split; [by exists m|]. intros ->. congruence. }
  destruct front; [|exact Hrep].
  destruct (leading_fragment_cases (replace text w REDACTION_PLACEHOLDER) w) as [[-> _]|[n ->]]; [exact Hrep|].
  rewrite occurs_starts. intros (k & H). apply Hrep, occurs_starts.
  destruct (decide (k < length REDACTION_PLACEHOLDER)%nat) as [Hk|Hk];
    [by destruct (telling_not_in_placeholder v k _ Hv Hk H)|].
  rewrite drop_app_ge, drop_drop in H by lia. by eexists.
Qed.

(** A text starts with a fragment after a step only if it did before. *)
Lemma redact_value_starts front w text s :
  telling s -> starts_with s (redact_value front text w) = true -> starts_with s text = true.
Proof.
  intros Hs. unfold redact_value. destruct (str_len w <? MIN_REDACTED_SECRET_LEN)%nat; [done|].
  assert (starts_with s (replace text w REDACTION_PLACEHOLDER) = true -> starts_with s text = true) as Hrep.
  { intros H. eapply replace_starts in H as [? _]; [done|apply Hs|apply Hs]. }
  destruct front; [|exact Hrep].
  destruct (leading_fragment_cases (replace text w REDACTION_PLACEHOLDER) w) as [[-> _]|[n ->]]; [exact Hrep|].
  intros H. destruct (telling_not_in_placeholder s 0 (drop n (replace text w REDACTION_PLACEHOLDER)) Hs); [vm_compute; lia|done].
Qed.

Lemma redact_fold_occurs front ws text v :
  telling v -> occurs v (foldl (redact_value front) text ws) ->
  occurs v text /\ (v ∈ ws -> (str_len v < MIN_REDACTED_SECRET_LEN)%nat).
Proof.
  intros Hv. revert text. induction ws as [|w ws IH]; intros text; simpl; [by intros H; split; [|intros ?%not_elem_of_nil]|].
  intros [H1 H2]%IH. apply redact_value_occurs in H1 as [H1 H3]; [|done]. split; [done|].
  intros [->|H]%elem_of_cons; auto.
Qed.

Lemma redact_fold_starts front ws text s :
  telling s -> starts_with s (foldl (redact_value front) text ws) = true -> starts_with s text = true.
Proof.
  intros Hs. revert text. induction ws as [|w ws IH]; intros text; simpl; [done|].
  intros H%IH. by eapply redact_value_starts.
Qed.

(** Listed values are scrubbed: after [redact_values] no listed value of at
    least six bytes occurs in the text, and when the text was cut at the front it
    does not begin with the tail of one of at least eight bytes either, for values
    and tails that are not part of the placeholder. *)
Theorem listed_values_scrubbed text values front v :
  v ∈ values -> (MIN_REDACTED_SECRET_LEN <= str_len v)%nat ->
  let out := redact_values text values front in
  (telling v -> ~ occurs v out)
  /\ (front = true -> forall p s, v = p ++ s -> (MIN_REDACTED_SECRET_FRAGMENT_LEN <= str_len s)%nat -> telling s ->
      starts_with s out = false).
Proof.
  intros Hv Hlen out. unfold out, redact_values. rewrite <- (merge_sort_Permutation longer_first) in Hv. split.
  - intros Ht [_ H]%redact_fold_occurs; [|done]. specialize (H Hv). lia.
  - intros -> p s -> Hs Ht. destruct (starts_with s _) eqn:E; [|done]. exfalso.
    apply list_elem_of_split in Hv as (w1 & w2 & Ew). rewrite Ew, foldl_app in E. simpl in E.
    apply redact_fold_starts in E; [|done]. set (t := foldl _ _ _) in E. clearbody t. unfold redact_value in E.
    rewrite (proj2 (Nat.ltb_ge _ _)) in E by done.
    destruct (leading_fragment_cases (replace t (p ++ s) REDACTION_PLACEHOLDER) (p ++ s)) as [[Eo Hno]|[n Eo]];
      rewrite Eo in E; [by rewrite (Hno p s) in E|].
    apply (telling_not_in_placeholder s 0 (drop n (replace t (p ++ s) REDACTION_PLACEHOLDER)) Ht); [vm_compute; lia|done].
Qed.

Lemma listed_values_scrubbed_witness :
  redact_values (lit "etkey-ABC and sk-secretkey-ABC") [lit "sk-secretkey-ABC"] true = lit "[redacted] and [redacted]"
  /\ ~ occurs (lit "sk-secretkey-ABC") (redact_values (lit "etkey-ABC and sk-secretkey-ABC") [lit "sk-secretkey-ABC"] true).
Proof.
  split; [vm_compute; reflexivity|].
  apply (listed_values_scrubbed (lit "etkey-ABC and sk-secretkey-ABC") [lit "sk-secretkey-ABC"] true).
  - left.
  - apply Nat.leb_le. vm_compute. reflexivity.
  - apply telling_check. vm_compute. reflexivity.
Defined.

(** ** Parser messages *)

Lemma skip_debug_length b s : (length (skip_debug b s) <= length s)%nat.
Proof.
  revert b. induction s as [|c s IH]; intros b; simpl; [lia|].
  repeat case_match; simpl; try lia; etrans; try apply IH; lia.
Qed.

Lemma next_literal_lt rest i b : next_literal rest = Some (i, b) -> (i < length rest)%nat.
Proof.
  unfold next_literal. destruct (find_char _ rest) as [q|] eqn:Eq, (find_str _ rest) as [v|] eqn:Ev;
    try (apply find_char_lt in Eq); try (apply find_str_le in Ev; simpl in Ev);
    repeat case_match; intros; simplify_eq; lia.
Qed.

(** Each pass shortens the rest, so the length is fuel enough and more changes
    nothing. *)
Lemma strip_loop_fuel f1 f2 rest :
  (length rest < f1)%nat -> (length rest < f2)%nat ->
  strip_loop f1 rest = strip_loop f2 rest /\ is_Some (strip_loop f1 rest).
Proof.
  revert f2 rest. induction f1 as [|f1 IH]; intros [|f2] rest H1 H2; try lia. simpl.
  destruct (next_literal rest) as [[i []]|] eqn:E; [..|by eauto]; apply next_literal_lt in E.
  - destruct (IH f2 (skip_debug_string (drop (S i) rest))) as [-> [s ->]];
      [unfold skip_debug_string; pose proof (skip_debug_length false (drop (S i) rest)) as Hl;
       rewrite length_drop in Hl; lia..|]. simpl. by eauto.
  - set (after := drop _ rest). assert (length after < length rest)%nat as Ha.
    { unfold after. rewrite length_drop. simpl. lia. }
    destruct (IH f2 (match find_char (Z.eqb backtick) after with Some close => drop (S close) after | None => [] end))
      as [-> [s ->]]; [case_match; simpl; rewrite ?length_drop; lia..|]. simpl. by eauto.
Qed.

(** The inside of a Debug-escaped string: no quote closes it and no escape is open
    at its end. *)
Fixpoint well_escaped (escaped : bool) (s : str) : bool :=
  match s with
  | [] => negb escaped
  | c :: s' =>
      if escaped then well_escaped false s'
      else if c =? backslash then well_escaped true s'
      else if c =? dquote then false
      else well_escaped false s'
  end.

Lemma skip_debug_escaped b e r : well_escaped b e = true -> skip_debug b (e ++ dquote :: r) = r.
Proof.
  revert b. induction e as [|c e IH]; intros b; simpl; [by destruct b|].
  repeat case_match; try done; apply IH.
Qed.

Lemma find_char_app test a c r :
  forallb (fun x => negb (test x)) a = true -> test c = true -> find_char test (a ++ c :: r) = Some (length a).
Proof.
  intros Ha Hc. induction a as [|x a IH]; simpl in *; [by rewrite Hc|].
  apply andb_prop in Ha as [Hx%negb_true_iff Ha]. by rewrite Hx, IH.
Qed.

(** A text that does not contain [c] is not found across [c]. *)
Lemma find_str_past needle a c r i :
  c ∉ needle -> find_str needle a = None -> find_str needle (a ++ c :: r) = Some i -> (length a < i \/ needle = [])%nat.
Proof.
  intros Hc. destruct needle as [|n needle]; [by right|]. revert i. induction a as [|x a IH]; intros i Ha H; left.
  - simpl in H. apply not_elem_of_cons in Hc as [Hc _]. rewrite (proj2 (Z.eqb_neq n c)) in H by done. simpl in H.
    destruct (find_str _ r); simplify_eq/=. lia.
  - cbn [find_str app] in *. destruct (starts_with (n :: needle) (x :: a)) eqn:E1; [done|].
    destruct (find_str (n :: needle) a) eqn:E2; [done|].
    destruct (starts_with (n :: needle) (x :: a ++ c :: r)) eqn:E3.
    + exfalso. apply starts_with_spec in E3 as [t Et].
      destruct (decide (length (n :: needle) <= length (x :: a))%nat) as [Hl|Hl].
      * pose proof (f_equal (take (length (n :: needle))) Et) as Et'.
        change (x :: a ++ c :: r) with ((x :: a) ++ c :: r) in Et'.
        rewrite take_app_le, take_app_length in Et' by done.
        assert (starts_with (n :: needle) (x :: a) = true); [|congruence].
        apply starts_with_spec. exists (drop (length (n :: needle)) (x :: a)). by rewrite <- Et' at 1; rewrite take_drop.
      * apply Hc. apply (list_elem_of_lookup_2 _ (length (x :: a))).
        rewrite <- (lookup_app_l (n :: needle) t) by lia. rewrite <- Et.
        change (x :: a ++ c :: r) with ((x :: a) ++ c :: r). rewrite lookup_app_r by lia. by rewrite Nat.sub_diag.
    + destruct (find_str (n :: needle) (a ++ c :: r)) as [k|] eqn:E4; [|done]. injection H as <-.
      destruct (IH k eq_refl eq_refl) as [?|?]; [simpl; lia|done].
Qed.

(** Text before a literal holds neither a quote nor the marker. *)
Definition literal_free (a : str) : Prop :=
  forallb (fun x => negb (Z.eqb dquote x)) a = true /\ find_str UNKNOWN_VARIANT_MARKER a = None.

Lemma next_literal_quote a r : literal_free a -> next_literal (a ++ dquote :: r) = Some (length a, true).
Proof.
  intros [Hq Hm]. unfold next_literal. rewrite (find_char_app _ a dquote r Hq (Z.eqb_refl _)).
  destruct (find_str UNKNOWN_VARIANT_MARKER (a ++ dquote :: r)) as [v|] eqn:Ev; [|done].
  apply find_str_past in Ev as [Hlt|E]; [|discriminate E| |done].
  - by rewrite (proj2 (Nat.leb_gt _ _)).
  - apply (bool_decide_unpack _). vm_compute. exact I.
Qed.

(** Parser messages do not echo the values they quote. The stripped message
    is the same whatever the first quoted value was: the text before it, a
    placeholder, and the stripped rest; [strip_serde_value_literals] returns for
    every message. *)
Theorem serde_literals_stripped before value after :
  literal_free before -> well_escaped false value = true ->
  exists rest, strip_serde_value_literals after = Some rest
  /\ strip_serde_value_literals (before ++ [dquote] ++ value ++ [dquote] ++ after)
     = Some (before ++ REDACTION_PLACEHOLDER ++ rest).
Proof.
  intros Hb Hv. unfold strip_serde_value_literals.
  destruct (strip_loop_fuel (S (length after)) (S (length after)) after) as [_ [rest Hr]]; [lia..|].
  exists rest. split; [done|]. set (m := before ++ _). cbn [strip_loop].
  assert (next_literal m = Some (length before, true)) as -> by (by apply next_literal_quote).
  assert (skip_debug_string (drop (S (length before)) m) = after) as ->.
  { unfold m. rewrite drop_app_ge by lia. replace (S (length before) - length before)%nat with 1%nat by lia.
    simpl. by apply skip_debug_escaped. }
  assert (length after < length m)%nat as Hl.
  { unfold m. rewrite !length_app. simpl. lia. }
  destruct (strip_loop_fuel (length m) (S (length after)) after) as [-> _]; [done|lia|].
  rewrite Hr. simpl. unfold m. by rewrite take_app_length.
Qed.

Lemma serde_literals_stripped_witness :
  exists rest, strip_serde_value_literals (lit ", expected u32") = Some rest
  /\ strip_serde_value_literals (lit "invalid type: string " ++ [dquote] ++ lit "hunter2" ++ [dquote] ++ lit ", expected u32")
     = Some (lit "invalid type: string " ++ REDACTION_PLACEHOLDER ++ rest).
Proof.
  apply serde_literals_stripped; [split|]; vm_compute; reflexivity.
Defined.

(** ** The registry and the wrappers *)

Lemma push_fresh_elem fresh registry v : v ∈ push_fresh fresh registry <-> v ∈ fresh \/ v ∈ registry.
Proof.
  revert registry. induction fresh as [|x fresh IH]; intros registry; simpl.
  - rewrite elem_of_nil. tauto.
  - rewrite IH, elem_of_cons. case_bool_decide; rewrite ?elem_of_app, ?list_elem_of_singleton; naive_solver.
Qed.

Lemma push_fresh_nodup fresh registry : NoDup registry -> NoDup (push_fresh fresh registry).
Proof.
  revert registry. induction fresh as [|x fresh IH]; intros registry H; simpl; [done|]. apply IH.
  case_bool_decide; [done|]. apply NoDup_app. split; [done|]. split; [|apply NoDup_singleton].
  intros y Hy ->%list_elem_of_singleton. done.
Qed.

(** The registry holds exactly the values registered so far that are long enough,
    each once, whatever other threads registered between the two locks. *)
Lemma register_elem values seen registry v :
  seen ⊆ registry ->
  v ∈ register_secret_values values seen registry
  <-> v ∈ registry \/ (v ∈ values /\ (MIN_REDACTED_SECRET_LEN <= str_len v)%nat).
Proof.
  intros Hs. unfold register_secret_values. set (cands := filter _ values).
  assert (forall x, x ∈ cands <-> (MIN_REDACTED_SECRET_LEN <= str_len x)%nat /\ x ∈ values) as Hc
    by (intros x; unfold cands; by rewrite list_elem_of_filter).
  set (fresh := remove_dups _).
  assert (forall x, x ∈ fresh <-> x ∉ seen /\ x ∈ cands) as Hf.
  { intros x. unfold fresh. by rewrite elem_of_remove_dups, merge_sort_Permutation, list_elem_of_filter. }
  assert (v ∈ fresh \/ v ∈ registry <-> v ∈ registry \/ (v ∈ values /\ (MIN_REDACTED_SECRET_LEN <= str_len v)%nat)) as Hgoal.
  { rewrite Hf, Hc. destruct (decide (v ∈ seen)) as [Hin|]; [|tauto]. apply Hs in Hin. tauto. }
  destruct cands as [|c0 cs] eqn:Ec; [rewrite <- Hgoal, Hf, elem_of_nil; tauto|].
  destruct fresh as [|f0 fs] eqn:Ef; [rewrite <- Hgoal, elem_of_nil; tauto|].
  by rewrite merge_sort_Permutation, push_fresh_elem.
Qed.

Lemma register_nodup values seen registry :
  NoDup registry -> NoDup (register_secret_values values seen registry).
Proof.
  intros H. unfold register_secret_values. repeat case_match; try done.
  rewrite merge_sort_Permutation. by apply push_fresh_nodup.
Qed.

(** Values of the registry are never empty, as the redactor needs. *)
Lemma register_nonempty values seen registry :
  seen ⊆ registry -> Forall (fun v => v <> []) registry ->
  Forall (fun v => v <> []) (register_secret_values values seen registry).
Proof.
  intros Hs Hr. rewrite Forall_forall in Hr |- *. intros v.
  rewrite register_elem by done. intros [H|[_ H]]; [by apply Hr|]. intros ->. vm_compute in H. lia.
Qed.

(** A cut text is a prefix within the budget, followed by the marker. *)
Lemma bounded_cut text max :
  (max < str_len text)%nat ->
  exists head tail, text = head ++ tail /\ (str_len head <= max)%nat
  /\ bounded text max
     = Some (head ++ lit " [truncated " ++ decimal (Z.of_nat (str_len tail)) ++ lit " bytes]").
Proof.
  intros H. unfold bounded. rewrite (proj2 (Nat.leb_gt _ _)) by done.
  destruct (slice_fits text max) as (tail & E & Hl). exists (slice text max), tail.
  rewrite lower_cutoff_slice by lia. split; [done|]. split.
  - destruct Hl. lia.
  - pose proof (f_equal str_len E) as El. rewrite str_len_app in El.
    replace (str_len text - str_len (slice text max))%nat with (str_len tail) by lia.
    assert (slice_to text (str_len (slice text max)) = Some (slice text max)) as ->; [|done].
    rewrite E at 1. apply slice_to_app.
Qed.

Section values.
Context (P : Value -> Prop).
Hypothesis HNull : P VNull.
Hypothesis HBool : forall b, P (VBool b).
Hypothesis HNumber : forall n, P (VNumber n).
Hypothesis HString : forall s, P (VString s).
Hypothesis HArray : forall l, Forall P l -> P (VArray l).
Hypothesis HObject : forall l, Forall (fun f => P f.2) l -> P (VObject l).

Fixpoint value_nested_ind (v : Value) : P v :=
  match v with
  | VNull => HNull
  | VBool b => HBool b
  | VNumber n => HNumber n
  | VString s => HString s
  | VArray l => HArray l ((fix go l := match l return Forall P l with
                             | [] => Forall_nil_2 P
                             | x :: l' => Forall_cons_2 P x l' (value_nested_ind x) (go l') end) l)
  | VObject l => HObject l ((fix go l := match l return Forall (fun f => P f.2) l with
                               | [] => Forall_nil_2 _
                               | f :: l' => Forall_cons_2 _ f l' (value_nested_ind f.2) (go l') end) l)
  end.
End values.

(** The text leaves of a value, in order. *)
Fixpoint leaves (v : Value) : list str :=
  match v with
  | VString s => [s]
  | VArray items => items ≫= leaves
  | VObject fields => fields ≫= fun f => leaves f.2
  | _ => []
  end.

(** Redacting a document returns, and its text leaves are the redacted ones, in
    order. *)
Lemma redact_json_leaves registry v :
  Forall (fun v => v <> []) registry ->
  exists v', redact_json registry v = Some v' /\ mapM (redact_text registry) (leaves v) = Some (leaves v').
Proof.
  intros Hr. assert (forall l1 l2, mapM (redact_text registry) (l1 ++ l2)
    = a ← mapM (redact_text registry) l1; b ← mapM (redact_text registry) l2; Some (a ++ b)) as Happ.
  { induction l1 as [|x l1 IH]; intros l2; simpl; [by destruct (mapM _ l2)|].
    destruct (redact_text registry x); simpl; [|done]. rewrite IH. by destruct (mapM _ l1), (mapM _ l2). }
  induction v as [| | |s|l Hl|l Hl] using value_nested_ind; simpl; [by eauto..| | |].
  - destruct (redact_text_run registry s Hr) as (? & _ & ->). simpl. by eauto.
  - induction Hl as [|x l (x' & Hx & Ex) _ (v' & IH & El)]; [by eexists|].
    apply fmap_Some in IH as (l' & IH & ->). exists (VArray (x' :: l')). simpl in IH |- *. rewrite Hx. simpl.
    rewrite IH. split; [done|].
    change (mapM (redact_text registry) (leaves x ++ leaves (VArray l)) = Some (leaves x' ++ leaves (VArray l'))).
    rewrite Happ, Ex.
    by rewrite (El : mapM (redact_text registry) (leaves (VArray l)) = Some (leaves (VArray l'))).
  - induction Hl as [|[k x] l (x' & Hx & Ex) _ (v' & IH & El)]; [by eexists|].
    apply fmap_Some in IH as (l' & IH & ->). exists (VObject ((k, x') :: l')). simpl in IH, Hx |- *. rewrite Hx. simpl.
    rewrite IH. split; [done|].
    change (mapM (redact_text registry) (leaves x ++ leaves (VObject l)) = Some (leaves x' ++ leaves (VObject l'))).
    simpl in Ex. rewrite Happ, Ex.
    by rewrite (El : mapM (redact_text registry) (leaves (VObject l)) = Some (leaves (VObject l'))).
Qed.
