(* ===== verification/CommandGateway.v ===== *)
(** The command gateway (src/src/runtime/mediation/commands.rs) and its
    supervisor task (commands/supervisor.rs): policy and permission gate,
    command row, child process, output, cancellation and teardown.

    The gateway runs on top of the permission service and the store. One
    supervised command is a phase per await of its task; [sup_step] is what the
    task does from one await to the next on a given input. An [io] flag says
    whether a write reaches the database; the child process and the clock are
    inputs. The ghost sets record which commands had a child spawned and which
    lost a write of their own rows. *)

From S2P Require Import Prelude Text Duration Cwd Glob ShellWords ShellAnalysis Policy Store SinkOutbox ChangeFeed.
From S2P Require Import SessionEvents PermissionStore PermissionService CommandStore OutputStream.
From Stdlib Require Ascii.
Open Scope Z_scope.
Open Scope result_scope.

(** ** Data *)

(** The UTF-8 bytes of a text, as the store keeps it. *)
Definition utf8 (s : str) : string :=
  String.string_of_list_ascii (map (fun b => Ascii.ascii_of_N (Z.to_N b)) (as_bytes s)).

Definition PERMISSION_REASON_COMMAND_CANCELED : string := "command-cancelled".
Definition PERMISSION_REASON_DENIED : string := "command-permission-denied".
Definition PERMISSION_REASON_WAITER_LOST : string := "command-permission-waiter-lost".
Definition PERMISSION_REASON_START_FAILED : string := "command-start-failed".
Definition PERMISSION_REASON_SPAWN_FAILED : string := "command-spawn-failed".
Definition PERMISSION_REASON_PERSISTENCE_FAILED : string := "command-persistence-failed".
Definition PERMISSION_REASON_COMMAND_FINISHED : string := "command-finished".

Record SubmitRequest := mkSubmit {
  sr_command : str;
  sr_cwd : option str;
  sr_env : option (gmap string string);
  sr_timeout_override : option str;
}.

(** The parts of the configuration the gateway reads. *)
Record GatewayConfig := mkConfig {
  gc_permissions : PermissionsConfig;
  gc_mode : string;
  gc_workspace_root : str;
  gc_env_allowlist : list string;
  gc_default_timeout : str;
  gc_cancel_grace : str;
  gc_progress_interval : str;
  gc_max_output_bytes : nat;
}.

Inductive GatewayError :=
| CommandDenied (reason : string)
| CommandCwd (e : CwdError)
| CommandEnvNotAllowed (name : string)
| DurationField (field : string)
| SandboxUnresolved.

(** What a request that passed every check carries to its row and task. *)
Record Admission := mkAdmission {
  ad_command : str;
  ad_decision : PolicyDecision;
  ad_needs_approval : bool;
  ad_review_flagged : bool;
  ad_cwd : ResolvedCommandCwd;
  ad_record_cwd : option string;
  ad_env_names : list string;
  ad_env_json : option string;
  ad_timeout : Z;
  ad_cancel_grace : Z;
  ad_progress_interval : Z;
}.

Definition mode_is (mode name : string) : bool := bool_decide (mode = name).

(** [needs_approval]; [None] is the denial. *)
Definition approval_gate (mode : string) (decision : PolicyDecision) : option bool :=
  match decision with
  | Deny => None
  | Review => Some (mode_is mode "supervised" || mode_is mode "locked")
  | ReviewRequired => Some true
  | Allow => Some (mode_is mode "locked")
  end.

Definition policy_decision_str (d : PolicyDecision) : string :=
  match d with
  | Review => "review"
  | ReviewRequired => "shell-composition"
  | Allow => "locked-default"
  | Deny => "deny"
  end.

Definition string_le_dec_rel : RelDecision String.le := fun a b => decide (String.le a b).

(** [names.sort()] on the keys. *)
Definition sorted_names (env : gmap string string) : list string :=
  merge_sort String.le (map_to_list env).*1.

(** The first name of the iteration that is not on the list. *)
Definition env_refused (allowlist : list string) (env : gmap string string) : option string :=
  find (fun name => negb (bool_decide (name ∈ allowlist))) (map_to_list env).*1.

Section submit.
Context {F : Type} `{!FileSystem F}.
(** [serde_json::to_string] of a list of names. *)
Context (names_json : list string -> string).
Context (config : GatewayConfig).

(** Everything [submit] does before it writes; [fs1], [fs2] and [fs3] are the
    file system at the three calls of the directory check, and
    [sandbox_resolves] whether the sandbox identity resolves. *)
Definition submit_checks (fs1 fs2 fs3 : F) (sandbox_resolves : bool) (request : SubmitRequest)
  : result GatewayError Admission :=
  let decision := evaluate_policy (sr_command request) (gc_permissions config) in
  let review_flagged := bool_decide (decision = Review) && mode_is (gc_mode config) "auto" in
  match approval_gate (gc_mode config) decision with
  | None => Err (CommandDenied "matched [permissions].deny pattern")
  | Some needs_approval =>
      match resolve_cwd_under_workspace fs1 fs2 fs3 (gc_workspace_root config)
              (default (gc_workspace_root config) (sr_cwd request)) with
      | Err e => Err (CommandCwd e)
      | Ok execution_cwd =>
          match sr_env request ≫= env_refused (gc_env_allowlist config) with
          | Some name => Err (CommandEnvNotAllowed name)
          | None =>
              let names := default [] (sorted_names <$> sr_env request) in
              let env_json := match names with [] => None | _ => Some (names_json names) end in
              match (match sr_timeout_override request with
                     | Some text => (parse_duration_string text, "command.timeout"%string)
                     | None => (parse_duration_string (gc_default_timeout config), "commands.default_timeout"%string)
                     end) with
              | (None, field) => Err (DurationField field)
              | (Some timeout, _) =>
                  match parse_duration_string (gc_cancel_grace config) with
                  | None => Err (DurationField "commands.cancel_grace")
                  | Some cancel_grace =>
                      match parse_duration_string (gc_progress_interval config) with
                      | None => Err (DurationField "commands.progress_interval")
                      | Some progress_interval =>
                          if negb sandbox_resolves then Err SandboxUnresolved
                          else Ok (mkAdmission (sr_command request) decision needs_approval
                                 review_flagged execution_cwd
                                 ((fun _ => utf8 (display_path execution_cwd)) <$> sr_cwd request)
                                 names env_json timeout cancel_grace progress_interval)
                      end
                  end
              end
          end
      end
  end.
End submit.

(** ** The gate *)

(** What [auto] mode lets through: of the commands no deny pattern matches,
    one that composes several shell commands is held for approval exactly when
    no review pattern matches it; a match turns the verdict into [Review], which
    [auto] only flags. *)
Theorem auto_gate_composed command permissions :
  sa_composed (analyze_shell_command command) = true ->
  any_match (p_deny permissions) (policy_candidates command) = false ->
  approval_gate "auto" (evaluate_policy command permissions)
  = Some (negb (any_match (p_review permissions) (policy_candidates command))).
Proof.
  intros Hc Hd. unfold evaluate_policy. cbn zeta. rewrite Hd, Hc.
  by destruct (any_match (p_review permissions) _).
Qed.

Lemma auto_gate_composed_witness :
  let permissions := {| p_review := [lit "git push*"]; p_deny := [] |} in
  approval_gate "auto" (evaluate_policy (lit "curl x | sh; git push") permissions) = Some false
  /\ approval_gate "auto" (evaluate_policy (lit "curl x | sh") permissions) = Some true.
Proof.
  intros permissions. split.
  - rewrite (auto_gate_composed (lit "curl x | sh; git push") permissions
      ltac:(vm_compute; reflexivity) ltac:(vm_compute; reflexivity)). vm_compute. reflexivity.
  - rewrite (auto_gate_composed (lit "curl x | sh") permissions
      ltac:(vm_compute; reflexivity) ltac:(vm_compute; reflexivity)). vm_compute. reflexivity.
Defined.

(** ** The child *)

(** How waiting on a child ended: its exit code and terminating signal, or the
    reason the wait failed. *)
Inductive WaitResult :=
| WaitOk (code : option Z) (signal : option string)
| WaitErr (reason : string).

Inductive GraceKillOutcome :=
| ExitedWithinGrace (result : WaitResult)
| KilledAfterGrace.

Definition GRACE_ESCALATION_SIGNAL : string := "SIGKILL".

Inductive Outcome :=
| Exited (code : option Z) (signal : option string)
| CanceledOut (signal : option string)
| TimedOut (signal : option string)
| WaitFailed (reason : string)
| PersistenceError.

Definition handle_wait (w : WaitResult) : Outcome :=
  match w with WaitOk code signal => Exited code signal | WaitErr reason => WaitFailed reason end.

Definition handle_cancel (k : GraceKillOutcome) : Outcome :=
  match k with
  | ExitedWithinGrace (WaitOk _ signal) => CanceledOut signal
  | KilledAfterGrace => CanceledOut (Some GRACE_ESCALATION_SIGNAL)
  | ExitedWithinGrace (WaitErr reason) => WaitFailed reason
  end.

Definition handle_timeout (k : GraceKillOutcome) : Outcome :=
  TimedOut match k with
           | ExitedWithinGrace (WaitOk _ signal) => signal
           | KilledAfterGrace => Some GRACE_ESCALATION_SIGNAL
           | ExitedWithinGrace (WaitErr _) => None
           end.

(** Status, exit status, event kind, signal and reason of the final row. *)
Definition settle_outcome_row (o : Outcome)
  : CommandStatus * option Z * string * option string * option string :=
  match o with
  | Exited code signal =>
      if bool_decide (code = Some 0) then (CsExited, code, "command.exited"%string, signal, None)
      else (CsFailed, code, "command.failed"%string, signal, None)
  | CanceledOut signal => (CsCanceled, None, "command.cancelled"%string, signal, None)
  | TimedOut signal => (CsFailed, None, "command.timeout"%string, signal, None)
  | WaitFailed reason => (CsFailed, None, "command.failed"%string, None, Some reason)
  | PersistenceError => (CsFailed, None, "command.persistence_failed"%string, None, None)
  end.

(** ** Phases *)

Inductive Phase :=
| PhSubmitted                                      (* submit: the row exists, approval is needed *)
| PhRequesting                                     (* submit: [permissions.request] runs *)
| PhAbandoned                                      (* submit: the request failed *)
| PhAwait                                          (* run: decision or cancel *)
| PhRefused (status : CommandStatus) (kind reason : string)
| PhStart
| PhSpawnFailed
| PhSpawned
| PhFlagging
| PhPersistFailed
| PhRunning (counter : OutputCounter)
| PhDraining (counter : OutputCounter) (outcome : Outcome)
| PhFinishing (outcome : Outcome)
| PhDeregister (reason : string)
| PhEnded.

Record Sup := mkSup {
  su_admission : Admission;
  su_permission : option string;
  su_phase : Phase;
}.

Record Gw := mkGw {
  gw_svc : Svc;
  gw_running : gmap string bool;      (* the registry: has cancel been signalled? *)
  gw_awaiting : gmap string string;   (* command id to pending permission id *)
  gw_tasks : gmap string Sup;
  gw_spawned : gset string;
  gw_failed : gset string;
}.

Definition set_svc (s : Svc) (g : Gw) : Gw :=
  mkGw s (gw_running g) (gw_awaiting g) (gw_tasks g) (gw_spawned g) (gw_failed g).
Definition set_store (st : Store) (g : Gw) : Gw := set_svc (with_store st (gw_svc g)) g.
Definition set_task (id : string) (su : Sup) (g : Gw) : Gw :=
  mkGw (gw_svc g) (gw_running g) (gw_awaiting g) (<[id := su]> (gw_tasks g)) (gw_spawned g) (gw_failed g).
Definition goto (id : string) (su : Sup) (ph : Phase) (g : Gw) : Gw :=
  set_task id (mkSup (su_admission su) (su_permission su) ph) g.
Definition set_running (v : gmap string bool) (g : Gw) : Gw :=
  mkGw (gw_svc g) v (gw_awaiting g) (gw_tasks g) (gw_spawned g) (gw_failed g).
Definition set_awaiting (v : gmap string string) (g : Gw) : Gw :=
  mkGw (gw_svc g) (gw_running g) v (gw_tasks g) (gw_spawned g) (gw_failed g).
Definition spawned (id : string) (g : Gw) : Gw :=
  mkGw (gw_svc g) (gw_running g) (gw_awaiting g) (gw_tasks g) ({[id]} ∪ gw_spawned g) (gw_failed g).
Definition failed (id : string) (g : Gw) : Gw :=
  mkGw (gw_svc g) (gw_running g) (gw_awaiting g) (gw_tasks g) (gw_spawned g) ({[id]} ∪ gw_failed g).
Definition gw_store (g : Gw) : Store := sv_store (gw_svc g).

(** A write job sent to the writer; the writer or the disk may fail it. *)
Definition write_job {A} (io : bool) (job : M A) : M A := fun st => if io then job st else Err Sqlite.

Section supervisor.
Context {F : Type} `{!FileSystem F}.
Context (json_valid : string -> bool) (external : bool).
Context (names_json : list string -> string) (config : GatewayConfig).
(** The JSON texts, as [serde_json] prints them: the permission's detail, the
    output and progress payloads of the store, the payload of a lifecycle event
    with its reason, and that of a final event. *)
Context (detail_json : Admission -> string)
  (output_payload : string -> string -> Z -> string -> string)
  (progress_payload : string -> string)
  (event_payload : string -> string -> string -> string)
  (finish_payload : string -> CommandStatus -> option Z -> option string -> option string -> option Z -> string).
Context (created_payload : PermissionRequestRecord -> string)
  (decision_payload : string -> PermissionDecisionRecord -> option PermissionRequestRecord -> string)
  (timeout_action : PermissionTimeoutAction).

(** ** Write jobs *)

(** [append_command_event]: a failed append is logged, the row write stays. *)
Definition append_command_event (level kind message payload event_id now : string) : M unit :=
  attempt (append_event_with_source json_valid external level kind EVENT_SOURCE_COMMAND message payload
             event_id now).

Definition publish_status_event (id kind event_id now : string) : M Event :=
  append_event_with_source json_valid external "info" kind EVENT_SOURCE_COMMAND ""
    (event_payload kind id "") event_id now.

Definition finalize_job (id : string) (status : CommandStatus) (kind reason event_id now : string)
  : M unit :=
  attempt (finish_command external id status None None now) ;;
  append_command_event "info" kind "" (event_payload kind id reason) event_id now.

Definition spawn_failure_job (id reason event_id now : string) : M unit :=
  attempt (finish_command external id CsFailed None None now) ;;
  append_command_event "error" "command.spawn_failed" reason
    (finish_payload id CsFailed None None (Some reason) None) event_id now.

Definition finish_job (id : string) (o : Outcome) (duration_ms : option Z) (event_id now : string)
  : M unit :=
  let '(status, exit_status, kind, signal, reason) := settle_outcome_row o in
  finish_command external id status exit_status duration_ms now ;;
  append_command_event "info" kind "" (finish_payload id status exit_status signal reason duration_ms)
    event_id now.

Definition truncate_job (id event_id now : string) : M unit :=
  mark_command_truncated external id now ;;
  append_command_event "info" "command.output_truncated" ""
    (event_payload "command.output_truncated" id "") event_id now.

Definition persist_chunk (id stream : string) (seq : nat) (data : str) (event_id now : string) : M Event :=
  append_command_output json_valid external output_payload id stream (Z.of_nat seq) (utf8 data) event_id now.

(** [handle_chunk] with its two writes: whether it succeeded, the counter it
    leaves behind either way, and the store. *)
Definition handle_chunk_io (io1 io2 : bool) (id stream : string) (data : str)
    (event1 event2 now : string) (counter : OutputCounter) (st : Store)
  : bool * OutputCounter * Store :=
  if oc_exhausted counter then (true, counter, st)
  else if (remaining counter <? str_len data)%nat then
    let head := slice data (floor_char_boundary data (remaining counter)) in
    let truncate c st :=
      match write_job io2 (truncate_job id event2 now) st with
      | Ok (_, st') => (true, exhaust c, st')
      | Err _ => (false, exhaust c, st)
      end in
    match head with
    | [] => truncate counter st
    | _ =>
        match write_job io1 (persist_chunk id stream (oc_seq counter) head event1 now) st with
        | Ok (_, st') => truncate (OutputStream.persist counter head) st'
        | Err _ => (false, counter, st)
        end
    end
  else
    match write_job io1 (persist_chunk id stream (oc_seq counter) data event1 now) st with
    | Ok (_, st') => (true, OutputStream.persist counter data, st')
    | Err _ => (false, counter, st)
    end.

(** ** One task, from await to await *)

Inductive Input :=
| IRequest (io : bool) (expires_at : option string) (permission_id now : string)
| IRequested
| IAnswer
| ICancelSeen
| IWaiterLost
| IFinalize (io : bool) (event_id now : string)
| IStart (io : bool) (now : string) (spawns : bool)
| ISpawnFailure (io : bool) (reason event_id now : string)
| IStatusEvent (io : bool) (event_id now : string)
| IPersistFinish (io : bool) (duration_ms : option Z) (now : string)
| ICancel (kill : GraceKillOutcome)
| ITimeout (kill : GraceKillOutcome)
| IProgress (io : bool) (event_id now : string)
| IWait (w : WaitResult)
| IChunk (io1 io2 : bool) (stream : string) (data : str) (event1 event2 now : string)
| IDrained
| IFinish (io : bool) (duration_ms : option Z) (event_id now : string)
| IDeregister (io : bool) (decision_id event_id now decided_at event_at : string).

(** What [run] does with the outcome of the permission. *)
Definition after_answer (o : PermissionOutcome) : Phase :=
  match o with
  | Approved _ _ => PhStart
  | Denied _ => PhRefused CsFailed "command.permission_denied" PERMISSION_REASON_DENIED
  | PermissionService.Canceled reason => PhRefused CsCanceled "command.cancelled" reason
  | Expired => PhRefused CsFailed "command.permission_expired" PERMISSION_REASON_WAITER_LOST
  end.

Definition command_permission (id : string) (ad : Admission) : NewPermission :=
  mkNewPerm SrcCommand (Some ("command:" +:+ id)) (Some id) (detail_json ad).

(** [permissions.request] has returned: no step of it is left for [pid]. *)
Definition request_returned (pid : string) (s : Svc) : bool :=
  forallb (fun t => match t with
                    | TRegister _ | TCreated _ | TReread _ | TSettle _ _ => negb (bool_decide (task_id t = pid))
                    | _ => true
                    end) (sv_tasks s).

(** The select loop polls the cancel flag before anything else. *)
Definition cancel_flagged (id : string) (g : Gw) : bool := default false (gw_running g !! id).

Definition after_started (su : Sup) (ph : Phase) : Phase :=
  match ph with
  | PhSpawned => if ad_review_flagged (su_admission su) then PhFlagging
                 else PhRunning (new_counter (gc_max_output_bytes config))
  | _ => PhRunning (new_counter (gc_max_output_bytes config))
  end.

Definition status_kind (ph : Phase) : string :=
  match ph with PhSpawned => "command.started" | _ => "command.review_flagged" end.

Definition deregister (io : bool) (id : string) (su : Sup) (reason decision_id event_id now at1 at2 : string)
    (g : Gw) : Gw :=
  let g1 := set_running (delete id (gw_running g)) g in
  match gw_awaiting g1 !! id with
  | None => goto id su PhEnded g1
  | Some pid =>
      let g2 := set_awaiting (delete id (gw_awaiting g1)) g1 in
      let dc := PermissionService.cancel pid reason in
      match write_job io (run_decide json_valid external decision_payload dc decision_id event_id now at1 at2)
              (gw_store g2) with
      | Ok ((_, payload), st') =>
          goto id su PhEnded
            (set_svc (with_store st' (with_tasks
               (sv_tasks (gw_svc g2) ++ [TAnswer pid (dc_outcome dc) (dc_kind dc) payload]) (gw_svc g2))) g2)
      | Err (InvalidPermissionTransition _ _ _) => goto id su PhEnded g2
      | Err _ => failed id (goto id su PhEnded g2)
      end
  end.

(** A row write of the task: on success the next phase, on failure the other
    one, and the command counts as failed when the row is lost. *)
Definition row_write {A} (io : bool) (job : M A) (id : string) (su : Sup) (next otherwise : Phase)
    (lost : bool) (g : Gw) : Gw :=
  match write_job io job (gw_store g) with
  | Ok (_, st') => goto id su next (set_store st' g)
  | Err _ => (if lost then failed id else fun g => g) (goto id su otherwise g)
  end.

Definition sup_step (id : string) (i : Input) (g : Gw) : option Gw :=
  match gw_tasks g !! id with
  | None => None
  | Some su =>
      match su_phase su, i with
      | PhSubmitted, IRequest io expires_at pid now =>
          match write_job io (insert_request_job json_valid external
                            (command_permission id (su_admission su)) expires_at pid now) (gw_store g) with
          | Ok (r, st') =>
              let s := gw_svc g in
              Some (set_task id (mkSup (su_admission su) (Some (pr_id r)) PhRequesting)
                (set_svc (mkSvc st' (sv_pending s) (sv_inbox s) (sv_tasks s ++ [TRegister r])
                            ({[pr_id r]} ∪ sv_requested s) (sv_live s)) g))
          | Err _ => Some (failed id (goto id su PhAbandoned g))
          end
      | PhRequesting, IRequested =>
          match su_permission su with
          | Some pid =>
              if request_returned pid (gw_svc g)
              then Some (goto id su PhAwait (set_awaiting (<[id := pid]> (gw_awaiting g)) g)) else None
          | None => None
          end
      | PhAwait, IAnswer =>
          match su_permission su ≫= fun pid => sv_inbox (gw_svc g) !! pid with
          | Some o => Some (goto id su (after_answer o) g)
          | None => None
          end
      | PhAwait, ICancelSeen =>
          match gw_running g !! id with
          | Some true => Some (goto id su
              (after_answer (PermissionService.Canceled PERMISSION_REASON_COMMAND_CANCELED)) g)
          | Some false => None
          | None => Some (goto id su (after_answer Expired) g)
          end
      | PhAwait, IWaiterLost =>
          match su_permission su with
          | Some pid =>
              if bool_decide (pid ∈ sv_pending (gw_svc g) \/ is_Some (sv_inbox (gw_svc g) !! pid))
              then None else Some (goto id su (after_answer Expired) g)
          | None => None
          end
      | PhRefused status kind reason, IFinalize io event_id now =>
          Some (row_write io (finalize_job id status kind reason event_id now) id su
                  (PhDeregister reason) (PhDeregister reason) true g)
      | PhStart, IStart io now spawns =>
          match write_job io (start_command external id now) (gw_store g) with
          | Ok (_, st') =>
              let g1 := set_store st' g in
              Some (if spawns then spawned id (goto id su PhSpawned g1) else goto id su PhSpawnFailed g1)
          | Err _ => Some (failed id (goto id su (PhDeregister PERMISSION_REASON_START_FAILED) g))
          end
      | PhSpawnFailed, ISpawnFailure io reason event_id now =>
          let next := PhDeregister PERMISSION_REASON_SPAWN_FAILED in
          Some (row_write io (spawn_failure_job id reason event_id now) id su next next true g)
      | (PhSpawned | PhFlagging) as ph, IStatusEvent io event_id now =>
          Some (row_write io (publish_status_event id (status_kind ph) event_id now) id su
                  (after_started su ph) PhPersistFailed false g)
      | PhPersistFailed, IPersistFinish io duration_ms now =>
          let next := PhDeregister PERMISSION_REASON_PERSISTENCE_FAILED in
          Some (row_write io (finish_command external id CsFailed None duration_ms now) id su next next true g)
      | PhRunning counter, ICancel kill =>
          if cancel_flagged id g then Some (goto id su (PhDraining counter (handle_cancel kill)) g) else None
      | PhRunning counter, ITimeout kill =>
          if cancel_flagged id g then None
          else Some (goto id su (PhDraining counter (handle_timeout kill)) g)
      | PhRunning counter, IProgress io event_id now =>
          if cancel_flagged id g then None
          else Some (row_write io
                 (append_command_progress json_valid external progress_payload id event_id now) id su
                 (PhRunning counter) (PhDraining counter PersistenceError) false g)
      | PhRunning counter, IWait w =>
          if cancel_flagged id g then None
          else Some (goto id su (PhDraining counter (handle_wait w)) g)
      | PhRunning counter, IChunk io1 io2 stream data event1 event2 now =>
          if cancel_flagged id g then None
          else
            let '(ok, counter', st') :=
              handle_chunk_io io1 io2 id stream data event1 event2 now counter (gw_store g) in
            Some (goto id su (if ok then PhRunning counter' else PhDraining counter' PersistenceError)
                    (set_store st' g))
      | PhDraining counter outcome, IChunk io1 io2 stream data event1 event2 now =>
          let '(ok, counter', st') :=
            handle_chunk_io io1 io2 id stream data event1 event2 now counter (gw_store g) in
          Some (goto id su (if ok then PhDraining counter' outcome else PhFinishing outcome)
                  (set_store st' g))
      | PhDraining counter outcome, IDrained => Some (goto id su (PhFinishing outcome) g)
      | PhFinishing outcome, IFinish io duration_ms event_id now =>
          Some (row_write io (finish_job id outcome duration_ms event_id now) id su
                  (PhDeregister PERMISSION_REASON_COMMAND_FINISHED)
                  (PhDeregister PERMISSION_REASON_PERSISTENCE_FAILED) true g)
      | PhDeregister reason, IDeregister io decision_id event_id now at1 at2 =>
          Some (deregister io id su reason decision_id event_id now at1 at2 g)
      | _, _ => None
      end
  end.

(** ** The gateway *)

(** [submit] up to its row: the command is registered, and its task runs at
    once unless an approval is asked for first. *)
Definition submit_row (ad : Admission) (new_id now : string) (g : Gw) : option Gw :=
  match append_command json_valid external
          (mkNewCommand (utf8 (ad_command ad)) (ad_record_cwd ad) (ad_env_json ad) Operator None None)
          new_id now (gw_store g) with
  | Ok (_, st') =>
      let ph := if ad_needs_approval ad then PhSubmitted else PhStart in
      Some (set_task new_id (mkSup ad None ph)
              (set_running (<[new_id := false]> (gw_running g)) (set_store st' g)))
  | Err _ => None
  end.

(** [cancel]'s signal; its permission half is a decision like any other. *)
Definition signal_cancel (id : string) (g : Gw) : Gw :=
  match gw_running g !! id with
  | Some _ => set_running (<[id := true]> (gw_running g)) g
  | None => g
  end.

(** The rows of the gateway's own commands are written by their task alone. *)
Definition owned_same (g : Gw) (s' : Svc) : Prop :=
  forall id, is_Some (gw_tasks g !! id) ->
  st_commands (sv_store s') !! id = st_commands (gw_store g) !! id.

Inductive gw_step : Gw -> Gw -> Prop :=
| gs_submit g fs1 fs2 fs3 sandbox request ad new_id now g' :
    submit_checks names_json config fs1 fs2 fs3 sandbox request = Ok ad ->
    submit_row ad new_id now g = Some g' -> gw_step g g'
| gs_task g id i g' : sup_step id i g = Some g' -> gw_step g g'
| gs_cancel g id : gw_step g (signal_cancel id g)
| gs_svc g s' :
    svc_step json_valid external created_payload decision_payload timeout_action (gw_svc g) s' ->
    owned_same g s' -> gw_step g (set_svc s' g).

Definition gw_init (st : Store) : Gw := mkGw (svc_init st) ∅ ∅ ∅ ∅ ∅.
End supervisor.
