(* ===== verification/GatewaySafety.v ===== *)
(** What the command gateway guarantees: no child without the approval its
    policy asks for, rows that follow their task, and permission requests that
    do not outlive the command. Proved over every interleaving of the gateway's
    tasks with the permission service and the rest of the daemon. *)

From S2P Require Import Prelude Text Duration Cwd Policy Store SinkOutbox ChangeFeed.
From S2P Require Import SessionEvents PermissionStore PermissionService CommandStore OutputStream.
From S2P Require Import CommandGateway.
Open Scope Z_scope.
Open Scope result_scope.

(** ** Relations a job respects *)

(** Every successful run of the job relates the stores. *)
Definition links {A} (R : Store -> Store -> Prop) (m : M A) : Prop :=
  forall st a st', m st = Ok (a, st') -> R st st'.

Lemma links_bind {A B} R `{!Transitive R} (m : M A) (f : A -> M B) :
  links R m -> (forall a, links R (f a)) -> links R (bind m f).
Proof. intros Hm Hf st b st' (a & st1 & H1 & H2)%bind_ok. etrans; [by eapply Hm|by eapply Hf]. Qed.

Lemma links_ret {A} R `{!Reflexive R} (a : A) : links R (ret a).
Proof. by intros st b st' [= <- <-]. Qed.

Lemma links_gets {A} R `{!Reflexive R} (f : Store -> A) : links R (gets f).
Proof. by intros st b st' [= <- <-]. Qed.

Lemma links_fail {A} R e : links R (fail (A := A) e).
Proof. by intros st b st'. Qed.

Lemma links_attempt {A} R `{!Reflexive R} (m : M A) : links R m -> links R (attempt m).
Proof.
  intros Hm st u st' H. unfold attempt in H. destruct (m st) as [[a st1]|] eqn:E; simplify_eq; [|done].
  by eapply Hm.
Qed.

Lemma links_write {A} R io (m : M A) : links R m -> links R (write_job io m).
Proof. intros Hm st a st'. unfold write_job. destruct io; [apply Hm|done]. Qed.

(** The command rows, and the audit tables, as they were. *)
Definition cmds_eq (st st' : Store) : Prop := st_commands st' = st_commands st.
Definition perms_eq (st st' : Store) : Prop :=
  st_permissions st' = st_permissions st /\ st_decisions st' = st_decisions st.

#[export] Instance cmds_eq_refl : Reflexive cmds_eq.
Proof. done. Qed.
#[export] Instance cmds_eq_trans : Transitive cmds_eq.
Proof. unfold cmds_eq. intros x y z. congruence. Qed.
#[export] Instance perms_eq_refl : Reflexive perms_eq.
Proof. done. Qed.
#[export] Instance perms_eq_trans : Transitive perms_eq.
Proof. unfold perms_eq. intros x y z [? ?] [? ?]. split; congruence. Qed.

(** A [modify] that leaves the related tables alone. *)
Lemma links_modify R f : (forall st, R st (f st)) -> links R (modify f).
Proof. intros H st u st' [= _ <-]. apply H. Qed.

Ltac walk_links :=
  repeat first
    [ apply links_ret; exact _ | apply links_gets; exact _ | apply links_fail
    | apply links_attempt; [exact _|] | apply links_write
    | apply links_modify; done
    | apply links_bind; [exact _| |intros ?]
    | case_match ].

Section jobs.
Context (json_valid : string -> bool) (external : bool).

Lemma bump_cmds id : links cmds_eq (bump_session_change id).
Proof. intros st u st' [[_ ->]|(row & _ & _ & ->)]%bump_session_change_run; done. Qed.

Lemma enqueue_links R `{!Reflexive R} t i c :
  (forall st v, R st (set_outbox v st)) -> links R (enqueue_if external t i c).
Proof. intros H. unfold enqueue_if, enqueue. destruct external; [apply links_modify; auto|by apply links_ret]. Qed.

Lemma append_event_links R `{!Reflexive R} `{!Transitive R} level kind source message payload event_id now :
  (forall st v, R st (set_outbox v st)) -> (forall st v, R st (set_events v st)) ->
  (forall st v, R st (set_published v st)) ->
  links R (append_event_with_source json_valid external level kind source message payload event_id now).
Proof.
  intros Ho He Hp. unfold append_event_with_source, persist_with_outbox, insert_unscoped_event_row,
    insert_event, publish. walk_links; first [apply links_modify; auto|by apply enqueue_links|idtac].
Qed.

Lemma append_session_event_cmds sid level kind source message payload event_id now :
  links cmds_eq (append_session_event_with_source json_valid external sid level kind source message payload
                   event_id now).
Proof.
  unfold append_session_event_with_source, persist_with_outbox, insert_session_event_row, insert_event,
    publish_session_event, publish.
  walk_links; first [apply bump_cmds|by apply enqueue_links|idtac].
Qed.

Lemma append_event_cmds level kind source message payload event_id now :
  links cmds_eq (append_event_with_source json_valid external level kind source message payload event_id now).
Proof. by apply append_event_links; try exact _. Qed.

Lemma append_event_perms level kind source message payload event_id now :
  links perms_eq (append_event_with_source json_valid external level kind source message payload event_id now).
Proof. by apply append_event_links; try exact _. Qed.

Lemma bump_acp_cmds id : links cmds_eq (bump_acp_permission_session id).
Proof. unfold bump_acp_permission_session. by walk_links. Qed.

(** The permission service leaves the command rows alone. *)
Lemma insert_request_cmds input expires_at new_id now :
  links cmds_eq (insert_request_job json_valid external input expires_at new_id now).
Proof.
  unfold insert_request_job, append_permission_request, persist_with_outbox, insert_request.
  walk_links; first [apply bump_acp_cmds|by apply enqueue_links|idtac].
Qed.

Lemma run_decide_cmds payload dc did eid now at1 at2 :
  links cmds_eq (run_decide json_valid external payload dc did eid now at1 at2).
Proof.
  unfold run_decide, decide_job, decide_permission, record_decision_event, append_permission_event,
    update_permission, insert_decision.
  walk_links; first [apply bump_acp_cmds|by apply enqueue_links|apply append_session_event_cmds
    |apply append_event_cmds|idtac].
Qed.

(** ** Command rows *)

Lemma persist_update_run id f created_at st u st' :
  persist_with_outbox external "commands" id created_at (update_command id f) st = Ok (u, st') ->
  exists c, st_commands st !! id = Some c /\ st_commands st' = <[id := f c]> (st_commands st)
  /\ perms_eq st st'.
Proof.
  unfold persist_with_outbox, update_command, enqueue_if, enqueue, bind, gets, modify, ret.
  destruct (st_commands st !! id) as [c|]; [|done]. destruct external; intros [= <- <-]; by exists c.
Qed.

Lemma persist_update_ok id f created_at st c :
  st_commands st !! id = Some c ->
  is_Ok (persist_with_outbox external "commands" id created_at (update_command id f) st).
Proof.
  intros Hc. unfold persist_with_outbox, update_command, enqueue_if, enqueue, bind, gets, modify, ret.
  rewrite Hc. by destruct external; eexists.
Qed.

(** A logged failure cannot happen to a row that exists. *)
Lemma attempt_update_run id f created_at st u st' c :
  attempt (persist_with_outbox external "commands" id created_at (update_command id f)) st = Ok (u, st') ->
  st_commands st !! id = Some c ->
  st_commands st' = <[id := f c]> (st_commands st) /\ perms_eq st st'.
Proof.
  intros H Hc. destruct (persist_update_ok id f created_at st c Hc) as [[v st1] E].
  unfold attempt in H. rewrite E in H. injection H as _ <-.
  apply persist_update_run in E as (c' & Hc' & Ec & Ep). rewrite Hc in Hc'. injection Hc' as <-. done.
Qed.

Lemma command_event_cmds level kind message payload event_id now :
  links cmds_eq (append_command_event json_valid external level kind message payload event_id now).
Proof. apply links_attempt; [exact _|]. apply append_event_cmds. Qed.

Lemma command_event_perms level kind message payload event_id now :
  links perms_eq (append_command_event json_valid external level kind message payload event_id now).
Proof. apply links_attempt; [exact _|]. apply append_event_perms. Qed.
End jobs.

(** ** The supervisor's jobs on its row *)

Lemma utf8_length s : String.length (utf8 s) = str_len s.
Proof.
  unfold utf8. rewrite <- as_bytes_length. generalize (as_bytes s). intros l.
  induction l as [|b l IH]; simpl; [done|]. by rewrite IH.
Qed.

(** The row [id] goes from [c] to [c'], the permission tables stay. *)
Definition row_goes (id : string) (c c' : CommandRecord) (st st' : Store) : Prop :=
  st_commands st !! id = Some c -> st_commands st' = <[id := c']> (st_commands st) /\ perms_eq st st'.

Section rows.
Context (json_valid : string -> bool) (external : bool)
  (output_payload : string -> string -> Z -> string -> string)
  (progress_payload : string -> string)
  (event_payload : string -> string -> string -> string)
  (finish_payload : string -> CommandStatus -> option Z -> option string -> option string -> option Z -> string).

(** A row update followed by an event that is logged or dropped. *)
Lemma then_event id c c' level kind message payload event_id now (m : M unit) st u st' :
  (forall st u st', m st = Ok (u, st') -> row_goes id c c' st st') ->
  (m ;; append_command_event json_valid external level kind message payload event_id now) st = Ok (u, st') ->
  row_goes id c c' st st'.
Proof.
  intros Hm (u1 & st1 & H1 & H2)%bind_ok Hc. destruct (Hm _ _ _ H1 Hc) as [E P].
  pose proof (command_event_cmds _ _ _ _ _ _ _ _ _ _ _ H2) as E2.
  pose proof (command_event_perms _ _ _ _ _ _ _ _ _ _ _ H2) as P2.
  unfold cmds_eq in E2. split; [by rewrite E2, E|by etrans].
Qed.

Lemma update_goes id f created_at c st u st' :
  persist_with_outbox external "commands" id created_at (update_command id f) st = Ok (u, st') ->
  row_goes id c (f c) st st'.
Proof. intros (c' & Hc' & E & P)%persist_update_run Hc. rewrite Hc in Hc'. by injection Hc' as <-. Qed.

Lemma finalize_goes id status kind reason event_id now c st u st' :
  finalize_job json_valid external event_payload id status kind reason event_id now st = Ok (u, st') ->
  row_goes id c (finished_row status None None now c) st st'.
Proof.
  apply then_event. intros st1 u1 st2 H Hc.
  exact (attempt_update_run external id _ now st1 u1 st2 c H Hc).
Qed.

Lemma spawn_failure_goes id reason event_id now c st u st' :
  spawn_failure_job json_valid external finish_payload id reason event_id now st = Ok (u, st') ->
  row_goes id c (finished_row CsFailed None None now c) st st'.
Proof.
  apply then_event. intros st1 u1 st2 H Hc.
  exact (attempt_update_run external id _ now st1 u1 st2 c H Hc).
Qed.

Lemma finish_goes id o duration_ms event_id now c st u st' :
  finish_job json_valid external finish_payload id o duration_ms event_id now st = Ok (u, st') ->
  row_goes id c (finished_row (settle_outcome_row o).1.1.1.1 (settle_outcome_row o).1.1.1.2 duration_ms now c)
    st st'.
Proof.
  unfold finish_job. destruct (settle_outcome_row o) as [[[[status exit_status] kind] signal] reason].
  apply then_event. intros st1 u1 st2. apply update_goes.
Qed.

Lemma truncate_goes id event_id now c st u st' :
  truncate_job json_valid external event_payload id event_id now st = Ok (u, st') ->
  row_goes id c (truncated_row now c) st st'.
Proof. apply then_event. intros st1 u1 st2. apply update_goes. Qed.

(** An event, then a row update that depends on it. *)
Lemma event_then id (f : Event -> CommandRecord -> CommandRecord) level kind source message payload
    event_id now c st e st' :
  (let* event := append_event_with_source json_valid external level kind source message payload event_id now in
   persist_with_outbox external "commands" id (e_created_at event) (update_command id (f event)) ;;
   ret event) st = Ok (e, st') ->
  row_goes id c (f e c) st st'.
Proof.
  intros (e1 & st1 & H1 & H)%bind_ok Hc. apply bind_ok in H as (u & st2 & H2 & H).
  injection H as -> ->. apply persist_update_run in H2 as (c' & Hc' & E & P).
  assert (cmds_eq st st1) as E1 by (by eapply append_event_cmds).
  assert (perms_eq st st1) as P1 by (by eapply append_event_perms).
  unfold cmds_eq in E1. rewrite E1, Hc in Hc'. injection Hc' as <-.
  split; [by rewrite E, E1|by etrans].
Qed.

Lemma progress_goes id event_id now c st e st' :
  append_command_progress json_valid external progress_payload id event_id now st = Ok (e, st') ->
  row_goes id c (progress_row (e_created_at e) c) st st'.
Proof. apply (event_then id (fun e => progress_row (e_created_at e))). Qed.

Lemma chunk_goes id stream seq data event_id now c st e st' :
  persist_chunk json_valid external output_payload id stream seq data event_id now st = Ok (e, st') ->
  row_goes id c (output_row e (saturate_i64 (Z.of_nat seq)) (saturate_i64 (Z.of_nat (str_len data))) c) st st'.
Proof.
  rewrite <- utf8_length. unfold persist_chunk, append_command_output.
  apply (event_then id (fun e => output_row e _ _)).
Qed.

(** Output changes nothing but the output columns, and counts no more than the
    counter does. *)
Definition output_step (k k' : OutputCounter) (c c' : CommandRecord) : Prop :=
  c_status c' = c_status c /\ c_finished_at c' = c_finished_at c
  /\ (oc_used k <= oc_used k' <= oc_max k)%nat /\ oc_max k' = oc_max k
  /\ c_output_bytes c' - c_output_bytes c <= Z.of_nat (oc_used k') - Z.of_nat (oc_used k).

Lemma head_length data r : (r < str_len data)%nat -> (str_len (slice data (floor_char_boundary data r)) <= r)%nat.
Proof. intros H. rewrite head_fits by done. by destruct (slice_fits data r) as (tail & _ & ? & _). Qed.

Lemma handle_chunk_goes io1 io2 id stream data e1 e2 now k st ok k' st' c :
  handle_chunk_io json_valid external output_payload event_payload io1 io2 id stream data e1 e2 now k st
    = (ok, k', st') ->
  st_commands st !! id = Some c -> (oc_used k <= oc_max k)%nat ->
  perms_eq st st' /\ exists c', st_commands st' = <[id := c']> (st_commands st) /\ output_step k k' c c'.
Proof.
  intros H Hc Hk.
  assert (forall k', oc_used k' = oc_used k -> oc_max k' = oc_max k ->
    perms_eq st st /\ exists c', st_commands st = <[id := c']> (st_commands st) /\ output_step k k' c c') as Hsame.
  { intros k1 E1 E2. split; [done|]. exists c. rewrite insert_id by done.
    split; [done|]. unfold output_step. rewrite E1, E2. by repeat split; lia. }
  revert H. unfold handle_chunk_io. destruct (oc_exhausted k) eqn:Ee; [intros [= _ <- <-]; by apply Hsame|].
  unfold remaining. destruct (Nat.ltb_spec (oc_max k - oc_used k) (str_len data)) as [Hlt|Hge].
  - pose proof (head_length data _ Hlt) as Hl.
    destruct (slice _ _) as [|h head] eqn:Eh.
    + unfold write_job at 1. destruct io2; [|intros [= _ <- <-]; by apply Hsame].
      destruct (truncate_job _ _ _ _ _ _ _) as [[u st1]|] eqn:Et; intros [= _ <- <-]; [|by apply Hsame].
      destruct (truncate_goes _ _ _ _ _ _ _ Et Hc) as [E P]. split; [done|].
      eexists. split; [exact E|]. unfold output_step. simpl. repeat split; lia.
    + unfold write_job at 1. destruct io1; [|intros [= _ <- <-]; by apply Hsame].
      destruct (persist_chunk _ _ _ _ _ _ _ _ _ _) as [[e st1]|] eqn:Ep; [|intros [= _ <- <-]; by apply Hsame].
      rewrite <- Eh in *. destruct (chunk_goes _ _ _ _ _ _ _ _ _ _ Ep Hc) as [E1 P1].
      set (c1 := output_row _ _ _ c) in *.
      assert (st_commands st1 !! id = Some c1) as Hc1 by (rewrite E1; by rewrite lookup_insert_eq).
      assert (output_step k (exhaust (persist k (slice data (floor_char_boundary data (oc_max k - oc_used k))))) c c1)
        as Hs.
      { unfold output_step. simpl. unfold saturate_i64. repeat split; lia. }
      unfold write_job at 1. destruct io2; [|intros [= _ <- <-]; split; [done|]; by exists c1].
      destruct (truncate_job _ _ _ _ _ _ _) as [[u st2]|] eqn:Et; intros [= _ <- <-]; [|split; [done|]; by exists c1].
      destruct (truncate_goes _ _ _ _ _ _ _ Et Hc1) as [E2 P2]. split; [by etrans|].
      eexists. split; [rewrite E2, E1; by rewrite insert_insert_eq|]. exact Hs.
  - unfold write_job at 1. destruct io1; [|intros [= _ <- <-]; by apply Hsame].
    destruct (persist_chunk _ _ _ _ _ _ _ _ _ _) as [[e st1]|] eqn:Ep; intros [= _ <- <-]; [|by apply Hsame].
    destruct (chunk_goes _ _ _ _ _ _ _ _ _ _ Ep Hc) as [E1 P1]. split; [done|].
    eexists. split; [exact E1|]. unfold output_step. simpl. unfold saturate_i64. repeat split; lia.
Qed.
End rows.

(** ** Permission rows over time *)

(** Decided rows stay decided, and no row changes whom it is about. *)
Definition perms_kept (st st' : Store) : Prop :=
  decided_kept st st'
  /\ forall pid r, st_permissions st !! pid = Some r ->
     exists r', st_permissions st' !! pid = Some r' /\ pr_subject_id r' = pr_subject_id r
                /\ pr_source r' = pr_source r.

Lemma perms_kept_same st st' : st_permissions st' = st_permissions st -> perms_kept st st'.
Proof. intros E. split; [by apply same_kept|]. intros pid r Hr. exists r. by rewrite E. Qed.

#[export] Instance perms_kept_refl : Reflexive perms_kept.
Proof. intros st. by apply perms_kept_same. Qed.

#[export] Instance perms_kept_trans : Transitive perms_kept.
Proof.
  intros x y z [D1 R1] [D2 R2]. split; [intros id s Hs Hn; apply D2; [by apply D1|done]|].
  intros pid r Hr. destruct (R1 _ _ Hr) as (r1 & Hr1 & <- & <-). by apply R2.
Qed.

Lemma perms_kept_update id r status now st st' :
  st_permissions st !! id = Some r -> pending_row r ->
  st_permissions st' = <[id := with_permission_status status now r]> (st_permissions st) ->
  perms_kept st st'.
Proof.
  intros Hr Hp E. split; [eapply insert_kept; [exact E|]; intros q Hq; congruence|].
  intros pid q Hq. rewrite E. destruct (decide (pid = id)) as [->|Hne].
  - rewrite lookup_insert_eq. eexists. split; [done|]. rewrite Hr in Hq. by injection Hq as <-.
  - rewrite lookup_insert_ne by done. by exists q.
Qed.

Lemma perms_kept_insert id r st st' :
  st_permissions st !! id = None -> st_permissions st' = <[id := r]> (st_permissions st) -> perms_kept st st'.
Proof.
  intros Hn E. split; [eapply insert_kept; [exact E|]; intros q Hq; congruence|].
  intros pid q Hq. rewrite E, lookup_insert_ne by congruence. by exists q.
Qed.

Section kept.
Context (json_valid : string -> bool) (external : bool).
Context (created_payload : PermissionRequestRecord -> string)
  (decision_payload : string -> PermissionDecisionRecord -> option PermissionRequestRecord -> string)
  (timeout_action : PermissionTimeoutAction).

Lemma run_decide_kept dc did eid now at1 at2 st d payload st' :
  run_decide json_valid external decision_payload dc did eid now at1 at2 st = Ok ((d, payload), st') ->
  perms_kept st st'.
Proof. intros (r & Hr & Hp & E)%decide_job_run. by eapply perms_kept_update. Qed.

Lemma created_kept r event_id now st st' :
  created_job json_valid external created_payload r event_id now st = Ok (tt, st') \/ st' = st ->
  perms_kept st st'.
Proof. intros [H| ->]; [|done]. unfold created_job in H.
  apply append_permission_event_audit in H as [E _]. by apply perms_kept_same. Qed.

Lemma svc_step_kept s s' :
  svc_step json_valid external created_payload decision_payload timeout_action s s' ->
  perms_kept (sv_store s) (sv_store s').
Proof.
  intros [H|H]; destruct H; simpl; try done;
    repeat match goal with
    | |- context [sv_store (fire ?i ?o ?x)] =>
        replace (sv_store (fire i o x)) with (sv_store x) by (by destruct (fire_same i o x) as (-> & _))
    end; simpl; try done; try (by eapply created_kept); try (by eapply run_decide_kept).
  - match goal with H : record_decision_event _ _ _ _ _ _ _ _ _ = _ |- _ =>
      apply record_decision_event_audit in H as [E _] end. by apply perms_kept_same.
  - match goal with H : insert_request_job _ _ _ _ _ _ _ = _ |- _ =>
      apply request_run in H as (_ & Hn & _ & E) end. by eapply perms_kept_insert.
  - match goal with H : approve_by_policy_job _ _ _ _ _ _ _ = _ |- _ =>
      apply policy_run in H as (Hn & E) end. by eapply perms_kept_insert.
  - by apply perms_kept_same.
Qed.
End kept.

(** ** The invariant *)

(** The permission [pid] is one the gateway asked for the command [id]. *)
Definition about (pid id : string) (st : Store) : Prop :=
  exists r, st_permissions st !! pid = Some r /\ pr_subject_id r = Some id
            /\ pr_source r = source_str SrcCommand.

Definition asked (id : string) (su : Sup) (st : Store) : Prop :=
  exists pid, su_permission su = Some pid /\ about pid id st.

(** The gate is passed: no approval is needed, or the row is approved. *)
Definition cleared (id : string) (su : Sup) (st : Store) : Prop :=
  su_permission su = None /\ ad_needs_approval (su_admission su) = false
  \/ exists pid, su_permission su = Some pid /\ about pid id st /\ row_status pid st = Some PsApproved.

Definition gate_inv (id : string) (su : Sup) (st : Store) : Prop :=
  match su_phase su with
  | PhSubmitted | PhAbandoned => su_permission su = None
  | PhRequesting | PhAwait | PhRefused _ _ _ => asked id su st
  | PhDeregister _ | PhEnded => su_permission su = None \/ asked id su st
  | _ => cleared id su st
  end.

Definition needs_inv (su : Sup) : Prop :=
  match su_phase su with PhSubmitted => ad_needs_approval (su_admission su) = true | _ => True end.

(** A request that is no longer open. *)
Definition row_closed (pid : string) (st : Store) : Prop :=
  exists s, row_status pid st = Some s /\ s <> PsPending.

Definition closed_inv (su : Sup) (st : Store) : Prop :=
  match su_phase su with
  | PhEnded => forall pid, su_permission su = Some pid -> row_closed pid st
  | _ => True
  end.

Definition awaiting_of (su : Sup) : option string :=
  match su_phase su with
  | PhSubmitted | PhRequesting | PhAbandoned | PhEnded => None
  | _ => su_permission su
  end.

Definition settled_row (c : CommandRecord) : Prop :=
  (c_status c = command_status_str CsExited \/ c_status c = command_status_str CsFailed
   \/ c_status c = command_status_str CsCanceled) /\ is_Some (c_finished_at c).

(** What the row of a command shows while its task is in a phase. *)
Definition row_inv (max : nat) (ph : Phase) (c : CommandRecord) : Prop :=
  match ph with
  | PhSubmitted | PhRequesting | PhAwait | PhRefused _ _ _ | PhStart =>
      c_status c = command_status_str CsPending /\ c_output_bytes c <= 0
  | PhSpawnFailed | PhSpawned | PhFlagging | PhPersistFailed =>
      c_status c = command_status_str CsRunning /\ c_output_bytes c <= 0
  | PhRunning k | PhDraining k _ =>
      c_status c = command_status_str CsRunning /\ oc_max k = max /\ (oc_used k <= max)%nat
      /\ c_output_bytes c <= Z.of_nat (oc_used k)
  | PhFinishing _ => c_status c = command_status_str CsRunning /\ c_output_bytes c <= Z.of_nat max
  | PhDeregister _ | PhEnded => settled_row c /\ c_output_bytes c <= Z.of_nat max
  | PhAbandoned => False
  end.

(** What a phase carries, whatever the row shows. *)
Definition phase_inv (max : nat) (ph : Phase) : Prop :=
  match ph with
  | PhRunning k | PhDraining k _ => oc_max k = max /\ (oc_used k <= max)%nat
  | PhRefused status _ _ => status = CsFailed \/ status = CsCanceled
  | _ => True
  end.

Record task_inv (config : GatewayConfig) (st : Store) (awaiting : option string) (lost had_child : Prop)
    (id : string) (su : Sup) : Prop := mkTaskInv {
  ti_gate : gate_inv id su st;
  ti_needs : needs_inv su;
  ti_closed : ~ lost -> closed_inv su st;
  ti_await : awaiting = awaiting_of su;
  ti_phase : phase_inv (gc_max_output_bytes config) (su_phase su);
  ti_row : exists c, st_commands st !! id = Some c
                     /\ (~ lost -> row_inv (gc_max_output_bytes config) (su_phase su) c);
  ti_child : had_child -> cleared id su st;
  ti_admitted : evaluate_policy (ad_command (su_admission su)) (gc_permissions config)
                  = ad_decision (su_admission su)
                /\ approval_gate (gc_mode config) (ad_decision (su_admission su))
                   = Some (ad_needs_approval (su_admission su));
}.

Record gw_inv (config : GatewayConfig) (g : Gw) : Prop := mkGwInv {
  gi_agree : agree_inv (gw_svc g);
  gi_task : forall id su, gw_tasks g !! id = Some su ->
    task_inv config (gw_store g) (gw_awaiting g !! id) (id ∈ gw_failed g) (id ∈ gw_spawned g) id su;
  gi_none : forall id, gw_tasks g !! id = None -> gw_awaiting g !! id = None /\ id ∉ gw_spawned g;
}.

(** ** What persists *)

Lemma about_kept pid id st st' : perms_kept st st' -> about pid id st -> about pid id st'.
Proof. intros [_ H] (r & Hr & Hs & Ht). destruct (H _ _ Hr) as (r' & Hr' & E1 & E2). exists r'. by rewrite E1, E2. Qed.

Lemma asked_kept id su st st' : perms_kept st st' -> asked id su st -> asked id su st'.
Proof. intros H (pid & Hp & Ha). exists pid. split; [done|]. by eapply about_kept. Qed.

Lemma cleared_kept id su st st' : perms_kept st st' -> cleared id su st -> cleared id su st'.
Proof.
  intros H [?|(pid & Hp & Ha & Hs)]; [by left|right]. exists pid. split; [done|].
  split; [by eapply about_kept|]. by apply (proj1 H).
Qed.

Lemma gate_inv_kept id su st st' : perms_kept st st' -> gate_inv id su st -> gate_inv id su st'.
Proof.
  intros H. unfold gate_inv. destruct (su_phase su); try done; try by apply asked_kept;
    try by apply cleared_kept.
  all: try (intros [?|?]; [by left|right; by eapply asked_kept]); by apply cleared_kept.
Qed.

Lemma row_closed_kept pid st st' : perms_kept st st' -> row_closed pid st -> row_closed pid st'.
Proof. intros [H _] (s & Hs & Hn). exists s. split; [by apply H|done]. Qed.

Lemma closed_inv_kept su st st' : perms_kept st st' -> closed_inv su st -> closed_inv su st'.
Proof.
  intros H. unfold closed_inv. destruct (su_phase su); try done.
  intros Hc pid Hp. eapply row_closed_kept; eauto.
Qed.

Lemma task_inv_frame config st st' aw aw' (lost lost' child child' : Prop) id su :
  perms_kept st st' -> st_commands st' !! id = st_commands st !! id -> aw' = aw ->
  (lost <-> lost') -> (child <-> child') ->
  task_inv config st aw lost child id su -> task_inv config st' aw' lost' child' id su.
Proof.
  intros Hk Hc -> Hl Hch [G N C A K (c & Rc & R) Ch Ad].
  split; [by eapply gate_inv_kept|done|intros Hn; eapply closed_inv_kept, C; tauto|done|done| | |done].
  - exists c. split; [by rewrite Hc|]. tauto.
  - intros Hs. eapply cleared_kept; [done|]. tauto.
Qed.

(** One task moves, the others keep what they had. *)
Record moved (id : string) (g g' : Gw) : Prop := mkMoved {
  mv_perms : perms_kept (gw_store g) (gw_store g');
  mv_others : forall j, j <> id ->
    gw_tasks g' !! j = gw_tasks g !! j /\ gw_awaiting g' !! j = gw_awaiting g !! j
    /\ st_commands (gw_store g') !! j = st_commands (gw_store g) !! j
    /\ (j ∈ gw_failed g <-> j ∈ gw_failed g') /\ (j ∈ gw_spawned g <-> j ∈ gw_spawned g');
}.

Lemma gw_inv_moved config id g g' su' :
  gw_inv config g -> moved id g g' -> agree_inv (gw_svc g') -> gw_tasks g' !! id = Some su' ->
  task_inv config (gw_store g') (gw_awaiting g' !! id) (id ∈ gw_failed g') (id ∈ gw_spawned g') id su' ->
  gw_inv config g'.
Proof.
  intros [_ T N] [P O] Ha Hid Ht. split; [done| |].
  - intros j su Hj. destruct (decide (j = id)) as [->|Hne]; [rewrite Hid in Hj; by injection Hj as <-|].
    destruct (O j Hne) as (E1 & E2 & E3 & E4 & E5). rewrite E1 in Hj.
    eapply task_inv_frame; [exact P|exact E3|exact E2|exact E4|exact E5|by apply T].
  - intros j Hj. destruct (decide (j = id)) as [->|Hne]; [congruence|].
    destruct (O j Hne) as (E1 & E2 & _ & _ & E5). rewrite E1 in Hj. rewrite E2, <- E5. by apply N.
Qed.

Definition mark_lost (b : bool) (id : string) (g : Gw) : Gw := if b then failed id g else g.
Definition mark_child (b : bool) (id : string) (g : Gw) : Gw := if b then spawned id g else g.

Lemma set_store_same g : set_store (gw_store g) g = g.
Proof. by destruct g as [[]]. Qed.

Lemma agree_store s st' : perms_eq (sv_store s) st' -> agree_inv s -> agree_inv (with_store st' s).
Proof.
  intros [E1 E2]. apply (agree_env_step (fun _ => true) true (fun _ _ _ => EmptyString)).
  by apply es_other.
Qed.

(** A task moves on after a write of its own row, or none. *)
Lemma inv_goto config id su ph st' (lost child : bool) g :
  gw_inv config g -> gw_tasks g !! id = Some su -> perms_eq (gw_store g) st' ->
  (forall j, j <> id -> st_commands st' !! j = st_commands (gw_store g) !! j) ->
  task_inv config st' (gw_awaiting g !! id) (lost = true \/ id ∈ gw_failed g)
    (child = true \/ id ∈ gw_spawned g) id (mkSup (su_admission su) (su_permission su) ph) ->
  gw_inv config (mark_lost lost id (mark_child child id (goto id su ph (set_store st' g)))).
Proof.
  intros Hi Hsu Hp Hc Ht.
  assert (agree_inv (with_store st' (gw_svc g))) as Ha by (apply agree_store; [done|apply (gi_agree _ _ Hi)]).
  assert (perms_kept (gw_store g) st') as Hk by (apply perms_kept_same, Hp).
  eapply (gw_inv_moved config id g); [done|..].
  - split; [by destruct lost, child|]. intros j Hj. unfold mark_lost, mark_child.
    destruct lost, child; simpl; rewrite lookup_insert_ne by done; do 3 (split; [by auto|]);
      rewrite ?elem_of_union, ?elem_of_singleton; tauto.
  - by destruct lost, child.
  - destruct lost, child; simpl; apply lookup_insert_eq.
  - destruct lost, child; simpl in *; (eapply task_inv_frame; [reflexivity|done|done| | |exact Ht]);
      rewrite ?elem_of_union, ?elem_of_singleton; naive_solver.
Qed.

(** The same when the row [id] is all that changes in the store. *)
Lemma others_same id c (st st' : Store) :
  st_commands st' = <[id := c]> (st_commands st) ->
  forall j, j <> id -> st_commands st' !! j = st_commands st !! j.
Proof. intros E j Hj. by rewrite E, lookup_insert_ne. Qed.

(** Moving on without a write. *)
Lemma inv_move config id su ph g :
  gw_inv config g -> gw_tasks g !! id = Some su ->
  task_inv config (gw_store g) (gw_awaiting g !! id) (id ∈ gw_failed g) (id ∈ gw_spawned g) id
    (mkSup (su_admission su) (su_permission su) ph) ->
  gw_inv config (goto id su ph g).
Proof.
  intros Hi Hsu Ht. rewrite <- (set_store_same g).
  apply (inv_goto config id su ph (gw_store g) false false g); [done|done|done|done|].
  eapply task_inv_frame; [reflexivity|done|done| | |exact Ht]; intuition congruence.
Qed.

(** A row write of the task, whichever way it goes. *)
Lemma inv_row_write {A} config io (job : M A) id su next otherwise (lost : bool) g :
  gw_inv config g -> gw_tasks g !! id = Some su ->
  (forall a st', job (gw_store g) = Ok (a, st') ->
     perms_eq (gw_store g) st'
     /\ (forall j, j <> id -> st_commands st' !! j = st_commands (gw_store g) !! j)
     /\ task_inv config st' (gw_awaiting g !! id) (id ∈ gw_failed g) (id ∈ gw_spawned g) id
          (mkSup (su_admission su) (su_permission su) next)) ->
  task_inv config (gw_store g) (gw_awaiting g !! id) (lost = true \/ id ∈ gw_failed g) (id ∈ gw_spawned g) id
    (mkSup (su_admission su) (su_permission su) otherwise) ->
  gw_inv config (row_write io job id su next otherwise lost g).
Proof.
  intros Hi Hsu Hok Herr. unfold row_write.
  destruct (write_job io job (gw_store g)) as [[a st']|e] eqn:E.
  - unfold write_job in E. destruct io; [|done]. destruct (Hok _ _ E) as (Hp & Hc & Ht).
    apply (inv_goto config id su next st' false false g); [done..|].
    eapply task_inv_frame; [reflexivity|done|done| | |exact Ht]; intuition congruence.
  - rewrite <- (set_store_same g).
    replace ((if lost then failed id else fun g => g) (goto id su otherwise (set_store (gw_store g) g)))
      with (mark_lost lost id (mark_child false id (goto id su otherwise (set_store (gw_store g) g))))
      by (by destruct lost).
    apply inv_goto; [done|done|done|done|].
    eapply task_inv_frame; [reflexivity|done|done| | |exact Herr]; intuition congruence.
Qed.

(** ** Steps of a task *)

Definition at_phase (su : Sup) (ph : Phase) : Sup := mkSup (su_admission su) (su_permission su) ph.

(** What is left to show when a task moves to the phase [ph]. *)
Lemma task_advance config st st' aw (lost lost' child child' : Prop) id su ph c' :
  task_inv config st aw lost child id su -> perms_eq st st' ->
  (gate_inv id su st' -> gate_inv id (at_phase su ph) st') ->
  ph <> PhSubmitted -> ph <> PhEnded -> awaiting_of (at_phase su ph) = awaiting_of su ->
  phase_inv (gc_max_output_bytes config) ph -> st_commands st' !! id = Some c' ->
  (~ lost' -> row_inv (gc_max_output_bytes config) ph c') ->
  (child' -> child \/ cleared id su st') ->
  task_inv config st' aw lost' child' id (at_phase su ph).
Proof.
  intros [G N C A K R Ch Ad] Hp Hg Hs He Ha Hk Hc Hr Hch.
  assert (perms_kept st st') as Hkept by (apply perms_kept_same, Hp).
  split; simpl; [|by destruct ph|by destruct ph|by rewrite A, Ha|done|by exists c'| |done].
  - apply Hg. by eapply gate_inv_kept.
  - intros [H|H]%Hch; [|done]. eapply cleared_kept; [done|]. by apply Ch.
Qed.

(** The outcome of a permission, and what the row says then. *)
Lemma after_answer_gate id su st o pid :
  su_permission su = Some pid -> agrees pid o st -> asked id su st -> gate_inv id (at_phase su (after_answer o)) st.
Proof.
  intros Hp Ha Hk. unfold gate_inv, at_phase. destruct o; simpl; try done.
  right. exists pid. destruct Hk as (pid' & Hp' & Hab). rewrite Hp in Hp'. injection Hp' as <-. done.
Qed.

Lemma after_answer_phase o : after_answer o <> PhSubmitted /\ after_answer o <> PhEnded.
Proof. by destruct o. Qed.

Lemma inv_after_answer config id su o pid g :
  gw_inv config g -> gw_tasks g !! id = Some su -> su_phase su = PhAwait -> su_permission su = Some pid ->
  agrees pid o (gw_store g) -> gw_inv config (goto id su (after_answer o) g).
Proof.
  intros Hi Hsu Hph Hp Ha. apply inv_move; [done..|].
  pose proof (gi_task _ _ Hi id su Hsu) as T. destruct (ti_row _ _ _ _ _ _ _ T) as (c & Hc & Hr).
  rewrite Hph in Hr. eapply (task_advance config (gw_store g) (gw_store g)).
  - exact T.
  - done.
  - unfold gate_inv at 1. rewrite Hph. by apply after_answer_gate with pid.
  - apply after_answer_phase.
  - apply after_answer_phase.
  - unfold awaiting_of. rewrite Hph. by destruct o.
  - destruct o; simpl; by auto.
  - exact Hc.
  - intros Hn. destruct (Hr Hn). by destruct o.
  - by left.
Qed.

Lemma append_command_run json_valid external input id now st r st' :
  append_command json_valid external input id now st = Ok (r, st') ->
  st_commands st !! id = None
  /\ r = mkCommand id now now (command_status_str CsPending) (nc_command input) None
      None None (nc_cwd input) (nc_env_json input) None false None None None 0 None
      (origin_str (nc_origin input)) (nc_session_id input) (nc_terminal_id input)
  /\ st_commands st' = <[id := r]> (st_commands st) /\ perms_eq st st'.
Proof.
  unfold append_command, persist_with_outbox, enqueue_if, enqueue, bind, gets, modify, ret, fail.
  destruct (match nc_env_json input with Some p => json_valid p | None => true end); simpl; [|by intros].
  destruct (st_commands st !! id); [done|]. destruct external; intros [= <- <-]; repeat split.
Qed.

Section steps.
Context (json_valid : string -> bool) (external : bool) (config : GatewayConfig).
Context (detail_json : Admission -> string)
  (output_payload : string -> string -> Z -> string -> string)
  (progress_payload : string -> string)
  (event_payload : string -> string -> string -> string)
  (finish_payload : string -> CommandStatus -> option Z -> option string -> option string -> option Z -> string).
Context (created_payload : PermissionRequestRecord -> string)
  (decision_payload : string -> PermissionDecisionRecord -> option PermissionRequestRecord -> string)
  (timeout_action : PermissionTimeoutAction).

Local Notation step := (sup_step json_valid external config detail_json output_payload progress_payload
  event_payload finish_payload decision_payload).

(** A write of the task's own row that succeeds, or is lost. *)
Lemma inv_own_write {A} io (job : M A) id su next otherwise lost (f : A -> CommandRecord -> CommandRecord) g :
  gw_inv config g -> gw_tasks g !! id = Some su ->
  (forall a st' c, job (gw_store g) = Ok (a, st') -> row_goes id c (f a c) (gw_store g) st') ->
  (forall st, gate_inv id su st -> gate_inv id (at_phase su next) st /\ gate_inv id (at_phase su otherwise) st) ->
  next <> PhSubmitted -> next <> PhEnded -> otherwise <> PhSubmitted -> otherwise <> PhEnded ->
  awaiting_of (at_phase su next) = awaiting_of su -> awaiting_of (at_phase su otherwise) = awaiting_of su ->
  (phase_inv (gc_max_output_bytes config) (su_phase su) ->
   phase_inv (gc_max_output_bytes config) next /\ phase_inv (gc_max_output_bytes config) otherwise) ->
  (forall c, phase_inv (gc_max_output_bytes config) (su_phase su) -> row_inv (gc_max_output_bytes config) (su_phase su) c ->
   (forall a, row_inv (gc_max_output_bytes config) next (f a c))
   /\ (lost = true \/ row_inv (gc_max_output_bytes config) otherwise c)) ->
  gw_inv config (row_write io job id su next otherwise lost g).
Proof.
  intros Hi Hsu Hj Hg N1 N2 O1 O2 A1 A2 Hk Hr.
  pose proof (gi_task _ _ Hi id su Hsu) as T. destruct (ti_row _ _ _ _ _ _ _ T) as (c & Hc & Hrow).
  pose proof (ti_phase _ _ _ _ _ _ _ T) as Hph. destruct (Hk Hph) as [K1 K2].
  apply inv_row_write; [done|done| |].
  - intros a st' E. destruct (Hj a st' c E Hc) as [Ec Ep]. split; [done|].
    split; [by eapply others_same|].
    eapply (task_advance config (gw_store g) st' _ _ _ _ _ id su next (f a c)); try done.
    + apply Hg.
    + by rewrite Ec, lookup_insert_eq.
    + intros Hn. by apply Hr, Hrow.
    + by left.
  - eapply (task_advance config (gw_store g) (gw_store g) _ _ _ _ _ id su otherwise c); try done.
    + apply Hg.
    + intros Hn. destruct (proj2 (Hr c Hph (Hrow ltac:(tauto)))) as [?|?]; [tauto|done].
    + by left.
Qed.

Lemma status_event_goes id kind event_id now c st e st' :
  publish_status_event json_valid external event_payload id kind event_id now st = Ok (e, st') ->
  row_goes id c c st st'.
Proof.
  intros H Hc. pose proof (append_event_cmds _ _ _ _ _ _ _ _ _ _ _ _ H) as E.
  pose proof (append_event_perms _ _ _ _ _ _ _ _ _ _ _ _ H) as P. split; [|done].
  unfold cmds_eq in E. by rewrite insert_id.
Qed.

Lemma cleared_asked id su st : cleared id su st -> su_permission su = None \/ asked id su st.
Proof. intros [[? _]|(pid & ? & ? & _)]; [by left|right]. by exists pid. Qed.

(** The bookkeeping every move within the task shares. *)
Local Ltac row_step Eph :=
  try (unfold awaiting_of; simpl; rewrite Eph; done);
  try (intros st; unfold gate_inv at 1; rewrite Eph; intros Hgate; split; unfold gate_inv; simpl;
       first [exact Hgate | right; exact Hgate | exact (cleared_asked _ _ _ Hgate)]);
  try rewrite Eph.

(** The phases that write the row and go on. *)
Lemma inv_writes id i g g' su :
  gw_inv config g -> gw_tasks g !! id = Some su -> step id i g = Some g' ->
  match i with
  | IFinalize _ _ _ | ISpawnFailure _ _ _ _ | IStatusEvent _ _ _ | IPersistFinish _ _ _
  | IProgress _ _ _ | IFinish _ _ _ _ => gw_inv config g'
  | _ => True
  end.
Proof.
  intros Hi Hsu. unfold sup_step. rewrite Hsu.
  destruct i; try done; destruct (su_phase su) eqn:Eph; try done.
  - intros [= <-].
    eapply (inv_own_write _ _ _ _ _ _ _ (fun _ => finished_row status None None now)); try done; row_step Eph.
    + intros a st' c. apply finalize_goes.
    + intros c Hs [_ Hb]. split; [|by left]. intros _. split; [|simpl; lia].
      destruct Hs as [-> | ->]; split; simpl; eauto.
  - intros [= <-].
    eapply (inv_own_write _ _ _ _ _ _ _ (fun _ => finished_row CsFailed None None now)); try done; row_step Eph.
    + intros a st' c. apply spawn_failure_goes.
    + intros c _ [_ Hb]. split; [|by left]. intros _. split; [|simpl; lia]. split; simpl; eauto.
  - intros [= <-]. unfold after_started. destruct (ad_review_flagged (su_admission su));
      eapply (inv_own_write _ _ _ _ _ _ _ (fun _ c => c)); try done; row_step Eph;
      try (intros a st' c; apply status_event_goes).
    + intros c _ Hc. by split; [|right].
    + simpl. intros _. split; [split; [done|lia]|done].
    + intros c _ [Hs Hb]. simpl. split; [|by right]. intros _. repeat split; done || lia.
  - intros [= <-].
    eapply (inv_own_write _ _ _ _ _ _ _ (fun _ c => c)); try done; row_step Eph.
    + intros a st' c. apply status_event_goes.
    + simpl. intros _. split; [split; [done|lia]|done].
    + intros c _ [Hs Hb]. simpl. split; [|by right]. intros _. repeat split; done || lia.
  - intros [= <-].
    eapply (inv_own_write _ _ _ _ _ _ _ (fun _ => finished_row CsFailed None duration_ms now)); try done; row_step Eph.
    + intros a st' c. apply update_goes.
    + intros c _ [_ Hb]. split; [|by left]. intros _. split; [|simpl; lia]. split; simpl; eauto.
  - destruct (cancel_flagged id g); [done|]. intros [= <-].
    eapply (inv_own_write _ _ _ _ _ _ _ (fun e => progress_row (e_created_at e))); try done; row_step Eph.
    + intros a st' c. apply progress_goes.
    + intros c _ Hc. by split; [|right].
  - intros [= <-].
    eapply (inv_own_write _ _ _ _ _ _ _ (fun _ => finished_row (settle_outcome_row outcome).1.1.1.1
      (settle_outcome_row outcome).1.1.1.2 duration_ms now)); try done; row_step Eph.
    + intros a st' c. apply finish_goes.
    + intros c _ [_ Hb]. split; [|by left]. intros _. split; [|simpl; lia].
      split; [|by simpl; eauto]. destruct outcome; simpl; [case_bool_decide|..]; simpl; by auto.
Qed.

Lemma inv_drain id su k o g :
  gw_inv config g -> gw_tasks g !! id = Some su -> su_phase su = PhRunning k ->
  gw_inv config (goto id su (PhDraining k o) g).
Proof.
  intros Hi Hsu Eph. pose proof (gi_task _ _ Hi id su Hsu) as T. apply inv_move; [done..|].
  destruct (ti_row _ _ _ _ _ _ _ T) as (c & Hc & Hr). pose proof (ti_phase _ _ _ _ _ _ _ T) as Hk.
  rewrite Eph in Hr, Hk.
  eapply (task_advance config (gw_store g) (gw_store g) _ _ _ _ _ id su _ c); try done; row_step Eph.
  - unfold gate_inv. by rewrite Eph.
  - by left.
Qed.

(** The phases that only decide. *)
Lemma inv_decides id i g g' su :
  gw_inv config g -> gw_tasks g !! id = Some su -> step id i g = Some g' ->
  match i with
  | IAnswer | ICancelSeen | IWaiterLost | ICancel _ | ITimeout _ | IWait _ | IDrained => gw_inv config g'
  | _ => True
  end.
Proof.
  intros Hi Hsu. unfold sup_step. rewrite Hsu.
  pose proof (gi_task _ _ Hi id su Hsu) as T. pose proof (ti_gate _ _ _ _ _ _ _ T) as G.
  destruct (ti_row _ _ _ _ _ _ _ T) as (c & Hc & Hr). pose proof (ti_phase _ _ _ _ _ _ _ T) as Hk.
  destruct i; try done; destruct (su_phase su) eqn:Eph; try done; unfold gate_inv in G; rewrite Eph in G.
  - destruct G as (pid & Hp & _). rewrite Hp. simpl.
    destruct (sv_inbox (gw_svc g) !! pid) as [o|] eqn:Eo; intros [= <-].
    eapply inv_after_answer; [done..|]. by apply (proj2 (gi_agree _ _ Hi)).
  - destruct G as (pid & Hp & _).
    destruct (gw_running g !! id) as [[]|]; intros H; simplify_eq.
    + by apply (inv_after_answer config id su
        (PermissionService.Canceled PERMISSION_REASON_COMMAND_CANCELED) pid g).
    + by apply (inv_after_answer config id su Expired pid g).
  - destruct G as (pid & Hp & _). rewrite Hp. case_bool_decide; intros H'; simplify_eq.
    by apply (inv_after_answer config id su Expired pid g).
  - destruct (cancel_flagged id g); intros [= <-]. by eapply inv_drain.
  - destruct (cancel_flagged id g); intros [= <-]. by eapply inv_drain.
  - destruct (cancel_flagged id g); intros [= <-]. by eapply inv_drain.
  - intros [= <-]. apply inv_move; [done..|].
    eapply (task_advance config (gw_store g) (gw_store g) _ _ _ _ _ id su _ c); try done; row_step Eph.
    + intros (Hs & Hm & Hu & Hb)%Hr. split; [done|]. simpl. lia.
    + by left.
Qed.

Lemma inv_start_failed id su g :
  gw_inv config g -> gw_tasks g !! id = Some su -> su_phase su = PhStart ->
  gw_inv config (failed id (goto id su (PhDeregister PERMISSION_REASON_START_FAILED) g)).
Proof.
  intros Hi Hsu Eph. pose proof (gi_task _ _ Hi id su Hsu) as T.
  destruct (ti_row _ _ _ _ _ _ _ T) as (c & Hc & Hr). rewrite <- (set_store_same g).
  apply (inv_goto config id su _ (gw_store g) true false g); [done..|].
  eapply (task_advance config (gw_store g) (gw_store g) _ _ _ _ _ id su _ c); try done.
  - unfold gate_inv. rewrite Eph. intros H%cleared_asked. exact H.
  - unfold awaiting_of. by rewrite Eph.
  - intros Hn. tauto.
  - intros [?|?]; [done|by left].
Qed.

Lemma inv_start id io now spawns g g' su :
  gw_inv config g -> gw_tasks g !! id = Some su -> step id (IStart io now spawns) g = Some g' -> gw_inv config g'.
Proof.
  intros Hi Hsu. unfold sup_step. rewrite Hsu.
  pose proof (gi_task _ _ Hi id su Hsu) as T. destruct (ti_row _ _ _ _ _ _ _ T) as (c & Hc & Hr).
  destruct (su_phase su) eqn:Eph; try done. unfold write_job.
  destruct io; [destruct (start_command external id now (gw_store g)) as [[u st']|] eqn:Es|].
  - destruct (update_goes _ _ _ _ c _ _ _ Es Hc) as [Ec Ep].
    assert (forall ph (lost child : bool), ph = PhSpawned \/ ph = PhSpawnFailed ->
      task_inv config st' (gw_awaiting g !! id) (lost = true \/ id ∈ gw_failed g)
        (child = true \/ id ∈ gw_spawned g) id (at_phase su ph)) as Ht.
    { intros ph lost child Hph.
      eapply (task_advance config (gw_store g) st' _ _ _ _ _ id su ph (started_row now c)); try done.
      - unfold gate_inv. rewrite Eph. by destruct Hph as [-> | ->].
      - by destruct Hph as [-> | ->].
      - by destruct Hph as [-> | ->].
      - unfold awaiting_of. rewrite Eph. by destruct Hph as [-> | ->].
      - by destruct Hph as [-> | ->].
      - by rewrite Ec, lookup_insert_eq.
      - intros Hn. destruct (Hr ltac:(tauto)) as [_ Hb]. by destruct Hph as [-> | ->].
      - intros _. right. eapply cleared_kept; [by apply perms_kept_same, Ep|].
        pose proof (ti_gate _ _ _ _ _ _ _ T) as G. unfold gate_inv in G. by rewrite Eph in G. }
    intros [= <-]. destruct spawns.
    + apply (inv_goto config id su PhSpawned st' false true g); [done..|by eapply others_same|].
      apply Ht. by left.
    + apply (inv_goto config id su PhSpawnFailed st' false false g); [done..|by eapply others_same|].
      apply Ht. by right.
  - intros [= <-]. by apply inv_start_failed.
  - intros [= <-]. by apply inv_start_failed.
Qed.

Lemma inv_chunk id io1 io2 stream data e1 e2 now g g' su :
  gw_inv config g -> gw_tasks g !! id = Some su ->
  step id (IChunk io1 io2 stream data e1 e2 now) g = Some g' -> gw_inv config g'.
Proof.
  intros Hi Hsu. unfold sup_step. rewrite Hsu.
  pose proof (gi_task _ _ Hi id su Hsu) as T. destruct (ti_row _ _ _ _ _ _ _ T) as (c & Hc & Hr).
  pose proof (ti_phase _ _ _ _ _ _ _ T) as Hk.
  assert (forall k, phase_inv (gc_max_output_bytes config) (PhRunning k) -> su_phase su = PhRunning k \/ (exists o, su_phase su = PhDraining k o) ->
    forall ph ok k' st', handle_chunk_io json_valid external output_payload event_payload io1 io2 id stream data
      e1 e2 now k (gw_store g) = (ok, k', st') ->
    ph = PhRunning k' /\ su_phase su = PhRunning k \/ (exists o, ph = PhDraining k' o) \/ (exists o, ph = PhFinishing o) ->
    gw_inv config (goto id su ph (set_store st' g))) as Hgen.
  { intros k [Hm Hu] Hph ph ok k' st' E Hn.
    destruct (handle_chunk_goes _ _ _ _ _ _ _ _ _ _ _ _ _ _ _ _ _ _ E Hc ltac:(lia))
      as (Ep & c' & Ec & Hst & Hfin & Hused & Hmax & Hbytes).
    apply (inv_goto config id su ph st' false false g); [done..|by eapply others_same|].
    eapply (task_advance config (gw_store g) st' _ _ _ _ _ id su ph c'); try done.
    - unfold gate_inv. destruct Hph as [->|[o ->]]; by destruct Hn as [[-> _]|[[? ->]|[? ->]]].
    - by destruct Hn as [[-> _]|[[? ->]|[? ->]]].
    - by destruct Hn as [[-> _]|[[? ->]|[? ->]]].
    - unfold awaiting_of. destruct Hph as [->|[o ->]]; by destruct Hn as [[-> _]|[[? ->]|[? ->]]].
    - destruct Hn as [[-> _]|[[? ->]|[? ->]]]; simpl; repeat split; congruence || lia.
    - by rewrite Ec, lookup_insert_eq.
    - intros Hl. assert (row_inv (gc_max_output_bytes config) (su_phase su) c) as Hrow by (apply Hr; naive_solver).
      assert (c_status c = command_status_str CsRunning /\ c_output_bytes c <= Z.of_nat (oc_used k)) as [Hs Hb]
        by (destruct Hph as [E1|[o E1]]; rewrite E1 in Hrow; by destruct Hrow as (? & _ & _ & ?)).
      destruct Hn as [[-> _]|[[? ->]|[? ->]]]; simpl; rewrite Hst; repeat split; first [exact Hs | congruence | lia].
    - naive_solver. }
  destruct (su_phase su) eqn:Eph; try done.
  - destruct (cancel_flagged id g); [done|].
    destruct (handle_chunk_io _ _ _ _ _ _ _ _ _ _ _ _ _ _) as [[ok k'] st'] eqn:E. intros [= <-].
    eapply Hgen; [exact Hk|by left|exact E|]. destruct ok; by eauto.
  - destruct (handle_chunk_io _ _ _ _ _ _ _ _ _ _ _ _ _ _) as [[ok k'] st'] eqn:E. intros [= <-].
    eapply Hgen; [exact Hk|by eauto|exact E|]. destruct ok; by eauto.
Qed.

Lemma request_row id ad expires_at pid now st r st' :
  insert_request_job json_valid external (command_permission detail_json id ad) expires_at pid now st = Ok (r, st') ->
  about (pr_id r) id st' /\ perms_kept st st'.
Proof.
  intros (Hn & -> & E & _)%append_permission_request_run. split.
  - eexists. split; [rewrite E; apply lookup_insert_eq|done].
  - by eapply perms_kept_insert.
Qed.

Lemma inv_request id io expires_at pid now g g' su :
  gw_inv config g -> gw_tasks g !! id = Some su ->
  step id (IRequest io expires_at pid now) g = Some g' -> gw_inv config g'.
Proof.
  intros Hi Hsu. unfold sup_step. rewrite Hsu.
  pose proof (gi_task _ _ Hi id su Hsu) as T. destruct (su_phase su) eqn:Eph; try done.
  pose proof (ti_gate _ _ _ _ _ _ _ T) as G. unfold gate_inv in G. rewrite Eph in G.
  pose proof (ti_needs _ _ _ _ _ _ _ T) as N. unfold needs_inv in N. rewrite Eph in N.
  destruct (ti_row _ _ _ _ _ _ _ T) as (c & Hc & Hr). rewrite Eph in Hr.
  assert (id ∉ gw_spawned g) as Hns.
  { intros H%(ti_child _ _ _ _ _ _ _ T). destruct H as [[_ ?]|(p & ? & _)]; congruence. }
  pose proof (ti_await _ _ _ _ _ _ _ T) as A. unfold awaiting_of in A. rewrite Eph in A.
  destruct (write_job _ _ _) as [[r st']|e] eqn:E; intros [= <-].
  - unfold write_job in E. destruct io; [|done].
    pose proof (insert_request_cmds _ _ _ _ _ _ _ _ _ E) as Ec. unfold cmds_eq in Ec.
    destruct (request_row _ _ _ _ _ _ _ _ E) as [Hab Hk].
    eapply (gw_inv_moved config id g); [done|..].
    + split; [done|]. intros j Hj. simpl. rewrite lookup_insert_ne by done. unfold gw_store. simpl.
      by rewrite Ec.
    + eapply (agree_env_step json_valid external decision_payload); [|apply (gi_agree _ _ Hi)]. by eapply es_request.
    + apply lookup_insert_eq.
    + split; simpl; try done.
      * by exists (pr_id r).
      * exists c. unfold gw_store. simpl. by rewrite Ec.
      * apply (ti_admitted _ _ _ _ _ _ _ T).
  - rewrite <- (set_store_same g). apply (inv_goto config id su PhAbandoned (gw_store g) true false g); [done..|].
    eapply (task_advance config (gw_store g) (gw_store g) _ _ _ _ _ id su _ c); try done.
    + unfold awaiting_of. by rewrite Eph.
    + intros Hn. tauto.
    + intros [?|?]; done.
Qed.

Lemma inv_requested id g g' su :
  gw_inv config g -> gw_tasks g !! id = Some su -> step id IRequested g = Some g' -> gw_inv config g'.
Proof.
  intros Hi Hsu. unfold sup_step. rewrite Hsu.
  pose proof (gi_task _ _ Hi id su Hsu) as T. destruct (su_phase su) eqn:Eph; try done.
  destruct (su_permission su) as [pid|] eqn:Ep; [|done]. destruct (request_returned _ _); [|done].
  destruct T as [G N C A K (c & Hc & Hr) Ch Ad].
  unfold gate_inv in G. rewrite Eph in G, Hr. intros [= <-].
  eapply (gw_inv_moved config id g); [done|..].
  - split; [done|]. intros j Hj. simpl. by rewrite !lookup_insert_ne.
  - apply (gi_agree _ _ Hi).
  - apply lookup_insert_eq.
  - split; simpl; try done.
    + rewrite lookup_insert_eq. unfold awaiting_of. simpl. by rewrite Ep.
    + by exists c.
Qed.

(** What the end of a task needs. *)
Lemma inv_ended id su reason g g' :
  gw_inv config g -> gw_tasks g !! id = Some su -> su_phase su = PhDeregister reason ->
  moved id g g' -> agree_inv (gw_svc g') -> gw_tasks g' !! id = Some (at_phase su PhEnded) ->
  gw_awaiting g' !! id = None -> (id ∈ gw_spawned g' -> id ∈ gw_spawned g) ->
  (id ∉ gw_failed g' -> id ∉ gw_failed g) ->
  st_commands (gw_store g') !! id = st_commands (gw_store g) !! id ->
  (id ∉ gw_failed g' -> forall pid, su_permission su = Some pid -> row_closed pid (gw_store g')) ->
  gw_inv config g'.
Proof.
  intros Hi Hsu Eph Hm Ha Ht Haw Hsp Hfl Hcm Hcl.
  pose proof (gi_task _ _ Hi id su Hsu) as T. pose proof (mv_perms _ _ _ Hm) as Hk.
  eapply (gw_inv_moved config id g g'); [done..|].
  destruct T as [G _ _ _ _ (c & Hc & Hr) Ch Ad]. unfold gate_inv in G. rewrite Eph in G, Hr.
  split; simpl; try done.
  - destruct G as [?|G]; [by left|right]. by eapply asked_kept in G.
  - exists c. split; [by rewrite Hcm|]. intros Hl. by apply Hr, Hfl.
  - intros H%Hsp%Ch. by eapply cleared_kept in H.
Qed.

(** The end without a decision: either the row is decided already or the
    teardown's write is lost. *)
Lemma inv_ended_undecided id su reason (lost : bool) g :
  gw_inv config g -> gw_tasks g !! id = Some su -> su_phase su = PhDeregister reason ->
  (lost = false -> forall pid, su_permission su = Some pid -> row_closed pid (gw_store g)) ->
  gw_inv config (mark_lost lost id (goto id su PhEnded (set_awaiting (delete id (gw_awaiting g))
    (set_running (delete id (gw_running g)) g)))).
Proof.
  intros Hi Hsu Eph Hb. eapply (inv_ended id su reason g); [done..| | | | | | | |].
  - split; [by destruct lost|]. intros j Hj. destruct lost; simpl; rewrite lookup_insert_ne, lookup_delete_ne by done;
      rewrite ?elem_of_union, ?elem_of_singleton; naive_solver.
  - destruct lost; apply (gi_agree _ _ Hi).
  - destruct lost; apply lookup_insert_eq.
  - destruct lost; apply lookup_delete_eq.
  - by destruct lost.
  - destruct lost; simpl; set_solver.
  - by destruct lost.
  - intros Hl. destruct lost; [simpl in Hl; set_solver|by apply Hb].
Qed.

(** Tearing down settles the request, unless that write is lost. *)
Lemma inv_deregister id io reason did eid now at1 at2 g su :
  gw_inv config g -> gw_tasks g !! id = Some su -> su_phase su = PhDeregister reason ->
  gw_inv config (deregister json_valid external decision_payload io id su reason did eid now at1 at2 g).
Proof.
  intros Hi Hsu Eph. pose proof (gi_task _ _ Hi id su Hsu) as T.
  pose proof (ti_await _ _ _ _ _ _ _ T) as A. unfold awaiting_of in A. rewrite Eph in A.
  pose proof (ti_gate _ _ _ _ _ _ _ T) as G. unfold gate_inv in G. rewrite Eph in G.
  unfold deregister. simpl. rewrite A. destruct (su_permission su) as [pid|] eqn:Ep.
  2:{ pose proof (inv_ended_undecided id su reason false g Hi Hsu Eph ltac:(by rewrite Ep)) as H.
      simpl in H. by rewrite delete_id in H by done. }
  destruct G as [?|(pid' & Hp' & r & Hr & _)]; [done|]. rewrite Ep in Hp'. injection Hp' as <-.
  destruct (write_job io _ _) as [[[d payload] st']|e] eqn:E.
  - unfold write_job in E. destruct io; [|done].
    pose proof (run_decide_cmds _ _ _ _ _ _ _ _ _ _ _ _ E) as Ec. unfold cmds_eq in Ec. simpl in Ec.
    pose proof (run_decide_kept _ _ _ _ _ _ _ _ _ _ _ _ _ E) as Hk.
    eapply (inv_ended id su reason g); [done..| | | | | | | |].
    + split; [done|]. intros j Hj. simpl. rewrite lookup_insert_ne, lookup_delete_ne by done.
      unfold gw_store in *. simpl in *. by rewrite Ec.
    + eapply (agree_env_step json_valid external decision_payload); [|apply (gi_agree _ _ Hi)].
      by eapply es_resolve.
    + apply lookup_insert_eq.
    + apply lookup_delete_eq.
    + done.
    + done.
    + unfold gw_store in *. simpl in *. by rewrite Ec.
    + rewrite Ep. intros _ pid'' [= <-]. apply decide_job_run in E as (r' & _ & _ & E2).
      exists PsCanceled. split; [|done]. unfold row_status, gw_store. simpl. rewrite E2. simpl.
      by rewrite lookup_insert_eq.
  - destruct e; try (by apply (inv_ended_undecided id su reason true)).
    apply (inv_ended_undecided id su reason false); [done..|]. rewrite Ep. intros _ pid'' [= <-].
    unfold write_job in E. destruct io; [|done]. exists (from_wire (pr_status r)).
    unfold row_status. rewrite Hr. split; [done|]. intros Hpend.
    eapply (decide_job_late json_valid external decision_payload pid); [exact E|exact Hr|].
    unfold pending_row. by rewrite Hpend.
Qed.

Lemma sup_step_inv id i g g' : gw_inv config g -> step id i g = Some g' -> gw_inv config g'.
Proof.
  intros Hi H. destruct (gw_tasks g !! id) as [su|] eqn:Hsu; [|unfold sup_step in H; by rewrite Hsu in H].
  pose proof (inv_writes id i g g' su Hi Hsu H) as H1. pose proof (inv_decides id i g g' su Hi Hsu H) as H2.
  destruct i; try done.
  - by eapply inv_request.
  - by eapply inv_requested.
  - by eapply inv_start.
  - by eapply inv_chunk.
  - unfold sup_step in H. rewrite Hsu in H. destruct (su_phase su) eqn:Eph; try done. injection H as <-.
    by eapply inv_deregister.
Qed.

Lemma submit_inv ad new_id now g g' :
  evaluate_policy (ad_command ad) (gc_permissions config) = ad_decision ad ->
  approval_gate (gc_mode config) (ad_decision ad) = Some (ad_needs_approval ad) ->
  gw_inv config g -> submit_row json_valid external ad new_id now g = Some g' -> gw_inv config g'.
Proof.
  intros Hpol Hgate Hi. unfold submit_row.
  destruct (append_command _ _ _ _ _ _) as [[r st']|] eqn:E; [|done]. intros [= <-].
  apply append_command_run in E as (Hn & Er & Ec & Ep).
  assert (gw_tasks g !! new_id = None) as Ht.
  { destruct (gw_tasks g !! new_id) as [su|] eqn:Hsu; [|done].
    destruct (ti_row _ _ _ _ _ _ _ (gi_task _ _ Hi _ _ Hsu)) as (c & Hc & _). congruence. }
  destruct (gi_none _ _ Hi _ Ht) as [Ha Hs].
  eapply (gw_inv_moved config new_id g); [done|..].
  - split; [by apply perms_kept_same, Ep|]. intros j Hj. simpl. rewrite lookup_insert_ne by done.
    unfold gw_store. simpl. by rewrite Ec, lookup_insert_ne.
  - apply agree_store; [done|apply (gi_agree _ _ Hi)].
  - apply lookup_insert_eq.
  - split; simpl; try done.
    + destruct (ad_needs_approval ad) eqn:Ena; unfold gate_inv; simpl; [done|]. by left.
    + by destruct (ad_needs_approval ad) eqn:Ena.
    + by destruct (ad_needs_approval ad).
    + rewrite Ha. by destruct (ad_needs_approval ad).
    + by destruct (ad_needs_approval ad).
    + exists r. unfold gw_store. simpl. rewrite Ec, lookup_insert_eq. split; [done|]. intros _. rewrite Er.
      by destruct (ad_needs_approval ad).
Qed.
Context {F : Type} `{!FileSystem F} (names_json : list string -> string).

Lemma submit_checks_admits fs1 fs2 fs3 sandbox request ad :
  submit_checks names_json config fs1 fs2 fs3 sandbox request = Ok ad ->
  ad_command ad = sr_command request
  /\ evaluate_policy (ad_command ad) (gc_permissions config) = ad_decision ad
  /\ approval_gate (gc_mode config) (ad_decision ad) = Some (ad_needs_approval ad).
Proof.
  unfold submit_checks. destruct (approval_gate _ _) as [b|] eqn:Eg; [|done].
  intros H. repeat case_match; by simplify_eq.
Qed.

Local Notation gstep := (gw_step (F := F) json_valid external names_json config detail_json output_payload
  progress_payload event_payload finish_payload created_payload decision_payload timeout_action).

Lemma gw_step_inv g g' : gstep g g' -> gw_inv config g -> gw_inv config g'.
Proof.
  intros [g0 fs1 fs2 fs3 sandbox request ad new_id now g1 Hs Hr|g0 id i g1 H|g0 id|g0 s' H Ho] Hi.
  - apply submit_checks_admits in Hs as (_ & Hp & Hg). by eapply submit_inv.
  - by eapply sup_step_inv.
  - unfold signal_cancel. destruct (gw_running g0 !! id); [|done]. by destruct Hi.
  - pose proof (svc_step_kept _ _ _ _ _ _ _ H) as Hk. destruct Hi as [Ha T N]. split; simpl; [|..|done].
    + destruct H as [H|H]; [by eapply agree_task_step|by eapply agree_env_step].
    + intros id su Hsu. eapply task_inv_frame; [exact Hk|apply Ho; by eexists|done|done|done|by apply T].
Qed.

Lemma gw_inv_init st : gw_inv config (gw_init st).
Proof. split; simpl; [split; [constructor|]; by intros id o|by intros id su|by intros id]. Qed.

Lemma reachable_gw_inv st g : rtc gstep (gw_init st) g -> gw_inv config g.
Proof.
  intros H. remember (gw_init st) as g0 eqn:E. assert (gw_inv config g0) as Hi by (subst; apply gw_inv_init).
  clear E. induction H as [|a b c Hs _ IH]; [done|]. by apply IH, (gw_step_inv a).
Qed.

(** C2. No command runs without the approval its policy asks for. Whatever the
    interleaving of submissions, cancels, deciders, timers and lost writes, a
    command that ever had a child was not denied by the static policy; and if
    the mode and the policy's verdict call for approval, a permission request
    of the gateway about this very command stands approved in the store. *)
Theorem no_unapproved_spawn st g id :
  rtc gstep (gw_init st) g -> id ∈ gw_spawned g ->
  exists su, gw_tasks g !! id = Some su
  /\ (let verdict := evaluate_policy (ad_command (su_admission su)) (gc_permissions config) in
      verdict <> Deny
      /\ (approval_gate (gc_mode config) verdict = Some true ->
          exists pid, su_permission su = Some pid /\ about pid id (gw_store g)
                      /\ row_status pid (gw_store g) = Some PsApproved)).
Proof.
  intros Hi%reachable_gw_inv Hs. destruct (gw_tasks g !! id) as [su|] eqn:Hsu.
  2:{ by destruct (gi_none _ _ Hi id Hsu) as [_ ?]. }
  exists su. split; [done|]. pose proof (gi_task _ _ Hi id su Hsu) as T.
  destruct (ti_admitted _ _ _ _ _ _ _ T) as [Hp Hg]. cbv zeta. rewrite Hp, Hg.
  split; [by intros E; rewrite E in Hg|]. intros [= Hn].
  destruct (ti_child _ _ _ _ _ _ _ T Hs) as [[_ ?]|H]; [congruence|exact H].
Qed.

(** C3. A command's row follows its task, for every command none of whose
    writes were lost: it is pending until the task starts it, running while the
    child may run, and settled with a finish time once the task deregisters; it
    never counts more output than the configured cap; and when the task has
    ended no permission request of the command can still be approved. *)
Theorem command_row_follows_task st g id su :
  rtc gstep (gw_init st) g -> gw_tasks g !! id = Some su -> id ∉ gw_failed g ->
  (exists c, st_commands (gw_store g) !! id = Some c
     /\ c_output_bytes c <= Z.of_nat (gc_max_output_bytes config)
     /\ match su_phase su with
        | PhSubmitted | PhRequesting | PhAwait | PhRefused _ _ _ | PhStart => c_status c = "pending"%string
        | PhDeregister _ | PhEnded => settled_row c
        | _ => c_status c = "running"%string
        end)
  /\ (su_phase su = PhEnded -> gw_awaiting g !! id = None
      /\ forall pid, su_permission su = Some pid ->
         about pid id (gw_store g) /\ row_closed pid (gw_store g)).
Proof.
  intros Hi%reachable_gw_inv Hsu Hf. destruct (gi_task _ _ Hi id su Hsu) as [G _ C A _ (c & Hc & Hr) _ _].
  specialize (Hr Hf). specialize (C Hf). split.
  - exists c. split; [done|]. destruct (su_phase su); simpl in Hr; try done;
      repeat match goal with H : _ /\ _ |- _ => destruct H end; split; done || lia.
  - intros Eph. unfold gate_inv, closed_inv, awaiting_of in *. rewrite Eph in *. split; [done|].
    intros pid Hpid. split; [|by apply C]. destruct G as [?|(pid' & Hp & Ha)]; congruence.
Qed.
End steps.

(** ** A small run: a locked daemon asks before [ls] and an operator approves *)

#[export] Instance demo_fs : FileSystem unit := {
  fs_canonicalize _ _ := Some [lit "w"];
  fs_metadata _ _ := Some (true, mkIdentity 1 2);
  fs_open_dir _ _ := Some (mkIdentity 1 2);
}.

Definition demo_config : GatewayConfig :=
  mkConfig {| p_review := []; p_deny := [lit "rm *"] |} "locked" (lit "/w") [] (lit "10m") (lit "5s")
    (lit "30s") 1024.
Definition demo_json : string := "{}".
Definition demo_gw_step : Gw -> Gw -> Prop :=
  gw_step (F := unit) (fun _ => true) true (fun _ => demo_json) demo_config (fun _ => demo_json)
    (fun _ _ _ _ => demo_json) (fun _ => demo_json) (fun _ _ _ => demo_json) (fun _ _ _ _ _ _ => demo_json)
    (fun _ => demo_json) (fun _ _ _ => demo_json) TimeoutDeny.
Definition demo_sup (i : Input) (g : Gw) : option Gw :=
  sup_step (fun _ => true) true demo_config (fun _ => demo_json) (fun _ _ _ _ => demo_json)
    (fun _ => demo_json) (fun _ _ _ => demo_json) (fun _ _ _ _ _ _ => demo_json) (fun _ _ _ => demo_json)
    "cmd_1" i g.
Definition demo_task (i : Input) (g : Gw) : Gw := default g (demo_sup i g).

Definition demo_submit : SubmitRequest := mkSubmit (lit "ls") None None None.
Definition demo_admission : option Admission :=
  match submit_checks (fun _ => demo_json) demo_config tt tt tt true demo_submit with
  | Ok ad => Some ad
  | Err _ => None
  end.
Definition demo_submitted : Gw :=
  default (gw_init empty_store)
    (demo_admission ≫= fun ad => submit_row (fun _ => true) true ad "cmd_1" "t0" (gw_init empty_store)).
Definition demo_requesting : Gw := demo_task (IRequest true None "perm_1" "t0") demo_submitted.
Definition demo_row : PermissionRequestRecord :=
  mkPermission "perm_1" "t0" "t0" "pending" "command" (Some "command:cmd_1"%string) (Some "cmd_1"%string)
    demo_json None.

Definition demo_registered : Gw :=
  set_svc (register "perm_1" (with_tasks [TCreated demo_row] (gw_svc demo_requesting))) demo_requesting.
Definition demo_created : Gw :=
  set_svc (live "perm_1" "permission.created" demo_json
    (with_store (gw_store demo_registered) (with_tasks [TReread "perm_1"] (gw_svc demo_registered))))
    demo_registered.
Definition demo_timed : Gw := set_svc (with_tasks [TTimer "perm_1"] (gw_svc demo_created)) demo_created.
Definition demo_waiting : Gw := demo_task IRequested demo_timed.
Definition demo_approval : M (PermissionDecisionRecord * string) :=
  run_decide (fun _ => true) true (fun _ _ _ => demo_json)
    (resolve "perm_1" (Approved None None) "admin" None) "pdec_1" "evt_1" "t1" "t1" "t1".
Definition demo_answer : Task :=
  TAnswer "perm_1" (Approved None None) (outcome_kind (Approved None None)) demo_json.
Definition demo_decided : Gw :=
  set_svc (with_store (exec demo_approval (gw_store demo_waiting))
    (with_tasks ([TTimer "perm_1"] ++ [demo_answer]) (gw_svc demo_waiting))) demo_waiting.
Definition demo_answered : Gw :=
  set_svc (live "perm_1" (outcome_kind (Approved None None)) demo_json
    (fire "perm_1" (Approved None None) (with_tasks ([TTimer "perm_1"] ++ []) (gw_svc demo_decided)))) demo_decided.
Definition demo_cleared : Gw := demo_task IAnswer demo_answered.
Definition demo_child : Gw := demo_task (IStart true "t2" true) demo_cleared.

Lemma demo_svc_move g s' :
  svc_step (fun _ => true) true (fun _ => demo_json) (fun _ _ _ => demo_json) TimeoutDeny (gw_svc g) s' ->
  st_commands (sv_store s') = st_commands (gw_store g) -> demo_gw_step g (set_svc s' g).
Proof. intros H E. apply gs_svc; [done|]. intros id _. by rewrite E. Qed.

Lemma demo_task_move i g : bool_decide (is_Some (demo_sup i g)) = true -> demo_gw_step g (demo_task i g).
Proof.
  intros H. apply (gs_task _ _ _ _ _ _ _ _ _ _ _ _ g "cmd_1" i). unfold demo_task.
  change (demo_sup i g = Some (default g (demo_sup i g))). apply bool_decide_eq_true in H as [g' ->]. done.
Qed.

Lemma demo_child_reached : rtc demo_gw_step (gw_init empty_store) demo_child.
Proof.
  apply rtc_l with demo_submitted.
  { destruct demo_admission as [ad|] eqn:E; [|vm_compute in E; discriminate].
    eapply (gs_submit _ _ _ _ _ _ _ _ _ _ _ _ _ tt tt tt true demo_submit ad "cmd_1" "t0").
    - unfold demo_admission in E. destruct (submit_checks _ _ _ _ _ _ _); [by injection E as ->|done].
    - unfold demo_submitted. rewrite E. simpl.
      assert (is_Some (demo_admission ≫= fun ad =>
        submit_row (fun _ => true) true ad "cmd_1" "t0" (gw_init empty_store))) as [g Hg]
        by (vm_compute; eauto).
      rewrite E in Hg. simpl in Hg. by rewrite Hg. }
  apply rtc_l with demo_requesting; [apply demo_task_move; vm_compute; reflexivity|].
  apply rtc_l with demo_registered.
  { apply demo_svc_move; [|done]. left. by apply (ts_register (fun _ => true) true (fun _ => demo_json) (fun _ _ _ => demo_json) TimeoutDeny
      (gw_svc demo_requesting) [] [] demo_row). }
  apply rtc_l with demo_created.
  { apply demo_svc_move; [|done]. left.
    apply (ts_created (fun _ => true) true (fun _ => demo_json) (fun _ _ _ => demo_json) TimeoutDeny
      (gw_svc demo_registered) [] [] demo_row "evt_0" "t0" (gw_store demo_registered)); [done|by right]. }
  apply rtc_l with demo_timed.
  { apply demo_svc_move; [|done]. left. by apply (ts_reread (fun _ => true) true (fun _ => demo_json) (fun _ _ _ => demo_json) TimeoutDeny
      (gw_svc demo_created) [] [] "perm_1"). }
  apply rtc_l with demo_waiting; [apply demo_task_move; vm_compute; reflexivity|].
  apply rtc_l with demo_decided.
  { apply demo_svc_move; [|vm_compute; reflexivity]. right.
    apply (es_resolve _ _ _ (gw_svc demo_waiting) "perm_1" (Approved None None) "admin" None "pdec_1" "evt_1"
      "t1" "t1" "t1" (mkDecision "pdec_1" "perm_1" "t1" "approved" (Some "admin"%string) None) demo_json).
    vm_compute. reflexivity. }
  apply rtc_l with demo_answered.
  { apply demo_svc_move; [|vm_compute; reflexivity]. left.
    by apply (ts_answer (fun _ => true) true (fun _ => demo_json) (fun _ _ _ => demo_json) TimeoutDeny
      (gw_svc demo_decided) [TTimer "perm_1"] [] "perm_1"). }
  apply rtc_l with demo_cleared; [apply demo_task_move; vm_compute; reflexivity|].
  apply rtc_once, demo_task_move. vm_compute. reflexivity.
Qed.

Lemma no_unapproved_spawn_witness :
  exists su pid, gw_tasks demo_child !! "cmd_1"%string = Some su /\ su_permission su = Some pid
  /\ about pid "cmd_1" (gw_store demo_child) /\ row_status pid (gw_store demo_child) = Some PsApproved.
Proof.
  destruct (no_unapproved_spawn (fun _ => true) true demo_config (fun _ => demo_json)
    (fun _ _ _ _ => demo_json) (fun _ => demo_json) (fun _ _ _ => demo_json) (fun _ _ _ _ _ _ => demo_json)
    (fun _ => demo_json) (fun _ _ _ => demo_json) TimeoutDeny (F := unit) (fun _ => demo_json)
    empty_store demo_child "cmd_1" demo_child_reached) as (su & Hsu & _ & Hap).
  { apply (bool_decide_unpack _). vm_compute. exact I. }
  assert (Some (ad_command (su_admission su)) = Some (lit "ls")) as Ec.
  { transitivity ((fun su => ad_command (su_admission su)) <$> gw_tasks demo_child !! "cmd_1"%string);
      [by rewrite Hsu|vm_compute; reflexivity]. }
  injection Ec as Ec. rewrite Ec in Hap.
  destruct Hap as (pid & H1 & H2 & H3); [vm_compute; reflexivity|]. exists su, pid. auto.
Defined.

Lemma command_row_follows_task_witness :
  exists su c, gw_tasks demo_child !! "cmd_1"%string = Some su
  /\ st_commands (gw_store demo_child) !! "cmd_1"%string = Some c /\ c_status c = "running"%string.
Proof.
  assert (exists su, gw_tasks demo_child !! "cmd_1"%string = Some su /\ su_phase su = PhSpawned)
    as (su & Hsu & Hph) by (vm_compute; eauto).
  destruct (command_row_follows_task (fun _ => true) true demo_config (fun _ => demo_json)
    (fun _ _ _ _ => demo_json) (fun _ => demo_json) (fun _ _ _ => demo_json) (fun _ _ _ _ _ _ => demo_json)
    (fun _ => demo_json) (fun _ _ _ => demo_json) TimeoutDeny (F := unit) (fun _ => demo_json)
    empty_store demo_child "cmd_1" su demo_child_reached Hsu) as [(c & Hc & _ & Hs) _].
  { apply (bool_decide_unpack _). vm_compute. exact I. }
  rewrite Hph in Hs. exists su, c. auto.
Defined.
