(* ===== verification/Terminal.v ===== *)
(** Client terminals (src/src/runtime/agent/acp_terminal.rs): the registry, the
    task that owns each child, the five [terminal/*] handlers and the drain at
    shutdown.

    A creation, an owner and a handler are each a phase per await; their step
    functions say what they do from one await to the next on a given input. The
    child process, the clock, fresh ids and whether a write reaches the database
    are inputs. A terminal's place in [w_terminals] stands for its shared handle.
    Ghost fields: the text a terminal's buffer was given, and whether a write of
    its command row was lost. *)

From S2P Require Import Prelude Text Cwd Store SinkOutbox ChangeFeed SessionEvents CommandStore OutputStream CommandGateway.
From stdpp Require Import pretty.
Open Scope Z_scope.
Open Scope result_scope.

(** ** The rolling buffer *)

Definition DEFAULT_TERMINAL_OUTPUT_BYTE_LIMIT : Z := 1024 * 1024.
Definition MAX_TERMINAL_OUTPUT_BYTE_LIMIT : Z := 10 * 1024 * 1024.
Definition TERMINAL_FINISHED_OUTPUT_TAIL_BYTES : nat := 8 * 1024.

Definition effective_output_byte_limit (requested : option Z) : Z :=
  Z.min (default DEFAULT_TERMINAL_OUTPUT_BYTE_LIMIT requested) MAX_TERMINAL_OUTPUT_BYTE_LIMIT.

Record TerminalBuffer := mkBuffer { tb_data : str; tb_truncated : bool }.
Definition empty_buffer : TerminalBuffer := mkBuffer [] false.

(** [while cutoff < len && !is_char_boundary(cutoff) { cutoff += 1 }], with the
    distance to the end as fuel. *)
Fixpoint raise_cutoff (buffer : str) (cutoff fuel : nat) : nat :=
  match fuel with
  | O => cutoff
  | S fuel => if is_char_boundary buffer cutoff then cutoff else raise_cutoff buffer (S cutoff) fuel
  end.

Definition newest_cutoff (buffer : str) (limit : nat) : nat :=
  if (str_len buffer <=? limit)%nat then 0%nat
  else raise_cutoff buffer (str_len buffer - limit) limit.

(** [&s[i..]], for a char boundary [i]. *)
Fixpoint slice_tail (s : str) (i : nat) : str :=
  match s with
  | [] => []
  | c :: s' => if (i =? 0)%nat then s else slice_tail s' (i - len_utf8 c)
  end.

Definition keep_newest (buffer : str) (limit : nat) : str * bool :=
  let cutoff := newest_cutoff buffer limit in (slice_tail buffer cutoff, (0 <? cutoff)%nat).

Definition append_capped (chunk : str) (limit : nat) (b : TerminalBuffer) : TerminalBuffer :=
  let data := tb_data b ++ chunk in
  let cutoff := newest_cutoff data limit in
  if (0 <? cutoff)%nat then mkBuffer (slice_tail data cutoff) true else mkBuffer data (tb_truncated b).

(** ** Requests *)

Record EnvVariable := mkEnvVariable { ev_name : string; ev_value : string }.

Record CreateTerminalRequest := mkCreate {
  ct_session_id : string;
  ct_command : str;
  ct_args : list str;
  ct_env : list EnvVariable;
  ct_cwd : option str;
  ct_output_byte_limit : option Z;
}.

Definition terminal_invocation (shell command : str) (args : list str) : str * list str :=
  match args with [] => (shell, [lit "-c"; command]) | _ => (command, args) end.

Fixpoint join_space (args : list str) : str :=
  match args with [] => [] | [a] => a | a :: rest => a ++ lit " " ++ join_space rest end.

Definition render_command_line (command : str) (args : list str) : str :=
  match args with [] => command | _ => command ++ lit " " ++ join_space args end.

(** The names only, sorted. *)
Definition env_names_json (names_json : list string -> string) (env : list EnvVariable) : option string :=
  match env with [] => None | _ => Some (names_json (merge_sort String.le (ev_name <$> env))) end.

(** [path]: the managed PATH, where there is one that is text; a later variable
    replaces an earlier one. *)
Definition terminal_environment (path : option string) (workload_home : string) (agent_env : list EnvVariable)
  : gmap string string :=
  let env := match path with Some p => <["PATH" := p]> ∅ | None => ∅ end in
  foldl (fun m v => <[ev_name v := ev_value v]> m) (<["HOME" := workload_home]> env) agent_env.

Inductive AcpError := InvalidParams (reason : string) | InternalError | ResourceNotFound.

(** What a request that passed the checks carries on. *)
Record Checked := mkChecked {
  am_session : string;          (* the agent's session id *)
  am_local : string;            (* the local session *)
  am_cwd : string;
  am_program : str * list str;
  am_env : gmap string string;
  am_rendered : string;
  am_env_json : option string;
  am_limit : nat;
}.

Section create.
Context {F : Type} `{!FileSystem F}.
Context (names_json : list string -> string).

(** The checks of [handle_create_terminal]; [local] and [session_cwd] are the
    sink's answers. *)
Definition create_checks (workspace_root shell : str) (path : option string) (home : string)
    (local : option string) (session_cwd : option str) (fs1 fs2 fs3 : F) (request : CreateTerminalRequest)
  : result AcpError Checked :=
  match local with
  | None => Err (InvalidParams "unknown session")
  | Some local_session_id =>
      let requested_cwd := match ct_cwd request with Some p => p | None => default workspace_root session_cwd end in
      match resolve_cwd_under_workspace fs1 fs2 fs3 workspace_root requested_cwd with
      | Err _ => Err (InvalidParams "cwd")
      | Ok resolved =>
          if bool_decide (trim (ct_command request) = []) then Err (InvalidParams "`command` must not be empty")
          else Ok (mkChecked (ct_session_id request) local_session_id (utf8 (display_path resolved))
                 (terminal_invocation shell (ct_command request) (ct_args request))
                 (terminal_environment path home (ct_env request))
                 (utf8 (render_command_line (ct_command request) (ct_args request)))
                 (env_names_json names_json (ct_env request))
                 (Z.to_nat (effective_output_byte_limit (ct_output_byte_limit request))))
      end
  end.
End create.

(** ** State *)

Record ExitStatus := mkExit { xs_code : option Z; xs_signal : option string }.

(** [exit_status_of]: a negative code is no [u32]. *)
Definition exit_status_of (code : option Z) (signal : option string) : ExitStatus :=
  mkExit (code ≫= fun c => if 0 <=? c then Some c else None) signal.

(** How the select loop of the owner ended. *)
Record Ending := mkEnding { en_status : ExitStatus; en_canceled : bool; en_reason : option string }.

Definition ending_of_wait (w : WaitResult) : Ending :=
  match w with
  | WaitOk code signal => mkEnding (exit_status_of code signal) false None
  | WaitErr reason => mkEnding (mkExit None None) false (Some reason)
  end.

Definition ending_of_kill (k : GraceKillOutcome) : Ending :=
  match k with
  | ExitedWithinGrace (WaitOk code signal) => mkEnding (exit_status_of code signal) true None
  | ExitedWithinGrace (WaitErr reason) => mkEnding (mkExit None (Some "SIGTERM"%string)) false (Some reason)
  | KilledAfterGrace => mkEnding (mkExit None (Some GRACE_ESCALATION_SIGNAL)) true None
  end.

(** Status and event kind of the final row. *)
Definition final_status (e : Ending) : CommandStatus * string :=
  if en_canceled e then (CsCanceled, "command.cancelled"%string)
  else match xs_code (en_status e) with
       | Some 0 => (CsExited, "command.exited"%string)
       | _ => (CsFailed, "command.failed"%string)
       end.

(** [i32::try_from]. *)
Definition final_exit_code (e : Ending) : option Z :=
  if en_canceled e then None
  else xs_code (en_status e) ≫= fun c => if c <? 2 ^ 31 then Some c else None.

(** A child process: not waited for yet; reaped by a wait; or sent SIGKILL, with its
    process group, without a wait that returned its status. *)
Inductive Child := ChildRunning | ChildReaped | ChildKilled.

(** After the waiting is over: whatever is left of the group was sent SIGKILL. *)
Definition waited (returned : bool) : Child := if returned then ChildReaped else ChildKilled.

(** [kill_on_drop]. *)
Definition dropped (child : option Child) : option Child :=
  match child with Some ChildRunning => Some ChildKilled | child => child end.

Definition wait_returned (w : WaitResult) : bool := match w with WaitOk _ _ => true | WaitErr _ => false end.

(** [last_wait]: the wait after the escalation, whose failure is only logged. *)
Definition kill_returned (k : GraceKillOutcome) (last_wait : bool) : bool :=
  match k with ExitedWithinGrace w => wait_returned w | KilledAfterGrace => last_wait end.

Inductive OwnerPhase :=
| OwLoop                                        (* the select *)
| OwKilling                                     (* kill_with_grace *)
| OwDrain (ending : Ending)
| OwWrite (stream : string) (data : str) (back : OwnerPhase)  (* append_chunk's write *)
| OwFinish (ending : Ending)
| OwLifecycle (ending : Ending) (duration_ms : option Z)
| OwSession (ending : Ending) (duration_ms : option Z)
| OwPublish (ending : Ending)
| OwEnded.

Record Terminal := mkTerminal {
  tm_checked : Checked;
  tm_number : N;
  tm_command : option string;
  tm_buffer : TerminalBuffer;
  tm_seq : nat;
  tm_child : Child;
  tm_kills : nat;                    (* queued kill requests *)
  tm_exit : option ExitStatus;       (* the watch channel *)
  tm_owner : OwnerPhase;
  tm_seen : str;
  tm_lost : bool;
}.

Inductive CreatePhase :=
| CrRow | CrSpawn | CrStart | CrRegister
| CrKill                                        (* the registry is closed *)
| CrFinish (kind reason : string) | CrLifecycle (kind reason : string) | CrSession (reason : string)
| CrRefused | CrCreated (terminal : nat).

Record Creation := mkCreation {
  cr_checked : Checked;
  cr_number : N;
  cr_command : option string;
  cr_child : option Child;           (* none before the spawn and after the registration *)
  cr_lost : bool;
  cr_phase : CreatePhase;
}.

Inductive CallKind := CallOutput | CallWait | CallKill | CallRelease.
#[export] Instance CallKind_eq_dec : EqDecision CallKind.
Proof. solve_decision. Defined.

Inductive Answer :=
| NotFound
| OutputAnswer (output : str) (truncated : bool) (exit : option ExitStatus)
| ExitAnswer (status : ExitStatus)
| Acknowledged.

Inductive CallPhase :=
| ClLookup (session terminal_id : string)
| ClSend (terminal : nat)
| ClWait (terminal : nat)
| ClRead (terminal : nat)
| ClAnswered (a : Answer).

(** [drain_all]: the handles left, the first of them being asked or awaited. *)
Inductive DrainPhase := DrStart | DrSend (terminals : list nat) | DrWait (terminals : list nat) | DrDone.

Record World := mkWorld {
  w_store : Store;
  w_entries : gmap (string * string) nat;
  w_closed : bool;
  w_minted : N;
  w_terminals : list Terminal;
  w_creations : list Creation;
  w_calls : list (CallKind * CallPhase);
  w_drains : list DrainPhase;
}.

Definition set_w_store (st : Store) (w : World) : World :=
  mkWorld st (w_entries w) (w_closed w) (w_minted w) (w_terminals w) (w_creations w) (w_calls w) (w_drains w).
Definition set_entries (es : gmap (string * string) nat) (w : World) : World :=
  mkWorld (w_store w) es (w_closed w) (w_minted w) (w_terminals w) (w_creations w) (w_calls w) (w_drains w).
Definition set_terminal (i : nat) (t : Terminal) (w : World) : World :=
  mkWorld (w_store w) (w_entries w) (w_closed w) (w_minted w) (<[i := t]> (w_terminals w)) (w_creations w) (w_calls w) (w_drains w).
Definition set_creation (i : nat) (c : Creation) (w : World) : World :=
  mkWorld (w_store w) (w_entries w) (w_closed w) (w_minted w) (w_terminals w) (<[i := c]> (w_creations w)) (w_calls w) (w_drains w).
Definition set_call (i : nat) (c : CallKind * CallPhase) (w : World) : World :=
  mkWorld (w_store w) (w_entries w) (w_closed w) (w_minted w) (w_terminals w) (w_creations w) (<[i := c]> (w_calls w)) (w_drains w).
Definition set_drain (i : nat) (d : DrainPhase) (w : World) : World :=
  mkWorld (w_store w) (w_entries w) (w_closed w) (w_minted w) (w_terminals w) (w_creations w) (w_calls w) (<[i := d]> (w_drains w)).

(** [term_<n>], of a 64-bit counter. *)
Definition terminal_id (n : N) : string := "term_" +:+ pretty (n `mod` 2 ^ 64)%N.

(** ** Terminal updates *)

Definition with_owner (ph : OwnerPhase) (t : Terminal) : Terminal :=
  mkTerminal (tm_checked t) (tm_number t) (tm_command t) (tm_buffer t) (tm_seq t) (tm_child t) (tm_kills t)
    (tm_exit t) ph (tm_seen t) (tm_lost t).
Definition awaited (returned : bool) (ph : OwnerPhase) (t : Terminal) : Terminal :=
  mkTerminal (tm_checked t) (tm_number t) (tm_command t) (tm_buffer t) (tm_seq t) (waited returned) (tm_kills t)
    (tm_exit t) ph (tm_seen t) (tm_lost t).
Definition with_kills (k : nat) (t : Terminal) : Terminal :=
  mkTerminal (tm_checked t) (tm_number t) (tm_command t) (tm_buffer t) (tm_seq t) (tm_child t) k
    (tm_exit t) (tm_owner t) (tm_seen t) (tm_lost t).
(** The in-memory half of [append_chunk]. *)
Definition appended (data : str) (ph : OwnerPhase) (t : Terminal) : Terminal :=
  mkTerminal (tm_checked t) (tm_number t) (tm_command t) (append_capped data (am_limit (tm_checked t)) (tm_buffer t))
    (tm_seq t) (tm_child t) (tm_kills t) (tm_exit t) ph (tm_seen t ++ data) (tm_lost t).
(** After the write of a chunk, kept or lost. *)
Definition numbered (lost : bool) (ph : OwnerPhase) (t : Terminal) : Terminal :=
  mkTerminal (tm_checked t) (tm_number t) (tm_command t) (tm_buffer t) (S (tm_seq t)) (tm_child t) (tm_kills t)
    (tm_exit t) ph (tm_seen t) (tm_lost t || lost).
Definition finished (lost : bool) (ph : OwnerPhase) (t : Terminal) : Terminal :=
  mkTerminal (tm_checked t) (tm_number t) (tm_command t) (tm_buffer t) (tm_seq t) (tm_child t) (tm_kills t)
    (tm_exit t) ph (tm_seen t) (tm_lost t || lost).
Definition published (status : ExitStatus) (t : Terminal) : Terminal :=
  mkTerminal (tm_checked t) (tm_number t) (tm_command t) (tm_buffer t) (tm_seq t) (tm_child t) (tm_kills t)
    (Some status) OwEnded (tm_seen t) (tm_lost t).
Definition new_terminal (c : Creation) : Terminal :=
  mkTerminal (cr_checked c) (cr_number c) (cr_command c) empty_buffer 0 ChildRunning 0 None OwLoop [] (cr_lost c).

(** ** Steps *)

Definition EVENT_KIND_TERMINAL_FINISHED : string := "terminal.finished".
Definition TERMINAL_FINISHED_MESSAGE : string := "terminal finished".
Definition TERMINAL_SPAWN_FAILED_EVENT_KIND : string := "command.spawn_failed".
Definition TERMINAL_FAILED_EVENT_KIND : string := "command.failed".
Definition TERMINAL_REGISTRY_CLOSED_REASON : string := "agent bridge is shutting down; terminal registry closed".

Record TerminalFinished := mkFinished {
  tf_terminal_id : string;
  tf_command_id : string;
  tf_cwd : string;
  tf_status : CommandStatus;
  tf_exit_status : option Z;
  tf_signal : option string;
  tf_reason : option string;
  tf_duration_ms : option Z;
  tf_output_tail : str;
  tf_output_tail_truncated : bool;
}.

Inductive OwnerInput :=
| OiExit (w : WaitResult)
| OiKill
| OiKilled (k : GraceKillOutcome) (last_wait : bool)
| OiChunk (stream : string) (data : str)
| OiWrite (io : bool) (event_id now : string)
| OiDrained                                     (* end of the stream, or the budget is spent *)
| OiFinish (io : bool) (duration_ms : option Z) (now : string)
| OiPublish.

Inductive CreateInput :=
| CiRow (io : bool) (command_id now : string)
| CiSpawn (outcome : result string unit)        (* sandbox wrapper and spawn *)
| CiStart (io : bool) (now reason : string)
| CiRegister
| CiKilled (returned : bool)                    (* whether a wait of [kill_with_grace] returned *)
| CiWrite (io : bool) (event_id now : string).

Section steps.
Context (json_valid : string -> bool) (external : bool).
(** Whether the bridge has a command log. *)
Context (logging : bool).
(** The JSON texts, as [serde_json] prints them. *)
Context (output_payload : string -> string -> Z -> string -> string)
  (lifecycle_payload : string -> CommandStatus -> option Z -> option string -> option string -> option Z -> string)
  (finished_payload : TerminalFinished -> string).

Definition publish_lifecycle_event (command_id kind : string) (status : CommandStatus) (exit_status : option Z)
    (signal reason : option string) (duration_ms : option Z) (event_id now : string) : M Event :=
  append_event_with_source json_valid external "info" kind EVENT_SOURCE_COMMAND ""
    (lifecycle_payload command_id status exit_status signal reason duration_ms) event_id now.

Definition publish_terminal_finished_event (session_id : string) (finished : TerminalFinished) (event_id now : string)
  : M Event :=
  append_session_event_with_source json_valid external session_id
    (match tf_status finished with CsExited => "info" | _ => "warn" end)
    EVENT_KIND_TERMINAL_FINISHED EVENT_SOURCE_ACP TERMINAL_FINISHED_MESSAGE (finished_payload finished) event_id now.

(** A write whose failure is only logged. *)
Definition logged_write {A} (io : bool) (job : M A) (st : Store) : bool * Store :=
  match write_job io job st with Ok (_, st') => (true, st') | Err _ => (false, st) end.

Definition finished_of (t : Terminal) (command_id : string) (e : Ending) (duration_ms : option Z) : TerminalFinished :=
  let (tail, cut_now) := keep_newest (tb_data (tm_buffer t)) TERMINAL_FINISHED_OUTPUT_TAIL_BYTES in
  mkFinished (terminal_id (tm_number t)) command_id (am_cwd (tm_checked t)) (final_status e).1 (final_exit_code e)
    (xs_signal (en_status e)) (en_reason e) duration_ms tail (tb_truncated (tm_buffer t) || cut_now).

(** [append_chunk]: the buffer, then the write if the terminal has a row. *)
Definition take_chunk (stream : string) (data : str) (back : OwnerPhase) (t : Terminal) : Terminal :=
  match tm_command t with
  | Some _ => appended data (OwWrite stream data back) t
  | None => appended data back t
  end.

Definition owner_step (i : nat) (input : OwnerInput) (w : World) : option World :=
  match w_terminals w !! i with
  | None => None
  | Some t =>
      match tm_owner t, input with
      | OwLoop, OiExit r => Some (set_terminal i (awaited (wait_returned r) (OwDrain (ending_of_wait r)) t) w)
      | OwLoop, OiKill =>
          match tm_kills t with
          | O => None
          | S k => Some (set_terminal i (with_kills k (with_owner OwKilling t)) w)
          end
      | OwKilling, OiKilled k last_wait =>
          Some (set_terminal i (awaited (kill_returned k last_wait) (OwDrain (ending_of_kill k)) t) w)
      | OwLoop, OiChunk stream data => Some (set_terminal i (take_chunk stream data OwLoop t) w)
      | OwDrain e, OiChunk stream data => Some (set_terminal i (take_chunk stream data (OwDrain e) t) w)
      | OwWrite stream data back, OiWrite io event_id now =>
          match tm_command t with
          | None => None
          | Some command_id =>
              let (kept, st') := logged_write io
                (append_command_output json_valid external output_payload command_id stream (Z.of_nat (tm_seq t))
                   (utf8 data) event_id now) (w_store w) in
              Some (set_terminal i (numbered (negb kept) back t) (set_w_store st' w))
          end
      | OwDrain e, OiDrained =>
          Some (set_terminal i
            (with_owner match tm_command t with Some _ => OwFinish e | None => OwPublish e end t) w)
      | OwFinish e, OiFinish io duration_ms now =>
          match tm_command t with
          | None => None
          | Some command_id =>
              let (kept, st') := logged_write io
                (finish_command external command_id (final_status e).1 (final_exit_code e) duration_ms now) (w_store w) in
              Some (set_terminal i (finished (negb kept) (if kept then OwLifecycle e duration_ms else OwPublish e) t)
                      (set_w_store st' w))
          end
      | OwLifecycle e duration_ms, OiWrite io event_id now =>
          match tm_command t with
          | None => None
          | Some command_id =>
              let (_, st') := logged_write io
                (publish_lifecycle_event command_id (final_status e).2 (final_status e).1 (final_exit_code e)
                   (xs_signal (en_status e)) (en_reason e) duration_ms event_id now) (w_store w) in
              Some (set_terminal i (with_owner (OwSession e duration_ms) t) (set_w_store st' w))
          end
      | OwSession e duration_ms, OiWrite io event_id now =>
          match tm_command t with
          | None => None
          | Some command_id =>
              let (_, st') := logged_write io
                (publish_terminal_finished_event (am_local (tm_checked t)) (finished_of t command_id e duration_ms)
                   event_id now) (w_store w) in
              Some (set_terminal i (with_owner (OwPublish e) t) (set_w_store st' w))
          end
      | OwPublish e, OiPublish => Some (set_terminal i (published (en_status e) t) w)
      | _, _ => None
      end
  end.

(** ** Creation *)

(** A handler that returns an error drops its child. *)
Definition cr_goto (ph : CreatePhase) (child : option Child) (lost : bool) (c : Creation) : Creation :=
  mkCreation (cr_checked c) (cr_number c) (cr_command c) (match ph with CrRefused => dropped child | _ => child end)
    (cr_lost c || lost) ph.

(** [mark_failed] has a row to finish only with a command log. *)
Definition fail_phase (c : Creation) (kind reason : string) : CreatePhase :=
  match cr_command c with Some _ => CrFinish kind reason | None => CrRefused end.

(** [mint_terminal_id], once the checks passed. *)
Definition start_creation (checked : Checked) (w : World) : World :=
  let c := mkCreation checked (w_minted w) None None false (if logging then CrRow else CrSpawn) in
  mkWorld (w_store w) (w_entries w) (w_closed w) (w_minted w + 1)%N (w_terminals w) (w_creations w ++ [c])
    (w_calls w) (w_drains w).

(** [register], under the lock: refused once closed, and then the child is killed. *)
Definition register (i : nat) (c : Creation) (w : World) : World :=
  if w_closed w then
    set_creation i (cr_goto CrKill (cr_child c) false c) w
  else
    let k := length (w_terminals w) in
    set_creation i (cr_goto (CrCreated k) None false c)
      (mkWorld (w_store w) (<[(am_session (cr_checked c), terminal_id (cr_number c)) := k]> (w_entries w))
         (w_closed w) (w_minted w) (w_terminals w ++ [new_terminal c]) (w_creations w) (w_calls w) (w_drains w)).

Definition create_step (i : nat) (input : CreateInput) (w : World) : option World :=
  match w_creations w !! i with
  | None => None
  | Some c =>
      let checked := cr_checked c in
      match cr_phase c, input with
      | CrRow, CiRow io command_id now =>
          match write_job io (append_command json_valid external
                  (mkNewCommand (am_rendered checked) (Some (am_cwd checked)) (am_env_json checked) Acp
                     (Some (am_local checked)) (Some (terminal_id (cr_number c)))) command_id now) (w_store w) with
          | Ok (r, st') =>
              Some (set_creation i (mkCreation checked (cr_number c) (Some command_id) None (cr_lost c) CrSpawn)
                      (set_w_store st' w))
          | Err _ => Some (set_creation i (cr_goto CrRefused None false c) w)
          end
      | CrSpawn, CiSpawn (Ok _) =>
          Some (set_creation i (cr_goto match cr_command c with Some _ => CrStart | None => CrRegister end
                    (Some ChildRunning) false c) w)
      | CrSpawn, CiSpawn (Err reason) =>
          Some (set_creation i (cr_goto (fail_phase c TERMINAL_SPAWN_FAILED_EVENT_KIND reason) None false c) w)
      | CrStart, CiStart io now reason =>
          match cr_command c with
          | None => None
          | Some command_id =>
              match write_job io (start_command external command_id now) (w_store w) with
              | Ok (_, st') => Some (set_creation i (cr_goto CrRegister (cr_child c) false c) (set_w_store st' w))
              | Err _ => Some (set_creation i (cr_goto (CrFinish TERMINAL_FAILED_EVENT_KIND reason) (cr_child c) false c) w)
              end
          end
      | CrRegister, CiRegister => Some (register i c w)
      | CrKill, CiKilled returned =>
          Some (set_creation i (cr_goto (fail_phase c TERMINAL_FAILED_EVENT_KIND TERMINAL_REGISTRY_CLOSED_REASON)
                  (Some (waited returned)) false c) w)
      | CrFinish kind reason, CiWrite io event_id now =>
          match cr_command c with
          | None => None
          | Some command_id =>
              let (kept, st') := logged_write io (finish_command external command_id CsFailed None None now) (w_store w) in
              Some (set_creation i (cr_goto (if kept then CrLifecycle kind reason else CrRefused) (cr_child c) (negb kept) c)
                      (set_w_store st' w))
          end
      | CrLifecycle kind reason, CiWrite io event_id now =>
          match cr_command c with
          | None => None
          | Some command_id =>
              let (_, st') := logged_write io
                (publish_lifecycle_event command_id kind CsFailed None None (Some reason) None event_id now) (w_store w) in
              Some (set_creation i (cr_goto (CrSession reason) (cr_child c) false c) (set_w_store st' w))
          end
      | CrSession reason, CiWrite io event_id now =>
          match cr_command c with
          | None => None
          | Some command_id =>
              let (_, st') := logged_write io
                (publish_terminal_finished_event (am_local checked)
                   (mkFinished (terminal_id (cr_number c)) command_id (am_cwd checked) CsFailed None None (Some reason)
                      None [] false) event_id now) (w_store w) in
              Some (set_creation i (cr_goto CrRefused (cr_child c) false c) (set_w_store st' w))
          end
      | _, _ => None
      end
  end.

(** ** Handlers *)

(** [request_kill]: a full channel makes the sender wait; a gone owner is no
    error. *)
Definition send_kill (t : Terminal) : option Terminal :=
  match tm_owner t with
  | OwEnded => Some t
  | _ => if (tm_kills t <? 1)%nat then Some (with_kills (S (tm_kills t)) t) else None
  end.

(** After the lookup, the exit status decides whether to ask for a kill. *)
Definition after_lookup (kind : CallKind) (i : nat) (t : Terminal) : CallPhase :=
  match kind with
  | CallOutput => ClRead i
  | CallWait => ClWait i
  | CallKill => match tm_exit t with None => ClSend i | Some _ => ClWait i end
  | CallRelease => match tm_exit t with None => ClSend i | Some _ => ClAnswered Acknowledged end
  end.

Definition wait_answer (kind : CallKind) (status : ExitStatus) : Answer :=
  match kind with CallWait => ExitAnswer status | _ => Acknowledged end.

Definition read_output (t : Terminal) : Answer :=
  let (output, cut_now) := keep_newest (tb_data (tm_buffer t)) (am_limit (tm_checked t)) in
  OutputAnswer output (tb_truncated (tm_buffer t) || cut_now) (tm_exit t).

Definition call_step (i : nat) (w : World) : option World :=
  match w_calls w !! i with
  | None => None
  | Some (kind, ph) =>
      match ph with
      | ClLookup session id =>
          match w_entries w !! (session, id) with
          | None => Some (set_call i (kind, ClAnswered NotFound) w)
          | Some k =>
              match w_terminals w !! k with
              | None => None
              | Some t =>
                  let w' := if bool_decide (kind = CallRelease) then set_entries (delete (session, id) (w_entries w)) w else w in
                  Some (set_call i (kind, after_lookup kind k t) w')
              end
          end
      | ClSend k =>
          match w_terminals w !! k ≫= send_kill with
          | Some t => Some (set_call i (kind, ClWait k) (set_terminal k t w))
          | None => None
          end
      | ClWait k =>
          match w_terminals w !! k ≫= tm_exit with
          | Some status => Some (set_call i (kind, ClAnswered (wait_answer kind status)) w)
          | None => None
          end
      | ClRead k =>
          match w_terminals w !! k with
          | Some t => Some (set_call i (kind, ClAnswered (read_output t)) w)
          | None => None
          end
      | ClAnswered _ => None
      end
  end.

(** ** Draining *)

Definition next_drain (terminals : list nat) : DrainPhase :=
  match terminals with [] => DrDone | _ => DrSend terminals end.

Definition drain_step (i : nat) (w : World) : option World :=
  match w_drains w !! i with
  | Some DrStart =>
      let handles := (map_to_list (w_entries w)).*2 in
      Some (set_drain i (next_drain handles)
        (mkWorld (w_store w) ∅ true (w_minted w) (w_terminals w) (w_creations w) (w_calls w) (w_drains w)))
  | Some (DrSend (k :: rest)) =>
      match w_terminals w !! k with
      | None => None
      | Some t =>
          match tm_exit t with
          | Some _ => Some (set_drain i (DrWait (k :: rest)) w)
          | None =>
              match send_kill t with
              | Some t' => Some (set_drain i (DrWait (k :: rest)) (set_terminal k t' w))
              | None => None
              end
          end
      end
  | Some (DrWait (k :: rest)) =>
      match w_terminals w !! k ≫= tm_exit with
      | Some _ => Some (set_drain i (next_drain rest) w)
      | None => None
      end
  | _ => None
  end.

(** ** The system *)

(** The commands of the terminals, written by their creation and owner alone. *)
Definition command_of_world (w : World) (id : string) : Prop :=
  (exists i c, w_creations w !! i = Some c /\ cr_command c = Some id) \/
  (exists i t, w_terminals w !! i = Some t /\ tm_command t = Some id).

Inductive term_step : World -> World -> Prop :=
| ts_create w checked : term_step w (start_creation checked w)
| ts_creation w i input w' : create_step i input w = Some w' -> term_step w w'
| ts_owner w i input w' : owner_step i input w = Some w' -> term_step w w'
| ts_arrive w kind session id :
    term_step w (mkWorld (w_store w) (w_entries w) (w_closed w) (w_minted w) (w_terminals w) (w_creations w)
                   (w_calls w ++ [(kind, ClLookup session id)]) (w_drains w))
| ts_call w i w' : call_step i w = Some w' -> term_step w w'
| ts_shutdown w :
    term_step w (mkWorld (w_store w) (w_entries w) (w_closed w) (w_minted w) (w_terminals w) (w_creations w)
                   (w_calls w) (w_drains w ++ [DrStart]))
| ts_drain w i w' : drain_step i w = Some w' -> term_step w w'
| ts_store w st' :
    (forall id, command_of_world w id -> st_commands st' !! id = st_commands (w_store w) !! id) ->
    term_step w (set_w_store st' w).

Definition world_init (st : Store) : World := mkWorld st ∅ false 0 [] [] [] [].
End steps.

(** A checked request asks for no more memory than the ceiling, and has a command. *)
Lemma create_checks_bounded {F} `{!FileSystem F} names_json root shell path home local cwd (fs1 fs2 fs3 : F) request checked :
  create_checks names_json root shell path home local cwd fs1 fs2 fs3 request = Ok checked ->
  Z.of_nat (am_limit checked) <= MAX_TERMINAL_OUTPUT_BYTE_LIMIT /\ trim (ct_command request) <> []
  /\ am_session checked = ct_session_id request /\ local = Some (am_local checked).
Proof.
  unfold create_checks. destruct local as [l|]; [|done]. destruct (resolve_cwd_under_workspace _ _ _ _ _) as [r|]; [|done].
  case_bool_decide; [done|]. intros [= <-]. cbn [am_limit am_session am_local]. split_and!; [|done|done|done].
  unfold effective_output_byte_limit, MAX_TERMINAL_OUTPUT_BYTE_LIMIT. lia.
Qed.
