(* ===== verification/TerminalSafety.v ===== *)
(** What client terminals guarantee over every interleaving of creations, owners,
    handlers, shutdown and other writers: the buffer holds the newest output, a
    published exit comes after the output and the final row, no row stays open
    without somebody at work on it, and shutdown leaves no child behind. *)

From S2P Require Import Prelude Text Cwd Store SinkOutbox ChangeFeed SessionEvents CommandStore OutputStream CommandGateway.
From S2P Require Import GatewaySafety Terminal.
From stdpp Require Import pretty.
Open Scope Z_scope.
Open Scope result_scope.

(** ** The buffer *)

(** The longest run of whole characters at the end that fits. *)
Fixpoint newest (s : str) (limit : nat) : str :=
  if (str_len s <=? limit)%nat then s else match s with [] => [] | _ :: s' => newest s' limit end.

(** The first character boundary at or after [d], and the text from there. *)
Fixpoint boundary_from (s : str) (d : nat) : nat :=
  match s with
  | [] => 0%nat
  | c :: s' => if (d =? 0)%nat then 0%nat else (len_utf8 c + boundary_from s' (d - len_utf8 c))%nat
  end.
Fixpoint tail_from (s : str) (d : nat) : str :=
  match s with [] => [] | c :: s' => if (d =? 0)%nat then s else tail_from s' (d - len_utf8 c) end.

Lemma is_char_boundary_from s d : (d <= str_len s)%nat -> is_char_boundary s d = (boundary_from s d =? d)%nat.
Proof.
  revert d. induction s as [|c s IH]; intros d Hd; cbn [is_char_boundary boundary_from str_len] in *.
  - by replace d with 0%nat by lia.
  - destruct (Nat.eqb_spec d 0) as [->|H0]; [done|]. pose proof (len_utf8_bounds c). cbn [orb].
    destruct (Nat.leb_spec (len_utf8 c) d) as [Hc|Hc]; cbn [andb].
    + rewrite IH by lia. destruct (Nat.eqb_spec (boundary_from s (d - len_utf8 c)) (d - len_utf8 c)),
        (Nat.eqb_spec (len_utf8 c + boundary_from s (d - len_utf8 c)) d); lia.
    + symmetry. apply Nat.eqb_neq. lia.
Qed.

Lemma boundary_from_ge s d : (d <= str_len s -> d <= boundary_from s d)%nat.
Proof.
  revert d. induction s as [|c s IH]; intros d Hd; cbn [boundary_from str_len] in *; [lia|].
  destruct (Nat.eqb_spec d 0) as [->|H0]; [lia|]. specialize (IH (d - len_utf8 c)%nat). lia.
Qed.

Lemma boundary_from_next s d :
  (d < str_len s)%nat -> boundary_from s d <> d -> boundary_from s (S d) = boundary_from s d.
Proof.
  revert d. induction s as [|c s IH]; intros d Hd Hne; cbn [boundary_from str_len] in *; [lia|].
  destruct (Nat.eqb_spec d 0) as [->|H0]; [done|]. rewrite (proj2 (Nat.eqb_neq (S d) 0)) by lia.
  pose proof (len_utf8_bounds c). destruct (Nat.leb_spec (len_utf8 c) d) as [Hc|Hc].
  - replace (S d - len_utf8 c)%nat with (S (d - len_utf8 c)) by lia. rewrite IH; lia.
  - replace (S d - len_utf8 c)%nat with 0%nat by lia. by replace (d - len_utf8 c)%nat with 0%nat by lia.
Qed.

Lemma raise_cutoff_from s fuel d :
  (d <= str_len s)%nat -> (str_len s - d <= fuel)%nat -> raise_cutoff s d fuel = boundary_from s d.
Proof.
  revert d. induction fuel as [|fuel IH]; intros d Hd Hf; cbn [raise_cutoff].
  - replace d with (str_len s) by lia. clear. induction s as [|c s IH]; [done|]. cbn [str_len boundary_from].
    pose proof (len_utf8_bounds c). rewrite (proj2 (Nat.eqb_neq _ 0)) by lia.
    replace (len_utf8 c + str_len s - len_utf8 c)%nat with (str_len s) by lia. by rewrite <- IH.
  - rewrite is_char_boundary_from by done. destruct (Nat.eqb_spec (boundary_from s d) d) as [E|E]; [done|].
    pose proof (boundary_from_ge s d Hd).
    destruct (decide (d = str_len s)) as [->|Hne].
    + exfalso. apply E. clear. induction s as [|c s IH]; [done|]. cbn [str_len boundary_from].
      pose proof (len_utf8_bounds c). rewrite (proj2 (Nat.eqb_neq _ 0)) by lia.
      replace (len_utf8 c + str_len s - len_utf8 c)%nat with (str_len s) by lia. by rewrite IH.
    + rewrite IH by lia. by apply boundary_from_next; lia.
Qed.

Lemma slice_tail_from s d : slice_tail s (boundary_from s d) = tail_from s d.
Proof.
  revert d. induction s as [|c s IH]; intros d; cbn [slice_tail boundary_from tail_from]; [done|].
  destruct (d =? 0)%nat; [done|]. pose proof (len_utf8_bounds c). rewrite (proj2 (Nat.eqb_neq _ 0)) by lia.
  replace (len_utf8 c + boundary_from s (d - len_utf8 c) - len_utf8 c)%nat with (boundary_from s (d - len_utf8 c)) by lia.
  apply IH.
Qed.

Lemma tail_from_newest s limit : tail_from s (str_len s - limit) = newest s limit.
Proof.
  induction s as [|c s IH]; cbn [tail_from newest str_len]; [by destruct (0 <=? limit)%nat|]. pose proof (len_utf8_bounds c).
  destruct (Nat.eqb_spec (len_utf8 c + str_len s - limit) 0), (Nat.leb_spec (len_utf8 c + str_len s) limit); try lia; [done|].
  rewrite <- IH. f_equal. lia.
Qed.

Lemma newest_fits s limit : (str_len s <= limit)%nat -> newest s limit = s.
Proof. intros H. destruct s; cbn [newest]; by rewrite (proj2 (Nat.leb_le _ _) H). Qed.

(** The cutoff loop finds it. *)
Lemma keep_newest_spec s limit : keep_newest s limit = (newest s limit, (limit <? str_len s)%nat).
Proof.
  unfold keep_newest, newest_cutoff. destruct (Nat.leb_spec (str_len s) limit) as [H|H].
  - rewrite newest_fits by done. rewrite (proj2 (Nat.ltb_ge limit (str_len s))) by lia. by destruct s.
  - rewrite raise_cutoff_from by lia. rewrite slice_tail_from, tail_from_newest.
    pose proof (boundary_from_ge s (str_len s - limit)). f_equal.
    destruct (Nat.ltb_spec limit (str_len s)), (Nat.ltb_spec 0 (boundary_from s (str_len s - limit))); lia.
Qed.

Lemma newest_app a b limit : newest (newest a limit ++ b) limit = newest (a ++ b) limit.
Proof.
  induction a as [|c a IH]; cbn [newest app]; [by destruct (_ <=? _)%nat|].
  destruct (Nat.leb_spec (str_len (c :: a)) limit) as [H|H]; [done|]. rewrite IH. cbn [str_len] in *.
  rewrite (proj2 (Nat.leb_gt _ _)); [done|]. rewrite str_len_app. lia.
Qed.

Lemma newest_length s limit : (str_len (newest s limit) <= limit)%nat.
Proof.
  induction s as [|c s IH]; cbn [newest]; [destruct (_ <=? _)%nat; simpl; lia|].
  destruct (Nat.leb_spec (str_len (c :: s)) limit); done.
Qed.

(** No more than a cut character is wasted. *)
Lemma newest_full s limit : (limit < str_len s)%nat -> (limit < str_len (newest s limit) + 4)%nat.
Proof.
  induction s as [|c s IH]; cbn [newest str_len]; intros H; [lia|].
  rewrite (proj2 (Nat.leb_gt _ _) H). pose proof (len_utf8_bounds c).
  destruct (Nat.leb_spec (str_len s) limit) as [Hs|Hs]; [rewrite newest_fits by done; lia|by apply IH].
Qed.

Lemma newest_suffix s limit : exists before, s = before ++ newest s limit.
Proof.
  induction s as [|c s [before IH]]; cbn [newest]; [exists []; by destruct (_ <=? _)%nat|].
  destruct (_ <=? _)%nat; [by exists []|]. exists (c :: before). simpl. by rewrite <- IH.
Qed.

(** What the buffer holds after being given [seen]. *)
Definition buffer_after (seen : str) (limit : nat) : TerminalBuffer :=
  mkBuffer (newest seen limit) (limit <? str_len seen)%nat.

Lemma append_capped_after seen chunk limit :
  append_capped chunk limit (buffer_after seen limit) = buffer_after (seen ++ chunk) limit.
Proof.
  unfold append_capped, buffer_after. cbn [tb_data tb_truncated].
  pose proof (keep_newest_spec (newest seen limit ++ chunk) limit) as H. unfold keep_newest in H. injection H as H1 H2.
  rewrite newest_app in H1. rewrite str_len_app in H2.
  destruct (Nat.ltb_spec limit (str_len seen)) as [Hs|Hs].
  - rewrite (proj2 (Nat.ltb_lt limit (str_len (seen ++ chunk)))) by (rewrite str_len_app; lia).
    rewrite H2. destruct (Nat.ltb_spec limit (str_len (newest seen limit) + str_len chunk)) as [Hn|Hn]; [by rewrite H1|].
    rewrite <- (newest_app seen chunk limit).
    by rewrite (newest_fits (newest seen limit ++ chunk)) by (rewrite str_len_app; lia).
  - rewrite newest_fits in * by done. rewrite H2, str_len_app.
    destruct (Nat.ltb_spec limit (str_len seen + str_len chunk)) as [Hn|Hn]; [by rewrite H1|].
    by rewrite (newest_fits (seen ++ chunk)) by (rewrite str_len_app; lia).
Qed.

(** ** Rows *)

Definition closed_row (c : CommandRecord) : Prop := command_open c = false /\ is_Some (c_finished_at c).

(** What the row says once the owner wrote its end. *)
Definition final_row (e : Ending) (c : CommandRecord) : Prop :=
  c_status c = command_status_str (final_status e).1 /\ c_exit_status c = final_exit_code e /\ is_Some (c_finished_at c).

Lemma final_row_closed e c : final_row e c -> closed_row c.
Proof.
  intros (Hs & _ & Hf). split; [|done]. unfold command_open. rewrite Hs. apply bool_decide_eq_false. unfold final_status.
  destruct (en_canceled e); [by intros [|]|]. destruct (xs_code (en_status e)) as [[]|]; by intros [|].
Qed.

(** The row while the owner is in this phase. *)
Fixpoint owner_row (ph : OwnerPhase) (exit : option ExitStatus) (c : CommandRecord) : Prop :=
  match ph with
  | OwLoop | OwKilling | OwDrain _ | OwFinish _ => c_status c = "running"
  | OwWrite _ _ back => owner_row back exit c
  | OwLifecycle e _ | OwSession e _ | OwPublish e => final_row e c
  | OwEnded => exists e, exit = Some (en_status e) /\ final_row e c
  end.

(** A child that is reaped, or, for a status without an exit code, at least killed. *)
Definition over (status : ExitStatus) (child : Child) : Prop :=
  child = ChildReaped \/ (child = ChildKilled /\ xs_code status = None).

(** Child and watch channel while the owner is in this phase. *)
Fixpoint owner_state (ph : OwnerPhase) (child : Child) (exit : option ExitStatus) : Prop :=
  match ph with
  | OwLoop | OwKilling => child = ChildRunning /\ exit = None
  | OwWrite _ _ back => match back with OwLoop | OwDrain _ => owner_state back child exit | _ => False end
  | OwDrain e | OwFinish e | OwLifecycle e _ | OwSession e _ | OwPublish e => over (en_status e) child /\ exit = None
  | OwEnded => exists status, over status child /\ exit = Some status
  end.

Record terminal_ok (st : Store) (t : Terminal) : Prop := {
  to_buffer : tm_buffer t = buffer_after (tm_seen t) (am_limit (tm_checked t));
  to_state : owner_state (tm_owner t) (tm_child t) (tm_exit t);
  to_row : forall id, tm_command t = Some id ->
    exists c, st_commands st !! id = Some c /\ (tm_lost t = true \/ owner_row (tm_owner t) (tm_exit t) c);
}.

Definition create_row (ph : CreatePhase) (c : CommandRecord) : Prop :=
  match ph with
  | CrRow | CrCreated _ | CrFinish _ _ => True
  | CrSpawn | CrStart => c_status c = "pending"
  | CrRegister | CrKill => c_status c = "running"
  | CrLifecycle _ _ | CrSession _ | CrRefused => closed_row c
  end.

Record creation_ok (st : Store) (c : Creation) : Prop := {
  co_child : cr_child c = Some ChildRunning -> cr_phase c <> CrRefused /\ forall k, cr_phase c <> CrCreated k;
  co_unlost : cr_lost c = true -> cr_phase c = CrRefused;
  co_row : forall id, cr_command c = Some id ->
    cr_phase c <> CrRow /\
    exists row, st_commands st !! id = Some row /\ (cr_lost c = true \/ create_row (cr_phase c) row);
}.

Record row_inv (w : World) : Prop := {
  ri_terminals : forall k t, w_terminals w !! k = Some t -> terminal_ok (w_store w) t;
  ri_creations : forall i c, w_creations w !! i = Some c -> creation_ok (w_store w) c;
  ri_number : forall i c, w_creations w !! i = Some c -> cr_number c = N.of_nat i;
  ri_minted : w_minted w = N.of_nat (length (w_creations w));
  ri_born : forall k t, w_terminals w !! k = Some t -> exists c,
    w_creations w !! N.to_nat (tm_number t) = Some c /\ cr_phase c = CrCreated k
    /\ cr_command c = tm_command t /\ cr_checked c = tm_checked t;
  ri_ids : forall i j c c' id, w_creations w !! i = Some c -> w_creations w !! j = Some c' ->
    cr_command c = Some id -> cr_command c' = Some id -> i = j;
}.

(** Nothing else reads the store. *)
Lemma terminal_ok_frame st st' t :
  (forall id, tm_command t = Some id -> st_commands st' !! id = st_commands st !! id) ->
  terminal_ok st t -> terminal_ok st' t.
Proof. intros H [H1 H2 H3]. split; [done|done|]. intros id Hid. rewrite (H id Hid). by apply H3. Qed.

Lemma creation_ok_frame st st' c :
  (forall id, cr_command c = Some id -> st_commands st' !! id = st_commands st !! id) ->
  creation_ok st c -> creation_ok st' c.
Proof. intros H [H1 H2 H3]. split; [done|done|]. intros id Hid. rewrite (H id Hid). by apply H3. Qed.

(** A store change that touches at most the row of creation [i]. *)
Definition only_row (w : World) (command : option string) (st' : Store) : Prop :=
  forall id, command <> Some id -> st_commands st' !! id = st_commands (w_store w) !! id.

Lemma rows_other w i c st' j c' :
  row_inv w -> w_creations w !! i = Some c -> only_row w (cr_command c) st' -> w_creations w !! j = Some c' -> j <> i ->
  creation_ok st' c'.
Proof.
  intros Hw Hi Ho Hj Hne. eapply creation_ok_frame; [|exact (ri_creations w Hw j c' Hj)]. intros id Hid. apply Ho.
  intros Hc. apply Hne. symmetry. exact (ri_ids w Hw i j c c' id Hi Hj Hc Hid).
Qed.

Lemma rows_other_terminal w i c st' k t :
  row_inv w -> w_creations w !! i = Some c -> only_row w (cr_command c) st' -> w_terminals w !! k = Some t ->
  (N.to_nat (tm_number t) <> i) -> terminal_ok st' t.
Proof.
  intros Hw Hi Ho Hk Hne. eapply terminal_ok_frame; [|exact (ri_terminals w Hw k t Hk)]. intros id Hid. apply Ho.
  intros Hc. apply Hne. destruct (ri_born w Hw k t Hk) as (c' & Hc' & _ & Hcmd & _).
  rewrite Hid in Hcmd. exact (ri_ids w Hw _ _ c' c id Hc' Hi Hcmd Hc).
Qed.

(** A step of the owner of terminal [k]. *)
Lemma rows_owner w k t t' st' :
  row_inv w -> w_terminals w !! k = Some t ->
  tm_checked t' = tm_checked t -> tm_number t' = tm_number t -> tm_command t' = tm_command t ->
  only_row w (tm_command t) st' -> terminal_ok st' t' ->
  row_inv (set_terminal k t' (set_w_store st' w)).
Proof.
  intros Hw Hk E1 E2 E3 Ho Ht'. destruct (ri_born w Hw k t Hk) as (c & Hc & Hph & Hcmd & Hck).
  rewrite <- Hcmd in Ho.
  assert (forall k0 t0, <[k := t']> (w_terminals w) !! k0 = Some t0 -> k0 = k /\ t0 = t' \/ k0 <> k /\ w_terminals w !! k0 = Some t0) as Hin.
  { intros k0 t0. destruct (decide (k0 = k)) as [->|Hne].
    - rewrite list_lookup_insert_eq by (by eapply lookup_lt_Some). intros [= <-]. by left.
    - rewrite list_lookup_insert_ne by done. by right. }
  split; simpl.
  - intros k0 t0 [[-> ->]|[Hne H0]]%Hin; [done|]. eapply rows_other_terminal; try done.
    intros Hn. apply Hne. destruct (ri_born w Hw k0 t0 H0) as (c0 & Hc0 & Hph0 & _). rewrite Hn, Hc in Hc0.
    injection Hc0 as <-. rewrite Hph in Hph0. by injection Hph0.
  - intros i c0 H0. destruct (decide (i = N.to_nat (tm_number t))) as [->|Hne]; [|exact (rows_other w _ c st' i c0 Hw Hc Ho H0 Hne)].
    rewrite Hc in H0. injection H0 as <-. pose proof (ri_creations w Hw _ c Hc) as [H1 H2 H3].
    split; [done|done|]. intros id Hid. destruct (H3 id Hid) as (Hr & _). split; [done|].
    rewrite Hcmd, <- E3 in Hid. destruct (to_row _ _ Ht' id Hid) as (row & Hrow & _). exists row. split; [done|].
    right. by rewrite Hph.
  - apply (ri_number w Hw).
  - apply (ri_minted w Hw).
  - intros k0 t0 [[-> ->]|[Hne H0]]%Hin; [|exact (ri_born w Hw k0 t0 H0)].
    exists c. rewrite E1, E2, E3. by rewrite Hck.
  - apply (ri_ids w Hw).
Qed.

(** A step of a creation that is still at work. *)
Lemma rows_creation w i c c' st' :
  row_inv w -> w_creations w !! i = Some c -> (forall k, cr_phase c <> CrCreated k) ->
  cr_number c' = cr_number c ->
  (cr_command c' = cr_command c \/ exists id, cr_command c' = Some id /\ st_commands (w_store w) !! id = None) ->
  only_row w (cr_command c') st' -> creation_ok st' c' ->
  row_inv (set_creation i c' (set_w_store st' w)).
Proof.
  intros Hw Hi Hph En Hcmd Ho Hok.
  assert (forall j c0 id, w_creations w !! j = Some c0 -> cr_command c0 = Some id -> cr_command c' = Some id -> j = i) as Huniq.
  { intros j c0 id Hj H0 H1. destruct Hcmd as [Heq|(id' & H2 & Hnone)].
    - rewrite Heq in H1. exact (ri_ids w Hw j i c0 c id Hj Hi H0 H1).
    - rewrite H1 in H2. injection H2 as <-. destruct (co_row _ _ (ri_creations w Hw j c0 Hj) id H0) as (_ & row & Hrow & _).
      by rewrite Hnone in Hrow. }
  assert (forall j c0, <[i := c']> (w_creations w) !! j = Some c0 -> j = i /\ c0 = c' \/ j <> i /\ w_creations w !! j = Some c0) as Hin.
  { intros j c0. destruct (decide (j = i)) as [->|Hne].
    - rewrite list_lookup_insert_eq by (by eapply lookup_lt_Some). intros [= <-]. by left.
    - rewrite list_lookup_insert_ne by done. by right. }
  split; simpl.
  - intros k t Hk. destruct (ri_born w Hw k t Hk) as (c0 & Hc0 & Hph0 & Hcmd0 & _).
    eapply terminal_ok_frame; [|exact (ri_terminals w Hw k t Hk)]. intros id Hid. apply Ho. intros Hc.
    rewrite Hid in Hcmd0. pose proof (Huniq _ c0 id Hc0 Hcmd0 Hc) as Ei. rewrite Ei, Hi in Hc0. injection Hc0 as <-.
    by apply (Hph k).
  - intros j c0 [[-> ->]|[Hne Hj]]%Hin; [done|]. eapply creation_ok_frame; [|exact (ri_creations w Hw j c0 Hj)].
    intros id Hid. apply Ho. intros Hc. apply Hne. exact (Huniq j c0 id Hj Hid Hc).
  - intros j c0 [[-> ->]|[Hne Hj]]%Hin; [rewrite En; by apply (ri_number w Hw)|by apply (ri_number w Hw)].
  - rewrite length_insert. apply (ri_minted w Hw).
  - intros k t Hk. destruct (ri_born w Hw k t Hk) as (c0 & Hc0 & Hph0 & Hrest). exists c0.
    rewrite list_lookup_insert_ne; [done|]. intros Ei. rewrite <- Ei, Hi in Hc0. injection Hc0 as <-. by apply (Hph k).
  - intros j j' c0 c1 id [[-> ->]|[Hne Hj]]%Hin [[-> ->]|[Hne' Hj']]%Hin H0 H1; [done| | |].
    + symmetry. exact (Huniq j' c1 id Hj' H1 H0).
    + exact (Huniq j c0 id Hj H0 H1).
    + exact (ri_ids w Hw j j' c0 c1 id Hj Hj' H0 H1).
Qed.

Lemma set_w_store_same w : set_w_store (w_store w) w = w.
Proof. by destruct w. Qed.

Lemma only_row_same w command : only_row w command (w_store w).
Proof. by intros id _. Qed.

Lemma only_row_cmds w command st' : cmds_eq (w_store w) st' -> only_row w command st'.
Proof. unfold cmds_eq. intros E id _. by rewrite E. Qed.

Lemma only_row_insert w id c st' :
  st_commands st' = <[id := c]> (st_commands (w_store w)) -> only_row w (Some id) st'.
Proof. intros E id' Hne. rewrite E. apply lookup_insert_ne. congruence. Qed.

Lemma logged_write_run {A} io (job : M A) st kept st' :
  logged_write io job st = (kept, st') ->
  (kept = true /\ exists a, job st = Ok (a, st')) \/ (kept = false /\ st' = st).
Proof.
  unfold logged_write, write_job. destruct io; [|intros [= <- <-]; by right].
  destruct (job st) as [[a st1]|e]; intros [= <- <-]; [left; split; [done|by eexists]|by right].
Qed.

(** A logged write that leaves the command rows alone. *)
Lemma logged_write_cmds {A} io (job : M A) st kept st' :
  links cmds_eq job -> logged_write io job st = (kept, st') -> cmds_eq st st'.
Proof. intros Hj [(_ & a & H)|[_ ->]]%logged_write_run; [by eapply Hj|done]. Qed.

Section row_steps.
Context (json_valid : string -> bool) (external logging : bool).
Context (output_payload : string -> string -> Z -> string -> string)
  (lifecycle_payload : string -> CommandStatus -> option Z -> option string -> option string -> option Z -> string)
  (finished_payload : TerminalFinished -> string).

Local Notation ostep := (owner_step json_valid external output_payload lifecycle_payload finished_payload).
Local Notation cstep := (create_step json_valid external lifecycle_payload finished_payload).

(** A new phase, with the child and the channel as they are or reaped. *)
Lemma terminal_ok_phase st t t' :
  terminal_ok st t -> tm_buffer t' = tm_buffer t -> tm_seen t' = tm_seen t -> tm_checked t' = tm_checked t ->
  tm_command t' = tm_command t -> (tm_lost t = true -> tm_lost t' = true) ->
  owner_state (tm_owner t') (tm_child t') (tm_exit t') ->
  (forall c, owner_row (tm_owner t) (tm_exit t) c -> owner_row (tm_owner t') (tm_exit t') c) ->
  terminal_ok st t'.
Proof.
  intros [H1 H2 H3] E1 E2 E3 E4 El Hs Hr. split; [by rewrite E1, E2, E3|done|].
  intros id Hid. rewrite E4 in Hid. destruct (H3 id Hid) as (c & Hc & [Hl|Hrow]); exists c; (split; [done|]); auto.
Qed.

Lemma rows_phase w k t t' :
  row_inv w -> w_terminals w !! k = Some t -> tm_number t' = tm_number t ->
  tm_buffer t' = tm_buffer t -> tm_seen t' = tm_seen t -> tm_checked t' = tm_checked t ->
  tm_command t' = tm_command t -> (tm_lost t = true -> tm_lost t' = true) ->
  owner_state (tm_owner t') (tm_child t') (tm_exit t') ->
  (forall c, owner_row (tm_owner t) (tm_exit t) c -> owner_row (tm_owner t') (tm_exit t') c) ->
  row_inv (set_terminal k t' w).
Proof.
  intros Hw Hk En E1 E2 E3 E4 El Hs Hr. rewrite <- (set_w_store_same w).
  eapply rows_owner; [exact Hw|exact Hk|done|done|done|apply only_row_same|].
  eapply terminal_ok_phase; [exact (ri_terminals w Hw k t Hk)|done..].
Qed.

Lemma rows_chunk w k t stream data back :
  row_inv w -> w_terminals w !! k = Some t -> tm_owner t = back -> (back = OwLoop \/ exists e, back = OwDrain e) ->
  row_inv (set_terminal k (take_chunk stream data back t) w).
Proof.
  intros Hw Hk Eo Hb. pose proof (ri_terminals w Hw k t Hk) as [H1 H2 H3]. rewrite Eo in H2, H3.
  rewrite <- (set_w_store_same w). unfold take_chunk.
  destruct (tm_command t) as [id|] eqn:Ec; (eapply rows_owner; [exact Hw|exact Hk|done|done|done|apply only_row_same|]);
    (split; [simpl; by rewrite H1, append_capped_after| |]); simpl.
  - by destruct Hb as [->|[e ->]].
  - intros id' Hid'. rewrite Hid' in Ec. by apply H3.
  - done.
  - intros id' Hid'. by rewrite Hid' in Ec.
Qed.

(** An event of the finished terminal. *)
Lemma rows_event {A} w k t ph io (job : M A) kept st' :
  row_inv w -> w_terminals w !! k = Some t -> links cmds_eq job -> logged_write io job (w_store w) = (kept, st') ->
  owner_state ph (tm_child t) (tm_exit t) -> (forall c, owner_row (tm_owner t) (tm_exit t) c -> owner_row ph (tm_exit t) c) ->
  row_inv (set_terminal k (with_owner ph t) (set_w_store st' w)).
Proof.
  intros Hw Hk Hj Hrun Hs Hr. pose proof (logged_write_cmds _ _ _ _ _ Hj Hrun) as E.
  eapply rows_owner; [exact Hw|exact Hk|done|done|done|by apply only_row_cmds|].
  apply (terminal_ok_phase st' t); [|done..]. eapply terminal_ok_frame; [|exact (ri_terminals w Hw k t Hk)].
  intros id _. unfold cmds_eq in E. by rewrite E.
Qed.

Lemma rows_output w k t stream data back id io event_id now kept st' :
  row_inv w -> w_terminals w !! k = Some t -> tm_owner t = OwWrite stream data back -> tm_command t = Some id ->
  logged_write io (append_command_output json_valid external output_payload id stream (Z.of_nat (tm_seq t))
                     (utf8 data) event_id now) (w_store w) = (kept, st') ->
  row_inv (set_terminal k (numbered (negb kept) back t) (set_w_store st' w)).
Proof.
  intros Hw Hk Eo Ec Hrun. pose proof (ri_terminals w Hw k t Hk) as [H1 H2 H3]. rewrite Eo in H2, H3.
  destruct (H3 id Ec) as (c & Hc & Hr). cbn [owner_state owner_row] in *.
  assert (owner_state back (tm_child t) (tm_exit t)) as Hs by (by destruct back).
  assert (exists c', st_commands st' = <[id := c']> (st_commands (w_store w)) /\ (kept = true -> c_status c' = c_status c)) as (c' & E & Hst).
  { destruct (logged_write_run _ _ _ _ _ Hrun) as [(-> & e & Hok)|[-> ->]].
    - destruct (event_then json_valid external id (fun e => output_row e _ _) _ _ _ _ _ _ _ c _ _ _ Hok Hc) as [E _].
      eexists. by split.
    - exists c. split; [by rewrite insert_id|done]. }
  eapply rows_owner; [exact Hw|exact Hk|done|done|done|rewrite Ec; by eapply only_row_insert|].
  split; simpl; [done|done|]. intros id' Hid'. rewrite Ec in Hid'. injection Hid' as <-. exists c'.
  rewrite E, lookup_insert_eq. split; [done|]. destruct kept; [|left; apply orb_true_r]. rewrite orb_false_r.
  destruct Hr as [Hl|Hr]; [by left|]. right. specialize (Hst eq_refl). destruct back; try done; simpl in *; by rewrite Hst.
Qed.

Lemma rows_finish w k t e id io duration_ms now kept st' :
  row_inv w -> w_terminals w !! k = Some t -> tm_owner t = OwFinish e -> tm_command t = Some id ->
  logged_write io (finish_command external id (final_status e).1 (final_exit_code e) duration_ms now) (w_store w) = (kept, st') ->
  row_inv (set_terminal k (finished (negb kept) (if kept then OwLifecycle e duration_ms else OwPublish e) t) (set_w_store st' w)).
Proof.
  intros Hw Hk Eo Ec Hrun. pose proof (ri_terminals w Hw k t Hk) as [H1 H2 H3]. rewrite Eo in H2, H3.
  destruct (logged_write_run _ _ _ _ _ Hrun) as [(-> & u & Hok)|[-> ->]].
  - apply persist_update_run in Hok as (c & Hc & E & _).
    eapply rows_owner; [exact Hw|exact Hk|done|done|done|rewrite Ec; by eapply only_row_insert|].
    split; simpl; [done|done|]. intros id' Hid'. rewrite Ec in Hid'. injection Hid' as <-.
    rewrite E, lookup_insert_eq. eexists. split; [done|]. right. by repeat split; eexists.
  - eapply rows_owner; [exact Hw|exact Hk|done|done|done|apply only_row_same|].
    split; simpl; [done|done|]. intros id' Hid'. destruct (H3 id' Hid') as (c & Hc & _). exists c.
    split; [done|]. left. apply orb_true_r.
Qed.

Lemma over_wait r : over (en_status (ending_of_wait r)) (waited (wait_returned r)).
Proof. destruct r; [by left|by right]. Qed.
Lemma over_kill k last_wait : over (en_status (ending_of_kill k)) (waited (kill_returned k last_wait)).
Proof. destruct k as [[]|]; [by left|by right|]. destruct last_wait; [by left|by right]. Qed.

Lemma owner_step_rows k input w w' : row_inv w -> ostep k input w = Some w' -> row_inv w'.
Proof.
  intros Hw. unfold owner_step. destruct (w_terminals w !! k) as [t|] eqn:Hk; [|done].
  pose proof (to_state _ _ (ri_terminals w Hw k t Hk)) as Hs.
  destruct (tm_owner t) as [| |e|stream data back|e|e d|e d|e|] eqn:Eo; simpl in Hs; destruct input; try done.
  - intros [= <-]. eapply rows_phase; [exact Hw|exact Hk|done..| |]; simpl; [|by rewrite Eo]. split; [apply over_wait|by destruct Hs].
  - destruct (tm_kills t); [done|]. intros [= <-]. eapply rows_phase; [exact Hw|exact Hk|done..|]. simpl. by rewrite Eo.
  - intros [= <-]. eapply rows_chunk; [exact Hw|exact Hk|done|by left].
  - intros [= <-]. eapply rows_phase; [exact Hw|exact Hk|done..| |]; simpl; [|by rewrite Eo]. split; [apply over_kill|by destruct Hs].
  - intros [= <-]. eapply rows_chunk; [exact Hw|exact Hk|done|right; by eexists].
  - intros [= <-]. destruct (tm_command t) as [id|] eqn:Ec.
    + eapply rows_phase; [exact Hw|exact Hk|done..|]. simpl. by rewrite Eo.
    + rewrite <- (set_w_store_same w). eapply rows_owner; [exact Hw|exact Hk|done|done|done|apply only_row_same|].
      pose proof (ri_terminals w Hw k t Hk) as [H1 H2 H3]. split; simpl; [done|done|]. intros id Hid. by rewrite Hid in Ec.
  - destruct (tm_command t) as [id|] eqn:Ec; [|done].
    destruct (logged_write _ _ _) as [kept st'] eqn:Er. intros [= <-]. by eapply rows_output.
  - destruct (tm_command t) as [id|] eqn:Ec; [|done].
    destruct (logged_write _ _ _) as [kept st'] eqn:Er. intros [= <-]. by eapply rows_finish.
  - destruct (tm_command t) as [id|] eqn:Ec; [|done].
    destruct (logged_write _ _ _) as [kept st'] eqn:Er. intros [= <-].
    eapply rows_event; [exact Hw|exact Hk|apply append_event_cmds|exact Er|done|by rewrite Eo].
  - destruct (tm_command t) as [id|] eqn:Ec; [|done].
    destruct (logged_write _ _ _) as [kept st'] eqn:Er. intros [= <-].
    eapply rows_event; [exact Hw|exact Hk|apply append_session_event_cmds|exact Er|done|by rewrite Eo].
  - intros [= <-]. eapply rows_phase; [exact Hw|exact Hk|done..| |]; simpl; [destruct Hs; by eexists|].
    rewrite Eo. intros c Hc. by exists e.
Qed.

(** No child is running in a handler that has returned. *)
Lemma goto_child ph child lost c :
  (forall k, ph <> CrCreated k) -> cr_child (cr_goto ph child lost c) = Some ChildRunning ->
  ph <> CrRefused /\ forall k, ph <> CrCreated k.
Proof. intros Hk Hr. split; [|done]. intros ->. simpl in Hr. by destruct child as [[]|]. Qed.

(** A creation's phase change without a write. *)
Lemma rows_create_phase w i c ph child :
  row_inv w -> w_creations w !! i = Some c -> (forall k, cr_phase c <> CrCreated k) -> cr_lost c = false ->
  (forall k, ph <> CrCreated k) ->
  (forall id, cr_command c = Some id -> ph <> CrRow /\ forall row, create_row (cr_phase c) row -> create_row ph row) ->
  row_inv (set_creation i (cr_goto ph child false c) w).
Proof.
  intros Hw Hi Hph Hl Hch Hr. rewrite <- (set_w_store_same w).
  eapply rows_creation; [exact Hw|exact Hi|done|done|by left|apply only_row_same|].
  pose proof (ri_creations w Hw i c Hi) as [H1 H2 H3]. split; [by apply goto_child|simpl; by rewrite Hl|simpl].
  intros id Hid. destruct (Hr id Hid) as [Hne Hrow]. split; [done|].
  destruct (H3 id Hid) as (_ & row & Hlk & [Hlost|Hcr]); [by rewrite Hl in Hlost|]. exists row. split; [done|]. right. by apply Hrow.
Qed.

(** A write of the creation's own row. *)
Lemma rows_create_write w i c ph child lost id f st' :
  row_inv w -> w_creations w !! i = Some c -> (forall k, cr_phase c <> CrCreated k) -> ph <> CrRow ->
  cr_command c = Some id -> (forall k, ph <> CrCreated k) -> (cr_lost c || lost = true -> ph = CrRefused) ->
  (forall row, st_commands (w_store w) !! id = Some row ->
     st_commands st' = <[id := f row]> (st_commands (w_store w)) /\ (cr_lost c || lost = true \/ create_row ph (f row))) ->
  row_inv (set_creation i (cr_goto ph child lost c) (set_w_store st' w)).
Proof.
  intros Hw Hi Hph Hne Hid Hch Hl Hf. pose proof (ri_creations w Hw i c Hi) as [H1 H2 H3].
  destruct (H3 id Hid) as (_ & row & Hrow & _). destruct (Hf row Hrow) as [E Hr].
  eapply rows_creation; [exact Hw|exact Hi|done|done|by left|simpl; rewrite Hid; by eapply only_row_insert|].
  split; [by apply goto_child|done|simpl]. intros id' Hid'. rewrite Hid in Hid'. injection Hid' as <-. split; [done|].
  exists (f row). by rewrite E, lookup_insert_eq.
Qed.

(** A step of a creation whose store changed outside the command rows. *)
Lemma rows_create_event {A} w i c ph io (job : M A) kept st' :
  row_inv w -> w_creations w !! i = Some c -> (forall k, cr_phase c <> CrCreated k) -> cr_lost c = false -> ph <> CrRow ->
  (forall k, ph <> CrCreated k) -> links cmds_eq job -> logged_write io job (w_store w) = (kept, st') ->
  (forall row, create_row (cr_phase c) row -> create_row ph row) ->
  row_inv (set_creation i (cr_goto ph (cr_child c) false c) (set_w_store st' w)).
Proof.
  intros Hw Hi Hph Hl Hne Hcreated Hj Hrun Hr. pose proof (logged_write_cmds _ _ _ _ _ Hj Hrun) as E.
  eapply rows_creation; [exact Hw|exact Hi|done|done|by left|by apply only_row_cmds|].
  pose proof (ri_creations w Hw i c Hi) as [H1 H2 H3]. unfold cmds_eq in E. split; [by apply goto_child|simpl; by rewrite Hl|simpl].
  intros id Hid. split; [done|]. destruct (H3 id Hid) as (_ & row & Hlk & [Hlost|Hcr]); [by rewrite Hl in Hlost|].
  exists row. rewrite E. split; [done|]. right. by apply Hr.
Qed.

Lemma rows_register w i c :
  row_inv w -> w_creations w !! i = Some c -> cr_phase c = CrRegister -> row_inv (register i c w).
Proof.
  intros Hw Hi Ep. pose proof (ri_creations w Hw i c Hi) as [H1 H2 H3].
  assert (cr_lost c = false) as Hl by (destruct (cr_lost c); [by rewrite Ep in H2; specialize (H2 eq_refl)|done]).
  unfold register. destruct (w_closed w).
  - apply rows_create_phase; [done|done|intros k; by rewrite Ep|done|done|]. intros id Hid. by rewrite Ep.
  - split; simpl.
    + intros k t Hk. apply lookup_snoc_Some in Hk as [[_ Hk]|[-> <-]]; [exact (ri_terminals w Hw k t Hk)|].
      split; simpl; [done|done|]. intros id Hid. destruct (H3 id Hid) as (_ & row & Hrow & [Hlost|Hcr]); [by rewrite Hl in Hlost|].
      exists row. split; [done|]. right. by rewrite Ep in Hcr.
    + intros j c0 Hj. apply list_lookup_insert_Some in Hj as [(<- & <- & _)|[_ Hj]]; [|exact (ri_creations w Hw j c0 Hj)].
      split; simpl; [done|by rewrite Hl|]. intros id Hid. split; [done|]. destruct (H3 id Hid) as (_ & row & Hrow & _).
      exists row. split; [done|by right].
    + intros j c0 Hj. apply list_lookup_insert_Some in Hj as [(<- & <- & _)|[_ Hj]]; [exact (ri_number w Hw i c Hi)|exact (ri_number w Hw j c0 Hj)].
    + rewrite length_insert. apply (ri_minted w Hw).
    + assert (forall k t, w_terminals w !! k = Some t -> N.to_nat (tm_number t) <> i) as Hni.
      { intros k t Hk Ei. destruct (ri_born w Hw k t Hk) as (c0 & Hc0 & Hp0 & _). rewrite Ei, Hi in Hc0. injection Hc0 as <-. by rewrite Ep in Hp0. }
      intros k t Hk. apply lookup_snoc_Some in Hk as [[_ Hk]|[-> <-]].
      * destruct (ri_born w Hw k t Hk) as (c0 & Hc0 & Hrest). exists c0.
        rewrite list_lookup_insert_ne; [done|]. intros Ei. by apply (Hni k t Hk).
      * exists (cr_goto (CrCreated (length (w_terminals w))) None false c). cbn [new_terminal tm_number].
        rewrite (ri_number w Hw i c Hi), Nat2N.id, list_lookup_insert_eq by (by eapply lookup_lt_Some). done.
    + intros j j' c0 c1 id Hj Hj'.
      assert (forall j c0, <[i := cr_goto (CrCreated (length (w_terminals w))) None false c]> (w_creations w) !! j = Some c0 ->
        exists c1, w_creations w !! j = Some c1 /\ cr_command c1 = cr_command c0) as Hback.
      { intros j0 c2 Hj0. apply list_lookup_insert_Some in Hj0 as [(<- & <- & _)|[_ Hj0]]; [by exists c|by exists c2]. }
      destruct (Hback j c0 Hj) as (d0 & Hd0 & E0). destruct (Hback j' c1 Hj') as (d1 & Hd1 & E1).
      rewrite <- E0, <- E1. exact (ri_ids w Hw j j' d0 d1 id Hd0 Hd1).
Qed.

Lemma closed_failed exit_status duration_ms now row : closed_row (finished_row CsFailed exit_status duration_ms now row).
Proof. split; [|by eexists]. apply bool_decide_eq_false. by intros [|]. Qed.

Lemma rows_create_finish w i c kind reason id io now kept st' :
  row_inv w -> w_creations w !! i = Some c -> cr_phase c = CrFinish kind reason -> cr_lost c = false -> cr_command c = Some id ->
  logged_write io (finish_command external id CsFailed None None now) (w_store w) = (kept, st') ->
  row_inv (set_creation i (cr_goto (if kept then CrLifecycle kind reason else CrRefused) (cr_child c) (negb kept) c) (set_w_store st' w)).
Proof.
  intros Hw Hi Ep Hl Hid Hrun.
  apply (rows_create_write w i c _ (cr_child c) (negb kept) id
    (if kept then finished_row CsFailed None None now else fun row => row)); [done|done|by intros k; rewrite Ep|by destruct kept|done|by destruct kept| |].
  - rewrite Hl. by destruct kept.
  - intros row Hrow. destruct (logged_write_run _ _ _ _ _ Hrun) as [(-> & u & Hok)|[-> ->]].
    + apply persist_update_run in Hok as (c' & Hc' & E & _). rewrite Hrow in Hc'. injection Hc' as <-. split; [done|]. right. apply closed_failed.
    + split; [by rewrite insert_id|]. left. apply orb_true_r.
Qed.

Lemma rows_create_row w i c io command_id now w' :
  row_inv w -> w_creations w !! i = Some c -> cr_phase c = CrRow -> cr_lost c = false ->
  cstep i (CiRow io command_id now) w = Some w' -> row_inv w'.
Proof.
  intros Hw Hi Ep Hl. unfold create_step. rewrite Hi. cbv zeta. rewrite Ep. unfold write_job. destruct io.
  - destruct (append_command _ _ _ _ _ _) as [[r st']|e] eqn:Er.
    + intros [= <-]. apply append_command_run in Er as (Hnone & Hrow & E & _).
      eapply rows_creation; [exact Hw|exact Hi|by intros k; rewrite Ep|done|right; by eexists|by eapply only_row_insert|].
      split; simpl; [done|by rewrite Hl|]. intros id [= <-]. split; [done|]. rewrite E, lookup_insert_eq. exists r.
      split; [done|]. right. by rewrite Hrow.
    + intros [= <-]. apply rows_create_phase; try done; [by intros k; rewrite Ep|].
      intros id Hid. by destruct (co_row _ _ (ri_creations w Hw i c Hi) id Hid) as [? _].
  - intros [= <-]. apply rows_create_phase; try done; [by intros k; rewrite Ep|].
    intros id Hid. by destruct (co_row _ _ (ri_creations w Hw i c Hi) id Hid) as [? _].
Qed.

Lemma create_step_rows i input w w' : row_inv w -> cstep i input w = Some w' -> row_inv w'.
Proof.
  intros Hw Hstep. pose proof Hstep as H. unfold create_step in H. destruct (w_creations w !! i) as [c|] eqn:Hi; [|done].
  cbv zeta in H. pose proof (ri_creations w Hw i c Hi) as [H1 H2 H3].
  assert (cr_phase c <> CrRefused -> cr_lost c = false) as Hl by (destruct (cr_lost c); [by intros []; apply H2|done]).
  destruct (cr_phase c) as [| | | | |kind reason|kind reason|reason| |k] eqn:Ep, input; try done; specialize (Hl ltac:(done)).
  - by eapply rows_create_row.
  - destruct outcome as [[]|reason]; injection H as <-.
    + apply rows_create_phase; try done; [by intros k; rewrite Ep|by destruct (cr_command c)|].
      intros id Hid. rewrite Hid, Ep. done.
    + apply rows_create_phase; try done; [by intros k; rewrite Ep|by intros k; unfold fail_phase; destruct (cr_command c)|].
      intros id Hid. unfold fail_phase. by rewrite Hid.
  - destruct (cr_command c) as [id|] eqn:Ec; [|done]. unfold write_job in H. destruct io.
    + destruct (start_command _ _ _ _) as [[u st']|e] eqn:Er; injection H as <-.
      * apply persist_update_run in Er as (c' & Hc' & E & _).
        apply (rows_create_write w i c _ (cr_child c) false id (started_row now)); try done; [by intros k; rewrite Ep|by rewrite Hl|].
        intros row Hrow. rewrite Hrow in Hc'. injection Hc' as <-. split; [done|by right].
      * apply rows_create_phase; try done. by intros k; rewrite Ep.
    + injection H as <-. apply rows_create_phase; try done. by intros k; rewrite Ep.
  - injection H as <-. by apply rows_register.
  - injection H as <-. apply rows_create_phase; try done; [by intros k; rewrite Ep|by intros k; unfold fail_phase; destruct (cr_command c)|].
    intros id Hid. unfold fail_phase. by rewrite Hid.
  - destruct (cr_command c) as [id|] eqn:Ec; [|done].
    destruct (logged_write _ _ _) as [kept st'] eqn:Er. injection H as <-. by eapply rows_create_finish.
  - destruct (cr_command c) as [id|] eqn:Ec; [|done].
    destruct (logged_write _ _ _) as [kept st'] eqn:Er. injection H as <-.
    eapply rows_create_event; [exact Hw|exact Hi|by intros k; rewrite Ep|done|done|done|apply append_event_cmds|exact Er|by rewrite Ep].
  - destruct (cr_command c) as [id|] eqn:Ec; [|done].
    destruct (logged_write _ _ _) as [kept st'] eqn:Er. injection H as <-.
    eapply rows_create_event; [exact Hw|exact Hi|by intros k; rewrite Ep|done|done|done|apply append_session_event_cmds|exact Er|by rewrite Ep].
Qed.

Lemma row_inv_ext w w' :
  w_store w' = w_store w -> w_minted w' = w_minted w -> w_terminals w' = w_terminals w -> w_creations w' = w_creations w ->
  row_inv w -> row_inv w'.
Proof. destruct w, w'. simpl. intros -> -> -> -> [H1 H2 H3 H4 H5 H6]. by split. Qed.

Lemma send_kill_cases t t' : send_kill t = Some t' -> exists n, t' = with_kills n t.
Proof.
  unfold send_kill. assert (exists n, t = with_kills n t) as Ht by (exists (tm_kills t); by destruct t).
  destruct (tm_owner t); try (destruct (_ <? _)%nat; [|done]); intros [= <-]; try (by eexists); done.
Qed.

Lemma rows_kills w k t n : row_inv w -> w_terminals w !! k = Some t -> row_inv (set_terminal k (with_kills n t) w).
Proof. intros Hw Hk. eapply rows_phase; [exact Hw|exact Hk|done..| |done]. exact (to_state _ _ (ri_terminals w Hw k t Hk)). Qed.

Lemma call_step_rows i w w' : row_inv w -> call_step i w = Some w' -> row_inv w'.
Proof.
  intros Hw. unfold call_step. destruct (w_calls w !! i) as [[kind []]|]; try done.
  - destruct (w_entries w !! _) as [k|]; [|intros [= <-]; by apply (row_inv_ext w)].
    destruct (w_terminals w !! k) as [t|]; [|done]. intros [= <-]. by case_bool_decide; apply (row_inv_ext w).
  - destruct (w_terminals w !! terminal) as [t|] eqn:Hk; [|done]. simpl. destruct (send_kill t) as [t'|] eqn:Es; [|done].
    intros [= <-]. apply send_kill_cases in Es as [n ->]. eapply (row_inv_ext (set_terminal terminal (with_kills n t) w)); try done.
    by apply rows_kills.
  - destruct (w_terminals w !! terminal ≫= tm_exit); [|done]. intros [= <-]. by apply (row_inv_ext w).
  - destruct (w_terminals w !! terminal); [|done]. intros [= <-]. by apply (row_inv_ext w).
Qed.

Lemma drain_step_rows i w w' : row_inv w -> drain_step i w = Some w' -> row_inv w'.
Proof.
  intros Hw. unfold drain_step. destruct (w_drains w !! i) as [[|[|k rest]|[|k rest]|]|]; try done.
  - intros [= <-]. by apply (row_inv_ext w).
  - destruct (w_terminals w !! k) as [t|] eqn:Hk; [|done]. destruct (tm_exit t); [intros [= <-]; by apply (row_inv_ext w)|].
    destruct (send_kill t) as [t'|] eqn:Es; [|done]. intros [= <-]. apply send_kill_cases in Es as [n ->].
    eapply (row_inv_ext (set_terminal k (with_kills n t) w)); try done. by apply rows_kills.
  - destruct (w_terminals w !! k ≫= tm_exit); [|done]. intros [= <-]. by apply (row_inv_ext w).
Qed.

Lemma start_creation_rows checked w : row_inv w -> row_inv (start_creation logging checked w).
Proof.
  intros [H1 H2 H3 H4 H5 H6]. split; simpl.
  - done.
  - intros i c Hi. apply lookup_snoc_Some in Hi as [[_ Hi]|[-> <-]]; [by apply (H2 i)|]. by split.
  - intros i c Hi. apply lookup_snoc_Some in Hi as [[_ Hi]|[-> <-]]; [by apply H3|done].
  - rewrite H4, length_app. simpl. lia.
  - intros k t Hk. destruct (H5 k t Hk) as (c & Hc & Hrest). exists c. split; [|done]. by apply lookup_app_l_Some.
  - intros i j c c' id Hi Hj Hc Hc'.
    apply lookup_snoc_Some in Hi as [[_ Hi]|[-> <-]]; [|done]. apply lookup_snoc_Some in Hj as [[_ Hj]|[-> <-]]; [|done].
    exact (H6 i j c c' id Hi Hj Hc Hc').
Qed.

Local Notation tstep := (term_step json_valid external logging output_payload lifecycle_payload finished_payload).

Lemma term_step_rows w w' : tstep w w' -> row_inv w -> row_inv w'.
Proof.
  intros [w0 checked|w0 i input w1 Hs|w0 i input w1 Hs|w0 kind session id|w0 i w1 Hs|w0|w0 i w1 Hs|w0 st' Hst] Hw.
  - by apply start_creation_rows.
  - by eapply create_step_rows.
  - by eapply owner_step_rows.
  - by apply (row_inv_ext w0).
  - by eapply call_step_rows.
  - by apply (row_inv_ext w0).
  - by eapply drain_step_rows.
  - destruct Hw as [H1 H2 H3 H4 H5 H6]. split; simpl; try done.
    + intros k t Hk. eapply terminal_ok_frame; [|by apply (H1 k)]. intros id Hid. apply Hst. right. by exists k, t.
    + intros i c Hi. eapply creation_ok_frame; [|by apply (H2 i)]. intros id Hid. apply Hst. left. by exists i, c.
Qed.

Lemma reachable_rows st w : rtc tstep (world_init st) w -> row_inv w.
Proof.
  intros Hr. assert (row_inv (world_init st)) as H0 by (split; simpl; try done; intros; by rewrite lookup_nil in *).
  revert H0. induction Hr as [|w1 w2 w3 Hs _ IH]; [done|]. intros H. apply IH. by eapply term_step_rows.
Qed.

(** ** The registry *)

Definition terminal_key (t : Terminal) : string * string := (am_session (tm_checked t), terminal_id (tm_number t)).

(** A release that removed terminal [k], or a drain that took it over. *)
Definition call_holds (k : nat) (call : CallKind * CallPhase) : Prop :=
  call.1 = CallRelease /\ (call.2 = ClSend k \/ call.2 = ClWait k).
Definition drain_holds (k : nat) (d : DrainPhase) : Prop :=
  match d with DrSend l | DrWait l => k ∈ l | DrStart | DrDone => False end.
Definition held (w : World) (k : nat) : Prop :=
  (exists call, call ∈ w_calls w /\ call_holds k call) \/ (exists d, d ∈ w_drains w /\ drain_holds k d).

Record reg_inv (w : World) : Prop := {
  rg_entries : forall key k, w_entries w !! key = Some k -> exists t, w_terminals w !! k = Some t /\ terminal_key t = key;
  rg_closed : w_closed w = true -> w_entries w = ∅;
  rg_live : (w_minted w <= 2 ^ 64)%N -> forall k t, w_terminals w !! k = Some t -> tm_exit t = None ->
    w_entries w !! terminal_key t = Some k \/ held w k;
}.

Lemma terminal_id_inj n m : (n < 2 ^ 64)%N -> (m < 2 ^ 64)%N -> terminal_id n = terminal_id m -> n = m.
Proof.
  intros Hn Hm H. apply (inj (String.append "term_")) in H. apply (inj pretty) in H.
  by rewrite !N.mod_small in H.
Qed.

(** Changes that keep entries, calls and drains. *)
Lemma reg_terminal w k t t' st' :
  reg_inv w -> w_terminals w !! k = Some t -> terminal_key t' = terminal_key t -> (tm_exit t' = None -> tm_exit t = None) ->
  reg_inv (set_terminal k t' (set_w_store st' w)).
Proof.
  intros [H1 H2 H3] Hk Ekey Hexit. split; simpl.
  - intros key k0 He. destruct (H1 key k0 He) as (t0 & Ht0 & E0). destruct (decide (k0 = k)) as [->|Hne].
    + exists t'. rewrite list_lookup_insert_eq by (by eapply lookup_lt_Some). split; [done|]. rewrite Hk in Ht0. injection Ht0 as <-. congruence.
    + exists t0. by rewrite list_lookup_insert_ne.
  - done.
  - intros Hm k0 t0 Ht0 Hx. apply list_lookup_insert_Some in Ht0 as [(<- & <- & _)|[_ Ht0]]; [|exact (H3 Hm k0 t0 Ht0 Hx)].
    rewrite Ekey. exact (H3 Hm k t Hk (Hexit Hx)).
Qed.

Lemma reg_terminal_same w k t t' :
  reg_inv w -> w_terminals w !! k = Some t -> terminal_key t' = terminal_key t -> (tm_exit t' = None -> tm_exit t = None) ->
  reg_inv (set_terminal k t' w).
Proof. intros. rewrite <- (set_w_store_same w). by eapply reg_terminal. Qed.

Lemma reg_ext w w' :
  w_entries w' = w_entries w -> w_closed w' = w_closed w -> w_terminals w' = w_terminals w ->
  (w_minted w <= w_minted w')%N -> (forall k, held w k -> held w' k) -> reg_inv w -> reg_inv w'.
Proof.
  intros E1 E2 E3 Hm Hh [H1 H2 H3]. split; [rewrite E1, E3; done|by rewrite E1, E2|].
  rewrite E1, E3. intros Hm' k t Hk Hx. destruct (H3 ltac:(lia) k t Hk Hx) as [?|?]; [by left|right; auto].
Qed.

Lemma owner_step_reg k input w w' : reg_inv w -> ostep k input w = Some w' -> reg_inv w'.
Proof.
  intros Hw. unfold owner_step. destruct (w_terminals w !! k) as [t|] eqn:Hk; [|done].
  destruct (tm_owner t), input; try done; try (destruct (tm_command t); [|done]);
    try (destruct (logged_write _ _ _) as [kept st']); try (destruct (tm_kills t); [done|]);
    intros [= <-]; (by eapply reg_terminal) || (eapply reg_terminal_same; [exact Hw|exact Hk|..]; done) || idtac.
  all: unfold take_chunk; destruct (tm_command t); eapply reg_terminal_same; [exact Hw|exact Hk|done..].
Qed.

(** A call that moves on holds what it held. *)
Lemma held_set_call w i call call' k :
  w_calls w !! i = Some call -> (call_holds k call -> call_holds k call') -> held w k -> held (set_call i call' w) k.
Proof.
  intros Hi Hc [(x & Hx & Hh)|Hd]; [left|by right]. apply list_elem_of_lookup in Hx as [j Hj].
  destruct (decide (j = i)) as [->|Hne].
  - rewrite Hi in Hj. injection Hj as <-. exists call'. split; [|by apply Hc].
    apply (list_elem_of_lookup_2 _ i). simpl. by rewrite list_lookup_insert_eq by (by eapply lookup_lt_Some).
  - exists x. split; [|done]. apply (list_elem_of_lookup_2 _ j). simpl. by rewrite list_lookup_insert_ne.
Qed.

Lemma held_set_drain w i d d' k :
  w_drains w !! i = Some d -> (drain_holds k d -> drain_holds k d') -> held w k -> held (set_drain i d' w) k.
Proof.
  intros Hi Hc [Hx|(x & Hx & Hh)]; [by left|right]. apply list_elem_of_lookup in Hx as [j Hj].
  destruct (decide (j = i)) as [->|Hne].
  - rewrite Hi in Hj. injection Hj as <-. exists d'. split; [|by apply Hc].
    apply (list_elem_of_lookup_2 _ i). simpl. by rewrite list_lookup_insert_eq by (by eapply lookup_lt_Some).
  - exists x. split; [|done]. apply (list_elem_of_lookup_2 _ j). simpl. by rewrite list_lookup_insert_ne.
Qed.

Lemma held_new_call w i call call' k :
  w_calls w !! i = Some call -> call_holds k call' -> held (set_call i call' w) k.
Proof.
  intros Hi Hh. left. exists call'. split; [|done]. apply (list_elem_of_lookup_2 _ i). simpl.
  by rewrite list_lookup_insert_eq by (by eapply lookup_lt_Some).
Qed.

Lemma held_new_drain w i d d' k :
  w_drains w !! i = Some d -> drain_holds k d' -> held (set_drain i d' w) k.
Proof.
  intros Hi Hh. right. exists d'. split; [|done]. apply (list_elem_of_lookup_2 _ i). simpl.
  by rewrite list_lookup_insert_eq by (by eapply lookup_lt_Some).
Qed.

Lemma call_lookup_reg w i kind session id k t :
  reg_inv w -> w_calls w !! i = Some (kind, ClLookup session id) -> w_entries w !! (session, id) = Some k ->
  w_terminals w !! k = Some t ->
  reg_inv (set_call i (kind, after_lookup kind k t)
    (if bool_decide (kind = CallRelease) then set_entries (delete (session, id) (w_entries w)) w else w)).
Proof.
  intros Hw Hi He Hk.
  assert (forall w0, w_calls w0 = w_calls w -> forall j, held w0 j -> held (set_call i (kind, after_lookup kind k t) w0) j) as Hheld.
  { intros w0 E j. apply (held_set_call w0 i (kind, ClLookup session id)); [by rewrite E|]. by intros [_ [|]]. }
  case_bool_decide as Hrel.
  2: { eapply (reg_ext w); try done. by apply Hheld. }
  destruct Hw as [H1 H2 H3]. split; simpl.
  - intros key k0 [_ H0]%lookup_delete_Some. by apply H1.
  - intros Hc. by rewrite (H2 Hc) in He.
  - intros Hm k0 t0 Ht0 Hx. destruct (decide (terminal_key t0 = (session, id))) as [Ekey|Hne].
    + assert (k0 = k \/ held w k0) as [->|Hh].
      { destruct (H3 Hm k0 t0 Ht0 Hx) as [H0|H0]; [|by right]. rewrite Ekey, He in H0. left. by injection H0. }
      * right. rewrite Hk in Ht0. injection Ht0 as <-. rewrite Hrel. apply (held_new_call _ i (kind, ClLookup session id)); [done|].
        split; [done|]. left. simpl. by rewrite Hx.
      * right. by apply (Hheld (set_entries (delete (session, id) (w_entries w)) w)).
    + rewrite lookup_delete_ne by done. destruct (H3 Hm k0 t0 Ht0 Hx) as [H0|H0]; [by left|].
      right. by apply (Hheld (set_entries (delete (session, id) (w_entries w)) w)).
Qed.

(** A wait that ends held only a terminal that has exited. *)
Lemma reg_released w w' k status :
  reg_inv w -> w_entries w' = w_entries w -> w_closed w' = w_closed w -> w_terminals w' = w_terminals w -> w_minted w' = w_minted w ->
  w_terminals w !! k ≫= tm_exit = Some status -> (forall j, j <> k -> held w j -> held w' j) -> reg_inv w'.
Proof.
  intros [H1 H2 H3] E1 E2 E3 E4 Hx Hh. split; [by rewrite E1, E3|by rewrite E1, E2|].
  rewrite E1, E3, E4. intros Hm j t Hj Hn. destruct (decide (j = k)) as [->|Hne].
  - rewrite Hj in Hx. simpl in Hx. congruence.
  - destruct (H3 Hm j t Hj Hn) as [?|?]; [by left|right; by apply Hh].
Qed.

Lemma call_step_reg i w w' : reg_inv w -> call_step i w = Some w' -> reg_inv w'.
Proof.
  intros Hw. unfold call_step. destruct (w_calls w !! i) as [[kind [session id|k|k|k|a]]|] eqn:Hi; try done.
  - destruct (w_entries w !! _) as [k|] eqn:He.
    + destruct (w_terminals w !! k) as [t|] eqn:Hk; [|done]. intros [= <-]. by apply call_lookup_reg.
    + intros [= <-]. apply (reg_ext w); try done. intros k. by apply (held_set_call w i _ _ k Hi); intros [_ [|]].
  - destruct (w_terminals w !! k) as [t|] eqn:Hk; [|done]. simpl. destruct (send_kill t) as [t'|] eqn:Es; [|done].
    intros [= <-]. apply send_kill_cases in Es as [n ->]. apply (reg_ext (set_terminal k (with_kills n t) w)); try done.
    + intros j. apply (held_set_call _ i (kind, ClSend k)); [done|]. intros [Hkind [H|H]]; split; simpl in *; [done| |done|done].
      right. by injection H as ->.
    + by eapply reg_terminal_same.
  - destruct (w_terminals w !! k ≫= tm_exit) as [status|] eqn:Hx; [|done]. intros [= <-].
    eapply (reg_released w _ k status); try done. intros j Hne. apply (held_set_call w i _ _ j Hi).
    intros [_ [H|H]]; simpl in H; [done|]. by injection H.
  - destruct (w_terminals w !! k); [|done]. intros [= <-]. apply (reg_ext w); try done.
    intros j. by apply (held_set_call w i _ _ j Hi); intros [_ [|]].
Qed.

Lemma drain_next k j rest : drain_holds j (DrWait (k :: rest)) -> j <> k -> drain_holds j (next_drain rest).
Proof. simpl. intros [->|H]%elem_of_cons Hne; [done|]. by destruct rest; [apply elem_of_nil in H|]. Qed.

Lemma drain_step_reg i w w' : reg_inv w -> drain_step i w = Some w' -> reg_inv w'.
Proof.
  intros Hw. unfold drain_step. destruct (w_drains w !! i) as [[|[|k rest]|[|k rest]|]|] eqn:Hi; try done.
  - intros [= <-]. destruct Hw as [H1 H2 H3]. split; [intros key k0; simpl; by rewrite lookup_empty|done|].
    intros Hm k t Hk Hx. simpl in Hk, Hm. right. destruct (H3 Hm k t Hk Hx) as [He|Hh].
    + apply (held_new_drain _ i DrStart); [done|]. apply elem_of_map_to_list in He.
      assert (k ∈ (map_to_list (w_entries w)).*2) as Hin by (by apply (list_elem_of_fmap_2 snd) in He).
      destruct ((map_to_list (w_entries w)).*2); [by apply elem_of_nil in Hin|done].
    + eapply held_set_drain; [exact Hi| |exact Hh]. done.
  - destruct (w_terminals w !! k) as [t|] eqn:Hk; [|done]. destruct (tm_exit t).
    + intros [= <-]. apply (reg_ext w); try done. intros j. by apply (held_set_drain w i _ _ j Hi).
    + destruct (send_kill t) as [t'|] eqn:Es; [|done]. intros [= <-]. apply send_kill_cases in Es as [n ->].
      apply (reg_ext (set_terminal k (with_kills n t) w)); try done; [|by eapply reg_terminal_same].
      intros j. by apply (held_set_drain _ i (DrSend (k :: rest))).
  - destruct (w_terminals w !! k ≫= tm_exit) as [status|] eqn:Hx; [|done]. intros [= <-].
    eapply (reg_released w _ k status); try done. intros j Hne. apply (held_set_drain w i _ _ j Hi).
    intros H. by eapply drain_next.
Qed.

Lemma register_reg w i c :
  row_inv w -> reg_inv w -> w_creations w !! i = Some c -> cr_phase c = CrRegister -> reg_inv (register i c w).
Proof.
  intros Hr Hw Hi Ep. unfold register. destruct (w_closed w) eqn:Ecl; [by apply (reg_ext w)|].
  destruct Hw as [H1 H2 H3]. split; simpl.
  - intros key k [[<- <-]|[_ H]]%lookup_insert_Some.
    + exists (new_terminal c). split; [|done]. by apply list_lookup_middle.
    + destruct (H1 key k H) as (t & Ht & Ek). exists t. split; [by apply lookup_app_l_Some|done].
  - done.
  - intros Hm k t Hk Hx. apply lookup_snoc_Some in Hk as [[_ Hk]|[-> <-]]; [|left; apply lookup_insert_eq].
    destruct (H3 Hm k t Hk Hx) as [He|Hh]; [left|by right].
    rewrite lookup_insert_ne; [done|]. intros Hkey.
    assert (terminal_id (cr_number c) = terminal_id (tm_number t)) as Eid by exact (f_equal snd Hkey).
    destruct (ri_born w Hr k t Hk) as (c0 & Hc0 & Hp0 & _).
    pose proof (lookup_lt_Some _ _ _ Hi) as Li. pose proof (lookup_lt_Some _ _ _ Hc0) as L0.
    rewrite (ri_minted w Hr) in Hm. rewrite (ri_number w Hr i c Hi) in Eid.
    apply terminal_id_inj in Eid; [|lia|lia]. rewrite <- Eid, Nat2N.id, Hi in Hc0. injection Hc0 as <-. congruence.
Qed.

Lemma create_step_reg i input w w' : row_inv w -> reg_inv w -> cstep i input w = Some w' -> reg_inv w'.
Proof.
  intros Hr Hw. unfold create_step. destruct (w_creations w !! i) as [c|] eqn:Hi; [|done]. cbv zeta.
  destruct (cr_phase c) eqn:Ep, input; try done.
  - destruct (write_job _ _ _) as [[r st']|]; intros [= <-]; by apply (reg_ext w).
  - destruct outcome; intros [= <-]; by apply (reg_ext w).
  - destruct (cr_command c); [|done]. destruct (write_job _ _ _) as [[r st']|]; intros [= <-]; by apply (reg_ext w).
  - intros [= <-]. by apply register_reg.
  - intros [= <-]. by apply (reg_ext w).
  - destruct (cr_command c); [|done]. destruct (logged_write _ _ _). intros [= <-]. by apply (reg_ext w).
  - destruct (cr_command c); [|done]. destruct (logged_write _ _ _). intros [= <-]. by apply (reg_ext w).
  - destruct (cr_command c); [|done]. destruct (logged_write _ _ _). intros [= <-]. by apply (reg_ext w).
Qed.

Lemma term_step_reg w w' : tstep w w' -> row_inv w -> reg_inv w -> reg_inv w'.
Proof.
  intros [w0 checked|w0 i input w1 Hs|w0 i input w1 Hs|w0 kind session id|w0 i w1 Hs|w0|w0 i w1 Hs|w0 st' Hst] Hr Hw.
  - apply (reg_ext w0); try done. simpl. lia.
  - by eapply create_step_reg.
  - by eapply owner_step_reg.
  - apply (reg_ext w0); try done. intros k [(x & Hx & Hh)|Hd]; [left|by right]. exists x. split; [|done]. apply elem_of_app. by left.
  - by eapply call_step_reg.
  - apply (reg_ext w0); try done. intros k [Hx|(d & Hd & Hh)]; [by left|right]. exists d. split; [|done]. apply elem_of_app. by left.
  - by eapply drain_step_reg.
  - by apply (reg_ext w0).
Qed.

Lemma reachable_reg st w : rtc tstep (world_init st) w -> reg_inv w.
Proof.
  intros Hr. assert (row_inv (world_init st) /\ reg_inv (world_init st)) as [H0 H1].
  { split; [apply (reachable_rows st); constructor|]. split; simpl; try done; intros; by rewrite ?lookup_nil, ?lookup_empty in *. }
  revert H0 H1. induction Hr as [|w1 w2 w3 Hs _ IH]; [done|]. intros H0 H1.
  apply IH; [by eapply term_step_rows|by eapply term_step_reg].
Qed.

(** A terminal whose exit status is out. *)
Lemma exited_terminal st t status :
  terminal_ok st t -> tm_exit t = Some status -> tm_owner t = OwEnded /\ over status (tm_child t).
Proof.
  intros [_ H2 _] Hx. rewrite Hx in H2.
  destruct (tm_owner t) as [| | |? ? back| | | | |]; simpl in H2; try (by destruct H2).
  - destruct back; simpl in H2; by destruct H2.
  - by destruct H2 as (? & ? & [= ->]).
Qed.

(** C15. A published exit is the last thing that happens to a terminal. Under any
    interleaving of creations, output, kill requests, releases, shutdown and other
    writers, once an exit status can be observed the child has been reaped, or, if
    the wait for it failed and so the status has no exit code, its process group was
    sent SIGKILL; the buffer is final with all output given to it, and, unless the
    database refused a write of the row, the command's row is closed with the verdict
    that belongs to that status: canceled, exited with code 0, or failed. *)
Theorem exit_published_last st w k t status :
  rtc tstep (world_init st) w -> w_terminals w !! k = Some t -> tm_exit t = Some status ->
  tm_owner t = OwEnded
  /\ (tm_child t = ChildReaped \/ tm_child t = ChildKilled /\ xs_code status = None)
  /\ tm_buffer t = buffer_after (tm_seen t) (am_limit (tm_checked t))
  /\ forall id, tm_command t = Some id -> exists row, st_commands (w_store w) !! id = Some row
       /\ (tm_lost t = true \/ exists e, status = en_status e /\ final_row e row /\ closed_row row).
Proof.
  intros Hr Hk Hx. pose proof (ri_terminals w (reachable_rows st w Hr) k t Hk) as [H1 H2 H3].
  destruct (exited_terminal (w_store w) t status ltac:(by split) Hx) as [Eo Hch]. rewrite Hx, Eo in H3.
  split_and!; [done|done|done|]. intros id Hid.
  destruct (H3 id Hid) as (row & Hrow & [Hl|(e & [= ->] & Hf)]); exists row; (split; [done|]); [by left|].
  right. exists e. split_and!; [done|done|by eapply final_row_closed].
Qed.

(** No release and no drain is still at work. *)
Definition teardown_idle (w : World) : Prop :=
  (forall call, call ∈ w_calls w -> call.1 = CallRelease -> exists a, call.2 = ClAnswered a)
  /\ (forall d, d ∈ w_drains w -> d = DrDone).

(** C16. Shutdown leaves no child to itself. Once the registry is closed, whenever
    no release and no drain is still at work, the registry is empty and every terminal
    ever registered has published its status, with its child reaped or, if the wait
    for it failed, its process group sent SIGKILL. A creation whose child still runs
    has not returned; when it comes to registering it, it registers nothing and goes
    on to kill it, so this stays so. (Fewer than 2^64 terminals have been created.) *)
Theorem shutdown_reaps_all st w :
  rtc tstep (world_init st) w -> (w_minted w <= 2 ^ 64)%N -> w_closed w = true -> teardown_idle w ->
  w_entries w = ∅
  /\ (forall k t, w_terminals w !! k = Some t -> tm_child t <> ChildRunning /\ is_Some (tm_exit t))
  /\ (forall i c, w_creations w !! i = Some c -> cr_child c = Some ChildRunning ->
        cr_phase c <> CrRefused /\ forall k, cr_phase c <> CrCreated k)
  /\ (forall i c w', w_creations w !! i = Some c -> cstep i CiRegister w = Some w' ->
        w_terminals w' = w_terminals w /\ exists c', w_creations w' !! i = Some c' /\ cr_phase c' = CrKill).
Proof.
  intros Hr Hm Hc [Hcalls Hdrains]. pose proof (reachable_rows st w Hr) as Hrow. destruct (reachable_reg st w Hr) as [H1 H2 H3].
  split; [by apply H2|]. split; [|split].
  - intros k t Hk. destruct (tm_exit t) as [status|] eqn:Hx.
    + split; [|by eexists]. destruct (exited_terminal _ t status (ri_terminals w Hrow k t Hk) Hx) as [_ [->|[-> _]]]; done.
    + exfalso. destruct (H3 Hm k t Hk Hx) as [He|[(call & Hin & Hrel & Hph)|(d & Hin & Hd)]].
      * by rewrite (H2 Hc), lookup_empty in He.
      * destruct (Hcalls call Hin Hrel) as [a Ha]. rewrite Ha in Hph. by destruct Hph.
      * by rewrite (Hdrains d Hin) in Hd.
  - intros i c Hi. exact (co_child _ _ (ri_creations w Hrow i c Hi)).
  - intros i c w' Hi. unfold create_step. rewrite Hi. cbv zeta. destruct (cr_phase c); try done. intros [= <-].
    unfold register. rewrite Hc. split; [done|]. simpl.
    rewrite list_lookup_insert_eq by (by eapply lookup_lt_Some). by eexists.
Qed.

(** C32. What [terminal/output] answers is the newest output: at every moment, of
    all the text a terminal has produced so far, the longest run of whole characters
    at the end that fits the byte limit, although the buffer is trimmed chunk by
    chunk; the limit is never exceeded, less than one character of it is wasted once
    output was cut, and the answer says so exactly when something was dropped. *)
Theorem output_is_newest st w k t :
  rtc tstep (world_init st) w -> w_terminals w !! k = Some t ->
  let limit := am_limit (tm_checked t) in
  let output := newest (tm_seen t) limit in
  read_output t = OutputAnswer output (limit <? str_len (tm_seen t))%nat (tm_exit t)
  /\ (str_len output <= limit)%nat
  /\ (exists dropped, tm_seen t = dropped ++ output /\ (dropped = [] <-> (str_len (tm_seen t) <= limit)%nat))
  /\ ((limit < str_len (tm_seen t))%nat -> (limit < str_len output + 4)%nat).
Proof.
  intros Hr Hk limit output. pose proof (to_buffer _ _ (ri_terminals w (reachable_rows st w Hr) k t Hk)) as Hb.
  split_and!; [|apply newest_length| |apply newest_full].
  - unfold read_output. rewrite Hb, keep_newest_spec. cbn [buffer_after tb_data tb_truncated].
    fold limit output. rewrite (newest_fits output limit) by apply newest_length.
    rewrite (proj2 (Nat.ltb_ge limit (str_len output))) by apply newest_length. by rewrite orb_false_r.
  - destruct (newest_suffix (tm_seen t) limit) as [dropped E]. fold output in E. exists dropped. split; [done|]. split.
    + intros ->. simpl in E. rewrite E. apply newest_length.
    + intros Hle. unfold output in E. rewrite (newest_fits _ _ Hle) in E.
      apply (f_equal length) in E. rewrite length_app in E. by destruct dropped; [|simpl in E; lia].
Qed.
End row_steps.

(** ** A concrete run *)

Inductive Move :=
| MvCreate (checked : Checked)
| MvCreation (i : nat) (input : CreateInput)
| MvOwner (i : nat) (input : OwnerInput)
| MvArrive (kind : CallKind) (session id : string)
| MvCall (i : nat)
| MvShutdown
| MvDrain (i : nat).

Definition demo_payload : string := "{}".
Definition demo_move (m : Move) (w : World) : option World :=
  match m with
  | MvCreate checked => Some (start_creation true checked w)
  | MvCreation i input => create_step (fun _ => true) false (fun _ _ _ _ _ _ => demo_payload) (fun _ => demo_payload) i input w
  | MvOwner i input =>
      owner_step (fun _ => true) false (fun _ _ _ _ => demo_payload) (fun _ _ _ _ _ _ => demo_payload) (fun _ => demo_payload) i input w
  | MvArrive kind session id =>
      Some (mkWorld (w_store w) (w_entries w) (w_closed w) (w_minted w) (w_terminals w) (w_creations w)
              (w_calls w ++ [(kind, ClLookup session id)]) (w_drains w))
  | MvCall i => call_step i w
  | MvShutdown =>
      Some (mkWorld (w_store w) (w_entries w) (w_closed w) (w_minted w) (w_terminals w) (w_creations w)
              (w_calls w) (w_drains w ++ [DrStart]))
  | MvDrain i => drain_step i w
  end.

Fixpoint demo_run (ms : list Move) (w : World) : option World :=
  match ms with [] => Some w | m :: rest => demo_move m w ≫= demo_run rest end.

Local Notation demo_step := (term_step (fun _ => true) false true (fun _ _ _ _ => demo_payload)
  (fun _ _ _ _ _ _ => demo_payload) (fun _ => demo_payload)).

Lemma demo_run_steps ms w w' : demo_run ms w = Some w' -> rtc demo_step w w'.
Proof.
  revert w. induction ms as [|m ms IH]; intros w; simpl; [by intros [= <-]|].
  destruct (demo_move m w) as [w1|] eqn:E; [|done]. simpl. intros H. eapply rtc_l; [|by apply IH].
  destruct m; simpl in E; try (injection E as <-);
    first [by eapply ts_create|by eapply ts_creation|by eapply ts_owner|by eapply ts_arrive|by eapply ts_call|by eapply ts_shutdown|by eapply ts_drain].
Qed.

Definition demo_checked : Checked :=
  mkChecked "agent-s" "ses_1" "/work" (lit "sh", [lit "-c"; lit "ls"]) ∅ "ls" None 4.

(** A terminal that prints six bytes under a limit of four, is killed by the
    shutdown, and a second creation that comes too late. *)
Definition demo_moves : list Move :=
  [MvCreate demo_checked; MvCreation 0 (CiRow true "cmd_1" "t0"); MvCreation 0 (CiSpawn (Ok tt));
   MvCreation 0 (CiStart true "t1" ""); MvCreation 0 CiRegister;
   MvOwner 0 (OiChunk "stdout" (lit "abcd")); MvOwner 0 (OiWrite true "evt_1" "t2");
   MvCreate demo_checked; MvCreation 1 (CiRow true "cmd_2" "t2"); MvCreation 1 (CiSpawn (Ok tt)); MvCreation 1 (CiStart true "t2" "");
   MvShutdown; MvDrain 0; MvDrain 0; MvOwner 0 OiKill; MvOwner 0 (OiKilled KilledAfterGrace true);
   MvOwner 0 (OiChunk "stdout" (lit "ef")); MvOwner 0 (OiWrite true "evt_2" "t3"); MvOwner 0 OiDrained;
   MvOwner 0 (OiFinish true (Some 5) "t4"); MvOwner 0 (OiWrite true "evt_3" "t4"); MvOwner 0 (OiWrite true "evt_4" "t4");
   MvOwner 0 OiPublish; MvDrain 0; MvCreation 1 CiRegister].

Definition demo_world : World := default (world_init empty_store) (demo_run demo_moves (world_init empty_store)).

Lemma demo_reached : rtc demo_step (world_init empty_store) demo_world.
Proof.
  assert (demo_run demo_moves (world_init empty_store) = Some demo_world) as E.
  { unfold demo_world. destruct (demo_run demo_moves (world_init empty_store)) eqn:E; [done|].
    exfalso. assert (is_Some (demo_run demo_moves (world_init empty_store))) as [? H] by (vm_compute; by eexists). by rewrite E in H. }
  exact (demo_run_steps _ _ _ E).
Qed.

Definition demo_terminal : option Terminal := w_terminals demo_world !! 0%nat.
Lemma demo_terminal_exit :
  exists t, w_terminals demo_world !! 0%nat = Some t /\ tm_exit t = Some (mkExit None (Some "SIGKILL"%string))
    /\ tm_seen t = lit "abcdef" /\ am_limit (tm_checked t) = 4%nat /\ tm_command t = Some "cmd_1"%string /\ tm_lost t = false.
Proof. vm_compute. eexists. split; [reflexivity|]. repeat split. Qed.

Lemma exit_published_last_witness :
  exists t, w_terminals demo_world !! 0%nat = Some t /\ tm_child t <> ChildRunning
    /\ exists row, st_commands (w_store demo_world) !! "cmd_1"%string = Some row /\ closed_row row.
Proof.
  destruct demo_terminal_exit as (t & Ht & Hx & _ & _ & Hc & Hl).
  pose proof (exit_published_last (fun _ => true) false true (fun _ _ _ _ => demo_payload)
    (fun _ _ _ _ _ _ => demo_payload) (fun _ => demo_payload) empty_store demo_world 0%nat t _ demo_reached Ht Hx) as (_ & Hch & _ & Hrow).
  exists t. split; [exact Ht|]. split; [by destruct Hch as [->|[-> _]]|]. destruct (Hrow _ Hc) as (row & Hr & [Hlost|(e & _ & _ & Hclosed)]).
  - rewrite Hl in Hlost. discriminate.
  - exists row. split; [exact Hr|exact Hclosed].
Defined.

Lemma demo_quiet :
  (forall call, call ∈ w_calls demo_world -> call.1 = CallRelease -> exists a, call.2 = ClAnswered a)
  /\ (forall d, d ∈ w_drains demo_world -> d = DrDone).
Proof.
  assert (w_calls demo_world = []) as Ec by (vm_compute; reflexivity).
  assert (w_drains demo_world = [DrDone]) as Ed by (vm_compute; reflexivity).
  rewrite Ec, Ed. clear Ec Ed. split; [by intros call ?%elem_of_nil|]. by intros d ->%list_elem_of_singleton.
Qed.

Lemma shutdown_reaps_all_witness :
  w_entries demo_world = ∅ /\ exists t, w_terminals demo_world !! 0%nat = Some t /\ tm_child t <> ChildRunning.
Proof.
  destruct demo_terminal_exit as (t & Ht & _).
  assert ((w_minted demo_world <= 2 ^ 64)%N) as Hm by (vm_compute; discriminate).
  assert (w_closed demo_world = true) as Hc by (vm_compute; reflexivity).
  pose proof (shutdown_reaps_all (fun _ => true) false true (fun _ _ _ _ => demo_payload)
    (fun _ _ _ _ _ _ => demo_payload) (fun _ => demo_payload) empty_store demo_world demo_reached Hm Hc
    demo_quiet) as (He & Hall & _).
  split; [exact He|]. exists t. split; [exact Ht|]. exact (proj1 (Hall 0%nat t Ht)).
Defined.

Lemma output_is_newest_witness :
  exists t, w_terminals demo_world !! 0%nat = Some t
    /\ read_output t = OutputAnswer (lit "cdef") true (Some (mkExit None (Some "SIGKILL"%string))).
Proof.
  destruct demo_terminal_exit as (t & Ht & Hx & Hs & Hl & _).
  exists t. split; [exact Ht|].
  pose proof (output_is_newest (fun _ => true) false true (fun _ _ _ _ => demo_payload)
    (fun _ _ _ _ _ _ => demo_payload) (fun _ => demo_payload) empty_store demo_world 0%nat t demo_reached Ht) as [Hr _].
  rewrite Hs, Hl, Hx in Hr. exact Hr.
Defined.
