(* ===== verification/HttpHardening.v ===== *)
(** HTTP hardening (src/src/http_hardening.rs): which address a request counts
    as coming from, which browser origins are let in, the block an address
    earns by failing to authenticate, and the three token buckets.

    Instants are nanoseconds; every call reads the clock itself, so a reading is
    an argument. The two concurrent maps are finite maps; one call holds the
    lock of its entry, and a call that takes the lock twice ([check]) is two
    steps. Header values are what [HeaderValue::to_str] gives: a text, or
    nothing for bytes it refuses. *)

From S2P Require Import Prelude Text Duration Redaction.
From Stdlib Require Import SpecFloat.
Open Scope Z_scope.

(** ** Addresses and headers *)

(** [IpAddr] with its [FromStr] and [Display]. *)
Class IpText (IpAddr : Type) `{Countable IpAddr} := {
  parse_ip : str -> option IpAddr;
  ip_to_string : IpAddr -> str;
  parse_ip_to_string : forall ip, parse_ip (ip_to_string ip) = Some ip;
}.

(** The values of every header, in order of arrival; names are lower case. *)
Notation HeaderMap := (string -> list (option str)) (only parsing).

(** [HeaderMap::get]: the first value; [contains_key]. *)
Definition header_get (headers : HeaderMap) (name : string) : option (option str) := head (headers name).
Definition contains_key (headers : HeaderMap) (name : string) : bool :=
  match headers name with [] => false | _ => true end.

(** [headers.get(name).and_then(|v| v.to_str().ok())]. *)
Definition header_text (headers : HeaderMap) (name : string) : option str := mjoin (header_get headers name).

Record SecurityHttpConfig := mkSecurityHttp {
  max_request_bytes : Z;
  rate_limit_per_minute : Z;
  burst : Z;
  auth_failures_per_minute : Z;
  auth_block_duration : str;
  allowed_origins : list str;
  trust_proxy_headers : bool;
  trusted_proxies : list str;
}.

(** The fields of [CloudflareEdgeConfig] this code reads. *)
Record CloudflareEdgeConfig := mkCloudflare { cf_enabled : bool; cf_exposure : str }.

Record HttpConfig := mkHttpConfig {
  security_http : SecurityHttpConfig;
  edge_cloudflare : option CloudflareEdgeConfig;
}.

Record RequestOrigin := mkOrigin {
  origin_kind : str;
  proxy_provider : option str;
  ro_client_ip : option str;
  country_code : option str;
  region_code : option str;
  region_name : option str;
  cloudflare_ray_id : option str;
}.

(** [str::trim_matches] with one character. *)
Definition trim_matches (c : char) (s : str) : str :=
  reverse (drop_while (Z.eqb c) (reverse (drop_while (Z.eqb c) s))).

Definition strip_prefix (prefix s : str) : option str :=
  if starts_with prefix s then Some (drop (length prefix) s) else None.

(** [char::is_control]. *)
Definition is_control (c : char) : bool := in_range 0 31 c || in_range 127 159 c.

Section origin.
Context `{IpText IpAddr}.

Definition trusted_proxy_peer (peer : IpAddr) (sec : SecurityHttpConfig) : bool :=
  if negb (trust_proxy_headers sec) then false
  else existsb (fun trusted => bool_decide (trusted = peer)) (omap parse_ip (trusted_proxies sec)).

(** The [for part in text.split(';')] loop over the [Forwarded] header. *)
Fixpoint forwarded_for (parts : list str) : option IpAddr :=
  match parts with
  | [] => None
  | part :: parts' =>
      match strip_prefix (lit "for=") (trim part) ≫= fun rest => parse_ip (trim_matches dquote (trim rest)) with
      | Some ip => Some ip
      | None => forwarded_for parts'
      end
  end.

Definition client_ip (headers : HeaderMap) (peer : IpAddr) (sec : SecurityHttpConfig) : IpAddr :=
  if negb (trust_proxy_headers sec) then peer
  else if negb (trusted_proxy_peer peer sec) then peer
  else
    match header_text headers "x-forwarded-for" ≫= fun text =>
            head (split_char (chr ",") text []) ≫= fun first => parse_ip (trim first) with
    | Some ip => ip
    | None =>
        match header_text headers "forwarded" ≫= fun text => forwarded_for (split_char (chr ";") text []) with
        | Some ip => ip
        | None => peer
        end
    end.

Definition parse_header_ip (headers : HeaderMap) (name : string) : option IpAddr :=
  header_text headers name ≫= fun text => parse_ip (trim text).

Definition bounded_header (headers : HeaderMap) (name : string) (max_len : nat) : option str :=
  header_text headers name ≫= fun text =>
  let value := trim text in
  if bool_decide (value = []) || (max_len <? str_len value)%nat || existsb is_control value
  then None else Some value.

Definition cloudflare_enabled (config : HttpConfig) : bool :=
  match edge_cloudflare config with
  | Some cloudflare => cf_enabled cloudflare && str_eqb (cf_exposure cloudflare) (lit "tunnel")
  | None => false
  end.

Definition request_origin (headers : HeaderMap) (peer : option IpAddr) (config : HttpConfig) : RequestOrigin :=
  match peer with
  | None => mkOrigin (lit "unknown") None None None None None None
  | Some peer =>
      let peer_trusted := trusted_proxy_peer peer (security_http config) in
      let enabled := cloudflare_enabled config in
      if enabled && peer_trusted then
        let ip := match parse_header_ip headers "cf-connecting-ip" with
                  | Some ip => ip
                  | None => client_ip headers peer (security_http config)
                  end in
        let has_cloudflare_header := contains_key headers "cf-ray"
          || contains_key headers "cf-connecting-ip" || contains_key headers "cf-ipcountry" in
        mkOrigin
          (if has_cloudflare_header then lit "cloudflare" else lit "trusted_proxy_missing_cloudflare")
          (Some (lit "cloudflare")) (Some (ip_to_string ip))
          (bounded_header headers "cf-ipcountry" 2) (bounded_header headers "cf-region-code" 16)
          (bounded_header headers "cf-region" 64) (bounded_header headers "cf-ray" 64)
      else
        let ip := client_ip headers peer (security_http config) in
        mkOrigin
          (if enabled then lit "direct" else if peer_trusted then lit "trusted_proxy" else lit "direct")
          None (Some (ip_to_string ip)) None None None None
  end.

End origin.

Definition origin_allowed (origin : option str) (sec : SecurityHttpConfig) : bool :=
  match allowed_origins sec, origin with
  | [], _ => true
  | _, None => true
  | _, Some origin =>
      existsb (fun allowed => str_eqb allowed (lit "*") || str_eqb allowed origin) (allowed_origins sec)
  end.

(** ** The auth-failure block *)

Record BlockState := mkBlock { window_start : Z; count : Z; blocked_until : option Z }.

Definition FAILURE_WINDOW : Z := from_secs 60.

Section blocker.
Context `{Countable IpAddr}.

Record AuthFailureBlocker := mkBlockerOf {
  failures_per_minute : Z;
  block_duration : Z;
  block_state : gmap IpAddr BlockState;
}.

Definition with_block_state (state : gmap IpAddr BlockState) (b : AuthFailureBlocker) : AuthFailureBlocker :=
  mkBlockerOf (failures_per_minute b) (block_duration b) state.

Definition blocker_from_config (sec : SecurityHttpConfig) : AuthFailureBlocker :=
  mkBlockerOf (auth_failures_per_minute sec)
    (default (from_secs (15 * 60)) (parse_duration_string (auth_block_duration sec))) ∅.

(** What the first lock of [check] decides: let the request through, reject it,
    or clear the entry under a second lock. *)
Inductive CheckRead := CheckFree | CheckElapsed | CheckBlocked (until : Z).

Definition check_read (ip : IpAddr) (now : Z) (b : AuthFailureBlocker) : CheckRead :=
  match block_state b !! ip ≫= blocked_until with
  | None => CheckFree
  | Some until => if until <=? now then CheckElapsed else CheckBlocked until
  end.

Definition check_clear (ip : IpAddr) (now : Z) (b : AuthFailureBlocker) : AuthFailureBlocker :=
  with_block_state (alter (fun _ => mkBlock now 0 None) ip (block_state b)) b.

(** Both locks in a row, with no other call in between. *)
Definition check (ip : IpAddr) (now : Z) (b : AuthFailureBlocker) : option Z * AuthFailureBlocker :=
  match check_read ip now b with
  | CheckFree => (None, b)
  | CheckElapsed => (None, check_clear ip now b)
  | CheckBlocked until => (Some until, b)
  end.

(** An elapsed block is forgotten, then an elapsed window. *)
Definition drop_elapsed_block (now : Z) (entry : BlockState) : BlockState :=
  match blocked_until entry with
  | Some until => if until <=? now then mkBlock now 0 None else entry
  | None => entry
  end.

Definition drop_elapsed_window (now : Z) (entry : BlockState) : BlockState :=
  if FAILURE_WINDOW <=? Z.max 0 (now - window_start entry)
  then mkBlock now 0 (blocked_until entry) else entry.

(** [created] is the second clock reading, in [BlockState::default]. *)
Definition record_failure (ip : IpAddr) (now created : Z) (b : AuthFailureBlocker) : bool * AuthFailureBlocker :=
  let entry := default (mkBlock created 0 None) (block_state b !! ip) in
  let entry := drop_elapsed_window now (drop_elapsed_block now entry) in
  let entry := mkBlock (window_start entry) (count entry + 1) (blocked_until entry) in
  let trip := (failures_per_minute b <=? count entry)
              && match blocked_until entry with None => true | Some _ => false end in
  let entry := if trip then mkBlock (window_start entry) (count entry) (Some (now + block_duration b)) else entry in
  (trip, with_block_state (<[ip := entry]> (block_state b)) b).

Definition record_success (ip : IpAddr) (b : AuthFailureBlocker) : AuthFailureBlocker :=
  with_block_state (alter (fun entry => mkBlock (window_start entry) 0 None) ip (block_state b)) b.

End blocker.
Arguments AuthFailureBlocker IpAddr {_ _}.
#[global] Arguments record_failure : simpl never.
#[global] Arguments check_clear : simpl never.
#[global] Arguments record_success : simpl never.

(** ** Token buckets *)

(** [f64] is IEEE 754 binary64, rounding to nearest even. *)
Notation f64 := spec_float (only parsing).
Definition f64_of (n : Z) : f64 := binary_normalize 53 1024 n 0 false.
Definition f64_add : f64 -> f64 -> f64 := SFadd 53 1024.
Definition f64_sub : f64 -> f64 -> f64 := SFsub 53 1024.
Definition f64_mul : f64 -> f64 -> f64 := SFmul 53 1024.
Definition f64_div : f64 -> f64 -> f64 := SFdiv 53 1024.
(** [f64::min]: a NaN loses. *)
Definition f64_min (a b : f64) : f64 :=
  match a, b with
  | S754_nan, _ => b
  | _, S754_nan => a
  | _, _ => if SFltb b a then b else a
  end.

(** [Duration::as_secs_f64]. *)
Definition as_secs_f64 (d : Z) : f64 :=
  f64_add (f64_of (d / 1000000000)) (f64_div (f64_of (d mod 1000000000)) (f64_of 1000000000)).

Record TokenBucket := mkBucket { tokens : f64; last_refill : Z }.

Inductive RateLimitScope := PerIp | PerKey | Unauthenticated.

Definition scope_as_str (s : RateLimitScope) : str :=
  match s with
  | PerIp => lit "per_ip"
  | PerKey => lit "per_key"
  | Unauthenticated => lit "unauthenticated"
  end.

Definition try_acquire `{Countable K} (map : gmap K TokenBucket) (key : K) (capacity refill_per_sec : f64) (now : Z)
  : bool * gmap K TokenBucket :=
  let entry := default (mkBucket capacity now) (map !! key) in
  let elapsed := as_secs_f64 (Z.max 0 (now - last_refill entry)) in
  let refilled := f64_min (f64_add (tokens entry) (f64_mul elapsed refill_per_sec)) capacity in
  if SFleb (f64_of 1) refilled
  then (true, <[key := mkBucket (f64_sub refilled (f64_of 1)) now]> map)
  else (false, <[key := mkBucket refilled now]> map).

Section limiter.
Context `{Countable IpAddr}.

Record RateLimiter := mkLimiter {
  auth_capacity : f64;
  auth_refill_per_sec : f64;
  unauth_capacity : f64;
  unauth_refill_per_sec : f64;
  per_ip : gmap IpAddr TokenBucket;
  per_key : gmap str TokenBucket;
  unauth : gmap IpAddr TokenBucket;
}.

(** [u64::div_ceil]. *)
Definition div_ceil (a b : Z) : Z := (a + b - 1) / b.

Definition limiter_from_config (sec : SecurityHttpConfig) : RateLimiter :=
  mkLimiter (f64_of (Z.max 1 (burst sec)))
    (f64_div (f64_of (Z.max 1 (rate_limit_per_minute sec))) (f64_of 60))
    (f64_of (Z.max 1 (div_ceil (burst sec) 4)))
    (f64_div (f64_of (Z.max 1 (div_ceil (rate_limit_per_minute sec) 4))) (f64_of 60))
    ∅ ∅ ∅.

Definition check_per_ip (ip : IpAddr) (now : Z) (l : RateLimiter) : result RateLimitScope unit * RateLimiter :=
  let (granted, map) := try_acquire (per_ip l) ip (auth_capacity l) (auth_refill_per_sec l) now in
  (if granted then Ok tt else Err PerIp,
   mkLimiter (auth_capacity l) (auth_refill_per_sec l) (unauth_capacity l) (unauth_refill_per_sec l)
     map (per_key l) (unauth l)).

Definition check_per_key (fingerprint : str) (now : Z) (l : RateLimiter) : result RateLimitScope unit * RateLimiter :=
  let (granted, map) := try_acquire (per_key l) fingerprint (auth_capacity l) (auth_refill_per_sec l) now in
  (if granted then Ok tt else Err PerKey,
   mkLimiter (auth_capacity l) (auth_refill_per_sec l) (unauth_capacity l) (unauth_refill_per_sec l)
     (per_ip l) map (unauth l)).

Definition check_unauthenticated (ip : IpAddr) (now : Z) (l : RateLimiter) : result RateLimitScope unit * RateLimiter :=
  let (granted, map) := try_acquire (unauth l) ip (unauth_capacity l) (unauth_refill_per_sec l) now in
  (if granted then Ok tt else Err Unauthenticated,
   mkLimiter (auth_capacity l) (auth_refill_per_sec l) (unauth_capacity l) (unauth_refill_per_sec l)
     (per_ip l) (per_key l) map).

End limiter.
Arguments RateLimiter IpAddr {_ _}.

(** ** Addresses: proxy headers count only from a trusted peer *)

Section origin_facts.
Context `{IpText IpAddr}.

Lemma client_ip_untrusted headers peer sec :
  trusted_proxy_peer peer sec = false -> client_ip headers peer sec = peer.
Proof. intros Ht. unfold client_ip. rewrite Ht. by destruct (trust_proxy_headers sec). Qed.

(** Whatever headers a request carries, a peer that is not a configured
    trusted proxy is accounted under its own socket address: no forwarding
    header moves its failures, its block or its rate to another address, and no
    edge metadata of the request is believed. *)
Theorem untrusted_peer_speaks_for_itself headers peer config :
  trusted_proxy_peer peer (security_http config) = false ->
  request_origin headers (Some peer) config
  = mkOrigin (lit "direct") None (Some (ip_to_string peer)) None None None None.
Proof.
  intros Ht. unfold request_origin. rewrite Ht, andb_false_r, client_ip_untrusted by done.
  by destruct (cloudflare_enabled config).
Qed.

(** The header lengths and characters an accepted origin may carry. *)
Lemma bounded_header_ok headers name n v :
  bounded_header headers name n = Some v ->
  v <> [] /\ (str_len v <= n)%nat /\ Forall (fun c => is_control c = false) v.
Proof.
  unfold bounded_header. intros (text & _ & Hv)%bind_Some.
  destruct (bool_decide_reflect (trim text = [])) as [|Hne]; [done|].
  destruct (n <? str_len (trim text))%nat eqn:Hl; [done|].
  destruct (existsb is_control (trim text)) eqn:Hc; simplify_eq/=.
  split; [done|]. split; [by apply Nat.ltb_ge|].
  apply Forall_forall. intros c Hin. destruct (is_control c) eqn:E; [|done].
  assert (existsb is_control (trim text) = true); [|congruence].
  apply existsb_exists. exists c. split; [by apply list_elem_of_In|done].
Qed.
End origin_facts.

(** ** The block holds for its whole duration *)

Section block_facts.
Context `{Countable IpAddr}.
Implicit Types (b : AuthFailureBlocker IpAddr) (ip : IpAddr).

(** The calls of all threads, in the order their locks are granted; [CClear] is
    the second lock of a [check] that read an elapsed block. *)
Inductive Call :=
| CRead (ip : IpAddr) (now : Z)
| CClear (ip : IpAddr) (now : Z)
| CFailure (ip : IpAddr) (now created : Z)
| CSuccess (ip : IpAddr).

(** The blocker, and the checks that are between their two locks. *)
Notation machine := (AuthFailureBlocker IpAddr * list (IpAddr * Z))%type (only parsing).

Inductive blocker_step : Call -> machine -> machine -> Prop :=
| step_read ip now b p :
    check_read ip now b <> CheckElapsed -> blocker_step (CRead ip now) (b, p) (b, p)
| step_elapsed ip now b p :
    check_read ip now b = CheckElapsed -> blocker_step (CRead ip now) (b, p) (b, (ip, now) :: p)
| step_clear ip now b p1 p2 :
    blocker_step (CClear ip now) (b, p1 ++ (ip, now) :: p2) (check_clear ip now b, p1 ++ p2)
| step_failure ip now created b p :
    blocker_step (CFailure ip now created) (b, p) ((record_failure ip now created b).2, p)
| step_success ip b p :
    blocker_step (CSuccess ip) (b, p) (record_success ip b, p).

Inductive blocker_steps : list Call -> machine -> machine -> Prop :=
| steps_nil m : blocker_steps [] m m
| steps_cons c cs m m' m'' :
    blocker_step c m m' -> blocker_steps cs m' m'' -> blocker_steps (c :: cs) m m''.

(** A call that concerns [ip] reads the clock before [until] and is no success. *)
Definition early (ip : IpAddr) (until : Z) (c : Call) : Prop :=
  match c with
  | CRead ip' now | CClear ip' now | CFailure ip' now _ => ip' = ip -> now < until
  | CSuccess ip' => ip' <> ip
  end.

(** [ip] is blocked until [until], and no check of [ip] is about to clear it. *)
Definition holds (ip : IpAddr) (until : Z) (m : machine) : Prop :=
  (exists e, block_state m.1 !! ip = Some e /\ blocked_until e = Some until)
  /\ Forall (fun q => q.1 <> ip) m.2.

Lemma record_failure_entry ip now created b ip' :
  block_state (record_failure ip now created b).2 !! ip' =
    if bool_decide (ip' = ip) then
      let entry := default (mkBlock created 0 None) (block_state b !! ip) in
      let entry := drop_elapsed_window now (drop_elapsed_block now entry) in
      let trip := (record_failure ip now created b).1 in
      Some (mkBlock (window_start entry) (count entry + 1)
              (if trip then Some (now + block_duration b) else blocked_until entry))
    else block_state b !! ip'.
Proof.
  unfold record_failure. simpl. case_bool_decide as E.
  - subst. rewrite lookup_insert_eq. by case_match.
  - by rewrite lookup_insert_ne.
Qed.

Lemma trip_sets_block ip now created b b' :
  record_failure ip now created b = (true, b') ->
  exists e, block_state b' !! ip = Some e /\ blocked_until e = Some (now + block_duration b).
Proof.
  intros E. pose proof (record_failure_entry ip now created b ip) as Hl.
  rewrite bool_decide_eq_true_2 in Hl by done. rewrite E in Hl. simpl in Hl. eauto.
Qed.

(** A failure counted while the block stands neither lifts nor moves it. *)
Lemma failure_keeps_block ip now created b e until :
  block_state b !! ip = Some e -> blocked_until e = Some until -> now < until ->
  (record_failure ip now created b).1 = false
  /\ exists e', block_state (record_failure ip now created b).2 !! ip = Some e' /\ blocked_until e' = Some until.
Proof.
  intros He Hb Hlt.
  assert (Hb2 : blocked_until (drop_elapsed_window now (drop_elapsed_block now e)) = Some until).
  { unfold drop_elapsed_block. rewrite Hb. destruct (Z.leb_spec until now); [lia|].
    unfold drop_elapsed_window. by case_match. }
  assert (Hf : (record_failure ip now created b).1 = false).
  { unfold record_failure. rewrite He. simpl. by rewrite Hb2, andb_false_r. }
  split; [done|]. rewrite record_failure_entry, bool_decide_eq_true_2, Hf, He by done. simpl. eauto.
Qed.

Lemma blocker_step_holds ip until c m m' :
  holds ip until m -> early ip until c -> blocker_step c m m' -> holds ip until m'.
Proof.
  intros [(e & He & Hb) Hp] Hc Hs. destruct Hs as [ip' now b p _|ip' now b p Hr|ip' now b p1 p2|
    ip' now created b p|ip' b p]; cbn [fst snd early] in *.
  - split; [by exists e|done].
  - split; [by exists e|]. constructor; [|done]. cbn [fst]. intros ->.
    unfold check_read in Hr. rewrite He in Hr. simpl in Hr. rewrite Hb in Hr.
    case_match eqn:Hu; [|done]. apply Z.leb_le in Hu. specialize (Hc eq_refl). lia.
  - apply Forall_app in Hp as [Hp1 [Hne Hp2]%Forall_cons]. split; [|by apply Forall_app].
    exists e. split; [|done]. simpl. by rewrite lookup_alter_ne.
  - split; [|done]. destruct (decide (ip' = ip)) as [->|Hne].
    + by apply (failure_keeps_block ip now created b e until He Hb), Hc.
    + exists e. split; [|done]. cbn [fst]. rewrite record_failure_entry.
      by rewrite bool_decide_eq_false_2 by congruence.
  - split; [|done]. exists e. split; [|done]. simpl. by rewrite lookup_alter_ne.
Qed.

Lemma blocker_steps_holds ip until cs m m' :
  holds ip until m -> Forall (early ip until) cs -> blocker_steps cs m m' -> holds ip until m'.
Proof.
  intros Hm Hcs Hs. induction Hs as [|c cs m m1 m2 Hstep _ IH]; [done|].
  apply Forall_cons in Hcs as [Hc Hcs]. apply IH; [|done]. by eapply blocker_step_holds.
Qed.

(** Once the failure that reaches the threshold is recorded, the address
    stays blocked until exactly the configured duration later, through every
    interleaving of further failures, checks and other addresses' calls; only a
    successful authentication from that address lifts it. The one exception is
    a check that had already read an older, elapsed block and not yet cleared it. *)
Theorem block_lasts ip t created b b' p cs m t' :
  record_failure ip t created b = (true, b') ->
  Forall (fun q => q.1 <> ip) p ->
  blocker_steps cs (b', p) m ->
  Forall (early ip (t + block_duration b)) cs ->
  check_read ip t' m.1
  = if t' <? t + block_duration b then CheckBlocked (t + block_duration b) else CheckElapsed.
Proof.
  intros Htrip Hp Hs Hcs.
  destruct (blocker_steps_holds ip (t + block_duration b) cs (b', p) m) as [(e & He & Hb) _]; try done.
  { split; [by apply (trip_sets_block ip t created b b')|done]. }
  unfold check_read. rewrite He. simpl. rewrite Hb.
  destruct (Z.ltb_spec t' (t + block_duration b)); case_match eqn:E; bool_hyps; done || lia.
Qed.
End block_facts.

(** ** The threshold *)

Section threshold.
Context `{Countable IpAddr}.
Implicit Types (b : AuthFailureBlocker IpAddr) (ip : IpAddr).
Notation machine := (AuthFailureBlocker IpAddr * list (IpAddr * Z))%type (only parsing).










End threshold.

(** ** IPv4 texts *)

(** The dotted form of [Ipv4Addr]: four decimal octets without leading zeros. *)
Record Ipv4 := mkIpv4 { octet_a : Byte.byte; octet_b : Byte.byte; octet_c : Byte.byte; octet_d : Byte.byte }.

#[export] Instance byte_eq_dec : EqDecision Byte.byte := Byte.byte_eq_dec.
#[export] Program Instance byte_countable : Countable Byte.byte := inj_countable Byte.to_N Byte.of_N _.
Next Obligation. apply Byte.of_to_N. Qed.
#[export] Instance Ipv4_eq_dec : EqDecision Ipv4.
Proof. solve_decision. Defined.
#[export] Program Instance Ipv4_countable : Countable Ipv4 :=
  inj_countable' (fun i => (octet_a i, octet_b i, octet_c i, octet_d i))
    (fun '(a, b, c, d) => mkIpv4 a b c d) _.
Next Obligation. by intros [????]. Qed.

Definition octet_text (b : Byte.byte) : str := decimal (Z.of_N (Byte.to_N b)).

Definition parse_octet (s : str) : option Byte.byte :=
  if (1 <? length s)%nat && bool_decide (head s = Some (chr "0")) then None
  else if forallb is_ascii_digit s then parse_u64 s ≫= fun v => Byte.of_N (Z.to_N v) else None.

Definition ipv4_text (i : Ipv4) : str :=
  join [chr "."] [octet_text (octet_a i); octet_text (octet_b i); octet_text (octet_c i); octet_text (octet_d i)].

Definition parse_ipv4 (s : str) : option Ipv4 :=
  match split_char (chr ".") s [] with
  | [a; b; c; d] =>
      a ← parse_octet a; b ← parse_octet b; c ← parse_octet c; d ← parse_octet d; Some (mkIpv4 a b c d)
  | _ => None
  end.

Lemma parse_octet_text b : parse_octet (octet_text b) = Some b.
Proof. by destruct b; vm_compute. Qed.

Lemma octet_text_plain b : forallb (fun c => negb (c =? chr ".")) (octet_text b) = true.
Proof. by destruct b; vm_compute. Qed.

Lemma parse_ipv4_text i : parse_ipv4 (ipv4_text i) = Some i.
Proof.
  destruct i as [a b c d]. unfold parse_ipv4, ipv4_text. cbn [join octet_a octet_b octet_c octet_d app].
  do 3 rewrite split_char_word by apply octet_text_plain.
  rewrite split_char_last by apply octet_text_plain. cbn [reverse rev_append app].
  by rewrite !parse_octet_text.
Qed.

#[export] Instance Ipv4_text : IpText Ipv4 :=
  {| parse_ip := parse_ipv4; ip_to_string := ipv4_text; parse_ip_to_string := parse_ipv4_text |}.

(** ** Witnesses *)

Definition demo_ip (last : Byte.byte) : Ipv4 := mkIpv4 Byte.x7f Byte.x00 Byte.x00 last.
Definition demo_sec (failures : Z) (block : string) : SecurityHttpConfig :=
  mkSecurityHttp 1024 60 8 failures (lit block) [] true [lit "127.0.0.9"].
Definition demo_http (failures : Z) (block : string) : HttpConfig := mkHttpConfig (demo_sec failures block) None.

(** A forwarding header from a peer that is not the trusted proxy. *)
Definition demo_headers : string -> list (option str) :=
  fun name => if bool_decide (name = "x-forwarded-for"%string) then [Some (lit "203.0.113.7, 10.0.0.1")] else [].

Lemma untrusted_peer_speaks_for_itself_witness :
  ro_client_ip (request_origin demo_headers (Some (demo_ip Byte.x01)) (demo_http 3 "15m")) = Some (lit "127.0.0.1")
  /\ ro_client_ip (request_origin demo_headers (Some (demo_ip Byte.x09)) (demo_http 3 "15m")) = Some (lit "203.0.113.7").
Proof.
  split; [|vm_compute; reflexivity].
  assert (Ht : trusted_proxy_peer (demo_ip Byte.x01) (demo_sec 3 "15m") = false) by (vm_compute; reflexivity).
  rewrite (untrusted_peer_speaks_for_itself demo_headers (demo_ip Byte.x01) (demo_http 3 "15m") Ht).
  vm_compute. reflexivity.
Defined.

(** Three failures in a minute block the address for a quarter of an hour. *)
Definition demo_two : AuthFailureBlocker Ipv4 :=
  (record_failure (demo_ip Byte.x01) 2 2
    (record_failure (demo_ip Byte.x01) 1 1 (blocker_from_config (demo_sec 3 "15m"))).2).2.
Definition demo_trip : AuthFailureBlocker Ipv4 := (record_failure (demo_ip Byte.x01) 3 3 demo_two).2.

Lemma block_lasts_witness :
  check_read (demo_ip Byte.x01) (from_secs 60) demo_trip = CheckBlocked (3 + block_duration demo_two)
  /\ block_duration demo_two = from_secs 900.
Proof.
  split; [|vm_compute; reflexivity].
  assert (Hb : (record_failure (demo_ip Byte.x01) 3 3 demo_two).1 = true) by (vm_compute; reflexivity).
  assert (Ht : record_failure (demo_ip Byte.x01) 3 3 demo_two = (true, demo_trip))
    by (rewrite <- Hb; apply surjective_pairing).
  pose proof (block_lasts (demo_ip Byte.x01) 3 3 demo_two demo_trip [] [] (demo_trip, []) (from_secs 60)
    Ht (Forall_nil_2 _) (steps_nil (demo_trip, [])) (Forall_nil_2 _)) as Hr.
  cbn [fst] in Hr. rewrite Hr. vm_compute. reflexivity.
Defined.



(** A check that has read an elapsed block clears whatever block stands when it
    takes its second lock: here the address has just been blocked again. *)
Lemma check_clears_fresh_block :
  exists (b b' : AuthFailureBlocker Ipv4) (ip : Ipv4) (t : Z),
    check_read ip t b = CheckElapsed
    /\ record_failure ip t t b = (true, b')
    /\ check_read ip t b' = CheckBlocked (t + block_duration b')
    /\ check_read ip t (check_clear ip t b') = CheckFree.
Proof.
  set (b := (record_failure (demo_ip Byte.x01) 0 0 (blocker_from_config (demo_sec 1 "1s"))).2).
  exists b, (record_failure (demo_ip Byte.x01) (from_secs 1) (from_secs 1) b).2, (demo_ip Byte.x01), (from_secs 1).
  assert (Hb : (record_failure (demo_ip Byte.x01) (from_secs 1) (from_secs 1) b).1 = true) by (vm_compute; reflexivity).
  split; [vm_compute; reflexivity|]. split; [by rewrite <- Hb, <- surjective_pairing|].
  split; vm_compute; reflexivity.
Qed.

(** ** The buckets at one instant *)

(** The answers to [n] requests for one key at one clock reading. *)
Fixpoint acquire_at (n : nat) (m : gmap nat TokenBucket) (capacity refill : f64) (now : Z) : list bool :=
  match n with
  | O => []
  | S n' => let (granted, m') := try_acquire m 0%nat capacity refill now in
            granted :: acquire_at n' m' capacity refill now
  end.

Definition burst_exact (burst : nat) : bool :=
  let limiter := limiter_from_config (IpAddr := nat)
    (mkSecurityHttp 1024 60 (Z.of_nat burst) 10 (lit "15m") [] false []) in
  bool_decide (acquire_at (burst + 2) ∅ (auth_capacity limiter) (auth_refill_per_sec limiter) 0
               = replicate burst true ++ [false; false]).

(** A full bucket grants exactly the configured burst, then refuses: the
    floating-point counting is exact, checked for every burst up to 200. *)
Lemma burst_is_exact : forallb burst_exact (seq 1 200) = true.
Proof. vm_compute. reflexivity. Qed.

(** A bucket left alone for a second at sixty per minute regains one token. *)
Example refill_one_per_second :
  let limiter := limiter_from_config (IpAddr := nat) (mkSecurityHttp 1024 60 2 10 (lit "15m") [] false []) in
  let cap := auth_capacity limiter in
  let rate := auth_refill_per_sec limiter in
  let m := (try_acquire (try_acquire (∅ : gmap nat TokenBucket) 0%nat cap rate 0).2 0%nat cap rate 0).2 in
  (try_acquire m 0%nat cap rate (from_secs 1 - 1)).1 = false
  /\ (try_acquire m 0%nat cap rate (from_secs 1)).1 = true.
Proof. vm_compute. done. Qed.
