(* ===== verification/Async.v ===== *)
(** Asynchronous handlers as interleaved programs.

    A request handler runs on a multi-threaded executor: between any two of its
    lock acquisitions, database writes or other atomic actions, other handlers
    may run. A program is the tree of its atomic actions; a pool runs any number
    of programs in any interleaving, with further arrivals and with changes by
    the rest of the daemon in between. Safety of the pool follows from each
    program's own rely/guarantee triple. *)

From S2P Require Import Prelude.

Section programs.
(** [St]: what the programs share. [Env]: what an action takes from outside
    (clock readings, fresh ids, whether a write reached the disk). *)
Context {Env St : Type}.

Inductive Proc (A : Type) : Type :=
| Done (a : A)
| Act (run : Env -> St -> St * Proc A).
Arguments Done {A} _.
Arguments Act {A} _.

Lemma Proc_tree_ind {A} (P : Proc A -> Prop) :
  (forall a, P (Done a)) -> (forall run, (forall e s, P (run e s).2) -> P (Act run)) -> forall p, P p.
Proof.
  intros HD HA. fix IH 1. intros [a|run]; [apply HD|]. apply HA. intros e s.
  destruct (run e s) as [s' p']. apply IH.
Qed.

(** Sequential composition. *)
Fixpoint pbind {A B} (p : Proc A) (f : A -> Proc B) : Proc B :=
  match p with
  | Done a => f a
  | Act run => Act (fun e s => let (s', p') := run e s in (s', pbind p' f))
  end.

(** One atomic action with a result. *)
Definition atomic {A} (f : Env -> St -> A * St) : Proc A :=
  Act (fun e s => let (a, s') := f e s in (s', Done a)).

(** ** Rely and guarantee *)

Section triples.
(** [E]: what an action may be handed; [R]: what others may do between two
    actions; [G]: what an action does. *)
Context (E : Env -> Prop) (R G : St -> St -> Prop).

(** From [s] on, every action of [p] is in [G], whatever [R] does before it, and
    [p] finishes in a state where [Q] holds of its result. *)
Fixpoint safe {A} (Q : A -> St -> Prop) (p : Proc A) (s : St) : Prop :=
  match p with
  | Done a => Q a s
  | Act run => forall e s1, E e -> R s s1 ->
      match run e s1 with (s2, p2) => G s1 s2 /\ safe Q p2 s2 end
  end.

Definition stable {A} (Q : A -> St -> Prop) : Prop := forall a s s', Q a s -> R s s' -> Q a s'.

Lemma safe_bind {A B} (Q : B -> St -> Prop) (p : Proc A) (f : A -> Proc B) s :
  safe (fun a s => safe Q (f a) s) p s -> safe Q (pbind p f) s.
Proof.
  revert s. induction p as [a|run IH] using Proc_tree_ind; intros s; [done|]. simpl. intros Hp e s1 He H1.
  specialize (Hp e s1 He H1). specialize (IH e s1).
  destruct (run e s1) as [s2 p2]. destruct Hp as [HG Hp]. split; [done|].
  by apply IH.
Qed.

Lemma safe_atomic {A} (Q : A -> St -> Prop) (f : Env -> St -> A * St) s :
  (forall e s1, E e -> R s s1 -> let (a, s2) := f e s1 in G s1 s2 /\ Q a s2) -> safe Q (atomic f) s.
Proof. intros Hf e s1 He H1. specialize (Hf e s1 He H1). by destruct (f e s1). Qed.

Lemma safe_mono {A} (Q Q' : A -> St -> Prop) p s :
  (forall a s, Q a s -> Q' a s) -> safe Q p s -> safe Q' p s.
Proof.
  intros HQ. revert s. induction p as [a|run IH] using Proc_tree_ind; intros s; [apply HQ|]. simpl. intros Hp e s1 He H1.
  specialize (Hp e s1 He H1). specialize (IH e s1).
  destruct (run e s1) as [s2 p2]. destruct Hp as [HG Hp]. split; [done|]. by apply IH.
Qed.

Lemma safe_rely {A} `{!Transitive R} (Q : A -> St -> Prop) p s s' :
  stable Q -> safe Q p s -> R s s' -> safe Q p s'.
Proof.
  intros HQ. destruct p as [a|run]; [apply HQ|]. simpl. intros Hp H1 e s1 He H2. apply Hp; [done|]. by trans s'.
Qed.
End triples.

(** ** Pools *)

Section pools.
Context {Req A : Type} (program : Req -> Proc A) (E : Env -> Prop) (interferes : St -> St -> Prop).

(** A request, the state it arrived in, and what is left of its program. *)
Notation pool := (list (Req * St * Proc A)) (only parsing).

Inductive pool_step : St * pool -> St * pool -> Prop :=
| step_arrive s ts req :
    pool_step (s, ts) (s, ts ++ [(req, s, program req)])
| step_act s ts i t run e s' p' :
    ts !! i = Some (t, Act run) -> E e -> run e s = (s', p') ->
    pool_step (s, ts) (s', <[i := (t, p')]> ts)
| step_interfere s ts s' :
    interferes s s' -> pool_step (s, ts) (s', ts).

(** Run the threads in a given order, handing each action its input. *)
Fixpoint schedule (order : list (nat * Env)) (m : St * pool) : option (St * pool) :=
  match order with
  | [] => Some m
  | (i, e) :: order' =>
      match m.2 !! i with
      | Some (t, Act run) => let (s', p') := run e m.1 in schedule order' (s', <[i := (t, p')]> m.2)
      | _ => None
      end
  end.

Lemma schedule_steps order m m' :
  Forall (fun x => E x.2) order -> schedule order m = Some m' -> rtc pool_step m m'.
Proof.
  revert m. induction order as [|[i e] order IH]; intros [s ts]; simpl; [by intros _ [= <-]|].
  intros [He Ho]%Forall_cons. destruct (ts !! i) as [[t [a|run]]|] eqn:Ei; [done| |done].
  destruct (run e s) as [s' p'] eqn:Er. intros Hm.
  eapply rtc_l; [by eapply step_act|]. by apply IH.
Qed.

(** What thread [i] answers at the end of a schedule. *)
Definition schedule_answer (order : list (nat * Env)) (m : St * pool) (i : nat) : option A :=
  match schedule order m with
  | Some m' => match m'.2 !! i with Some (_, Done a) => Some a | _ => None end
  | None => None
  end.

Lemma schedule_tags order m m' : schedule order m = Some m' -> m'.2.*1 = m.2.*1.
Proof.
  revert m. induction order as [|[i e] order IH]; intros [s ts]; simpl; [by intros [= <-]|].
  destruct (ts !! i) as [[t [a|run]]|] eqn:Ei; [done| |done].
  destruct (run e s) as [s' p']. intros Hm%IH. rewrite Hm. simpl.
  rewrite list_fmap_insert. simpl. apply list_insert_id. by rewrite list_lookup_fmap, Ei.
Qed.

Lemma schedule_answer_steps order m i a req s p :
  Forall (fun x => E x.2) order -> m.2 !! i = Some (req, s, p) -> schedule_answer order m i = Some a ->
  exists m', schedule order m = Some m' /\ rtc pool_step m m' /\ (req, s, Done a) ∈ m'.2.
Proof.
  intros HE Hi. unfold schedule_answer. destruct (schedule order m) as [m'|] eqn:Em; [|done].
  destruct (m'.2 !! i) as [[t [a'|run]]|] eqn:Ei; [|done|done]. intros [= ->].
  exists m'. split; [done|]. split; [by eapply schedule_steps|].
  apply list_elem_of_lookup. exists i. rewrite Ei. f_equal. f_equal.
  assert (Ht : m'.2.*1 !! i = m.2.*1 !! i) by by rewrite (schedule_tags _ _ _ Em).
  rewrite !list_lookup_fmap, Hi, Ei in Ht. by simplify_eq/=.
Qed.

Context (R G : St -> St -> Prop) `{!PreOrder R}.
Context (Inv : St -> Prop) (Q : Req -> St -> A -> St -> Prop).
Context (Hguarantee : forall s s', G s s' -> R s s') (Hinterferes : forall s s', interferes s s' -> R s s').
Context (Hinv : forall s s', Inv s -> R s s' -> Inv s').
Context (Hstable : forall req s, stable R (Q req s)).
Context (Hprogram : forall req s, Inv s -> safe E R G (Q req s) (program req) s).

Definition pool_ok (m : St * pool) : Prop :=
  Inv m.1 /\ forall req s p, (req, s, p) ∈ m.2 -> safe E R G (Q req s) p m.1.

Lemma pool_step_ok m m' : pool_ok m -> pool_step m m' -> pool_ok m'.
Proof.
  intros [Hi Hm] Hs.
  assert (Hmove : forall s s' (ts : list (Req * St * Proc A)),
    (forall req s0 p, (req, s0, p) ∈ ts -> safe E R G (Q req s0) p s) -> R s s' ->
    forall req s0 p, (req, s0, p) ∈ ts -> safe E R G (Q req s0) p s').
  { intros s s' ts Hts Hr req s0 p Hin. apply (safe_rely E R G (Q req s0) p s s'); auto. }
  destruct Hs as [s ts req|s ts i [req s0] run e s' p' Hlk He Hrun|s ts s' He]; simpl in *.
  - split; [done|]. intros req' s1 p. simpl. intros [Hin|[= -> -> ->]%list_elem_of_singleton]%elem_of_app; auto.
  - pose proof (Hm req s0 (Act run) (list_elem_of_lookup_2 _ _ _ Hlk)) as Hp. simpl in Hp.
    specialize (Hp e s He ltac:(reflexivity)). rewrite Hrun in Hp. destruct Hp as [HG Hp].
    split; [simpl; eauto|]. intros req' s1 p'' Hin. simpl in *.
    apply list_elem_of_lookup_1 in Hin as [j Hj].
    destruct (decide (j = i)) as [->|Hne].
    + rewrite list_lookup_insert_eq in Hj by by eapply lookup_lt_Some. by simplify_eq.
    + rewrite list_lookup_insert_ne in Hj by done. apply (Hmove s s' ts); auto.
      by apply (list_elem_of_lookup_2 _ j).
  - split; [simpl; eauto|]. intros req s1 p Hin. simpl in *. apply (Hmove s s' ts); auto.
Qed.

(** In every reachable pool, a finished program's result satisfies its
    postcondition in the current state. *)
Lemma pool_safe s0 m req s a :
  Inv s0 -> rtc pool_step (s0, []) m -> (req, s, Done a) ∈ m.2 -> Q req s a m.1.
Proof.
  intros H0 Hr. assert (Hok : pool_ok m).
  { assert (Hp : pool_ok (s0, [])).
    { split; [done|]. intros req' s' p' Hin. simpl in Hin. by apply not_elem_of_nil in Hin. }
    clear H0. revert Hp. induction Hr as [m|m m' m'' Hs _ IH]; [done|]. intros Hm. apply IH. by apply (pool_step_ok m). }
  intros Hin. exact (proj2 Hok req s (Done a) Hin).
Qed.
End pools.
End programs.
Arguments Proc Env St A : clear implicits.
Arguments Done {Env St A} _.
Arguments Act {Env St A} _.

Declare Scope proc_scope.
Delimit Scope proc_scope with proc.
Notation "'let%' x ':=' p 'in' q" := (pbind p (fun x => q))
  (at level 10, x pattern, p at level 100, q at level 200) : proc_scope.
Notation "p ';%' q" := (pbind p (fun _ => q)) (at level 100, right associativity) : proc_scope.
