(* ===== verification/Posix.v ===== *)
(** The file system the walker runs on: inodes, directory entries and the
    system calls relative to a directory descriptor, as the kernel documents
    them.

    A descriptor is the inode it refers to, which outlives its entries. A call
    handed a fault fails with it and changes nothing, so every error a kernel may
    return on its own account is covered. Names and contents are bytes. *)

From S2P Require Import Prelude Async.
Open Scope Z_scope.
Open Scope result_scope.

Notation inode := Z (only parsing).
Notation name := (list Z) (only parsing).

Inductive Errno := ENOENT | ENOTDIR | ELOOP | EEXIST | EISDIR | ENOTEMPTY | EINVAL | EPERM | EOther (code : Z).
#[export] Instance Errno_eq_dec : EqDecision Errno.
Proof. solve_decision. Defined.

Record Meta := mkMeta { m_uid : Z; m_gid : Z; m_mode : Z; m_mtime : Z }.

(** A directory knows its parent, for [..]; a removed one accepts no entry. *)
Inductive Node :=
| NFile (content : list Z)
| NDir (entries : gmap name inode) (parent : inode) (removed : bool)
| NSymlink (target : list Z)
| NSpecial.

#[export] Instance Meta_eq_dec : EqDecision Meta.
Proof. solve_decision. Defined.
#[export] Instance Node_eq_dec : EqDecision Node.
Proof. solve_decision. Defined.

Record Fs := mkFs {
  fs_nodes : gmap inode (Meta * Node);
  fs_next : inode;
}.

Definition dotdot : name := [46; 46].

Definition node_of (s : Fs) (i : inode) : option Node := snd <$> fs_nodes s !! i.
Definition is_dir (s : Fs) (i : inode) : Prop := exists entries parent removed, node_of s i = Some (NDir entries parent removed).
Definition entries_of (s : Fs) (d : inode) : gmap name inode :=
  match node_of s d with Some (NDir entries _ _) => entries | _ => ∅ end.

(** Every entry, and how many name an inode: [st_nlink] of a file. *)
Definition all_entries (s : Fs) : list (inode * name * inode) :=
  map_to_list (fs_nodes s) ≫= fun d => (fun e : name * inode => (d.1, e.1, e.2)) <$> map_to_list (entries_of s d.1).
Definition nlink (s : Fs) (i : inode) : Z := Z.of_nat (length (filter (fun e : inode * name * inode => e.2 = i) (all_entries s))).

Definition set_node (i : inode) (n : Node) (s : Fs) : Fs :=
  mkFs (alter (fun mn : Meta * Node => (mn.1, n)) i (fs_nodes s)) (fs_next s).

(** What the kernel hands a call: a fault of its own, the caller's identity and
    umask, the time, how many bytes it moves at once, random bytes. *)
Record Sys := mkSys {
  y_fault : option Errno;
  y_uid : Z;
  y_gid : Z;
  y_umask : Z;
  y_time : Z;
  y_chunk : nat;
  y_random : list Z;
}.

Notation Prog := (Proc Sys Fs) (only parsing).

Definition sys {A} (call : Sys -> Fs -> result Errno A * Fs) : Prog (result Errno A) :=
  atomic (fun e s => match y_fault e with Some fault => (Err fault, s) | None => call e s end).

(** ** Calls on one name *)

(** The inode an entry names. *)
Definition entry (s : Fs) (d : inode) (n : name) : result Errno inode :=
  match node_of s d with
  | Some (NDir entries parent _) =>
      if bool_decide (n = dotdot) then Ok parent
      else match entries !! n with Some i => Ok i | None => Err ENOENT end
  | _ => Err ENOTDIR
  end.

Definition with_entry (f : gmap name inode -> gmap name inode) (d : inode) (s : Fs) : Fs :=
  match node_of s d with
  | Some (NDir entries parent removed) => set_node d (NDir (f entries) parent removed) s
  | _ => s
  end.

(** A new inode under a free name of a directory that still exists. *)
Definition create_entry (e : Sys) (mode : Z) (d : inode) (n : name) (fresh : Node) (s : Fs) : result Errno inode * Fs :=
  match node_of s d with
  | Some (NDir entries _ removed) =>
      match entries !! n with
      | Some _ => (Err EEXIST, s)
      | None =>
          if removed then (Err ENOENT, s)
          else
            let i := fs_next s in
            let meta := mkMeta (y_uid e) (y_gid e) (Z.land mode (Z.lnot (y_umask e))) (y_time e) in
            (Ok i, with_entry (fun entries => <[n := i]> entries) d (mkFs (<[i := (meta, fresh)]> (fs_nodes s)) (i + 1)))
      end
  | _ => (Err ENOTDIR, s)
  end.

(** [mkdirat]; [openat] with O_CREAT|O_EXCL; [symlinkat]. *)
Definition mkdirat (mode : Z) (d : inode) (n : name) (e : Sys) (s : Fs) : result Errno inode * Fs :=
  create_entry e mode d n (NDir ∅ d false) s.
Definition create_file (mode : Z) (d : inode) (n : name) (e : Sys) (s : Fs) : result Errno inode * Fs :=
  create_entry e mode d n (NFile []) s.
Definition symlinkat (target : list Z) (d : inode) (n : name) (e : Sys) (s : Fs) : result Errno inode * Fs :=
  create_entry e 511 d n (NSymlink target) s.

(** What [fstat] reports. *)
Record Stat := mkStat { st_node : Node; st_meta : Meta; st_nlink : Z; st_ino : inode }.

Definition fstat (i : inode) (e : Sys) (s : Fs) : result Errno Stat * Fs :=
  match fs_nodes s !! i with
  | Some (meta, node) => (Ok (mkStat node meta (nlink s i) i), s)
  | None => (Err ENOENT, s)
  end.

(** [fstatat] with AT_SYMLINK_NOFOLLOW. *)
Definition lstatat (d : inode) (n : name) (e : Sys) (s : Fs) : result Errno Stat * Fs :=
  match entry s d n with Ok i => fstat i e s | Err x => (Err x, s) end.

(** Mark a removed directory. *)
Definition bury (i : inode) (s : Fs) : Fs :=
  match node_of s i with
  | Some (NDir entries parent _) => set_node i (NDir entries parent true) s
  | _ => s
  end.

Definition unlinkat (d : inode) (n : name) (e : Sys) (s : Fs) : result Errno unit * Fs :=
  match entries_of s d !! n with
  | None => (Err ENOENT, s)
  | Some i =>
      match node_of s i with
      | Some (NDir _ _ _) => (Err EISDIR, s)
      | _ => (Ok tt, with_entry (base.delete n) d s)
      end
  end.

Definition rmdirat (d : inode) (n : name) (e : Sys) (s : Fs) : result Errno unit * Fs :=
  match entries_of s d !! n with
  | None => (Err ENOENT, s)
  | Some i =>
      match node_of s i with
      | Some (NDir entries _ _) =>
          if bool_decide (entries = ∅) then (Ok tt, bury i (with_entry (base.delete n) d s)) else (Err ENOTEMPTY, s)
      | _ => (Err ENOTDIR, s)
      end
  end.

(** [linkat] of a file, for the programs of others. *)
Definition linkat (d : inode) (n : name) (d' : inode) (n' : name) (e : Sys) (s : Fs) : result Errno unit * Fs :=
  match entries_of s d !! n, entries_of s d' !! n' with
  | None, _ => (Err ENOENT, s)
  | _, Some _ => (Err EEXIST, s)
  | Some i, None =>
      match node_of s i, node_of s d' with
      | Some (NDir _ _ _), _ => (Err EPERM, s)
      | _, Some (NDir _ _ true) => (Err ENOENT, s)
      | _, _ => (Ok tt, with_entry (fun entries => <[n' := i]> entries) d' s)
      end
  end.

(** Whether [a] is [i] or above it, walking up the parents. *)
Fixpoint above (fuel : nat) (s : Fs) (a i : inode) : bool :=
  if a =? i then true
  else
    match fuel with
    | O => false
    | S fuel =>
        match node_of s i with
        | Some (NDir _ parent _) => if parent =? i then false else above fuel s a parent
        | _ => false
        end
    end.

(** Move a directory's [..]. *)
Definition reparent (i d : inode) (s : Fs) : Fs :=
  match node_of s i with
  | Some (NDir entries _ removed) => set_node i (NDir entries d removed) s
  | _ => s
  end.

Definition move_entry (i : inode) (d : inode) (n : name) (d' : inode) (n' : name) (s : Fs) : Fs :=
  reparent i d' (with_entry (fun entries => <[n' := i]> entries) d' (with_entry (base.delete n) d s)).

Definition renameat (d : inode) (n : name) (d' : inode) (n' : name) (e : Sys) (s : Fs) : result Errno unit * Fs :=
  match entries_of s d !! n, node_of s d' with
  | None, _ => (Err ENOENT, s)
  | Some i, Some (NDir _ _ removed) =>
      let directory := match node_of s i with Some (NDir _ _ _) => true | _ => false end in
      if removed then (Err ENOENT, s)
      else if directory && above (size (fs_nodes s)) s i d' then (Err EINVAL, s)
      else
        match entries_of s d' !! n' with
        | None => (Ok tt, move_entry i d n d' n' s)
        | Some j =>
            if i =? j then (Ok tt, s)
            else
              match node_of s j, directory with
              | Some (NDir entries _ _), true =>
                  if bool_decide (entries = ∅) then (Ok tt, bury j (move_entry i d n d' n' s)) else (Err ENOTEMPTY, s)
              | Some (NDir _ _ _), false => (Err EISDIR, s)
              | _, true => (Err ENOTDIR, s)
              | _, false => (Ok tt, move_entry i d n d' n' s)
              end
        end
  | Some _, _ => (Err ENOTDIR, s)
  end.

Definition readlinkat (d : inode) (n : name) (e : Sys) (s : Fs) : result Errno (list Z) * Fs :=
  match entry s d n with
  | Ok i => match node_of s i with Some (NSymlink target) => (Ok target, s) | _ => (Err EINVAL, s) end
  | Err x => (Err x, s)
  end.

(** A listing, in the order of the map. *)
Definition readdir (d : inode) (e : Sys) (s : Fs) : result Errno (list name) * Fs :=
  match node_of s d with
  | Some (NDir entries _ _) => (Ok ([46] :: dotdot :: (map_to_list entries).*1), s)
  | _ => (Err ENOTDIR, s)
  end.

(** Reading and writing through a descriptor: at most a chunk at a time, and at
    least a byte when there is one. *)
Definition read_at (i : inode) (offset : nat) (limit : nat) (e : Sys) (s : Fs) : result Errno (list Z) * Fs :=
  match node_of s i with
  | Some (NFile content) => (Ok (take (Nat.min limit (S (y_chunk e))) (drop offset content)), s)
  | _ => (Err EISDIR, s)
  end.

Definition append (i : inode) (bytes : list Z) (e : Sys) (s : Fs) : result Errno nat * Fs :=
  match node_of s i with
  | Some (NFile content) =>
      let chunk := take (S (y_chunk e)) bytes in
      (Ok (length chunk), set_node i (NFile (content ++ chunk)) s)
  | _ => (Err EINVAL, s)
  end.

(** [fsync] and [dup] only fail or succeed. *)
Definition succeeds (e : Sys) (s : Fs) : result Errno unit * Fs := (Ok tt, s).
