(* ===== verification/Walk.v ===== *)
(** File operations below a trusted directory: src/src/workload_fs/walk.rs, with
    [symlink_chain] of src/src/workload_fs.rs.

    Each operation is a program of system calls: between any two of them the
    workload may change the tree. Paths are lists of names; the path an error
    carries is left out. Resolving a path through links is the kernel's and is an
    interface; walks that refuse links never use it. *)

From S2P Require Import Prelude Text Async Posix.
Open Scope Z_scope.
Open Scope result_scope.
Open Scope proc_scope.

Inductive FsError :=
| FNotFound | FSymlinkRefused | FHardLinkRefused | FSymlinkLoop | FNotRegular | FAlreadyExists
| FOwnerMismatch (expected_uid actual_uid : Z)
| FInvalidPath (reason : string)
| FTooLarge (limit : Z)
| FIo (operation : string) (source : Errno).

Inductive LinkPolicy := Refuse | Follow (contained : bool).
#[export] Instance LinkPolicy_eq_dec : EqDecision LinkPolicy.
Proof. solve_decision. Defined.

Record Anchor := mkAnchor { a_directory : inode; a_path : list name; a_links : LinkPolicy }.

Record WriteOptions := mkWriteOptions {
  create_parents : bool;
  file_mode : Z;
  dir_mode : Z;
  require_existing_owner : option Z;
}.

Inductive EntryKind := KFile | KDir | KSymlink | KOther.
#[export] Instance EntryKind_eq_dec : EqDecision EntryKind.
Proof. solve_decision. Defined.

Record EntryInfo := mkInfo {
  ei_kind : EntryKind;
  ei_uid : Z;
  ei_gid : Z;
  ei_mode : Z;
  ei_nlink : Z;
  ei_size : Z;
  ei_modified : Z;
}.

Definition PERMISSION_BITS : Z := 4095.
Definition SYMLINK_CHAIN_MAX_HOPS : nat := 40.
Definition REMOVE_TREE_HELD_LEVELS : nat := 32.
Definition NOT_DIRECTORY_REASON : string := "a path component is not a directory".

Definition entry_info (status : Stat) : EntryInfo :=
  let meta := st_meta status in
  mkInfo
    match st_node status with NFile _ => KFile | NDir _ _ _ => KDir | NSymlink _ => KSymlink | NSpecial => KOther end
    (m_uid meta) (m_gid meta) (Z.land (m_mode meta) PERMISSION_BITS) (st_nlink status)
    match st_node status with NFile content => Z.of_nat (length content) | NSymlink target => Z.of_nat (length target) | _ => 0 end
    (m_mtime meta).

(** ** Path resolution through links *)

Class PathWalk := {
  (** [realpath], reading the tree of its moment. *)
  canonicalize : Fs -> list name -> result Errno (list name);
  (** The inode a name, or an absolute path, leads to with every link followed. *)
  follow_at : Fs -> inode -> name -> result Errno inode;
  follow_path : Fs -> list name -> result Errno inode;
  (** [lstat] by path, links followed up to the last name. *)
  lstat_path : Fs -> list name -> result Errno Node;
  (** What a directory open that refuses links returns on a link: ENOTDIR on
      Linux, ELOOP on macOS. *)
  nofollow_errno : Errno;
  nofollow_cases : nofollow_errno = ENOTDIR \/ nofollow_errno = ELOOP;
}.

Section walk.
Context {PW : PathWalk}.

(** A result in an error-returning program. *)
Definition try_bind {A B} (p : Prog (result FsError A)) (f : A -> Prog (result FsError B)) : Prog (result FsError B) :=
  pbind p (fun r => match r with Ok a => f a | Err e => Done (Err e) end).
Notation "'try%' x ':=' p 'in' q" := (try_bind p (fun x => q))
  (at level 10, x pattern, p at level 100, q at level 200) : proc_scope.

(** A call whose error is mapped. *)
Definition call {A} (error : Errno -> FsError) (f : Sys -> Fs -> result Errno A * Fs) : Prog (result FsError A) :=
  pbind (sys f) (fun r => Done match r with Ok a => Ok a | Err e => Err (error e) end).

Definition check (b : bool) (e : FsError) : Prog (result FsError unit) := Done (if b then Ok tt else Err e).

Definition failure (operation : string) (source : Errno) : FsError :=
  match source with
  | ENOENT => FNotFound
  | ELOOP => FSymlinkRefused
  | EEXIST => FAlreadyExists
  | _ => FIo operation source
  end.

Definition followed_failure (operation : string) (source : Errno) : FsError :=
  match source with ELOOP => FSymlinkLoop | _ => failure operation source end.

Definition follows (anchor : Anchor) : bool := match a_links anchor with Follow _ => true | Refuse => false end.
Definition link_failure (anchor : Anchor) : string -> Errno -> FsError :=
  if follows anchor then followed_failure else failure.

(** ** Names *)

Definition SLASH : Z := 47.
Definition DOT : Z := 46.

(** [split(|byte| byte == '/')] *)
Fixpoint split_slash (bytes : list Z) : list (list Z) :=
  match bytes with
  | [] => [[]]
  | b :: rest =>
      if b =? SLASH then [] :: split_slash rest
      else match split_slash rest with
           | segment :: segments => (b :: segment) :: segments
           | [] => [[b]]
           end
  end.

Fixpoint keep_segments (segments : list (list Z)) : result FsError (list name) :=
  match segments with
  | [] => Ok []
  | segment :: rest =>
      if bool_decide (segment = []) || bool_decide (segment = [DOT]) then keep_segments rest
      else if bool_decide (segment = dotdot) then Err (FInvalidPath "contains a `..` component")
      else let? components := keep_segments rest in Ok (segment :: components)
  end.

Definition components_of (relative : list Z) : result FsError (list name) :=
  if bool_decide (0 ∈ relative) then Err (FInvalidPath "contains a NUL byte")
  else if bool_decide (head relative = Some SLASH) then Err (FInvalidPath "must be relative to the anchor")
  else keep_segments (split_slash relative).

(** The path without its trailing slashes. *)
Fixpoint trim_leading_slashes (bytes : list Z) : list Z :=
  match bytes with b :: rest => if b =? SLASH then trim_leading_slashes rest else bytes | [] => [] end.
Definition trim_trailing_slashes (bytes : list Z) : list Z := reverse (trim_leading_slashes (reverse bytes)).

Definition entry_components (relative : list Z) : result FsError (list name * name) :=
  let trimmed := trim_trailing_slashes relative in
  if bool_decide (trimmed = [DOT]) || bool_decide (take 2 (reverse trimmed) = [DOT; SLASH])
  then Err (FInvalidPath "must end with a name, not `.`")
  else
    let? components := components_of relative in
    match last components with
    | Some n => Ok (removelast components, n)
    | None => Err (FInvalidPath "must name an entry below the anchor")
    end.

(** ** Containment under [Follow { contained: true }] *)

(** The deepest existing ancestor decides; [rev] is the path read backwards. *)
Fixpoint contained_from (anchor : Anchor) (rev : list name) : Prog (result FsError unit) :=
  let% r := sys (fun _ s => (canonicalize s (reverse rev), s)) in
  match r with
  | Ok resolved =>
      Done (if bool_decide (take (length (a_path anchor)) resolved = a_path anchor) then Ok tt else Err FSymlinkRefused)
  | Err ENOENT => match rev with [] => Done (Ok tt) | _ :: parent => contained_from anchor parent end
  | Err e => Done (Err (followed_failure "canonicalize" e))
  end.

Definition require_contained (anchor : Anchor) (path : list name) : Prog (result FsError unit) :=
  match a_links anchor with
  | Follow true => contained_from anchor (reverse path)
  | _ => Done (Ok tt)
  end.

(** ** Directories *)

Definition node_kind (s : Fs) (i : inode) : option EntryKind :=
  match node_of s i with
  | Some (NFile _) => Some KFile | Some (NDir _ _ _) => Some KDir
  | Some (NSymlink _) => Some KSymlink | Some NSpecial => Some KOther | None => None
  end.

(** [openat] with O_DIRECTORY, and O_NOFOLLOW unless [follow]. *)
Definition open_directory (follow : bool) (d : inode) (n : name) (e : Sys) (s : Fs) : result Errno inode * Fs :=
  match (if follow then follow_at s d n else entry s d n) with
  | Err x => (Err x, s)
  | Ok i =>
      match node_kind s i with
      | Some KDir => (Ok i, s)
      | Some KSymlink => (Err nofollow_errno, s)
      | _ => (Err ENOTDIR, s)
      end
  end.

(** [openat] for reading. *)
Definition open_read (follow : bool) (d : inode) (n : name) (e : Sys) (s : Fs) : result Errno inode * Fs :=
  match (if follow then follow_at s d n else entry s d n) with
  | Err x => (Err x, s)
  | Ok i => match node_kind s i with Some KSymlink => (Err ELOOP, s) | _ => (Ok i, s) end
  end.

(** [fstatat]; a missing entry is [None]. *)
Definition stat_at (follow : bool) (d : inode) (n : name) : Prog (result Errno (option EntryInfo)) :=
  let% r := sys (fun e s => match (if follow then follow_at s d n else entry s d n) with
                            | Ok i => fstat i e s | Err x => (Err x, s) end) in
  Done match r with Ok status => Ok (Some (entry_info status)) | Err ENOENT => Ok None | Err e => Err e end.

Definition lstat_at (d : inode) (n : name) : Prog (result Errno (option EntryInfo)) := stat_at false d n.

Definition stat_entry_of (error : Errno -> FsError) (follow : bool) (d : inode) (n : name) : Prog (result FsError (option EntryInfo)) :=
  let% r := stat_at follow d n in
  Done match r with Ok status => Ok status | Err e => Err (error e) end.

Definition fstat_entry (i : inode) : Prog (result FsError EntryInfo) :=
  try% status := call (failure "fstat") (fstat i) in Done (Ok (entry_info status)).

Definition directory_open_failure (parent : inode) (n : name) (error : Errno) : Prog FsError :=
  match error with
  | ENOTDIR | ELOOP =>
      let% r := lstat_at parent n in
      Done match r with
           | Ok (Some status) =>
               if bool_decide (ei_kind status = KSymlink) then FSymlinkRefused else FInvalidPath NOT_DIRECTORY_REASON
           | Ok None => FNotFound
           | Err stat_error => failure "fstatat" stat_error
           end
  | _ => Done (failure "openat" error)
  end.

Definition open_failure (follow : bool) (parent : inode) (n : name) (error : Errno) : Prog FsError :=
  match error, follow with
  | ELOOP, true => Done (followed_failure "openat" error)
  | ENOTDIR, true => Done (FInvalidPath NOT_DIRECTORY_REASON)
  | _, _ => directory_open_failure parent n error
  end.

Definition fail_open {A} (p : Prog FsError) : Prog (result FsError A) := let% e := p in Done (Err e).

Definition mode_of (bits : Z) : Z := Z.land bits PERMISSION_BITS.

Definition open_child_directory (parent : inode) (n : name) (follow : bool) (create_mode : option Z)
  : Prog (result FsError inode) :=
  let% r := sys (open_directory follow parent n) in
  match r with
  | Ok directory => Done (Ok directory)
  | Err ENOENT =>
      match create_mode with
      | None => Done (Err FNotFound)
      | Some mode =>
          let% made := sys (mkdirat (mode_of mode) parent n) in
          match made with
          | Ok _ | Err EEXIST =>
              let% again := sys (open_directory follow parent n) in
              match again with
              | Ok directory => Done (Ok directory)
              | Err error => fail_open (open_failure follow parent n error)
              end
          | Err error => Done (Err (failure "mkdirat" error))
          end
      end
  | Err error => fail_open (open_failure follow parent n error)
  end.

Fixpoint open_chain (follow : bool) (create_mode : option Z) (current : inode) (components : list name)
  : Prog (result FsError inode) :=
  match components with
  | [] => Done (Ok current)
  | n :: rest => try% child := open_child_directory current n follow create_mode in open_chain follow create_mode child rest
  end.

Definition open_directory_chain (anchor : Anchor) (components : list name) (create_mode : option Z)
  : Prog (result FsError inode) :=
  try% _ := require_contained anchor (a_path anchor ++ components) in
  try% _ := call (failure "dup") succeeds in
  open_chain (follows anchor) create_mode (a_directory anchor) components.

(** ** Vetting *)

Definition vet_regular_file (status : EntryInfo) (allow_hard_links : bool) : result FsError unit :=
  match ei_kind status with
  | KFile => if negb allow_hard_links && (1 <? ei_nlink status) then Err FHardLinkRefused else Ok tt
  | KSymlink => Err FSymlinkRefused
  | KDir | KOther => Err FNotRegular
  end.

Definition vet_readable (anchor : Anchor) (status : EntryInfo) (max_bytes : Z) : result FsError unit :=
  let? _ := vet_regular_file status (follows anchor) in
  if max_bytes <? ei_size status then Err (FTooLarge max_bytes) else Ok tt.

(** ** Reading *)

Definition required (o : option EntryInfo) : Prog (result FsError EntryInfo) :=
  Done match o with Some status => Ok status | None => Err FNotFound end.

(** The entry is vetted before it is opened, so that a device is never opened,
    and again through the descriptor. *)
Definition open_readable (anchor : Anchor) (relative : list Z) (max_bytes : Z) : Prog (result FsError (inode * EntryInfo)) :=
  try% (parents, n) := Done (entry_components relative) in
  try% directory := open_directory_chain anchor parents None in
  try% _ := require_contained anchor (a_path anchor ++ parents ++ [n]) in
  try% found := stat_entry_of (link_failure anchor "fstatat") (follows anchor) directory n in
  try% status := required found in
  try% _ := Done (vet_readable anchor status max_bytes) in
  try% descriptor := call (link_failure anchor "openat") (open_read (follows anchor) directory n) in
  try% status := fstat_entry descriptor in
  try% _ := Done (vet_readable anchor status max_bytes) in
  Done (Ok (descriptor, status)).

(** [take(limit).read_to_end]: every read but the last brings at least a byte,
    so [limit + 1] reads are enough. *)
Fixpoint read_loop (fuel : nat) (i : inode) (offset limit : nat) (content : list Z) : Prog (result FsError (list Z)) :=
  match fuel with
  | O => Done (Ok content)
  | S fuel =>
      try% bytes := call (failure "read") (read_at i offset limit) in
      match bytes with
      | [] => Done (Ok content)
      | _ => read_loop fuel i (offset + length bytes) (limit - length bytes) (content ++ bytes)
      end
  end.

Definition read_to_end (i : inode) (limit : nat) : Prog (result FsError (list Z)) := read_loop (S limit) i 0 limit [].

Definition read_file_with_info (anchor : Anchor) (relative : list Z) (max_bytes : Z)
  : Prog (result FsError (list Z * EntryInfo)) :=
  try% (descriptor, status) := open_readable anchor relative max_bytes in
  try% content := read_to_end descriptor (Z.to_nat (Z.min (max_bytes + 1) (2 ^ 64 - 1))) in
  Done (if max_bytes <? Z.of_nat (length content) then Err (FTooLarge max_bytes) else Ok (content, status)).

Definition read_file (anchor : Anchor) (relative : list Z) (max_bytes : Z) : Prog (result FsError (list Z)) :=
  try% (content, _) := read_file_with_info anchor relative max_bytes in Done (Ok content).

Definition open_file (anchor : Anchor) (relative : list Z) : Prog (result FsError (inode * EntryInfo)) :=
  open_readable anchor relative (2 ^ 64 - 1).

(** ** Writing *)

(** [io::copy] of bytes in memory: each write takes at least a byte. *)
Fixpoint write_all (fuel : nat) (i : inode) (bytes : list Z) : Prog (result FsError unit) :=
  match bytes, fuel with
  | [], _ => Done (Ok tt)
  | _, O => Done (Ok tt)
  | _, S fuel =>
      try% written := call (failure "write") (append i bytes) in
      write_all fuel i (drop written bytes)
  end.

Definition fill_file (i : inode) (content : list Z) : Prog (result FsError unit) :=
  try% _ := write_all (length content) i content in
  call (failure "fsync") succeeds.

(** The removal's own failure is only logged. *)
Definition discard_entry (d : inode) (n : name) : Prog unit :=
  let% _ := sys (unlinkat d n) in Done tt.

Definition hex_digit (d : Z) : Z := if d <? 10 then 48 + d else 87 + d.
Definition TEMP_FILE_PREFIX : list Z := [46; 97; 99; 112; 115; 45].
Definition TEMP_FILE_SUFFIX : list Z := [46; 116; 109; 112].
Definition TEMP_FILE_RANDOM_BYTES : nat := 8.
Definition temp_name (random : list Z) : name :=
  TEMP_FILE_PREFIX ++ (take TEMP_FILE_RANDOM_BYTES random ≫= fun b => [hex_digit (b `div` 16); hex_digit (b `mod` 16)])
  ++ TEMP_FILE_SUFFIX.
Definition temp_file_name : Prog name := atomic (fun e s => (temp_name (y_random e), s)).

Record WriteTarget := mkTarget { wt_directory : inode; wt_name : name; wt_existing : option EntryInfo }.

Definition replace_file (target : WriteTarget) (content : list Z) (mode : Z) : Prog (result FsError unit) :=
  let directory := wt_directory target in
  let% temp := temp_file_name in
  try% descriptor := call (failure "openat") (create_file (mode_of mode) directory temp) in
  let% published :=
    try% _ := fill_file descriptor content in
    call (failure "renameat") (renameat directory temp directory (wt_name target)) in
  match published with
  | Err error => let% _ := discard_entry directory temp in Done (Err error)
  | Ok _ => call (failure "fsync") succeeds
  end.

(** ** Links *)

(** A path's components: empty and [.] segments dropped. *)
Definition path_components (bytes : list Z) : list name :=
  filter (fun segment => segment <> [] /\ segment <> [DOT]) (split_slash bytes).
Definition is_absolute_target (target : list Z) : bool := bool_decide (head target = Some SLASH).

Definition chain_failure (operation : string) (source : Errno) : FsError :=
  match source with
  | ENOENT => FNotFound
  | ELOOP => FSymlinkLoop
  | ENOTDIR => FInvalidPath NOT_DIRECTORY_REASON
  | _ => FIo operation source
  end.

(** The hops so far, the last one first. *)
Fixpoint symlink_chain_from (fuel : nat) (missing_ends_chain : bool) (current : list name) (earlier : list (list name))
  : Prog (result FsError (list (list name))) :=
  let chain := current :: earlier in
  let% r := sys (fun _ s => (lstat_path s current, s)) in
  match r with
  | Err ENOENT => if missing_ends_chain then Done (Ok chain) else Done (Err (chain_failure "lstat" ENOENT))
  | Err e => Done (Err (chain_failure "lstat" e))
  | Ok (NSymlink _) =>
      match fuel with
      | O => Done (Err FSymlinkLoop)
      | S fuel =>
          let% t := sys (fun _ s => (match lstat_path s current with
                                     | Ok (NSymlink target) => Ok target | Ok _ => Err EINVAL | Err e => Err e end, s)) in
          match t with
          | Err e => Done (Err (chain_failure "readlink" e))
          | Ok target =>
              let next := if is_absolute_target target then path_components target
                          else match current with [] => path_components target | _ => removelast current ++ path_components target end in
              if bool_decide (next ∈ chain) then Done (Err FSymlinkLoop)
              else symlink_chain_from fuel missing_ends_chain next chain
          end
      end
  | Ok _ => Done (Ok chain)
  end.

Definition symlink_chain (path : list name) (max_hops : nat) (missing_ends_chain : bool) : Prog (result FsError (list (list name))) :=
  symlink_chain_from max_hops missing_ends_chain path [].

Definition link_write_target (anchor : Anchor) (link : list name) : Prog (result FsError WriteTarget) :=
  try% chain := symlink_chain link SYMLINK_CHAIN_MAX_HOPS true in
  let final := match chain with hop :: _ => hop | [] => link end in
  match last final with
  | None => Done (Err (FInvalidPath "symlink target does not name a file"))
  | Some file_name =>
      if bool_decide (file_name = dotdot) then Done (Err (FInvalidPath "symlink target does not name a file"))
      else
        try% parent := call (followed_failure "canonicalize") (fun _ s => (canonicalize s (removelast final), s)) in
        try% _ := require_contained anchor (parent ++ [file_name]) in
        try% directory := call (followed_failure "openat")
          (fun _ s => match follow_path s parent with
                      | Err e => (Err e, s)
                      | Ok i => match node_kind s i with Some KDir => (Ok i, s) | _ => (Err ENOTDIR, s) end
                      end) in
        try% existing := stat_entry_of (failure "fstatat") false directory file_name in
        Done (Ok (mkTarget directory file_name existing))
  end.

Definition vet_replaced (anchor : Anchor) (options : WriteOptions) (existing : option EntryInfo) : result FsError unit :=
  match existing with
  | None => Ok tt
  | Some status =>
      let? _ := vet_regular_file status (follows anchor) in
      match require_existing_owner options with
      | Some expected_uid => if ei_uid status =? expected_uid then Ok tt else Err (FOwnerMismatch expected_uid (ei_uid status))
      | None => Ok tt
      end
  end.

Definition create_mode (options : WriteOptions) : option Z := if create_parents options then Some (dir_mode options) else None.

Definition is_symlink (status : option EntryInfo) : bool :=
  match status with Some status => bool_decide (ei_kind status = KSymlink) | None => false end.

Definition write_file_atomic (anchor : Anchor) (relative content : list Z) (options : WriteOptions) : Prog (result FsError unit) :=
  try% (parents, n) := Done (entry_components relative) in
  try% directory := open_directory_chain anchor parents (create_mode options) in
  try% existing := stat_entry_of (failure "fstatat") false directory n in
  try% target :=
    (if is_symlink existing && follows anchor then link_write_target anchor (a_path anchor ++ parents ++ [n])
     else Done (Ok (mkTarget directory n existing))) in
  try% _ := Done (vet_replaced anchor options (wt_existing target)) in
  replace_file target content (file_mode options).

(** [write_new_from_reader] over bytes in memory. *)
Definition write_file_new (anchor : Anchor) (relative content : list Z) (options : WriteOptions) : Prog (result FsError unit) :=
  try% (parents, n) := Done (entry_components relative) in
  try% directory := open_directory_chain anchor parents (create_mode options) in
  try% descriptor := call (failure "openat") (create_file (mode_of (file_mode options)) directory n) in
  let% filled := fill_file descriptor content in
  match filled with
  | Err error => let% _ := discard_entry directory n in Done (Err error)
  | Ok _ => call (failure "fsync") succeeds
  end.

(** ** Removing, listing, renaming *)

Definition remove_file (anchor : Anchor) (relative : list Z) : Prog (result FsError unit) :=
  try% (parents, n) := Done (entry_components relative) in
  try% directory := open_directory_chain anchor parents None in
  try% found := stat_entry_of (failure "fstatat") false directory n in
  try% status := required found in
  try% _ := Done match ei_kind status with
                 | KFile => Ok tt
                 | KSymlink => if follows anchor then Ok tt else Err FSymlinkRefused
                 | KDir | KOther => Err FNotRegular
                 end in
  call (failure "unlinkat") (unlinkat directory n).

Definition remove_link_target (anchor : Anchor) (relative : list Z) : Prog (result FsError unit) :=
  try% (parents, n) := Done (entry_components relative) in
  try% directory := open_directory_chain anchor parents None in
  try% found := stat_entry_of (failure "fstatat") false directory n in
  if negb (is_symlink found && follows anchor) then remove_file anchor relative
  else
    try% target := link_write_target anchor (a_path anchor ++ parents ++ [n]) in
    try% status := required (wt_existing target) in
    try% _ := Done (vet_regular_file status true) in
    call (failure "unlinkat") (unlinkat (wt_directory target) (wt_name target)).

(** Unlink every entry that is not a directory; the first directory remains. *)
Fixpoint remove_entries (d : inode) (names : list name) (subdirectory : option name) : Prog (result FsError (option name)) :=
  match names with
  | [] => Done (Ok subdirectory)
  | n :: rest =>
      try% found := stat_entry_of (failure "fstatat") false d n in
      match found with
      | None => remove_entries d rest subdirectory
      | Some status =>
          if bool_decide (ei_kind status = KDir)
          then remove_entries d rest (match subdirectory with None => Some n | held => held end)
          else try% _ := call (failure "unlinkat") (unlinkat d n) in remove_entries d rest subdirectory
      end
  end.

(** The names of a directory, without [.] and [..]. *)
Definition read_names (d : inode) : Prog (result FsError (list name)) :=
  try% names := call (failure "readdir") (readdir d) in
  Done (Ok (filter (fun n => n <> [DOT] /\ n <> dotdot) names)).

Definition remove_non_directories (d : inode) : Prog (result FsError (option name)) :=
  try% names := read_names d in remove_entries d names None.

Definition directory_identity (i : inode) : Prog (result FsError inode) :=
  try% status := call (failure "fstat") (fstat i) in Done (Ok (st_ino status)).

(** Refused unless [..] is still the directory that was released. *)
Definition reopen_parent (child identity : inode) : Prog (result FsError inode) :=
  try% parent := call (failure "openat") (open_directory false child dotdot) in
  try% reopened := directory_identity parent in
  Done (if reopened =? identity then Ok parent else Err (FInvalidPath "the directory moved during removal")).

Inductive AncestorDescriptor := Held (descriptor : inode) | Released (identity : inode).
Record PendingAncestor := mkPending { pa_descriptor : AncestorDescriptor; pa_name : name }.

(** [None]: the loop has not ended within [fuel] rounds. *)
Definition running {A B} (p : Prog (result FsError A)) (f : A -> Prog (option (result FsError B))) : Prog (option (result FsError B)) :=
  pbind p (fun r => match r with Ok a => f a | Err e => Done (Some (Err e)) end).
Notation "'run%' x ':=' p 'in' q" := (running p (fun x => q))
  (at level 10, x pattern, p at level 100, q at level 200) : proc_scope.

Fixpoint remove_loop (fuel : nat) (parent current : inode) (current_name : name) (ancestors : list PendingAncestor)
  : Prog (option (result FsError unit)) :=
  match fuel with
  | O => Done None
  | S fuel =>
      run% remaining := remove_non_directories current in
      match remaining with
      | Some subdirectory =>
          let% opened := sys (open_directory false current subdirectory) in
          match opened with
          | Err error => let% e := directory_open_failure current subdirectory error in Done (Some (Err e))
          | Ok descriptor =>
              run% held := (if (length ancestors <? REMOVE_TREE_HELD_LEVELS)%nat then Done (Ok (Held current))
                            else try% identity := directory_identity current in Done (Ok (Released identity))) in
              remove_loop fuel parent descriptor subdirectory (mkPending held current_name :: ancestors)
          end
      | None =>
          match ancestors with
          | [] => let% r := call (failure "unlinkat") (rmdirat parent current_name) in Done (Some r)
          | ancestor :: rest =>
              run% above := match pa_descriptor ancestor with
                            | Held descriptor => Done (Ok descriptor)
                            | Released identity => reopen_parent current identity
                            end in
              run% _ := call (failure "unlinkat") (rmdirat above current_name) in
              remove_loop fuel parent above (pa_name ancestor) rest
          end
      end
  end.

Definition remove_directory_tree (fuel : nat) (parent : inode) (n : name) : Prog (option (result FsError unit)) :=
  let% opened := sys (open_directory false parent n) in
  match opened with
  | Err error => let% e := directory_open_failure parent n error in Done (Some (Err e))
  | Ok descriptor => remove_loop fuel parent descriptor n []
  end.

Definition remove_tree (fuel : nat) (anchor : Anchor) (relative : list Z) : Prog (option (result FsError unit)) :=
  run% (parents, n) := Done (entry_components relative) in
  run% directory := open_directory_chain anchor parents None in
  run% found := stat_entry_of (failure "fstatat") false directory n in
  run% status := required found in
  if bool_decide (ei_kind status = KDir) then remove_directory_tree fuel directory n
  else let% r := call (failure "unlinkat") (unlinkat directory n) in Done (Some r).

Definition remove_empty_dir (anchor : Anchor) (relative : list Z) : Prog (result FsError unit) :=
  try% (parents, n) := Done (entry_components relative) in
  try% directory := open_directory_chain anchor parents None in
  call (failure "unlinkat") (rmdirat directory n).

Definition create_dir_all (anchor : Anchor) (relative : list Z) (mode : Z) : Prog (result FsError unit) :=
  try% components := Done (components_of relative) in
  try% _ := open_directory_chain anchor components (Some mode) in
  Done (Ok tt).

Definition symlink (anchor : Anchor) (relative target : list Z) : Prog (result FsError unit) :=
  try% (parents, n) := Done (entry_components relative) in
  try% _ := check (negb (bool_decide (target = []))) (FInvalidPath "symlink target is empty") in
  try% _ := check (negb (bool_decide (0 ∈ target))) (FInvalidPath "symlink target contains a NUL byte") in
  try% directory := open_directory_chain anchor parents None in
  try% _ := call (failure "symlinkat") (symlinkat target directory n) in
  Done (Ok tt).

Definition read_link (anchor : Anchor) (relative : list Z) : Prog (result FsError (list Z)) :=
  try% (parents, n) := Done (entry_components relative) in
  try% directory := open_directory_chain anchor parents None in
  call (fun e => match e with EINVAL => FInvalidPath "target is not a symlink" | _ => failure "readlinkat" e end)
    (readlinkat directory n).

Definition stat_entry (anchor : Anchor) (relative : list Z) (follow : bool) : Prog (result FsError (option EntryInfo)) :=
  try% components := Done (components_of relative) in
  match last components with
  | None => try% status := fstat_entry (a_directory anchor) in Done (Ok (Some status))
  | Some n =>
      let parents := removelast components in
      let% opened := open_directory_chain anchor parents None in
      match opened with
      | Err FNotFound => Done (Ok None)
      | Err error => Done (Err error)
      | Ok directory =>
          if negb follow then stat_entry_of (failure "fstatat") false directory n
          else
            try% _ := require_contained anchor (a_path anchor ++ parents ++ [n]) in
            stat_entry_of (followed_failure "fstatat") true directory n
      end
  end.

Definition stat (anchor : Anchor) (relative : list Z) := stat_entry anchor relative false.
Definition stat_followed (anchor : Anchor) (relative : list Z) := stat_entry anchor relative (follows anchor).

Fixpoint list_entries (d : inode) (names : list name) : Prog (result FsError (list (name * EntryInfo))) :=
  match names with
  | [] => Done (Ok [])
  | n :: rest =>
      try% found := stat_entry_of (failure "fstatat") false d n in
      try% entries := list_entries d rest in
      Done (Ok (match found with Some status => (n, status) :: entries | None => entries end))
  end.

Definition by_name (a b : name * EntryInfo) : Prop := text_le a.1 b.1.
#[export] Instance by_name_dec : RelDecision by_name.
Proof. intros a b. unfold by_name. apply _. Defined.

Definition list_dir (anchor : Anchor) (relative : list Z) : Prog (result FsError (list (name * EntryInfo))) :=
  try% components := Done (components_of relative) in
  try% directory := open_directory_chain anchor components None in
  try% names := read_names directory in
  try% entries := list_entries directory names in
  Done (Ok (merge_sort by_name entries)).

Definition rename (anchor : Anchor) (from to : list Z) : Prog (result FsError unit) :=
  try% (from_parents, from_name) := Done (entry_components from) in
  try% (to_parents, to_name) := Done (entry_components to) in
  try% from_directory := open_directory_chain anchor from_parents None in
  try% to_directory := open_directory_chain anchor to_parents None in
  call (failure "renameat") (renameat from_directory from_name to_directory to_name).

Definition create_directory (anchor : Anchor) (relative : list Z) (mode : Z) : Prog (result FsError unit) :=
  try% (parents, n) := Done (entry_components relative) in
  try% directory := open_directory_chain anchor parents None in
  try% _ := call (failure "mkdirat") (mkdirat (mode_of mode) directory n) in
  Done (Ok tt).

End walk.
