(* ===== verification/WalkSafety.v ===== *)
(** What the walker of [Walk] guarantees while the workload changes the tree
    between any two of its system calls. *)

From S2P Require Import Prelude Text Async Posix Walk.
Open Scope Z_scope.
Open Scope result_scope.

(** ** Inodes under the calls *)

Lemma set_node_lookup i n s j : j <> i -> fs_nodes (set_node i n s) !! j = fs_nodes s !! j.
Proof. intros H. simpl. by rewrite lookup_alter_ne. Qed.

Lemma node_of_set i n s j :
  node_of (set_node i n s) j = if bool_decide (j = i) then (fun _ => n) <$> fs_nodes s !! i else node_of s j.
Proof.
  unfold node_of. case_bool_decide as Hj.
  - subst. simpl. rewrite lookup_alter_eq. by destruct (fs_nodes s !! i).
  - by rewrite set_node_lookup.
Qed.

Lemma node_of_none s i : node_of s i = None <-> fs_nodes s !! i = None.
Proof. unfold node_of. by destruct (fs_nodes s !! i). Qed.

Lemma entries_set_node i n s d :
  entries_of (set_node i n s) d
  = if bool_decide (d = i)
    then match fs_nodes s !! i, n with Some _, NDir entries _ _ => entries | _, _ => ∅ end
    else entries_of s d.
Proof.
  unfold entries_of. rewrite node_of_set. case_bool_decide; [|done]. by destruct (fs_nodes s !! i).
Qed.

Section confined.
Context {PW : PathWalk}.

(** The directories the workload may change: those below the anchor when the
    operation starts, and every inode made since. *)
Context (W0 : gset inode) (next0 : inode).
Definition inside (i : inode) : Prop := i ∈ W0 \/ next0 <= i.

(** An inside directory only has inside directories; other entries (symlinks,
    hard links to any file) are free. *)
Record closed (s : Fs) : Prop := {
  cl_next : next0 <= fs_next s;
  cl_fresh : forall i, fs_next s <= i -> fs_nodes s !! i = None;
  cl_dirs : forall d n i, inside d -> entries_of s d !! n = Some i -> is_dir s i -> inside i;
}.

(** The others may do anything that keeps [closed]: in particular whatever a
    process can do that only moves directories within the inside ones. *)
Definition rely (s s' : Fs) : Prop := closed s -> closed s'.

(** The walker changes nothing outside: no other directory, and no file that
    existed before. *)
Definition frame (s s' : Fs) : Prop := forall i, ~ inside i -> fs_nodes s' !! i = fs_nodes s !! i.
Definition guarantee (s s' : Fs) : Prop := closed s -> closed s' /\ frame s s'.

Lemma guarantee_refl s : guarantee s s.
Proof. by split. Qed.

Definition call_ok {A} (Q : A -> Prop) (f : Sys -> Fs -> result Errno A * Fs) : Prop :=
  forall e s, closed s -> let (r, s') := f e s in guarantee s s' /\ match r with Ok a => Q a | Err _ => True end.

Definition ok_prog {A} (Q : A -> Prop) (p : Prog A) : Prop :=
  forall s, closed s -> safe (fun _ => True) rely guarantee (fun a s => closed s /\ Q a) p s.

(** The good outcomes of a fallible program. *)
Definition good {E A} (Q : A -> Prop) (r : result E A) : Prop := match r with Ok a => Q a | Err _ => True end.

Lemma ok_done {A} (Q : A -> Prop) a : Q a -> ok_prog Q (Done a).
Proof. intros H s Hs. by split. Qed.

Lemma ok_bind {A B} (Q : A -> Prop) (Q' : B -> Prop) p f :
  ok_prog Q p -> (forall a, Q a -> ok_prog Q' (f a)) -> ok_prog Q' (pbind p f).
Proof.
  intros Hp Hf s Hs. apply safe_bind. eapply safe_mono; [|by apply Hp]. intros a s' [Hs' HQ]. by apply Hf.
Qed.

Lemma ok_sys {A} (Q : A -> Prop) f : call_ok Q f -> ok_prog (good Q) (sys f).
Proof.
  intros Hf s Hs. apply safe_atomic. intros e s1 _ H1. specialize (H1 Hs).
  destruct (y_fault e); [split; [apply guarantee_refl|done]|].
  specialize (Hf e s1 H1). destruct (f e s1) as [r s2]. destruct Hf as [HG HQ]. split; [done|]. split; [by apply HG|done].
Qed.

Lemma ok_call {A} (Q : A -> Prop) err f : call_ok Q f -> ok_prog (good Q) (call err f).
Proof.
  intros Hf. unfold call. eapply ok_bind; [by apply ok_sys|]. intros [a|e] H; apply ok_done; done.
Qed.

Lemma ok_try {A B} (Q : A -> Prop) (Q' : B -> Prop) p f :
  ok_prog (good Q) p -> (forall a, Q a -> ok_prog (good Q') (f a)) -> ok_prog (good Q') (try_bind p f).
Proof. intros Hp Hf. eapply ok_bind; [done|]. intros [a|e] H; [by apply Hf|by apply ok_done]. Qed.

Definition any {A} (a : A) : Prop := True.

(** The error in place of a result of a loop. *)
Definition goodr {A} (Q : A -> Prop) (o : option (result FsError A)) : Prop := match o with Some (Ok a) => Q a | _ => True end.

Lemma ok_run {A B} (Q : A -> Prop) (Q' : B -> Prop) p f :
  ok_prog (good Q) p -> (forall a, Q a -> ok_prog (goodr Q') (f a)) -> ok_prog (goodr Q') (running p f).
Proof. intros Hp Hf. eapply ok_bind; [done|]. intros [a|e] H; [by apply Hf|by apply ok_done]. Qed.

Lemma ok_weaken {A} (Q Q' : A -> Prop) p : (forall a, Q a -> Q' a) -> ok_prog Q p -> ok_prog Q' p.
Proof. intros H Hp s Hs. eapply safe_mono; [|by apply Hp]. intros a s' [? ?]. auto. Qed.

(** ** The calls keep the invariant *)

(** A call that only reads. *)
Lemma call_ok_read {A} (Q : A -> Prop) f :
  (forall e s, (f e s).2 = s) -> (forall e s a, closed s -> (f e s).1 = Ok a -> Q a) -> call_ok Q f.
Proof.
  intros Hr Hq e s Hs. specialize (Hr e s). specialize (Hq e s). destruct (f e s) as [r s']. simpl in *. subst.
  split; [apply guarantee_refl|]. destruct r; auto.
Qed.

Lemma guarantee_trans s s1 s2 : guarantee s s1 -> guarantee s1 s2 -> guarantee s s2.
Proof.
  intros H1 H2 Hs. destruct (H1 Hs) as [Hs1 F1]. destruct (H2 Hs1) as [Hs2 F2]. split; [done|].
  intros i Hi. by rewrite F2, F1.
Qed.

(** Changing one inside node, to entries that stay inside. *)
Lemma guarantee_set_node i n s :
  inside i ->
  (forall entries parent removed, closed s -> n = NDir entries parent removed ->
     is_dir s i /\ forall m j, entries !! m = Some j -> is_dir s j -> inside j) ->
  guarantee s (set_node i n s).
Proof.
  intros Hi Hn Hc. pose proof Hc as [H1 H2 H3]. split; [split; [done|..]|].
  - intros j Hj. simpl in *. destruct (decide (j = i)) as [->|Hne].
    + rewrite lookup_alter_eq, H2; done.
    + rewrite lookup_alter_ne by done. by apply H2.
  - intros d m j Hd Hm Hj. assert (is_dir s j) as Hj'.
    { destruct Hj as (en & pa & re & Hj). rewrite node_of_set in Hj. case_bool_decide as E; [subst|by exists en, pa, re].
      destruct (fs_nodes s !! i) eqn:Ei; [|done]. simpl in Hj. injection Hj as ->. by destruct (Hn _ _ _ Hc eq_refl). }
    rewrite entries_set_node in Hm. case_bool_decide as E; [subst|by eapply H3].
    destruct (fs_nodes s !! i); [|done]. destruct n as [|entries parent removed| |]; try done.
    destruct (Hn _ _ _ Hc eq_refl) as [_ Hall]. by eapply Hall.
  - intros j Hj. apply set_node_lookup. by intros ->.
Qed.

Lemma entries_of_dir s d entries parent removed : node_of s d = Some (NDir entries parent removed) -> entries_of s d = entries.
Proof. unfold entries_of. by intros ->. Qed.

Lemma guarantee_with_entry f d s :
  inside d ->
  (closed s -> forall m j, f (entries_of s d) !! m = Some j -> is_dir s j -> inside j) ->
  guarantee s (with_entry f d s).
Proof.
  intros Hd Hf. unfold with_entry. destruct (node_of s d) as [[|en pa re| |]|] eqn:E; try apply guarantee_refl.
  apply guarantee_set_node; [done|]. intros ? ? ? Hc [= <- <- <-]. split; [by exists en, pa, re|].
  rewrite <- (entries_of_dir s d en pa re E). by apply Hf.
Qed.

(** Entries a removal leaves. *)
Lemma guarantee_unlink d n s : inside d -> guarantee s (with_entry (base.delete n) d s).
Proof.
  intros Hd. apply guarantee_with_entry; [done|]. intros Hc m j [_ H]%lookup_delete_Some. by eapply (cl_dirs _ Hc).
Qed.

Lemma guarantee_bury i s : inside i -> guarantee s (bury i s).
Proof.
  intros Hi. unfold bury. destruct (node_of s i) as [[|en pa re| |]|] eqn:E; try apply guarantee_refl.
  apply guarantee_set_node; [done|]. intros ? ? ? Hc [= <- <- <-]. split; [by exists en, pa, re|].
  intros m j Hm. apply (cl_dirs _ Hc i m j Hi). by rewrite (entries_of_dir s i en pa re E).
Qed.

Lemma guarantee_reparent i d s : (is_dir s i -> inside i) -> guarantee s (reparent i d s).
Proof.
  intros Hi. unfold reparent. destruct (node_of s i) as [[|en pa re| |]|] eqn:E; try apply guarantee_refl.
  assert (inside i) as Hin by (apply Hi; by exists en, pa, re).
  apply guarantee_set_node; [done|]. intros ? ? ? Hc [= <- <- <-]. split; [by exists en, pa, re|].
  intros m j Hm. apply (cl_dirs _ Hc i m j Hin). by rewrite (entries_of_dir s i en pa re E).
Qed.

Lemma is_dir_with_entry f d s i : is_dir (with_entry f d s) i -> is_dir s i.
Proof.
  unfold with_entry. destruct (node_of s d) as [[|en pa re| |]|] eqn:E; try done.
  intros (en' & pa' & re' & H). rewrite node_of_set in H. case_bool_decide; [subst|by exists en', pa', re']. by exists en, pa, re.
Qed.

Lemma guarantee_new i meta fresh s :
  i = fs_next s -> (forall entries parent removed, fresh = NDir entries parent removed -> entries = ∅) ->
  guarantee s (mkFs (<[i := (meta, fresh)]> (fs_nodes s)) (i + 1)).
Proof.
  intros -> Hf Hc. pose proof Hc as [H1 H2 H3]. set (i := fs_next s) in *. set (s' := mkFs _ _).
  assert (forall j, j <> i -> node_of s' j = node_of s j) as Hold.
  { intros j Hj. unfold node_of. simpl. by rewrite lookup_insert_ne. }
  split; [split; simpl; [lia|..]|].
  - intros j Hj. rewrite lookup_insert_ne by lia. apply H2. lia.
  - intros d n j Hd Hn Hj. destruct (decide (j = i)) as [->|Hji]; [right; lia|].
    assert (is_dir s j) as Hj'. { destruct Hj as (en & pa & re & Hj). exists en, pa, re. by rewrite <- Hold. }
    destruct (decide (d = i)) as [->|Hdi].
    + exfalso. unfold entries_of, node_of in Hn. simpl in Hn. rewrite lookup_insert_eq in Hn. simpl in Hn.
      destruct fresh as [|en pa re| |]; simpl in Hn; try (by rewrite lookup_empty in Hn).
      rewrite (Hf _ _ _ eq_refl), lookup_empty in Hn. done.
    + apply (H3 d n j Hd); [|done]. unfold entries_of in *. by rewrite <- Hold.
  - intros j Hj. simpl. rewrite lookup_insert_ne; [done|]. intros <-. apply Hj. right. lia.
Qed.

(** ** The calls *)

Lemma create_entry_ok mode d n fresh e s :
  inside d -> closed s -> (forall entries parent removed, fresh = NDir entries parent removed -> entries = ∅) ->
  let (r, s') := create_entry e mode d n fresh s in guarantee s s' /\ match r with Ok i => inside i | Err _ => True end.
Proof.
  intros Hd Hc Hf. unfold create_entry.
  destruct (node_of s d) as [[|en pa re| |]|] eqn:E; try (split; [apply guarantee_refl|done]).
  destruct (en !! n); [split; [apply guarantee_refl|done]|]. destruct re; [split; [apply guarantee_refl|done]|].
  assert (inside (fs_next s)) as Hi by (right; apply Hc). split; [|done].
  eapply guarantee_trans; [by apply guarantee_new|]. apply guarantee_with_entry; [done|].
  intros Hc1 m j [[_ <-]|[_ Hm]]%lookup_insert_Some Hj; [done|]. exact (cl_dirs _ Hc1 d m j Hd Hm Hj).
Qed.

Lemma mkdirat_ok mode d n : inside d -> call_ok any (mkdirat mode d n).
Proof.
  intros Hd e s Hc. pose proof (create_entry_ok mode d n (NDir ∅ d false) e s Hd Hc) as H.
  unfold mkdirat. destruct (create_entry _ _ _ _ _ _) as [r s']. destruct H as [H _]; [by intros ? ? ? [= <- _ _]|].
  split; [done|]. by destruct r.
Qed.

Lemma create_file_ok mode d n : inside d -> call_ok inside (create_file mode d n).
Proof.
  intros Hd e s Hc. pose proof (create_entry_ok mode d n (NFile []) e s Hd Hc) as H.
  unfold create_file. destruct (create_entry _ _ _ _ _ _) as [r s']. by destruct H.
Qed.

Lemma symlinkat_ok target d n : inside d -> call_ok any (symlinkat target d n).
Proof.
  intros Hd e s Hc. pose proof (create_entry_ok 511 d n (NSymlink target) e s Hd Hc) as H.
  unfold symlinkat. destruct (create_entry _ _ _ _ _ _) as [r s']. destruct H as [H _]; [done|]. split; [done|]. by destruct r.
Qed.

Lemma unlinkat_ok d n : inside d -> call_ok any (unlinkat d n).
Proof.
  intros Hd e s Hc. unfold unlinkat. destruct (entries_of s d !! n) as [i|]; [|split; [apply guarantee_refl|done]].
  destruct (node_of s i) as [[]|]; (split; [|done]); first [apply guarantee_refl | by apply guarantee_unlink].
Qed.

Lemma rmdirat_ok d n : inside d -> call_ok any (rmdirat d n).
Proof.
  intros Hd e s Hc. unfold rmdirat. destruct (entries_of s d !! n) as [i|] eqn:En; [|split; [apply guarantee_refl|done]].
  destruct (node_of s i) as [[|en pa re| |]|] eqn:Ei; try (split; [apply guarantee_refl|done]).
  case_bool_decide; [|split; [apply guarantee_refl|done]]. split; [|done].
  eapply guarantee_trans; [by apply guarantee_unlink|]. apply guarantee_bury.
  apply (cl_dirs _ Hc d n i Hd En). by exists en, pa, re.
Qed.

Lemma guarantee_move i d n d' n' s :
  inside d -> inside d' -> closed s -> entries_of s d !! n = Some i -> guarantee s (move_entry i d n d' n' s).
Proof.
  intros Hd Hd' Hc Hn. assert (is_dir s i -> inside i) as Hi by exact (cl_dirs _ Hc d n i Hd Hn).
  unfold move_entry. apply (guarantee_trans _ (with_entry (base.delete n) d s)); [by apply guarantee_unlink|].
  eapply guarantee_trans; [apply guarantee_with_entry; [exact Hd'|]|apply guarantee_reparent].
  - intros Hc1 m j [[_ <-]|[_ Hm]]%lookup_insert_Some Hj; [by eapply Hi, is_dir_with_entry|exact (cl_dirs _ Hc1 d' m j Hd' Hm Hj)].
  - intros H. apply Hi. by apply is_dir_with_entry in H; apply is_dir_with_entry in H.
Qed.

Lemma renameat_ok d n d' n' : inside d -> inside d' -> call_ok any (renameat d n d' n').
Proof.
  intros Hd Hd' e s Hc. unfold renameat.
  destruct (entries_of s d !! n) as [i|] eqn:En; [|split; [apply guarantee_refl|done]].
  destruct (node_of s d') as [[|en pa re| |]|]; try (split; [apply guarantee_refl|done]).
  destruct re; [split; [apply guarantee_refl|done]|]. destruct (_ && _); [split; [apply guarantee_refl|done]|].
  pose proof (guarantee_move i d n d' n' s Hd Hd' Hc En) as Hm.
  destruct (entries_of s d' !! n') as [j|] eqn:Ej; [|by split].
  destruct (i =? j); [split; [apply guarantee_refl|done]|].
  destruct (node_of s j) as [[|en' pa' re'| |]|] eqn:Enj; (destruct (node_of s i) as [[]|];
    try (split; [apply guarantee_refl|done]); try by split).
  case_bool_decide; [|split; [apply guarantee_refl|done]]. split; [|done].
  eapply guarantee_trans; [done|]. apply guarantee_bury. apply (cl_dirs _ Hc d' n' j Hd' Ej). by exists en', pa', re'.
Qed.

(** A workload's own calls on its directories are within the rely: links to any
    file included. *)
Lemma linkat_ok d n d' n' : inside d' -> call_ok any (linkat d n d' n').
Proof.
  intros Hd' e s Hc. unfold linkat. destruct (entries_of s d !! n) as [i|]; [|split; [apply guarantee_refl|done]].
  destruct (entries_of s d' !! n'); [split; [apply guarantee_refl|done]|].
  assert (~ is_dir s i -> guarantee s (with_entry (fun entries => <[n' := i]> entries) d' s)) as Hadd.
  { intros Hi. apply guarantee_with_entry; [done|]. intros Hc1 m j [[_ <-]|[_ Hm]]%lookup_insert_Some Hj; [done|].
    exact (cl_dirs _ Hc1 d' m j Hd' Hm Hj). }
  destruct (node_of s i) as [[|en pa re| |]|] eqn:Ei; try (split; [apply guarantee_refl|done]).
  all: assert (~ is_dir s i) as Hi by (intros (? & ? & ? & ?); congruence).
  all: destruct (node_of s d') as [[|? ? []| |]|]; (split; [|done]); first [apply guarantee_refl | by apply Hadd].
Qed.

Lemma workload_call_rely {A} (f : Sys -> Fs -> result Errno A * Fs) e s :
  call_ok any f -> rely s (f e s).2.
Proof. intros H Hc. specialize (H e s Hc). destruct (f e s) as [r s']. by destruct H as [H _]; destruct (H Hc). Qed.

Lemma append_ok i bytes : inside i -> call_ok any (append i bytes).
Proof.
  intros Hi e s Hc. unfold append. destruct (node_of s i) as [[| | |]|] eqn:E; try (split; [apply guarantee_refl|done]).
  split; [|done]. by apply guarantee_set_node.
Qed.

Lemma open_directory_ok d n : inside d -> n <> dotdot -> call_ok inside (open_directory false d n).
Proof.
  intros Hd Hn. apply call_ok_read.
  - intros e s. unfold open_directory. destruct (entry s d n) as [i|]; [|done]. by destruct (node_kind s i) as [[]|].
  - intros e s i Hc. unfold open_directory. destruct (entry s d n) as [j|] eqn:Ee; [|done].
    destruct (node_kind s j) as [[]|] eqn:Ek; try done. intros [= <-]. unfold entry in Ee.
    destruct (node_of s d) as [[|en pa re| |]|] eqn:Ed; try done. rewrite bool_decide_false in Ee by done.
    destruct (en !! n) as [j'|] eqn:En; [|done]. injection Ee as ->.
    apply (cl_dirs _ Hc d n j Hd); [by rewrite (entries_of_dir s d en pa re Ed)|].
    unfold node_kind in Ek. destruct (node_of s j) as [[|e1 p1 r1| |]|] eqn:Ej; try done. by exists e1, p1, r1.
Qed.

Lemma read_only_ok {A} f : (forall e s, (f e s).2 = s) -> call_ok (A := A) any f.
Proof. intros H. by apply call_ok_read. Qed.

(** ** The programs *)

Create HintDb walk.
Hint Resolve mkdirat_ok create_file_ok symlinkat_ok unlinkat_ok rmdirat_ok renameat_ok append_ok open_directory_ok : walk.
Hint Resolve ok_sys ok_call : walk.

Lemma fstat_read i e s : (fstat i e s).2 = s.
Proof. unfold fstat. by destruct (fs_nodes s !! i) as [[]|]. Qed.

Lemma open_directory_read follow d n e s : (open_directory follow d n e s).2 = s.
Proof. unfold open_directory. destruct (if follow then _ else _) as [i|]; [|done]. by destruct (node_kind s i) as [[]|]. Qed.

Lemma open_read_read follow d n e s : (open_read follow d n e s).2 = s.
Proof. unfold open_read. destruct (if follow then _ else _) as [i|]; [|done]. by destruct (node_kind s i) as [[]|]. Qed.

Lemma readdir_read d e s : (readdir d e s).2 = s.
Proof. unfold readdir. by destruct (node_of s d) as [[]|]. Qed.

Lemma readlinkat_read d n e s : (readlinkat d n e s).2 = s.
Proof. unfold readlinkat. destruct (entry s d n) as [i|]; [|done]. by destruct (node_of s i) as [[]|]. Qed.

Lemma read_at_read i o l e s : (read_at i o l e s).2 = s.
Proof. unfold read_at. by destruct (node_of s i) as [[]|]. Qed.

(** A program of reads is fine whatever it reads. *)
Lemma ok_read {A} f : (forall e s, (f e s).2 = s) -> ok_prog (good (@any A)) (sys f).
Proof. intros H. by apply ok_sys, read_only_ok. Qed.

Lemma ok_read_call {A} err f : (forall e s, (f e s).2 = s) -> ok_prog (good (@any A)) (call err f).
Proof. intros H. by apply ok_call, read_only_ok. Qed.

Lemma ok_any {A} (Q : A -> Prop) p : ok_prog Q p -> ok_prog any p.
Proof. by apply ok_weaken. Qed.

Lemma contained_from_ok anchor rev : ok_prog (good any) (contained_from anchor rev).
Proof.
  induction rev as [|n rev IH]; cbn [contained_from]; (eapply ok_bind; [by apply ok_read|]); intros [r|[]] _; try (by apply ok_done); try done.
  all: apply ok_done; by case_bool_decide.
Qed.

Lemma require_contained_ok anchor path : ok_prog (good any) (require_contained anchor path).
Proof. unfold require_contained. destruct (a_links anchor) as [|[]]; [by apply ok_done|apply contained_from_ok|by apply ok_done]. Qed.

Lemma stat_at_ok follow d n : ok_prog any (stat_at follow d n).
Proof.
  unfold stat_at. eapply ok_bind; [apply ok_read|by intros [r|[]] _; apply ok_done].
  intros e s. destruct (if follow then _ else _); [apply fstat_read|done].
Qed.

Lemma stat_entry_of_ok err follow d n : ok_prog (good any) (stat_entry_of err follow d n).
Proof. unfold stat_entry_of. eapply ok_bind; [apply stat_at_ok|]. by intros [r|] _; apply ok_done. Qed.

Lemma fstat_entry_ok i : ok_prog (good any) (fstat_entry i).
Proof. unfold fstat_entry. eapply ok_try; [apply ok_read_call; apply fstat_read|]. intros a _. by apply ok_done. Qed.

Lemma directory_open_failure_ok d n err : ok_prog any (directory_open_failure d n err).
Proof.
  unfold directory_open_failure. destruct err; try (by apply ok_done).
  all: eapply ok_bind; [apply stat_at_ok|]; by intros ? _; apply ok_done.
Qed.

Lemma open_failure_ok follow d n err : ok_prog any (open_failure follow d n err).
Proof. unfold open_failure. destruct err, follow; try (by apply ok_done); apply directory_open_failure_ok. Qed.

Lemma fail_open_ok {A} (Q : A -> Prop) p : ok_prog any p -> ok_prog (good Q) (fail_open p).
Proof. intros H. unfold fail_open. eapply ok_bind; [done|]. intros e _. by apply ok_done. Qed.

Lemma open_child_directory_ok parent n mode :
  inside parent -> n <> dotdot -> ok_prog (good inside) (open_child_directory parent n false mode).
Proof.
  intros Hp Hn. unfold open_child_directory. eapply ok_bind; [by apply ok_sys, open_directory_ok|].
  intros [i|e] Hi; [by apply ok_done|].
  assert (forall e', ok_prog (good inside) (fail_open (open_failure false parent n e'))) as Hfail
    by (intros; apply fail_open_ok, open_failure_ok).
  assert (ok_prog (good inside) (pbind (sys (open_directory false parent n))
    (fun again => match again with Ok directory => Done (Ok directory) | Err error => fail_open (open_failure false parent n error) end))) as Hagain.
  { eapply ok_bind; [by apply ok_sys, open_directory_ok|]. intros [i|e'] Hi'; [by apply ok_done|done]. }
  destruct e; try done. destruct mode; [|by apply ok_done].
  eapply ok_bind; [by apply ok_sys, mkdirat_ok|]. intros [i|[]] _; try done; by apply ok_done.
Qed.

Lemma open_chain_ok current components mode :
  inside current -> Forall (fun n => n <> dotdot) components -> ok_prog (good inside) (open_chain false mode current components).
Proof.
  intros Hc Hf. revert current Hc. induction Hf as [|n rest Hn _ IH]; intros current Hc; cbn [open_chain]; [by apply ok_done|].
  eapply ok_try; [by apply open_child_directory_ok|]. auto.
Qed.

(** A walk that refuses links. *)
Definition refusing (anchor : Anchor) : Prop := a_links anchor = Refuse /\ inside (a_directory anchor).

Lemma refusing_follows anchor : refusing anchor -> follows anchor = false.
Proof. unfold follows. by intros [-> _]. Qed.

Lemma open_directory_chain_ok anchor components mode :
  refusing anchor -> Forall (fun n => n <> dotdot) components -> ok_prog (good inside) (open_directory_chain anchor components mode).
Proof.
  intros Ha Hf. unfold open_directory_chain. rewrite (refusing_follows _ Ha).
  eapply ok_try; [apply require_contained_ok|]. intros _ _. eapply ok_try; [by apply ok_read_call|]. intros _ _.
  by apply open_chain_ok; [apply Ha|].
Qed.

Lemma keep_segments_ok segments components :
  keep_segments segments = Ok components ->
  Forall (fun n => n <> dotdot /\ n <> [] /\ n <> [DOT] /\ n ∈ segments) components.
Proof.
  revert components. induction segments as [|seg rest IH]; simpl; intros cs; [by intros [= <-]|].
  destruct (_ || _) eqn:E1; [intros H; eapply Forall_impl; [by apply IH|]; intros n (? & ? & ? & ?); eauto using list_elem_of_further|].
  apply orb_false_iff in E1 as [E1 E2]. apply bool_decide_eq_false in E1, E2.
  case_bool_decide; [done|]. destruct (keep_segments rest) as [cs'|] eqn:E; [|done]. intros [= <-].
  constructor; [split; [done|]; split; [done|]; split; [done|left]|].
  eapply Forall_impl; [by apply IH|]. intros n (? & ? & ? & ?). eauto using list_elem_of_further.
Qed.

Lemma components_of_ok relative components :
  components_of relative = Ok components -> Forall (fun n => n <> dotdot) components.
Proof.
  unfold components_of. do 2 (case_bool_decide; [done|]). intros Hk%keep_segments_ok.
  eapply Forall_impl; [exact Hk|]. by intros n (? & _).
Qed.

Lemma entry_components_ok relative parents n :
  entry_components relative = Ok (parents, n) -> Forall (fun n => n <> dotdot) parents /\ n <> dotdot.
Proof.
  unfold entry_components. destruct (_ || _); [done|]. destruct (components_of relative) as [cs|] eqn:E; [|done]. simpl.
  destruct (last cs) as [m|] eqn:El; [|done]. intros [= <- <-]. apply components_of_ok in E.
  apply last_Some in El as [init ->]. rewrite removelast_last. rewrite Forall_app, Forall_singleton in E. done.
Qed.

Definition plain (pn : list name * name) : Prop := Forall (fun n => n <> dotdot) pn.1 /\ pn.2 <> dotdot.

Lemma entry_ok relative : ok_prog (good plain) (Done (entry_components relative)).
Proof.
  apply ok_done. destruct (entry_components relative) as [[ps n]|] eqn:E; [|done]. by apply entry_components_ok in E.
Qed.

Lemma components_ok relative : ok_prog (good (Forall (fun n => n <> dotdot))) (Done (components_of relative)).
Proof. apply ok_done. destruct (components_of relative) eqn:E; [|done]. by eapply components_of_ok. Qed.

(** A value with no claim on it. *)
Lemma ok_value {E A} (r : result E A) : ok_prog (good any) (Done r).
Proof. apply ok_done. by destruct r. Qed.

Lemma write_all_ok fuel i bytes : inside i -> ok_prog (good any) (write_all fuel i bytes).
Proof.
  intros Hi. revert bytes. induction fuel as [|fuel IH]; intros [|b bytes]; cbn [write_all]; try (by apply ok_done).
  eapply ok_try; [by apply ok_call, append_ok|]. intros w _. apply IH.
Qed.

Lemma fill_file_ok i content : inside i -> ok_prog (good any) (fill_file i content).
Proof.
  intros Hi. unfold fill_file. eapply ok_try; [by apply write_all_ok|]. intros _ _. by apply ok_read_call.
Qed.

Lemma discard_entry_ok d n : inside d -> ok_prog any (discard_entry d n).
Proof. intros Hd. unfold discard_entry. eapply ok_bind; [by apply ok_sys, unlinkat_ok|]. intros ? _. by apply ok_done. Qed.

Lemma temp_file_name_ok : ok_prog any temp_file_name.
Proof. intros s Hs. apply safe_atomic. intros e s1 _ H1. split; [apply guarantee_refl|]. split; [by apply H1|done]. Qed.

Lemma replace_file_ok target content mode : inside (wt_directory target) -> ok_prog (good any) (replace_file target content mode).
Proof.
  intros Hd. unfold replace_file. eapply ok_bind; [apply temp_file_name_ok|]. intros temp _.
  eapply ok_try; [by apply ok_call, create_file_ok|]. intros i Hi.
  eapply (ok_bind (good any)).
  - eapply ok_try; [by apply fill_file_ok|]. intros _ _. by apply ok_call, renameat_ok.
  - intros [u|e] _; [by apply ok_read_call|]. eapply ok_bind; [by apply discard_entry_ok|]. intros _ _. by apply ok_done.
Qed.

Lemma read_loop_ok fuel i offset limit content : ok_prog (good any) (read_loop fuel i offset limit content).
Proof.
  revert offset limit content. induction fuel as [|fuel IH]; intros; cbn [read_loop]; [by apply ok_done|].
  eapply ok_try; [apply ok_read_call; intros; apply read_at_read|]. intros [|b bytes] _; [by apply ok_done|apply IH].
Qed.

Lemma required_ok o : ok_prog (good any) (required o).
Proof. apply ok_done. by destruct o. Qed.

Lemma read_names_ok d : ok_prog (good (Forall (fun n => n <> dotdot))) (read_names d).
Proof.
  unfold read_names. eapply ok_try; [apply ok_read_call; intros; apply readdir_read|]. intros names _.
  apply ok_done. apply Forall_forall. intros n Hn. by apply list_elem_of_filter in Hn as [[_ ?] _].
Qed.

Lemma remove_entries_ok d names sub :
  inside d -> Forall (fun n => n <> dotdot) names -> (forall n, sub = Some n -> n <> dotdot) ->
  ok_prog (good (fun left => forall n, left = Some n -> n <> dotdot)) (remove_entries d names sub).
Proof.
  intros Hd Hn. revert sub. induction Hn as [|n rest Hn _ IH]; intros sub Hs; cbn [remove_entries]; [by apply ok_done|].
  eapply ok_try; [apply stat_entry_of_ok|]. intros [status|] _; [|by apply IH].
  case_bool_decide.
  - apply IH. destruct sub as [m|]; intros k [= <-]; [by apply Hs|done].
  - eapply ok_try; [by apply ok_call, unlinkat_ok|]. intros _ _. by apply IH.
Qed.

Lemma remove_non_directories_ok d :
  inside d -> ok_prog (good (fun left => forall n, left = Some n -> n <> dotdot)) (remove_non_directories d).
Proof.
  intros Hd. unfold remove_non_directories. eapply ok_try; [apply read_names_ok|]. intros names Hn. by apply remove_entries_ok.
Qed.

Lemma directory_identity_ok i : ok_prog (good (fun j => j = i)) (directory_identity i).
Proof.
  unfold directory_identity. apply (ok_try (fun status => st_ino status = i)).
  - apply ok_call, call_ok_read; [intros; apply fstat_read|]. intros e s a _. unfold fstat.
    destruct (fs_nodes s !! i) as [[m nd]|]; [|done]. by intros [= <-].
  - intros a Ha. by apply ok_done.
Qed.

Lemma reopen_parent_ok child identity : inside identity -> ok_prog (good inside) (reopen_parent child identity).
Proof.
  intros Hi. unfold reopen_parent. eapply ok_try; [apply ok_read_call; intros; apply open_directory_read|]. intros parent _.
  eapply ok_try; [apply directory_identity_ok|]. intros j ->. apply ok_done.
  destruct (parent =? identity) eqn:E; [|done]. apply Z.eqb_eq in E. by subst.
Qed.

Definition held_inside (a : PendingAncestor) : Prop :=
  match pa_descriptor a with Held d => inside d | Released i => inside i end.

Lemma remove_loop_ok fuel parent current n ancestors :
  inside parent -> inside current -> Forall held_inside ancestors ->
  ok_prog (goodr any) (remove_loop fuel parent current n ancestors).
Proof.
  intros Hp. revert current n ancestors. induction fuel as [|fuel IH]; intros current n ancestors Hc Ha; cbn [remove_loop]; [by apply ok_done|].
  eapply ok_run; [by apply remove_non_directories_ok|]. intros [sub|] Hsub.
  - specialize (Hsub _ eq_refl). eapply ok_bind; [by apply ok_sys, open_directory_ok|]. intros [descriptor|e] Hd.
    + apply (ok_run (fun a => held_inside (mkPending a n))).
      * destruct (_ <? _)%nat; [by apply ok_done|]. eapply ok_try; [apply directory_identity_ok|]. intros j ->. by apply ok_done.
      * intros a Hh. apply IH; [done|]. by constructor.
    + eapply ok_bind; [apply directory_open_failure_ok|]. intros x _. by apply ok_done.
  - destruct Ha as [|a rest Hh Hr].
    + eapply ok_bind; [by apply ok_call, rmdirat_ok|]. intros [] _; by apply ok_done.
    + apply (ok_run inside).
      * unfold held_inside in Hh. destruct (pa_descriptor a); [by apply ok_done|by apply reopen_parent_ok].
      * intros up Hup. eapply ok_run; [by apply ok_call, rmdirat_ok|]. intros _ _. by apply IH.
Qed.

(** ** Every operation *)

Inductive WalkOp :=
| WRead (relative : list Z) (max_bytes : Z)
| WOpen (relative : list Z)
| WWrite (relative content : list Z) (options : WriteOptions)
| WWriteNew (relative content : list Z) (options : WriteOptions)
| WRemove (relative : list Z)
| WRemoveLinkTarget (relative : list Z)
| WRemoveTree (fuel : nat) (relative : list Z)
| WRemoveEmptyDir (relative : list Z)
| WCreateDirAll (relative : list Z) (mode : Z)
| WSymlink (relative target : list Z)
| WReadLink (relative : list Z)
| WStat (relative : list Z)
| WStatFollowed (relative : list Z)
| WList (relative : list Z)
| WRename (from to : list Z)
| WCreateDirectory (relative : list Z) (mode : Z).

Definition ignore {A} (p : Prog A) : Prog unit := pbind p (fun _ => Done tt).

Definition operation (anchor : Anchor) (op : WalkOp) : Prog unit :=
  match op with
  | WRead relative max_bytes => ignore (read_file anchor relative max_bytes)
  | WOpen relative => ignore (open_file anchor relative)
  | WWrite relative content options => ignore (write_file_atomic anchor relative content options)
  | WWriteNew relative content options => ignore (write_file_new anchor relative content options)
  | WRemove relative => ignore (remove_file anchor relative)
  | WRemoveLinkTarget relative => ignore (remove_link_target anchor relative)
  | WRemoveTree fuel relative => ignore (remove_tree fuel anchor relative)
  | WRemoveEmptyDir relative => ignore (remove_empty_dir anchor relative)
  | WCreateDirAll relative mode => ignore (create_dir_all anchor relative mode)
  | WSymlink relative target => ignore (symlink anchor relative target)
  | WReadLink relative => ignore (read_link anchor relative)
  | WStat relative => ignore (stat anchor relative)
  | WStatFollowed relative => ignore (stat_followed anchor relative)
  | WList relative => ignore (list_dir anchor relative)
  | WRename from to => ignore (rename anchor from to)
  | WCreateDirectory relative mode => ignore (create_directory anchor relative mode)
  end.

Lemma ok_ignore {A} (Q : A -> Prop) p : ok_prog Q p -> ok_prog any (ignore p).
Proof. intros H. unfold ignore. eapply ok_bind; [done|]. intros ? _. by apply ok_done. Qed.

(** An entry below the anchor: its directory is inside. *)
Lemma ok_entry {B} (Q : B -> Prop) anchor relative mode (f : list name -> name -> inode -> Prog (result FsError B)) :
  refusing anchor ->
  (forall parents n directory, n <> dotdot -> inside directory -> ok_prog (good Q) (f parents n directory)) ->
  ok_prog (good Q) (try_bind (Done (entry_components relative)) (fun '(parents, n) =>
    try_bind (open_directory_chain anchor parents mode) (fun directory => f parents n directory))).
Proof.
  intros Ha Hf. eapply ok_try; [apply entry_ok|]. intros [parents n] [Hp Hn].
  eapply ok_try; [by apply open_directory_chain_ok|]. auto.
Qed.

Lemma remove_file_ok anchor relative : refusing anchor -> ok_prog (good any) (remove_file anchor relative).
Proof.
  intros Ha. apply ok_entry; [done|]. intros parents n d Hn Hd.
  eapply ok_try; [apply stat_entry_of_ok|]. intros found _. eapply ok_try; [apply required_ok|]. intros st _.
  eapply ok_try; [apply ok_value|]. intros _ _. by apply ok_call, unlinkat_ok.
Qed.

Lemma open_readable_ok anchor relative max_bytes : refusing anchor -> ok_prog (good any) (open_readable anchor relative max_bytes).
Proof.
  intros Ha. apply ok_entry; [done|]. intros parents n d Hn Hd.
  eapply ok_try; [apply require_contained_ok|]. intros _ _.
  eapply ok_try; [apply stat_entry_of_ok|]. intros found _. eapply ok_try; [apply required_ok|]. intros st _.
  eapply ok_try; [apply ok_value|]. intros _ _. eapply ok_try; [apply ok_read_call; intros; apply open_read_read|]. intros i _.
  eapply ok_try; [apply fstat_entry_ok|]. intros st' _. eapply ok_try; [apply ok_value|]. intros _ _. by apply ok_done.
Qed.

Lemma write_file_atomic_ok anchor relative content options :
  refusing anchor -> ok_prog (good any) (write_file_atomic anchor relative content options).
Proof.
  intros Ha. apply ok_entry; [done|]. intros parents n d Hn Hd.
  eapply ok_try; [apply stat_entry_of_ok|]. intros existing _. rewrite (refusing_follows _ Ha), andb_false_r.
  apply (ok_try (fun target => inside (wt_directory target))); [by apply ok_done|]. intros target Ht.
  eapply ok_try; [apply ok_value|]. intros _ _. by apply replace_file_ok.
Qed.

Lemma write_file_new_ok anchor relative content options :
  refusing anchor -> ok_prog (good any) (write_file_new anchor relative content options).
Proof.
  intros Ha. apply ok_entry; [done|]. intros parents n d Hn Hd.
  eapply ok_try; [by apply ok_call, create_file_ok|]. intros i Hi.
  eapply ok_bind; [by apply fill_file_ok|]. intros [u|e] _; [by apply ok_read_call|].
  eapply ok_bind; [by apply discard_entry_ok|]. intros _ _. by apply ok_done.
Qed.

Lemma remove_tree_ok fuel anchor relative : refusing anchor -> ok_prog (goodr any) (remove_tree fuel anchor relative).
Proof.
  intros Ha. unfold remove_tree. eapply ok_run; [apply entry_ok|]. intros [parents n] [Hp Hn]. cbn [fst snd] in Hp, Hn.
  eapply ok_run; [by apply open_directory_chain_ok|]. intros d Hd.
  eapply ok_run; [apply stat_entry_of_ok|]. intros found _. eapply ok_run; [apply required_ok|]. intros st _.
  case_bool_decide.
  - unfold remove_directory_tree. eapply ok_bind; [by apply ok_sys, open_directory_ok|]. intros [i|e] Hi.
    + by apply remove_loop_ok.
    + eapply ok_bind; [apply directory_open_failure_ok|]. intros x _. by apply ok_done.
  - eapply ok_bind; [by apply ok_call, unlinkat_ok|]. intros [] _; by apply ok_done.
Qed.

Lemma stat_entry_ok anchor relative : refusing anchor -> ok_prog (good any) (stat_entry anchor relative false).
Proof.
  intros Ha. unfold stat_entry. eapply ok_try; [apply components_ok|]. intros cs Hcs.
  destruct (last cs) as [n|] eqn:El.
  - apply last_Some in El as [init ->]. rewrite removelast_last. apply Forall_app in Hcs as [Hi _].
    eapply ok_bind; [by apply open_directory_chain_ok|]. intros [d|[]] Hd; try (by apply ok_done). apply stat_entry_of_ok.
  - eapply ok_try; [apply fstat_entry_ok|]. intros st _. by apply ok_done.
Qed.

Lemma list_entries_ok d names : ok_prog (good any) (list_entries d names).
Proof.
  induction names as [|n rest IH]; cbn [list_entries]; [by apply ok_done|].
  eapply ok_try; [apply stat_entry_of_ok|]. intros found _. eapply ok_try; [apply IH|]. intros es _. by apply ok_done.
Qed.

Lemma operation_ok anchor op : refusing anchor -> ok_prog any (operation anchor op).
Proof.
  intros Ha. pose proof (refusing_follows _ Ha) as Hf. destruct op; cbn [operation]; eapply (ok_ignore _).
  - unfold read_file, read_file_with_info. eapply ok_try; [|intros [c i] _; by apply (ok_done (good any))].
    eapply ok_try; [by apply open_readable_ok|]. intros [i st] _. eapply ok_try; [apply read_loop_ok|]. intros c _. apply ok_value.
  - by apply open_readable_ok.
  - by apply write_file_atomic_ok.
  - by apply write_file_new_ok.
  - by apply remove_file_ok.
  - apply (ok_entry any); [done|]. intros parents n d Hn Hd. eapply ok_try; [apply stat_entry_of_ok|]. intros found _.
    rewrite Hf, andb_false_r. by apply remove_file_ok.
  - by apply remove_tree_ok.
  - apply (ok_entry any); [done|]. intros parents n d Hn Hd. by apply ok_call, rmdirat_ok.
  - unfold create_dir_all. eapply ok_try; [apply components_ok|]. intros cs Hcs.
    eapply ok_try; [by apply open_directory_chain_ok|]. intros d _. by apply (ok_done (good any)).
  - unfold symlink. eapply ok_try; [apply entry_ok|]. intros [parents n] [Hp Hn]. cbn [fst snd] in *.
    do 2 (eapply ok_try; [apply ok_value|]; intros _ _). eapply ok_try; [by apply open_directory_chain_ok|]. intros d Hd.
    eapply ok_try; [by apply ok_call, symlinkat_ok|]. intros i _. by apply (ok_done (good any)).
  - apply (ok_entry any); [done|]. intros parents n d Hn Hd. apply ok_read_call. intros. apply readlinkat_read.
  - by apply stat_entry_ok.
  - unfold stat_followed. rewrite Hf. by apply stat_entry_ok.
  - unfold list_dir. eapply ok_try; [apply components_ok|]. intros cs Hcs.
    eapply ok_try; [by apply open_directory_chain_ok|]. intros d Hd. eapply ok_try; [apply read_names_ok|]. intros names _.
    eapply ok_try; [apply list_entries_ok|]. intros es _. by apply (ok_done (good any)).
  - unfold rename. eapply ok_try; [apply entry_ok|]. intros [fp fn] [Hfp Hfn]. eapply ok_try; [apply entry_ok|]. intros [tp tn] [Htp Htn].
    cbn [fst snd] in *. eapply ok_try; [by apply open_directory_chain_ok|]. intros d Hd.
    eapply ok_try; [by apply open_directory_chain_ok|]. intros d' Hd'. by apply ok_call, renameat_ok.
  - apply (ok_entry any); [done|]. intros parents n d Hn Hd.
    eapply ok_try; [by apply ok_call, mkdirat_ok|]. intros i _. by apply (ok_done (good any)).
Qed.

(** C12. A walk that refuses links stays below its anchor. Whatever an operation
    is asked to do (reads, atomic and exclusive writes, removals of files and
    trees, renames, links, directories), whichever calls fail, and whatever the
    workload does to the tree between any two of its system calls (symlinks and
    hard links to anywhere, renames and swaps of directories it owns), no step of
    it changes a directory outside the tree or any file that existed before. *)
Theorem refusing_walk_confined anchor op s :
  refusing anchor -> closed s ->
  safe (fun _ => True) rely (fun s1 s2 => closed s1 -> closed s2 /\ forall i, ~ inside i -> fs_nodes s2 !! i = fs_nodes s1 !! i)
    (fun _ s' => closed s') (operation anchor op) s.
Proof.
  intros Ha Hs. pose proof (operation_ok anchor op Ha s Hs) as H. eapply safe_mono; [|exact H]. by intros a s' [? _].
Qed.

End confined.

(** ** Witnesses *)

(** A kernel without links to resolve. *)
#[export] Instance no_links : PathWalk := {|
  canonicalize := fun _ path => Ok path;
  follow_at := fun s d n => entry s d n;
  follow_path := fun _ _ => Err ENOENT;
  lstat_path := fun _ _ => Err ENOENT;
  nofollow_errno := ENOTDIR;
  nofollow_cases := or_introl eq_refl;
|}.

Definition bytes_of (s : string) : list Z := lit s.

(** [/] is 1 with [secrets] (2, holding [key], 10) and [work] (3, holding [x],
    11); the workload owns [work]. *)
Definition root_meta : Meta := mkMeta 0 0 448 0.
Definition race_fs : Fs := mkFs
  {[ 1 := (root_meta, NDir {[ bytes_of "secrets" := 2; bytes_of "work" := 3 ]} 1 false);
     2 := (root_meta, NDir {[ bytes_of "key" := 10 ]} 1 false);
     3 := (root_meta, NDir {[ bytes_of "x" := 11 ]} 1 false);
     10 := (root_meta, NFile (bytes_of "secret"));
     11 := (root_meta, NFile (bytes_of "mine")) ]} 20.
Definition race_anchor : Anchor := mkAnchor 3 [bytes_of "work"] Refuse.

Lemma race_closed : closed {[3]} 20 race_fs.
Proof.
  split; [done|..].
  - intros i Hi. simpl in Hi. unfold race_fs. simpl. rewrite !lookup_insert_ne by lia. by apply lookup_singleton_ne; lia.
  - intros d n i Hd Hn (en & pa & re & Hdir). exfalso. destruct Hd as [->%elem_of_singleton|Hd].
    + change (entries_of race_fs 3) with ({[ bytes_of "x" := 11 ]} : gmap name inode) in Hn.
      apply lookup_singleton_Some in Hn as [_ <-]. by vm_compute in Hdir.
    + unfold entries_of, node_of in Hn. replace (fs_nodes race_fs !! d) with (@None (Meta * Node)) in Hn; [done|].
      symmetry. unfold race_fs. simpl. rewrite !lookup_insert_ne by lia. by apply lookup_singleton_ne; lia.
Qed.

Lemma refusing_walk_confined_witness :
  safe (fun _ => True) (rely {[3]} 20)
    (fun s1 s2 => closed {[3]} 20 s1 -> closed {[3]} 20 s2 /\ forall i, ~ inside {[3]} 20 i -> fs_nodes s2 !! i = fs_nodes s1 !! i)
    (fun _ s' => closed {[3]} 20 s') (operation race_anchor (WWrite (bytes_of "x") (bytes_of "new") (mkWriteOptions false 384 448 None))) race_fs.
Proof.
  assert (refusing {[3]} 20 race_anchor) as Ha by (split; [reflexivity|left; by apply elem_of_singleton]).
  apply refusing_walk_confined; [exact Ha|exact race_closed].
Defined.
