(* ===== verification/WalkExact.v ===== *)
(** What the walker's operations do when nothing else changes the tree, where
    its checks are exact, and where a concurrent workload defeats one of them. *)

From S2P Require Import Prelude Text Async Posix Walk WalkSafety.
Open Scope Z_scope.
Open Scope result_scope.

(** ** Reference definitions *)

(** The directory a list of names leads to through real directories only. *)
Fixpoint walk_dirs (s : Fs) (d : inode) (components : list name) : option inode :=
  match components with
  | [] => Some d
  | n :: rest =>
      match entries_of s d !! n with
      | Some i => match node_of s i with Some (NDir _ _ _) => walk_dirs s i rest | _ => None end
      | None => None
      end
  end.

Lemma all_entries_elem s d n i : (d, n, i) ∈ all_entries s <-> entries_of s d !! n = Some i.
Proof.
  unfold all_entries. rewrite list_elem_of_bind. split.
  - intros ([d' mn] & ([n' i'] & [= -> -> ->] & He%elem_of_map_to_list)%list_elem_of_fmap & _). done.
  - intros He. assert (exists mn, fs_nodes s !! d = Some mn) as [mn Hd].
    { unfold entries_of, node_of in He. destruct (fs_nodes s !! d); [eauto|]. simpl in He. by rewrite lookup_empty in He. }
    exists (d, mn). split; [|by apply elem_of_map_to_list]. apply list_elem_of_fmap. exists (n, i).
    split; [done|]. by apply elem_of_map_to_list.
Qed.

(** A file with one link has one name. *)
Lemma nlink_one s i d n d' n' :
  nlink s i <= 1 -> entries_of s d !! n = Some i -> entries_of s d' !! n' = Some i -> (d', n') = (d, n).
Proof.
  intros Hn H H'. unfold nlink in Hn. apply all_entries_elem in H, H'.
  assert (forall x y, x ∈ all_entries s -> x.2 = i -> y ∈ all_entries s -> y.2 = i -> x = y) as Hone.
  { set (l := filter (fun e : inode * name * inode => e.2 = i) (all_entries s)) in *.
    intros x y Hx Hxi Hy Hyi. assert (x ∈ l) as Hxl by (by apply list_elem_of_filter).
    assert (y ∈ l) as Hyl by (by apply list_elem_of_filter).
    clearbody l. destruct l as [|a [|b l]]; simpl in Hn; [by apply elem_of_nil in Hxl| |lia].
    apply list_elem_of_singleton in Hxl, Hyl. congruence. }
  specialize (Hone _ _ H' eq_refl H eq_refl). congruence.
Qed.

(** ** Undisturbed programs *)

Section exact.
Context {PW : PathWalk}.

(** Nothing else runs; [E] restricts what the kernel hands out. *)
Definition alone {A} (E : Sys -> Prop) (G : Fs -> Fs -> Prop) (Q : A -> Fs -> Prop) (p : Prog A) (s : Fs) : Prop :=
  safe E eq G Q p s.

(** A program that reads: the state stays [s], and its result satisfies [Q]. *)
Definition reads {A} (s : Fs) (Q : A -> Prop) (p : Prog A) : Prop :=
  safe (fun _ => True) eq eq (fun a s' => s' = s /\ Q a) p s.

Lemma reads_done {A} s (Q : A -> Prop) a : Q a -> reads s Q (Done a).
Proof. by split. Qed.

Lemma reads_bind {A B} s (Q : A -> Prop) (Q' : B -> Prop) p f :
  reads s Q p -> (forall a, Q a -> reads s Q' (f a)) -> reads s Q' (pbind p f).
Proof. intros Hp Hf. apply safe_bind. eapply safe_mono; [|exact Hp]. intros a s' [-> Ha]. by apply Hf. Qed.

Lemma reads_sys {A} s (Q : A -> Prop) f :
  (forall e, (f e s).2 = s) -> (forall e a, (f e s).1 = Ok a -> Q a) -> reads s (good Q) (sys f).
Proof.
  intros Hr Hq. apply safe_atomic. intros e s1 _ <-. destruct (y_fault e); [done|].
  specialize (Hr e). specialize (Hq e). destruct (f e s) as [[a|x] s2]; simpl in *; subst; auto.
Qed.

Lemma reads_try {A B} s (Q : A -> Prop) (Q' : B -> Prop) p f :
  reads s (good Q) p -> (forall a, Q a -> reads s (good Q') (f a)) -> reads s (good Q') (try_bind p f).
Proof. intros Hp Hf. eapply reads_bind; [done|]. intros [a|e] H; [by apply Hf|by apply reads_done]. Qed.

Lemma reads_call {A} s (Q : A -> Prop) err f :
  (forall e, (f e s).2 = s) -> (forall e a, (f e s).1 = Ok a -> Q a) -> reads s (good Q) (call err f).
Proof.
  intros Hr Hq. eapply reads_bind; [by apply (reads_sys s Q)|]. intros [a|e] H; by apply reads_done.
Qed.

Lemma reads_value {E A} s (Q : A -> Prop) (r : result E A) : good Q r -> reads s (good Q) (Done r).
Proof. intros H. by apply reads_done. Qed.

Lemma reads_weaken {A} s (Q Q' : A -> Prop) p : (forall a, Q a -> Q' a) -> reads s Q p -> reads s Q' p.
Proof. intros H Hp. eapply safe_mono; [|exact Hp]. intros a s' [? ?]. auto. Qed.

(** A program of reads within a run that also writes. *)
Lemma alone_reads {A B} E G (Q : A -> Prop) (Q' : B -> Fs -> Prop) p f s :
  (forall s, G s s) -> reads s Q p -> (forall a, Q a -> alone E G Q' (f a) s) -> alone E G Q' (pbind p f) s.
Proof.
  intros HG Hp Hf. apply safe_bind. revert Hp. unfold reads.
  assert (forall s1, s1 = s -> safe (fun _ => True) eq eq (fun a s' => s' = s /\ Q a) p s1 ->
    safe E eq G (fun a s' => safe E eq G Q' (f a) s') p s1) as Hgen; [|by apply Hgen].
  induction p as [a|run IH] using Proc_tree_ind; intros s1 ->; simpl.
  - intros [_ Ha]. by apply Hf.
  - intros Hp e s2 He <-. specialize (Hp e s I eq_refl). specialize (IH e s).
    destruct (run e s) as [s3 p3]. destruct Hp as [<- Hp]. split; [done|]. by apply IH.
Qed.

(** ** Directories *)

Lemma entry_dir s d n i : n <> dotdot -> entry s d n = Ok i -> entries_of s d !! n = Some i.
Proof.
  unfold entry, entries_of. intros Hn. destruct (node_of s d) as [[|en pa re| |]|]; try done.
  rewrite bool_decide_false by done. destruct (en !! n); by intros [= <-].
Qed.

Lemma open_child_directory_reads s d n :
  n <> dotdot ->
  reads s (good (fun i => walk_dirs s d [n] = Some i)) (open_child_directory d n false None).
Proof.
  intros Hn. unfold open_child_directory.
  eapply reads_bind; [apply (reads_sys s (fun i => walk_dirs s d [n] = Some i))|].
  - intros e. apply open_directory_read.
  - intros e i. unfold open_directory. destruct (entry s d n) as [j|] eqn:Ee; [|done].
    apply entry_dir in Ee; [|done]. simpl. rewrite Ee. unfold node_kind.
    destruct (node_of s j) as [[]|]; try done; by intros [= <-].
  - assert (forall e, reads s (good (fun i => walk_dirs s d [n] = Some i)) (fail_open (open_failure false d n e))) as Hfail.
    { intros e. unfold fail_open. apply (reads_bind s any); [|intros; by apply reads_done].
      unfold open_failure, directory_open_failure. destruct e; try (by apply reads_done).
      all: apply (reads_bind s any); [|intros; by apply reads_done].
      all: unfold lstat_at, stat_at; apply (reads_bind s (good any)); [|by intros [|[]] _; apply reads_done].
      all: apply (reads_sys s any); [|done]; intros e; destruct (entry s d n); [apply fstat_read|done]. }
    intros [i|[]] Hi; by first [apply reads_done | apply Hfail].
Qed.

Lemma open_chain_reads s d components :
  Forall (fun n => n <> dotdot) components ->
  reads s (good (fun i => walk_dirs s d components = Some i)) (open_chain false None d components).
Proof.
  intros Hf. revert d. induction Hf as [|n rest Hn _ IH]; intros d; cbn [open_chain]; [by apply reads_done|].
  eapply reads_try; [by apply open_child_directory_reads|]. intros i Hi.
  eapply reads_weaken; [|apply IH]. intros [j|] Hj; [|done]. simpl in *.
  destruct (entries_of s d !! n) as [k|]; [|done]. destruct (node_of s k) as [[]|]; try done. by injection Hi as ->.
Qed.

Lemma open_directory_chain_reads s anchor components :
  a_links anchor = Refuse -> Forall (fun n => n <> dotdot) components ->
  reads s (good (fun i => walk_dirs s (a_directory anchor) components = Some i)) (open_directory_chain anchor components None).
Proof.
  intros Ha Hf. unfold open_directory_chain, require_contained, follows. rewrite Ha.
  eapply reads_try; [by apply (reads_value s any)|]. intros _ _.
  eapply reads_try; [by apply (reads_call s any)|]. intros _ _. by apply open_chain_reads.
Qed.

(** The status of an entry. *)
Lemma stat_entry_reads s err d n :
  n <> dotdot ->
  reads s (good (fun o => match o with
      | Some info => exists i, entries_of s d !! n = Some i /\ exists m nd, fs_nodes s !! i = Some (m, nd)
                       /\ info = entry_info (mkStat nd m (nlink s i) i)
      | None => True
      end)) (stat_entry_of err false d n).
Proof.
  intros Hn. unfold stat_entry_of, stat_at.
  assert (forall e s', (match entry s' d n with Ok i => fstat i e s' | Err x => (Err x, s') end).2 = s') as Hread.
  { intros e s'. destruct (entry s' d n); [apply fstat_read|done]. }
  apply safe_bind, safe_bind, safe_atomic. intros e s1 _ <-. destruct (y_fault e) as [[]|]; try done.
  specialize (Hread e s). destruct (entry s d n) as [i|x] eqn:Ee; simpl in *.
  - apply entry_dir in Ee; [|done]. unfold fstat in *. destruct (fs_nodes s !! i) as [[m nd]|] eqn:Ei; simpl; [|done].
    split; [done|]. split; [done|]. exists i. split; [done|]. by exists m, nd.
  - by destruct x.
Qed.

(** ** Reading *)

Lemma read_loop_reads s i content fuel offset limit acc :
  node_of s i = Some (NFile content) ->
  (length content - offset < fuel)%nat -> (length content - offset < limit)%nat ->
  acc = take offset content -> (offset <= length content)%nat ->
  reads s (good (fun r => r = content)) (read_loop fuel i offset limit acc).
Proof.
  intros Hi. revert offset limit acc. induction fuel as [|fuel IH]; intros offset limit acc Hf Hl Ha Ho; [lia|].
  cbn [read_loop].
  eapply reads_try; [apply (reads_call s (fun bytes => exists k, (0 < k)%nat /\ bytes = take k (drop offset content)))|].
  - intros e. apply read_at_read.
  - intros e bytes. unfold read_at. rewrite Hi. intros [= <-]. eexists. split; [|done]. lia.
  - intros bytes (k & Hk & ->). destruct (take k (drop offset content)) as [|b rest] eqn:Et.
    + apply reads_done. simpl. subst acc. apply take_ge.
      destruct (drop offset content) as [|x xs] eqn:Ed.
      * assert (length (drop offset content) = 0%nat) as Hz by (by rewrite Ed). rewrite length_drop in Hz. lia.
      * destruct k; [lia|done].
    + assert (length (b :: rest) = Nat.min k (length content - offset)) as Hlen.
      { rewrite <- Et, length_take, length_drop. done. }
      assert (0 < length (b :: rest))%nat by (simpl; lia).
      apply IH; [lia|lia| |lia].
      assert (acc ++ b :: rest = take (offset + k) content) as -> by (rewrite Ha, <- Et; apply take_take_drop).
      rewrite Hlen. destruct (decide (k <= length content - offset)%nat); [by rewrite Nat.min_l by lia|].
      by rewrite !take_ge by lia.
Qed.

(** An entry reached through real directories: a regular file of at most
    [max_bytes], with a single link. *)
Definition sole_file (s : Fs) (anchor : Anchor) (relative : list Z) (max_bytes : Z) (i : inode) (content : list Z) : Prop :=
  exists parents n d, entry_components relative = Ok (parents, n)
  /\ walk_dirs s (a_directory anchor) parents = Some d
  /\ entries_of s d !! n = Some i /\ node_of s i = Some (NFile content)
  /\ Z.of_nat (length content) <= max_bytes /\ nlink s i <= 1.

Lemma fstat_entry_reads s i :
  reads s (good (fun st => exists m nd, fs_nodes s !! i = Some (m, nd) /\ st = entry_info (mkStat nd m (nlink s i) i)))
    (fstat_entry i).
Proof.
  unfold fstat_entry.
  eapply reads_try; [apply (reads_call s (fun st => exists m nd, fs_nodes s !! i = Some (m, nd) /\ st = mkStat nd m (nlink s i) i))|].
  - intros e. apply fstat_read.
  - intros e a. unfold fstat. destruct (fs_nodes s !! i) as [[m nd]|]; [|done]. intros [= <-]. by exists m, nd.
  - intros a (m & nd & Hnd & ->). apply reads_done. by exists m, nd.
Qed.

Lemma open_readable_reads s anchor relative max_bytes :
  a_links anchor = Refuse ->
  reads s (good (fun ds => exists content, sole_file s anchor relative max_bytes ds.1 content))
    (open_readable anchor relative max_bytes).
Proof.
  intros Ha. unfold open_readable. assert (follows anchor = false) as Hfol by (unfold follows; by rewrite Ha).
  eapply (reads_try s (fun pn => entry_components relative = Ok pn)); [apply reads_value; by destruct (entry_components relative)|].
  intros [parents n] He. destruct (entry_components_ok _ _ _ He) as [Hp Hn].
  eapply reads_try; [by apply open_directory_chain_reads|]. intros d Hd.
  eapply (reads_try s any); [unfold require_contained; rewrite Ha; by apply reads_done|]. intros _ _. rewrite Hfol.
  eapply (reads_try s any); [eapply reads_weaken; [|apply stat_entry_reads; done]; by intros []|]. intros o _.
  eapply (reads_try s any); [apply reads_value; by destruct o|]. intros st _.
  eapply (reads_try s any); [apply reads_value; by destruct (vet_readable _ _ _)|]. intros _ _.
  eapply (reads_try s (fun i => entries_of s d !! n = Some i)).
  { apply reads_call; [intros; apply open_read_read|]. intros e i. unfold open_read. destruct (entry s d n) as [j|] eqn:Ee; [|done].
    apply entry_dir in Ee; [|done]. destruct (node_kind s j) as [[]|]; by intros [= <-]. }
  intros i Hi. eapply reads_try; [apply fstat_entry_reads|]. intros info (m & nd & Hnd & ->).
  apply (reads_try s (fun _ => exists content, nd = NFile content /\ Z.of_nat (length content) <= max_bytes /\ nlink s i <= 1)).
  - apply reads_value. unfold vet_readable, vet_regular_file. rewrite Hfol. destruct nd as [content| | |]; simpl; try done.
    destruct (1 <? nlink s i) eqn:El; simpl; [done|]. destruct (max_bytes <? _) eqn:Em; [done|]. exists content. split_and!; [done|lia|lia].
  - intros _ (content & -> & Hc & Hl). apply reads_done. exists content, parents, n, d. cbn [fst]. unfold node_of. rewrite Hnd. auto 10.
Qed.

(** An undisturbed read is exact. When a walk that refuses links returns a
    file's content, the path led through real directories to a regular file whose
    whole content, within the limit, is what is returned, and that entry is the
    only one in the whole file system that names the file: it is no hard link to
    anything elsewhere. *)
Theorem undisturbed_read_exact anchor relative max_bytes s :
  a_links anchor = Refuse -> 0 <= max_bytes < 2 ^ 64 - 1 ->
  safe (fun _ => True) eq eq
    (fun r s' => s' = s /\ match r with
     | Ok content =>
         exists parents n d i, entry_components relative = Ok (parents, n)
         /\ walk_dirs s (a_directory anchor) parents = Some d
         /\ entries_of s d !! n = Some i /\ node_of s i = Some (NFile content)
         /\ Z.of_nat (length content) <= max_bytes
         /\ forall d' n', entries_of s d' !! n' = Some i -> (d', n') = (d, n)
     | Err _ => True
     end)
    (read_file anchor relative max_bytes) s.
Proof.
  intros Ha Hm. pose (Q := fun content => exists parents n d i, entry_components relative = Ok (parents, n)
         /\ walk_dirs s (a_directory anchor) parents = Some d
         /\ entries_of s d !! n = Some i /\ node_of s i = Some (NFile content)
         /\ Z.of_nat (length content) <= max_bytes
         /\ forall d' n', entries_of s d' !! n' = Some i -> (d', n') = (d, n)).
  change (reads s (good Q) (read_file anchor relative max_bytes)). unfold read_file, read_file_with_info.
  apply (reads_try s (fun ci => Q ci.1)); [|intros [c ?] HQ; by apply reads_done].
  eapply reads_try; [by apply open_readable_reads|].
  intros [i info] (content & parents & n & d & He & Hd & Hi & Hf & Hc & Hl). cbn [fst] in *.
  eapply reads_try; [apply (read_loop_reads s i content); [done|lia|lia|done|lia]|]. intros r ->.
  apply reads_value. destruct (max_bytes <? _); [done|]. exists parents, n, d, i. split_and!; try done.
  intros d' n' H'. by eapply nlink_one.
Qed.

(** ** Atomic replacement *)

(** The bytes a name shows. *)
Definition content_at (s : Fs) (d : inode) (n : name) : option (list Z) :=
  match entries_of s d !! n ≫= node_of s with Some (NFile content) => Some content | _ => None end.

Record allocated (s : Fs) : Prop := {
  al_fresh : forall i, fs_next s <= i -> fs_nodes s !! i = None;
  al_entries : forall d n i, entries_of s d !! n = Some i -> is_Some (fs_nodes s !! i);
}.

Lemma with_entry_dir f d s en pa re :
  node_of s d = Some (NDir en pa re) ->
  node_of (with_entry f d s) d = Some (NDir (f en) pa re)
  /\ (forall i, i <> d -> fs_nodes (with_entry f d s) !! i = fs_nodes s !! i).
Proof.
  intros Hd. unfold with_entry. rewrite Hd. split.
  - rewrite node_of_set, bool_decide_true by done. unfold node_of in Hd. by destruct (fs_nodes s !! d).
  - intros i Hi. by apply set_node_lookup.
Qed.

(** A directory [d] in which a temporary name leads to a new file. *)
Record midway (s0 : Fs) (d : inode) (temp : name) (j : inode) (data : list Z) (s : Fs) : Prop := {
  mw_dir : exists pa, node_of s d = Some (NDir (<[temp := j]> (entries_of s0 d)) pa false);
  mw_free : entries_of s0 d !! temp = None;
  mw_file : node_of s j = Some (NFile data);
  mw_new : fs_nodes s0 !! j = None /\ j <> d;
  mw_rest : forall i, i <> d -> i <> j -> fs_nodes s !! i = fs_nodes s0 !! i;
}.

Lemma midway_frame s0 d temp j data s i :
  midway s0 d temp j data s -> i <> d -> is_Some (fs_nodes s0 !! i) -> fs_nodes s !! i = fs_nodes s0 !! i.
Proof. intros Hm Hi [x Hx]. apply (mw_rest _ _ _ _ _ _ Hm); [done|]. intros ->. by rewrite (proj1 (mw_new _ _ _ _ _ _ Hm)) in Hx. Qed.

Lemma content_at_dir s d n en pa re : node_of s d = Some (NDir en pa re) -> content_at s d n
  = match en !! n ≫= node_of s with Some (NFile content) => Some content | _ => None end.
Proof. unfold content_at. by intros ->%entries_of_dir. Qed.

Lemma midway_content s0 d temp j data s n :
  allocated s0 -> midway s0 d temp j data s -> n <> temp -> content_at s d n = content_at s0 d n.
Proof.
  intros [_ Hal] [[pa Hd] Hf Hj [Hnew Hjd] Hr] Hn. rewrite (content_at_dir s d n _ _ _ Hd), lookup_insert_ne by done.
  unfold content_at. destruct (entries_of s0 d !! n) as [i|] eqn:Ei; [|done]. simpl.
  destruct (Hal _ _ _ Ei) as [x Hx]. assert (i <> j) by (intros ->; congruence).
  destruct (decide (i = d)) as [->|Hid].
  - rewrite Hd. unfold entries_of in Ei. destruct (node_of s0 d) as [[]|]; try done.
  - unfold node_of. by rewrite Hr.
Qed.

Lemma create_file_midway mode d temp e s :
  allocated s ->
  let (r, s') := create_file mode d temp e s in
  match r with Ok j => midway s d temp j [] s' | Err _ => s' = s end.
Proof.
  intros [Hfresh Hal]. unfold create_file, create_entry. destruct (node_of s d) as [[|en pa re| |]|] eqn:Ed; try done.
  destruct (en !! temp) eqn:Et; [done|]. destruct re; [done|]. set (j := fs_next s).
  assert (fs_nodes s !! j = None) as Hj by (apply Hfresh; unfold j; lia).
  assert (j <> d) as Hjd. { intros ->. unfold node_of in Ed. by rewrite Hj in Ed. }
  set (s1 := mkFs _ _). assert (node_of s1 d = Some (NDir en pa false)) as Hd1.
  { unfold node_of, s1. simpl. by rewrite lookup_insert_ne. }
  destruct (with_entry_dir (fun entries => <[temp := j]> entries) d s1 en pa false Hd1) as [H1 H2].
  split; [|by rewrite (entries_of_dir s d en pa false Ed)| |done|].
  - exists pa. rewrite H1. by rewrite (entries_of_dir s d en pa false Ed).
  - unfold node_of. rewrite H2 by done. unfold s1. simpl. by rewrite lookup_insert_eq.
  - intros i Hid Hij. rewrite H2 by done. unfold s1. simpl. by rewrite lookup_insert_ne.
Qed.

Lemma append_midway s0 d temp j data s bytes e :
  midway s0 d temp j data s ->
  let (r, s') := append j bytes e s in
  match r with
  | Ok w => (0 < length bytes -> 0 < w)%nat /\ (w <= length bytes)%nat /\ midway s0 d temp j (data ++ take w bytes) s'
  | Err _ => s' = s
  end.
Proof.
  intros [[pa Hd] Hf Hj Hnew Hr]. unfold append. rewrite Hj. set (w := length (take (S (y_chunk e)) bytes)).
  assert (w = Nat.min (S (y_chunk e)) (length bytes)) as Hw by apply length_take.
  split; [lia|]. split; [lia|].
  assert (take w bytes = take (S (y_chunk e)) bytes) as Ew.
  { rewrite Hw. destruct (decide (S (y_chunk e) <= length bytes)%nat); [by rewrite Nat.min_l|].
    rewrite Nat.min_r by lia. rewrite !take_ge by lia. done. }
  rewrite Ew. split; [|done| |done|].
  - exists pa. rewrite node_of_set, bool_decide_false; [done|]. intros ->. by destruct Hnew.
  - rewrite node_of_set, bool_decide_true by done. unfold node_of in Hj. by destruct (fs_nodes s !! j).
  - intros i Hid Hij. rewrite set_node_lookup by done. by apply Hr.
Qed.

(** After the rename the name shows the new file, and the temporary is gone. *)
Lemma rename_midway s0 d temp j data s n e :
  allocated s0 -> midway s0 d temp j data s -> n <> temp ->
  let (r, s') := renameat d temp d n e s in
  match r with
  | Ok _ => content_at s' d n = Some data /\ entries_of s' d = <[n := j]> (entries_of s0 d)
            /\ forall i, i <> d -> i <> j -> fs_nodes s' !! i = fs_nodes s0 !! i
  | Err _ => s' = s
  end.
Proof.
  intros [_ Hal] [[pa Hd] Hf Hj [Hnew Hjd] Hr] Hn. unfold renameat.
  rewrite (entries_of_dir s d _ _ _ Hd), lookup_insert_eq, Hd, Hj. cbn [andb].
  assert (let s' := move_entry j d temp d n s in content_at s' d n = Some data /\ entries_of s' d = <[n := j]> (entries_of s0 d)
            /\ forall i, i <> d -> i <> j -> fs_nodes s' !! i = fs_nodes s0 !! i) as Hmove.
  { cbv zeta. unfold move_entry.
    destruct (with_entry_dir (base.delete temp) d s _ _ _ Hd) as [H1 H2].
    destruct (with_entry_dir (fun entries => <[n := j]> entries) d _ _ _ _ H1) as [H3 H4].
    set (s2 := with_entry (fun entries => <[n := j]> entries) d (with_entry (base.delete temp) d s)) in *.
    assert (node_of s2 j = Some (NFile data)) as Hj2. { unfold node_of. rewrite H4, H2 by done. exact Hj. }
    unfold reparent. rewrite Hj2. rewrite delete_insert_id in H3 by done. split; [|split].
    - by rewrite (content_at_dir s2 d n _ _ _ H3), lookup_insert_eq; simpl; rewrite Hj2.
    - by rewrite (entries_of_dir s2 d _ _ _ H3).
    - intros i Hid Hij. rewrite H4, H2 by done. by apply Hr. }
  rewrite lookup_insert_ne by done. destruct (entries_of s0 d !! n) as [i|] eqn:Ei; [|done].
  destruct (Hal _ _ _ Ei) as [x Hx]. rewrite (proj2 (Z.eqb_neq j i)) by congruence.
  by destruct (node_of s i) as [[]|].
Qed.

Lemma unlink_midway s0 d temp j data s n e :
  allocated s0 -> midway s0 d temp j data s -> n <> temp ->
  let s' := (unlinkat d temp e s).2 in
  content_at s' d n = content_at s0 d n /\ entries_of s' d = entries_of s0 d
  /\ forall i, i <> d -> i <> j -> fs_nodes s' !! i = fs_nodes s0 !! i.
Proof.
  intros Hal0 Hm Hn. pose proof (midway_content _ _ _ _ _ _ n Hal0 Hm Hn) as Hc.
  destruct Hal0 as [_ Hal], Hm as [[pa Hd] Hf Hj [Hnew Hjd] Hr]. cbv zeta. unfold unlinkat.
  rewrite (entries_of_dir s d _ _ _ Hd), lookup_insert_eq, Hj. cbn [snd].
  destruct (with_entry_dir (base.delete temp) d s _ _ _ Hd) as [H1 H2]. rewrite delete_insert_id in H1 by done.
  split_and!; [|by rewrite (entries_of_dir _ d _ _ _ H1)|by intros; rewrite H2; auto].
  rewrite <- Hc, (content_at_dir _ d n _ _ _ H1), (content_at_dir s d n _ _ _ Hd), lookup_insert_ne by done.
  destruct (entries_of s0 d !! n) as [i|] eqn:Ei; [|done]. simpl.
  destruct (decide (i = d)) as [->|]; [by rewrite H1, Hd|]. unfold node_of. by rewrite H2.
Qed.

Section replace.
Context (s0 : Fs) (d : inode) (n : name) (content : list Z).
Hypothesis Hal : allocated s0.

(** Random names never hit the target's own. *)
Definition distinct_temp (e : Sys) : Prop := n <> temp_name (y_random e).

(** One step, as another process sees the name. *)
Definition old_or_new (s s' : Fs) : Prop := content_at s' d n = content_at s d n \/ content_at s' d n = Some content.

(** How the call may leave the directory and the rest of the tree: every file and
    directory that was there, the target's directory apart, is as it was, and so is
    every entry of that directory but the target and names of temporary files; after
    a success the target's entry, now a new file, is the only change. *)
Definition replaced (r : result FsError unit) (s : Fs) : Prop :=
  (forall i, i <> d -> is_Some (fs_nodes s0 !! i) -> fs_nodes s !! i = fs_nodes s0 !! i)
  /\ (forall m, m <> n -> (forall random, m <> temp_name random) -> entries_of s d !! m = entries_of s0 d !! m)
  /\ match r with
     | Ok _ => content_at s d n = Some content
         /\ exists j, fs_nodes s0 !! j = None /\ entries_of s d = <[n := j]> (entries_of s0 d)
     | Err _ => content_at s d n = content_at s0 d n \/ content_at s d n = Some content
     end.

Lemma old_or_new_refl s : old_or_new s s.
Proof. by left. Qed.

Lemma midway_step temp j data data' s s' :
  n <> temp -> midway s0 d temp j data s -> midway s0 d temp j data' s' -> old_or_new s s'.
Proof. intros Hn H H'. left. by rewrite (midway_content s0 d temp j data' s'), (midway_content s0 d temp j data s). Qed.

Lemma write_all_alone temp j fuel bytes data s :
  n <> temp -> (length bytes <= fuel)%nat -> midway s0 d temp j data s ->
  alone distinct_temp old_or_new (fun r s' => match r with Ok _ => midway s0 d temp j (data ++ bytes) s' | Err _ => exists data', midway s0 d temp j data' s' end)
    (write_all fuel j bytes) s.
Proof.
  intros Hn. revert bytes data s. induction fuel as [|fuel IH]; intros [|b bytes] data s Hl Hm; cbn [write_all];
    try (simpl in Hl; lia); try (by rewrite app_nil_r).
  apply safe_bind, safe_bind, safe_atomic. intros e s1 _ <-. destruct (y_fault e); [split; [apply old_or_new_refl|]; by exists data|].
  pose proof (append_midway s0 d temp j data s (b :: bytes) e Hm) as Ha.
  destruct (append j (b :: bytes) e s) as [[w|x] s2]; [|subst; split; [apply old_or_new_refl|]; by exists data].
  destruct Ha as (Hpos & Hw & Hm2). split; [by eapply midway_step|]. simpl.
  assert (0 < w)%nat by (apply Hpos; simpl; lia).
  assert (data ++ b :: bytes = (data ++ take w (b :: bytes)) ++ drop w (b :: bytes)) as -> by by rewrite <- app_assoc, take_drop.
  apply IH; [|done]. rewrite length_drop. simpl in *. lia.
Qed.

(** After filling and renaming: published, or still midway. *)
Definition published (temp : name) (j : inode) (r : result FsError unit) (s : Fs) : Prop :=
  match r with
  | Err _ => exists data, midway s0 d temp j data s
  | Ok _ => content_at s d n = Some content /\ entries_of s d = <[n := j]> (entries_of s0 d)
            /\ fs_nodes s0 !! j = None /\ forall i, i <> d -> i <> j -> fs_nodes s !! i = fs_nodes s0 !! i
  end.

Lemma publish_alone temp j s :
  n <> temp -> midway s0 d temp j [] s ->
  alone distinct_temp old_or_new (published temp j)
    (try_bind (fill_file j content) (fun _ => call (failure "renameat") (renameat d temp d n))) s.
Proof.
  intros Hn Hm0. apply safe_bind. unfold fill_file. apply safe_bind.
  eapply safe_mono; [|apply (write_all_alone temp j (length content) content [] s); done]. clear s Hm0.
  intros [u|x] s; [|intros [data Hm]; by exists data].
  simpl. intros Hm e s2 _ <-. destruct (y_fault e); [split; [apply old_or_new_refl|]; by exists content|].
  split; [apply old_or_new_refl|]. simpl. intros e2 s2 _ <-. destruct (y_fault e2); [split; [apply old_or_new_refl|]; by exists content|].
  pose proof (rename_midway s0 d temp j content s n e2 Hal Hm Hn) as Hrn.
  destruct (renameat d temp d n e2 s) as [[u2|x2] s2]; [|subst; split; [apply old_or_new_refl|]; by exists content].
  destruct Hrn as (Hc & He & Hr). split; [by right|]. split_and!; try done. by apply (mw_new _ _ _ _ _ _ Hm).
Qed.

Lemma midway_replaced random j data s x :
  n <> temp_name random -> midway s0 d (temp_name random) j data s -> replaced (Err x) s.
Proof.
  set (temp := temp_name random). intros Hn Hm. split_and!.
  - intros i Hi Hj. by apply (midway_frame s0 d temp j data).
  - intros m _ Hmt. specialize (Hmt random). fold temp in Hmt. destruct (mw_dir _ _ _ _ _ _ Hm) as [pa Hd]. rewrite (entries_of_dir s d _ _ _ Hd). by rewrite lookup_insert_ne.
  - left. by apply (midway_content s0 d temp j data s).
Qed.

Lemma discard_alone random j data s x :
  n <> temp_name random -> midway s0 d (temp_name random) j data s ->
  alone distinct_temp old_or_new replaced (pbind (discard_entry d (temp_name random)) (fun _ => Done (Err x))) s.
Proof.
  set (temp := temp_name random). intros Hn Hm e s2 _ <-. destruct (y_fault e); [split; [apply old_or_new_refl|]; by eapply midway_replaced|].
  pose proof (unlink_midway s0 d temp j data s n e Hal Hm Hn) as (Hc & He & Hr).
  destruct (unlinkat d temp e s) as [r2 s2]. cbn [snd] in Hc, He, Hr. split.
  - left. by rewrite Hc, (midway_content s0 d temp j data s).
  - split_and!; [|intros; by rewrite He|by left]. intros i Hi [x' Hx]. apply Hr; [done|]. intros ->.
    rewrite (proj1 (mw_new _ _ _ _ _ _ Hm)) in Hx. done.
Qed.

Lemma replace_file_alone existing mode :
  alone distinct_temp old_or_new replaced (replace_file (mkTarget d n existing) content mode) s0.
Proof.
  unfold replace_file. apply safe_bind, safe_atomic. intros e0 s1 Hn <-. split; [apply old_or_new_refl|].
  set (temp := temp_name (y_random e0)). unfold distinct_temp in Hn. fold temp in Hn. cbn [wt_directory wt_name].
  assert (forall x, replaced (Err x) s0) as Hsame by (intros x; split_and!; auto).
  apply safe_bind, safe_bind, safe_atomic. intros e1 s1 _ <-.
  destruct (y_fault e1); [split; [apply old_or_new_refl|apply Hsame]|].
  pose proof (create_file_midway (mode_of mode) d temp e1 s0 Hal) as Hcr.
  destruct (create_file (mode_of mode) d temp e1 s0) as [[j|x] s1]; [|subst; split; [apply old_or_new_refl|apply Hsame]].
  split; [left; by rewrite (midway_content s0 d temp j [] s1)|]. apply safe_bind.
  eapply safe_mono; [|by apply publish_alone]. intros [u|x] s.
  - intros (Hc & He & Hnew & Hr). apply safe_bind, safe_atomic. intros e s2 _ <-.
    assert (forall r, replaced r s) as Hdone.
    { intros r. split_and!; [|intros m Hm _; by rewrite He, lookup_insert_ne|destruct r; eauto].
      intros i Hi [x Hx]. apply Hr; [done|]. congruence. }
    destruct (y_fault e); (split; [apply old_or_new_refl|apply Hdone]).
  - intros [data Hm]. by apply (discard_alone (y_random e0) j data s x).
Qed.
End replace.

(** C20. Replacing a file is all or nothing. For a write that refuses links, creates
    no missing directories and whose random temporary names are never the target's
    own: while nothing else changes the tree, and for any pattern of failing calls
    (disk full in the middle of the content, a refused rename, a failing fsync), after
    every system call the target name shows either exactly what it showed before or
    the complete new content, never a part; a success leaves the new content in a new
    file whose entry is the only change to the tree, an error the old content unless
    the rename had already happened; every file and directory that was there, the
    target's directory apart, is as it was, and so is every entry of that directory
    other than the target and temporary names. *)
Theorem atomic_write_all_or_nothing anchor relative content options s parents n d :
  a_links anchor = Refuse -> create_parents options = false -> allocated s ->
  entry_components relative = Ok (parents, n) -> walk_dirs s (a_directory anchor) parents = Some d ->
  safe (distinct_temp n) eq (old_or_new d n content) (replaced s d n content)
    (write_file_atomic anchor relative content options) s.
Proof.
  intros Ha Hc Hal He Hd. destruct (entry_components_ok _ _ _ He) as [Hp Hn].
  assert (follows anchor = false) as Hfol by (unfold follows; by rewrite Ha).
  assert (forall s', old_or_new d n content s' s') as Hrefl by (intros s'; apply old_or_new_refl).
  assert (forall x, replaced s d n content (Err x) s) as Hsame by (intros x; split_and!; auto).
  unfold write_file_atomic, create_mode, try_bind. rewrite He, Hc, Hfol. cbn [pbind].
  eapply alone_reads; [done|by apply open_directory_chain_reads|]. intros [d'|x] Hd'; [|apply Hsame]. cbn [good] in Hd'.
  assert (d' = d) as -> by congruence.
  eapply alone_reads; [done|by apply stat_entry_reads|]. intros [existing|x] _; [|apply Hsame].
  rewrite andb_false_r. cbn [pbind wt_existing]. destruct (vet_replaced _ _ _); [|apply Hsame].
  by apply replace_file_alone.
Qed.

End exact.

(** ** Witnesses *)

Definition quiet_sys : Sys := mkSys None 0 0 0 0 100 [].

Definition reader : Prog (result FsError (list Z)) := read_file race_anchor (bytes_of "x") 100.

(** The workload links the key into its own directory, moves the link over [x],
    and removes it again. *)
Definition swapper : Prog (result FsError (list Z)) :=
  pbind (sys (linkat 2 (bytes_of "key") 3 (bytes_of "y"))) (fun _ =>
  pbind (sys (renameat 3 (bytes_of "y") 3 (bytes_of "x"))) (fun _ =>
  pbind (sys (unlinkat 3 (bytes_of "x"))) (fun _ => Done (Ok [])))).

Definition race_order : list (nat * Sys) :=
  [(0%nat, quiet_sys); (0%nat, quiet_sys); (1%nat, quiet_sys); (1%nat, quiet_sys); (0%nat, quiet_sys);
   (1%nat, quiet_sys); (0%nat, quiet_sys); (0%nat, quiet_sys); (0%nat, quiet_sys)].

(** The hard-link check can be raced. The check before the open and the one
    on the descriptor both pass when the workload swaps a hard link in after the
    first and removes it before the second: a read that refuses links, of a path
    in the workload's own directory, returns the content of a file whose only
    other name is outside it. Undisturbed, the same file under the same name is
    refused. *)
Theorem hard_link_race :
  refusing {[3]} 20 race_anchor
  /\ entries_of race_fs 2 !! bytes_of "key" = Some 10 /\ ~ inside {[3]} 20 2
  /\ node_of race_fs 10 = Some (NFile (bytes_of "secret"))
  /\ schedule_answer race_order (race_fs, [(tt, race_fs, reader); (tt, race_fs, swapper)]) 0 = Some (Ok (bytes_of "secret"))
  /\ schedule_answer [(0%nat, quiet_sys); (0%nat, quiet_sys)]
       ((linkat 2 (bytes_of "key") 3 (bytes_of "y") quiet_sys race_fs).2,
        [(tt, race_fs, read_file race_anchor (bytes_of "y") 100)]) 0 = Some (Err FHardLinkRefused).
Proof.
  split; [split; [done|by left]|]. split; [by vm_compute|]. split; [|split; [by vm_compute|split; by vm_compute]].
  intros [H|H]; [by apply elem_of_singleton in H|lia].
Qed.

Definition demo_options : WriteOptions := mkWriteOptions false 384 448 None.

Lemma race_allocated : allocated race_fs.
Proof.
  split; [apply race_closed|]. intros d n i H. apply all_entries_elem in H.
  assert (Forall (fun e : inode * name * inode => is_Some (fs_nodes race_fs !! e.2)) (all_entries race_fs)) as Hall
    by (vm_compute; repeat constructor; eexists; reflexivity).
  rewrite Forall_forall in Hall. exact (Hall _ H).
Qed.

Lemma undisturbed_read_exact_witness :
  safe (fun _ => True) eq eq
    (fun r s' => s' = race_fs /\ match r with
     | Ok content => exists i, entries_of race_fs 3 !! bytes_of "x" = Some i /\ node_of race_fs i = Some (NFile content)
     | Err _ => True
     end) (read_file race_anchor (bytes_of "x") 100) race_fs.
Proof.
  assert (a_links race_anchor = Refuse) as Ha by reflexivity.
  assert (0 <= 100 < 2 ^ 64 - 1) as Hb by lia.
  eapply safe_mono; [|exact (undisturbed_read_exact race_anchor (bytes_of "x") 100 race_fs Ha Hb)].
  intros [content|e] s' [Hs H]; (split; [exact Hs|]); [|done].
  destruct H as (ps & n & d & i & He & Hw & Hi & Hf & _). vm_compute in He. injection He as <- <-. injection Hw as <-.
  exists i. split; [exact Hi|exact Hf].
Defined.

Lemma atomic_write_all_or_nothing_witness :
  safe (distinct_temp (bytes_of "x")) eq (old_or_new 3 (bytes_of "x") (bytes_of "new"))
    (replaced race_fs 3 (bytes_of "x") (bytes_of "new"))
    (write_file_atomic race_anchor (bytes_of "x") (bytes_of "new") demo_options) race_fs.
Proof.
  assert (entry_components (bytes_of "x") = Ok ([], bytes_of "x")) as He by (vm_compute; reflexivity).
  apply (atomic_write_all_or_nothing race_anchor (bytes_of "x") (bytes_of "new") demo_options race_fs [] (bytes_of "x") 3);
    [reflexivity|reflexivity|exact race_allocated|exact He|reflexivity].
Defined.
