(* ===== verification/SafeExtract.v ===== *)
(** Extraction of untrusted archives (src/src/runtime/workspace_sources/safe_extract.rs).

    The archive formats are other crates': an archive is the list of entries the
    reader yields, each with the results of its reads. The destination starts
    empty and only this code writes in it; a path is its list of names below it. *)

From S2P Require Import Prelude Text Posix Walk.
Open Scope Z_scope.
Open Scope result_scope.

(** ** [Path::components] *)

Inductive Component := RootDir | CurDir | ParentDir | Normal (part : name).

Definition segment_component (segment : list Z) : option Component :=
  if bool_decide (segment = []) || bool_decide (segment = [DOT]) then None
  else if bool_decide (segment = dotdot) then Some ParentDir
  else Some (Normal segment).

(** A leading [/] is the root; a [.] only counts in front of a relative path. *)
Definition components (raw : list Z) : list Component :=
  let segments := split_slash raw in
  match head raw, segments with
  | Some c, first :: _ =>
      if c =? SLASH then RootDir :: omap segment_component segments
      else if bool_decide (first = [DOT]) then CurDir :: omap segment_component segments
      else omap segment_component segments
  | _, _ => omap segment_component segments
  end.

(** ** Data *)

Inductive ArchiveError :=
| ArchiveReadFailed (what : string)
| ArchiveUnsafeEntry (kind : string)
| ArchiveTooLarge (limit : Z)
| ArchiveUnsupportedFormat.

Record ExtractOpts := mkExtractOpts { max_total_bytes : Z; max_entry_bytes : Z }.
Definition DEFAULT_MAX_TOTAL_BYTES : Z := 1024 * 1024 * 1024.
Definition DEFAULT_MAX_ENTRY_BYTES : Z := 512 * 1024 * 1024.
Definition default_opts : ExtractOpts := mkExtractOpts DEFAULT_MAX_TOTAL_BYTES DEFAULT_MAX_ENTRY_BYTES.

Record ExtractReport := mkReport {
  entries_written : Z;
  bytes_written : Z;
  top_level_dir : option name;
}.

Inductive DetectedFormat := FormatTarGz | FormatTar | FormatZip.

Inductive EntryType :=
| TRegular | TLink | TSymlink | TChar | TBlock | TDirectory | TFifo | TContinuous | TGNULongName | TGNULongLink
| TGNUSparse | TXGlobalHeader | TXHeader | TOther (byte : Z).

(** What reading an entry yields: chunks, up to the end or an error. *)
Notation reads_of := (list (option (list Z))) (only parsing).

Record TarEntry := mkTarEntry { te_path : list Z; te_type : EntryType; te_reads : reads_of }.
Record ZipEntry := mkZipEntry { ze_name : list Z; ze_is_symlink : bool; ze_is_dir : bool; ze_reads : reads_of }.

(** ** The destination *)

Inductive DestNode := DestDir | DestFile (content : list Z).

Notation Tree := (gmap (list name) DestNode) (only parsing).

(** The nodes below the destination, and which of the next calls fail: [Some k]
    after it did the first [k] of what it has to do one by one. *)
Record Dest := mkDest { nodes : Tree; faults : list (option nat) }.

Definition DestM A : Type := Dest -> result ArchiveError A * Dest.
Definition mret {A} (a : A) : DestM A := fun s => (Ok a, s).
Definition mthrow {A} (e : ArchiveError) : DestM A := fun s => (Err e, s).
Definition mbind {A B} (m : DestM A) (f : A -> DestM B) : DestM B := fun s =>
  match m s with (Ok a, s') => f a s' | (Err e, s') => (Err e, s') end.
Definition mlift {A} (r : result ArchiveError A) : DestM A := fun s => (r, s).
Notation "'let!' x ':=' m 'in' k" := (mbind m (fun x => k))
  (at level 10, x pattern, m at level 100, k at level 200).

(** One file-system call; [partial k] is the tree a failing call leaves. *)
Definition io_part {A : Type} (what : string) (partial : nat -> Tree -> Tree) (f : Tree -> option (A * Tree)) : DestM A := fun s =>
  match faults s with
  | Some k :: rest => (Err (ArchiveReadFailed what), mkDest (partial k (nodes s)) rest)
  | _ =>
      match f (nodes s) with
      | Some (a, m) => (Ok a, mkDest m (tail (faults s)))
      | None => (Err (ArchiveReadFailed what), mkDest (nodes s) (tail (faults s)))
      end
  end.
Definition io {A : Type} (what : string) (f : Tree -> option (A * Tree)) : DestM A := io_part what (fun _ m => m) f.

(** [create_dir_all]: the missing prefixes become directories, outermost first; a
    file on the way is an error. *)
Fixpoint make_dirs (prefix rest : list name) (m : Tree) : option (Tree) :=
  match m !! prefix with
  | Some (DestFile _) => None
  | _ =>
      let m := match m !! prefix with Some _ => m | None => <[prefix := DestDir]> m end in
      match rest with
      | [] => Some m
      | n :: rest => make_dirs (prefix ++ [n]) rest m
      end
  end.
Definition create_dir_all (path : list name) : DestM unit :=
  io_part "create dir" (fun k m => default m (make_dirs [] (take k path) m)) (fun m => (fun m' => (tt, m')) <$> make_dirs [] path m).

(** [File::create] truncates a file and refuses a directory or a missing parent. *)
Definition file_create (path : list name) : DestM unit :=
  io "create" (fun m =>
    match m !! removelast path, m !! path with
    | Some DestDir, Some DestDir => None
    | Some DestDir, _ => Some (tt, <[path := DestFile []]> m)
    | _, _ => None
    end).

(** [write_all]; a write that fails may have written the front of the chunk. *)
Definition append_file (path : list name) (bytes : list Z) (m : Tree) : option Tree :=
  match m !! path with
  | Some (DestFile content) => Some (<[path := DestFile (content ++ bytes)]> m)
  | _ => None
  end.
Definition file_write (path : list name) (bytes : list Z) : DestM unit :=
  io_part "write entry" (fun k m => default m (append_file path (take k bytes) m))
    (fun m => (fun m' => (tt, m')) <$> append_file path bytes m).

(** ** Checks *)

Definition is_prefix (prefix l : list Z) : bool := starts_with prefix l.

Definition detect_format (head : list Z) : result ArchiveError DetectedFormat :=
  if is_prefix [31; 139] head then Ok FormatTarGz
  else if is_prefix [80; 75; 3; 4] head || is_prefix [80; 75; 5; 6] head then Ok FormatZip
  else if (263 <=? length head)%nat && bool_decide (take 5 (drop 257 head) = [117; 115; 116; 97; 114]) then Ok FormatTar
  else Err ArchiveUnsupportedFormat.

Definition entry_kind_label (t : EntryType) : string :=
  match t with
  | TRegular => "regular" | TLink => "hardlink" | TSymlink => "symlink" | TChar => "char-device" | TBlock => "block-device"
  | TDirectory => "directory" | TFifo => "fifo" | TContinuous => "continuous" | TGNUSparse => "gnu-sparse"
  | TXHeader => "pax-local-header" | TXGlobalHeader => "pax-global-header"
  | TGNULongName => "gnu-long-name" | TGNULongLink => "gnu-long-link" | TOther _ => "unknown"
  end.

Definition reject_unsafe_entry (t : EntryType) : result ArchiveError unit :=
  match t with
  | TSymlink => Err (ArchiveUnsafeEntry "symlink")
  | TLink => Err (ArchiveUnsafeEntry "hardlink")
  | TChar | TBlock | TFifo => Err (ArchiveUnsafeEntry (entry_kind_label t))
  | TRegular | TDirectory | TContinuous | TGNUSparse | TXHeader | TXGlobalHeader | TGNULongName | TGNULongLink => Ok tt
  | TOther _ => Err (ArchiveUnsafeEntry (entry_kind_label t))
  end.

Definition is_tar_metadata_entry (t : EntryType) : bool :=
  match t with TXHeader | TXGlobalHeader | TGNULongName | TGNULongLink => true | _ => false end.

Fixpoint sanitize_components (cs : list Component) : result ArchiveError (list name) :=
  match cs with
  | [] => Ok []
  | Normal part :: rest => let? names := sanitize_components rest in Ok (part :: names)
  | CurDir :: rest => sanitize_components rest
  | ParentDir :: _ => Err (ArchiveUnsafeEntry "parent-traversal")
  | RootDir :: _ => Err (ArchiveUnsafeEntry "absolute-path")
  end.

Definition sanitize_relative_path (raw : list Z) : result ArchiveError (list name) :=
  let? names := sanitize_components (components raw) in
  match names with [] => Err (ArchiveUnsafeEntry "empty-path") | _ => Ok names end.

(** ** Copying *)

(** [written] so far; the caps are checked before the bytes are written. *)
Fixpoint copy_loop (rs : reads_of) (path : list name) (max_entry remaining_total written : Z) : DestM Z :=
  match rs with
  | [] => mret written
  | None :: _ => mthrow (ArchiveReadFailed "read entry")
  | Some [] :: _ => mret written
  | Some bytes :: rest =>
      let written' := written + Z.of_nat (length bytes) in
      if 2 ^ 64 <=? written' then mthrow (ArchiveTooLarge max_entry)
      else if max_entry <? written' then mthrow (ArchiveTooLarge max_entry)
      else if remaining_total <? written' then mthrow (ArchiveTooLarge remaining_total)
      else
        let! _ := file_write path bytes in
        copy_loop rest path max_entry remaining_total written'
  end.

Definition copy_capped (rs : reads_of) (path : list name) (max_entry remaining_total : Z) : DestM Z :=
  let! _ := file_create path in
  let! written := copy_loop rs path max_entry remaining_total 0 in
  let! _ := io "flush" (fun m => Some (tt, m)) in
  mret written.

(** ** Entries *)

Section extract.
(** The canonical destination, and whether a name is text. *)
Context (dest : list name) (is_utf8 : name -> bool).

Definition ensure_inside (target : list name) : result ArchiveError unit :=
  if bool_decide (take (length dest) target = dest) then Ok tt else Err (ArchiveUnsafeEntry "escape").

Record Progress := mkProgress { total_bytes : Z; written_count : Z; top_levels : gset name }.

Definition add_top (path : list name) (p : Progress) : Progress :=
  match path with
  | top :: _ => if is_utf8 top then mkProgress (total_bytes p) (written_count p) ({[ top ]} ∪ top_levels p) else p
  | [] => p
  end.

(** Directory of the target, then the capped copy. The budget left is a [u64]
    subtraction. *)
Definition extract_file (opts : ExtractOpts) (rs : reads_of) (path : list name) (p : Progress) : DestM Progress :=
  let! _ := create_dir_all (removelast path) in
  let! written := copy_capped rs path (max_entry_bytes opts) (max_total_bytes opts - total_bytes p) in
  let total := Z.min (total_bytes p + written) (2 ^ 64 - 1) in
  if max_total_bytes opts <? total then mthrow (ArchiveTooLarge (max_total_bytes opts))
  else mret (mkProgress total (written_count p + 1) (top_levels p)).

Definition extract_tar_entry (opts : ExtractOpts) (e : TarEntry) (p : Progress) : DestM Progress :=
  let! _ := mlift (reject_unsafe_entry (te_type e)) in
  let! safe_path := mlift (sanitize_relative_path (te_path e)) in
  if is_tar_metadata_entry (te_type e) then mret p
  else
    let p := add_top safe_path p in
    let! _ := mlift (ensure_inside (dest ++ safe_path)) in
    match te_type e with
    | TDirectory => let! _ := create_dir_all safe_path in mret p
    | TRegular | TContinuous | TGNUSparse => extract_file opts (te_reads e) safe_path p
    | other => mthrow (ArchiveUnsafeEntry (entry_kind_label other))
    end.

Definition extract_zip_entry (opts : ExtractOpts) (e : ZipEntry) (p : Progress) : DestM Progress :=
  if ze_is_symlink e then mthrow (ArchiveUnsafeEntry "symlink")
  else
    let! safe_path := mlift (sanitize_relative_path (ze_name e)) in
    let p := add_top safe_path p in
    let! _ := mlift (ensure_inside (dest ++ safe_path)) in
    if ze_is_dir e then let! _ := create_dir_all safe_path in mret p
    else extract_file opts (ze_reads e) safe_path p.

(** An entry the reader could not produce, or whose path it could not decode, ends
    the extraction. *)
Fixpoint extract_entries {E} (step : E -> Progress -> DestM Progress) (entries : list (option E)) (p : Progress) : DestM Progress :=
  match entries with
  | [] => mret p
  | None :: _ => mthrow (ArchiveReadFailed "entry")
  | Some e :: rest => let! p := step e p in extract_entries step rest p
  end.

Definition report_of (p : Progress) : ExtractReport :=
  mkReport (written_count p) (total_bytes p)
    match elements (top_levels p) with [top] => Some top | _ => None end.

Definition start_progress : Progress := mkProgress 0 0 ∅.

Definition extract_tar (opts : ExtractOpts) (entries : list (option TarEntry)) : DestM ExtractReport :=
  let! p := extract_entries (extract_tar_entry opts) entries start_progress in mret (report_of p).
Definition extract_zip (opts : ExtractOpts) (entries : list (option ZipEntry)) : DestM ExtractReport :=
  let! p := extract_entries (extract_zip_entry opts) entries start_progress in mret (report_of p).

(** What stands at the destination before the call. *)
Inductive DestState := Missing | StatFailed | SymlinkThere | NotADirectory | Unlistable | Directory (names : list name).

Definition enforce_dest_invariants (d : DestState) : result ArchiveError unit :=
  match d with
  | Missing => Ok tt
  | StatFailed => Err (ArchiveReadFailed "stat dest")
  | SymlinkThere => Err (ArchiveUnsafeEntry "destination-symlink")
  | NotADirectory => Err (ArchiveReadFailed "destination is not a directory")
  | Unlistable => Err (ArchiveReadFailed "read_dir")
  | Directory [] => Ok tt
  | Directory _ => Err (ArchiveReadFailed "destination is not empty")
  end.

Inductive Archive := TarArchive (entries : list (option TarEntry)) | ZipArchive (entries : list (option ZipEntry)).

(** [head]: the first bytes of the file; [parse]: what the format's reader makes
    of the archive, if it opens. *)
Definition extract_archive (opts : ExtractOpts) (head : list Z) (d : DestState) (parse : DetectedFormat -> option Archive)
    (io_faults : list (option nat)) : result ArchiveError ExtractReport * Dest :=
  let start := mkDest ∅ io_faults in
  match (let? format := detect_format head in let? _ := enforce_dest_invariants d in Ok format) with
  | Err e => (Err e, start)
  | Ok format =>
      (let! _ := create_dir_all [] in
       let! _ := io "canonicalize" (fun m => Some (tt, m)) in
       match parse format with
       | None => mthrow (ArchiveReadFailed "open")
       | Some (TarArchive entries) => extract_tar opts entries
       | Some (ZipArchive entries) => extract_zip opts entries
       end) start
  end.

(** ** Bounds and confinement *)

Definition plain_name (n : name) : Prop := n <> [] /\ n <> [DOT] /\ n <> dotdot /\ SLASH ∉ n.

Definition node_size (n : DestNode) : Z := match n with DestDir => 0 | DestFile content => Z.of_nat (length content) end.
Definition disk_bytes (m : Tree) : Z := map_fold (fun _ n acc => node_size n + acc) 0 m.

Lemma disk_bytes_insert_new (m : Tree) p n : m !! p = None -> disk_bytes (<[p := n]> m) = node_size n + disk_bytes m.
Proof. intros H. unfold disk_bytes. by rewrite map_fold_insert_L; [|intros; lia|]. Qed.

Lemma disk_bytes_delete (m : Tree) p n : m !! p = Some n -> disk_bytes m = node_size n + disk_bytes (base.delete p m).
Proof. intros H. unfold disk_bytes. by rewrite (map_fold_delete_L _ _ p n m); [|intros; lia|]. Qed.

Lemma disk_bytes_insert (m : Tree) p n :
  disk_bytes (<[p := n]> m) = disk_bytes m + node_size n - match m !! p with Some old => node_size old | None => 0 end.
Proof.
  destruct (m !! p) as [old|] eqn:E.
  - rewrite (disk_bytes_delete (<[p := n]> m) p n) by apply lookup_insert_eq.
    rewrite delete_insert_eq. rewrite (disk_bytes_delete m p old E). lia.
  - rewrite disk_bytes_insert_new by done. lia.
Qed.

Context (opts : ExtractOpts).

(** What holds of the destination at every moment: names that stay below it,
    files within the entry cap, and at most [budget] bytes in all. *)
Record bounded (budget : Z) (m : Tree) : Prop := {
  bd_plain : forall p n, m !! p = Some n -> Forall plain_name p;
  bd_entry : forall p content, m !! p = Some (DestFile content) -> Z.of_nat (length content) <= max_entry_bytes opts;
  bd_total : disk_bytes m <= budget;
}.

(** [m] keeps the bound, whether it fails or not; [Q] of its results. *)
Definition keeps {A : Type} (P : Tree -> Prop) (m : DestM A) (Q : A -> Tree -> Prop) : Prop :=
  forall s, P (nodes s) -> let (r, s') := m s in
    match r with Ok a => Q a (nodes s') | Err _ => bounded (max_total_bytes opts) (nodes s') end.

Lemma keeps_bind {A B : Type} (P : Tree -> Prop) (m : DestM A) (Q : A -> Tree -> Prop) (f : A -> DestM B) (Q' : B -> Tree -> Prop) :
  keeps P m Q -> (forall a, keeps (Q a) (f a) Q') -> keeps P (mbind m f) Q'.
Proof.
  intros Hm Hf s Hs. unfold mbind. specialize (Hm s Hs). destruct (m s) as [[a|e] s']; [|done]. by apply Hf.
Qed.

Lemma keeps_io_part {A : Type} (P : Tree -> Prop) (what : string) (partial : nat -> Tree -> Tree) (f : Tree -> option (A * Tree)) (Q : A -> Tree -> Prop) :
  (forall m, P m -> bounded (max_total_bytes opts) m) ->
  (forall (k : nat) (m : Tree), P m -> bounded (max_total_bytes opts) (partial k m)) ->
  (forall (m : Tree) (a : A) (m' : Tree), P m -> f m = Some (a, m') -> Q a m') -> keeps P (io_part what partial f) Q.
Proof.
  intros Hb Hp Hf s Hs. unfold io_part. specialize (Hb _ Hs). specialize (Hf (nodes s)).
  destruct (faults s) as [|[k|] rest]; [|by apply Hp|]; destruct (f (nodes s)) as [[a m']|]; simpl; eauto.
Qed.

Lemma keeps_io {A : Type} (P : Tree -> Prop) (what : string) (f : Tree -> option (A * Tree)) (Q : A -> Tree -> Prop) :
  (forall m, P m -> bounded (max_total_bytes opts) m) -> (forall (m : Tree) (a : A) (m' : Tree), P m -> f m = Some (a, m') -> Q a m') -> keeps P (io what f) Q.
Proof. intros Hb Hf. by apply keeps_io_part. Qed.

Lemma keeps_ret {A : Type} (P : Tree -> Prop) (a : A) (Q : A -> Tree -> Prop) : (forall m, P m -> Q a m) -> keeps P (mret a) Q.
Proof. intros H s Hs. by apply H. Qed.

Lemma keeps_throw {A : Type} (P : Tree -> Prop) (e : ArchiveError) (Q : A -> Tree -> Prop) :
  (forall m, P m -> bounded (max_total_bytes opts) m) -> keeps P (mthrow e) Q.
Proof. intros H s Hs. by apply H. Qed.

Lemma keeps_lift {A : Type} (P : Tree -> Prop) (r : result ArchiveError A) (Q : A -> Tree -> Prop) :
  (forall m, P m -> bounded (max_total_bytes opts) m) -> (forall (a : A) (m : Tree), r = Ok a -> P m -> Q a m) -> keeps P (mlift r) Q.
Proof. intros Hb H s Hs. unfold mlift. destruct r; auto. Qed.

Lemma bounded_weaken (b b' : Z) (m : Tree) : bounded b m -> b <= b' -> bounded b' m.
Proof. intros [? ? ?] Hb. split; [done..|lia]. Qed.

Lemma node_size_nonneg n : 0 <= node_size n.
Proof. destruct n; simpl; lia. Qed.

(** Replacing a node by one that is within the entry cap. *)
Lemma bounded_insert (b b' : Z) (m : Tree) (p : list name) n :
  bounded b m -> Forall plain_name p -> node_size n <= max_entry_bytes opts ->
  disk_bytes m + node_size n - match m !! p with Some old => node_size old | None => 0 end <= b' ->
  bounded b' (<[p := n]> m).
Proof.
  intros [H1 H2 H3] Hp Hn Hb. split.
  - intros q k [[<- _]|[_ Hq]]%lookup_insert_Some; [done|by eapply H1].
  - intros q c [[_ ->]|[_ Hq]]%lookup_insert_Some; [done|by eapply H2].
  - by rewrite disk_bytes_insert.
Qed.

Hypothesis Hopts : 0 <= max_total_bytes opts < 2 ^ 64 /\ 0 <= max_entry_bytes opts.

Lemma make_dirs_bounded (b : Z) (rest prefix : list name) (m m' : Tree) :
  bounded b m -> Forall plain_name (prefix ++ rest) -> make_dirs prefix rest m = Some m' -> bounded b m'.
Proof.
  revert prefix m. induction rest as [|n rest IH]; intros prefix m Hb Hp; cbn [make_dirs].
  - rewrite app_nil_r in Hp. destruct (m !! prefix) as [[|c]|] eqn:E; [by intros [= <-]|done|]. intros [= <-].
    apply (bounded_insert b); [done|done|simpl; lia|]. rewrite E. simpl. pose proof (bd_total _ _ Hb). lia.
  - assert (Forall plain_name ((prefix ++ [n]) ++ rest)) as Hp' by by rewrite <- app_assoc.
    destruct (m !! prefix) as [[|c]|] eqn:E; [by apply IH|done|]. apply IH; [|done].
    apply Forall_app in Hp as [Hp _]. apply (bounded_insert b); [done|done|simpl; lia|]. rewrite E. simpl.
    pose proof (bd_total _ _ Hb). lia.
Qed.

Lemma create_dir_all_keeps (b : Z) (path : list name) :
  Forall plain_name path -> b <= max_total_bytes opts ->
  keeps (bounded b) (create_dir_all path) (fun _ => bounded b).
Proof.
  intros Hp Hb. apply keeps_io_part; [intros m H; by eapply bounded_weaken|..].
  { intros k m Hm. apply (bounded_weaken b); [|done]. destruct (make_dirs [] (take k path) m) as [m1|] eqn:E; [|done].
    apply (make_dirs_bounded b (take k path) [] m m1 Hm); [by apply Forall_take|done]. }
  intros m [] m' Hm H. destruct (make_dirs [] path m) as [m1|] eqn:E; [|done]. injection H as <-. exact (make_dirs_bounded b path [] m m1 Hm Hp E).
Qed.

(** A file being written, [written] bytes long. *)
Record copying (total : Z) (path : list name) (written : Z) (m : Tree) : Prop := {
  cp_bounded : bounded (total + written) m;
  cp_file : exists content, m !! path = Some (DestFile content) /\ Z.of_nat (length content) = written;
}.

Definition copied (total w : Z) (m : Tree) : Prop := bounded (total + w) m /\ 0 <= w <= max_total_bytes opts - total.

Lemma append_file_bounded (total : Z) (path : list name) (written : Z) (bytes : list Z) (m : Tree) :
  Forall plain_name path -> copying total path written m ->
  forall m', written + Z.of_nat (length bytes) <= max_entry_bytes opts -> append_file path bytes m = Some m' ->
  copying total path (written + Z.of_nat (length bytes)) m'.
Proof.
  intros Hp [Hm (c & Hc & Hlen)] m' Hle H. unfold append_file in H. rewrite Hc in H. injection H as <-.
  split; [|eexists; rewrite lookup_insert_eq; split; [done|]; rewrite length_app; lia].
  apply (bounded_insert (total + written)); [done|done|cbn [node_size]; rewrite length_app; lia|].
  rewrite Hc. cbn [node_size]. rewrite length_app. pose proof (bd_total _ _ Hm). lia.
Qed.

Lemma copy_loop_keeps (total : Z) (path : list name) (rs : reads_of) (written : Z) :
  Forall plain_name path -> 0 <= written <= max_total_bytes opts - total ->
  keeps (copying total path written)
    (copy_loop rs path (max_entry_bytes opts) (max_total_bytes opts - total) written) (copied total).
Proof.
  intros Hp. revert written. induction rs as [|[bytes|] rs IH]; intros written Hw; cbn [copy_loop].
  - apply keeps_ret. intros m [Hm _]. by split.
  - assert (forall m, copying total path written m -> bounded (max_total_bytes opts) m) as Hmax.
    { intros m [Hm _]. eapply bounded_weaken; [done|lia]. }
    destruct bytes as [|b bytes]; [apply keeps_ret; intros m [Hm _]; by split|].
    destruct (2 ^ 64 <=? _); [by apply keeps_throw|]. destruct (max_entry_bytes opts <? _) eqn:E1; [by apply keeps_throw|].
    destruct (_ - total <? _) eqn:E2; [by apply keeps_throw|].
    apply (keeps_bind _ _ (fun _ => copying total path (written + Z.of_nat (length (b :: bytes)))));
      [|intros _; apply IH; lia].
    apply keeps_io_part; [done|..].
    + intros k m Hm. pose proof (append_file_bounded total path written (take k (b :: bytes)) m Hp Hm) as Ha.
      rewrite length_take in Ha. destruct (append_file path _ m) as [m'|]; [|by apply Hmax].
      destruct (Ha m' ltac:(lia) eq_refl) as [Hm' _]. eapply bounded_weaken; [exact Hm'|lia].
    + intros m u m' Hm H. destruct (append_file path (b :: bytes) m) as [m1|] eqn:Ea; [|done]. injection H as _ <-.
      apply (append_file_bounded total path written (b :: bytes) m Hp Hm m1); [lia|done].
  - apply keeps_throw. intros m [Hm _]. eapply bounded_weaken; [done|lia].
Qed.

Lemma copy_capped_keeps (total : Z) (path : list name) (rs : reads_of) :
  Forall plain_name path -> 0 <= total <= max_total_bytes opts ->
  keeps (bounded total) (copy_capped rs path (max_entry_bytes opts) (max_total_bytes opts - total)) (copied total).
Proof.
  intros Hp Ht. unfold copy_capped. apply (keeps_bind _ _ (fun _ => copying total path 0)).
  { apply keeps_io; [intros m Hm; eapply bounded_weaken; [done|lia]|]. intros m [] m' Hm H.
    assert (m' = <[path := DestFile []]> m) as ->.
    { destruct (m !! removelast path) as [[]|]; try done. by destruct (m !! path) as [[]|]; simplify_eq. }
    split; [|exists []; by rewrite lookup_insert_eq].
    apply (bounded_insert total); [done|done|simpl; lia|]. pose proof (bd_total _ _ Hm). simpl.
    destruct (m !! path) as [old|]; [pose proof (node_size_nonneg old)|]; lia. }
  intros _. eapply keeps_bind; [apply copy_loop_keeps; [done|lia]|]. intros w.
  apply (keeps_bind _ _ (fun _ => copied total w)).
  - apply keeps_io; [intros m [Hm Hw]; eapply bounded_weaken; [done|lia]|]. by intros m [] m' Hm [= <-].
  - intros _. by apply keeps_ret.
Qed.

(** Between entries: the running total bounds what is on disk. *)
Definition on_track (p : Progress) (m : Tree) : Prop := bounded (total_bytes p) m /\ 0 <= total_bytes p <= max_total_bytes opts.

Lemma on_track_bounded p m : on_track p m -> bounded (max_total_bytes opts) m.
Proof. intros [Hm Ht]. eapply bounded_weaken; [done|lia]. Qed.

Lemma on_track_weaken (b : Z) m : bounded b m -> b <= max_total_bytes opts -> bounded (max_total_bytes opts) m.
Proof. intros. by eapply bounded_weaken. Qed.

Lemma extract_file_keeps (p : Progress) (path : list name) (rs : reads_of) :
  Forall plain_name path -> keeps (on_track p) (extract_file opts rs path p) on_track.
Proof.
  intros Hp s Hs. destruct Hs as [Hs Ht]. revert s Hs. unfold extract_file.
  apply (keeps_bind _ _ (fun _ => bounded (total_bytes p))).
  { apply create_dir_all_keeps; [|lia]. destruct path as [|n path _] using rev_ind; [done|]. rewrite removelast_last.
    by apply Forall_app in Hp as [? _]. }
  intros _. eapply keeps_bind; [by apply copy_capped_keeps|]. intros w s [Hb Hw].
  rewrite Z.min_l by lia. destruct (_ <? _) eqn:E; [lia|]. simpl. split; [done|simpl; lia].
Qed.

Lemma add_top_total path p : total_bytes (add_top path p) = total_bytes p.
Proof. unfold add_top. destruct path; [done|]. by destruct (is_utf8 _). Qed.

Lemma on_track_add_top path p m : on_track p m -> on_track (add_top path p) m.
Proof. unfold on_track. by rewrite add_top_total. Qed.

Lemma split_slash_no_slash raw segment : segment ∈ split_slash raw -> SLASH ∉ segment.
Proof.
  revert segment. induction raw as [|b rest IH]; intros segment; cbn [split_slash].
  - intros ->%list_elem_of_singleton. apply not_elem_of_nil.
  - destruct (b =? SLASH) eqn:Eb.
    + intros [->|H]%elem_of_cons; [apply not_elem_of_nil|by apply IH].
    + destruct (split_slash rest) as [|s ss] eqn:E.
      * intros ->%list_elem_of_singleton. rewrite list_elem_of_singleton. lia.
      * intros [->|H]%elem_of_cons; [|apply IH; by right].
        rewrite not_elem_of_cons. split; [lia|apply IH; by left].
Qed.

Lemma segment_component_plain raw segment n :
  segment ∈ split_slash raw -> segment_component segment = Some (Normal n) -> plain_name n.
Proof.
  intros Hs%split_slash_no_slash. unfold segment_component, plain_name.
  destruct (bool_decide (segment = []) || _) eqn:E1; [done|].
  apply orb_false_iff in E1 as [E1%bool_decide_eq_false E2%bool_decide_eq_false].
  case_bool_decide as E3; [done|]. by intros [= <-].
Qed.

Lemma components_normal raw n : Normal n ∈ components raw -> plain_name n.
Proof.
  intros H. assert (Normal n ∈ omap segment_component (split_slash raw)) as Ho.
  { unfold components in H. destruct (head raw) as [c|], (split_slash raw) as [|first rest]; try done.
    destruct (c =? SLASH); [by apply elem_of_cons in H as [|]|].
    case_bool_decide; [by apply elem_of_cons in H as [|]|done]. }
  apply list_elem_of_omap in Ho as (segment & Hs & Hn). by eapply segment_component_plain.
Qed.

Lemma sanitize_components_plain cs names :
  (forall n, Normal n ∈ cs -> plain_name n) -> sanitize_components cs = Ok names -> Forall plain_name names.
Proof.
  revert names. induction cs as [|[| | |part] cs IH]; intros names Hcs; cbn [sanitize_components]; try done.
  - by intros [= <-].
  - apply IH. intros n Hn. apply Hcs. by right.
  - destruct (sanitize_components cs) as [names'|] eqn:E; [|done]. intros [= <-].
    constructor; [apply Hcs; by left|]. apply IH; [|done]. intros n Hn. apply Hcs. by right.
Qed.

Lemma sanitize_relative_path_plain raw names : sanitize_relative_path raw = Ok names -> Forall plain_name names.
Proof.
  unfold sanitize_relative_path. destruct (sanitize_components (components raw)) as [names'|] eqn:E; [|done].
  intros H. assert (names' = names) as ->. { simpl in H. by destruct names'; simplify_eq. }
  eapply sanitize_components_plain; [|done]. apply components_normal.
Qed.

Lemma create_dir_on_track p path :
  Forall plain_name path -> keeps (on_track p) (let! _ := create_dir_all path in mret p) on_track.
Proof.
  intros Hp s [Hs Ht]. revert s Hs. apply (keeps_bind _ _ (fun _ => bounded (total_bytes p))).
  - apply create_dir_all_keeps; [done|lia].
  - intros _. apply keeps_ret. by intros m Hm.
Qed.

(** What a checked path is then used for starts on track. *)
Lemma sanitized_keeps p raw (f : list name -> DestM Progress) :
  (forall path, Forall plain_name path -> keeps (on_track p) (f path) on_track) ->
  keeps (on_track p) (let! path := mlift (sanitize_relative_path raw) in f path) on_track.
Proof.
  intros Hf. apply (keeps_bind _ _ (fun path m => Forall plain_name path /\ on_track p m)).
  - apply keeps_lift; [apply on_track_bounded|]. intros path m H%sanitize_relative_path_plain Hm. by split.
  - intros path s [Hp Hs]. by apply (Hf path Hp s).
Qed.

Lemma ensured_keeps p target (k : DestM Progress) :
  keeps (on_track p) k on_track -> keeps (on_track p) (let! _ := mlift (ensure_inside target) in k) on_track.
Proof.
  intros Hk. apply (keeps_bind _ _ (fun _ => on_track p)); [|by intros _].
  apply keeps_lift; [apply on_track_bounded|by intros].
Qed.

Lemma add_top_keeps p path (k : DestM Progress) :
  keeps (on_track (add_top path p)) k on_track -> keeps (on_track p) k on_track.
Proof. intros Hk s Hs. apply Hk. by apply on_track_add_top. Qed.

Lemma extract_tar_entry_keeps e p : keeps (on_track p) (extract_tar_entry opts e p) on_track.
Proof.
  unfold extract_tar_entry. apply (keeps_bind _ _ (fun _ => on_track p)).
  { apply keeps_lift; [apply on_track_bounded|by intros]. }
  intros _. apply sanitized_keeps. intros path Hp. destruct (is_tar_metadata_entry _); [by apply keeps_ret|].
  apply (add_top_keeps _ path), ensured_keeps. destruct (te_type e);
    (by apply extract_file_keeps) || (by apply create_dir_on_track) || (apply keeps_throw, on_track_bounded).
Qed.

Lemma extract_zip_entry_keeps e p : keeps (on_track p) (extract_zip_entry opts e p) on_track.
Proof.
  unfold extract_zip_entry. destruct (ze_is_symlink e); [apply keeps_throw, on_track_bounded|].
  apply sanitized_keeps. intros path Hp. apply (add_top_keeps _ path), ensured_keeps.
  destruct (ze_is_dir e); [by apply create_dir_on_track|by apply extract_file_keeps].
Qed.

Lemma extract_entries_keeps {E : Type} (step : E -> Progress -> DestM Progress) entries p :
  (forall e p, keeps (on_track p) (step e p) on_track) ->
  keeps (on_track p) (extract_entries step entries p) on_track.
Proof.
  intros Hstep. revert p. induction entries as [|[e|] rest IH]; intros p; cbn [extract_entries].
  - by apply keeps_ret.
  - eapply keeps_bind; [apply Hstep|]. intros p'. apply IH.
  - apply keeps_throw, on_track_bounded.
Qed.

(** What the report says of the tree. *)
Definition reported (r : ExtractReport) (m : Tree) : Prop :=
  bounded (bytes_written r) m /\ 0 <= bytes_written r <= max_total_bytes opts.

Lemma report_keeps {E : Type} (step : E -> Progress -> DestM Progress) entries :
  (forall e p, keeps (on_track p) (step e p) on_track) ->
  keeps (bounded 0) (let! p := extract_entries step entries start_progress in mret (report_of p)) reported.
Proof.
  intros Hstep. eapply keeps_bind.
  - intros s Hs. apply (extract_entries_keeps step entries start_progress Hstep s). split; simpl; [done|lia].
  - intros p. by apply keeps_ret.
Qed.

Lemma bounded_empty : bounded 0 ∅.
Proof. split; [by intros p n ?%lookup_empty_Some..|done]. Qed.

Lemma extraction_keeps (parsed : option Archive) :
  keeps (bounded 0)
    (let! _ := create_dir_all [] in
     let! _ := io "canonicalize" (fun m => Some (tt, m)) in
     match parsed with
     | None => mthrow (ArchiveReadFailed "open")
     | Some (TarArchive entries) => extract_tar opts entries
     | Some (ZipArchive entries) => extract_zip opts entries
     end) reported.
Proof.
  assert (forall m : Tree, bounded 0 m -> bounded (max_total_bytes opts) m) as Hw.
  { intros m Hm. eapply bounded_weaken; [done|lia]. }
  apply (keeps_bind _ _ (fun _ => bounded 0)); [apply create_dir_all_keeps; [done|lia]|]. intros _.
  apply (keeps_bind _ _ (fun _ => bounded 0)); [apply keeps_io; [done|by intros m u m' Hm [= _ <-]]|]. intros _.
  destruct parsed as [[entries|entries]|]; [| |by apply keeps_throw]; apply report_keeps.
  - apply extract_tar_entry_keeps.
  - apply extract_zip_entry_keeps.
Qed.

(** C21. Unpacking an untrusted archive stays inside the destination and inside the
    limits, whatever the archive says: any format, entry names, types, order and
    contents, with reads and file-system calls failing anywhere. Whether extraction
    succeeds or fails, every path it left behind consists of plain names (none is
    [..], empty or contains a slash), no file is longer than the entry limit, and the
    bytes on disk do not exceed the total limit; a success reports at least the bytes
    that are on disk, at most the limit. *)
Theorem extraction_bounded head d parse io_faults :
  let (r, s) := extract_archive opts head d parse io_faults in
  bounded (max_total_bytes opts) (nodes s) /\ forall report, r = Ok report -> reported report (nodes s).
Proof.
  assert (bounded (max_total_bytes opts) ∅) as H0 by (eapply bounded_weaken; [apply bounded_empty|lia]).
  unfold extract_archive. destruct (detect_format head) as [format|e]; [|done].
  destruct (enforce_dest_invariants d) as [[]|e]; [|done]. cbn [rbind].
  pose proof (extraction_keeps (parse format) (mkDest ∅ io_faults) bounded_empty) as H.
  match goal with |- context [mbind ?m ?f ?s] => destruct (mbind m f s) as [[report|e] s'] end; [|done].
  split; [|by intros ? [= <-]]. destruct H as [Hb Ht]. eapply bounded_weaken; [exact Hb|lia].
Qed.


(** ** What a success leaves *)

(** The bytes an entry's reads deliver. *)
Fixpoint entry_data (rs : reads_of) : list Z :=
  match rs with Some (b :: bytes) :: rest => (b :: bytes) ++ entry_data rest | _ => [] end.

(** A success of [m] turns every tree in [P] into one in [Q]. *)
Definition ends {A : Type} (P : Tree -> Prop) (m : DestM A) (Q : Tree -> Prop) : Prop :=
  forall s a s', P (nodes s) -> m s = (Ok a, s') -> Q (nodes s').

Lemma ends_bind {A B : Type} (P Q R : Tree -> Prop) (m : DestM A) (f : A -> DestM B) :
  ends P m Q -> (forall a, ends Q (f a) R) -> ends P (mbind m f) R.
Proof.
  intros Hm Hf s b s' Hs. unfold mbind. destruct (m s) as [[a|e] s1] eqn:E; [|done]. intros H.
  exact (Hf a s1 b s' (Hm s a s1 Hs E) H).
Qed.

Lemma ends_io_part {A : Type} (P Q : Tree -> Prop) (what : string) (partial : nat -> Tree -> Tree) (f : Tree -> option (A * Tree)) :
  (forall (m : Tree) (a : A) (m' : Tree), P m -> f m = Some (a, m') -> Q m') -> ends P (io_part what partial f) Q.
Proof.
  intros Hf s a s' Hs. unfold io_part. specialize (Hf (nodes s)).
  destruct (faults s) as [|[k|] rest]; [|done|]; destruct (f (nodes s)) as [[a' m']|]; try done;
    intros [= <- <-]; by eapply Hf.
Qed.

Lemma ends_ret {A : Type} (P : Tree -> Prop) (a : A) : ends P (mret a) P.
Proof. by intros s a' s' Hs [= _ <-]. Qed.

Lemma ends_throw {A : Type} (P Q : Tree -> Prop) (e : ArchiveError) : ends P (mthrow (A := A) e) Q.
Proof. by intros s a s' Hs H. Qed.

Lemma ends_lift {A : Type} (P : Tree -> Prop) (r : result ArchiveError A) : ends P (mlift r) P.
Proof. by intros s a s' Hs [= _ <-]. Qed.

(** [path] is a file with this content. *)
Definition holds_file (path : list name) (content : list Z) (m : Tree) : Prop := m !! path = Some (DestFile content).

Lemma make_dirs_frame (q : list name) (c : list Z) (rest prefix : list name) (m m' : Tree) :
  holds_file q c m -> make_dirs prefix rest m = Some m' -> holds_file q c m'.
Proof.
  revert prefix m. induction rest as [|n rest IH]; intros prefix m Hq; cbn [make_dirs];
    destruct (m !! prefix) as [[|c']|] eqn:E; try done.
  - by intros [= <-].
  - intros [= <-]. unfold holds_file in *. rewrite lookup_insert_ne; [done|congruence].
  - by apply IH.
  - apply IH. unfold holds_file in *. rewrite lookup_insert_ne; [done|congruence].
Qed.

Lemma create_dir_all_frame q c path : ends (holds_file q c) (create_dir_all path) (holds_file q c).
Proof.
  apply ends_io_part. intros m [] m' Hm H. destruct (make_dirs [] path m) as [m1|] eqn:E; [|done]. injection H as <-.
  by eapply make_dirs_frame.
Qed.

Lemma file_write_ends path c bytes : ends (holds_file path c) (file_write path bytes) (holds_file path (c ++ bytes)).
Proof.
  apply ends_io_part. unfold holds_file, append_file. intros m u m' Hm. rewrite Hm. intros [= _ <-]. by rewrite lookup_insert_eq.
Qed.

Lemma file_write_frame q c path bytes : q <> path -> ends (holds_file q c) (file_write path bytes) (holds_file q c).
Proof.
  intros Hne. apply ends_io_part. unfold holds_file, append_file. intros m u m' Hm. destruct (m !! path) as [[|c']|]; try done.
  intros [= _ <-]. by rewrite lookup_insert_ne.
Qed.

Lemma file_create_inv (path : list name) (m : Tree) (u : unit) (m' : Tree) :
  match m !! removelast path, m !! path with
  | Some DestDir, Some DestDir => None
  | Some DestDir, _ => Some (tt, <[path := DestFile []]> m)
  | _, _ => None
  end = Some (u, m') -> m' = <[path := DestFile []]> m.
Proof. destruct (m !! removelast path) as [[]|]; try done. by destruct (m !! path) as [[]|]; intros; simplify_eq. Qed.

Lemma copy_loop_ends path rs me rt c written :
  ends (holds_file path c) (copy_loop rs path me rt written) (holds_file path (c ++ entry_data rs)).
Proof.
  revert c written. induction rs as [|[[|b bytes]|] rs IH]; intros c written; cbn [copy_loop entry_data];
    try (rewrite app_nil_r; apply ends_ret); try apply ends_throw.
  repeat (destruct (_ : bool); [apply ends_throw|]).
  eapply ends_bind; [apply file_write_ends|]. intros _. rewrite app_assoc. apply IH.
Qed.

Lemma copy_loop_frame q c path rs me rt written :
  q <> path -> ends (holds_file q c) (copy_loop rs path me rt written) (holds_file q c).
Proof.
  intros Hne. revert written. induction rs as [|[[|b bytes]|] rs IH]; intros written; cbn [copy_loop];
    try apply ends_ret; try apply ends_throw.
  repeat (destruct (_ : bool); [apply ends_throw|]).
  eapply ends_bind; [by apply file_write_frame|]. intros _. apply IH.
Qed.

Lemma copy_capped_ends path rs me rt :
  ends (fun _ => True) (copy_capped rs path me rt) (holds_file path (entry_data rs)).
Proof.
  unfold copy_capped. apply (ends_bind _ (holds_file path [])).
  - apply ends_io_part. intros m u m' _ ->%file_create_inv. apply lookup_insert_eq.
  - intros _. eapply ends_bind; [apply (copy_loop_ends path rs me rt [])|]. intros w.
    eapply ends_bind; [|intros _; apply ends_ret]. apply ends_io_part. by intros m u m' Hm [= _ <-].
Qed.

Lemma copy_capped_frame q c path rs me rt :
  q <> path -> ends (holds_file q c) (copy_capped rs path me rt) (holds_file q c).
Proof.
  intros Hne. unfold copy_capped. apply (ends_bind _ (holds_file q c)).
  - apply ends_io_part. unfold holds_file. intros m u m' Hm ->%file_create_inv. by rewrite lookup_insert_ne.
  - intros _. eapply ends_bind; [by apply copy_loop_frame|]. intros w.
    eapply ends_bind; [|intros _; apply ends_ret]. apply ends_io_part. by intros m u m' Hm [= _ <-].
Qed.

Lemma extract_file_ends path rs p : ends (fun _ => True) (extract_file opts rs path p) (holds_file path (entry_data rs)).
Proof.
  unfold extract_file. apply (ends_bind _ (fun _ => True)); [by intros s a s' _ _|]. intros _.
  eapply ends_bind; [apply copy_capped_ends|]. intros w. cbv zeta.
  destruct (_ <? _); [apply ends_throw|apply ends_ret].
Qed.

Lemma extract_file_frame q c path rs p :
  q <> path -> ends (holds_file q c) (extract_file opts rs path p) (holds_file q c).
Proof.
  intros Hne. unfold extract_file. eapply ends_bind; [apply create_dir_all_frame|]. intros _.
  eapply ends_bind; [by apply copy_capped_frame|]. intros w. cbv zeta.
  destruct (_ <? _); [apply ends_throw|apply ends_ret].
Qed.

Lemma create_dir_frame {A : Type} q c path (p : A) :
  ends (holds_file q c) (let! _ := create_dir_all path in mret p) (holds_file q c).
Proof. eapply ends_bind; [apply create_dir_all_frame|intros _; apply ends_ret]. Qed.

Lemma ends_sanitized (P Q : Tree -> Prop) raw (f : list name -> DestM Progress) :
  (forall path, sanitize_relative_path raw = Ok path -> ends P (f path) Q) ->
  ends P (let! path := mlift (sanitize_relative_path raw) in f path) Q.
Proof.
  intros Hf s a s' Hs. unfold mbind, mlift. destruct (sanitize_relative_path raw) as [path|e]; [|done].
  exact (Hf path eq_refl s a s' Hs).
Qed.

Lemma extract_tar_entry_frame q c e p :
  sanitize_relative_path (te_path e) <> Ok q -> ends (holds_file q c) (extract_tar_entry opts e p) (holds_file q c).
Proof.
  intros Hne. unfold extract_tar_entry. eapply ends_bind; [apply ends_lift|]. intros _. apply ends_sanitized.
  intros path Hp. destruct (is_tar_metadata_entry _); [apply ends_ret|]. eapply ends_bind; [apply ends_lift|]. intros _.
  assert (q <> path) by congruence.
  destruct (te_type e); (by apply extract_file_frame) || (apply create_dir_frame) || (apply ends_throw).
Qed.

Lemma extract_zip_entry_frame q c e p :
  sanitize_relative_path (ze_name e) <> Ok q -> ends (holds_file q c) (extract_zip_entry opts e p) (holds_file q c).
Proof.
  intros Hne. unfold extract_zip_entry. destruct (ze_is_symlink e); [apply ends_throw|]. apply ends_sanitized.
  intros path Hp. eapply ends_bind; [apply ends_lift|]. intros _. assert (q <> path) by congruence.
  destruct (ze_is_dir e); [apply create_dir_frame|by apply extract_file_frame].
Qed.

Lemma extract_tar_entry_ends path e p :
  te_type e ∈ [TRegular; TContinuous; TGNUSparse] -> sanitize_relative_path (te_path e) = Ok path ->
  ends (fun _ => True) (extract_tar_entry opts e p) (holds_file path (entry_data (te_reads e))).
Proof.
  intros Ht Hp. unfold extract_tar_entry. eapply ends_bind; [apply ends_lift|]. intros _. apply ends_sanitized.
  intros path' Hp'. rewrite Hp in Hp'. injection Hp' as <-. set (k := holds_file _ _).
  assert (forall P : Tree -> Prop, ends P (mlift (ensure_inside (dest ++ path))) (fun _ => True)) as Hin by by intros P s a s'.
  rewrite !elem_of_cons, elem_of_nil in Ht. destruct Ht as [E|[E|[E|[]]]]; rewrite E; cbn [is_tar_metadata_entry];
    (eapply ends_bind; [apply Hin|intros _; apply extract_file_ends]).
Qed.

Lemma extract_zip_entry_ends path e p :
  ze_is_dir e = false -> sanitize_relative_path (ze_name e) = Ok path ->
  ends (fun _ => True) (extract_zip_entry opts e p) (holds_file path (entry_data (ze_reads e))).
Proof.
  intros Ht Hp. unfold extract_zip_entry. destruct (ze_is_symlink e); [apply ends_throw|]. apply ends_sanitized.
  intros path' Hp'. rewrite Hp in Hp'. injection Hp' as <-. rewrite Ht.
  eapply ends_bind; [apply ends_lift|intros _; apply extract_file_ends].
Qed.

(** The entry in front of [post] leaves its file, and nothing after it touches it. *)
Lemma extract_entries_ends {E : Type} (step : E -> Progress -> DestM Progress) (pre post : list (option E)) e Q p :
  (forall p, ends (fun _ => True) (step e p) Q) ->
  (forall e' p, Some e' ∈ post -> ends Q (step e' p) Q) ->
  ends (fun _ => True) (extract_entries step (pre ++ Some e :: post) p) Q.
Proof.
  intros He Hpost. revert p. induction pre as [|[e0|] pre IH]; intros p; cbn [extract_entries app].
  - eapply ends_bind; [apply He|]. clear He p. induction post as [|[e'|] post IH]; intros p; cbn [extract_entries].
    + apply ends_ret.
    + eapply ends_bind; [apply Hpost; by left|]. apply IH. intros e'' p' Hin. apply Hpost. by right.
    + apply ends_throw.
  - apply (ends_bind _ (fun _ => True)); [by intros s a s'|]. done.
  - apply ends_throw.
Qed.

(** A successful extraction left what the archive holds: for a tar file entry
    (regular, continuous or sparse) or a zip file entry whose name is not used again
    by a later entry, the destination has a file at exactly the checked path, with
    exactly the bytes the entry's reads delivered. *)
Theorem extraction_faithful path s r s' :
  (forall pre post e, te_type e ∈ [TRegular; TContinuous; TGNUSparse] ->
     sanitize_relative_path (te_path e) = Ok path ->
     (forall e', Some e' ∈ post -> sanitize_relative_path (te_path e') <> Ok path) ->
     extract_tar opts (pre ++ Some e :: post) s = (Ok r, s') ->
     nodes s' !! path = Some (DestFile (entry_data (te_reads e)))) /\
  (forall pre post e, ze_is_dir e = false ->
     sanitize_relative_path (ze_name e) = Ok path ->
     (forall e', Some e' ∈ post -> sanitize_relative_path (ze_name e') <> Ok path) ->
     extract_zip opts (pre ++ Some e :: post) s = (Ok r, s') ->
     nodes s' !! path = Some (DestFile (entry_data (ze_reads e)))).
Proof.
  split; intros pre post e Ht Hp Hpost.
  - apply (ends_bind (fun _ => True) (holds_file path (entry_data (te_reads e))) (holds_file path (entry_data (te_reads e))));
      [|intros; apply ends_ret|done].
    apply extract_entries_ends; [intros; by apply extract_tar_entry_ends|].
    intros e' p Hin. apply extract_tar_entry_frame. by apply Hpost.
  - apply (ends_bind (fun _ => True) (holds_file path (entry_data (ze_reads e))) (holds_file path (entry_data (ze_reads e))));
      [|intros; apply ends_ret|done].
    apply extract_entries_ends; [intros; by apply extract_zip_entry_ends|].
    intros e' p Hin. apply extract_zip_entry_frame. by apply Hpost.
Qed.

End extract.

(** ** A concrete archive *)

(** [a/b] with two chunks of three bytes, then [../c]. *)
Definition sample_entry : TarEntry := mkTarEntry [97; SLASH; 98] TRegular [Some [1; 2; 3]; Some [4; 5; 6]].
Definition sample_escape : TarEntry := mkTarEntry [DOT; DOT; SLASH; 99] TRegular [Some [7]].
Definition sample_opts : ExtractOpts := mkExtractOpts 10 8.

Lemma extraction_bounded_witness :
  (0 <= max_total_bytes sample_opts < 2 ^ 64 /\ 0 <= max_entry_bytes sample_opts) /\
  let (r, s) := extract_archive [] (fun _ => true) sample_opts [31; 139] Missing
                  (fun _ => Some (TarArchive [Some sample_entry; Some sample_escape])) [] in
  (bounded sample_opts (max_total_bytes sample_opts) (nodes s) /\
   forall report, r = Ok report -> reported sample_opts report (nodes s)) /\
  r = Err (ArchiveUnsafeEntry "parent-traversal") /\ nodes s !! [[97]; [98]] = Some (DestFile [1; 2; 3; 4; 5; 6]).
Proof.
  assert (0 <= max_total_bytes sample_opts < 2 ^ 64 /\ 0 <= max_entry_bytes sample_opts) as H by (simpl; lia).
  split; [exact H|].
  pose proof (extraction_bounded [] (fun _ => true) sample_opts H [31; 139] Missing
    (fun _ => Some (TarArchive [Some sample_entry; Some sample_escape])) []) as Hb.
  revert Hb. vm_compute (extract_archive _ _ _ _ _ _ _). intros Hb. split; [exact Hb|]. split; reflexivity.
Defined.

Lemma extraction_faithful_witness :
  exists r s', extract_tar [] (fun _ => true) sample_opts [Some sample_entry] (mkDest {[ [] := DestDir ]} []) = (Ok r, s') /\
    nodes s' !! [[97]; [98]] = Some (DestFile [1; 2; 3; 4; 5; 6]).
Proof.
  set (s := mkDest {[ [] := DestDir ]} []).
  destruct (extract_tar [] (fun _ => true) sample_opts [Some sample_entry] s) as [[r|e] s'] eqn:E;
    [|exfalso; revert E; vm_compute; discriminate].
  exists r, s'. split; [reflexivity|].
  apply (proj1 (extraction_faithful [] (fun _ => true) sample_opts [[97]; [98]] s r s') [] [] sample_entry);
    [by left|reflexivity|by intros e' He%elem_of_nil|exact E].
Defined.
