(* ===== verification/Workspace.v ===== *)
(** Workspace file operations (src/src/workspace.rs): the lexical check of a
    requested path, the operations on top of the walker, and the translation of the
    walker's errors. Requests are text; a listed name that is not UTF-8 is shown as
    it is. *)

From S2P Require Import Prelude Text Async Posix Walk SafeExtract.
Open Scope Z_scope.
Open Scope result_scope.

(** ** The lexical check of a requested path *)

Inductive PathIntent := ReadExisting | WriteOrCreate.

Inductive WorkspaceError :=
| WorkspacePathInvalid (reason : string)
| WorkspaceSymlinkEscape
| WorkspaceNotFound
| WorkspaceParentNotFound
| WorkspacePermissionDenied (source : Errno)
| WorkspaceIo (source : Errno)
| Walker (error : FsError).

Fixpoint relative_names (cs : list Component) : result WorkspaceError (list name) :=
  match cs with
  | [] => Ok []
  | ParentDir :: _ => Err (WorkspacePathInvalid "contains `..` segment")
  | RootDir :: _ => Err (WorkspacePathInvalid "must be a workspace-relative path")
  | CurDir :: rest => relative_names rest
  | Normal n :: rest => let? names := relative_names rest in Ok (n :: names)
  end.

(** [PathBuf::push] of names onto an empty path. *)
Fixpoint join_names (names : list name) : list Z :=
  match names with [] => [] | [n] => n | n :: rest => n ++ SLASH :: join_names rest end.

Definition workspace_relative_path (requested : list Z) (intent : PathIntent) : result WorkspaceError (list Z) :=
  if bool_decide (0 ∈ requested) then Err (WorkspacePathInvalid "contains NUL byte")
  else
    let? names := relative_names (components requested) in
    let relative := join_names names in
    match intent with
    | ReadExisting => Ok relative
    | WriteOrCreate =>
        if bool_decide (relative = []) then Err (WorkspacePathInvalid "must name a specific file inside the workspace")
        else
          let trimmed := trim_trailing_slashes requested in
          if bool_decide (trimmed = [DOT]) || bool_decide (take 2 (reverse trimmed) = [DOT; SLASH])
          then Err (WorkspacePathInvalid "path must end with a file name, not `.`")
          else Ok relative
    end.

(** [strip_prefix]: whole components. *)
Fixpoint strip_components (prefix path : list Component) : option (list Component) :=
  match prefix, path with
  | [], _ => Some path
  | Normal p :: prefix, Normal n :: path => if bool_decide (p = n) then strip_components prefix path else None
  | RootDir :: prefix, RootDir :: path => strip_components prefix path
  | CurDir :: prefix, CurDir :: path => strip_components prefix path
  | ParentDir :: prefix, ParentDir :: path => strip_components prefix path
  | _, _ => None
  end.

Definition component_name (c : Component) : name :=
  match c with Normal n => n | ParentDir => dotdot | CurDir => [DOT] | RootDir => [] end.

(** The rest of the path [strip_prefix] leaves, without the separators and dots
    around it: [Components::as_path] trims both ends. *)
Definition rest_of_path (rest : list Component) : list Z := join_names (component_name <$> rest).

Definition anchored_relative_path (anchor : Anchor) (configured_root requested : list Z) (intent : PathIntent)
  : result WorkspaceError (list Z) :=
  if negb (bool_decide (head requested = Some SLASH)) then Err (WorkspacePathInvalid "must be an absolute path")
  else
    match strip_components (RootDir :: (Normal <$> a_path anchor)) (components requested) with
    | Some rest => workspace_relative_path (rest_of_path rest) intent
    | None =>
        match strip_components (components configured_root) (components requested) with
        | Some rest => workspace_relative_path (rest_of_path rest) intent
        | None => Err (WorkspacePathInvalid "outside the session workspace")
        end
    end.

(** ** Errors *)

Definition HARD_LINK_REASON : string := "target has more than one hard link".
Definition NOT_REGULAR_REASON : string := "target is not a regular file".
Definition SYMLINK_LOOP_REASON : string := "symlinks form a loop".
Definition OWNER_MISMATCH_REASON : string := "target is owned by another user".

Definition EACCES : Errno := EOther 13.
Definition permission_denied (e : Errno) : bool := bool_decide (e = EPERM) || bool_decide (e = EACCES).

Definition workspace_error (error : FsError) (intent : PathIntent) : WorkspaceError :=
  match error with
  | FInvalidPath reason => WorkspacePathInvalid reason
  | FSymlinkRefused => WorkspaceSymlinkEscape
  | FHardLinkRefused => WorkspacePathInvalid HARD_LINK_REASON
  | FSymlinkLoop => WorkspacePathInvalid SYMLINK_LOOP_REASON
  | FNotRegular => WorkspacePathInvalid NOT_REGULAR_REASON
  | FOwnerMismatch _ _ => WorkspacePathInvalid OWNER_MISMATCH_REASON
  | FNotFound => match intent with ReadExisting => WorkspaceNotFound | WriteOrCreate => WorkspaceParentNotFound end
  | FIo _ source => if permission_denied source then WorkspacePermissionDenied source else WorkspaceIo source
  | FTooLarge _ | FAlreadyExists => Walker error
  end.

(** ** Operations *)

Inductive WorkspaceKind := File | Directory | Symlink | Other.
#[export] Instance WorkspaceKind_eq_dec : EqDecision WorkspaceKind.
Proof. solve_decision. Defined.

Record WorkspaceEntry := mkEntry { we_name : name; we_kind : WorkspaceKind; we_size : option Z; we_modified : Z }.
Record FileRead := mkFileRead { fr_content : list Z; fr_size : Z; fr_modified : Z }.
Record FileMetadata := mkMetadata { fm_size : Z; fm_modified : Z }.

Definition entry_kind (kind : EntryKind) : WorkspaceKind :=
  match kind with KFile => File | KDir => Directory | KSymlink => Symlink | KOther => Other end.

Definition sort_bucket (kind : WorkspaceKind) : Z :=
  match kind with Directory => 0 | File => 1 | Symlink => 2 | Other => 3 end.

(** [sort_key]'s order: the bucket, then the name. *)
Definition entry_before (a b : WorkspaceEntry) : Prop :=
  sort_bucket (we_kind a) < sort_bucket (we_kind b) \/
  sort_bucket (we_kind a) = sort_bucket (we_kind b) /\ text_le (we_name a) (we_name b).
#[export] Instance entry_before_dec : RelDecision entry_before.
Proof. intros a b. unfold entry_before. apply _. Defined.

Definition workspace_entry (listed : name * EntryInfo) : WorkspaceEntry :=
  let '(n, info) := listed in
  let kind := entry_kind (ei_kind info) in
  mkEntry n kind (if bool_decide (kind = File) then Some (ei_size info) else None) (ei_modified info).

(** What the API declares for a workload identity's uid. *)
Definition UMASK_FILE_MODE : Z := 438.
Definition UMASK_DIR_MODE : Z := 511.
Definition OWNER_ONLY_FILE_MODE : Z := 384.
Definition OWNER_ONLY_DIR_MODE : Z := 448.

Definition workload_write_options (identity : option Z) : WriteOptions :=
  match identity with
  | Some uid => mkWriteOptions false UMASK_FILE_MODE UMASK_DIR_MODE (Some uid)
  | None => mkWriteOptions false OWNER_ONLY_FILE_MODE OWNER_ONLY_DIR_MODE None
  end.

Section operations.
Context {PW : PathWalk}.

(** [map_err] of a walker operation. *)
Definition walked {A B : Type} (intent : PathIntent) (p : Prog (result FsError A)) (f : A -> Prog (result WorkspaceError B))
  : Prog (result WorkspaceError B) :=
  pbind p (fun r => match r with Ok a => f a | Err e => Done (Err (workspace_error e intent)) end).

Definition list_directory (anchor : Anchor) (relative : list Z) : Prog (result WorkspaceError (list WorkspaceEntry)) :=
  walked ReadExisting (list_dir anchor relative) (fun entries =>
    Done (Ok (merge_sort entry_before (workspace_entry <$> entries)))).

Definition read_workspace_file (anchor : Anchor) (relative : list Z) (max_bytes : Z) : Prog (result WorkspaceError FileRead) :=
  walked ReadExisting (read_file_with_info anchor relative max_bytes) (fun '(content, info) =>
    Done (Ok (mkFileRead content (Z.of_nat (length content)) (ei_modified info)))).

Definition open_workspace_file (anchor : Anchor) (relative : list Z) : Prog (result WorkspaceError (inode * Z)) :=
  walked ReadExisting (open_file anchor relative) (fun '(file, info) => Done (Ok (file, ei_size info))).

Definition file_metadata (anchor : Anchor) (relative : list Z) : Prog (result WorkspaceError FileMetadata) :=
  walked ReadExisting (stat_followed anchor relative) (fun found =>
    Done match found with
         | Some info => Ok (mkMetadata (ei_size info) (ei_modified info))
         | None => Err WorkspaceNotFound
         end).

Definition write_workspace_file (anchor : Anchor) (relative content : list Z) (options : WriteOptions)
  : Prog (result WorkspaceError FileMetadata) :=
  walked WriteOrCreate (write_file_atomic anchor relative content options) (fun _ => file_metadata anchor relative).

Definition delete_file (anchor : Anchor) (relative : list Z) : Prog (result WorkspaceError unit) :=
  walked ReadExisting (remove_file anchor relative) (fun _ => Done (Ok tt)).
End operations.

(** ** The checks agree *)

Definition ok_part {E A : Type} (r : result E A) : option A := match r with Ok a => Some a | Err _ => None end.

Lemma ok_part_Some {E A : Type} (r : result E A) a : r = Ok a <-> ok_part r = Some a.
Proof. destruct r; simpl; split; intros; simplify_eq; done. Qed.

Lemma relative_names_keep segments :
  ok_part (relative_names (omap segment_component segments)) = ok_part (keep_segments segments).
Proof.
  induction segments as [|segment rest IH]; [done|]. cbn [keep_segments omap list_omap]. unfold segment_component at 1.
  destruct (bool_decide (segment = []) || _); [done|]. case_bool_decide; [done|]. cbn [relative_names].
  fold (omap segment_component rest).
  destruct (relative_names (omap segment_component rest)), (keep_segments rest); simpl in *; congruence.
Qed.

Lemma split_slash_nonempty raw : split_slash raw <> [].
Proof. destruct raw as [|b rest]; [done|]. cbn [split_slash]. destruct (b =? SLASH); [done|]. by destruct (split_slash rest). Qed.

(** Both checks read the same names off a path, or both refuse it. *)
Lemma relative_names_components raw :
  ok_part (relative_names (components raw)) =
  if bool_decide (head raw = Some SLASH) then None else ok_part (keep_segments (split_slash raw)).
Proof.
  unfold components. pose proof (split_slash_nonempty raw) as Hne.
  destruct raw as [|c raw]; [done|]. cbn [head].
  destruct (split_slash (c :: raw)) as [|first rest] eqn:E; [done|]. rewrite <- relative_names_keep.
  destruct (c =? SLASH) eqn:Ec.
  - rewrite bool_decide_true by (f_equal; lia). done.
  - apply Z.eqb_neq in Ec. rewrite (bool_decide_false (Some c = Some SLASH)) by congruence. by case_bool_decide.
Qed.

Lemma relative_names_plain raw names : relative_names (components raw) = Ok names -> Forall plain_name names.
Proof.
  pose proof (components_normal raw) as Hcs. revert names Hcs. generalize (components raw). intros cs.
  induction cs as [|[| | |part] cs IH]; intros names Hcs; cbn [relative_names]; try done.
  - by intros [= <-].
  - apply IH. intros n Hn. apply Hcs. by right.
  - destruct (relative_names cs) as [names'|] eqn:E; [|done]. intros [= <-].
    constructor; [apply Hcs; by left|]. apply IH; [|done]. intros n Hn. apply Hcs. by right.
Qed.

Lemma split_slash_name n : SLASH ∉ n -> split_slash n = [n].
Proof.
  induction n as [|b n IH]; [done|]. rewrite not_elem_of_cons. intros [Hb Hn]. cbn [split_slash].
  destruct (b =? SLASH) eqn:E; [lia|]. by rewrite (IH Hn).
Qed.

Lemma split_slash_cons n rest : SLASH ∉ n -> split_slash (n ++ SLASH :: rest) = n :: split_slash rest.
Proof.
  induction n as [|b n IH]; [done|]. rewrite not_elem_of_cons. intros [Hb Hn]. cbn [split_slash app].
  destruct (b =? SLASH) eqn:E; [lia|]. by rewrite (IH Hn).
Qed.

Lemma split_join names : names <> [] -> Forall plain_name names -> split_slash (join_names names) = names.
Proof.
  intros Hne Hp. induction Hp as [|n [|m rest] (_ & _ & _ & Hn) Hp IH]; [done| |].
  - by apply split_slash_name.
  - cbn [join_names]. rewrite split_slash_cons by done. f_equal. by apply IH.
Qed.

Lemma keep_plain names : Forall plain_name names -> keep_segments names = Ok names.
Proof.
  induction 1 as [|n names (H1 & H2 & H3 & _) _ IH]; [done|]. cbn [keep_segments].
  rewrite (bool_decide_false (n = [])), (bool_decide_false (n = [DOT])), (bool_decide_false (n = dotdot)) by done.
  simpl. by rewrite IH.
Qed.

(** The joined names end with the last one, behind a separator if it is not alone. *)
Lemma join_snoc names n : exists pre, join_names (names ++ [n]) = pre ++ n.
Proof.
  induction names as [|m names [pre IH]]; [by exists []|]. exists (m ++ SLASH :: pre). cbn [app join_names].
  destruct (names ++ [n]) as [|k ks] eqn:E; [by destruct names|]. cbn [app] in *. rewrite IH. by rewrite <- app_assoc.
Qed.

Lemma join_bytes b names : b ∈ join_names names -> b = SLASH \/ exists n, n ∈ names /\ b ∈ n.
Proof.
  induction names as [|n [|m rest] IH]; cbn [join_names].
  - by intros ?%elem_of_nil.
  - intros H. right. exists n. split; [by left|done].
  - rewrite elem_of_app, elem_of_cons. intros [H|[->|H]]; [right; exists n; split; [by left|done]|by left|].
    destruct (IH H) as [->|(k & Hk & Hb)]; [by left|]. right. exists k. split; [by right|done].
Qed.

Lemma split_slash_bytes b raw segment : segment ∈ split_slash raw -> b ∈ segment -> b ∈ raw.
Proof.
  revert segment. induction raw as [|c raw IH]; intros segment; cbn [split_slash].
  - intros ->%list_elem_of_singleton. done.
  - destruct (c =? SLASH).
    + intros [->|H]%elem_of_cons Hb; [by apply elem_of_nil in Hb|]. right. by eapply IH.
    + destruct (split_slash raw) as [|s ss].
      * intros ->%list_elem_of_singleton ->%list_elem_of_singleton. by left.
      * intros [->|H]%elem_of_cons; [|intros; right; apply (IH segment); [by right|done]].
        intros [->|Hb]%elem_of_cons; [by left|]. right. apply (IH s); [by left|done].
Qed.

Lemma keep_segments_sub segments names n : keep_segments segments = Ok names -> n ∈ names -> n ∈ segments.
Proof.
  revert names. induction segments as [|s segments IH]; intros names; cbn [keep_segments].
  - intros [= <-]. done.
  - destruct (_ || _); [intros; right; by eapply IH|]. case_bool_decide; [done|].
    destruct (keep_segments segments) as [names'|]; [|done]. intros [= <-] [->|H']%elem_of_cons; [by left|].
    right. by eapply IH.
Qed.

(** What the walker makes of the joined names. *)
Lemma components_of_join names :
  Forall plain_name names -> (forall n, n ∈ names -> 0 ∉ n) -> components_of (join_names names) = Ok names.
Proof.
  intros Hp H0. destruct names as [|n rest]; [done|]. unfold components_of.
  rewrite bool_decide_false by (intros [|(k & Hk & Hb)]%join_bytes; [done|by apply (H0 k)]).
  rewrite bool_decide_false.
  - rewrite split_join by done. by apply keep_plain.
  - intros Hh. apply Forall_cons in Hp as [(Hne & _ & _ & Hs) _]. destruct n as [|b n]; [done|].
    apply Hs. destruct rest; simpl in Hh; injection Hh as ->; by left.
Qed.

Lemma trim_join pre n : plain_name n -> trim_trailing_slashes (pre ++ n) = pre ++ n.
Proof.
  intros (Hne & _ & _ & Hs). unfold trim_trailing_slashes. rewrite <- (reverse_involutive (pre ++ n)) at 2. f_equal.
  rewrite reverse_app. destruct n as [|b n _] using rev_ind; [done|]. rewrite reverse_snoc. cbn [app trim_leading_slashes].
  destruct (b =? SLASH) eqn:E; [|done]. exfalso. apply Hs. rewrite elem_of_app, list_elem_of_singleton. lia.
Qed.

(** A path that ends with a plain name does not end with [.]. *)
Lemma no_final_dot pre n : plain_name n -> pre ++ n <> [DOT] /\ take 2 (reverse (pre ++ n)) <> [DOT; SLASH].
Proof.
  intros (Hne & Hd & _ & Hs). rewrite reverse_app. split.
  - intros H. destruct pre as [|c pre]; [done|]. injection H as _ H. by destruct pre, n.
  - destruct n as [|b n _] using rev_ind; [done|]. rewrite reverse_snoc. cbn [app take]. intros [= -> H].
    destruct n as [|c n _] using rev_ind; [done|]. rewrite reverse_snoc in H. injection H as ->.
    apply Hs. rewrite !elem_of_app. left. right. by left.
Qed.

Lemma entry_components_join names n :
  Forall plain_name (names ++ [n]) -> (forall k, k ∈ names ++ [n] -> 0 ∉ k) ->
  entry_components (join_names (names ++ [n])) = Ok (names, n).
Proof.
  intros Hp H0. unfold entry_components. rewrite components_of_join by done. destruct (join_snoc names n) as [pre ->].
  assert (plain_name n) as Hn by (apply Forall_app in Hp as [_ Hp]; by apply Forall_inv in Hp).
  rewrite trim_join by done. destruct (no_final_dot pre n Hn) as [H1 H2].
  rewrite (bool_decide_false _ H1), (bool_decide_false _ H2). cbn [orb rbind].
  by rewrite last_snoc, removelast_last.
Qed.

(** The names both checks read off a request. *)
Lemma checked_names requested :
  0 ∉ requested ->
  match relative_names (components requested) with
  | Ok names => components_of requested = Ok names /\ Forall plain_name names /\ forall n, n ∈ names -> 0 ∉ n
  | Err _ => exists e, components_of requested = Err e
  end.
Proof.
  intros H0. pose proof (relative_names_components requested) as Heq. pose proof (relative_names_plain requested) as Hp.
  unfold components_of. rewrite (bool_decide_false _ H0).
  destruct (relative_names (components requested)) as [names|e]; cbn [ok_part] in Heq; case_bool_decide; try done; try by eexists.
  - symmetry in Heq. apply ok_part_Some in Heq. split_and!; [done|by apply Hp|].
    intros n Hn Hb. apply H0. eapply split_slash_bytes; [|done]. by eapply keep_segments_sub.
  - destruct (keep_segments _) as [?|e']; [done|by exists e'].
Qed.

Lemma join_nil names : Forall plain_name names -> join_names names = [] <-> names = [].
Proof.
  intros Hp. split; [|by intros ->]. destruct names as [|n rest]; [done|]. apply Forall_cons in Hp as [(Hne & _) _].
  by destruct n, rest.
Qed.

(** The two lexical checks a requested path passes through agree: the check in
    front of the workspace operations and the walker's own parsing accept the same
    paths and name the same entries, for reading and for writing. The path handed
    on (the names joined again) walks to the entry the request names, so nothing is
    reinterpreted between the two; and a path the first check refuses (absolute,
    with [..] or NUL, or, for a write, ending in [.] or naming the root) the walker
    would have refused too. *)
Theorem path_checks_agree requested :
  match workspace_relative_path requested ReadExisting with
  | Ok relative => exists names, components_of requested = Ok names /\ components_of relative = Ok names
  | Err _ => exists e, components_of requested = Err e
  end /\
  match workspace_relative_path requested WriteOrCreate with
  | Ok relative => exists parents n,
      entry_components requested = Ok (parents, n) /\ entry_components relative = Ok (parents, n)
  | Err _ => exists e, entry_components requested = Err e
  end.
Proof.
  unfold workspace_relative_path. destruct (decide (0 ∈ requested)) as [H0|H0].
  - rewrite (bool_decide_true _ H0). unfold entry_components, components_of. rewrite (bool_decide_true _ H0).
    split; [by eexists|]. by destruct (_ || _); eexists.
  - rewrite (bool_decide_false _ H0). pose proof (checked_names requested H0) as Hn. unfold entry_components at 1 3.
    destruct (relative_names (components requested)) as [names|e]; cbn [rbind].
    2: { split; [done|]. destruct Hn as [e' ->]. by destruct (_ || _); eexists. }
    destruct Hn as (Hc & Hp & Hz). rewrite Hc. cbn [rbind]. split.
    { exists names. split; [done|by apply components_of_join]. }
    rewrite (bool_decide_ext _ _ (join_nil names Hp)).
    destruct names as [|n names _] using rev_ind; [by destruct (_ || _); eexists|].
    rewrite (bool_decide_false (names ++ [n] = [])) by (by destruct names).
    destruct (_ || _); [by eexists|]. rewrite last_snoc, removelast_last. exists names, n.
    split; [done|by apply entry_components_join].
Qed.

(** The absolute form of a write loses its final [.] before the check that refuses
    one: [strip_prefix] trims it. *)
Lemma anchored_write_final_dot :
  let anchor := mkAnchor 1 [[119]] (Follow true) in
  let requested := [SLASH; 119; SLASH; 97; SLASH; DOT] in
  anchored_relative_path anchor [SLASH; 119] requested WriteOrCreate = Ok [97] /\
  exists e, workspace_relative_path [97; SLASH; DOT] WriteOrCreate = Err e.
Proof. split; [reflexivity|by eexists]. Qed.

(** An absolute request is answered relative to the root whichever of its two
    spellings it uses, and with the names below it. *)
Lemma anchored_relative_below anchor configured requested intent relative :
  anchored_relative_path anchor configured requested intent = Ok relative ->
  exists root rest names, components requested = root ++ rest /\
    (root = RootDir :: (Normal <$> a_path anchor) \/ root = components configured) /\
    relative = join_names names /\ Forall plain_name names.
Proof.
  assert (forall front path rest, strip_components front path = Some rest -> path = front ++ rest) as Hstrip.
  { induction front as [|p front IH]; intros path rest; cbn [strip_components]; [by intros [= ->]|].
    destruct p, path as [|[] path]; try done; try (case_bool_decide; [|done]); intros ->%IH; by simplify_eq. }
  assert (forall raw, workspace_relative_path raw intent = Ok relative ->
    exists names, relative = join_names names /\ Forall plain_name names) as Hrel.
  { intros raw. unfold workspace_relative_path. case_bool_decide; [done|]. pose proof (relative_names_plain raw) as Hp.
    destruct (relative_names (components raw)) as [names|]; [|done]. cbn [rbind]. intros H'. exists names.
    split; [|by apply Hp]. destruct intent; [by simplify_eq|]. repeat (destruct (_ : bool); [done|]). by simplify_eq. }
  unfold anchored_relative_path. destruct (negb _); [done|].
  destruct (strip_components (RootDir :: _) _) as [rest|] eqn:E1.
  - intros (names & -> & Hp)%Hrel. apply Hstrip in E1. by exists (RootDir :: (Normal <$> a_path anchor)), rest, names; auto.
  - destruct (strip_components (components configured) _) as [rest|] eqn:E2; [|done].
    intros (names & -> & Hp)%Hrel. apply Hstrip in E2. by exists (components configured), rest, names; auto.
Qed.
