(* ===== verification/AuthStore.v ===== *)
(** API keys (src/src/auth.rs) and their tables (src/src/state/auth.rs): key
    verifiers, the stored pair of session and admin verifiers, its creation,
    rotation and start-up check, and the rows that record failed
    authentications.

    SHA-256, base64 and the JSON writer are other crates' and are parameters;
    random bytes, ids and clock readings are arguments. *)

From S2P Require Import Prelude Text Store SinkOutbox Keyset Redaction HttpHardening.
Open Scope Z_scope.
Open Scope result_scope.

Definition API_KEY_PREFIX : str := lit "acps_".
Definition AUTH_VERIFIER_ALGORITHM : string := "sha256-v1".
Definition AUTH_VERIFIER_SALT_BYTES : nat := 32.
Definition AUTH_VERIFIER_DIGEST_BYTES : nat := 32.

Inductive KeyKind := Session | Admin | Local | Unknown.

#[export] Instance KeyKind_eq_dec : EqDecision KeyKind.
Proof. solve_decision. Defined.

Definition kind_wire_str (k : KeyKind) : string :=
  match k with
  | Session => "session"
  | Admin => "admin"
  | Local => "local"
  | Unknown => "unknown"
  end.

Inductive AuthFailureReason := Missing | Invalid | WrongKind | MalformedHeader.

Definition reason_wire_str (r : AuthFailureReason) : string :=
  match r with
  | Missing => "missing"
  | Invalid => "invalid"
  | WrongKind => "wrong_kind"
  | MalformedHeader => "malformed_header"
  end.

(** SHA-256 and the unpadded URL-safe base64 alphabet. *)
Class AuthCrypto := {
  sha256 : list Z -> list Z;
  base64_encode : list Z -> str;
  base64_decode : str -> option (list Z);
  sha256_length : forall bytes, length (sha256 bytes) = AUTH_VERIFIER_DIGEST_BYTES;
  base64_decode_encode : forall bytes, base64_decode (base64_encode bytes) = Some bytes;
}.

Definition constant_time_eq (left right : list Z) : bool :=
  if negb (length left =? length right)%nat then false else bool_decide (left = right).

Record AuthVerifier := mkVerifier {
  av_key_kind : KeyKind;
  av_algorithm : string;
  av_salt : list Z;
  av_digest : list Z;
}.

Record AuthVerifierSet := mkVerifiers { avs_session : AuthVerifier; avs_admin : AuthVerifier }.

Inductive AuthVerifierEnsureOutcome := Preserved | BackfilledLegacySecrets | MissingKeys.

Record LegacyAuthConfig := mkLegacyAuth { session_key_ref : string; admin_key_ref : string }.

Section keys.
Context `{AuthCrypto}.

Definition generate_api_key (entropy : list Z) : str := API_KEY_PREFIX ++ base64_encode entropy.

Definition digest_key (salt : list Z) (plaintext : str) : list Z := sha256 (salt ++ as_bytes plaintext).

Definition create_verifier (kind : KeyKind) (salt : list Z) (plaintext : str) : AuthVerifier :=
  mkVerifier kind AUTH_VERIFIER_ALGORITHM salt (digest_key salt plaintext).

Definition decode_verifier_part (field : string) (encoded : str) (expected_len : nat) : result StackError (list Z) :=
  match base64_decode encoded with
  | None => Err (InvalidParam field)
  | Some decoded => if negb (length decoded =? expected_len)%nat then Err (InvalidParam field) else Ok decoded
  end.

Definition from_encoded (kind : KeyKind) (algorithm : string) (salt digest : str) : result StackError AuthVerifier :=
  if negb (bool_decide (algorithm = AUTH_VERIFIER_ALGORITHM)) then Err (InvalidParam "auth_keys.algorithm")
  else
    let? salt := decode_verifier_part "auth_keys.salt" salt AUTH_VERIFIER_SALT_BYTES in
    let? digest := decode_verifier_part "auth_keys.digest" digest AUTH_VERIFIER_DIGEST_BYTES in
    Ok (mkVerifier kind algorithm salt digest).

Definition verify_key (v : AuthVerifier) (plaintext : str) : bool :=
  constant_time_eq (digest_key (av_salt v) plaintext) (av_digest v).

Definition encoded_salt (v : AuthVerifier) : str := base64_encode (av_salt v).
Definition encoded_digest (v : AuthVerifier) : str := base64_encode (av_digest v).

Definition create_verifiers (session_salt admin_salt : list Z) (session_key admin_key : str) : AuthVerifierSet :=
  mkVerifiers (create_verifier Session session_salt session_key) (create_verifier Admin admin_salt admin_key).

Definition verify (set : AuthVerifierSet) (bearer : str) : option KeyKind :=
  if verify_key (avs_session set) bearer then Some Session
  else if verify_key (avs_admin set) bearer then Some Admin
  else None.

(** ** The [auth_keys] table *)

Definition get_auth_key (kind : KeyKind) : M (option AuthKeyRecord) :=
  gets (fun st => st_auth_keys st !! kind_wire_str kind).

Definition auth_key_record_to_verifier (kind : KeyKind) (r : AuthKeyRecord) : result StackError AuthVerifier :=
  from_encoded kind (ak_algorithm r) (ak_salt r) (ak_digest r).

Definition lift {A} (r : result StackError A) : M A :=
  match r with Ok a => ret a | Err e => fail e end.

Definition load_auth_verifier_pair : M AuthVerifierSet :=
  let* session := get_auth_key Session in
  let* session := match session with Some r => ret r | None => fail (MissingField "auth_keys.session") end in
  let* admin := get_auth_key Admin in
  let* admin := match admin with Some r => ret r | None => fail (MissingField "auth_keys.admin") end in
  let* session := lift (auth_key_record_to_verifier Session session) in
  let* admin := lift (auth_key_record_to_verifier Admin admin) in
  ret (mkVerifiers session admin).

Definition auth_key_pair_present : M bool :=
  let* session := get_auth_key Session in
  let* admin := get_auth_key Admin in
  match session, admin with
  | Some _, Some _ => load_auth_verifier_pair ;; ret true
  | _, _ => ret false
  end.

(** The CHECK on [key_kind] and the table's primary key. *)
Definition check_kind (kind : KeyKind) : M unit :=
  match kind with Session | Admin => ret tt | Local | Unknown => fail Sqlite end.

Definition put_auth_key (kind : KeyKind) (r : AuthKeyRecord) : M unit :=
  modify (fun st => set_auth_keys (<[kind_wire_str kind := r]> (st_auth_keys st)) st).

Definition upsert_auth_key (kind : KeyKind) (v : AuthVerifier) (now : string) : M AuthKeyRecord :=
  let* existing := get_auth_key kind in
  let created_at := match existing with Some r => ak_created_at r | None => now end in
  let record := mkAuthKey (kind_wire_str kind) (av_algorithm v) (encoded_salt v) (encoded_digest v) created_at now in
  check_kind kind ;;
  put_auth_key kind record ;;
  ret record.

Definition upsert_auth_key_in_transaction (kind : KeyKind) (v : AuthVerifier) (now : string) : M unit :=
  check_kind kind ;;
  let* existing := get_auth_key kind in
  put_auth_key kind (mkAuthKey (kind_wire_str kind) (av_algorithm v) (encoded_salt v) (encoded_digest v)
    (match existing with Some r => ak_created_at r | None => now end) now).

Definition insert_auth_key_in_transaction (kind : KeyKind) (v : AuthVerifier) (now : string) : M unit :=
  check_kind kind ;;
  let* existing := get_auth_key kind in
  match existing with
  | Some _ => fail Sqlite
  | None =>
      put_auth_key kind (mkAuthKey (kind_wire_str kind) (av_algorithm v) (encoded_salt v) (encoded_digest v) now now)
  end.

Definition insert_auth_key_pair (set : AuthVerifierSet) (now : string) : M unit :=
  insert_auth_key_in_transaction Session (avs_session set) now ;;
  insert_auth_key_in_transaction Admin (avs_admin set) now.

Definition replace_auth_key_pair (set : AuthVerifierSet) (now : string) : M unit :=
  upsert_auth_key_in_transaction Session (avs_session set) now ;;
  upsert_auth_key_in_transaction Admin (avs_admin set) now.

(** [open_secrets] is [SecretStore::open(home)] with [get] on the opened store;
    the two salts are random. *)
Definition ensure_auth_verifier_pair (legacy_auth : option LegacyAuthConfig)
    (open_secrets : result StackError (string -> result StackError str))
    (session_salt admin_salt : list Z) (now : string) : M AuthVerifierEnsureOutcome :=
  let* session := get_auth_key Session in
  let* admin := get_auth_key Admin in
  match session, admin with
  | Some _, Some _ => load_auth_verifier_pair ;; ret Preserved
  | Some _, None => fail (MissingField "auth_keys.admin")
  | None, Some _ => fail (MissingField "auth_keys.session")
  | None, None =>
      match legacy_auth with
      | None => ret MissingKeys
      | Some legacy_auth =>
          let* get := lift open_secrets in
          let* session_key := lift (get (session_key_ref legacy_auth)) in
          let* admin_key := lift (get (admin_key_ref legacy_auth)) in
          insert_auth_key_pair (create_verifiers session_salt admin_salt session_key admin_key) now ;;
          ret BackfilledLegacySecrets
      end
  end.

End keys.

(** ** The [auth_failures] table *)

Definition json_option (o : option str) : Value := match o with Some s => VString s | None => VNull end.

Definition origin_as_json (o : RequestOrigin) : Value :=
  VObject [(lit "origin_kind", VString (origin_kind o)); (lit "proxy_provider", json_option (proxy_provider o));
           (lit "client_ip", json_option (ro_client_ip o)); (lit "country_code", json_option (country_code o));
           (lit "region_code", json_option (region_code o)); (lit "region_name", json_option (region_name o));
           (lit "cloudflare_ray_id", json_option (cloudflare_ray_id o))].

Section failures.
(** [serde_json]'s writer, and SQLite's [json_valid]. *)
Context (to_json : Value -> str) (json_valid : str -> bool) (external : bool).

Definition append_auth_failure (key_kind reason : string) (client_ip route : option str) (payload_json : str)
    (new_id now : string) : M AuthFailure :=
  if negb (json_valid payload_json) then fail InvalidAuthFailurePayload
  else
    let failure := mkAuthFailure new_id now key_kind reason client_ip route payload_json in
    persist_with_outbox external "auth_failures" new_id now
      (let* failures := gets st_auth_failures in
       match failures !! new_id with
       | Some _ => fail Sqlite
       | None => modify (fun st => set_auth_failures (<[new_id := failure]> (st_auth_failures st)) st)
       end) ;;
    ret failure.

Definition record_auth_failure_with_origin (kind : KeyKind) (reason : AuthFailureReason)
    (client_ip route : option str) (origin : option RequestOrigin) (new_id now : string) : M AuthFailure :=
  let payload :=
    [(lit "key_kind", VString (lit (kind_wire_str kind))); (lit "reason", VString (lit (reason_wire_str reason)));
     (lit "client_ip", json_option client_ip); (lit "route", json_option route)]
    ++ match origin with Some o => [(lit "origin", origin_as_json o)] | None => [] end in
  append_auth_failure (kind_wire_str kind) (reason_wire_str reason) client_ip route (to_json (VObject payload)) new_id now.

Definition record_auth_failure (kind : KeyKind) (reason : AuthFailureReason) (client_ip route : option str)
    (new_id now : string) : M AuthFailure :=
  record_auth_failure_with_origin kind reason client_ip route None new_id now.
End failures.

Record AuthFailureFilter := mkFailureFilter {
  aff_limit : nat;
  aff_after_id : option string;
  aff_since : option string;
  aff_until : option string;
  aff_order : LogOrder;
}.

Definition failure_key (f : AuthFailure) : string * string := (af_created_at f, af_id f).

(** The two time bounds, then the cursor row looked up by id: a missing row
    compares as NULL and nothing passes. *)
Definition failure_in_range (filter : AuthFailureFilter) (f : AuthFailure) : bool :=
  match aff_since filter with Some since => String.leb since (af_created_at f) | None => true end
  && match aff_until filter with Some until => String.ltb (af_created_at f) until | None => true end.

Definition failure_past_cursor (failures : gmap string AuthFailure) (filter : AuthFailureFilter) (f : AuthFailure) : bool :=
  match aff_after_id filter with
  | None => true
  | Some after =>
      match failures !! after with
      | Some c => past failure_key (aff_order filter) c f
      | None => false
      end
  end.

Definition query_auth_failures (filter' : AuthFailureFilter) (st : Store) : list AuthFailure :=
  take (aff_limit filter')
    (direction failure_key (aff_order filter')
      (filter (fun f => failure_in_range filter' f && failure_past_cursor (st_auth_failures st) filter' f = true)
        (map_to_list (st_auth_failures st)).*2)).

Definition count_auth_failures_since (since : string) (st : Store) : nat :=
  length (filter (fun f => String.leb since (af_created_at f) = true) (map_to_list (st_auth_failures st)).*2).

(** ** Verifiers *)

Lemma constant_time_eq_spec a b : constant_time_eq a b = true <-> a = b.
Proof.
  unfold constant_time_eq. destruct (Nat.eqb_spec (length a) (length b)) as [|Hne]; simpl.
  - apply bool_decide_eq_true.
  - split; [done|]. congruence.
Qed.

Section verifiers.
Context `{AuthCrypto}.

(** What [create] makes of a 32-byte salt, and [from_encoded] lets through. *)
Definition well_made (kind : KeyKind) (v : AuthVerifier) : Prop :=
  av_key_kind v = kind /\ av_algorithm v = AUTH_VERIFIER_ALGORITHM
  /\ length (av_salt v) = AUTH_VERIFIER_SALT_BYTES /\ length (av_digest v) = AUTH_VERIFIER_DIGEST_BYTES.

Definition well_made_set (set : AuthVerifierSet) : Prop :=
  well_made Session (avs_session set) /\ well_made Admin (avs_admin set).

Lemma create_verifier_well_made kind salt key :
  length salt = AUTH_VERIFIER_SALT_BYTES -> well_made kind (create_verifier kind salt key).
Proof. intros Hs. repeat split; [done|]. apply sha256_length. Qed.

Lemma create_verifiers_well_made s a sk ak :
  length s = AUTH_VERIFIER_SALT_BYTES -> length a = AUTH_VERIFIER_SALT_BYTES ->
  well_made_set (create_verifiers s a sk ak).
Proof. intros Hs Ha. split; by apply create_verifier_well_made. Qed.

Lemma decode_encode_part field bytes n :
  length bytes = n -> decode_verifier_part field (base64_encode bytes) n = Ok bytes.
Proof. intros Hl. unfold decode_verifier_part. by rewrite base64_decode_encode, Hl, Nat.eqb_refl. Qed.

(** The encoded columns read back as the verifier. *)
Lemma from_encoded_roundtrip kind v :
  well_made kind v ->
  from_encoded kind (av_algorithm v) (encoded_salt v) (encoded_digest v) = Ok v.
Proof.
  destruct v as [k a s d]. intros (Hk & Ha & Hs & Hd). simpl in *. unfold from_encoded. simpl.
  rewrite bool_decide_eq_true_2 by done. simpl. unfold encoded_salt, encoded_digest. simpl.
  rewrite (decode_encode_part _ _ _ Hs). simpl. rewrite (decode_encode_part _ _ _ Hd). simpl. by subst.
Qed.

Lemma verify_key_spec v key : verify_key v key = true <-> digest_key (av_salt v) key = av_digest v.
Proof. apply constant_time_eq_spec. Qed.

Lemma verify_created s a sk ak bearer :
  verify (create_verifiers s a sk ak) bearer
  = if bool_decide (digest_key s bearer = digest_key s sk) then Some Session
    else if bool_decide (digest_key a bearer = digest_key a ak) then Some Admin else None.
Proof.
  unfold verify, create_verifiers, create_verifier. simpl.
  assert (Hv : forall k salt key, verify_key (mkVerifier k AUTH_VERIFIER_ALGORITHM salt (digest_key salt key)) bearer
    = bool_decide (digest_key salt bearer = digest_key salt key)).
  { intros k salt key. apply eq_true_iff_eq. rewrite verify_key_spec, bool_decide_eq_true. done. }
  by rewrite !Hv.
Qed.

(** ** The stored pair *)

(** Both rows are there and read back as [set]. *)
Definition stored_pair (st : Store) (set : AuthVerifierSet) : Prop := load_auth_verifier_pair st = Ok (set, st).

Definition row_of (kind : KeyKind) (v : AuthVerifier) (r : AuthKeyRecord) : Prop :=
  auth_key_record_to_verifier kind r = Ok v.

Lemma stored_pair_rows st set :
  stored_pair st set <-> exists rs ra,
    st_auth_keys st !! "session"%string = Some rs /\ st_auth_keys st !! "admin"%string = Some ra
    /\ row_of Session (avs_session set) rs /\ row_of Admin (avs_admin set) ra.
Proof.
  unfold stored_pair, load_auth_verifier_pair, row_of. split.
  - unfold bind, get_auth_key, gets, lift, ret, fail. simpl. intros E.
    repeat (case_match; simplify_eq/=). eauto 10.
  - intros (rs & ra & Es & Ea & Hs & Ha).
    unfold bind, gets, get_auth_key, ret, lift. simpl. rewrite Es, Ea, Hs, Ha. by destruct set.
Qed.

Lemma put_row kind v created now :
  well_made kind v ->
  row_of kind v (mkAuthKey (kind_wire_str kind) (av_algorithm v) (encoded_salt v) (encoded_digest v) created now).
Proof. intros Hw. unfold row_of, auth_key_record_to_verifier. simpl. by apply from_encoded_roundtrip. Qed.

Lemma replace_run set now st :
  exists st', replace_auth_key_pair set now st = Ok (tt, st')
    /\ (well_made_set set -> stored_pair st' set).
Proof.
  eexists. split; [reflexivity|]. intros [Hs Ha]. apply stored_pair_rows. simpl.
  do 2 eexists. rewrite lookup_insert_eq, lookup_insert_ne, lookup_insert_eq by done.
  split; [done|]. split; [done|]. split; by apply put_row.
Qed.

Lemma insert_run set now st :
  st_auth_keys st !! "session"%string = None -> st_auth_keys st !! "admin"%string = None ->
  exists st', insert_auth_key_pair set now st = Ok (tt, st')
    /\ (well_made_set set -> stored_pair st' set).
Proof.
  intros Es Ea. unfold insert_auth_key_pair, insert_auth_key_in_transaction, bind, check_kind, get_auth_key, gets, ret.
  simpl. rewrite Es. simpl. rewrite lookup_insert_ne, Ea by done. simpl.
  eexists. split; [reflexivity|]. intros [Hs Ha]. apply stored_pair_rows. simpl.
  do 2 eexists. rewrite lookup_insert_eq, lookup_insert_ne, lookup_insert_eq by done.
  split; [done|]. split; [done|]. split; by apply put_row.
Qed.

Lemma upsert_session_run v now st set :
  stored_pair st set -> well_made Session v ->
  exists r st', upsert_auth_key Session v now st = Ok (r, st') /\ stored_pair st' (mkVerifiers v (avs_admin set)).
Proof.
  intros (rs & ra & Es & Ea & Hs & Ha)%stored_pair_rows Hv.
  unfold upsert_auth_key, bind, get_auth_key, gets, check_kind, put_auth_key, modify, ret. simpl.
  do 2 eexists. split; [reflexivity|]. apply stored_pair_rows. simpl.
  do 2 eexists. rewrite lookup_insert_eq, lookup_insert_ne by done. split; [done|]. split; [done|].
  split; [by apply put_row|done].
Qed.

(** Rotating the keys always succeeds and takes effect as a pair: what is
    loaded afterwards, at once or after a restart, is exactly the new pair, under
    which the new session key is a session key, the new admin key an admin key
    (unless its digest collides with the session key's), and any other bearer,
    the replaced keys included, is refused unless its digest collides. *)
Theorem rotation_takes_effect session_salt admin_salt session_key admin_key now st :
  length session_salt = AUTH_VERIFIER_SALT_BYTES -> length admin_salt = AUTH_VERIFIER_SALT_BYTES ->
  let set := create_verifiers session_salt admin_salt session_key admin_key in
  exists st', replace_auth_key_pair set now st = Ok (tt, st')
    /\ load_auth_verifier_pair st' = Ok (set, st')
    /\ verify set session_key = Some Session
    /\ (digest_key session_salt admin_key <> digest_key session_salt session_key ->
        verify set admin_key = Some Admin)
    /\ (forall bearer, digest_key session_salt bearer <> digest_key session_salt session_key ->
        digest_key admin_salt bearer <> digest_key admin_salt admin_key -> verify set bearer = None).
Proof.
  intros Hs Ha set. destruct (replace_run set now st) as (st' & Hr & Hl).
  exists st'. split; [done|]. split; [by apply Hl, create_verifiers_well_made|].
  unfold set. split; [|split].
  - by rewrite verify_created, bool_decide_eq_true_2.
  - intros Hne. by rewrite verify_created, bool_decide_eq_false_2, bool_decide_eq_true_2.
  - intros bearer H1 H2. by rewrite verify_created, !bool_decide_eq_false_2.
Qed.

(** ** Histories of the key table *)

(** Everything that writes [auth_keys]: key generation and rotation by the
    wizard, the start-up check, and the daemon's session-key endpoint, which
    runs only after the daemon has loaded the pair. *)
Inductive key_write (st : Store) : Store -> Prop :=
| kw_insert s a sk ak now st' :
    length s = AUTH_VERIFIER_SALT_BYTES -> length a = AUTH_VERIFIER_SALT_BYTES ->
    insert_auth_key_pair (create_verifiers s a sk ak) now st = Ok (tt, st') -> key_write st st'
| kw_replace s a sk ak now st' :
    length s = AUTH_VERIFIER_SALT_BYTES -> length a = AUTH_VERIFIER_SALT_BYTES ->
    replace_auth_key_pair (create_verifiers s a sk ak) now st = Ok (tt, st') -> key_write st st'
| kw_ensure legacy secrets s a now o st' :
    length s = AUTH_VERIFIER_SALT_BYTES -> length a = AUTH_VERIFIER_SALT_BYTES ->
    ensure_auth_verifier_pair legacy secrets s a now st = Ok (o, st') -> key_write st st'
| kw_regenerate loaded s sk now r st' :
    stored_pair st loaded -> length s = AUTH_VERIFIER_SALT_BYTES ->
    upsert_auth_key Session (create_verifier Session s sk) now st = Ok (r, st') -> key_write st st'.

(** No row, or both and readable. *)
Definition paired (st : Store) : Prop :=
  (st_auth_keys st !! "session"%string = None /\ st_auth_keys st !! "admin"%string = None)
  \/ exists set, stored_pair st set.

Lemma insert_paired set now st st' :
  paired st -> well_made_set set -> insert_auth_key_pair set now st = Ok (tt, st') -> paired st'.
Proof.
  intros [[Es Ea]|[old (rs & ra & Es & _)%stored_pair_rows]] Hw E.
  - destruct (insert_run set now st Es Ea) as (st1 & E1 & Hl). rewrite E1 in E. simplify_eq.
    right. eauto.
  - unfold insert_auth_key_pair, insert_auth_key_in_transaction, bind, check_kind, get_auth_key, gets, ret, fail in E.
    simpl in E. by rewrite Es in E.
Qed.

Lemma key_write_paired st st' : paired st -> key_write st st' -> paired st'.
Proof.
  intros Hp [s a sk ak now st1 Hs Ha E|s a sk ak now st1 Hs Ha E|legacy secrets s a now o st1 Hs Ha E|
    loaded s sk now r st1 Hl Hs E].
  - eapply insert_paired; [done| |done]. by apply create_verifiers_well_made.
  - destruct (replace_run (create_verifiers s a sk ak) now st) as (st2 & E2 & Hr). rewrite E2 in E. simplify_eq.
    right. eexists. by apply Hr, create_verifiers_well_made.
  - unfold ensure_auth_verifier_pair in E.
    destruct Hp as [[Es Ea]|[old Hold]].
    + unfold bind, get_auth_key, gets in E. simpl in E. rewrite Es, Ea in E.
      destruct legacy as [l|]; [|unfold ret in E; simplify_eq; by left].
      unfold lift, ret, fail in E. repeat (case_match; simplify_eq/=).
      match goal with E : insert_auth_key_pair _ _ _ = Ok (?u, _) |- _ =>
        destruct u; eapply insert_paired; [by left| |exact E] end.
      by apply create_verifiers_well_made.
    + pose proof Hold as (rs & ra & Es & Ea & _)%stored_pair_rows.
      unfold bind, get_auth_key, gets in E. simpl in E. rewrite Es, Ea in E.
      unfold stored_pair in Hold. rewrite Hold in E. unfold ret in E. simplify_eq. right. eauto.
  - destruct (upsert_session_run _ now st loaded Hl (create_verifier_well_made Session s sk Hs)) as (r2 & st2 & E2 & Hr).
    rewrite E2 in E. simplify_eq. right. eauto.
Qed.

(** Whatever sequence of key generations, rotations, start-up checks and
    session-key regenerations has run, the table never holds half a pair or a
    row that does not decode: the start-up check cannot end in the unrecoverable
    missing-half error, it reports that no key exists (leaving the table empty)
    or loads the pair. *)
Theorem key_pair_never_partial st secrets s a now :
  rtc key_write empty_store st ->
  (ensure_auth_verifier_pair None secrets s a now st = Ok (MissingKeys, st)
     /\ st_auth_keys st !! "session"%string = None /\ st_auth_keys st !! "admin"%string = None)
  \/ exists set, ensure_auth_verifier_pair None secrets s a now st = Ok (Preserved, st)
     /\ load_auth_verifier_pair st = Ok (set, st).
Proof.
  intros Hr. assert (Hp : paired st).
  { assert (H0 : paired empty_store) by (left; split; apply lookup_empty).
    revert H0. induction Hr as [|x y z Hs _ IH]; [done|]. intros Hx. by apply IH, (key_write_paired x). }
  unfold ensure_auth_verifier_pair, bind, get_auth_key, gets. simpl.
  destruct Hp as [[Es Ea]|[set Hset]].
  - left. by rewrite Es, Ea.
  - right. exists set. pose proof Hset as (rs & ra & Es & Ea & _)%stored_pair_rows. rewrite Es, Ea.
    unfold stored_pair in Hset. by rewrite Hset.
Qed.
End verifiers.

(** ** A failure leaves its row *)

Section failure_rows.
Context (to_json : Value -> str) (json_valid : str -> bool) (external : bool).
Context (Hjson : forall v, json_valid (to_json v) = true).

(** The row of a recorded failure: its kind, reason, address and route. *)
Definition failure_row (kind : KeyKind) (reason : AuthFailureReason) (client_ip route : option str)
    (f : AuthFailure) : Prop :=
  af_key_kind f = kind_wire_str kind /\ af_reason f = reason_wire_str reason
  /\ af_client_ip f = client_ip /\ af_route f = route.

Lemma record_failure_run kind reason client_ip route origin id now st :
  match record_auth_failure_with_origin to_json json_valid external kind reason client_ip route origin id now st with
  | Ok (f, st') =>
      st_auth_failures st !! id = None
      /\ st_auth_failures st' = <[id := f]> (st_auth_failures st)
      /\ failure_row kind reason client_ip route f
      /\ (external = true -> exists o, st_outbox st' !! outbox_id "auth_failures" id = Some o /\ o_status o = OPending)
  | Err e => e = Sqlite
  end.
Proof.
  unfold record_auth_failure_with_origin, append_auth_failure. rewrite Hjson. simpl.
  unfold persist_with_outbox, enqueue_if, enqueue, bind, gets, modify, ret, fail. simpl.
  destruct (st_auth_failures st !! id) eqn:E; simpl; [done|].
  destruct external; simpl; repeat split; try done.
  intros _. rewrite lookup_enqueue_row, bool_decide_eq_true_2 by done.
  eexists. split; [reflexivity|]. by case_match.
Qed.
End failure_rows.

(** ** Pages of failures *)

Definition with_failure_page (limit : nat) (after : option string) (f : AuthFailureFilter) : AuthFailureFilter :=
  mkFailureFilter limit after (aff_since f) (aff_until f) (aff_order f).

(** Every failure in the time range, in the order asked for. *)
Definition all_failures (f : AuthFailureFilter) (st : Store) : list AuthFailure :=
  direction failure_key (aff_order f)
    (filter (fun x => failure_in_range f x = true) (map_to_list (st_auth_failures st)).*2).

(** The page after the row at position [k] starts at position [k + 1]. *)
Lemma failure_pages_resume f st limit k c :
  map_Forall (fun id x => af_id x = id) (st_auth_failures st) ->
  query_auth_failures (with_failure_page limit None f) st = take limit (all_failures f st)
  /\ (all_failures f st !! k = Some c ->
      query_auth_failures (with_failure_page limit (Some (af_id c)) f) st = take limit (drop (S k) (all_failures f st))).
Proof.
  intros Hids. unfold query_auth_failures, all_failures. cbn [aff_limit aff_order with_failure_page]. split.
  - do 2 f_equal. apply list_filter_iff. intros x. by rewrite andb_true_r.
  - intros Hk. f_equal.
    rewrite <- (direction_past failure_key _ _ _ _ (distinct_filter failure_key _ _ (rows_distinct failure_key _ Hids)) Hk).
    f_equal. rewrite list_filter_filter. apply list_filter_iff. intros x.
    assert (Hc : st_auth_failures st !! af_id c = Some c).
    { apply list_elem_of_lookup_2 in Hk. rewrite elem_of_direction in Hk.
      apply list_elem_of_filter in Hk as [_ ([id e] & -> & H%elem_of_map_to_list)%list_elem_of_fmap].
      simpl. by rewrite (Hids _ _ H). }
    unfold failure_past_cursor. simpl. rewrite Hc, andb_true_iff. unfold failure_in_range. simpl. tauto.
Qed.

(** ** Witnesses *)

(** A stand-in digest that keeps what follows the salt. *)
Definition demo_sha (bytes : list Z) : list Z := take 32 (drop 32 bytes ++ replicate 32 0).

Lemma demo_sha_length bytes : length (demo_sha bytes) = AUTH_VERIFIER_DIGEST_BYTES.
Proof. unfold demo_sha, AUTH_VERIFIER_DIGEST_BYTES. rewrite length_take, length_app, length_replicate. lia. Qed.

Definition demo_crypto : AuthCrypto := {|
  sha256 := demo_sha;
  base64_encode := fun bytes => bytes;
  base64_decode := Some;
  sha256_length := demo_sha_length;
  base64_decode_encode := fun bytes => eq_refl;
|}.

Lemma rotation_takes_effect_witness :
  exists st', replace_auth_key_pair (H := demo_crypto)
      (create_verifiers (H := demo_crypto) (replicate 32 1) (replicate 32 2) (lit "acps_s") (lit "acps_a")) "t" empty_store = Ok (tt, st')
    /\ verify (H := demo_crypto)
         (create_verifiers (H := demo_crypto) (replicate 32 1) (replicate 32 2) (lit "acps_s") (lit "acps_a")) (lit "acps_a") = Some Admin.
Proof.
  destruct (rotation_takes_effect (H := demo_crypto) (replicate 32 1) (replicate 32 2) (lit "acps_s") (lit "acps_a") "t"
    empty_store eq_refl eq_refl) as (st' & Hr & _ & _ & Ha & _).
  exists st'. split; [exact Hr|]. apply Ha. vm_compute. discriminate.
Defined.

Lemma key_pair_never_partial_witness :
  exists st set, rtc (key_write (H := demo_crypto)) empty_store st
    /\ ensure_auth_verifier_pair (H := demo_crypto) None (Ok (fun _ => Ok [])) [] [] "t" st = Ok (Preserved, st)
    /\ load_auth_verifier_pair (H := demo_crypto) st = Ok (set, st).
Proof.
  pose (set := create_verifiers (H := demo_crypto) (replicate 32 1) (replicate 32 2) (lit "acps_s") (lit "acps_a")).
  destruct (replace_run (H := demo_crypto) set "t" empty_store) as (st & Hr & Hw).
  assert (Hrtc : rtc (key_write (H := demo_crypto)) empty_store st).
  { apply rtc_once. exact (kw_replace (H := demo_crypto) empty_store (replicate 32 1) (replicate 32 2)
      (lit "acps_s") (lit "acps_a") "t" st eq_refl eq_refl Hr). }
  destruct (key_pair_never_partial (H := demo_crypto) st (Ok (fun _ => Ok [])) [] [] "t" Hrtc) as [(_ & Hn & _)|(set' & He & Hl)].
  - exfalso. specialize (Hw (create_verifiers_well_made (H := demo_crypto) (replicate 32 1) (replicate 32 2) _ _ eq_refl eq_refl)).
    apply stored_pair_rows in Hw as (rs & ra & Es & _). congruence.
  - exists st, set'. auto.
Defined.
