(* ===== verification/ApiAuth.v ===== *)
(** Request authentication (src/src/api/auth.rs): the middleware every request of
    the TCP API passes, from the address check to the tier of the key, and the
    endpoint that regenerates the session key (src/src/api/routes/auth.rs).

    A middleware is a function from the inner service to a service; a service
    takes a request to a program ([Async]), whose atomic actions are the lock
    acquisitions of the blocker, the limiter and the verifiers, and the database
    writes. Requests interleave at any of them. *)

From S2P Require Import Prelude Text Store SinkOutbox SessionEvents Redaction Duration HttpHardening Async AuthStore.
Open Scope Z_scope.
Open Scope result_scope.
Open Scope proc_scope.

Definition REQUEST_ID_MAX_BYTES : nat := 128.
Definition REQUEST_ID_REJECTED_CHARS : list char := [32; 9; dquote; backslash].
Definition EVENT_SOURCE_API : string := "api".
Definition EVENT_SOURCE_LOCAL : string := "local".

(** The bytes of a text, as a column of the database holds them. *)
Definition utf8 (s : str) : string :=
  String.string_of_list_ascii (map (fun b => Ascii.ascii_of_N (Z.to_N b)) (as_bytes s)).

(** ** Responses *)

(** [r_report]: [reject_with_report] attached an internal account; [r_json]: the
    content type is JSON. [r_tier] marks an answer of the route's handler with
    the tier the handler ran under; a layer's own response has none. *)
Record Response := mkResponse {
  r_status : Z;
  r_code : string;
  r_message : string;
  r_report : bool;
  r_json : bool;
  r_tier : option KeyKind;
}.

Definition reject (status : Z) (code message : string) : Response := mkResponse status code message false true None.
Definition reject_with_report (status : Z) (code message : string) : Response :=
  mkResponse status code message true true None.

Definition error_code_for_status (status : Z) : string :=
  if status =? 400 then "request.invalid"
  else if status =? 401 then "auth.invalid"
  else if status =? 403 then "auth.forbidden"
  else if status =? 404 then "request.not_found"
  else if status =? 405 then "request.method_not_allowed"
  else if status =? 413 then "request.too_large"
  else if status =? 415 then "request.unsupported_media_type"
  else if in_range 500 599 status then "server.internal_error"
  else "request.rejected".

Definition message_for_status (status : Z) : string :=
  if status =? 400 then "bad request"
  else if status =? 401 then "authentication required"
  else if status =? 403 then "forbidden"
  else if status =? 404 then "not found"
  else if status =? 405 then "method not allowed"
  else if status =? 413 then "request body exceeds configured size limit"
  else if status =? 415 then "unsupported media type"
  else if in_range 500 599 status then "internal server error"
  else "request rejected".

Definition event_source_for (kind : option KeyKind) : string :=
  match kind with Some Local => EVENT_SOURCE_LOCAL | _ => EVENT_SOURCE_API end.

Definition should_skip_api_request_log (path : str) : bool :=
  str_eqb path (lit "/v1/ws") || str_eqb path (lit "/v1/health/live") || str_eqb path (lit "/v1/health/ready")
  || str_eqb path (lit "/v1/sessions/-/status") || str_eqb path (lit "/v1/sessions/-/changes")
  || starts_with (lit "/v1/status") path.

Definition is_acceptable_request_id (value : option str) : bool :=
  match value with
  | None => false
  | Some text => negb (bool_decide (text = [])) && (str_len text <=? REQUEST_ID_MAX_BYTES)%nat
                 && negb (existsb (one_of REQUEST_ID_REJECTED_CHARS) text)
  end.

Definition parse_bearer (header : option str) : option str :=
  text ← header;
  rest ← strip_prefix (lit "Bearer ") text;
  if bool_decide (rest = []) || existsb is_whitespace rest then None else Some rest.

(** [map.insert(key, ..)] on a payload without that key. *)
Definition payload_with_origin (payload : list (str * Value)) (origin : RequestOrigin) : Value :=
  let key := if existsb (fun f => str_eqb f.1 (lit "origin")) payload then lit "request_origin" else lit "origin" in
  VObject (payload ++ [(key, origin_as_json origin)]).

(** [format!("{byte:02x}")]. *)
Definition hex_digit (n : Z) : char := if n <? 10 then 48 + n else 87 + n.
Definition hex_byte (b : Z) : str := [hex_digit (b / 16); hex_digit (b mod 16)].

Section api.
Context `{IpText IpAddr} `{AuthCrypto}.
(** The configuration, the body limit of the router, which configured origins
    are header values, the JSON writer, SQLite's [json_valid], and whether rows
    are mirrored. *)
Context (config : HttpConfig) (max_request_bytes : Z) (origin_parses : str -> bool).
Context (to_json : Value -> str) (json_valid : string -> bool) (external : bool).

(** The parts of [AppState] the middleware shares, and the detached writes that
    have not run yet. *)
Record App := mkApp {
  app_store : Store;
  app_blocker : AuthFailureBlocker IpAddr;
  app_limiter : RateLimiter IpAddr;
  app_verifiers : AuthVerifierSet;
  app_active : Z;
  app_detached : list (M unit);
}.

(** What one action takes from outside: two readings of the monotonic clock, a
    fresh id, the time of day, whether the disk took the write, random bytes. *)
Record Env := mkEnv {
  e_now : Z;
  e_later : Z;
  e_fresh : string;
  e_timestamp : string;
  e_disk : bool;
  e_random : list Z;
}.

Notation Prog := (Proc Env App).

Definition set_store v s := mkApp v (app_blocker s) (app_limiter s) (app_verifiers s) (app_active s) (app_detached s).
Definition set_blocker v s := mkApp (app_store s) v (app_limiter s) (app_verifiers s) (app_active s) (app_detached s).
Definition set_limiter v s := mkApp (app_store s) (app_blocker s) v (app_verifiers s) (app_active s) (app_detached s).
Definition set_verifiers v s := mkApp (app_store s) (app_blocker s) (app_limiter s) v (app_active s) (app_detached s).
Definition set_active v s := mkApp (app_store s) (app_blocker s) (app_limiter s) (app_verifiers s) v (app_detached s).
Definition set_detached v s := mkApp (app_store s) (app_blocker s) (app_limiter s) (app_verifiers s) (app_active s) v.

Record Request := mkRequest {
  rq_headers : string -> list (option str);
  rq_method : string;
  rq_path : str;
  rq_matched_path : option str;
  rq_peer : option IpAddr;
  rq_kind : option KeyKind;
}.

Definition with_kind (kind : KeyKind) (req : Request) : Request :=
  mkRequest (rq_headers req) (rq_method req) (rq_path req) (rq_matched_path req) (rq_peer req) (Some kind).

Notation Service := (Request -> Prog Response) (only parsing).

(** ** The shared state, one action each *)

(** [state.write(job).await]. *)
Definition write {A} (job : string -> string -> M A) : Prog (result StackError A) :=
  atomic (fun e s =>
    if e_disk e then
      match job (e_fresh e) (e_timestamp e) (app_store s) with
      | Ok (a, st) => (Ok a, set_store st s)
      | Err err => (Err err, s)
      end
    else (Err Sqlite, s)).

Definition write_detached (job : string -> string -> M unit) : Prog unit :=
  atomic (fun e s => (tt, set_detached (app_detached s ++ [job (e_fresh e) (e_timestamp e)]) s)).

(** [auth_failure_blocker.check(ip)]: its two locks. *)
Definition blocker_check (ip : IpAddr) : Prog (option Z) :=
  let% r := atomic (fun e s => ((check_read ip (e_now e) (app_blocker s), e_now e), s)) in
  match r with
  | (CheckFree, _) => Done None
  | (CheckBlocked until, _) => Done (Some until)
  | (CheckElapsed, now) =>
      atomic (fun _ s => (tt, set_blocker (check_clear ip now (app_blocker s)) s)) ;% Done None
  end.

Definition blocker_record_failure (ip : IpAddr) : Prog bool :=
  atomic (fun e s =>
    let (tripped, b) := record_failure ip (e_now e) (e_later e) (app_blocker s) in (tripped, set_blocker b s)).

Definition blocker_record_success (ip : IpAddr) : Prog unit :=
  atomic (fun _ s => (tt, set_blocker (record_success ip (app_blocker s)) s)).

Definition limit (f : Z -> RateLimiter IpAddr -> result RateLimitScope unit * RateLimiter IpAddr)
  : Prog (result RateLimitScope unit) :=
  atomic (fun e s => let (r, l) := f (e_now e) (app_limiter s) in (r, set_limiter l s)).

Definition clock : Prog Z := atomic (fun e s => (e_now e, s)).

(** [state.auth_verifiers.read().await.verify(&bearer)]. *)
Definition verify_bearer (bearer : str) : Prog (option KeyKind) :=
  atomic (fun _ s => (verify (app_verifiers s) bearer, s)).

(** ** Recording *)

Definition persist_security_event (source level kind message : string) (data : Value) : Prog unit :=
  let% _ := write (fun id now =>
    append_event_with_source json_valid external level kind source message (utf8 (to_json data)) id now ;; ret tt) in
  Done tt.

Definition key_fingerprint (key : str) : str := concat (map hex_byte (take 8 (sha256 (as_bytes key)))).

Definition persist_rate_limit_event (route : str) (ip : IpAddr) (scope : RateLimitScope)
    (fingerprint : option str) (origin : RequestOrigin) : Prog unit :=
  let payload :=
    [(lit "scope", VString (scope_as_str scope)); (lit "ip", VString (ip_to_string ip)); (lit "route", VString route)]
    ++ match fingerprint with Some fp => [(lit "key_fingerprint", VString fp)] | None => [] end in
  persist_security_event EVENT_SOURCE_API "warn" "security.rate_limited" "rate limit exceeded"
    (payload_with_origin payload origin).

Definition too_many : Response := reject 429 "auth.rate_limited" "rate limit exceeded".

Definition check_unauthenticated_rate (resolved_ip : option IpAddr) (route : str) (origin : RequestOrigin)
  : Prog (option Response) :=
  match resolved_ip with
  | None => Done None
  | Some ip =>
      let% r := limit (check_unauthenticated ip) in
      match r with
      | Ok _ => Done None
      | Err scope => persist_rate_limit_event route ip scope None origin ;% Done (Some too_many)
      end
  end.

(** [Err]: the response that fails closed. *)
Definition log_failure (kind : KeyKind) (reason : AuthFailureReason) (client_ip : option str)
    (origin : RequestOrigin) (route : str) : Prog (result Response unit) :=
  let% recorded := write (fun id now =>
    record_auth_failure_with_origin to_json (fun p => json_valid (utf8 p)) external kind reason client_ip (Some route)
      (Some origin) id now) in
  match recorded with
  | Err _ => Done (Err (reject_with_report 500 "state.error" "internal state error while recording auth failure"))
  | Ok _ =>
      match client_ip ≫= parse_ip with
      | None => Done (Ok tt)
      | Some ip =>
          let% tripped := blocker_record_failure ip in
          if tripped then
            let% block_secs := atomic (fun _ s => (block_duration (app_blocker s) / 1000000000, s)) in
            persist_security_event EVENT_SOURCE_API "warn" "security.ip_block_applied"
              "IP blocked due to repeated auth failures"
              (payload_with_origin
                [(lit "ip", json_option client_ip); (lit "block_duration_seconds", VNumber (decimal block_secs));
                 (lit "route", VString route)] origin) ;%
            Done (Ok tt)
          else Done (Ok tt)
      end
  end.

(** ** The middleware *)

(** A failed authentication: throttled, or recorded and answered with 401. *)
Definition fail_auth (resolved_ip : option IpAddr) (origin : RequestOrigin) (route : str)
    (reason : AuthFailureReason) (code message : string) : Prog Response :=
  let% throttled := check_unauthenticated_rate resolved_ip route origin in
  match throttled with
  | Some response => Done response
  | None =>
      let% logged := log_failure Unknown reason (ro_client_ip origin) origin route in
      match logged with
      | Ok _ => Done (reject 401 code message)
      | Err state_err => Done state_err
      end
  end.

(** From the [Authorization] headers on. *)
Definition authenticate_header (next : Service) (req : Request) (resolved_ip : option IpAddr) (origin : RequestOrigin)
  : Prog Response :=
  let route := rq_path req in
  match rq_headers req "authorization" with
  | [] => fail_auth resolved_ip origin route Missing "auth.missing" "missing Authorization header"
  | _ :: _ :: _ => fail_auth resolved_ip origin route MalformedHeader "auth.malformed_header"
                     "duplicate Authorization headers are not allowed"
  | [header] =>
      match parse_bearer header with
      | None => fail_auth resolved_ip origin route MalformedHeader "auth.malformed_header"
                  "Authorization header must be `Bearer <token>` with a single ASCII token"
      | Some bearer =>
          let% matched := verify_bearer bearer in
          match matched with
          | None => fail_auth resolved_ip origin route Invalid "auth.invalid" "invalid credential"
          | Some kind =>
              let fingerprint := key_fingerprint bearer in
              let% r := limit (check_per_key fingerprint) in
              match r with
              | Err scope =>
                  match resolved_ip with
                  | Some ip => persist_rate_limit_event route ip scope (Some fingerprint) origin ;% Done too_many
                  | None => Done too_many
                  end
              | Ok _ =>
                  match resolved_ip with
                  | Some ip => blocker_record_success ip ;% next (with_kind kind req)
                  | None => next (with_kind kind req)
                  end
              end
          end
      end
  end.

Definition ip_blocked : Response :=
  reject 429 "auth.ip_blocked" "IP temporarily blocked due to repeated auth failures".

Definition authenticate (next : Service) (req : Request) : Prog Response :=
  let route := rq_path req in
  let origin := request_origin (rq_headers req) (rq_peer req) config in
  match ro_client_ip origin ≫= parse_ip with
  | None => authenticate_header next req None origin
  | Some ip =>
      let% blocked := blocker_check ip in
      match blocked with
      | Some until =>
          let% now := clock in
          persist_security_event EVENT_SOURCE_API "warn" "security.ip_block_active" "blocked IP attempted auth"
            (payload_with_origin
              [(lit "ip", VString (ip_to_string ip));
               (lit "remaining_seconds", VNumber (decimal (Z.max 0 (until - now) / 1000000000)));
               (lit "route", VString route)] origin) ;%
          Done ip_blocked
      | None =>
          let% r := limit (check_per_ip ip) in
          match r with
          | Err scope => persist_rate_limit_event route ip scope None origin ;% Done too_many
          | Ok _ => authenticate_header next req (Some ip) origin
          end
      end
  end.

Definition enforce_tier (required : KeyKind) (next : Service) (req : Request) : Prog Response :=
  match rq_kind req with
  | Some kind =>
      if bool_decide (kind = required) then next req
      else
        let origin := request_origin (rq_headers req) (rq_peer req) config in
        let% logged := log_failure kind WrongKind (ro_client_ip origin) origin (rq_path req) in
        match logged with
        | Ok _ => Done (reject 401 "auth.wrong_kind" "presented key is not valid for this route")
        | Err state_err => Done state_err
        end
  | None => Done (reject_with_report 500 "auth.internal" "auth middleware misconfigured")
  end.

Definition require_session : Service -> Service := enforce_tier Session.
Definition require_admin : Service -> Service := enforce_tier Admin.

Definition track_active_requests (next : Service) (req : Request) : Prog Response :=
  atomic (fun _ s => (tt, set_active (app_active s + 1) s)) ;%
  let% response := next req in
  atomic (fun _ s => (tt, set_active (app_active s - 1) s)) ;%
  Done response.

Definition log_api_request (next : Service) (req : Request) : Prog Response :=
  let% started_at := clock in
  let origin := request_origin (rq_headers req) (rq_peer req) config in
  let path := default (rq_path req) (rq_matched_path req) in
  let% response := next req in
  if should_skip_api_request_log path || should_skip_api_request_log (rq_path req) then Done response
  else
    let% finished_at := clock in
    let duration_ms := Z.min (Z.max 0 (finished_at - started_at) / 1000000) i64_max in
    let payload := payload_with_origin
      [(lit "method", VString (lit (rq_method req))); (lit "path", VString path);
       (lit "status", VNumber (decimal (r_status response))); (lit "duration_ms", VNumber (decimal duration_ms));
       (lit "key_kind", match rq_kind req with Some k => VString (lit (kind_wire_str k)) | None => VNull end)] origin in
    write_detached (fun id now =>
      append_event_with_source json_valid external "info" "api.request" (event_source_for (rq_kind req)) ""
        (utf8 (to_json payload)) id now ;; ret tt) ;%
    Done response.

Definition screen_request_id (next : Service) (req : Request) : Prog Response :=
  let rejected := existsb (fun value => negb (is_acceptable_request_id value)) (rq_headers req "x-request-id") in
  next (if rejected
        then mkRequest (fun name => if bool_decide (name = "x-request-id"%string) then [] else rq_headers req name)
               (rq_method req) (rq_path req) (rq_matched_path req) (rq_peer req) (rq_kind req)
        else req).

(** The body of a rewrapped response is the envelope's; that a handler made the
    original stays on record. *)
Definition ensure_envelope (next : Service) (req : Request) : Prog Response :=
  let origin := request_origin (rq_headers req) (rq_peer req) config in
  let% response := next req in
  let status := r_status response in
  if negb (in_range 400 499 status) && negb (in_range 500 599 status) then Done response
  else if r_json response then Done response
  else
    (if status =? 413 then
       persist_security_event (event_source_for (rq_kind req)) "warn" "security.request_oversized"
         "rejected oversized request body"
         (payload_with_origin
           [(lit "route", VString (rq_path req)); (lit "method", VString (lit (rq_method req)));
            (lit "limit_bytes", VNumber (decimal max_request_bytes))] origin)
     else Done tt) ;%
    Done (mkResponse status (error_code_for_status status) (message_for_status status) false true (r_tier response)).

Definition enforce_http_origin (next : Service) (req : Request) : Prog Response :=
  if str_eqb (rq_path req) (lit "/v1/ws") then next req
  else
    let origin := header_text (rq_headers req) "origin" in
    if negb (origin_allowed origin (security_http config)) then
      persist_security_event EVENT_SOURCE_API "warn" "security.cors_origin_denied"
        "rejected HTTP request with disallowed Origin"
        (payload_with_origin
          [(lit "origin", VString (default [] origin)); (lit "route", VString (rq_path req));
           (lit "method", VString (lit (rq_method req)))]
          (request_origin (rq_headers req) (rq_peer req) config)) ;%
      Done (reject 403 "auth.origin_not_allowed" "Origin is not in the configured allowlist")
    else next req.

(** Whether [build_cors_layer] gives a layer. *)
Definition has_cors_layer (sec : SecurityHttpConfig) : bool :=
  match allowed_origins sec with
  | [] => false
  | origins => existsb (fun origin => str_eqb origin (lit "*")) origins || existsb origin_parses origins
  end.

(** The layers of [build_router] around a route of the session or the admin
    router, outermost first. *)
Definition build_router (tier : Service -> Service) (handler : Service) : Service :=
  let inner := authenticate (log_api_request (tier handler)) in
  let inner := if has_cors_layer (security_http config) then enforce_http_origin inner else inner in
  screen_request_id (ensure_envelope (track_active_requests inner)).

(** A handler that answers with a status and a content type; what it does to
    the shared state counts as another component's step. *)
Definition handler (answer : Request -> Z * bool) (req : Request) : Prog Response :=
  Done (mkResponse (answer req).1 "" "" false (answer req).2 (rq_kind req)).

(** [POST /v1/auth/session-key/regenerate]. *)
Definition auth_regenerate_session_key : Prog (result StackError str) :=
  let% new_key := atomic (fun e s => (generate_api_key (e_random e), s)) in
  let% verifier := atomic (fun e s => (create_verifier Session (e_random e) new_key, s)) in
  let% stored := write (fun _ now => upsert_auth_key Session verifier now ;; ret tt) in
  match stored with
  | Err err => Done (Err err)
  | Ok _ =>
      atomic (fun _ s => (tt, set_verifiers (mkVerifiers verifier (avs_admin (app_verifiers s))) s)) ;%
      Done (Ok new_key)
  end.

End api.
Arguments App IpAddr {_ _}.
Arguments Request IpAddr : clear implicits.

(** ** What the layers leave alone *)

Section safety.
Context `{IpText IpAddr} `{AuthCrypto}.
Context (config : HttpConfig) (max_request_bytes : Z) (origin_parses : str -> bool).
Context (to_json : Value -> str) (json_valid : string -> bool) (external : bool).
Context (Hjson : forall v, json_valid (utf8 (to_json v)) = true).
(** The verifier pairs that are ever in force. *)
Context (in_force : AuthVerifierSet -> Prop).

Notation St := (App IpAddr).
Notation failures s := (st_auth_failures (app_store s)).

(** Recorded failures stay, and the verifiers stay among those in force. *)
Definition rely (s s' : St) : Prop :=
  failures s ⊆ failures s' /\ (in_force (app_verifiers s) -> in_force (app_verifiers s')).
Definition guarantee (s s' : St) : Prop :=
  failures s ⊆ failures s' /\ app_verifiers s' = app_verifiers s.

#[export] Instance rely_preorder : PreOrder rely.
Proof.
  split; [by intros s; split|]. intros s1 s2 s3 [Ha Hb] [Hc Hd]. split; [by trans (failures s2)|auto].
Qed.

Lemma guarantee_rely s s' : guarantee s s' -> rely s s'.
Proof. intros [Hf Hv]. split; [done|]. by rewrite Hv. Qed.

Notation safely := (safe (fun _ : Env => True) rely guarantee).

(** A program that leaves the failures and the verifiers alone. *)
Definition quiet {A} (p : Proc Env St A) : Prop := forall s, safely (fun _ s' => rely s s') p s.

Lemma quiet_done {A} (a : A) : quiet (Done a).
Proof. intros s. simpl. reflexivity. Qed.

Lemma quiet_then {A B} (p : Proc Env St A) (f : A -> Proc Env St B) Q s :
  quiet p -> (forall a s', rely s s' -> safely Q (f a) s') -> safely Q (pbind p f) s.
Proof.
  intros Hp Hf. apply safe_bind. eapply safe_mono; [|apply Hp]. intros a s' Hs. simpl in Hs. by apply Hf.
Qed.

Lemma quiet_bind {A B} (p : Proc Env St A) (f : A -> Proc Env St B) :
  quiet p -> (forall a, quiet (f a)) -> quiet (pbind p f).
Proof.
  intros Hp Hf s. apply quiet_then; [done|]. intros a s' Hs. eapply safe_mono; [|apply Hf].
  intros b s2 Hs2. simpl in Hs2. by trans s'.
Qed.

Lemma quiet_atomic {A} (f : Env -> St -> A * St) :
  (forall e s, failures (f e s).2 = failures s /\ app_verifiers (f e s).2 = app_verifiers s) -> quiet (atomic f).
Proof.
  intros Hf s. apply safe_atomic. intros e s1 _ Hr. specialize (Hf e s1).
  destruct (f e s1) as [a s2]. simpl in Hf. destruct Hf as [Hf Hv].
  assert (Hg : guarantee s1 s2) by (split; [by rewrite Hf|done]).
  split; [done|]. trans s1; [done|]. by apply guarantee_rely.
Qed.

(** A store operation that does not touch [auth_failures]. *)
Definition keeps_failures {A} (m : M A) : Prop := forall F, preserves (fun st => st_auth_failures st = F) m.

Lemma quiet_write {A} (job : string -> string -> M A) :
  (forall id now, keeps_failures (job id now)) -> quiet (write job).
Proof.
  intros Hj. apply quiet_atomic. intros e s. destruct (e_disk e); [|done].
  destruct (job (e_fresh e) (e_timestamp e) (app_store s)) as [[a st]|err] eqn:E; [|done].
  split; [|done]. simpl. exact (Hj _ _ (failures s) (app_store s) a st eq_refl E).
Qed.

Lemma append_event_keeps level kind source message payload id now :
  keeps_failures (append_event_with_source json_valid external level kind source message payload id now ;; ret tt).
Proof.
  intros F. unfold append_event_with_source, persist_with_outbox, enqueue_if, enqueue, insert_unscoped_event_row,
    insert_event, publish. walk_preserves; done.
Qed.

Lemma persist_security_event_quiet source level kind message data :
  quiet (persist_security_event (IpAddr := IpAddr) to_json json_valid external source level kind message data).
Proof.
  apply quiet_bind; [|intros; apply quiet_done]. apply quiet_write. intros. apply append_event_keeps.
Qed.

Lemma persist_rate_limit_event_quiet route ip scope fp origin :
  quiet (persist_rate_limit_event to_json json_valid external route ip scope fp origin).
Proof. apply persist_security_event_quiet. Qed.

Lemma limit_quiet f : quiet (limit (IpAddr := IpAddr) f).
Proof. apply quiet_atomic. intros e s. by destruct (f (e_now e) (app_limiter s)). Qed.

Lemma clock_quiet : quiet (clock (IpAddr := IpAddr)).
Proof. by apply quiet_atomic. Qed.

Lemma blocker_check_quiet ip : quiet (blocker_check (IpAddr := IpAddr) ip).
Proof.
  apply quiet_bind; [by apply quiet_atomic|]. intros [[| |until] now]; [apply quiet_done| |apply quiet_done].
  apply quiet_bind; [by apply quiet_atomic|]. intros; apply quiet_done.
Qed.

Lemma record_failure_quiet ip : quiet (blocker_record_failure (IpAddr := IpAddr) ip).
Proof. apply quiet_atomic. intros e s. by destruct (record_failure _ _ _ _). Qed.

Lemma record_success_quiet ip : quiet (blocker_record_success (IpAddr := IpAddr) ip).
Proof. by apply quiet_atomic. Qed.

(** ** Failures are on record *)

(** Since [s], a failure with this reason, address and route was recorded. *)
Definition logged (reason : AuthFailureReason) (client_ip : option str) (route : str) (s s' : St) : Prop :=
  exists id f, failures s !! id = None /\ failures s' !! id = Some f
    /\ af_reason f = reason_wire_str reason /\ af_client_ip f = client_ip /\ af_route f = Some route.

Lemma logged_mono reason ip route s0 s s' s'' :
  rely s0 s -> logged reason ip route s s' -> rely s' s'' -> logged reason ip route s0 s''.
Proof.
  intros [Hf0 _] (id & f & Hn & Hl & Hrow) [Hf _]. exists id, f.
  split; [by eapply lookup_weaken_None|]. split; [by eapply lookup_weaken|done].
Qed.

Lemma log_failure_safe kind reason ip origin route s :
  safely (fun r s' => match r with
                      | Ok _ => logged reason ip route s s'
                      | Err response => r_status response = 500 /\ r_tier response = None
                      end)
    (log_failure (IpAddr := IpAddr) to_json json_valid external kind reason ip origin route) s.
Proof.
  apply safe_bind.
  eapply (safe_mono _ _ _ (fun r s' => rely s s' /\ match r with Ok _ => logged reason ip route s s' | Err _ => True end)).
  - intros r s1 [Hr Hl]. destruct r as [f|e]; [|by simpl]. destruct (ip ≫= parse_ip) as [a|]; [|done].
    apply quiet_then; [apply record_failure_quiet|]. intros tripped s2 H2. destruct tripped.
    + apply quiet_then; [by apply quiet_atomic|]. intros secs s3 H3.
      apply quiet_then; [apply persist_security_event_quiet|]. intros _ s4 H4. simpl.
      eapply logged_mono; [reflexivity|exact Hl|]. trans s2; [done|]. by trans s3.
    + simpl. by eapply logged_mono; [reflexivity|exact Hl|].
  - apply safe_atomic. intros e s1 _ Hr. destruct (e_disk e); cycle 1.
    { split; [by split|]. done. }
    pose proof (record_failure_run to_json (fun p => json_valid (utf8 p)) external Hjson kind reason ip (Some route)
      (Some origin) (e_fresh e) (e_timestamp e) (app_store s1)) as Hrun.
    destruct (record_auth_failure_with_origin _ _ _ _ _ _ _ _ _ _ _) as [[f st]|err]; cycle 1.
    { split; [by split|]. done. }
    destruct Hrun as (Hn & Hst & (_ & Hreason & Hip & Hroute) & _).
    assert (Hg : guarantee s1 (set_store st s1)).
    { split; [|done]. simpl. rewrite Hst. by apply insert_subseteq. }
    split; [done|]. split; [trans s1; [done|]; by apply guarantee_rely|].
    eapply logged_mono; [exact Hr| |reflexivity]. exists (e_fresh e), f. simpl. rewrite Hst.
    by rewrite lookup_insert_eq.
Qed.

(** ** Every layer *)

(** The request carried one bearer, which verifiers in force accept as [kind]. *)
Definition key_shown (req : Request IpAddr) (kind : KeyKind) : Prop :=
  exists set bearer, in_force set /\ rq_headers req "authorization" = [Some (lit "Bearer " ++ bearer)]
    /\ bearer <> [] /\ verify set bearer = Some kind.

Definition client_of (req : Request IpAddr) : option str :=
  ro_client_ip (request_origin (rq_headers req) (rq_peer req) config).

(** A handler answered under the required tier and a shown key; or a layer
    answered, and if with 401, the failure is on record since [s]. *)
Definition answered (required : KeyKind) (req : Request IpAddr) (s : St) (r : Response) (s' : St) : Prop :=
  match r_tier r with
  | Some kind => kind = required /\ key_shown req kind
  | None => r_status r = 401 -> r_json r = true /\ exists reason,
      r_code r = ("auth." ++ reason_wire_str reason)%string
      /\ logged reason (client_of req) (rq_path req) s s'
  end.

Lemma answered_mono required req s0 s r s' s'' :
  rely s0 s -> answered required req s r s' -> rely s' s'' -> answered required req s0 r s''.
Proof.
  intros Hr Ha Hr'. unfold answered in *. destruct (r_tier r); [done|]. intros Hs.
  destruct (Ha Hs) as (Hj & reason & Hc & Hl). split; [done|]. exists reason. split; [done|].
  by eapply logged_mono.
Qed.

(** Weaken the state a program is judged from, and pass on what later actions do. *)
Lemma safely_from required req s0 s p :
  rely s0 s -> safely (answered required req s) p s -> safely (answered required req s0) p s.
Proof. intros Hr. apply safe_mono. intros r s'. intros Ha. eapply answered_mono; [done|done|reflexivity]. Qed.

(** A layer's answer other than 401. *)
Lemma answered_other required req s s' r : r_tier r = None -> r_status r <> 401 -> answered required req s r s'.
Proof. intros Ht Hs. unfold answered. rewrite Ht. done. Qed.

Lemma check_unauthenticated_rate_safe ip route origin s :
  safely (fun r s' => rely s s' /\ (r = None \/ r = Some too_many))
    (check_unauthenticated_rate to_json json_valid external ip route origin) s.
Proof.
  destruct ip as [ip|]; [|simpl; split; [reflexivity|by left]].
  apply quiet_then; [apply limit_quiet|]. intros [u|scope] s1 Hr; [simpl; by auto|].
  apply quiet_then; [apply persist_rate_limit_event_quiet|]. intros _ s2 Hr2. simpl.
  split; [by trans s1|by right].
Qed.

Lemma fail_auth_safe required req ip reason message s :
  safely (answered required req s)
    (fail_auth to_json json_valid external ip (request_origin (rq_headers req) (rq_peer req) config) (rq_path req)
       reason ("auth." ++ reason_wire_str reason)%string message) s.
Proof.
  apply safe_bind. eapply safe_mono; [|apply check_unauthenticated_rate_safe].
  intros r s1 [Hr [->| ->]]; [|by apply answered_other].
  apply safe_bind. eapply safe_mono; [|apply log_failure_safe].
  intros [u|response] s2; simpl.
  - intros Hl _. split; [done|]. exists reason. split; [done|]. eapply logged_mono; [exact Hr|exact Hl|reflexivity].
  - intros [H500 Ht]. apply answered_other; [done|]. by rewrite H500.
Qed.

Lemma parse_bearer_shape header bearer :
  parse_bearer header = Some bearer -> header = Some (lit "Bearer " ++ bearer) /\ bearer <> [].
Proof.
  unfold parse_bearer. intros (text & -> & (rest & Hs & Hif)%bind_Some)%bind_Some.
  destruct (bool_decide_reflect (rest = [])) as [|Hne]; [done|]. simpl in Hif.
  case_match; simplify_eq. split; [|done]. f_equal. unfold strip_prefix in Hs.
  destruct (starts_with (lit "Bearer ") text) eqn:E; [|done]. apply starts_with_spec in E as [t ->].
  rewrite drop_app_length in Hs. congruence.
Qed.

(** The inner service is right for a tagged request that showed its key. *)
Definition inner_ok (required : KeyKind) (next : Request IpAddr -> Proc Env St Response) : Prop :=
  forall req kind s, rq_kind req = Some kind -> key_shown req kind -> safely (answered required req s) (next req) s.

Lemma authenticate_header_safe required next req ip s :
  in_force (app_verifiers s) -> inner_ok required next ->
  safely (answered required req s)
    (authenticate_header to_json json_valid external next req ip (request_origin (rq_headers req) (rq_peer req) config)) s.
Proof.
  intros Hv Hnext. unfold authenticate_header.
  destruct (rq_headers req "authorization") as [|header [|h2 hs]] eqn:Eh;
    [apply (fail_auth_safe _ _ _ Missing)| |apply (fail_auth_safe _ _ _ MalformedHeader)].
  destruct (parse_bearer header) as [bearer|] eqn:Eb; [|apply (fail_auth_safe _ _ _ MalformedHeader)].
  apply parse_bearer_shape in Eb as [-> Hne].
  apply safe_bind, safe_atomic. intros e s1 _ Hr. split; [by split|].
  destruct (verify (app_verifiers s1) bearer) as [kind|] eqn:Ek;
    [|apply (safely_from _ _ _ s1 _ Hr), (fail_auth_safe _ _ _ Invalid)].
  assert (Hshown : key_shown req kind).
  { exists (app_verifiers s1), bearer. split; [by apply Hr|done]. }
  apply quiet_then; [apply limit_quiet|]. intros [u|scope] s2 Hr2.
  - assert (Hin : forall s3, rely s2 s3 -> safely (answered required req s) (next (with_kind kind req)) s3).
    { intros s3 Hr3. apply (safely_from _ _ _ s3); [trans s1; [done|]; by trans s2|].
      exact (Hnext (with_kind kind req) kind s3 eq_refl Hshown). }
    destruct ip as [ip|]; [|apply Hin; reflexivity].
    apply quiet_then; [apply record_success_quiet|]. intros _ s3 Hr3. by apply Hin.
  - destruct ip as [ip|]; [|by apply answered_other].
    apply quiet_then; [apply persist_rate_limit_event_quiet|]. intros _ s3 _. by apply answered_other.
Qed.

Lemma authenticate_safe required next req s :
  in_force (app_verifiers s) -> inner_ok required next ->
  safely (answered required req s) (authenticate config to_json json_valid external next req) s.
Proof.
  intros Hv Hnext. unfold authenticate.
  destruct (ro_client_ip (request_origin (rq_headers req) (rq_peer req) config) ≫= parse_ip) as [ip|];
    [|by apply authenticate_header_safe].
  apply quiet_then; [apply blocker_check_quiet|]. intros [until|] s1 Hr.
  - apply quiet_then; [apply clock_quiet|]. intros now s2 _.
    apply quiet_then; [apply persist_security_event_quiet|]. intros _ s3 _. by apply answered_other.
  - apply quiet_then; [apply limit_quiet|]. intros [u|scope] s2 Hr2.
    + apply (safely_from _ _ _ s2); [by trans s1|]. apply authenticate_header_safe; [|done].
      by apply Hr2, Hr.
    + apply quiet_then; [apply persist_rate_limit_event_quiet|]. intros _ s3 _. by apply answered_other.
Qed.

Lemma enforce_tier_ok required answer : inner_ok required (enforce_tier config to_json json_valid external required (handler answer)).
Proof.
  intros req kind s Hk Hshown. unfold enforce_tier. rewrite Hk. case_bool_decide as E.
  - simpl. unfold answered. simpl. rewrite Hk. by subst.
  - apply safe_bind. eapply safe_mono; [|apply log_failure_safe]. intros [u|response] s1; simpl.
    + intros Hl _. split; [done|]. by exists WrongKind.
    + intros [H500 Ht]. apply answered_other; [done|]. by rewrite H500.
Qed.

Lemma log_api_request_ok required next :
  inner_ok required next -> inner_ok required (log_api_request config to_json json_valid external next).
Proof.
  intros Hnext req kind s Hk Hshown. apply quiet_then; [apply clock_quiet|]. intros t0 s1 Hr1.
  apply safe_bind. eapply safe_mono; [|by apply (Hnext req kind s1)]. intros r s2 Ha. cbn beta in Ha.
  destruct (_ || _); [simpl; by eapply answered_mono; [exact Hr1|exact Ha|reflexivity]|].
  apply quiet_then; [apply clock_quiet|]. intros t1 s3 Hr3.
  apply quiet_then; [by apply quiet_atomic|]. intros _ s4 Hr4. simpl.
  eapply answered_mono; [exact Hr1|exact Ha|]. by trans s3.
Qed.

(** The whole stack, from a state whose verifiers are in force. *)
Definition service_ok (required : KeyKind) (next : Request IpAddr -> Proc Env St Response) : Prop :=
  forall req s, in_force (app_verifiers s) -> safely (answered required req s) (next req) s.

Lemma enforce_http_origin_ok required next :
  service_ok required next -> service_ok required (enforce_http_origin config to_json json_valid external next).
Proof.
  intros Hnext req s Hv. unfold enforce_http_origin. destruct (str_eqb _ _); [by apply Hnext|].
  destruct (negb _); [|by apply Hnext].
  apply quiet_then; [apply persist_security_event_quiet|]. intros _ s1 _. by apply answered_other.
Qed.

Lemma track_active_requests_ok required next :
  service_ok required next -> service_ok required (track_active_requests next).
Proof.
  intros Hnext req s Hv. apply quiet_then; [by apply quiet_atomic|]. intros _ s1 Hr1.
  apply safe_bind. eapply safe_mono; [|apply (Hnext req s1), Hr1, Hv]. intros r s2 Ha. cbn beta in Ha.
  apply quiet_then; [by apply quiet_atomic|]. intros _ s3 Hr3. simpl.
  by eapply answered_mono; [exact Hr1|exact Ha|].
Qed.

Lemma ensure_envelope_ok required next :
  service_ok required next ->
  service_ok required (ensure_envelope config max_request_bytes to_json json_valid external next).
Proof.
  intros Hnext req s Hv. apply safe_bind. eapply safe_mono; [|by apply (Hnext req s)].
  intros r s1 Ha. cbn beta in Ha. cbv zeta.
  destruct (negb (in_range 400 499 (r_status r)) && negb (in_range 500 599 (r_status r))); [done|].
  destruct (r_json r) eqn:Ej; [done|].
  apply quiet_then; [destruct (_ =? _); [apply persist_security_event_quiet|apply quiet_done]|].
  intros _ s2 _. simpl. unfold answered in *. simpl. destruct (r_tier r); [done|].
  intros Hs. destruct (Ha Hs) as [Hj _]. congruence.
Qed.

Lemma screen_request_id_ok required next : service_ok required next -> service_ok required (screen_request_id next).
Proof.
  intros Hnext req s Hv. unfold screen_request_id. destruct (existsb _ _); [|by apply Hnext].
  eapply safe_mono; [|by apply Hnext]. intros r s1. done.
Qed.

Lemma build_router_ok required answer :
  service_ok required
    (build_router config max_request_bytes origin_parses to_json json_valid external
       (enforce_tier config to_json json_valid external required) (handler answer)).
Proof.
  apply screen_request_id_ok, ensure_envelope_ok, track_active_requests_ok.
  assert (Ha : service_ok required (authenticate config to_json json_valid external
    (log_api_request config to_json json_valid external
      (enforce_tier config to_json json_valid external required (handler answer))))).
  { intros req s Hv. apply authenticate_safe; [done|]. apply log_api_request_ok, enforce_tier_ok. }
  destruct (has_cors_layer _ _); [by apply enforce_http_origin_ok|done].
Qed.
End safety.

(** ** Requests in any interleaving *)

Section traffic.
Context `{IpText IpAddr} `{AuthCrypto}.
Context (config : HttpConfig) (max_request_bytes : Z) (origin_parses : str -> bool).
Context (to_json : Value -> str) (json_valid : string -> bool) (external : bool).
Context (in_force : AuthVerifierSet -> Prop) (answer : Request IpAddr -> Z * bool).

Notation St := (App IpAddr).

(** A route of the API by the tier it requires. *)
Definition route (required : KeyKind) : Request IpAddr -> Proc Env St Response :=
  build_router config max_request_bytes origin_parses to_json json_valid external
    (enforce_tier config to_json json_valid external required) (handler answer).

(** Requests to the routes of one tier, interleaved with each other and with
    anything the rest of the daemon does that keeps recorded failures and puts
    only [in_force] verifiers in force. *)
Definition traffic (required : KeyKind) (s0 : St) (m : St * list (Request IpAddr * St * Proc Env St Response)) : Prop :=
  in_force (app_verifiers s0)
  /\ rtc (pool_step (route required) (fun _ => True) (rely in_force)) (s0, []) m.

Lemma traffic_answered required s0 m req s r :
  (forall v, json_valid (utf8 (to_json v)) = true) ->
  traffic required s0 m -> (req, s, Done r) ∈ m.2 -> answered config in_force required req s r m.1.
Proof.
  intros Hj [Hv Hr] Hin.
  apply (pool_safe (route required) (fun _ => True) (rely in_force) (rely in_force) guarantee
    (fun s => in_force (app_verifiers s)) (fun req s r s' => answered config in_force required req s r s')
    (guarantee_rely in_force) (fun _ _ Hr => Hr)) with (s0 := s0); try done.
  - intros s1 s2 Hs1 [_ Hs2]. by apply Hs2.
  - intros req1 s1 r1 s2 s3 Ha Hr1. eapply answered_mono; [reflexivity|exact Ha|exact Hr1].
  - intros req1 s1 Hs1.
    exact (build_router_ok config max_request_bytes origin_parses to_json json_valid external Hj in_force required answer req1 s1 Hs1).
Qed.

(** Whatever requests interleave, a request that a layer answers with 401
    has left its own row in the table of failed authentications by then, written
    after it arrived, with the reason the answer names, the address it was
    accounted under and its route: a database that cannot take the row turns the
    answer into a 500, never into an unrecorded 401. *)
Theorem rejected_auth_on_record required s0 m req s r :
  (forall v, json_valid (utf8 (to_json v)) = true) ->
  traffic required s0 m -> (req, s, Done r) ∈ m.2 -> r_tier r = None -> r_status r = 401 ->
  exists id f, st_auth_failures (app_store s) !! id = None
    /\ st_auth_failures (app_store m.1) !! id = Some f
    /\ r_code r = ("auth." ++ af_reason f)%string
    /\ af_client_ip f = ro_client_ip (request_origin (rq_headers req) (rq_peer req) config)
    /\ af_route f = Some (rq_path req).
Proof.
  intros Hj Ht Hin Htier H401. pose proof (traffic_answered required s0 m req s r Hj Ht Hin) as Ha.
  unfold answered in Ha. rewrite Htier in Ha. destruct (Ha H401) as (_ & reason & Hc & id & f & Hn & Hl & Hre & Hip & Hro).
  exists id, f. rewrite Hre. done.
Qed.

(** C11. Whatever requests interleave and however keys are regenerated
    meanwhile, a handler runs only for a request that carried exactly one
    Authorization header, a bearer token, and only if verifiers in force during
    the request accepted that token as a key of precisely the tier the route
    requires: no session key reaches an admin route, no admin key a session
    route, and the local tier is never reached over TCP. *)
Theorem handler_needs_key required s0 m req s r kind :
  (forall v, json_valid (utf8 (to_json v)) = true) ->
  traffic required s0 m -> (req, s, Done r) ∈ m.2 -> r_tier r = Some kind ->
  kind = required /\ (kind = Session \/ kind = Admin)
  /\ exists set bearer, in_force set /\ rq_headers req "authorization" = [Some (lit "Bearer " ++ bearer)]
       /\ bearer <> [] /\ verify set bearer = Some kind.
Proof.
  intros Hj Ht Hin Htier. pose proof (traffic_answered required s0 m req s r Hj Ht Hin) as Ha.
  unfold answered in Ha. rewrite Htier in Ha. destruct Ha as [Hk (set & bearer & Hs & Hh & Hne & Hv)].
  split; [done|]. split; [|by exists set, bearer].
  unfold verify in Hv. repeat case_match; simplify_eq; auto.
Qed.

(** [ip] is blocked until [until]. *)
Definition blocked (ip : IpAddr) (until : Z) (s : St) : Prop :=
  exists e, block_state (app_blocker s) !! ip = Some e /\ blocked_until e = Some until.

(** A request from a blocked address is answered with 429 before its
    credential is looked at: whatever the inner service would do, no bearer is
    parsed or compared and nothing inside is called, as long as the block stands
    and has not run out at the request's clock readings. *)
Theorem blocked_address_refused next req ip until s :
  client_of config req ≫= parse_ip = Some ip -> blocked ip until s ->
  safe (fun e => e_now e < until) (fun s s' => blocked ip until s -> blocked ip until s')
    (fun s s' => app_verifiers s' = app_verifiers s /\ app_limiter s' = app_limiter s
                 /\ app_blocker s' = app_blocker s
                 /\ st_auth_failures (app_store s') = st_auth_failures (app_store s))
    (fun r _ => r = ip_blocked)
    (authenticate config to_json json_valid external next req) s.
Proof.
  intros Hip Hb. unfold authenticate. unfold client_of in Hip. rewrite Hip.
  apply safe_bind. unfold blocker_check. apply safe_bind, safe_atomic. intros e s1 He Hr.
  split; [done|]. destruct (Hr Hb) as (en & Hen & Hu). unfold check_read. rewrite Hen. cbn [mbind option_bind].
  rewrite Hu. destruct (Z.leb_spec until (e_now e)); [lia|]. cbn [safe].
  apply safe_bind, safe_atomic. intros e2 s2 _ _. split; [done|].
  apply safe_bind. unfold persist_security_event. apply safe_bind, safe_atomic. intros e3 s3 _ _.
  destruct (e_disk e3); [|done].
  destruct (bind _ _ (app_store s3)) as [[u st]|err] eqn:E; [|done]. split; [|done]. repeat split; try done.
  exact (append_event_keeps json_valid external _ _ _ _ _ _ _ _ _ _ _ eq_refl E).
Qed.
End traffic.

(** ** Regenerating the session key *)

Section regenerate.
Context `{IpText IpAddr} `{AuthCrypto}.
Notation St := (App IpAddr).

(** The stored pair is the one in memory. *)
Definition keys_agree (s : St) : Prop := stored_pair (app_store s) (app_verifiers s).

(** Nobody else writes keys between the actions. *)
Definition keys_untouched (s s' : St) : Prop :=
  st_auth_keys (app_store s') = st_auth_keys (app_store s) /\ app_verifiers s' = app_verifiers s.

(** A regeneration that no other regeneration overlaps keeps memory and
    database in agreement: on success both hold a verifier of the key handed
    out, which is accepted as a session key at once and after a restart, while
    the admin key is unchanged; on a failed write both still hold the old pair. *)
Theorem regenerate_keeps_agreement s :
  keys_agree s ->
  safe (fun e => length (e_random e) = AUTH_VERIFIER_SALT_BYTES) keys_untouched (fun _ _ => True)
    (fun r s' => keys_agree s' /\ avs_admin (app_verifiers s') = avs_admin (app_verifiers s)
       /\ match r with
          | Ok key => verify (app_verifiers s') key = Some Session
          | Err _ => app_verifiers s' = app_verifiers s
          end)
    (auth_regenerate_session_key (IpAddr := IpAddr)) s.
Proof.
  intros Hk. unfold auth_regenerate_session_key.
  assert (Hmove : forall s1, keys_untouched s s1 -> keys_agree s1).
  { intros s1 [Hs1 Hv1]. unfold keys_agree. rewrite Hv1. apply stored_pair_rows. rewrite Hs1. by apply stored_pair_rows. }
  apply safe_bind, safe_atomic. intros e1 s1 _ Hr1. split; [done|].
  apply safe_bind, safe_atomic. intros e2 s2 He2 Hr2. split; [done|].
  assert (Hu2 : keys_untouched s s2) by (destruct Hr1, Hr2; split; congruence).
  set (key := generate_api_key (e_random e1)). set (v := create_verifier Session (e_random e2) key).
  apply safe_bind, safe_atomic. intros e3 s3 _ Hr3.
  assert (Hu3 : keys_untouched s s3) by (destruct Hu2, Hr3; split; congruence).
  pose proof (Hmove s3 Hu3) as Hk3.
  assert (Hfail : keys_agree s3 /\ avs_admin (app_verifiers s3) = avs_admin (app_verifiers s)
    /\ app_verifiers s3 = app_verifiers s).
  { destruct Hu3 as [_ Hv3]. by rewrite Hv3. }
  destruct (e_disk e3); [|by split].
  destruct (upsert_session_run v (e_timestamp e3) (app_store s3) (app_verifiers s3) Hk3
    (create_verifier_well_made Session (e_random e2) key He2)) as (row & st & Hrun & Hpair).
  unfold bind at 1. rewrite Hrun. cbn [ret]. split; [done|].
  apply safe_bind, safe_atomic. intros e4 s4 _ [Hs4 Hv4]. split; [done|]. cbn [safe].
  simpl in Hs4, Hv4. destruct Hu3 as [_ Hv3]. split; [|split].
  - apply stored_pair_rows in Hpair. unfold keys_agree. simpl. rewrite Hv4. apply stored_pair_rows. simpl. by rewrite Hs4.
  - simpl. by rewrite Hv4, Hv3.
  - unfold verify. simpl. assert (Hok : verify_key v key = true) by by apply verify_key_spec. by rewrite Hok.
Qed.
End regenerate.

(** ** Witnesses *)

Definition demo_env (id : string) (disk : bool) (random : list Z) : Env := mkEnv 0 0 id "t" disk random.
Definition demo_to_json (_ : Value) : str := lit "{}".
Definition demo_verifiers : AuthVerifierSet :=
  create_verifiers (H := demo_crypto) (replicate 32 1) (replicate 32 2) (lit "acps_s") (lit "acps_a").
Definition demo_store : Store :=
  exec (replace_auth_key_pair (H := demo_crypto) demo_verifiers "t") empty_store.
Definition demo_app : App Ipv4 :=
  mkApp empty_store (blocker_from_config (demo_sec 3 "15m")) (limiter_from_config (demo_sec 3 "15m")) demo_verifiers 0 [].

Definition demo_request (auth : list (option str)) : Request Ipv4 :=
  mkRequest (fun name => if bool_decide (name = "authorization"%string) then auth else []) "GET" (lit "/v1/secrets")
    None (Some (demo_ip Byte.x01)) None.

Definition demo_in_force (set : AuthVerifierSet) : Prop := set = demo_verifiers.
Definition demo_route (required : KeyKind) : Request Ipv4 -> Proc Env (App Ipv4) Response :=
  route (H1 := demo_crypto) (demo_http 3 "15m") 1024 (fun _ => true) demo_to_json (fun _ => true) true (fun _ => (200, true)) required.

(** One request, run to its end: [n] actions of thread 0. *)
Notation demo_machine := (App Ipv4 * list (Request Ipv4 * App Ipv4 * Proc Env (App Ipv4) Response))%type (only parsing).
Definition demo_pool (required : KeyKind) (auth : list (option str)) : demo_machine :=
  (demo_app, [(demo_request auth, demo_app, demo_route required (demo_request auth))]).
Definition demo_order (n : nat) : list (nat * Env) := replicate n (0%nat, demo_env "row" true []).

Lemma demo_traffic required auth m :
  rtc (pool_step (demo_route required) (fun _ => True) (rely demo_in_force)) (demo_pool required auth) m ->
  traffic (H1 := demo_crypto) (demo_http 3 "15m") 1024 (fun _ => true) demo_to_json (fun _ => true) true demo_in_force
    (fun _ => (200, true)) required demo_app m.
Proof.
  intros Hm. split; [done|]. eapply rtc_l; [|exact Hm].
  apply (step_arrive (demo_route required) (fun _ => True) (rely demo_in_force) demo_app [] (demo_request auth)).
Qed.

Definition demo_missing : Response := reject 401 "auth.missing" "missing Authorization header".

Lemma rejected_auth_on_record_witness :
  exists (m : demo_machine) id f, (demo_request [], demo_app, Done demo_missing) ∈ m.2
    /\ st_auth_failures (app_store m.1) !! id = Some f /\ af_client_ip f = Some (lit "127.0.0.1").
Proof.
  destruct (schedule_answer_steps (demo_route Admin) (fun _ => True) (rely demo_in_force) (demo_order 7)
    (demo_pool Admin []) 0 demo_missing (demo_request []) demo_app _ (Forall_true _ _ (fun _ => I)) eq_refl
    ltac:(vm_compute; reflexivity)) as (m & _ & Hm & Hin).
  destruct (rejected_auth_on_record (H1 := demo_crypto) (demo_http 3 "15m") 1024 (fun _ => true) demo_to_json
    (fun _ => true) true demo_in_force (fun _ => (200, true)) Admin demo_app m (demo_request []) demo_app demo_missing
    (fun _ => eq_refl) (demo_traffic Admin [] m Hm) Hin eq_refl eq_refl) as (id & f & _ & Hl & _ & Hip & _).
  exists m, id, f. split; [exact Hin|]. split; [exact Hl|]. rewrite Hip. vm_compute. reflexivity.
Defined.

Definition demo_ok : Response := mkResponse 200 "" "" false true (Some Session).

Lemma handler_needs_key_witness :
  exists m : demo_machine, (demo_request [Some (lit "Bearer acps_s")], demo_app, Done demo_ok) ∈ m.2
    /\ exists set bearer, demo_in_force set /\ verify (H := demo_crypto) set bearer = Some Session.
Proof.
  destruct (schedule_answer_steps (demo_route Session) (fun _ => True) (rely demo_in_force) (demo_order 10)
    (demo_pool Session [Some (lit "Bearer acps_s")]) 0 demo_ok (demo_request [Some (lit "Bearer acps_s")]) demo_app _
    (Forall_true _ _ (fun _ => I)) eq_refl ltac:(vm_compute; reflexivity)) as (m & _ & Hm & Hin).
  destruct (handler_needs_key (H1 := demo_crypto) (demo_http 3 "15m") 1024 (fun _ => true) demo_to_json
    (fun _ => true) true demo_in_force (fun _ => (200, true)) Session demo_app m
    (demo_request [Some (lit "Bearer acps_s")]) demo_app demo_ok Session
    (fun _ => eq_refl) (demo_traffic Session _ m Hm) Hin eq_refl) as (_ & _ & set & bearer & Hs & _ & _ & Hv).
  exists m. split; [exact Hin|]. exists set, bearer. split; [exact Hs|exact Hv].
Defined.

Definition demo_blocked_app : App Ipv4 :=
  mkApp empty_store demo_trip (limiter_from_config (demo_sec 3 "15m")) demo_verifiers 0 [].

Lemma blocked_address_refused_witness :
  blocked (demo_ip Byte.x01) (3 + from_secs 900) demo_blocked_app
  /\ safe (fun e => e_now e < 3 + from_secs 900)
       (fun s s' => blocked (demo_ip Byte.x01) (3 + from_secs 900) s -> blocked (demo_ip Byte.x01) (3 + from_secs 900) s')
       (fun s s' => app_verifiers s' = app_verifiers s /\ app_limiter s' = app_limiter s
                    /\ app_blocker s' = app_blocker s
                    /\ st_auth_failures (app_store s') = st_auth_failures (app_store s))
       (fun r _ => r = ip_blocked)
       (authenticate (H1 := demo_crypto) (demo_http 3 "15m") demo_to_json (fun _ => true) true
          (handler (fun _ => (200, true))) (demo_request [Some (lit "Bearer acps_s")])) demo_blocked_app.
Proof.
  assert (Hb : blocked (demo_ip Byte.x01) (3 + from_secs 900) demo_blocked_app).
  { exists (mkBlock 1 3 (Some (3 + from_secs 900))). split; vm_compute; reflexivity. }
  assert (Hip : client_of (demo_http 3 "15m") (demo_request [Some (lit "Bearer acps_s")]) ≫= parse_ip = Some (demo_ip Byte.x01))
    by (vm_compute; reflexivity).
  split; [exact Hb|].
  exact (blocked_address_refused (H1 := demo_crypto) (demo_http 3 "15m") demo_to_json (fun _ => true) true
    (handler (fun _ => (200, true))) (demo_request [Some (lit "Bearer acps_s")]) (demo_ip Byte.x01)
    (3 + from_secs 900) demo_blocked_app Hip Hb).
Defined.

(** ** Two regenerations at once *)

Definition demo_regen_app : App Ipv4 :=
  mkApp demo_store (blocker_from_config (demo_sec 3 "15m")) (limiter_from_config (demo_sec 3 "15m")) demo_verifiers 0 [].

Lemma demo_regen_agrees : keys_agree (H1 := demo_crypto) demo_regen_app.
Proof.
  destruct (replace_run (H := demo_crypto) demo_verifiers "t" empty_store) as (st & Hr & Hp).
  unfold keys_agree, demo_regen_app, demo_store, exec. rewrite Hr.
  apply Hp. by apply create_verifiers_well_made.
Qed.

Lemma regenerate_keeps_agreement_witness :
  keys_agree (H1 := demo_crypto) demo_regen_app
  /\ safe (fun e => length (e_random e) = AUTH_VERIFIER_SALT_BYTES) keys_untouched (fun _ _ => True)
       (fun r s' => keys_agree (H1 := demo_crypto) s'
          /\ avs_admin (app_verifiers s') = avs_admin (app_verifiers demo_regen_app)
          /\ match r with
             | Ok key => verify (H := demo_crypto) (app_verifiers s') key = Some Session
             | Err _ => app_verifiers s' = app_verifiers demo_regen_app
             end)
       (auth_regenerate_session_key (IpAddr := Ipv4) (H1 := demo_crypto)) demo_regen_app.
Proof.
  split; [exact demo_regen_agrees|].
  exact (regenerate_keeps_agreement (H1 := demo_crypto) demo_regen_app demo_regen_agrees).
Defined.

Definition demo_regen (_ : unit) : Proc Env (App Ipv4) (result StackError str) :=
  auth_regenerate_session_key (H1 := demo_crypto).
Notation regen_machine := (App Ipv4 * list (unit * App Ipv4 * Proc Env (App Ipv4) (result StackError str)))%type (only parsing).
Definition demo_two_regens : regen_machine :=
  (demo_regen_app, [(tt, demo_regen_app, demo_regen tt); (tt, demo_regen_app, demo_regen tt)]).

(** Both draw a key; the first stores its verifier, then the second stores and
    installs its own, then the first installs its own. *)
Definition demo_race : list (nat * Env) :=
  let first := demo_env "" true (replicate 32 3) in
  let second := demo_env "" true (replicate 32 4) in
  [(0, first); (0, first); (0, first); (1, second); (1, second); (1, second); (1, second); (0, first)]%nat.

(** What the race leaves: both callers hold a key, the daemon accepts only the
    first one's, the database only the second one's. *)
Definition race_lost (m : regen_machine) (first second : str) : bool :=
  let accepts set key := match verify (H := demo_crypto) set key with Some Session => true | _ => false end in
  accepts (app_verifiers m.1) first && negb (accepts (app_verifiers m.1) second)
  && match load_auth_verifier_pair (H := demo_crypto) (app_store m.1) with
     | Ok (set, _) => accepts set second && negb (accepts set first)
     | Err _ => false
     end.

(** Two regenerations that overlap can both succeed and leave memory and
    database with different session keys: the key handed to one caller is
    refused until the daemon restarts, and the key in use until then is refused
    after the restart. The write and the swap of the in-memory verifier are not
    one critical section. *)
Theorem regenerations_can_disagree :
  exists m first second,
    rtc (pool_step demo_regen (fun e => length (e_random e) = AUTH_VERIFIER_SALT_BYTES) eq) (demo_regen_app, []) m
    /\ (tt, demo_regen_app, Done (Ok first)) ∈ m.2 /\ (tt, demo_regen_app, Done (Ok second)) ∈ m.2
    /\ race_lost m first second = true.
Proof.
  set (E := fun e => length (e_random e) = AUTH_VERIFIER_SALT_BYTES).
  set (first := generate_api_key (H := demo_crypto) (replicate 32 3)).
  set (second := generate_api_key (H := demo_crypto) (replicate 32 4)).
  assert (HE : Forall (fun x : nat * Env => E x.2) demo_race) by (repeat constructor).
  destruct (schedule_answer_steps demo_regen E eq demo_race demo_two_regens 0 (Ok first) tt demo_regen_app
    (demo_regen tt) HE eq_refl ltac:(vm_compute; reflexivity)) as (m & Hm & Hs & H0).
  destruct (schedule_answer_steps demo_regen E eq demo_race demo_two_regens 1 (Ok second) tt demo_regen_app
    (demo_regen tt) HE eq_refl ltac:(vm_compute; reflexivity)) as (m' & Hm' & _ & H1).
  assert (m' = m) as -> by congruence.
  exists m, first, second. split; [|split; [done|split; [done|]]].
  - eapply rtc_l; [apply (step_arrive demo_regen E eq demo_regen_app [] tt)|].
    eapply rtc_l; [apply (step_arrive demo_regen E eq demo_regen_app [(tt, demo_regen_app, demo_regen tt)] tt)|].
    exact Hs.
  - assert (Hr : match schedule demo_race demo_two_regens with Some m => race_lost m first second | None => false end = true)
      by (vm_compute; reflexivity).
    by rewrite Hm in Hr.
Qed.
