(* ===== verification/SecretTemplate.v ===== *)
(** Secret references in configuration values
    (src/src/config/secret_template.rs, and the name rules of
    src/src/config/validate/primitives.rs): the template syntax with its escapes,
    the screening of pasted credentials, env entries of both forms, and
    resolution against the secret store. *)

From S2P Require Import Prelude Text Redaction.
Open Scope Z_scope.
Open Scope result_scope.

(** The errors of secrets and of the extensions that manage them. *)
Inductive SecretError :=
| SecretTemplateInvalid (reason : string)
| InvalidSecretRefName (name : str)
| SecretRefLooksLikeValue
| SecretNotFound (name : str)
| SecretReferenced (name namespace variable : str)
| AgeKeyRead
| AgeKeyParse
| OwnerOnlyFile
| SecretStoreRead
| SecretStoreDecode
| SecretStorePlaintextInvalid
| SecretStoreWrite
| ExtensionStateOwnership (namespace provider_id : str)
| ExtensionRevisionConflict (namespace : str)
| ExtensionEnvironmentUnresolved (namespace name secret_ref : str)
| SecretInvalidParam (field : string).

Definition DOLLAR : char := chr "$".
Definition REF_BRACE : char := chr "{".
Definition REF_CLOSE : char := chr "}".
Definition ENV_ASSIGN : char := chr "=".
Definition REASON_UNTERMINATED : string := "unterminated `${`; close it with `}`".
Definition REASON_EMPTY_REF : string := "`${}` is empty; name the secret ref".
Definition REASON_BARE_DOLLAR : string :=
  "unescaped `$`; write `$$` for a literal dollar or `${NAME}` for a ref".
Definition REASON_NO_REF : string :=
  "template contains no `${NAME}` reference; use a bare secret ref for a whole-value reference".
Definition REASON_EMPTY_ENV_VAR_NAME : string := "env entry has an empty name left of `=`".

(** ** Names *)

Definition is_valid_secret_ref_name (name : str) : bool :=
  let trimmed := trim name in
  if bool_decide (trimmed = []) || negb (str_len trimmed =? str_len name)%nat then false
  else
    match trimmed with
    | [] => false
    | first :: rest =>
        if negb (is_ascii_alphabetic first || (first =? chr "_")) then false
        else forallb (fun c => is_ascii_alphanumeric c || (c =? chr "_")) rest
    end.

Definition validate_secret_ref_name_value (name : str) : result SecretError unit :=
  if negb (is_valid_secret_ref_name name) then Err (InvalidSecretRefName name) else Ok tt.

Definition secret_value_shape (text : str) : bool :=
  if (40 <? str_len text)%nat && forallb is_ascii_hexdigit text then true
  else if existsb (fun entry => cp_config_screened entry && starts_with (cp_prefix entry) text) CREDENTIAL_PREFIXES
  then true
  else looks_like_jwt text.

Definition secret_ref_looks_like_value (name : str) : bool :=
  if (128 <? str_len name)%nat then true else secret_value_shape name.

(** ** Templates *)

Inductive TemplateSegment := Literal (text : str) | Ref (name : str).

#[export] Instance TemplateSegment_eq_dec : EqDecision TemplateSegment.
Proof. solve_decision. Defined.

Notation SecretTemplate := (list TemplateSegment) (only parsing).

Definition push_literal (literal : str) (segments : list TemplateSegment) : list TemplateSegment :=
  match literal with [] => segments | _ => segments ++ [Literal literal] end.

(** The [while] loop; every turn consumes the dollar it found. [None] is fuel
    running out. *)
Fixpoint parse_loop (fuel : nat) (rest literal : str) (segments : list TemplateSegment)
  : option (result string (list TemplateSegment)) :=
  match fuel with
  | O => None
  | S fuel =>
      match find_char (Z.eqb DOLLAR) rest with
      | None => Some (Ok (push_literal (literal ++ rest) segments))
      | Some dollar_index =>
          let literal := literal ++ take dollar_index rest in
          match drop (S dollar_index) rest with
          | c :: after =>
              if c =? DOLLAR then parse_loop fuel after (literal ++ [DOLLAR]) segments
              else if c =? REF_BRACE then
                match find_char (Z.eqb REF_CLOSE) after with
                | None => Some (Err REASON_UNTERMINATED)
                | Some close_index =>
                    match take close_index after with
                    | [] => Some (Err REASON_EMPTY_REF)
                    | name => parse_loop fuel (drop (S close_index) after) [] (push_literal literal segments ++ [Ref name])
                    end
                end
              else Some (Err REASON_BARE_DOLLAR)
          | [] => Some (Err REASON_BARE_DOLLAR)
          end
      end
  end.

Definition parse_segments (raw : str) : result string (list TemplateSegment) :=
  default (Err EmptyString) (parse_loop (S (length raw)) raw [] []).

Definition ref_name (segment : TemplateSegment) : option str := match segment with Ref n => Some n | Literal _ => None end.
Definition literal_text (segment : TemplateSegment) : option str := match segment with Literal t => Some t | Ref _ => None end.

Definition ref_names (template : SecretTemplate) : list str := omap ref_name template.
Definition literals (template : SecretTemplate) : list str := omap literal_text template.

Fixpoint validate_refs (segments : list TemplateSegment) : result SecretError unit :=
  match segments with
  | [] => Ok tt
  | Ref name :: rest => let? _ := validate_secret_ref_name_value name in validate_refs rest
  | Literal _ :: rest => validate_refs rest
  end.

Definition parse_template (raw : str) : result SecretError SecretTemplate :=
  match parse_segments raw with
  | Err reason => Err (SecretTemplateInvalid reason)
  | Ok segments =>
      let? _ := validate_refs segments in
      if negb (existsb (fun s => match s with Ref _ => true | Literal _ => false end) segments)
      then Err (SecretTemplateInvalid REASON_NO_REF) else Ok segments
  end.

(** [store.get] is [get]. *)
Fixpoint resolve_from (get : str -> result SecretError str) (template : SecretTemplate) (composed : str)
  : result SecretError str :=
  match template with
  | [] => Ok composed
  | Literal text :: rest => resolve_from get rest (composed ++ text)
  | Ref name :: rest => let? value := get name in resolve_from get rest (composed ++ value)
  end.

Definition resolve (get : str -> result SecretError str) (template : SecretTemplate) : result SecretError str :=
  resolve_from get template [].

Definition ref_names_lossy (raw : str) : list str :=
  match parse_segments raw with
  | Ok segments => filter (fun n => is_valid_secret_ref_name n = true) (ref_names segments)
  | Err _ => []
  end.

Definition piece (segment : TemplateSegment) : str := match segment with Literal t => t | Ref n => n end.

Definition template_pieces_lossy (raw : str) : list str :=
  match parse_segments raw with
  | Ok segments => map piece segments
  | Err _ => [raw]
  end.

(** ** Screening *)

Definition screen_piece (p : str) : result SecretError unit :=
  if secret_ref_looks_like_value p then Err SecretRefLooksLikeValue else Ok tt.

Definition screen_ref_name (name : str) : result SecretError unit := screen_piece name.

Fixpoint screen_segments (segments : list TemplateSegment) (concatenated_literals : str) (literal_count : nat)
  : result SecretError unit :=
  match segments with
  | [] =>
      if (1 <? literal_count)%nat && secret_value_shape concatenated_literals
      then Err SecretRefLooksLikeValue else Ok tt
  | Literal text :: rest =>
      let? _ := screen_piece text in screen_segments rest (concatenated_literals ++ text) (S literal_count)
  | Ref name :: rest =>
      let? _ := screen_piece name in screen_segments rest concatenated_literals literal_count
  end.

Definition screen_template (raw : str) : result SecretError unit :=
  match parse_segments raw with
  | Err _ => screen_piece raw
  | Ok segments => screen_segments segments [] 0
  end.

(** [str::split_once]. *)
Definition split_once (sep : char) (s : str) : option (str * str) :=
  i ← find_char (Z.eqb sep) s; Some (take i s, drop (S i) s).

Definition screen_env_entry (raw : str) : result SecretError unit :=
  match split_once ENV_ASSIGN raw with
  | None => screen_piece raw
  | Some (var_name, template_raw) => let? _ := screen_piece var_name in screen_template template_raw
  end.

(** ** Env entries *)

Inductive EnvEntry :=
| WholeValueRef (name : str)
| Templated (var_name : str) (template : SecretTemplate).

Definition parse_env_entry (raw : str) : result SecretError EnvEntry :=
  match split_once ENV_ASSIGN raw with
  | None => let? _ := validate_secret_ref_name_value raw in Ok (WholeValueRef raw)
  | Some (var_name, template_raw) =>
      match var_name with
      | [] => Err (SecretTemplateInvalid REASON_EMPTY_ENV_VAR_NAME)
      | _ =>
          let? _ := validate_secret_ref_name_value var_name in
          let? template := parse_template template_raw in
          Ok (Templated var_name template)
      end
  end.

Definition env_entry_var_name (raw : str) : str :=
  match split_once ENV_ASSIGN raw with Some (var_name, _) => var_name | None => raw end.

Definition env_entry_ref_names_lossy (raw : str) : list str :=
  match split_once ENV_ASSIGN raw with
  | Some (_, template_raw) => ref_names_lossy template_raw
  | None => if is_valid_secret_ref_name raw then [raw] else []
  end.

Definition resolve_env_entry (raw : str) (get : str -> result SecretError str) : result SecretError (str * str) :=
  let? entry := parse_env_entry raw in
  match entry with
  | WholeValueRef name => let? value := get name in Ok (name, value)
  | Templated var_name template => let? value := resolve get template in Ok (var_name, value)
  end.

Definition agent_env_declares (env : list str) (var_name : str) : bool :=
  existsb (fun entry => str_eqb (env_entry_var_name entry) var_name) env.

(** ** The syntax: parsing inverts printing *)

(** How a template is written. *)
Definition escape (c : char) : str := if c =? DOLLAR then [DOLLAR; DOLLAR] else [c].
Definition render_segment (s : TemplateSegment) : str :=
  match s with
  | Literal text => text ≫= escape
  | Ref name => [DOLLAR; REF_BRACE] ++ name ++ [REF_CLOSE]
  end.
Definition render (t : SecretTemplate) : str := t ≫= render_segment.

(** No empty literal, no two literals in a row, names that end at their brace. *)
Fixpoint canonical (t : SecretTemplate) : Prop :=
  match t with
  | [] => True
  | Literal text :: rest => text <> [] /\ match rest with Literal _ :: _ => False | _ => canonical rest end
  | Ref name :: rest => name <> [] /\ REF_CLOSE ∉ name /\ canonical rest
  end.

Lemma find_char_split test s i :
  find_char test s = Some i ->
  exists c, s = take i s ++ c :: drop (S i) s /\ test c = true /\ Forall (fun x => test x = false) (take i s).
Proof.
  revert i. induction s as [|x s IH]; intros i; simpl; [done|]. destruct (test x) eqn:E.
  - intros [= <-]. exists x. done.
  - intros (j & Hj & ->)%fmap_Some. destruct (IH j Hj) as (c & Hs & Hc & Hf). exists c. simpl.
    split; [by f_equal|]. split; [done|]. by constructor.
Qed.

Lemma find_char_none test s : find_char test s = None -> Forall (fun x => test x = false) s.
Proof.
  induction s as [|x s IH]; simpl; [done|]. destruct (test x) eqn:E; [done|].
  intros Hs%fmap_None. constructor; auto.
Qed.

Lemma escape_plain s : Forall (fun x => (DOLLAR =? x) = false) s -> s ≫= escape = s.
Proof.
  induction 1 as [|x s Hx _ IH]; [done|]. cbn. unfold escape at 1. rewrite Z.eqb_sym in Hx. rewrite Hx. simpl.
  by f_equal.
Qed.

Lemma push_literal_app literal segments :
  push_literal literal segments = segments ++ push_literal literal [].
Proof. destruct literal; simpl; [by rewrite app_nil_r|done]. Qed.

Lemma render_push literal more : render (push_literal literal [] ++ more) = (literal ≫= escape) ++ render more.
Proof. destruct literal; [done|]. unfold render. cbn [push_literal app]. by rewrite bind_cons. Qed.

(** What the loop returns is the printed form of what it read. *)
Lemma parse_loop_sound fuel rest literal segments out :
  parse_loop fuel rest literal segments = Some (Ok out) ->
  exists more, out = segments ++ more /\ (literal ≫= escape) ++ rest = render more /\ canonical more.
Proof.
  revert rest literal segments. induction fuel as [|fuel IH]; intros rest literal segments; simpl; [done|].
  destruct (find_char (Z.eqb DOLLAR) rest) as [i|] eqn:Ef.
  - apply find_char_split in Ef as (d & Hrest & Hd & Hpre). apply Z.eqb_eq in Hd as <-.
    set (pre := take i rest) in *. destruct (drop (S i) rest) as [|c after] eqn:Edrop; [done|].
    destruct (Z.eqb_spec c DOLLAR) as [->|Hc].
    + intros (more & Hout & Htext & Hcan)%IH. exists more. split; [done|]. split; [|done].
      rewrite <- Htext, Hrest, !bind_app, (escape_plain pre Hpre). simpl. by rewrite <- !(assoc_L (++)).
    + destruct (Z.eqb_spec c REF_BRACE) as [->|]; [|done].
      destruct (find_char (Z.eqb REF_CLOSE) after) as [j|] eqn:Ec; [|done].
      apply find_char_split in Ec as (e & Hafter & He & Hname). apply Z.eqb_eq in He as <-.
      destruct (take j after) as [|n0 name] eqn:En; [done|].
      intros (more & Hout & Htext & Hcan)%IH.
      exists (push_literal (literal ++ pre) [] ++ Ref (n0 :: name) :: more).
      split; [rewrite Hout, push_literal_app; by rewrite <- !(assoc_L (++))|]. split.
      * rewrite render_push, Hrest, bind_app, (escape_plain pre Hpre).
        replace (render (Ref (n0 :: name) :: more)) with (render_segment (Ref (n0 :: name)) ++ render more) by done.
        rewrite <- Htext. simpl. rewrite Hafter at 1. by rewrite <- !(assoc_L (++)).
      * assert (canonical (Ref (n0 :: name) :: more)) as Hn.
        { split; [done|]. split; [|done]. intros Hin. rewrite Forall_forall in Hname.
          specialize (Hname _ Hin). by rewrite Z.eqb_refl in Hname. }
        by destruct (literal ++ pre).
  - intros [= <-]. apply find_char_none in Ef. exists (push_literal (literal ++ rest) []).
    split; [apply push_literal_app|]. split.
    + rewrite <- (app_nil_r (push_literal _ _)), render_push, bind_app, (escape_plain rest Ef). by rewrite app_nil_r.
    + by destruct (literal ++ rest).
Qed.

(** Characters other than a dollar go to the literal. *)
Lemma parse_loop_char fuel c rest literal segments :
  (DOLLAR =? c) = false ->
  parse_loop fuel (c :: rest) literal segments = parse_loop fuel rest (literal ++ [c]) segments.
Proof.
  intros Hc. destruct fuel as [|fuel]; [done|]. cbn [parse_loop find_char]. rewrite Hc.
  destruct (find_char (Z.eqb DOLLAR) rest) as [i|]; simpl; rewrite <- !(assoc_L (++) literal); reflexivity.
Qed.

Lemma parse_loop_escape fuel rest literal segments :
  parse_loop (S fuel) (DOLLAR :: DOLLAR :: rest) literal segments = parse_loop fuel rest (literal ++ [DOLLAR]) segments.
Proof. cbn [parse_loop find_char]. rewrite Z.eqb_refl. cbn [take drop]. by rewrite Z.eqb_refl, app_nil_r. Qed.

Lemma parse_loop_ref fuel name rest literal segments :
  name <> [] -> REF_CLOSE ∉ name ->
  parse_loop (S fuel) (render_segment (Ref name) ++ rest) literal segments
  = parse_loop fuel rest [] (push_literal literal segments ++ [Ref name]).
Proof.
  intros Hne Hn. cbn [render_segment app]. rewrite <- (assoc_L (++)). cbn [app parse_loop find_char].
  rewrite Z.eqb_refl. cbn [take drop]. rewrite app_nil_r.
  assert (Hf : find_char (Z.eqb REF_CLOSE) (name ++ REF_CLOSE :: rest) = Some (length name)).
  { apply find_char_app; [|apply Z.eqb_refl]. apply forallb_forall. intros x Hx%list_elem_of_In.
    apply negb_true_iff, Z.eqb_neq. congruence. }
  change (REF_BRACE =? DOLLAR) with false. change (REF_BRACE =? REF_BRACE) with true. cbv iota.
  rewrite Hf, take_app_length.
  replace (drop (S (length name)) (name ++ REF_CLOSE :: rest)) with rest
    by (by rewrite <- Nat.add_1_r, <- drop_drop, drop_app_length).
  by destruct name.
Qed.

(** Joining a pending literal with the segments that follow. *)
Definition join_literal (literal : str) (more : list TemplateSegment) : list TemplateSegment :=
  match more with
  | Literal text :: rest => Literal (literal ++ text) :: rest
  | _ => push_literal literal [] ++ more
  end.

Lemma parse_loop_literal fuel text rest literal segments :
  (length (text ≫= escape) <= fuel)%nat ->
  exists fuel', (fuel <= fuel' + length (text ≫= escape))%nat
    /\ parse_loop fuel ((text ≫= escape) ++ rest) literal segments = parse_loop fuel' rest (literal ++ text) segments.
Proof.
  revert fuel literal. induction text as [|c text IH]; intros fuel literal Hf.
  { exists fuel. split; [simpl; lia|]. by rewrite app_nil_r. }
  rewrite bind_cons in *. rewrite <- (assoc_L (++)).
  destruct (Z.eqb_spec c DOLLAR) as [->|Hc];
    [assert (Ee : escape DOLLAR = [DOLLAR; DOLLAR]) by done
    |assert (Ee : escape c = [c]) by (unfold escape; by apply Z.eqb_neq in Hc as ->)];
    rewrite Ee, ?length_app in *; cbn [length] in *.
  - destruct fuel as [|fuel]; [lia|]. destruct (IH fuel (literal ++ [DOLLAR]) ltac:(lia)) as (f & Hl & He).
    exists f. split; [lia|]. cbn [app]. rewrite parse_loop_escape, He. by rewrite <- (assoc_L (++)).
  - destruct (IH fuel (literal ++ [c]) ltac:(lia)) as (f & Hl & He). exists f. split; [lia|].
    cbn [app]. rewrite parse_loop_char by (apply Z.eqb_neq; congruence). rewrite He. by rewrite <- (assoc_L (++)).
Qed.

Lemma parse_loop_complete fuel more literal segments :
  canonical more -> (length (render more) < fuel)%nat ->
  parse_loop fuel (render more) literal segments = Some (Ok (segments ++ join_literal literal more)).
Proof.
  revert fuel literal segments. induction more as [|s more IH]; intros fuel literal segments Hcan Hf.
  { destruct fuel; [simpl in Hf; lia|]. cbn. by rewrite app_nil_r, push_literal_app, app_nil_r. }
  unfold render in *. rewrite bind_cons in *. fold (render more) in *. rewrite length_app in Hf.
  destruct s as [text|name].
  - destruct Hcan as [Hne Hcan]. cbn [render_segment] in *.
    destruct (parse_loop_literal fuel text (render more) literal segments ltac:(lia)) as (f & Hl & He).
    rewrite He. assert (Hm : canonical more) by (by destruct more as [|[]]).
    rewrite IH by (done || lia). do 3 f_equal.
    destruct more as [|[text'|name] more]; [|done|]; cbn [join_literal].
    + destruct (literal ++ text) eqn:E; [|done]. apply app_nil in E as [_ ->]. done.
    + destruct (literal ++ text) eqn:E; [|done]. apply app_nil in E as [_ ->]. done.
  - destruct Hcan as (Hne & Hn & Hcan). destruct fuel as [|fuel]; [lia|].
    rewrite parse_loop_ref, IH by (done || (rewrite ?length_app in Hf; simpl in Hf; lia)).
    do 2 f_equal. rewrite push_literal_app, <- !(assoc_L (++)). f_equal. cbn [join_literal]. f_equal.
    destruct more as [|[]]; done.
Qed.

(** A turn of the loop drops at least the dollar, so the fuel never runs out. *)
Lemma parse_loop_total fuel rest literal segments :
  (length rest < fuel)%nat -> parse_loop fuel rest literal segments <> None.
Proof.
  revert rest literal segments. induction fuel as [|fuel IH]; intros rest literal segments Hf; [lia|].
  cbn [parse_loop]. destruct (find_char _ rest) as [i|] eqn:Ei; [|done]. apply find_char_lt in Ei.
  destruct (drop (S i) rest) as [|c after] eqn:Ed; [done|].
  assert (Hl : (length after < length rest)%nat).
  { pose proof (f_equal length Ed) as E. rewrite length_drop in E. simpl in E. lia. }
  destruct (c =? DOLLAR); [apply IH; lia|]. destruct (c =? REF_BRACE); [|done].
  destruct (find_char _ after) as [j|]; [|done]. destruct (take j after); [done|].
  apply IH. rewrite length_drop. lia.
Qed.

Lemma parse_segments_iff raw segments :
  parse_segments raw = Ok segments <-> canonical segments /\ raw = render segments.
Proof.
  unfold parse_segments. pose proof (parse_loop_total (S (length raw)) raw [] [] ltac:(lia)) as Ht.
  split.
  - destruct (parse_loop _ _ _ _) as [r|] eqn:E; [|done]. simpl. intros ->.
    apply parse_loop_sound in E as (more & -> & Htext & Hcan). done.
  - intros [Hcan ->]. rewrite parse_loop_complete by (done || lia). simpl. f_equal. by destruct segments as [|[]].
Qed.

Lemma validate_refs_ok segments :
  validate_refs segments = Ok tt <-> Forall (fun n => is_valid_secret_ref_name n = true) (ref_names segments).
Proof.
  induction segments as [|[text|name] segments IH]; cbn; [split; [constructor|done]|done|].
  unfold validate_secret_ref_name_value. destruct (is_valid_secret_ref_name name) eqn:E; cbn.
  - rewrite IH. split; [by constructor|]. by intros [_ Hs]%Forall_cons.
  - split; [done|]. intros [Hn _]%Forall_cons. congruence.
Qed.

Lemma has_ref_iff segments :
  existsb (fun s => match s with Ref _ => true | Literal _ => false end) segments = true <-> ref_names segments <> [].
Proof. induction segments as [|[text|name] segments IH]; cbn; [done|done|by split]. Qed.

(** C27. The template syntax is exactly its printed form: a text is accepted as
    a template if and only if it is the printing of one (dollars doubled in
    literals, refs as ${NAME}) with no empty or adjacent literals, at least one
    ref, and only valid ref names. Hence accepted texts read back unchanged,
    distinct templates have distinct texts, and no text has two readings. *)
Theorem template_syntax raw t :
  parse_template raw = Ok t <->
  raw = render t /\ canonical t /\ ref_names t <> []
  /\ Forall (fun n => is_valid_secret_ref_name n = true) (ref_names t).
Proof.
  unfold parse_template. split.
  - destruct (parse_segments raw) as [segments|] eqn:Ep; [|done]. apply parse_segments_iff in Ep as [Hc Hr].
    intros ([] & Hv & Hif)%rbind_Ok. apply validate_refs_ok in Hv.
    destruct (existsb _ segments) eqn:Ee; cbn in Hif; [|done]. simplify_eq. apply has_ref_iff in Ee. auto.
  - intros (Hr & Hc & Hne & Hv). rewrite (proj2 (parse_segments_iff raw t)) by done.
    rewrite (proj2 (validate_refs_ok t) Hv). cbn. by rewrite (proj2 (has_ref_iff t) Hne).
Qed.

(** ** Screening sees every piece *)

Lemma screen_piece_ok p : screen_piece p = Ok tt <-> secret_ref_looks_like_value p = false.
Proof. unfold screen_piece. by destruct (secret_ref_looks_like_value p). Qed.

Lemma screen_segments_ok segments acc n :
  screen_segments segments acc n = Ok tt <->
  Forall (fun p => secret_ref_looks_like_value p = false) (map piece segments)
  /\ ((1 < n + length (literals segments))%nat -> secret_value_shape (acc ++ mjoin (literals segments)) = false).
Proof.
  revert acc n. induction segments as [|[text|name] segments IH]; intros acc n; cbn -[Nat.ltb].
  - rewrite Nat.add_0_r, app_nil_r. destruct (1 <? n)%nat eqn:E.
    + apply Nat.ltb_lt in E. cbn. destruct (secret_value_shape acc).
      * split; [done|]. intros [_ Hs]. by specialize (Hs E).
      * split; [|done]. intros _. split; [constructor|done].
    + apply Nat.ltb_ge in E. cbn. split; [|done]. intros _. split; [constructor|]. lia.
  - rewrite Forall_cons. destruct (screen_piece text) as [[]|e] eqn:E; cbn.
    + apply screen_piece_ok in E. rewrite IH, <- (assoc_L (++)). cbn.
      change (literal_text (Literal text)) with (Some text). cbn. rewrite Nat.add_succ_r. tauto.
    + split; [done|]. intros [[Hp _] _]. apply screen_piece_ok in Hp. congruence.
  - rewrite Forall_cons. destruct (screen_piece name) as [[]|e] eqn:E; cbn.
    + apply screen_piece_ok in E. rewrite IH. cbn. tauto.
    + split; [done|]. intros [[Hp _] _]. apply screen_piece_ok in Hp. congruence.
Qed.

(** A template passes when no piece of it looks like a credential and its
    literals, read across the refs between them, do not either. *)
Lemma screen_template_ok raw :
  screen_template raw = Ok tt <->
  Forall (fun p => secret_ref_looks_like_value p = false) (template_pieces_lossy raw)
  /\ (forall segments, parse_segments raw = Ok segments -> (1 < length (literals segments))%nat ->
      secret_value_shape (mjoin (literals segments)) = false).
Proof.
  unfold screen_template, template_pieces_lossy. destruct (parse_segments raw) as [segments|e].
  - rewrite screen_segments_ok. cbn. split; intros [Hp Hs]; (split; [done|]).
    + by intros s [= <-].
    + by apply Hs.
  - rewrite screen_piece_ok, Forall_singleton. naive_solver.
Qed.

(** A ref name the parser rejects is a piece of the template. *)
Lemma validate_refs_echo segments name :
  validate_refs segments = Err (InvalidSecretRefName name) -> name ∈ map piece segments.
Proof.
  induction segments as [|[text|n] segments IH]; cbn; [done|intros Hv; right; auto|].
  unfold validate_secret_ref_name_value. destruct (is_valid_secret_ref_name n); cbn.
  - intros Hv. right. auto.
  - intros [= ->]. left.
Qed.

(** Screening before echoing: an env entry that passed the screen can be
    rejected with an error that repeats part of it only if that part, whole
    entry, variable name or ref name, does not look like a credential; every
    other rejection names a reason and no input. *)
Theorem echoed_names_screened raw e :
  screen_env_entry raw = Ok tt -> parse_env_entry raw = Err e ->
  match e with
  | InvalidSecretRefName name => secret_ref_looks_like_value name = false
  | SecretTemplateInvalid _ => True
  | _ => False
  end.
Proof.
  unfold screen_env_entry, parse_env_entry.
  destruct (split_once ENV_ASSIGN raw) as [[var raw_t]|]; intros Hs.
  - apply rbind_Ok in Hs as ([] & Hv%screen_piece_ok & Ht).
    destruct var as [|v0 var]; [by intros [= <-]|].
    unfold validate_secret_ref_name_value at 1. destruct (is_valid_secret_ref_name (v0 :: var)); cbn; [|by intros [= <-]].
    intros [Hp|(t & _ & [=])]%rbind_Err. unfold parse_template in Hp.
    apply screen_template_ok in Ht as [Hpieces _]. unfold template_pieces_lossy in Hpieces.
    destruct (parse_segments raw_t) as [segments|reason]; [|by simplify_eq].
    apply rbind_Err in Hp as [Hp|(u & _ & Hp)]; [|by destruct (existsb _ segments); cbn in Hp; simplify_eq].
    assert (Hshape : exists n, e = InvalidSecretRefName n).
    { clear Hpieces. induction segments as [|[text|n] segments IH]; cbn in Hp; [done|auto|].
      unfold validate_secret_ref_name_value in Hp. destruct (is_valid_secret_ref_name n); cbn in Hp; [auto|].
      simplify_eq. eauto. }
    destruct Hshape as [n ->]. apply validate_refs_echo in Hp. rewrite Forall_forall in Hpieces. auto.
  - apply screen_piece_ok in Hs. unfold validate_secret_ref_name_value.
    destruct (is_valid_secret_ref_name raw); cbn; by intros [= <-].
Qed.

(** ** Resolution *)

Lemma resolve_from_ok get t acc v :
  resolve_from get t acc = Ok v <->
  exists vs, Forall2 (fun s x => match s with Literal text => x = text | Ref name => get name = Ok x end) t vs
    /\ v = acc ++ mjoin vs.
Proof.
  revert acc. induction t as [|[text|name] t IH]; intros acc; cbn.
  - split.
    + intros [= <-]. exists []. split; [constructor|]. by rewrite app_nil_r.
    + intros (vs & ->%Forall2_nil_inv_l & ->). cbn. by rewrite app_nil_r.
  - rewrite IH. split.
    + intros (vs & Hf & ->). exists (text :: vs). split; [by constructor|]. cbn. by rewrite (assoc_L (++)).
    + intros (vs & Hf & ->). apply Forall2_cons_inv_l in Hf as (x & vs' & -> & Hf & ->).
      exists vs'. cbn. by rewrite (assoc_L (++)).
  - rewrite rbind_Ok. split.
    + intros (x & Hx & (vs & Hf & ->)%IH). exists (x :: vs). split; [by constructor|]. cbn. by rewrite (assoc_L (++)).
    + intros (vs & Hf & ->). apply Forall2_cons_inv_l in Hf as (x & vs' & Hx & Hf & ->).
      exists x. split; [done|]. apply IH. exists vs'. cbn. by rewrite (assoc_L (++)).
Qed.

Lemma resolve_from_ext get get' t acc :
  (forall n, n ∈ ref_names t -> get n = get' n) -> resolve_from get t acc = resolve_from get' t acc.
Proof.
  revert acc. induction t as [|[text|name] t IH]; intros acc Hg; cbn; [done|by apply IH|].
  rewrite (Hg name) by (cbn; left). destruct (get' name); cbn; [|done]. apply IH. intros n Hn. apply Hg. cbn. by right.
Qed.

Lemma parse_template_refs raw t : parse_template raw = Ok t -> ref_names_lossy raw = ref_names t.
Proof.
  unfold parse_template, ref_names_lossy. destruct (parse_segments raw) as [segments|]; [|done].
  intros ([] & Hv%validate_refs_ok & Hif)%rbind_Ok. destruct (existsb _ segments); cbn in Hif; [|done]. simplify_eq.
  apply filter_keep. by apply Forall_forall.
Qed.

Lemma parse_env_entry_refs raw e :
  parse_env_entry raw = Ok e ->
  env_entry_ref_names_lossy raw = match e with WholeValueRef n => [n] | Templated _ t => ref_names t end.
Proof.
  unfold parse_env_entry, env_entry_ref_names_lossy. intros He.
  destruct (split_once ENV_ASSIGN raw) as [[[|v0 var] raw_t]|]; [done| |].
  - apply rbind_Ok in He as (u & _ & (t & Ht & [= <-])%rbind_Ok). by apply parse_template_refs.
  - unfold validate_secret_ref_name_value in He. destruct (is_valid_secret_ref_name raw); cbn in He; [|done].
    by simplify_eq.
Qed.

Lemma resolve_from_defined get t acc :
  is_Ok (resolve_from get t acc) <-> forall n, n ∈ ref_names t -> is_Ok (get n).
Proof.
  revert acc. induction t as [|[text|name] t IH]; intros acc; cbn.
  - split; [by intros _ n ?%not_elem_of_nil|by eexists].
  - apply IH.
  - split.
    + intros (v & (x & Hx & Hv)%rbind_Ok) n [->|Hn]%elem_of_cons; [by eexists|].
      apply (IH (acc ++ x)); [by eexists|done].
    + intros Hn. destruct (Hn name ltac:(left)) as [x Hx]. rewrite Hx. cbn. apply IH. intros n Hin. apply Hn. by right.
Qed.

(** The refs listed for an entry are the refs it depends on: resolving an
    entry against two stores that agree on the listed names gives the same
    result, success or error; and an entry that parses resolves exactly when
    every listed name is stored. *)
Theorem listed_refs_decide_resolution raw get get' :
  (forall n, n ∈ env_entry_ref_names_lossy raw -> get n = get' n) ->
  resolve_env_entry raw get = resolve_env_entry raw get'
  /\ (is_Ok (resolve_env_entry raw get) <->
      is_Ok (parse_env_entry raw) /\ forall n, n ∈ env_entry_ref_names_lossy raw -> is_Ok (get n)).
Proof.
  intros Hg. unfold resolve_env_entry. pose proof (parse_env_entry_refs raw) as Hentry.
  assert (Hmap : forall A (m : result SecretError A) B (f : A -> B), is_Ok (rbind m (fun v => Ok (E := SecretError) (f v))) <-> is_Ok m).
  { intros A [v|e] B f; cbn; [split; by eexists|split; by intros [x [=]]]. }
  destruct (parse_env_entry raw) as [[name|var t]|err]; cbn; [rewrite (Hentry _ eq_refl) in *..|].
  - split; [by rewrite (Hg name) by (by apply list_elem_of_singleton)|]. rewrite Hmap.
    setoid_rewrite list_elem_of_singleton. split; [|by intros [_ Hn]; apply Hn].
    intros Hn. split; [by eexists|]. by intros n ->.
  - unfold resolve. split; [by rewrite (resolve_from_ext get get' t [])|].
    rewrite Hmap, resolve_from_defined. split; [|by intros [_ Hn]]. intros Hn. split; [by eexists|done].
  - split; [done|]. split; [by intros [x [=]]|]. by intros [[x [=]] _].
Qed.

(** ** Witnesses *)

Definition demo_entry : str := lit "AUTH=Bearer ${TOKEN} costs 5$$".

Lemma template_syntax_witness :
  parse_template (lit "Bearer ${TOKEN} costs 5$$")
  = Ok [Literal (lit "Bearer "); Ref (lit "TOKEN"); Literal (lit " costs 5$")].
Proof.
  apply (template_syntax (lit "Bearer ${TOKEN} costs 5$$")
    [Literal (lit "Bearer "); Ref (lit "TOKEN"); Literal (lit " costs 5$")]).
  split; [vm_compute; reflexivity|]. split; [|split].
  - cbn [canonical]. repeat split; try (vm_compute; discriminate). apply (bool_decide_unpack _). vm_compute. exact I.
  - vm_compute. discriminate.
  - repeat constructor.
Defined.

Lemma echoed_names_screened_witness :
  secret_ref_looks_like_value (lit "9TOKEN") = false
  /\ screen_env_entry (lit "AUTH=Bearer ${9TOKEN}") = Ok tt.
Proof.
  assert (Hs : screen_env_entry (lit "AUTH=Bearer ${9TOKEN}") = Ok tt) by (vm_compute; reflexivity).
  assert (Hp : parse_env_entry (lit "AUTH=Bearer ${9TOKEN}") = Err (InvalidSecretRefName (lit "9TOKEN")))
    by (vm_compute; reflexivity).
  split; [|exact Hs].
  exact (echoed_names_screened (lit "AUTH=Bearer ${9TOKEN}") (InvalidSecretRefName (lit "9TOKEN")) Hs Hp).
Defined.

Definition demo_get (value : str) (name : str) : result SecretError str :=
  if bool_decide (name = lit "TOKEN") then Ok (lit "t0ken") else if bool_decide (name = lit "OTHER") then Ok value
  else Err (SecretNotFound name).

Lemma listed_refs_decide_resolution_witness :
  resolve_env_entry demo_entry (demo_get []) = resolve_env_entry demo_entry (demo_get (lit "x"))
  /\ resolve_env_entry demo_entry (demo_get []) = Ok (lit "AUTH", lit "Bearer t0ken costs 5$").
Proof.
  assert (Hg : forall n, n ∈ env_entry_ref_names_lossy demo_entry -> demo_get [] n = demo_get (lit "x") n).
  { intros n Hn. assert (E : env_entry_ref_names_lossy demo_entry = [lit "TOKEN"]) by (vm_compute; reflexivity).
    rewrite E in Hn. apply list_elem_of_singleton in Hn as ->. vm_compute. reflexivity. }
  split; [|vm_compute; reflexivity].
  exact (proj1 (listed_refs_decide_resolution demo_entry (demo_get []) (demo_get (lit "x")) Hg)).
Defined.
