(* ===== verification/Secrets.v ===== *)
(** The secret store (src/src/secrets.rs): flat secrets, provider credentials
    owned by the operator or by an extension, the managed-state records of the
    extensions, and the write-through to one encrypted file.

    Encryption is another crate's: the file is modelled by the plaintext it
    decrypts to, and a write by how it ended. The redaction
    registry the store feeds is part of the state. A BTreeMap is a finite map
    walked in key order. *)

From S2P Require Import Prelude Text Redaction Duration SecretTemplate.
Open Scope Z_scope.
Open Scope result_scope.

(** ** Data *)

Inductive CredentialSource := Operator | External (namespace : str).

Record ProviderCredential := mkCredential {
  pc_revision : str;
  pc_values : gmap str str;
  pc_source_refs : gmap str str;
  pc_migrated : bool;
  pc_source : CredentialSource;
}.

Record ProviderCredentialSet := mkCredentialSet {
  sole : option ProviderCredential;
  aliases : gmap str ProviderCredential;
}.

Record ManagedStateRecord := mkManaged {
  ms_revision : Z;
  ms_provider_id : option str;
  ms_kind : option str;
  ms_environment : gmap str str;
}.

#[export] Instance CredentialSource_eq_dec : EqDecision CredentialSource.
Proof. solve_decision. Defined.
#[export] Instance ProviderCredential_eq_dec : EqDecision ProviderCredential.
Proof. solve_decision. Defined.
#[export] Instance ProviderCredentialSet_eq_dec : EqDecision ProviderCredentialSet.
Proof. solve_decision. Defined.
#[export] Instance ManagedStateRecord_eq_dec : EqDecision ManagedStateRecord.
Proof. solve_decision. Defined.

Notation Catalog := (gmap str ProviderCredentialSet) (only parsing).
Notation ManagedState := (gmap str ManagedStateRecord) (only parsing).

Record StorePlaintext := mkPlaintext {
  sp_secrets : gmap str str;
  sp_provider_credentials : Catalog;
  sp_managed_state : ManagedState;
}.

(** The handle: its decrypted maps, what the file holds, and the registry of
    values to redact. *)
Record SecretStore := mkSecretStore {
  ss_memory : StorePlaintext;
  ss_disk : StorePlaintext;
  ss_registry : list str;
}.

Record ManagedCredentialSelection := mkSelection {
  sel_provider_id : str;
  sel_values : gmap str str;
  sel_source_refs : gmap str str;
}.

(** How [atomic_write_owner_only] ends: it succeeds; it fails before the new file is
    renamed into place; it fails afterwards, in the mode, the reopening or the sync. *)
Inductive DiskWrite := Written | NotWritten | WrittenUnsynced.
#[export] Instance DiskWrite_eq_dec : EqDecision DiskWrite.
Proof. solve_decision. Defined.

Inductive ManagedApplyOutcome := Applied | Cleared | Noop.

Inductive StagedManagedCredential :=
| StagedNoop
| StagedChanged (provider_credentials : Catalog) (managed_state : ManagedState) (outcome : ManagedApplyOutcome).

(** A BTreeMap's iteration. *)
Definition by_key {A} (a b : str * A) : Prop := text_le a.1 b.1.
#[export] Instance by_key_dec {A} : RelDecision (@by_key A).
Proof. intros a b. unfold by_key. apply _. Defined.
Definition btree {A} (m : gmap str A) : list (str * A) := merge_sort by_key (map_to_list m).

Lemma btree_elem {A} (m : gmap str A) k v : (k, v) ∈ btree m <-> m !! k = Some v.
Proof. unfold btree. by rewrite merge_sort_Permutation, elem_of_map_to_list. Qed.

(** ** Validation *)

Definition credential_names (credential : ProviderCredential) : list str :=
  (btree (pc_values credential)).*1 ++ (btree (pc_source_refs credential)).*1 ++ (btree (pc_source_refs credential)).*2.

Definition provider_credential_valid (credential : ProviderCredential) : bool :=
  negb (bool_decide (trim (pc_revision credential) = []) || bool_decide (pc_values credential = ∅))
  && forallb is_valid_secret_ref_name (credential_names credential)
  && forallb (fun name => bool_decide (is_Some (pc_values credential !! name))) (btree (pc_source_refs credential)).*1.

Definition credential_set_valid (set : ProviderCredentialSet) : bool :=
  match sole set, bool_decide (aliases set = ∅) with
  | Some _, true | None, false => true
  | _, _ => false
  end
  && forallb (fun entry => is_valid_secret_ref_name entry.1 && provider_credential_valid entry.2) (btree (aliases set))
  && match sole set with Some credential => provider_credential_valid credential | None => true end.

Definition plaintext_valid (p : StorePlaintext) : bool :=
  forallb (fun entry => credential_set_valid entry.2) (btree (sp_provider_credentials p))
  && forallb (fun entry => negb (ms_revision entry.2 <=? 0)) (btree (sp_managed_state p)).

Definition aliasless (credential : ProviderCredential) : ProviderCredentialSet := mkCredentialSet (Some credential) ∅.
Definition promoted (aliases : gmap str ProviderCredential) : ProviderCredentialSet := mkCredentialSet None aliases.

Definition selected (set : ProviderCredentialSet) (alias : option str) : option (ProviderCredential * option str) :=
  match sole set, alias with
  | Some credential, None => Some (credential, None)
  | None, Some alias => (fun credential => (credential, Some alias)) <$> aliases set !! alias
  | _, _ => None
  end.

Section store.
(** [non_credential_env_refs_for_provider_id], a lookup in embedded data. *)
Context (non_credential_env_refs : str -> list str).

Definition set_memory (p : StorePlaintext) (s : SecretStore) : SecretStore := mkSecretStore p (ss_disk s) (ss_registry s).
Definition set_registry (r : list str) (s : SecretStore) : SecretStore := mkSecretStore (ss_memory s) (ss_disk s) r.

Definition with_secrets (secrets : gmap str str) (p : StorePlaintext) : StorePlaintext :=
  mkPlaintext secrets (sp_provider_credentials p) (sp_managed_state p).

(** Values of one credential set, without the companions. *)
Definition credential_values (provider_id : str) (set : ProviderCredentialSet) : list str :=
  (option_list (sole set) ++ (btree (aliases set)).*2) ≫= fun credential =>
  omap (fun entry => if bool_decide (entry.1 ∈ non_credential_env_refs provider_id) then None else Some entry.2)
    (btree (pc_values credential)).

Definition known_values (p : StorePlaintext) : list str :=
  (btree (sp_secrets p)).*2
  ++ (btree (sp_provider_credentials p) ≫= fun entry => credential_values entry.1 entry.2).

Definition register_known_values (s : SecretStore) : SecretStore :=
  set_registry (register_secret_values (known_values (ss_memory s)) (ss_registry s) (ss_registry s)) s.

Definition set_disk (p : StorePlaintext) (s : SecretStore) : SecretStore := mkSecretStore (ss_memory s) p (ss_registry s).

(** [validate], [encrypt_plaintext] and [atomic_write_owner_only]. *)
Definition write_plaintext (disk : DiskWrite) (p : StorePlaintext) (s : SecretStore) : result SecretError unit * SecretStore :=
  if negb (plaintext_valid p) then (Err SecretStorePlaintextInvalid, s)
  else
    match disk with
    | Written => (Ok tt, set_disk p s)
    | NotWritten => (Err SecretStoreWrite, s)
    | WrittenUnsynced => (Err SecretStoreWrite, set_disk p s)
    end.

Definition persist (disk : DiskWrite) (s : SecretStore) : result SecretError unit * SecretStore :=
  write_plaintext disk (ss_memory s) s.

(** ** Flat secrets *)

Definition get (s : SecretStore) (name : str) : result SecretError str :=
  match sp_secrets (ss_memory s) !! name with Some v => Ok v | None => Err (SecretNotFound name) end.

Definition insert_secret (name value : str) (s : SecretStore) : SecretStore :=
  set_memory (with_secrets (<[name := value]> (sp_secrets (ss_memory s))) (ss_memory s)) s.

Definition register_one (value : str) (s : SecretStore) : SecretStore :=
  set_registry (register_secret_values [value] (ss_registry s) (ss_registry s)) s.

Definition set (disk : DiskWrite) (name value : str) (s : SecretStore) : result SecretError unit * SecretStore :=
  persist disk (insert_secret name value (register_one value s)).

Fixpoint insert_all (pairs : list (str * str)) (s : SecretStore) : SecretStore :=
  match pairs with
  | [] => s
  | (name, value) :: rest => insert_all rest (insert_secret name value (register_one value s))
  end.

Definition set_many (disk : DiskWrite) (pairs : list (str * str)) (s : SecretStore) : result SecretError unit * SecretStore :=
  persist disk (insert_all pairs s).

(** The first environment entry, in namespace and variable order, that names
    the secret. *)
Definition env_reference (name : str) (managed : ManagedState) : option (str * str) :=
  head (btree managed ≫= fun entry =>
          (fun v => (entry.1, v.1)) <$> filter (fun v => v.2 = name) (btree (ms_environment entry.2))).

Definition delete (disk : DiskWrite) (name : str) (s : SecretStore) : result SecretError unit * SecretStore :=
  match env_reference name (sp_managed_state (ss_memory s)) with
  | Some (namespace, variable) => (Err (SecretReferenced name namespace variable), s)
  | None =>
      match sp_secrets (ss_memory s) !! name with
      | None => (Err (SecretNotFound name), s)
      | Some _ =>
          persist disk (set_memory (with_secrets (base.delete name (sp_secrets (ss_memory s))) (ss_memory s)) s)
      end
  end.

(** ** Provider credentials *)

Definition external_owner (set : ProviderCredentialSet) : option str :=
  match sole set with
  | Some credential => match pc_source credential with External namespace => Some namespace | Operator => None end
  | None => None
  end.

Definition ensure_external_entries_untouched (current replacement : Catalog) : result SecretError unit :=
  match head (omap (fun entry => namespace ← external_owner entry.2;
                if bool_decide (replacement !! entry.1 = Some entry.2) then None else Some (namespace, entry.1))
              (btree current)) with
  | Some (namespace, provider_id) => Err (ExtensionStateOwnership namespace provider_id)
  | None => Ok tt
  end.

Definition stage_provider_credentials (catalog : Catalog) (s : SecretStore) : result SecretError unit * SecretStore :=
  let p := ss_memory s in
  match ensure_external_entries_untouched (sp_provider_credentials p) catalog with
  | Err e => (Err e, s)
  | Ok _ =>
      let p' := mkPlaintext (sp_secrets p) catalog (sp_managed_state p) in
      if negb (plaintext_valid p') then (Err SecretStorePlaintextInvalid, s)
      else (Ok tt, register_known_values (set_memory p' s))
  end.

(** Write first, then commit in memory. *)
Definition commit (disk : DiskWrite) (p : StorePlaintext) (s : SecretStore) : result SecretError unit * SecretStore :=
  match write_plaintext disk p s with
  | (Err e, s') => (Err e, s')
  | (Ok _, s') => (Ok tt, register_known_values (set_memory p s'))
  end.

Definition replace_provider_credentials (disk : DiskWrite) (catalog : Catalog) (remove_flat_secrets : list str)
    (s : SecretStore) : result SecretError unit * SecretStore :=
  let p := ss_memory s in
  match ensure_external_entries_untouched (sp_provider_credentials p) catalog with
  | Err e => (Err e, s)
  | Ok _ =>
      let secrets := foldl (fun m name => base.delete name m) (sp_secrets p) remove_flat_secrets in
      commit disk (mkPlaintext secrets catalog (sp_managed_state p)) s
  end.

(** ** Managed state *)

Definition replayed_record (managed : ManagedState) (namespace : str) (revision : Z)
  : result SecretError (option ManagedStateRecord) :=
  if revision <=? 0 then Err (SecretInvalidParam "revision")
  else
    match managed !! namespace with
    | Some record =>
        if revision =? ms_revision record then Ok (Some record)
        else if revision <? ms_revision record then Err (ExtensionRevisionConflict namespace)
        else Ok None
    | None => Ok None
    end.

(** The catalog without the credential of the namespace's last revision. *)
Definition drop_previous (record : option ManagedStateRecord) (catalog : Catalog) : Catalog :=
  match record ≫= ms_provider_id with
  | Some previous_provider => base.delete previous_provider catalog
  | None => catalog
  end.

Definition apply_managed_state_environment (disk : DiskWrite) (namespace kind : str) (revision : Z)
    (environment : gmap str str) (s : SecretStore) : result SecretError ManagedApplyOutcome * SecretStore :=
  let p := ss_memory s in
  match replayed_record (sp_managed_state p) namespace revision with
  | Err e => (Err e, s)
  | Ok (Some record) =>
      if negb (bool_decide (ms_kind record = Some kind)) || negb (bool_decide (ms_environment record = environment))
      then (Err (ExtensionRevisionConflict namespace), s) else (Ok Noop, s)
  | Ok None =>
      let catalog := drop_previous (sp_managed_state p !! namespace) (sp_provider_credentials p) in
      let outcome := if bool_decide (environment = ∅) then Cleared else Applied in
      let managed := <[namespace := mkManaged revision None (Some kind) environment]> (sp_managed_state p) in
      match commit disk (mkPlaintext (sp_secrets p) catalog managed) s with
      | (Err e, s') => (Err e, s')
      | (Ok _, s') => (Ok outcome, s')
      end
  end.

Definition managed_environment (s : SecretStore) : result SecretError (gmap str str) :=
  let p := ss_memory s in
  foldl (fun acc (entry : str * str * str) =>
    let? environment := acc in
    let '(namespace, name, secret_ref) := entry in
    match get s secret_ref with
    | Ok value => Ok (<[name := value]> environment)
    | Err (SecretNotFound _) => Err (ExtensionEnvironmentUnresolved namespace name secret_ref)
    | Err other => Err other
    end)
    (Ok ∅)
    (btree (sp_managed_state p) ≫= fun ns =>
       (fun v => (ns.1, v.1, v.2)) <$> btree (ms_environment ns.2)).

Definition ensure_identical_replay (catalog : Catalog) (namespace kind : str) (record : ManagedStateRecord)
    (selection : option ManagedCredentialSelection) : result SecretError unit :=
  let conflict := Err (ExtensionRevisionConflict namespace) in
  if negb (bool_decide (ms_kind record = Some kind)) then conflict
  else
    match selection, ms_provider_id record with
    | None, None => Ok tt
    | Some selection, Some provider_id =>
        if bool_decide (provider_id = sel_provider_id selection) then
          match catalog !! provider_id ≫= sole with
          | None => conflict
          | Some credential =>
              if negb (bool_decide (pc_source credential = External namespace)) then conflict
              else if negb (bool_decide (pc_values credential = sel_values selection))
                   || negb (bool_decide (pc_source_refs credential = sel_source_refs selection)) then conflict
              else Ok tt
          end
        else conflict
    | _, _ => conflict
    end.

Definition managed_revision (namespace : str) (revision : Z) : str :=
  lit "managed:" ++ namespace ++ lit ":" ++ decimal revision.

Definition stage_managed_state_credential (p : StorePlaintext) (namespace kind : str) (revision : Z)
    (selection : option ManagedCredentialSelection) : result SecretError StagedManagedCredential :=
  let? replayed := replayed_record (sp_managed_state p) namespace revision in
  match replayed with
  | Some record =>
      let? _ := ensure_identical_replay (sp_provider_credentials p) namespace kind record selection in
      Ok StagedNoop
  | None =>
      let catalog := drop_previous (sp_managed_state p !! namespace) (sp_provider_credentials p) in
      match selection with
      | None =>
          Ok (StagedChanged catalog
                (<[namespace := mkManaged revision None (Some kind) ∅]> (sp_managed_state p)) Cleared)
      | Some selection =>
          let provider_id := sel_provider_id selection in
          let owned := match catalog !! provider_id with
                       | Some existing => bool_decide (external_owner existing = Some namespace)
                       | None => true
                       end in
          if negb owned then Err (ExtensionStateOwnership namespace provider_id)
          else
            let credential := mkCredential (managed_revision namespace revision) (sel_values selection)
              (sel_source_refs selection) false (External namespace) in
            Ok (StagedChanged (<[provider_id := aliasless credential]> catalog)
                  (<[namespace := mkManaged revision (Some provider_id) (Some kind) ∅]> (sp_managed_state p)) Applied)
      end
  end.

Definition apply_managed_state_credential (disk : DiskWrite) (namespace kind : str) (revision : Z)
    (selection : option ManagedCredentialSelection) (s : SecretStore)
  : result SecretError ManagedApplyOutcome * SecretStore :=
  match stage_managed_state_credential (ss_memory s) namespace kind revision selection with
  | Err e => (Err e, s)
  | Ok StagedNoop => (Ok Noop, s)
  | Ok (StagedChanged catalog managed outcome) =>
      match commit disk (mkPlaintext (sp_secrets (ss_memory s)) catalog managed) s with
      | (Err e, s') => (Err e, s')
      | (Ok _, s') => (Ok outcome, s')
      end
  end.

(** [resolve] may also panic. *)
Inductive Resolved := Resolves (r : result SecretError (option ManagedCredentialSelection)) | ResolvePanics.

(** How the call ends: with a result, or by resuming the panic. *)
Inductive Ended := Returned (r : result SecretError ManagedApplyOutcome) | Panicked.

(** The write of the staged plaintext, and its commit in memory. *)
Definition deposit_finish (disk : DiskWrite) (p : StorePlaintext) (outcome : ManagedApplyOutcome) (s : SecretStore)
  : Ended * SecretStore :=
  match write_plaintext disk p s with
  | (Err e, s') => (Returned (Err e), s')
  | (Ok _, s') => (Returned (Ok outcome), set_memory p s')
  end.

(** The body of [catch_unwind]. *)
Definition deposit_body (disk : DiskWrite) (deposit : list (str * str)) (namespace kind : str) (revision : Z)
    (resolve : SecretStore -> Resolved) (s : SecretStore) : Ended * SecretStore :=
  let secrets := foldl (fun m (entry : str * str) => <[entry.1 := entry.2]> m) (sp_secrets (ss_memory s)) deposit in
  let s := set_memory (with_secrets secrets (ss_memory s)) s in
  match resolve s with
  | ResolvePanics => (Panicked, s)
  | Resolves (Err e) => (Returned (Err e), s)
  | Resolves (Ok selection) =>
      match stage_managed_state_credential (ss_memory s) namespace kind revision selection with
      | Err e => (Returned (Err e), s)
      | Ok StagedNoop =>
          match deposit with
          | [] => (Returned (Ok Noop), s)
          | _ => deposit_finish disk (mkPlaintext secrets (sp_provider_credentials (ss_memory s)) (sp_managed_state (ss_memory s))) Noop s
          end
      | Ok (StagedChanged catalog managed outcome) => deposit_finish disk (mkPlaintext secrets catalog managed) outcome s
      end
  end.

(** A failure restores the secrets of the store before the call, [s]. *)
Definition deposit_end (s : SecretStore) (r : Ended * SecretStore) : Ended * SecretStore :=
  match r with
  | (Returned (Ok outcome), s') => (Returned (Ok outcome), register_known_values s')
  | (ended, s') => (ended, set_memory (with_secrets (sp_secrets (ss_memory s)) (ss_memory s')) s')
  end.

Definition deposit_and_apply_managed_credential (disk : DiskWrite) (deposit : list (str * str)) (namespace kind : str)
    (revision : Z) (resolve : SecretStore -> Resolved) (s : SecretStore) : Ended * SecretStore :=
  deposit_end s (deposit_body disk deposit namespace kind revision resolve s).

(** ** Opening *)

(** What the two paths hold. A ciphertext that cannot be decrypted, is not UTF-8
    or does not parse is [Undecodable]. *)
Inductive KeyFile := NoKey | MalformedKey | Key.
Inductive StoreFile := NoFile | Undecodable | Ciphertext (p : StorePlaintext).

Definition key_exists (k : KeyFile) : bool := match k with NoKey => false | _ => true end.
Definition file_exists (f : StoreFile) : bool := match f with NoFile => false | _ => true end.

Definition load_identity (k : KeyFile) : result SecretError unit :=
  match k with NoKey => Err AgeKeyRead | MalformedKey => Err AgeKeyParse | Key => Ok tt end.

Definition decrypt_store (f : StoreFile) : result SecretError StorePlaintext :=
  match f with
  | NoFile => Err SecretStoreRead
  | Undecodable => Err SecretStoreDecode
  | Ciphertext p => if plaintext_valid p then Ok p else Err SecretStorePlaintextInvalid
  end.

Definition opened (p : StorePlaintext) (registry : list str) : SecretStore :=
  register_known_values (mkSecretStore p p registry).

(** [chmod]: the permission repairs succeed. *)
Definition open_at_paths (chmod_key chmod_file : bool) (k : KeyFile) (f : StoreFile) (registry : list str)
  : result SecretError SecretStore :=
  if key_exists k && negb chmod_key then Err OwnerOnlyFile
  else
    let? _ := load_identity k in
    if file_exists f && negb chmod_file then Err OwnerOnlyFile
    else
      let? p := decrypt_store f in
      Ok (opened p registry).

(** [owner_only]: both paths are regular files of the owner, mode 0600. *)
Definition open_read_only (owner_only : bool) (k : KeyFile) (f : StoreFile) (registry : list str)
  : result SecretError SecretStore :=
  if negb owner_only then Err OwnerOnlyFile
  else
    let? _ := load_identity k in
    let? p := decrypt_store f in
    Ok (opened p registry).

Definition empty_plaintext : StorePlaintext := mkPlaintext ∅ ∅ ∅.

(** The result and the two files after the call. [key_write] is what the key path
    holds when the creation of a key ended: [Key] with success, or what a failed
    [write_new_file_owner_only] left there; [disk] is how the write of the empty
    store ended. *)
Definition open_or_create_at_paths (chmod_key chmod_file : bool) (key_write : result KeyFile unit) (disk : DiskWrite) (k : KeyFile) (f : StoreFile)
    (registry : list str) : result SecretError SecretStore * (KeyFile * StoreFile) :=
  match key_exists k, file_exists f with
  | true, false => (Err AgeKeyParse, (k, f))
  | false, true => (Err SecretStoreRead, (k, f))
  | true, true =>
      (if negb chmod_key then Err OwnerOnlyFile
       else
         let? _ := load_identity k in
         if negb chmod_file then Err OwnerOnlyFile
         else
           let? p := decrypt_store f in
           Ok (opened p registry),
       (k, f))
  | false, false =>
      match key_write, disk with
      | Err left_behind, _ => (Err SecretStoreWrite, (left_behind, f))
      | Ok _, Written => (Ok (opened empty_plaintext registry), (Key, Ciphertext empty_plaintext))
      | Ok _, NotWritten => (Err SecretStoreWrite, (Key, f))
      | Ok _, WrittenUnsynced => (Err SecretStoreWrite, (Key, Ciphertext empty_plaintext))
      end
  end.

(** [managed_environment_for_home]: no store yet means no environment. *)
Definition managed_environment_for_home (owner_only : bool) (k : KeyFile) (f : StoreFile) (registry : list str)
  : result SecretError (gmap str str) :=
  if negb (key_exists k) || negb (file_exists f) then Ok ∅
  else
    let? s := open_read_only owner_only k f registry in
    managed_environment s.

(** ** Histories *)

(** The operations of the shared handle that change it. *)
Inductive StoreOp :=
| OpSet (name value : str)
| OpSetMany (pairs : list (str * str))
| OpDelete (name : str)
| OpStage (catalog : Catalog)
| OpReplace (catalog : Catalog) (remove_flat_secrets : list str)
| OpApplyCredential (namespace kind : str) (revision : Z) (selection : option ManagedCredentialSelection)
| OpApplyEnvironment (namespace kind : str) (revision : Z) (environment : gmap str str)
| OpDeposit (deposit : list (str * str)) (namespace kind : str) (revision : Z) (resolve : SecretStore -> Resolved).

Definition is_ok {A} (r : result SecretError A) : bool := match r with Ok _ => true | Err _ => false end.
Definition completed (ended : Ended) : bool := match ended with Returned r => is_ok r | Panicked => false end.

(** Whether the call succeeded, and the store after it. *)
Definition perform (disk : DiskWrite) (op : StoreOp) (s : SecretStore) : bool * SecretStore :=
  match op with
  | OpSet name value => let r := set disk name value s in (is_ok r.1, r.2)
  | OpSetMany pairs => let r := set_many disk pairs s in (is_ok r.1, r.2)
  | OpDelete name => let r := delete disk name s in (is_ok r.1, r.2)
  | OpStage catalog => let r := stage_provider_credentials catalog s in (is_ok r.1, r.2)
  | OpReplace catalog removed => let r := replace_provider_credentials disk catalog removed s in (is_ok r.1, r.2)
  | OpApplyCredential namespace kind revision selection =>
      let r := apply_managed_state_credential disk namespace kind revision selection s in (is_ok r.1, r.2)
  | OpApplyEnvironment namespace kind revision environment =>
      let r := apply_managed_state_environment disk namespace kind revision environment s in (is_ok r.1, r.2)
  | OpDeposit deposit namespace kind revision resolve =>
      let r := deposit_and_apply_managed_credential disk deposit namespace kind revision resolve s in (completed r.1, r.2)
  end.

Definition history (ops : list (DiskWrite * StoreOp)) (s : SecretStore) : SecretStore :=
  foldl (fun s op => (perform op.1 op.2 s).2) s ops.

Definition first_store : SecretStore := opened empty_plaintext [].

(** The namespace an operation acts for; the operator's have none. *)
Definition op_namespace (op : StoreOp) : option str :=
  match op with
  | OpApplyCredential namespace _ _ _ | OpApplyEnvironment namespace _ _ _ | OpDeposit _ namespace _ _ _ => Some namespace
  | _ => None
  end.

(** ** Shape of a step

    However an operation ends, the memory changed in one of four ways, and so did
    the file from the memory before, if it changed at all. *)

Inductive change : option str -> StorePlaintext -> StorePlaintext -> Prop :=
| ch_secrets who p secrets : change who p (with_secrets secrets p)
| ch_operator p secrets catalog :
    ensure_external_entries_untouched (sp_provider_credentials p) catalog = Ok tt ->
    change None p (mkPlaintext secrets catalog (sp_managed_state p))
| ch_record p namespace revision kind environment secrets :
    replayed_record (sp_managed_state p) namespace revision = Ok None ->
    change (Some namespace) p
      (mkPlaintext secrets (drop_previous (sp_managed_state p !! namespace) (sp_provider_credentials p))
         (<[namespace := mkManaged revision None (Some kind) environment]> (sp_managed_state p)))
| ch_credential p namespace revision kind provider_id credential secrets :
    replayed_record (sp_managed_state p) namespace revision = Ok None ->
    pc_source credential = External namespace ->
    (forall set, drop_previous (sp_managed_state p !! namespace) (sp_provider_credentials p) !! provider_id = Some set ->
       external_owner set = Some namespace) ->
    change (Some namespace) p
      (mkPlaintext secrets
         (<[provider_id := aliasless credential]> (drop_previous (sp_managed_state p !! namespace) (sp_provider_credentials p)))
         (<[namespace := mkManaged revision (Some provider_id) (Some kind) ∅]> (sp_managed_state p))).

Definition valid (p : StorePlaintext) : Prop := plaintext_valid p = true.

Record stepped (who : option str) (s s' : SecretStore) : Prop := {
  st_change : change who (ss_memory s) (ss_memory s');
  st_valid : valid (ss_memory s) -> valid (ss_memory s');
  st_disk : ss_disk s' = ss_disk s \/ (change who (ss_memory s) (ss_disk s') /\ valid (ss_disk s'));
}.

Lemma with_secrets_same p : with_secrets (sp_secrets p) p = p.
Proof. by destruct p. Qed.

Lemma change_refl who p : change who p p.
Proof. rewrite <- (with_secrets_same p) at 2. constructor. Qed.

Lemma stepped_refl who s : stepped who s s.
Proof. split; [apply change_refl|done|by left]. Qed.

Lemma valid_secrets secrets p : valid (with_secrets secrets p) <-> valid p.
Proof. done. Qed.

(** The file after a write; only a valid plaintext reaches it. *)
Lemma write_plaintext_cases disk p s :
  (write_plaintext disk p s = (Ok tt, set_disk p s) /\ valid p /\ disk = Written)
  \/ (exists e, write_plaintext disk p s = (Err e, s))
  \/ (write_plaintext disk p s = (Err SecretStoreWrite, set_disk p s) /\ valid p /\ disk = WrittenUnsynced).
Proof. unfold write_plaintext, valid. destruct (plaintext_valid p); simpl; [destruct disk|]; eauto 10. Qed.

Lemma commit_cases disk p s :
  (exists r, commit disk p s = (Ok tt, mkSecretStore p p r) /\ valid p /\ disk = Written)
  \/ (exists e, commit disk p s = (Err e, s))
  \/ (commit disk p s = (Err SecretStoreWrite, set_disk p s) /\ valid p /\ disk = WrittenUnsynced).
Proof. unfold commit. destruct (write_plaintext_cases disk p s) as [(-> & Hv & ->)|[[e ->]|(-> & Hv & ->)]]; eauto 10. Qed.

Lemma set_disk_stepped who s p : change who (ss_memory s) p -> valid p -> stepped who s (set_disk p s).
Proof. intros Hc Hv. split; simpl; [apply change_refl|done|by right]. Qed.

Lemma persist_stepped disk secrets s r :
  stepped None s (persist disk (mkSecretStore (with_secrets secrets (ss_memory s)) (ss_disk s) r)).2.
Proof.
  unfold persist. edestruct write_plaintext_cases as [(-> & ? & ?)|[[? ->]|(-> & ? & ?)]]; simpl.
  all: split; simpl; [constructor|done|auto]. all: right; split; [constructor|done].
Qed.

Lemma insert_all_shape pairs s :
  exists secrets r, insert_all pairs s = mkSecretStore (with_secrets secrets (ss_memory s)) (ss_disk s) r.
Proof.
  revert s. induction pairs as [|[name value] rest IH]; intros [p d r]; simpl.
  - exists (sp_secrets p), r. by rewrite with_secrets_same.
  - destruct (IH (insert_secret name value (register_one value (mkSecretStore p d r)))) as (m & r' & ->). by exists m, r'.
Qed.

Lemma commit_stepped who disk p s :
  change who (ss_memory s) p -> stepped who s (commit disk p s).2.
Proof.
  intros H. destruct (commit_cases disk p s) as [(r & -> & ? & ?)|[[e ->]|(-> & ? & _)]]; simpl; [|apply stepped_refl|].
  - split; simpl; auto.
  - by apply set_disk_stepped.
Qed.

Lemma stage_managed_change p namespace kind revision selection catalog managed outcome secrets :
  stage_managed_state_credential p namespace kind revision selection = Ok (StagedChanged catalog managed outcome) ->
  change (Some namespace) p (mkPlaintext secrets catalog managed).
Proof.
  unfold stage_managed_state_credential. destruct (replayed_record _ _ _) as [[record|]|e] eqn:Er; simpl; [| |done].
  { by destruct (ensure_identical_replay _ _ _ _ _). }
  destruct selection as [sel|]; [|intros [= <- <- <-]; by constructor].
  destruct (negb _) eqn:Eo; [done|]. intros [= <- <- <-]. apply ch_credential; [done..|].
  intros set Hs. rewrite Hs in Eo. apply negb_false_iff in Eo. by apply bool_decide_eq_true in Eo.
Qed.

(** What a deposit has to write, with its outcome: the store with the deposited
    secrets, and the selection staged on it. *)
Definition deposit_plaintext (visible : StorePlaintext) (namespace kind : str) (revision : Z)
    (selection : option ManagedCredentialSelection) : option (ManagedApplyOutcome * StorePlaintext) :=
  match stage_managed_state_credential visible namespace kind revision selection with
  | Ok StagedNoop => Some (Noop, visible)
  | Ok (StagedChanged catalog managed outcome) => Some (outcome, mkPlaintext (sp_secrets visible) catalog managed)
  | Err _ => None
  end.

(** The store before the call, with other secrets in memory. *)
Lemma restored secrets s :
  let s1 := set_memory (with_secrets secrets (ss_memory s)) s in
  set_memory (with_secrets (sp_secrets (ss_memory s)) (ss_memory s1)) s1 = s.
Proof. by destruct s as [[] ? ?]. Qed.

Lemma deposit_finish_cases disk p outcome secrets s :
  let s1 := set_memory (with_secrets secrets (ss_memory s)) s in
  let r := deposit_end s (deposit_finish disk p outcome s1) in
  (completed r.1 = false /\ r.1 <> Panicked /\ r.2 = s)
  \/ (valid p /\ (disk = Written /\ r = (Returned (Ok outcome), register_known_values (mkSecretStore p p (ss_registry s)))
       \/ disk = WrittenUnsynced /\ r = (Returned (Err SecretStoreWrite), set_disk p s))).
Proof.
  intros s1 r. subst r. unfold deposit_finish.
  destruct (write_plaintext_cases disk p s1) as [(-> & Hv & ->)|[[e ->]|(-> & Hv & ->)]]; [right; by auto|left|right; split; [done|right]].
  - simpl. split; [done|]. split; [done|]. apply restored.
  - split; [done|]. unfold s1. by destruct s as [[] ? ?].
Qed.

(** A deposit ends without a trace; with a write, which succeeded or failed after
    the rename; or with nothing to write. *)
Lemma deposit_cases disk deposit namespace kind revision resolve s :
  let r := deposit_and_apply_managed_credential disk deposit namespace kind revision resolve s in
  let secrets := foldl (fun m (entry : str * str) => <[entry.1 := entry.2]> m) (sp_secrets (ss_memory s)) deposit in
  let visible := with_secrets secrets (ss_memory s) in
  (completed r.1 = false /\ r.2 = s)
  \/ (exists selection outcome p, resolve (set_memory visible s) = Resolves (Ok selection)
      /\ deposit_plaintext visible namespace kind revision selection = Some (outcome, p) /\ valid p
      /\ (disk = Written /\ r = (Returned (Ok outcome), register_known_values (mkSecretStore p p (ss_registry s)))
          \/ disk = WrittenUnsynced /\ r = (Returned (Err SecretStoreWrite), set_disk p s)))
  \/ (exists selection, resolve s = Resolves (Ok selection) /\ deposit = []
      /\ stage_managed_state_credential (ss_memory s) namespace kind revision selection = Ok StagedNoop
      /\ r = (Returned (Ok Noop), register_known_values s)).
Proof.
  intros r secrets visible. subst r. unfold deposit_and_apply_managed_credential, deposit_body.
  fold secrets. fold visible. set (s1 := set_memory visible s).
  pose proof (restored secrets s) as Hback. fold visible s1 in Hback.
  destruct (resolve s1) as [[sel|e]|] eqn:Er; [|by left..].
  change (ss_memory s1) with visible.
  destruct (stage_managed_state_credential visible namespace kind revision sel) as [staged|e] eqn:Es; [|by left].
  assert (Hgo : forall outcome p, deposit_plaintext visible namespace kind revision sel = Some (outcome, p) ->
    let r := deposit_end s (deposit_finish disk p outcome s1) in
    (completed r.1 = false /\ r.2 = s)
    \/ (exists selection outcome p, resolve s1 = Resolves (Ok selection)
        /\ deposit_plaintext visible namespace kind revision selection = Some (outcome, p) /\ valid p
        /\ (disk = Written /\ r = (Returned (Ok outcome), register_known_values (mkSecretStore p p (ss_registry s)))
            \/ disk = WrittenUnsynced /\ r = (Returned (Err SecretStoreWrite), set_disk p s)))).
  { intros outcome p Hd. destruct (deposit_finish_cases disk p outcome secrets s) as [(H1 & _ & H2)|[Hv H]]; [by left|right].
    exists sel, outcome, p. done. }
  unfold deposit_plaintext at 1 in Hgo. rewrite Es, Er in Hgo. destruct staged as [|catalog managed outcome].
  - destruct deposit as [|d ds].
    + right; right. assert (s1 = s) as E1 by by destruct s as [[] ? ?].
      assert (visible = ss_memory s) as E2 by by destruct s as [[] ? ?].
      exists sel. rewrite E1 in *. rewrite <- E2. done.
    + destruct (Hgo Noop visible eq_refl) as [H|H]; [left; exact H|right; left; exact H].
  - destruct (Hgo outcome (mkPlaintext secrets catalog managed) eq_refl) as [H|H]; [left; exact H|right; left; exact H].
Qed.

Lemma deposit_disk disk deposit namespace kind revision resolve s :
  let call d := deposit_and_apply_managed_credential d deposit namespace kind revision resolve s in
  ss_disk (call disk).2 = ss_disk s \/ ss_disk (call disk).2 = ss_memory (call Written).2.
Proof.
  intros call. destruct (deposit_cases disk deposit namespace kind revision resolve s) as [[_ H]|[H|H]]; fold (call disk) in H.
  - left. by rewrite H.
  - destruct H as (sel & o & p & Hr & Hp & Hv & [[-> H]|[-> H]]); right; rewrite H; [done|]. simpl.
    unfold call, deposit_and_apply_managed_credential, deposit_body. rewrite Hr. simpl.
    unfold deposit_plaintext in Hp. destruct (stage_managed_state_credential _ _ _ _ _) as [[|c m o']|]; [..|done];
      injection Hp as <- <-; unfold deposit_finish, write_plaintext; unfold valid in Hv.
    + destruct deposit as [|d ds]; [by destruct s as [[] ? ?]|].
      match goal with |- context [plaintext_valid ?q] => by rewrite (Hv : plaintext_valid q = true) end.
    + match goal with |- context [plaintext_valid ?q] => by rewrite (Hv : plaintext_valid q = true) end.
  - destruct H as (sel & _ & _ & _ & H). left. by rewrite H.
Qed.

Lemma deposit_plaintext_change visible namespace kind revision selection outcome p :
  deposit_plaintext visible namespace kind revision selection = Some (outcome, p) -> change (Some namespace) visible p.
Proof.
  unfold deposit_plaintext. destruct (stage_managed_state_credential _ _ _ _ _) as [[|c m o]|] eqn:Es; [..|done].
  - intros [= _ <-]. apply change_refl.
  - intros [= _ <-]. by eapply stage_managed_change.
Qed.

Lemma change_secrets_first who p secrets p' : change who (with_secrets secrets p) p' -> change who p p'.
Proof.
  inversion 1; subst; [exact (ch_secrets who p _)|..]; cbn [with_secrets sp_managed_state sp_provider_credentials] in *.
  - by apply ch_operator.
  - by apply ch_record.
  - by apply ch_credential.
Qed.

Lemma perform_stepped disk op s : stepped (op_namespace op) s (perform disk op s).2.
Proof.
  destruct op as [name value|pairs|name|catalog|catalog removed|ns kind rev sel|ns kind rev env|dep ns kind rev res]; simpl.
  - exact (persist_stepped disk (<[name := value]> (sp_secrets (ss_memory s))) s _).
  - unfold set_many. destruct (insert_all_shape pairs s) as (m & r & ->). apply persist_stepped.
  - unfold delete. destruct (env_reference _ _) as [[? ?]|]; [apply stepped_refl|].
    destruct (sp_secrets _ !! name); [|apply stepped_refl].
    exact (persist_stepped disk (base.delete name (sp_secrets (ss_memory s))) s _).
  - unfold stage_provider_credentials. destruct (ensure_external_entries_untouched _ _) as [[]|] eqn:E; [|apply stepped_refl].
    destruct (negb _) eqn:Ev; [apply stepped_refl|]. apply negb_false_iff in Ev. split; simpl; [by constructor|done|by left].
  - unfold replace_provider_credentials. destruct (ensure_external_entries_untouched _ _) as [[]|] eqn:E; [|apply stepped_refl].
    apply commit_stepped. by constructor.
  - unfold apply_managed_state_credential. destruct (stage_managed_state_credential _ _ _ _ _) as [[|c m o]|] eqn:E;
      [apply stepped_refl| |apply stepped_refl].
    pose proof (stage_managed_change _ _ _ _ _ _ _ _ (sp_secrets (ss_memory s)) E) as Hc.
    pose proof (commit_stepped _ disk _ s Hc) as Hs. by destruct (commit _ _ _) as [[]].
  - unfold apply_managed_state_environment. destruct (replayed_record _ _ _) as [[rec|]|] eqn:E; [| |apply stepped_refl].
    { destruct (_ || _); apply stepped_refl. }
    pose proof (commit_stepped (Some ns) disk _ s (ch_record (ss_memory s) ns rev kind env (sp_secrets (ss_memory s)) E)) as Hs.
    by destruct (commit _ _ _) as [[]].
  - destruct (deposit_cases disk dep ns kind rev res s) as [[_ ->]|[H|H]]; [apply stepped_refl|..].
    + destruct H as (sel & o & p & _ & Hp & Hv & H). apply deposit_plaintext_change, change_secrets_first in Hp.
      destruct H as [[_ ->]|[_ ->]]; [split; simpl; auto|by apply set_disk_stepped].
    + destruct H as (sel & _ & _ & _ & ->). split; simpl; [apply change_refl|done|by left].
Qed.

(** ** Ownership *)

(** The credential a namespace's record names is stored aliasless, under the
    namespace's own provenance. *)
Definition owned (p : StorePlaintext) : Prop :=
  forall namespace record provider_id,
    sp_managed_state p !! namespace = Some record -> ms_provider_id record = Some provider_id ->
    exists credential, sp_provider_credentials p !! provider_id = Some (aliasless credential)
      /\ pc_source credential = External namespace.

(** An entry that is not the actor's: for the operator, one an extension owns;
    for a namespace, one it does not own itself. *)
Definition foreign (who : option str) (set : ProviderCredentialSet) : Prop :=
  match who with None => external_owner set <> None | Some namespace => external_owner set <> Some namespace end.

Lemma untouched_ok current replacement :
  ensure_external_entries_untouched current replacement = Ok tt
  <-> forall provider_id set, current !! provider_id = Some set -> external_owner set <> None ->
      replacement !! provider_id = Some set.
Proof.
  unfold ensure_external_entries_untouched. set (bad := omap _ _).
  assert (forall x, x ∈ bad <-> exists set, current !! x.2 = Some set /\ external_owner set = Some x.1
            /\ replacement !! x.2 <> Some set) as Hbad.
  { intros [n q]. unfold bad. rewrite list_elem_of_omap. split.
    - intros ([k set] & Hk%btree_elem & H). simpl in H. destruct (external_owner set) eqn:E; [|done]. simpl in H.
      case_bool_decide; simplify_eq. by exists set.
    - intros (set & H1 & H2 & H3). exists (q, set). rewrite btree_elem. split; [done|]. simpl in *. rewrite H2. simpl.
      by rewrite bool_decide_false. }
  clearbody bad. destruct bad as [|[n q] rest]; simpl; split; try done.
  - intros _ q set Hq Ho. destruct (decide (replacement !! q = Some set)) as [|Hn]; [done|].
    destruct (external_owner set) as [n|] eqn:En; [|done]. destruct (not_elem_of_nil (n, q)). apply Hbad. eauto.
  - intros H. destruct (proj1 (Hbad (n, q)) ltac:(left)) as (set & H1 & H2 & H3). destruct H3. apply H; [done|]. by rewrite H2.
Qed.

Lemma owned_owner p namespace record provider_id :
  owned p -> sp_managed_state p !! namespace = Some record -> ms_provider_id record = Some provider_id ->
  exists set, sp_provider_credentials p !! provider_id = Some set /\ external_owner set = Some namespace.
Proof.
  intros Ho Hr Hp. destruct (Ho _ _ _ Hr Hp) as (c & Hc & Hs). exists (aliasless c). split; [done|].
  unfold external_owner. simpl. by rewrite Hs.
Qed.

(** Dropping the previous credential only removes an entry of the namespace. *)
Lemma drop_previous_foreign p namespace provider_id set :
  owned p -> sp_provider_credentials p !! provider_id = Some set -> external_owner set <> Some namespace ->
  drop_previous (sp_managed_state p !! namespace) (sp_provider_credentials p) !! provider_id = Some set.
Proof.
  intros Ho Hs Hf. unfold drop_previous. destruct (sp_managed_state p !! namespace) as [r|] eqn:Er; [|done]. simpl.
  destruct (ms_provider_id r) as [q|] eqn:Eq; [|done].
  destruct (owned_owner _ _ _ _ Ho Er Eq) as (set' & Hs' & Ho').
  rewrite lookup_delete_ne; [done|]. intros ->. congruence.
Qed.

Lemma drop_previous_sub record catalog provider_id set :
  drop_previous record catalog !! provider_id = Some set -> catalog !! provider_id = Some set.
Proof. unfold drop_previous. destruct (record ≫= _); [|done]. by rewrite lookup_delete_Some; intros [_ ?]. Qed.

(** A step leaves every entry that is not the actor's as it was. *)
Lemma change_catalog_frame who p p' provider_id set :
  owned p -> change who p p' -> sp_provider_credentials p !! provider_id = Some set -> foreign who set ->
  sp_provider_credentials p' !! provider_id = Some set.
Proof.
  intros Ho Hc Hs Hf. destruct Hc as [who p secrets|p secrets catalog H|p ns rev kind env secrets H|p ns rev kind q c secrets H Hsrc Hown]; simpl.
  - done.
  - rewrite untouched_ok in H. by apply H.
  - by apply drop_previous_foreign.
  - pose proof (drop_previous_foreign _ _ _ _ Ho Hs Hf) as Hd.
    rewrite lookup_insert_ne; [done|]. intros ->. by destruct Hf; apply Hown.
Qed.

Lemma change_managed_frame who p p' namespace :
  change who p p' -> who <> Some namespace -> sp_managed_state p' !! namespace = sp_managed_state p !! namespace.
Proof. intros Hc Hn. destruct Hc; simpl; try done; rewrite lookup_insert_ne; congruence. Qed.

(** What a namespace adds carries its provenance. *)
Lemma change_adds who p p' namespace provider_id set :
  change who p p' -> who = Some namespace -> sp_provider_credentials p' !! provider_id = Some set ->
  sp_provider_credentials p !! provider_id = Some set \/ external_owner set = Some namespace.
Proof.
  intros Hc -> Hs. remember (Some namespace) as who eqn:Ew.
  destruct Hc as [who p secrets|p secrets catalog H|p ns rev kind env secrets H|p ns rev kind q c secrets H Hsrc Hown]; simplify_eq/=.
  - by left.
  - left. by eapply drop_previous_sub.
  - apply lookup_insert_Some in Hs as [[-> <-]|[_ Hs]]; [|left; by eapply drop_previous_sub].
    right. unfold external_owner. simpl. by rewrite Hsrc.
Qed.

Lemma change_owned who p p' : owned p -> change who p p' -> owned p'.
Proof.
  intros Ho Hc ns r q Hr Hq.
  destruct (decide (who = Some ns)) as [->|Hn].
  - remember (Some ns) as who eqn:Ew.
    destruct Hc as [who p secrets|p secrets catalog H|p ns' rev kind env secrets H|p ns' rev kind q' c secrets H Hsrc Hown]; simplify_eq/=.
    + by eapply Ho.
    + rewrite lookup_insert_eq in Hr. by simplify_eq.
    + rewrite lookup_insert_eq in Hr. simplify_eq/=. exists c. by rewrite lookup_insert_eq.
  - rewrite (change_managed_frame _ _ _ _ Hc Hn) in Hr.
    destruct (Ho _ _ _ Hr Hq) as (c & Hl & Hs). exists c. split; [|done].
    eapply change_catalog_frame; [done..|]. unfold foreign, external_owner. simpl. rewrite Hs. destruct who; congruence.
Qed.

(** A namespace's record is replaced only by a later revision; at the same
    revision the record and the credential it names are the same. *)
Lemma change_revisions who p p' namespace record :
  owned p -> change who p p' -> sp_managed_state p !! namespace = Some record ->
  exists record', sp_managed_state p' !! namespace = Some record'
    /\ (ms_revision record < ms_revision record'
        \/ record' = record /\ forall provider_id, ms_provider_id record = Some provider_id ->
             sp_provider_credentials p' !! provider_id = sp_provider_credentials p !! provider_id).
Proof.
  intros Ho Hc Hr. destruct (decide (who = Some namespace)) as [->|Hn].
  - remember (Some namespace) as who eqn:Ew.
    destruct Hc as [who p secrets|p secrets catalog H|p ns rev kind env secrets H|p ns rev kind q c secrets H Hsrc Hown]; simplify_eq/=.
    + exists record. auto.
    + eexists. rewrite lookup_insert_eq. split; [done|]. left. simpl.
      unfold replayed_record in H. rewrite Hr in H. repeat case_match; simplify_eq. lia.
    + eexists. rewrite lookup_insert_eq. split; [done|]. left. simpl.
      unfold replayed_record in H. rewrite Hr in H. repeat case_match; simplify_eq. lia.
  - exists record. rewrite (change_managed_frame _ _ _ _ Hc Hn). split; [done|]. right. split; [done|].
    intros q Hq. destruct (owned_owner _ _ _ _ Ho Hr Hq) as (set & Hs & Hown). rewrite Hs.
    eapply change_catalog_frame; [done..|]. unfold foreign. destruct who; congruence.
Qed.

(** ** Registration with the redactor *)

(** Every value of the plaintext long enough to be redacted is registered. *)
Definition registered (p : StorePlaintext) (registry : list str) : Prop :=
  forall v, v ∈ known_values p -> (MIN_REDACTED_SECRET_LEN <= str_len v)%nat -> v ∈ registry.

Lemma register_one_elem value s v :
  v ∈ ss_registry (register_one value s)
  <-> v ∈ ss_registry s \/ v = value /\ (MIN_REDACTED_SECRET_LEN <= str_len v)%nat.
Proof. simpl. rewrite register_elem by done. by rewrite list_elem_of_singleton. Qed.

Lemma register_known_elem s v :
  v ∈ ss_registry (register_known_values s)
  <-> v ∈ ss_registry s \/ v ∈ known_values (ss_memory s) /\ (MIN_REDACTED_SECRET_LEN <= str_len v)%nat.
Proof. simpl. by rewrite register_elem by done. Qed.

Lemma known_values_secrets secrets p v :
  v ∈ known_values (with_secrets secrets p)
  <-> (exists name, secrets !! name = Some v) \/ v ∈ (btree (sp_provider_credentials p) ≫= fun entry => credential_values entry.1 entry.2).
Proof.
  unfold known_values. rewrite elem_of_app. cbn [with_secrets sp_secrets sp_provider_credentials].
  assert (v ∈ (btree secrets).*2 <-> exists name, secrets !! name = Some v) as ->; [|done].
  rewrite list_elem_of_fmap. split.
  - intros ([k w] & -> & H%btree_elem). by exists k.
  - intros (k & H%btree_elem). by exists (k, v).
Qed.

Lemma known_values_old p v name : sp_secrets p !! name = Some v -> v ∈ known_values p.
Proof. intros H. rewrite <- (with_secrets_same p). apply known_values_secrets. eauto. Qed.

Lemma registered_insert name value s :
  registered (ss_memory s) (ss_registry s) ->
  registered (ss_memory (insert_secret name value (register_one value s)))
    (ss_registry (insert_secret name value (register_one value s))).
Proof.
  intros H v Hv Hl. change (v ∈ ss_registry (register_one value s)). rewrite register_one_elem.
  apply known_values_secrets in Hv as [(k & [[_ <-]|[_ Hk]]%lookup_insert_Some)|Hv]; [by right|..]; left; apply H; try done.
  - by eapply known_values_old.
  - unfold known_values. apply elem_of_app. by right.
Qed.

(** The handle's own values are registered. Those of a file that was written
    without success need not be. *)
Definition watched (s : SecretStore) : Prop := registered (ss_memory s) (ss_registry s).

Lemma registered_mono p r r' : registered p r -> r ⊆ r' -> registered p r'.
Proof. intros H Hs v Hv Hl. by apply Hs, H. Qed.

Lemma registered_known s : registered (ss_memory s) (ss_registry (register_known_values s)).
Proof. intros v Hv Hl. apply register_known_elem. by right. Qed.

Lemma register_known_grows s : ss_registry s ⊆ ss_registry (register_known_values s).
Proof. intros v Hv. apply register_known_elem. by left. Qed.

Lemma write_memory disk p s :
  ss_memory (write_plaintext disk p s).2 = ss_memory s /\ ss_registry (write_plaintext disk p s).2 = ss_registry s.
Proof. by destruct (write_plaintext_cases disk p s) as [(-> & _)|[[e ->]|(-> & _)]]. Qed.

Lemma commit_watched disk p s : watched s -> watched (commit disk p s).2.
Proof.
  intros Hw. unfold commit. destruct (write_plaintext_cases disk p s) as [(-> & _)|[[e ->]|(-> & _)]]; [|done..].
  apply (registered_known (set_memory p (set_disk p s))).
Qed.

Lemma insert_all_watched pairs s :
  watched s -> watched (insert_all pairs s).
Proof.
  revert s. induction pairs as [|[name value] rest IH]; intros s Hs; [done|]. apply IH. by apply registered_insert.
Qed.

Lemma persist_watched disk s : watched s -> watched (persist disk s).2.
Proof. intros H. unfold watched, persist. by destruct (write_memory disk (ss_memory s) s) as [-> ->]. Qed.

Lemma perform_watched disk op s : watched s -> watched (perform disk op s).2.
Proof.
  intros Hw. destruct op as [name value|pairs|name|catalog|catalog removed|ns kind rev sel|ns kind rev env|dep ns kind rev res].
  - exact (persist_watched disk _ (insert_all_watched [(name, value)] s Hw)).
  - exact (persist_watched disk _ (insert_all_watched pairs s Hw)).
  - simpl. unfold delete. destruct (env_reference _ _) as [[? ?]|]; [done|].
    destruct (sp_secrets (ss_memory s) !! name) eqn:E; [|done]. apply persist_watched.
    intros v Hv. apply Hw.
    apply known_values_secrets in Hv as [(k & [_ Hk]%lookup_delete_Some)|Hv]; [by eapply known_values_old|].
    unfold known_values. apply elem_of_app. by right.
  - simpl. unfold stage_provider_credentials. destruct (ensure_external_entries_untouched _ _); [|done].
    destruct (negb _); [done|]. exact (registered_known (set_memory _ s)).
  - simpl. unfold replace_provider_credentials. destruct (ensure_external_entries_untouched _ _); [|done].
    by apply commit_watched.
  - simpl. unfold apply_managed_state_credential. destruct (stage_managed_state_credential _ _ _ _ _) as [[|c m o]|]; [done| |done].
    pose proof (commit_watched disk (mkPlaintext (sp_secrets (ss_memory s)) c m) s Hw). by destruct (commit _ _ _) as [[]].
  - simpl. unfold apply_managed_state_environment. destruct (replayed_record _ _ _) as [[rec|]|]; [by destruct (_ || _)| |done].
    match goal with |- context [commit disk ?p s] => pose proof (commit_watched disk p s Hw) end.
    by destruct (commit _ _ _) as [[]].
  - simpl. destruct (deposit_cases disk dep ns kind rev res s) as [[_ ->]|[H|H]]; [done|..].
    + by destruct H as (sel & o & p & _ & _ & _ & [[_ ->]|[_ ->]]); [exact (registered_known (mkSecretStore p p (ss_registry s)))|].
    + destruct H as (sel & _ & _ & _ & ->). exact (registered_known s).
Qed.

(** ** Invariant of the reachable stores *)

Record sound (s : SecretStore) : Prop := {
  so_memory : valid (ss_memory s);
  so_disk : valid (ss_disk s);
  so_owned : owned (ss_memory s);
  so_disk_owned : owned (ss_disk s);
  so_watched : watched s;
}.

Lemma sound_first : sound first_store.
Proof.
  split; [by vm_compute|by vm_compute| | |exact (registered_known (mkSecretStore empty_plaintext empty_plaintext []))].
  all: intros ns r q H; destruct (lookup_empty_Some (M := gmap str) ns r H).
Qed.

Lemma sound_perform disk op s : sound s -> sound (perform disk op s).2.
Proof.
  intros [Hm Hd Ho Hdo Hw]. destruct (perform_stepped disk op s) as [Hc Hv Hk].
  pose proof (change_owned _ _ _ Ho Hc) as Ho'.
  split; [auto| |done| |by apply perform_watched]; destruct Hk as [->|[Hk ?]]; try done. exact (change_owned _ _ _ Ho Hk).
Qed.

Lemma sound_history ops s : sound s -> sound (history ops s).
Proof. revert s. induction ops as [|op ops IH]; intros s Hs; [done|]. apply IH. by apply sound_perform. Qed.

Lemma history_app ops ops' s : history (ops ++ ops') s = history ops' (history ops s).
Proof. apply foldl_app. Qed.

Lemma history_revisions ops s namespace record :
  sound s -> sp_managed_state (ss_memory s) !! namespace = Some record ->
  exists record', sp_managed_state (ss_memory (history ops s)) !! namespace = Some record'
    /\ (ms_revision record < ms_revision record'
        \/ record' = record /\ forall provider_id, ms_provider_id record = Some provider_id ->
             sp_provider_credentials (ss_memory (history ops s)) !! provider_id
             = sp_provider_credentials (ss_memory s) !! provider_id).
Proof.
  revert s record. induction ops as [|[disk op] ops IH]; intros s record Hs Hr; [by exists record; auto|].
  destruct (change_revisions _ _ _ _ _ (so_owned _ Hs) (st_change _ _ _ (perform_stepped disk op s)) Hr) as (r1 & Hr1 & H1).
  destruct (IH _ _ (sound_perform disk op _ Hs) Hr1) as (r2 & Hr2 & H2).
  exists r2. split; [done|]. destruct H1 as [H1|[-> H1]], H2 as [H2|[-> H2]]; [left; lia|by left|by left|].
  right. split; [done|]. intros q Hq. change (history ((disk, op) :: ops) s) with (history ops (perform disk op s).2).
  by rewrite H2, H1.
Qed.

(** A revision names one state. Once a namespace has a record, at every
    later point of any history, with any mix of operator edits, other namespaces'
    applies and failed writes, it still has one, of a later revision or of the
    same revision with exactly the same record, and then the provider credential
    the record names is, entry for entry, the one stored when it was applied. *)
Theorem revision_names_one_state ops later namespace record :
  let s := history ops first_store in
  let s' := history (ops ++ later) first_store in
  sp_managed_state (ss_memory s) !! namespace = Some record ->
  exists record', sp_managed_state (ss_memory s') !! namespace = Some record'
    /\ ms_revision record <= ms_revision record'
    /\ (ms_revision record' = ms_revision record ->
        record' = record
        /\ forall provider_id, ms_provider_id record = Some provider_id ->
            exists credential, pc_source credential = External namespace
              /\ sp_provider_credentials (ss_memory s) !! provider_id = Some (aliasless credential)
              /\ sp_provider_credentials (ss_memory s') !! provider_id = Some (aliasless credential)).
Proof.
  intros s s' Hr. pose proof (sound_history ops _ sound_first) as Hs. fold s in Hs.
  destruct (history_revisions later s namespace record Hs Hr) as (r' & Hr' & H).
  unfold s'. rewrite history_app. fold s. exists r'. split; [done|].
  destruct H as [H|[-> H]]; [split; [lia|]; intros ?; lia|]. split; [lia|]. intros _. split; [done|]. intros q Hq.
  destruct (so_owned _ Hs _ _ _ Hr Hq) as (c & Hc & Hsrc). exists c. by rewrite (H _ Hq).
Qed.

(** Nobody touches another owner's credentials. Whatever the operation and
    however it ends, from any reachable store: an operator's call keeps every
    entry an extension owns and every namespace's record; a namespace's call keeps
    every entry that is not its own, the operator's included, and every other
    namespace's record, and all that it adds carries its own provenance. *)
Theorem credential_ownership ops disk op :
  let s := history ops first_store in
  let s' := (perform disk op s).2 in
  let catalog := sp_provider_credentials (ss_memory s) in
  let catalog' := sp_provider_credentials (ss_memory s') in
  (forall provider_id set, catalog !! provider_id = Some set -> foreign (op_namespace op) set ->
     catalog' !! provider_id = Some set)
  /\ (forall namespace, op_namespace op <> Some namespace ->
       sp_managed_state (ss_memory s') !! namespace = sp_managed_state (ss_memory s) !! namespace)
  /\ (forall namespace provider_id set, op_namespace op = Some namespace -> catalog' !! provider_id = Some set ->
       catalog !! provider_id = Some set \/ external_owner set = Some namespace).
Proof.
  intros s s' catalog catalog'. pose proof (so_owned _ (sound_history ops _ sound_first)) as Ho.
  pose proof (st_change _ _ _ (perform_stepped disk op s)) as Hc. split; [|split].
  - intros q set. by apply change_catalog_frame.
  - intros ns. by apply change_managed_frame.
  - intros ns q set. by apply change_adds.
Qed.

(** Whatever the store holds is known to the redactor: after any history,
    every secret and every provider credential value in memory, of at least the
    redacted length, is in the registry, companions that are not credentials
    apart. *)
Theorem stored_values_registered ops name value :
  let s := history ops first_store in
  (MIN_REDACTED_SECRET_LEN <= str_len value)%nat ->
  sp_secrets (ss_memory s) !! name = Some value
  \/ (exists provider_id set credential,
        sp_provider_credentials (ss_memory s) !! provider_id = Some set
        /\ (sole set = Some credential \/ exists alias, aliases set !! alias = Some credential)
        /\ pc_values credential !! name = Some value /\ name ∉ non_credential_env_refs provider_id) ->
  value ∈ ss_registry s.
Proof.
  intros s Hl. pose proof (so_watched _ (sound_history ops _ sound_first)) as Hm. fold s in Hm.
  intros [H|(q & set & c & Hq & Hc & Hv & Hn)].
  - apply Hm; [|done]. by eapply known_values_old.
  - apply Hm; [|done]. unfold known_values. apply elem_of_app. right. apply list_elem_of_bind.
    exists (q, set). rewrite btree_elem. split; [|done]. apply list_elem_of_bind. exists c. split.
    + apply list_elem_of_omap. exists (name, value). rewrite btree_elem. split; [done|]. simpl. by rewrite bool_decide_false.
    + apply elem_of_app. simpl. destruct Hc as [->|(a & Ha)]; [left; by apply list_elem_of_singleton|right].
      apply list_elem_of_fmap. exists (a, c). by rewrite btree_elem.
Qed.

(** ** The workload environment *)

(** Every secret a managed environment names is stored. *)
Definition env_resolves (p : StorePlaintext) : Prop :=
  forall namespace record name secret_ref,
    sp_managed_state p !! namespace = Some record -> ms_environment record !! name = Some secret_ref ->
    is_Some (sp_secrets p !! secret_ref).

Definition env_entries (p : StorePlaintext) : list (str * str * str) :=
  btree (sp_managed_state p) ≫= fun ns => (fun v => (ns.1, v.1, v.2)) <$> btree (ms_environment ns.2).

Lemma env_entries_elem p namespace name secret_ref :
  (namespace, name, secret_ref) ∈ env_entries p
  <-> exists record, sp_managed_state p !! namespace = Some record /\ ms_environment record !! name = Some secret_ref.
Proof.
  unfold env_entries. rewrite list_elem_of_bind. split.
  - intros ([ns r] & ([n v] & [= -> -> ->] & H%btree_elem)%list_elem_of_fmap & Hr%btree_elem). by exists r.
  - intros (r & Hr & H). exists (namespace, r). rewrite btree_elem. split; [|done].
    apply list_elem_of_fmap. exists (name, secret_ref). by rewrite btree_elem.
Qed.

Definition add_entry (s : SecretStore) (acc : result SecretError (gmap str str)) (entry : str * str * str)
  : result SecretError (gmap str str) :=
  let? environment := acc in
  let '(namespace, name, secret_ref) := entry in
  match get s secret_ref with
  | Ok value => Ok (<[name := value]> environment)
  | Err (SecretNotFound _) => Err (ExtensionEnvironmentUnresolved namespace name secret_ref)
  | Err other => Err other
  end.

Lemma add_entries_err s entries e : foldl (add_entry s) (Err e) entries = Err e.
Proof. by induction entries. Qed.

(** Entries whose refs are all stored add up; a missing one ends the walk. *)
Lemma add_entries_ok s entries env :
  (forall entry, entry ∈ entries -> is_Some (sp_secrets (ss_memory s) !! entry.2)) ->
  exists env', foldl (add_entry s) (Ok env) entries = Ok env'
    /\ (forall entry, entry ∈ entries -> is_Some (env' !! entry.1.2))
    /\ (forall name, is_Some (env !! name) -> is_Some (env' !! name))
    /\ (forall name value, env' !! name = Some value ->
         env !! name = Some value
         \/ exists entry, entry ∈ entries /\ entry.1.2 = name /\ sp_secrets (ss_memory s) !! entry.2 = Some value).
Proof.
  revert env. induction entries as [|[[ns n] ref] rest IH]; intros env Hall; simpl.
  { exists env. split; [done|]. split; [by intros ? ?%elem_of_nil|]. auto. }
  destruct (Hall (ns, n, ref) ltac:(left)) as [v Hv]. simpl in Hv. unfold get. rewrite Hv.
  destruct (IH (<[n := v]> env)) as (env' & He & H1 & H2 & H3); [intros; apply Hall; by right|].
  exists env'. split; [done|]. split; [|split].
  - intros e [->|Hin]%elem_of_cons; [|by apply H1]. apply H2. simpl. rewrite lookup_insert_eq. eauto.
  - intros name [w Hw]. apply H2. destruct (decide (name = n)) as [->|]; [rewrite lookup_insert_eq|rewrite lookup_insert_ne]; eauto.
  - intros name value Hn. destruct (H3 _ _ Hn) as [[[-> ->]|[_ ?]]%lookup_insert_Some|(e & Hin & He1 & He2)].
    + right. exists (ns, name, ref). split; [left|done].
    + by left.
    + right. exists e. split; [by right|done].
Qed.

Lemma add_entries_missing s entries env entry :
  entry ∈ entries -> sp_secrets (ss_memory s) !! entry.2 = None ->
  exists namespace name secret_ref, foldl (add_entry s) (Ok env) entries
    = Err (ExtensionEnvironmentUnresolved namespace name secret_ref)
    /\ (namespace, name, secret_ref) ∈ entries /\ sp_secrets (ss_memory s) !! secret_ref = None.
Proof.
  revert env. induction entries as [|[[ns n] ref] rest IH]; intros env Hin Hn; [by apply elem_of_nil in Hin|].
  simpl. unfold get. destruct (sp_secrets (ss_memory s) !! ref) as [v|] eqn:Ev.
  - apply elem_of_cons in Hin as [->|Hin]; [simpl in Hn; congruence|].
    destruct (IH (<[n := v]> env) Hin Hn) as (a & b & c & H & Hin' & Hc). exists a, b, c. split; [done|]. split; [by right|done].
  - exists ns, n, ref. rewrite add_entries_err. split; [done|]. split; [left|done].
Qed.

(** The spawn environment exists exactly when every named secret is stored; it
    then sets every declared name, to the value of a ref declared for it. *)
Lemma managed_environment_spec s :
  (env_resolves (ss_memory s) ->
   exists env, managed_environment s = Ok env
     /\ (forall name, is_Some (env !! name) <-> exists namespace secret_ref, (namespace, name, secret_ref) ∈ env_entries (ss_memory s))
     /\ (forall name value, env !! name = Some value -> exists namespace secret_ref,
          (namespace, name, secret_ref) ∈ env_entries (ss_memory s) /\ sp_secrets (ss_memory s) !! secret_ref = Some value))
  /\ (forall entry, entry ∈ env_entries (ss_memory s) ->
      sp_secrets (ss_memory s) !! entry.2 = None ->
      exists namespace name secret_ref, managed_environment s = Err (ExtensionEnvironmentUnresolved namespace name secret_ref)).
Proof.
  split.
  - intros Hr. destruct (add_entries_ok s (env_entries (ss_memory s)) ∅) as (env & He & H1 & _ & H3).
    { intros [[ns n] ref] (r & ? & ?)%env_entries_elem. by eapply Hr. }
    assert (forall name value, env !! name = Some value -> exists namespace secret_ref,
      (namespace, name, secret_ref) ∈ env_entries (ss_memory s) /\ sp_secrets (ss_memory s) !! secret_ref = Some value) as Hval.
    { intros n v Hn. destruct (H3 _ _ Hn) as [Hx|([[ns n'] ref] & Hin & <- & Hs)]; [by rewrite lookup_empty in Hx|].
      by exists ns, ref. }
    exists env. split; [done|]. split; [|done]. intros n. split.
    + intros [v Hn]. destruct (Hval _ _ Hn) as (ns & ref & ? & _). by exists ns, ref.
    + intros (ns & ref & Hin). exact (H1 _ Hin).
  - intros entry Hin Hn. destruct (add_entries_missing s _ ∅ entry Hin Hn) as (a & b & c & H & _). by exists a, b, c.
Qed.

(** What keeps the environments resolving: an environment names stored secrets
    when it is applied, and a replacement removes no secret one names. *)
Definition careful (op : StoreOp) (p : StorePlaintext) : Prop :=
  match op with
  | OpApplyEnvironment _ _ _ environment =>
      forall name secret_ref, environment !! name = Some secret_ref -> is_Some (sp_secrets p !! secret_ref)
  | OpReplace _ removed => forall name, name ∈ removed -> env_reference name (sp_managed_state p) = None
  | _ => True
  end.

Lemma env_reference_none name managed :
  env_reference name managed = None
  <-> forall namespace record variable, managed !! namespace = Some record -> ms_environment record !! variable <> Some name.
Proof.
  unfold env_reference. rewrite head_None. split.
  - intros H ns r v Hr Hv. assert ((ns, v) ∈ @nil (str * str)) as []%elem_of_nil. rewrite <- H.
    apply list_elem_of_bind. exists (ns, r). rewrite btree_elem. split; [|done].
    apply list_elem_of_fmap. exists (v, name). split; [done|]. apply list_elem_of_filter. by rewrite btree_elem.
  - intros H. apply elem_of_nil_inv. intros [ns v] ([ns' r] & ([v' n] & [= -> ->] & Hf)%list_elem_of_fmap & Hr%btree_elem)%list_elem_of_bind.
    apply list_elem_of_filter in Hf as [Hn Hv%btree_elem]. simpl in *. subst. by eapply H.
Qed.

Lemma env_resolves_secrets p secrets catalog :
  env_resolves p -> (forall name, is_Some (sp_secrets p !! name) -> env_reference name (sp_managed_state p) <> None -> is_Some (secrets !! name)) ->
  env_resolves (mkPlaintext secrets catalog (sp_managed_state p)).
Proof.
  intros He Hs ns r n ref Hr Hn. simpl in *. apply Hs; [by eapply He|].
  intros Hx. rewrite env_reference_none in Hx. by eapply Hx.
Qed.

Lemma env_resolves_record p namespace record catalog secrets :
  env_resolves p -> (forall name, is_Some (sp_secrets p !! name) -> is_Some (secrets !! name)) ->
  (forall name secret_ref, ms_environment record !! name = Some secret_ref -> is_Some (secrets !! secret_ref)) ->
  env_resolves (mkPlaintext secrets catalog (<[namespace := record]> (sp_managed_state p))).
Proof.
  intros He Hs Hr ns r n ref Hl Hn. simpl in *. apply lookup_insert_Some in Hl as [[_ <-]|[_ Hl]]; [by eapply Hr|].
  by eapply Hs, He.
Qed.

Lemma insert_all_secrets pairs s name :
  is_Some (sp_secrets (ss_memory s) !! name) -> is_Some (sp_secrets (ss_memory (insert_all pairs s)) !! name).
Proof.
  revert s. induction pairs as [|[n v] rest IH]; intros s H; [done|]. apply IH. simpl.
  destruct (decide (name = n)) as [->|]; [rewrite lookup_insert_eq|rewrite lookup_insert_ne]; eauto.
Qed.

Lemma deposit_secrets (deposit : list (str * str)) (m : gmap str str) name :
  is_Some (m !! name) -> is_Some (foldl (fun m (entry : str * str) => <[entry.1 := entry.2]> m) m deposit !! name).
Proof.
  revert m. induction deposit as [|[n v] rest IH]; intros m H; [done|]. apply IH. simpl.
  destruct (decide (name = n)) as [->|]; [rewrite lookup_insert_eq|rewrite lookup_insert_ne]; eauto.
Qed.

Lemma remove_all_secrets (removed : list str) (m : gmap str str) (name : str) :
  is_Some (m !! name) -> name ∉ removed -> is_Some (foldl (fun m n => base.delete n m) m removed !! name).
Proof.
  revert m. induction removed as [|n rest IH]; intros m H Hn; [done|]. apply not_elem_of_cons in Hn as [Hn Hr].
  apply IH; [|done]. by rewrite lookup_delete_ne.
Qed.

(** The plaintext a persisting call leaves in memory, when only secrets changed. *)
Lemma persist_memory disk s : ss_memory (persist disk s).2 = ss_memory s.
Proof. apply write_memory. Qed.

Lemma commit_memory (P : StorePlaintext -> Prop) disk p s : P (ss_memory s) -> P p -> P (ss_memory (commit disk p s).2).
Proof. intros Hs Hp. by destruct (commit_cases disk p s) as [(r & -> & _)|[[e ->]|(-> & _)]]. Qed.

Lemma staged_resolves p namespace kind revision selection catalog managed outcome :
  stage_managed_state_credential p namespace kind revision selection = Ok (StagedChanged catalog managed outcome) ->
  env_resolves p -> env_resolves (mkPlaintext (sp_secrets p) catalog managed).
Proof.
  intros H He. unfold stage_managed_state_credential in H. destruct (replayed_record _ _ _) as [[record|]|e]; simpl in H; [|..|done].
  { by destruct (ensure_identical_replay _ _ _ _ _). }
  destruct selection as [sel|]; [destruct (negb _); [done|]|]; injection H as <- <- <-.
  all: apply env_resolves_record; [done|done|]; intros n ref Hn; simpl in Hn; by apply lookup_empty_Some in Hn.
Qed.

Lemma deposit_resolves visible namespace kind revision selection outcome p :
  deposit_plaintext visible namespace kind revision selection = Some (outcome, p) -> env_resolves visible -> env_resolves p.
Proof.
  unfold deposit_plaintext. destruct (stage_managed_state_credential _ _ _ _ _) as [[|c m o]|] eqn:Es; [..|done].
  - by intros [= _ <-].
  - intros [= _ <-]. by eapply staged_resolves.
Qed.

Lemma perform_resolves disk op s :
  careful op (ss_memory s) -> env_resolves (ss_memory s) -> env_resolves (ss_memory (perform disk op s).2).
Proof.
  intros Hc He. destruct op as [name value|pairs|name|catalog|catalog removed|ns kind rev sel|ns kind rev env|dep ns kind rev res]; simpl.
  - unfold set. rewrite persist_memory. apply (env_resolves_secrets _ _ _ He). intros n Hn _.
    exact (insert_all_secrets [(name, value)] s n Hn).
  - unfold set_many. rewrite persist_memory. destruct (insert_all_shape pairs s) as (m & r & E).
    pose proof (insert_all_secrets pairs s) as Hi. rewrite E in *. apply (env_resolves_secrets _ _ _ He). auto.
  - unfold delete. destruct (env_reference name _) as [[? ?]|] eqn:Er; [done|].
    destruct (sp_secrets (ss_memory s) !! name); [|done]. rewrite persist_memory. apply (env_resolves_secrets _ _ _ He).
    intros n Hn Href. rewrite lookup_delete_ne; [done|]. congruence.
  - unfold stage_provider_credentials. destruct (ensure_external_entries_untouched _ _); [|done]. destruct (negb _); [done|].
    by apply (env_resolves_secrets _ _ _ He).
  - unfold replace_provider_credentials. destruct (ensure_external_entries_untouched _ _); [|done].
    apply commit_memory; [done|]. apply (env_resolves_secrets _ _ _ He). intros n Hn Href. apply remove_all_secrets; [done|].
    intros Hin. by apply Href, Hc.
  - unfold apply_managed_state_credential. destruct (stage_managed_state_credential _ _ _ _ _) as [[|c m o]|] eqn:Es; [done| |done].
    pose proof (commit_memory env_resolves disk _ s He (staged_resolves _ _ _ _ _ _ _ _ Es He)) as H.
    by destruct (commit _ _ _) as [[]].
  - unfold apply_managed_state_environment. destruct (replayed_record _ _ _) as [[rec|]|]; [by destruct (_ || _)| |done].
    match goal with |- context [commit disk ?p s] => assert (env_resolves (ss_memory (commit disk p s).2)) as H end.
    { apply commit_memory; [done|]. by apply env_resolves_record. }
    by destruct (commit _ _ _) as [[]].
  - destruct (deposit_cases disk dep ns kind rev res s) as [[_ ->]|[H|H]]; [done|..].
    + destruct H as (sel & o & p & _ & Hp & _ & [[_ ->]|[_ ->]]); [|done]. simpl.
      eapply deposit_resolves; [exact Hp|]. apply (env_resolves_secrets _ _ _ He). intros n Hn _. by apply deposit_secrets.
    + by destruct H as (sel & _ & _ & _ & ->).
Qed.

(** A refused apply leaves memory and registry as they were; the file too, unless
    its write failed after the rename. *)
Definition refused (disk : DiskWrite) (s s' : SecretStore) : Prop :=
  ss_memory s' = ss_memory s /\ ss_registry s' = ss_registry s /\ (disk <> WrittenUnsynced -> ss_disk s' = ss_disk s).

Lemma commit_refused disk p s e s' : commit disk p s = (Err e, s') -> refused disk s s'.
Proof.
  destruct (commit_cases disk p s) as [(r & -> & _)|[[e' ->]|(-> & _ & ->)]]; [done|by intros [= _ <-]|].
  intros [= _ <-]. by split_and!.
Qed.

Lemma credential_error_frame disk namespace kind revision selection s e s' :
  apply_managed_state_credential disk namespace kind revision selection s = (Err e, s') -> refused disk s s'.
Proof.
  unfold apply_managed_state_credential. destruct (stage_managed_state_credential _ _ _ _ _) as [[|c m o]|]; [done|..].
  - destruct (commit _ _ _) as [[u|e'] s1] eqn:E; [done|]. intros [= _ <-]. by eapply commit_refused.
  - by intros [= _ <-].
Qed.

Lemma environment_error_frame disk namespace kind revision environment s e s' :
  apply_managed_state_environment disk namespace kind revision environment s = (Err e, s') -> refused disk s s'.
Proof.
  unfold apply_managed_state_environment. destruct (replayed_record _ _ _) as [[rec|]|].
  - destruct (_ || _); [by intros [= _ <-]|done].
  - destruct (commit _ _ _) as [[u|e'] s1] eqn:E; [done|]. intros [= _ <-]. by eapply commit_refused.
  - by intros [= _ <-].
Qed.

Lemma staged_record p namespace kind revision selection catalog managed outcome ns record :
  stage_managed_state_credential p namespace kind revision selection = Ok (StagedChanged catalog managed outcome) ->
  managed !! ns = Some record -> sp_managed_state p !! ns = Some record \/ ms_environment record = ∅.
Proof.
  intros H Hr. unfold stage_managed_state_credential in H. destruct (replayed_record _ _ _) as [[?|]|e]; simpl in H; [|..|done].
  { by destruct (ensure_identical_replay _ _ _ _ _). }
  destruct selection as [sel|]; [destruct (negb _); [done|]|]; injection H as <- <- <-.
  all: apply lookup_insert_Some in Hr as [[_ <-]|[_ Hr]]; auto.
Qed.

(** Where a record's environment comes from. *)
Lemma perform_records disk op s namespace record :
  sp_managed_state (ss_memory (perform disk op s).2) !! namespace = Some record ->
  sp_managed_state (ss_memory s) !! namespace = Some record \/ ms_environment record = ∅
  \/ exists kind revision, op = OpApplyEnvironment namespace kind revision (ms_environment record).
Proof.
  pose proof (st_change _ _ _ (perform_stepped disk op s)) as Hc.
  destruct op as [name value|pairs|name|catalog|catalog removed|ns kind rev sel|ns kind rev env|dep ns kind rev res]; intros Hr.
  1-5: left; by rewrite <- (change_managed_frame _ _ _ _ Hc).
  - simpl in Hr. unfold apply_managed_state_credential in Hr.
    destruct (stage_managed_state_credential _ _ _ _ _) as [[|c m o]|] eqn:Es; [by left| |by left].
    destruct (commit_cases disk (mkPlaintext (sp_secrets (ss_memory s)) c m) s) as [(r & E & _)|[[e E]|(E & _)]];
      rewrite E in Hr; simpl in Hr; [|by left..].
    destruct (staged_record _ _ _ _ _ _ _ _ _ _ Es Hr); auto.
  - simpl in Hr. unfold apply_managed_state_environment in Hr.
    destruct (replayed_record _ _ _) as [[rec|]|]; [by destruct (_ || _); left| |by left].
    match type of Hr with context [commit disk ?p s] => destruct (commit_cases disk p s) as [(r & E & _)|[[e E]|(E & _)]] end;
      rewrite E in Hr; simpl in Hr; [|by left..].
    apply lookup_insert_Some in Hr as [[<- <-]|[_ Hr]]; [|by left]. right; right. by exists kind, rev.
  - simpl in Hr. destruct (deposit_cases disk dep ns kind rev res s) as [[_ E]|[H|H]]; [rewrite E in Hr; by left|..].
    + destruct H as (sel & o & p & _ & Hp & _ & [[_ E]|[_ E]]); rewrite E in Hr; simpl in Hr; [|by left].
      unfold deposit_plaintext in Hp. destruct (stage_managed_state_credential _ _ _ _ _) as [[|c m o']|] eqn:Es; [..|done];
        injection Hp as _ <-; [by left|]. destruct (staged_record _ _ _ _ _ _ _ _ _ _ Es Hr); auto.
    + destruct H as (sel & _ & _ & _ & E). rewrite E in Hr. by left.
Qed.

(** What a write leaves in the file: what was there, or what the same call leaves
    in memory when it succeeds. *)
Lemma persist_disk disk s : ss_disk (persist disk s).2 = ss_disk s \/ ss_disk (persist disk s).2 = ss_memory s.
Proof. unfold persist. destruct (write_plaintext_cases disk (ss_memory s) s) as [(-> & _)|[[e ->]|(-> & _)]]; auto. Qed.

Lemma commit_disk disk p s :
  ss_disk (commit disk p s).2 = ss_disk s \/ ss_disk (commit disk p s).2 = ss_memory (commit Written p s).2.
Proof.
  destruct (commit_cases disk p s) as [(r & E & _ & ->)|[[e ->]|(-> & Hv & _)]]; [right|by left|right].
  - by rewrite E.
  - unfold commit, write_plaintext. by rewrite Hv.
Qed.

Lemma perform_disk disk op s :
  ss_disk (perform disk op s).2 = ss_disk s \/ ss_disk (perform disk op s).2 = ss_memory (perform Written op s).2.
Proof.
  destruct op as [name value|pairs|name|catalog|catalog removed|ns kind rev sel|ns kind rev env|dep ns kind rev res]; simpl.
  - unfold set. rewrite persist_memory. exact (persist_disk disk (insert_secret name value (register_one value s))).
  - unfold set_many. rewrite persist_memory. destruct (insert_all_shape pairs s) as (m & r & ->).
    exact (persist_disk disk (mkSecretStore (with_secrets m (ss_memory s)) (ss_disk s) r)).
  - unfold delete. destruct (env_reference _ _) as [[? ?]|]; [by left|]. destruct (sp_secrets _ !! name); [|by left].
    rewrite persist_memory. exact (persist_disk disk (set_memory _ s)).
  - unfold stage_provider_credentials. left. destruct (ensure_external_entries_untouched _ _); [|done]. by destruct (negb _).
  - unfold replace_provider_credentials. destruct (ensure_external_entries_untouched _ _); [|by left]. apply commit_disk.
  - unfold apply_managed_state_credential. destruct (stage_managed_state_credential _ _ _ _ _) as [[|c m o]|]; [by left| |by left].
    pose proof (commit_disk disk (mkPlaintext (sp_secrets (ss_memory s)) c m) s) as H.
    by destruct (commit disk _ _) as [[]], (commit Written _ _) as [[]].
  - unfold apply_managed_state_environment. destruct (replayed_record _ _ _) as [[rec|]|]; [by destruct (_ || _); left| |by left].
    match goal with |- context [commit disk ?p s] => pose proof (commit_disk disk p s) as H end.
    by destruct (commit disk _ _) as [[]], (commit Written _ _) as [[]].
  - apply deposit_disk.
Qed.

(** C26. The encrypted file always opens. After any history of operations on the
    handle, however the writes to disk ended, what the file decrypts to passes every
    check of opening it, and the handle opened from it holds exactly that. The handle
    in memory is valid too, so storing a secret is refused only for a failed write,
    and when the write succeeds file and memory are equal; deleting one succeeds, when
    the write does, exactly if it is stored and no managed environment names it. *)
Theorem store_always_opens ops :
  let s := history ops first_store in
  (exists s', open_at_paths true true Key (Ciphertext (ss_disk s)) (ss_registry s) = Ok s'
     /\ ss_memory s' = ss_disk s /\ ss_disk s' = ss_disk s)
  /\ (forall name value, set Written name value s
        = (Ok tt, let p := with_secrets (<[name := value]> (sp_secrets (ss_memory s))) (ss_memory s) in
                  mkSecretStore p p (ss_registry (register_one value s))))
  /\ (forall disk name value, disk <> Written -> (set disk name value s).1 = Err SecretStoreWrite)
  /\ (forall name, (delete Written name s).1 = Ok tt
        <-> is_Some (sp_secrets (ss_memory s) !! name)
            /\ forall namespace record variable, sp_managed_state (ss_memory s) !! namespace = Some record ->
                 ms_environment record !! variable <> Some name).
Proof.
  intros s. destruct (sound_history ops first_store sound_first) as [Hm Hd _ _ _]. fold s in Hm, Hd.
  assert (Hw : forall disk secrets reg, persist disk (mkSecretStore (with_secrets secrets (ss_memory s)) (ss_disk s) reg)
    = match disk with
      | Written => (Ok tt, mkSecretStore (with_secrets secrets (ss_memory s)) (with_secrets secrets (ss_memory s)) reg)
      | NotWritten => (Err SecretStoreWrite, mkSecretStore (with_secrets secrets (ss_memory s)) (ss_disk s) reg)
      | WrittenUnsynced =>
          (Err SecretStoreWrite, mkSecretStore (with_secrets secrets (ss_memory s)) (with_secrets secrets (ss_memory s)) reg)
      end).
  { intros disk secrets reg. unfold persist, write_plaintext.
    change (plaintext_valid _) with (plaintext_valid (ss_memory s)). rewrite Hm. by destruct disk. }
  split; [|split; [|split]].
  - unfold open_at_paths. simpl. unfold valid in Hd. rewrite Hd. by eexists.
  - intros name value. exact (Hw Written _ _).
  - intros disk name value Hne.
    assert (E : (set disk name value s).1 = (persist disk (mkSecretStore
      (with_secrets (<[name := value]> (sp_secrets (ss_memory s))) (ss_memory s)) (ss_disk s) (ss_registry (register_one value s)))).1) by done.
    rewrite E, Hw. by destruct disk.
  - intros name. rewrite <- env_reference_none. unfold delete.
    destruct (env_reference name _) as [[ns v]|]; [by split; [|intros [_ ?]]|].
    destruct (sp_secrets (ss_memory s) !! name) as [w|]; [|by split; [|intros [[? ?] _]]].
    change (set_memory _ s) with (mkSecretStore (with_secrets (base.delete name (sp_secrets (ss_memory s))) (ss_memory s))
      (ss_disk s) (ss_registry s)). rewrite Hw. by split; [split; [eexists|]|].
Qed.

(** C13. A deposit is one transaction. When storing the secrets and applying the
    credential ends in a panic of the resolver, nothing has changed; when it ends in
    an error, memory and registry are exactly as before, and so is the file, unless
    the write failed after the new file was renamed into place: then the file holds
    the whole deposit. When it succeeds, memory holds the whole deposit, and so does
    the file (or the call had nothing to write). The whole deposit is the old secrets
    overlaid by the deposited ones, with the catalog and the record that staging on
    that store gives for the selection the resolver found there. *)
Theorem deposit_is_atomic disk deposit namespace kind revision resolve s :
  let r := deposit_and_apply_managed_credential disk deposit namespace kind revision resolve s in
  let secrets := foldl (fun m (entry : str * str) => <[entry.1 := entry.2]> m) (sp_secrets (ss_memory s)) deposit in
  let visible := with_secrets secrets (ss_memory s) in
  let whole outcome p :=
    exists selection, resolve (set_memory visible s) = Resolves (Ok selection)
    /\ match stage_managed_state_credential visible namespace kind revision selection with
       | Ok StagedNoop => outcome = Noop /\ p = visible
       | Ok (StagedChanged catalog managed staged) => outcome = staged /\ p = mkPlaintext secrets catalog managed
       | Err _ => False
       end in
  match r.1 with
  | Panicked => r.2 = s
  | Returned (Err e) =>
      ss_memory r.2 = ss_memory s /\ ss_registry r.2 = ss_registry s
      /\ (ss_disk r.2 = ss_disk s
          \/ disk = WrittenUnsynced /\ e = SecretStoreWrite /\ exists outcome, whole outcome (ss_disk r.2))
  | Returned (Ok outcome) =>
      whole outcome (ss_memory r.2)
      /\ (ss_disk r.2 = ss_memory r.2 \/ deposit = [] /\ outcome = Noop /\ ss_disk r.2 = ss_disk s)
  end.
Proof.
  intros r secrets visible whole.
  destruct (deposit_cases disk deposit namespace kind revision resolve s) as [[Hc Hs]|[H|H]]; fold r in Hc, Hs || fold r in H.
  - clearbody r. destruct r as [[[]|] s']; simpl in *; [done| |done]. rewrite Hs. auto.
  - fold secrets visible in H. destruct H as (sel & o & p & Hr & Hp & _ & H).
    assert (Hw : whole o p).
    { exists sel. split; [done|]. unfold deposit_plaintext in Hp.
      destruct (stage_managed_state_credential _ _ _ _ _) as [[|c m o']|]; [..|done]; by injection Hp as <- <-. }
    destruct H as [[-> ->]|[-> ->]]; simpl; [by auto|]. split_and!; [done..|]. right. split_and!; [done..|]. by exists o.
  - destruct H as (sel & Hr & -> & H & ->). simpl.
    assert (visible = ss_memory s) as Ev by apply with_secrets_same.
    split; [|auto]. exists sel. rewrite Ev. split; [by destruct s|]. by rewrite H.
Qed.

End store.

(** ** Witnesses *)

Definition no_companions (provider_id : str) : list str := [].

Definition demo_selection : ManagedCredentialSelection :=
  mkSelection (lit "openai") {[ lit "OPENAI_API_KEY" := lit "sk-abcdefgh" ]} ∅.

Definition demo_ops : list (DiskWrite * StoreOp) :=
  [(Written, OpSet (lit "TOKEN") (lit "hunter2hunter"));
   (Written, OpApplyCredential (lit "connections") (lit "provider-credential") 3 (Some demo_selection))].

(** An operator's attempt to drop the credential, a stale apply, a failed write
    and another namespace's apply. *)
Definition demo_later : list (DiskWrite * StoreOp) :=
  [(Written, OpReplace ∅ []);
   (Written, OpApplyCredential (lit "connections") (lit "provider-credential") 2 None);
   (NotWritten, OpApplyCredential (lit "connections") (lit "provider-credential") 4 None);
   (Written, OpApplyEnvironment (lit "other") (lit "secret-environment") 1 {[ lit "X" := lit "TOKEN" ]})].

Definition demo_record : ManagedStateRecord := mkManaged 3 (Some (lit "openai")) (Some (lit "provider-credential")) ∅.

Lemma revision_names_one_state_witness :
  exists record', sp_managed_state (ss_memory (history no_companions (demo_ops ++ demo_later) (first_store no_companions)))
    !! lit "connections" = Some record'
    /\ ms_revision demo_record <= ms_revision record'.
Proof.
  assert (sp_managed_state (ss_memory (history no_companions demo_ops (first_store no_companions))) !! lit "connections"
    = Some demo_record) as H by (vm_compute; reflexivity).
  destruct (revision_names_one_state no_companions demo_ops demo_later (lit "connections") demo_record H) as (r & Hr & Hle & _).
  exists r. split; [exact Hr|exact Hle].
Defined.

Lemma stored_values_registered_witness :
  lit "hunter2hunter" ∈ ss_registry (history no_companions demo_ops (first_store no_companions)).
Proof.
  assert (sp_secrets (ss_memory (history no_companions demo_ops (first_store no_companions))) !! lit "TOKEN"
    = Some (lit "hunter2hunter")) as H by (vm_compute; reflexivity).
  apply (stored_values_registered no_companions demo_ops (lit "TOKEN") (lit "hunter2hunter")); [vm_compute; lia|left; exact H].
Defined.
