(* ===== verification/ManagedState.v ===== *)
(** Managed state: what an extension may apply (src/src/extensions/managed_state.rs),
    the environment every workload spawn gets from it
    (src/src/extensions/network_provider.rs, src/src/config/validate/workload_env.rs)
    and the pruning of migrated secrets (src/src/cli/agent/provider_migration.rs).

    The provider tables are embedded data: the lookups in them are parameters. *)

From S2P Require Import Prelude Text Redaction Duration SecretTemplate Secrets.
Open Scope Z_scope.
Open Scope result_scope.

Inductive ExtensionType := NetworkProvider | ManagedStateType.

Record ExtensionConfig := mkExtension {
  extension_type : ExtensionType;
  ext_workload_env : gmap str str;
  capability : option str;
}.

(** The configuration as far as this code reads it: the extensions, the [env]
    entries of each target's agent, the sandbox's workload environment and path,
    and the configured key ref of each custom provider. *)
Record ManagedConfig := mkManagedConfig {
  mc_extensions : gmap str ExtensionConfig;
  mc_target_envs : list (list str);
  mc_workload_env : gmap str str;
  mc_workload_path_prepend : list str;
  mc_custom_api_key_ref : str -> option str;
}.

(** The request as it deserialized. *)
Record CredentialSelection := mkCredentialSelection {
  cs_provider_id : str;
  cs_values : gmap str str;
  cs_source_refs : gmap str str;
}.

Inductive DesiredState :=
| ProviderCredentialState (selection : option CredentialSelection)
| SecretEnvironment (entries : gmap str str).

Record ApplyRequest := mkApplyRequest {
  schema_version : Z;
  rq_revision : Z;
  desired : DesiredState;
}.

Record ApplyResponse := mkApplyResponse {
  applied_revision : Z;
  rs_outcome : ManagedApplyOutcome;
}.

Definition MANAGED_STATE_SCHEMA_VERSION : Z := 1.
Definition KIND_PROVIDER_CREDENTIAL : str := lit "provider-credential".
Definition KIND_SECRET_ENVIRONMENT : str := lit "secret-environment".
Definition MAX_PROVIDER_ID_BYTES : nat := 128.
Definition MAX_VALUE_COUNT : nat := 8.
Definition MAX_ENV_NAME_BYTES : nat := 128.
Definition MAX_VALUE_BYTES : nat := 16 * 1024.
Definition MAX_ENVIRONMENT_ENTRY_COUNT : nat := 128.
Definition MAX_WORKLOAD_ENV_COUNT : nat := 16.
Definition MAX_WORKLOAD_ENV_NAME_BYTES : nat := 128.
Definition MAX_WORKLOAD_ENV_VALUE_BYTES : nat := 16 * 1024.
Definition MAX_WORKLOAD_PATH_PREPEND_COUNT : nat := MAX_WORKLOAD_ENV_COUNT.
Definition MAX_WORKLOAD_PATH_PREPEND_ENTRY_BYTES : nat := MAX_WORKLOAD_ENV_VALUE_BYTES.
Definition RUNTIME_WRITTEN_ENV_NAMES : list str := [lit "PATH"; lit "HOME"].
Definition RUNTIME_MANAGED_LAUNCH_ENV : list str := [lit "PI_ACP_PI_BIN"].
Definition RUNTIME_WRITTEN_ENV_PREFIXES : list str := [lit "ACPS_"; lit "KIMI_MODEL_"].

(** A loop of checks that stops at the first error. *)
Fixpoint check_each {A} (check : A -> result SecretError unit) (l : list A) : result SecretError unit :=
  match l with
  | [] => Ok tt
  | x :: rest => let? _ := check x in check_each check rest
  end.

(** ** Workload environment rules *)

Definition runtime_written_env_names : list str := RUNTIME_WRITTEN_ENV_NAMES ++ RUNTIME_MANAGED_LAUNCH_ENV.

Definition runtime_written_name (name : str) : bool :=
  bool_decide (name ∈ runtime_written_env_names)
  || existsb (fun prefix => starts_with prefix name) RUNTIME_WRITTEN_ENV_PREFIXES.

Definition runtime_written_conflict (config : ManagedConfig) (name : str) : bool :=
  runtime_written_name name
  || existsb (fun entry : str * ExtensionConfig =>
       match extension_type entry.2 with NetworkProvider => true | _ => false end
       && bool_decide (is_Some (ext_workload_env entry.2 !! name)))
     (btree (mc_extensions config)).

Definition invalid_env : SecretError := SecretInvalidParam "workspace.sandbox.workload_env".
Definition invalid_path : SecretError := SecretInvalidParam "workspace.sandbox.workload_path_prepend".

Definition validate_name (name : str) : result SecretError unit :=
  if (MAX_WORKLOAD_ENV_NAME_BYTES <? str_len name)%nat then Err invalid_env
  else if negb (is_valid_secret_ref_name name) then Err invalid_env
  else Ok tt.

Definition refuse_runtime_managed (config : ManagedConfig) (name : str) : result SecretError unit :=
  if bool_decide (name = lit "PATH") then Err invalid_env
  else if runtime_written_conflict config name || existsb (fun env => agent_env_declares env name) (mc_target_envs config)
  then Err invalid_env else Ok tt.

Definition validate_path_entry (entry : str) : result SecretError unit :=
  if bool_decide (0 ∈ entry) then Err invalid_path
  else if bool_decide (chr ":" ∈ entry) then Err invalid_path
  else if (MAX_WORKLOAD_PATH_PREPEND_ENTRY_BYTES <? str_len entry)%nat then Err invalid_path
  else if negb (starts_with (lit "/") entry) then Err invalid_path
  else Ok tt.

Definition validate_path_prepend (entries : list str) : result SecretError unit :=
  if (MAX_WORKLOAD_PATH_PREPEND_COUNT <? length entries)%nat then Err invalid_path
  else check_each validate_path_entry entries.

Definition validate_workload_env (config : ManagedConfig) : result SecretError unit :=
  if (MAX_WORKLOAD_ENV_COUNT <? size (mc_workload_env config))%nat then Err invalid_env
  else
    let? _ := check_each (fun entry : str * str =>
      let? _ := validate_name entry.1 in
      let? _ := refuse_runtime_managed config entry.1 in
      if bool_decide (entry.2 = []) || (MAX_WORKLOAD_ENV_VALUE_BYTES <? str_len entry.2)%nat then Err invalid_env
      else if bool_decide (0 ∈ entry.2) then Err invalid_env
      else Ok tt) (btree (mc_workload_env config)) in
    validate_path_prepend (mc_workload_path_prepend config).

(** [apply_workload_env]; the extension is the resolved network provider. *)
Definition apply_workload_env (provider : option ExtensionConfig) (env : gmap str str) : gmap str str :=
  match provider with
  | None => env
  | Some provider =>
      foldl (fun env (entry : str * str) =>
               if bool_decide (entry.1 = lit "PATH") || bool_decide (entry.1 = lit "HOME") then env
               else <[entry.1 := entry.2]> env)
        env (btree (ext_workload_env provider))
  end.

Section managed.
(** The embedded provider tables: the API-key variable of a provider, the
    companions it requires, the variables it allows, and those that hold no key. *)
Context (env_var_for_provider_id : str -> option str) (companion_env_refs optional_env_refs : str -> list str).
Context (non_credential_env_refs : str -> list str).

Definition validate_bounded (field : string) (value : str) (max_bytes : nat) : result SecretError unit :=
  if bool_decide (value = []) then Err (SecretInvalidParam field)
  else if (max_bytes <? str_len value)%nat then Err (SecretInvalidParam field)
  else Ok tt.

Definition source_ref_error (field : string) (error : SecretError) : SecretError :=
  match error with SecretNotFound _ => SecretInvalidParam field | other => other end.

Definition require_declared_kind (config : ManagedConfig) (namespace kind : str) : result SecretError unit :=
  if bool_decide (mc_extensions config !! namespace ≫= capability = Some kind) then Ok tt
  else Err (SecretInvalidParam "desired.kind").

(** The provider's contract: the key and every companion are required, the
    optional variables are allowed, no value is empty. *)
Definition validate_env_keyed_credential_values (provider_id : str) (values : gmap str str) (field : string)
  : result SecretError unit :=
  match env_var_for_provider_id provider_id with
  | None => Err (SecretInvalidParam field)
  | Some primary_env =>
      let companions := companion_env_refs provider_id in
      let optional := optional_env_refs provider_id in
      let? _ := check_each (fun required =>
        if bool_decide (is_Some (values !! required)) then Ok tt else Err (SecretInvalidParam field))
        (primary_env :: companions) in
      check_each (fun entry : str * str =>
        if negb (bool_decide (entry.1 = primary_env) || bool_decide (entry.1 ∈ companions) || bool_decide (entry.1 ∈ optional))
        then Err (SecretInvalidParam field)
        else if bool_decide (entry.2 = []) then Err (SecretInvalidParam field)
        else Ok tt) (btree values)
  end.

Definition validate_custom_provider_credential_values (api_key_ref : str) (values : gmap str str) (field : string)
  : result SecretError unit :=
  if negb (bool_decide (is_Some (values !! api_key_ref))) then Err (SecretInvalidParam field)
  else
    check_each (fun entry : str * str =>
      if negb (bool_decide (entry.1 = api_key_ref)) then Err (SecretInvalidParam field)
      else if bool_decide (entry.2 = []) then Err (SecretInvalidParam field)
      else Ok tt) (btree values).

(** The refs in name order, each checked and read into [values]. *)
Fixpoint resolve_refs (store : SecretStore) (refs : list (str * str)) (values : gmap str str)
  : result SecretError (gmap str str) :=
  match refs with
  | [] => Ok values
  | (env_name, ref_name) :: rest =>
      let field := "desired.selection.source_refs"%string in
      let? _ := validate_bounded field env_name MAX_ENV_NAME_BYTES in
      let? _ := validate_bounded field ref_name MAX_ENV_NAME_BYTES in
      if bool_decide (is_Some (values !! env_name)) then Err (SecretInvalidParam field)
      else
        match get store ref_name with
        | Err e => Err (source_ref_error field e)
        | Ok value => resolve_refs store rest (<[env_name := value]> values)
        end
  end.

Definition resolve_selection (store : SecretStore) (config : ManagedConfig) (selection : CredentialSelection)
  : result SecretError ManagedCredentialSelection :=
  let provider_id := cs_provider_id selection in
  let? _ := validate_bounded "desired.selection.provider_id" provider_id MAX_PROVIDER_ID_BYTES in
  if bool_decide (cs_values selection = ∅) && bool_decide (cs_source_refs selection = ∅)
  then Err (SecretInvalidParam "desired.selection")
  else if (MAX_VALUE_COUNT <? size (cs_values selection) + size (cs_source_refs selection))%nat
  then Err (SecretInvalidParam "desired.selection")
  else
    let? _ := check_each (fun entry : str * str =>
      let? _ := validate_bounded "desired.selection.values" entry.1 MAX_ENV_NAME_BYTES in
      if bool_decide (entry.2 = []) || (MAX_VALUE_BYTES <? str_len entry.2)%nat
      then Err (SecretInvalidParam "desired.selection.values") else Ok tt) (btree (cs_values selection)) in
    let? values := resolve_refs store (btree (cs_source_refs selection)) (cs_values selection) in
    let? _ :=
      match env_var_for_provider_id provider_id, mc_custom_api_key_ref config provider_id with
      | Some _, _ => validate_env_keyed_credential_values provider_id values "desired.selection.values"
      | None, Some api_key_ref => validate_custom_provider_credential_values api_key_ref values "desired.selection.values"
      | None, None => Err (SecretInvalidParam "desired.selection.provider_id")
      end in
    Ok (mkSelection provider_id values (cs_source_refs selection)).

Definition ENVIRONMENT_FIELD : string := "desired.entries".

Definition validate_environment_entry (store : SecretStore) (config : ManagedConfig) (namespace : str) (entry : str * str)
  : result SecretError unit :=
  let invalid := SecretInvalidParam ENVIRONMENT_FIELD in
  let? _ := check_each (fun value =>
    let? _ := validate_bounded ENVIRONMENT_FIELD value MAX_ENV_NAME_BYTES in
    if negb (is_valid_secret_ref_name value) then Err invalid else Ok tt) [entry.1; entry.2] in
  if runtime_written_conflict config entry.1 then Err invalid
  else if existsb (fun held : str * ManagedStateRecord =>
            negb (bool_decide (held.1 = namespace)) && bool_decide (is_Some (ms_environment held.2 !! entry.1)))
          (btree (sp_managed_state (ss_memory store))) then Err invalid
  else match get store entry.2 with Ok _ => Ok tt | Err e => Err (source_ref_error ENVIRONMENT_FIELD e) end.

Definition validate_environment (store : SecretStore) (config : ManagedConfig) (namespace : str) (entries : gmap str str)
  : result SecretError unit :=
  if (MAX_ENVIRONMENT_ENTRY_COUNT <? size entries)%nat then Err (SecretInvalidParam ENVIRONMENT_FIELD)
  else check_each (validate_environment_entry store config namespace) (btree entries).

(** [selection.map(resolve).transpose()] *)
Definition resolve_optional (store : SecretStore) (config : ManagedConfig) (selection : option CredentialSelection)
  : result SecretError (option ManagedCredentialSelection) :=
  match selection with
  | None => Ok None
  | Some selection => let? resolved := resolve_selection store config selection in Ok (Some resolved)
  end.

Definition respond (revision : Z) (r : result SecretError ManagedApplyOutcome) : result SecretError ApplyResponse :=
  match r with Ok outcome => Ok (mkApplyResponse revision outcome) | Err e => Err e end.

Definition apply (disk : DiskWrite) (config : ManagedConfig) (namespace : str) (request : ApplyRequest) (store : SecretStore)
  : result SecretError ApplyResponse * SecretStore :=
  if negb (schema_version request =? MANAGED_STATE_SCHEMA_VERSION) then (Err (SecretInvalidParam "schema_version"), store)
  else
    match desired request with
    | ProviderCredentialState selection =>
        match (let? _ := require_declared_kind config namespace KIND_PROVIDER_CREDENTIAL in
               resolve_optional store config selection) with
        | Err e => (Err e, store)
        | Ok resolved =>
            let r := apply_managed_state_credential non_credential_env_refs disk namespace KIND_PROVIDER_CREDENTIAL
                       (rq_revision request) resolved store in
            (respond (rq_revision request) r.1, r.2)
        end
    | SecretEnvironment entries =>
        match (let? _ := require_declared_kind config namespace KIND_SECRET_ENVIRONMENT in
               validate_environment store config namespace entries) with
        | Err e => (Err e, store)
        | Ok _ =>
            let r := apply_managed_state_environment non_credential_env_refs disk namespace KIND_SECRET_ENVIRONMENT
                       (rq_revision request) entries store in
            (respond (rq_revision request) r.1, r.2)
        end
    end.

(** The closure the deposit hands to the store. *)
Definition deposit_resolver (config : ManagedConfig) (selection : option CredentialSelection) (store : SecretStore) : Resolved :=
  Resolves (resolve_optional store config selection).

(** [None]: the resolver's panic is resumed. *)
Definition deposit_and_apply (disk : DiskWrite) (config : ManagedConfig) (namespace : str) (secrets : list (str * str))
    (request : ApplyRequest) (store : SecretStore) : option (result SecretError ApplyResponse) * SecretStore :=
  if negb (schema_version request =? MANAGED_STATE_SCHEMA_VERSION)
  then (Some (Err (SecretInvalidParam "schema_version")), store)
  else
    match desired request with
    | SecretEnvironment _ => (Some (Err (SecretInvalidParam "desired.kind")), store)
    | ProviderCredentialState selection =>
        match require_declared_kind config namespace KIND_PROVIDER_CREDENTIAL with
        | Err e => (Some (Err e), store)
        | Ok _ =>
            match deposit_and_apply_managed_credential non_credential_env_refs disk secrets namespace
                    KIND_PROVIDER_CREDENTIAL (rq_revision request) (deposit_resolver config selection) store with
            | (Returned r, store') => (Some (respond (rq_revision request) r), store')
            | (Panicked, store') => (None, store')
            end
        end
    end.

(** ** The spawn environment *)

Definition layer_environment (owner_only : bool) (k : KeyFile) (f : StoreFile) (registry : list str) (env : gmap str str)
  : result SecretError (gmap str str) :=
  let? managed := managed_environment_for_home non_credential_env_refs owner_only k f registry in
  Ok (foldl (fun env (entry : str * str) =>
               match env !! entry.1 with Some _ => env | None => <[entry.1 := entry.2]> env end)
        env (btree managed)).

(** ** Pruning *)

Definition migrated_flat_secret_candidates (catalog : Catalog) : list str :=
  btree catalog ≫= fun entry =>
  filter (fun c => pc_migrated c = true) (option_list (sole entry.2) ++ (btree (aliases entry.2)).*2) ≫= fun credential =>
  (btree (pc_source_refs credential)).*2.

(** [references]: whether the configuration names the secret. *)
Definition prune_migrated_flat_secrets_with_candidates (disk : DiskWrite) (references : str -> bool) (retained : list str)
    (store : SecretStore) : result SecretError unit * SecretStore :=
  let catalog := sp_provider_credentials (ss_memory store) in
  let candidates := filter (fun name => references name = false) (migrated_flat_secret_candidates catalog ++ retained) in
  match candidates with
  | [] => (Ok tt, store)
  | _ => replace_provider_credentials non_credential_env_refs disk catalog (merge_sort text_le (remove_dups candidates)) store
  end.

(** ** The store of a home

    Every request, command and spawn opens the file for itself: handles of any number
    of tasks and processes write it, each from its own memory. *)

Inductive DaemonOp :=
| DSet (name value : str)
| DSetMany (pairs : list (str * str))
| DDelete (name : str)
| DStage (catalog : Catalog)
| DReplace (catalog : Catalog) (remove_flat_secrets : list str)
| DApply (config : ManagedConfig) (namespace : str) (request : ApplyRequest)
| DDeposit (config : ManagedConfig) (namespace : str) (secrets : list (str * str)) (request : ApplyRequest).

Definition daemon_step (disk : DiskWrite) (op : DaemonOp) (s : SecretStore) : SecretStore :=
  match op with
  | DSet name value => (set disk name value s).2
  | DSetMany pairs => (set_many disk pairs s).2
  | DDelete name => (delete disk name s).2
  | DStage catalog => (stage_provider_credentials non_credential_env_refs catalog s).2
  | DReplace catalog removed => (replace_provider_credentials non_credential_env_refs disk catalog removed s).2
  | DApply config namespace request => (apply disk config namespace request s).2
  | DDeposit config namespace secrets request => (deposit_and_apply disk config namespace secrets request s).2
  end.

(** The file, and the handles opened so far. *)
Record Home := mkHome { hm_file : StorePlaintext; hm_handles : list SecretStore }.

Inductive HomeEvent := OpenStore | UseStore (handle : nat) (disk : DiskWrite) (op : DaemonOp).

Definition home_step (h : Home) (event : HomeEvent) : Home :=
  match event with
  | OpenStore =>
      match open_at_paths non_credential_env_refs true true Key (Ciphertext (hm_file h)) [] with
      | Ok s => mkHome (hm_file h) (hm_handles h ++ [s])
      | Err _ => h
      end
  | UseStore handle disk op =>
      match hm_handles h !! handle with
      | Some s =>
          let s' := daemon_step disk op (set_disk (hm_file h) s) in
          mkHome (ss_disk s') (<[handle := s']> (hm_handles h))
      | None => h
      end
  end.

Definition first_home : Home := mkHome empty_plaintext [].

(** A replacement of the catalog removes no flat secret that an environment names. *)
Definition spares (op : DaemonOp) (p : StorePlaintext) : Prop :=
  match op with
  | DReplace _ removed =>
      forall name namespace record variable, name ∈ removed -> sp_managed_state p !! namespace = Some record ->
        ms_environment record !! variable <> Some name
  | _ => True
  end.

Definition event_spares (h : Home) (event : HomeEvent) : Prop :=
  match event with
  | UseStore handle _ op => forall s, hm_handles h !! handle = Some s -> spares op (ss_memory s)
  | OpenStore => True
  end.

(** Every event of a history spares what the handle it uses knows to be named. *)
Fixpoint sparing (h : Home) (events : list HomeEvent) : Prop :=
  match events with
  | [] => True
  | event :: rest => event_spares h event /\ sparing (home_step h event) rest
  end.

Fixpoint sparing_check (h : Home) (events : list HomeEvent) : bool :=
  match events with
  | [] => true
  | event :: rest =>
      match event with
      | UseStore handle _ (DReplace _ removed) =>
          match hm_handles h !! handle with
          | Some s => forallb (fun name => match env_reference name (sp_managed_state (ss_memory s)) with None => true | _ => false end) removed
          | None => true
          end
      | _ => true
      end && sparing_check (home_step h event) rest
  end.

Lemma sparing_check_ok h events : sparing_check h events = true -> sparing h events.
Proof.
  revert h. induction events as [|event rest IH]; intros h; [done|]. cbn [sparing_check sparing].
  intros [H1 H2]%andb_true_iff. split; [|by apply IH]. destruct event as [|handle disk op]; [done|].
  intros s Hs. destruct op; try done. rewrite Hs in H1. intros name ns rec v Hin.
  rewrite forallb_forall in H1. specialize (H1 name). rewrite <- list_elem_of_In in H1. specialize (H1 Hin).
  destruct (env_reference _ _) eqn:E; [done|]. by apply env_reference_none.
Qed.

Lemma check_each_ok {A} (check : A -> result SecretError unit) l :
  check_each check l = Ok tt <-> forall x, x ∈ l -> check x = Ok tt.
Proof.
  induction l as [|a l IH]; simpl; [split; [by intros _ x ?%elem_of_nil|done]|].
  destruct (check a) as [[]|e] eqn:Ea; simpl.
  - rewrite IH. split; [intros H x [->|Hx]%elem_of_cons; auto|intros H x Hx; apply H; by right].
  - split; [done|]. intros H. rewrite (H a) in Ea; [done|left].
Qed.

(** What an environment that passed holds. *)
Lemma validate_environment_ok store config namespace entries name secret_ref :
  validate_environment store config namespace entries = Ok tt -> entries !! name = Some secret_ref ->
  runtime_written_conflict config name = false /\ is_valid_secret_ref_name name = true
  /\ is_Some (sp_secrets (ss_memory store) !! secret_ref)
  /\ forall other record, other <> namespace -> sp_managed_state (ss_memory store) !! other = Some record ->
      ms_environment record !! name = None.
Proof.
  unfold validate_environment. destruct (_ <? _)%nat; [done|]. rewrite check_each_ok. intros H Hn.
  specialize (H (name, secret_ref)). rewrite btree_elem in H. specialize (H Hn).
  unfold validate_environment_entry in H. cbn [fst snd check_each] in H.
  destruct (validate_bounded _ name _); [|done]. simpl in H. destruct (is_valid_secret_ref_name name); [|done].
  simpl in H. destruct (validate_bounded _ secret_ref _); [|done]. simpl in H.
  destruct (is_valid_secret_ref_name secret_ref); [|done]. simpl in H.
  destruct (runtime_written_conflict config name); [done|]. destruct (existsb _ _) eqn:Ex; [done|].
  split; [done|]. split; [done|]. split.
  - unfold get in H. destruct (sp_secrets _ !! secret_ref); [eauto|done].
  - intros other record Ho Hr. destruct (ms_environment record !! name) as [v|] eqn:Ev; [|done].
    rewrite <- not_true_iff_false, existsb_exists in Ex. destruct Ex. exists (other, record).
    rewrite <- list_elem_of_In, btree_elem. split; [done|]. simpl. rewrite bool_decide_false by done. rewrite Ev. done.
Qed.

(** Each declared name is the runtime's to give and has one namespace. *)
Definition names_apart (managed : ManagedState) : Prop :=
  forall namespace record name, managed !! namespace = Some record -> is_Some (ms_environment record !! name) ->
    runtime_written_name name = false
    /\ forall other record', managed !! other = Some record' -> is_Some (ms_environment record' !! name) -> other = namespace.

(** Every daemon operation is nothing or one store operation, and the
    environments it applies passed the checks on the store they are applied to. *)
Lemma daemon_step_perform op s :
  spares op (ss_memory s) ->
  (forall disk, daemon_step disk op s = s)
  \/ exists o, (forall disk, daemon_step disk op s = (perform non_credential_env_refs disk o s).2) /\ careful o (ss_memory s)
     /\ forall namespace kind revision entries, o = OpApplyEnvironment namespace kind revision entries ->
        exists config, validate_environment s config namespace entries = Ok tt.
Proof.
  intros Hsp. destruct op as [name value|pairs|name|catalog|catalog removed|config ns rq|config ns secrets rq]; simpl.
  - right. by exists (OpSet name value).
  - right. by exists (OpSetMany pairs).
  - right. by exists (OpDelete name).
  - right. by exists (OpStage catalog).
  - right. exists (OpReplace catalog removed). split; [done|]. split; [|done]. intros n Hn. apply env_reference_none.
    intros ns rec v. by apply Hsp.
  - unfold apply. destruct (negb _); [by left|]. destruct (desired rq) as [selection|entries].
    + destruct (rbind _ _) as [resolved|]; [|by left]. right.
      by exists (OpApplyCredential ns KIND_PROVIDER_CREDENTIAL (rq_revision rq) resolved).
    + destruct (require_declared_kind _ _ _); [simpl|by left].
      destruct (validate_environment s config ns entries) as [[]|] eqn:Ev; [|by left]. right.
      exists (OpApplyEnvironment ns KIND_SECRET_ENVIRONMENT (rq_revision rq) entries). split; [done|]. split.
      * intros n ref Hn. by apply (validate_environment_ok _ _ _ _ _ _ Ev Hn).
      * intros ? ? ? ? [= <- <- <- <-]. by exists config.
  - unfold deposit_and_apply. destruct (negb _); [by left|]. destruct (desired rq) as [selection|entries]; [|by left].
    destruct (require_declared_kind _ _ _); [|by left]. right.
    exists (OpDeposit secrets ns KIND_PROVIDER_CREDENTIAL (rq_revision rq) (deposit_resolver config selection)).
    split; [|done]. intros disk. simpl. by destruct (deposit_and_apply_managed_credential _ _ _ _ _ _ _) as [[]].
Qed.

Lemma names_apart_step disk op s :
  spares op (ss_memory s) ->
  names_apart (sp_managed_state (ss_memory s)) -> names_apart (sp_managed_state (ss_memory (daemon_step disk op s))).
Proof.
  intros Hsp Ha. destruct (daemon_step_perform op s Hsp) as [Hn|(o & Ho & _ & Henv)]; [by rewrite Hn|]. rewrite Ho. clear Ho.
  set (s' := (perform _ disk o s).2).
  assert (forall ns r name, sp_managed_state (ss_memory s') !! ns = Some r -> is_Some (ms_environment r !! name) ->
    sp_managed_state (ss_memory s) !! ns = Some r
    \/ runtime_written_name name = false
       /\ forall other r', other <> ns -> sp_managed_state (ss_memory s) !! other = Some r' -> ms_environment r' !! name = None) as Hnew.
  { intros ns r name Hr [ref Hn]. destruct (perform_records _ disk o s ns r Hr) as [?|[E|(kind & rev & E)]]; [by left|..].
    { by rewrite E, lookup_empty in Hn. }
    right. destruct (Henv _ _ _ _ E) as [config Hv].
    destruct (validate_environment_ok _ _ _ _ _ _ Hv Hn) as (Hw & _ & _ & Ho). split; [|done].
    unfold runtime_written_conflict in Hw. by apply orb_false_iff in Hw as [? _]. }
  assert (forall ns other r r' name, ns <> other -> sp_managed_state (ss_memory s') !! ns = Some r ->
    sp_managed_state (ss_memory s') !! other = Some r' -> is_Some (ms_environment r !! name) -> is_Some (ms_environment r' !! name) ->
    sp_managed_state (ss_memory s) !! other = Some r' \/ sp_managed_state (ss_memory s) !! ns = Some r) as Hone.
  { intros ns other r r' name Hne Hr Hr' _ _. destruct (decide (op_namespace o = Some ns)) as [E|E].
    - left. rewrite <- Hr'. symmetry. eapply change_managed_frame; [apply perform_stepped|]. congruence.
    - right. rewrite <- Hr. symmetry. eapply change_managed_frame; [apply perform_stepped|done]. }
  intros ns r name Hr Hn. split.
  - destruct (Hnew _ _ _ Hr Hn) as [Hold|[? _]]; [|done]. by apply (Ha _ _ _ Hold Hn).
  - intros other r' Hr' Hn'. destruct (decide (other = ns)) as [|Hne]; [done|]. exfalso.
    destruct (Hone ns other r r' name) as [Hold|Hold]; try done.
    + destruct (Hnew _ _ _ Hr Hn) as [Hold2|[_ Ho]].
      * by apply Hne, (proj2 (Ha _ _ _ Hold2 Hn) _ _ Hold).
      * destruct Hn' as [x Hx]. rewrite (Ho _ _ Hne Hold) in Hx. done.
    + destruct (Hnew _ _ _ Hr' Hn') as [Hold2|[_ Ho]].
      * by apply Hne, (proj2 (Ha _ _ _ Hold Hn) _ _ Hold2).
      * destruct Hn as [x Hx]. rewrite (Ho ns r) in Hx; done.
Qed.

(** A plaintext that opens and gives every spawn its environment. *)
Record steady (p : StorePlaintext) : Prop := {
  sy_valid : valid p;
  sy_resolves : env_resolves p;
  sy_apart : names_apart (sp_managed_state p);
}.

Lemma steady_memory disk op s :
  spares op (ss_memory s) -> steady (ss_memory s) -> steady (ss_memory (daemon_step disk op s)).
Proof.
  intros Hsp [Hv Hr Ha]. split; [| |by apply names_apart_step];
    destruct (daemon_step_perform op s Hsp) as [Hn|(o & Ho & Hc & _)]; rewrite ?Hn, ?Ho; try done.
  - by apply (st_valid _ _ _ (perform_stepped non_credential_env_refs disk o s)).
  - by apply perform_resolves.
Qed.

Lemma steady_disk disk op s :
  spares op (ss_memory s) -> steady (ss_memory s) -> steady (ss_disk s) -> steady (ss_disk (daemon_step disk op s)).
Proof.
  intros Hsp Hm Hd. pose proof (steady_memory Written op s Hsp Hm) as Hw.
  destruct (daemon_step_perform op s Hsp) as [Hn|(o & Ho & _)]; [by rewrite Hn|]. rewrite Ho in *.
  by destruct (perform_disk non_credential_env_refs disk o s) as [->| ->].
Qed.

Lemma steady_empty : steady empty_plaintext.
Proof.
  split; [by vm_compute|..]; intros ns r n.
  - intros ref H. destruct (lookup_empty_Some (M := gmap str) ns r H).
  - intros H. destruct (lookup_empty_Some (M := gmap str) ns r H).
Qed.

Definition home_ok (h : Home) : Prop := steady (hm_file h) /\ Forall (fun s => steady (ss_memory s)) (hm_handles h).

Lemma home_step_ok h event : event_spares h event -> home_ok h -> home_ok (home_step h event).
Proof.
  intros Hsp [Hf Hh]. destruct event as [|handle disk op]; simpl.
  - unfold open_at_paths. simpl. rewrite (sy_valid _ Hf). split; [done|]. apply Forall_app. by split; [|constructor].
  - destruct (hm_handles h !! handle) as [s|] eqn:Hs; [|done]. pose proof (Forall_lookup_1 _ _ _ _ Hh Hs) as Hm.
    specialize (Hsp s Hs). split; [by apply (steady_disk disk op (set_disk (hm_file h) s))|].
    apply Forall_insert; [done|]. by apply (steady_memory disk op (set_disk (hm_file h) s)).
Qed.

Lemma home_history_ok h events : home_ok h -> sparing h events -> home_ok (foldl home_step h events).
Proof.
  revert h. induction events as [|event rest IH]; intros h Hh; [done|]. intros [H1 H2]. apply IH; [|done]. by apply home_step_ok.
Qed.

(** C19. Every spawn gets its managed environment. A spawn opens the file anew;
    whatever handles of whatever tasks and processes did to it before (secrets set and
    deleted, catalogs replaced, extensions applying and depositing under any
    configurations, each from a handle that may be stale, with writes failing before
    or after the new file was in place), resolving the environment from the file
    succeeds and sets exactly the names the file's namespaces declare, each to the
    value the file holds for the secret its one declaring namespace maps it to, and
    never a name the runtime itself writes. Assumed: no replacement of a catalog
    removes flat secrets that an environment names. The pruning of migrated secrets
    can ([pruning_breaks_spawns]). *)
Theorem spawn_environment_complete events :
  sparing first_home events ->
  let p := hm_file (foldl home_step first_home events) in
  exists env, managed_environment_for_home non_credential_env_refs true Key (Ciphertext p) [] = Ok env
  /\ (forall namespace record name secret_ref,
        sp_managed_state p !! namespace = Some record -> ms_environment record !! name = Some secret_ref ->
        exists value, sp_secrets p !! secret_ref = Some value /\ env !! name = Some value)
  /\ (forall name value, env !! name = Some value ->
        runtime_written_name name = false
        /\ exists namespace record, sp_managed_state p !! namespace = Some record /\ is_Some (ms_environment record !! name)).
Proof.
  intros Hsp p. destruct (home_history_ok first_home events ltac:(by split; [apply steady_empty|constructor]) Hsp) as [[Hv Hr Ha] _]. fold p in Hv, Hr, Ha.
  unfold managed_environment_for_home, open_read_only, decrypt_store. unfold valid in Hv. simpl. rewrite Hv. cbn [rbind].
  destruct (proj1 (managed_environment_spec (opened non_credential_env_refs p [])) Hr) as (env & He & Hdom & Hval).
  change (ss_memory (opened _ p [])) with p in *. exists env. split; [done|]. split.
  - intros ns r n ref Hns Hn. assert (is_Some (env !! n)) as [v Hv'].
    { apply Hdom. exists ns, ref. apply env_entries_elem. eauto. }
    exists v. split; [|done]. destruct (Hval _ _ Hv') as (ns' & ref' & (r' & Hns' & Hn')%env_entries_elem & Hs).
    assert (ns' = ns) as -> by (eapply (proj2 (Ha _ _ n Hns ltac:(eauto))); eauto). congruence.
  - intros n v Hv'. destruct (Hval _ _ Hv') as (ns & ref & (r & Hns & Hn)%env_entries_elem & _).
    split; [by eapply Ha|eauto 10].
Qed.

(** What the provider tables ask of a credential. *)
Definition meets_contract (config : ManagedConfig) (provider_id : str) (values : gmap str str) : Prop :=
  match env_var_for_provider_id provider_id, mc_custom_api_key_ref config provider_id with
  | Some primary, _ =>
      (forall name, name ∈ primary :: companion_env_refs provider_id -> is_Some (values !! name))
      /\ (forall name value, values !! name = Some value -> value <> []
          /\ name ∈ primary :: companion_env_refs provider_id ++ optional_env_refs provider_id)
  | None, Some api_key_ref => exists value, value <> [] /\ values = {[ api_key_ref := value ]}
  | None, None => False
  end.

Lemma env_keyed_ok provider_id values field primary :
  env_var_for_provider_id provider_id = Some primary ->
  validate_env_keyed_credential_values provider_id values field = Ok tt ->
  (forall name, name ∈ primary :: companion_env_refs provider_id -> is_Some (values !! name))
  /\ (forall name value, values !! name = Some value -> value <> []
      /\ name ∈ primary :: companion_env_refs provider_id ++ optional_env_refs provider_id).
Proof.
  intros Hp. unfold validate_env_keyed_credential_values. rewrite Hp. cbv zeta.
  destruct (check_each _ (primary :: _)) as [[]|] eqn:E1; [|done]. cbn [rbind]. rewrite check_each_ok in E1.
  rewrite check_each_ok. intros E2. split.
  - intros name Hn. specialize (E1 _ Hn). by case_bool_decide.
  - intros name value Hv. specialize (E2 (name, value)). rewrite btree_elem in E2. specialize (E2 Hv).
    simpl in E2. rewrite elem_of_cons, elem_of_app.
    destruct (negb _) eqn:En; [done|]. case_bool_decide; [done|]. split; [done|].
    apply negb_false_iff in En. rewrite !orb_true_iff, !bool_decide_eq_true in En. tauto.
Qed.

Lemma custom_ok api_key_ref values field :
  validate_custom_provider_credential_values api_key_ref values field = Ok tt ->
  exists value, value <> [] /\ values = {[ api_key_ref := value ]}.
Proof.
  unfold validate_custom_provider_credential_values. case_bool_decide as Hs; [|done]. simpl. rewrite check_each_ok.
  destruct Hs as [value Hv]. intros H. exists value.
  assert (forall n w, values !! n = Some w -> n = api_key_ref /\ w <> []) as Hall.
  { intros n w Hw. specialize (H (n, w)). rewrite btree_elem in H. specialize (H Hw). simpl in H.
    case_bool_decide as Hn; [|done]. simpl in H. by case_bool_decide. }
  split; [by eapply Hall|]. apply map_eq. intros n. destruct (decide (n = api_key_ref)) as [->|Hn].
  - by rewrite lookup_singleton_eq.
  - rewrite lookup_singleton_ne by done. destruct (values !! n) eqn:En; [|done]. by destruct Hn, (Hall _ _ En).
Qed.

Lemma resolve_selection_ok store config selection resolved :
  resolve_selection store config selection = Ok resolved ->
  sel_provider_id resolved = cs_provider_id selection
  /\ sel_source_refs resolved = cs_source_refs selection
  /\ meets_contract config (cs_provider_id selection) (sel_values resolved).
Proof.
  unfold resolve_selection. destruct (validate_bounded _ _ _); [|done]. cbn [rbind].
  destruct (_ && _); [done|]. destruct (_ <? _)%nat; [done|]. destruct (check_each _ _); [|done]. cbn [rbind].
  destruct (resolve_refs _ _ _) as [values|]; [|done]. cbn [rbind].
  unfold meets_contract. destruct (env_var_for_provider_id _) as [primary|] eqn:Ep.
  - destruct (validate_env_keyed_credential_values _ _ _) as [[]|] eqn:Ev; [|done]. intros [= <-]. simpl.
    split; [done|]. split; [done|]. by eapply env_keyed_ok.
  - destruct (mc_custom_api_key_ref config _) as [ref|]; [|done].
    destruct (validate_custom_provider_credential_values _ _ _) as [[]|] eqn:Ev; [|done]. intros [= <-]. simpl.
    split; [done|]. split; [done|]. by eapply custom_ok.
Qed.

(** The catalog after a staged or replayed selection holds it. *)
Lemma applied_selection disk namespace kind revision sel s r s' outcome :
  apply_managed_state_credential non_credential_env_refs disk namespace kind revision (Some sel) s = (r, s') ->
  r = Ok outcome ->
  exists credential, sp_provider_credentials (ss_memory s') !! sel_provider_id sel = Some credential
    /\ exists c, sole credential = Some c /\ pc_source c = External namespace
    /\ pc_values c = sel_values sel /\ pc_source_refs c = sel_source_refs sel.
Proof.
  unfold apply_managed_state_credential, stage_managed_state_credential. intros H ->.
  destruct (replayed_record _ _ _) as [[record|]|]; cbn [rbind] in H; [| |done].
  - destruct (ensure_identical_replay _ _ _ _ _) as [[]|] eqn:Ee; cbn [rbind] in H; [|done]. injection H as _ <-.
    unfold ensure_identical_replay in Ee. case_bool_decide; [|done]. simpl in Ee.
    destruct (ms_provider_id record) as [q|]; [|done]. case_bool_decide; [subst|done].
    destruct (sp_provider_credentials (ss_memory s) !! sel_provider_id sel) as [set|] eqn:Es; [|done]. simpl in Ee.
    destruct (sole set) as [c|] eqn:Ec; [|done]. exists set. split; [done|]. exists c.
    case_bool_decide; [|done]. simpl in Ee. case_bool_decide; [|done]. case_bool_decide; [|done]. done.
  - destruct (negb _); [done|].
    match type of H with context [commit _ disk ?p s] =>
      destruct (commit_cases non_credential_env_refs disk p s) as [(reg & E & _)|[[e E]|(E & _)]] end;
      rewrite E in H; [|done..]. injection H as _ <-. eexists. simpl. rewrite lookup_insert_eq. split; [done|]. eexists. done.
Qed.

(** An accepted credential meets its provider's contract: whenever applying
    a selection succeeds, freshly or as a replay, the catalog holds for that
    provider an entry owned by the namespace with the required variables, no
    others than the allowed ones, and no empty value (for a custom provider,
    exactly its key). A failed apply changes neither memory nor registry, nor the file
    unless its write failed after the rename. *)
Theorem applied_credential_meets_contract disk config namespace request s :
  let '(r, s') := apply disk config namespace request s in
  match r with
  | Err _ => refused disk s s'
  | Ok response =>
      applied_revision response = rq_revision request
      /\ match desired request with
         | ProviderCredentialState (Some selection) =>
             exists credential c, sp_provider_credentials (ss_memory s') !! cs_provider_id selection = Some credential
               /\ sole credential = Some c /\ pc_source c = External namespace
               /\ meets_contract config (cs_provider_id selection) (pc_values c)
         | _ => True
         end
  end.
Proof.
  unfold apply. destruct (negb _); [done|]. destruct (desired request) as [[selection|]|entries].
  - destruct (require_declared_kind _ _ _); cbn [rbind]; [|done]. unfold resolve_optional.
    destruct (resolve_selection s config selection) as [resolved|] eqn:Er; cbn [rbind]; [|done].
    apply resolve_selection_ok in Er as (Hid & _ & Hc).
    destruct (apply_managed_state_credential _ _ _ _ _ _ _) as [[outcome|e] s'] eqn:Ea; simpl.
    + split; [done|]. destruct (applied_selection _ _ _ _ _ _ _ _ _ Ea eq_refl) as (set & Hs & c & Hsole & Hsrc & Hval & _).
      exists set, c. rewrite <- Hid at 1. rewrite Hval. auto.
    + by eapply credential_error_frame.
  - destruct (require_declared_kind _ _ _); simpl; [|done].
    destruct (apply_managed_state_credential _ _ _ _ _ _ _) as [[outcome|e] s'] eqn:Ea; simpl; [done|].
    by eapply credential_error_frame.
  - destruct (require_declared_kind _ _ _); simpl; [|done].
    destruct (validate_environment _ _ _ _); [|done].
    destruct (apply_managed_state_environment _ _ _ _ _ _ _) as [[outcome|e] s'] eqn:Ea; simpl; [done|].
    by eapply environment_error_frame.
Qed.

(** ** Precedence at a spawn *)

Lemma layer_fold (l : list (str * str)) (env : gmap str str) (name : str) :
  NoDup l.*1 ->
  foldl (fun env (entry : str * str) =>
           match env !! entry.1 with Some _ => env | None => <[entry.1 := entry.2]> env end) env l !! name
  = match env !! name with Some v => Some v | None => snd <$> find (fun entry : str * str => bool_decide (entry.1 = name)) l end.
Proof.
  revert env. induction l as [|[n v] l IH]; intros env Hn; simpl; [by destruct (env !! name)|].
  apply NoDup_cons in Hn as [Hnl Hl]. rewrite IH by done. simpl in Hnl.
  destruct (env !! n) as [w|] eqn:En.
  - destruct (env !! name) eqn:Enm; [done|]. case_bool_decide; [congruence|done].
  - destruct (decide (n = name)) as [->|Hne].
    + rewrite lookup_insert_eq, En. by rewrite bool_decide_true.
    + rewrite lookup_insert_ne by done. destruct (env !! name); [done|]. by rewrite bool_decide_false.
Qed.

Lemma btree_nodup {A} (m : gmap str A) : NoDup (btree m).*1.
Proof. unfold btree. rewrite (merge_sort_Permutation by_key (map_to_list m)). apply NoDup_fst_map_to_list. Qed.

Lemma btree_find {A} (m : gmap str A) name :
  snd <$> find (fun entry => bool_decide (entry.1 = name)) (btree m) = m !! name.
Proof.
  destruct (find _ (btree m)) as [[n v]|] eqn:Ef; simpl.
  - apply find_some in Ef as [Hin Hn]. rewrite <- list_elem_of_In, btree_elem in Hin. apply bool_decide_eq_true in Hn.
    simpl in Hn. by subst.
  - symmetry. apply eq_None_not_Some. intros [v Hv].  pose proof (find_none _ _ Ef (name, v)) as Hx. rewrite <- list_elem_of_In, btree_elem in Hx. specialize (Hx Hv).
    simpl in Hx. by rewrite bool_decide_true in Hx.
Qed.

(** A spawn's own value wins over the managed one, which only fills gaps. *)
Lemma layer_environment_precedence owner_only k f registry env env' managed name :
  managed_environment_for_home non_credential_env_refs owner_only k f registry = Ok managed ->
  layer_environment owner_only k f registry env = Ok env' ->
  env' !! name = match env !! name with Some v => Some v | None => managed !! name end.
Proof.
  unfold layer_environment. intros ->. cbn [rbind]. intros [= <-].
  rewrite layer_fold by apply btree_nodup. by rewrite btree_find.
Qed.

End managed.

(** ** Witnesses *)

Definition openai_key (provider_id : str) : option str :=
  if str_eqb provider_id (lit "openai") then Some (lit "OPENAI_API_KEY") else None.
Definition none_listed (provider_id : str) : list str := [].

Definition env_config : ManagedConfig :=
  mkManagedConfig
    {[ lit "ci" := mkExtension ManagedStateType ∅ (Some KIND_SECRET_ENVIRONMENT) ]} [] ∅ [] (fun _ => None).

Definition env_request : ApplyRequest :=
  mkApplyRequest 1 1 (SecretEnvironment {[ lit "CI_KEY" := lit "OPENAI_API_KEY" ]}).

(** A secret, an environment that names it, and the credential the migration
    made of the same secret. *)
Definition legacy_catalog : Catalog :=
  {[ lit "openai" := aliasless (mkCredential (lit "r1") {[ lit "OPENAI_API_KEY" := lit "sk-abcdefgh" ]}
       {[ lit "OPENAI_API_KEY" := lit "OPENAI_API_KEY" ]} true Operator) ]}.

Definition legacy_ops : list DaemonOp :=
  [DSet (lit "OPENAI_API_KEY") (lit "sk-abcdefgh"); DSet (lit "OLD") (lit "unused-value");
   DApply env_config (lit "ci") env_request; DReplace legacy_catalog [lit "OLD"]].

Definition legacy_store : SecretStore :=
  foldl (fun s op => daemon_step openai_key none_listed none_listed none_listed Written op s)
    (opened none_listed empty_plaintext []) legacy_ops.

(** One handle does all of it; a second one, opened before, stores a secret with a
    write that fails late, so the file is what the second handle knows. *)
Definition legacy_events : list HomeEvent :=
  OpenStore :: ((fun op => UseStore 0 Written op) <$> legacy_ops) ++ [OpenStore; UseStore 1 WrittenUnsynced (DSet (lit "N") (lit "v"))].

Definition legacy_home : Home := foldl (home_step openai_key none_listed none_listed none_listed) first_home legacy_events.

Lemma spawn_environment_complete_witness :
  sp_secrets (hm_file legacy_home) !! lit "N" = Some (lit "v")
  /\ exists env, managed_environment_for_home none_listed true Key (Ciphertext (hm_file legacy_home)) [] = Ok env.
Proof.
  split; [vm_compute; reflexivity|].
  assert (Hsp : sparing openai_key none_listed none_listed none_listed first_home legacy_events).
  { apply sparing_check_ok. vm_compute. reflexivity. }
  destruct (spawn_environment_complete openai_key none_listed none_listed none_listed legacy_events Hsp) as (env & He & _).
  exists env. exact He.
Defined.

(** Pruning migrated secrets can break every spawn: deleting a secret that a
    namespace's environment names is refused, but the pruning after a credential
    migration removes it, successfully, when only the environment names it; from
    then on resolving the spawn environment fails. *)
Theorem pruning_breaks_spawns :
  let pruned := prune_migrated_flat_secrets_with_candidates none_listed Written (fun _ => false) [] legacy_store in
  (exists env, managed_environment legacy_store = Ok env)
  /\ (delete Written (lit "OPENAI_API_KEY") legacy_store).1
     = Err (SecretReferenced (lit "OPENAI_API_KEY") (lit "ci") (lit "CI_KEY"))
  /\ pruned.1 = Ok tt
  /\ managed_environment_for_home none_listed true Key (Ciphertext (ss_disk pruned.2)) []
     = Err (ExtensionEnvironmentUnresolved (lit "ci") (lit "CI_KEY") (lit "OPENAI_API_KEY")).
Proof.
  split; [|split; [|split]]; [|vm_compute; reflexivity..].
  exists {[ lit "CI_KEY" := lit "sk-abcdefgh" ]}. vm_compute. reflexivity.
Qed.
