(* ===== verification/PromptStore.v ===== *)
(** The prompt rows (src/src/state/sessions/prompts.rs and the prompt types of
    src/src/state/sessions.rs): submission, settlement, the restart sweep and
    the sweep that gives up on stalled turns. *)

From S2P Require Import Prelude Store SinkOutbox ChangeFeed SessionEvents.
Open Scope Z_scope.
Open Scope result_scope.

Inductive PromptStatus := PPending | PRunning | PCompleted | PErrored | PCancelled | PStalled.
#[export] Instance PromptStatus_eq_dec : EqDecision PromptStatus.
Proof. solve_decision. Defined.

Definition prompt_status_str (s : PromptStatus) : string :=
  match s with
  | PPending => "pending"
  | PRunning => "running"
  | PCompleted => "completed"
  | PErrored => "errored"
  | PCancelled => "cancelled"
  | PStalled => "stalled"
  end.

Definition terminal (s : PromptStatus) : bool :=
  match s with PPending | PRunning => false | _ => true end.

Definition prompt_status_from_str (s : string) : result StackError PromptStatus :=
  if bool_decide (s = "pending") then Ok PPending
  else if bool_decide (s = "running") then Ok PRunning
  else if bool_decide (s = "completed") then Ok PCompleted
  else if bool_decide (s = "errored") then Ok PErrored
  else if bool_decide (s = "cancelled") then Ok PCancelled
  else if bool_decide (s = "stalled") then Ok PStalled
  else Err (InvalidParam "prompt_status").

Record NewPromptRecord := mkNewPrompt {
  npr_id : string;
  npr_session_id : string;
  npr_prompt_json : string;
}.

Record PromptSettlement := mkSettlement {
  se_status : PromptStatus;
  se_stop_reason : option string;
  se_error_code : option string;
  se_error_message : option string;
  se_failure_class : option string;
  se_failure_detail_json : option string;
}.

Inductive PromptSettle := Applied | ReplacedStall | AlreadyTerminal.

Definition ORPHANED_PROMPT_ERROR_CODE : string := "agent.daemon_restart".
Definition EVENT_KIND_PROMPT_SETTLED : string := "prompt.settled".
Definition PROMPT_SETTLED_EVENT_MESSAGE : string := "prompt settled".
Definition EVENT_KIND_SESSION_UPDATE : string := "session.update".

(** [UPDATE prompts SET .. WHERE id], [PromptNotFound] when no row matched. *)
Definition set_prompt (id : string) (p : PromptRecord) : M unit :=
  modify (fun st => set_prompts (<[id := p]> (st_prompts st)) st).

Definition bump_prompt_session_change (prompt_id : string) : M unit :=
  let* prompts := gets st_prompts in
  match prompts !! prompt_id with
  | Some p => bump_session_change (p_session_id p)
  | None => fail Sqlite
  end.

(** The row a submitted prompt starts as. *)
Definition new_prompt_row (r : NewPromptRecord) (message_id : option string) (now : string)
  : PromptRecord :=
  mkPrompt (npr_id r) (npr_session_id r) now now (prompt_status_str PPending) None None None
    (npr_prompt_json r) message_id false None None None.

(** The unique [(session_id, message_id)] index. *)
Definition message_id_taken (p : PromptRecord) (prompts : gmap string PromptRecord) : bool :=
  match p_message_id p with
  | None => false
  | Some m => existsb (fun q => bool_decide (p_session_id q.2 = p_session_id p
                                              /\ p_message_id q.2 = Some m)) (map_to_list prompts)
  end.

Definition with_ack (now : string) (p : PromptRecord) : PromptRecord :=
  mkPrompt (p_id p) (p_session_id p) (p_created_at p) now (p_status p) (p_stop_reason p)
    (p_error_code p) (p_error_message p) (p_prompt_json p) (p_message_id p) true
    (p_failure_class p) (p_failure_detail_json p) (p_agent_message_id p).

Definition with_agent_message (agent_message_id now : string) (p : PromptRecord) : PromptRecord :=
  mkPrompt (p_id p) (p_session_id p) (p_created_at p) now (p_status p) (p_stop_reason p)
    (p_error_code p) (p_error_message p) (p_prompt_json p) (p_message_id p)
    (p_message_id_acknowledged p) (p_failure_class p) (p_failure_detail_json p)
    (Some agent_message_id).

(** The columns a status write sets. *)
Definition with_outcome (status : string) (now : string) (stop_reason error_code error_message
    failure_class failure_detail : option string) (p : PromptRecord) : PromptRecord :=
  mkPrompt (p_id p) (p_session_id p) (p_created_at p) now status stop_reason error_code
    error_message (p_prompt_json p) (p_message_id p) (p_message_id_acknowledged p)
    failure_class failure_detail (p_agent_message_id p).

(** [None] preserves the column, [Some("")] writes NULL, [Some(v)] writes [v]. *)
Definition three_valued (arg stored : option string) : option string :=
  match arg with
  | None => stored
  | Some v => if bool_decide (v = "") then None else Some v
  end.

(** [status NOT IN ('completed', 'errored', 'cancelled', 'stalled')]. *)
Definition status_settled (status : string) : bool :=
  bool_decide (status = "completed" \/ status = "errored" \/ status = "cancelled"
               \/ status = "stalled").

Section prompts.
Context (json_valid : string -> bool) (external : bool).

(** An INSERT into [prompts]: primary key, foreign key, CHECK and unique
    index. *)
Definition insert_prompt_row (p : PromptRecord) : M unit :=
  let* st := gets id in
  match st_prompts st !! p_id p, st_sessions st !! p_session_id p with
  | None, Some _ =>
      if json_valid (p_prompt_json p) && negb (message_id_taken p (st_prompts st))
      then set_prompt (p_id p) p else fail Sqlite
  | _, _ => fail Sqlite
  end.

Definition insert_prompt_with_message_id (record : NewPromptRecord) (message_id : option string)
    (now : string) : M PromptRecord :=
  if negb (json_valid (npr_prompt_json record)) then fail InvalidEventPayload
  else
    let row := new_prompt_row record message_id now in
    persist_with_outbox external "prompts" (p_id row) now
      (insert_prompt_row row ;; bump_session_change (p_session_id row)) ;;
    ret row.

Definition insert_prompt (record : NewPromptRecord) (now : string) : M PromptRecord :=
  insert_prompt_with_message_id record None now.

Definition get_prompt (id : string) (st : Store) : option PromptRecord := st_prompts st !! id.

Definition acknowledge_prompt_message_id (prompt_id message_id now : string) : M unit :=
  persist_with_outbox external "prompts" prompt_id now
    (let* prompts := gets st_prompts in
     match prompts !! prompt_id with
     | Some p =>
         if bool_decide (p_message_id p = Some message_id)
         then set_prompt prompt_id (with_ack now p) ;; bump_prompt_session_change prompt_id
         else fail (PromptNotFound prompt_id)
     | None => fail (PromptNotFound prompt_id)
     end).

Definition record_prompt_agent_message_id (prompt_id agent_message_id now : string) : M unit :=
  persist_with_outbox external "prompts" prompt_id now
    (let* prompts := gets st_prompts in
     match prompts !! prompt_id with
     | Some p => set_prompt prompt_id (with_agent_message agent_message_id now p) ;;
                 bump_prompt_session_change prompt_id
     | None => fail (PromptNotFound prompt_id)
     end).

(** The greatest id below [prompt_id] in the session. *)
Definition preceding_prompt (session_id prompt_id : string) (st : Store)
  : option (string * option string) :=
  let before := filter (fun p => p_session_id p = session_id
                                 /\ String.ltb (p_id p) prompt_id = true)
                  (map_to_list (st_prompts st)).*2 in
  (fun p => (p_id p, p_agent_message_id p))
    <$> last (order_by (fun p => (p_id p, ""%string)) before).

Definition update_prompt_status (id : string) (status : PromptStatus)
    (stop_reason error_code error_message failure_class failure_detail_json : option string)
    (now : string) : M bool :=
  let* prompts := gets st_prompts in
  match prompts !! id with
  | None => fail (PromptNotFound id)
  | Some p =>
      if status_settled (p_status p) then ret false
      else
        set_prompt id (with_outcome (prompt_status_str status) now stop_reason error_code
          error_message (three_valued failure_class (p_failure_class p))
          (three_valued failure_detail_json (p_failure_detail_json p)) p) ;;
        bump_prompt_session_change id ;;
        enqueue_if external "prompts" id now ;;
        ret true
  end.

Definition settle_prompt (id : string) (settlement : PromptSettlement) (replace_stalled : bool)
    (now : string) : M PromptSettle :=
  if negb (terminal (se_status settlement)) then fail (InvalidParam "prompt_status")
  else
    let* prompts := gets st_prompts in
    match prompts !! id with
    | None => fail (PromptNotFound id)
    | Some p =>
        match prompt_status_from_str (p_status p) with
        | Err e => fail e
        | Ok current =>
            let write (settle : PromptSettle) : M PromptSettle :=
              set_prompt id (with_outcome (prompt_status_str (se_status settlement)) now
                (se_stop_reason settlement) (se_error_code settlement) (se_error_message settlement)
                (se_failure_class settlement) (se_failure_detail_json settlement) p) ;;
              bump_prompt_session_change id ;;
              enqueue_if external "prompts" id now ;;
              ret settle in
            match current with
            | PPending | PRunning => write Applied
            | PStalled => if replace_stalled then write ReplacedStall else ret AlreadyTerminal
            | PCompleted | PErrored | PCancelled => ret AlreadyTerminal
            end
        end
    end.

(** ** The restart sweep *)

(** [serde_json::json!({..}).to_string()] of [prompt_outcome_payload]. *)
Context (prompt_outcome_payload : string -> string -> option string -> option string -> string).

Definition orphan_row (now reason : string) (p : PromptRecord) : PromptRecord :=
  with_outcome "errored" now (p_stop_reason p) (Some ORPHANED_PROMPT_ERROR_CODE) (Some reason)
    (Some "agent_process") (p_failure_detail_json p) p.

(** One settled row: its [prompt.settled] event, the stamp and the outbox. *)
Definition settle_orphan_prompt (now new_id : string) (row : string * string) : M Event :=
  let '(id, session_id) := row in
  let event := mkEvent new_id now "info" EVENT_KIND_PROMPT_SETTLED PROMPT_SETTLED_EVENT_MESSAGE
    (prompt_outcome_payload id "errored" None (Some ORPHANED_PROMPT_ERROR_CODE))
    EVENT_SOURCE_SYSTEM (Some session_id) None in
  let* seq := insert_session_event_row json_valid session_id event in
  bump_session_change session_id ;;
  enqueue_if external "prompts" id now ;;
  enqueue_if external "events" new_id now ;;
  ret (with_session_seq session_id seq event).

Fixpoint settle_orphan_prompts (now : string) (ids : nat -> string) (k : nat)
    (rows : list (string * string)) : M (list (string * Event)) :=
  match rows with
  | [] => ret []
  | row :: rest =>
      let* event := settle_orphan_prompt now (ids k) row in
      let* events := settle_orphan_prompts now ids (S k) rest in
      ret ((row.2, event) :: events)
  end.

Definition reconcile_orphaned_prompts (reason now : string) (ids : nat -> string) : M nat :=
  let* prompts := gets st_prompts in
  let settled := (fun p => (p.1, p_session_id p.2))
    <$> filter (fun p => prompt_in_flight p.2 = true) (map_to_list prompts) in
  modify (set_prompts ((fun p => if prompt_in_flight p then orphan_row now reason p else p) <$> prompts)) ;;
  let* events := settle_orphan_prompts now ids 0 settled in
  for_each events (fun e => publish_session_event e.1 e.2) ;;
  ret (length events).
End prompts.

(** ** Stalled turns *)

(** A value [json_extract] returns. *)
Inductive JsonValue := JNull | JText (s : string) | JOther.

Definition as_text (v : JsonValue) : result StackError (option string) :=
  match v with
  | JNull => Ok None
  | JText s => Ok (Some s)
  | JOther => Err Sqlite
  end.

Definition TOOL_CALL_STATUS_PENDING : string := "pending".
Definition tool_call_closed (status : string) : bool :=
  bool_decide (status = "completed" \/ status = "failed").

Section stalled.
(** [json_extract(payload_json, path)]. *)
Context (json_extract : string -> string -> JsonValue).

(** The selected columns of one row: update kind, tool call id, status. *)
Definition tool_row (e : Event) : result StackError (string * option string * option string) :=
  (let? kind := as_text (json_extract (e_payload_json e) "$.update.sessionUpdate") in
   let? call := as_text (json_extract (e_payload_json e) "$.update.toolCallId") in
   let? status := as_text (json_extract (e_payload_json e) "$.update.status") in
   match kind with
   | Some kind => Ok (kind, call, status)
   | None => Err Sqlite
   end)%res.

Definition is_tool_event (since : string) (e : Event) : bool :=
  bool_decide (e_kind e = EVENT_KIND_SESSION_UPDATE) && String.leb since (e_created_at e)
  && match json_extract (e_payload_json e) "$.update.sessionUpdate" with
     | JText k => bool_decide (k = "tool_call" \/ k = "tool_call_update")
     | _ => false
     end.

(** The [HashMap] update of one row. *)
Definition tool_status_step (statuses : gmap string string)
    (row : string * option string * option string) : gmap string string :=
  let '(kind, call, status) := row in
  match call with
  | None => statuses
  | Some call =>
      if bool_decide (kind = "tool_call") then
        <[call := default TOOL_CALL_STATUS_PENDING status]> statuses
      else match statuses !! call, status with
           | Some _, Some status => <[call := status]> statuses
           | _, _ => statuses
           end
  end.

Fixpoint tool_statuses (events : list Event) (statuses : gmap string string)
  : result StackError (gmap string string) :=
  match events with
  | [] => Ok statuses
  | e :: rest => (let? row := tool_row e in tool_statuses rest (tool_status_step statuses row))%res
  end.

Definition session_has_open_tool_call (session_id since : string) (st : Store)
  : result StackError bool :=
  (let? statuses := tool_statuses
     (merge_sort event_seq_le
        (filter (fun e => is_tool_event since e = true) (session_events session_id (st_events st)))) ∅ in
   Ok (existsb (fun p => negb (tool_call_closed p.2)) (map_to_list statuses)))%res.

Record StuckPrompt := mkStuck {
  sp_id : string;
  sp_session_id : string;
  sp_updated_at : string;
  sp_threshold : Z;
}.

(** The thresholds, and the cutoffs [now - threshold] formatted by
    [stale_cutoff]. *)
Record Thresholds := mkThresholds {
  th_quiet : Z;
  th_open_tool_call : Z;
  th_quiet_cutoff : string;
  th_tool_call_cutoff : string;
}.

Definition stuck_candidates (quiet_cutoff : string) (st : Store) : list PromptRecord :=
  order_by (fun p => (p_updated_at p, p_id p))
    (filter (fun p => prompt_in_flight p = true /\ String.ltb (p_updated_at p) quiet_cutoff = true)
       (map_to_list (st_prompts st)).*2).

(** Whether a candidate is held to be stuck, and past which threshold. *)
Definition stuck_of (th : Thresholds) (st : Store) (p : PromptRecord)
  : result StackError (option StuckPrompt) :=
  (let? open := session_has_open_tool_call (p_session_id p) (p_created_at p) st in
   if open then
     if String.leb (th_tool_call_cutoff th) (p_updated_at p) then Ok None
     else Ok (Some (mkStuck (p_id p) (p_session_id p) (p_updated_at p) (th_open_tool_call th)))
   else Ok (Some (mkStuck (p_id p) (p_session_id p) (p_updated_at p) (th_quiet th))))%res.

Fixpoint stuck_list (th : Thresholds) (st : Store) (l : list PromptRecord)
  : result StackError (list StuckPrompt) :=
  match l with
  | [] => Ok []
  | p :: rest =>
      (let? stuck := stuck_of th st p in
       let? more := stuck_list th st rest in
       Ok (match stuck with Some s => s :: more | None => more end))%res
  end.

Definition stuck_prompts (th : Thresholds) (st : Store) : result StackError (list StuckPrompt) :=
  stuck_list th st (stuck_candidates (th_quiet_cutoff th) st).

Definition stalled_row (now reason : string) (p : PromptRecord) : PromptRecord :=
  with_outcome "stalled" now (p_stop_reason p) (Some "prompt.stalled") (Some reason)
    (Some "stalled") (p_failure_detail_json p) p.

Context (external : bool).

Fixpoint stall_all (now reason : string) (stuck : list StuckPrompt) : M (list StuckPrompt) :=
  match stuck with
  | [] => ret []
  | s :: rest =>
      let* prompts := gets st_prompts in
      match prompts !! sp_id s with
      | Some p =>
          if prompt_in_flight p then
            set_prompt (sp_id s) (stalled_row now reason p) ;;
            bump_session_change (sp_session_id s) ;;
            enqueue_if external "prompts" (sp_id s) now ;;
            let* more := stall_all now reason rest in
            ret (s :: more)
          else stall_all now reason rest
      | None => stall_all now reason rest
      end
  end.

Definition mark_stalled_prompts (th : Thresholds) (reason now : string) : M (list StuckPrompt) :=
  let* st := gets id in
  match stuck_prompts th st with
  | Err e => fail e
  | Ok stuck => stall_all now reason stuck
  end.

(** [min] of the updated_at column. *)
Definition oldest (l : list StuckPrompt) : option string :=
  head (order_by (fun t => (t, ""%string)) (sp_updated_at <$> l)).

Definition count_stuck_prompts (th : Thresholds) (st : Store) : result StackError (nat * option string) :=
  (let? stuck := stuck_prompts th st in Ok (length stuck, oldest stuck))%res.
End stalled.

(** ** Lifecycle *)

(** The columns that say how a prompt ended. *)
Definition outcome (p : PromptRecord) :=
  (p_status p, p_stop_reason p, p_error_code p, p_error_message p, p_failure_class p,
   p_failure_detail_json p).

(** A verdict other than the sweeper's. *)
Definition verdict (p : PromptRecord) : Prop :=
  p_status p = "completed" \/ p_status p = "errored" \/ p_status p = "cancelled".

Definition keeps (p p' : PromptRecord) : Prop :=
  (verdict p -> outcome p' = outcome p)
  /\ (status_settled (p_status p) = true -> status_settled (p_status p') = true).

Lemma keeps_refl p : keeps p p.
Proof. by split. Qed.

Lemma keeps_trans p1 p2 p3 : keeps p1 p2 -> keeps p2 p3 -> keeps p1 p3.
Proof.
  intros [H1 S1] [H2 S2]. split; [|by auto]. intros V. rewrite H2; [by auto|].
  unfold verdict in *. specialize (H1 V). unfold outcome in H1. injection H1 as -> _. done.
Qed.

Lemma keeps_open p p' : status_settled (p_status p) = false -> keeps p p'.
Proof.
  unfold status_settled. intros H%bool_decide_eq_false. split.
  - unfold verdict. tauto.
  - intros Hs%bool_decide_eq_true. tauto.
Qed.

Lemma in_flight_open p : prompt_in_flight p = true -> status_settled (p_status p) = false.
Proof.
  unfold prompt_in_flight, status_settled. intros [->| ->]%bool_decide_eq_true; done.
Qed.

(** An operation after which every prompt row is still there and keeps its
    verdict. *)
Definition prompts_ok {A} (m : M A) : Prop :=
  forall st a st', m st = Ok (a, st') -> forall id p, st_prompts st !! id = Some p ->
  exists p', st_prompts st' !! id = Some p' /\ keeps p p'.

Lemma prompts_ok_same {A} (m : M A) :
  (forall st a st', m st = Ok (a, st') -> st_prompts st' = st_prompts st) -> prompts_ok m.
Proof. intros H st a st' Hm id p Hp. exists p. rewrite (H _ _ _ Hm). by split; [|apply keeps_refl]. Qed.

Lemma prompts_ok_bind {A B} (m : M A) (f : A -> M B) :
  prompts_ok m -> (forall a, prompts_ok (f a)) -> prompts_ok (bind m f).
Proof.
  intros Hm Hf st b st' (a & st1 & H1 & H2)%bind_ok id p Hp.
  destruct (Hm _ _ _ H1 id p Hp) as (p1 & Hp1 & K1).
  destruct (Hf a _ _ _ H2 id p1 Hp1) as (p2 & Hp2 & K2). exists p2. eauto using keeps_trans.
Qed.

Lemma prompts_ok_ret {A} (a : A) : prompts_ok (ret a).
Proof. by apply prompts_ok_same; intros st b st' [= _ <-]. Qed.
Lemma prompts_ok_fail {A} e : prompts_ok (fail (A := A) e).
Proof. by apply prompts_ok_same. Qed.
Lemma prompts_ok_gets {A} (f : Store -> A) : prompts_ok (gets f).
Proof. by apply prompts_ok_same; intros st b st' [= _ <-]. Qed.
Lemma prompts_ok_modify f : (forall st, st_prompts (f st) = st_prompts st) -> prompts_ok (modify f).
Proof. intros H. apply prompts_ok_same. by intros st b st' [= _ <-]. Qed.
Lemma prompts_ok_bump id : prompts_ok (bump_session_change id).
Proof.
  apply prompts_ok_same. by intros st u st' [[_ ->]|(row & _ & _ & ->)]%bump_session_change_run.
Qed.
Lemma prompts_ok_bump_prompt id : prompts_ok (bump_prompt_session_change id).
Proof.
  apply prompts_ok_bind; [apply prompts_ok_gets|intros ps].
  case_match; [apply prompts_ok_bump|apply prompts_ok_fail].
Qed.
Lemma prompts_ok_enqueue_if external t i c : prompts_ok (enqueue_if external t i c).
Proof.
  unfold enqueue_if. destruct external; [by apply prompts_ok_modify|apply prompts_ok_ret].
Qed.
Lemma prompts_ok_event json_valid sid e : prompts_ok (insert_session_event_row json_valid sid e).
Proof. apply prompts_ok_same. by intros st seq st' (_ & _ & _ & ->)%insert_session_event_row_run. Qed.
Lemma prompts_ok_for_each {A} (l : list A) (f : A -> M unit) :
  (forall x, prompts_ok (f x)) -> prompts_ok (for_each l f).
Proof. intros H. induction l; simpl; [apply prompts_ok_ret|]. by apply prompts_ok_bind. Qed.

(** Overwriting one row with one that keeps its verdict. *)
Lemma set_prompt_keeps id p p' st u st1 :
  set_prompt id p' st = Ok (u, st1) -> st_prompts st !! id = Some p -> keeps p p' ->
  forall i q, st_prompts st !! i = Some q -> exists q', st_prompts st1 !! i = Some q' /\ keeps q q'.
Proof.
  intros [= _ <-] Hp Hk i q Hq. simpl. destruct (decide (i = id)) as [->|Hne].
  - exists p'. rewrite lookup_insert_eq. by simplify_eq.
  - exists q. rewrite lookup_insert_ne by done. by split; [|apply keeps_refl].
Qed.

Lemma set_prompt_new id p' st u st1 :
  set_prompt id p' st = Ok (u, st1) -> st_prompts st !! id = None ->
  forall i q, st_prompts st !! i = Some q -> exists q', st_prompts st1 !! i = Some q' /\ keeps q q'.
Proof.
  intros [= _ <-] Hn i q Hq. exists q. simpl. rewrite lookup_insert_ne by congruence.
  by split; [|apply keeps_refl].
Qed.

(** A read of the row, a write that keeps it, then operations that do. *)
Lemma prompts_ok_write {A} id (p : PromptRecord) p' st (k : M A) a st' :
  (set_prompt id p' ;; k) st = Ok (a, st') -> st_prompts st !! id = Some p -> keeps p p' ->
  prompts_ok k ->
  forall i q, st_prompts st !! i = Some q -> exists q', st_prompts st' !! i = Some q' /\ keeps q q'.
Proof.
  intros (u & st1 & H1 & H2)%bind_ok Hp Hk Hok i q Hq.
  destruct (set_prompt_keeps _ _ _ _ _ _ H1 Hp Hk i q Hq) as (q1 & Hq1 & K1).
  destruct (Hok _ _ _ H2 i q1 Hq1) as (q2 & Hq2 & K2). exists q2. eauto using keeps_trans.
Qed.

Ltac prompts_tail :=
  repeat first [ apply prompts_ok_bump_prompt | apply prompts_ok_bump | apply prompts_ok_enqueue_if
    | apply prompts_ok_event | apply prompts_ok_ret | apply prompts_ok_fail
    | apply prompts_ok_bind; [|intros ?] | apply prompts_ok_gets | apply prompts_ok_for_each; intros ?
    | apply prompts_ok_modify; done ].

Lemma insert_prompt_ok json_valid external r m now :
  prompts_ok (insert_prompt_with_message_id json_valid external r m now).
Proof.
  unfold insert_prompt_with_message_id. destruct (json_valid _); simpl; [|apply prompts_ok_fail].
  unfold persist_with_outbox.
  apply prompts_ok_bind; [apply prompts_ok_bind; [apply prompts_ok_bind|]|]; [|intros; prompts_tail..].
  intros st u st' H. unfold insert_prompt_row in H. apply bind_ok in H as (s & st0 & H0 & H).
  injection H0 as <- <-. simpl in H.
  destruct (st_prompts st !! npr_id r) eqn:E; [done|].
  destruct (st_sessions st !! npr_session_id r); [|done]. case_match; [|done]. by apply (set_prompt_new _ _ _ _ _ H).
Qed.

Lemma acknowledge_ok external pid m now : prompts_ok (acknowledge_prompt_message_id external pid m now).
Proof.
  unfold acknowledge_prompt_message_id, persist_with_outbox.
  apply prompts_ok_bind; [|intros; prompts_tail].
  intros st u st' H. apply bind_ok in H as (s & st0 & H0 & H). injection H0 as <- <-.
  destruct (st_prompts st !! pid) as [p|] eqn:E; [|done]. case_bool_decide; [|done].
  eapply (prompts_ok_write pid p); [exact H|done|by split|prompts_tail].
Qed.

Lemma agent_message_ok external pid m now : prompts_ok (record_prompt_agent_message_id external pid m now).
Proof.
  unfold record_prompt_agent_message_id, persist_with_outbox.
  apply prompts_ok_bind; [|intros; prompts_tail].
  intros st u st' H. apply bind_ok in H as (s & st0 & H0 & H). injection H0 as <- <-.
  destruct (st_prompts st !! pid) as [p|] eqn:E; [|done].
  eapply (prompts_ok_write pid p); [exact H|done|by split|prompts_tail].
Qed.

Lemma update_prompt_status_ok external id s sr ec em fc fd now :
  prompts_ok (update_prompt_status external id s sr ec em fc fd now).
Proof.
  unfold update_prompt_status. intros st u st' H. apply bind_ok in H as (ps & st0 & H0 & H).
  injection H0 as <- <-. destruct (st_prompts st !! id) as [p|] eqn:E; [|done].
  destruct (status_settled (p_status p)) eqn:Es; [by eapply (prompts_ok_ret false)|].
  eapply (prompts_ok_write id p); [exact H|done|by apply keeps_open|prompts_tail].
Qed.

Lemma prompt_status_from_str_inv s x : prompt_status_from_str s = Ok x -> s = prompt_status_str x.
Proof. unfold prompt_status_from_str. repeat case_bool_decide; intros; by simplify_eq. Qed.

Lemma settle_prompt_ok external id s replace now : prompts_ok (settle_prompt external id s replace now).
Proof.
  unfold settle_prompt. destruct (terminal (se_status s)) eqn:Et; [simpl|apply prompts_ok_fail].
  intros st u st' H. apply bind_ok in H as (ps & st0 & H0 & H).
  injection H0 as <- <-. destruct (st_prompts st !! id) as [p|] eqn:E; [|done].
  destruct (prompt_status_from_str (p_status p)) as [cur|] eqn:Ec; [|done].
  apply prompt_status_from_str_inv in Ec.
  destruct cur; try (by eapply (prompts_ok_ret AlreadyTerminal)).
  - eapply (prompts_ok_write id p); [exact H|done|apply keeps_open; by rewrite Ec|prompts_tail].
  - eapply (prompts_ok_write id p); [exact H|done|apply keeps_open; by rewrite Ec|prompts_tail].
  - destruct replace; [|by eapply (prompts_ok_ret AlreadyTerminal)].
    eapply (prompts_ok_write id p); [exact H|done| |prompts_tail]. split.
    + unfold verdict. rewrite Ec. simpl. intros [?|[?|?]]; discriminate.
    + intros _. simpl. by destruct (se_status s).
Qed.

Lemma reconcile_prompts_ok json_valid external payload reason now ids :
  prompts_ok (reconcile_orphaned_prompts json_valid external payload reason now ids).
Proof.
  unfold reconcile_orphaned_prompts. intros st n st' H. apply bind_ok in H as (ps & st0 & H0 & H).
  injection H0 as <- <-. apply bind_ok in H as (u & st1 & H1 & H). injection H1 as _ <-.
  assert (forall now ids k rows, prompts_ok (settle_orphan_prompts json_valid external payload now ids k rows)) as Hs.
  { intros now0 ids0 k rows. revert k. induction rows as [|[i sid] rows IH]; intros k; simpl;
      [apply prompts_ok_ret|]. unfold settle_orphan_prompt. prompts_tail. apply IH. }
  intros i q Hq.
  assert (prompts_ok (let* events := settle_orphan_prompts json_valid external payload now ids 0
    ((fun p => (p.1, p_session_id p.2)) <$> filter (fun p => prompt_in_flight p.2 = true)
       (map_to_list (st_prompts st))) in
    for_each events (fun e => publish_session_event e.1 e.2) ;; ret (length events))) as Hok.
  { apply prompts_ok_bind; [apply Hs|intros es]. unfold publish_session_event, publish. prompts_tail. }
  destruct (Hok _ _ _ H i (if prompt_in_flight q then orphan_row now reason q else q)) as (q' & Hq' & K).
  { simpl. by rewrite lookup_fmap, Hq. }
  exists q'. split; [done|]. eapply keeps_trans; [|exact K].
  destruct (prompt_in_flight q) eqn:Ef; [by apply keeps_open, in_flight_open|apply keeps_refl].
Qed.

Lemma stall_all_ok external now reason stuck : prompts_ok (stall_all external now reason stuck).
Proof.
  induction stuck as [|s rest IH]; simpl; [apply prompts_ok_ret|].
  intros st l st' H. apply bind_ok in H as (ps & st0 & H0 & H). injection H0 as <- <-.
  destruct (st_prompts st !! sp_id s) as [p|] eqn:E; [|by eapply IH].
  destruct (prompt_in_flight p) eqn:Ef; [|by eapply IH].
  eapply (prompts_ok_write (sp_id s) p); [exact H|done|by apply keeps_open, in_flight_open|].
  prompts_tail. exact IH.
Qed.

Lemma mark_stalled_ok json_extract external th reason now :
  prompts_ok (mark_stalled_prompts json_extract external th reason now).
Proof.
  unfold mark_stalled_prompts. apply prompts_ok_bind; [apply prompts_ok_gets|intros st].
  case_match; [apply stall_all_ok|apply prompts_ok_fail].
Qed.

Lemma touch_ok sid t : prompts_ok (touch_oldest_prompt sid t).
Proof.
  intros st o st' H. unfold touch_oldest_prompt in H. apply bind_ok in H as (s & st0 & H0 & H).
  injection H0 as <- <-. destruct (in_flight_prompts_for_session _ _) as [|p ps]; [by eapply (prompts_ok_ret None)|].
  apply bind_ok in H as (u & st1 & H1 & H2). injection H1 as _ <-. injection H2 as _ <-. simpl.
  intros i q Hq. destruct (decide (p_id p = i)) as [->|Hne].
  - eexists. rewrite lookup_alter_eq, Hq. by split.
  - exists q. rewrite lookup_alter_ne by done. by split; [|apply keeps_refl].
Qed.

Lemma session_update_ok json_valid external parses sid kind payload id now :
  prompts_ok (append_session_update json_valid external parses sid kind payload id now).
Proof.
  unfold append_session_update. case_match; [|apply prompts_ok_fail].
  apply prompts_ok_bind; [|intros seq; unfold publish_session_event, publish; prompts_tail].
  unfold insert_session_update_row. repeat first [apply touch_ok | apply prompts_ok_event
    | apply prompts_ok_bump | apply prompts_ok_ret | apply prompts_ok_bind; [|intros ?]
    | by apply prompts_ok_modify | case_match].
Qed.

(** ** Feed and log *)

Lemma bump_prompt_feed id : feed_ok (bump_prompt_session_change id).
Proof.
  unfold bump_prompt_session_change. apply feed_ok_bind; [apply feed_same_ok, feed_same_gets|].
  intros ps. case_match; [apply bump_feed|apply feed_same_ok, feed_same_fail].
Qed.
Lemma bump_prompt_log id : preserves log_inv (bump_prompt_session_change id).
Proof. unfold bump_prompt_session_change. walk_log. Qed.
Lemma set_prompt_feed id p : feed_same (set_prompt id p).
Proof. by apply feed_same_modify. Qed.
Lemma set_prompt_log id p : preserves log_inv (set_prompt id p).
Proof. by apply preserves_modify. Qed.
Lemma insert_prompt_row_feed json_valid p : feed_same (insert_prompt_row json_valid p).
Proof.
  unfold insert_prompt_row. apply feed_same_bind; [apply feed_same_gets|intros st].
  repeat case_match; first [apply feed_same_fail | apply set_prompt_feed].
Qed.
Lemma insert_prompt_row_log json_valid p : preserves log_inv (insert_prompt_row json_valid p).
Proof. unfold insert_prompt_row, set_prompt. walk_log. Qed.
#[export] Hint Resolve bump_prompt_log set_prompt_feed set_prompt_log insert_prompt_row_feed
  insert_prompt_row_log : acps.

Ltac walk_prompt_feed :=
  repeat first
    [ solve [auto using feed_same_ok with acps] | apply bump_prompt_feed | apply bump_feed
    | apply persist_with_outbox_feed | apply feed_same_ok, feed_same_gets
    | apply feed_ok_bind; [|intros ?] | apply feed_ok_for_each; intros ?
    | apply feed_same_ok, feed_same_modify; done | case_match ].

Lemma insert_prompt_feed json_valid external r m now :
  feed_ok (insert_prompt_with_message_id json_valid external r m now).
Proof. unfold insert_prompt_with_message_id. walk_prompt_feed. Qed.
Lemma acknowledge_feed external pid m now : feed_ok (acknowledge_prompt_message_id external pid m now).
Proof. unfold acknowledge_prompt_message_id. walk_prompt_feed. Qed.
Lemma agent_message_feed external pid m now : feed_ok (record_prompt_agent_message_id external pid m now).
Proof. unfold record_prompt_agent_message_id. walk_prompt_feed. Qed.
Lemma update_prompt_status_feed external id s sr ec em fc fd now :
  feed_ok (update_prompt_status external id s sr ec em fc fd now).
Proof. unfold update_prompt_status. walk_prompt_feed. Qed.
Lemma settle_prompt_feed external id s replace now : feed_ok (settle_prompt external id s replace now).
Proof. unfold settle_prompt. walk_prompt_feed. Qed.
Lemma settle_orphan_prompts_feed json_valid external payload now ids k rows :
  feed_ok (settle_orphan_prompts json_valid external payload now ids k rows).
Proof.
  revert k. induction rows as [|[i sid] rows IH]; intros k; simpl;
    [apply feed_same_ok, feed_same_ret|].
  unfold settle_orphan_prompt. apply feed_ok_bind; [walk_prompt_feed|intros e].
  apply feed_ok_bind; [apply IH|intros es]. apply feed_same_ok, feed_same_ret.
Qed.
Lemma settle_orphan_prompts_log json_valid external payload now ids k rows :
  preserves log_inv (settle_orphan_prompts json_valid external payload now ids k rows).
Proof.
  revert k. induction rows as [|[i sid] rows IH]; intros k; simpl; [apply preserves_ret|].
  unfold settle_orphan_prompt. apply preserves_bind; [walk_log|intros e].
  apply preserves_bind; [apply IH|intros es]. apply preserves_ret.
Qed.
Lemma reconcile_prompts_feed json_valid external payload reason now ids :
  feed_ok (reconcile_orphaned_prompts json_valid external payload reason now ids).
Proof.
  unfold reconcile_orphaned_prompts. apply feed_ok_bind; [apply feed_same_ok, feed_same_gets|intros ps].
  apply feed_ok_bind; [by apply feed_same_ok, feed_same_modify|intros _].
  apply feed_ok_bind; [apply settle_orphan_prompts_feed|intros es].
  unfold publish_session_event. walk_prompt_feed.
Qed.
Lemma reconcile_prompts_log json_valid external payload reason now ids :
  preserves log_inv (reconcile_orphaned_prompts json_valid external payload reason now ids).
Proof.
  unfold reconcile_orphaned_prompts. apply preserves_bind; [apply preserves_gets|intros ps].
  apply preserves_bind; [by apply preserves_modify|intros _].
  apply preserves_bind; [apply settle_orphan_prompts_log|intros es].
  unfold publish_session_event. walk_log.
Qed.
Lemma stall_all_feed external now reason stuck : feed_ok (stall_all external now reason stuck).
Proof.
  induction stuck as [|s rest IH]; simpl; [apply feed_same_ok, feed_same_ret|].
  apply feed_ok_bind; [apply feed_same_ok, feed_same_gets|intros ps].
  case_match; [case_match|]; [|done..].
  repeat first [apply bump_feed | apply feed_ok_bind; [|intros ?] | exact IH
    | solve [auto using feed_same_ok with acps]].
Qed.
Lemma mark_stalled_feed json_extract external th reason now :
  feed_ok (mark_stalled_prompts json_extract external th reason now).
Proof.
  unfold mark_stalled_prompts. apply feed_ok_bind; [apply feed_same_ok, feed_same_gets|intros st].
  case_match; [apply stall_all_feed|apply feed_same_ok, feed_same_fail].
Qed.

(** ** Histories *)

Section history.
Context (json_valid json_parses : string -> bool) (external : bool)
  (payload : string -> string -> option string -> option string -> string)
  (json_extract : string -> string -> JsonValue).

(** One committed operation on the prompts of sessions that are not deleted. *)
Inductive prompt_step : Store -> Store -> Prop :=
| pst_insert r m now st a st' :
    insert_prompt_with_message_id json_valid external r m now st = Ok (a, st') -> prompt_step st st'
| pst_ack pid m now st a st' :
    acknowledge_prompt_message_id external pid m now st = Ok (a, st') -> prompt_step st st'
| pst_agent_message pid m now st a st' :
    record_prompt_agent_message_id external pid m now st = Ok (a, st') -> prompt_step st st'
| pst_update id s sr ec em fc fd now st a st' :
    update_prompt_status external id s sr ec em fc fd now st = Ok (a, st') -> prompt_step st st'
| pst_settle id s replace now st a st' :
    settle_prompt external id s replace now st = Ok (a, st') -> prompt_step st st'
| pst_reconcile reason now ids st a st' :
    reconcile_orphaned_prompts json_valid external payload reason now ids st = Ok (a, st') ->
    prompt_step st st'
| pst_stalled th reason now st a st' :
    mark_stalled_prompts json_extract external th reason now st = Ok (a, st') -> prompt_step st st'
| pst_session_update sid kind body id now st a st' :
    append_session_update json_valid external json_parses sid kind body id now st = Ok (a, st') ->
    prompt_step st st'
| pst_other st st' : st_prompts st' = st_prompts st -> prompt_step st st'.

Lemma prompt_step_keeps st st' id p :
  prompt_step st st' -> st_prompts st !! id = Some p ->
  exists p', st_prompts st' !! id = Some p' /\ keeps p p'.
Proof.
  destruct 1; intros Hp; [eapply insert_prompt_ok|eapply acknowledge_ok|eapply agent_message_ok
    |eapply update_prompt_status_ok|eapply settle_prompt_ok|eapply reconcile_prompts_ok
    |eapply mark_stalled_ok|eapply session_update_ok|]; try done.
  exists p. split; [congruence|apply keeps_refl].
Qed.

(** A prompt's verdict is final: after any history of status updates,
    settlements, activity touches and sweeps, a prompt that completed, errored
    or was cancelled has the outcome it was given, and a prompt that was
    settled in any way, stalled included, is never in flight again. *)
Theorem prompt_verdict_final st st' id p :
  rtc prompt_step st st' -> st_prompts st !! id = Some p ->
  exists p', st_prompts st' !! id = Some p'
  /\ (verdict p -> outcome p' = outcome p)
  /\ (status_settled (p_status p) = true -> prompt_in_flight p' = false).
Proof.
  intros H. revert p. induction H as [|a b c Hs _ IH]; intros p Hp.
  - exists p. split; [done|]. split; [done|]. intros Hset.
    destruct (prompt_in_flight p) eqn:E; [|done]. apply in_flight_open in E. congruence.
  - destruct (prompt_step_keeps a b id p Hs Hp) as (q & Hq & [K1 K2]).
    destruct (IH q Hq) as (p' & Hp' & V & S). exists p'. split; [done|]. split; [|by auto].
    intros Hv. rewrite V; [by apply K1|]. specialize (K1 Hv). unfold verdict, outcome in *.
    injection K1 as -> _. done.
Qed.
End history.

(** A settled prompt of a live session, the running example. *)
Definition sample_session : SessionRow :=
  mkSession "s" "agent" "a" "t" "t" "active" "agent" "/w" None "{}" 1.
Definition sample_prompt (status updated_at : string) : PromptRecord :=
  mkPrompt "p" "s" "t0" updated_at status None None None "{}" None false None None None.
Definition sample_prompts (status updated_at : string) : Store :=
  set_prompts (<["p" := sample_prompt status updated_at]> ∅)
    (set_sessions (<["s" := sample_session]> ∅) (set_counter 1 0 empty_store)).

Lemma prompt_verdict_final_witness :
  let st := sample_prompts "completed" "t1" in
  let st' := exec (settle_prompt true "p" (mkSettlement PErrored None None None None None) true "t2") st in
  exists p', st_prompts st' !! "p" = Some p'
  /\ (verdict (sample_prompt "completed" "t1") -> outcome p' = outcome (sample_prompt "completed" "t1"))
  /\ (status_settled "completed" = true -> prompt_in_flight p' = false).
Proof.
  intros st st'.
  apply (prompt_verdict_final (fun _ => true) (fun _ => true) true (fun _ _ _ _ => "{}"%string)
           (fun _ _ => JNull) st st' "p" (sample_prompt "completed" "t1")); [|reflexivity].
  apply rtc_once.
  destruct (exec_ok (settle_prompt true "p" (mkSettlement PErrored None None None None None) true "t2")
    st eq_refl) as [a H]. eapply pst_settle. exact H.
Defined.

Lemma bump_succeeds id st :
  st_change_seq st < i64_max ->
  exists st', bump_session_change id st = Ok (tt, st') /\ st_prompts st' = st_prompts st.
Proof.
  intros Hc. unfold bump_session_change, next_change_seq, bind, gets, modify, ret.
  destruct (st_sessions st !! id); [|by eexists].
  rewrite (proj2 (Z.leb_gt i64_max (st_change_seq st)) Hc). by eexists.
Qed.

(** What a settlement does, in every case: a turn in flight takes it; the
    sweeper's verdict gives way to the agent's own result exactly when asked
    to; any other settled turn is left as it is; a status that is not terminal
    is refused. *)
Theorem settle_prompt_cases external id s replace now st p current :
  st_prompts st !! id = Some p -> p_status p = prompt_status_str current ->
  st_change_seq st < i64_max ->
  let written := with_outcome (prompt_status_str (se_status s)) now (se_stop_reason s)
    (se_error_code s) (se_error_message s) (se_failure_class s) (se_failure_detail_json s) p in
  if negb (terminal (se_status s)) then
    settle_prompt external id s replace now st = Err (InvalidParam "prompt_status")
  else
    match current with
    | PPending | PRunning =>
        exists st', settle_prompt external id s replace now st = Ok (Applied, st')
        /\ st_prompts st' = <[id := written]> (st_prompts st)
    | PStalled =>
        if replace
        then exists st', settle_prompt external id s replace now st = Ok (ReplacedStall, st')
             /\ st_prompts st' = <[id := written]> (st_prompts st)
        else settle_prompt external id s replace now st = Ok (AlreadyTerminal, st)
    | _ => settle_prompt external id s replace now st = Ok (AlreadyTerminal, st)
    end.
Proof.
  intros Hp Hs Hc written. unfold settle_prompt.
  destruct (terminal (se_status s)); simpl; [|done].
  assert (prompt_status_from_str (p_status p) = Ok current) as Hcur by (rewrite Hs; by destruct current).
  assert (forall r : PromptSettle, exists st', (set_prompt id written ;; bump_prompt_session_change id ;;
    enqueue_if external "prompts" id now ;; ret r) st = Ok (r, st')
    /\ st_prompts st' = <[id := written]> (st_prompts st)) as Hw.
  { intros r. set (st1 := set_prompts (<[id := written]> (st_prompts st)) st).
    destruct (bump_succeeds (p_session_id written) st1 Hc) as (st2 & Hb & E2).
    unfold bump_prompt_session_change, set_prompt, bind at 1 2 3, gets, modify. fold st1. simpl.
    rewrite lookup_insert_eq. change (p_session_id p) with (p_session_id written). rewrite Hb.
    unfold enqueue_if, enqueue, bind, modify, ret. destruct external;
      (eexists; split; [reflexivity|]; simpl; by rewrite E2). }
  destruct current; [| | | | |destruct replace]; unfold bind at 1, gets at 1; rewrite Hp, Hcur;
    first [done | apply Hw].
Qed.

Lemma settle_prompt_cases_witness :
  let s := mkSettlement PCompleted (Some "end_turn") None None None None in
  let st := sample_prompts "stalled" "t1" in
  exists st', settle_prompt true "p" s true "t2" st = Ok (ReplacedStall, st')
  /\ st_prompts st' = <["p" := with_outcome "completed" "t2" (Some "end_turn") None None None None
                                (sample_prompt "stalled" "t1")]> (st_prompts st).
Proof.
  intros s st.
  apply (settle_prompt_cases true "p" s true "t2" st (sample_prompt "stalled" "t1") PStalled);
    reflexivity.
Defined.

(** ** The sweep for stalled turns *)

Definition prompt_ids (st : Store) : Prop :=
  forall id p, st_prompts st !! id = Some p -> p_id p = id.

(** When the sweep gives up on a prompt: in flight, quiet past the short
    threshold, and with a tool call open in its turn also past the long one. *)
Definition gives_up (json_extract : string -> string -> JsonValue) (th : Thresholds) (st : Store)
    (p : PromptRecord) : bool :=
  prompt_in_flight p && String.ltb (p_updated_at p) (th_quiet_cutoff th)
  && match session_has_open_tool_call json_extract (p_session_id p) (p_created_at p) st with
     | Ok true => negb (String.leb (th_tool_call_cutoff th) (p_updated_at p))
     | Ok false => true
     | Err _ => false
     end.

Lemma stuck_list_spec json_extract th st l stuck :
  stuck_list json_extract th st l = Ok stuck ->
  forall id, id ∈ sp_id <$> stuck <->
  exists p, p ∈ l /\ p_id p = id
  /\ match session_has_open_tool_call json_extract (p_session_id p) (p_created_at p) st with
     | Ok true => negb (String.leb (th_tool_call_cutoff th) (p_updated_at p))
     | Ok false => true
     | Err _ => false
     end = true.
Proof.
  revert stuck. induction l as [|p l IH]; intros stuck H id; simpl in H.
  - injection H as <-. split; [by intros ?%not_elem_of_nil|]. by intros (p & ?%not_elem_of_nil & _).
  - unfold stuck_of in H.
    destruct (session_has_open_tool_call json_extract (p_session_id p) (p_created_at p) st) as [b|] eqn:E;
      [|done]. simpl in H.
    destruct (stuck_list json_extract th st l) as [more|] eqn:El; [|by destruct b; [destruct (String.leb _ _)|]].
    specialize (IH more eq_refl id). setoid_rewrite elem_of_cons.
    assert (forall Q : Prop, (exists q, (q = p \/ q ∈ l) /\ p_id q = id /\
      match session_has_open_tool_call json_extract (p_session_id q) (p_created_at q) st with
      | Ok true => negb (String.leb (th_tool_call_cutoff th) (p_updated_at q))
      | Ok false => true | Err _ => false end = true) <->
      (p_id p = id /\ (if b then negb (String.leb (th_tool_call_cutoff th) (p_updated_at p)) else true) = true)
      \/ id ∈ sp_id <$> more) as Hsplit.
    { intros _. rewrite IH. split.
      - intros (q & [->|Hq] & Hid & Hm); [left; rewrite E in Hm; by destruct b|right; eauto].
      - intros [[Hid Hm]|(q & Hq & Hid & Hm)]; [exists p|exists q]; [|by auto].
        split; [by left|]. split; [done|]. rewrite E. by destruct b. }
    rewrite (Hsplit True). destruct b; [destruct (String.leb _ _) eqn:Ele|]; simpl in H;
      injection H as <-; simpl; rewrite ?elem_of_cons; clear; naive_solver.
Qed.

Lemma elem_of_stuck_candidates cutoff st p :
  prompt_ids st ->
  p ∈ stuck_candidates cutoff st <->
  st_prompts st !! p_id p = Some p /\ prompt_in_flight p = true
  /\ String.ltb (p_updated_at p) cutoff = true.
Proof.
  intros Hids. unfold stuck_candidates. rewrite order_by_perm, list_elem_of_filter, list_elem_of_fmap.
  split.
  - intros [[? ?] ([id q] & -> & Hin%elem_of_map_to_list)]. simpl in *. by rewrite (Hids _ _ Hin).
  - intros (Hl & ? & ?). split; [done|]. exists (p_id p, p). split; [done|]. by apply elem_of_map_to_list.
Qed.

Lemma stall_all_run external now reason stuck st l st' :
  stall_all external now reason stuck st = Ok (l, st') ->
  forall id p, st_prompts st !! id = Some p ->
  st_prompts st' !! id = Some (if bool_decide (id ∈ sp_id <$> stuck) && prompt_in_flight p
                               then stalled_row now reason p else p).
Proof.
  revert st l. induction stuck as [|s rest IH]; intros st l H id p Hp; simpl in H.
  { injection H as _ <-. by rewrite Hp. }
  apply bind_ok in H as (ps & st0 & H0 & H). injection H0 as <- <-.
  assert (forall st1 l1, stall_all external now reason rest st1 = Ok (l1, st') ->
    st_prompts st1 !! id = Some p -> (sp_id s = id -> prompt_in_flight p = false) ->
    st_prompts st' !! id = Some (if bool_decide (id ∈ sp_id <$> s :: rest) && prompt_in_flight p
                               then stalled_row now reason p else p)) as Hskip.
  { intros st1 l1 H1 Hp1 Hne. rewrite (IH _ _ H1 id p Hp1). f_equal.
    destruct (decide (sp_id s = id)) as [E|E]; [by rewrite (Hne E), !andb_false_r|].
    replace (bool_decide (id ∈ sp_id <$> s :: rest)) with (bool_decide (id ∈ sp_id <$> rest)); [done|].
    apply bool_decide_ext. simpl. rewrite elem_of_cons. naive_solver. }
  destruct (st_prompts st !! sp_id s) as [q|] eqn:Eq; [|eapply Hskip; [done|done|congruence]].
  destruct (prompt_in_flight q) eqn:Ef; [|eapply Hskip; [done|done|congruence]].
  apply bind_ok in H as (u1 & st1 & H1 & H). injection H1 as _ <-.
  apply bind_ok in H as (u2 & st2 & H2 & H).
  assert (st_prompts st2 = <[sp_id s := stalled_row now reason q]> (st_prompts st)) as E2.
  { by destruct (bump_session_change_run _ _ _ _ H2) as [[_ ->]|(r & _ & _ & ->)]. }
  apply bind_ok in H as (u3 & st3 & H3 & H).
  assert (st_prompts st3 = st_prompts st2) as E3.
  { unfold enqueue_if in H3. destruct external; by injection H3 as _ <-. }
  apply bind_ok in H as (more & st4 & H4 & H). injection H as _ <-.
  destruct (decide (sp_id s = id)) as [E|E].
  - subst id. rewrite Eq in Hp. injection Hp as <-. rewrite Ef.
    rewrite (IH _ _ H4 (sp_id s) (stalled_row now reason q)).
    + rewrite andb_false_r. rewrite bool_decide_eq_true_2 by (simpl; set_solver). done.
    + by rewrite E3, E2, lookup_insert_eq.
  - eapply Hskip; [done| |done]. by rewrite E3, E2, lookup_insert_ne.
Qed.

(** The sweep gives up exactly on the turns it should: a prompt is marked
    [stalled] when, and only when, it is in flight, has been quiet past the
    threshold, and, if its turn has a tool call that has not completed or
    failed, past the longer threshold too; every other prompt is untouched. *)
Theorem stalled_exactly json_extract external th reason now st l st' :
  mark_stalled_prompts json_extract external th reason now st = Ok (l, st') -> prompt_ids st ->
  forall id p, st_prompts st !! id = Some p ->
  st_prompts st' !! id = Some (if gives_up json_extract th st p then stalled_row now reason p else p).
Proof.
  unfold mark_stalled_prompts. intros (s0 & st0 & H0 & H)%bind_ok Hids id p Hp. injection H0 as <- <-.
  unfold Datatypes.id in H.
  destruct (stuck_prompts json_extract th st) as [stuck|] eqn:Es; [|done].
  rewrite (stall_all_run _ _ _ _ _ _ _ H id p Hp). f_equal.
  pose proof (stuck_list_spec _ _ _ _ _ Es id) as Hspec.
  assert ((bool_decide (id ∈ sp_id <$> stuck) && prompt_in_flight p) = gives_up json_extract th st p) as ->;
    [|done].
  apply eq_true_iff_eq. unfold gives_up. rewrite !andb_true_iff, bool_decide_eq_true, Hspec. split.
  - intros [(q & Hq & Hid & Hm) Hf]. apply elem_of_stuck_candidates in Hq as (Hl & _ & Ht); [|done].
    rewrite Hid, Hp in Hl. injection Hl as <-. done.
  - intros [[Hf Ht] Hm]. split; [|done]. exists p. pose proof (Hids id p Hp) as Hid.
    split; [|done]. apply elem_of_stuck_candidates; [done|]. by rewrite Hid.
Qed.

Lemma stalled_exactly_witness :
  let th := mkThresholds 600 3600 "t5" "t3" in
  let st := sample_prompts "running" "t4" in
  let st' := exec (mark_stalled_prompts (fun _ _ => JNull) true th "quiet" "t9") st in
  st_prompts st' !! "p" = Some (stalled_row "t9" "quiet" (sample_prompt "running" "t4")).
Proof.
  intros th st st'.
  destruct (exec_ok (mark_stalled_prompts (fun _ _ => JNull) true th "quiet" "t9") st eq_refl) as [l H].
  assert (prompt_ids st) as Hids.
  { intros id p Hp. unfold st, sample_prompts in Hp. simpl in Hp.
    apply lookup_insert_Some in Hp as [[<- <-]|[_ Hp]]; [reflexivity|discriminate Hp]. }
  pose proof (stalled_exactly (fun _ _ => JNull) true th "quiet" "t9" st l st' H Hids "p"
    (sample_prompt "running" "t4") eq_refl) as E.
  replace (gives_up (fun _ _ => JNull) th st (sample_prompt "running" "t4")) with true in E
    by (vm_compute; reflexivity).
  exact E.
Defined.
