(* ===== verification/SessionStore.v ===== *)
(** The session rows (src/src/state/sessions/queries.rs): creation, deletion with
    its tombstone, status changes, target renames and the two sweeps that
    demote sessions no agent holds. *)

From S2P Require Import Prelude Store SinkOutbox ChangeFeed SessionEvents.
Open Scope Z_scope.
Open Scope result_scope.

Definition SESSION_STATUS_ACTIVE : string := "active".
Definition SESSION_STATUS_AVAILABLE : string := "available".
Definition SESSION_STATUS_CLOSED : string := "closed".

Record NewSessionRecord := mkNewSession {
  ns_id : string;
  ns_agent_id : string;
  ns_cwd : string;
  ns_title : option string;
  ns_metadata_json : string;
}.

Definition new_active_session_row (target_id agent_session_id : string) (record : NewSessionRecord)
    (now : string) : SessionRow :=
  mkSession (ns_id record) target_id agent_session_id now now SESSION_STATUS_ACTIVE
    (ns_agent_id record) (ns_cwd record) (ns_title record) (ns_metadata_json record) 0.

(** The unique [(target_id, agent_session_id)] index. *)
Definition agent_session_taken (target_id agent_session_id : string)
    (sessions : gmap string SessionRow) : bool :=
  existsb (fun p => bool_decide (s_target_id p.2 = target_id
                                  /\ s_agent_session_id p.2 = agent_session_id))
    (map_to_list sessions).

Definition with_session_status (status updated_at : string) (s : SessionRow) : SessionRow :=
  mkSession (s_id s) (s_target_id s) (s_agent_session_id s) (s_created_at s) updated_at status
    (s_agent_id s) (s_cwd s) (s_title s) (s_metadata_json s) (s_change_seq s).

Definition with_session_cwd (cwd : string) (s : SessionRow) : SessionRow :=
  mkSession (s_id s) (s_target_id s) (s_agent_session_id s) (s_created_at s) (s_updated_at s)
    (s_status s) (s_agent_id s) cwd (s_title s) (s_metadata_json s) (s_change_seq s).

Definition with_target (target_id updated_at : string) (s : SessionRow) : SessionRow :=
  mkSession (s_id s) target_id (s_agent_session_id s) (s_created_at s) updated_at
    (s_status s) (s_agent_id s) (s_cwd s) (s_title s) (s_metadata_json s) (s_change_seq s).

Definition get_session (id : string) (st : Store) : option SessionRow := st_sessions st !! id.

(** [UPDATE sessions SET .. WHERE id], [SessionNotFound] when no row matched,
    and the stamp. *)
Definition update_session (id : string) (f : SessionRow -> SessionRow) : M unit :=
  let* sessions := gets st_sessions in
  match sessions !! id with
  | None => fail (SessionNotFound id)
  | Some s => modify (fun st => set_sessions (<[id := f s]> (st_sessions st)) st) ;;
              bump_session_change id
  end.

(** Ids of every subagent in the tree a root heads. *)
Definition subagent_ids_of_root (root_session_id : string) (st : Store) : list string :=
  (filter (fun p => sa_root_session_id p.2 = root_session_id) (map_to_list (st_subagents st))).*1.

(** [DELETE FROM sessions WHERE id]: the subagent row of the session goes with
    it, and a row that still names it as parent or root blocks the statement. *)
Definition delete_session_row (id : string) : M unit :=
  let* st := gets Datatypes.id in
  let subagents := delete id (st_subagents st) in
  if existsb (fun p => bool_decide (sa_parent_session_id p.2 = id \/ sa_root_session_id p.2 = id))
       (map_to_list subagents)
  then fail Sqlite
  else modify (fun st => set_sessions (delete id (st_sessions st)) (set_subagents subagents st)).

(** The three deletes and the tombstone of one session. *)
Definition delete_one (now id : string) : M unit :=
  modify (fun st => set_prompts (filter (fun p => p_session_id p.2 <> id) (st_prompts st)) st) ;;
  modify (fun st => set_events (drop_session_events id (st_events st)) st) ;;
  delete_session_row id ;;
  insert_session_tombstone id now.

Section sessions.
Context (json_valid : string -> bool) (external : bool).

Definition insert_session_row (row : SessionRow) (change_seq : Z) : M unit :=
  let* sessions := gets st_sessions in
  match sessions !! s_id row with
  | Some _ => fail Sqlite
  | None =>
      if agent_session_taken (s_target_id row) (s_agent_session_id row) sessions
         || negb (json_valid (s_metadata_json row))
      then fail Sqlite
      else
        modify (fun st => set_sessions
          (<[s_id row := with_change_seq change_seq row]> (st_sessions st)) st) ;;
        clear_session_tombstone (s_id row)
  end.

Definition insert_session_for_target (target_id agent_session_id : string)
    (record : NewSessionRecord) (now : string) : M SessionRow :=
  if negb (json_valid (ns_metadata_json record)) then fail InvalidEventPayload
  else
    let row := new_active_session_row target_id agent_session_id record now in
    let* change_seq := persist_with_outbox external "sessions" (s_id row) now
      (let* change_seq := next_change_seq in
       insert_session_row row change_seq ;;
       ret change_seq) in
    ret (with_change_seq change_seq row).

Definition insert_session (record : NewSessionRecord) (now : string) : M SessionRow :=
  insert_session_for_target (ns_agent_id record) (ns_id record) record now.

Definition update_session_status (id status now : string) : M unit :=
  persist_with_outbox external "sessions" id now (update_session id (with_session_status status now)).

Definition update_session_status_and_cwd (id status cwd now : string) : M unit :=
  persist_with_outbox external "sessions" id now
    (update_session id (fun s => with_session_cwd cwd (with_session_status status now s))).

Definition session_ids_of_target (target_id : string) (st : Store) : list string :=
  (order_by (fun p => (p.1, ""%string))
     (filter (fun p => s_target_id p.2 = target_id) (map_to_list (st_sessions st)))).*1.

Definition rename_collides (old_target_id new_target_id : string) (st : Store) : bool :=
  existsb (fun p => bool_decide (s_target_id p.2 = old_target_id)
                    && agent_session_taken new_target_id (s_agent_session_id p.2) (st_sessions st))
    (map_to_list (st_sessions st)).

Definition rename_session_target_id (old_target_id new_target_id now : string) : M nat :=
  if bool_decide (old_target_id = new_target_id) then ret 0%nat
  else
    let* st := gets id in
    if rename_collides old_target_id new_target_id st
    then fail (SessionTargetRenameConflict old_target_id new_target_id)
    else
      let* ids := persist_many_with_outbox external "sessions" now
        (let* ids := gets (session_ids_of_target old_target_id) in
         modify (fun st => set_sessions
           ((fun s => if bool_decide (s_target_id s = old_target_id)
                      then with_target new_target_id now s else s) <$> st_sessions st) st) ;;
         for_each ids bump_session_change ;;
         ret ids) in
      ret (length ids).

Definition delete_session (id now : string) : M (option SessionRow) :=
  let* sessions := gets st_sessions in
  match sessions !! id with
  | None => ret None
  | Some record =>
      persist_many_with_outbox external "sessions" now
        (let* subagents := gets (subagent_ids_of_root id) in
         modify (fun st => set_subagents
           (filter (fun p => sa_root_session_id p.2 <> id) (st_subagents st)) st) ;;
         let ids := subagents ++ [id] in
         for_each ids (delete_one now) ;;
         ret ids) ;;
      ret (Some record)
  end.

(** ** Sweeps *)

Definition scope_target (target_id : option string) (s : SessionRow) : bool :=
  match target_id with None => true | Some t => bool_decide (s_target_id s = t) end.

Definition demoted (target_id : option string) (s : SessionRow) : bool :=
  bool_decide (s_status s = SESSION_STATUS_ACTIVE) && scope_target target_id s.

Definition demote (s : SessionRow) : SessionRow :=
  with_session_status SESSION_STATUS_AVAILABLE (s_updated_at s) s.

Definition withdraw_row (sa : SubagentRecord) : SubagentRecord :=
  mkSubagent (sa_session_id sa) (sa_parent_session_id sa) (sa_root_session_id sa) (sa_title sa)
    (sa_description sa) (sa_state_json sa) false false (sa_announced_at sa) (sa_updated_at sa).

Definition holds_state (sa : SubagentRecord) : bool := sa_state_current sa || sa_cancel_granted sa.

(** The subagent rows of [SUBAGENT_SQL]. *)
Definition withdrawn (target_id : option string) (sessions : gmap string SessionRow) (id : string)
    (sa : SubagentRecord) : bool :=
  holds_state sa
  && match target_id with
     | None => true
     | Some t => match sessions !! id with
                 | Some s => bool_decide (s_target_id s = t)
                 | None => false
                 end
     end.

Definition reconcile_orphaned_sessions (target_id : option string) (now : string) : M (list string) :=
  persist_many_with_outbox external "sessions" now
    (let* st := gets id in
     let ids := (filter (fun p => demoted target_id p.2 = true) (map_to_list (st_sessions st))).*1 in
     modify (fun st => set_sessions
       ((fun s => if demoted target_id s then demote s else s) <$> st_sessions st) st) ;;
     let subagent_ids :=
       (filter (fun p => withdrawn target_id (st_sessions st) p.1 p.2 = true)
          (map_to_list (st_subagents st))).*1 in
     modify (fun st' => set_subagents
       (map_imap (fun i sa => Some (if withdrawn target_id (st_sessions st) i sa
                                    then withdraw_row sa else sa)) (st_subagents st')) st') ;;
     for_each (ids ++ subagent_ids) bump_session_change ;;
     ret ids).

(** The newest activity of a session: [max(COALESCE(MAX(p.updated_at),
    updated_at), updated_at)]. *)
Definition string_max (a b : string) : string := if String.leb a b then b else a.

Definition last_activity (st : Store) (s : SessionRow) : string :=
  foldr (fun p acc => string_max (p_updated_at p.2) acc) (s_updated_at s)
    (filter (fun p => p_session_id p.2 = s_id s) (map_to_list (st_prompts st))).

Definition idle (cutoff : string) (st : Store) (s : SessionRow) : bool :=
  bool_decide (s_status s = SESSION_STATUS_ACTIVE)
  && negb (existsb (fun p => bool_decide (p_session_id p.2 = s_id s) && prompt_in_flight p.2)
             (map_to_list (st_prompts st)))
  && negb (existsb (fun p => bool_decide (pr_subject_id p.2 = Some (s_id s)
                                          /\ pr_source p.2 = "acp" /\ pr_status p.2 = "pending"))
             (map_to_list (st_permissions st)))
  && String.ltb (last_activity st s) cutoff.

(** [cutoff] is the formatted [now - threshold]. *)
Definition mark_idle_sessions (cutoff now : string) : M (list string) :=
  persist_many_with_outbox external "sessions" now
    (let* st := gets id in
     let ids := (filter (fun p => idle cutoff st p.2 = true) (map_to_list (st_sessions st))).*1 in
     modify (fun st' => set_sessions
       ((fun s => if idle cutoff st s then demote s else s) <$> st_sessions st') st') ;;
     for_each ids bump_session_change ;;
     ret ids).
End sessions.

(** ** The feed under session writes *)

Lemma stamp_edited st sessions ids st1 u st2 :
  feed_inv st -> s_change_seq <$> sessions = live_seqs st ->
  (forall id, id ∉ ids -> sessions !! id = st_sessions st !! id) ->
  feed_same_stores (set_sessions sessions st) st1 ->
  for_each ids bump_session_change st1 = Ok (u, st2) -> feed_inv st2 /\ feed_step st st2.
Proof.
  intros Hi Hseq Hout Hsame H.
  destruct (edit_dirty (list_to_set ids) st sessions Hi Hseq) as [Hi0 Hd0].
  { intros id Hn. apply Hout. by rewrite <- (elem_of_list_to_set (C := gset string)). }
  destruct (feed_same_dirty _ _ _ _ Hi0 Hd0 Hsame) as [Hi1 Hd1].
  destruct (bump_all_dirty _ _ _ _ _ _ Hi1 Hd1 H) as [Hi2 Hd2].
  split; [done|]. eapply feed_dirty_empty; [|done]. set_solver.
Qed.

(** An edit of every row a test selects. *)
Lemma edit_where_seqs (test : SessionRow -> bool) f (sessions : gmap string SessionRow) :
  (forall s, s_change_seq (f s) = s_change_seq s) ->
  s_change_seq <$> ((fun s => if test s then f s else s) <$> sessions) = s_change_seq <$> sessions.
Proof.
  intros Hf. rewrite <- map_fmap_compose. apply map_fmap_ext. intros id s _. simpl.
  by destruct (test s).
Qed.

Lemma edit_where_out (test : SessionRow -> bool) f (sessions : gmap string SessionRow) (ids : list string) id :
  (forall s, sessions !! id = Some s -> test s = true -> id ∈ ids) -> id ∉ ids ->
  ((fun s => if test s then f s else s) <$> sessions) !! id = sessions !! id.
Proof.
  intros H Hn. rewrite lookup_fmap. destruct (sessions !! id) as [s|] eqn:E; [|done]. simpl.
  destruct (test s) eqn:Et; [|done]. by destruct Hn; eauto.
Qed.

Lemma elem_of_selected {A} (m : gmap string A) (test : string * A -> bool) id :
  id ∈ (filter (fun p => test p = true) (map_to_list m)).*1
  <-> exists s, m !! id = Some s /\ test (id, s) = true.
Proof.
  rewrite list_elem_of_fmap. split.
  - intros ([i s] & -> & [Ht Hin]%list_elem_of_filter). apply elem_of_map_to_list in Hin. eauto.
  - intros (s & Hs & Ht). exists (id, s). split; [done|]. apply list_elem_of_filter.
    split; [done|]. by apply elem_of_map_to_list.
Qed.

Lemma update_session_feed id f :
  (forall s, s_change_seq (f s) = s_change_seq s) -> feed_ok (update_session id f).
Proof.
  intros Hf st u st' Hi H. unfold update_session in H.
  apply bind_ok in H as (ss & st0 & H0 & H). injection H0 as <- <-.
  destruct (st_sessions st !! id) as [s|] eqn:E; [|done].
  apply bind_ok in H as (u1 & st1 & H1 & H). injection H1 as _ <-.
  eapply (stamp_edited st (<[id := f s]> (st_sessions st)) [id] _ u st' Hi); [| |done|].
  - rewrite fmap_insert, Hf. unfold live_seqs. apply insert_id. by rewrite lookup_fmap, E.
  - intros id' Hn. apply lookup_insert_ne. set_solver.
  - simpl. apply bind_ok. exists u, st'. split; [exact H|by destruct u].
Qed.

Lemma insert_session_row_run json_valid row seq st u st' :
  insert_session_row json_valid row seq st = Ok (u, st') ->
  st_sessions st !! s_id row = None
  /\ st' = set_tombstones (delete (s_id row) (st_tombstones st))
             (set_sessions (<[s_id row := with_change_seq seq row]> (st_sessions st)) st).
Proof.
  unfold insert_session_row. intros H. apply bind_ok in H as (ss & st0 & H0 & H).
  injection H0 as <- <-. destruct (st_sessions st !! s_id row) eqn:E; [done|].
  destruct (_ || _); [done|]. apply bind_ok in H as (u1 & st1 & H1 & H).
  injection H1 as _ <-. injection H as _ <-. done.
Qed.

Lemma insert_session_feed json_valid external target_id agent_session_id record now :
  feed_ok (insert_session_for_target json_valid external target_id agent_session_id record now).
Proof.
  unfold insert_session_for_target. case_match; [apply feed_same_ok, feed_same_fail|].
  apply feed_ok_bind; [|intros seq; apply feed_same_ok, feed_same_ret].
  apply persist_with_outbox_feed. intros st seq st' Hi Hrun.
  apply bind_ok in Hrun as (n & st1 & H1 & Hrun). apply next_change_seq_run in H1 as (Hlt & -> & ->).
  apply bind_ok in Hrun as (u & st2 & H2 & Hrun). injection Hrun as _ <-.
  apply insert_session_row_run in H2 as [_ ->].
  by eapply (insert_live_step st (ns_id record)
    (with_change_seq (st_change_seq st + 1)
       (new_active_session_row target_id agent_session_id record now))).
Qed.

Lemma persist_many_feed external t c inner :
  feed_ok inner -> feed_ok (persist_many_with_outbox external t c inner).
Proof.
  intros Hi. apply feed_ok_bind; [done|]. intros ids. apply feed_ok_bind.
  - destruct external; [|apply feed_same_ok, feed_same_ret].
    apply feed_same_ok, feed_same_for_each. intros x. apply enqueue_feed.
  - intros _. apply feed_same_ok, feed_same_ret.
Qed.

Lemma persist_many_log external t c inner :
  preserves log_inv inner -> preserves log_inv (persist_many_with_outbox external t c inner).
Proof. intros Hi. apply preserves_bind; [done|]. intros ids. walk_log. Qed.

Lemma elem_of_session_ids_of_target t st id :
  id ∈ session_ids_of_target t st <-> exists s, st_sessions st !! id = Some s /\ s_target_id s = t.
Proof.
  unfold session_ids_of_target. rewrite list_elem_of_fmap. split.
  - intros ([i s] & -> & Hin). rewrite order_by_perm in Hin.
    apply list_elem_of_filter in Hin as [Ht Hin%elem_of_map_to_list]. eauto.
  - intros (s & Hs & Ht). exists (id, s). split; [done|]. rewrite order_by_perm.
    apply list_elem_of_filter. split; [done|]. by apply elem_of_map_to_list.
Qed.

Lemma rename_feed external old new now : feed_ok (rename_session_target_id external old new now).
Proof.
  unfold rename_session_target_id. case_match; [apply feed_same_ok, feed_same_ret|].
  apply feed_ok_bind; [apply feed_same_ok, feed_same_gets|intros st0].
  case_match; [apply feed_same_ok, feed_same_fail|].
  apply feed_ok_bind; [|intros ids; apply feed_same_ok, feed_same_ret].
  apply persist_many_feed. intros st ids st' Hi Hrun.
  apply bind_ok in Hrun as (ids0 & st1 & E1 & Hrun). injection E1 as <- <-.
  apply bind_ok in Hrun as (u1 & st2 & E2 & Hrun). injection E2 as _ <-.
  apply bind_ok in Hrun as (u2 & st3 & E3 & Hrun). injection Hrun as _ <-.
  eapply stamp_edited; [exact Hi| | |done|exact E3].
  - unfold live_seqs. by apply (edit_where_seqs (fun s => bool_decide (s_target_id s = old))).
  - intros id Hn. apply (edit_where_out (fun s => bool_decide (s_target_id s = old)) _ _
      (session_ids_of_target old st)); [|done].
    intros s Hs Ht%bool_decide_eq_true. apply elem_of_session_ids_of_target. eauto.
Qed.

Lemma reconcile_sessions_feed external target now :
  feed_ok (reconcile_orphaned_sessions external target now).
Proof.
  apply persist_many_feed. intros st ids st' Hi Hrun.
  apply bind_ok in Hrun as (st0 & st1 & E1 & Hrun). injection E1 as <- <-.
  apply bind_ok in Hrun as (u1 & st2 & E2 & Hrun). injection E2 as _ <-.
  apply bind_ok in Hrun as (u2 & st3 & E3 & Hrun). injection E3 as _ <-.
  apply bind_ok in Hrun as (u4 & st4 & E4 & Hrun). injection Hrun as _ <-.
  eapply (stamp_edited st
    ((fun s => if demoted target s then demote s else s) <$> st_sessions st)); [exact Hi| | | |exact E4].
  3: done.
  - unfold live_seqs. by apply edit_where_seqs.
  - intros id Hn. eapply edit_where_out; [|exact Hn]. intros s Hs Ht.
    apply elem_of_app. left. apply (elem_of_selected _ (fun p => demoted target p.2)). eauto.
Qed.

Lemma mark_idle_feed external cutoff now : feed_ok (mark_idle_sessions external cutoff now).
Proof.
  apply persist_many_feed. intros st ids st' Hi Hrun.
  apply bind_ok in Hrun as (st0 & st1 & E1 & Hrun). injection E1 as <- <-.
  apply bind_ok in Hrun as (u1 & st2 & E2 & Hrun). injection E2 as _ <-.
  apply bind_ok in Hrun as (u2 & st3 & E3 & Hrun). injection Hrun as _ <-.
  eapply stamp_edited; [exact Hi| | |done|exact E3].
  - unfold live_seqs. by apply edit_where_seqs.
  - intros id Hn. eapply edit_where_out; [|exact Hn]. intros s Hs Ht.
    apply (elem_of_selected _ (fun p => idle cutoff st p.2)). eauto.
Qed.

(** ** Deletion *)

Lemma delete_session_row_run id st u st' :
  delete_session_row id st = Ok (u, st') ->
  (forall i sa, delete id (st_subagents st) !! i = Some sa ->
     sa_parent_session_id sa <> id /\ sa_root_session_id sa <> id)
  /\ st' = set_sessions (delete id (st_sessions st))
             (set_subagents (delete id (st_subagents st)) st).
Proof.
  unfold delete_session_row. intros H. apply bind_ok in H as (st0 & st1 & H0 & H).
  injection H0 as <- <-. simpl in H. destruct (existsb _ _) eqn:E; [done|]. injection H as _ <-.
  split; [|done]. intros i sa Hl. rewrite <- not_true_iff_false, existsb_exists in E.
  split; intros Heq; apply E; exists (i, sa);
    (split; [apply list_elem_of_In; by apply elem_of_map_to_list|]); apply bool_decide_eq_true; eauto.
Qed.

(** What one pass of the deletion loop leaves. *)
Lemma delete_one_run now id st u st' :
  delete_one now id st = Ok (u, st') ->
  st_sessions st' = delete id (st_sessions st)
  /\ st_tombstones st' = <[id := mkTombstone now (st_change_seq st + 1)]> (st_tombstones st)
  /\ st_change_seq st' = st_change_seq st + 1
  /\ st_subagents st' = delete id (st_subagents st)
  /\ st_prompts st' = filter (fun p => p_session_id p.2 <> id) (st_prompts st)
  /\ st_events st' = drop_session_events id (st_events st).
Proof.
  unfold delete_one. intros H.
  apply bind_ok in H as (u1 & st1 & H1 & H). injection H1 as _ <-.
  apply bind_ok in H as (u2 & st2 & H2 & H). injection H2 as _ <-.
  apply bind_ok in H as (u3 & st3 & H3 & H). apply delete_session_row_run in H3 as [_ ->].
  unfold insert_session_tombstone in H. apply bind_ok in H as (seq & st4 & H4 & H).
  apply next_change_seq_run in H4 as (_ & -> & ->). injection H as _ <-. done.
Qed.

Lemma delete_one_feed now id : feed_ok (delete_one now id).
Proof.
  intros st u st' Hi H. unfold delete_one in H.
  apply bind_ok in H as (u1 & st1 & H1 & H). injection H1 as _ <-.
  apply bind_ok in H as (u2 & st2 & H2 & H). injection H2 as _ <-.
  apply bind_ok in H as (u3 & st3 & H3 & H). apply delete_session_row_run in H3 as [_ ->].
  match type of H with insert_session_tombstone _ _ (set_sessions _ ?s) = _ =>
    assert (feed_same_stores st s) as Hsame by done;
    destruct (feed_same_step st s Hsame Hi) as [Hi1 Hs1];
    destruct (delete_live_step s id now u st' Hi1 H) as [Hi2 Hs2]
  end.
  split; [done|]. exact (feed_step_trans _ _ _ Hs1 Hs2).
Qed.

Lemma delete_session_feed external id now : feed_ok (delete_session external id now).
Proof.
  unfold delete_session. apply feed_ok_bind; [apply feed_same_ok, feed_same_gets|intros ss].
  case_match; [|apply feed_same_ok, feed_same_ret].
  apply feed_ok_bind; [|intros _; apply feed_same_ok, feed_same_ret].
  apply persist_many_feed. apply feed_ok_bind; [apply feed_same_ok, feed_same_gets|intros subs].
  apply feed_ok_bind; [by apply feed_same_ok, feed_same_modify|intros _].
  apply feed_ok_bind; [|intros _; apply feed_same_ok, feed_same_ret].
  apply feed_ok_for_each. intros x. apply delete_one_feed.
Qed.

Lemma delete_one_log now id : preserves log_inv (delete_one now id).
Proof.
  intros st u st' Hi (_ & _ & _ & _ & _ & E)%delete_one_run. unfold log_inv. rewrite E.
  by apply log_wf_drop.
Qed.

(** The loop of [delete_session]. *)
Lemma delete_all_run now ids st u st' :
  for_each ids (delete_one now) st = Ok (u, st') ->
  (forall x, x ∈ ids -> st_sessions st' !! x = None /\ (t_deleted_at <$> st_tombstones st' !! x) = Some now
                        /\ st_subagents st' !! x = None)
  /\ (forall x, x ∉ ids -> st_sessions st' !! x = st_sessions st !! x
                           /\ st_tombstones st' !! x = st_tombstones st !! x
                           /\ st_subagents st' !! x = st_subagents st !! x)
  /\ (forall p r, st_prompts st' !! p = Some r
                  <-> st_prompts st !! p = Some r /\ p_session_id r ∉ ids)
  /\ (forall i e, st_events st' !! i = Some e
                  <-> st_events st !! i = Some e /\ forall x, x ∈ ids -> in_session x e = false).
Proof.
  revert st. induction ids as [|id ids IH]; intros st H.
  { injection H as _ <-. split; [by intros x ?%not_elem_of_nil|]. split; [done|]. split.
    - intros p r. split; [|by intros [? _]]. intros Hl. split; [done|]. apply not_elem_of_nil.
    - intros i e. split; [|by intros [? _]]. intros Hl. split; [done|]. by intros x ?%not_elem_of_nil. }
  simpl in H. apply bind_ok in H as (u1 & st1 & H1 & H).
  apply delete_one_run in H1 as (Es & Et & _ & Esa & Ep & Ee).
  destruct (IH st1 H) as (Hin & Hout & Hp & He). split; [|split; [|split]].
  - intros x Hx. destruct (decide (x ∈ ids)) as [?|Hn]; [by auto|].
    apply elem_of_cons in Hx as [->|?]; [|done]. destruct (Hout id Hn) as (-> & -> & ->).
    rewrite Es, Et, Esa, !lookup_delete_eq, lookup_insert_eq. by eauto.
  - intros x [Hne Hn]%not_elem_of_cons. destruct (Hout x Hn) as (-> & -> & ->).
    by rewrite Es, Et, Esa, !lookup_delete_ne, lookup_insert_ne by done.
  - intros p r. rewrite Hp, Ep, map_lookup_filter_Some, not_elem_of_cons. simpl. tauto.
  - intros i e. rewrite He, Ee. unfold drop_session_events. rewrite map_lookup_filter_Some. simpl.
    setoid_rewrite elem_of_cons. split.
    + intros [[? ?] ?]. split; [done|]. intros x [->|?]; auto.
    + intros [? Hx]. split; [split; [done|apply Hx; by left]|]. auto.
Qed.

Lemma elem_of_subagent_ids root st id :
  id ∈ subagent_ids_of_root root st
  <-> exists sa, st_subagents st !! id = Some sa /\ sa_root_session_id sa = root.
Proof.
  unfold subagent_ids_of_root. rewrite list_elem_of_fmap. split.
  - intros ([i sa] & -> & [Ht Hin]%list_elem_of_filter). apply elem_of_map_to_list in Hin. eauto.
  - intros (sa & Hs & Ht). exists (id, sa). split; [done|]. apply list_elem_of_filter.
    split; [done|]. by apply elem_of_map_to_list.
Qed.

(** The store a successful [delete_session] leaves, up to the outbox. *)
Lemma delete_session_run external id now st r st' row :
  st_sessions st !! id = Some row -> delete_session external id now st = Ok (r, st') ->
  r = Some row
  /\ exists u st1 st2,
       st1 = set_subagents (filter (fun p => sa_root_session_id p.2 <> id) (st_subagents st)) st
       /\ for_each (subagent_ids_of_root id st ++ [id]) (delete_one now) st1 = Ok (u, st2)
       /\ exists o, st' = set_outbox o st2.
Proof.
  intros Hrow H. unfold delete_session in H.
  apply bind_ok in H as (ss & st0 & H0 & H). injection H0 as <- <-. rewrite Hrow in H.
  apply bind_ok in H as (ids & st3 & H3 & H). injection H as <- <-. split; [done|].
  unfold persist_many_with_outbox in H3. apply bind_ok in H3 as (ids1 & st2 & H2 & H3).
  apply bind_ok in H2 as (subs & st4 & E4 & H2). injection E4 as <- <-.
  apply bind_ok in H2 as (u1 & st5 & E5 & H2). injection E5 as _ <-.
  apply bind_ok in H2 as (u2 & st6 & E6 & H2). injection H2 as <- <-.
  apply bind_ok in H3 as (u3 & st7 & E7 & H3). injection H3 as _ <-.
  exists u2. eexists. exists st6. split; [done|]. split; [exact E6|].
  destruct external; [|injection E7 as _ <-; exists (st_outbox st6); by destruct st6].
  clear E6. revert E7. generalize (subagent_ids_of_root id st ++ [id]). intros l. revert st6.
  induction l as [|x l IH]; intros st6 E7; simpl in E7.
  { injection E7 as _ <-. exists (st_outbox st6). by destruct st6. }
  apply bind_ok in E7 as (u8 & st8 & E8 & E7). injection E8 as _ <-.
  destruct (IH _ E7) as (o & ->). by exists o.
Qed.

(** C37. Deleting a root session removes it together with the subagent tree it
    heads: right after it, each of those ids is gone from the session rows and the
    tree, has no prompt and no event left, and answers with the deleted error. A later
    prune of the tombstones keeps that answer as long as its cutoff is not after the
    time of the deletion, and turns it into not found once it is; inserting a session
    under the id is the other way the answer changes. Every other session, its
    tombstone, its prompts and its events are untouched by the deletion, and so are the
    events of no session. *)
Theorem delete_session_complete external id now st r st' row :
  st_sessions st !! id = Some row -> delete_session external id now st = Ok (r, st') ->
  let gone x := x = id \/ exists sa, st_subagents st !! x = Some sa /\ sa_root_session_id sa = id in
  r = Some row
  /\ (forall x, gone x ->
       require_live_session x st' = Err (SessionDeleted x) /\ st_subagents st' !! x = None
       /\ (forall cutoff n st'', prune_session_tombstones cutoff st' = Ok (n, st'') ->
             require_live_session x st''
             = Err (if String.ltb now cutoff then SessionNotFound x else SessionDeleted x))
       /\ (forall p q, st_prompts st' !! p = Some q -> p_session_id q <> x)
       /\ (forall i e, st_events st' !! i = Some e -> e_session_id e <> Some x))
  /\ (forall x, ~ gone x ->
       require_live_session x st' = require_live_session x st
       /\ st_subagents st' !! x = st_subagents st !! x
       /\ (forall p q, p_session_id q = x ->
             st_prompts st' !! p = Some q <-> st_prompts st !! p = Some q)
       /\ (forall i e, e_session_id e = Some x ->
             st_events st' !! i = Some e <-> st_events st !! i = Some e))
  /\ (forall i e, e_session_id e = None ->
        st_events st' !! i = Some e <-> st_events st !! i = Some e).
Proof.
  intros Hrow H gone. destruct (delete_session_run _ _ _ _ _ _ _ Hrow H) as
    (-> & u & st1 & st2 & -> & Hall & o & ->). split; [done|].
  apply delete_all_run in Hall as (Hin & Hout & Hp & He). simpl in *.
  assert (forall x, x ∈ subagent_ids_of_root id st ++ [id] <-> gone x) as Hgone.
  { intros x. unfold gone. rewrite elem_of_app, list_elem_of_singleton, elem_of_subagent_ids. tauto. }
  split; [|split].
  - intros x Hx%Hgone. destruct (Hin x Hx) as (E1 & (t & E2 & Et)%fmap_Some & E3).
    split; [unfold require_live_session; simpl; by rewrite E1, E2|]. split; [done|]. split_and!.
    + intros cutoff n st'' (pt & -> & _)%prune_run. unfold require_live_session. simpl. rewrite E1.
      rewrite map_lookup_filter, E2. simpl. rewrite <- Et. by destruct (String.ltb now cutoff).
    + intros p q [_ Hq]%Hp Heq. by rewrite Heq in Hq.
    + intros i e [_ Hq]%He E. specialize (Hq x Hx). unfold in_session in Hq.
      rewrite E in Hq. by rewrite bool_decide_true in Hq.
  - intros x Hx. destruct (Hout x) as (E1 & E2 & E3); [by rewrite Hgone|].
    unfold require_live_session. simpl. rewrite E1, E2. split; [done|]. split; [|split].
    + rewrite E3. apply option_eq. intros sa. rewrite map_lookup_filter_Some. simpl.
      split; [tauto|]. intros Hsa. split; [done|]. intros Hr. apply Hx. right. eauto.
    + intros p q Hq. rewrite (Hp p q), Hgone. split; [tauto|]. intros Hl. split; [done|congruence].
    + intros i e Hs. rewrite He. split; [tauto|]. intros Hl. split; [done|]. intros y Hy%Hgone.
      unfold in_session. apply bool_decide_eq_false. congruence.
  - intros i e Hs. rewrite He. split; [tauto|]. intros Hl. split; [done|]. intros y _.
    unfold in_session. apply bool_decide_eq_false. by rewrite Hs.
Qed.

(** A root session with one subagent and a prompt each, and an unrelated
    session: the running example. *)
Definition tree_row (id agent : string) (seq : Z) : SessionRow :=
  mkSession id "t" agent "t0" "t0" "active" "agent" "/w" None "{}" seq.
Definition tree_prompt (id sid status : string) : PromptRecord :=
  mkPrompt id sid "t0" "t1" status None None None "{}" None false None None None.
Definition sample_tree : Store :=
  set_prompts (<["p1" := tree_prompt "p1" "root" "completed"]>
                 (<["p2" := tree_prompt "p2" "other" "completed"]> ∅))
    (set_subagents (<["sub" := mkSubagent "sub" "root" "root" None None None true true "t0" "t0"]> ∅)
       (set_sessions (<["root" := tree_row "root" "a1" 1]> (<["sub" := tree_row "sub" "a2" 2]>
                        (<["other" := tree_row "other" "a3" 3]> ∅)))
          (set_counter 3 0 empty_store))).

Lemma delete_session_complete_witness :
  let st' := exec (delete_session true "root" "now") sample_tree in
  require_live_session "sub" st' = Err (SessionDeleted "sub")
  /\ require_live_session "other" st' = require_live_session "other" sample_tree.
Proof.
  intros st'.
  destruct (exec_ok (delete_session true "root" "now") sample_tree eq_refl) as [r H].
  destruct (delete_session_complete true "root" "now" sample_tree r st' _ eq_refl H)
    as (_ & Hgone & Hkeep & _).
  split; [apply Hgone; right; eexists; split; reflexivity|apply Hkeep].
  intros [E|(sa & E & _)]; discriminate E.
Defined.

(** ** Sweeps *)

Lemma with_change_seq_twice n m s : with_change_seq n (with_change_seq m s) = with_change_seq n s.
Proof. done. Qed.

(** Stamping changes nothing but stamps. *)
Lemma bump_all_run ids st u st' :
  for_each ids bump_session_change st = Ok (u, st') ->
  (forall id, id ∉ ids -> st_sessions st' !! id = st_sessions st !! id)
  /\ (forall id s, st_sessions st !! id = Some s ->
        exists n, st_sessions st' !! id = Some (with_change_seq n s))
  /\ st_subagents st' = st_subagents st.
Proof.
  revert st. induction ids as [|x ids IH]; intros st H.
  { injection H as _ <-. split; [done|]. split; [|done]. intros id s Hs.
    exists (s_change_seq s). rewrite Hs. by destruct s. }
  simpl in H. apply bind_ok in H as (u1 & st1 & H1 & H). destruct (IH st1 H) as (Hout & Hin & Hsa).
  apply bump_session_change_run in H1 as [[Hn ->]|(row & Hrow & _ & ->)].
  { split; [|done]. intros id [_ ?]%not_elem_of_cons. by apply Hout. }
  simpl in *. split; [|split; [|done]].
  - intros id [Hne ?]%not_elem_of_cons. by rewrite Hout, lookup_insert_ne by done.
  - intros id s Hs. destruct (decide (id = x)) as [->|Hne].
    + rewrite Hrow in Hs. injection Hs as <-.
      destruct (Hin x (with_change_seq (st_change_seq st + 1) row)) as [n Hn];
        [by rewrite lookup_insert_eq|]. by exists n.
    + apply Hin. by rewrite lookup_insert_ne.
Qed.

Lemma bump_all_none ids st u st' id :
  for_each ids bump_session_change st = Ok (u, st') ->
  st_sessions st !! id = None -> st_sessions st' !! id = None.
Proof.
  revert st. induction ids as [|x ids IH]; intros st H Hn; [by injection H as _ <-|].
  simpl in H. apply bind_ok in H as (u1 & st1 & H1 & H). apply (IH st1 H).
  apply bump_session_change_run in H1 as [[_ ->]|(row & Hrow & _ & ->)]; [done|]. simpl.
  rewrite lookup_insert_ne; [done|congruence].
Qed.

Lemma string_max_ltb a b c : String.ltb (string_max a b) c = String.ltb a c && String.ltb b c.
Proof.
  rewrite !ltb_negb_leb. unfold string_max. destruct (String.leb a b) eqn:E.
  - destruct (String.leb c a) eqn:Ea; simpl; [|done]. by rewrite (leb_trans c a b).
  - destruct (String.leb c b) eqn:Eb; [|by rewrite andb_true_r].
    destruct (String.leb_total a b) as [?|Hba]; [congruence|]. rewrite (leb_trans c b a) by done.
    done.
Qed.

Lemma foldr_string_max_ltb (l : list (string * PromptRecord)) b c :
  String.ltb (foldr (fun p acc => string_max (p_updated_at p.2) acc) b l) c = true
  <-> String.ltb b c = true /\ forall p, p ∈ l -> String.ltb (p_updated_at p.2) c = true.
Proof.
  induction l as [|x l IH]; simpl.
  - split; [|tauto]. intros H. split; [done|]. by intros p ?%not_elem_of_nil.
  - rewrite string_max_ltb, andb_true_iff, IH. setoid_rewrite elem_of_cons. naive_solver.
Qed.

Lemma existsb_false {A} (f : A -> bool) l : existsb f l = false <-> forall x, x ∈ l -> f x = false.
Proof.
  rewrite <- not_true_iff_false, existsb_exists. setoid_rewrite <- list_elem_of_In. split.
  - intros H x Hx. apply not_true_iff_false. eauto.
  - intros H (x & Hx & E). rewrite H in E; done.
Qed.

(** What idle means: active, quiet since before the cutoff, and neither an
    unsettled prompt nor an agent's question is open. *)
Lemma idle_spec cutoff st s :
  idle cutoff st s = true <->
  s_status s = SESSION_STATUS_ACTIVE /\ String.ltb (s_updated_at s) cutoff = true
  /\ (forall i p, st_prompts st !! i = Some p -> p_session_id p = s_id s ->
        prompt_in_flight p = false /\ String.ltb (p_updated_at p) cutoff = true)
  /\ (forall i r, st_permissions st !! i = Some r -> pr_subject_id r = Some (s_id s) ->
        pr_source r = "acp"%string -> pr_status r <> "pending"%string).
Proof.
  unfold idle, last_activity. rewrite !andb_true_iff, !negb_true_iff, !existsb_false,
    foldr_string_max_ltb, bool_decide_eq_true. split.
  - intros [[[Ha Hp] Hr] [Hs Hu]]. split; [done|]. split; [done|]. split.
    + intros i p Hl Hsid. specialize (Hp (i, p) ltac:(by apply elem_of_map_to_list)). simpl in Hp.
      rewrite bool_decide_true in Hp by done. split; [done|]. apply (Hu (i, p)).
      apply list_elem_of_filter. split; [done|]. by apply elem_of_map_to_list.
    + intros i r Hl Hsub Hsrc Hst. specialize (Hr (i, r) ltac:(by apply elem_of_map_to_list)).
      simpl in Hr. by rewrite bool_decide_true in Hr.
  - intros (Ha & Hs & Hp & Hr). split; [split; [split|]|split].
    + done.
    + intros [i p] Hl%elem_of_map_to_list. simpl. case_bool_decide as Hsid; [|done].
      by destruct (Hp i p Hl Hsid).
    + intros [i r] Hl%elem_of_map_to_list. simpl. apply bool_decide_eq_false.
      intros (Hsub & Hsrc & Hst). by apply (Hr i r Hl).
    + done.
    + intros [i p] [Hsid Hl%elem_of_map_to_list]%list_elem_of_filter. by destruct (Hp i p Hl Hsid).
Qed.

(** Nothing keeps the session active: quiet since before the cutoff, no
    unsettled prompt, no pending question of its agent. *)
Definition quiet (cutoff : string) (st : Store) (s : SessionRow) : Prop :=
  s_status s = SESSION_STATUS_ACTIVE /\ String.ltb (s_updated_at s) cutoff = true
  /\ (forall i p, st_prompts st !! i = Some p -> p_session_id p = s_id s ->
        prompt_in_flight p = false /\ String.ltb (p_updated_at p) cutoff = true)
  /\ (forall i r, st_permissions st !! i = Some r -> pr_subject_id r = Some (s_id s) ->
        pr_source r = "acp"%string -> pr_status r <> "pending"%string).

Lemma persist_many_run external t c inner st ids st' :
  persist_many_with_outbox external t c inner st = Ok (ids, st') ->
  exists st1 o, inner st = Ok (ids, st1) /\ st' = set_outbox o st1.
Proof.
  intros H. unfold persist_many_with_outbox in H. apply bind_ok in H as (l & st1 & H1 & H).
  apply bind_ok in H as (u & st2 & H2 & H). injection H as <- <-. exists st1.
  destruct external; [|injection H2 as _ <-; exists (st_outbox st1); by destruct st1].
  enough (exists o, st2 = set_outbox o st1) as [o ->] by by exists o.
  clear H1. revert st1 H2. induction l as [|x l IH]; intros st1 H2; simpl in H2.
  { injection H2 as _ <-. exists (st_outbox st1). by destruct st1. }
  apply bind_ok in H2 as (u8 & st8 & E8 & E7). injection E8 as _ <-.
  destruct (IH _ E7) as (o & ->). by exists o.
Qed.

(** The idle sweep demotes exactly the sessions nothing keeps active: such a
    session is returned and becomes available with its last activity kept;
    every other session row is left as it was, its change stamp included. *)
Theorem idle_sweep_exact external cutoff now st ids st' id s :
  mark_idle_sessions external cutoff now st = Ok (ids, st') -> st_sessions st !! id = Some s ->
  (quiet cutoff st s ->
     id ∈ ids /\ exists n, st_sessions st' !! id
       = Some (with_change_seq n (with_session_status SESSION_STATUS_AVAILABLE (s_updated_at s) s)))
  /\ (~ quiet cutoff st s -> id ∉ ids /\ st_sessions st' !! id = Some s).
Proof.
  intros H Hs. apply persist_many_run in H as (st1 & o & H & ->).
  apply bind_ok in H as (st0 & st2 & E1 & H). injection E1 as <- <-.
  apply bind_ok in H as (u1 & st3 & E2 & H). injection E2 as _ <-.
  apply bind_ok in H as (u2 & st4 & E3 & H). injection H as <- <-.
  unfold quiet. rewrite <- idle_spec, (elem_of_selected _ (fun p => idle cutoff st p.2)).
  destruct (bump_all_run _ _ _ _ E3) as (Hout & Hin & _). simpl in *. split.
  - intros Hq. split; [by eauto|]. apply Hin. by rewrite lookup_fmap, Hs; simpl; rewrite Hq.
  - intros Hq%not_true_is_false. split; [intros (s' & Hs' & Ht); congruence|].
    rewrite Hout, lookup_fmap, Hs; [by simpl; rewrite Hq|].
    rewrite (elem_of_selected _ (fun p => idle cutoff st p.2)). intros (s' & Hs' & Ht). simpl in Ht.
    congruence.
Qed.

Lemma idle_sweep_exact_witness :
  let st' := exec (mark_idle_sessions true "t2" "t9") sample_tree in
  exists n, st_sessions st' !! "other"%string
    = Some (with_change_seq n (with_session_status SESSION_STATUS_AVAILABLE "t0" (tree_row "other" "a3" 3))).
Proof.
  intros st'.
  destruct (exec_ok (mark_idle_sessions true "t2" "t9") sample_tree eq_refl) as [ids H].
  apply (idle_sweep_exact true "t2" "t9" sample_tree ids st' "other"
           (tree_row "other" "a3" 3) H eq_refl).
  apply idle_spec. vm_compute. reflexivity.
Defined.

(** After the start-up sweep of an agent's sessions (of every agent's when no
    target is given) no session in its scope is active and no subagent in its
    scope is current or may be cancelled; sessions outside the scope keep their
    row up to the change stamp. *)
Theorem orphan_session_sweep external target now st ids st' :
  reconcile_orphaned_sessions external target now st = Ok (ids, st') ->
  (forall id s, st_sessions st' !! id = Some s -> scope_target target s = true ->
     s_status s <> SESSION_STATUS_ACTIVE)
  /\ (forall id sa s, st_subagents st' !! id = Some sa -> st_sessions st' !! id = Some s ->
        scope_target target s = true -> sa_state_current sa = false /\ sa_cancel_granted sa = false)
  /\ (forall id s, st_sessions st !! id = Some s -> scope_target target s = false ->
        exists n, st_sessions st' !! id = Some (with_change_seq n s)).
Proof.
  intros H. apply persist_many_run in H as (st1 & o & H & ->).
  apply bind_ok in H as (st0 & st2 & E1 & H). injection E1 as <- <-.
  apply bind_ok in H as (u1 & st3 & E2 & H). injection E2 as _ <-.
  apply bind_ok in H as (u2 & st4 & E3 & H). injection E3 as _ <-.
  apply bind_ok in H as (u4 & st5 & E4 & H). injection H as _ <-.
  destruct (bump_all_run _ _ _ _ E4) as (Hout & Hin & Hsa). simpl in *.
  assert (forall id s, st_sessions st5 !! id = Some s -> exists s0 n, st_sessions st !! id = Some s0
            /\ s = with_change_seq n (if demoted target s0 then demote s0 else s0)) as Hback.
  { intros id s Hs. destruct (st_sessions st !! id) as [s0|] eqn:E0.
    - destruct (Hin id (if demoted target s0 then demote s0 else s0)) as [n Hn];
        [by rewrite lookup_fmap, E0|]. rewrite Hn in Hs. injection Hs as <-. eauto.
    - rewrite (bump_all_none _ _ _ _ id E4) in Hs; [done|]. simpl. by rewrite lookup_fmap, E0. }
  split; [|split].
  - intros id s (s0 & n & _ & ->)%Hback Hsc.
    assert (scope_target target s0 = true) as Hsc0 by (by destruct (demoted target s0)).
    unfold demoted. rewrite Hsc0, andb_true_r.
    case_bool_decide; simpl; done.
  - intros id sa s Hl (s0 & n & Hs0 & ->)%Hback Hsc. rewrite Hsa, map_lookup_imap in Hl.
    destruct (st_subagents st !! id) as [sa0|] eqn:Esa; [|done]. simpl in Hl. injection Hl as <-.
    assert (scope_target target s0 = true) as Hsc0 by (by destruct (demoted target s0)).
    unfold withdrawn. rewrite Hs0. unfold scope_target in Hsc0. unfold holds_state.
    destruct target; [rewrite Hsc0|];
      destruct (sa_state_current sa0) eqn:E5, (sa_cancel_granted sa0) eqn:E6; simpl; eauto.
  - intros id s Hs Hsc. apply Hin. rewrite lookup_fmap, Hs. simpl. unfold demoted.
    by rewrite Hsc, andb_false_r.
Qed.

Lemma orphan_session_sweep_witness :
  let st' := exec (reconcile_orphaned_sessions true (Some "t"%string) "t9") sample_tree in
  (exists ids, reconcile_orphaned_sessions true (Some "t"%string) "t9" sample_tree = Ok (ids, st'))
  /\ forall id s, st_sessions st' !! id = Some s -> scope_target (Some "t"%string) s = true ->
     s_status s <> SESSION_STATUS_ACTIVE.
Proof.
  intros st'.
  destruct (exec_ok (reconcile_orphaned_sessions true (Some "t"%string) "t9") sample_tree eq_refl)
    as [ids H].
  split; [by exists ids|].
  apply (orphan_session_sweep true (Some "t"%string) "t9" sample_tree ids st' H).
Defined.
