(* ===== verification/SubagentStore.v ===== *)
(** Subagent sessions (src/src/state/sessions/subagents.rs): children an agent
    announces on a parent session, the patches it sends for them, and the
    withdrawal of what it reported once its connection is gone. *)

From S2P Require Import Prelude Store SinkOutbox ChangeFeed SessionEvents PromptStore SessionStore.
Open Scope Z_scope.
Open Scope result_scope.

(** ** Patches *)

Inductive FieldPatch (T : Type) := Keep | Clear | SetTo (value : T).
Arguments Keep {T}.
Arguments Clear {T}.
Arguments SetTo {T} value.

Definition apply_patch {T} (p : FieldPatch T) (current : option T) : option T :=
  match p with
  | Keep => current
  | Clear => None
  | SetTo value => Some value
  end.

Record SubagentPatch := mkPatch {
  pt_agent_session_id : string;
  pt_title : FieldPatch string;
  pt_description : FieldPatch string;
  pt_state_json : FieldPatch string;
  pt_cancel_granted : option bool;
}.

Inductive SubagentRejection := SelfParent | Ancestor | Reparent | Prompted | HeadsTree.

Inductive SubagentApplied :=
| Announced (child_session_id root_session_id : string) (historical : bool)
| Updated (child_session_id : string) (historical : bool)
| Rejected (rejection : SubagentRejection).

Definition SUBAGENT_ANNOUNCED_EVENT_MESSAGE : string := "ACP subagent session announced".
Definition EVENT_KIND_SESSION_SUBAGENT_ANNOUNCED : string := "session.subagent_announced".

(** [SELECT .. FROM sessions WHERE target_id = ?1 AND agent_session_id = ?2];
    the pair is unique. *)
Definition session_by_agent_id (target_id agent_session_id : string) (st : Store)
  : option SessionRow :=
  head (filter (fun s => s_target_id s = target_id /\ s_agent_session_id s = agent_session_id)
          (map_to_list (st_sessions st)).*2).

Definition prompted (id : string) (st : Store) : bool :=
  existsb (fun p => bool_decide (p_session_id p.2 = id)) (map_to_list (st_prompts st)).

Definition heads_tree (id : string) (st : Store) : bool :=
  existsb (fun p => bool_decide (sa_parent_session_id p.2 = id)) (map_to_list (st_subagents st)).

(** The row of a child the store has not seen. *)
Definition child_row (parent : SessionRow) (agent_session_id new_id now : string) : SessionRow :=
  mkSession new_id (s_target_id parent) agent_session_id now now SESSION_STATUS_AVAILABLE
    (s_agent_id parent) (s_cwd parent) None "{}" 0.

Definition with_updated_at (now : string) (s : SessionRow) : SessionRow :=
  with_session_status (s_status s) now s.

Definition patched_state_current (patch : SubagentPatch) (stored : option SubagentRecord)
    (historical : bool) : bool :=
  match pt_state_json patch with
  | Keep => match stored with Some sa => sa_state_current sa | None => false end
  | Clear => false
  | SetTo _ => negb historical
  end.

Definition patched_cancel_granted (patch : SubagentPatch) (stored : option SubagentRecord)
    (historical : bool) : bool :=
  match (if historical then None else pt_cancel_granted patch) with
  | Some granted => granted
  | None => match stored with Some sa => sa_cancel_granted sa | None => false end
  end.

(** The row a patch leaves: the stored links and announcement, the patched
    fields. *)
Definition patched_row (child_session_id parent_id root_session_id : string) (patch : SubagentPatch)
    (stored : option SubagentRecord) (historical : bool) (now : string) : SubagentRecord :=
  mkSubagent child_session_id
    (match stored with Some sa => sa_parent_session_id sa | None => parent_id end)
    (match stored with Some sa => sa_root_session_id sa | None => root_session_id end)
    (apply_patch (pt_title patch) (stored ≫= sa_title))
    (apply_patch (pt_description patch) (stored ≫= sa_description))
    (apply_patch (pt_state_json patch) (stored ≫= sa_state_json))
    (patched_state_current patch stored historical)
    (patched_cancel_granted patch stored historical)
    (match stored with Some sa => sa_announced_at sa | None => now end)
    now.

(** The withdrawn rows of a tree, and their stamps. *)
Definition withdraw_subagent_tree (root_session_id : string) : M (list string) :=
  let* subagents := gets st_subagents in
  let ids := (filter (fun p => sa_root_session_id p.2 = root_session_id /\ holds_state p.2 = true)
                (map_to_list subagents)).*1 in
  modify (set_subagents
    ((fun sa => if bool_decide (sa_root_session_id sa = root_session_id) && holds_state sa
                then withdraw_row sa else sa) <$> subagents)) ;;
  for_each ids bump_session_change ;;
  ret ids.

Section subagents.
Context (json_valid json_parses : string -> bool) (external : bool).
(** The JSON text of the announcement: child, agent and root ids. *)
Context (announced_payload : string -> string -> string -> string).

(** What becomes of the session the patch names: a fresh row, an adopted row, a
    known child, or a rejection. *)
Definition resolve_child (parent : SessionRow) (root_session_id : string) (patch : SubagentPatch)
    (new_id now : string) : M (SubagentRejection + string * option SubagentRecord) :=
  let* st := gets id in
  match session_by_agent_id (s_target_id parent) (pt_agent_session_id patch) st with
  | None =>
      let* seq := next_change_seq in
      insert_session_row json_valid (child_row parent (pt_agent_session_id patch) new_id now) seq ;;
      ret (inr (new_id, None))
  | Some existing =>
      if bool_decide (s_id existing = s_id parent) then ret (inl SelfParent)
      else if bool_decide (s_id existing = root_session_id) then ret (inl Ancestor)
      else
        match st_subagents st !! s_id existing with
        | Some stored =>
            if bool_decide (sa_parent_session_id stored = s_id parent)
            then ret (inr (s_id existing, Some stored)) else ret (inl Reparent)
        | None =>
            if prompted (s_id existing) st then ret (inl Prompted)
            else if heads_tree (s_id existing) st then ret (inl HeadsTree)
            else bump_session_change (s_id existing) ;;
                 ret (inr (s_id existing, None))
        end
  end.

Definition touch_child (child_session_id now : string) : M unit :=
  modify (fun st => set_sessions
    (alter (with_updated_at now) child_session_id (st_sessions st)) st).

(** [INSERT INTO session_subagents]: primary key and foreign keys. *)
Definition insert_subagent_row (row : SubagentRecord) : M unit :=
  let* st := gets id in
  match st_subagents st !! sa_session_id row, st_sessions st !! sa_session_id row,
        st_sessions st !! sa_parent_session_id row, st_sessions st !! sa_root_session_id row with
  | None, Some _, Some _, Some _ =>
      modify (fun st => set_subagents (<[sa_session_id row := row]> (st_subagents st)) st)
  | _, _, _, _ => fail Sqlite
  end.

Definition apply_subagent_patch (parent_session_id : string) (patch : SubagentPatch)
    (replaying_roots : list string) (new_id now : string) : M SubagentApplied :=
  let* st := gets id in
  match st_sessions st !! parent_session_id with
  | None => fail (SessionNotFound parent_session_id)
  | Some parent =>
      let root_session_id := tree_root parent_session_id (st_subagents st) in
      let historical := bool_decide (root_session_id ∈ replaying_roots) in
      let* child := resolve_child parent root_session_id patch new_id now in
      match child with
      | inl rejection => ret (Rejected rejection)
      | inr (child_session_id, stored) =>
          (if historical then ret tt else touch_child child_session_id now) ;;
          let row := patched_row child_session_id (s_id parent) root_session_id patch stored
                       historical now in
          match stored with
          | Some _ =>
              modify (fun st => set_subagents (<[child_session_id := row]> (st_subagents st)) st) ;;
              bump_session_change child_session_id ;;
              ret (Updated child_session_id historical)
          | None =>
              insert_subagent_row row ;;
              ret (Announced child_session_id root_session_id historical)
          end
      end
  end.

Definition record_subagent_update (parent_session_id payload_json : string) (patch : SubagentPatch)
    (replaying_roots : list string)
    (update_id announced_id new_id update_at now announced_at : string) : M SubagentApplied :=
  match session_update_event json_parses parent_session_id EVENT_KIND_SESSION_UPDATE payload_json
          update_id update_at with
  | Err e => fail e
  | Ok update_event =>
      let* seq := insert_session_update_row json_valid external parent_session_id update_event in
      let update_event := with_session_seq parent_session_id seq update_event in
      let* applied := apply_subagent_patch parent_session_id patch replaying_roots new_id now in
      let* announced_event :=
        match applied with
        | Announced child root _ =>
            let event := mkEvent announced_id announced_at "info" EVENT_KIND_SESSION_SUBAGENT_ANNOUNCED
              SUBAGENT_ANNOUNCED_EVENT_MESSAGE
              (announced_payload child (pt_agent_session_id patch) root)
              EVENT_SOURCE_SYSTEM (Some parent_session_id) None in
            let* seq := insert_session_event_row json_valid parent_session_id event in
            enqueue_if external "sessions" child announced_at ;;
            enqueue_if external "events" announced_id announced_at ;;
            ret (Some (with_session_seq parent_session_id seq event))
        | Updated child historical =>
            (if historical then ret tt
             else enqueue_if external "sessions" child (e_created_at update_event)) ;;
            ret None
        | Rejected _ => ret None
        end in
      publish_session_event parent_session_id update_event ;;
      match announced_event with
      | Some event => publish_session_event parent_session_id event
      | None => ret tt
      end ;;
      ret applied
  end.

Definition get_subagent (session_id : string) (st : Store) : option SubagentRecord :=
  st_subagents st !! session_id.

Definition withdraw_subagent_state (root_session_id now : string) : M (list string) :=
  persist_many_with_outbox external "sessions" now (withdraw_subagent_tree root_session_id).

Definition close_subagent_sessions (root_session_id now : string) : M (list string) :=
  persist_many_with_outbox external "sessions" now
    (withdraw_subagent_tree root_session_id ;;
     let* st := gets id in
     let closes s := bool_decide (s_id s ∈ subagent_ids_of_root root_session_id st)
                     && negb (bool_decide (s_status s = SESSION_STATUS_CLOSED)) in
     let ids := (filter (fun p => closes p.2 = true) (map_to_list (st_sessions st))).*1 in
     modify (fun st => set_sessions
       ((fun s => if closes s then with_session_status SESSION_STATUS_CLOSED now s else s)
          <$> st_sessions st) st) ;;
     for_each ids bump_session_change ;;
     ret ids).
End subagents.

(** ** The tree a store holds *)

(** Rows sit under their ids; the rows of [session_subagents] form trees whose
    roots are ordinary sessions, every row names the root of its tree, and
    [rank] grows from parent to child, so no chain of parents comes back. *)
Record forest (st : Store) : Prop := {
  fo_session : forall id s, st_sessions st !! id = Some s -> s_id s = id;
  fo_live : forall id sa, st_subagents st !! id = Some sa -> sa_session_id sa = id
    /\ is_Some (st_sessions st !! id) /\ is_Some (st_sessions st !! sa_parent_session_id sa)
    /\ is_Some (st_sessions st !! sa_root_session_id sa);
  fo_root : forall id sa, st_subagents st !! id = Some sa ->
    st_subagents st !! sa_root_session_id sa = None;
  fo_link : forall id sa, st_subagents st !! id = Some sa ->
    sa_root_session_id sa = tree_root (sa_parent_session_id sa) (st_subagents st);
  fo_rank : exists rank : string -> nat, forall id sa, st_subagents st !! id = Some sa ->
    (rank (sa_parent_session_id sa) < rank id)%nat;
}.

(** The parts of a store a tree depends on. *)
Definition same_tree (st st' : Store) : Prop :=
  s_id <$> st_sessions st' = s_id <$> st_sessions st
  /\ (fun sa => (sa_session_id sa, sa_parent_session_id sa, sa_root_session_id sa)) <$> st_subagents st'
     = (fun sa => (sa_session_id sa, sa_parent_session_id sa, sa_root_session_id sa)) <$> st_subagents st.

Lemma same_tree_session st st' id s' :
  same_tree st st' -> st_sessions st' !! id = Some s' ->
  exists s, st_sessions st !! id = Some s /\ s_id s = s_id s'.
Proof.
  intros [E _] Hs. apply (f_equal (lookup id)) in E. rewrite !lookup_fmap, Hs in E.
  destruct (st_sessions st !! id) as [s|]; [|done]. exists s. split; [done|]. by injection E.
Qed.

Lemma same_tree_live st st' id :
  same_tree st st' -> is_Some (st_sessions st !! id) -> is_Some (st_sessions st' !! id).
Proof.
  intros [E _] [s Hs]. apply (f_equal (lookup id)) in E. rewrite !lookup_fmap, Hs in E.
  destruct (st_sessions st' !! id); [eauto|done].
Qed.

Lemma same_tree_subagent st st' id sa' :
  same_tree st st' -> st_subagents st' !! id = Some sa' ->
  exists sa, st_subagents st !! id = Some sa /\ sa_session_id sa = sa_session_id sa'
  /\ sa_parent_session_id sa = sa_parent_session_id sa' /\ sa_root_session_id sa = sa_root_session_id sa'.
Proof.
  intros [_ E] Hs. apply (f_equal (lookup id)) in E. rewrite !lookup_fmap, Hs in E.
  destruct (st_subagents st !! id) as [sa|]; [|done]. exists sa. split; [done|]. by injection E.
Qed.

Lemma same_tree_none st st' id :
  same_tree st st' -> st_subagents st !! id = None -> st_subagents st' !! id = None.
Proof.
  intros [_ E] Hs. apply (f_equal (lookup id)) in E. rewrite !lookup_fmap, Hs in E.
  by destruct (st_subagents st' !! id).
Qed.

Lemma same_tree_root st st' id :
  same_tree st st' -> tree_root id (st_subagents st') = tree_root id (st_subagents st).
Proof.
  intros H. unfold tree_root. destruct (st_subagents st' !! id) as [sa'|] eqn:E.
  - destruct (same_tree_subagent _ _ _ _ H E) as (sa & -> & _ & _ & E2). done.
  - destruct (st_subagents st !! id) as [sa|] eqn:E2; [|done]. destruct H as [_ H].
    apply (f_equal (lookup id)) in H. by rewrite !lookup_fmap, E, E2 in H.
Qed.

Lemma forest_same st st' : same_tree st st' -> forest st -> forest st'.
Proof.
  intros H [H1 H2 H3 H4 (rank & H5)]. split.
  - intros id s' Hs. destruct (same_tree_session _ _ _ _ H Hs) as (s & Hs0 & <-). by apply H1.
  - intros id sa' Hs. destruct (same_tree_subagent _ _ _ _ H Hs) as (sa & Hs0 & E1 & E2 & E3).
    destruct (H2 id sa Hs0) as (L1 & L2 & L3 & L4). rewrite <- E1, <- E2, <- E3.
    split; [done|]. split; [|split]; by apply (same_tree_live st).
  - intros id sa' Hs. destruct (same_tree_subagent _ _ _ _ H Hs) as (sa & Hs0 & _ & _ & <-).
    apply (same_tree_none st); [done|]. by eapply H3.
  - intros id sa' Hs. destruct (same_tree_subagent _ _ _ _ H Hs) as (sa & Hs0 & _ & <- & <-).
    rewrite (same_tree_root st) by done. by eapply H4.
  - exists rank. intros id sa' Hs. destruct (same_tree_subagent _ _ _ _ H Hs) as (sa & Hs0 & _ & <- & _).
    by apply H5.
Qed.

(** Operations that leave the trees alone. *)
Definition tree_keeps {A} (m : M A) : Prop := forall st a st', m st = Ok (a, st') -> same_tree st st'.

Lemma same_tree_refl st : same_tree st st.
Proof. done. Qed.

Lemma same_tree_trans st1 st2 st3 : same_tree st1 st2 -> same_tree st2 st3 -> same_tree st1 st3.
Proof. intros [E1 E2] [F1 F2]. split; congruence. Qed.

Lemma tree_keeps_bind {A B} (m : M A) (f : A -> M B) :
  tree_keeps m -> (forall a, tree_keeps (f a)) -> tree_keeps (bind m f).
Proof.
  intros Hm Hf st b st' (a & st1 & H1 & H2)%bind_ok.
  eapply same_tree_trans; [by eapply Hm|by eapply Hf].
Qed.
Lemma tree_keeps_ret {A} (a : A) : tree_keeps (ret a).
Proof. by intros st b st' [= <- <-]. Qed.
Lemma tree_keeps_fail {A} e : tree_keeps (fail (A := A) e).
Proof. by intros st b st'. Qed.
Lemma tree_keeps_gets {A} (f : Store -> A) : tree_keeps (gets f).
Proof. by intros st b st' [= <- <-]. Qed.
Lemma tree_keeps_modify f : (forall st, same_tree st (f st)) -> tree_keeps (modify f).
Proof. by intros H st b st' [= <- <-]. Qed.
Lemma tree_keeps_for_each {A} (l : list A) (f : A -> M unit) :
  (forall x, tree_keeps (f x)) -> tree_keeps (for_each l f).
Proof. intros H. induction l; simpl; [apply tree_keeps_ret|]. by apply tree_keeps_bind. Qed.

Lemma bump_tree id : tree_keeps (bump_session_change id).
Proof.
  intros st u st' [[_ ->]|(row & Hrow & _ & ->)]%bump_session_change_run; [done|]. split; [|done].
  simpl. rewrite fmap_insert. simpl. apply insert_id. by rewrite lookup_fmap, Hrow.
Qed.
Lemma enqueue_tree t i c : tree_keeps (enqueue t i c).
Proof. by apply tree_keeps_modify. Qed.
Lemma enqueue_if_tree external t i c : tree_keeps (enqueue_if external t i c).
Proof. unfold enqueue_if. destruct external; [apply enqueue_tree|apply tree_keeps_ret]. Qed.
Lemma publish_tree m : tree_keeps (publish m).
Proof. by apply tree_keeps_modify. Qed.
Lemma insert_event_tree json_valid e : tree_keeps (insert_event json_valid e).
Proof. by intros st u st' [_ ->]%insert_event_run. Qed.
Lemma insert_session_event_row_tree json_valid sid e :
  tree_keeps (insert_session_event_row json_valid sid e).
Proof. by intros st u st' (_ & _ & _ & ->)%insert_session_event_row_run. Qed.
#[export] Hint Resolve tree_keeps_ret tree_keeps_fail tree_keeps_gets bump_tree enqueue_tree
  enqueue_if_tree publish_tree insert_event_tree insert_session_event_row_tree : acps.

Ltac walk_tree :=
  repeat first
    [ solve [auto with acps] | apply tree_keeps_bind; [|intros ?]
    | apply tree_keeps_for_each; intros ? | apply tree_keeps_modify; done | case_match ].

Lemma insert_session_update_row_tree json_valid external sid e :
  tree_keeps (insert_session_update_row json_valid external sid e).
Proof. unfold insert_session_update_row, touch_oldest_prompt. walk_tree. Qed.

Lemma persist_many_tree external t c inner :
  tree_keeps inner -> tree_keeps (persist_many_with_outbox external t c inner).
Proof. intros Hi. unfold persist_many_with_outbox. apply tree_keeps_bind; [done|intros ids]. walk_tree. Qed.

(** Editing rows in place keeps the trees. *)
Lemma edit_sessions_tree st (f : SessionRow -> SessionRow) :
  (forall s, s_id (f s) = s_id s) -> same_tree st (set_sessions (f <$> st_sessions st) st).
Proof.
  intros Hf. split; [|done]. simpl. rewrite <- map_fmap_compose. apply map_fmap_ext. intros i s _. apply Hf.
Qed.

Lemma edit_subagents_tree st (f : SubagentRecord -> SubagentRecord) :
  (forall sa, (sa_session_id (f sa), sa_parent_session_id (f sa), sa_root_session_id (f sa))
              = (sa_session_id sa, sa_parent_session_id sa, sa_root_session_id sa)) ->
  same_tree st (set_subagents (f <$> st_subagents st) st).
Proof.
  intros Hf. split; [done|]. simpl. rewrite <- map_fmap_compose. apply map_fmap_ext. intros i s _. apply Hf.
Qed.

Lemma withdraw_tree root : tree_keeps (withdraw_subagent_tree root).
Proof.
  intros st l st' H. unfold withdraw_subagent_tree in H.
  apply bind_ok in H as (sas & st0 & H0 & H). injection H0 as <- <-.
  apply bind_ok in H as (u & st1 & H1 & H). injection H1 as _ <-.
  eapply same_tree_trans; [apply (edit_subagents_tree st
    (fun sa => if bool_decide (sa_root_session_id sa = root) && holds_state sa then withdraw_row sa else sa))|].
  { intros sa. by destruct (_ && _). }
  apply bind_ok in H as (u2 & st2 & H2 & H). injection H as _ <-.
  eapply tree_keeps_for_each; [|exact H2]. apply bump_tree.
Qed.

Lemma withdraw_state_tree external root now : tree_keeps (withdraw_subagent_state external root now).
Proof. apply persist_many_tree, withdraw_tree. Qed.

Lemma close_subagents_tree external root now : tree_keeps (close_subagent_sessions external root now).
Proof.
  apply persist_many_tree. apply tree_keeps_bind; [apply withdraw_tree|intros _].
  apply tree_keeps_bind; [apply tree_keeps_gets|intros st].
  apply tree_keeps_bind; [|intros _; walk_tree]. apply tree_keeps_modify. intros st0.
  apply edit_sessions_tree. intros s. by case_match.
Qed.

(** ** Growing and cutting trees *)

Lemma forest_empty : forest empty_store.
Proof. split; try (intros; simplify_map_eq). by exists (fun _ => 0%nat). Qed.

(** The root of a non-empty tree has a child. *)
Lemma root_heads st id sa :
  forest st -> st_subagents st !! id = Some sa ->
  exists id' sa', st_subagents st !! id' = Some sa' /\ sa_parent_session_id sa' = sa_root_session_id sa.
Proof.
  intros [_ _ _ H4 (rank & H5)]. remember (rank id) as n eqn:En. revert id sa En.
  induction (lt_wf n) as [n _ IH]. intros id sa -> Hsa.
  pose proof (H4 id sa Hsa) as Hl. unfold tree_root in Hl.
  destruct (st_subagents st !! sa_parent_session_id sa) as [sp|] eqn:Ep.
  - rewrite Hl. by apply (IH (rank (sa_parent_session_id sa)) (H5 id sa Hsa) _ sp eq_refl).
  - exists id, sa. by rewrite Hl.
Qed.

(** [x] is a subagent whose parent is [y]. *)
Definition parent_of (st : Store) (x y : string) : Prop :=
  exists sa, st_subagents st !! x = Some sa /\ sa_parent_session_id sa = y.

Lemma chain_to_root st id sa :
  forest st -> st_subagents st !! id = Some sa -> tc (parent_of st) id (sa_root_session_id sa).
Proof.
  intros [_ _ _ H4 (rank & H5)]. remember (rank id) as n eqn:En. revert id sa En.
  induction (lt_wf n) as [n _ IH]. intros id sa -> Hsa.
  pose proof (H4 id sa Hsa) as Hl. unfold tree_root in Hl.
  assert (parent_of st id (sa_parent_session_id sa)) as Hp by (by exists sa).
  destruct (st_subagents st !! sa_parent_session_id sa) as [sp|] eqn:Ep; rewrite Hl; [|by apply tc_once].
  eapply tc_l; [exact Hp|]. by apply (IH (rank (sa_parent_session_id sa)) (H5 id sa Hsa) _ sp eq_refl).
Qed.

Lemma forest_insert_session st id s :
  forest st -> s_id s = id -> st_sessions st !! id = None ->
  forall st', st_sessions st' = <[id := s]> (st_sessions st) -> st_subagents st' = st_subagents st ->
  forest st'.
Proof.
  intros [H1 H2 H3 H4 H5] Hid Hn st' Es Esa.
  assert (forall x, is_Some (st_sessions st !! x) -> is_Some (st_sessions st' !! x)) as Hlive.
  { intros x Hx. rewrite Es. apply lookup_insert_is_Some. destruct (decide (id = x)); auto. }
  split; rewrite ?Esa; [|..|done|done|done].
  - intros x q. rewrite Es. intros [[<- <-]|[_ Hq]]%lookup_insert_Some; [done|by apply H1].
  - intros x sa Hsa. destruct (H2 x sa Hsa) as (? & ? & ? & ?). auto.
Qed.

(** A new leaf under a live parent. *)
Lemma forest_announce st row :
  forest st -> let c := sa_session_id row in let p := sa_parent_session_id row in
  st_subagents st !! c = None -> is_Some (st_sessions st !! c) -> is_Some (st_sessions st !! p) ->
  c <> p -> sa_root_session_id row = tree_root p (st_subagents st) ->
  c <> sa_root_session_id row -> heads_tree c st = false ->
  forest (set_subagents (<[c := row]> (st_subagents st)) st).
Proof.
  intros Hf c p Hc Lc Lp Hcp Hroot Hcr Hh. pose proof Hf as [H1 H2 H3 H4 (rank & H5)].
  assert (forall id sa, st_subagents st !! id = Some sa -> sa_parent_session_id sa <> c) as Hleaf.
  { intros id sa Hsa E. unfold heads_tree in Hh. rewrite existsb_false in Hh.
    specialize (Hh (id, sa) ltac:(by apply elem_of_map_to_list)). simpl in Hh.
    by rewrite bool_decide_true in Hh. }
  assert (forall id sa, st_subagents st !! id = Some sa -> sa_root_session_id sa <> c) as Hnr.
  { intros id sa Hsa E. destruct (root_heads st id sa Hf Hsa) as (id' & sa' & Hsa' & E').
    apply (Hleaf id' sa' Hsa'). congruence. }
  assert (st_subagents st !! sa_root_session_id row = None
          /\ is_Some (st_sessions st !! sa_root_session_id row)) as [Hr Lr].
  { rewrite Hroot. unfold tree_root. destruct (st_subagents st !! p) as [sp|] eqn:Ep; [|by split].
    split; [by eapply H3|]. by destruct (H2 p sp Ep) as (_ & _ & _ & ?). }
  assert (forall x, x <> c -> tree_root x (<[c := row]> (st_subagents st)) = tree_root x (st_subagents st))
    as Htr by (intros x Hx; unfold tree_root; by rewrite lookup_insert_ne).
  split; simpl.
  - done.
  - intros id sa [[<- <-]|[_ Hsa]]%lookup_insert_Some; [by auto|by apply H2].
  - intros id sa [[<- <-]|[_ Hsa]]%lookup_insert_Some.
    + by rewrite lookup_insert_ne.
    + rewrite lookup_insert_ne; [by eapply H3|]. intros E. by apply (Hnr id sa Hsa).
  - intros id sa [[<- <-]|[_ Hsa]]%lookup_insert_Some.
    + by rewrite Htr.
    + rewrite Htr; [by eapply H4|]. by eapply Hleaf.
  - exists (fun x => if bool_decide (x = c) then S (rank p) else rank x).
    intros id sa [[<- <-]|[Hne Hsa]]%lookup_insert_Some.
    + rewrite bool_decide_false, (bool_decide_true (c = c)) by done. apply Nat.lt_succ_diag_r.
    + rewrite !bool_decide_false; [by apply H5|done|by eapply Hleaf].
Qed.

Lemma delete_all_links now ids st u st' :
  for_each ids (delete_one now) st = Ok (u, st') ->
  forall k sa, st_subagents st' !! k = Some sa ->
  sa_parent_session_id sa ∉ ids /\ sa_root_session_id sa ∉ ids.
Proof.
  revert st. induction ids as [|x ids IH]; intros st H k sa Hsa.
  { split; apply not_elem_of_nil. }
  simpl in H. apply bind_ok in H as (u1 & st1 & H1 & H). destruct (IH st1 H k sa Hsa) as [Hp Hr].
  rewrite !not_elem_of_cons. destruct (delete_all_run _ _ _ _ _ H) as (Hin & Hout & _).
  assert (st_subagents st1 !! k = Some sa) as Hsa1.
  { destruct (decide (k ∈ ids)) as [Hk|Hk].
    - destruct (Hin k Hk) as (_ & _ & ?). congruence.
    - destruct (Hout k Hk) as (_ & _ & E). congruence. }
  unfold delete_one in H1.
  apply bind_ok in H1 as (v1 & s1 & G1 & H1). injection G1 as _ <-.
  apply bind_ok in H1 as (v2 & s2 & G2 & H1). injection G2 as _ <-.
  apply bind_ok in H1 as (v3 & s3 & G3 & H1). apply delete_session_row_run in G3 as [Hfree ->].
  unfold insert_session_tombstone in H1. apply bind_ok in H1 as (seq & s4 & G4 & H1).
  apply next_change_seq_run in G4 as (_ & -> & ->). injection H1 as _ <-. simpl in Hsa1.
  destruct (Hfree k sa Hsa1). tauto.
Qed.

Lemma forest_delete_all now ids st u st' :
  forest st -> for_each ids (delete_one now) st = Ok (u, st') -> forest st'.
Proof.
  intros [H1 H2 H3 H4 (rank & H5)] H. pose proof (delete_all_links _ _ _ _ _ H) as Hlinks.
  destruct (delete_all_run _ _ _ _ _ H) as (Hin & Hout & _).
  assert (forall x sa, st_subagents st' !! x = Some sa -> x ∉ ids /\ st_subagents st !! x = Some sa) as Hsub.
  { intros x sa Hsa. destruct (decide (x ∈ ids)) as [Hx|Hx].
    - destruct (Hin x Hx) as (_ & _ & ?). congruence.
    - destruct (Hout x Hx) as (_ & _ & <-). done. }
  assert (forall x, x ∉ ids -> is_Some (st_sessions st !! x) -> is_Some (st_sessions st' !! x)) as Hlive.
  { intros x Hx. by destruct (Hout x Hx) as (-> & _). }
  split.
  - intros id s Hs. destruct (decide (id ∈ ids)) as [Hx|Hx].
    + destruct (Hin id Hx) as [? _]. congruence.
    + destruct (Hout id Hx) as (E & _). rewrite E in Hs. by apply H1.
  - intros id sa Hsa. destruct (Hsub id sa Hsa) as [Hx Hsa0]. destruct (Hlinks id sa Hsa) as [Hp Hr].
    destruct (H2 id sa Hsa0) as (? & ? & ? & ?). auto.
  - intros id sa Hsa. destruct (Hsub id sa Hsa) as [Hx Hsa0]. destruct (Hlinks id sa Hsa) as [Hp Hr].
    destruct (Hout _ Hr) as (_ & _ & ->). by eapply H3.
  - intros id sa Hsa. destruct (Hsub id sa Hsa) as [Hx Hsa0]. destruct (Hlinks id sa Hsa) as [Hp Hr].
    rewrite (H4 id sa Hsa0). unfold tree_root. by destruct (Hout _ Hp) as (_ & _ & ->).
  - exists rank. intros id sa Hsa. apply H5. by destruct (Hsub id sa Hsa).
Qed.

Lemma forest_cut_root st id :
  forest st ->
  forest (set_subagents (filter (fun p => sa_root_session_id p.2 <> id) (st_subagents st)) st).
Proof.
  intros [H1 H2 H3 H4 (rank & H5)].
  assert (forall x sa, filter (fun p => sa_root_session_id p.2 <> id) (st_subagents st) !! x = Some sa ->
            st_subagents st !! x = Some sa /\ sa_root_session_id sa <> id) as Hsub
    by (by intros x sa ?%map_lookup_filter_Some).
  split; simpl; [done|..].
  - intros x sa [Hsa _]%Hsub. by apply H2.
  - intros x sa [Hsa _]%Hsub. apply map_lookup_filter_None_2. left. by eapply H3.
  - intros x sa [Hsa Hne]%Hsub. pose proof (H4 x sa Hsa) as Hl. unfold tree_root in *.
    destruct (st_subagents st !! sa_parent_session_id sa) as [sp|] eqn:Ep.
    + rewrite (map_lookup_filter_Some_2 _ _ _ sp); [done|done|]. simpl. congruence.
    + rewrite (map_lookup_filter_None_2 _ _ (sa_parent_session_id sa)); [done|by left].
  - exists rank. intros x sa [Hsa _]%Hsub. by apply H5.
Qed.

Lemma forest_delete_session external id now st r st' :
  forest st -> delete_session external id now st = Ok (r, st') -> forest st'.
Proof.
  intros Hf H. destruct (st_sessions st !! id) as [row|] eqn:Hrow.
  - destruct (delete_session_run _ _ _ _ _ _ _ Hrow H) as (_ & u & st1 & st2 & -> & Hall & o & ->).
    apply (forest_same st2); [done|]. eapply forest_delete_all; [|exact Hall]. by apply forest_cut_root.
  - unfold delete_session in H. apply bind_ok in H as (ss & st0 & H0 & H). injection H0 as <- <-.
    rewrite Hrow in H. by injection H as _ <-.
Qed.

Lemma forest_insert_session_row json_valid row seq st u st' :
  forest st -> insert_session_row json_valid row seq st = Ok (u, st') ->
  forest st' /\ st_sessions st' = <[s_id row := with_change_seq seq row]> (st_sessions st)
  /\ st_subagents st' = st_subagents st /\ st_sessions st !! s_id row = None
  /\ st_prompts st' = st_prompts st.
Proof.
  intros Hf [Hn ->]%insert_session_row_run. split; [|done].
  by apply (forest_insert_session st (s_id row) (with_change_seq seq row) Hf eq_refl Hn).
Qed.

Lemma session_by_agent_id_some t a st s :
  session_by_agent_id t a st = Some s -> exists i, st_sessions st !! i = Some s.
Proof.
  unfold session_by_agent_id. intros H. destruct (filter _ _) as [|x l] eqn:E; [done|].
  injection H as ->. assert (s ∈ s :: l) as Hin by by left. rewrite <- E in Hin.
  apply list_elem_of_filter in Hin as [_ ([i q] & -> & Hq%elem_of_map_to_list)%list_elem_of_fmap]. eauto.
Qed.

(** The child a patch resolves to. *)
Lemma resolve_child_run json_valid parent root patch new_id now st c stored st' :
  forest st -> is_Some (st_sessions st !! s_id parent) -> is_Some (st_sessions st !! root) ->
  resolve_child json_valid parent root patch new_id now st = Ok (inr (c, stored), st') ->
  forest st' /\ st_subagents st' = st_subagents st /\ is_Some (st_sessions st' !! c)
  /\ (forall x, is_Some (st_sessions st !! x) -> is_Some (st_sessions st' !! x))
  /\ c <> s_id parent /\ c <> root /\ st_subagents st !! c = stored
  /\ (stored = None -> heads_tree c st' = false).
Proof.
  intros Hf [sp Hsp] [sr Hsr] H. unfold resolve_child in H.
  apply bind_ok in H as (st0 & st1 & H0 & H). injection H0 as <- <-.
  destruct (session_by_agent_id _ _ st) as [ex|] eqn:Eex.
  - destruct (session_by_agent_id_some _ _ _ _ Eex) as [i Hi].
    pose proof (fo_session _ Hf _ _ Hi) as Ei.
    case_bool_decide as E1; [done|]. case_bool_decide as E2; [done|].
    destruct (st_subagents st !! s_id ex) as [sa|] eqn:Esa.
    + case_bool_decide as E3; [|done]. injection H as <- <- <-. rewrite Ei. subst i.
      do 2 (split; [done|]). split; [eauto|]. do 3 (split; [done|]). done.
    + destruct (prompted (s_id ex) st); [done|]. destruct (heads_tree (s_id ex) st) eqn:Eh; [done|].
      apply bind_ok in H as (u & st2 & H2 & H). injection H as <- <- <-.
      pose proof (bump_tree _ _ _ _ H2) as Hs.
      assert (st_subagents st2 = st_subagents st) as Esub.
      { apply bump_session_change_run in H2 as [[_ ->]|(? & _ & _ & ->)]; done. }
      split; [by apply (forest_same st)|]. split; [done|].
      split; [apply (same_tree_live st); [done|rewrite Ei; eauto]|].
      split; [intros x; by apply (same_tree_live st)|]. do 3 (split; [done|]). intros _.
      unfold heads_tree. by rewrite Esub.
  - apply bind_ok in H as (seq & st2 & H2 & H). apply next_change_seq_run in H2 as (_ & -> & ->).
    apply bind_ok in H as (u & st3 & H3 & H). injection H as <- <- <-.
    apply forest_insert_session_row in H3 as (Hf3 & Es & Esub & Hn & _).
    2:{ by apply (forest_same st). }
    simpl in *. split; [done|]. split; [done|].
    assert (forall sa x, st_subagents st !! x = Some sa -> sa_parent_session_id sa <> new_id) as Hno.
    { intros sa x Hsa E. destruct (fo_live _ Hf _ _ Hsa) as (_ & _ & [? Hl] & _). rewrite E in Hl. congruence. }
    split; [rewrite Es, lookup_insert_eq; eauto|]. split.
    { intros x Hx. rewrite Es. apply lookup_insert_is_Some. destruct (decide (new_id = x)); auto. }
    split; [congruence|]. split; [congruence|]. split.
    { destruct (st_subagents st !! new_id) as [sa|] eqn:E; [|done].
      destruct (fo_live _ Hf _ _ E) as (_ & [? ?] & _). congruence. }
    intros _. unfold heads_tree. rewrite Esub. apply existsb_false. intros [x sa] Hx%elem_of_map_to_list.
    simpl. apply bool_decide_eq_false. by eapply Hno.
Qed.

Lemma touch_child_tree c now : tree_keeps (touch_child c now).
Proof.
  apply tree_keeps_modify. intros st. split; [|done]. simpl. apply map_eq. intros i.
  rewrite !lookup_fmap. destruct (decide (c = i)) as [->|Hne].
  - rewrite lookup_alter_eq. by destruct (st_sessions st !! i).
  - by rewrite lookup_alter_ne.
Qed.

Lemma touch_child_run (historical : bool) c now st u st' :
  (if historical then ret tt else touch_child c now) st = Ok (u, st') ->
  same_tree st st' /\ st_subagents st' = st_subagents st.
Proof.
  destruct historical; [by intros [= _ <-]|]. intros H. split; [by apply touch_child_tree in H|].
  by injection H as _ <-.
Qed.

Lemma heads_tree_same c st st' : st_subagents st' = st_subagents st -> heads_tree c st' = heads_tree c st.
Proof. intros E. unfold heads_tree. by rewrite E. Qed.

Lemma tree_root_live st id : forest st -> is_Some (st_sessions st !! id) ->
  is_Some (st_sessions st !! tree_root id (st_subagents st)).
Proof.
  intros Hf Hid. unfold tree_root. destruct (st_subagents st !! id) as [sa|] eqn:E; [|done].
  by destruct (fo_live _ Hf _ _ E) as (_ & _ & _ & ?).
Qed.

Lemma forest_apply_patch json_valid parent_id patch roots new_id now st a st' :
  forest st -> apply_subagent_patch json_valid parent_id patch roots new_id now st = Ok (a, st') ->
  forest st'.
Proof.
  intros Hf H. unfold apply_subagent_patch in H.
  apply bind_ok in H as (st0 & st1 & H0 & H). injection H0 as <- <-.
  destruct (st_sessions st !! parent_id) as [parent|] eqn:Ep; [|done].
  pose proof (fo_session _ Hf _ _ Ep) as Eid.
  set (root := tree_root parent_id (st_subagents st)) in *.
  set (historical := bool_decide (root ∈ roots)) in *.
  apply bind_ok in H as (child & st1 & H1 & H).
  destruct child as [rej|[c stored]].
  { injection H as _ <-. eapply forest_same; [|exact Hf]. unfold resolve_child in H1.
    apply bind_ok in H1 as (st2 & st3 & H2 & H1). injection H2 as <- <-.
    destruct (session_by_agent_id _ _ st).
    - repeat case_match; try (by injection H1 as _ <-);
        apply bind_ok in H1 as (? & ? & _ & H1); discriminate H1.
    - apply bind_ok in H1 as (? & ? & _ & H1). apply bind_ok in H1 as (? & ? & _ & H1). done. }
  apply resolve_child_run in H1 as (Hf1 & Esub & Lc & Hlive & Hcp & Hcr & Hst & Hleaf); [|done|..].
  2:{ rewrite Eid, Ep. eauto. }
  2:{ apply tree_root_live; [done|]. rewrite Ep. eauto. }
  apply bind_ok in H as (u & st2 & H2 & H). apply touch_child_run in H2 as [Hs2 Esub2].
  pose proof (forest_same _ _ Hs2 Hf1) as Hf2. destruct stored as [sa|].
  - apply bind_ok in H as (u3 & st3 & H3 & H). injection H3 as _ <-.
    apply bind_ok in H as (u4 & st4 & H4 & H). injection H as _ <-. apply bump_tree in H4.
    apply (forest_same _ _ H4). eapply forest_same; [|exact Hf2]. split; [done|]. simpl.
    rewrite fmap_insert. simpl. apply insert_id. rewrite lookup_fmap, Esub2, Esub, Hst. simpl.
    by destruct (fo_live _ Hf _ _ Hst) as (-> & _).
  - apply bind_ok in H as (u3 & st3 & H3 & H). injection H as _ <-.
    unfold insert_subagent_row in H3. apply bind_ok in H3 as (st4 & st5 & H4 & H3). injection H4 as <- <-.
    simpl in H3. destruct (st_subagents st2 !! c) eqn:E1; [done|].
    destruct (st_sessions st2 !! c) eqn:E2; [|done].
    destruct (st_sessions st2 !! s_id parent) eqn:E3; [|done].
    destruct (st_sessions st2 !! root) eqn:E4; [|done]. injection H3 as _ <-.
    eapply (forest_announce st2 (patched_row c (s_id parent) root patch None historical now));
      simpl; try done; eauto.
    + by rewrite Esub2, Esub, Eid.
    + rewrite (heads_tree_same _ st1) by done. by apply Hleaf.
Qed.

(** ** The update as a whole *)

Lemma record_update_run json_valid json_parses external ap pid payload patch roots uid aid nid ua now aa
    st a st' :
  record_subagent_update json_valid json_parses external ap pid payload patch roots uid aid nid ua now aa st
    = Ok (a, st') ->
  exists e seq st1 st2,
    insert_session_update_row json_valid external pid e st = Ok (seq, st1)
    /\ apply_subagent_patch json_valid pid patch roots nid now st1 = Ok (a, st2)
    /\ same_tree st2 st' /\ st_subagents st' = st_subagents st2 /\ st_sessions st' = st_sessions st2.
Proof.
  unfold record_subagent_update. intros H. destruct (session_update_event _ _ _ _ _ _) as [e|]; [|done].
  apply bind_ok in H as (seq & st1 & H1 & H). apply bind_ok in H as (a' & st2 & H2 & H).
  exists e, seq, st1, st2. split; [done|].
  apply bind_ok in H as (ann & st3 & H3 & H). apply bind_ok in H as (u4 & st4 & H4 & H).
  apply bind_ok in H as (u5 & st5 & H5 & H). injection H as <- <-. split; [done|].
  assert (st_subagents st3 = st_subagents st2 /\ st_sessions st3 = st_sessions st2) as [E1 E2].
  { destruct a' as [c r h|c h|rej].
    - apply bind_ok in H3 as (s6 & st6 & H6 & H3).
      apply insert_session_event_row_run in H6 as (_ & _ & _ & ->).
      apply bind_ok in H3 as (u7 & st7 & H7 & H3). apply bind_ok in H3 as (u8 & st8 & H8 & H3).
      injection H3 as _ <-. unfold enqueue_if in *.
      destruct external; injection H7 as _ <-; by injection H8 as _ <-.
    - apply bind_ok in H3 as (u6 & st6 & H6 & H3). injection H3 as _ <-.
      unfold enqueue_if in H6. destruct h, external; by injection H6 as _ <-.
    - by injection H3 as _ <-. }
  assert (st_subagents st5 = st_subagents st3 /\ st_sessions st5 = st_sessions st3) as [E3 E4].
  { injection H4 as _ <-. destruct ann; by injection H5 as _ <-. }
  rewrite E3, E1, E4, E2. split; [split; congruence|]. split; congruence.
Qed.

Lemma forest_record_update json_valid json_parses external ap pid payload patch roots uid aid nid ua now aa :
  preserves forest
    (record_subagent_update json_valid json_parses external ap pid payload patch roots uid aid nid ua now aa).
Proof.
  intros st a st' Hf (e & seq & st1 & st2 & H1 & H2 & Hs & _)%record_update_run.
  apply (forest_same st2 _ Hs). eapply forest_apply_patch; [|exact H2].
  eapply forest_same; [|exact Hf]. by eapply insert_session_update_row_tree.
Qed.

Lemma tree_keeps_forest {A} (m : M A) : tree_keeps m -> preserves forest m.
Proof. intros H st a st' Hf Hm. eapply forest_same; eauto. Qed.

Lemma forest_insert_session_for_target json_valid external t a r now :
  preserves forest (insert_session_for_target json_valid external t a r now).
Proof.
  intros st row st' Hf H. unfold insert_session_for_target in H. destruct (negb _); [done|].
  apply bind_ok in H as (seq & st1 & H1 & H). injection H as _ <-.
  apply bind_ok in H1 as (seq2 & st2 & H2 & H1). apply bind_ok in H1 as (u & st3 & H3 & H1).
  injection H1 as _ <-. apply (forest_same st2); [by eapply enqueue_if_tree|].
  apply bind_ok in H2 as (seq3 & st4 & H4 & H2). apply next_change_seq_run in H4 as (_ & -> & ->).
  apply bind_ok in H2 as (u5 & st5 & H5 & H2). injection H2 as _ <-.
  apply forest_insert_session_row in H5 as [? _]; [done|]. by apply (forest_same st).
Qed.

(** ** Feed and log *)

Lemma edit_fresh dirty st st1 id row f :
  feed_inv st1 -> feed_dirty dirty st st1 -> st_sessions st1 !! id = Some row ->
  st_change_seq st < s_change_seq row -> s_change_seq (f row) = s_change_seq row ->
  let st2 := set_sessions (alter f id (st_sessions st1)) st1 in
  feed_inv st2 /\ feed_dirty dirty st st2.
Proof.
  intros Hi (C & P & H) Hrow Hlt Hf st2.
  assert (alter f id (st_sessions st1) = <[id := f row]> (st_sessions st1)) as Ealt.
  { apply map_eq. intros i. destruct (decide (id = i)) as [<-|Hne].
    - by rewrite lookup_alter_eq, lookup_insert_eq, Hrow.
    - by rewrite lookup_alter_ne, lookup_insert_ne by done. }
  split.
  - unfold feed_inv, live_seqs, dead_seqs, st2 in *; simpl. rewrite Ealt, fmap_insert, Hf.
    rewrite insert_id; [done|]. by rewrite lookup_fmap, Hrow.
  - split; [done|]. split; [done|]. simpl. rewrite Ealt. intros i.
    destruct (decide (i = id)) as [->|Hne]; [|by rewrite lookup_insert_ne; auto].
    right; left. exists (f row). rewrite lookup_insert_eq. split; [done|lia].
Qed.

(** What [resolve_child] leaves for readers: a child that is new to its parent
    carries a fresh stamp. *)
Lemma resolve_child_feed json_valid parent root patch new_id now st r st' :
  feed_inv st -> resolve_child json_valid parent root patch new_id now st = Ok (r, st') ->
  feed_inv st' /\ feed_step st st'
  /\ match r with
     | inl _ => st' = st
     | inr (c, Some _) => st' = st
     | inr (c, None) => st_sessions st' !! c = None
         \/ exists row, st_sessions st' !! c = Some row /\ st_change_seq st < s_change_seq row
     end.
Proof.
  intros Hi H. unfold resolve_child in H.
  apply bind_ok in H as (st0 & st1 & H0 & H). injection H0 as <- <-.
  assert (feed_inv st /\ feed_step st st) as Hrefl by (split; [done|apply feed_step_refl]).
  destruct (session_by_agent_id _ _ st) as [ex|].
  - repeat (case_bool_decide; [by injection H as <- <-; destruct Hrefl|]).
    destruct (st_subagents st !! s_id ex) as [sa|].
    { case_bool_decide; injection H as <- <-; by destruct Hrefl. }
    destruct (prompted _ st); [by injection H as <- <-; destruct Hrefl|].
    destruct (heads_tree _ st); [by injection H as <- <-; destruct Hrefl|].
    apply bind_ok in H as (u & st2 & H2 & H). injection H as <- <-.
    destruct (bump_feed _ st u st2 Hi H2) as [Hi2 Hs2]. split; [done|]. split; [done|].
    apply bump_session_change_run in H2 as [[Hn ->]|(row & _ & _ & ->)]; [by left|].
    right. eexists. simpl. rewrite lookup_insert_eq. split; [done|]. simpl. lia.
  - apply bind_ok in H as (seq & st2 & H2 & H). apply next_change_seq_run in H2 as (Hlt & -> & ->).
    apply bind_ok in H as (u & st3 & H3 & H). injection H as <- <-.
    apply insert_session_row_run in H3 as [_ ->]. simpl.
    edestruct (insert_live_step st new_id (with_change_seq (st_change_seq st + 1)
      (child_row parent (pt_agent_session_id patch) new_id now)) Hi Hlt eq_refl) as [Hi3 Hs3].
    split; [exact Hi3|]. split; [exact Hs3|]. right. eexists. rewrite lookup_insert_eq.
    split; [done|]. simpl. lia.
Qed.

Lemma touch_fresh_feed (historical : bool) c now st st1 u st2 :
  feed_inv st1 -> feed_step st st1 ->
  (st_sessions st1 !! c = None
   \/ exists row, st_sessions st1 !! c = Some row /\ st_change_seq st < s_change_seq row) ->
  (if historical then ret tt else touch_child c now) st1 = Ok (u, st2) ->
  feed_inv st2 /\ feed_step st st2.
Proof.
  intros Hi Hs Hc H. destruct historical; [by injection H as _ <-|]. injection H as _ <-.
  destruct Hc as [Hn|(row & Hrow & Hlt)].
  - assert (alter (with_updated_at now) c (st_sessions st1) = st_sessions st1) as ->.
    { apply map_eq. intros i. destruct (decide (c = i)) as [<-|Hne].
      - by rewrite lookup_alter_eq, Hn.
      - by rewrite lookup_alter_ne. }
    destruct st1; done.
  - by apply (edit_fresh ∅ st st1 c row).
Qed.

Lemma touch_stored_feed (historical : bool) c now f st u st1 st2 u2 st3 :
  feed_inv st -> (if historical then ret tt else touch_child c now) st = Ok (u, st1) ->
  st2 = set_subagents f st1 -> bump_session_change c st2 = Ok (u2, st3) ->
  feed_inv st3 /\ feed_step st st3.
Proof.
  intros Hi H1 -> H2.
  assert (feed_inv st1 /\ feed_dirty {[c]} st st1) as [Hi1 Hd1].
  { destruct historical.
    - injection H1 as _ <-. split; [done|]. split; [lia|]. split; [lia|]. by left.
    - injection H1 as _ <-. apply edit_dirty; [done|..].
      + unfold live_seqs. apply map_eq. intros i. rewrite !lookup_fmap.
        destruct (decide (c = i)) as [->|Hne]; [rewrite lookup_alter_eq|by rewrite lookup_alter_ne].
        by destruct (st_sessions st !! i).
      + intros i Hn. apply lookup_alter_ne. set_solver. }
  destruct (feed_same_dirty {[c]} st st1 (set_subagents f st1) Hi1 Hd1) as [Hi2 Hd2]; [done|].
  destruct (bump_dirty {[c]} c st _ u2 st3 Hi2 Hd2 H2) as [Hi3 Hd3]. split; [done|].
  eapply feed_dirty_empty; [|exact Hd3]. set_solver.
Qed.

Lemma insert_subagent_row_feed row : feed_same (insert_subagent_row row).
Proof.
  unfold insert_subagent_row. apply feed_same_bind; [apply feed_same_gets|intros st].
  repeat (case_match; try apply feed_same_fail). by apply feed_same_modify.
Qed.

Lemma apply_patch_feed json_valid pid patch roots nid now :
  feed_ok (apply_subagent_patch json_valid pid patch roots nid now).
Proof.
  intros st a st' Hi H. unfold apply_subagent_patch in H.
  apply bind_ok in H as (st0 & st1 & H0 & H). injection H0 as <- <-.
  destruct (st_sessions st !! pid) as [parent|]; [|done].
  apply bind_ok in H as (child & st1 & H1 & H).
  destruct (resolve_child_feed _ _ _ _ _ _ _ _ _ Hi H1) as (Hi1 & Hs1 & Hc).
  destruct child as [rej|[c [sa|]]]; [by injection H as _ <-|..].
  - subst st1. apply bind_ok in H as (u & st2 & H2 & H).
    apply bind_ok in H as (u3 & st3 & H3 & H). injection H3 as _ <-.
    apply bind_ok in H as (u4 & st4 & H4 & H). injection H as _ <-.
    eapply touch_stored_feed; [exact Hi|exact H2|reflexivity|exact H4].
  - apply bind_ok in H as (u & st2 & H2 & H).
    destruct (touch_fresh_feed _ _ _ _ _ _ _ Hi1 Hs1 Hc H2) as [Hi2 Hs2].
    apply bind_ok in H as (u3 & st3 & H3 & H). injection H as _ <-.
    apply insert_subagent_row_feed in H3.
    by destruct (feed_same_dirty ∅ st st2 st3 Hi2 Hs2 H3).
Qed.

Lemma record_update_feed json_valid json_parses external ap pid payload patch roots uid aid nid ua now aa :
  feed_ok
    (record_subagent_update json_valid json_parses external ap pid payload patch roots uid aid nid ua now aa).
Proof.
  unfold record_subagent_update. case_match; [|apply feed_same_ok, feed_same_fail].
  apply feed_ok_bind; [apply insert_session_update_row_feed|intros seq].
  apply feed_ok_bind; [apply apply_patch_feed|intros a].
  unfold publish_session_event. walk_feed.
Qed.

Lemma apply_patch_log json_valid pid patch roots nid now :
  preserves log_inv (apply_subagent_patch json_valid pid patch roots nid now).
Proof.
  unfold apply_subagent_patch, resolve_child, insert_session_row, next_change_seq,
    clear_session_tombstone, touch_child, insert_subagent_row. walk_log.
Qed.

Lemma record_update_log json_valid json_parses external ap pid payload patch roots uid aid nid ua now aa :
  preserves log_inv
    (record_subagent_update json_valid json_parses external ap pid payload patch roots uid aid nid ua now aa).
Proof.
  unfold record_subagent_update. case_match; [|apply preserves_fail].
  apply preserves_bind; [apply insert_session_update_row_log|intros seq].
  apply preserves_bind; [apply apply_patch_log|intros a].
  unfold publish_session_event. walk_log.
Qed.

Lemma withdraw_feed root : feed_ok (withdraw_subagent_tree root).
Proof. unfold withdraw_subagent_tree. walk_feed. Qed.
Lemma withdraw_log root : preserves log_inv (withdraw_subagent_tree root).
Proof. unfold withdraw_subagent_tree. walk_log. Qed.

Lemma withdraw_state_feed external root now : feed_ok (withdraw_subagent_state external root now).
Proof. apply persist_many_feed, withdraw_feed. Qed.
Lemma withdraw_state_log external root now : preserves log_inv (withdraw_subagent_state external root now).
Proof. apply persist_many_log, withdraw_log. Qed.

Lemma close_subagents_feed external root now : feed_ok (close_subagent_sessions external root now).
Proof.
  apply persist_many_feed. apply feed_ok_bind; [apply withdraw_feed|intros l].
  intros st ids st' Hi H. apply bind_ok in H as (st0 & st1 & E1 & H). injection E1 as <- <-.
  apply bind_ok in H as (u1 & st2 & E2 & H). injection E2 as _ <-.
  apply bind_ok in H as (u2 & st3 & E3 & H). injection H as _ <-.
  eapply stamp_edited; [exact Hi| | |done|exact E3].
  - unfold live_seqs. by apply edit_where_seqs.
  - intros id Hn. eapply edit_where_out; [|exact Hn]. intros s Hs Ht.
    apply (elem_of_selected _ (fun p => bool_decide (s_id p.2 ∈ subagent_ids_of_root root st)
                     && negb (bool_decide (s_status p.2 = SESSION_STATUS_CLOSED)))). eauto.
Qed.
Lemma close_subagents_log external root now : preserves log_inv (close_subagent_sessions external root now).
Proof. apply persist_many_log. apply preserves_bind; [apply withdraw_log|intros l]. walk_log. Qed.

(** ** What a replayed patch may do *)

(** The session rows move in their stamps alone. *)
Definition stamps_only (st st' : Store) : Prop :=
  forall id s, st_sessions st !! id = Some s ->
  exists n, st_sessions st' !! id = Some (with_change_seq n s).

Lemma stamps_only_refl st st' : st_sessions st' = st_sessions st -> stamps_only st st'.
Proof. intros E id s Hs. exists (s_change_seq s). rewrite E, Hs. by destruct s. Qed.

Lemma stamps_only_trans st1 st2 st3 : stamps_only st1 st2 -> stamps_only st2 st3 -> stamps_only st1 st3.
Proof. intros H1 H2 id s Hs. destruct (H1 id s Hs) as [n Hn]. by apply H2 in Hn. Qed.

Lemma bump_stamps id st u st' :
  bump_session_change id st = Ok (u, st') -> stamps_only st st' /\ st_subagents st' = st_subagents st.
Proof.
  intros [[_ ->]|(row & Hrow & _ & ->)]%bump_session_change_run; [by split; [apply stamps_only_refl|]|].
  split; [|done]. intros i s Hs. simpl. destruct (decide (i = id)) as [->|Hne].
  - rewrite lookup_insert_eq. rewrite Hrow in Hs. injection Hs as ->. eauto.
  - rewrite lookup_insert_ne by done. exists (s_change_seq s). rewrite Hs. by destruct s.
Qed.

Lemma insert_update_stamps json_valid external pid e st seq st' :
  insert_session_update_row json_valid external pid e st = Ok (seq, st') ->
  stamps_only st st' /\ st_subagents st' = st_subagents st.
Proof.
  unfold insert_session_update_row. intros H. apply bind_ok in H as (n & st1 & H1 & H).
  apply insert_session_event_row_run in H1 as (_ & _ & _ & ->).
  apply bind_ok in H as (u2 & st2 & H2 & H). apply bump_stamps in H2 as [B1 B2]. simpl in *.
  apply bind_ok in H as (t & st3 & H3 & H). apply bind_ok in H as (u4 & st4 & H4 & H).
  injection H as _ <-.
  assert (st_sessions st3 = st_sessions st2 /\ st_subagents st3 = st_subagents st2) as [E1 E2].
  { unfold touch_oldest_prompt in H3. apply bind_ok in H3 as (st5 & st6 & E & H3). injection E as <- <-.
    destruct (in_flight_prompts_for_session _ _); [by injection H3 as _ <-|].
    apply bind_ok in H3 as (u7 & st7 & E & H3). injection E as _ <-. by injection H3 as _ <-. }
  assert (st_sessions st4 = st_sessions st3 /\ st_subagents st4 = st_subagents st3) as [E3 E4].
  { destruct external; [|by injection H4 as _ <-]. apply bind_ok in H4 as (u5 & st5 & E & H4).
    injection E as _ <-. destruct t; by injection H4 as _ <-. }
  split; [|congruence]. intros i s Hs. rewrite E3, E1. by apply B1.
Qed.

Lemma resolve_child_stamps json_valid parent root patch new_id now st r st' :
  resolve_child json_valid parent root patch new_id now st = Ok (r, st') ->
  stamps_only st st' /\ st_subagents st' = st_subagents st
  /\ forall c sa, r = inr (c, Some sa) -> st_subagents st !! c = Some sa.
Proof.
  intros H. unfold resolve_child in H.
  apply bind_ok in H as (st0 & st1 & H0 & H). injection H0 as <- <-.
  assert (stamps_only st st) as Hrefl by by apply stamps_only_refl.
  destruct (session_by_agent_id _ _ st) as [ex|].
  - repeat (case_bool_decide; [by injection H as <- <-|]).
    destruct (st_subagents st !! s_id ex) as [sa|] eqn:Esa.
    { case_bool_decide; injection H as <- <-; [|done]. do 2 (split; [done|]). by intros c sa' [= <- <-]. }
    destruct (prompted _ st); [by injection H as <- <-|].
    destruct (heads_tree _ st); [by injection H as <- <-|].
    apply bind_ok in H as (u & st2 & H2 & H). injection H as <- <-.
    apply bump_stamps in H2 as [? ?]. done.
  - apply bind_ok in H as (seq & st2 & H2 & H). apply next_change_seq_run in H2 as (Hlt & -> & ->).
    apply bind_ok in H as (u & st3 & H3 & H). injection H as <- <-.
    apply insert_session_row_run in H3 as [Hn ->]. simpl in *. split; [|done].
    intros i s Hs. simpl. rewrite lookup_insert_ne by congruence. exists (s_change_seq s).
    rewrite Hs. by destruct s.
Qed.

(** History grants nothing: while a root's load replays its past, a patch
    for any subagent of its tree, accepted or not, makes no subagent current and
    grants no cancellation that was not there before, and moves no session's
    activity: existing session rows change in their stamps alone. *)
Theorem replay_grants_nothing json_valid json_parses external ap pid payload patch roots uid aid nid
    ua now aa st a st' :
  tree_root pid (st_subagents st) ∈ roots ->
  record_subagent_update json_valid json_parses external ap pid payload patch roots uid aid nid ua now aa st
    = Ok (a, st') ->
  (forall id sa', st_subagents st' !! id = Some sa' ->
     (sa_state_current sa' = true ->
        exists sa, st_subagents st !! id = Some sa /\ sa_state_current sa = true)
     /\ (sa_cancel_granted sa' = true ->
        exists sa, st_subagents st !! id = Some sa /\ sa_cancel_granted sa = true))
  /\ stamps_only st st'.
Proof.
  intros Hroot (e & seq & st1 & st2 & H1 & H2 & _ & E1 & E2)%record_update_run. rewrite E1.
  apply insert_update_stamps in H1 as [S1 Esub1].
  enough ((forall id sa', st_subagents st2 !! id = Some sa' ->
     (sa_state_current sa' = true ->
        exists sa, st_subagents st1 !! id = Some sa /\ sa_state_current sa = true)
     /\ (sa_cancel_granted sa' = true ->
        exists sa, st_subagents st1 !! id = Some sa /\ sa_cancel_granted sa = true))
     /\ stamps_only st1 st2) as [HA HB].
  { rewrite Esub1 in HA. split; [done|]. eapply stamps_only_trans; [exact S1|].
    intros i s Hs. rewrite E2. by apply HB. }
  rewrite <- Esub1 in Hroot. clear st' E1 E2 S1 Esub1 st.
  unfold apply_subagent_patch in H2. apply bind_ok in H2 as (st & st3 & H0 & H). injection H0 as <- <-.
  destruct (st_sessions st1 !! pid) as [parent|] eqn:Ep; [|done].
  rewrite (bool_decide_true (_ ∈ roots)) in H by done.
  apply bind_ok in H as (child & st3 & H3 & H). apply resolve_child_stamps in H3 as (S3 & Esub3 & Hst).
  destruct child as [rej|[c stored]].
  { injection H as _ <-. rewrite Esub3. split; [|done]. intros i sa' Hi. split; eauto. }
  apply bind_ok in H as (u & st4 & H4 & H). injection H4 as _ <-. destruct stored as [sa0|].
  - apply bind_ok in H as (u5 & st5 & H5 & H). injection H5 as _ <-.
    apply bind_ok in H as (u6 & st6 & H6 & H). injection H as _ <-.
    apply bump_stamps in H6 as [S6 ->]. split; [|by apply (stamps_only_trans st1 st3)]. simpl.
    rewrite Esub3. intros i sa' [[<- <-]|[_ Hi]]%lookup_insert_Some; [|split; eauto]. simpl.
    specialize (Hst c sa0 eq_refl). unfold patched_state_current, patched_cancel_granted.
    split; [destruct (pt_state_json patch); simpl; [by eauto|done..]|eauto].
  - apply bind_ok in H as (u5 & st5 & H5 & H). injection H as _ <-.
    unfold insert_subagent_row in H5. apply bind_ok in H5 as (st6 & st7 & H6 & H5). injection H6 as <- <-.
    repeat (case_match; try done). injection H5 as _ <-. simpl. split; [|done]. rewrite Esub3.
    intros i sa' [[<- <-]|[_ Hi]]%lookup_insert_Some; [|split; eauto]. simpl.
    unfold patched_state_current, patched_cancel_granted. split; [|done].
    by destruct (pt_state_json patch).
Qed.

(** A patch that reports the subagent as running and grants its cancellation. *)
Definition demo_patch : SubagentPatch :=
  mkPatch "a2" Keep Keep (SetTo "{}"%string) (Some true).
Definition demo_update (roots : list string) : M SubagentApplied :=
  record_subagent_update (fun _ => true) (fun _ => true) true (fun _ _ _ => "{}"%string) "root" "{}"
    demo_patch roots "e1" "e2" "new" "t5" "t5" "t5".
Definition demo_tree : Store :=
  set_subagents (<["sub" := mkSubagent "sub" "root" "root" None None None false false "t0" "t0"]> ∅)
    sample_tree.

Lemma replay_grants_nothing_witness :
  let st' := exec (demo_update ["root"%string]) demo_tree in
  (forall sa', st_subagents st' !! "sub"%string = Some sa' -> sa_state_current sa' <> true)
  /\ sa_state_current <$> st_subagents (exec (demo_update []) demo_tree) !! "sub"%string = Some true.
Proof.
  intros st'. split; [|vm_compute; reflexivity]. intros sa' Hsa Hc.
  destruct (exec_ok (demo_update ["root"%string]) demo_tree eq_refl) as [a H].
  destruct (replay_grants_nothing (fun _ => true) (fun _ => true) true (fun _ _ _ => "{}"%string) "root" "{}"
    demo_patch ["root"%string] "e1" "e2" "new" "t5" "t5" "t5" demo_tree a st') as [Hall _].
  - vm_compute. left.
  - exact H.
  - destruct (Hall "sub"%string sa' Hsa) as [Hs _]. destruct (Hs Hc) as (sa & E & F).
    vm_compute in E. injection E as <-. discriminate F.
Defined.

(** ** Deletion goes through *)

Lemma delete_one_succeeds now id st :
  st_change_seq st < i64_max ->
  (forall k sa, st_subagents st !! k = Some sa -> k <> id ->
     sa_parent_session_id sa <> id /\ sa_root_session_id sa <> id) ->
  exists st', delete_one now id st = Ok (tt, st').
Proof.
  intros Hc Hfree. unfold delete_one, bind at 1, modify at 1, bind at 1, modify at 1.
  unfold bind at 1, delete_session_row, bind at 1, gets at 1.
  match goal with |- context [existsb ?f ?l] => assert (existsb f l = false) as -> end.
  { apply existsb_false. intros [k sa] Hk%elem_of_map_to_list. simpl in *.
    apply lookup_delete_Some in Hk as [Hne Hk]. destruct (Hfree k sa Hk ltac:(done)).
    apply bool_decide_eq_false. tauto. }
  unfold insert_session_tombstone, next_change_seq, bind, gets, modify, ret. simpl.
  destruct (Z.leb_spec i64_max (st_change_seq st)); [lia|]. eauto.
Qed.

Lemma delete_all_succeeds now ids st :
  st_change_seq st + Z.of_nat (length ids) <= i64_max ->
  (forall k sa, st_subagents st !! k = Some sa ->
     sa_parent_session_id sa ∉ ids /\ sa_root_session_id sa ∉ ids) ->
  exists st', for_each ids (delete_one now) st = Ok (tt, st').
Proof.
  revert st. induction ids as [|x ids IH]; intros st Hc Hfree; [by eexists|]. simpl in *.
  destruct (delete_one_succeeds now x st) as [st1 H1]; [lia|..].
  { intros k sa Hk _. destruct (Hfree k sa Hk) as [Hp Hr]. rewrite !not_elem_of_cons in *. tauto. }
  pose proof (delete_one_run _ _ _ _ _ H1) as (_ & _ & Ec & Esa & _).
  destruct (IH st1) as [st2 H2]; [lia|..].
  { intros k sa Hk. rewrite Esa in Hk. apply lookup_delete_Some in Hk as [_ Hk].
    destruct (Hfree k sa Hk) as [Hp Hr]. rewrite !not_elem_of_cons in *. tauto. }
  exists st2. apply bind_ok. eauto.
Qed.

(** Deleting a session the client owns is never blocked by its subagents:
    in a store whose subagents form trees, a session that is no subagent is
    deleted whatever tree hangs below it, as long as the change counter has
    room for the tombstones. *)
Theorem delete_root_succeeds external id now st row :
  forest st -> st_sessions st !! id = Some row -> st_subagents st !! id = None ->
  st_change_seq st + Z.of_nat (length (subagent_ids_of_root id st)) + 1 <= i64_max ->
  exists st', delete_session external id now st = Ok (Some row, st').
Proof.
  intros Hf Hrow Hroot Hc. pose proof Hf as [_ _ H3 H4 _].
  set (ids := subagent_ids_of_root id st ++ [id]).
  set (st1 := set_subagents (filter (fun p => sa_root_session_id p.2 <> id) (st_subagents st)) st).
  destruct (delete_all_succeeds now ids st1) as [st2 H2].
  - unfold ids. rewrite length_app. simpl. lia.
  - intros k sa [Hk Hne]%map_lookup_filter_Some. simpl in Hne. unfold ids.
    rewrite !not_elem_of_app, !not_elem_of_cons, !elem_of_subagent_ids.
    pose proof (H4 k sa Hk) as Hl. unfold tree_root in Hl. split.
    + destruct (st_subagents st !! sa_parent_session_id sa) as [sp|] eqn:Ep.
      * split; [intros (sp' & Hsp & E); congruence|]. split; [congruence|apply not_elem_of_nil].
      * split; [intros (sp' & Hsp & E); congruence|]. split; [congruence|apply not_elem_of_nil].
    + split; [intros (sr & Hsr & E)|split; [done|apply not_elem_of_nil]].
      rewrite (H3 k sa Hk) in Hsr. done.
  - assert (exists st3, (if external then for_each ids (fun i => enqueue "sessions" i now) else ret tt) st2
                       = Ok (tt, st3)) as [st3 E3].
    { destruct external; [|by eexists]. clear. revert st2.
      induction ids as [|x l IH]; intros st2; [by eexists|]. simpl.
      unfold bind, enqueue at 1, modify. apply IH. }
    exists st3. unfold delete_session. apply bind_ok. exists (st_sessions st), st. split; [done|].
    rewrite Hrow. apply bind_ok. exists ids, st3. split; [|done].
    apply bind_ok. exists ids, st2. split; [|by apply bind_ok; exists tt, st3].
    apply bind_ok. exists (subagent_ids_of_root id st), st. split; [done|].
    apply bind_ok. exists tt, st1. split; [done|]. apply bind_ok. by exists tt, st2.
Qed.

Lemma demo_tree_forest : forest demo_tree.
Proof.
  assert (forall id sa, st_subagents demo_tree !! id = Some sa ->
            id = "sub"%string /\ sa = mkSubagent "sub" "root" "root" None None None false false "t0" "t0") as Hone.
  { intros id sa H. simpl in H. apply lookup_insert_Some in H as [[<- <-]|[_ H]]; [done|].
    by rewrite lookup_empty in H. }
  split; [|intros id sa [-> ->]%Hone..|].
  - intros id s H. simpl in H.
    repeat (apply lookup_insert_Some in H as [[<- <-]|[_ H]]; [done|]). by rewrite lookup_empty in H.
  - repeat split; by eexists.
  - done.
  - done.
  - exists (fun x => if bool_decide (x = "sub"%string) then 1%nat else 0%nat).
    intros id sa [-> ->]%Hone. vm_compute. lia.
Qed.

Lemma delete_root_succeeds_witness :
  exists st', delete_session true "root" "t9" demo_tree = Ok (Some (tree_row "root" "a1" 1), st').
Proof.
  apply (delete_root_succeeds true "root" "t9" demo_tree (tree_row "root" "a1" 1) demo_tree_forest).
  - reflexivity.
  - reflexivity.
  - vm_compute. discriminate.
Defined.
