(* ===== verification/Fork.v ===== *)
(** Fork inheritance (src/src/state/sessions/fork.rs): the part of a parent
    session's record a fork child carries, written together with the child row. *)

From S2P Require Import Prelude Store SinkOutbox ChangeFeed SessionEvents PromptStore SessionStore.
Open Scope Z_scope.
Open Scope result_scope.

Definition SUBAGENT_UPDATE_KIND : string := "subagent_update".

Definition FORK_INHERITED_EVENT_KINDS : list string :=
  [ EVENT_KIND_SESSION_UPDATE;
    "prompt.inference_failed"; "prompt.stalled"; "prompt.stall_resolved"; "prompt.errored";
    "prompt.usage_reported"; EVENT_KIND_PROMPT_SETTLED; "session.cancel_requested";
    "terminal.finished"; "permission.approved"; "permission.denied"; "permission.cancelled";
    "permission.expired" ]%string.

(** [ORDER BY id ASC]. *)
Definition by_prompt_id (ps : list PromptRecord) : list PromptRecord :=
  order_by (fun p => (p_id p, ""%string)) ps.

Definition session_prompts (session_id : string) (st : Store) : list PromptRecord :=
  filter (fun p => p_session_id p = session_id) (map_to_list (st_prompts st)).*2.

(** [a <= b] on text. *)
Definition id_le (a b : string) : bool := negb (String.ltb b a).

(** No turn of the session is in flight at or before the prompt. *)
Definition settled_through (session_id : string) (st : Store) (p : PromptRecord) : bool :=
  forallb (fun q => negb (prompt_in_flight q && id_le (p_id q) (p_id p))) (session_prompts session_id st).

Definition newest_settled_prompt_id (session_id : string) (st : Store) : option string :=
  p_id <$> last (by_prompt_id (filter (fun p => settled_through session_id st p = true)
                                 (session_prompts session_id st))).

Definition copy_prompt (child new_id : string) (p : PromptRecord) : PromptRecord :=
  mkPrompt new_id child (p_created_at p) (p_updated_at p) (p_status p) (p_stop_reason p)
    (p_error_code p) (p_error_message p) (p_prompt_json p) (p_message_id p)
    (p_message_id_acknowledged p) (p_failure_class p) (p_failure_detail_json p) (p_agent_message_id p).

Definition copy_event (child new_id : string) (seq : Z) (e : Event) : Event :=
  mkEvent new_id (e_created_at e) (e_level e) (e_kind e) (e_message e) (e_payload_json e) (e_source e)
    (Some child) (Some seq).

Definition held_prompts (parent : string) (held_through : option string) (st : Store) : list PromptRecord :=
  match held_through with
  | Some held => by_prompt_id (filter (fun p => id_le (p_id p) held = true) (session_prompts parent st))
  | None => []
  end.

(** [(?2 IS NULL OR id > ?2)]. *)
Definition past_held (held_through : option string) (p : PromptRecord) : bool :=
  match held_through with Some held => negb (id_le (p_id p) held) | None => true end.

(** When the parent's next prompt was submitted. *)
Definition fork_cut (parent : string) (held_through : option string) (st : Store) : option string :=
  p_created_at <$> head (by_prompt_id (filter (fun p => past_held held_through p = true)
                                         (session_prompts parent st))).

Section fork.
Context (json_valid : string -> bool) (external : bool).
Context (json_extract : string -> string -> JsonValue).

Definition is_subagent_update (e : Event) : bool :=
  bool_decide (e_kind e = EVENT_KIND_SESSION_UPDATE)
  && match json_extract (e_payload_json e) "$.update.sessionUpdate" with
     | JText k => bool_decide (k = SUBAGENT_UPDATE_KIND)
     | _ => false
     end.

Definition before_cut (cut : option string) (e : Event) : bool :=
  match cut with Some c => String.ltb (e_created_at e) c | None => true end.

Definition parent_events (parent : string) (cut : option string) (st : Store) : list Event :=
  merge_sort event_seq_le
    (filter (fun e => before_cut cut e && negb (is_subagent_update e) = true)
       (session_events parent (st_events st))).

Definition inherited (e : Event) : bool := bool_decide (e_kind e ∈ FORK_INHERITED_EVENT_KINDS).

(** The rows written, for the outbox: table, id and time. [ids] draws fresh ids. *)
Fixpoint copy_prompts (ids : nat -> string) (k : nat) (child : string) (ps : list PromptRecord)
  : M (list (string * string * string)) :=
  match ps with
  | [] => ret []
  | p :: rest =>
      insert_prompt_row json_valid (copy_prompt child (ids k) p) ;;
      let* copied := copy_prompts ids (S k) child rest in
      ret (("prompts", ids k, p_created_at p) :: copied)
  end.

(** [child_seq] runs past every seq of the child, so the unique
    [(session_id, seq)] index accepts each copy. *)
Fixpoint copy_events (ids : nat -> string) (k : nat) (child : string) (child_seq : Z) (es : list Event)
  : M (list (string * string * string)) :=
  match es with
  | [] => ret []
  | e :: rest =>
      if inherited e then
        (if i64_max <? child_seq then fail Sqlite
         else insert_event json_valid (copy_event child (ids k) child_seq e)) ;;
        let* copied := copy_events ids (S k) child (child_seq + 1) rest in
        ret (("events", ids k, e_created_at e) :: copied)
      else copy_events ids k child child_seq rest
  end.

(** The [event_seq] of the returned record: the seq of the last copy, and the 0
    of a new record when nothing was copied. *)
Definition returned_event_seq (child_seq : Z) (copies : nat) : Z :=
  match copies with O => 0 | S n => child_seq + Z.of_nat n end.

(** The statements of one transaction and the record it returns, with its
    [event_seq]. The rows of the parent are read once; nothing the transaction
    writes changes them. *)
Definition insert_forked_session (target_id agent_session_id : string) (record : NewSessionRecord)
    (parent : string) (held_through : option string) (new_prompt_ids new_event_ids : nat -> string) (now : string)
  : M (SessionRow * Z) :=
  if negb (json_valid (ns_metadata_json record)) then fail InvalidEventPayload
  else
    let row := new_active_session_row target_id agent_session_id record now in
    let* change_seq := next_change_seq in
    insert_session_row json_valid row change_seq ;;
    let* ps := gets (held_prompts parent held_through) in
    let* copied_prompts := copy_prompts new_prompt_ids 0 (s_id row) ps in
    let* cut := gets (fork_cut parent held_through) in
    let* es := gets (parent_events parent cut) in
    let* seq := gets (fun st => next_session_event_seq (s_id row) (st_events st)) in
    match seq with
    | Err e => fail e
    | Ok child_seq =>
        let* copied_events := copy_events new_event_ids 0 (s_id row) child_seq es in
        (if external then
           enqueue "sessions" (s_id row) now ;;
           for_each (copied_prompts ++ copied_events) (fun c => enqueue c.1.1 c.1.2 c.2)
         else ret tt) ;;
        ret (with_change_seq change_seq row, returned_event_seq child_seq (length copied_events))
    end.
End fork.

(** ** The copies *)

Lemma insert_prompt_row_run json_valid p st u st' :
  insert_prompt_row json_valid p st = Ok (u, st') ->
  st_prompts st !! p_id p = None /\ st' = set_prompts (<[p_id p := p]> (st_prompts st)) st.
Proof.
  unfold insert_prompt_row. intros (s & st0 & H0 & H)%bind_ok. injection H0 as <- <-. unfold id in H.
  destruct (st_prompts st !! p_id p) eqn:En; [done|]. destruct (st_sessions st !! p_session_id p); [|done].
  destruct (_ && _); [|done]. injection H as _ <-. done.
Qed.

(** The copies of a list, numbered from [k]. *)
Definition prompt_copies (ids : nat -> string) (k : nat) (child : string) (ps : list PromptRecord)
  : list PromptRecord :=
  imap (fun i p => copy_prompt child (ids (k + i)%nat) p) ps.

Definition event_copies (ids : nat -> string) (k : nat) (child : string) (seq : Z) (es : list Event)
  : list Event :=
  imap (fun i e => copy_event child (ids (k + i)%nat) (seq + Z.of_nat i) e) es.

Lemma prompt_copies_cons ids k child p ps :
  prompt_copies ids k child (p :: ps) = copy_prompt child (ids k) p :: prompt_copies ids (S k) child ps.
Proof.
  unfold prompt_copies. simpl. rewrite Nat.add_0_r. f_equal. apply imap_ext. intros i x _. simpl.
  by rewrite Nat.add_succ_r.
Qed.

Lemma event_copies_cons ids k child seq e es :
  event_copies ids k child seq (e :: es)
  = copy_event child (ids k) seq e :: event_copies ids (S k) child (seq + 1) es.
Proof.
  unfold event_copies. simpl. rewrite Nat.add_0_r, Z.add_0_r. f_equal. apply imap_ext. intros i x _. simpl.
  rewrite Nat.add_succ_r. f_equal. lia.
Qed.

Lemma copy_prompts_run json_valid ids k child ps st copied st' :
  copy_prompts json_valid ids k child ps st = Ok (copied, st') ->
  (exists m, st' = set_prompts m st /\ forall id p, st_prompts st !! id = Some p -> m !! id = Some p)
  /\ (map_to_list (st_prompts st')).*2 ≡ₚ prompt_copies ids k child ps ++ (map_to_list (st_prompts st)).*2.
Proof.
  revert k st copied. induction ps as [|p ps IH]; intros k st copied H; simpl in H.
  - injection H as _ <-. split; [|done]. exists (st_prompts st). by destruct st.
  - rewrite prompt_copies_cons. apply bind_ok in H as (u & st1 & H1 & H). apply insert_prompt_row_run in H1 as [Hn ->].
    apply bind_ok in H as (c & st2 & H2 & H). injection H as _ <-. simpl in *.
    apply IH in H2 as [(m & -> & Hm) Hp]. simpl in *. split.
    + exists m. split; [done|]. intros id q Hq. apply Hm. rewrite lookup_insert_ne; [done|congruence].
    + rewrite Hp. rewrite map_to_list_insert, fmap_cons by done. simpl.
      by rewrite Permutation_middle.
Qed.

Lemma copy_events_run json_valid ids k child seq es st copied st' :
  copy_events json_valid ids k child seq es st = Ok (copied, st') -> log_inv st ->
  seq = session_event_head child (st_events st) + 1 ->
  log_inv st' /\ length copied = length (filter (fun e => inherited e = true) es)
  /\ (exists m, st' = set_events m st)
  /\ (forall id e, st_events st !! id = Some e -> st_events st' !! id = Some e)
  /\ forall sid, session_events sid (st_events st')
       ≡ₚ (if bool_decide (sid = child) then event_copies ids k child seq (filter (fun e => inherited e = true) es)
          else []) ++ session_events sid (st_events st).
Proof.
  revert k seq st copied. induction es as [|e es IH]; intros k seq st copied H Hi Hs; simpl in H.
  - injection H as <- <-. split; [done|]. split; [done|]. split; [exists (st_events st); by destruct st|].
    split; [done|]. intros sid. by case_bool_decide.
  - rewrite filter_cons. destruct (inherited e) eqn:Ei; [|rewrite decide_False by done; by eapply IH].
    rewrite decide_True, event_copies_cons by done.
    apply bind_ok in H as (u & st1 & H1 & H). destruct (i64_max <? seq); [done|].
    apply insert_event_run in H1 as [Hn ->]. apply bind_ok in H as (c & st2 & H2 & H). injection H as <- <-.
    set (ce := copy_event child (ids k) seq e) in *. change (ids k) with (e_id ce) in Hn.
    assert (log_wf (<[e_id ce := ce]> (st_events st))) as Hwf by (apply log_wf_insert; [done|done|simpl; by rewrite Hs]).
    apply IH in H2 as (Hi2 & Hl & (m & ->) & Hk & Hp); [|exact Hwf|].
    + split; [done|]. split; [simpl; by rewrite Hl|]. split; [by eexists|]. split.
      * intros id e' He. apply Hk. simpl. rewrite lookup_insert_ne; [done|]. intros <-.
        change (ids k) with (e_id ce) in He. congruence.
      * intros sid. rewrite Hp. cbn [st_events set_events]. rewrite session_events_insert by done. unfold in_session. simpl.
        case_bool_decide as E1; case_bool_decide as E2; try congruence.
        -- symmetry. apply Permutation_middle.
        -- done.
    + cbn [st_events set_events]. rewrite session_event_head_length by done. rewrite session_events_insert by done.
      unfold in_session. simpl. rewrite bool_decide_eq_true_2 by done. simpl.
      rewrite Hs, session_event_head_length by done. lia.
Qed.

Lemma copy_events_frame json_valid ids k child seq es st copied st' :
  copy_events json_valid ids k child seq es st = Ok (copied, st') -> exists m, st' = set_events m st.
Proof.
  revert k seq st copied. induction es as [|e es IH]; intros k seq st copied H; simpl in H.
  { injection H as _ <-. exists (st_events st). by destruct st. }
  destruct (inherited e); [|by eapply IH]. apply bind_ok in H as (u & st1 & H1 & H).
  destruct (i64_max <? seq); [done|]. apply insert_event_run in H1 as [_ ->].
  apply bind_ok in H as (c & st2 & H2 & H). injection H as _ <-. by apply IH in H2 as [m ->]; exists m.
Qed.

(** ** What the child holds *)

Lemma by_prompt_id_perm l1 l2 :
  l1 ≡ₚ l2 -> (forall p q, p ∈ l1 -> q ∈ l1 -> p_id p = p_id q -> p = q) -> by_prompt_id l1 = by_prompt_id l2.
Proof.
  intros Hp Hinj. unfold by_prompt_id. apply (StronglySorted_unique_strong (on_key (fun p => (p_id p, ""%string)))).
  - intros p q Hp' Hq'. rewrite order_by_perm in Hp'. rewrite order_by_perm, <- Hp in Hq'.
    unfold on_key, key_le. simpl. intros [[Hn H1]|[E _]] [[_ H2]|[E' _]]; [|by apply Hinj..].
    apply Hinj; [done..|]. by apply (anti_symm String.le).
  - apply order_by_sorted.
  - apply order_by_sorted.
  - by rewrite !order_by_perm.
Qed.

(** The parent's prompts, with or without the child's copies. *)
Lemma session_prompts_copies child parent ids k ps st m :
  parent <> child ->
  (map_to_list m).*2 ≡ₚ prompt_copies ids k child ps ++ (map_to_list (st_prompts st)).*2 ->
  session_prompts parent (set_prompts m st) ≡ₚ session_prompts parent st.
Proof.
  intros Hne Hp. unfold session_prompts. simpl. rewrite Hp, filter_app.
  rewrite (filter_none _ (prompt_copies _ _ _ _)); [done|].
  intros p (i & q & -> & _)%elem_of_lookup_imap. simpl. congruence.
Qed.

Lemma session_prompts_inj sid st p q :
  prompt_ids st -> p ∈ session_prompts sid st -> q ∈ session_prompts sid st -> p_id p = p_id q -> p = q.
Proof.
  intros Hids Hp Hq E. unfold session_prompts in *.
  apply list_elem_of_filter in Hp as [_ ([i p'] & -> & Hp%elem_of_map_to_list)%list_elem_of_fmap].
  apply list_elem_of_filter in Hq as [_ ([j q'] & -> & Hq%elem_of_map_to_list)%list_elem_of_fmap].
  simpl in *. rewrite (Hids _ _ Hp), (Hids _ _ Hq) in E. congruence.
Qed.

Lemma fork_cut_copies child parent held ids k ps st m :
  parent <> child -> prompt_ids st ->
  (map_to_list m).*2 ≡ₚ prompt_copies ids k child ps ++ (map_to_list (st_prompts st)).*2 ->
  fork_cut parent held (set_prompts m st) = fork_cut parent held st.
Proof.
  intros Hne Hids Hp. unfold fork_cut. f_equal. f_equal. symmetry. apply by_prompt_id_perm.
  - by rewrite (session_prompts_copies child parent ids k ps st m Hne Hp).
  - intros p q [_ H1]%list_elem_of_filter [_ H2]%list_elem_of_filter. by eapply session_prompts_inj.
Qed.

(** A head fork holds no turn in flight. *)
Lemma last_elem {A} (l : list A) x : last l = Some x -> x ∈ l.
Proof. intros [l' ->]%last_Some. set_solver. Qed.

Lemma newest_settled_holds parent st p :
  p ∈ held_prompts parent (newest_settled_prompt_id parent st) st -> prompt_in_flight p = false.
Proof.
  unfold held_prompts, newest_settled_prompt_id.
  destruct (last _) as [q|] eqn:El; simpl; [|by intros ?%not_elem_of_nil].
  apply last_elem in El. unfold by_prompt_id in *. rewrite order_by_perm in El.
  rewrite order_by_perm, list_elem_of_filter. apply list_elem_of_filter in El as [Hs _].
  intros [Hle Hin]. unfold settled_through in Hs. rewrite forallb_forall in Hs.
  specialize (Hs p (proj1 (list_elem_of_In _ _) Hin)). rewrite Hle, andb_true_r in Hs.
  by apply negb_true_iff.
Qed.

(** ** What a fork must keep *)

(** A copy of a prompt: every column but the id and the session. *)
Record prompt_copied (child id : string) (p q : PromptRecord) : Prop := mkPromptCopied {
  pc_id : p_id q = id;
  pc_session : p_session_id q = child;
  pc_created : p_created_at q = p_created_at p;
  pc_updated : p_updated_at q = p_updated_at p;
  pc_status : p_status q = p_status p;
  pc_stop_reason : p_stop_reason q = p_stop_reason p;
  pc_error_code : p_error_code q = p_error_code p;
  pc_error_message : p_error_message q = p_error_message p;
  pc_prompt_json : p_prompt_json q = p_prompt_json p;
  pc_message_id : p_message_id q = p_message_id p;
  pc_acknowledged : p_message_id_acknowledged q = p_message_id_acknowledged p;
  pc_failure_class : p_failure_class q = p_failure_class p;
  pc_failure_detail : p_failure_detail_json q = p_failure_detail_json p;
  pc_agent_message_id : p_agent_message_id q = p_agent_message_id p;
}.

(** A copy of an event: every column but the id, the session and the seq. *)
Record event_copied (child id : string) (seq : Z) (e f : Event) : Prop := mkEventCopied {
  ec_id : e_id f = id;
  ec_session : e_session_id f = Some child;
  ec_seq : e_seq f = Some seq;
  ec_created : e_created_at f = e_created_at e;
  ec_level : e_level f = e_level e;
  ec_kind : e_kind f = e_kind e;
  ec_message : e_message f = e_message e;
  ec_payload : e_payload_json f = e_payload_json e;
  ec_source : e_source f = e_source e;
}.

(** The parent's prompts up to the held one. *)
Definition kept_prompt (parent : string) (held : option string) (st : Store) (p : PromptRecord) : Prop :=
  st_prompts st !! p_id p = Some p /\ p_session_id p = parent
  /\ exists h, held = Some h /\ String.ltb h (p_id p) = false.

(** A prompt of the parent past the held one, and the first of them. *)
Definition later_prompt (parent : string) (held : option string) (st : Store) (p : PromptRecord) : Prop :=
  st_prompts st !! p_id p = Some p /\ p_session_id p = parent
  /\ forall h, held = Some h -> String.ltb h (p_id p) = true.
Definition next_prompt (parent : string) (held : option string) (st : Store) (p : PromptRecord) : Prop :=
  later_prompt parent held st p
  /\ forall q, later_prompt parent held st q -> String.ltb (p_id q) (p_id p) = false.

(** What belongs to the conversation of a session. *)
Definition conversation_kinds : list string :=
  [ "session.update"; "prompt.inference_failed"; "prompt.stalled"; "prompt.stall_resolved"; "prompt.errored";
    "prompt.usage_reported"; "prompt.settled"; "session.cancel_requested"; "terminal.finished";
    "permission.approved"; "permission.denied"; "permission.cancelled"; "permission.expired" ]%string.

(** The parent's conversation events from before its next prompt; announcements of
    its subagents stay with it. *)
Definition kept_event (json_extract : string -> string -> JsonValue) (parent : string) (held : option string)
    (st : Store) (e : Event) : Prop :=
  st_events st !! e_id e = Some e /\ e_session_id e = Some parent
  /\ e_kind e ∈ conversation_kinds
  /\ ~ (e_kind e = "session.update"%string
        /\ json_extract (e_payload_json e) "$.update.sessionUpdate" = JText "subagent_update")
  /\ forall p, next_prompt parent held st p -> String.ltb (e_created_at e) (p_created_at p) = true.

(** ** The code selects exactly these *)

Lemma session_prompts_spec sid st p :
  prompt_ids st -> p ∈ session_prompts sid st <-> st_prompts st !! p_id p = Some p /\ p_session_id p = sid.
Proof.
  intros Hids. unfold session_prompts. rewrite list_elem_of_filter, list_elem_of_fmap. split.
  - intros [Hs ([id q] & -> & Hq%elem_of_map_to_list)]. simpl in *. by rewrite (Hids _ _ Hq).
  - intros [Hp Hs]. split; [done|]. exists (p_id p, p). split; [done|]. by apply elem_of_map_to_list.
Qed.

Lemma session_prompts_nodup sid st : prompt_ids st -> NoDup (session_prompts sid st).
Proof.
  intros Hids. apply NoDup_filter, NoDup_fmap_2_strong; [|apply NoDup_map_to_list].
  intros [i p] [j q] Hp%elem_of_map_to_list Hq%elem_of_map_to_list E. simpl in *. subst.
  by rewrite <- (Hids _ _ Hp), <- (Hids _ _ Hq).
Qed.

Lemma ltb_order a b : String.ltb b a = false <-> String.le a b.
Proof. rewrite ltb_negb_leb, negb_false_iff. unfold String.le. by rewrite Is_true_true. Qed.

(** The order of the rows is the order of their ids. *)
Lemma by_prompt_id_sorted l : StronglySorted (fun p q => String.ltb (p_id q) (p_id p) = false) (by_prompt_id l).
Proof.
  unfold by_prompt_id. induction (order_by_sorted (fun p => (p_id p, ""%string)) l) as [|p ps _ IH Hp]; constructor; [done|].
  eapply Forall_impl; [exact Hp|]. intros q H. apply ltb_order.
  destruct H as [[_ H]|[E _]]; simpl in *; [done|by rewrite E].
Qed.

Lemma held_prompts_spec parent held st p :
  prompt_ids st -> p ∈ held_prompts parent held st <-> kept_prompt parent held st p.
Proof.
  intros Hids. unfold held_prompts, kept_prompt, by_prompt_id, id_le. destruct held as [h|].
  - rewrite order_by_perm, list_elem_of_filter, session_prompts_spec, negb_true_iff by done. naive_solver.
  - split; [by intros ?%not_elem_of_nil|]. naive_solver.
Qed.

Lemma later_spec parent held st p :
  prompt_ids st ->
  p ∈ filter (fun p => past_held held p = true) (session_prompts parent st) <-> later_prompt parent held st p.
Proof.
  intros Hids. rewrite list_elem_of_filter, session_prompts_spec by done. unfold later_prompt, past_held, id_le.
  destruct held as [h|]; [rewrite negb_involutive|]; naive_solver.
Qed.

Lemma fork_cut_spec parent held st c :
  prompt_ids st -> fork_cut parent held st = Some c <-> exists p, next_prompt parent held st p /\ p_created_at p = c.
Proof.
  intros Hids. unfold fork_cut.
  pose proof (by_prompt_id_sorted (filter (fun p => past_held held p = true) (session_prompts parent st))) as Hs.
  assert (forall p, p ∈ by_prompt_id (filter (fun p => past_held held p = true) (session_prompts parent st))
    <-> later_prompt parent held st p) as Hin.
  { intros p. unfold by_prompt_id. by rewrite order_by_perm, later_spec. }
  destruct (by_prompt_id _) as [|x l]; simpl.
  { split; [done|]. intros (p & [Hp _] & _). by apply Hin, not_elem_of_nil in Hp. }
  apply StronglySorted_inv in Hs as [_ Hs]. rewrite Forall_forall in Hs.
  assert (next_prompt parent held st x) as Hx.
  { split; [apply Hin; by left|]. intros q [->|Hq]%Hin%elem_of_cons; [|by apply Hs]. by apply ltb_order. }
  split; [intros [= <-]; by exists x|]. intros (p & [Hp Hfirst] & <-). do 2 f_equal.
  destruct Hp as (Hp & Hsp & Hl). destruct Hx as [(Hx & Hsx & Hlx) Hfx].
  assert (p_id x = p_id p) as E; [|rewrite E in Hx; congruence].
  apply (anti_symm String.le); apply ltb_order; [by apply Hfx|by apply Hfirst].
Qed.

Lemma parent_events_spec json_extract parent held st e :
  log_inv st -> prompt_ids st ->
  e ∈ filter (fun e => inherited e = true) (parent_events json_extract parent (fork_cut parent held st) st)
  <-> kept_event json_extract parent held st e.
Proof.
  intros Hi Hids. unfold parent_events, kept_event, inherited.
  rewrite list_elem_of_filter, merge_sort_Permutation, list_elem_of_filter, elem_of_session_events by done.
  rewrite bool_decide_eq_true, andb_true_iff, negb_true_iff. change FORK_INHERITED_EVENT_KINDS with conversation_kinds.
  assert (is_subagent_update json_extract e = false <-> ~ (e_kind e = "session.update"%string
    /\ json_extract (e_payload_json e) "$.update.sessionUpdate" = JText "subagent_update")) as ->.
  { unfold is_subagent_update, EVENT_KIND_SESSION_UPDATE. rewrite andb_false_iff, bool_decide_eq_false.
    destruct (decide (e_kind e = "session.update"%string)) as [E|]; [|naive_solver].
    destruct (json_extract _ _) as [|k|]; try naive_solver.
    rewrite bool_decide_eq_false. unfold SUBAGENT_UPDATE_KIND. naive_solver. }
  assert (before_cut (fork_cut parent held st) e = true
    <-> forall p, next_prompt parent held st p -> String.ltb (e_created_at e) (p_created_at p) = true) as ->; [|tauto].
  destruct (fork_cut parent held st) as [c|] eqn:Ec; simpl.
  - pose proof (proj1 (fork_cut_spec parent held st c Hids) Ec) as (x & Hx & Hc). split; [|by intros H; rewrite <- Hc; apply H].
    intros Hlt p Hp. assert (fork_cut parent held st = Some (p_created_at p)) as E by (apply fork_cut_spec; eauto). congruence.
  - split; [|done]. intros _ p Hp. assert (fork_cut parent held st = Some (p_created_at p)) as E by (apply fork_cut_spec; eauto). congruence.
Qed.

(** *** Each once, and column by column *)

Lemma held_prompts_nodup parent held st : prompt_ids st -> NoDup (held_prompts parent held st).
Proof.
  intros Hids. unfold held_prompts, by_prompt_id. destruct held; [|constructor].
  rewrite order_by_perm. by apply NoDup_filter, session_prompts_nodup.
Qed.

Lemma kept_events_nodup json_extract parent cut st :
  log_inv st -> NoDup (filter (fun e => inherited e = true) (parent_events json_extract parent cut st)).
Proof.
  intros Hi. apply NoDup_filter. unfold parent_events. rewrite merge_sort_Permutation.
  apply NoDup_filter, NoDup_filter, NoDup_fmap_2_strong; [|apply NoDup_map_to_list].
  intros [i e] [j f] He%elem_of_map_to_list Hf%elem_of_map_to_list E. simpl in *. subst.
  by rewrite <- (lw_id _ Hi _ _ He), <- (lw_id _ Hi _ _ Hf).
Qed.

Lemma prompt_copies_lookup ids child ps i p q :
  ps !! i = Some p -> prompt_copies ids 0 child ps !! i = Some q -> prompt_copied child (ids i) p q.
Proof. intros Hp. unfold prompt_copies. rewrite list_lookup_imap, Hp. by intros [= <-]. Qed.

Lemma event_copies_lookup ids child seq es i e f :
  es !! i = Some e -> event_copies ids 0 child seq es !! i = Some f ->
  event_copied child (ids i) (seq + Z.of_nat i) e f.
Proof. intros He. unfold event_copies. rewrite list_lookup_imap, He. by intros [= <-]. Qed.

Section inherits.
Context (json_valid : string -> bool) (external : bool) (json_extract : string -> string -> JsonValue).

(** The outbox rows of a fork change nothing else. *)
Lemma fork_enqueue_run (sid now : string) (copied : list (string * string * string)) st u st' :
  (if external then
     enqueue "sessions" sid now ;; for_each copied (fun c => enqueue c.1.1 c.1.2 c.2)
   else ret tt) st = Ok (u, st') -> exists o, st' = set_outbox o st.
Proof.
  destruct external; [|intros [= _ <-]; exists (st_outbox st); by destruct st].
  intros (u1 & st1 & H1 & H)%bind_ok. injection H1 as _ <-. revert H.
  generalize (enqueue_row "sessions" sid now (st_outbox st)) as o.
  induction copied as [|c copied IH]; intros o H; simpl in H; [injection H as _ <-; eauto|].
  apply bind_ok in H as (u2 & st2 & H2 & H). injection H2 as _ <-. by eapply IH in H.
Qed.

(** A fork in one equation: the child's row, then rows of the other tables. *)
Lemma fork_run target agent record parent held pids eids now st row seq st' :
  insert_forked_session json_valid external json_extract target agent record parent held pids eids now st
    = Ok ((row, seq), st') ->
  let child := ns_id record in
  let st1 := set_tombstones (delete child (st_tombstones st))
               (set_sessions (<[child := row]> (st_sessions st))
                  (set_counter (st_change_seq st + 1) (st_pruned_through st) st)) in
  s_id row = child /\ st_sessions st !! child = None /\ st_change_seq st < i64_max
  /\ s_change_seq row = st_change_seq st + 1
  /\ exists cp ce m st3 o, copy_prompts json_valid pids 0 child (held_prompts parent held st) st1
                         = Ok (cp, set_prompts m st1)
     /\ copy_events json_valid eids 0 child (session_event_head child (st_events st) + 1)
          (parent_events json_extract parent (fork_cut parent held (set_prompts m st1)) st)
          (set_prompts m st1) = Ok (ce, st3)
     /\ seq = returned_event_seq (session_event_head child (st_events st) + 1) (length ce)
     /\ st' = set_outbox o st3.
Proof.
  intros H child st1. unfold insert_forked_session in H.
  destruct (negb _); [done|]. apply bind_ok in H as (cseq & st2 & H1 & H).
  apply next_change_seq_run in H1 as (Hlt & -> & ->).
  apply bind_ok in H as (u & st3 & H2 & H). apply insert_session_row_run in H2 as [Hn ->].
  apply bind_ok in H as (ps & st4 & H3 & H). injection H3 as <- <-.
  apply bind_ok in H as (cp & st5 & H4 & H). pose proof H4 as [(m & -> & _) _]%copy_prompts_run.
  apply bind_ok in H as (cut & st6 & H5 & H). injection H5 as <- <-.
  apply bind_ok in H as (es & st7 & H6 & H). injection H6 as <- <-.
  apply bind_ok in H as (rseq & st8 & H7 & H). injection H7 as <- <-.
  unfold next_session_event_seq in H. simpl in H. fold child in H.
  destruct (i64_max <=? session_event_head child (st_events st)); [done|].
  apply bind_ok in H as (ce & st9 & H8 & H).
  apply bind_ok in H as (u9 & st10 & H9 & H). apply fork_enqueue_run in H9 as [o ->]. injection H as <- <- <-.
  split; [done|]. split; [done|]. split; [done|]. split; [done|].
  exists cp, ce, m, st9, o. by auto.
Qed.

Lemma fork_returned_seq sid ids k kept m m' n :
  log_wf m -> log_wf m' ->
  session_events sid m'
    ≡ₚ (if bool_decide (sid = sid) then event_copies ids k sid (session_event_head sid m + 1) kept else [])
      ++ session_events sid m ->
  n = length kept ->
  returned_event_seq (session_event_head sid m + 1) n
  = (if decide (kept = []) then 0 else session_event_head sid m').
Proof.
  rewrite bool_decide_eq_true_2 by done. intros Hm Hm' Hp ->.
  apply Permutation_length in Hp. rewrite length_app in Hp. unfold event_copies in Hp. rewrite length_imap in Hp.
  rewrite !session_event_head_length by done. destruct kept; simpl in *; [done|]. lia.
Qed.

(** The tables after a fork, in terms of the copies. *)
Lemma fork_copies target agent record parent held pids eids now st row seq st' :
  insert_forked_session json_valid external json_extract target agent record parent held pids eids now st
    = Ok ((row, seq), st') ->
  log_inv st -> prompt_ids st -> is_Some (st_sessions st !! parent) ->
  let child := ns_id record in
  let kept := filter (fun e => inherited e = true)
                (parent_events json_extract parent (fork_cut parent held st) st) in
  let start := session_event_head child (st_events st) + 1 in
  st_sessions st' = <[child := row]> (st_sessions st)
  /\ (map_to_list (st_prompts st')).*2
     ≡ₚ prompt_copies pids 0 child (held_prompts parent held st) ++ (map_to_list (st_prompts st)).*2
  /\ (forall sid, session_events sid (st_events st')
      ≡ₚ (if bool_decide (sid = child) then event_copies eids 0 child start kept else [])
        ++ session_events sid (st_events st))
  /\ (forall id p, st_prompts st !! id = Some p -> st_prompts st' !! id = Some p)
  /\ (forall id e, st_events st !! id = Some e -> st_events st' !! id = Some e)
  /\ log_inv st' /\ seq = (if decide (kept = []) then 0 else session_event_head child (st_events st'))
  /\ (held = newest_settled_prompt_id parent st ->
      Forall (fun p => prompt_in_flight p = false) (held_prompts parent held st)).
Proof.
  intros H Hi Hids Hpar child kept start.
  apply fork_run in H as (_ & Hn & _ & _ & cp & ce & m & st3 & o & Hcp & Hce & -> & ->). fold child in Hn, Hcp, Hce.
  assert (parent <> child) as Hne by (intros ->; destruct Hpar; congruence).
  apply copy_prompts_run in Hcp as [(m' & E & Hm) Hp]. injection E as <-.
  apply copy_events_run in Hce as (Hi3 & Hl & (me & ->) & Hk & Hev); [|done|done].
  rewrite (fork_cut_copies child parent held pids 0 (held_prompts parent held st) _ m Hne) in Hev, Hl
    by first [exact Hids|exact Hp].
  split; [done|]. split; [exact Hp|]. split; [exact Hev|]. split; [exact Hm|]. split; [exact Hk|].
  split; [exact Hi3|]. split; [exact (fork_returned_seq _ _ _ _ _ _ _ Hi Hi3 (Hev child) Hl)|]. intros ->. apply Forall_forall. intros p. apply newest_settled_holds.
Qed.

(** C39. A fork child carries exactly the kept conversation. The kept prompts are
    the parent's with an id up to the held one; the kept events are the parent's
    events of the thirteen conversation kinds, less the announcements of its
    subagents, logged before its next prompt was submitted, or all of them when there
    is none. Each is copied once, the prompts in the order of their ids and the events
    in the order of their log, numbered on from the child's own; a copy has a new id,
    the child as its session (and its own seq) and every other column as it was.
    Besides these copies and the child's row, the fork leaves all prompts, all
    sessions and every session's log as they were; the returned record carries the seq
    the child's log ends at, 0 when no event was copied; and a head fork keeps no turn
    that is still in flight. *)
Theorem fork_inherits target agent record parent held pids eids now st row seq st' :
  insert_forked_session json_valid external json_extract target agent record parent held pids eids now st
    = Ok ((row, seq), st') ->
  log_inv st -> prompt_ids st -> is_Some (st_sessions st !! parent) ->
  let child := ns_id record in
  let start := session_event_head child (st_events st) + 1 in
  exists ps qs es fs,
    (forall p, p ∈ ps <-> kept_prompt parent held st p) /\ NoDup ps
    /\ StronglySorted (fun p q => String.ltb (p_id q) (p_id p) = false) ps
    /\ (forall e, e ∈ es <-> kept_event json_extract parent held st e) /\ NoDup es
    /\ StronglySorted (fun e f => default 0 (e_seq e) <= default 0 (e_seq f)) es
    /\ length qs = length ps /\ length fs = length es
    /\ (forall i p q, ps !! i = Some p -> qs !! i = Some q -> prompt_copied child (pids i) p q)
    /\ (forall i e f, es !! i = Some e -> fs !! i = Some f -> event_copied child (eids i) (start + Z.of_nat i) e f)
    /\ st_sessions st' = <[child := row]> (st_sessions st)
    /\ (map_to_list (st_prompts st')).*2 ≡ₚ qs ++ (map_to_list (st_prompts st)).*2
    /\ (forall sid, session_events sid (st_events st')
        ≡ₚ (if decide (sid = child) then fs else []) ++ session_events sid (st_events st))
    /\ (forall id p, st_prompts st !! id = Some p -> st_prompts st' !! id = Some p)
    /\ (forall id e, st_events st !! id = Some e -> st_events st' !! id = Some e)
    /\ log_inv st' /\ seq = (if decide (es = []) then 0 else session_event_head child (st_events st'))
    /\ (held = newest_settled_prompt_id parent st -> Forall (fun p => prompt_in_flight p = false) ps).
Proof.
  intros H Hi Hids Hpar child start.
  apply fork_copies in H as (H1 & H2 & H3 & H4 & H5 & H6 & H7 & H8); [|done..].
  exists (held_prompts parent held st), (prompt_copies pids 0 child (held_prompts parent held st)).
  set (es := filter (fun e => inherited e = true) (parent_events json_extract parent (fork_cut parent held st) st)) in *.
  exists es, (event_copies eids 0 child start es).
  split; [intros p; by apply held_prompts_spec|]. split; [by apply held_prompts_nodup|].
  split; [destruct held; [apply by_prompt_id_sorted|constructor]|].
  split; [intros e; by apply parent_events_spec|]. split; [by apply kept_events_nodup|].
  split; [apply StronglySorted_filter, StronglySorted_merge_sort; apply _|].
  split; [apply length_imap|]. split; [apply length_imap|].
  split; [intros i p q Hp Hq; by eapply prompt_copies_lookup|].
  split; [intros i e f He Hf; by eapply event_copies_lookup|].
  split_and!; try done. intros sid. rewrite H3. destruct (decide (sid = child)) as [E|E]; [rewrite bool_decide_eq_true_2 by exact E|rewrite bool_decide_eq_false_2 by exact E]; done.
Qed.

(** ** Forks in a history *)

Lemma fork_log target agent record parent held pids eids now :
  preserves log_inv
    (insert_forked_session json_valid external json_extract target agent record parent held pids eids now).
Proof.
  intros st [row seq] st' Hi (_ & _ & _ & _ & cp & ce & m & st3 & o & _ & Hce & _ & ->)%fork_run.
  by apply copy_events_run in Hce as (Hi3 & _); [|done|].
Qed.

Lemma fork_feed target agent record parent held pids eids now :
  feed_ok (insert_forked_session json_valid external json_extract target agent record parent held pids eids now).
Proof.
  intros st [row seq] st' Hi (Hid & Hn & Hlt & Hseq & cp & ce & m & st3 & o & _ & Hce & _ & ->)%fork_run.
  destruct (insert_live_step st (ns_id record) row Hi Hlt Hseq) as [Hi1 Hs1].
  set (st1 := set_tombstones _ _) in *.
  assert (feed_same_stores st1 (set_outbox o st3)) as Hsame.
  { apply copy_events_frame in Hce as [me ->]. done. }
  destruct (feed_same_step st1 (set_outbox o st3) Hsame Hi1) as [Hi2 Hs2].
  split; [done|]. by apply (feed_step_trans st st1).
Qed.
End inherits.

(** ** A small fork: one settled turn is kept, the running one stays *)

Definition fork_json (_ : string) : bool := true.
Definition fork_session (id : string) : M SessionRow :=
  insert_session_for_target fork_json true "t" id (mkNewSession id "agent" "/w" None "{}") "t0".
Definition fork_prompt (id now : string) : M PromptRecord :=
  insert_prompt_with_message_id fork_json true (mkNewPrompt id "a" "{}") None now.
Definition fork_update (id now : string) : M Event :=
  append_session_event_with_source fork_json true "a" "info" EVENT_KIND_SESSION_UPDATE "acp" "m" "{}" id now.
Definition fork_settle : M PromptSettle :=
  settle_prompt true "p1" (mkSettlement PCompleted (Some "end_turn"%string) None None None None) false "t2".
Definition fork_parent : Store :=
  exec (fork_update "e2" "t5") (exec (fork_prompt "p2" "t4") (exec fork_settle
    (exec (fork_update "e1" "t2") (exec (fork_prompt "p1" "t1") (exec (fork_session "a") empty_store))))).
Definition fork_demo : M (SessionRow * Z) :=
  insert_forked_session fork_json true (fun _ _ => JNull) "t" "b" (mkNewSession "b" "agent" "/w" None "{}") "a"
    (newest_settled_prompt_id "a" fork_parent) (fun _ => "p3"%string) (fun _ => "e3"%string) "t6".

Lemma fork_inherits_witness :
  exists st', (exists row seq, fork_demo fork_parent = Ok ((row, seq), st'))
  /\ map e_id (session_events "b" (st_events st')) = ["e3"%string]
  /\ forall p, kept_prompt "a" (newest_settled_prompt_id "a" fork_parent) fork_parent p -> prompt_in_flight p = false.
Proof.
  destruct (exec_ok fork_demo fork_parent ltac:(vm_compute; reflexivity)) as [[row seq] H].
  exists (exec fork_demo fork_parent). split; [by exists row, seq|].
  assert (log_inv fork_parent) as Hi.
  { split.
    - apply (bool_decide_unpack (map_Forall (fun id e => e_id e = id) (st_events fork_parent))).
      vm_compute. exact I.
    - apply (bool_decide_unpack (map_Forall (fun _ e => is_Some (e_session_id e) <-> is_Some (e_seq e))
        (st_events fork_parent))). vm_compute. exact I.
    - intros sid. destruct (decide (sid = "a"%string)) as [->|Hne].
      + vm_compute. apply Permutation_refl.
      + unfold session_events. rewrite filter_none; [done|]. intros e He.
        assert (e_session_id e = Some "a"%string) as E.
        { apply (proj1 (Forall_forall (fun e => e_session_id e = Some "a"%string) (map_to_list (st_events fork_parent)).*2));
            [|exact He]. vm_compute. repeat constructor. }
        unfold in_session. rewrite bool_decide_eq_true, E. congruence. }
  assert (prompt_ids fork_parent) as Hp.
  { apply (bool_decide_unpack (map_Forall (fun id p => p_id p = id) (st_prompts fork_parent))).
    vm_compute. exact I. }
  destruct (fork_inherits fork_json true (fun _ _ => JNull) _ _ _ _ _ _ _ _ fork_parent row seq _ H Hi Hp
    ltac:(apply (bool_decide_unpack _); vm_compute; exact I))
    as (ps & qs & es & fs & Hps & _ & _ & _ & _ & _ & _ & _ & _ & _ & _ & _ & _ & _ & _ & _ & _ & Hfl).
  split; [vm_compute; reflexivity|]. specialize (Hfl eq_refl). rewrite Forall_forall in Hfl.
  intros p Hkept. apply Hfl, Hps. exact Hkept.
Defined.
