(* ===== verification/LogFilter.v ===== *)
(** Log filters: the live-stream filter (src/src/state/records.rs,
    [LogFilter::matches]), the SQL predicates the durable queries build
    (src/src/state/rows.rs, [push_event_predicates]), the queries over the global
    event log (src/src/state/events.rs) and the security categories
    (src/src/state/security_category.rs). *)

From S2P Require Import Prelude Store Keyset SessionEvents PromptStore.
From Stdlib Require Import Ascii.
Open Scope Z_scope.

(** ** Security categories *)

Module Category.
Definition CATEGORY_RATE_LIMIT : string := "rate_limit".
Definition CATEGORY_ORIGIN_CORS : string := "origin_cors".
Definition CATEGORY_IP_BLOCK : string := "ip_block".
Definition CATEGORY_OVERSIZED_REQUEST : string := "oversized_request".
Definition KINDS_RATE_LIMIT : list string := ["security.rate_limited"%string].
Definition KINDS_ORIGIN_CORS : list string :=
  ["security.cors_origin_denied"; "security.ws_origin_denied"]%string.
Definition KINDS_IP_BLOCK : list string :=
  ["security.ip_block_active"; "security.ip_block_applied"]%string.
Definition KINDS_OVERSIZED_REQUEST : list string := ["security.request_oversized"%string].

Inductive SecurityCategory := RateLimit | OriginCors | IpBlock | OversizedRequest.

Definition as_str (c : SecurityCategory) : string :=
  match c with
  | RateLimit => CATEGORY_RATE_LIMIT
  | OriginCors => CATEGORY_ORIGIN_CORS
  | IpBlock => CATEGORY_IP_BLOCK
  | OversizedRequest => CATEGORY_OVERSIZED_REQUEST
  end.

Definition kinds (c : SecurityCategory) : list string :=
  match c with
  | RateLimit => KINDS_RATE_LIMIT
  | OriginCors => KINDS_ORIGIN_CORS
  | IpBlock => KINDS_IP_BLOCK
  | OversizedRequest => KINDS_OVERSIZED_REQUEST
  end.

(** [None] is the [InvalidParam] error. *)
Definition from_str (value : string) : option SecurityCategory :=
  if bool_decide (value = CATEGORY_RATE_LIMIT) then Some RateLimit
  else if bool_decide (value = CATEGORY_ORIGIN_CORS) then Some OriginCors
  else if bool_decide (value = CATEGORY_IP_BLOCK) then Some IpBlock
  else if bool_decide (value = CATEGORY_OVERSIZED_REQUEST) then Some OversizedRequest
  else None.
End Category.
Export Category.

(** ** The filter *)

Record LogFilter := mkLogFilter {
  lf_limit : nat;
  lf_after_id : option string;
  lf_since : option string;
  lf_until : option string;
  lf_level : option string;
  lf_kind : option string;
  lf_kind_prefix : option string;
  lf_source : option string;
  lf_session_id : option string;
  lf_command_id : option string;
  lf_permission_id : option string;
  lf_security_category : option SecurityCategory;
  lf_order : LogOrder;
}.

Definition with_limit (limit : nat) : LogFilter :=
  mkLogFilter limit None None None None None None None None None None None Desc.

Definition with_kind_prefix (p : option string) (f : LogFilter) : LogFilter :=
  mkLogFilter (lf_limit f) (lf_after_id f) (lf_since f) (lf_until f) (lf_level f) (lf_kind f) p
    (lf_source f) (lf_session_id f) (lf_command_id f) (lf_permission_id f) (lf_security_category f)
    (lf_order f).

Definition with_after_id (a : option string) (f : LogFilter) : LogFilter :=
  mkLogFilter (lf_limit f) a (lf_since f) (lf_until f) (lf_level f) (lf_kind f) (lf_kind_prefix f)
    (lf_source f) (lf_session_id f) (lf_command_id f) (lf_permission_id f) (lf_security_category f)
    (lf_order f).

(** [if let Some(x) = field && !test x { return false }]: an absent field does
    not constrain. *)
Definition field_allows {A} (field : option A) (test : A -> bool) : bool :=
  match field with Some x => test x | None => true end.

(** ** The live filter *)

Section live.
(** [serde_json::from_str(payload).ok()], then [get(field)], then [as_str()]. *)
Context (payload_string : string -> string -> option string).

Definition extract_is (e : Event) (field value : string) : bool :=
  bool_decide (payload_string (e_payload_json e) field = Some value).

Definition permission_payload_matches (e : Event) (permission_id : string) : bool :=
  if extract_is e "permission_id" permission_id then true
  else
    let permission_shaped :=
      String.prefix "permission." (e_kind e) || String.prefix "permissions." (e_kind e)
      || bool_decide (e_source e = "permission"%string) in
    if negb permission_shaped then false
    else extract_is e "id" permission_id.

Definition matches (f : LogFilter) (e : Event) : bool :=
  field_allows (lf_level f) (fun level => bool_decide (e_level e = level))
  && field_allows (lf_kind f) (fun kind => bool_decide (e_kind e = kind))
  && field_allows (lf_kind_prefix f) (fun prefix => String.prefix prefix (e_kind e))
  && field_allows (lf_source f) (fun source => bool_decide (e_source e = source))
  && field_allows (lf_since f) (fun since => negb (String.ltb (e_created_at e) since))
  && field_allows (lf_until f) (fun until => String.ltb (e_created_at e) until)
  && field_allows (lf_security_category f) (fun c => existsb (fun k => bool_decide (k = e_kind e)) (kinds c))
  && field_allows (lf_session_id f) (fun session_id =>
       bool_decide (e_session_id e = Some session_id) || extract_is e "session_id" session_id)
  && field_allows (lf_command_id f) (fun command_id => extract_is e "command_id" command_id)
  && field_allows (lf_permission_id f) (permission_payload_matches e).
End live.

(** ** SQL's [LIKE]: [%] is any run, [_] one character, letters compare without
    ASCII case *)

Definition ascii_fold (c : ascii) : ascii :=
  let n := N_of_ascii c in
  if ((65 <=? n) && (n <=? 90))%N then ascii_of_N (n + 32) else c.

Definition is_continuation (c : ascii) : bool :=
  let n := N_of_ascii c in ((128 <=? n) && (n <? 192))%N.

(** The bytes after one UTF-8 character. *)
Fixpoint skip_continuation (s : string) : string :=
  match s with
  | String c rest => if is_continuation c then skip_continuation rest else s
  | EmptyString => EmptyString
  end.

Definition skip_char (s : string) : option string :=
  match s with
  | EmptyString => None
  | String c rest => Some (if (192 <=? N_of_ascii c)%N then skip_continuation rest else rest)
  end.

(** Some suffix of the text satisfies the test. *)
Fixpoint any_suffix (test : string -> bool) (s : string) : bool :=
  test s || match s with EmptyString => false | String _ rest => any_suffix test rest end.

Definition percent : ascii := "%"%char.
Definition underscore : ascii := "_"%char.

Fixpoint sql_like (pattern text : string) : bool :=
  match pattern with
  | EmptyString => bool_decide (text = EmptyString)
  | String p rest =>
      if bool_decide (p = percent) then any_suffix (sql_like rest) text
      else if bool_decide (p = underscore) then
        match skip_char text with Some text' => sql_like rest text' | None => false end
      else
        match text with
        | EmptyString => false
        | String c text' => bool_decide (ascii_fold p = ascii_fold c) && sql_like rest text'
        end
  end.

(** ** The SQL predicates *)

Section durable.
Context (json_extract : string -> string -> JsonValue).

(** [json_extract(payload_json, path) = ?]: text equals text only, and a
    comparison with NULL is not true. *)
Definition json_is (e : Event) (path value : string) : bool :=
  match json_extract (e_payload_json e) path with
  | JText v => bool_decide (v = value)
  | JNull | JOther => false
  end.

Definition event_key (e : Event) : string * string := (e_created_at e, e_id e).

(** The row-value comparison with the cursor row; an unknown cursor is NULL and
    passes no row. *)
Definition cursor_allows (events : gmap string Event) (f : LogFilter) (e : Event) : bool :=
  field_allows (lf_after_id f) (fun after =>
    match events !! after with
    | None => false
    | Some c => past event_key (lf_order f) c e
    end).

Definition push_event_predicates (events : gmap string Event) (f : LogFilter) (e : Event) : bool :=
  field_allows (lf_level f) (fun level => bool_decide (e_level e = level))
  && field_allows (lf_kind f) (fun kind => bool_decide (e_kind e = kind))
  && field_allows (lf_kind_prefix f) (fun prefix => sql_like (prefix ++ "%") (e_kind e))
  && field_allows (lf_source f) (fun source => bool_decide (e_source e = source))
  && field_allows (lf_session_id f) (fun session_id => bool_decide (e_session_id e = Some session_id))
  && field_allows (lf_command_id f) (fun command_id => json_is e "$.command_id" command_id)
  && field_allows (lf_permission_id f) (fun permission_id =>
       json_is e "$.permission_id" permission_id
       || json_is e "$.id" permission_id
          && (sql_like "permission.%" (e_kind e) || sql_like "permissions.%" (e_kind e)
              || bool_decide (e_source e = "permission"%string)))
  && field_allows (lf_security_category f) (fun c => bool_decide (e_kind e ∈ kinds c))
  && field_allows (lf_since f) (fun since => negb (String.ltb (e_created_at e) since))
  && field_allows (lf_until f) (fun until => String.ltb (e_created_at e) until)
  && cursor_allows events f e.

(** ** The queries *)

(** [SELECT .. WHERE scope AND predicates ORDER BY created_at, id LIMIT ?]. *)
Definition scoped_query (scope : Event -> bool) (f : LogFilter) (st : Store) : list Event :=
  take (lf_limit f)
    (direction event_key (lf_order f)
       (filter (fun e => scope e && push_event_predicates (st_events st) f e = true)
          (map_to_list (st_events st)).*2)).

Definition query_events (f : LogFilter) (st : Store) : list Event := scoped_query (fun _ => true) f st.

Definition permission_scope (e : Event) : bool :=
  sql_like "permission.%" (e_kind e) || sql_like "permissions.%" (e_kind e).

(** The default prefix is dropped again before the predicates are built, and so
    is an explicit prefix of the same text. *)
Definition query_permission_events (f : LogFilter) (st : Store) : list Event :=
  let kind_prefix := match lf_kind_prefix f with Some p => Some p | None => Some "permission."%string end in
  let filter_for_pushers :=
    if bool_decide (kind_prefix = Some "permission."%string)
    then with_kind_prefix None f else with_kind_prefix kind_prefix f in
  scoped_query permission_scope filter_for_pushers st.

Definition query_security_events (f : LogFilter) (st : Store) : list Event :=
  scoped_query (fun e => sql_like "security.%" (e_kind e)) f st.

(** [SELECT MAX(created_at)]. *)
Definition latest_event_timestamp (st : Store) : option string :=
  e_created_at <$> last (order_by (fun e => (e_created_at e, ""%string)) (map_to_list (st_events st)).*2).
End durable.

(** ** [LIKE] on literal prefixes *)

Fixpoint all_chars (test : ascii -> bool) (s : string) : bool :=
  match s with EmptyString => true | String c rest => test c && all_chars test rest end.

(** No wildcard. *)
Definition literal_pattern : string -> bool :=
  all_chars (fun c => negb (bool_decide (c = percent)) && negb (bool_decide (c = underscore))).

(** No ASCII capital. *)
Definition folded : string -> bool := all_chars (fun c => bool_decide (ascii_fold c = c)).

Lemma any_suffix_app test a s : test s = true -> any_suffix test (a ++ s) = true.
Proof.
  intros H. induction a as [|c a IH]; simpl; [destruct s; simpl; by rewrite H|].
  by rewrite IH, orb_true_r.
Qed.

Lemma string_app_nil_r (s : string) : (s ++ "")%string = s.
Proof.
  induction s as [|c s IH]; [done|]. change (String c s ++ "")%string with (String c (s ++ "")). by rewrite IH.
Qed.

Lemma like_percent s : sql_like "%" s = true.
Proof. cbn [sql_like]. rewrite <- (string_app_nil_r s). by apply any_suffix_app. Qed.

(** A text that starts with the prefix matches its pattern, wildcards included. *)
Lemma prefix_like p s : String.prefix p s = true -> sql_like (p ++ "%") s = true.
Proof.
  revert s. induction p as [|a p IH]; intros s H; [apply like_percent|].
  destruct s as [|c s]; [done|]. simpl in H. destruct (ascii_dec a c) as [<-|]; [|done].
  change (String a p ++ "%")%string with (String a (p ++ "%")). cbn [sql_like].
  case_bool_decide as E1; [|case_bool_decide as E2].
  - apply (any_suffix_app _ (String a "")). by apply IH.
  - subst a. by apply IH.
  - rewrite bool_decide_eq_true_2 by done. by apply IH.
Qed.

(** Without wildcards and capitals the pattern matches nothing else. *)
Lemma like_prefix p s :
  literal_pattern p = true -> folded p = true -> folded s = true ->
  sql_like (p ++ "%") s = String.prefix p s.
Proof.
  intros Hl Hp Hs. apply eq_true_iff_eq. split; [|apply prefix_like].
  revert s Hs. induction p as [|a p IH]; intros s Hs H; [by destruct s|].
  change (String a p ++ "%")%string with (String a (p ++ "%")) in H.
  unfold literal_pattern, folded in *. simpl in Hl, Hp.
  apply andb_prop in Hl as [[Ha1 Ha2]%andb_prop Hl]. apply andb_prop in Hp as [Ha Hp].
  cbn [sql_like] in H. rewrite (proj1 (negb_true_iff _) Ha1), (proj1 (negb_true_iff _) Ha2) in H.
  destruct s as [|c s]; [done|]. simpl in Hs. apply andb_prop in Hs as [Hc Hs].
  apply andb_prop in H as [E H]. apply bool_decide_eq_true in E, Ha, Hc.
  simpl. destruct (ascii_dec a c) as [_|Hn]; [by apply IH|congruence].
Qed.

(** ** The live filter and the query *)

Section twin.
Context (payload_string : string -> string -> option string).
Context (json_extract : string -> string -> JsonValue).

(** The two JSON libraries read the same text at the paths the filters probe. *)
Definition payload_agrees (e : Event) : Prop :=
  forall field v, field ∈ ["command_id"; "permission_id"; "id"]%string ->
    payload_string (e_payload_json e) field = Some v
    <-> json_extract (e_payload_json e) ("$." ++ field) = JText v.

(** A payload that names a session names the one in the column. *)
Definition payload_session_typed (e : Event) : Prop :=
  forall s, payload_string (e_payload_json e) "session_id" = Some s -> e_session_id e = Some s.

Definition plain_prefix (f : LogFilter) : Prop :=
  field_allows (lf_kind_prefix f) (fun p => literal_pattern p && folded p) = true.

Lemma field_allows_impl {A} (field : option A) (t1 t2 : A -> bool) :
  (forall x, field = Some x -> t1 x = true -> t2 x = true) ->
  field_allows field t1 = true -> field_allows field t2 = true.
Proof. destruct field; simpl; naive_solver. Qed.

Lemma json_is_extract e field v :
  payload_agrees e -> field ∈ ["command_id"; "permission_id"; "id"]%string ->
  json_is json_extract e ("$." ++ field) v = extract_is payload_string e field v.
Proof.
  intros H Hf. specialize (H field v Hf). unfold json_is, extract_is. apply eq_true_iff_eq.
  rewrite bool_decide_eq_true, H. destruct (json_extract _ _) as [|t|]; [done| |done].
  rewrite bool_decide_eq_true. naive_solver.
Qed.

Lemma permission_matches_or e pid :
  permission_payload_matches payload_string e pid
  = extract_is payload_string e "permission_id" pid
    || extract_is payload_string e "id" pid
       && (String.prefix "permission." (e_kind e) || String.prefix "permissions." (e_kind e)
           || bool_decide (e_source e = "permission"%string)).
Proof.
  unfold permission_payload_matches. destruct (extract_is _ e "permission_id" pid); [done|].
  destruct (_ || _); simpl; [by rewrite andb_true_r|by rewrite andb_false_r].
Qed.

Lemma existsb_kinds e c :
  existsb (fun k => bool_decide (k = e_kind e)) (kinds c) = bool_decide (e_kind e ∈ kinds c).
Proof.
  apply eq_true_iff_eq. rewrite bool_decide_eq_true, existsb_exists. setoid_rewrite bool_decide_eq_true.
  setoid_rewrite <- list_elem_of_In. naive_solver.
Qed.

(** The fields both sides test alike. *)
Lemma twin_permission e pid :
  payload_agrees e -> permission_payload_matches payload_string e pid = true ->
  json_is json_extract e "$.permission_id" pid
  || json_is json_extract e "$.id" pid
     && (sql_like "permission.%" (e_kind e) || sql_like "permissions.%" (e_kind e)
         || bool_decide (e_source e = "permission"%string)) = true.
Proof.
  intros Ha. rewrite permission_matches_or.
  rewrite (json_is_extract e "permission_id"), (json_is_extract e "id") by (done || set_solver).
  destruct (extract_is _ e "permission_id" pid), (extract_is _ e "id" pid); simpl; try done.
  rewrite !orb_true_iff. intros [[H|H]|H]; [left; left|left; right|by right];
    [apply (prefix_like "permission.")|apply (prefix_like "permissions.")]; done.
Qed.

Lemma twin_permission_back e pid :
  payload_agrees e -> folded (e_kind e) = true ->
  json_is json_extract e "$.permission_id" pid
  || json_is json_extract e "$.id" pid
     && (sql_like "permission.%" (e_kind e) || sql_like "permissions.%" (e_kind e)
         || bool_decide (e_source e = "permission"%string)) = true ->
  permission_payload_matches payload_string e pid = true.
Proof.
  intros Ha Hk. rewrite permission_matches_or.
  rewrite (json_is_extract e "permission_id"), (json_is_extract e "id") by (done || set_solver).
  pose proof (like_prefix "permission." (e_kind e) eq_refl eq_refl Hk : sql_like "permission.%" _ = _) as E1.
  pose proof (like_prefix "permissions." (e_kind e) eq_refl eq_refl Hk : sql_like "permissions.%" _ = _) as E2.
  by rewrite E1, E2.
Qed.

(** The live-stream filter passes only events the durable query would
    return: [LogFilter::matches] implies the SQL predicates of the same filter,
    whatever wildcards or capitals its kind prefix has, on events whose payload
    does not name a session other than the typed column's. On a prefix without
    wildcards and capitals and kinds without capitals the two agree. *)
Theorem live_filter_twin f e events :
  payload_agrees e -> payload_session_typed e ->
  let durable := push_event_predicates json_extract events (with_after_id None f) e in
  (matches payload_string f e = true -> durable = true)
  /\ (plain_prefix f -> folded (e_kind e) = true -> durable = matches payload_string f e).
Proof.
  intros Ha Hs durable. assert (matches payload_string f e = true -> durable = true) as Hfwd.
  - unfold matches, durable, push_event_predicates, cursor_allows. simpl. rewrite !andb_true_iff.
    intros (((((((((H1 & H2) & H3) & H4) & H5) & H6) & H7) & H8) & H9) & H10). split_and!; try done.
    + revert H3. apply field_allows_impl. intros p _. apply prefix_like.
    + revert H8. apply field_allows_impl. intros s _. rewrite orb_true_iff, !bool_decide_eq_true.
      unfold extract_is. rewrite bool_decide_eq_true. intros [H|H]; [done|by apply Hs].
    + revert H9. apply field_allows_impl. intros c _.
      by rewrite (json_is_extract e "command_id") by (done || set_solver).
    + revert H10. apply field_allows_impl. intros pid _. by apply twin_permission.
    + revert H7. apply field_allows_impl. intros c _. by rewrite existsb_kinds.
  - split; [exact Hfwd|]. intros Hp Hk. apply eq_true_iff_eq. split; [|exact Hfwd].
    unfold matches, durable, push_event_predicates, cursor_allows. simpl. rewrite !andb_true_iff.
    intros ((((((((((H1 & H2) & H3) & H4) & H5) & H6) & H7) & H8) & H9) & H10) & _). split_and!; try done.
    + revert H3. apply field_allows_impl. intros p Ep. unfold plain_prefix in Hp. rewrite Ep in Hp.
      apply andb_prop in Hp as [Hl Hf]. by rewrite like_prefix.
    + revert H8. apply field_allows_impl. intros c _. by rewrite existsb_kinds.
    + revert H5. apply field_allows_impl. intros s _ H. by rewrite H.
    + revert H6. apply field_allows_impl. intros c _.
      by rewrite (json_is_extract e "command_id") by (done || set_solver).
    + revert H7. apply field_allows_impl. intros pid _. by apply twin_permission_back.
Qed.
End twin.

(** ** Paging *)

Definition with_page (limit : nat) (after : option string) (f : LogFilter) : LogFilter :=
  mkLogFilter limit after (lf_since f) (lf_until f) (lf_level f) (lf_kind f) (lf_kind_prefix f)
    (lf_source f) (lf_session_id f) (lf_command_id f) (lf_permission_id f) (lf_security_category f)
    (lf_order f).

Section paging.
Context (json_extract : string -> string -> JsonValue) (scope : Event -> bool) (f : LogFilter) (st : Store).
Context (Hids : map_Forall (fun id e => e_id e = id) (st_events st)).

(** The rows of a query without a cursor and without its limit. *)
Definition all_rows : list Event :=
  direction event_key (lf_order f)
    (filter (fun e => scope e && push_event_predicates json_extract (st_events st) (with_after_id None f) e = true)
       (map_to_list (st_events st)).*2).

(** A query that carries a cursor keeps the rows of the cursorless query past it. *)
Lemma cursor_filter limit after :
  filter (fun e => scope e && push_event_predicates json_extract (st_events st) (with_page limit after f) e = true)
    (map_to_list (st_events st)).*2
  = filter (fun e => cursor_allows (st_events st) (with_page limit after f) e = true)
      (filter (fun e => scope e && push_event_predicates json_extract (st_events st) (with_after_id None f) e = true)
         (map_to_list (st_events st)).*2).
Proof.
  rewrite list_filter_filter. apply list_filter_iff. intros e.
  unfold push_event_predicates, cursor_allows. simpl. rewrite !andb_true_iff. tauto.
Qed.

Lemma resume_rows limit k c :
  all_rows !! k = Some c ->
  scoped_query json_extract scope (with_page limit (Some (e_id c)) f) st = take limit (drop (S k) all_rows).
Proof.
  intros Hk. unfold scoped_query. rewrite cursor_filter. cbn [lf_limit lf_order with_page]. f_equal.
  assert (st_events st !! e_id c = Some c) as Hc.
  { apply list_elem_of_lookup_2 in Hk. unfold all_rows in Hk. rewrite elem_of_direction in Hk.
    apply list_elem_of_filter in Hk as [_ ([id e] & -> & H%elem_of_map_to_list)%list_elem_of_fmap].
    simpl. by rewrite (Hids _ _ H). }
  unfold all_rows in *. rewrite <- (direction_past event_key _ _ _ _ (distinct_filter event_key _ _ (rows_distinct event_key _ Hids)) Hk).
  f_equal. unfold cursor_allows. simpl. by rewrite Hc.
Qed.
End paging.

(** Paging through the log by cursor loses and repeats nothing. For the
    plain, the permission and the security query alike: the first page is the
    start of the ordered matching rows, a page after the row at position [k]
    starts at position [k+1], in both directions and among rows of equal
    timestamp, so consecutive pages concatenate to the whole result; an unknown
    cursor gives an empty page. *)
Theorem log_pages_resume json_extract scope f st limit :
  map_Forall (fun id e => e_id e = id) (st_events st) ->
  let all := all_rows json_extract scope f st in
  let page after := scoped_query json_extract scope (with_page limit after f) st in
  (forall e, e ∈ all <-> st_events st !! e_id e = Some e /\ scope e = true
                        /\ push_event_predicates json_extract (st_events st) (with_after_id None f) e = true)
  /\ page None = take limit all
  /\ (forall k c, all !! k = Some c -> page (Some (e_id c)) = take limit (drop (S k) all))
  /\ (forall id, st_events st !! id = None -> page (Some id) = []).
Proof.
  intros Hids all page. split; [|split; [|split]].
  - intros e. unfold all, all_rows.
    assert (e ∈ (map_to_list (st_events st)).*2 <-> st_events st !! e_id e = Some e) as Hr.
    { rewrite list_elem_of_fmap. split.
      - intros ([id e'] & -> & H%elem_of_map_to_list). simpl. by rewrite (Hids _ _ H).
      - intros H. exists (e_id e, e). by rewrite elem_of_map_to_list. }
    rewrite elem_of_direction, list_elem_of_filter, andb_true_iff, Hr. tauto.
  - unfold page, scoped_query. rewrite cursor_filter, filter_keep; [done|]. done.
  - intros k c. by apply resume_rows.
  - intros id Hn. unfold page, scoped_query. rewrite cursor_filter.
    rewrite (filter_none _ (filter _ _)); [cbn [lf_order with_page lf_limit]; destruct (lf_order f); apply take_nil|].
    intros e _. unfold cursor_allows. simpl. by rewrite Hn.
Qed.

(** ** Concrete logs *)

(** Payloads of the shape [{"session_id":"s"}], by their text. *)
Definition demo_payload (payload field : string) : option string :=
  if bool_decide (payload = field) then Some "s"%string else None.
Definition demo_extract (payload path : string) : JsonValue :=
  if bool_decide (("$." ++ payload)%string = path) then JText "s" else JNull.
Definition demo_event (id kind payload : string) (sid : option string) : Event :=
  mkEvent id "t" "info" kind "m" payload "acp" sid None.

Lemma live_filter_twin_witness :
  let e := demo_event "e" "permission.approved" "permission_id" (Some "s"%string) in
  let f := with_kind_prefix (Some "perm"%string) (with_limit 5) in
  push_event_predicates demo_extract ∅ f e = true /\ matches demo_payload f e = true.
Proof.
  intros e f. assert (matches demo_payload f e = true) as Hm by (vm_compute; reflexivity).
  assert (payload_agrees demo_payload demo_extract e) as Ha.
  { intros field v Hf. repeat (apply elem_of_cons in Hf as [->|Hf]); [| | |by apply not_elem_of_nil in Hf];
      vm_compute; split; congruence. }
  assert (payload_session_typed demo_payload e) as Hs by (intros s; vm_compute; congruence).
  split; [|exact Hm]. exact (proj1 (live_filter_twin demo_payload demo_extract f e ∅ Ha Hs) Hm).
Defined.

(** Two divergences: a legacy event whose payload alone names the session
    passes the live filter and not the query; a capital in the prefix, or a
    wildcard, matches only in the query. *)
Lemma twin_divergences :
  let legacy := demo_event "e" "k" "session_id" None in
  let by_session := mkLogFilter 5 None None None None None None None (Some "s"%string) None None None Desc in
  let shouted := with_kind_prefix (Some "K"%string) (with_limit 5) in
  matches demo_payload by_session legacy = true
  /\ push_event_predicates demo_extract ∅ by_session legacy = false
  /\ matches demo_payload shouted legacy = false
  /\ push_event_predicates demo_extract ∅ shouted legacy = true.
Proof. vm_compute. done. Qed.

Definition demo_log : Store :=
  set_events (<["e2" := demo_event "e2" "k" "" None]> (<["e1" := demo_event "e1" "k" "" None]>
    (<["e3" := demo_event "e3" "k" "" None]> ∅))) empty_store.

Lemma log_pages_resume_witness :
  map e_id (query_events demo_extract (with_page 2 None (with_limit 5)) demo_log) = ["e3"; "e2"]%string
  /\ query_events demo_extract (with_page 2 (Some "e2"%string) (with_limit 5)) demo_log
     = take 2 (drop 2 (all_rows demo_extract (fun _ => true) (with_limit 5) demo_log)).
Proof.
  split; [vm_compute; reflexivity|].
  assert (map_Forall (fun id e => e_id e = id) (st_events demo_log)) as Hids.
  { apply (bool_decide_unpack _). vm_compute. exact I. }
  destruct (log_pages_resume demo_extract (fun _ => true) (with_limit 5) demo_log 2 Hids) as (_ & _ & Hk & _).
  apply (Hk 1%nat (demo_event "e2" "k" "" None)). vm_compute. reflexivity.
Defined.

(** ** Category labels *)

(** Every label reads back, and nothing else reads as a category. *)
Lemma category_labels s c : from_str s = Some c <-> as_str c = s.
Proof.
  split; [|intros <-; by destruct c].
  unfold from_str. repeat case_bool_decide; intros E; simplify_eq; done.
Qed.

(** The security query's scope keeps every kind of every category. *)
Lemma category_kinds_in_scope c k : k ∈ kinds c -> sql_like "security.%" k = true.
Proof.
  intros H. apply (prefix_like "security."). destruct c; simpl in H;
    repeat (apply elem_of_cons in H as [->|H]); try reflexivity; by apply not_elem_of_nil in H.
Qed.

(** The permission query ignores an explicit prefix of [permission.]: it still
    returns kinds that start with [permissions.]. *)
Lemma permission_prefix_ignored json_extract f st :
  lf_kind_prefix f = Some "permission."%string ->
  query_permission_events json_extract f st
  = query_permission_events json_extract (with_kind_prefix None f) st.
Proof. intros E. unfold query_permission_events. simpl. by rewrite E. Qed.
