(* ===== verification/SessionListing.v ===== *)
(** Session metadata and the agent's session listing
    (src/src/state/sessions/queries.rs): the partial updates an agent streams for
    one session, the merge of an ACP [session/list] result into the stored rows of
    a target, and the filtered session query. *)

From S2P Require Import Prelude Store SinkOutbox ChangeFeed SessionEvents SessionStore.
From Stdlib Require Import Ascii.
Open Scope Z_scope.
Open Scope result_scope.

Definition SESSION_METADATA_AVAILABLE_COMMANDS : string := "available_commands".
Definition SESSION_METADATA_AVAILABLE_COMMANDS_UPDATED_AT : string := "available_commands_updated_at".
Definition SESSION_METADATA_CONFIG_OPTIONS : string := "config_options".
Definition SESSION_METADATA_CONFIG_OPTIONS_UPDATED_AT : string := "config_options_updated_at".
Definition EVENT_KIND_SESSION_LIST_SYNCED : string := "session.list_synced".

(** What the metadata column needs of the JSON library: [serde_json::from_str]
    followed by [as_object], [Value::Object(m).to_string()], and the values the
    code builds. *)
Class MetadataJson (J : Type) := {
  parse_object : string -> option (gmap string J);
  object_text : gmap string J -> string;
  json_string : string -> J;
  json_null : J;
  json_object : gmap string J -> J;
}.

Record ListedSessionRecord := mkListed {
  ls_id : string;
  ls_agent_session_id : string;
  ls_agent_id : string;
  ls_cwd : string;
  ls_title : option string;
  ls_updated_at : option string;
  ls_metadata_json : string;
}.

Record ListedSessionUpsertCounts := mkCounts { upserted : nat; updated : nat }.

Inductive ListedSessionWrite := WInsert (row : SessionRow) | WUpdate (row : SessionRow).

Record ListSyncEvent := mkSync { sy_agent_id : string; sy_skipped_invalid_cwd : nat }.

Definition with_metadata (metadata_json updated_at : string) (s : SessionRow) : SessionRow :=
  mkSession (s_id s) (s_target_id s) (s_agent_session_id s) (s_created_at s) updated_at (s_status s)
    (s_agent_id s) (s_cwd s) (s_title s) metadata_json (s_change_seq s).

Definition with_title (title : option string) (s : SessionRow) : SessionRow :=
  mkSession (s_id s) (s_target_id s) (s_agent_session_id s) (s_created_at s) (s_updated_at s) (s_status s)
    (s_agent_id s) (s_cwd s) title (s_metadata_json s) (s_change_seq s).

(** The row an update of the listing leaves, with the status guard. *)
Definition keeps_status (status : string) : bool :=
  bool_decide (status = SESSION_STATUS_ACTIVE) || bool_decide (status = SESSION_STATUS_CLOSED).

Definition listed_status (status : string) : string :=
  if keeps_status status then status else SESSION_STATUS_AVAILABLE.

Definition updated_row (row s : SessionRow) : SessionRow :=
  mkSession (s_id s) (s_target_id s) (s_agent_session_id s) (s_created_at s) (s_updated_at row)
    (listed_status (s_status s)) (s_agent_id row) (s_cwd row) (s_title row) (s_metadata_json row)
    (s_change_seq s).

Section listing.
Context (json_valid : string -> bool) (external : bool).
Context {J : Type} `{!EqDecision J} `{!MetadataJson J}.

Definition metadata_object (metadata_json : string) : result StackError (gmap string J) :=
  match parse_object metadata_json with
  | Some m => Ok m
  | None => Err (StateInvalidJson "sessions.metadata_json")
  end.

(** [UPDATE sessions SET metadata_json ..]: the column's check, [SessionNotFound]
    when no row matched, and the stamp. *)
Definition write_metadata (id metadata_json now : string) (f : SessionRow -> SessionRow) : M unit :=
  persist_with_outbox external "sessions" id now
    (if json_valid metadata_json
     then update_session id (fun s => f (with_metadata metadata_json now s)) else fail Sqlite).

(** ** Partial updates of one session *)

Definition update_session_info (id : string) (title agent_updated_at : option (option string))
    (agent_meta : option (gmap string J)) (now : string) : M unit :=
  let* record := gets (get_session id) in
  match record with
  | None => fail (SessionNotFound id)
  | Some record =>
      match metadata_object (s_metadata_json record) with
      | Err e => fail e
      | Ok metadata =>
          let metadata := match agent_updated_at with
                          | Some v => <["agent_updated_at"%string := default json_null (json_string <$> v)]> metadata
                          | None => metadata
                          end in
          let metadata := match agent_meta with
                          | Some meta => <["agent_meta"%string := json_object meta]> metadata
                          | None => metadata
                          end in
          write_metadata id (object_text metadata) now (with_title (default (s_title record) title))
      end
  end.

(** Latest-wins snapshot under [key], stamped under [key_at]; [false] when the
    stored value already equals it. *)
Definition replace_snapshot (key key_at : string) (id : string) (value : J) (now : string) : M bool :=
  let* record := gets (get_session id) in
  match record with
  | None => fail (SessionNotFound id)
  | Some record =>
      match metadata_object (s_metadata_json record) with
      | Err e => fail e
      | Ok metadata =>
          if bool_decide (metadata !! key = Some value) then ret false
          else
            write_metadata id (object_text (<[key_at := json_string now]> (<[key := value]> metadata))) now
              (fun s => s) ;;
            ret true
      end
  end.

(** [commands_value] is [serde_json::to_value(commands)]. *)
Definition replace_session_available_commands (id : string) (commands_value : option J) (now : string) : M bool :=
  match commands_value with
  | Some value =>
      replace_snapshot SESSION_METADATA_AVAILABLE_COMMANDS SESSION_METADATA_AVAILABLE_COMMANDS_UPDATED_AT
        id value now
  | None =>
      let* record := gets (get_session id) in
      match record with
      | None => fail (SessionNotFound id)
      | Some _ => fail (StateInvalidJson "sessions.metadata_json")
      end
  end.

Definition replace_session_config_options (id : string) (options_value : J) (now : string) : M bool :=
  replace_snapshot SESSION_METADATA_CONFIG_OPTIONS SESSION_METADATA_CONFIG_OPTIONS_UPDATED_AT id options_value now.

(** ** The listing *)

(** [chrono]'s reading of an RFC 3339 time, printed in UTC with nanoseconds. *)
Context (rfc3339_utc : string -> option string).

Definition normalize_listed_session_timestamp (raw : string) : result StackError string :=
  match rfc3339_utc raw with
  | Some t => Ok t
  | None => Err (InvalidParam "updated_at")
  end.

Definition query_sessions_for_target (target_id : string) (st : Store) : list SessionRow :=
  filter (fun s => s_target_id s = target_id) (map_to_list (st_sessions st)).*2.

(** The unique index leaves one row per agent session. *)
Definition stored_rows (target_id : string) (st : Store) : gmap string SessionRow :=
  list_to_map ((fun s => (s_agent_session_id s, s)) <$> query_sessions_for_target target_id st).

Definition listed_time (record : ListedSessionRecord) : result StackError (option string) :=
  match ls_updated_at record with
  | None => Ok None
  | Some raw => let? t := normalize_listed_session_timestamp raw in Ok (Some t)
  end.

(** The row the listing plans for a stored session; [None] when nothing moves. *)
Definition plan_existing (existing : SessionRow) (record : ListedSessionRecord)
    (listed_updated_at : option string) (listed_metadata : gmap string J) : result StackError (option SessionRow) :=
  let updated_at := default (s_updated_at existing) listed_updated_at in
  let status := listed_status (s_status existing) in
  (let? existing_metadata := metadata_object (s_metadata_json existing) in
   let metadata := listed_metadata ∪ existing_metadata in
   let changed :=
     negb (bool_decide (s_updated_at existing = updated_at)) || negb (bool_decide (s_status existing = status))
     || negb (bool_decide (s_agent_id existing = ls_agent_id record))
     || negb (bool_decide (s_cwd existing = ls_cwd record))
     || negb (bool_decide (s_title existing = ls_title record))
     || negb (bool_decide (metadata = existing_metadata)) in
   Ok (if changed
       then Some (mkSession (s_id existing) (s_target_id existing) (s_agent_session_id existing)
                    (s_created_at existing) updated_at status (ls_agent_id record) (ls_cwd record)
                    (ls_title record) (object_text metadata) (s_change_seq existing))
       else None))%res.

Definition plan_new (target_id : string) (record : ListedSessionRecord) (listed_updated_at : option string)
    (created_at : string) : SessionRow :=
  mkSession (ls_id record) target_id (ls_agent_session_id record) created_at
    (default created_at listed_updated_at) SESSION_STATUS_AVAILABLE (ls_agent_id record) (ls_cwd record)
    (ls_title record) (ls_metadata_json record) 0.

(** The loop over the listing; [clock k] is the time read for the k-th new row. *)
Fixpoint plan_listed (target_id : string) (clock : nat -> string) (stored : gmap string SessionRow)
    (counts : ListedSessionUpsertCounts) (records : list ListedSessionRecord)
  : result StackError (list ListedSessionWrite * ListedSessionUpsertCounts) :=
  match records with
  | [] => Ok ([], counts)
  | record :: rest =>
      (let? listed_metadata := metadata_object (ls_metadata_json record) in
       let? listed_updated_at := listed_time record in
       match stored !! ls_agent_session_id record with
       | Some existing =>
           let? planned := plan_existing existing record listed_updated_at listed_metadata in
           match planned with
           | None => plan_listed target_id clock stored counts rest
           | Some row =>
               let? (writes, counts') :=
                 plan_listed target_id clock (<[s_agent_session_id row := row]> stored)
                   (mkCounts (upserted counts) (S (updated counts))) rest in
               Ok (WUpdate row :: writes, counts')
           end
       | None =>
           let row := plan_new target_id record listed_updated_at (clock (upserted counts)) in
           let? (writes, counts') :=
             plan_listed target_id clock (<[s_agent_session_id row := row]> stored)
               (mkCounts (S (upserted counts)) (updated counts)) rest in
           Ok (WInsert row :: writes, counts')
       end)%res
  end.

Definition write_listed (w : ListedSessionWrite) : M unit :=
  match w with
  | WInsert row =>
      let* change_seq := next_change_seq in
      insert_session_row json_valid row change_seq ;;
      enqueue_if external "sessions" (s_id row) (s_updated_at row)
  | WUpdate row =>
      (if json_valid (s_metadata_json row)
       then modify (fun st => set_sessions (alter (updated_row row) (s_id row) (st_sessions st)) st)
       else fail Sqlite) ;;
      bump_session_change (s_id row) ;;
      enqueue_if external "sessions" (s_id row) (s_updated_at row)
  end.

(** The payload of the sync event: target, agent, both counts, skipped. *)
Context (sync_payload : string -> string -> nat -> nat -> nat -> string).

Definition apply_listed_sessions (target_id : string) (records : list ListedSessionRecord)
    (sync_event : option ListSyncEvent) (clock : nat -> string) (event_id event_now : string)
  : M ListedSessionUpsertCounts :=
  let* st := gets id in
  match plan_listed target_id clock (stored_rows target_id st) (mkCounts 0 0) records with
  | Err e => fail e
  | Ok ([], counts) => ret counts
  | Ok (writes, counts) =>
      for_each writes write_listed ;;
      match sync_event with
      | None => ret counts
      | Some sync =>
          let event := mkEvent event_id event_now "info" EVENT_KIND_SESSION_LIST_SYNCED
            "ACP session list synced"
            (sync_payload target_id (sy_agent_id sync) (upserted counts) (updated counts)
               (sy_skipped_invalid_cwd sync)) EVENT_SOURCE_SYSTEM None None in
          insert_unscoped_event_row json_valid event ;;
          enqueue_if external "events" event_id event_now ;;
          publish (HubLog event) ;;
          ret counts
      end
  end.

Definition upsert_listed_sessions_for_target (target_id : string) (records : list ListedSessionRecord)
    (clock : nat -> string) : M ListedSessionUpsertCounts :=
  apply_listed_sessions target_id records None clock "" "".

Definition record_session_list_sync (target_id agent_id : string) (records : list ListedSessionRecord)
    (skipped_invalid_cwd : nat) (clock : nat -> string) (event_id event_now : string)
  : M ListedSessionUpsertCounts :=
  apply_listed_sessions target_id records (Some (mkSync agent_id skipped_invalid_cwd)) clock event_id event_now.

(** One listing of one record each, under the record's own agent. *)
Fixpoint upsert_listed_sessions (records : list ListedSessionRecord) (clock : nat -> string)
    (counts : ListedSessionUpsertCounts) : M ListedSessionUpsertCounts :=
  match records with
  | [] => ret counts
  | record :: rest =>
      let* c := upsert_listed_sessions_for_target (ls_agent_id record) [record]
                  (fun k => clock (upserted counts + k)%nat) in
      upsert_listed_sessions rest clock
        (mkCounts (upserted counts + upserted c) (updated counts + updated c))
  end.
End listing.

(** ** The rows a listing leaves *)

(** Rows sit under their id, and the index holds one row per target and agent
    session. *)
Definition sessions_wf (m : gmap string SessionRow) : Prop :=
  (forall id s, m !! id = Some s -> s_id s = id)
  /\ (forall i j s t, m !! i = Some s -> m !! j = Some t -> s_target_id s = s_target_id t ->
        s_agent_session_id s = s_agent_session_id t -> i = j).

Lemma stored_rows_spec target st a s :
  sessions_wf (st_sessions st) ->
  stored_rows target st !! a = Some s
  <-> exists id, st_sessions st !! id = Some s /\ s_target_id s = target /\ s_agent_session_id s = a.
Proof.
  intros [Hid Huq]. unfold stored_rows, query_sessions_for_target.
  set (rows := filter _ _).
  assert (forall x, x ∈ rows <-> (exists id, st_sessions st !! id = Some x) /\ s_target_id x = target) as Hr.
  { intros x. unfold rows. rewrite list_elem_of_filter, list_elem_of_fmap. split.
    - intros [Ht ([i y] & -> & H%elem_of_map_to_list)]. split; [by exists i|done].
    - intros [[i H] Ht]. split; [done|]. exists (i, x). by rewrite elem_of_map_to_list. }
  rewrite <- elem_of_list_to_map.
  - rewrite list_elem_of_fmap. split.
    + intros (x & [= -> ->] & [[id Hx] Ht]%Hr). by exists id.
    + intros (id & Hs & Ht & <-). exists s. split; [done|]. apply Hr. split; [by exists id|done].
  - rewrite <- list_fmap_compose. apply NoDup_fmap_2_strong.
    + intros x y [[i Hx] Tx]%Hr [[j Hy] Ty]%Hr E. simpl in E.
      assert (i = j) as -> by (eapply Huq; eauto; congruence). congruence.
    + unfold rows. apply NoDup_filter. apply (NoDup_fmap_1 s_id).
      replace (s_id <$> (map_to_list (st_sessions st)).*2) with ((map_to_list (st_sessions st)).*1).
      { apply NoDup_fst_map_to_list. }
      rewrite <- list_fmap_compose. apply list_fmap_ext. intros i [id x] H. simpl. symmetry.
      apply Hid. apply elem_of_map_to_list. by eapply list_elem_of_lookup_2.
Qed.

Lemma sessions_wf_insert m id s :
  sessions_wf m -> s_id s = id ->
  (forall j t, m !! j = Some t -> s_target_id t = s_target_id s -> s_agent_session_id t = s_agent_session_id s -> j = id) ->
  sessions_wf (<[id := s]> m).
Proof.
  intros [Hid Huq] Hs Hn. split.
  - intros i x. rewrite lookup_insert. case_decide; [|apply Hid]. subst. by intros [= <-].
  - intros i j x y. rewrite !lookup_insert. repeat case_decide; subst; intros; simplify_eq; eauto.
    symmetry. eapply Hn; eauto.
Qed.

Lemma listed_status_idem s : listed_status (listed_status s) = listed_status s.
Proof. unfold listed_status. destruct (keeps_status s) eqn:E; [by rewrite E|done]. Qed.

Section converge.
Context (json_valid : string -> bool) (external : bool).
Context {J : Type} `{!EqDecision J} `{!MetadataJson J}.
Context (rfc3339_utc : string -> option string).

(** The record's session has a row the listing would not move. *)
Definition settled_for (target : string) (record : ListedSessionRecord) (m : gmap string SessionRow) : Prop :=
  exists id s t lm, m !! id = Some s /\ s_target_id s = target
  /\ s_agent_session_id s = ls_agent_session_id record
  /\ metadata_object (ls_metadata_json record) = Ok lm /\ listed_time rfc3339_utc record = Ok t
  /\ plan_existing s record t lm = Ok None.

Lemma plan_settled target clock st counts records :
  sessions_wf (st_sessions st) -> (forall r, r ∈ records -> settled_for target r (st_sessions st)) ->
  plan_listed rfc3339_utc target clock (stored_rows target st) counts records = Ok ([], counts).
Proof.
  intros Hwf. induction records as [|r records IH]; intros Hs; [done|]. simpl.
  destruct (Hs r ltac:(by left)) as (id & s & t & lm & Hm & Ht & Ha & -> & -> & Hp). simpl.
  rewrite (proj2 (stored_rows_spec target st (ls_agent_session_id r) s Hwf)) by eauto.
  rewrite Hp. simpl. apply IH. intros r' Hr. apply Hs. by right.
Qed.

Lemma unchanged_test (b1 b2 b3 b4 b5 b6 : Prop) `{!Decision b1, !Decision b2, !Decision b3, !Decision b4, !Decision b5, !Decision b6} :
  b1 -> b2 -> b3 -> b4 -> b5 -> b6 ->
  negb (bool_decide b1) || negb (bool_decide b2) || negb (bool_decide b3) || negb (bool_decide b4)
  || negb (bool_decide b5) || negb (bool_decide b6) = false.
Proof. intros. by rewrite !bool_decide_eq_true_2. Qed.

(** The metadata the listing would write for this record over this row reads back
    as it was. [serde_json] prints its own values and parses them again, but a
    number with a fraction may come back as its neighbour, and nesting is limited,
    so this is asked of the objects at hand and not of every object. *)
Definition merge_reparses (record : ListedSessionRecord) (existing : SessionRow) : Prop :=
  forall lm em : gmap string J,
    metadata_object (ls_metadata_json record) = Ok lm -> metadata_object (s_metadata_json existing) = Ok em ->
    parse_object (object_text (lm ∪ em)) = Some (lm ∪ em).

Lemma object_reparses record existing (lm em : gmap string J) :
  merge_reparses record existing -> metadata_object (ls_metadata_json record) = Ok lm ->
  parse_object (s_metadata_json existing) = Some em -> parse_object (object_text (lm ∪ em)) = Some (lm ∪ em).
Proof. intros Hm Hl He. apply Hm; [done|]. unfold metadata_object. by rewrite He. Qed.

(** An updated row and a new row are settled. *)
Lemma updated_settled existing record t lm row n :
  merge_reparses record existing -> metadata_object (ls_metadata_json record) = Ok lm ->
  plan_existing existing record t lm = Ok (Some row) ->
  plan_existing (with_change_seq n (updated_row row existing)) record t lm = Ok None
  /\ s_id row = s_id existing /\ s_agent_session_id row = s_agent_session_id existing.
Proof.
  intros Hre Hlm. unfold plan_existing, metadata_object.
  destruct (parse_object (s_metadata_json existing)) as [em|] eqn:Eem; [|done]. simpl.
  case_match; [|done]. intros [= <-]. simpl. rewrite (object_reparses record existing) by done. simpl. split; [|done].
  rewrite unchanged_test; [done|..].
  - by destruct t.
  - by rewrite listed_status_idem.
  - done.
  - done.
  - done.
  - rewrite (assoc_L (∪)). by rewrite (idemp_L (∪)).
Qed.

Lemma new_settled target record t lm now n :
  metadata_object (ls_metadata_json record) = Ok lm ->
  plan_existing (with_change_seq n (plan_new target record t now)) record t lm = Ok None.
Proof.
  intros Hm. unfold plan_existing. cbn [s_metadata_json with_change_seq plan_new]. rewrite Hm. cbn [rbind].
  rewrite unchanged_test; [done|..]; try done.
  - by destruct t.
  - apply (idemp_L (∪)).
Qed.

Lemma enqueue_if_sessions t i c st u st' :
  enqueue_if external t i c st = Ok (u, st') -> st_sessions st' = st_sessions st.
Proof. unfold enqueue_if. destruct external; by intros [= _ <-]. Qed.

Lemma write_update_run row st u st' s :
  write_listed json_valid external (WUpdate row) st = Ok (u, st') -> st_sessions st !! s_id row = Some s ->
  exists n, st_sessions st' = <[s_id row := with_change_seq n (updated_row row s)]> (st_sessions st).
Proof.
  intros (u1 & st1 & H1 & (u2 & st2 & H2 & H3)%bind_ok)%bind_ok Hs.
  destruct (json_valid (s_metadata_json row)); [|done]. injection H1 as _ <-.
  apply enqueue_if_sessions in H3 as ->. apply bump_session_change_run in H2 as [[Hn _]|(r & Hr & _ & ->)];
    simpl in *; rewrite lookup_alter_eq, Hs in *; [done|]. injection Hr as <-. eexists.
  apply map_eq. intros i. destruct (decide (i = s_id row)) as [->|Hi]; [by rewrite !lookup_insert_eq|].
  by rewrite !lookup_insert_ne, lookup_alter_ne by done.
Qed.

Lemma write_insert_run row st u st' :
  write_listed json_valid external (WInsert row) st = Ok (u, st') ->
  st_sessions st !! s_id row = None
  /\ exists n, st_sessions st' = <[s_id row := with_change_seq n row]> (st_sessions st).
Proof.
  intros (n & st1 & H1 & (u2 & st2 & H2 & H3)%bind_ok)%bind_ok.
  apply next_change_seq_run in H1 as (_ & -> & ->). apply insert_session_row_run in H2 as [Hn ->].
  apply enqueue_if_sessions in H3 as ->. split; [done|]. by eexists.
Qed.

(** What a listing does to the rows already there. *)
Definition listing_frame (target : string) (agents : list string) (m m' : gmap string SessionRow) : Prop :=
  forall id s, m !! id = Some s ->
  exists s', m' !! id = Some s'
  /\ (s' = s \/ (s_target_id s = target /\ s_agent_session_id s ∈ agents))
  /\ s_target_id s' = s_target_id s /\ s_agent_session_id s' = s_agent_session_id s
  /\ s_created_at s' = s_created_at s /\ (keeps_status (s_status s) = true -> s_status s' = s_status s).

Lemma listing_frame_refl target m : listing_frame target [] m m.
Proof. intros id s H. exists s. naive_solver. Qed.

Lemma listing_frame_step target a agents m m1 m' :
  listing_frame target [a] m m1 -> listing_frame target agents m1 m' -> listing_frame target (a :: agents) m m'.
Proof.
  intros H1 H2 id s Hs. destruct (H1 id s Hs) as (s1 & Hs1 & C1 & T1 & A1 & R1 & K1).
  destruct (H2 id s1 Hs1) as (s2 & Hs2 & C2 & T2 & A2 & R2 & K2). exists s2. split; [done|]. split.
  - destruct C1 as [->|[Ht Ha]].
    + destruct C2 as [->|[Ht Ha]]; [by left|right]. split; [done|]. by right.
    + right. split; [done|]. apply list_elem_of_singleton in Ha as ->. by left.
  - repeat (split; [congruence|]). intros Hk. rewrite K2, K1; [done|done|]. by rewrite K1.
Qed.

Lemma settled_frame target r agents m m' :
  listing_frame target agents m m' -> ls_agent_session_id r ∉ agents ->
  settled_for target r m -> settled_for target r m'.
Proof.
  intros Hf Hn (id & s & t & lm & Hs & Ht & Ha & Hrest). destruct (Hf id s Hs) as (s' & Hs' & [->|[_ Hin]] & _).
  - by exists id, s, t, lm.
  - rewrite Ha in Hin. done.
Qed.

(** Rows of other agent sessions keep their place in the planner's map. *)
Lemma stored_rows_frame target st st1 a b :
  sessions_wf (st_sessions st) -> sessions_wf (st_sessions st1) -> b <> a ->
  (forall id s, s_agent_session_id s = b -> st_sessions st !! id = Some s <-> st_sessions st1 !! id = Some s) ->
  stored_rows target st1 !! b = stored_rows target st !! b.
Proof.
  intros Hw Hw1 Hne H. apply option_eq. intros s. rewrite !stored_rows_spec by done.
  split; intros (id & Hs & Ht & Ha); exists id; (split; [by apply H|done]).
Qed.

Lemma row_step target (m : gmap string SessionRow) x :
  sessions_wf m -> s_target_id x = target ->
  (m !! s_id x = None
     /\ (forall j t, m !! j = Some t -> s_target_id t = target -> s_agent_session_id t <> s_agent_session_id x))
  \/ (exists s, m !! s_id x = Some s /\ s_target_id s = target /\ s_agent_session_id s = s_agent_session_id x
       /\ s_created_at x = s_created_at s /\ (keeps_status (s_status s) = true -> s_status x = s_status s)) ->
  sessions_wf (<[s_id x := x]> m) /\ listing_frame target [s_agent_session_id x] m (<[s_id x := x]> m)
  /\ forall j s, s_agent_session_id s <> s_agent_session_id x ->
       m !! j = Some s <-> <[s_id x := x]> m !! j = Some s.
Proof.
  intros Hwf Ht Hcase. split; [|split].
  - apply sessions_wf_insert; [done|done|]. intros j t Hj Htt Ha.
    destruct Hcase as [[_ Hno]|(s & Hs & Hst & Hsa & _)]; [by destruct (Hno j t Hj); [congruence|]|].
    destruct Hwf as [_ Huq]. eapply Huq; eauto; congruence.
  - intros j s Hj. rewrite lookup_insert. case_decide as E; [subst j|exists s; naive_solver].
    destruct Hcase as [[Hn _]|(s0 & Hs & Hst & Hsa & Hc & Hk)]; [congruence|].
    rewrite Hs in Hj. injection Hj as <-. exists x. split; [done|]. split.
    + right. split; [done|]. rewrite Hsa. by left.
    + split_and!; [congruence..|done].
  - intros j s Ha. rewrite lookup_insert. case_decide as E; [subst j|done]. split.
    + intros Hj. destruct Hcase as [[Hn _]|(s0 & Hs & _ & Hsa & _)]; congruence.
    + intros [= <-]. done.
Qed.

(** Every listed session has a settled row, the rest is as before. *)
Definition listed_ok (target : string) (records : list ListedSessionRecord) (m m' : gmap string SessionRow) : Prop :=
  sessions_wf m' /\ (forall r, r ∈ records -> settled_for target r m')
  /\ listing_frame target (ls_agent_session_id <$> records) m m'.

(** One row written for the first record, then the rest of the listing. *)
Lemma listed_ok_step target r records (stored : gmap string SessionRow) w st st1 st' x t lm :
  sessions_wf (st_sessions st) -> ls_agent_session_id r ∉ ls_agent_session_id <$> records ->
  (forall r', r' ∈ records -> stored !! ls_agent_session_id r' = stored_rows target st !! ls_agent_session_id r') ->
  s_target_id x = target -> s_agent_session_id x = ls_agent_session_id r ->
  metadata_object (ls_metadata_json r) = Ok lm -> listed_time rfc3339_utc r = Ok t -> plan_existing x r t lm = Ok None ->
  (st_sessions st !! s_id x = None
     /\ (forall j y, st_sessions st !! j = Some y -> s_target_id y = target -> s_agent_session_id y <> s_agent_session_id x))
  \/ (exists s, st_sessions st !! s_id x = Some s /\ s_target_id s = target /\ s_agent_session_id s = s_agent_session_id x
       /\ s_created_at x = s_created_at s /\ (keeps_status (s_status s) = true -> s_status x = s_status s)) ->
  st_sessions st1 = <[s_id x := x]> (st_sessions st) ->
  (sessions_wf (st_sessions st1) ->
   (forall r', r' ∈ records ->
      <[ls_agent_session_id r := w]> stored !! ls_agent_session_id r' = stored_rows target st1 !! ls_agent_session_id r') ->
   listed_ok target records (st_sessions st1) (st_sessions st')) ->
  listed_ok target (r :: records) (st_sessions st) (st_sessions st').
Proof.
  intros Hwf Hnot Hst Hxt Hxa Hlm Ht Hxs Hcase Em Hrest.
  destruct (row_step target (st_sessions st) x Hwf Hxt Hcase) as (Hwf1 & Hf1 & Ho1). rewrite <- Em in Hwf1, Hf1.
  destruct (Hrest Hwf1) as (Hwf' & Hs' & Hf').
  { intros r' Hr'. assert (ls_agent_session_id r' <> ls_agent_session_id r) as Hne.
    { intros E. apply Hnot. rewrite <- E. by apply list_elem_of_fmap_2. }
    rewrite lookup_insert_ne, Hst by done. symmetry.
    apply (stored_rows_frame target st st1 (ls_agent_session_id r)); [done..|].
    intros j s Ha. rewrite Em. apply Ho1. congruence. }
  split; [done|]. rewrite fmap_cons, <- Hxa. split; [|by eapply listing_frame_step].
  intros r' [->|Hr']%elem_of_cons; [|by apply Hs'].
  eapply (settled_frame target r); [exact Hf'|done|]. exists (s_id x), x, t, lm. by rewrite Em, lookup_insert_eq.
Qed.

(** A record that moves nothing, then the rest. *)
Lemma listed_ok_skip target r records m m' :
  ls_agent_session_id r ∉ ls_agent_session_id <$> records -> settled_for target r m ->
  listed_ok target records m m' -> listed_ok target (r :: records) m m'.
Proof.
  intros Hnot Hset (Hwf' & Hs' & Hf'). split; [done|]. split.
  - intros r' [->|Hr']%elem_of_cons; [|by apply Hs']. by eapply settled_frame.
  - rewrite fmap_cons. eapply listing_frame_step; [|exact Hf']. intros j s Hj. exists s. naive_solver.
Qed.

Lemma plan_apply target clock stored counts records writes counts' st u st' :
  plan_listed rfc3339_utc target clock stored counts records = Ok (writes, counts') ->
  for_each writes (write_listed json_valid external) st = Ok (u, st') ->
  NoDup (ls_agent_session_id <$> records) -> sessions_wf (st_sessions st) ->
  (forall r, r ∈ records -> stored !! ls_agent_session_id r = stored_rows target st !! ls_agent_session_id r) ->
  (forall r s, r ∈ records -> stored !! ls_agent_session_id r = Some s -> merge_reparses r s) ->
  listed_ok target records (st_sessions st) (st_sessions st').
Proof.
  revert stored counts writes st. induction records as [|r records IH]; intros stored counts writes st Hp Hw Hnd Hwf Hst Hre.
  { injection Hp as <- <-. injection Hw as _ <-. split; [done|]. split; [by intros r ?%not_elem_of_nil|apply listing_frame_refl]. }
  simpl in Hp. apply NoDup_cons in Hnd as [Hnot Hnd].
  apply rbind_Ok in Hp as (lm & Hlm & (t & Ht & Hp)%rbind_Ok).
  assert (forall r', r' ∈ records -> stored !! ls_agent_session_id r' = stored_rows target st !! ls_agent_session_id r') as Hst'
    by (intros r' Hr'; apply Hst; by right).
  assert (forall w r' s, r' ∈ records -> <[ls_agent_session_id r := w]> stored !! ls_agent_session_id r' = Some s ->
    merge_reparses r' s) as Hre'.
  { intros w r' s Hr' Hs. apply Hre; [by right|]. rewrite lookup_insert_ne in Hs; [done|].
    intros E. apply Hnot. rewrite E. by apply list_elem_of_fmap_2. }
  assert (forall r' s, r' ∈ records -> stored !! ls_agent_session_id r' = Some s -> merge_reparses r' s) as Hre''
    by (intros; apply Hre; [by right|done]).
  pose proof (Hst r ltac:(by left)) as Hr. destruct (stored !! ls_agent_session_id r) as [existing|] eqn:Ee.
  - pose proof (Hre r existing ltac:(by left) Ee) as Hone.
    symmetry in Hr. apply stored_rows_spec in Hr as (id & Hid & Htg & Hag); [|done].
    pose proof (proj1 Hwf _ _ Hid) as Esid. apply rbind_Ok in Hp as ([row|] & Hpl & Hp).
    + apply rbind_Ok in Hp as ([writes' c'] & Hp & [= <- <-]).
      simpl in Hw. apply bind_ok in Hw as (u1 & st1 & Hw1 & Hw).
      destruct (updated_settled existing r t lm row 0 Hone Hlm Hpl) as (_ & Eid & Eag). rewrite Eag, Hag in Hp.
      eapply write_update_run in Hw1 as [n Em]; [|rewrite Eid, Esid; exact Hid].
      destruct (updated_settled existing r t lm row n Hone Hlm Hpl) as (Hset & _ & _).
      eapply (listed_ok_step _ _ _ _ row st st1 _ (with_change_seq n (updated_row row existing))); try done.
      * right. exists existing. simpl. rewrite Esid. split_and!; try done. unfold listed_status. by intros ->.
      * rewrite Em, Eid. done.
      * intros Hwf1 Hst1. by apply (IH _ _ _ _ Hp Hw Hnd Hwf1 Hst1), Hre'.
    + apply listed_ok_skip; [done|by exists id, existing, t, lm|by apply (IH _ _ _ _ Hp Hw Hnd Hwf Hst')].
  - apply rbind_Ok in Hp as ([writes' c'] & Hp & [= <- <-]). simpl in Hw. apply bind_ok in Hw as (u1 & st1 & Hw1 & Hw).
    apply write_insert_run in Hw1 as [Hnone [n Em]].
    eapply (listed_ok_step _ _ _ _ _ st st1 _ (with_change_seq n (plan_new target r t (clock (upserted counts)))));
      [done..|by apply new_settled| |exact Em|intros Hwf1 Hst1; by apply (IH _ _ _ _ Hp Hw Hnd Hwf1 Hst1), Hre'].
    left. split; [done|]. intros j y Hj Hy Ea. symmetry in Hr. rewrite eq_None_not_Some in Hr. apply Hr.
    exists y. apply stored_rows_spec; [done|]. by exists j.
Qed.

Context (sync_payload : string -> string -> nat -> nat -> nat -> string).

(** C38. A session listing converges. Applying a listing that names each session
    once leaves a row for every listed session, and applying the same listing
    again writes nothing and records no event, provided the metadata the first
    application merges into each stored row reads back as it was printed (a JSON
    number with a fraction need not); sessions of other targets and
    unlisted sessions keep their rows untouched, and a listed session keeps its
    identity and creation time and, when it is active or closed, its status. *)
Theorem listing_sync_converges target records sync clock event_id event_now st counts st' :
  sessions_wf (st_sessions st) -> NoDup (ls_agent_session_id <$> records) ->
  (forall r s, r ∈ records -> stored_rows target st !! ls_agent_session_id r = Some s -> merge_reparses r s) ->
  apply_listed_sessions json_valid external rfc3339_utc sync_payload target records sync clock event_id event_now st
    = Ok (counts, st') ->
  sessions_wf (st_sessions st')
  /\ (forall r, r ∈ records -> is_Some (stored_rows target st' !! ls_agent_session_id r))
  /\ (forall sync' clock' id' now',
        apply_listed_sessions json_valid external rfc3339_utc sync_payload target records sync' clock' id' now' st'
        = Ok (mkCounts 0 0, st'))
  /\ listing_frame target (ls_agent_session_id <$> records) (st_sessions st) (st_sessions st').
Proof.
  intros Hwf Hnd Hre (st0 & st0' & H0 & H)%bind_ok. injection H0 as <- <-. unfold Datatypes.id in H.
  destruct (plan_listed _ _ _ _ _ _) as [[writes c]|] eqn:Ep; [|done].
  assert (exists u st1, for_each writes (write_listed json_valid external) st = Ok (u, st1)
    /\ st_sessions st' = st_sessions st1) as (u & st1 & Hw & Es).
  { destruct writes as [|w writes]; [injection H as _ <-; by exists tt, st|].
    apply bind_ok in H as (u & st1 & Hw & H). exists u, st1. split; [done|].
    destruct sync as [sync|]; [|by injection H as _ <-].
    apply bind_ok in H as (u2 & st2 & H2 & (u3 & st3 & H3 & (u4 & st4 & H4 & H5)%bind_ok)%bind_ok).
    injection H5 as _ <-. injection H4 as _ <-. apply enqueue_if_sessions in H3. apply insert_event_run in H2 as [_ ->].
    done. }
  eapply plan_apply in Hw as (Hwf' & Hs' & Hf'); [|exact Ep|done|done|done|done]. rewrite <- Es in *.
  split; [done|]. split; [|split; [|done]].
  - intros r (id & s & t & lm & Hs & Ht & Ha & _)%Hs'. exists s. apply stored_rows_spec; [done|]. by exists id.
  - intros sync' clock' id' now'. unfold apply_listed_sessions, bind, gets, Datatypes.id.
    by rewrite (plan_settled target clock' st' _ records Hwf' Hs').
Qed.
End converge.

(** ** A listing of two sessions, one of them stored *)

(** Metadata texts of a toy library: the binary code of the object. *)
Fixpoint code_text (p : positive) : string :=
  match p with
  | xH => EmptyString
  | xO p' => String "0"%char (code_text p')
  | xI p' => String "1"%char (code_text p')
  end.
Fixpoint text_code (s : string) : option positive :=
  match s with
  | EmptyString => Some xH
  | String "0"%char s' => xO <$> text_code s'
  | String "1"%char s' => xI <$> text_code s'
  | _ => None
  end.
Lemma text_code_text p : text_code (code_text p) = Some p.
Proof. induction p as [p IH|p IH|]; simpl; by rewrite ?IH. Qed.

#[export] Instance toy_json : MetadataJson string := {
  parse_object s := text_code s ≫= decode;
  object_text m := code_text (encode m);
  json_string s := s;
  json_null := "null"%string;
  json_object m := code_text (encode m);
}.
Definition toy_valid (s : string) : bool := bool_decide (is_Some (text_code s)).
Lemma toy_reparses (m : gmap string string) : parse_object (object_text m) = Some m.
Proof. simpl. rewrite text_code_text. apply decode_encode. Qed.

Definition toy_object (key : string) : string := object_text (J := string) {[ key := "v"%string ]}.
Definition toy_store : Store :=
  exec (insert_session_for_target toy_valid true "t" "a1" (mkNewSession "s1" "agent" "/w" None (toy_object "k")) "t0")
    empty_store.
Definition toy_row : SessionRow :=
  with_change_seq 1 (new_active_session_row "t" "a1" (mkNewSession "s1" "agent" "/w" None (toy_object "k")) "t0").
Definition toy_listing : list ListedSessionRecord :=
  [ mkListed "x1" "a1" "agent" "/w" (Some "one"%string) (Some "t5"%string) (toy_object "l");
    mkListed "x2" "a2" "agent" "/v" None None (toy_object "l") ].
Definition toy_sync : M ListedSessionUpsertCounts :=
  record_session_list_sync toy_valid true (J := string) Some (fun _ _ _ _ _ => code_text 1) "t" "agent" toy_listing 0
    (fun _ => "t9"%string) "e1" "t9".

Lemma listing_sync_converges_witness :
  exists st', toy_sync toy_store = Ok (mkCounts 1 1, st') /\ toy_sync st' = Ok (mkCounts 0 0, st').
Proof.
  destruct (exec_ok toy_sync toy_store ltac:(vm_compute; reflexivity)) as [c H].
  exists (exec toy_sync toy_store). assert (c = mkCounts 1 1) as ->.
  { assert (match toy_sync toy_store with Ok (c, _) => c = mkCounts 1 1 | Err _ => True end) as Hc
      by (vm_compute; reflexivity). by rewrite H in Hc. }
  split; [exact H|].
  assert (sessions_wf (st_sessions toy_store)) as Hwf.
  { assert (st_sessions toy_store = <["s1"%string := toy_row]> ∅) as ->
      by (vm_compute; reflexivity).
    apply sessions_wf_insert; [split|vm_compute; reflexivity|]; by intros *; rewrite lookup_empty. }
  destruct (listing_sync_converges toy_valid true (J := string) Some (fun _ _ _ _ _ => code_text 1) "t" toy_listing
    (Some (mkSync "agent" 0)) (fun _ => "t9"%string) "e1" "t9" toy_store (mkCounts 1 1) (exec toy_sync toy_store) Hwf) as (_ & _ & Hagain & _);
    [| |exact H|apply Hagain].
  - apply (bool_decide_unpack _). vm_compute. exact I.
  - intros r s _ _ lm em _ _. apply toy_reparses.
Defined.
