(* ===== verification/SessionQueries.v ===== *)
(** Session reads (src/src/state/sessions/queries.rs): the filtered and paged
    session query, the bounds of the table, and the work that stands in the way of
    a restart. *)

From S2P Require Import Prelude Store Keyset SessionEvents LogFilter SessionStore SessionListing.
Open Scope Z_scope.

Inductive SessionTree := TreeAll | TreeRoots | TreeChildrenOf (parent_session_id : string).

Record SessionFilter := mkSessionFilter {
  sf_limit : nat;
  sf_after_id : option string;
  sf_since : option string;
  sf_until : option string;
  sf_status : option string;
  sf_target_id : option string;
  sf_tree : SessionTree;
  sf_order : LogOrder;
}.

Definition session_key (s : SessionRow) : string * string := (s_updated_at s, s_id s).

Definition tree_allows (subagents : gmap string SubagentRecord) (tree : SessionTree) (s : SessionRow) : bool :=
  match tree with
  | TreeAll => true
  | TreeRoots => bool_decide (subagents !! s_id s = None)
  | TreeChildrenOf parent =>
      match subagents !! s_id s with
      | Some sa => bool_decide (sa_parent_session_id sa = parent)
      | None => false
      end
  end.

(** The predicates but the cursor's. *)
Definition session_allows (st : Store) (f : SessionFilter) (s : SessionRow) : bool :=
  field_allows (sf_since f) (fun since => negb (String.ltb (s_updated_at s) since))
  && field_allows (sf_until f) (fun until => String.ltb (s_updated_at s) until)
  && field_allows (sf_status f) (fun status => bool_decide (s_status s = status))
  && field_allows (sf_target_id f) (fun target_id => bool_decide (s_target_id s = target_id))
  && tree_allows (st_subagents st) (sf_tree f) s.

Definition session_cursor (st : Store) (f : SessionFilter) (s : SessionRow) : bool :=
  field_allows (sf_after_id f) (fun after =>
    match st_sessions st !! after with
    | None => false
    | Some c => past session_key (sf_order f) c s
    end).

Definition query_sessions (f : SessionFilter) (st : Store) : list SessionRow :=
  take (sf_limit f)
    (direction session_key (sf_order f)
       (filter (fun s => session_allows st f s && session_cursor st f s = true)
          (map_to_list (st_sessions st)).*2)).

Definition get_session_by_target_agent_session_id (target_id agent_session_id : string) (st : Store)
  : option SessionRow :=
  head (filter (fun s => s_target_id s = target_id /\ s_agent_session_id s = agent_session_id)
          (map_to_list (st_sessions st)).*2).

Record SessionUpdateBounds := mkBounds {
  first_updated_at : string;
  latest_updated_at : string;
  latest_status : string;
}.

Definition session_update_bounds (st : Store) : option SessionUpdateBounds :=
  let rows := (map_to_list (st_sessions st)).*2 in
  match head (direction session_key Asc rows), head (direction session_key Desc rows) with
  | Some first, Some latest => Some (mkBounds (s_updated_at first) (s_updated_at latest) (s_status latest))
  | _, _ => None
  end.

(** ** Restart blockers *)

Record RestartBlockerRecord := mkBlocker {
  rb_session_id : string;
  rb_target_id : string;
  rb_state : string;
  rb_prompt_id : option string;
  rb_prompt_status : option string;
  rb_prompt_stop_reason : option string;
  rb_permission_id : option string;
}.

(** A blocker with the columns only its order uses: time and priority. *)
Definition ranked : Type := RestartBlockerRecord * (string * Z).

Definition ranked_leb (a b : ranked) : bool :=
  String.ltb b.2.1 a.2.1
  || (bool_decide (a.2.1 = b.2.1)
      && ((b.2.2 <? a.2.2)
          || ((a.2.2 =? b.2.2) && String.leb (rb_session_id a.1) (rb_session_id b.1)))).
Definition ranked_le (a b : ranked) : Prop := ranked_leb a b = true.
#[export] Instance ranked_le_dec : RelDecision ranked_le.
Proof. intros a b. unfold ranked_le. apply _. Defined.

Definition active_sessions (target_id : option string) (st : Store) : list SessionRow :=
  filter (fun s => demoted target_id s = true) (map_to_list (st_sessions st)).*2.

Definition prompt_blocker_state (status : string) : string :=
  if bool_decide (status = "pending"%string) then "prompt_sent"
  else if bool_decide (status = "running"%string) then "working" else "blocked".

Definition prompt_blockers (st : Store) (s : SessionRow) : list ranked :=
  (fun p => (mkBlocker (s_id s) (s_target_id s) (prompt_blocker_state (p_status p)) (Some (p_id p))
               (Some (p_status p)) (p_stop_reason p) None, (p_created_at p, 0)))
  <$> filter (fun p => p_session_id p = s_id s /\ prompt_in_flight p = true) (map_to_list (st_prompts st)).*2.

Definition pending_acp (pr : PermissionRequestRecord) : bool :=
  bool_decide (pr_status pr = "pending"%string) && bool_decide (pr_source pr = "acp"%string).

Definition permission_blockers (st : Store) (s : SessionRow) : list ranked :=
  (fun pr => (mkBlocker (s_id s) (s_target_id s) "permission_required" None None None (Some (pr_id pr)),
              (pr_created_at pr, 1)))
  <$> filter (fun pr => pr_subject_id pr = Some (s_id s) /\ pending_acp pr = true)
        (map_to_list (st_permissions st)).*2.

Definition query_restart_blockers (target_id : option string) (st : Store) : list RestartBlockerRecord :=
  (merge_sort ranked_le
     ((active_sessions target_id st ≫= prompt_blockers st)
      ++ (active_sessions target_id st ≫= permission_blockers st))).*1.

(** [JOIN sessions s ON s.id = pr.subject_id WHERE s.target_id = ?1]. *)
Definition subject_in_target (target_id : string) (st : Store) (pr : PermissionRequestRecord) : bool :=
  match pr_subject_id pr ≫= fun sid => st_sessions st !! sid with
  | Some s => bool_decide (s_target_id s = target_id)
  | None => false
  end.

Definition query_pending_acp_permission_ids_for_target (target_id : string) (st : Store) : list string :=
  pr_id <$> order_by (fun pr => (pr_created_at pr, pr_id pr))
    (filter (fun pr => pending_acp pr = true /\ subject_in_target target_id st pr = true)
       (map_to_list (st_permissions st)).*2).

(** ** Paging *)

Definition with_session_page (limit : nat) (after : option string) (f : SessionFilter) : SessionFilter :=
  mkSessionFilter limit after (sf_since f) (sf_until f) (sf_status f) (sf_target_id f) (sf_tree f) (sf_order f).

Definition all_sessions (f : SessionFilter) (st : Store) : list SessionRow :=
  direction session_key (sf_order f)
    (filter (fun s => session_allows st f s = true) (map_to_list (st_sessions st)).*2).

Lemma session_cursor_filter limit after f st :
  filter (fun s => session_allows st (with_session_page limit after f) s
                   && session_cursor st (with_session_page limit after f) s = true) (map_to_list (st_sessions st)).*2
  = filter (fun s => session_cursor st (with_session_page limit after f) s = true)
      (filter (fun s => session_allows st f s = true) (map_to_list (st_sessions st)).*2).
Proof.
  rewrite list_filter_filter. apply list_filter_iff. intros s. unfold session_allows. simpl.
  rewrite !andb_true_iff. tauto.
Qed.

(** Pages of sessions resume where the page before stopped, as long as the row of
    the cursor is not touched in between; a deleted cursor gives an empty page. *)
Lemma session_pages_resume f st limit :
  map_Forall (fun id s => s_id s = id) (st_sessions st) ->
  let all := all_sessions f st in
  let page after := query_sessions (with_session_page limit after f) st in
  page None = take limit all
  /\ (forall k c, all !! k = Some c -> page (Some (s_id c)) = take limit (drop (S k) all))
  /\ (forall id, st_sessions st !! id = None -> page (Some id) = []).
Proof.
  intros Hids all page. unfold page, query_sessions. cbn [sf_limit sf_order with_session_page].
  split; [|split]; [|intros k c Hk|intros id Hn]; rewrite session_cursor_filter.
  - by rewrite filter_keep.
  - f_equal. unfold all, all_sessions in *.
    assert (st_sessions st !! s_id c = Some c) as Hc.
    { apply list_elem_of_lookup_2 in Hk. rewrite elem_of_direction in Hk.
      apply list_elem_of_filter in Hk as [_ ([id s] & -> & H%elem_of_map_to_list)%list_elem_of_fmap].
      simpl. by rewrite (Hids _ _ H). }
    rewrite <- (direction_past session_key _ _ _ _ (distinct_filter session_key _ _ (rows_distinct session_key _ Hids)) Hk).
    f_equal. unfold session_cursor. simpl. by rewrite Hc.
  - rewrite (filter_none _ (filter _ _)); [destruct (sf_order f); apply take_nil|].
    intros s _. unfold session_cursor. simpl. by rewrite Hn.
Qed.

(** ** What the reads find *)

Lemma elem_of_rows {A} (m : gmap string A) x : x ∈ (map_to_list m).*2 <-> exists id, m !! id = Some x.
Proof.
  rewrite list_elem_of_fmap. split.
  - intros ([i y] & -> & H%elem_of_map_to_list). by exists i.
  - intros [i H]. exists (i, x). by rewrite elem_of_map_to_list.
Qed.

(** The lookup by target and agent session finds the row of the planner's map. *)
Lemma get_by_target_spec target agent st :
  sessions_wf (st_sessions st) ->
  get_session_by_target_agent_session_id target agent st = stored_rows target st !! agent.
Proof.
  intros Hwf. apply option_eq. intros s. rewrite stored_rows_spec by done.
  unfold get_session_by_target_agent_session_id. set (rows := filter _ _).
  assert (forall x, x ∈ rows <-> (exists id, st_sessions st !! id = Some x)
                               /\ s_target_id x = target /\ s_agent_session_id x = agent) as Hr.
  { intros x. unfold rows. rewrite list_elem_of_filter, elem_of_rows. tauto. }
  split.
  - intros H. assert (s ∈ rows) as [[id Hs] [Ht Ha]]%Hr by (destruct rows; [done|]; injection H as ->; by left).
    by exists id.
  - intros (id & Hs & Ht & Ha). assert (s ∈ rows) as Hin by (apply Hr; eauto).
    destruct rows as [|y rows]; [by apply not_elem_of_nil in Hin|]. simpl.
    destruct (proj1 (Hr y) ltac:(by left)) as [[j Hy] [Hyt Hya]].
    assert (j = id) as -> by (eapply (proj2 Hwf); eauto; congruence). congruence.
Qed.

(** A restart is clear exactly when no active session in scope has a turn in
    flight or waits for the answer to an agent's permission request. *)
Lemma restart_clear_iff target st :
  query_restart_blockers target st = []
  <-> forall id s, st_sessions st !! id = Some s -> demoted target s = true ->
      (forall i p, st_prompts st !! i = Some p -> p_session_id p = s_id s -> prompt_in_flight p = false)
      /\ (forall i pr, st_permissions st !! i = Some pr -> pr_subject_id pr = Some (s_id s) -> pending_acp pr = false).
Proof.
  unfold query_restart_blockers.
  set (ps := active_sessions target st ≫= prompt_blockers st).
  set (qs := active_sessions target st ≫= permission_blockers st).
  assert ((merge_sort ranked_le (ps ++ qs)).*1 = [] <-> forall x, x ∉ ps /\ x ∉ qs) as ->.
  { pose proof (merge_sort_Permutation ranked_le (ps ++ qs)) as Hp. split.
    - intros E%fmap_nil_inv x. rewrite E in Hp. apply Permutation_nil_l in Hp.
      symmetry in Hp. apply app_nil in Hp as [-> ->]. split; apply not_elem_of_nil.
    - intros H. destruct (merge_sort ranked_le (ps ++ qs)) as [|x l] eqn:E; [done|].
      assert (x ∈ ps ++ qs) as Hx by (rewrite <- Hp; by left).
      apply elem_of_app in Hx. destruct (H x). tauto. }
  assert (forall s, s ∈ active_sessions target st <-> (exists id, st_sessions st !! id = Some s) /\ demoted target s = true) as Ha.
  { intros s. unfold active_sessions. rewrite list_elem_of_filter, elem_of_rows. tauto. }
  split.
  - intros H id s Hs Hd. assert (s ∈ active_sessions target st) as Hin by (apply Ha; eauto). split.
    + intros i p Hp Hsid. destruct (prompt_in_flight p) eqn:E; [|done].
      edestruct H as [Hno _]. destruct Hno. apply list_elem_of_bind. exists s. split; [|done].
      apply list_elem_of_fmap_2, list_elem_of_filter. split; [done|]. apply elem_of_rows. by exists i.
    + intros i pr Hp Hsid. destruct (pending_acp pr) eqn:E; [|done].
      edestruct H as [_ Hno]. destruct Hno. apply list_elem_of_bind. exists s. split; [|done].
      apply list_elem_of_fmap_2, list_elem_of_filter. split; [done|]. apply elem_of_rows. by exists i.
  - intros H x. split; intros (s & Hx & [[id Hs] Hd]%Ha)%list_elem_of_bind; destruct (H id s Hs Hd) as [H1 H2];
      apply list_elem_of_fmap in Hx as (y & _ & [[Hy1 Hy2] [i Hy]%elem_of_rows]%list_elem_of_filter).
    + by rewrite (H1 i y Hy Hy1) in Hy2.
    + by rewrite (H2 i y Hy Hy1) in Hy2.
Qed.
