(* ===== verification/SessionSink.v ===== *)
(** The session event sink (src/src/runtime/agent/session_sink.rs): what a streamed
    update becomes in the store, the queue and its batching writer, the cache of
    local session ids, and the deletion of a session that has to keep the cache
    right (runtime/agent/supervisor/sessions.rs).

    The sink's methods are programs that interleave at their awaits; the writer and
    the rest of the daemon act in between. A full queue makes a sender wait for
    room; the wait itself is not modelled. *)

From S2P Require Import Prelude Text Async Store SinkOutbox ChangeFeed SessionEvents SessionStore.
From S2P Require Import PermissionService CommandGateway SubagentStore SessionListing SessionQueries.
Open Scope Z_scope.
Open Scope result_scope.

(** ** JSON values *)

(** Numbers are 64-bit integers of either sign, or floats, kept as their text. *)
Inductive Json :=
| JsNull
| JsBool (b : bool)
| JsInt (z : Z)
| JsFloat (text : string)
| JsString (s : string)
| JsArray (l : list Json)
| JsObject (fields : list (string * Json)).

Fixpoint assoc (key : string) (fields : list (string * Json)) : option Json :=
  match fields with
  | [] => None
  | (k, v) :: rest => if bool_decide (k = key) then Some v else assoc key rest
  end.

Local Notation "o ?> f" := (match o with Some v => f v | None => None end) (at level 53, left associativity).

(** [Value::get], [as_str], [is_object]. *)
Definition jget (key : string) (v : Json) : option Json :=
  match v with JsObject fields => assoc key fields | _ => None end.
Definition as_str (v : Json) : option string := match v with JsString s => Some s | _ => None end.
Definition is_object (v : Json) : bool := match v with JsObject _ => true | _ => false end.

(** [as_i64] and [as_u64]. *)
Definition i64_min : Z := - 2 ^ 63.
Definition as_i64 (v : Json) : option Z :=
  match v with JsInt z => if (i64_min <=? z) && (z <=? i64_max) then Some z else None | _ => None end.
Definition as_u64 (v : Json) : option Z :=
  match v with JsInt z => if (0 <=? z) && (z <? 2 ^ 64) then Some z else None | _ => None end.

Definition read_token_field (usage : Json) (key : string) : option Z :=
  match jget key usage with
  | None => None
  | Some raw =>
      match as_i64 raw with
      | Some n => if 0 <=? n then Some n else None
      | None => match as_u64 raw with
                | Some n => if n <=? i64_max then Some n else None
                | None => None
                end
      end
  end.

Definition object_of (o : option Json) : option Json :=
  match o with Some v => if is_object v then Some v else None | None => None end.

Definition first_some (a b : option Json) : option Json := match a with Some v => Some v | None => b end.

Definition locate_usage_object (value : Json) : option Json :=
  first_some (object_of (jget "usage" value))
    (first_some (object_of (jget "update" value ?> jget "usage"))
       (first_some (object_of (jget "prompt_response" value ?> jget "usage"))
          (object_of (jget "meta" value ?> jget "usage")))).

Definition session_update_kind (payload : Json) : option string :=
  jget "update" payload ?> jget "sessionUpdate" ?> as_str.

Definition field (key : string) (v : option Json) : list (string * Json) :=
  match v with Some v => [(key, v)] | None => [] end.

Section payloads.
(** [Number::from_f64(as_f64())] of a number that has one. *)
Context (as_float : Json -> option Json).

Definition extract_usage_payload (session_id : string) (value : Json) : option Json :=
  if bool_decide (session_update_kind value = Some "usage_update"%string) then
    match jget "update" value with
    | None => None
    | Some update =>
        match read_token_field update "used", read_token_field update "size" with
        | Some used, Some size =>
            Some (JsObject ([("session_id"%string, JsString session_id); ("context_window_used"%string, JsInt used);
                             ("context_window_max"%string, JsInt size)]
              ++ field "cost_amount" (jget "cost" update ?> jget "amount" ?> as_float)
              ++ field "cost_currency" (JsString <$> (jget "cost" update ?> jget "currency" ?> as_str))))
        | _, _ => None
        end
    end
  else
    match locate_usage_object value with
    | None => None
    | Some usage =>
        let input_tokens := read_token_field usage "input_tokens" in
        let output_tokens := read_token_field usage "output_tokens" in
        let context_window_max := match read_token_field usage "context_window_max" with
                                  | Some n => Some n
                                  | None => read_token_field usage "context_window"
                                  end in
        match input_tokens, output_tokens, context_window_max with
        | None, None, None => None
        | _, _, _ =>
            Some (JsObject ([("session_id"%string, JsString session_id)]
              ++ field "input_tokens" (JsInt <$> input_tokens)
              ++ field "output_tokens" (JsInt <$> output_tokens)
              ++ field "context_window_max" (JsInt <$> context_window_max)))
        end
    end.
End payloads.

Definition extract_execute_tool_call (session_id : string) (value : Json) : option Json :=
  match jget "update" value with
  | None => None
  | Some update =>
      match jget "sessionUpdate" update ?> as_str with
      | None => None
      | Some update_kind =>
          if negb (bool_decide (update_kind = "tool_call"%string) || bool_decide (update_kind = "tool_call_update"%string))
          then None
          else if negb (bool_decide (jget "kind" update ?> as_str = Some "execute"%string)) then None
          else
            match jget "toolCallId" update ?> as_str with
            | None => None
            | Some tool_call_id =>
                Some (JsObject ([("session_id"%string, JsString session_id); ("tool_call_id"%string, JsString tool_call_id)]
                  ++ field "status" (JsString <$> (jget "status" update ?> as_str))
                  ++ field "title" (JsString <$> (jget "title" update ?> as_str))
                  ++ field "command" (JsString <$> (jget "rawInput" update ?> jget "command" ?> as_str))))
            end
      end
  end.

(** ** Projections *)

Definition MAX_SESSION_AVAILABLE_COMMANDS : nat := 256.
Definition MAX_SESSION_CONFIG_OPTIONS : nat := 64.
Definition SESSION_INFO_UPDATE_KIND : string := "session_info_update".
Definition AVAILABLE_COMMANDS_UPDATE_KIND : string := "available_commands_update".
Definition CONFIG_OPTION_UPDATE_KIND : string := "config_option_update".

(** [MaybeUndefined] of the protocol crate. *)
Inductive MaybeUndefined (T : Type) := Undefined | Null | Value (v : T).
Arguments Undefined {T}.
Arguments Null {T}.
Arguments Value {T} v.

Record SessionAvailableCommand := mkAvailable { ac_name : string; ac_description : string; ac_input_hint : option string }.

(** The typed updates the projections read; [C] is a configuration option. *)
Inductive SessionUpdate (J C : Type) :=
| SessionInfoUpdate (title updated_at : MaybeUndefined string) (meta : option (gmap string J))
| AvailableCommandsUpdate (commands : list SessionAvailableCommand)
| ConfigOptionUpdate (options : list C)
| OtherUpdate.
Arguments SessionInfoUpdate {J C} title updated_at meta.
Arguments AvailableCommandsUpdate {J C} commands.
Arguments ConfigOptionUpdate {J C} options.
Arguments OtherUpdate {J C}.

Definition double_option {T} (v : MaybeUndefined T) : option (option T) :=
  match v with Undefined => None | Null => Some None | Value v => Some (Some v) end.

Record SubagentUpdate := mkSubagentUpdate {
  su_session_id : string;
  su_title : MaybeUndefined string;
  su_description : MaybeUndefined string;
  su_state : MaybeUndefined (option string);      (* its JSON text, if it encodes *)
  su_capabilities : MaybeUndefined bool;          (* whether the set has cancel *)
}.

Definition field_patch (value : MaybeUndefined string) : FieldPatch string :=
  match value with Undefined => Keep | Null => Clear | Value v => SetTo v end.

Definition subagent_patch (update : SubagentUpdate) : SubagentPatch :=
  mkPatch (su_session_id update) (field_patch (su_title update)) (field_patch (su_description update))
    (match su_state update with Undefined => Keep | Null => Clear | Value (Some json) => SetTo json | Value None => Keep end)
    (match su_capabilities update with Undefined => None | Null => Some false | Value cancel => Some cancel end).

Record SessionEventRow := mkRow { sr_session_id : string; sr_kind : string; sr_payload_json : string }.

Section rows.
Context (json_valid json_parses : string -> bool) (external : bool).
Context {J C : Type} `{!EqDecision J} `{!MetadataJson J}.
(** What the JSON library and the protocol crate give: the value of a payload, its
    text, the typed update inside it, and the JSON of the stored snapshots;
    [project_config_options] is the snapshot of configuration options. *)
Context (as_float : Json -> option Json) (to_text : Json -> option string)
  (decode : Json -> option (SessionUpdate J C))
  (commands_value : list SessionAvailableCommand -> option J) (options_value : list C -> option J)
  (project_config_options : list C -> list C).

Definition typed_session_update (payload : Json) (expected_kind : string) : result StackError (option (SessionUpdate J C)) :=
  if negb (bool_decide (session_update_kind payload = Some expected_kind)) then Ok None
  else match jget "update" payload with
       | None => Ok None
       | Some update =>
           match decode update with
           | Some u => Ok (Some u)
           | None => Err (StateInvalidJson "session.update.update")
           end
       end.

Definition project_session_info_update (session_id : string) (payload : Json) (now : string) : M unit :=
  match typed_session_update payload SESSION_INFO_UPDATE_KIND with
  | Err e => fail e
  | Ok (Some (SessionInfoUpdate title updated_at meta)) =>
      update_session_info json_valid external session_id (double_option title) (double_option updated_at) meta now
  | Ok _ => ret tt
  end.

Definition project_available_commands_update (session_id : string) (payload : Json) (now : string) : M unit :=
  match typed_session_update payload AVAILABLE_COMMANDS_UPDATE_KIND with
  | Err e => fail e
  | Ok (Some (AvailableCommandsUpdate commands)) =>
      let* _ := replace_session_available_commands json_valid external session_id
                  (commands_value (take MAX_SESSION_AVAILABLE_COMMANDS commands)) now in
      ret tt
  | Ok _ => ret tt
  end.

Definition project_config_options_update (session_id : string) (payload : Json) (now : string) : M unit :=
  match typed_session_update payload CONFIG_OPTION_UPDATE_KIND with
  | Err e => fail e
  | Ok (Some (ConfigOptionUpdate options)) =>
      match options_value (take MAX_SESSION_CONFIG_OPTIONS (project_config_options options)) with
      | None => fail (StateInvalidJson "sessions.metadata_json")
      | Some value =>
          let* _ := replace_session_config_options json_valid external session_id value now in ret tt
      end
  | Ok _ => ret tt
  end.

(** A derived event, when the update carries one that prints. *)
Definition derived_event (session_id kind message : string) (derived : option Json) (event_id now : string) : M unit :=
  match derived ?> to_text with
  | None => ret tt
  | Some text =>
      attempt (append_session_event_with_source json_valid external session_id "info" kind EVENT_SOURCE_ACP message
                 text event_id now)
  end.

(** Only the update's own row can fail the job of a row. [ids] are its fresh event
    ids. *)
Definition persist_session_row (row : SessionEventRow) (payload : Json) (ids : nat -> string) (now : string) : M unit :=
  let id := sr_session_id row in
  append_session_update json_valid external json_parses id (sr_kind row) (sr_payload_json row) (ids 0%nat) now ;;
  attempt (project_session_info_update id payload now) ;;
  attempt (project_available_commands_update id payload now) ;;
  attempt (project_config_options_update id payload now) ;;
  derived_event id "usage.reported" "agent usage reported" (extract_usage_payload as_float id payload) (ids 1%nat) now ;;
  derived_event id "tool.execute" "agent execute tool call" (extract_execute_tool_call id payload) (ids 2%nat) now.

(** [write_session_rows]: each row is its own scope; a failing one is logged. *)
Fixpoint write_session_rows (rows : list (SessionEventRow * Json)) (ids : nat -> nat -> string) (now : string) : M unit :=
  match rows with
  | [] => ret tt
  | (row, payload) :: rest =>
      attempt (persist_session_row row payload (ids (length rest)) now) ;;
      write_session_rows rest ids now
  end.
End rows.

(** ** The sink *)

Definition SESSION_EVENT_BUFFER : nat := 1024.
Definition SESSION_WRITE_BATCH_MAX : nat := 128.

Inductive SessionWrite := WriteRow (row : SessionEventRow) | WriteBarrier (ack : nat).

Record Sink := mkSink {
  sk_store : Store;
  sk_ids : gmap string string;         (* agent session id to local session id *)
  sk_generation : Z;
  sk_messages : gmap string string;    (* last agent message id *)
  sk_queue : list SessionWrite;
  sk_taken : list SessionWrite;        (* the batch the writer works on *)
  sk_open : bool;
  sk_acked : gset nat;
  sk_barriers : nat;                   (* barriers created so far *)
  (* Ghost state: everything queued and everything written, the agent session each
     local id belongs to, the deleted ids that were forgotten, and the ids that were
     cached when their session had no row. *)
  sk_sent : list SessionWrite;
  sk_log : list SessionWrite;
  sk_owner : gmap string string;
  sk_dead : gset string;
  sk_revived : gset string;
}.

Definition set_sk_store (st : Store) (s : Sink) : Sink :=
  mkSink st (sk_ids s) (sk_generation s) (sk_messages s) (sk_queue s) (sk_taken s) (sk_open s) (sk_acked s)
    (sk_barriers s) (sk_sent s) (sk_log s) (sk_owner s) (sk_dead s) (sk_revived s).
Definition set_cache (ids : gmap string string) (generation : Z) (dead : gset string) (s : Sink) : Sink :=
  mkSink (sk_store s) ids generation (sk_messages s) (sk_queue s) (sk_taken s) (sk_open s) (sk_acked s)
    (sk_barriers s) (sk_sent s) (sk_log s) (sk_owner s) dead (sk_revived s).
Definition set_remembered (ids : gmap string string) (revived : gset string) (s : Sink) : Sink :=
  mkSink (sk_store s) ids (sk_generation s) (sk_messages s) (sk_queue s) (sk_taken s) (sk_open s) (sk_acked s)
    (sk_barriers s) (sk_sent s) (sk_log s) (sk_owner s) (sk_dead s) revived.
Definition set_messages (messages : gmap string string) (s : Sink) : Sink :=
  mkSink (sk_store s) (sk_ids s) (sk_generation s) messages (sk_queue s) (sk_taken s) (sk_open s) (sk_acked s)
    (sk_barriers s) (sk_sent s) (sk_log s) (sk_owner s) (sk_dead s) (sk_revived s).
Definition close_sink (s : Sink) : Sink :=
  mkSink (sk_store s) (sk_ids s) (sk_generation s) (sk_messages s) (sk_queue s) (sk_taken s) false (sk_acked s)
    (sk_barriers s) (sk_sent s) (sk_log s) (sk_owner s) (sk_dead s) (sk_revived s).
Definition push (w : SessionWrite) (barriers : nat) (s : Sink) : Sink :=
  mkSink (sk_store s) (sk_ids s) (sk_generation s) (sk_messages s) (sk_queue s ++ [w]) (sk_taken s) (sk_open s)
    (sk_acked s) barriers (sk_sent s ++ [w]) (sk_log s) (sk_owner s) (sk_dead s) (sk_revived s).

(** What an action takes from outside: whether the database answers, whether the
    agent confirms, fresh ids and the time. *)
Record SinkEnv := mkEnv { en_io : bool; en_agent : bool; en_id : nat -> string; en_now : string }.

Section sink.
Context (json_valid json_parses : string -> bool) (external : bool).
Context (announced_payload : string -> string -> string -> string).
Context (target_id : string).

Notation Prog := (Proc SinkEnv Sink) (only parsing).
Local Open Scope proc_scope.

(** [state.write] and [state.read]. *)
Definition sink_write {A} (job : (nat -> string) -> string -> M A) : Prog (result StackError A) :=
  atomic (fun e s =>
    match write_job (en_io e) (job (en_id e) (en_now e)) (sk_store s) with
    | Ok (a, st') => (Ok a, set_sk_store st' s)
    | Err err => (Err err, s)
    end).
Definition sink_read {A} (f : Store -> A) : Prog (option A) :=
  atomic (fun e s => (if en_io e then Some (f (sk_store s)) else None, s)).

(** A hit, or the generation before the read. *)
Definition cache_lookup (agent : string) (s : Sink) : string + Z :=
  match sk_ids s !! agent with Some id => inl id | None => inr (sk_generation s) end.

Definition local_session_id (agent_session_id : string) : Prog (option string) :=
  let% hit := atomic (fun _ s => (cache_lookup agent_session_id s, s)) in
  match hit with
  | inl session_id => Done (Some session_id)
  | inr generation =>
      let% record := sink_read (get_session_by_target_agent_session_id target_id agent_session_id) in
      match record with
      | Some (Some record) =>
          let% _ := atomic (fun _ s =>
            (tt, if sk_generation s =? generation
                 then set_cache (<[agent_session_id := s_id record]> (sk_ids s)) (sk_generation s) (sk_dead s) s else s)) in
          Done (Some (s_id record))
      | Some None | None => Done None
      end
  end.

(** The row that a cached id stands for. *)
Definition has_row (agent_session_id local_session_id : string) (s : Sink) : bool :=
  match st_sessions (sk_store s) !! local_session_id with
  | Some r => bool_decide (s_agent_session_id r = agent_session_id)
  | None => false
  end.

(** Neither the generation nor the store is looked at; the ghost set gains an id
    without a row. *)
Definition remember_local_session (agent_session_id local_session_id : string) : Prog unit :=
  atomic (fun _ s =>
    (tt, set_remembered (<[agent_session_id := local_session_id]> (sk_ids s))
           (if has_row agent_session_id local_session_id s then sk_revived s else {[ local_session_id ]} ∪ sk_revived s) s)).

(** [session] is the row the caller means; the ghost set gains its id if the row is
    gone. *)
Definition forget_session (session : SessionRow) : Prog unit :=
  let% _ := atomic (fun _ s =>
    (tt, set_cache (delete (s_agent_session_id session) (sk_ids s)) (sk_generation s + 1)
           (match st_sessions (sk_store s) !! s_id session with
            | None => {[ s_id session ]} ∪ sk_dead s
            | Some _ => sk_dead s
            end) s)) in
  atomic (fun _ s => (tt, set_messages (delete (s_agent_session_id session) (sk_messages s)) s)).

Definition take_last_agent_message_id (agent_session_id : string) : Prog (option string) :=
  atomic (fun _ s => (sk_messages s !! agent_session_id, set_messages (delete agent_session_id (sk_messages s)) s)).

Definition session_cwd (agent_session_id : string) : Prog (option string) :=
  let% record := sink_read (get_session_by_target_agent_session_id target_id agent_session_id) in
  Done match record with Some (Some r) => Some (s_cwd r) | _ => None end.

(** [message_id] is that of an agent message chunk, [tool_call] says that the update
    carries diffs; the tracker of changed files takes those under the local id.
    False when the session is unknown. *)
Definition capture_session_update (agent_session_id : string) (message_id : option string) (tool_call : bool) : Prog bool :=
  let% _ := match message_id with
            | Some m => atomic (fun _ s => (tt, set_messages (<[agent_session_id := m]> (sk_messages s)) s))
            | None => Done tt
            end in
  if negb tool_call then Done true
  else
    let% found := local_session_id agent_session_id in
    Done match found with Some _ => true | None => false end.

(** The sender is cloned under the lock; a closed sink drops the update. The answer
    is the session the update was queued for. *)
Definition append (agent_session_id kind payload_json : string) : Prog (option string) :=
  let% found := local_session_id agent_session_id in
  match found with
  | None => Done None
  | Some session_id =>
      let% open := atomic (fun _ s => (sk_open s, s)) in
      if open then
        atomic (fun _ s => (Some session_id, push (WriteRow (mkRow session_id kind payload_json)) (sk_barriers s) s))
      else Done None
  end.

(** What a drain logs: nothing when its barrier was acknowledged or the sink is
    closed, a warning when the wait gave up. *)
Inductive Drained := DrainAcknowledged | DrainGaveUp | DrainClosed.

Definition drain : Prog Drained :=
  let% open := atomic (fun _ s => (sk_open s, s)) in
  if open then
    let% ack := atomic (fun _ s => (sk_barriers s, push (WriteBarrier (sk_barriers s)) (S (sk_barriers s)) s)) in
    atomic (fun _ s => (if bool_decide (ack ∈ sk_acked s) then DrainAcknowledged else DrainGaveUp, s))
  else Done DrainClosed.

(** The wait for the writer task to end is not modelled. *)
Definition flush : Prog unit := atomic (fun _ s => (tt, close_sink s)).

(** The roots that resolve. *)
Fixpoint replaying_roots (replaying : list string) : Prog (list string) :=
  match replaying with
  | [] => Done []
  | root :: rest =>
      let% found := local_session_id root in
      let% roots := replaying_roots rest in
      Done match found with Some id => id :: roots | None => roots end
  end.

Definition record_subagent_update (agent_session_id : string) (update : SubagentUpdate) (payload_json : string)
    (replaying : list string) : Prog (option string) :=
  let% parent := local_session_id agent_session_id in
  match parent with
  | None => Done None
  | Some parent_session_id =>
      let patch := subagent_patch update in
      let% roots := replaying_roots replaying in
      let% _ := drain in
      let% applied := sink_write (fun ids now =>
        SubagentStore.record_subagent_update json_valid json_parses external announced_payload parent_session_id payload_json patch roots
          (ids 0%nat) (ids 1%nat) (ids 2%nat) now now now) in
      match applied with
      | Ok (Announced child _ historical) =>
          let% _ := remember_local_session (pt_agent_session_id patch) child in
          Done (if historical then None else Some child)
      | Ok (Updated child historical) => Done (if historical then None else Some child)
      | Ok (Rejected _) | Err _ => Done None
      end
  end.

Definition withdraw_subagent_state (agent_session_id : string) : Prog unit :=
  let% root := local_session_id agent_session_id in
  match root with
  | None => Done tt
  | Some root_session_id =>
      let% _ := sink_write (fun _ now => SubagentStore.withdraw_subagent_state external root_session_id now) in Done tt
  end.

(** ** Deleting a session *)

Fixpoint forget_all (sessions : list SessionRow) : Prog unit :=
  match sessions with
  | [] => Done tt
  | session :: rest => let% _ := forget_session session in forget_all rest
  end.

(** The rows of a root's subagents. *)
Definition subagent_sessions (root_session_id : string) (st : Store) : list SessionRow :=
  omap (fun id => st_sessions st !! id) (subagent_ids_of_root root_session_id st).

Inductive DeleteError := DeleteRefused | DeleteFailed (e : option StackError).

(** [DELETE] of a session in the supervisor: pending permissions and prompts are
    settled by their own services. *)
Definition delete_session_handler (session_id : string) : Prog (result DeleteError (option SessionRow)) :=
  let% looked := sink_read (fun st => (get_session session_id st, get_subagent session_id st)) in
  match looked with
  | None => Done (Err (DeleteFailed None))
  | Some (_, Some _) => Done (Err DeleteRefused)
  | Some (None, None) => Done (Ok None)
  | Some (Some record, None) =>
      let% confirmed := atomic (fun e s => (en_agent e, s)) in
      if negb confirmed then Done (Err (DeleteFailed None))
      else
        let% _ := drain in
        let% subagents := sink_read (subagent_sessions session_id) in
        match subagents with
        | None => Done (Err (DeleteFailed None))
        | Some subagents =>
            let doomed := record :: subagents in
            let% _ := forget_all doomed in
            let% deleted := sink_write (fun _ now => SessionStore.delete_session external session_id now) in
            let% _ := forget_all doomed in
            Done match deleted with Ok r => Ok r | Err e => Err (DeleteFailed (Some e)) end
        end
  end.

(** ** The sink's callers *)

Inductive SinkRequest :=
| ReqLookup (agent : string)
| ReqRemember (agent local : string)  (* the release of the updates held for an opening session *)
| ReqCapture (agent : string) (message_id : option string) (tool_call : bool)
| ReqTakeMessage (agent : string)
| ReqCwd (agent : string)
| ReqAppend (agent kind payload : string)
| ReqDrain
| ReqFlush
| ReqWithdraw (agent : string)
| ReqDelete (session_id : string).

(** The bridge hands over announcements of subagents too. *)
Inductive BridgeRequest :=
| ReqSink (r : SinkRequest)
| ReqSubagent (agent : string) (update : SubagentUpdate) (payload : string) (replaying : list string).

Inductive SinkAnswer :=
| AnsUnit
| AnsBool (b : bool)
| AnsText (text : option string)
| AnsSession (id : option string)
| AnsDrained (d : Drained)
| AnsDeleted (r : result DeleteError (option SessionRow)).

Definition answer {A} (f : A -> SinkAnswer) (p : Prog A) : Prog SinkAnswer := let% a := p in Done (f a).

Definition sink_program (r : SinkRequest) : Prog SinkAnswer :=
  match r with
  | ReqLookup agent => answer AnsSession (local_session_id agent)
  | ReqRemember agent local => answer (fun _ => AnsUnit) (remember_local_session agent local)
  | ReqCapture agent message_id tool_call => answer AnsBool (capture_session_update agent message_id tool_call)
  | ReqTakeMessage agent => answer AnsText (take_last_agent_message_id agent)
  | ReqCwd agent => answer AnsText (session_cwd agent)
  | ReqAppend agent kind payload => answer AnsSession (append agent kind payload)
  | ReqDrain => answer AnsDrained drain
  | ReqFlush => answer (fun _ => AnsUnit) flush
  | ReqWithdraw agent => answer (fun _ => AnsUnit) (withdraw_subagent_state agent)
  | ReqDelete session_id => answer AnsDeleted (delete_session_handler session_id)
  end.

Definition bridge_program (r : BridgeRequest) : Prog SinkAnswer :=
  match r with
  | ReqSink r => sink_program r
  | ReqSubagent agent update payload replaying => answer AnsText (record_subagent_update agent update payload replaying)
  end.

(** A sink just opened over a store. *)
Definition sink_start (st : Store) : Sink :=
  mkSink st ∅ 0 ∅ [] [] true ∅ 0 [] [] (s_agent_session_id <$> st_sessions st) ∅ ∅.
End sink.

(** ** The writer and the rest of the daemon *)

Section writer.
Context (json_valid json_parses : string -> bool) (external : bool).
Context {J C : Type} `{!EqDecision J} `{!MetadataJson J}.
Context (parse : string -> option Json).
Context (as_float : Json -> option Json) (to_text : Json -> option string)
  (decode : Json -> option (SessionUpdate J C))
  (commands_value : list SessionAvailableCommand -> option J) (options_value : list C -> option J)
  (project_config_options : list C -> list C).

(** The rows of a batch that are JSON; the others are dropped. *)
Definition batch_rows (writes : list SessionWrite) : list (SessionEventRow * Json) :=
  omap (fun w => match w with
                 | WriteRow row => (fun payload => (row, payload)) <$> parse (sr_payload_json row)
                 | WriteBarrier _ => None
                 end) writes.

Definition batch_barriers (writes : list SessionWrite) : list nat :=
  omap (fun w => match w with WriteBarrier ack => Some ack | WriteRow _ => None end) writes.

(** One job, tried again once if it fails. *)
Definition write_batch (io1 io2 : bool) (rows : list (SessionEventRow * Json)) (ids : nat -> nat -> string) (now : string)
    (st : Store) : Store :=
  let job := write_session_rows json_valid json_parses external as_float to_text decode commands_value options_value
               project_config_options rows ids now in
  match rows with
  | [] => st
  | _ =>
      match write_job io1 job st with
      | Ok (_, st') => st'
      | Err _ => match write_job io2 job st with Ok (_, st') => st' | Err _ => st end
      end
  end.

Definition writer_take (n : nat) (s : Sink) : option Sink :=
  match sk_taken s with
  | [] =>
      if ((n =? 0) || (SESSION_WRITE_BATCH_MAX <? n) || (length (sk_queue s) <? n))%nat then None
      else Some (mkSink (sk_store s) (sk_ids s) (sk_generation s) (sk_messages s) (drop n (sk_queue s)) (take n (sk_queue s))
             (sk_open s) (sk_acked s) (sk_barriers s) (sk_sent s) (sk_log s) (sk_owner s) (sk_dead s) (sk_revived s))
  | _ => None
  end.

(** The barriers of a batch are acknowledged once its rows are written. *)
Definition writer_write (io1 io2 : bool) (ids : nat -> nat -> string) (now : string) (s : Sink) : Sink :=
  mkSink (write_batch io1 io2 (batch_rows (sk_taken s)) ids now (sk_store s)) (sk_ids s) (sk_generation s) (sk_messages s)
    (sk_queue s) [] (sk_open s) (list_to_set (batch_barriers (sk_taken s)) ∪ sk_acked s) (sk_barriers s) (sk_sent s)
    (sk_log s ++ sk_taken s) (sk_owner s) (sk_dead s) (sk_revived s).

(** What a row is for the sink. *)
Definition ident (r : SessionRow) : string * string := (s_id r, s_agent_session_id r).

(** The rest of the daemon adds rows under ids never used before; it keeps the ids of
    a row it updates. *)
Definition daemon_step (s s' : Sink) : Prop :=
  exists st' new,
    s' = mkSink st' (sk_ids s) (sk_generation s) (sk_messages s) (sk_queue s) (sk_taken s) (sk_open s) (sk_acked s)
           (sk_barriers s) (sk_sent s) (sk_log s) (new ∪ sk_owner s) (sk_dead s) (sk_revived s)
    /\ (forall l r', is_Some (sk_owner s !! l) -> st_sessions st' !! l = Some r' ->
          exists r, st_sessions (sk_store s) !! l = Some r /\ ident r' = ident r)
    /\ (forall l r, sk_owner s !! l = None -> st_sessions st' !! l = Some r -> s_id r = l /\ new !! l = Some (s_agent_session_id r))
    /\ (forall l a, new !! l = Some a -> sk_owner s !! l = None).

Inductive sink_interferes : Sink -> Sink -> Prop :=
| si_take s n s' : writer_take n s = Some s' -> sink_interferes s s'
| si_write s io1 io2 ids now : sink_interferes s (writer_write io1 io2 ids now s)
| si_daemon s s' : daemon_step s s' -> sink_interferes s s'.
End writer.
