(* ===== verification/SinkSafety.v ===== *)
(** What the session sink guarantees: updates reach the store in the order they
    were queued and an acknowledged drain waited for them, and an update never
    resolves to a session whose deletion has finished. Proved over every interleaving
    of the sink's methods with its writer, deletions and the rest of the daemon. *)

From S2P Require Import Prelude Text Async Store SinkOutbox ChangeFeed SessionEvents PromptStore SessionStore.
From S2P Require Import PermissionService CommandGateway GatewaySafety SubagentStore SessionListing SessionQueries SessionSink.
Open Scope Z_scope.
Open Scope result_scope.

(** ** Moves that keep an invariant *)

Section moves.
Context {Env St : Type} (Inv : St -> Prop) (le : St -> St -> Prop) `{!PreOrder le}.

(** From a good state the others, and the program, only go to later good states. *)
Definition moves (s s' : St) : Prop := Inv s -> Inv s' /\ le s s'.

#[export] Instance moves_preorder : PreOrder moves.
Proof.
  split; [by intros s Hs; split; [|reflexivity]|].
  intros a b c Hab Hbc Ha. destruct (Hab Ha) as [Hb Hle]. destruct (Hbc Hb) as [Hc Hle'].
  split; [done|]. by trans b.
Qed.

Notation triple := (safe (Env := Env) (fun _ => True) moves moves).

(** What holds of a result in a good state that is later than [s0]. *)
Definition later {A} (s0 : St) (P : A -> St -> Prop) (a : A) (s : St) : Prop := Inv s /\ le s0 s /\ P a s.
Definition anything {A} (_ : A) (_ : St) : Prop := True.

Lemma later_stable {A} s0 (P : A -> St -> Prop) :
  (forall a s s', Inv s -> Inv s' -> le s s' -> P a s -> P a s') -> stable moves (later s0 P).
Proof.
  intros HP a s s' (Hs & Hle & Ha) Hm. destruct (Hm Hs) as [Hs' Hle']. split; [done|]. split; [by trans s|].
  exact (HP a s s' Hs Hs' Hle' Ha).
Qed.

Lemma later_trans {A} s0 s1 (P Q : A -> St -> Prop) p s :
  le s0 s1 -> (forall a s, Inv s -> le s1 s -> P a s -> Q a s) -> triple (later s1 P) p s -> triple (later s0 Q) p s.
Proof.
  intros Hle HPQ. apply safe_mono. intros a s' (Hs & Hle' & Ha). split; [done|]. split; [by trans s1|]. by apply HPQ.
Qed.

Lemma step_safe {A} (P : A -> St -> Prop) (f : Env -> St -> A * St) s :
  Inv s -> (forall e s1 s2 a, Inv s1 -> le s s1 -> f e s1 = (a, s2) -> Inv s2 /\ le s1 s2 /\ P a s2) ->
  triple (later s P) (atomic f) s.
Proof.
  intros Hs Hf. apply safe_atomic. intros e s1 _ Hm. destruct (Hm Hs) as [H1 Hle].
  destruct (f e s1) as [a s2] eqn:E. destruct (Hf e s1 s2 a H1 Hle E) as (H2 & Hle2 & Ha).
  split; [by intros _|]. split; [done|]. split; [by trans s1|done].
Qed.

(** An action that only looks. *)
Lemma look_safe {A} (P : A -> St -> Prop) (f : Env -> St -> A) s :
  Inv s -> (forall e s1, Inv s1 -> le s s1 -> P (f e s1) s1) -> triple (later s P) (atomic (fun e s => (f e s, s))) s.
Proof. intros Hs HP. apply step_safe; [done|]. intros e s1 s2 a H1 Hle [= <- <-]. split; [done|]. split; [reflexivity|auto]. Qed.

Lemma bind_safe {A B} (P : A -> St -> Prop) (Q : B -> St -> Prop) (p : Proc Env St A) (f : A -> Proc Env St B) s :
  triple (later s P) p s ->
  (forall a s1, Inv s1 -> le s s1 -> P a s1 -> triple (later s1 Q) (f a) s1) ->
  triple (later s Q) (pbind p f) s.
Proof.
  intros Hp Hf. apply safe_bind. eapply safe_mono; [|exact Hp]. intros a s1 (H1 & Hle & Ha). simpl.
  apply (later_trans s s1 Q Q); [done|by intros|]. by apply Hf.
Qed.

Lemma done_safe {A} (P : A -> St -> Prop) (a : A) s : Inv s -> P a s -> triple (later s P) (Done a) s.
Proof. intros Hs Ha. split; [done|]. split; [reflexivity|done]. Qed.
End moves.
#[export] Hint Extern 0 (anything _ _) => exact I : core.

(** ** Order *)

Section order.
Context (json_valid json_parses : string -> bool) (external : bool) (announced_payload : string -> string -> string -> string).
Context (target_id : string).

(** Everything queued is written, being written or waiting, in order; a barrier is
    queued once and acknowledged after it was handled. *)
Record queue_inv (s : Sink) : Prop := mkQueueInv {
  qi_sent : sk_sent s = sk_log s ++ sk_taken s ++ sk_queue s;
  qi_acked : forall a, a ∈ sk_acked s -> WriteBarrier a ∈ sk_log s;
  qi_fresh : forall a, WriteBarrier a ∈ sk_sent s -> (a < sk_barriers s)%nat;
  qi_once : forall i j a, sk_sent s !! i = Some (WriteBarrier a) -> sk_sent s !! j = Some (WriteBarrier a) -> i = j;
}.

Definition queue_le (s s' : Sink) : Prop := sk_sent s `prefix_of` sk_sent s' /\ sk_log s `prefix_of` sk_log s'.
#[export] Instance queue_le_preorder : PreOrder queue_le.
Proof. split; [by intros s|]. intros a b c [? ?] [? ?]. split; by etrans. Qed.

(** The queue, as the methods see it. *)
Definition same_queue (s s' : Sink) : Prop :=
  sk_sent s' = sk_sent s /\ sk_log s' = sk_log s /\ sk_taken s' = sk_taken s /\ sk_queue s' = sk_queue s
  /\ sk_acked s' = sk_acked s /\ sk_barriers s' = sk_barriers s.

Lemma same_queue_moves s s' : queue_inv s -> same_queue s s' -> queue_inv s' /\ queue_le s s'.
Proof.
  intros [H1 H2 H3 H4] (E1 & E2 & E3 & E4 & E5 & E6). split; [|by unfold queue_le; rewrite E1, E2].
  constructor; by rewrite ?E1, ?E2, ?E3, ?E4, ?E5, ?E6.
Qed.

Lemma push_row_moves row s : queue_inv s -> queue_inv (push (WriteRow row) (sk_barriers s) s).
Proof.
  intros [H1 H2 H3 H4]. constructor; simpl.
  - by rewrite H1, <- !(assoc_L (++)).
  - done.
  - intros a [Hin|Hin%list_elem_of_singleton]%elem_of_app; [by apply H3|done].
  - intros i j a [Hi|[_ Hi]]%lookup_app_Some [Hj|[_ Hj]]%lookup_app_Some;
      try (apply list_lookup_singleton_Some in Hi as [_ ?]; done);
      try (apply list_lookup_singleton_Some in Hj as [_ ?]; done). by eapply H4.
Qed.

Lemma push_barrier_moves s :
  queue_inv s -> queue_inv (push (WriteBarrier (sk_barriers s)) (S (sk_barriers s)) s).
Proof.
  intros [H1 H2 H3 H4]. constructor; simpl.
  - by rewrite H1, <- !(assoc_L (++)).
  - done.
  - intros a [Hin%H3|[= ->]%list_elem_of_singleton]%elem_of_app; lia.
  - intros i j a [Hi|[Hli Hi]]%lookup_app_Some [Hj|[Hlj Hj]]%lookup_app_Some.
    + by eapply H4.
    + apply list_lookup_singleton_Some in Hj as [_ [= <-]].
      apply list_elem_of_lookup_2, H3 in Hi. lia.
    + apply list_lookup_singleton_Some in Hi as [_ [= <-]].
      apply list_elem_of_lookup_2, H3 in Hj. lia.
    + apply list_lookup_singleton_Some in Hi as [Ei _]. apply list_lookup_singleton_Some in Hj as [Ej _]. lia.
Qed.

Lemma push_le w n s : queue_le s (push w n s).
Proof. split; simpl; [by eexists|done]. Qed.

Notation triple := (safe (fun _ : SinkEnv => True) (moves queue_inv queue_le) (moves queue_inv queue_le)).
Notation lasts := (later queue_inv queue_le).

(** An action beside the queue. *)
Lemma beside_queue {A} (f : SinkEnv -> Sink -> A * Sink) s :
  queue_inv s -> (forall e s1, same_queue s1 (f e s1).2) -> triple (lasts s anything) (atomic f) s.
Proof.
  intros Hs Hf. apply (step_safe queue_inv queue_le); [done|]. intros e s1 s2 a H1 _ E. specialize (Hf e s1).
  rewrite E in Hf. destruct (same_queue_moves _ _ H1 Hf). by split_and!.
Qed.

(** Every method keeps the queue in order. *)
Ltac queue_step :=
  first
    [ apply (bind_safe queue_inv queue_le anything); [|intros ? ? ? ? _]
    | apply (done_safe queue_inv queue_le); [done|done]
    | apply beside_queue; [done|intros ? ?; simpl; repeat case_match; by split_and!]
    | progress case_match ].
Ltac queue_walk := repeat queue_step.

Lemma lookup_queue agent s : queue_inv s -> triple (lasts s anything) (local_session_id target_id agent) s.
Proof. intros Hs. unfold local_session_id, sink_read. queue_walk. Qed.

Lemma write_queue {A} (job : (nat -> string) -> string -> M A) s :
  queue_inv s -> triple (lasts s anything) (sink_write job) s.
Proof. intros Hs. unfold sink_write. queue_walk. Qed.

Lemma read_queue {A} (f : Store -> A) s : queue_inv s -> triple (lasts s anything) (sink_read f) s.
Proof. intros Hs. unfold sink_read. queue_walk. Qed.

Lemma append_queue agent kind payload s :
  queue_inv s -> triple (lasts s anything) (append target_id agent kind payload) s.
Proof.
  intros Hs. unfold append. apply (bind_safe queue_inv queue_le anything); [by apply lookup_queue|]. intros found s1 H1 _ _.
  queue_walk. apply (step_safe queue_inv queue_le); [done|]. intros e s4 s5 a' H4 _ [= _ <-].
  split; [by apply push_row_moves|]. split; [apply push_le|done].
Qed.

(** An acknowledged drain ends after everything queued before it was handled. *)
Definition drained (before : Sink) (d : Drained) (s : Sink) : Prop :=
  d = DrainAcknowledged -> sk_sent before `prefix_of` sk_log s.

Lemma drained_stable before d s s' : queue_le s s' -> drained before d s -> drained before d s'.
Proof. intros [_ Hlog] Hd E. etrans; [by apply Hd|done]. Qed.

Lemma barrier_reached (pre : list SessionWrite) a s :
  queue_inv s -> pre ++ [WriteBarrier a] `prefix_of` sk_sent s -> a ∈ sk_acked s -> pre `prefix_of` sk_log s.
Proof.
  intros Hs [rest Hpre] Ha. destruct Hs as [H1 H2 _ H4]. apply H2, list_elem_of_lookup in Ha as [j Hj].
  assert (Hb : sk_sent s !! length pre = Some (WriteBarrier a)).
  { rewrite Hpre, <- (assoc_L (++)), lookup_app_r, Nat.sub_diag by lia. done. }
  assert (j = length pre) as ->. { eapply H4; [|done]. rewrite H1. by apply lookup_app_l_Some. }
  apply lookup_lt_Some in Hj. exists (drop (length pre) (sk_log s)).
  assert (Ht : take (length pre) (sk_log s) = pre).
  { rewrite <- (take_app_le (sk_log s) (sk_taken s ++ sk_queue s)) by lia.
    rewrite <- H1, Hpre, <- (assoc_L (++)). by rewrite take_app_length. }
  by rewrite <- Ht at 1; rewrite take_drop.
Qed.

Lemma drain_queue s : queue_inv s -> triple (lasts s (drained s)) drain s.
Proof.
  intros Hs. unfold drain. apply (bind_safe queue_inv queue_le anything); [queue_walk|]. intros open s1 H1 Hle1 _.
  destruct open; [|by apply (done_safe queue_inv queue_le)].
  apply (bind_safe queue_inv queue_le
    (fun a s2 => exists mid, sk_sent s1 `prefix_of` mid /\ mid ++ [WriteBarrier a] `prefix_of` sk_sent s2)).
  - apply (step_safe queue_inv queue_le); [done|]. intros e s2 s3 a H2 [Hle2 _] [= <- <-].
    split; [by apply push_barrier_moves|]. split; [apply push_le|]. exists (sk_sent s2). by split.
  - intros a s3 H3 _ (mid & Hmid & Hb). apply (look_safe queue_inv queue_le); [done|]. intros e s4 H4 [Hle4 _].
    case_bool_decide as Ha; intros Hd; [|done].
    etrans; [apply Hle1|]. etrans; [done|]. eapply barrier_reached; [done| |done]. by etrans.
Qed.

Lemma drain_beside s : queue_inv s -> triple (lasts s anything) drain s.
Proof. intros Hs. eapply (later_trans queue_inv queue_le); [reflexivity| |by apply drain_queue]. done. Qed.

Lemma roots_queue replaying s : queue_inv s -> triple (lasts s anything) (replaying_roots target_id replaying) s.
Proof.
  revert s. induction replaying as [|root rest IH]; intros s Hs; cbn [replaying_roots]; [by apply (done_safe queue_inv queue_le)|].
  apply (bind_safe queue_inv queue_le anything); [by apply lookup_queue|]. intros found s1 H1 _ _.
  apply (bind_safe queue_inv queue_le anything); [by apply IH|]. intros roots s2 H2 _ _. by apply (done_safe queue_inv queue_le).
Qed.

Lemma forget_all_queue sessions s : queue_inv s -> triple (lasts s anything) (forget_all sessions) s.
Proof.
  revert s. induction sessions as [|x rest IH]; intros s Hs; cbn [forget_all]; [by apply (done_safe queue_inv queue_le)|].
  apply (bind_safe queue_inv queue_le anything); [|intros u s1 H1 _ _; by apply IH].
  unfold forget_session. queue_walk.
Qed.

(** The methods inside another method. *)
Ltac queue_calls :=
  repeat first
    [ apply lookup_queue; done | apply write_queue; done | apply read_queue; done | apply append_queue; done
    | apply drain_beside; done | apply roots_queue; done | apply forget_all_queue; done
    | queue_step ].

Lemma delete_queue session_id s :
  queue_inv s -> triple (lasts s anything) (delete_session_handler external session_id) s.
Proof. intros Hs. unfold delete_session_handler. queue_calls. Qed.

Lemma subagent_queue agent update payload replaying s :
  queue_inv s ->
  triple (lasts s anything)
    (record_subagent_update json_valid json_parses external announced_payload target_id agent update payload replaying) s.
Proof. intros Hs. unfold record_subagent_update, remember_local_session. queue_calls. Qed.

(** What a finished request leaves. *)
Definition drain_answer (before : Sink) (a : SinkAnswer) (s : Sink) : Prop :=
  match a with AnsDrained d => drained before d s | _ => True end.

Lemma answer_queue {A} (p : Proc SinkEnv Sink A) (f : A -> SinkAnswer) (P : A -> Sink -> Prop) s :
  triple (lasts s P) p s -> (forall a s1, P a s1 -> drain_answer s (f a) s1) -> triple (lasts s (drain_answer s)) (answer f p) s.
Proof.
  intros Hp HP. apply (bind_safe queue_inv queue_le P); [done|]. intros a s1 H1 _ Ha.
  apply (done_safe queue_inv queue_le); auto.
Qed.

Notation program := (bridge_program json_valid json_parses external announced_payload target_id).

Lemma program_queue req s : queue_inv s -> triple (lasts s (drain_answer s)) (program req) s.
Proof.
  intros Hs. destruct req as [[]|]; cbn [bridge_program sink_program].
  7: by apply (answer_queue _ _ (drained s)); [by apply drain_queue|].
  all: apply (answer_queue _ _ anything); [|done].
  all: first [by apply lookup_queue|by apply append_queue|by apply delete_queue|by apply subagent_queue|idtac].
  all: unfold remember_local_session, capture_session_update, take_last_agent_message_id, session_cwd, flush, withdraw_subagent_state;
    by queue_calls.
Qed.
End order.

(** ** Writes that add no session *)

(** Every row was there before, under the same ids. *)
Definition rows_from (st st' : Store) : Prop :=
  forall l r', st_sessions st' !! l = Some r' -> exists r, st_sessions st !! l = Some r /\ ident r' = ident r.
#[export] Instance rows_from_refl : Reflexive rows_from.
Proof. intros st l r Hr. by exists r. Qed.
#[export] Instance rows_from_trans : Transitive rows_from.
Proof.
  intros a b c Hab Hbc l r Hr. destruct (Hbc l r Hr) as (r1 & H1 & E1). destruct (Hab l r1 H1) as (r2 & H2 & E2).
  exists r2. split; [done|congruence].
Qed.

Lemma rows_same st st' : st_sessions st' = st_sessions st -> rows_from st st'.
Proof. intros E l r. rewrite E. by exists r. Qed.

Lemma rows_insert (id : string) (f : SessionRow -> SessionRow) (st : Store) s st' :
  st_sessions st !! id = Some s -> ident (f s) = ident s ->
  st_sessions st' = <[id := f s]> (st_sessions st) -> rows_from st st'.
Proof.
  intros Hs Hf E l r Hr. rewrite E in Hr. apply lookup_insert_Some in Hr as [[<- <-]|[_ Hr]]; [|by exists r].
  by exists s.
Qed.

Lemma bump_rows id : links rows_from (bump_session_change id).
Proof.
  intros st u st' [[_ ->]|(row & Hrow & _ & ->)]%bump_session_change_run; [by apply rows_same|].
  by eapply (rows_insert id (with_change_seq (st_change_seq st + 1))).
Qed.

Lemma update_session_rows id f : (forall s, ident (f s) = ident s) -> links rows_from (update_session id f).
Proof.
  intros Hf st u st' H. unfold update_session in H. apply bind_ok in H as (ss & st1 & [= <- <-] & H).
  destruct (st_sessions st !! id) as [s|] eqn:Hs; [|done].
  apply bind_ok in H as (u1 & st2 & [= _ <-] & H). etrans; [|by eapply bump_rows].
  by apply (rows_insert id f st s).
Qed.

Lemma links_each {A} R `{!Reflexive R} `{!Transitive R} (l : list A) f : (forall x, links R (f x)) -> links R (for_each l f).
Proof. intros Hf. induction l as [|x l IH]; cbn [for_each]; [by apply links_ret|]. apply links_bind; auto. Qed.

Lemma enqueue_rows external t i c : links rows_from (enqueue_if external t i c).
Proof. apply enqueue_links; [exact _|]. intros st v. by apply rows_same. Qed.

Ltac walk_rows :=
  repeat first
    [ apply bump_rows | apply enqueue_rows | apply update_session_rows; done | apply links_each; [exact _..|intros ?]
    | apply links_ret; exact _ | apply links_gets; exact _ | apply links_fail
    | apply links_attempt; [exact _|] | apply links_write
    | apply links_modify; intros ?; apply rows_same; done
    | apply links_bind; [exact _| |intros ?]
    | case_match ].

Section row_jobs.
Context (json_valid json_parses : string -> bool) (external : bool).
Context {J C : Type} `{!EqDecision J} `{!MetadataJson J}.
Context (as_float : Json -> option Json) (to_text : Json -> option string)
  (decode : Json -> option (SessionUpdate J C))
  (commands_value : list SessionAvailableCommand -> option J) (options_value : list C -> option J)
  (project_config_options : list C -> list C).

Lemma append_event_rows sid level kind source message payload event_id now :
  links rows_from (append_session_event_with_source json_valid external sid level kind source message payload event_id now).
Proof.
  unfold append_session_event_with_source, persist_with_outbox, insert_session_event_row, insert_event,
    publish_session_event, publish. walk_rows.
Qed.

Lemma append_update_rows sid kind payload event_id now :
  links rows_from (append_session_update json_valid external json_parses sid kind payload event_id now).
Proof.
  unfold append_session_update, insert_session_update_row, insert_session_event_row, insert_event, touch_oldest_prompt,
    publish_session_event, publish, enqueue. walk_rows.
Qed.

Lemma write_metadata_rows id metadata now f :
  (forall s, ident (f s) = ident s) -> links rows_from (write_metadata json_valid external id metadata now f).
Proof.
  intros Hf. unfold write_metadata, persist_with_outbox. apply links_bind; [exact _| |intros u; walk_rows].
  destruct (json_valid metadata); [|apply links_fail]. apply update_session_rows. intros s. by rewrite Hf.
Qed.

Lemma snapshot_rows key key_at id value now :
  links rows_from (replace_snapshot (J := J) json_valid external key key_at id value now).
Proof. unfold replace_snapshot. walk_rows. Qed.

Lemma persist_row_rows row payload ids now :
  links rows_from (persist_session_row json_valid json_parses external as_float to_text decode commands_value options_value
    project_config_options row payload ids now).
Proof.
  unfold persist_session_row, project_session_info_update, project_available_commands_update, project_config_options_update,
    derived_event, update_session_info, replace_session_available_commands, replace_session_config_options.
  walk_rows; first [apply append_update_rows|apply append_event_rows|apply snapshot_rows|by apply write_metadata_rows|idtac].
Qed.

Lemma write_rows_rows rows ids now :
  links rows_from (write_session_rows json_valid json_parses external as_float to_text decode commands_value options_value
    project_config_options rows ids now).
Proof.
  induction rows as [|[row payload] rows IH]; cbn [write_session_rows]; [apply links_ret; exact _|].
  apply links_bind; [exact _|apply links_attempt; [exact _|apply persist_row_rows]|done].
Qed.

Lemma batch_rows_from io1 io2 rows ids now st :
  rows_from st (write_batch json_valid json_parses external as_float to_text decode commands_value options_value
    project_config_options io1 io2 rows ids now st).
Proof.
  unfold write_batch. destruct rows as [|r rows]; [done|].
  destruct (write_job io1 _ st) as [[u st1]|] eqn:E1; [by eapply links_write; [apply write_rows_rows|]|].
  destruct (write_job io2 _ st) as [[u st1]|] eqn:E2; [by eapply links_write; [apply write_rows_rows|]|done].
Qed.

Lemma withdraw_rows id now : links rows_from (SubagentStore.withdraw_subagent_state external id now).
Proof.
  unfold SubagentStore.withdraw_subagent_state, persist_many_with_outbox, withdraw_subagent_tree, enqueue. walk_rows.
Qed.

Lemma delete_rows id now : links rows_from (SessionStore.delete_session external id now).
Proof.
  unfold SessionStore.delete_session, persist_many_with_outbox, delete_one, delete_session_row, insert_session_tombstone,
    next_change_seq, enqueue. walk_rows.
  apply links_modify. intros st l r Hr. simpl in Hr. apply lookup_delete_Some in Hr as [_ Hr]. by exists r.
Qed.

(** A deletion that succeeds leaves no row. *)
Lemma delete_absent id now st r st' :
  SessionStore.delete_session external id now st = Ok (r, st') -> st_sessions st' !! id = None.
Proof.
  intros H. destruct (st_sessions st !! id) as [row|] eqn:Hrow.
  - destruct (delete_session_run _ _ _ _ _ _ _ Hrow H) as (-> & u & st1 & st2 & -> & Hall & o & ->).
    apply delete_all_run in Hall as (Hin & _). apply Hin. apply elem_of_app. right. by apply list_elem_of_singleton.
  - unfold SessionStore.delete_session in H. apply bind_ok in H as (ss & st0 & [= <- <-] & H). rewrite Hrow in H. by injection H as _ <-.
Qed.
End row_jobs.

(** ** The cache of session ids *)

Section cache.
Context (json_valid json_parses : string -> bool) (external : bool) (target_id : string).

(** A cached id belongs to the agent session it is cached for and was not deleted,
    unless it was cached without a row; a deleted session has no row. *)
Record cache_inv (s : Sink) : Prop := mkCacheInv {
  ci_ids : forall a l, sk_ids s !! a = Some l -> l ∈ sk_revived s \/ (sk_owner s !! l = Some a /\ l ∉ sk_dead s);
  ci_rows : forall l r, st_sessions (sk_store s) !! l = Some r -> s_id r = l /\ sk_owner s !! l = Some (s_agent_session_id r);
  ci_dead : forall l, l ∈ sk_dead s -> st_sessions (sk_store s) !! l = None /\ is_Some (sk_owner s !! l);
}.

(** Deletions are final, and none happens without a new generation. *)
Record cache_le (s s' : Sink) : Prop := mkCacheLe {
  cl_generation : sk_generation s <= sk_generation s';
  cl_quiet : sk_generation s = sk_generation s' -> sk_dead s' = sk_dead s;
  cl_dead : sk_dead s ⊆ sk_dead s';
  cl_revived : sk_revived s ⊆ sk_revived s';
  cl_owner : forall l a, sk_owner s !! l = Some a -> sk_owner s' !! l = Some a;
  cl_gone : forall l, is_Some (sk_owner s !! l) -> st_sessions (sk_store s) !! l = None -> st_sessions (sk_store s') !! l = None;
}.
#[export] Instance cache_le_preorder : PreOrder cache_le.
Proof.
  split; [by intros s; constructor|]. intros a b c [A1 A2 A3 AR A4 A5] [B1 B2 B3 BR B4 B5].
  constructor; [lia| |by etrans|by etrans|auto|].
  - intros E. rewrite B2, A2; [done|lia|lia].
  - intros l [o Ho] Hl. apply B5; [exists o; auto|]. apply A5; eauto.
Qed.

Notation triple := (safe (fun _ : SinkEnv => True) (moves cache_inv cache_le) (moves cache_inv cache_le)).
Notation lasts := (later cache_inv cache_le).
Notation bind_cache := (bind_safe cache_inv cache_le).
Notation step_cache := (step_safe cache_inv cache_le).
Notation look_cache := (look_safe cache_inv cache_le).
Notation done_cache := (done_safe cache_inv cache_le).

(** A change that leaves the cache alone and adds no session. *)
Lemma quiet_moves s s' :
  sk_ids s' = sk_ids s -> sk_generation s' = sk_generation s -> sk_owner s' = sk_owner s -> sk_dead s' = sk_dead s ->
  sk_revived s' = sk_revived s -> rows_from (sk_store s) (sk_store s') -> moves cache_inv cache_le s s'.
Proof.
  intros E1 E2 E3 E4 E5 Hr [H1 H2 H3].
  assert (Hgone : forall l, st_sessions (sk_store s) !! l = None -> st_sessions (sk_store s') !! l = None).
  { intros l Hl. apply eq_None_not_Some. intros [r' Hr']. destruct (Hr l r' Hr') as (r & E & _). congruence. }
  split; constructor; rewrite ?E1, ?E2, ?E3, ?E4, ?E5; auto; try done.
  - intros l r' Hr'. destruct (Hr l r' Hr') as (r & Hlr & [= -> ->]). by apply H2.
  - intros l [Hl Ho]%H3. auto.
Qed.

Lemma quiet_safe {A} (f : SinkEnv -> Sink -> A * Sink) s :
  cache_inv s ->
  (forall e s1, let s2 := (f e s1).2 in
     sk_ids s2 = sk_ids s1 /\ sk_generation s2 = sk_generation s1 /\ sk_owner s2 = sk_owner s1 /\ sk_dead s2 = sk_dead s1
     /\ sk_revived s2 = sk_revived s1 /\ rows_from (sk_store s1) (sk_store s2)) ->
  triple (lasts s anything) (atomic f) s.
Proof.
  intros Hs Hf. apply step_cache; [done|]. intros e s1 s2 a H1 _ E. specialize (Hf e s1). rewrite E in Hf. simpl in Hf.
  destruct Hf as (E1 & E2 & E3 & E4 & E5 & Hr). destruct (quiet_moves s1 s2 E1 E2 E3 E4 E5 Hr H1). by split_and!.
Qed.

Lemma write_cache {A} (job : (nat -> string) -> string -> M A) s :
  cache_inv s -> (forall ids now, links rows_from (job ids now)) -> triple (lasts s anything) (sink_write job) s.
Proof.
  intros Hs Hj. apply quiet_safe; [done|]. intros e s1. simpl. destruct (write_job _ _ _) as [[a st']|err] eqn:E; simpl; [|done].
  split_and!; try done. by eapply links_write.
Qed.

Lemma remember_moves agent l s :
  cache_inv s -> sk_owner s !! l = Some agent -> l ∉ sk_dead s ->
  cache_inv (set_cache (<[agent := l]> (sk_ids s)) (sk_generation s) (sk_dead s) s)
  /\ cache_le s (set_cache (<[agent := l]> (sk_ids s)) (sk_generation s) (sk_dead s) s).
Proof.
  intros [H1 H2 H3] Ho Hd. split; constructor; simpl; try done.
  intros a l' [[<- <-]|[_ Ha]]%lookup_insert_Some; [by right|by apply H1].
Qed.

Lemma remember_cache agent l s : cache_inv s -> triple (lasts s anything) (remember_local_session agent l) s.
Proof.
  intros Hs. apply step_cache; [done|]. intros e s1 s2 a [H1 H2 H3] _ [= _ <-].
  assert (Hmore : sk_revived s1 ⊆ (if has_row agent l s1 then sk_revived s1 else {[l]} ∪ sk_revived s1)).
  { case_match; set_solver. }
  split; [|split; [by constructor|done]]. constructor; simpl; [|done..].
  intros a' l' [[<- <-]|[_ Ha]]%lookup_insert_Some; [|destruct (H1 _ _ Ha); [left; by apply Hmore|by right]].
  unfold has_row in *. destruct (st_sessions _ !! l) as [r|] eqn:El; [|left; set_solver].
  destruct (H2 l r El) as [_ Ho]. case_bool_decide as Er; [|left; set_solver]. right. rewrite <- Er. split; [done|].
  intros [Hd _]%H3. congruence.
Qed.

(** ** Lookups *)

Lemma found_row a st r : get_session_by_target_agent_session_id target_id a st = Some r ->
  s_agent_session_id r = a /\ exists l, st_sessions st !! l = Some r.
Proof.
  unfold get_session_by_target_agent_session_id. intros Hr%head_Some_elem_of.
  apply list_elem_of_filter in Hr as [[_ Ha] Hr]. split; [done|]. by apply elem_of_rows.
Qed.

Definition resolves_alive (before : Sink) (found : option string) (after : Sink) : Prop :=
  forall l, found = Some l -> l ∈ sk_revived after \/ l ∉ sk_dead before.

Lemma resolves_alive_le before found s s' : cache_le s s' -> resolves_alive before found s -> resolves_alive before found s'.
Proof. intros Hle Hr l El. destruct (Hr l El); [left; by apply (cl_revived _ _ Hle)|by right]. Qed.

Lemma lookup_cache agent s : cache_inv s -> triple (lasts s (resolves_alive s)) (local_session_id target_id agent) s.
Proof.
  intros Hs. unfold local_session_id.
  apply (bind_cache (fun hit s1 => match hit with inl l => l ∈ sk_revived s1 \/ l ∉ sk_dead s | inr g => g <= sk_generation s1 end)).
  { apply look_cache; [done|]. intros _ s1 H1 Hle. unfold cache_lookup. destruct (sk_ids s1 !! agent) as [l|] eqn:El; [|done].
    apply H1 in El as [?|[_ Hl]]; [by left|right]. intros Hin. apply Hl, (cl_dead _ _ Hle), Hin. }
  intros [l|g] s1 H1 Hle1 Hhit; [by apply done_cache; [|intros ? [= <-]]|].
  apply (bind_cache (fun record s2 => forall r, record = Some (Some r) ->
    sk_owner s2 !! s_id r = Some agent /\ s_id r ∉ sk_dead s2 /\ g <= sk_generation s2)).
  { apply look_cache; [done|]. intros e s2 H2 Hle2 r. destruct (en_io e); [|done]. intros [= Hr].
    apply found_row in Hr as [<- [l Hl]]. destruct (ci_rows _ H2 l r Hl) as [-> Ho]. split; [done|]. split.
    - intros Hd. apply H2 in Hd as [Hd _]. congruence.
    - by etrans; [|apply Hle2]. }
  intros [[r|]|] s2 H2 Hle2 Hr; [|by apply done_cache..]. destruct (Hr r eq_refl) as (Ho & Hd & Hg).
  assert (Halive : s_id r ∉ sk_dead s).
  { intros Hin. apply Hd, (cl_dead _ _ Hle2), (cl_dead _ _ Hle1), Hin. }
  apply (bind_cache anything); [|by intros _ s3 H3 _ _; apply done_cache; [|intros ? [= <-]; right]].
  apply step_cache; [done|]. intros _ s3 s4 _ H3 Hle3 [= <- <-].
  destruct (Z.eqb_spec (sk_generation s3) g) as [Eg|]; [|by split_and!].
  assert (Eg' : sk_generation s2 = sk_generation s3) by (pose proof (cl_generation _ _ Hle3); lia).
  destruct (remember_moves agent (s_id r) s3); [done|by apply Hle3|by rewrite (cl_quiet _ _ Hle3)|by split_and!].
Qed.

Lemma lookup_beside agent s : cache_inv s -> triple (lasts s anything) (local_session_id target_id agent) s.
Proof. intros Hs. by eapply (later_trans cache_inv cache_le); [reflexivity| |by apply lookup_cache]. Qed.

(** The methods that only resolve an id, and the queue. *)
Ltac cache_step :=
  first
    [ apply lookup_beside; done | apply (bind_cache anything); [|intros ? ? ? ? _]
    | apply done_cache; [done|done]
    | apply quiet_safe; [done|intros ? ?; simpl; repeat case_match; by split_and!]
    | progress case_match ].
Ltac cache_walk := repeat cache_step.

Lemma append_cache agent kind payload s :
  cache_inv s -> triple (lasts s (resolves_alive s)) (append target_id agent kind payload) s.
Proof.
  intros Hs. unfold append. apply (bind_cache (resolves_alive s)); [by apply lookup_cache|].
  intros [l|] s1 H1 _ Hl; [|by apply done_cache].
  apply (bind_cache anything); [cache_walk|]. intros [] s2 H2 Hle2 _; [|by apply done_cache].
  apply step_cache; [done|]. intros e s3 s4 a H3 Hle3 [= <- <-].
  destruct (quiet_moves s3 (push (WriteRow (mkRow l kind payload)) (sk_barriers s3) s3)) as [Hi Hle]; try done.
  split_and!; [done..|]. eapply resolves_alive_le, Hl. by trans s2; [|trans s3].
Qed.

Lemma drain_cache s : cache_inv s -> triple (lasts s anything) drain s.
Proof. intros Hs. unfold drain. cache_walk. Qed.

Lemma withdraw_cache agent s :
  cache_inv s -> triple (lasts s anything) (SessionSink.withdraw_subagent_state external target_id agent) s.
Proof.
  intros Hs. unfold SessionSink.withdraw_subagent_state. apply (bind_cache anything); [by apply lookup_beside|].
  intros [root|] s1 H1 _ _; [|by apply done_cache].
  apply (bind_cache anything); [|by intros ? s2 H2 _ _; apply done_cache].
  apply write_cache; [done|]. intros ids now. apply withdraw_rows.
Qed.

(** ** Deletions *)

(** A row as it was read. *)
Definition owned (r : SessionRow) (s : Sink) : Prop := sk_owner s !! s_id r = Some (s_agent_session_id r).

Lemma forget_moves r s dead' :
  cache_inv s -> owned r s ->
  dead' = match st_sessions (sk_store s) !! s_id r with None => {[ s_id r ]} ∪ sk_dead s | Some _ => sk_dead s end ->
  let s' := set_cache (delete (s_agent_session_id r) (sk_ids s)) (sk_generation s + 1) dead' s in
  cache_inv s' /\ cache_le s s'.
Proof.
  intros [H1 H2 H3] Ho Hd s'. split; constructor; simpl; try done; try lia.
  - intros a l [Hne Ha]%lookup_delete_Some. destruct (H1 a l Ha) as [?|[Hoa Hl]]; [by left|right]. split; [done|]. subst dead'.
    destruct (st_sessions _ !! s_id r); [done|]. intros [->%elem_of_singleton|?]%elem_of_union; [|done].
    unfold owned in Ho. congruence.
  - intros l Hl. subst dead'. destruct (st_sessions _ !! s_id r) eqn:Er; [by apply H3|].
    apply elem_of_union in Hl as [->%elem_of_singleton|Hl]; [|by apply H3]. split; [done|by eexists].
  - subst dead'. destruct (st_sessions _ !! s_id r); set_solver.
Qed.

Lemma forget_cache r s :
  cache_inv s -> owned r s ->
  triple (lasts s (fun _ s' => st_sessions (sk_store s) !! s_id r = None -> s_id r ∈ sk_dead s')) (forget_session r) s.
Proof.
  intros Hs Ho. unfold forget_session.
  apply (bind_cache (fun _ s' => st_sessions (sk_store s) !! s_id r = None -> s_id r ∈ sk_dead s')).
  - apply step_cache; [done|]. intros e s1 s2 u H1 Hle [= <- <-].
    destruct (forget_moves r s1 _ H1 ltac:(by apply Hle) eq_refl) as [Hi Hl]. split_and!; [done..|]. intros Hnone. simpl.
    rewrite (cl_gone _ _ Hle _ ltac:(by eexists) Hnone). set_solver.
  - intros u s1 H1 Hle Hp. eapply (later_trans cache_inv cache_le); [reflexivity| |apply (quiet_safe _ s1); [done|by intros e s2; simpl; split_and!]].
    intros ? s2 _ Hle2 _ Hn. by apply Hle2, Hp.
Qed.

Lemma forget_all_cache doomed s :
  cache_inv s -> Forall (fun r => owned r s) doomed ->
  triple (lasts s (fun _ s' => forall r, r ∈ doomed -> st_sessions (sk_store s) !! s_id r = None -> s_id r ∈ sk_dead s'))
    (forget_all doomed) s.
Proof.
  revert s. induction doomed as [|x rest IH]; intros s Hs Ho; cbn [forget_all].
  { apply done_cache; [done|]. by intros r ?%not_elem_of_nil. }
  apply Forall_cons in Ho as [Hx Ho].
  apply (bind_cache (fun _ s' => st_sessions (sk_store s) !! s_id x = None -> s_id x ∈ sk_dead s')); [by apply forget_cache|].
  intros u s1 H1 Hle Hp.
  assert (Ho1 : Forall (fun r => owned r s1) rest).
  { eapply Forall_impl; [exact Ho|]. intros r Hr. by apply Hle. }
  eapply (later_trans cache_inv cache_le); [reflexivity| |by apply IH].
  intros ? s2 _ Hle2 Hrest r [->|Hr]%elem_of_cons Hn; [by apply Hle2, Hp|]. apply Hrest; [done|].
  apply (cl_gone _ _ Hle); [|done]. rewrite Forall_forall in Ho. eexists. by apply Ho.
Qed.

Lemma read_rows_cache {A} (f : Store -> A) (P : A -> Sink -> Prop) s :
  cache_inv s -> (forall s1, cache_inv s1 -> cache_le s s1 -> P (f (sk_store s1)) s1) ->
  triple (lasts s (fun a s1 => forall x, a = Some x -> P x s1)) (sink_read f) s.
Proof. intros Hs HP. apply look_cache; [done|]. intros e s1 H1 Hle x. destruct (en_io e); [|done]. intros [= <-]. auto. Qed.

(** A deletion that is confirmed to the client is recorded as final. *)
Definition deletes (session_id : string) (r : result DeleteError (option SessionRow)) (s : Sink) : Prop :=
  forall row, r = Ok (Some row) -> session_id ∈ sk_dead s.

Lemma wipe_cache session_id record subagents s :
  cache_inv s -> s_id record = session_id -> Forall (fun r => owned r s) (record :: subagents) ->
  triple (lasts s (deletes session_id))
    (let% _ := forget_all (record :: subagents) in
     let% deleted := sink_write (fun _ now => SessionStore.delete_session external session_id now) in
     let% _ := forget_all (record :: subagents) in
     Done match deleted with Ok r => Ok r | Err e => Err (DeleteFailed (Some e)) end)%proc s.
Proof.
  intros Hs Eid Ho.
  assert (Hkeep : forall s', cache_le s s' -> Forall (fun r => owned r s') (record :: subagents)).
  { intros s' Hle. eapply Forall_impl; [exact Ho|]. intros r Hr. by apply Hle. }
  apply (bind_cache anything).
  { eapply (later_trans cache_inv cache_le); [reflexivity|done|by apply forget_all_cache]. }
  intros _ s1 H1 Hle1 _.
  apply (bind_cache (fun d s2 => forall r, d = Ok r -> st_sessions (sk_store s2) !! session_id = None)).
  { apply step_cache; [done|]. intros e s2 s3 d H2 _ E. revert E.
    destruct (write_job _ _ _) as [[r st']|err] eqn:Ew; intros [= <- <-]; [|by split_and!].
    destruct (quiet_moves s2 (set_sk_store st' s2)) as [Hi Hl]; try done.
    { eapply links_write; [apply delete_rows|exact Ew]. }
    split_and!; [done..|]. intros ? _. unfold write_job in Ew. destruct (en_io e); [|done]. by eapply delete_absent. }
  intros d s2 H2 Hle2 Hd.
  apply (bind_cache (fun _ s3 => forall r, d = Ok r -> session_id ∈ sk_dead s3)).
  { eapply (later_trans cache_inv cache_le); [reflexivity| |apply forget_all_cache; [done|apply Hkeep; by trans s1]].
    intros ? s3 _ _ Hall r Er. rewrite <- Eid. apply Hall; [by left|]. rewrite Eid. by eapply Hd. }
  intros _ s3 H3 _ Hfin. apply done_cache; [done|]. intros row. destruct d as [r|err]; [|done]. intros _. by eapply Hfin.
Qed.

Lemma delete_cache session_id s :
  cache_inv s -> triple (lasts s (deletes session_id)) (delete_session_handler external session_id) s.
Proof.
  intros Hs. unfold delete_session_handler.
  eapply (bind_cache (fun looked s1 => forall x, looked = Some x ->
    forall record, x.1 = Some record -> s_id record = session_id /\ owned record s1)).
  { apply (read_rows_cache _ (fun x s1 => forall record, x.1 = Some record -> s_id record = session_id /\ owned record s1)); [done|].
    intros s1 H1 _ record Hr. destruct (ci_rows _ H1 _ _ Hr) as [E Ho]. unfold owned. by rewrite E. }
  intros looked s1 H1 _ Hlooked. destruct looked as [[[record|] [|]]|]; try by apply done_cache.
  destruct (Hlooked _ eq_refl record eq_refl) as [Eid Ho].
  apply (bind_cache anything); [cache_walk|]. intros [] s2 H2 Hle2 _; [|by apply done_cache]. simpl negb. cbv iota.
  apply (bind_cache anything); [by apply drain_cache|]. intros _ s3 H3 Hle3 _.
  eapply (bind_cache (fun subs s4 => forall l, subs = Some l -> Forall (fun r => owned r s4) l)).
  { apply (read_rows_cache _ (fun l s4 => Forall (fun r => owned r s4) l)); [done|].
    intros s4 H4 _. apply Forall_forall. intros r (id & _ & Hr)%list_elem_of_omap.
    destruct (ci_rows _ H4 _ _ Hr) as [E Hr']. unfold owned. by rewrite E. }
  intros [subagents|] s4 H4 Hle4 Hsubs; [|by apply done_cache].
  apply wipe_cache; [done..|]. apply Forall_cons. split; [|by apply Hsubs]. by apply Hle4, Hle3, Hle2.
Qed.

(** ** Every request *)

Definition cache_answer (req : SinkRequest) (before : Sink) (a : SinkAnswer) (s : Sink) : Prop :=
  match req, a with
  | (ReqLookup _ | ReqAppend _ _ _), AnsSession found => resolves_alive before found s
  | ReqDelete session_id, AnsDeleted r => deletes session_id r s
  | _, _ => True
  end.

Lemma answer_cache {A} (p : Proc SinkEnv Sink A) (f : A -> SinkAnswer) (P : A -> Sink -> Prop) req s :
  triple (lasts s P) p s -> (forall a s1, P a s1 -> cache_answer req s (f a) s1) ->
  triple (lasts s (cache_answer req s)) (answer f p) s.
Proof.
  intros Hp HP. apply (bind_cache P); [done|]. intros a s1 H1 _ Ha. apply done_cache; auto.
Qed.

Lemma program_cache req s : cache_inv s -> triple (lasts s (cache_answer req s)) (sink_program external target_id req) s.
Proof.
  intros Hs. destruct req; cbn [sink_program].
  1: by apply (answer_cache _ _ (resolves_alive s)); [by apply lookup_cache|].
  5: by apply (answer_cache _ _ (resolves_alive s)); [by apply append_cache|].
  8: by apply (answer_cache _ _ (deletes session_id)); [by apply delete_cache|].
  all: apply (answer_cache _ _ anything); [|done].
  all: first [by apply remember_cache|by apply drain_cache|by apply withdraw_cache|idtac].
  all: unfold capture_session_update, take_last_agent_message_id, session_cwd, sink_read, flush; by cache_walk.
Qed.
End cache.

(** ** The writer and the daemon *)

Section daemon.
Context (json_valid json_parses : string -> bool) (external : bool) (announced_payload : string -> string -> string -> string).
Context (target_id : string).
Context {J C : Type} `{!EqDecision J} `{!MetadataJson J}.
Context (parse : string -> option Json) (as_float : Json -> option Json) (to_text : Json -> option string)
  (decode : Json -> option (SessionUpdate J C))
  (commands_value : list SessionAvailableCommand -> option J) (options_value : list C -> option J)
  (project_config_options : list C -> list C).

Notation interferes := (sink_interferes json_valid json_parses external parse as_float to_text decode commands_value
  options_value project_config_options).
Notation steps program := (rtc (pool_step program (fun _ : SinkEnv => True) interferes)).
Notation sink_calls := (sink_program external target_id).
Notation bridge_calls := (bridge_program json_valid json_parses external announced_payload target_id).

Lemma interferes_queue s s' : interferes s s' -> moves queue_inv queue_le s s'.
Proof.
  intros Hi Hs. destruct Hi as [s n s' Ht|s io1 io2 ids now|s s' (st' & new & -> & _)].
  - unfold writer_take in Ht. destruct (sk_taken s) eqn:Et; [|done]. case_match; [done|]. injection Ht as <-.
    split; [|done]. destruct Hs as [H1 H2 H3 H4]. constructor; simpl; [|done..].
    by rewrite H1, Et, take_drop.
  - split; [|by split; [|eexists]]. destruct Hs as [H1 H2 H3 H4]. constructor; simpl; [| |done|done].
    { by rewrite H1, <- (assoc_L (++)). }
    intros a [Ha|Ha]%elem_of_union; [|apply elem_of_app; auto].
    apply elem_of_list_to_set, list_elem_of_omap in Ha as ([row|b] & Hb & E); [done|].
    apply elem_of_app. right. by simplify_eq.
  - by apply same_queue_moves.
Qed.

(** Everything sent is handled, being written or queued, in that order. *)
Definition in_order (s : Sink) : Prop := sk_sent s = sk_log s ++ sk_taken s ++ sk_queue s.

(** C25. [drain] does what its callers rely on: when its barrier is acknowledged,
    the writer has handled every update that was queued before the drain was called,
    and all updates are handled in the order they were queued; whatever the other
    methods, deletions and announcements of subagents do meanwhile, and however the
    writer cuts its batches. *)
Theorem drain_waits st m before :
  steps bridge_calls (sink_start st, []) m ->
  (ReqSink ReqDrain, before, Done (AnsDrained DrainAcknowledged)) ∈ m.2 ->
  sk_sent before `prefix_of` sk_log m.1 /\ in_order m.1.
Proof.
  intros Hm Hin.
  assert (H0 : queue_inv (sink_start st)).
  { constructor; [done|by intros a ?%elem_of_empty|by intros a ?%not_elem_of_nil|by intros i j a ?]. }
  assert (HQ : later queue_inv queue_le before (drain_answer before) (AnsDrained DrainAcknowledged) m.1).
  { apply (pool_safe bridge_calls (fun _ => True) interferes (moves queue_inv queue_le) (moves queue_inv queue_le) queue_inv
      (fun _ s => later queue_inv queue_le s (drain_answer s))) with (s0 := sink_start st) (req := ReqSink ReqDrain); try done.
    - intros s s'. apply interferes_queue.
    - intros s s' Hs Hmv. by apply Hmv.
    - intros req s. apply later_stable; [exact _|]. intros a s1 s2 _ _ Hle. destruct a; try done. by apply drained_stable.
    - intros req s Hs. by apply program_queue. }
  destruct HQ as (Hi & _ & Hd). split; [by apply Hd|apply Hi].
Qed.

Lemma daemon_cache s s' : daemon_step s s' -> moves cache_inv cache_le s s'.
Proof.
  intros (st' & new & -> & Hold & Hnew & Hfresh) [H1 H2 H3].
  assert (Hown : forall l a, sk_owner s !! l = Some a -> (new ∪ sk_owner s) !! l = Some a).
  { intros l a Hl. apply lookup_union_Some_raw. right. split; [|done].
    apply eq_None_not_Some. intros [b Hb]. rewrite (Hfresh _ _ Hb) in Hl. done. }
  assert (Hgone : forall l, is_Some (sk_owner s !! l) -> st_sessions (sk_store s) !! l = None -> st_sessions st' !! l = None).
  { intros l Ho Hl. apply eq_None_not_Some. intros [r Hr]. destruct (Hold l r Ho Hr) as (r0 & Hr0 & _). congruence. }
  split; constructor; simpl; try done.
  - intros a l [?|[Ho Hl]]%H1; auto.
  - intros l r Hr. destruct (sk_owner s !! l) as [a|] eqn:Ho.
    + destruct (Hold l r ltac:(by eexists) Hr) as (r0 & Hr0 & [= -> ->]). destruct (H2 _ _ Hr0) as [E Ho']. auto.
    + destruct (Hnew l r Ho Hr) as [E Hn]. split; [done|]. apply lookup_union_Some_raw. by left.
  - intros l [Hn Ho]%H3. split; [by apply Hgone|]. destruct Ho as [a Ha]. exists a. auto.
Qed.

Lemma interferes_cache s s' : interferes s s' -> moves cache_inv cache_le s s'.
Proof.
  intros Hi. destruct Hi as [s n s' Ht|s io1 io2 ids now|s s' Hd]; [| |by apply daemon_cache].
  - unfold writer_take in Ht. destruct (sk_taken s); [|done]. case_match; [done|]. injection Ht as <-. by apply quiet_moves.
  - apply quiet_moves; try done. apply batch_rows_from.
Qed.

(** The rows of a store are filed under their ids. *)
Definition filed (st : Store) : Prop := map_Forall (fun l r => s_id r = l) (st_sessions st).

Lemma cache_start st : filed st -> cache_inv (sink_start st).
Proof.
  intros Hf. constructor; simpl; [done| |by intros l ?%elem_of_empty].
  intros l r Hr. split; [by apply Hf|]. by rewrite lookup_fmap, Hr.
Qed.

Lemma sink_answers st m req before a :
  filed st -> steps sink_calls (sink_start st, []) m -> (req, before, Done a) ∈ m.2 ->
  later cache_inv cache_le before (cache_answer req before) a m.1.
Proof.
  intros Hf Hm Hin.
  apply (pool_safe sink_calls (fun _ => True) interferes (moves cache_inv cache_le) (moves cache_inv cache_le) cache_inv
    (fun req s => later cache_inv cache_le s (cache_answer req s))) with (s0 := sink_start st) (req := req) (s := before); try done.
  - intros s s'. apply interferes_cache.
  - intros s s' Hs Hmv. by apply Hmv.
  - intros r s. apply later_stable; [exact _|]. intros ans s1 s2 _ _ Hle. destruct r, ans; try done; try by apply resolves_alive_le.
    intros Hd row Er. by eapply (cl_dead _ _ Hle), Hd.
  - intros r s Hs. by apply program_cache.
  - by apply cache_start.
Qed.

(** C7. A session that was deleted stays unknown to the sink: once a deletion has
    answered with the deleted session, a lookup or an update that comes later
    resolves to its id, from the cache or from the store, only if the release of the
    updates held for its opening cached the id at a moment when its row was gone
    ([sk_revived]; that this can happen is [release_revives_session]). The lookups,
    updates, releases, drains and further deletions of the sink interleave in any way,
    with the writer and with a daemon that adds and updates sessions. Announcements of
    subagents are left out: they break this ([announcement_revives_session]). *)
Theorem deleted_session_unresolved st s ts m l r0 row req found :
  filed st ->
  steps sink_calls (sink_start st, []) (s, ts) ->
  (ReqDelete l, r0, Done (AnsDeleted (Ok (Some row)))) ∈ ts ->
  steps sink_calls (s, ts) m ->
  (exists agent, req = ReqLookup agent \/ exists kind payload, req = ReqAppend agent kind payload) ->
  (req, s, Done (AnsSession found)) ∈ m.2 ->
  l ∉ sk_revived m.1 ->
  found <> Some l.
Proof.
  intros Hf H1 Hdel H2 Hreq Hin Hrev ->.
  destruct (sink_answers st (s, ts) _ _ _ Hf H1 Hdel) as (_ & _ & Hdead).
  destruct (sink_answers st m req s (AnsSession (Some l)) Hf ltac:(by etrans) Hin) as (_ & _ & Halive).
  assert (resolves_alive s (Some l) m.1) as Hr.
  { destruct Hreq as (agent & [->|(kind & payload & ->)]); exact Halive. }
  destruct (Hr l eq_refl) as [|Hl]; [done|]. by eapply Hl, Hdead.
Qed.
End daemon.

(** ** Runs *)

(** Moves of a pool: a request arrives, thread [i] acts, the writer takes [n] writes,
    the writer writes them. *)
Inductive Move (Req : Type) := Arrive (r : Req) | Run (i : nat) (e : SinkEnv) | Take (n : nat) | Flushed.
Arguments Arrive {Req} r.
Arguments Run {Req} i e.
Arguments Take {Req} n.
Arguments Flushed {Req}.

Section drive.
Context {Req : Type} (program : Req -> Proc SinkEnv Sink SinkAnswer).
Notation machine := (Sink * list (Req * Sink * Proc SinkEnv Sink SinkAnswer))%type.

Notation demo_write := (writer_write (J := string) (C := string) (fun _ => true) (fun _ => true) true (fun _ => Some JsNull)
  (fun _ => None) (fun _ => None) (fun _ => None) (fun _ => None) (fun _ => None) id true true
  (fun _ _ => "u1"%string) "t3").
Notation demo_interferes := (sink_interferes (J := string) (C := string) (fun _ => true) (fun _ => true) true
  (fun _ => Some JsNull) (fun _ => None) (fun _ => None) (fun _ => None) (fun _ => None) (fun _ => None) id).

Definition make_move (move : Move Req) (m : machine) : option machine :=
  match move with
  | Arrive r => Some (m.1, m.2 ++ [(r, m.1, program r)])
  | Run i e =>
      match m.2 !! i with
      | Some (t, Act run) => let (s', p') := run e m.1 in Some (s', <[i := (t, p')]> m.2)
      | _ => None
      end
  | Take n => (fun s' => (s', m.2)) <$> writer_take n m.1
  | Flushed => Some (demo_write m.1, m.2)
  end.
Definition drive (moves : list (Move Req)) (m : machine) : option machine :=
  foldl (fun acc move => match acc with Some m => make_move move m | None => None end) (Some m) moves.

Lemma drive_none moves : foldl (fun acc move => match acc with Some m => make_move move m | None => None end) None moves = None.
Proof. by induction moves. Qed.

Lemma drive_steps moves m m' :
  drive moves m = Some m' -> rtc (pool_step program (fun _ => True) demo_interferes) m m'.
Proof.
  unfold drive. revert m. induction moves as [|move moves IH]; intros m; simpl; [by intros [= <-]|].
  destruct (make_move move m) as [m1|] eqn:E1; [|by rewrite drive_none]. intros Hm. eapply rtc_l; [|by apply IH].
  clear IH Hm. destruct m as [s ts], move as [r|i e|n|]; simpl in E1.
  - injection E1 as <-. apply step_arrive.
  - destruct (ts !! i) as [[t [a|run]]|] eqn:Ei; [done| |done]. destruct (run e s) as [s' p'] eqn:Er.
    injection E1 as <-. by eapply step_act.
  - destruct (writer_take n s) as [s'|] eqn:Et; [|done]. injection E1 as <-. apply step_interfere. by eapply si_take.
  - injection E1 as <-. apply step_interfere. apply si_write.
Qed.

(** A finished thread. *)
Definition finished (i : nat) (m : machine) : option (Req * Sink * SinkAnswer) :=
  match m.2 !! i with Some (t, Done a) => Some (t, a) | _ => None end.
Lemma finished_in i m r s a : finished i m = Some (r, s, a) -> (r, s, Done a) ∈ m.2.
Proof.
  unfold finished. destruct (m.2 !! i) as [[t [a'|run]]|] eqn:E; [|done..]. intros [= -> ->].
  by apply list_elem_of_lookup_2 in E.
Qed.
End drive.

Definition demo_env : SinkEnv := mkEnv true true (fun n => match n with 0 => "e1" | 1 => "e2" | _ => "kid" end%nat%string) "t2".
Definition run_times {Req} (i n : nat) : list (Move Req) := repeat (Run i demo_env) n.
Definition settled {Req} : list (Move Req) := [Take 1; Flushed].
Definition demo_sessions : Store := set_sessions (<["root" := tree_row "root" "a1" 1]> ∅) (set_counter 1 0 empty_store).
Notation demo_bridge := (bridge_program (fun _ => true) (fun _ => true) true (fun _ _ _ => "{}"%string) "t").
Notation demo_sink := (sink_program true "t").
Definition reached {Req} (program : Req -> Proc SinkEnv Sink SinkAnswer) (moves : list (Move Req)) m :=
  default m (drive program moves m).
Definition arrival {Req} (i : nat) (m : Sink * list (Req * Sink * Proc SinkEnv Sink SinkAnswer)) : Sink :=
  match m.2 !! i with Some (_, s, _) => s | None => m.1 end.

(** An update is queued, then a drain waits while the writer handles both. *)
Definition drain_moves : list (Move BridgeRequest) :=
  [Arrive (ReqSink (ReqAppend "a1" "session.update" "{}"))] ++ run_times 0 5 ++ [Arrive (ReqSink ReqDrain)] ++ run_times 1 2
  ++ [Take 2; Flushed] ++ run_times 1 1.
Definition drain_end := reached demo_bridge drain_moves (sink_start demo_sessions, []).

Lemma reached_steps {Req} (program : Req -> Proc SinkEnv Sink SinkAnswer) moves m :
  match drive program moves m with Some _ => true | None => false end = true ->
  drive program moves m = Some (reached program moves m).
Proof. unfold reached. by destruct (drive program moves m). Qed.

Lemma drain_waits_witness :
  sk_sent (arrival 1 drain_end) = [WriteRow (mkRow "root" "session.update" "{}")]
  /\ sk_sent (arrival 1 drain_end) `prefix_of` sk_log drain_end.1.
Proof.
  split; [vm_compute; reflexivity|].
  refine (proj1 (drain_waits (J := string) (C := string) (fun _ => true) (fun _ => true) true (fun _ _ _ => "{}"%string) "t"
    (fun _ => Some JsNull) (fun _ => None) (fun _ => None) (fun _ => None) (fun _ => None) (fun _ => None) id
    demo_sessions drain_end (arrival 1 drain_end) _ _)).
  - apply (drive_steps demo_bridge drain_moves). apply reached_steps. vm_compute. reflexivity.
  - apply (finished_in 1). vm_compute. reflexivity.
Defined.

(** The release of its held updates caches the session's id; the session is deleted;
    the next update is for an unknown session. *)
Definition delete_moves : list (Move SinkRequest) :=
  [Arrive (ReqRemember "a1" "root")] ++ run_times 0 1 ++ [Arrive (ReqDelete "root")] ++ run_times 1 4
  ++ settled ++ run_times 1 7.
Definition delete_end := reached demo_sink delete_moves (sink_start demo_sessions, []).
Definition after_moves : list (Move SinkRequest) := [Arrive (ReqAppend "a1" "session.update" "{}")] ++ run_times 2 2.
Definition after_end := reached demo_sink after_moves delete_end.

Lemma deleted_session_unresolved_witness :
  sk_ids (arrival 1 delete_end) !! "a1"%string = Some "root"%string
  /\ "root"%string ∉ sk_revived after_end.1
  /\ finished 2 after_end = Some (ReqAppend "a1" "session.update" "{}", delete_end.1, AnsSession None)
  /\ None <> Some "root"%string.
Proof.
  assert (Hrev : "root"%string ∉ sk_revived after_end.1).
  { assert (E : sk_revived after_end.1 = ∅) by (vm_compute; reflexivity). rewrite E. apply not_elem_of_empty. }
  split; [vm_compute; reflexivity|]. split; [exact Hrev|]. split; [vm_compute; reflexivity|].
  refine (deleted_session_unresolved (J := string) (C := string) (fun _ => true) (fun _ => true) true "t"
    (fun _ => Some JsNull) (fun _ => None) (fun _ => None) (fun _ => None) (fun _ => None) (fun _ => None) id
    demo_sessions delete_end.1 delete_end.2 after_end "root" (arrival 1 delete_end) (tree_row "root" "a1" 1)
    (ReqAppend "a1" "session.update" "{}") None _ _ _ _ _ _ Hrev).
  - apply map_Forall_insert_2; [reflexivity|apply map_Forall_empty].
  - rewrite <- surjective_pairing. apply (drive_steps demo_sink delete_moves). apply reached_steps. vm_compute. reflexivity.
  - apply (finished_in 1). vm_compute. reflexivity.
  - rewrite <- surjective_pairing. apply (drive_steps demo_sink after_moves). apply reached_steps. vm_compute. reflexivity.
  - exists "a1"%string. right. by exists "session.update"%string, "{}"%string.
  - apply (finished_in 2). vm_compute. reflexivity.
Defined.

(** ** The announcement of a subagent during a deletion *)

(** The deletion has read the session's subagents when one is announced: its row is
    deleted with the session, its id is remembered afterwards. *)
Definition announce_moves : list (Move BridgeRequest) :=
  [Arrive (ReqSink (ReqDelete "root"))] ++ run_times 0 4 ++ settled ++ run_times 0 2
  ++ [Arrive (ReqSubagent "a1" (mkSubagentUpdate "c1" Undefined Undefined Undefined Undefined) "{}" [])] ++ run_times 1 5
  ++ settled ++ run_times 1 2 ++ run_times 0 5 ++ run_times 1 1.
Definition announce_end := reached demo_bridge announce_moves (sink_start demo_sessions, []).
Definition update_moves : list (Move BridgeRequest) :=
  [Arrive (ReqSink (ReqAppend "c1" "session.update" "{}"))] ++ run_times 2 3.
Definition update_end := reached demo_bridge update_moves announce_end.

Notation demo_steps program := (rtc (pool_step program (fun _ : SinkEnv => True)
  (sink_interferes (J := string) (C := string) (fun _ => true) (fun _ => true) true (fun _ => Some JsNull) (fun _ => None)
     (fun _ => None) (fun _ => None) (fun _ => None) (fun _ => None) id))).

(** Why [deleted_session_unresolved] leaves announcements out: a deletion reads
    the session's subagents, then one more is announced, then the deletion wipes both
    and forgets only the ids it read. [record_subagent_update] remembers the child's
    id without looking at the generation, so after the deletion has answered, the
    child's updates resolve to a deleted session and are queued for it. *)
Theorem announcement_revives_session :
  exists s ts m before row l,
    demo_steps demo_bridge (sink_start demo_sessions, []) (s, ts)
    /\ (ReqSink (ReqDelete "root"), before, Done (AnsDeleted (Ok (Some row)))) ∈ ts
    /\ demo_steps demo_bridge (s, ts) m
    /\ (ReqSink (ReqAppend "c1" "session.update" "{}"), s, Done (AnsSession (Some l))) ∈ m.2
    /\ st_sessions (sk_store s) !! l = None /\ is_Some (st_tombstones (sk_store s) !! l).
Proof.
  exists announce_end.1, announce_end.2, update_end, (arrival 0 announce_end), (tree_row "root" "a1" 2), "kid"%string.
  rewrite <- surjective_pairing. split; [|split; [|split; [|split; [|split]]]].
  - apply (drive_steps demo_bridge announce_moves). apply reached_steps. vm_compute. reflexivity.
  - apply (finished_in 0). vm_compute. reflexivity.
  - apply (drive_steps demo_bridge update_moves). apply reached_steps. vm_compute. reflexivity.
  - apply (finished_in 2). vm_compute. reflexivity.
  - vm_compute. reflexivity.
  - eexists. vm_compute. reflexivity.
Qed.

(** ** A release after the deletion *)

(** The session is stored; it is deleted while the release of its held updates waits
    in the bridge's queue. *)
Definition late_release_moves : list (Move SinkRequest) :=
  [Arrive (ReqRemember "a1" "root"); Arrive (ReqDelete "root")] ++ run_times 1 4 ++ settled ++ run_times 1 7.
Definition late_release_end := reached demo_sink late_release_moves (sink_start demo_sessions, []).
Definition late_update_moves : list (Move SinkRequest) :=
  run_times 0 1 ++ [Arrive (ReqAppend "a1" "session.update" "{}")] ++ run_times 2 3.
Definition late_update_end := reached demo_sink late_update_moves late_release_end.

(** Why [deleted_session_unresolved] excepts releases: the bridge's worker caches a
    released session's id without looking at the generation or the store. When the
    session was deleted between the insertion of its row and the release, its updates
    resolve to the deleted session, and are queued for it, until the daemon stops. *)
Theorem release_revives_session :
  exists s ts m before row l asked,
    demo_steps demo_sink (sink_start demo_sessions, []) (s, ts)
    /\ (ReqDelete l, before, Done (AnsDeleted (Ok (Some row)))) ∈ ts
    /\ demo_steps demo_sink (s, ts) m
    /\ (ReqAppend "a1" "session.update" "{}", asked, Done (AnsSession (Some l))) ∈ m.2
    /\ st_sessions (sk_store s) !! l = None /\ is_Some (st_tombstones (sk_store s) !! l).
Proof.
  exists late_release_end.1, late_release_end.2, late_update_end, (arrival 1 late_release_end), (tree_row "root" "a1" 1).
  exists "root"%string, (arrival 2 late_update_end).
  rewrite <- surjective_pairing. split; [|split; [|split; [|split; [|split]]]].
  - apply (drive_steps demo_sink late_release_moves). apply reached_steps. vm_compute. reflexivity.
  - apply (finished_in 1). vm_compute. reflexivity.
  - apply (drive_steps demo_sink late_update_moves). apply reached_steps. vm_compute. reflexivity.
  - apply (finished_in 2). vm_compute. reflexivity.
  - vm_compute. reflexivity.
  - eexists. vm_compute. reflexivity.
Qed.
