(* ===== verification/SessionChanges.v ===== *)
(** The changed files of a session (src/src/runtime/agent/session_changes.rs): a
    bounded projection, kept in memory, of the file diffs an agent's tool calls
    report. The store evicts old tool calls and old sessions under two byte budgets
    and says so ([truncated]); a client polls with generation and revision.

    The JSON sizes, the sizes of Rust types and the capacities of hash tables and
    strings are parameters. A hash table's capacity depends on its history: the
    [n]-th reading of one is the value [capacity_reading n]. *)

From S2P Require Import Prelude Posix Walk SafeExtract.
Open Scope Z_scope.

(** ** Machine integers *)

Definition U64_MAX : Z := 2 ^ 64 - 1.
Definition U128_MAX : Z := 2 ^ 128 - 1.
Definition sat_add (a b : Z) : Z := (a + b) `min` U128_MAX.
Definition sat_sub (a b : Z) : Z := 0 `max` (a - b).
Definition usize_add (a b : Z) : Z := (a + b) `min` U64_MAX.
Definition usize_mul (a b : Z) : Z := (a * b) `min` U64_MAX.

Definition MAX_SESSION_CHANGES_BYTES : Z := 7 * 1024 * 1024.
Definition MAX_TOTAL_SESSION_CHANGES_BYTES : Z := 64 * 1024 * 1024.
Definition MAX_TRACKED_TOOL_CALLS_PER_SESSION : Z := 512.
Definition ALLOCATION_OVERHEAD_BYTES : Z := 2 * 8.
Definition ARC_COUNTS_BYTES : Z := 2 * 8.
Definition HASH_TABLE_CAPACITY_MULTIPLIER : Z := 2.

Record SessionChangeLimits := mkLimits { max_session_bytes : Z; max_total_bytes : Z; max_tool_calls_per_session : Z }.
Definition default_limits : SessionChangeLimits :=
  mkLimits MAX_SESSION_CHANGES_BYTES MAX_TOTAL_SESSION_CHANGES_BYTES MAX_TRACKED_TOOL_CALLS_PER_SESSION.

(** ** What the agent sends, and what is captured of it *)

(** [_meta] is its canonical JSON text. *)
Record Diff := mkDiff { d_path : list Z; d_old_text : option string; d_new_text : string; d_meta : option string }.

#[export] Instance component_eq_dec : EqDecision Component.
Proof. solve_decision. Defined.

(** Two paths are equal when their components are. *)
Definition diff_shape (d : Diff) : list Component * option string * string * option string :=
  (components (d_path d), d_old_text d, d_new_text d, d_meta d).

Inductive ToolCallContent := ContentDiff (d : Diff) | ContentOther.

Section store.
Context {Kind Status : Type} `{!EqDecision Kind} `{!EqDecision Status}.

Record ToolCall := mkToolCall {
  tc_id : string; tc_title : string; tc_kind : Kind; tc_status : Status; tc_content : list ToolCallContent;
}.
Record ToolCallUpdate := mkToolCallUpdate {
  tu_id : string; tu_title : option string; tu_kind : option Kind; tu_status : option Status;
  tu_content : option (list ToolCallContent);
}.
Inductive Update := UpToolCall (t : ToolCall) | UpToolCallUpdate (u : ToolCallUpdate) | UpOther.

(** What is shown of a tool call, and compared. *)
Record View := mkView {
  v_id : string; v_title : option string; v_kind : option Kind; v_status : option Status; v_content : list Diff;
}.
Definition shape (v : View) :=
  (v_id v, v_title v, v_kind v, v_status v, diff_shape <$> v_content v).

Record CapturedToolCall := mkCaptured {
  ct_view : View;
  ct_first_seen : Z; ct_last_updated : Z;
  ct_wire_bytes : Z; ct_retained_bytes : Z;
}.

Record Bucket := mkBucket {
  b_revision : Z;
  b_truncated : bool;
  b_tool_calls : gmap string CapturedToolCall;
  b_last_access : Z;
  b_visible_wire_bytes : Z;
  b_visible_count : Z;
  b_retained_bytes : Z;
}.

Record ChangesStore := mkChanges {
  cs_generation : string;
  cs_revision : Z;
  cs_sequence : Z;
  cs_capacity_reached : bool;
  cs_sessions : gmap string Bucket;
  cs_structural_retained_bytes : Z;
  cs_retained_bytes : Z;
  (* Capacities read and generations drawn so far. *)
  cs_readings : nat;
  cs_drawn : nat;
}.

Record Snapshot := mkSnapshot {
  sn_session_id : string; sn_generation : string; sn_revision : Z; sn_truncated : bool; sn_tool_calls : list CapturedToolCall;
}.

(** The runtime under the tracker. *)
Class Platform := {
  capacity_reading : nat -> Z;
  string_capacity : string -> Z;
  generation_id : nat -> string;
  size_of_call : Z; size_of_content : Z; size_of_bucket : Z; size_of_store : Z; size_of_string : Z;
  call_wire_bytes : View -> Z;
  envelope_wire_bytes : string -> string -> Z -> bool -> Z;
}.
Context `{!Platform} (limits : SessionChangeLimits).

(** ** Sizes *)

Definition allocation_bytes (payload_bytes : Z) : Z :=
  if payload_bytes =? 0 then 0 else sat_add payload_bytes ALLOCATION_OVERHEAD_BYTES.
Definition string_len (s : string) : Z := Z.of_nat (String.length s).
Definition boxed_str_bytes (value : option string) : Z :=
  match value with None => 0 | Some value => allocation_bytes (string_len value) end.
Definition string_allocation_bytes (value : string) : Z := allocation_bytes (string_capacity value).
Definition arc_slice_bytes (size_of_item length : Z) : Z :=
  allocation_bytes (usize_add (usize_mul length size_of_item) ARC_COUNTS_BYTES).
Definition hash_map_capacity_bytes (size_of_value capacity : Z) : Z :=
  if capacity =? 0 then 0
  else
    let bytes_per_slot := usize_add (usize_add size_of_string size_of_value) 1 in
    allocation_bytes (usize_mul (usize_mul capacity HASH_TABLE_CAPACITY_MULTIPLIER) bytes_per_slot).

Definition diff_retained_bytes (d : Diff) : Z :=
  sat_add (sat_add (sat_add (allocation_bytes (Z.of_nat (length (d_path d)))) (boxed_str_bytes (d_old_text d)))
    (boxed_str_bytes (Some (d_new_text d))))
    (boxed_str_bytes (d_meta d)).

Definition call_retained_bytes (v : View) : Z :=
  sat_add
    (sat_add (sat_add (sat_add size_of_call (allocation_bytes (string_len (v_id v)))) (boxed_str_bytes (v_title v)))
       (arc_slice_bytes size_of_content (Z.of_nat (length (v_content v)))))
    (foldl (fun total d => sat_add total (diff_retained_bytes d)) 0 (v_content v)).

(** [refresh_cached_sizes] of a tool call. *)
Definition captured (v : View) (first_seen last_updated : Z) : CapturedToolCall :=
  mkCaptured v first_seen last_updated (call_wire_bytes v) (call_retained_bytes v).

Definition captured_diffs (content : list ToolCallContent) : list Diff :=
  omap (fun c => match c with ContentDiff d => Some d | ContentOther => None end) content.

(** [captured_diffs_match]: element by element, without copying. *)
Fixpoint captured_diffs_match (kept : list Diff) (content : list ToolCallContent) : bool :=
  match content with
  | [] => match kept with [] => true | _ => false end
  | ContentOther :: rest => captured_diffs_match kept rest
  | ContentDiff d :: rest =>
      match kept with
      | [] => false
      | k :: kept => if bool_decide (diff_shape k = diff_shape d) then captured_diffs_match kept rest else false
      end
  end.

Definition empty_call (id : string) (sequence : Z) : CapturedToolCall :=
  captured (mkView id None None None []) sequence sequence.
Definition from_tool_call (t : ToolCall) (sequence first_seen : Z) : CapturedToolCall :=
  captured (mkView (tc_id t) (Some (tc_title t)) (Some (tc_kind t)) (Some (tc_status t)) (captured_diffs (tc_content t)))
    first_seen sequence.
Definition visible (c : CapturedToolCall) : bool := match v_content (ct_view c) with [] => false | _ => true end.

(** ** Buckets *)

(** By the time it was first seen, then by id. *)
Definition key_le (a b : Z * string) : Prop := a.1 < b.1 \/ a.1 = b.1 /\ String.le a.2 b.2.
Definition seen_le (a b : CapturedToolCall) : Prop :=
  key_le (ct_first_seen a, v_id (ct_view a)) (ct_first_seen b, v_id (ct_view b)).
#[export] Instance key_le_dec : RelDecision key_le.
Proof. unfold key_le. intros a b. apply _. Defined.
#[export] Instance seen_le_dec : RelDecision seen_le.
Proof. unfold seen_le. intros a b. apply _. Defined.

Definition calls_of (b : Bucket) : list CapturedToolCall := (map_to_list (b_tool_calls b)).*2.
Definition visible_tool_calls (b : Bucket) : list CapturedToolCall :=
  merge_sort seen_le (filter (fun c => visible c = true) (calls_of b)).

(** The tool calls and what follows from them; [reading] is the table's capacity. *)
Definition refresh_bucket (session_id : string) (reading : Z) (b : Bucket) : Bucket :=
  let start := sat_add (sat_add size_of_bucket (string_allocation_bytes session_id))
                 (hash_map_capacity_bytes size_of_call reading) in
  let calls := map_to_list (b_tool_calls b) in
  mkBucket (b_revision b) (b_truncated b) (b_tool_calls b) (b_last_access b)
    (foldl (fun total p => if visible p.2 then sat_add total (ct_wire_bytes p.2) else total) 0 calls)
    (foldl (fun total p => if visible p.2 then usize_add total 1 else total) 0 calls)
    (foldl (fun total p => sat_add (sat_add total (string_allocation_bytes p.1)) (ct_retained_bytes p.2)) start calls).

Definition response_wire_bytes (b : Bucket) (empty_envelope_bytes : Z) : Z :=
  sat_add (sat_add empty_envelope_bytes (b_visible_wire_bytes b)) (sat_sub (b_visible_count b) 1).

Definition with_calls (calls : gmap string CapturedToolCall) (b : Bucket) : Bucket :=
  mkBucket (b_revision b) (b_truncated b) calls (b_last_access b) (b_visible_wire_bytes b) (b_visible_count b) (b_retained_bytes b).
Definition with_revision (revision : Z) (b : Bucket) : Bucket :=
  mkBucket revision (b_truncated b) (b_tool_calls b) (b_last_access b) (b_visible_wire_bytes b) (b_visible_count b)
    (b_retained_bytes b).
Definition with_access (sequence : Z) (b : Bucket) : Bucket :=
  mkBucket (b_revision b) (b_truncated b) (b_tool_calls b) sequence (b_visible_wire_bytes b) (b_visible_count b)
    (b_retained_bytes b).

(** What an update did to its tool call. *)
Record MutationOutcome := mkMutation { mu_affected_id : string; mu_old_visible : bool; mu_visible_state_changed : bool }.

Definition old_visible (existing : option CapturedToolCall) : bool :=
  match existing with Some c => visible c | None => false end.

Definition apply_tool_call (b : Bucket) (t : ToolCall) (sequence : Z) : Bucket * MutationOutcome :=
  let existing := b_tool_calls b !! tc_id t in
  let first_seen := match existing with Some c => ct_first_seen c | None => sequence end in
  let replacement := from_tool_call t sequence first_seen in
  let changed :=
    match existing with
    | Some c => if visible c && visible replacement then negb (bool_decide (shape (ct_view c) = shape (ct_view replacement)))
                else negb (Bool.eqb (visible c) (visible replacement))
    | None => visible replacement
    end in
  (with_calls (<[tc_id t := replacement]> (b_tool_calls b)) b, mkMutation (tc_id t) (old_visible existing) changed).

(** One optional field of an update: the new value, and whether it changed. *)
Definition set_field {A} `{!EqDecision A} (new : option A) (old : option A) : option A * bool :=
  match new with
  | Some v => if bool_decide (old = Some v) then (old, false) else (Some v, true)
  | None => (old, false)
  end.

Definition apply_tool_call_update (b : Bucket) (u : ToolCallUpdate) (sequence : Z) : Bucket * MutationOutcome :=
  let c := default (empty_call (tu_id u) sequence) (b_tool_calls b !! tu_id u) in
  let v := ct_view c in
  let (title, title_changed) := set_field (tu_title u) (v_title v) in
  let (kind, kind_changed) := set_field (tu_kind u) (v_kind v) in
  let (status, status_changed) := set_field (tu_status u) (v_status v) in
  let (content, content_changed) :=
    match tu_content u with
    | Some content => if captured_diffs_match (v_content v) content then (v_content v, false) else (captured_diffs content, true)
    | None => (v_content v, false)
    end in
  let fields_changed := title_changed || kind_changed || status_changed || content_changed in
  let c' := if fields_changed then captured (mkView (v_id v) title kind status content) (ct_first_seen c) sequence
            else mkCaptured v (ct_first_seen c) sequence (ct_wire_bytes c) (ct_retained_bytes c) in
  (with_calls (<[tu_id u := c']> (b_tool_calls b)) b,
   mkMutation (tu_id u) (visible c) (negb (Bool.eqb (visible c) (visible c')) || visible c' && fields_changed)).

(** ** The store *)

Definition set_sequence (sequence : Z) (s : ChangesStore) : ChangesStore :=
  mkChanges (cs_generation s) (cs_revision s) sequence (cs_capacity_reached s) (cs_sessions s)
    (cs_structural_retained_bytes s) (cs_retained_bytes s) (cs_readings s) (cs_drawn s).
Definition set_sessions_retained (sessions : gmap string Bucket) (retained : Z) (s : ChangesStore) : ChangesStore :=
  mkChanges (cs_generation s) (cs_revision s) (cs_sequence s) (cs_capacity_reached s) sessions
    (cs_structural_retained_bytes s) retained (cs_readings s) (cs_drawn s).
Definition set_capacity_reached (s : ChangesStore) : ChangesStore :=
  mkChanges (cs_generation s) (cs_revision s) (cs_sequence s) true (cs_sessions s)
    (cs_structural_retained_bytes s) (cs_retained_bytes s) (cs_readings s) (cs_drawn s).
Definition read_capacity (s : ChangesStore) : ChangesStore :=
  mkChanges (cs_generation s) (cs_revision s) (cs_sequence s) (cs_capacity_reached s) (cs_sessions s)
    (cs_structural_retained_bytes s) (cs_retained_bytes s) (S (cs_readings s)) (cs_drawn s).

Definition refresh_structural_retained_bytes (s : ChangesStore) : ChangesStore :=
  let structural := sat_add (sat_add size_of_store (string_allocation_bytes (cs_generation s)))
                      (hash_map_capacity_bytes size_of_bucket (capacity_reading (cs_readings s))) in
  mkChanges (cs_generation s) (cs_revision s) (cs_sequence s) (cs_capacity_reached s) (cs_sessions s) structural
    (sat_add (sat_sub (cs_retained_bytes s) (cs_structural_retained_bytes s)) structural) (S (cs_readings s)) (cs_drawn s).

Definition new_store : ChangesStore :=
  refresh_structural_retained_bytes (mkChanges (generation_id 0) 0 0 false ∅ 0 0 0 1).

Definition next_sequence (s : ChangesStore) : ChangesStore := set_sequence ((cs_sequence s + 1) `min` U64_MAX) s.

Definition next_revision (s : ChangesStore) : ChangesStore :=
  let s := if cs_revision s =? U64_MAX
           then refresh_structural_retained_bytes
                  (mkChanges (generation_id (cs_drawn s)) 0 (cs_sequence s) (cs_capacity_reached s)
                     (with_revision 0 <$> cs_sessions s) (cs_structural_retained_bytes s) (cs_retained_bytes s)
                     (cs_readings s) (S (cs_drawn s)))
           else s in
  mkChanges (cs_generation s) (cs_revision s + 1) (cs_sequence s) (cs_capacity_reached s) (cs_sessions s)
    (cs_structural_retained_bytes s) (cs_retained_bytes s) (cs_readings s) (cs_drawn s).

Definition take_bucket (session_id : string) (s : ChangesStore) : option (Bucket * ChangesStore) :=
  match cs_sessions s !! session_id with
  | None => None
  | Some b => Some (b, set_sessions_retained (delete session_id (cs_sessions s)) (sat_sub (cs_retained_bytes s) (b_retained_bytes b)) s)
  end.

Definition insert_bucket (session_id : string) (b : Bucket) (s : ChangesStore) : ChangesStore :=
  refresh_structural_retained_bytes
    (set_sessions_retained (<[session_id := b]> (cs_sessions s)) (sat_add (cs_retained_bytes s) (b_retained_bytes b)) s).

(** ** The limits of a session *)

Record Eviction := mkEviction { ev_affected_removed : bool; ev_removed_visible_other : bool; ev_removed_any : bool }.
Definition no_eviction : Eviction := mkEviction false false false.

Definition within_limits (empty_false empty_true : Z) (b : Bucket) : bool :=
  (Z.of_nat (size (b_tool_calls b)) <=? max_tool_calls_per_session limits)
  && (response_wire_bytes b (if b_truncated b then empty_true else empty_false) <=? max_session_bytes limits).

(** One victim is removed. *)
Definition evict_call (affected_id victim_id : string) (victim : CapturedToolCall) (b : Bucket) (o : Eviction) : Bucket * Eviction :=
  let affected := bool_decide (victim_id = affected_id) in
  let calls := delete victim_id (b_tool_calls b) in
  if visible victim then
    (mkBucket (b_revision b) true calls (b_last_access b) (sat_sub (b_visible_wire_bytes b) (ct_wire_bytes victim))
       (sat_sub (b_visible_count b) 1) (b_retained_bytes b),
     mkEviction (ev_affected_removed o || affected) (ev_removed_visible_other o || negb affected) true)
  else
    (mkBucket (b_revision b) true calls (b_last_access b) (b_visible_wire_bytes b) (b_visible_count b) (b_retained_bytes b),
     mkEviction (ev_affected_removed o || affected) (ev_removed_visible_other o) true).

Fixpoint evict_calls (empty_false empty_true : Z) (affected_id : string) (victims : list string) (b : Bucket) (o : Eviction)
  : Bucket * Eviction :=
  match victims with
  | [] => (b, o)
  | victim_id :: rest =>
      if within_limits empty_false empty_true b then (b, o)
      else match b_tool_calls b !! victim_id with
           | None => evict_calls empty_false empty_true affected_id rest b o
           | Some victim =>
               let (b, o) := evict_call affected_id victim_id victim b o in
               evict_calls empty_false empty_true affected_id rest b o
           end
  end.

(** Least recently updated first. *)
Definition call_victims (b : Bucket) : list string :=
  (merge_sort key_le ((fun c => (ct_last_updated c, v_id (ct_view c))) <$> calls_of b)).*2.

Definition enforce_session_limits (session_id generation : string) (reading : Z) (b : Bucket) (affected_id : string)
  : Bucket * Eviction :=
  let empty_false := envelope_wire_bytes session_id generation U64_MAX false in
  let empty_true := envelope_wire_bytes session_id generation U64_MAX true in
  if within_limits empty_false empty_true b then (b, no_eviction)
  else
    let (b, o) := evict_calls empty_false empty_true affected_id (call_victims b) b no_eviction in
    (if ev_removed_any o then refresh_bucket session_id reading b else b, o).

(** ** The limit of the process *)

Definition over_budget (s : ChangesStore) : bool := max_total_bytes limits <? cs_retained_bytes s.

(** One victim loses its tool calls, or is forgotten. *)
Definition evict_session (victim_id : string) (s : ChangesStore) : ChangesStore :=
  match take_bucket victim_id s with
  | None => s
  | Some (victim, s) =>
      if bool_decide (b_tool_calls victim = ∅) then next_revision (set_capacity_reached s)
      else
        let s := next_revision s in
        let victim := refresh_bucket victim_id (capacity_reading (cs_readings s))
                        (mkBucket (cs_revision s) true ∅ (b_last_access victim) (b_visible_wire_bytes victim)
                           (b_visible_count victim) (b_retained_bytes victim)) in
        let s := read_capacity s in
        if max_total_bytes limits <? sat_add (cs_retained_bytes s) (b_retained_bytes victim)
        then next_revision (set_capacity_reached s)
        else insert_bucket victim_id victim s
  end.

Fixpoint evict_sessions (victims : list string) (s : ChangesStore) : ChangesStore :=
  match victims with
  | [] => s
  | victim_id :: rest => if over_budget s then evict_sessions rest (evict_session victim_id s) else s
  end.

(** Least recently used first. *)
Definition session_victims (s : ChangesStore) : list string :=
  (merge_sort key_le ((fun p => (b_last_access p.2, p.1)) <$> map_to_list (cs_sessions s))).*2.

Definition enforce_global_limit (s : ChangesStore) : ChangesStore :=
  if negb (over_budget s) then s
  else
    let s := refresh_structural_retained_bytes s in
    if negb (over_budget s) then s
    else refresh_structural_retained_bytes (evict_sessions (session_victims s) s).

(** ** Updates and snapshots *)

Definition fresh_bucket (s : ChangesStore) : Bucket :=
  mkBucket (if cs_capacity_reached s then cs_revision s else 0) (cs_capacity_reached s) ∅ 0 0 0 0.

Definition apply (session_id : string) (u : Update) (s : ChangesStore) : ChangesStore :=
  match u with
  | UpOther => s
  | _ =>
      let s := next_sequence s in
      let sequence := cs_sequence s in
      let (b, s) := match take_bucket session_id s with Some taken => taken | None => (fresh_bucket s, s) end in
      let before_truncated := b_truncated b in
      let (b, mutation) :=
        match u with
        | UpToolCall t => apply_tool_call b t sequence
        | UpToolCallUpdate u => apply_tool_call_update b u sequence
        | UpOther => (b, mkMutation EmptyString false false)
        end in
      let b := refresh_bucket session_id (capacity_reading (cs_readings s)) (with_access sequence b) in
      let s := read_capacity s in
      let (b, eviction) :=
        enforce_session_limits session_id (cs_generation s) (capacity_reading (cs_readings s)) b (mu_affected_id mutation) in
      let s := if ev_removed_any eviction then read_capacity s else s in
      let affected_changed := if ev_affected_removed eviction then mu_old_visible mutation else mu_visible_state_changed mutation in
      if affected_changed || ev_removed_visible_other eviction || ev_removed_any eviction
         || negb (Bool.eqb before_truncated (b_truncated b))
      then
        let s := next_revision s in
        enforce_global_limit (insert_bucket session_id (with_revision (cs_revision s) b) s)
      else enforce_global_limit (insert_bucket session_id b s)
  end.

Definition snapshot (session_id : string) (s : ChangesStore) : Snapshot * ChangesStore :=
  let s := next_sequence s in
  match cs_sessions s !! session_id with
  | Some b =>
      (mkSnapshot session_id (cs_generation s) (b_revision b) (b_truncated b) (visible_tool_calls b),
       set_sessions_retained (<[session_id := with_access (cs_sequence s) b]> (cs_sessions s)) (cs_retained_bytes s) s)
  | None =>
      (mkSnapshot session_id (cs_generation s) (if cs_capacity_reached s then cs_revision s else 0) (cs_capacity_reached s) [], s)
  end.

(** ** Histories *)

Inductive Op := OpApply (session_id : string) (u : Update) | OpSnapshot (session_id : string).
Definition run_op (s : ChangesStore) (op : Op) : ChangesStore :=
  match op with OpApply session_id u => apply session_id u s | OpSnapshot session_id => (snapshot session_id s).2 end.
Definition run_ops (ops : list Op) (s : ChangesStore) : ChangesStore := foldl run_op s ops.
End store.
