(* ===== verification/ChangesSafety.v ===== *)
(** What the tracker of changed files promises a client: a snapshot that is not
    marked truncated is complete, equal generation and revision mean equal content,
    and a snapshot fits the response budget. *)

From stdpp Require Import pretty.
From S2P Require Import Prelude Posix Walk SafeExtract SessionChanges.
Open Scope Z_scope.

Section safety.
Context {Kind Status : Type} `{!EqDecision Kind} `{!EqDecision Status} `{!Platform (Kind := Kind) (Status := Status)}.
Notation Captured := (@CapturedToolCall Kind Status).
Notation Calls := (gmap string Captured).

(** ** The visible tool calls, in order *)

Notation Shape := (string * option string * option Kind * option Status * list (list Component * option string * string * option string))%type.
Definition place (c : Captured) : Z * Shape := (ct_first_seen c, shape (ct_view c)).
Definition shape_id (sh : Shape) : string := sh.1.1.1.1.
Definition place_le (a b : Z * Shape) : Prop := key_le (a.1, shape_id a.2) (b.1, shape_id b.2).

(** Every tool call is filed under its id. *)
Definition filed_calls (m : Calls) : Prop := map_Forall (fun id c => v_id (ct_view c) = id) m.

(** Where a visible tool call stands. *)
Definition shown (m : Calls) (id : string) : option (Z * Shape) :=
  match m !! id with Some c => if visible c then Some (place c) else None | None => None end.

Definition visible_of (m : Calls) : list Captured := merge_sort seen_le (filter (fun c => visible c = true) (map_to_list m).*2).

#[local] Instance key_le_total : Total key_le.
Proof.
  intros [a x] [b y]. unfold key_le. simpl. destruct (Z.lt_trichotomy a b) as [|[->|]]; [by left; left| |by right; left].
  destruct (total String.le x y); [left|right]; by right.
Qed.
#[local] Instance key_le_trans : Transitive key_le.
Proof.
  intros [a x] [b y] [c z]. unfold key_le. simpl. intros [?|[-> ?]] [?|[-> ?]]; [left; lia|left; lia|left; lia|right]. split; [done|by etrans].
Qed.
#[local] Instance seen_le_total : Total (seen_le (Kind := Kind) (Status := Status)).
Proof. intros a b. apply key_le_total. Qed.
#[local] Instance seen_le_trans : Transitive (seen_le (Kind := Kind) (Status := Status)).
Proof. intros a b c. apply key_le_trans. Qed.

Lemma elem_of_visible (m : Calls) c : c ∈ visible_of m <-> visible c = true /\ exists id, m !! id = Some c.
Proof.
  unfold visible_of. rewrite merge_sort_Permutation, list_elem_of_filter, list_elem_of_fmap. split.
  - intros [Hv ([id c'] & -> & Hin%elem_of_map_to_list)]. eauto.
  - intros [Hv [id Hid%elem_of_map_to_list]]. split; [done|]. by exists (id, c).
Qed.

Lemma visible_places (m : Calls) :
  filed_calls m ->
  (forall p, p ∈ place <$> visible_of m <-> exists id, shown m id = Some p)
  /\ NoDup (place <$> visible_of m) /\ StronglySorted place_le (place <$> visible_of m).
Proof.
  intros Hf. split; [|split].
  - intros p. rewrite list_elem_of_fmap. unfold shown. split.
    + intros (c & -> & [Hv [id Hid]]%elem_of_visible). exists id. by rewrite Hid, Hv.
    + intros [id H]. destruct (m !! id) as [c|] eqn:Hid; [|done]. destruct (visible c) eqn:Hv; [|done].
      injection H as <-. exists c. split; [done|]. apply elem_of_visible. eauto.
  - unfold visible_of. rewrite merge_sort_Permutation.
    apply (NoDup_fmap_1 (fun p => shape_id p.2)). rewrite <- list_fmap_compose.
    assert (E : forall l : list Captured, ((fun p => shape_id p.2) ∘ place) <$> l = (fun c => v_id (ct_view c)) <$> l) by done.
    rewrite E. clear E. eapply sublist_NoDup; [apply (NoDup_fst_map_to_list m)|].
    assert (Hkeys : (map_to_list m).*1 = (fun c => v_id (ct_view c)) <$> (map_to_list m).*2).
    { rewrite <- list_fmap_compose. apply list_fmap_ext. intros i [id c] Hi. simpl. symmetry.
      apply Hf. apply elem_of_map_to_list. by apply list_elem_of_lookup_2 in Hi. }
    rewrite Hkeys. apply fmap_sublist, sublist_filter.
  - assert (Hs : StronglySorted seen_le (visible_of m)) by (apply StronglySorted_merge_sort; apply _).
    induction Hs as [|c l Hs IH Hc]; [constructor|]. rewrite fmap_cons. constructor; [done|].
    apply Forall_fmap. eapply Forall_impl; [exact Hc|]. done.
Qed.

(** Places with distinct ids that hold the same calls are in the same order. *)
Lemma places_unique (l1 l2 : list (Z * Shape)) :
  (forall p q, p ∈ l1 -> q ∈ l1 -> shape_id p.2 = shape_id q.2 -> p = q) ->
  (forall p, p ∈ l1 <-> p ∈ l2) -> NoDup l1 -> NoDup l2 -> StronglySorted place_le l1 -> StronglySorted place_le l2 -> l1 = l2.
Proof.
  intros Hid Hin N1 N2 S1 S2. apply (StronglySorted_unique_strong place_le); [|done|done|by apply NoDup_Permutation].
  intros p q Hp Hq%Hin. unfold place_le, key_le. simpl. intros H1 H2. apply Hid; [done..|].
  destruct H1 as [?|[? ?]], H2 as [?|[? ?]]; [lia..|]. by apply (anti_symm String.le).
Qed.

Lemma shown_inj (m : Calls) id id' p p' :
  filed_calls m -> shown m id = Some p -> shown m id' = Some p' -> shape_id p.2 = shape_id p'.2 -> p = p'.
Proof.
  intros Hf. unfold shown. destruct (m !! id) as [c|] eqn:E; [|done]. destruct (m !! id') as [c'|] eqn:E'; [|done].
  destruct (visible c), (visible c'); try done. intros [= <-] [= <-]. unfold place, shape_id. simpl.
  rewrite (Hf _ _ E), (Hf _ _ E'). intros ->. congruence.
Qed.

(** What is shown depends on what stands where. *)
Lemma visible_same (m m' : Calls) :
  filed_calls m -> filed_calls m' -> (forall id, shown m id = shown m' id) -> place <$> visible_of m = place <$> visible_of m'.
Proof.
  intros Hf Hf' Hs. destruct (visible_places m Hf) as (E1 & N1 & S1). destruct (visible_places m' Hf') as (E2 & N2 & S2).
  apply places_unique; [|intros p; rewrite E1, E2; by setoid_rewrite Hs|done..].
  intros p q [i Hi]%E1 [j Hj]%E1. by apply (shown_inj m i j).
Qed.

(** ** One update *)

Notation bucket := (@Bucket Kind Status).
Notation mutate_call := (apply_tool_call (Kind := Kind) (Status := Status)).
Notation mutate_update := (apply_tool_call_update (Kind := Kind) (Status := Status)).

(** The view an update leaves, from the one it finds. *)
Definition merge_view (u : @ToolCallUpdate Kind Status) (old : option (@View Kind Status)) : @View Kind Status :=
  let v := default (mkView (tu_id u) None None None []) old in
  let keep {A} (new old : option A) := match new with Some x => Some x | None => old end in
  mkView (v_id v) (keep (tu_title u) (v_title v)) (keep (tu_kind u) (v_kind v)) (keep (tu_status u) (v_status v))
    (match tu_content u with Some content => captured_diffs content | None => v_content v end).
Definition call_view (t : @ToolCall Kind Status) : @View Kind Status :=
  mkView (tc_id t) (Some (tc_title t)) (Some (tc_kind t)) (Some (tc_status t)) (captured_diffs (tc_content t)).

Lemma diffs_match_spec kept content :
  captured_diffs_match kept content = true <-> diff_shape <$> kept = diff_shape <$> captured_diffs content.
Proof.
  revert kept. induction content as [|[d|] rest IH]; intros kept; simpl.
  - destruct kept; naive_solver.
  - destruct kept as [|k kept]; simpl; [naive_solver|]. case_bool_decide as E; rewrite ?IH; [|naive_solver].
    split; [intros Hk; f_equal; [exact E|exact Hk]|intros Hk; by apply (f_equal tail) in Hk].
  - apply IH.
Qed.

Lemma visible_shape (c c' : Captured) : shape (ct_view c) = shape (ct_view c') -> visible c = visible c'.
Proof.
  intros E. injection E as _ _ _ _ E. unfold visible. by destruct (v_content (ct_view c)), (v_content (ct_view c')).
Qed.

Notation update := (@Update Kind Status).
Definition update_id (u : update) : option string :=
  match u with UpToolCall t => Some (tc_id t) | UpToolCallUpdate u => Some (tu_id u) | UpOther => None end.
Definition update_view (u : update) (old : option (@View Kind Status)) : @View Kind Status :=
  match u with
  | UpToolCall t => call_view t
  | UpToolCallUpdate u => merge_view u old
  | UpOther => default (mkView EmptyString None None None []) old
  end.

Lemma update_view_shape u v v' : shape v = shape v' -> shape (update_view u (Some v)) = shape (update_view u (Some v')).
Proof.
  intros E. destruct u as [t|u|]; [done| |done]. injection E as E1 E2 E3 E4 E5. unfold shape. simpl. rewrite E1.
  destruct (tu_title u), (tu_kind u), (tu_status u), (tu_content u); simpl; by rewrite ?E2, ?E3, ?E4, ?E5.
Qed.

(** The cached sizes are the sizes. *)
Definition sized_calls (m : Calls) : Prop := map_Forall (fun _ c => ct_wire_bytes c = call_wire_bytes (ct_view c)) m.

Definition mutate (b : bucket) (u : update) (sequence : Z) : bucket * MutationOutcome :=
  match u with
  | UpToolCall t => mutate_call b t sequence
  | UpToolCallUpdate u => mutate_update b u sequence
  | UpOther => (b, mkMutation EmptyString false false)
  end.

Record mutated (b : bucket) (u : update) (sequence : Z) (id : string) (c : Captured) (changed : bool) : Prop := mkMutated {
  mt_id : v_id (ct_view c) = id;
  mt_first : ct_first_seen c = match b_tool_calls b !! id with Some old => ct_first_seen old | None => sequence end;
  mt_shape : shape (ct_view c) = shape (update_view u (ct_view <$> b_tool_calls b !! id));
  mt_sized : sized_calls (b_tool_calls b) -> ct_wire_bytes c = call_wire_bytes (ct_view c);
  mt_quiet : changed = false -> shown (b_tool_calls b) id = shown (<[id := c]> (b_tool_calls b)) id;
}.

Lemma mutate_call_run b t sequence :
  exists c, (mutate_call b t sequence).1 = with_calls (<[tc_id t := c]> (b_tool_calls b)) b
    /\ mutated b (UpToolCall t) sequence (tc_id t) c (mu_visible_state_changed (mutate_call b t sequence).2).
Proof.
  eexists. split; [done|]. constructor; [done|done|done|done|]. simpl. intros Hq. unfold shown. rewrite lookup_insert_eq.
  destruct (b_tool_calls b !! tc_id t) as [old|] eqn:E.
  - set (new := from_tool_call _ _ _) in *.
    destruct (visible old) eqn:Vo, (visible new) eqn:Vn; simpl in Hq; try done.
    apply negb_false_iff, bool_decide_eq_true in Hq. f_equal. unfold place. by rewrite Hq.
  - by rewrite Hq.
Qed.

Lemma set_field_spec {A} `{!EqDecision A} (new old : option A) :
  (set_field new old).1 = match new with Some x => Some x | None => old end
  /\ ((set_field new old).2 = false -> (set_field new old).1 = old).
Proof. destruct new as [x|]; simpl; [|done]. case_bool_decide as E; by rewrite ?E. Qed.

Lemma mutate_update_run b u sequence :
  filed_calls (b_tool_calls b) ->
  exists c, (mutate_update b u sequence).1 = with_calls (<[tu_id u := c]> (b_tool_calls b)) b
    /\ mutated b (UpToolCallUpdate u) sequence (tu_id u) c (mu_visible_state_changed (mutate_update b u sequence).2).
Proof.
  intros Hf. unfold apply_tool_call_update.
  set (old := b_tool_calls b !! tu_id u). set (c0 := default _ old).
  assert (Hid : v_id (ct_view c0) = tu_id u) by (unfold c0; destruct old as [c|] eqn:E; [by apply Hf|done]).
  pose proof (set_field_spec (tu_title u) (v_title (ct_view c0))) as [Ht Ht'].
  pose proof (set_field_spec (tu_kind u) (v_kind (ct_view c0))) as [Hk Hk'].
  pose proof (set_field_spec (tu_status u) (v_status (ct_view c0))) as [Hs Hs'].
  destruct (set_field (tu_title u) _) as [title tch], (set_field (tu_kind u) _) as [kind kch],
    (set_field (tu_status u) _) as [status sch]. simpl in Ht, Ht', Hk, Hk', Hs, Hs'.
  set (cont := match tu_content u with Some _ => _ | None => _ end).
  assert (Hc : diff_shape <$> cont.1 = diff_shape <$> match tu_content u with Some content => captured_diffs content | None => v_content (ct_view c0) end
    /\ (cont.2 = false -> cont.1 = v_content (ct_view c0))).
  { unfold cont. destruct (tu_content u) as [content|]; [|done].
    destruct (captured_diffs_match _ _) eqn:Em; simpl; [|done]. split; [|done]. by apply diffs_match_spec. }
  destruct cont as [content cch]. simpl in Hc. destruct Hc as [Hc Hc'].
  set (changed := tch || kch || sch || cch). eexists. split; [reflexivity|].
  assert (Hmerge : shape (update_view (UpToolCallUpdate u) (ct_view <$> old)) = shape (mkView (v_id (ct_view c0)) title kind status content)).
  { unfold shape. simpl. rewrite Hc, Ht, Hk, Hs. unfold merge_view, c0. by destruct old. }
  constructor.
  - by destruct changed.
  - fold old. unfold c0. destruct changed; by destruct old.
  - fold old. rewrite Hmerge. destruct changed eqn:Ech; [done|]. unfold changed in Ech.
    apply orb_false_elim in Ech as [[[-> ->]%orb_false_elim ->]%orb_false_elim ->].
    unfold shape. simpl. by rewrite Ht', Hk', Hs', Hc'.
  - intros Hsz. destruct changed; [done|]. simpl. unfold c0. destruct old as [c|] eqn:E; [by apply Hsz in E|done].
  - simpl. intros [Hv Hq]%orb_false_elim. apply negb_false_iff, eqb_prop in Hv.
    unfold shown. rewrite lookup_insert_eq. fold old. destruct changed eqn:Ech.
    + rewrite andb_true_r in Hq. rewrite Hq. rewrite Hq in Hv. unfold c0 in Hv. destruct old as [c|]; [|done]. simpl in Hv. by rewrite Hv.
    + rewrite <- Hv. unfold c0. destruct old as [c|]; done.
Qed.

(** ** Positions: what a poller compares *)

Notation store := (@ChangesStore Kind Status).

Definition rev_of (s : store) (sid : string) : Z :=
  match cs_sessions s !! sid with Some b => b_revision b | None => if cs_capacity_reached s then cs_revision s else 0 end.
Definition content_of (s : store) (sid : string) : bool * list (Z * Shape) :=
  match cs_sessions s !! sid with
  | Some b => (b_truncated b, place <$> visible_of (b_tool_calls b))
  | None => (cs_capacity_reached s, [])
  end.

Record store_inv (s : store) : Prop := mkStoreInv {
  si_revision : 0 <= cs_revision s <= U64_MAX;
  si_generation : exists k, cs_drawn s = S k /\ cs_generation s = generation_id k;
  si_buckets : forall sid b, cs_sessions s !! sid = Some b -> 0 <= b_revision b <= cs_revision s;
  si_filed : forall sid b, cs_sessions s !! sid = Some b -> filed_calls (b_tool_calls b) /\ sized_calls (b_tool_calls b);
}.

(** The position moves on, or nothing is seen to change. *)
Definition adv_at (s s' : store) (sid : string) : Prop :=
  (cs_drawn s < cs_drawn s')%nat
  \/ cs_drawn s = cs_drawn s' /\ rev_of s sid <= rev_of s' sid /\ (rev_of s sid = rev_of s' sid -> content_of s sid = content_of s' sid).
Definition advance (s s' : store) : Prop := forall sid, adv_at s s' sid.
#[export] Instance advance_preorder : PreOrder advance.
Proof.
  split; [by intros s sid; right|]. intros a b c Hab Hbc sid. destruct (Hab sid) as [?|(E1 & L1 & C1)], (Hbc sid) as [?|(E2 & L2 & C2)];
    [left; lia..|]. right. split; [congruence|]. split; [lia|]. intros E. rewrite C1, C2 by lia. done.
Qed.

Lemma rev_bounded s sid : store_inv s -> 0 <= rev_of s sid <= cs_revision s.
Proof.
  intros Hs. pose proof (si_revision s Hs). unfold rev_of. destruct (cs_sessions s !! sid) as [b|] eqn:E; [by eapply si_buckets|].
  destruct (cs_capacity_reached s); lia.
Qed.

(** A session that got a new revision. *)
Lemma adv_bump s s' sid :
  store_inv s -> (cs_drawn s < cs_drawn s')%nat \/ cs_drawn s = cs_drawn s' /\ cs_revision s < rev_of s' sid -> adv_at s s' sid.
Proof.
  intros Hs [?|[E L]]; [by left|]. right. pose proof (rev_bounded s sid Hs). split; [done|]. split; lia.
Qed.

Lemma adv_keep s s' sid :
  (cs_drawn s < cs_drawn s')%nat \/ cs_drawn s = cs_drawn s' /\ rev_of s sid = rev_of s' sid /\ content_of s sid = content_of s' sid ->
  adv_at s s' sid.
Proof. intros [?|(? & ? & ?)]; [by left|right]. split; [done|]. split; [lia|done]. Qed.

(** What stays of the buckets: a session keeps its tool calls, loses them all and is
    marked, or is forgotten, which is marked too. *)
Record shrinks (s s' : store) : Prop := mkShrinks {
  sh_sequence : cs_sequence s' = cs_sequence s;
  sh_capacity : cs_capacity_reached s = true -> cs_capacity_reached s' = true;
  sh_buckets : forall sid b', cs_sessions s' !! sid = Some b' -> exists b, cs_sessions s !! sid = Some b
    /\ (b_tool_calls b' = b_tool_calls b /\ b_truncated b' = b_truncated b \/ b_tool_calls b' = ∅ /\ b_truncated b' = true);
  sh_gone : forall sid, cs_sessions s' !! sid = None -> cs_sessions s !! sid = None \/ cs_capacity_reached s' = true;
}.
#[export] Instance shrinks_preorder : PreOrder shrinks.
Proof.
  split.
  - intros s. constructor; [done|done| |auto]. intros sid b' Hb. exists b'. auto.
  - intros a b c [A1 A2 A3 A4] [B1 B2 B3 B4]. constructor; [congruence|auto| |].
    + intros sid b'' Hb. destruct (B3 sid b'' Hb) as (b' & Hb' & Hc'). destruct (A3 sid b' Hb') as (b0 & Hb0 & Hc0).
      exists b0. split; [done|]. destruct Hc' as [[-> ->]|?]; [done|by right].
    + intros sid Hn. destruct (B4 sid Hn) as [Hb|]; [|by right]. destruct (A4 sid Hb) as [|Hc]; [by left|]. right. auto.
Qed.

Lemma refresh_same (s : store) :
  let s' := refresh_structural_retained_bytes s in
  cs_generation s' = cs_generation s /\ cs_revision s' = cs_revision s /\ cs_sequence s' = cs_sequence s
  /\ cs_capacity_reached s' = cs_capacity_reached s /\ cs_sessions s' = cs_sessions s /\ cs_drawn s' = cs_drawn s.
Proof. done. Qed.

(** Changes beside what is promised. *)
Record same_changes (s s' : store) : Prop := mkSame {
  sm_generation : cs_generation s' = cs_generation s;
  sm_revision : cs_revision s' = cs_revision s;
  sm_sequence : cs_sequence s' = cs_sequence s;
  sm_capacity : cs_capacity_reached s' = cs_capacity_reached s;
  sm_sessions : cs_sessions s' = cs_sessions s;
  sm_drawn : cs_drawn s' = cs_drawn s;
}.

Lemma same_inv s s' : same_changes s s' -> store_inv s -> store_inv s'.
Proof. intros [E1 E2 E3 E4 E5 E6] [H1 H2 H3 H4]. constructor; by rewrite ?E1, ?E2, ?E5, ?E6. Qed.
Lemma same_advance s s' : same_changes s s' -> advance s s'.
Proof. intros [E1 E2 E3 E4 E5 E6] sid. apply adv_keep. right. unfold rev_of, content_of. by rewrite E2, E4, E5, E6. Qed.
Lemma same_shrinks s s' : same_changes s s' -> shrinks s s'.
Proof.
  intros [E1 E2 E3 E4 E5 E6]. constructor; rewrite ?E3, ?E4, ?E5; auto. intros sid b Hb. exists b. auto.
Qed.

(** ** A new revision *)

Lemma next_revision_run (s : store) :
  store_inv s ->
  let s' := next_revision s in
  store_inv s' /\ cs_sequence s' = cs_sequence s /\ cs_capacity_reached s' = cs_capacity_reached s
  /\ (cs_drawn s' = cs_drawn s /\ cs_revision s' = cs_revision s + 1 /\ cs_sessions s' = cs_sessions s
      \/ cs_drawn s' = S (cs_drawn s) /\ cs_sessions s' = with_revision 0 <$> cs_sessions s).
Proof.
  intros [H1 H2 H3 H4]. unfold next_revision. destruct (Z.eqb_spec (cs_revision s) U64_MAX) as [E|E]; simpl.
  - split; [|by split_and!; [..|right]]. constructor; simpl; [unfold U64_MAX; lia|by exists (cs_drawn s)|..].
    + intros sid b. rewrite lookup_fmap, fmap_Some. intros (b0 & _ & ->). simpl. lia.
    + intros sid b. rewrite lookup_fmap, fmap_Some. intros (b0 & Hb & ->). exact (H4 sid b0 Hb).
  - split; [|by split_and!; [..|left]]. constructor; simpl; [lia|done| |done].
    intros sid b Hb. specialize (H3 sid b Hb). lia.
Qed.

Lemma next_revision_bumps (s : store) :
  store_inv s -> (cs_drawn s < cs_drawn (next_revision s))%nat
    \/ cs_drawn s = cs_drawn (next_revision s) /\ cs_revision s < cs_revision (next_revision s).
Proof. intros Hs. destruct (next_revision_run s Hs) as (_ & _ & _ & [(-> & -> & _)|(-> & _)]); [right; lia|left; lia]. Qed.

(** Buckets only get another revision. *)
Lemma next_revision_sessions (s : store) sid :
  store_inv s ->
  cs_sessions (next_revision s) !! sid = cs_sessions s !! sid
  \/ cs_sessions (next_revision s) !! sid = with_revision 0 <$> (cs_sessions s !! sid).
Proof.
  intros Hs. destruct (next_revision_run s Hs) as (_ & _ & _ & [(_ & _ & ->)|(_ & ->)]); [by left|right]. by rewrite lookup_fmap.
Qed.

Lemma next_revision_shrinks s : store_inv s -> shrinks s (next_revision s).
Proof.
  intros Hs. destruct (next_revision_run s Hs) as (_ & E1 & E2 & _). constructor; rewrite ?E1, ?E2; auto.
  - intros sid b'. destruct (next_revision_sessions s sid Hs) as [->| ->]; [intros Hb; by exists b'; auto|].
    destruct (cs_sessions s !! sid) as [b|]; [|done]. intros [= <-]. exists b. auto.
  - intros sid. destruct (next_revision_sessions s sid Hs) as [->| ->]; [auto|]. destruct (cs_sessions s !! sid); [done|auto].
Qed.

Lemma next_revision_advance s : store_inv s -> advance s (next_revision s).
Proof.
  intros Hs sid. pose proof (next_revision_bumps s Hs) as Hb. destruct (next_revision_run s Hs) as (_ & _ & Ec & Hcase).
  destruct (cs_sessions s !! sid) as [b|] eqn:Es.
  - apply adv_keep. destruct Hcase as [(Ed & _ & Ess)|(Ed & _)]; [|left; lia].
    right. unfold rev_of, content_of. by rewrite Ed, Ess, Es.
  - destruct (cs_capacity_reached s) eqn:Ecap.
    + apply adv_bump; [done|]. destruct Hb as [?|[? ?]]; [by left|right]. split; [done|]. unfold rev_of.
      assert (cs_sessions (next_revision s) !! sid = None) as ->.
      { destruct (next_revision_sessions s sid Hs) as [->| ->]; by rewrite Es. }
      by rewrite Ec.
    + apply adv_keep. destruct Hcase as [(Ed & _ & Ess)|(Ed & _)]; [|left; lia].
      right. unfold rev_of, content_of. by rewrite Ed, Ess, Es, Ec, Ecap.
Qed.

(** ** Evictions *)

Definition later_revision (s s' : store) : Prop :=
  (cs_drawn s < cs_drawn s')%nat \/ cs_drawn s = cs_drawn s' /\ cs_revision s < cs_revision s'.
#[export] Instance later_revision_trans : Transitive later_revision.
Proof. intros a b c [?|[? ?]] [?|[? ?]]; [left; lia..|right; lia]. Qed.

Lemma adv_at_trans s1 s2 s3 sid : adv_at s1 s2 sid -> adv_at s2 s3 sid -> adv_at s1 s3 sid.
Proof.
  intros [?|(E1 & L1 & C1)] [?|(E2 & L2 & C2)]; [left; lia..|]. right. split; [congruence|]. split; [lia|].
  intros E. rewrite C1, C2 by lia. done.
Qed.

Lemma adv_at_same s s' sid :
  cs_sessions s' !! sid = cs_sessions s !! sid -> cs_capacity_reached s' = cs_capacity_reached s -> cs_revision s' = cs_revision s ->
  cs_drawn s' = cs_drawn s -> adv_at s s' sid.
Proof. intros E1 E2 E3 E4. apply adv_keep. right. unfold rev_of, content_of. by rewrite E1, E2, E3, E4. Qed.

(** The capacity is marked as reached with a new revision. *)
Definition mark (s : store) : store := next_revision (set_capacity_reached s).

Lemma capacity_inv s : store_inv s -> store_inv (set_capacity_reached s).
Proof. by intros [H1 H2 H3 H4]; constructor. Qed.
Lemma capacity_shrinks s : shrinks s (set_capacity_reached s).
Proof. constructor; simpl; auto. intros sid b Hb. exists b. auto. Qed.

Lemma mark_later s : store_inv s -> later_revision s (mark s).
Proof. intros Hs. exact (next_revision_bumps _ (capacity_inv s Hs)). Qed.

Lemma mark_advance s sid : store_inv s -> adv_at s (mark s) sid.
Proof.
  intros Hs. pose proof (capacity_inv s Hs) as Hc. destruct (cs_sessions s !! sid) as [b|] eqn:Es.
  - eapply adv_at_trans; [|exact (next_revision_advance _ Hc sid)].
    apply adv_keep. right. unfold rev_of, content_of. simpl. by rewrite Es.
  - apply adv_bump; [done|]. destruct (mark_later s Hs) as [?|[? ?]]; [by left|right]. split; [done|]. unfold rev_of.
    assert (cs_sessions (mark s) !! sid = None) as ->.
    { unfold mark. destruct (next_revision_sessions _ sid Hc) as [->| ->]; simpl; by rewrite Es. }
    destruct (next_revision_run _ Hc) as (_ & _ & Ec & _). unfold mark. by rewrite Ec.
Qed.

Lemma mark_inv s : store_inv s -> store_inv (mark s).
Proof. intros Hs. apply (next_revision_run _ (capacity_inv s Hs)). Qed.
Lemma mark_shrinks s : store_inv s -> shrinks s (mark s).
Proof. intros Hs. etrans; [apply capacity_shrinks|]. by apply next_revision_shrinks, capacity_inv. Qed.
Lemma mark_capacity s : store_inv s -> cs_capacity_reached (mark s) = true.
Proof. intros Hs. unfold mark. by destruct (next_revision_run _ (capacity_inv s Hs)) as (_ & _ & -> & _). Qed.

(** A bucket is taken out. *)
Definition without (sid : string) (retained : Z) (s : store) : store := set_sessions_retained (delete sid (cs_sessions s)) retained s.

Lemma without_inv sid r s : store_inv s -> store_inv (without sid r s).
Proof.
  intros [H1 H2 H3 H4]. constructor; simpl; [done|done|..]; intros sid' b [_ Hb]%lookup_delete_Some; [by eapply H3|by eapply H4].
Qed.

(** The tool calls that were filed and sized. *)
Definition good_calls (m : Calls) : Prop := filed_calls m /\ sized_calls m.

Lemma insert_bucket_inv sid b s :
  store_inv s -> 0 <= b_revision b <= cs_revision s -> good_calls (b_tool_calls b) -> store_inv (insert_bucket sid b s).
Proof.
  intros [H1 H2 H3 H4] Hr Hg. constructor; simpl; [done|done|..]; intros sid' b' [[<- <-]|[_ Hb]]%lookup_insert_Some; eauto.
Qed.

(** From a store without a victim to one that marks what happened to it. *)
Record replaced (victim : string) (s s' : store) : Prop := mkReplaced {
  rp_inv : store_inv s';
  rp_later : cs_sessions s' !! victim = None -> cs_capacity_reached s' = true;
  rp_advance : advance s s';
  rp_shrinks : shrinks s s';
}.

Lemma forgotten_replaced victim r s sm :
  store_inv s -> store_inv sm -> cs_sessions sm !! victim = None ->
  shrinks (without victim r s) sm ->
  (forall sid, sid <> victim -> adv_at s sm sid) -> (later_revision s sm \/ same_changes (without victim r s) sm) ->
  replaced victim s (mark sm).
Proof.
  intros Hs Hsm Hv Hsh Hadv Hl. assert (Hl' : later_revision s (mark sm)).
  { destruct Hl as [Hl|[E1 E2 E3 E4 E5 E6]]; [by trans sm; [|by apply mark_later]|].
    destruct (mark_later sm Hsm) as [H|[H1 H2]]; [left; simpl in *; lia|right; simpl in *; lia]. }
  constructor; [by apply mark_inv|by intros _; apply mark_capacity|..].
  - intros sid. destruct (decide (sid = victim)) as [->|Hne].
    + apply adv_bump; [done|]. destruct Hl' as [?|[? ?]]; [by left|right]. split; [done|]. unfold rev_of.
      assert (cs_sessions (mark sm) !! victim = None) as ->.
      { unfold mark. destruct (next_revision_sessions _ victim (capacity_inv sm Hsm)) as [->| ->]; simpl; by rewrite Hv. }
      by rewrite mark_capacity.
    + eapply adv_at_trans; [by apply Hadv|]. by apply mark_advance.
  - pose proof (shrinks_preorder.(PreOrder_Transitive) _ _ _ Hsh (mark_shrinks sm Hsm)) as [A1 A2 A3 A4]. constructor; [done|done| |].
    + intros sid b' Hb. destruct (A3 sid b' Hb) as (b & Hb0 & Hc). simpl in Hb0. apply lookup_delete_Some in Hb0 as [_ Hb0].
      by exists b.
    + intros sid _. right. by apply mark_capacity.
Qed.

Context (limits : SessionChangeLimits).

Lemma refreshed_calls sid r (b : bucket) :
  b_tool_calls (refresh_bucket sid r b) = b_tool_calls b /\ b_truncated (refresh_bucket sid r b) = b_truncated b
  /\ b_revision (refresh_bucket sid r b) = b_revision b /\ b_last_access (refresh_bucket sid r b) = b_last_access b.
Proof. done. Qed.

Lemma good_empty : good_calls ∅.
Proof. split; apply map_Forall_empty. Qed.

(** Another bucket in the place of the victim, with the newest revision. *)
Lemma tombstone_replaced victim r s b0 b s2 :
  store_inv s -> cs_sessions s !! victim = Some b0 -> s2 = next_revision (without victim r s) ->
  b_revision b = cs_revision s2 -> b_tool_calls b = ∅ -> b_truncated b = true ->
  replaced victim s (insert_bucket victim b (read_capacity s2)).
Proof.
  intros Hs Hb0 Es2 Er Ec Et. pose proof (without_inv victim r s Hs) as Hw.
  destruct (next_revision_run _ Hw) as (H2 & Eq & Ecap & _). rewrite <- Es2 in H2, Eq, Ecap.
  assert (Hr2 : store_inv (read_capacity s2)) by (by destruct H2 as [A1 A2 A3 A4]; constructor).
  assert (Hne : forall sid, sid <> victim -> cs_sessions (insert_bucket victim b (read_capacity s2)) !! sid = cs_sessions s2 !! sid).
  { intros sid Hne. simpl. by rewrite lookup_insert_ne. }
  constructor.
  - apply insert_bucket_inv; [done| |rewrite Ec; apply good_empty]. rewrite Er. pose proof (si_revision _ H2). simpl. lia.
  - simpl. by rewrite lookup_insert_eq.
  - intros sid. destruct (decide (sid = victim)) as [->|Hsid].
    + apply adv_bump; [done|]. pose proof (next_revision_bumps _ Hw) as Hb. rewrite <- Es2 in Hb. unfold rev_of. simpl.
      rewrite lookup_insert_eq, Er. exact Hb.
    + eapply adv_at_trans; [apply (adv_at_same s (without victim r s)); simpl; [by rewrite lookup_delete_ne|done..]|].
      eapply adv_at_trans; [exact (next_revision_advance _ Hw sid)|]. rewrite <- Es2.
      apply adv_at_same; [by apply Hne|done..].
  - pose proof (next_revision_shrinks _ Hw) as [A1 A2 A3 A4]. rewrite <- Es2 in A1, A2, A3, A4. constructor; [done|exact A2|..].
    + intros sid b'. destruct (decide (sid = victim)) as [->|Hsid].
      * simpl. rewrite lookup_insert_eq. intros [= <-]. exists b0. auto.
      * rewrite Hne by done. intros (b1 & Hb1 & Hc1)%A3. simpl in Hb1. rewrite lookup_delete_ne in Hb1 by done. by exists b1.
    + intros sid. destruct (decide (sid = victim)) as [->|Hsid]; [simpl; by rewrite lookup_insert_eq|].
      rewrite Hne by done. intros Hn. destruct (A4 sid Hn) as [Hd|Hcap]; [|by right]. left. simpl in Hd. by rewrite lookup_delete_ne in Hd.
Qed.

Lemma evict_session_run victim s :
  store_inv s -> store_inv (evict_session limits victim s) /\ advance s (evict_session limits victim s)
  /\ shrinks s (evict_session limits victim s).
Proof.
  intros Hs. unfold evict_session, take_bucket. destruct (cs_sessions s !! victim) as [b0|] eqn:Eb; [|by split_and!].
  set (r := sat_sub _ _). change (set_sessions_retained (delete victim (cs_sessions s)) r s) with (without victim r s).
  pose proof (without_inv victim r s Hs) as Hw.
  assert (Hfin : forall s', replaced victim s s' -> store_inv s' /\ advance s s' /\ shrinks s s') by (by intros s' []).
  case_bool_decide as Ee.
  { apply Hfin. apply (forgotten_replaced victim r); [done|done|simpl; apply lookup_delete_eq|done| |by right].
    intros sid Hne. apply adv_at_same; simpl; [by rewrite lookup_delete_ne|done..]. }
  set (s2 := next_revision (without victim r s)). set (b := refresh_bucket _ _ _).
  destruct (next_revision_run _ Hw) as (H2 & _). fold s2 in H2.
  destruct (max_total_bytes limits <? _).
  - apply Hfin. apply (forgotten_replaced victim r s (read_capacity s2)); [done|by apply (same_inv s2)| |..].
    + change (cs_sessions s2 !! victim = None). unfold s2.
      destruct (next_revision_sessions _ victim Hw) as [->| ->]; simpl; by rewrite lookup_delete_eq.
    + etrans; [by apply next_revision_shrinks|]. fold s2. by apply same_shrinks.
    + intros sid Hne. eapply adv_at_trans; [apply (adv_at_same s (without victim r s)); simpl; [by rewrite lookup_delete_ne|done..]|].
      eapply adv_at_trans; [exact (next_revision_advance _ Hw sid)|]. fold s2. by apply adv_at_same.
    + left. exact (next_revision_bumps _ Hw).
  - apply Hfin. by apply (tombstone_replaced victim r s b0 b s2).
Qed.

Lemma evict_sessions_run victims s :
  store_inv s -> store_inv (evict_sessions limits victims s) /\ advance s (evict_sessions limits victims s)
  /\ shrinks s (evict_sessions limits victims s).
Proof.
  revert s. induction victims as [|v victims IH]; intros s Hs; simpl; [by split_and!|].
  destruct (over_budget limits s); [|by split_and!]. destruct (evict_session_run v s Hs) as (H1 & A1 & S1).
  destruct (IH _ H1) as (H2 & A2 & S2). split; [done|]. split; by etrans.
Qed.

Lemma refresh_structural_same s : same_changes s (refresh_structural_retained_bytes s).
Proof. done. Qed.

Lemma global_limit_run s :
  store_inv s -> store_inv (enforce_global_limit limits s) /\ advance s (enforce_global_limit limits s)
  /\ shrinks s (enforce_global_limit limits s).
Proof.
  intros Hs. unfold enforce_global_limit. destruct (negb _); [by split_and!|].
  set (s1 := refresh_structural_retained_bytes s). assert (E1 : same_changes s s1) by done.
  pose proof (same_inv _ _ E1 Hs) as H1.
  destruct (negb _); [split; [done|split; [by apply same_advance|by apply same_shrinks]]|].
  destruct (evict_sessions_run (session_victims s1) s1 H1) as (H2 & A2 & S2).
  set (s2 := evict_sessions _ _ _) in *. assert (E3 : same_changes s2 (refresh_structural_retained_bytes s2)) by done.
  split; [by apply (same_inv s2)|]. split.
  - etrans; [by apply (same_advance s s1)|]. etrans; [exact A2|by apply same_advance].
  - etrans; [by apply (same_shrinks s s1)|]. etrans; [exact S2|by apply same_shrinks].
Qed.

(** ** The limits of one session *)

Lemma good_sub (m m' : Calls) : m' ⊆ m -> good_calls m -> good_calls m'.
Proof. intros Hsub [H1 H2]. split; intros id c Hc; [apply (H1 id)|apply (H2 id)]; by eapply lookup_weaken. Qed.

Lemma evict_calls_run ef et affected victims (b : bucket) o b' o' :
  evict_calls limits ef et affected victims b o = (b', o') ->
  b_revision b' = b_revision b /\ b_tool_calls b' ⊆ b_tool_calls b
  /\ (b' = b /\ o' = o \/ b_truncated b' = true /\ ev_removed_any o' = true).
Proof.
  revert b o. induction victims as [|v victims IH]; intros b o; simpl; [intros [= <- <-]; auto|].
  destruct (within_limits limits ef et b); [intros [= <- <-]; auto|].
  destruct (b_tool_calls b !! v) as [c|] eqn:Ec; [|apply IH].
  destruct (evict_call affected v c b o) as [b1 o1] eqn:E1. intros H.
  assert (Hb1 : b_revision b1 = b_revision b /\ b_tool_calls b1 = delete v (b_tool_calls b) /\ b_truncated b1 = true
    /\ ev_removed_any o1 = true).
  { unfold evict_call in E1. destruct (visible c); injection E1 as <- <-; done. }
  destruct Hb1 as (R1 & C1 & T1 & O1). apply IH in H as (R2 & C2 & Hcase).
  split; [congruence|]. split; [etrans; [exact C2|rewrite C1; apply delete_subseteq]|]. right.
  destruct Hcase as [[-> ->]|?]; done.
Qed.

Lemma enforce_run sid generation reading (b : bucket) affected b' o :
  enforce_session_limits limits sid generation reading b affected = (b', o) ->
  b_revision b' = b_revision b /\ b_tool_calls b' ⊆ b_tool_calls b
  /\ (b' = b /\ o = no_eviction \/ b_truncated b' = true /\ ev_removed_any o = true).
Proof.
  unfold enforce_session_limits. destruct (within_limits _ _ _ b); [intros [= <- <-]; auto|].
  destruct (evict_calls _ _ _ _ _ _ _) as [b1 o1] eqn:E. intros [= <- <-]. apply evict_calls_run in E as (R & C & Hcase).
  destruct Hcase as [[-> ->]|[T O]]; [simpl; auto|]. rewrite O. simpl. auto.
Qed.

(** ** An update, up to the limit of the process *)

Definition base_bucket (sid : string) (s : store) : bucket :=
  match cs_sessions s !! sid with Some b => b | None => fresh_bucket s end.

(** [b] is the session's bucket after the update, [s'] the rest of the store. *)
Record updated (sid : string) (u : update) (s : store) (b : bucket) (s' : store) : Prop := mkUpdated {
  up_inv : store_inv s';
  up_gone : cs_sessions s' !! sid = None;
  up_sequence : cs_sequence s' = (cs_sequence s + 1) `min` U64_MAX;
  up_capacity : cs_capacity_reached s' = cs_capacity_reached s;
  up_others : forall sid', sid' <> sid -> adv_at s s' sid'
    /\ (cs_sessions s' !! sid' = cs_sessions s !! sid' \/ cs_sessions s' !! sid' = with_revision 0 <$> (cs_sessions s !! sid'));
  up_good : good_calls (b_tool_calls b);
  up_revision : 0 <= b_revision b <= cs_revision s';
  up_change : exists id c changed, update_id u = Some id /\ mutated (base_bucket sid s) u (cs_sequence s') id c changed
    /\ (b_tool_calls b = <[id := c]> (b_tool_calls (base_bucket sid s)) /\ b_truncated b = b_truncated (base_bucket sid s)
         \/ b_tool_calls b ⊆ <[id := c]> (b_tool_calls (base_bucket sid s)) /\ b_truncated b = true)
    /\ (later_revision s s' /\ b_revision b = cs_revision s'
         \/ changed = false /\ b_revision b = b_revision (base_bucket sid s) /\ b_truncated b = b_truncated (base_bucket sid s)
             /\ b_tool_calls b = <[id := c]> (b_tool_calls (base_bucket sid s))
             /\ cs_drawn s' = cs_drawn s /\ cs_revision s' = cs_revision s);
  up_enforced : exists b0 b1 o generation reading reading' affected,
    enforce_session_limits limits sid generation reading (refresh_bucket sid reading' b0) affected = (b1, o)
    /\ good_calls (b_tool_calls b0)
    /\ (exists k, generation = generation_id k) /\ b_tool_calls b = b_tool_calls b1 /\ b_truncated b = b_truncated b1
    /\ exists id c, b_tool_calls b0 = <[id := c]> (b_tool_calls (base_bucket sid s));
}.

Lemma base_good sid s : store_inv s -> good_calls (b_tool_calls (base_bucket sid s)) /\ 0 <= b_revision (base_bucket sid s) <= cs_revision s.
Proof.
  intros Hs. unfold base_bucket. destruct (cs_sessions s !! sid) as [b|] eqn:E; [split; [by eapply si_filed|by eapply si_buckets]|].
  split; [apply good_empty|]. pose proof (si_revision s Hs). simpl. destruct (cs_capacity_reached s); lia.
Qed.

Lemma mutate_run (b : bucket) u sequence id :
  good_calls (b_tool_calls b) -> update_id u = Some id ->
  exists c, (mutate b u sequence).1 = with_calls (<[id := c]> (b_tool_calls b)) b /\ mu_affected_id (mutate b u sequence).2 = id
    /\ mutated b u sequence id c (mu_visible_state_changed (mutate b u sequence).2) /\ good_calls (<[id := c]> (b_tool_calls b)).
Proof.
  intros [Hf Hsz] Hid. destruct u as [t|u|]; [| |done]; injection Hid as <-.
  - destruct (mutate_call_run b t sequence) as (c & E & Hm). exists c. split_and!; [done|done|done|].
    split; apply map_Forall_insert_2; [by apply (mt_id _ _ _ _ _ _ Hm)|done|by apply (mt_sized _ _ _ _ _ _ Hm)|done].
  - destruct (mutate_update_run b u sequence Hf) as (c & E & Hm). exists c. split_and!; [done| |done|].
    + simpl. unfold apply_tool_call_update. by repeat case_match.
    + split; apply map_Forall_insert_2; [by apply (mt_id _ _ _ _ _ _ Hm)|done|by apply (mt_sized _ _ _ _ _ _ Hm)|done].
Qed.

(** The steps of [apply], with the store without the bucket in between. *)
Definition taken (sid : string) (s : store) : bucket * store :=
  match take_bucket sid (next_sequence s) with Some t => t | None => (fresh_bucket (next_sequence s), next_sequence s) end.

Lemma taken_run sid s :
  store_inv s ->
  (taken sid s).1 = base_bucket sid s
  /\ store_inv (taken sid s).2
  /\ cs_sessions (taken sid s).2 = delete sid (cs_sessions s)
  /\ cs_revision (taken sid s).2 = cs_revision s /\ cs_drawn (taken sid s).2 = cs_drawn s
  /\ cs_capacity_reached (taken sid s).2 = cs_capacity_reached s
  /\ cs_sequence (taken sid s).2 = (cs_sequence s + 1) `min` U64_MAX.
Proof.
  intros Hs. unfold taken, take_bucket, base_bucket. simpl. destruct (cs_sessions s !! sid) as [b|] eqn:E; simpl.
  - split_and!; try done. apply (without_inv sid (sat_sub (cs_retained_bytes s) (b_retained_bytes b))) in Hs.
    destruct Hs as [A1 A2 A3 A4]. by constructor.
  - split_and!; try done; [by destruct Hs as [A1 A2 A3 A4]; constructor|]. by rewrite delete_id.
Qed.

Definition settle (sid : string) (before : bool) (mutation : MutationOutcome) (b : bucket) (s : store) : bucket * store :=
  let (b1, eviction) := enforce_session_limits limits sid (cs_generation s) (capacity_reading (cs_readings s)) b (mu_affected_id mutation) in
  let s := if ev_removed_any eviction then read_capacity s else s in
  let affected_changed := if ev_affected_removed eviction then mu_old_visible mutation else mu_visible_state_changed mutation in
  if affected_changed || ev_removed_visible_other eviction || ev_removed_any eviction || negb (Bool.eqb before (b_truncated b1))
  then let s := next_revision s in (with_revision (cs_revision s) b1, s) else (b1, s).

Lemma apply_steps sid u s id :
  update_id u = Some id ->
  SessionChanges.apply limits sid u s =
    let (b, s2) := taken sid s in
    let m := mutate b u (cs_sequence (next_sequence s)) in
    let b0 := refresh_bucket sid (capacity_reading (cs_readings s2)) (with_access (cs_sequence (next_sequence s)) m.1) in
    let (b1, s3) := settle sid (b_truncated b) m.2 b0 (read_capacity s2) in
    enforce_global_limit limits (insert_bucket sid b1 s3).
Proof.
  intros Hid. unfold settle. destruct u as [t|u|]; [| |done]; unfold SessionChanges.apply, mutate;
    fold (taken sid s); destruct (taken sid s) as [b s2]; cbv zeta.
  all: match goal with |- context [match ?m with (_, _) => _ end] => destruct m as [bm mu] end; cbn [fst snd].
  all: destruct (enforce_session_limits _ _ _ _ _ _) as [b1 o]; by destruct (_ || _).
Qed.

(** What the limits leave of an update. *)
Lemma settle_run sid (base : bucket) mutation b0 s id c b1 s' :
  store_inv s -> 0 <= b_revision base <= cs_revision s ->
  b_tool_calls b0 = <[id := c]> (b_tool_calls base) -> b_truncated b0 = b_truncated base -> b_revision b0 = b_revision base ->
  settle sid (b_truncated base) mutation b0 s = (b1, s') ->
  store_inv s' /\ cs_sequence s' = cs_sequence s /\ cs_capacity_reached s' = cs_capacity_reached s
  /\ (cs_sessions s' = cs_sessions s /\ cs_drawn s' = cs_drawn s \/ cs_sessions s' = with_revision 0 <$> cs_sessions s /\ (cs_drawn s < cs_drawn s')%nat)
  /\ advance s s' /\ 0 <= b_revision b1 <= cs_revision s'
  /\ (b_tool_calls b1 = <[id := c]> (b_tool_calls base) /\ b_truncated b1 = b_truncated base
       \/ b_tool_calls b1 ⊆ <[id := c]> (b_tool_calls base) /\ b_truncated b1 = true)
  /\ (later_revision s s' /\ b_revision b1 = cs_revision s'
       \/ mu_visible_state_changed mutation = false /\ b_revision b1 = b_revision base /\ b_truncated b1 = b_truncated base
           /\ b_tool_calls b1 = <[id := c]> (b_tool_calls base) /\ cs_drawn s' = cs_drawn s /\ cs_revision s' = cs_revision s).
Proof.
  intros Hs Hr Ec Et Er. unfold settle. destruct (enforce_session_limits _ _ _ _ _ _) as [b o] eqn:E.
  apply enforce_run in E as (R & C & Hcase). rewrite Ec in C. rewrite Er in R.
  set (s1 := if ev_removed_any o then read_capacity s else s).
  assert (E1 : same_changes s s1) by (unfold s1; by destruct (ev_removed_any o)).
  pose proof (same_inv _ _ E1 Hs) as H1. pose proof (same_advance _ _ E1) as A1. destruct E1 as [G1 G2 G3 G4 G5 G6].
  assert (Hcalls : b_tool_calls b = <[id := c]> (b_tool_calls base) /\ b_truncated b = b_truncated base
       \/ b_tool_calls b ⊆ <[id := c]> (b_tool_calls base) /\ b_truncated b = true).
  { destruct Hcase as [[-> _]|[T _]]; [left; by rewrite Ec, Et|by right]. }
  destruct (_ || _) eqn:Echg; cbv zeta.
  - destruct (next_revision_run s1 H1) as (H2 & S2 & K2 & Hsess). pose proof (next_revision_bumps s1 H1) as Hl.
    pose proof (next_revision_advance s1 H1) as A2. set (s2 := next_revision s1) in *. clearbody s2. intros [= <- <-].
    pose proof (si_revision _ H2). split_and!; [done|congruence|congruence| | |cbn [b_revision with_revision]; lia|cbn [b_revision with_revision]; lia|done|left].
    + rewrite <- G5, <- G6. destruct Hsess as [(D & _ & X)|(D & X)]; [by left|right]. split; [done|lia].
    + etrans; [exact A1|exact A2].
    + split; [|done]. unfold later_revision. by rewrite <- G6, <- G2.
  - intros [= <- <-]. destruct Hcase as [[-> ->]|[T O]]; [|by rewrite O, !orb_true_r in Echg].
    simpl in Echg. rewrite !orb_false_r in Echg. apply orb_false_elim in Echg as [Hq _].
    split_and!; [done|done|done|by left|done|simpl; lia|simpl; lia|done|right]. split_and!; done.
Qed.

Lemma apply_run sid u s id :
  store_inv s -> update_id u = Some id ->
  exists b s', SessionChanges.apply limits sid u s = enforce_global_limit limits (insert_bucket sid b s') /\ updated sid u s b s'.
Proof.
  intros Hs Hid. rewrite (apply_steps sid u s id Hid). destruct (taken_run sid s Hs) as (Eb & H2 & Es & Er & Ed & Ek & Eq).
  destruct (taken sid s) as [b s2]. cbn [fst snd] in *. subst b.
  destruct (base_good sid s Hs) as [Hg Hr]. set (base := base_bucket sid s) in *.
  destruct (mutate_run base u (cs_sequence (next_sequence s)) id Hg Hid) as (c & Em & Ea & Hm & Hgm).
  destruct (mutate base u (cs_sequence (next_sequence s))) as [bm mu]. cbn [fst snd] in *.
  set (b0 := refresh_bucket sid _ _).
  assert (Hb0 : b_tool_calls b0 = <[id := c]> (b_tool_calls base) /\ b_truncated b0 = b_truncated base /\ b_revision b0 = b_revision base)
    by (unfold b0; by rewrite Em).
  assert (H3 : store_inv (read_capacity s2)) by (by apply (same_inv s2)).
  destruct (settle sid (b_truncated base) mu b0 (read_capacity s2)) as [b1 s3] eqn:Eset. exists b1, s3. split; [done|].
  assert (Hbase : 0 <= b_revision base <= cs_revision (read_capacity s2)) by (simpl; rewrite Er; exact Hr).
  destruct Hb0 as (C0 & T0 & R0).
  destruct (settle_run sid base mu b0 (read_capacity s2) id c b1 s3 H3 Hbase C0 T0 R0 Eset)
    as (A1 & A2 & A3 & A4 & A5 & A6 & A7 & A8). simpl in A2, A3, A4.
  constructor; [done| |by rewrite A2|by rewrite A3| | |done| |].
  - destruct A4 as [[-> _]|[-> _]]; rewrite ?lookup_fmap, Es, lookup_delete_eq; done.
  - intros sid' Hne. split.
    + eapply adv_at_trans; [|exact (A5 sid')]. apply adv_at_same; simpl; [by rewrite Es, lookup_delete_ne|done..].
    + destruct A4 as [[-> _]|[-> _]]; [left|right]; rewrite ?lookup_fmap, Es, lookup_delete_ne by done; done.
  - eapply good_sub; [|exact Hgm]. destruct A7 as [[-> _]|[? _]]; done.
  - exists id, c, (mu_visible_state_changed mu). split; [done|]. split; [by rewrite A2, Eq|]. split; [done|].
    destruct A8 as [[Hl Hrev]|(Q1 & Q2 & Q3 & Q4 & Q5 & Q6)]; [left|right].
    + split; [|done]. unfold later_revision in *. simpl in Hl. by rewrite <- Ed, <- Er.
    + simpl in Q5, Q6. split_and!; [done..|congruence|congruence].
  - unfold settle in Eset.
    destruct (enforce_session_limits limits sid (cs_generation (read_capacity s2)) (capacity_reading (cs_readings (read_capacity s2))) b0
      (mu_affected_id mu)) as [b2 o] eqn:Ee.
    exists (with_access (cs_sequence (next_sequence s)) bm), b2, o, (cs_generation (read_capacity s2)),
      (capacity_reading (cs_readings (read_capacity s2))), (capacity_reading (cs_readings s2)), (mu_affected_id mu).
    split; [exact Ee|]. split; [by rewrite Em|]. split; [destruct (si_generation _ H3) as (k & _ & Ek'); by exists k|].
    destruct (_ || _); injection Eset as <- <-; (split; [done|split; [done|]]); exists id, c; by rewrite Em.
Qed.

(** ** Equal revisions, equal content *)

(** The session itself. *)
Lemma updated_advance sid u s b s' : store_inv s -> updated sid u s b s' -> advance s (insert_bucket sid b s').
Proof.
  intros Hs Hu sid'. destruct (decide (sid' = sid)) as [->|Hne].
  - destruct (up_change _ _ _ _ _ Hu) as (id & c & changed & _ & Hm & _ & [[Hl Hr]|(Q1 & Q2 & Q3 & Q4 & Q5 & Q6)]).
    + apply adv_bump; [done|]. unfold rev_of. simpl. rewrite lookup_insert_eq, Hr. exact Hl.
    + apply adv_keep. right. simpl. split; [done|]. unfold rev_of, content_of. simpl. rewrite lookup_insert_eq, Q2, Q3, Q4.
      pose proof (base_good sid s Hs) as [[Hf _] _]. pose proof (up_good _ _ _ _ _ Hu) as [Hf' _]. rewrite Q4 in Hf'.
      assert (Hvis : place <$> visible_of (b_tool_calls (base_bucket sid s)) = place <$> visible_of (<[id := c]> (b_tool_calls (base_bucket sid s)))).
      { apply visible_same; [done|done|]. intros id'. destruct (decide (id' = id)) as [->|Hid]; [by apply (mt_quiet _ _ _ _ _ _ Hm)|].
        unfold shown. by rewrite lookup_insert_ne. }
      rewrite <- Hvis. unfold base_bucket. destruct (cs_sessions s !! sid) as [b0|]; done.
  - eapply adv_at_trans; [exact (proj1 (up_others _ _ _ _ _ Hu sid' Hne))|].
    apply adv_at_same; simpl; [by rewrite lookup_insert_ne|done..].
Qed.

Lemma op_run op s : store_inv s -> store_inv (run_op limits s op) /\ advance s (run_op limits s op).
Proof.
  intros Hs. destruct op as [sid u|sid]; simpl.
  - destruct (update_id u) as [id|] eqn:Hid; [|by destruct u].
    destruct (apply_run sid u s id Hs Hid) as (b & s' & -> & Hu).
    assert (Hi : store_inv (insert_bucket sid b s')) by (apply insert_bucket_inv; apply Hu).
    destruct (global_limit_run _ Hi) as (H1 & A1 & _). split; [done|]. etrans; [|exact A1]. by apply (updated_advance sid u).
  - unfold snapshot. simpl. destruct (cs_sessions s !! sid) as [b|] eqn:Eb; simpl.
    + split.
      * destruct Hs as [H1 H2 H3 H4]. constructor; simpl; [done|done|..]; intros sid' b' [[<- <-]|[_ Hb]]%lookup_insert_Some;
          first [exact (H3 _ _ Eb)|exact (H3 _ _ Hb)|exact (H4 _ _ Eb)|exact (H4 _ _ Hb)].
      * intros sid'. apply adv_keep. right. unfold rev_of, content_of. simpl.
        destruct (decide (sid' = sid)) as [->|Hne]; [by rewrite lookup_insert_eq, Eb|by rewrite lookup_insert_ne].
    + split; [by destruct Hs as [H1 H2 H3 H4]; constructor|]. intros sid'. by apply adv_at_same.
Qed.

Lemma ops_run ops s : store_inv s -> store_inv (run_ops limits ops s) /\ advance s (run_ops limits ops s).
Proof.
  revert s. induction ops as [|op ops IH]; intros s Hs; [done|]. unfold run_ops. cbn [foldl]. fold (run_ops limits ops (run_op limits s op)).
  destruct (op_run op s Hs) as [H1 A1]. destruct (IH _ H1) as [H2 A2]. split; [done|by etrans].
Qed.

Lemma new_inv : store_inv new_store.
Proof. constructor; simpl; [unfold U64_MAX; lia|by exists 0%nat|done|done]. Qed.

(** What a client sees of a snapshot. *)
Definition seen (a : @Snapshot Kind Status) : list Shape := (fun c => shape (ct_view c)) <$> sn_tool_calls a.

Lemma snapshot_content sid s :
  sn_truncated (snapshot sid s).1 = (content_of s sid).1 /\ seen (snapshot sid s).1 = (content_of s sid).2.*2
  /\ sn_revision (snapshot sid s).1 = rev_of s sid /\ sn_generation (snapshot sid s).1 = cs_generation s.
Proof.
  unfold snapshot, content_of, rev_of, seen. simpl. destruct (cs_sessions s !! sid) as [b|]; simpl; [|done].
  split_and!; try done. rewrite <- list_fmap_compose. done.
Qed.

(** C9. A client that polls may skip what it already has: when two snapshots of a
    session carry the same generation and the same revision, they show the same tool
    calls, up to the spelling of paths, and agree on whether something was dropped;
    whatever updates, snapshots, evictions and revision overflows lie between them.
    (Generations are drawn at random: no two are the same.) *)
Theorem equal_revisions_equal_content ops ops' sid :
  (forall i j, generation_id i = generation_id j -> i = j) ->
  let s := run_ops limits ops new_store in
  let s' := run_ops limits ops' s in
  let a := (snapshot sid s).1 in
  let a' := (snapshot sid s').1 in
  sn_generation a = sn_generation a' -> sn_revision a = sn_revision a' ->
  sn_truncated a = sn_truncated a' /\ seen a = seen a'.
Proof.
  intros Hinj s s' a a'. unfold a, a'. clear a a'. destruct (ops_run ops new_store new_inv) as [Hs _]. fold s in Hs.
  destruct (ops_run ops' s Hs) as [Hs' Hadv]. fold s' in Hs', Hadv.
  destruct (snapshot_content sid s) as (-> & -> & -> & ->). destruct (snapshot_content sid s') as (-> & -> & -> & ->).
  destruct (si_generation s Hs) as (k & Ek & ->), (si_generation s' Hs') as (k' & Ek' & ->). intros ->%Hinj Er.
  destruct (Hadv sid) as [?|(_ & _ & Hc)]; [lia|]. by rewrite (Hc Er).
Qed.

(** ** Complete snapshots *)

(** The tool calls an agent reported, in the order they first appeared. *)
Definition ref_step (l : list (@View Kind Status)) (u : update) : list (@View Kind Status) :=
  match update_id u with
  | None => l
  | Some id =>
      if bool_decide (id ∈ v_id <$> l)
      then (fun v => if bool_decide (v_id v = id) then update_view u (Some v) else v) <$> l
      else l ++ [update_view u None]
  end.
Definition reference (us : list update) : list (@View Kind Status) := foldl ref_step [] us.

Definition updates_of (sid : string) (ops : list (@Op Kind Status)) : list update :=
  omap (fun op => match op with OpApply sid' u => if bool_decide (sid' = sid) then Some u else None | OpSnapshot _ => None end) ops.

Definition earlier (a b : Z * Shape) : Prop := a.1 < b.1.

(** The places of all tool calls, in order of appearance. *)
Record tracked (m : Calls) (L : list (Z * Shape)) (sequence : Z) : Prop := mkTracked {
  tr_places : forall p, p ∈ L <-> exists id c, m !! id = Some c /\ p = place c;
  tr_sorted : StronglySorted earlier L;
  tr_bound : Forall (fun p => p.1 <= sequence) L;
}.

Lemma tracked_id m L sequence p : filed_calls m -> tracked m L sequence -> p ∈ L -> exists c, m !! shape_id p.2 = Some c /\ p = place c.
Proof.
  intros Hf Ht Hp. apply Ht in Hp as (id & c & Hc & ->). exists c. split; [|done]. unfold place, shape_id. simpl. by rewrite (Hf _ _ Hc).
Qed.

Lemma tracked_weaken m L n n' : n <= n' -> tracked m L n -> tracked m L n'.
Proof. intros Hle [H1 H2 H3]. constructor; [done|done|]. eapply Forall_impl; [exact H3|]. simpl. lia. Qed.

(** A new tool call. *)
Lemma tracked_append m L n n' id c :
  filed_calls m -> tracked m L n -> n < n' -> m !! id = None -> ct_first_seen c = n' ->
  tracked (<[id := c]> m) (L ++ [place c]) n'.
Proof.
  intros Hf Ht Hn Hid Hc. constructor.
  - intros p. rewrite elem_of_app, list_elem_of_singleton. split.
    + intros [(i & c' & Hc' & ->)%(tr_places _ _ _ Ht)| ->]; [|exists id, c; by rewrite lookup_insert_eq].
      exists i, c'. split; [|done]. rewrite lookup_insert_ne; [done|]. intros ->. congruence.
    + intros (i & c' & [[<- <-]|[_ Hc']]%lookup_insert_Some & ->); [by right|left]. apply Ht. eauto.
  - apply StronglySorted_app_2; [|apply Ht|repeat constructor].
    intros p q Hp ->%list_elem_of_singleton. pose proof (tr_bound _ _ _ Ht) as Hb. rewrite Forall_forall in Hb.
    specialize (Hb p Hp). unfold earlier. simpl. lia.
  - apply Forall_app. split; [apply (tracked_weaken m L n n'); [lia|done]|]. repeat constructor. simpl. lia.
Qed.

(** A known one. *)
Lemma tracked_replace m L n id c old :
  filed_calls m -> tracked m L n -> m !! id = Some old -> v_id (ct_view c) = id -> ct_first_seen c = ct_first_seen old ->
  tracked (<[id := c]> m) ((fun p => if bool_decide (shape_id p.2 = id) then place c else p) <$> L) n.
Proof.
  intros Hf Ht Hold Hc Hfs.
  assert (Hfirst : forall p, p ∈ L -> (if bool_decide (shape_id p.2 = id) then place c else p).1 = p.1).
  { intros p Hp. case_bool_decide as E; [|done]. destruct (tracked_id _ _ _ _ Hf Ht Hp) as (c' & Hc' & ->). rewrite E, Hold in Hc'.
    injection Hc' as ->. done. }
  constructor.
  - intros p. rewrite list_elem_of_fmap. split.
    + intros (q & -> & Hq). case_bool_decide as E; [exists id, c; by rewrite lookup_insert_eq|].
      destruct (tracked_id _ _ _ _ Hf Ht Hq) as (c' & Hc' & Eq). exists (shape_id q.2), c'. by rewrite lookup_insert_ne.
    + intros (i & c' & [[<- <-]|[Hne Hc']]%lookup_insert_Some & ->).
      * exists (place old). rewrite bool_decide_true by exact (Hf _ _ Hold). split; [done|]. apply Ht. eauto.
      * exists (place c'). assert (E : shape_id (place c').2 = i) by exact (Hf _ _ Hc').
        rewrite bool_decide_false by (by rewrite E). split; [done|]. apply Ht. eauto.
  - pose proof (tr_sorted _ _ _ Ht) as Hs. clear Ht. induction Hs as [|p l Hs IH Hp]; [constructor|]. rewrite fmap_cons. constructor.
    + apply IH. intros q Hq. apply Hfirst. by right.
    + apply Forall_fmap. rewrite Forall_forall in Hp |- *. intros q Hq. unfold earlier. simpl.
      rewrite !Hfirst by set_solver. by apply Hp.
  - apply Forall_fmap. pose proof (tr_bound _ _ _ Ht) as Hb. rewrite Forall_forall in Hb |- *. intros q Hq. simpl.
    rewrite Hfirst by done. by apply Hb.
Qed.

Definition follows (m : Calls) (sequence : Z) (us : list update) : Prop :=
  exists L, tracked m L sequence /\ L.*2 = shape <$> reference us.

Lemma reference_snoc us u : reference (us ++ [u]) = ref_step (reference us) u.
Proof. unfold reference. by rewrite foldl_app. Qed.

Lemma follows_update (b : bucket) n n' us u id c changed :
  good_calls (b_tool_calls b) -> follows (b_tool_calls b) n us -> n < n' -> update_id u = Some id ->
  mutated b u n' id c changed -> follows (<[id := c]> (b_tool_calls b)) n' (us ++ [u]).
Proof.
  intros [Hf _] (L & Ht & El) Hn Hid [M1 M2 M3 _ _]. unfold follows. rewrite reference_snoc. unfold ref_step. rewrite Hid.
  assert (Hshapes : forall i p v, L !! i = Some p -> reference us !! i = Some v -> p.2 = shape v).
  { intros i p v Hp Hv. apply (f_equal (fun l => l !! i)) in El. rewrite !list_lookup_fmap, Hp, Hv in El. by injection El. }
  assert (Hids : id ∈ v_id <$> reference us <-> is_Some (b_tool_calls b !! id)).
  { rewrite list_elem_of_fmap. split.
    - intros (v & -> & Hv). assert (shape v ∈ L.*2) as ([fs sh] & E & Hp)%list_elem_of_fmap by (rewrite El; by apply list_elem_of_fmap_2).
      destruct (tracked_id _ _ _ _ Hf Ht Hp) as (c' & Hc' & _). simpl in *. subst sh. by exists c'.
    - intros [c' Hc']. assert (place c' ∈ L) as Hp by (apply Ht; eauto).
      assert (shape (ct_view c') ∈ shape <$> reference us) as (v & E & Hv)%list_elem_of_fmap by (rewrite <- El; by apply (list_elem_of_fmap_2 snd) in Hp).
      exists v. split; [|done]. injection E as E _ _ _ _. by rewrite <- E, (Hf _ _ Hc'). }
  destruct (b_tool_calls b !! id) as [old|] eqn:Hold.
  - rewrite bool_decide_true by (by apply Hids).
    exists ((fun p => if bool_decide (shape_id p.2 = id) then place c else p) <$> L).
    split; [apply (tracked_weaken _ _ n); [lia|]; by apply (tracked_replace _ _ _ _ _ old)|].
    apply list_eq. intros i. rewrite !list_lookup_fmap. specialize (Hshapes i).
    apply (f_equal (fun l => l !! i)) in El. rewrite !list_lookup_fmap in El.
    destruct (L !! i) as [p|] eqn:Hp, (reference us !! i) as [v|] eqn:Hv; try done. simpl. f_equal.
    specialize (Hshapes p v eq_refl eq_refl). assert (Eid : shape_id p.2 = v_id v) by (by rewrite Hshapes). rewrite Eid.
    case_bool_decide as E; [|done]. simpl. rewrite M3. simpl. apply update_view_shape.
    apply list_elem_of_lookup_2 in Hp. destruct (tracked_id _ _ _ _ Hf Ht Hp) as (c' & Hc' & ->). rewrite Eid, E, Hold in Hc'.
    injection Hc' as <-. by rewrite <- Hshapes.
  - rewrite bool_decide_false by (intros [? ?]%Hids; done).
    exists (L ++ [place c]). split; [by apply (tracked_append _ _ n)|].
    rewrite !fmap_app, El. f_equal. simpl. by rewrite M3.
Qed.

Definition visible_view (v : @View Kind Status) : bool := match v_content v with [] => false | _ => true end.

Lemma follows_visible m n us :
  filed_calls m -> follows m n us -> (place <$> visible_of m).*2 = shape <$> filter (fun v => visible_view v = true) (reference us).
Proof.
  intros Hf (L & Ht & El). set (shows := fun sh : Shape => negb (bool_decide (sh.2 = []))).
  assert (Hshow : forall c : Captured, shows (shape (ct_view c)) = visible c).
  { intros c. unfold shows, shape, visible. simpl. by destruct (v_content (ct_view c)). }
  destruct (visible_places m Hf) as (E1 & N1 & S1).
  assert (Hl : place <$> visible_of m = filter (fun p => shows p.2 = true) L).
  { apply places_unique; [| |done| |done|].
    - intros p q [i Hi]%E1 [j Hj]%E1. by apply (shown_inj m i j).
    - intros p. rewrite E1, list_elem_of_filter, (tr_places _ _ _ Ht). unfold shown. split.
      + intros [id H]. destruct (m !! id) as [c|] eqn:Hc; [|done]. destruct (visible c) eqn:Hv; [|done]. injection H as <-.
        simpl. rewrite Hshow. eauto.
      + intros [Hv (id & c & Hc & ->)]. simpl in Hv. rewrite Hshow in Hv. exists id. by rewrite Hc, Hv.
    - apply NoDup_filter. assert (Hirr : forall p, ~ earlier p p) by (intros p; unfold earlier; lia).
      pose proof (tr_sorted _ _ _ Ht) as Hs. clear -Hs Hirr. induction Hs as [|p l _ IH Hp]; [apply NoDup_nil_2|].
      apply NoDup_cons. split; [|done].
      intros Hin. rewrite Forall_forall in Hp. by apply (Hirr p), Hp.
    - apply StronglySorted_filter. pose proof (tr_sorted _ _ _ Ht) as Hs. clear -Hs. induction Hs as [|p l _ IH Hp]; [constructor|].
      constructor; [done|].
      eapply Forall_impl; [exact Hp|]. intros q Hq. by left. }
  rewrite Hl. clear -El. revert El. generalize (reference us). induction L as [|[fs sh] L IH]; intros [|v l] El; try done.
  injection El as Esh El. rewrite !filter_cons. simpl in Esh. subst sh. simpl.
  assert (Hv : shows (shape v) = visible_view v) by (unfold shows, shape, visible_view; simpl; by destruct (v_content v)).
  rewrite Hv. destruct (decide _); simpl; [f_equal|]; by apply IH.
Qed.

(** ** Histories *)

Record history (ops : list (@Op Kind Status)) (s : store) : Prop := mkHistory {
  hi_sequence : 0 <= cs_sequence s <= Z.of_nat (length ops);
  hi_known : forall sid b, cs_sessions s !! sid = Some b -> b_truncated b = false ->
    follows (b_tool_calls b) (cs_sequence s) (updates_of sid ops);
  hi_unknown : forall sid, cs_sessions s !! sid = None -> cs_capacity_reached s = false -> reference (updates_of sid ops) = [];
}.

Lemma history_shrinks ops s s' : history ops s -> shrinks s s' -> history ops s'.
Proof.
  intros [H1 H2 H3] [S1 S2 S3 S4]. constructor; [by rewrite S1| |].
  - intros sid b' Hb' Ht. rewrite S1. destruct (S3 sid b' Hb') as (b & Hb & [[-> E]|[_ E]]); [|congruence].
    apply H2; [done|congruence].
  - intros sid Hn Hc. destruct (S4 sid Hn) as [Hn'|E]; [|congruence]. apply H3; [done|].
    destruct (cs_capacity_reached s); [|done]. by rewrite (S2 eq_refl) in Hc.
Qed.

Lemma updates_snoc sid ops op :
  updates_of sid (ops ++ [op]) = updates_of sid ops
    ++ match op with OpApply sid' u => if bool_decide (sid' = sid) then [u] else [] | OpSnapshot _ => [] end.
Proof.
  unfold updates_of. rewrite omap_app. f_equal. destruct op as [sid' u|sid']; simpl; [|done]. by case_bool_decide.
Qed.

Lemma follows_empty us : reference us = [] -> forall n, follows ∅ n us.
Proof.
  intros E n. exists []. rewrite E. split; [|done]. constructor; [|constructor|constructor].
  intros p. rewrite elem_of_nil. split; [done|]. by intros (id & c & Hc & _).
Qed.

Lemma history_updated ops sid u s b s' :
  Z.of_nat (length ops) < U64_MAX -> store_inv s -> history ops s -> updated sid u s b s' ->
  history (ops ++ [OpApply sid u]) (insert_bucket sid b s').
Proof.
  intros Hlen Hs [H1 H2 H3] Hu.
  assert (Eseq : cs_sequence s' = cs_sequence s + 1) by (rewrite (up_sequence _ _ _ _ _ Hu); lia).
  constructor; simpl.
  - rewrite length_app. simpl. lia.
  - intros sid' b'. rewrite updates_snoc. intros [[<- <-]|[Hne Hb']]%lookup_insert_Some Ht.
    + rewrite bool_decide_true by done. destruct (up_change _ _ _ _ _ Hu) as (id & c & changed & Hid & Hm & [[-> Et]|[_ Et]] & _); [|congruence].
      apply (follows_update _ (cs_sequence s) _ _ _ _ _ changed); [by apply base_good| |lia|done|done].
      rewrite Et in Ht. revert Ht. unfold base_bucket. destruct (cs_sessions s !! sid) as [b0|] eqn:Eb; [by apply H2|].
      simpl. intros Ht. apply follows_empty. by apply H3.
    + rewrite bool_decide_false, app_nil_r by congruence.
      destruct (up_others _ _ _ _ _ Hu sid' ltac:(congruence)) as [_ [E|E]]; rewrite E in Hb'.
      * destruct (H2 sid' b' Hb' Ht) as (L & HL & El). exists L. split; [|done]. apply (tracked_weaken _ _ (cs_sequence s)); [lia|done].
      * destruct (cs_sessions s !! sid') as [b0|] eqn:Eb; [|done]. injection Hb' as <-.
        destruct (H2 sid' b0 Eb Ht) as (L & HL & El). exists L. split; [|done]. apply (tracked_weaken _ _ (cs_sequence s)); [lia|done].
  - intros sid'. rewrite lookup_insert_None. intros [Hn Hne] Hc. rewrite updates_snoc, bool_decide_false, app_nil_r by done.
    rewrite (up_capacity _ _ _ _ _ Hu) in Hc. apply H3; [|done].
    destruct (up_others _ _ _ _ _ Hu sid' ltac:(congruence)) as [_ [E|E]]; rewrite E in Hn; [done|by destruct (cs_sessions s !! sid')].
Qed.

Lemma history_op ops s op :
  Z.of_nat (length ops) < U64_MAX -> store_inv s -> history ops s -> history (ops ++ [op]) (run_op limits s op).
Proof.
  intros Hlen Hs Hh. destruct op as [sid u|sid]; simpl.
  - destruct (update_id u) as [id|] eqn:Hid.
    + destruct (apply_run sid u s id Hs Hid) as (b & s' & -> & Hu).
      assert (Hi : store_inv (insert_bucket sid b s')) by (apply insert_bucket_inv; apply Hu).
      eapply history_shrinks; [by apply (history_updated ops sid u s b s')|]. by apply global_limit_run.
    + destruct u; try done. simpl. destruct Hh as [H1 H2 H3]. constructor; [rewrite length_app; simpl; lia|..]; intros sid'; rewrite updates_snoc.
      * intros b Hb Ht. destruct (H2 sid' b Hb Ht) as (L & HL & El). exists L. split; [done|].
        case_bool_decide; [by rewrite reference_snoc|by rewrite app_nil_r].
      * intros Hn Hc. case_bool_decide; [rewrite reference_snoc; by apply H3|rewrite app_nil_r; by apply H3].
  - assert (Hseq : history (ops ++ [OpSnapshot sid]) (next_sequence s)).
    { destruct Hh as [H1 H2 H3]. constructor; simpl; [rewrite length_app; simpl; lia|..]; intros sid'; rewrite updates_snoc, app_nil_r; [|by apply H3].
      intros b Hb Ht. destruct (H2 sid' b Hb Ht) as (L & HL & El). exists L. split; [|done]. apply (tracked_weaken _ _ (cs_sequence s)); [lia|done]. }
    unfold snapshot. destruct (cs_sessions (next_sequence s) !! sid) as [b|] eqn:Eb; [|done]. eapply history_shrinks; [exact Hseq|].
    constructor; [done|done| |].
    + intros sid' b'. cbn [cs_sessions set_sessions_retained snd]. intros [[<- <-]|[_ Hb]]%lookup_insert_Some; [by exists b; auto|by exists b'; auto].
    + intros sid'. cbn [cs_sessions set_sessions_retained snd]. rewrite lookup_insert_None. intros [Hn _]. by left.
Qed.

Lemma history_ops ops : Z.of_nat (length ops) <= U64_MAX -> history ops (run_ops limits ops new_store).
Proof.
  induction ops as [|op ops IH] using rev_ind; intros Hlen.
  - constructor; [done|done|done].
  - unfold run_ops. rewrite foldl_app. rewrite length_app in Hlen. simpl in Hlen. simpl. apply history_op; [lia|by apply ops_run, new_inv|apply IH; lia].
Qed.

(** C8. A snapshot that is not marked as truncated is complete: it shows, in the
    order they first appeared and with their newest title, kind, status and diffs,
    exactly the tool calls with file diffs that the session's updates reported since
    the daemon started (paths up to their spelling); evictions, tombstones and
    sessions forgotten under the process-wide budget all show up as truncated.
    (Fewer than 2^64 updates and snapshots.) *)
Theorem untruncated_snapshot_complete ops sid :
  Z.of_nat (length ops) <= U64_MAX ->
  let a := (snapshot sid (run_ops limits ops new_store)).1 in
  sn_truncated a = false ->
  seen a = shape <$> filter (fun v => visible_view v = true) (reference (updates_of sid ops)).
Proof.
  intros Hlen a. unfold a. clear a. destruct (history_ops ops Hlen) as [_ H2 H3]. destruct (ops_run ops new_store new_inv) as [Hs _].
  set (s := run_ops limits ops new_store) in *. destruct (snapshot_content sid s) as (-> & -> & _).
  unfold content_of. destruct (cs_sessions s !! sid) as [b|] eqn:Eb; simpl; intros Ht.
  - apply (follows_visible _ (cs_sequence s)); [by eapply si_filed|by apply H2].
  - by rewrite (H3 sid Eb Ht).
Qed.

(** ** The response budget *)

(** The limits are machine words, and so is the size of one tool call; a generation is
    always as long; a smaller revision, written in decimal, is no longer. *)
Context (Hwire : forall v : @View Kind Status, 0 <= call_wire_bytes v <= U64_MAX).
Context (Henvelope : forall sid i j t, 0 <= envelope_wire_bytes sid (generation_id i) U64_MAX t
  /\ envelope_wire_bytes sid (generation_id i) U64_MAX t = envelope_wire_bytes sid (generation_id j) U64_MAX t).
Context (Hrevision : forall sid g r t, 0 <= r <= U64_MAX -> envelope_wire_bytes sid g r t <= envelope_wire_bytes sid g U64_MAX t).
Context (Hlimits : 0 <= max_tool_calls_per_session limits < U64_MAX /\ max_session_bytes limits <= U64_MAX).

Definition wire_sum (l : list Captured) : Z := foldr (fun c acc => ct_wire_bytes c + acc) 0 l.
Definition shown_calls (m : Calls) : list Captured := filter (fun c => visible c = true) (map_to_list m).*2.

Lemma wire_sum_cons c l : wire_sum (c :: l) = ct_wire_bytes c + wire_sum l.
Proof. done. Qed.
Lemma wire_sum_perm l l' : l ≡ₚ l' -> wire_sum l = wire_sum l'.
Proof. induction 1; simpl; lia. Qed.

Lemma shown_calls_size m : (length (shown_calls m) <= size m)%nat.
Proof. unfold shown_calls. etrans; [apply length_filter|]. rewrite length_fmap. by rewrite length_map_to_list. Qed.

Lemma wire_sum_bound m : sized_calls m -> 0 <= wire_sum (shown_calls m) <= Z.of_nat (size m) * U64_MAX.
Proof.
  intros Hs. pose proof (shown_calls_size m) as Hle.
  assert (Hb : Forall (fun c => 0 <= ct_wire_bytes c <= U64_MAX) (shown_calls m)).
  { apply Forall_forall. intros c [_ ([id c'] & -> & Hin%elem_of_map_to_list)%list_elem_of_fmap]%list_elem_of_filter.
    simpl. rewrite (Hs _ _ Hin). apply Hwire. }
  assert (Hsum : 0 <= wire_sum (shown_calls m) <= Z.of_nat (length (shown_calls m)) * U64_MAX).
  { clear -Hb. induction Hb as [|c l Hc _ IH]; [done|]. cbn [length]. rewrite Nat2Z.inj_succ. rewrite wire_sum_cons. lia. }
  unfold U64_MAX in *. nia.
Qed.

(** The totals of a bucket, when nothing saturates. *)
Lemma sat_fold_wire (l : list (string * Captured)) acc :
  0 <= acc -> acc + wire_sum (filter (fun c => visible c = true) l.*2) <= U128_MAX ->
  Forall (fun p => 0 <= ct_wire_bytes p.2) l ->
  foldl (fun total p => if visible p.2 then sat_add total (ct_wire_bytes p.2) else total) acc l
    = acc + wire_sum (filter (fun c => visible c = true) l.*2).
Proof.
  revert acc. induction l as [|[id c] l IH]; intros acc Ha Hle Hpos; [simpl; lia|]. apply Forall_cons in Hpos as [Hc Hpos].
  assert (Hnn : 0 <= wire_sum (filter (fun c => visible c = true) l.*2)).
  { clear -Hpos. induction Hpos as [|[i x] l Hx _ IH]; [done|]. rewrite fmap_cons, filter_cons.
    destruct (decide _); [|done]. rewrite wire_sum_cons. cbn [snd] in *. lia. }
  rewrite fmap_cons, filter_cons in Hle |- *. cbn [snd foldl] in *. destruct (visible c) eqn:Ev; cbn [decide] in *.
  all: rewrite ?(decide_True (P := true = true)), ?(decide_False (P := false = true)) in Hle |- * by done.
  all: rewrite ?wire_sum_cons in Hle |- *.
  - assert (Es : sat_add acc (ct_wire_bytes c) = acc + ct_wire_bytes c) by (unfold sat_add; lia). rewrite Es, IH; [lia|lia|lia|done].
  - rewrite IH; [done|done|lia|done].
Qed.

Lemma sat_fold_count (l : list (string * Captured)) acc :
  0 <= acc -> acc + Z.of_nat (length l) <= U64_MAX ->
  foldl (fun total p => if visible p.2 then usize_add total 1 else total) acc l
    = acc + Z.of_nat (length (filter (fun c => visible c = true) l.*2)).
Proof.
  revert acc. induction l as [|[id c] l IH]; intros acc Ha Hle; [simpl; lia|]. cbn [length] in Hle. rewrite Nat2Z.inj_succ in Hle.
  rewrite fmap_cons, filter_cons. cbn [snd foldl]. destruct (visible c) eqn:Ev.
  all: rewrite ?(decide_True (P := true = true)), ?(decide_False (P := false = true)) by done.
  - assert (Es : usize_add acc 1 = acc + 1) by (unfold usize_add; lia). rewrite Es, IH by lia. cbn [length]. lia.
  - rewrite IH by lia. done.
Qed.

Definition totals (b : bucket) : Prop :=
  b_visible_wire_bytes b = wire_sum (shown_calls (b_tool_calls b))
  /\ b_visible_count b = Z.of_nat (length (shown_calls (b_tool_calls b))).

Lemma refresh_totals sid r (b : bucket) :
  good_calls (b_tool_calls b) -> Z.of_nat (size (b_tool_calls b)) <= U64_MAX -> totals (refresh_bucket sid r b).
Proof.
  intros [_ Hsz] Hsize. pose proof (wire_sum_bound _ Hsz) as Hb.
  assert (Hmax : Z.of_nat (size (b_tool_calls b)) * U64_MAX <= U128_MAX) by (unfold U64_MAX, U128_MAX in *; nia).
  split; simpl.
  - rewrite sat_fold_wire; [done|done|unfold shown_calls in Hb; lia|].
    apply Forall_forall. intros [id c] Hin%elem_of_map_to_list. simpl. rewrite (Hsz _ _ Hin). apply Hwire.
  - rewrite sat_fold_count; [done|done|]. rewrite length_map_to_list. lia.
Qed.

Lemma shown_delete (m : Calls) id c : m !! id = Some c ->
  shown_calls m ≡ₚ (if visible c then [c] else []) ++ shown_calls (delete id m).
Proof.
  intros Hc. unfold shown_calls. assert (E : (map_to_list m).*2 ≡ₚ c :: (map_to_list (delete id m)).*2).
  { rewrite <- (insert_delete_id m id c Hc) at 1. rewrite map_to_list_insert by apply lookup_delete_eq. done. }
  rewrite E, filter_cons. by destruct (visible c).
Qed.

Lemma evict_call_totals affected id c (b : bucket) o :
  sized_calls (b_tool_calls b) -> totals b -> b_tool_calls b !! id = Some c -> totals (evict_call affected id c b o).1.
Proof.
  intros Hs [Tw Tc] Hc. pose proof (shown_delete _ _ _ Hc) as Hp.
  pose proof (wire_sum_perm _ _ Hp) as Ew. apply Permutation_length in Hp.
  assert (Hnn : 0 <= wire_sum (shown_calls (delete id (b_tool_calls b)))).
  { apply wire_sum_bound. intros i x [_ Hx]%lookup_delete_Some. by apply (Hs i). }
  unfold evict_call. destruct (visible c); split; simpl; unfold sat_sub; simpl in Hp, Ew; rewrite ?Tw, ?Tc; lia.
Qed.

(** The loop stops within the limits, or has removed every victim. *)
Lemma evict_calls_ends ef et affected victims (b : bucket) o b' o' :
  sized_calls (b_tool_calls b) -> totals b -> evict_calls limits ef et affected victims b o = (b', o') ->
  totals b' /\ (within_limits limits ef et b' = true \/ forall v, v ∈ victims -> b_tool_calls b' !! v = None).
Proof.
  revert b o. induction victims as [|v victims IH]; intros b o Hs Ht; simpl.
  { intros [= <- <-]. split; [done|]. right. by intros v ?%not_elem_of_nil. }
  destruct (within_limits limits ef et b) eqn:Ew; [intros [= <- <-]; auto|].
  destruct (b_tool_calls b !! v) as [c|] eqn:Ec.
  - pose proof (evict_call_totals affected v c b o Hs Ht Ec) as Ht1.
    assert (Ed : b_tool_calls (evict_call affected v c b o).1 = delete v (b_tool_calls b)) by (unfold evict_call; by destruct (visible c)).
    destruct (evict_call affected v c b o) as [b1 o1]. simpl in Ht1, Ed. intros H.
    assert (Hs1 : sized_calls (b_tool_calls b1)) by (rewrite Ed; intros i x [_ Hx]%lookup_delete_Some; by apply (Hs i)).
    destruct (IH b1 o1 Hs1 Ht1 H) as [Ht' Hend]. split; [done|]. destruct Hend as [?|Hall]; [by left|right].
    intros w [->|Hw]%elem_of_cons; [|auto]. apply evict_calls_run in H as (_ & Hsub & _). rewrite Ed in Hsub.
    apply eq_None_not_Some. intros [x Hx]. eapply lookup_weaken in Hx; [|exact Hsub]. by rewrite lookup_delete_eq in Hx.
  - intros H. destruct (IH b o Hs Ht H) as [Ht' [?|Hall]]; split; [done|by left|done|right].
    intros w [->|Hw]%elem_of_cons; [|auto]. apply evict_calls_run in H as (_ & Hsub & _).
    apply eq_None_not_Some. intros [x Hx]. eapply lookup_weaken in Hx; [|exact Hsub]. congruence.
Qed.

Lemma victims_cover (b : bucket) : filed_calls (b_tool_calls b) -> forall id c, b_tool_calls b !! id = Some c -> id ∈ call_victims b.
Proof.
  intros Hf id c Hc. unfold call_victims. apply list_elem_of_fmap. exists (ct_last_updated c, id). split; [done|].
  rewrite merge_sort_Permutation. apply list_elem_of_fmap. exists c. rewrite (Hf _ _ Hc). split; [done|].
  apply list_elem_of_fmap. exists (id, c). split; [done|]. by apply elem_of_map_to_list.
Qed.

(** What is kept of a session fits a response. *)
Definition response_bytes (sid : string) (truncated : bool) (l : list Captured) : Z :=
  envelope_wire_bytes sid (generation_id 0) U64_MAX truncated + wire_sum l + 0 `max` (Z.of_nat (length l) - 1).
Definition fits (sid : string) (truncated : bool) (m : Calls) : Prop :=
  m = ∅ \/ Z.of_nat (size m) <= max_tool_calls_per_session limits
            /\ response_bytes sid truncated (shown_calls m) <= max_session_bytes limits.

Lemma within_fits sid k (b : bucket) :
  sized_calls (b_tool_calls b) -> totals b ->
  within_limits limits (envelope_wire_bytes sid (generation_id k) U64_MAX false) (envelope_wire_bytes sid (generation_id k) U64_MAX true) b = true ->
  fits sid (b_truncated b) (b_tool_calls b).
Proof.
  intros Hs [Tw Tc] [Hsize Hresp]%andb_prop. apply Z.leb_le in Hsize, Hresp. right. split; [done|].
  pose proof (wire_sum_bound _ Hs) as Hb. unfold response_bytes.
  set (e := if b_truncated b then _ else _) in Hresp.
  assert (Ee : e = envelope_wire_bytes sid (generation_id 0) U64_MAX (b_truncated b) /\ 0 <= e).
  { unfold e. destruct (b_truncated b); [destruct (Henvelope sid k 0 true)|destruct (Henvelope sid k 0 false)]; auto. }
  destruct Ee as [<- He]. unfold response_wire_bytes, sat_add, sat_sub in Hresp. rewrite Tw, Tc in Hresp.
  destruct Hlimits as [_ Hmax]. unfold U128_MAX, U64_MAX in *. lia.
Qed.

Lemma enforce_fits sid k reading reading' (b : bucket) affected b' o :
  good_calls (b_tool_calls b) -> Z.of_nat (size (b_tool_calls b)) <= U64_MAX ->
  enforce_session_limits limits sid (generation_id k) reading (refresh_bucket sid reading' b) affected = (b', o) ->
  fits sid (b_truncated b') (b_tool_calls b').
Proof.
  intros Hg Hsize. pose proof (refresh_totals sid reading' b Hg Hsize) as Ht. set (b0 := refresh_bucket sid reading' b) in *.
  assert (Hg0 : good_calls (b_tool_calls b0)) by done. unfold enforce_session_limits.
  destruct (within_limits _ _ _ b0) eqn:Ew; [intros [= <- <-]; apply (within_fits sid k); [apply Hg0|done|done]|].
  destruct (evict_calls _ _ _ _ _ _ _) as [b1 o1] eqn:E.
  pose proof (evict_calls_run _ _ _ _ _ _ _ _ E) as (_ & Hsub & _).
  pose proof (good_sub _ _ Hsub Hg0) as Hg1.
  destruct (evict_calls_ends _ _ _ _ _ _ _ _ (proj2 Hg0) Ht E) as [Ht1 Hend]. intros [= <- <-].
  assert (Hfit : fits sid (b_truncated b1) (b_tool_calls b1)).
  { destruct Hend as [Hw|Hall]; [apply (within_fits sid k); [apply Hg1|done|done]|]. left. apply map_eq. intros id. rewrite lookup_empty.
    apply eq_None_not_Some. intros [c Hc]. eapply lookup_weaken in Hc as Hc0; [|exact Hsub].
    apply (victims_cover b0) in Hc0; [|apply Hg0]. rewrite (Hall id Hc0) in Hc. done. }
  by destruct (ev_removed_any o1).
Qed.

Definition all_fit (s : store) : Prop := forall sid b, cs_sessions s !! sid = Some b -> fits sid (b_truncated b) (b_tool_calls b).

Lemma fit_shrinks s s' : all_fit s -> shrinks s s' -> all_fit s'.
Proof.
  intros Hf Hsh sid b' Hb'. destruct (sh_buckets _ _ Hsh sid b' Hb') as (b & Hb & [[-> ->]|[-> _]]); [by apply Hf|by left].
Qed.

Lemma updated_fit sid u s b s' : all_fit s -> updated sid u s b s' -> all_fit (insert_bucket sid b s').
Proof.
  intros Hf Hu sid' b'. simpl. intros [[<- <-]|[Hne Hb]]%lookup_insert_Some.
  - destruct (up_enforced _ _ _ _ _ Hu) as (b0 & b1 & o & g & r & r' & aff & Ee & Hg & [k ->] & -> & -> & id & c & Ec).
    apply (enforce_fits sid k r r' b0 aff b1 o); [done| |done]. rewrite Ec.
    assert (Hbase : Z.of_nat (size (b_tool_calls (base_bucket sid s))) <= max_tool_calls_per_session limits).
    { unfold base_bucket. destruct (cs_sessions s !! sid) as [b2|] eqn:E2; [|simpl; rewrite map_size_empty; lia].
      destruct (Hf sid b2 E2) as [->|[? _]]; [rewrite map_size_empty; lia|done]. }
    rewrite map_size_insert. destruct (_ !! id); simpl; lia.
  - destruct (up_others _ _ _ _ _ Hu sid' ltac:(congruence)) as [_ [E|E]]; rewrite E in Hb; [by apply Hf|].
    destruct (cs_sessions s !! sid') as [b0|] eqn:E0; [|done]. injection Hb as <-. by apply (Hf sid' b0).
Qed.

Lemma op_fit op s : store_inv s -> all_fit s -> all_fit (run_op limits s op).
Proof.
  intros Hs Hf. destruct op as [sid u|sid]; simpl.
  - destruct (update_id u) as [id|] eqn:Hid; [|by destruct u].
    destruct (apply_run sid u s id Hs Hid) as (b & s' & -> & Hu).
    assert (Hi : store_inv (insert_bucket sid b s')) by (apply insert_bucket_inv; apply Hu).
    eapply fit_shrinks; [by apply (updated_fit sid u s)|]. by apply global_limit_run.
  - unfold snapshot. simpl. destruct (cs_sessions s !! sid) as [b|] eqn:Eb; simpl; [|done].
    intros sid' b' Hb. simpl in Hb. apply lookup_insert_Some in Hb as [[<- <-]|[_ Hb]]; [by apply (Hf sid b)|by apply Hf].
Qed.

Lemma ops_fit ops : all_fit (run_ops limits ops new_store).
Proof.
  induction ops as [|op ops IH] using rev_ind; [done|]. unfold run_ops. rewrite foldl_app. simpl.
  apply op_fit; [by apply ops_run, new_inv|done].
Qed.

(** The bytes of a response: the envelope, with the revision it carries, the tool
    calls and the commas between. *)
Definition snapshot_wire_bytes (sid : string) (a : Snapshot) : Z :=
  envelope_wire_bytes sid (sn_generation a) (sn_revision a) (sn_truncated a)
  + foldr (fun c acc => call_wire_bytes (ct_view c) + acc) 0 (sn_tool_calls a)
  + 0 `max` (Z.of_nat (length (sn_tool_calls a)) - 1).

(** C22. A snapshot fits the response it was budgeted for: it shows no tool calls at
    all, or at most the configured number of them, and the envelope with its actual
    revision, the tool calls and the separators together stay within the session's
    byte budget. Assumed of the serializer: the size of one tool call is a machine
    word, the envelope's size does not depend on which generation id it carries, and
    it does not shrink when the revision grows to the largest; of the configuration:
    the limits are machine words. *)
Theorem snapshot_fits_response ops sid :
  let a := (snapshot sid (run_ops limits ops new_store)).1 in
  sn_tool_calls a = []
  \/ Z.of_nat (length (sn_tool_calls a)) <= max_tool_calls_per_session limits
     /\ snapshot_wire_bytes sid a <= max_session_bytes limits.
Proof.
  intros a. unfold a, snapshot_wire_bytes. clear a. destruct (ops_run ops new_store new_inv) as [Hs _]. pose proof (ops_fit ops) as Hf.
  set (s := run_ops limits ops new_store) in *. destruct (si_generation s Hs) as (k & _ & Ek).
  unfold snapshot. simpl. destruct (cs_sessions s !! sid) as [b|] eqn:Eb; simpl; [|by left].
  destruct (si_filed s Hs sid b Eb) as [Hfl Hsz].
  assert (Hp : visible_tool_calls b ≡ₚ shown_calls (b_tool_calls b)) by (apply merge_sort_Permutation).
  destruct (Hf sid b Eb) as [E|[Hn Hr]].
  - left. apply Permutation_nil_r. rewrite Hp. unfold shown_calls. by rewrite E, map_to_list_empty.
  - right. pose proof (shown_calls_size (b_tool_calls b)) as Hle. rewrite <- (Permutation_length Hp) in Hle. split; [lia|].
    assert (Esum : foldr (fun c acc => call_wire_bytes (ct_view c) + acc) 0 (visible_tool_calls b) = wire_sum (shown_calls (b_tool_calls b))).
    { rewrite <- (wire_sum_perm _ _ Hp).
      assert (Hall : forall c, c ∈ visible_tool_calls b -> ct_wire_bytes c = call_wire_bytes (ct_view c)).
      { intros c Hc. apply (elem_of_visible (b_tool_calls b)) in Hc as [_ [id Hid]]. by apply (Hsz id). }
      revert Hall. generalize (visible_tool_calls b). clear. intros l Hall. induction l as [|c l IH]; [done|]. rewrite wire_sum_cons. simpl. rewrite (Hall c) by (by left).
      rewrite IH; [done|]. intros c' Hc'. apply Hall. by right. }
    rewrite Esum, Ek, (Permutation_length Hp). destruct (Henvelope sid k 0 (b_truncated b)) as [_ Ee].
    pose proof (Hrevision sid (generation_id k) (b_revision b) (b_truncated b)) as Hrev.
    pose proof (si_buckets s Hs sid b Eb). pose proof (si_revision s Hs). unfold response_bytes in Hr. rewrite <- Ee in Hr. lia.
Qed.
End safety.

(** ** A run *)

Definition demo_platform : @Platform nat nat := {|
  capacity_reading := fun _ => 3;
  string_capacity := fun s => Z.of_nat (String.length s);
  generation_id := fun i => pretty (N.of_nat i);
  size_of_call := 8; size_of_content := 8; size_of_bucket := 8; size_of_store := 8; size_of_string := 8;
  call_wire_bytes := fun v => 100;
  envelope_wire_bytes := fun _ _ revision _ => if revision <? 10 then 10 else 29;
|}.
#[local] Existing Instance demo_platform.
Definition demo_limits : SessionChangeLimits := mkLimits 350 100000 2.
Definition demo_diff (old : option string) (new : string) : ToolCallContent := ContentDiff (mkDiff [97] old new None).
Definition demo_ops : list (@Op nat nat) :=
  [ OpApply "s" (UpToolCall (mkToolCall "t1" "edit" 0%nat 0%nat [demo_diff None "x"]));
    OpApply "s" (UpToolCallUpdate (mkToolCallUpdate "t2" (Some "read"%string) None None None));
    OpApply "s" (UpToolCallUpdate (mkToolCallUpdate "t1" None None (Some 1%nat) (Some [demo_diff (Some "x"%string) "y"]))) ].
Definition demo_more : list (@Op nat nat) :=
  [ OpApply "other" (UpToolCall (mkToolCall "t9" "edit" 0%nat 0%nat [demo_diff None "z"])); OpSnapshot "s" ].

Lemma equal_revisions_equal_content_witness :
  let s := run_ops demo_limits demo_ops new_store in
  let s' := run_ops demo_limits demo_more s in
  cs_revision s <> cs_revision s' /\ length (seen (snapshot "s" s').1) = 1%nat
  /\ seen (snapshot "s" s).1 = seen (snapshot "s" s').1.
Proof.
  intros s s'. split; [vm_compute; discriminate|]. split; [vm_compute; reflexivity|].
  refine (proj2 (equal_revisions_equal_content demo_limits demo_ops demo_more "s" _ _ _)).
  - intros i j E. apply pretty_N_inj in E. lia.
  - vm_compute. reflexivity.
  - vm_compute. reflexivity.
Defined.

Lemma untruncated_snapshot_complete_witness :
  let a := (snapshot "s" (run_ops demo_limits demo_ops new_store)).1 in
  length (seen a) = 1%nat
  /\ seen a = shape <$> filter (fun v => visible_view v = true) (reference (updates_of "s" demo_ops)).
Proof.
  split; [vm_compute; reflexivity|].
  apply (untruncated_snapshot_complete demo_limits demo_ops "s"); [vm_compute; discriminate|vm_compute; reflexivity].
Defined.

(** One tool call too many: the least recently updated one goes. *)
Definition demo_third : list (@Op nat nat) :=
  demo_ops ++ [OpApply "s" (UpToolCall (mkToolCall "t3" "edit" 0%nat 0%nat [demo_diff None "z"]))].

Lemma snapshot_fits_response_witness :
  let a := (snapshot "s" (run_ops demo_limits demo_third new_store)).1 in
  sn_truncated a = true /\ length (sn_tool_calls a) = 2%nat
  /\ (sn_tool_calls a = [] \/ Z.of_nat (length (sn_tool_calls a)) <= max_tool_calls_per_session demo_limits
        /\ snapshot_wire_bytes "s" a <= max_session_bytes demo_limits).
Proof.
  split; [vm_compute; reflexivity|]. split; [vm_compute; reflexivity|].
  refine (snapshot_fits_response demo_limits _ _ _ _ demo_third "s").
  - intros v. vm_compute. split; discriminate.
  - intros sid i j t. vm_compute. split; [discriminate|reflexivity].
  - intros sid g r t _. cbn [envelope_wire_bytes demo_platform]. destruct (r <? 10); vm_compute; discriminate.
  - vm_compute. split; [split; [discriminate|reflexivity]|discriminate].
Defined.
