(* ===== verification/AcpCodec.v ===== *)
(** The bridge's codec (src/src/runtime/agent/acp_codec.rs, config_options.rs): the
    worker that orders session updates against the opening of their session, the
    lanes of advertised configuration options, the answers to permission requests,
    and the small protocol helpers. Types of the protocol crate are inductive types
    with the variants the code tells apart. *)

From S2P Require Import Prelude Text Async Store SinkOutbox PermissionService SubagentStore SessionSink.
Open Scope Z_scope.

(** ** Updates held for a session that is being opened *)

Definition HELD_SESSION_UPDATES_PER_SESSION : Z := 256.
Definition HELD_SESSION_UPDATES_TOTAL : Z := 1024.

(** [-=] on a [usize]. *)
Definition usize_sub (a b : Z) : Z := (a - b) `mod` 2 ^ 64.

Section worker.
(** An update with its payload. *)
Context {U : Type}.

Record HeldSession := mkHeld { hs_updates : list U; hs_discarded : Z }.
Record HeldSessionUpdates := mkHeldUpdates { hu_sessions : gmap string HeldSession; hu_total : Z }.

Definition held_len (s : HeldSession) : Z := Z.of_nat (length (hs_updates s)).

Definition expect (agent_session_id : string) (h : HeldSessionUpdates) : HeldSessionUpdates :=
  match hu_sessions h !! agent_session_id with
  | Some _ => h
  | None => mkHeldUpdates (<[agent_session_id := mkHeld [] 0]> (hu_sessions h)) (hu_total h)
  end.

(** [true] hands the notification back for the normal path. *)
Definition hold (agent_session_id : string) (u : U) (h : HeldSessionUpdates) : HeldSessionUpdates * bool :=
  match hu_sessions h !! agent_session_id with
  | None => (h, true)
  | Some s =>
      if 0 <? hs_discarded s then
        (mkHeldUpdates (<[agent_session_id := mkHeld (hs_updates s) (hs_discarded s + 1)]> (hu_sessions h)) (hu_total h), false)
      else if (HELD_SESSION_UPDATES_PER_SESSION <=? held_len s) || (HELD_SESSION_UPDATES_TOTAL <=? hu_total h) then
        (mkHeldUpdates (<[agent_session_id := mkHeld [] (held_len s + 1)]> (hu_sessions h)) (usize_sub (hu_total h) (held_len s)), false)
      else
        (mkHeldUpdates (<[agent_session_id := mkHeld (hs_updates s ++ [u]) (hs_discarded s)]> (hu_sessions h)) (hu_total h + 1), false)
  end.

Definition take (agent_session_id : string) (h : HeldSessionUpdates) : option (HeldSession * HeldSessionUpdates) :=
  match hu_sessions h !! agent_session_id with
  | None => None
  | Some s => Some (s, mkHeldUpdates (delete agent_session_id (hu_sessions h)) (usize_sub (hu_total h) (held_len s)))
  end.

(** The discarded updates are only logged. *)
Definition discard (agent_session_id : string) (h : HeldSessionUpdates) : HeldSessionUpdates :=
  match take agent_session_id h with Some (_, h) => h | None => h end.

(** ** Operations in flight, by session *)

Definition SessionCounts := gmap string Z.
Definition add (agent_session_id : string) (c : gmap string Z) : SessionCounts :=
  <[agent_session_id := default 0 (c !! agent_session_id) + 1]> c.
Definition remove (agent_session_id : string) (c : gmap string Z) : SessionCounts :=
  match c !! agent_session_id with
  | None => c
  | Some count => if count - 1 =? 0 then delete agent_session_id c else <[agent_session_id := count - 1]> c
  end.
Definition contains (agent_session_id : string) (c : gmap string Z) : bool := bool_decide (is_Some (c !! agent_session_id)).
Definition agent_session_ids (c : gmap string Z) : list string := (map_to_list c).*1.

(** ** The worker *)

Inductive SessionQueueItem :=
| Notification (agent_session_id : string) (u : U)
| Expect (agent_session_id : string)
| Release (agent_session_id local_session_id : string)
| Abandon (agent_session_id : string)
| AttachStart (agent_session_id : string) (replay : bool)
| AttachEnd (agent_session_id : string) (replay succeeded : bool).

(** What the worker does, in order, awaiting each before the next. *)
Inductive WorkerCall :=
| RecordUpdate (agent_session_id : string) (u : U) (replaying : list string)
| RememberLocal (agent_session_id local_session_id : string)
| WithdrawState (agent_session_id : string)
| AckRelease (agent_session_id : string).

Record Worker := mkWorker { wk_held : HeldSessionUpdates; wk_replaying : SessionCounts }.
Definition worker_start : Worker := mkWorker (mkHeldUpdates ∅ 0) ∅.

Definition worker_step (w : Worker) (item : SessionQueueItem) : Worker * list WorkerCall :=
  let replaying := agent_session_ids (wk_replaying w) in
  match item with
  | Notification a u =>
      let (h, back) := hold a u (wk_held w) in
      (mkWorker h (wk_replaying w), if back then [RecordUpdate a u replaying] else [])
  | Expect a => (mkWorker (expect a (wk_held w)) (wk_replaying w), [])
  | Release a local =>
      match take a (wk_held w) with
      | Some (s, h) =>
          (mkWorker h (wk_replaying w),
           RememberLocal a local :: ((fun u => RecordUpdate a u replaying) <$> hs_updates s) ++ [AckRelease a])
      | None => (w, [AckRelease a])
      end
  | Abandon a => (mkWorker (discard a (wk_held w)) (wk_replaying w), [])
  | AttachStart a replay =>
      (mkWorker (wk_held w) (if replay then add a (wk_replaying w) else wk_replaying w), [WithdrawState a])
  | AttachEnd a replay succeeded =>
      (mkWorker (wk_held w) (if replay then remove a (wk_replaying w) else wk_replaying w),
       if succeeded then [] else [WithdrawState a])
  end.

Fixpoint run_worker (items : list SessionQueueItem) (w : Worker) : Worker * list WorkerCall :=
  match items with
  | [] => (w, [])
  | item :: rest =>
      let (w, calls) := worker_step w item in
      let (w, more) := run_worker rest w in (w, calls ++ more)
  end.
End worker.
Arguments HeldSession : clear implicits.
Arguments HeldSessionUpdates : clear implicits.
Arguments SessionQueueItem : clear implicits.
Arguments WorkerCall : clear implicits.
Arguments Worker : clear implicits.

(** ** The calls on the sink *)

(** An update as the codec tells it apart; [BridgeSubagent] says whether the child is
    reported idle because it was cancelled. *)
Inductive BridgeUpdate :=
| BridgeSubagent (update : SubagentUpdate) (reports_cancelled : bool)
| BridgeOther (message_id : option string) (tool_call : bool).

Section calls.
Context (json_valid json_parses : string -> bool) (external : bool).
Context (announced_payload : string -> string -> string -> string) (target_id : string).
(** [cancel_pending_for_session] of the permission service, if there is one. *)
Context (cancel_pending : string -> Proc SinkEnv Sink unit).
Local Open Scope proc_scope.

Definition EVENT_KIND_SESSION_UPDATE : string := "session.update".

Definition record_session_update (replaying : list string) (agent_session_id : string) (update : BridgeUpdate) (payload : string)
  : Proc SinkEnv Sink unit :=
  match update with
  | BridgeSubagent su cancelled =>
      let% child := SessionSink.record_subagent_update json_valid json_parses external announced_payload target_id agent_session_id su
                      payload replaying in
      match child with
      | Some child_session_id => if cancelled then cancel_pending child_session_id else Done tt
      | None => Done tt
      end
  | BridgeOther message_id tool_call =>
      let% known := capture_session_update target_id agent_session_id message_id tool_call in
      if known then let% _ := append target_id agent_session_id EVENT_KIND_SESSION_UPDATE payload in Done tt else Done tt
  end.

Definition run_call (call : WorkerCall (BridgeUpdate * string)) : Proc SinkEnv Sink unit :=
  match call with
  | RecordUpdate a (update, payload) replaying => record_session_update replaying a update payload
  | RememberLocal a local => remember_local_session a local
  | WithdrawState a => SessionSink.withdraw_subagent_state external target_id a
  | AckRelease _ => Done tt
  end.

(** One item of the queue. *)
Fixpoint run_calls (calls : list (WorkerCall (BridgeUpdate * string))) : Proc SinkEnv Sink unit :=
  match calls with [] => Done tt | call :: rest => let% _ := run_call call in run_calls rest end.
Definition serve_item (w : Worker (BridgeUpdate * string)) (item : SessionQueueItem (BridgeUpdate * string))
  : Worker (BridgeUpdate * string) * Proc SinkEnv Sink unit :=
  let (w, calls) := worker_step w item in (w, run_calls calls).
End calls.

(** ** Advertised configuration options *)

Inductive OptionCategory := CategoryMode | CategoryModel | CategoryThoughtLevel | CategoryOther (name : string).
Record SelectOption := mkSelectOption { so_value : string; so_name : string; so_description : option string }.
Inductive SelectOptions :=
| Ungrouped (options : list SelectOption)
| Grouped (groups : list (string * list SelectOption))
| UnknownOptions.
Inductive OptionKind :=
| SelectKind (current_value : string) (options : SelectOptions)
| BooleanKind (current_value : bool)
| UnknownKind.
Record SessionConfigOption := mkOption {
  op_id : string; op_name : string; op_description : option string; op_category : option OptionCategory; op_kind : OptionKind;
}.

Inductive AgentSessionConfigCategory := Mode | Model | Effort.
Definition category_id (c : AgentSessionConfigCategory) : string :=
  match c with Mode => "mode" | Model => "model" | Effort => "effort" end.
Definition category_matches (c : AgentSessionConfigCategory) (category : OptionCategory) : bool :=
  match c, category with
  | Mode, CategoryMode | Model, CategoryModel | Effort, CategoryThoughtLevel => true
  | _, _ => false
  end.
Definition matches_id (c : AgentSessionConfigCategory) (id : string) : bool :=
  match c with
  | Effort => bool_decide (id = "effort"%string) || bool_decide (id = "reasoning_effort"%string)
  | Mode | Model => bool_decide (id = category_id c)
  end.

(** The modes of the protocol's own lane. *)
Record SessionModes := mkModes { sm_available : list string; sm_current : string }.
Record NewSessionResponse := mkResponse { nr_config_options : option (list SessionConfigOption); nr_modes : option SessionModes }.

Inductive LaneError := NoSuchOption (category : string) | NoSuchValue (value category : string).

Definition is_select (option : SessionConfigOption) : bool := match op_kind option with SelectKind _ _ => true | _ => false end.
Definition in_lane (c : AgentSessionConfigCategory) (option : SessionConfigOption) : bool :=
  match op_category option with Some category => category_matches c category | None => false end || matches_id c (op_id option).

Definition session_config_option_choices (option : SessionConfigOption) : list (string * string) :=
  match op_kind option with
  | SelectKind _ (Ungrouped options) => (fun o => (so_value o, so_name o)) <$> options
  | SelectKind _ (Grouped groups) => (fun o => (so_value o, so_name o)) <$> concat groups.*2
  | _ => []
  end.
Definition session_config_option_values (option : SessionConfigOption) : list string := (session_config_option_choices option).*1.
Definition session_config_option_contains_value (option : SessionConfigOption) (value : string) : bool :=
  existsb (fun candidate => bool_decide (candidate = value)) (session_config_option_values option).

Fixpoint config_id_for_value (options : list SessionConfigOption) (c : AgentSessionConfigCategory) (value : string)
  : result LaneError string :=
  match options with
  | [] => Err (NoSuchValue value (category_id c))
  | option :: rest =>
      if negb (is_select option) then config_id_for_value rest c value
      else if in_lane c option && session_config_option_contains_value option value then Ok (op_id option)
      else config_id_for_value rest c value
  end.
Definition session_config_id_for_value (options : option (list SessionConfigOption)) (c : AgentSessionConfigCategory) (value : string)
  : result LaneError string :=
  match options with None => Err (NoSuchOption (category_id c)) | Some options => config_id_for_value options c value end.

Fixpoint first_in_lane (options : list SessionConfigOption) (c : AgentSessionConfigCategory) : result LaneError SessionConfigOption :=
  match options with
  | [] => Err (NoSuchOption (category_id c))
  | option :: rest =>
      if negb (is_select option) then first_in_lane rest c else if in_lane c option then Ok option else first_in_lane rest c
  end.
Definition find_config_option (options : option (list SessionConfigOption)) (c : AgentSessionConfigCategory)
  : result LaneError SessionConfigOption :=
  match options with None => Err (NoSuchOption (category_id c)) | Some options => first_in_lane options c end.

(** [sort] and [dedup]. *)
#[local] Instance string_le_dec : RelDecision String.le := fun a b => decide (String.le a b).
Fixpoint dedup (l : list string) : list string :=
  match l with
  | a :: ((b :: _) as rest) => if bool_decide (a = b) then dedup rest else a :: dedup rest
  | _ => l
  end.
Definition sorted_values (values : list string) : list string := dedup (merge_sort String.le values).

(** A [HashSet] of the values seen. *)
Fixpoint first_occurrences_by {A} (key : A -> string) (seen : gset string) (l : list A) : list A :=
  match l with
  | [] => []
  | x :: rest =>
      if bool_decide (key x ∈ seen) then first_occurrences_by key seen rest
      else x :: first_occurrences_by key ({[ key x ]} ∪ seen) rest
  end.
Definition first_occurrences (values : list string) : list string := first_occurrences_by id ∅ values.

Open Scope result_scope.

Definition session_config_values (options : option (list SessionConfigOption)) (c : AgentSessionConfigCategory)
  : result LaneError (list string) :=
  let? option := find_config_option options c in Ok (sorted_values (session_config_option_values option)).

Definition session_model_selection_for_value (r : NewSessionResponse) (value : string) : result LaneError string :=
  match nr_config_options r with
  | Some options =>
      match session_config_id_for_value (Some options) Model value with
      | Ok id => Ok id
      | Err _ => Err (NoSuchValue value "model")
      end
  | None => Err (NoSuchValue value "model")
  end.

Definition session_model_values (r : NewSessionResponse) : result LaneError (list string) :=
  session_config_values (nr_config_options r) Model.

Definition session_model_choices (r : NewSessionResponse) : result LaneError (list (string * string)) :=
  let? option := find_config_option (nr_config_options r) Model in
  Ok (first_occurrences_by fst ∅ (session_config_option_choices option)).

Inductive AgentSessionModeSelection := ConfigOption (config_id : string) | NativeMode (mode_id : string).

Definition session_mode_selection_for_value (r : NewSessionResponse) (value : string) : result LaneError AgentSessionModeSelection :=
  match session_config_values (nr_config_options r) Mode with
  | Ok _ => let? id := session_config_id_for_value (nr_config_options r) Mode value in Ok (ConfigOption id)
  | Err _ =>
      match nr_modes r with
      | Some modes =>
          if existsb (fun m => bool_decide (m = value)) (sm_available modes) then Ok (NativeMode value)
          else Err (NoSuchValue value "mode")
      | None => Err (NoSuchValue value "mode")
      end
  end.

Definition session_mode_values (r : NewSessionResponse) : result LaneError (list string) :=
  match session_config_values (nr_config_options r) Mode with
  | Ok values => Ok values
  | Err e => match nr_modes r with
             | Some modes => Ok (sorted_values (sm_available modes))
             | None => session_config_values (nr_config_options r) Mode
             end
  end.

Record AdvertisedSelect := mkAdvertised { ad_values : list string; ad_current : string }.
Definition session_advertised_select (r : NewSessionResponse) (c : AgentSessionConfigCategory) : result LaneError AdvertisedSelect :=
  match find_config_option (nr_config_options r) c with
  | Err e =>
      match c, nr_modes r with
      | Mode, Some modes => Ok (mkAdvertised (first_occurrences (sm_available modes)) (sm_current modes))
      | _, _ => Err e
      end
  | Ok option =>
      match op_kind option with
      | SelectKind current _ => Ok (mkAdvertised (first_occurrences (session_config_option_values option)) current)
      | _ => Err (NoSuchOption (category_id c))
      end
  end.

Inductive OptionValue := ValueId (value : string) | ValueBoolean (value : bool).
Definition session_config_option_is_current (options : option (list SessionConfigOption)) (config_id : string) (value : OptionValue) : bool :=
  match find (fun o => bool_decide (op_id o = config_id)) (default [] options) with
  | None => false
  | Some option =>
      match op_kind option, value with
      | SelectKind current _, ValueId value => bool_decide (current = value)
      | BooleanKind current, ValueBoolean value => Bool.eqb current value
      | _, _ => false
      end
  end.

(** The stored snapshot of an option; a category that is not text has none. *)
Inductive SnapshotValue := SnapshotBool (b : bool) | SnapshotText (s : string).
Record OptionSnapshot := mkOptionSnapshot {
  os_id : string; os_name : string; os_description : option string; os_category : option string; os_kind : string;
  os_current_value : SnapshotValue; os_options : option (list SelectOption);
}.
Section snapshots.
Context (category_text : OptionCategory -> option string).
Definition project_config_option (opt : SessionConfigOption) : option OptionSnapshot :=
  let snapshot kind current choices :=
    Some (mkOptionSnapshot (op_id opt) (op_name opt) (op_description opt) (op_category opt ≫= category_text) kind current choices) in
  match op_kind opt with
  | SelectKind current (Ungrouped options) => snapshot "select"%string (SnapshotText current) (Some options)
  | SelectKind current (Grouped groups) => snapshot "select"%string (SnapshotText current) (Some (concat groups.*2))
  | SelectKind _ UnknownOptions => None
  | BooleanKind current => snapshot "boolean"%string (SnapshotBool current) None
  | UnknownKind => None
  end.
Definition project_config_options (options : list SessionConfigOption) : list OptionSnapshot := omap project_config_option options.
End snapshots.

(** ** Permission requests *)

Inductive PermissionOptionKind := AllowOnce | AllowAlways | RejectOnce | RejectAlways.
#[export] Instance permission_option_kind_eq_dec : EqDecision PermissionOptionKind.
Proof. solve_decision. Defined.
Record PermissionOption := mkPermissionOption { po_id : string; po_kind : PermissionOptionKind }.
Inductive RequestOutcome := OutcomeSelected (option_id : string) | OutcomeCancelled.
Inductive RequestError := RequestInternal | RequestCancelled.

Definition allow_kind_option (options : list PermissionOption) : option PermissionOption :=
  match find (fun o => bool_decide (po_kind o = AllowOnce)) options with
  | Some o => Some o
  | None => find (fun o => bool_decide (po_kind o = AllowAlways)) options
  end.

Definition auto_approve_acp_permission (options : list PermissionOption) : RequestOutcome :=
  match allow_kind_option options with Some o => OutcomeSelected (po_id o) | None => OutcomeCancelled end.

(** What ends the wait: the decision, the waiter closed, or the agent's
    [$/cancel_request], which first settles the permission. *)
Inductive WaitEnd :=
| WaitDecided (o : PermissionOutcome)
| WaitClosed
| WaitCancelled (settled : option bool) (after : option PermissionOutcome).

(** [policy_approves]: the configured action; [approved] whether the store took the
    policy's approval; [requested] whether it took the request. *)
Definition resolve_acp_permission (serializes : bool) (local_session_id : option string) (policy_approves approved requested : bool)
    (options : list PermissionOption) (wait : WaitEnd) : result RequestError RequestOutcome :=
  let answer o :=
    match o with
    | Approved option_id _ =>
        match match option_id with Some id => Some id | None => po_id <$> head options end with
        | Some id => Ok (OutcomeSelected id)
        | None => Ok OutcomeCancelled
        end
    | _ => Ok OutcomeCancelled
    end in
  match serializes, local_session_id with
  | false, _ => Err RequestInternal
  | true, None => Ok OutcomeCancelled
  | true, Some _ =>
      if policy_approves then
        match allow_kind_option options with
        | None => Ok OutcomeCancelled
        | Some o => if approved then Ok (OutcomeSelected (po_id o)) else Err RequestInternal
        end
      else if negb requested then Err RequestInternal
      else match wait with
           | WaitDecided o => answer o
           | WaitClosed => Err RequestInternal
           | WaitCancelled (Some true) _ => Err RequestCancelled
           | WaitCancelled (Some false) (Some o) => answer o
           | WaitCancelled (Some false) None => Err RequestInternal
           | WaitCancelled None _ => Err RequestInternal
           end
  end.

(** ** Text files *)

Definition LF : Z := 10.
Definition CR : Z := 13.

(** [str::lines]: without line ends, and without an empty line at the end. *)
Definition strip_cr (line : str) : str :=
  match reverse line with c :: rest => if c =? CR then reverse rest else line | [] => line end.
Fixpoint split_lines (content : str) (line : str) : list str :=
  match content with
  | [] => match line with [] => [] | _ => [line] end
  | c :: rest => if c =? LF then strip_cr line :: split_lines rest [] else split_lines rest (line ++ [c])
  end.
Definition lines (content : str) : list str := split_lines content [].

Fixpoint join_lines (ls : list str) : str :=
  match ls with [] => [] | [l] => l | l :: rest => l ++ LF :: join_lines rest end.

Definition slice_lines (content : str) (line limit : option Z) : str :=
  match line, limit with
  | None, None => content
  | _, _ =>
      let start := match line with Some line => Z.to_nat (0 `max` (line - 1)) | None => 0%nat end in
      join_lines match limit with
                 | Some limit => firstn (Z.to_nat limit) (drop start (lines content))
                 | None => drop start (lines content)
                 end
  end.

(** ** [_meta] *)

Definition ACP_STACK_META_KEY : string := "acpStack".
Definition MESSAGE_ID_META_KEY : string := "messageId".
Definition JETBRAINS_META_KEY : string := "jetbrains".
Definition AIR_META_KEY : string := "air".
Definition AIR_FORK_KEY : string := "fork".
Definition AIR_FORK_VERSION_KEY : string := "version".
Definition AIR_FORK_VERSION : Z := 1.

Definition prompt_message_id_meta (message_id : string) : list (string * Json) :=
  [(ACP_STACK_META_KEY, JsObject [(MESSAGE_ID_META_KEY, JsString message_id)])].
Local Notation "o ?> f" := (match o with Some v => f v | None => None end) (at level 53, left associativity).
Definition meta_message_id (meta : option (list (string * Json))) : option string :=
  match meta with
  | None => None
  | Some m => SessionSink.assoc ACP_STACK_META_KEY m ?> jget MESSAGE_ID_META_KEY ?> as_str
  end.
Definition air_fork_point_meta (message_id : string) : list (string * Json) :=
  [(JETBRAINS_META_KEY, JsObject [(AIR_META_KEY, JsObject [(AIR_FORK_KEY,
      JsObject [(AIR_FORK_VERSION_KEY, JsInt AIR_FORK_VERSION); (MESSAGE_ID_META_KEY, JsString message_id)])])])].
Definition air_fork_point_message_id (meta : option (list (string * Json))) : option string :=
  match meta with
  | None => None
  | Some m =>
      match SessionSink.assoc JETBRAINS_META_KEY m ?> jget AIR_META_KEY ?> jget AIR_FORK_KEY with
      | None => None
      | Some fork =>
          match jget AIR_FORK_VERSION_KEY fork ?> as_u64 with
          | Some v => if v =? AIR_FORK_VERSION then jget MESSAGE_ID_META_KEY fork ?> as_str else None
          | None => None
          end
      end
  end.

(** ** Held updates: accounting *)

Section held.
Context {U : Type}.
Implicit Types (h : HeldSessionUpdates U) (m : gmap string (HeldSession U)).

Definition held_add (_ : string) (s : HeldSession U) (acc : Z) : Z := held_len s + acc.
Definition held_sum m : Z := map_fold held_add 0 m.

Lemma held_sum_delete m a s : m !! a = Some s -> held_sum m = held_len s + held_sum (delete a m).
Proof. intros Ha. apply (map_fold_delete_L held_add); [|done]. intros. unfold held_add. lia. Qed.
Lemma held_sum_insert_new m a s : m !! a = None -> held_sum (<[a := s]> m) = held_len s + held_sum m.
Proof. intros Ha. apply (map_fold_insert_L held_add); [|done]. intros. unfold held_add. lia. Qed.
Lemma held_sum_insert m a s s' : m !! a = Some s -> held_sum (<[a := s']> m) = held_sum m - held_len s + held_len s'.
Proof.
  intros Ha. rewrite <- (insert_delete_eq m a s'), held_sum_insert_new by apply lookup_delete_eq. rewrite (held_sum_delete m a s Ha). lia.
Qed.
Lemma held_sum_pos m : 0 <= held_sum m.
Proof.
  induction m as [|a s m Ha IH] using map_ind; [done|]. rewrite held_sum_insert_new by done. unfold held_len. lia.
Qed.

(** The counter is the number of updates held, both caps are kept, and a session that
    overflowed holds nothing. *)
Record held_ok h : Prop := mkHeldOk {
  ho_total : hu_total h = held_sum (hu_sessions h);
  ho_cap : hu_total h <= HELD_SESSION_UPDATES_TOTAL;
  ho_sessions : forall a s, hu_sessions h !! a = Some s ->
    held_len s <= HELD_SESSION_UPDATES_PER_SESSION /\ 0 <= hs_discarded s /\ (0 < hs_discarded s -> hs_updates s = []);
}.

Lemma usize_sub_exact h a s :
  held_ok h -> hu_sessions h !! a = Some s -> usize_sub (hu_total h) (held_len s) = hu_total h - held_len s.
Proof.
  intros [H1 H2 _] Ha. unfold usize_sub. apply Z.mod_small. pose proof (held_sum_pos (delete a (hu_sessions h))).
  rewrite (held_sum_delete _ _ _ Ha) in H1. unfold HELD_SESSION_UPDATES_TOTAL, held_len in *. lia.
Qed.

Lemma expect_ok a h : held_ok h -> held_ok (expect a h).
Proof.
  intros Hh. unfold expect. destruct (hu_sessions h !! a) as [s|] eqn:Ea; [done|]. destruct Hh as [H1 H2 H3]. constructor; simpl.
  - rewrite held_sum_insert_new by done. unfold held_len. simpl. lia.
  - done.
  - intros a' s' [[<- <-]|[_ Ha]]%lookup_insert_Some; [|by eapply H3]. unfold held_len, HELD_SESSION_UPDATES_PER_SESSION. simpl. lia.
Qed.

Lemma hold_ok a u h : held_ok h -> held_ok (hold a u h).1.
Proof.
  intros Hh. unfold hold. destruct (hu_sessions h !! a) as [s|] eqn:Ea; [|done].
  pose proof (usize_sub_exact h a s Hh Ea) as Esub. destruct Hh as [H1 H2 H3]. destruct (H3 a s Ea) as (L1 & L2 & L3).
  destruct (0 <? hs_discarded s) eqn:Ed; [|destruct (_ || _) eqn:Ec]; constructor; simpl; try rewrite Esub.
  - rewrite (held_sum_insert _ _ _ _ Ea). unfold held_len in *. simpl. lia.
  - done.
  - intros a' s' [[<- <-]|[_ Ha]]%lookup_insert_Some; [|by eapply H3]. unfold held_len in *. simpl. apply Z.ltb_lt in Ed.
    split; [done|]. split; [lia|]. intros _. by apply L3.
  - rewrite (held_sum_insert _ _ _ _ Ea). unfold held_len in *. simpl. lia.
  - unfold held_len in *. lia.
  - intros a' s' [[<- <-]|[_ Ha]]%lookup_insert_Some; [|by eapply H3].
    unfold held_len, HELD_SESSION_UPDATES_PER_SESSION in *. simpl. split; [lia|]. split; [lia|done].
  - rewrite (held_sum_insert _ _ _ _ Ea). unfold held_len. simpl. rewrite length_app. simpl. lia.
  - apply orb_false_elim in Ec as [_ Ec%Z.leb_gt]. lia.
  - apply orb_false_elim in Ec as [Ec%Z.leb_gt _]. apply Z.ltb_ge in Ed.
    intros a' s' [[<- <-]|[_ Ha]]%lookup_insert_Some; [|by eapply H3]. unfold held_len in *. simpl. rewrite length_app. simpl. lia.
Qed.

Lemma take_ok a h s h' : held_ok h -> take a h = Some (s, h') -> held_ok h' /\ hu_total h' <= hu_total h.
Proof.
  intros Hh. unfold take. destruct (hu_sessions h !! a) as [s0|] eqn:Ea; [|done]. intros [= <- <-].
  pose proof (usize_sub_exact h a s0 Hh Ea) as Esub. destruct Hh as [H1 H2 H3]. rewrite (held_sum_delete _ _ _ Ea) in H1.
  split; [constructor|]; simpl; rewrite ?Esub; [lia|unfold held_len in *; lia| |unfold held_len; lia].
  intros a' s' [_ Ha]%lookup_delete_Some. by eapply H3.
Qed.

Lemma discard_ok a h : held_ok h -> held_ok (discard a h) /\ hu_total (discard a h) <= hu_total h.
Proof.
  intros Hh. unfold discard. destruct (take a h) as [[s h']|] eqn:E; [by eapply take_ok|done].
Qed.

Lemma step_ok (w : Worker U) item : held_ok (wk_held w) -> held_ok (wk_held (worker_step w item).1).
Proof.
  intros Hw. destruct item as [a u|a|a local|a|a replay|a replay ok]; simpl; try done.
  - pose proof (hold_ok a u _ Hw) as H. by destruct (hold a u (wk_held w)).
  - by apply expect_ok.
  - destruct (take a (wk_held w)) as [[s h]|] eqn:E; [|done]. by eapply take_ok.
  - by apply discard_ok.
Qed.

Lemma run_ok items (w : Worker U) : held_ok (wk_held w) -> held_ok (wk_held (run_worker items w).1).
Proof.
  revert w. induction items as [|item items IH]; intros w Hw; [done|]. simpl. pose proof (step_ok w item Hw) as H.
  destruct (worker_step w item) as [w1 calls]. specialize (IH w1 H). by destruct (run_worker items w1).
Qed.

Lemma start_ok : held_ok (wk_held (worker_start (U := U))).
Proof. by constructor. Qed.
End held.

(** ** Held updates: windows *)

Section windows.
Context {U : Type}.
Implicit Types (items : list (SessionQueueItem U)) (calls : list (WorkerCall U)) (w : Worker U).

(** The updates of a session in the queue. *)
Definition notified (a : string) items : list U :=
  omap (fun item => match item with Notification a' u => if bool_decide (a' = a) then Some u else None | _ => None end) items.

(** The updates given to the sink for a session. *)
Definition recorded (a : string) calls : list U :=
  omap (fun call => match call with RecordUpdate a' u _ => if bool_decide (a' = a) then Some u else None | _ => None end) calls.

Definition keeps_waiting (a : string) (item : SessionQueueItem U) : Prop :=
  match item with Release a' _ | Abandon a' => a' <> a | _ => True end.

(** The updates held for all sessions together, counted one by one. *)
Definition held_now w : Z := held_sum (hu_sessions (wk_held w)).

(** An update of [a] comes when 1024 are held. *)
Definition arrives_full (a : string) w items : Prop :=
  exists before u after, items = before ++ Notification a u :: after
    /\ HELD_SESSION_UPDATES_TOTAL <= held_now (run_worker before w).1.

Definition overflows (a : string) w items : Prop :=
  HELD_SESSION_UPDATES_PER_SESSION < Z.of_nat (length (notified a items)) \/ arrives_full a w items.

Lemma run_snoc items item w :
  (run_worker (items ++ [item]) w).1 = (worker_step (run_worker items w).1 item).1
  /\ (run_worker (items ++ [item]) w).2 = (run_worker items w).2 ++ (worker_step (run_worker items w).1 item).2.
Proof.
  revert w. induction items as [|x items IH]; intros w; simpl.
  - destruct (worker_step w item) as [w1 c1]. simpl. by rewrite app_nil_r.
  - destruct (worker_step w x) as [w1 c1]. specialize (IH w1).
    destruct (run_worker (items ++ [item]) w1) as [w2 c2], (run_worker items w1) as [w3 c3]. simpl in *.
    destruct IH as [-> ->]. by rewrite (assoc_L (++)).
Qed.

Lemma notified_snoc a items item :
  notified a (items ++ [item]) = notified a items
    ++ match item with Notification a' u => if bool_decide (a' = a) then [u] else [] | _ => [] end.
Proof. unfold notified. rewrite omap_app. f_equal. destruct item as [a' u| | | | |]; simpl; try done. by case_bool_decide. Qed.

Lemma arrives_full_snoc a w items item :
  arrives_full a w (items ++ [item])
  <-> arrives_full a w items
      \/ (exists u, item = Notification a u) /\ HELD_SESSION_UPDATES_TOTAL <= held_now (run_worker items w).1.
Proof.
  split.
  - intros (before & u & after & E & Hfull). induction after as [|x after _] using rev_ind.
    + apply app_inj_tail in E as [-> ->]. right. split; [by exists u|done].
    + left. exists before, u, after. split; [|done]. rewrite app_comm_cons, (assoc_L (++)) in E. by apply app_inj_tail in E as [-> _].
  - intros [(before & u & after & -> & Hfull)|[[u ->] Hfull]].
    + exists before, u, (after ++ [item]). split; [|done]. by rewrite <- (assoc_L (++)).
    + exists items, u, []. by split.
Qed.

(** What is held for [a] after [items] of its window, which began in [w0]. *)
Record in_window (a : string) w0 items (w : Worker U) : Prop := mkInWindow {
  iw_ok : held_ok (wk_held w);
  iw_run : w = (run_worker items w0).1;
  iw_held : exists s, hu_sessions (wk_held w) !! a = Some s
    /\ (hs_discarded s = 0 /\ hs_updates s = notified a items /\ ~ overflows a w0 items
        \/ 0 < hs_discarded s /\ hs_updates s = [] /\ overflows a w0 items);
}.

(** The window of [a] is not touched by an item that leaves its entry alone. *)
Lemma window_keep a w0 items item w :
  in_window a w0 items w -> hu_sessions (wk_held (worker_step w item).1) !! a = hu_sessions (wk_held w) !! a ->
  (forall u, item <> Notification a u) -> in_window a w0 (items ++ [item]) (worker_step w item).1.
Proof.
  intros [H1 H2 (s & Hs & Hcase)] Hsame Hn. constructor; [by apply step_ok|by rewrite (proj1 (run_snoc _ _ _)), H2|].
  exists s. split; [congruence|].
  assert (En : notified a (items ++ [item]) = notified a items).
  { rewrite notified_snoc. destruct item as [a' u| | | | |]; rewrite ?app_nil_r; try done. case_bool_decide as E; [|by rewrite app_nil_r].
    subst. by destruct (Hn u). }
  assert (Eo : overflows a w0 (items ++ [item]) <-> overflows a w0 items).
  { unfold overflows. rewrite En, arrives_full_snoc. split; [|tauto]. intros [?|[?|[[u ->] _]]]; [tauto|tauto|]. by destruct (Hn u). }
  by rewrite En, Eo.
Qed.

Lemma window_notify a w0 items u w :
  in_window a w0 items w -> in_window a w0 (items ++ [Notification a u]) (worker_step w (Notification a u)).1
  /\ (worker_step w (Notification a u)).2 = [].
Proof.
  intros [H1 H2 (s & Hs & Hcase)]. pose proof (step_ok w (Notification a u) H1) as Hok.
  assert (Hrun : (worker_step w (Notification a u)).1 = (run_worker (items ++ [Notification a u]) w0).1)
    by (by rewrite (proj1 (run_snoc _ _ _)), H2).
  assert (En : notified a (items ++ [Notification a u]) = notified a items ++ [u]) by (by rewrite notified_snoc, bool_decide_true).
  assert (Eo : overflows a w0 (items ++ [Notification a u])
    <-> overflows a w0 items \/ HELD_SESSION_UPDATES_PER_SESSION <= Z.of_nat (length (notified a items))
        \/ HELD_SESSION_UPDATES_TOTAL <= hu_total (wk_held w)).
  { assert (Eh : held_now (run_worker items w0).1 = hu_total (wk_held w)) by (by rewrite <- H2, (ho_total _ H1)).
    unfold overflows. rewrite En, arrives_full_snoc, Eh, length_app. simpl. split.
    - intros [?|[?|[_ ?]]]; [|tauto|tauto]. right. left. lia.
    - intros [[?|?]|[?|?]]; [left; lia|tauto|left; lia|]. right. right. split; [by exists u|done]. }
  split; [|simpl; unfold hold; rewrite Hs; destruct (0 <? _); [|destruct (_ || _)]; done].
  constructor; [done|done|]. clear Hok Hrun. simpl. unfold hold. rewrite Hs.
  destruct (0 <? hs_discarded s) eqn:Ed; [|destruct (_ || _) eqn:Ec]; simpl; (eexists; split; [apply lookup_insert_eq|]); simpl; rewrite Eo, En.
  - apply Z.ltb_lt in Ed. right. destruct Hcase as [[? _]|(_ & ? & Ho)]; [lia|]. split_and!; [lia|done|by left].
  - apply Z.ltb_ge in Ed. destruct Hcase as [(_ & Eu & _)|[? _]]; [|lia]. unfold held_len in *. rewrite Eu in *.
    right. split_and!; [lia|done|]. right. apply orb_prop in Ec as [Ec%Z.leb_le|Ec%Z.leb_le]; auto.
  - apply Z.ltb_ge in Ed. destruct Hcase as [(E & Eu & Hno)|[? _]]; [|lia]. left. rewrite Eu. split_and!; [done|done|].
    apply orb_false_elim in Ec as [E1%Z.leb_gt E2%Z.leb_gt]. unfold held_len in E1. rewrite Eu in E1. intros [?|[?|?]]; [done|lia|lia].
Qed.

(** One item of the window. *)
Lemma window_step a w0 items item w :
  keeps_waiting a item -> in_window a w0 items w ->
  in_window a w0 (items ++ [item]) (worker_step w item).1 /\ recorded a (worker_step w item).2 = [].
Proof.
  intros Hk Hw. destruct item as [a' u|a'|a' local|a'|a' replay|a' replay ok].
  - destruct (decide (a' = a)) as [->|Hne].
    { destruct (window_notify a w0 items u w Hw) as [H E]. by rewrite E. }
    split; [apply window_keep; [done| |congruence]|]; simpl; unfold hold.
    + destruct (hu_sessions (wk_held w) !! a') as [s|]; [|done].
      destruct (0 <? _); [|destruct (_ || _)]; simpl; by rewrite lookup_insert_ne.
    + destruct (hu_sessions (wk_held w) !! a') as [s|]; [|simpl; by rewrite bool_decide_false].
      by destruct (0 <? _); [|destruct (_ || _)].
  - split; [|done]. apply window_keep; [done| |done]. simpl. unfold expect.
    destruct (hu_sessions (wk_held w) !! a') as [s|] eqn:Es; [done|]. simpl. rewrite lookup_insert_ne; [done|]. intros ->.
    destruct (iw_held _ _ _ _ Hw) as (s & Hs & _). congruence.
  - simpl in Hk. split.
    + apply window_keep; [done| |done]. simpl. unfold take. destruct (hu_sessions (wk_held w) !! a'); [|done]. simpl.
      by rewrite lookup_delete_ne.
    + simpl. destruct (take a' (wk_held w)) as [[s h]|]; [|done]. unfold recorded. simpl. rewrite omap_app. simpl. rewrite app_nil_r.
      clear -Hk. induction (hs_updates s) as [|u us IH]; [done|]. simpl. rewrite bool_decide_false by done. exact IH.
  - simpl in Hk. split; [|done]. apply window_keep; [done| |done]. simpl. unfold discard, take.
    destruct (hu_sessions (wk_held w) !! a'); [|done]. simpl. by rewrite lookup_delete_ne.
  - split; [|done]. by apply window_keep.
  - split; [|simpl; by destruct ok]. by apply window_keep.
Qed.

Lemma window_run a mid w0 :
  Forall (keeps_waiting a) mid -> in_window a w0 [] w0 ->
  in_window a w0 mid (run_worker mid w0).1 /\ recorded a (run_worker mid w0).2 = [].
Proof.
  intros Hk Hw. induction mid as [|item mid IH] using rev_ind; [done|]. apply Forall_app in Hk as [Hk Hi]. apply (Forall_inv (P := keeps_waiting a)) in Hi.
  destruct (IH Hk) as [H1 E1]. destruct (run_snoc mid item w0) as [-> ->].
  destruct (window_step a w0 mid item _ Hi H1) as [H2 E2]. split; [done|]. unfold recorded in *. by rewrite omap_app, E1, E2.
Qed.

(** C17. A session that is being opened loses none of its updates out of the middle:
    from the agent's answer until the local row is released nothing is written for
    it; then the held updates are written all, in the order they arrived, under the
    row that was just remembered and before the release is acknowledged, or none of
    them is. None is exactly when the session sent more than 256 of them, or when one
    of its updates arrived while the updates held for all sessions, counted one by
    one, were 1024. *)
Theorem held_updates_all_or_nothing items a mid local :
  let w := (run_worker items worker_start).1 in
  hu_sessions (wk_held w) !! a = None ->
  Forall (keeps_waiting a) mid ->
  let w0 := (worker_step w (Expect a)).1 in
  let w1 := (run_worker mid w0).1 in
  recorded a (run_worker (Expect a :: mid) w).2 = []
  /\ exists us, (worker_step w1 (Release a local)).2
       = RememberLocal a local :: ((fun u => RecordUpdate a u (agent_session_ids (wk_replaying w1))) <$> us) ++ [AckRelease a]
     /\ (us = notified a mid /\ ~ overflows a w0 mid \/ us = [] /\ overflows a w0 mid)
     /\ hu_sessions (wk_held (worker_step w1 (Release a local)).1) !! a = None.
Proof.
  intros w Ha Hk. assert (Hok : held_ok (wk_held w)) by apply run_ok, start_ok.
  set (w0 := (worker_step w (Expect a)).1).
  assert (Hw0 : in_window a w0 [] w0).
  { constructor; [by apply expect_ok|done|]. unfold w0, expect. simpl. unfold expect. rewrite Ha. simpl.
    eexists. split; [apply lookup_insert_eq|]. left. split_and!; [done|done|]. intros [?|(before & u & after & E & _)].
    - unfold HELD_SESSION_UPDATES_PER_SESSION in *. simpl in *. lia.
    - by destruct before. }
  destruct (window_run a mid w0 Hk Hw0) as [Hw1 Hrec].
  assert (E0 : (run_worker (Expect a :: mid) w).2 = (run_worker mid w0).2).
  { change (run_worker (Expect a :: mid) w) with (let (w', more) := run_worker mid w0 in (w', [] ++ more)).
    by destruct (run_worker mid w0). }
  rewrite E0. split; [done|]. destruct (run_worker mid w0) as [w1 calls]. simpl in Hw1 |- *.
  destruct (iw_held _ _ _ _ Hw1) as (s & Hs & Hcase). unfold take. rewrite Hs. simpl. exists (hs_updates s).
  split; [done|]. split; [|apply lookup_delete_eq]. destruct Hcase as [(_ & -> & ?)|(_ & -> & Ho)]; [by left|by right].
Qed.

(** A session that is open has its updates written at once. *)
Lemma open_session_passes w a u :
  hu_sessions (wk_held w) !! a = None -> recorded a (worker_step w (Notification a u)).2 = [u].
Proof. intros Ha. simpl. unfold hold. rewrite Ha. simpl. by rewrite bool_decide_true. Qed.
End windows.

Lemma held_updates_all_or_nothing_witness :
  let mid := [Notification "a" 1; Notification "b" 2; Expect "a"; Notification "a" 3]%Z%string in
  let w1 := (run_worker mid (worker_step worker_start (Expect "a")).1).1 in
  recorded "a" (worker_step w1 (Release "a" "local")).2 = [1; 3]
  /\ exists us, (worker_step w1 (Release "a" "local")).2
       = RememberLocal "a" "local" :: ((fun u => RecordUpdate "a" u []) <$> us) ++ [AckRelease "a"] /\ us = [1; 3].
Proof.
  intros mid w1. split; [vm_compute; reflexivity|].
  destruct (held_updates_all_or_nothing [] "a" mid "local" eq_refl) as (_ & us & E & [[Hus _]|[Hus _]] & _).
  - repeat constructor.
  - exists us. split; [exact E|]. rewrite Hus. vm_compute. reflexivity.
  - exfalso. rewrite Hus in E. vm_compute in E. discriminate E.
Defined.

(** The cap on all sessions: with 1024 updates held for four others, the first update
    of a fifth session overflows it, and its own release restores the room. *)
Example total_cap :
  let full := flat_map (fun b => Expect b :: repeat (Notification b 0%Z) 256) ["b"; "c"; "d"; "e"]%string in
  let w := (run_worker full worker_start).1 in
  recorded "a" (run_worker [Expect "a"; Notification "a" 1; Release "a" "l"]%Z%string w).2 = []
  /\ recorded "a" (run_worker [Release "b" "l"; Expect "a"; Notification "a" 1; Release "a" "l"]%Z%string w).2 = [1].
Proof. split; vm_compute; reflexivity. Qed.

(** ** Lanes: what is offered can be selected *)

Lemma in_dedup v l : v ∈ dedup l -> v ∈ l.
Proof.
  induction l as [|a l IH]; [done|]. destruct l as [|b l]; [done|]. cbn [dedup]. case_bool_decide as E; intros Hv.
  - apply list_elem_of_further. auto.
  - apply elem_of_cons in Hv as [->|Hv]; [apply list_elem_of_here|apply list_elem_of_further; auto].
Qed.
Lemma in_sorted_values v l : v ∈ sorted_values l -> v ∈ l.
Proof. intros Hv%in_dedup. by rewrite merge_sort_Permutation in Hv. Qed.

Lemma contains_value_in option v : v ∈ session_config_option_values option -> session_config_option_contains_value option v = true.
Proof. intros Hv. apply existsb_exists. exists v. split; [by apply list_elem_of_In|by apply bool_decide_eq_true]. Qed.

(** The identifier chosen is that of a select option of the lane which has the value. *)
Definition selects (options : list SessionConfigOption) (c : AgentSessionConfigCategory) (value id : string) : Prop :=
  exists option, option ∈ options /\ op_id option = id /\ is_select option = true /\ in_lane c option = true
    /\ session_config_option_contains_value option value = true.

Lemma config_id_sound options c value id : config_id_for_value options c value = Ok id -> selects options c value id.
Proof.
  induction options as [|o options IH]; [done|]. cbn [config_id_for_value].
  destruct (is_select o) eqn:Es; simpl; [destruct (in_lane c o) eqn:El; simpl;
    [destruct (session_config_option_contains_value o value) eqn:Ev|]|];
    try (intros (o' & Ho' & H)%IH; exists o'; split; [by apply list_elem_of_further|exact H]).
  intros [= <-]. exists o. split; [apply list_elem_of_here|done].
Qed.

Lemma first_in_lane_sound options c o :
  first_in_lane options c = Ok o -> o ∈ options /\ is_select o = true /\ in_lane c o = true.
Proof.
  induction options as [|o' options IH]; [done|]. cbn [first_in_lane].
  destruct (is_select o') eqn:Es; simpl; [destruct (in_lane c o') eqn:El|]; try (intros [? ?]%IH; split; [by apply list_elem_of_further|done]).
  intros [= <-]. split; [apply list_elem_of_here|done].
Qed.

Lemma config_id_complete options c value id : selects options c value id -> exists id', config_id_for_value options c value = Ok id'.
Proof.
  intros (o & Ho & _ & Hs & Hl & Hv). 
  induction options as [|o' options IH]; [by apply elem_of_nil in Ho|]. cbn [config_id_for_value].
  apply elem_of_cons in Ho as [->|Ho]; [rewrite Hs, Hl, Hv; by eexists|].
  destruct (is_select o'); simpl; [destruct (in_lane c o' && _); [by eexists|]|]; exact (IH Ho).
Qed.

Lemma config_values_selectable options c values value :
  session_config_values options c = Ok values -> value ∈ values ->
  exists opts id, options = Some opts /\ session_config_id_for_value options c value = Ok id /\ selects opts c value id.
Proof.
  unfold session_config_values, find_config_option. destruct options as [opts|]; [|done].
  destruct (first_in_lane opts c) as [o|] eqn:E; [|done]. simpl. intros [= <-] Hv%in_sorted_values.
  destruct (first_in_lane_sound _ _ _ E) as (Ho & Hs & Hl).
  destruct (config_id_complete opts c value (op_id o)) as [id Hid].
  { exists o. repeat split; try done. by apply contains_value_in. }
  exists opts, id. split_and!; [done|exact Hid|by apply config_id_sound].
Qed.

(** What selecting a mode stands on: an option of the lane, or the protocol's own list. *)
Definition mode_selection_stands (r : NewSessionResponse) (value : string) (s : AgentSessionModeSelection) : Prop :=
  match s with
  | ConfigOption id => exists opts, nr_config_options r = Some opts /\ selects opts Mode value id
  | NativeMode mode_id => mode_id = value /\ exists modes, nr_modes r = Some modes /\ value ∈ sm_available modes
  end.

Lemma mode_selection_sound r value s : session_mode_selection_for_value r value = Ok s -> mode_selection_stands r value s.
Proof.
  unfold session_mode_selection_for_value. destruct (session_config_values (nr_config_options r) Mode) as [vs|e].
  - unfold session_config_id_for_value. destruct (nr_config_options r) as [opts|] eqn:Er; [|done].
    destruct (config_id_for_value opts Mode value) as [id|] eqn:E; [|done]. intros [= <-]. exists opts. split; [done|].
    by apply config_id_sound.
  - destruct (nr_modes r) as [modes|] eqn:E; [|done]. destruct (existsb _ _) eqn:Ex; [|done]. intros [= <-].
    apply existsb_exists in Ex as (m & Hm%list_elem_of_In & ->%bool_decide_eq_true). split; [done|]. by exists modes.
Qed.

(** Whatever the advertised mode list offers can be selected, and what the selection
    stands on is real: a select option of the lane that has the value, or the
    protocol's own mode of that name. The same lookup answers for models. *)
Theorem offered_values_selectable r values value :
  session_mode_values r = Ok values -> value ∈ values ->
  exists s, session_mode_selection_for_value r value = Ok s /\ mode_selection_stands r value s.
Proof.
  intros Hvs Hv. cut (exists s, session_mode_selection_for_value r value = Ok s).
  { intros [s Hs]. exists s. split; [done|]. by apply mode_selection_sound. }
  revert Hvs. unfold session_mode_values, session_mode_selection_for_value.
  destruct (session_config_values (nr_config_options r) Mode) as [vs|e] eqn:E.
  - intros [= <-]. destruct (config_values_selectable _ _ _ _ E Hv) as (opts & id & _ & -> & _). by eexists.
  - destruct (nr_modes r) as [modes|]; [|done]. intros [= <-]. apply in_sorted_values in Hv. exists (NativeMode value).
    rewrite (proj2 (existsb_exists _ _)); [done|]. exists value. split; [by apply list_elem_of_In|by apply bool_decide_eq_true].
Qed.

Lemma offered_values_selectable_witness :
  let r := mkResponse None (Some (mkModes ["plan"; "code"; "plan"]%string "code")) in
  session_mode_values r = Ok ["code"; "plan"]%string
  /\ exists s, session_mode_selection_for_value r "plan" = Ok s /\ mode_selection_stands r "plan" s.
Proof.
  intros r. split; [vm_compute; reflexivity|].
  apply (offered_values_selectable r ["code"; "plan"]%string); [vm_compute; reflexivity|].
  apply list_elem_of_further, list_elem_of_here.
Defined.

(** A model that is offered is selectable too. *)
Lemma offered_models_selectable r values value :
  session_model_values r = Ok values -> value ∈ values -> exists id, session_model_selection_for_value r value = Ok id.
Proof.
  unfold session_model_values, session_model_selection_for_value. intros E Hv.
  destruct (config_values_selectable _ _ _ _ E Hv) as (opts & id & -> & -> & _). by eexists.
Qed.

(** The snapshot stored for a select option lists the values the lanes read. *)
Lemma snapshot_lists_values text o s :
  project_config_option text o = Some s -> is_select o = true ->
  exists choices, os_options s = Some choices /\ so_value <$> choices = session_config_option_values o.
Proof.
  unfold project_config_option, is_select, session_config_option_values, session_config_option_choices.
  destruct (op_kind o) as [current [options|groups|]|current|]; try done; intros [= <-] _; eexists; (split; [done|]).
  - by rewrite <- list_fmap_compose.
  - by rewrite <- (list_fmap_compose (fun x => (so_value x, so_name x)) fst).
Qed.

(** Approval without a person never picks a rejecting option. *)
Lemma auto_approval_allows options id :
  auto_approve_acp_permission options = OutcomeSelected id ->
  exists o, o ∈ options /\ po_id o = id /\ (po_kind o = AllowOnce \/ po_kind o = AllowAlways).
Proof.
  unfold auto_approve_acp_permission, allow_kind_option.
  destruct (find _ options) as [o|] eqn:E1; [|destruct (find _ options) as [o|] eqn:E2 in |- *; [|done]]; intros [= <-]; exists o.
  - apply find_some in E1 as [Ho Hk%bool_decide_eq_true]. split; [by apply list_elem_of_In|]. by auto.
  - apply find_some in E2 as [Ho Hk%bool_decide_eq_true]. split; [by apply list_elem_of_In|]. by auto.
Qed.

(** The metadata written for a prompt and for a fork point read back. *)
Lemma prompt_meta_reads_back m : meta_message_id (Some (prompt_message_id_meta m)) = Some m.
Proof. reflexivity. Qed.
Lemma fork_meta_reads_back m : air_fork_point_message_id (Some (air_fork_point_meta m)) = Some m.
Proof. reflexivity. Qed.

(** ** Replays in flight *)

Definition counts_ok (c : gmap string Z) : Prop := map_Forall (fun _ n => 0 < n) c.
Definition count (a : string) (c : gmap string Z) : Z := default 0 (c !! a).

Lemma add_count a b (c : gmap string Z) : count b (add a c) = count b c + (if bool_decide (a = b) then 1 else 0).
Proof.
  unfold count, add, SessionCounts in *. case_bool_decide as E; [subst; by rewrite lookup_insert_eq|]. rewrite lookup_insert_ne by done. lia.
Qed.
Lemma add_counts_ok a c : counts_ok c -> counts_ok (add a c).
Proof.
  intros Hc. apply map_Forall_insert_2; [|done]. destruct (c !! a) as [n|] eqn:E; simpl; [|lia]. specialize (Hc _ _ E). simpl in Hc. lia.
Qed.
Lemma remove_counts_ok a c : counts_ok c -> counts_ok (remove a c).
Proof.
  intros Hc. unfold remove. destruct (c !! a) as [n|] eqn:E; [|done]. specialize (Hc _ _ E) as Hn. simpl in Hn.
  destruct (n - 1 =? 0) eqn:E0; [by apply map_Forall_delete|]. apply map_Forall_insert_2; [|done]. lia.
Qed.
Lemma remove_count a b (c : gmap string Z) :
  counts_ok c -> 0 < count a c -> count b (remove a c) = count b c - (if bool_decide (a = b) then 1 else 0).
Proof.
  unfold SessionCounts in *. intros Hc. unfold count, remove. intros Hn.
  destruct (c !! a) as [n|] eqn:E; simpl in Hn; [|lia].
  case_bool_decide as Eab; [rewrite <- Eab, E|]; destruct (n - 1 =? 0) eqn:E0; simpl.
  - rewrite lookup_delete_eq. simpl. lia.
  - rewrite lookup_insert_eq. done.
  - rewrite lookup_delete_ne by done. lia.
  - rewrite lookup_insert_ne by done. lia.
Qed.
Lemma contains_count a c : counts_ok c -> contains a c = true <-> 0 < count a c.
Proof.
  intros Hc. unfold contains, count. rewrite bool_decide_eq_true. destruct (c !! a) as [n|] eqn:E; simpl.
  - specialize (Hc _ _ E). simpl in Hc. split; [lia|by eexists].
  - split; [by intros []|lia].
Qed.

Section replays.
Context {U : Type}.

(** Replays started less replays ended. *)
Definition replay_delta (a : string) (item : SessionQueueItem U) : Z :=
  match item with
  | AttachStart a' true => if bool_decide (a' = a) then 1 else 0
  | AttachEnd a' true _ => if bool_decide (a' = a) then -1 else 0
  | _ => 0
  end.
Definition replays (a : string) (items : list (SessionQueueItem U)) : Z := foldr (fun item n => replay_delta a item + n) 0 items.

Lemma replays_snoc a items item : replays a (items ++ [item]) = replays a items + replay_delta a item.
Proof. induction items as [|x items IH]; simpl; lia. Qed.

(** While no replay ends that was not started, the sessions reported to the sink as
    replaying are those with a replay in flight. *)
Lemma replaying_exact items :
  (forall pre, pre `prefix_of` items -> forall a, 0 <= replays a pre) ->
  let c := wk_replaying (run_worker items worker_start).1 in
  counts_ok c /\ (forall a, count a c = replays a items) /\ (forall a, contains a c = true <-> 0 < replays a items).
Proof.
  intros Hb. cut (counts_ok (wk_replaying (run_worker items worker_start).1)
                  /\ forall a, count a (wk_replaying (run_worker items worker_start).1) = replays a items).
  { intros [Hc Hn]. split; [done|]. split; [done|]. intros a. rewrite <- Hn. by apply contains_count. }
  induction items as [|item items IH] using rev_ind; [by split|].
  destruct (run_snoc items item worker_start) as [-> _].
  destruct IH as [Hc Hn]; [intros pre Hp; apply Hb; by apply prefix_app_r|].
  specialize (Hb _ (reflexivity (items ++ [item]))).
  destruct (run_worker items worker_start) as [w calls]. simpl in Hc, Hn |- *.
  destruct item as [a u|a|a local|a|a []|a [] ok]; simpl;
    repeat match goal with
           | |- context [hold ?a ?u ?h] => destruct (hold a u h) as [? []]
           | |- context [take ?a ?h] => destruct (take a h) as [[? ?]|]
           end; simpl;
    try (split; [done|]; intros b; rewrite replays_snoc, Hn; simpl; lia).
  - split; [by apply add_counts_ok|]. intros b. by rewrite replays_snoc, add_count, Hn.
  - specialize (Hb a). rewrite replays_snoc in Hb. simpl in Hb. rewrite bool_decide_true in Hb by done.
    split; [by apply remove_counts_ok|]. intros b. rewrite replays_snoc, remove_count, Hn; [|done|rewrite Hn; lia].
    simpl. case_bool_decide; lia.
Qed.
End replays.
