(* ===== verification/SessionLocks.v ===== *)
(** The per-session locks of submission and cancel
    (src/src/runtime/agent/supervisor/session_locks.rs): a map from a session to a
    mutex with a count of leases, entered on first use and removed with the last
    lease. Every call steps from its lease through the mutex to the drop of guard and
    lease; a waiter can be dropped. The theorems discharge what [Supervisor.lock_free]
    takes for granted: the map behaves as one mutex per session, and holds an entry
    only for sessions with a call in progress. *)

From S2P Require Import Prelude.

(** ** Data *)

(** A mutex is known by the number it was created under. *)
Record SessionLockEntry := mkEntry { en_lock : nat; en_leases : nat }.

(** A guard's fields drop in order: [LkReleased] has let go of the mutex and still
    holds its lease. *)
Inductive LockPhase := LkWaiting (lock : nat) | LkHeld (lock : nat) | LkReleased | LkGone.
Record LockCall := mkCall { ca_session : string; ca_phase : LockPhase }.
Record SessionLocks := mkLocks { lk_entries : gmap string SessionLockEntry; lk_next : nat; lk_calls : list LockCall }.
Definition locks_default : SessionLocks := mkLocks ∅ 0 [].

Definition leased (p : LockPhase) : bool := match p with LkGone => false | _ => true end.
Definition holds (lock : nat) (p : LockPhase) : bool := match p with LkHeld l => bool_decide (l = lock) | _ => false end.
Definition holding (p : LockPhase) : bool := match p with LkHeld _ => true | _ => false end.

(** ** Operations *)

(** The first half of [lock]: the entry is found or made, and its leases counted, under
    one lock of the map. *)
Definition lease (session_id : string) (s : SessionLocks) : SessionLocks :=
  let (entry, next) :=
    match lk_entries s !! session_id with
    | Some e => (e, lk_next s)
    | None => (mkEntry (lk_next s) 0, S (lk_next s))
    end in
  mkLocks (<[session_id := mkEntry (en_lock entry) (S (en_leases entry))]> (lk_entries s)) next
    (lk_calls s ++ [mkCall session_id (LkWaiting (en_lock entry))]).

Definition set_phase (i : nat) (c : LockCall) (p : LockPhase) (s : SessionLocks) : SessionLocks :=
  mkLocks (lk_entries s) (lk_next s) (<[i := mkCall (ca_session c) p]> (lk_calls s)).

(** [lock_owned]: the mutex is granted to one waiter at a time. *)
Definition acquire (i : nat) (s : SessionLocks) : option SessionLocks :=
  match lk_calls s !! i with
  | Some (mkCall _ (LkWaiting lock) as c) =>
      if existsb (fun c => holds lock (ca_phase c)) (lk_calls s) then None else Some (set_phase i c (LkHeld lock) s)
  | _ => None
  end.

(** The mutex is let go of, or the waiter gives up. *)
Definition release (i : nat) (s : SessionLocks) : option SessionLocks :=
  match lk_calls s !! i with
  | Some (mkCall _ (LkWaiting _ | LkHeld _) as c) => Some (set_phase i c LkReleased s)
  | _ => None
  end.

(** [SessionLockLease::drop]. *)
Definition drop_entry (session_id : string) (entries : gmap string SessionLockEntry) : gmap string SessionLockEntry :=
  match entries !! session_id with
  | None => entries
  | Some e =>
      let leases := (en_leases e - 1)%nat in
      if bool_decide (leases = 0%nat) then delete session_id entries else <[session_id := mkEntry (en_lock e) leases]> entries
  end.
Definition drop_lease (i : nat) (s : SessionLocks) : option SessionLocks :=
  match lk_calls s !! i with
  | Some (mkCall sid LkReleased as c) => Some (mkLocks (drop_entry sid (lk_entries s)) (lk_next s) (<[i := mkCall sid LkGone]> (lk_calls s)))
  | _ => None
  end.

Inductive lock_step : SessionLocks -> SessionLocks -> Prop :=
| step_lease s sid : lock_step s (lease sid s)
| step_acquire s i s' : acquire i s = Some s' -> lock_step s s'
| step_release s i s' : release i s = Some s' -> lock_step s s'
| step_drop s i s' : drop_lease i s = Some s' -> lock_step s s'.

(** ** Counting leases *)

Definition leases (sid : string) (calls : list LockCall) : nat :=
  length (filter (fun c => ca_session c = sid /\ leased (ca_phase c) = true) calls).

Lemma leases_snoc sid calls c :
  leases sid (calls ++ [c]) = (leases sid calls + (if bool_decide (ca_session c = sid /\ leased (ca_phase c) = true) then 1 else 0))%nat.
Proof. unfold leases. rewrite filter_app, length_app, filter_cons. case_decide; case_bool_decide; simpl; tauto || lia. Qed.
Lemma leases_insert sid calls i c c' :
  calls !! i = Some c ->
  (leases sid (<[i := c']> calls) + (if bool_decide (ca_session c = sid /\ leased (ca_phase c) = true) then 1 else 0)
   = leases sid calls + (if bool_decide (ca_session c' = sid /\ leased (ca_phase c') = true) then 1 else 0))%nat.
Proof.
  intros Hi. assert (Hlt : (i < length calls)%nat) by by eapply lookup_lt_Some.
  rewrite <- (take_drop_middle calls i c Hi) at 2. rewrite insert_take_drop by done. unfold leases. rewrite !filter_app, !filter_cons, !length_app.
  repeat case_decide; repeat case_bool_decide; simpl; tauto || lia.
Qed.
Lemma leases_pos sid calls i c :
  calls !! i = Some c -> ca_session c = sid -> leased (ca_phase c) = true -> (0 < leases sid calls)%nat.
Proof.
  intros Hi Hs Hl. unfold leases. assert (Hin : c ∈ filter (fun c => ca_session c = sid /\ leased (ca_phase c) = true) calls).
  { apply list_elem_of_filter. split; [done|]. by eapply list_elem_of_lookup_2. }
  destruct (filter _ calls); [by apply elem_of_nil in Hin|simpl; lia].
Qed.
Lemma leases_found sid calls : (0 < leases sid calls)%nat -> exists i c, calls !! i = Some c /\ ca_session c = sid /\ leased (ca_phase c) = true.
Proof.
  unfold leases. destruct (filter _ calls) as [|c l] eqn:E; simpl; [lia|]. intros _.
  assert (Hin : c ∈ filter (fun c => ca_session c = sid /\ leased (ca_phase c) = true) calls) by (rewrite E; by left).
  apply list_elem_of_filter in Hin as [[Hs Hl] [i Hi]%list_elem_of_lookup_1]. by exists i, c.
Qed.

(** ** The invariant *)

Record locks_ok (s : SessionLocks) : Prop := mkOk {
  lo_count : forall sid, match lk_entries s !! sid with
                         | Some e => en_leases e = leases sid (lk_calls s) /\ (0 < en_leases e)%nat
                         | None => leases sid (lk_calls s) = 0%nat
                         end;
  lo_lock : forall i c l, lk_calls s !! i = Some c -> ca_phase c = LkWaiting l \/ ca_phase c = LkHeld l ->
    en_lock <$> lk_entries s !! ca_session c = Some l;
  lo_fresh : forall sid e, lk_entries s !! sid = Some e -> (en_lock e < lk_next s)%nat;
  lo_distinct : forall sid sid' e e', lk_entries s !! sid = Some e -> lk_entries s !! sid' = Some e' -> en_lock e = en_lock e' -> sid = sid';
  lo_one : forall i j c c' l, lk_calls s !! i = Some c -> lk_calls s !! j = Some c' -> ca_phase c = LkHeld l -> ca_phase c' = LkHeld l -> i = j;
}.

Lemma calls_insert (calls : list LockCall) i c j x :
  <[i := c]> calls !! j = Some x -> j = i /\ x = c \/ j <> i /\ calls !! j = Some x.
Proof.
  intros H. destruct (decide (j = i)) as [->|Hne]; [|right; by rewrite list_lookup_insert_ne in H].
  left. by apply list_lookup_insert_Some in H as [(_ & <- & _)|[? _]].
Qed.

(** A call that keeps its lease. *)
Lemma ok_set_phase s i c p :
  locks_ok s -> lk_calls s !! i = Some c -> leased (ca_phase c) = true -> leased p = true ->
  (forall l, p = LkWaiting l \/ p = LkHeld l -> ca_phase c = LkWaiting l \/ ca_phase c = LkHeld l) ->
  (forall l, p = LkHeld l -> forall j x, lk_calls s !! j = Some x -> ca_phase x <> LkHeld l) ->
  locks_ok (set_phase i c p s).
Proof.
  intros [O1 O2 O3 O4 O5] Hi Hl Hp Hlock Hone. constructor; simpl; try done.
  - intros sid. pose proof (leases_insert sid (lk_calls s) i c (mkCall (ca_session c) p) Hi) as E. simpl in E. rewrite Hl, Hp in E.
    replace (leases sid (<[i := mkCall (ca_session c) p]> (lk_calls s))) with (leases sid (lk_calls s)) by lia. apply O1.
  - intros j x l [[-> ->]|[_ Hj]]%calls_insert H; [by apply (O2 i c l Hi), Hlock|by apply (O2 j x l Hj)].
  - intros j k x y l [[-> ->]|[Hj Hx]]%calls_insert [[-> ->]|[Hk Hy]]%calls_insert E1 E2; [done| | |by eapply O5].
    + by destruct (Hone l E1 k y Hy).
    + by destruct (Hone l E2 j x Hx).
Qed.

Lemma ok_lease s sid : locks_ok s -> locks_ok (lease sid s).
Proof.
  intros [O1 O2 O3 O4 O5]. unfold lease.
  set (entry := match lk_entries s !! sid with Some e => (e, lk_next s) | None => (mkEntry (lk_next s) 0, S (lk_next s)) end).
  assert (Hlk : forall sid', sid' <> sid -> forall e, lk_entries s !! sid' = Some e -> en_lock e <> en_lock entry.1).
  { intros sid' Hne e He. unfold entry. destruct (lk_entries s !! sid) as [e0|] eqn:E0; simpl; [intros E; apply Hne; by eapply O4|].
    specialize (O3 _ _ He). lia. }
  assert (Hnext : (en_lock entry.1 < entry.2)%nat /\ (lk_next s <= entry.2)%nat).
  { unfold entry. destruct (lk_entries s !! sid) as [e0|] eqn:E0; simpl; [specialize (O3 _ _ E0)|]; lia. }
  assert (Hn : en_leases entry.1 = leases sid (lk_calls s)).
  { unfold entry. specialize (O1 sid). destruct (lk_entries s !! sid); simpl; [by destruct O1|done]. }
  assert (Hold : forall i c l, lk_calls s !! i = Some c -> ca_phase c = LkWaiting l \/ ca_phase c = LkHeld l ->
    ca_session c = sid -> en_lock entry.1 = l).
  { intros i c l Hi Hp <-. specialize (O2 i c l Hi Hp). unfold entry. destruct (lk_entries s !! ca_session c); [|done]. by injection O2. }
  clearbody entry. destruct entry as [e next]. simpl in *. constructor; simpl.
  - intros sid'. rewrite leases_snoc. simpl. destruct (decide (sid' = sid)) as [->|Hne].
    + rewrite lookup_insert_eq, bool_decide_true by done. simpl. lia.
    + rewrite lookup_insert_ne by done. rewrite bool_decide_false by (intros [? _]; done). rewrite Nat.add_0_r. apply O1.
  - intros i c l Hi Hp. apply lookup_app_Some in Hi as [Hi|[_ Hi]].
    + destruct (decide (ca_session c = sid)) as [E|Hne]; [rewrite E, lookup_insert_eq; simpl; f_equal; by eapply Hold|].
      rewrite lookup_insert_ne by done. by eapply O2.
    + apply list_lookup_singleton_Some in Hi as [_ <-]. simpl in *. rewrite lookup_insert_eq. simpl. destruct Hp as [[= ->]|?]; done.
  - intros sid' e'. destruct (decide (sid' = sid)) as [->|Hne]; [rewrite lookup_insert_eq; intros [= <-]; simpl; lia|].
    rewrite lookup_insert_ne by done. intros He%O3. lia.
  - intros s1 s2 e1 e2 H1 H2 E. apply lookup_insert_Some in H1 as [[<- <-]|[Hn1 H1]]; apply lookup_insert_Some in H2 as [[<- <-]|[Hn2 H2]]; simpl in *.
    + done.
    + by destruct (Hlk s2 ltac:(done) e2 H2).
    + by destruct (Hlk s1 ltac:(done) e1 H1).
    + by eapply O4.
  - intros i j c c' l Hi Hj Hp Hp'. apply lookup_app_Some in Hi as [Hi|[_ Hi]]; [|apply list_lookup_singleton_Some in Hi as [_ <-]; done].
    apply lookup_app_Some in Hj as [Hj|[_ Hj]]; [|apply list_lookup_singleton_Some in Hj as [_ <-]; done]. by eapply O5.
Qed.

Lemma drop_entry_sub sid entries sid' e' :
  drop_entry sid entries !! sid' = Some e' -> exists e, entries !! sid' = Some e /\ en_lock e' = en_lock e.
Proof.
  unfold drop_entry. destruct (entries !! sid) as [e|] eqn:E; [|by exists e']. case_bool_decide as Hz.
  - intros [_ H]%lookup_delete_Some. by exists e'.
  - intros [[<- <-]|[_ H]]%lookup_insert_Some; [by exists e|by exists e'].
Qed.
Lemma ok_drop s i sid :
  locks_ok s -> lk_calls s !! i = Some (mkCall sid LkReleased) ->
  locks_ok (mkLocks (drop_entry sid (lk_entries s)) (lk_next s) (<[i := mkCall sid LkGone]> (lk_calls s))).
Proof.
  intros [O1 O2 O3 O4 O5] Hi.
  assert (Hcnt : forall sid', (leases sid' (<[i := mkCall sid LkGone]> (lk_calls s)) + (if bool_decide (sid = sid') then 1 else 0))%nat = leases sid' (lk_calls s)).
  { intros sid'. pose proof (leases_insert sid' _ i _ (mkCall sid LkGone) Hi) as E. simpl in E. revert E.
    repeat case_bool_decide; destruct_and?; simplify_eq; try lia; tauto. }
  constructor; simpl.
  - intros sid'. specialize (Hcnt sid'). specialize (O1 sid'). unfold drop_entry. destruct (decide (sid = sid')) as [<-|Hne].
    + rewrite bool_decide_true in Hcnt by done. destruct (lk_entries s !! sid) as [e|] eqn:E; [|lia]. case_bool_decide; [rewrite lookup_delete_eq; lia|].
      rewrite lookup_insert_eq. simpl. lia.
    + rewrite bool_decide_false, Nat.add_0_r in Hcnt by done. rewrite Hcnt. destruct (lk_entries s !! sid) as [e|]; [|done].
      case_bool_decide; [by rewrite lookup_delete_ne|by rewrite lookup_insert_ne].
  - intros j x l [[-> ->]|[Hne Hj]]%calls_insert Hp; [by destruct Hp|]. specialize (O2 j x l Hj Hp).
    specialize (Hcnt (ca_session x)). specialize (O1 (ca_session x)). unfold drop_entry.
    destruct (lk_entries s !! sid) as [e|] eqn:E; [|done]. destruct (decide (sid = ca_session x)) as [Es|Hnx].
    + assert (Hj' : <[i := mkCall sid LkGone]> (lk_calls s) !! j = Some x) by by rewrite list_lookup_insert_ne.
      assert (Hpos := leases_pos (ca_session x) _ j x Hj' eq_refl ltac:(by destruct Hp as [-> | ->])).
      rewrite <- Es in *. rewrite bool_decide_true in Hcnt by done. rewrite E in O1, O2.
      rewrite bool_decide_false by lia. by rewrite lookup_insert_eq.
    + clear Hcnt. case_bool_decide; [by rewrite lookup_delete_ne|by rewrite lookup_insert_ne].
  - intros sid' e' (e & He & ->)%drop_entry_sub. by apply (O3 sid').
  - intros s1 s2 e1 e2 (e & He & ->)%drop_entry_sub (e' & He' & ->)%drop_entry_sub E. by eapply O4.
  - intros j k x y l [[-> ->]|[_ Hj]]%calls_insert [[-> ->]|[_ Hk]]%calls_insert E1 E2; try done. by eapply O5.
Qed.

Lemma lock_step_ok s s' : locks_ok s -> lock_step s s' -> locks_ok s'.
Proof.
  intros Hs Hst. destruct Hst as [s0 sid|s0 i s1 Hst|s0 i s1 Hst|s0 i s1 Hst]; [by apply ok_lease|revert Hst..].
  - unfold acquire. destruct (lk_calls s0 !! i) as [[sid [l|l| |]]|] eqn:Hi; try done.
    destruct (existsb _ (lk_calls s0)) eqn:E; [done|]. intros [= <-]. apply ok_set_phase; simpl; try done.
    + intros l' [?|[= ->]]; [done|]. by left.
    + intros l' [= ->] j x Hj Hx. assert (Ht : existsb (fun c => holds l' (ca_phase c)) (lk_calls s0) = true); [|congruence].
      apply existsb_exists. exists x. split; [apply list_elem_of_In; by eapply list_elem_of_lookup_2|]. rewrite Hx. simpl. by apply bool_decide_true.
  - unfold release. destruct (lk_calls s0 !! i) as [[sid [l|l| |]]|] eqn:Hi; try done; intros [= <-];
      (apply ok_set_phase; simpl; try done; by intros l' [?|?]).
  - unfold drop_lease. destruct (lk_calls s0 !! i) as [[sid [l|l| |]]|] eqn:Hi; try done. intros [= <-]. by apply ok_drop.
Qed.
Lemma locks_reachable_ok s : rtc lock_step locks_default s -> locks_ok s.
Proof.
  intros H. assert (H0 : locks_ok locks_default) by (constructor; simpl; done).
  assert (Hgen : forall s0, rtc lock_step s0 s -> locks_ok s0 -> locks_ok s) by (intros s0 Hr; induction Hr; eauto using lock_step_ok). eauto.
Qed.

(** A lock is held by no call exactly when its session is. *)
Lemma lock_held_iff s sid l :
  locks_ok s -> en_lock <$> lk_entries s !! sid = Some l ->
  (existsb (fun c => holds l (ca_phase c)) (lk_calls s) = false <->
   forall j c, lk_calls s !! j = Some c -> ca_session c = sid -> holding (ca_phase c) = false).
Proof.
  intros [O1 O2 O3 O4 O5] El. rewrite <- not_true_iff_false, existsb_exists. split.
  - intros Hn j [sid' p] Hj Hs. simpl in *. subst sid'. destruct p as [|l'| |]; try done. destruct Hn. exists (mkCall sid (LkHeld l')).
    split; [apply list_elem_of_In; by eapply list_elem_of_lookup_2|]. simpl. apply bool_decide_true.
    pose proof (O2 j _ l' Hj (or_intror eq_refl)) as El'. simpl in El'. congruence.
  - intros Hf ([sid' p] & Hin%list_elem_of_In & Hh). apply list_elem_of_lookup_1 in Hin as [j Hj]. destruct p as [|l'| |]; try done.
    simpl in Hh. apply bool_decide_eq_true in Hh as ->. pose proof (O2 j _ l Hj (or_intror eq_refl)) as El'. simpl in El'.
    destruct (lk_entries s !! sid) as [e|] eqn:E; [|done]. destruct (lk_entries s !! sid') as [e'|] eqn:E'; [|done].
    assert (sid = sid') as -> by (eapply O4; [done|done|]; simpl in *; congruence). by specialize (Hf j _ Hj eq_refl).
Qed.

(** C34. The map of session locks is one mutex per session, whatever calls come, wait,
    give up and let go meanwhile: two calls never hold the same session, a waiting call
    gets the lock exactly when no call holds that session (one on another session never
    stands in its way), and the map has an entry exactly for the sessions with a call in
    progress. *)
Theorem one_mutex_per_session s :
  rtc lock_step locks_default s ->
  (forall i j c c', lk_calls s !! i = Some c -> lk_calls s !! j = Some c' -> holding (ca_phase c) = true -> holding (ca_phase c') = true ->
     ca_session c = ca_session c' -> i = j)
  /\ (forall i sid l, lk_calls s !! i = Some (mkCall sid (LkWaiting l)) ->
     (is_Some (acquire i s) <-> forall j c, lk_calls s !! j = Some c -> ca_session c = sid -> holding (ca_phase c) = false))
  /\ (forall sid, is_Some (lk_entries s !! sid) <-> exists i c, lk_calls s !! i = Some c /\ ca_session c = sid /\ leased (ca_phase c) = true).
Proof.
  intros Hok%locks_reachable_ok. pose proof Hok as [O1 O2 O3 O4 O5]. split_and!.
  - intros i j [sid p] [sid' p'] Hi Hj Hp Hp' E. simpl in *. subst sid'. destruct p as [|l| |], p' as [|l'| |]; try done.
    apply (O5 i j _ _ l Hi Hj); [done|]. simpl. f_equal. pose proof (O2 i _ l Hi (or_intror eq_refl)) as E1.
    pose proof (O2 j _ l' Hj (or_intror eq_refl)) as E2. simpl in *. congruence.
  - intros i sid l Hi. rewrite <- (lock_held_iff s sid l Hok (O2 i _ l Hi (or_introl eq_refl))). unfold acquire. rewrite Hi.
    destruct (existsb _ (lk_calls s)); split; [by intros [? ?]|done|done|by intros _; eexists].
  - intros sid. specialize (O1 sid). split.
    + intros [e He]. rewrite He in O1. apply leases_found. lia.
    + intros (i & c & Hi & Hs & Hl). pose proof (leases_pos sid _ i c Hi Hs Hl). destruct (lk_entries s !! sid); [by eexists|lia].
Qed.

(** One call holds a session and lets go, a second one waits for it, a third gave up,
    and another session is held meanwhile. *)
Definition demo_locks : SessionLocks :=
  mkLocks {[ "a"%string := mkEntry 0 2; "b"%string := mkEntry 1 1 ]} 2
    [mkCall "a" LkReleased; mkCall "a" (LkWaiting 0); mkCall "b" (LkHeld 1); mkCall "a" LkGone].
Lemma one_mutex_per_session_witness :
  is_Some (acquire 1 demo_locks) /\ forall sid, is_Some (lk_entries demo_locks !! sid) <->
    exists i c, lk_calls demo_locks !! i = Some c /\ ca_session c = sid /\ leased (ca_phase c) = true.
Proof.
  assert (Hr : rtc lock_step locks_default demo_locks).
  { eapply rtc_l; [apply (step_lease _ "a")|]. eapply rtc_l; [apply (step_acquire _ 0); reflexivity|].
    eapply rtc_l; [apply (step_lease _ "a")|]. eapply rtc_l; [apply (step_lease _ "b")|].
    eapply rtc_l; [apply (step_acquire _ 2); reflexivity|]. eapply rtc_l; [apply (step_lease _ "a")|].
    eapply rtc_l; [apply (step_release _ 3); reflexivity|]. eapply rtc_l; [apply (step_drop _ 3); reflexivity|].
    eapply rtc_l; [apply (step_release _ 0); reflexivity|]. vm_compute. apply rtc_refl. }
  destruct (one_mutex_per_session demo_locks Hr) as (_ & Ha & He). split; [|exact He].
  apply (Ha 1%nat "a"%string 0%nat eq_refl). intros [|[|[|[|j]]]] c Hc; simpl in Hc; simplify_eq; done.
Defined.
