(* ===== verification/Supervisor.v ===== *)
(** Prompt turns (src/src/runtime/agent/supervisor.rs and its modules prompts.rs,
    sessions.rs, parse.rs, session_locks.rs, bridge.rs): submission, the task that
    drives a turn, cancellation, the registry of turns in flight, and the stop that
    takes the agent away. Every handler is a record with its phase and steps from one
    await to the next; a dropped request can end at any await. The connection to the
    agent is an input: what it answers, and when. The rows and live events of the
    agent's own lifecycle are in tables that are not modelled. *)

From S2P Require Import Prelude Store SinkOutbox ChangeFeed SessionEvents PermissionService PromptStore SessionStore.
From S2P Require Import SubagentStore SessionQueries SessionSink AcpCodec.
Open Scope Z_scope.
Open Scope result_scope.

(** ** Outcomes of a turn *)

(** The errors of a turn, as far as its classification tells them apart. *)
Inductive TurnError :=
| InferenceRequestFailed (status_code : Z) (reason_category : string)
| AgentRequestFailed
| StateError | StateWriterStopped | StateAccessFailed
| AgentSpawnFailed | AgentAlreadyRunning | AgentNotRunning | AgentInitializeFailed | AgentNotInitialized
| AgentUnsupportedCapability | AgentApiRequest | AgentApiStatus | AgentTestFailed
| ServeIo | ServeBind
| OtherError (name : string).

Inductive FailureClass := FcAgentRequest | FcInference5xx | FcInference4xx | FcVm | FcSqlite | FcDaemon | FcAgentProcess | FcStalled.
Definition failure_class_str (c : FailureClass) : string :=
  match c with
  | FcAgentRequest => "agent_request"
  | FcInference5xx => "inference_5xx"
  | FcInference4xx => "inference_4xx"
  | FcVm => "vm"
  | FcSqlite => "sqlite"
  | FcDaemon => "daemon"
  | FcAgentProcess => "agent_process"
  | FcStalled => "stalled"
  end.

Definition failure_class_for_prompt_error (e : TurnError) : option FailureClass :=
  match e with
  | AgentRequestFailed => Some FcAgentRequest
  | StateError | StateWriterStopped | StateAccessFailed => Some FcSqlite
  | AgentSpawnFailed | AgentAlreadyRunning | AgentNotRunning | AgentInitializeFailed | AgentNotInitialized
  | AgentUnsupportedCapability | AgentApiRequest | AgentApiStatus | AgentTestFailed => Some FcAgentProcess
  | ServeIo | ServeBind => Some FcDaemon
  | _ => None
  end.

(** A stop reason of a newer protocol keeps its name. *)
Inductive StopReason := EndTurn | MaxTokens | MaxTurnRequests | Refusal | StopCancelled | OtherStop (lowercase_name : string).
#[export] Instance StopReason_eq_dec : EqDecision StopReason.
Proof. solve_decision. Defined.
Definition stop_reason_str (r : StopReason) : string :=
  match r with
  | EndTurn => "end_turn"
  | MaxTokens => "max_tokens"
  | MaxTurnRequests => "max_turn_requests"
  | Refusal => "refusal"
  | StopCancelled => "cancelled"
  | OtherStop name => name
  end.

Record Usage := mkUsage {
  us_total : Z; us_input : Z; us_output : Z; us_thought : option Z; us_cached_read : option Z; us_cached_write : option Z;
}.
Record PromptResponse := mkPromptResponse {
  pr_stop : StopReason; pr_usage : option Usage; pr_meta : option (list (string * Json));
}.

Inductive Outcome := Settled (r : result TurnError PromptResponse) | OutcomeTokenFired.
Definition replaces_stall (o : Outcome) : bool := match o with Settled _ => true | OutcomeTokenFired => false end.

Record TerminalSessionEvent := mkTerminalEvent {
  te_level : string; te_source : string; te_kind : string; te_message : string; te_payload : string;
}.
Record TerminalOutcome := mkTerminal {
  to_status : PromptStatus; to_stop_reason : option string; to_error_code : option string; to_error_message : option string;
  to_failure_class : option string; to_failure_detail : option string; to_session_event : option TerminalSessionEvent;
}.

Definition EVENT_KIND_PROMPT_ERRORED : string := "prompt.errored".
Definition EVENT_KIND_PROMPT_INFERENCE_FAILED : string := "prompt.inference_failed".
Definition EVENT_KIND_PROMPT_USAGE_REPORTED : string := "prompt.usage_reported".
Definition EVENT_KIND_PROMPT_STALL_RESOLVED : string := "prompt.stall_resolved".
Definition EVENT_KIND_SESSION_CANCEL_REQUESTED : string := "session.cancel_requested".
Definition EVENT_KIND_MCP_SESSION_SKIPPED : string := "mcp.session_skipped".
Definition USER_PROMPT_EVENT_MESSAGE : string := "user prompt accepted".

Definition opt_json {A} (f : A -> Json) (o : option A) : Json := match o with Some a => f a | None => JsNull end.

Section outcomes.
(** [serde_json]'s printer, and an error's stable code and scrubbed text. *)
Context (print_json : Json -> string) (error_code public_message : TurnError -> string).

Definition prompt_outcome_payload (prompt_id : string) (status : PromptStatus) (stop_reason error_code : option string) : string :=
  print_json (JsObject [("prompt_id", JsString prompt_id); ("status", JsString (prompt_status_str status));
    ("stop_reason", opt_json JsString stop_reason); ("error_code", opt_json JsString error_code)]%string).

Definition settlement (t : TerminalOutcome) : PromptSettlement :=
  mkSettlement (to_status t) (to_stop_reason t) (to_error_code t) (to_error_message t) (to_failure_class t) (to_failure_detail t).
Definition outcome_payload (t : TerminalOutcome) (prompt_id : string) : string :=
  prompt_outcome_payload prompt_id (to_status t) (to_stop_reason t) (to_error_code t).
Definition stall_resolved_event (t : TerminalOutcome) (prompt_id : string) : TerminalSessionEvent :=
  mkTerminalEvent "info" EVENT_SOURCE_SYSTEM EVENT_KIND_PROMPT_STALL_RESOLVED "prompt stall resolved" (outcome_payload t prompt_id).
Definition settled_event (t : TerminalOutcome) (prompt_id : string) : TerminalSessionEvent :=
  mkTerminalEvent "info" EVENT_SOURCE_SYSTEM EVENT_KIND_PROMPT_SETTLED PROMPT_SETTLED_EVENT_MESSAGE (outcome_payload t prompt_id).

Definition usage_reported_event (u : Usage) (prompt_id : option string) : TerminalSessionEvent :=
  let count (key : string) o := match o with Some n => [(key, JsInt n)] | None => [] end in
  let counts := [count "thought_tokens" (us_thought u); count "cached_read_tokens" (us_cached_read u);
                 count "cached_write_tokens" (us_cached_write u)]%string in
  mkTerminalEvent "info" EVENT_SOURCE_ACP EVENT_KIND_PROMPT_USAGE_REPORTED "agent turn usage reported"
    (print_json (JsObject (concat
       ([("prompt_id", opt_json JsString prompt_id); ("total_tokens", JsInt (us_total u));
         ("input_tokens", JsInt (us_input u)); ("output_tokens", JsInt (us_output u))]%string :: counts)))).

Definition errored_event (e : TurnError) (prompt_id : option string) : TerminalSessionEvent :=
  mkTerminalEvent "error" EVENT_SOURCE_SYSTEM EVENT_KIND_PROMPT_ERRORED "prompt failed"
    (print_json (JsObject [("prompt_id", opt_json JsString prompt_id); ("error_code", JsString (error_code e));
        ("cause", JsString (public_message e))]%string)).

Definition build_terminal_outcome_with_prompt_id (o : Outcome) (prompt_id : option string) : TerminalOutcome :=
  match o with
  | Settled (Ok r) =>
      mkTerminal (if bool_decide (pr_stop r = StopCancelled) then PCancelled else PCompleted) (Some (stop_reason_str (pr_stop r)))
        None None None None ((fun u => usage_reported_event u prompt_id) <$> pr_usage r)
  | Settled (Err (InferenceRequestFailed status category as e)) =>
      let class := if (400 <=? status) && (status <? 500) then FcInference4xx else FcInference5xx in
      mkTerminal PErrored None (Some (error_code e)) (Some (public_message e)) (Some (failure_class_str class))
        (Some (print_json (JsObject [("status_code", JsInt status); ("reason_category", JsString category)]%string)))
        (Some (mkTerminalEvent "warn" EVENT_SOURCE_SYSTEM EVENT_KIND_PROMPT_INFERENCE_FAILED "inference endpoint failure"
          (print_json (JsObject [("prompt_id", opt_json JsString prompt_id); ("status_code", JsInt status);
             ("reason_category", JsString category); ("cause", JsString (public_message e))]%string))))
  | Settled (Err e) =>
      mkTerminal PErrored None (Some (error_code e)) (Some (public_message e))
        (failure_class_str <$> failure_class_for_prompt_error e) None (Some (errored_event e prompt_id))
  | OutcomeTokenFired => mkTerminal PCancelled (Some "cancelled"%string) None None None None None
  end.
End outcomes.

(** ** Jobs *)

Inductive SupervisorError :=
| NotRunning
| StateFailed (e : option StackError)
| NoSuchSession (id : string)
| SessionIsClosed (id : string)
| SubagentRestricted (id : string)
| PromptInFlight (session_id : string)
| ReattachUnsupported (id : string)
| McpUnavailable | CwdInvalid | McpRejected
| BridgeFailed
| NotCancelled (verdict : string)
| SubagentCancelUnavailable (id : string).

(** One read of both tables: a subagent's session is refused. *)
Definition lookup_client_session (session_id : string) (st : Store) : result SupervisorError (option SessionRow) :=
  match get_subagent session_id st with Some _ => Err (SubagentRestricted session_id) | None => Ok (get_session session_id st) end.
Definition reject_closed_session (s : SessionRow) : result SupervisorError unit :=
  if bool_decide (s_status s = SESSION_STATUS_CLOSED) then Err (SessionIsClosed (s_id s)) else Ok tt.
Definition fetch_open_session (session_id : string) (st : Store) : result SupervisorError SessionRow :=
  let? looked := lookup_client_session session_id st in
  match looked with
  | None => Err (NoSuchSession session_id)
  | Some record => let? _ := reject_closed_session record in Ok record
  end.

(** The registered prompts whose row is there and not terminal. *)
Fixpoint live_rows (registered : list string) (st : Store) : result StackError (list string) :=
  match registered with
  | [] => Ok []
  | id :: rest =>
      match get_prompt id st with
      | None => live_rows rest st
      | Some record =>
          let? status := prompt_status_from_str (p_status record) in
          let? live := live_rows rest st in
          Ok (if terminal status then live else id :: live)
      end
  end.

(** One pass over the rows a cancel waits for; a slot keeps the status it saw. *)
Fixpoint poll_rows (ids : list string) (observed : list (option PromptStatus)) (st : Store)
  : result StackError (list (option PromptStatus)) :=
  match ids, observed with
  | id :: ids, Some status :: observed => let? rest := poll_rows ids observed st in Ok (Some status :: rest)
  | id :: ids, None :: observed =>
      match get_prompt id st with
      | None => Err (PromptNotFound id)
      | Some record =>
          let? status := prompt_status_from_str (p_status record) in
          let? rest := poll_rows ids observed st in
          Ok ((if terminal status then Some status else None) :: rest)
      end
  | _, _ => Ok []
  end.

Inductive CancelSettleVerdict := VerdictCancelled | SettledOtherwise | TimedOut.
Definition verdict_str (v : CancelSettleVerdict) : string :=
  match v with VerdictCancelled => "cancelled" | SettledOtherwise => "settled_otherwise" | TimedOut => "timed_out" end.
Definition cancel_settle_verdict (observed : list (option PromptStatus)) : CancelSettleVerdict :=
  if existsb (fun o => bool_decide (o = None)) observed then TimedOut
  else if forallb (fun o => bool_decide (o = Some PCancelled)) observed then VerdictCancelled
  else SettledOtherwise.

Inductive SessionAttachKind := AttachLoad | AttachResume.
Definition attach_event (kind : SessionAttachKind) : string * string :=
  match kind with AttachLoad => ("session.loaded", "session loaded") | AttachResume => ("session.resumed", "session resumed") end%string.

Inductive ForkPointDialect := AcpStackDialect | JetbrainsAir.

Definition PROMPT_ID_META_KEY : string := "promptId".
(** [ContentChunk]: the block, its message id, its [_meta]. *)
Record UserMessageChunk (Block : Type) := mkChunk { uc_content : Block; uc_message_id : string; uc_meta : list (string * Json) }.
Arguments mkChunk {Block}.

Section jobs.
Context (json_valid : string -> bool) (external : bool).
Context (print_json : Json -> string) (error_code public_message : TurnError -> string).
(** A content block of a prompt, and the protocol crate's printer for the
    [session/update] notification that carries a [user_message_chunk]. *)
Context {Block : Type} (print_notification : string -> UserMessageChunk Block -> option string).

Definition user_prompt_chunk_payload (agent_session_id message_id prompt_id : string) (content : Block) : option string :=
  print_notification agent_session_id
    (mkChunk content message_id [(ACP_STACK_META_KEY, JsObject [(PROMPT_ID_META_KEY, JsString prompt_id)])]).

Fixpoint append_user_prompt_events (session_id agent_session_id message_id prompt_id : string) (blocks : list Block)
    (ids : nat -> string) (now : string) : M unit :=
  match blocks with
  | [] => ret tt
  | block :: rest =>
      match user_prompt_chunk_payload agent_session_id message_id prompt_id block with
      | None => ret tt
      | Some payload =>
          attempt (append_session_event_with_source json_valid external session_id "info" PromptStore.EVENT_KIND_SESSION_UPDATE
            EVENT_SOURCE_SYSTEM USER_PROMPT_EVENT_MESSAGE payload (ids (length rest)) now)
      end ;;
      append_user_prompt_events session_id agent_session_id message_id prompt_id rest ids now
  end.

(** The row of a prompt and the user's side of its turn, in one job. *)
Definition submit_job (session_id agent_session_id message_id prompt_id prompt_json : string) (blocks : list Block)
    (ids : nat -> string) (now : string) : M PromptRecord :=
  let* record := insert_prompt_with_message_id json_valid external (mkNewPrompt prompt_id session_id prompt_json) (Some message_id) now in
  append_user_prompt_events session_id agent_session_id message_id prompt_id blocks ids now ;;
  ret record.

Definition append_mcp_skipped_event (session_id : string) (skipped : list Json) (id now : string) : M unit :=
  match skipped with
  | [] => ret tt
  | _ =>
      let* _ := append_session_event json_valid external session_id "warn" EVENT_KIND_MCP_SESSION_SKIPPED
                  "mcp servers skipped for session"
                  (print_json (JsObject [("session_id", JsString session_id); ("skipped", JsArray skipped)]%string)) id now in
      ret tt
  end.

(** What [attach_session] writes once the agent holds the session. *)
Definition attach_job (session_id agent_session_id cwd : string) (explicit_cwd : bool) (kind : SessionAttachKind) (skipped : list Json)
    (ids : nat -> string) (now : string) : M SessionRow :=
  (if explicit_cwd then update_session_status_and_cwd external session_id SESSION_STATUS_ACTIVE cwd now
   else update_session_status external session_id SESSION_STATUS_ACTIVE now) ;;
  attempt (append_mcp_skipped_event session_id skipped (ids 0%nat) now) ;;
  attempt (append_session_event json_valid external session_id "info" (attach_event kind).1 (attach_event kind).2
    (print_json (JsObject [("agent_session_id", JsString agent_session_id); ("cwd", JsString cwd)]%string)) (ids 1%nat) now) ;;
  let* row := gets (get_session session_id) in
  match row with Some row => ret row | None => fail (SessionNotFound session_id) end.

Fixpoint append_terminal_events (session_id : string) (events : list TerminalSessionEvent) (ids : nat -> string) (now : string) : M unit :=
  match events with
  | [] => ret tt
  | e :: rest =>
      attempt (append_session_event_with_source json_valid external session_id (te_level e) (te_kind e) (te_source e) (te_message e)
        (te_payload e) (ids (length rest)) now) ;;
      append_terminal_events session_id rest ids now
  end.

(** The settlement of a turn and its events, in one job. *)
Definition settle_job (prompt_id session_id : string) (o : Outcome) (ids : nat -> string) (now : string) : M unit :=
  let t := build_terminal_outcome_with_prompt_id print_json error_code public_message o (Some prompt_id) in
  let* settle := settle_prompt external prompt_id (settlement t) (replaces_stall o) now in
  let events before :=
    append_terminal_events session_id
      (before ++ match to_session_event t with Some e => [e] | None => [] end ++ [settled_event print_json t prompt_id])
      ids now in
  match settle with
  | Applied => events []
  | ReplacedStall => events [stall_resolved_event print_json t prompt_id]
  | AlreadyTerminal => ret tt
  end.

Definition cancel_requested_job (session_id agent_session_id id now : string) : M unit :=
  let* _ := append_session_event json_valid external session_id "info" EVENT_KIND_SESSION_CANCEL_REQUESTED "cancel requested"
              (print_json (JsObject [("agent_session_id", JsString agent_session_id)]%string)) id now in
  ret tt.

Fixpoint append_available_events (payload : string) (sessions : list string) (ids : nat -> string) (now : string) : M unit :=
  match sessions with
  | [] => ret tt
  | sid :: rest =>
      attempt (append_session_event_with_source json_valid external sid "info" "session.available" EVENT_SOURCE_SYSTEM
        "session available" payload (ids (length rest)) now) ;;
      append_available_events payload rest ids now
  end.

(** Every active session of the target becomes available. *)
Definition demote_sessions_on_agent_teardown (target_id reason : string) (ids : nat -> string) (now : string) : M unit :=
  let* demoted := reconcile_orphaned_sessions external (Some target_id) now in
  append_available_events (print_json (JsObject [("reason", JsString reason)]%string)) demoted ids now.
End jobs.

(** ** Handlers and turns *)

(** [AgentState]; a bridge is known by a number. *)
Inductive AgentState := AgStopped | AgStarting | AgRunning (bridge : nat) | AgStopping | AgUpdating.

(** The task of a turn: mark the row running, call the agent or see the token fire,
    drain the updates, acknowledge and anchor, settle. [TnEnded] is [is_finished],
    with whether the settlement was committed. *)
Inductive TurnPhase :=
| TnStart
| TnCalling
| TnOutcome (o : Outcome)
| TnDrained (o : Outcome)
| TnAcknowledged (o : Outcome)
| TnAnchor (o : Outcome) (agent_message_id : string)
| TnSettling (o : Outcome)
| TnEnded (settled : bool).
Record Turn := mkTurn {
  tn_session : string; tn_agent_session : string; tn_message_id : string; tn_bridge : nat; tn_dialect : ForkPointDialect;
  tn_token : bool; tn_phase : TurnPhase;
}.
Definition ended (t : Turn) : bool := match tn_phase t with TnEnded _ => true | _ => false end.

Inductive AttachPhase :=
| AtStart
| AtBridge (bridge : nat)
| AtRecord (bridge : nat) (record : SessionRow)
| AtCall (record : SessionRow) (cwd : string) (skipped : list Json)
| AtWrite (record : SessionRow) (cwd : string) (skipped : list Json).

Section world.
Context {Block : Type}.

Inductive SubmitPhase :=
| SbStart
| SbGate
| SbLocked
| SbBridge (bridge : nat)
| SbOpen (bridge : nat) (agent : string)
| SbReaped (bridge : nat) (agent : string)
| SbListed (bridge : nat) (agent : string) (registered : list string)
| SbFree (bridge : nat) (agent : string)
| SbTouch (bridge : nat) (agent : string)
| SbAttach (bridge : nat) (agent : string) (kind : SessionAttachKind) (phase : AttachPhase)
| SbReady (bridge : nat) (agent : string)
| SbDrained (bridge : nat) (agent : string)
| SbTaken (bridge : nat) (agent : string)
| SbInserted (bridge : nat) (agent message_id : string) (record : PromptRecord)
| SbSpawned (record : PromptRecord)
| SbRegistered (record : PromptRecord)
| SbAnswered (r : result SupervisorError PromptRecord)
| SbDropped.
Record Submit := mkSubmit {
  sb_session : string; sb_blocks : list Block; sb_prompt_json : string; sb_phase : SubmitPhase;
}.

Inductive CancelPhase :=
| CnStart
| CnGate
| CnLocked
| CnBridge
| CnListing (session : SessionRow)
| CnListed (session : SessionRow) (registered : list string)
| CnLive (session : SessionRow) (live : list string)
| CnSweep (session : SessionRow) (live : list string) (observed : list (option PromptStatus))
| CnPoll (session : SessionRow) (live : list string) (observed : list (option PromptStatus))
| CnForget (session : SessionRow) (live : list string)
| CnWrite (session : SessionRow)
| CnSubagent (session : SessionRow) (subagent : SubagentRecord)
| CnSubRoot (session : SessionRow) (subagent : SubagentRecord)
| CnSubCall (session : SessionRow)
| CnSubSweep (session : SessionRow)
| CnSubWrite (session : SessionRow)
| CnAnswered (r : result SupervisorError unit)
| CnDropped.
(** [cn_sent]: the prompts the notification was for, and the turns there were when it
    went out; kept for the statements below. *)
Record Cancel := mkCancel { cn_session : string; cn_phase : CancelPhase; cn_sent : option (list string * gset string) }.

Inductive StopAnswer := StopNotRunning | StopBlocked (blockers : list RestartBlockerRecord) | StopDone (ok : bool) | StopUnread.
Inductive StopPhase :=
| StStart
| StGate
| StChecked
| StTaken (bridge : nat)
| StFire (bridge : nat) (ids : list string)
| StWait (bridge : nat) (ids : list string)
| StShutdown (bridge : nat)
| StStopped (ok : bool)
| StAnswered (a : StopAnswer)
| StDropped.
Record Stop := mkStop { sp_target : string; sp_guarded : bool; sp_phase : StopPhase }.

(** [w_prompts] is the registry: the session of each handle; token and join handle are
    those of the turn of that id. [w_minted] holds the prompt ids drawn so far, and
    [w_abandoned] the turns whose submission was dropped before it registered them;
    nothing reads these two. *)
Record World := mkWorld {
  w_store : Store;
  w_agent : AgentState;
  w_bridges : nat;
  w_prompts : gmap string string;
  w_turns : gmap string Turn;
  w_submits : list Submit;
  w_cancels : list Cancel;
  w_stops : list Stop;
  w_minted : gset string;
  w_abandoned : gset string;
}.
Definition world_init (st : Store) : World := mkWorld st AgStopped 0 ∅ ∅ [] [] [] ∅ ∅.

Definition set_store (st : Store) (w : World) : World :=
  mkWorld st (w_agent w) (w_bridges w) (w_prompts w) (w_turns w) (w_submits w) (w_cancels w) (w_stops w) (w_minted w) (w_abandoned w).
Definition set_agent (a : AgentState) (w : World) : World :=
  mkWorld (w_store w) a (w_bridges w) (w_prompts w) (w_turns w) (w_submits w) (w_cancels w) (w_stops w) (w_minted w) (w_abandoned w).
Definition set_registry (m : gmap string string) (w : World) : World :=
  mkWorld (w_store w) (w_agent w) (w_bridges w) m (w_turns w) (w_submits w) (w_cancels w) (w_stops w) (w_minted w) (w_abandoned w).
Definition set_turns (m : gmap string Turn) (w : World) : World :=
  mkWorld (w_store w) (w_agent w) (w_bridges w) (w_prompts w) m (w_submits w) (w_cancels w) (w_stops w) (w_minted w) (w_abandoned w).
Definition set_submits (l : list Submit) (w : World) : World :=
  mkWorld (w_store w) (w_agent w) (w_bridges w) (w_prompts w) (w_turns w) l (w_cancels w) (w_stops w) (w_minted w) (w_abandoned w).
Definition set_cancels (l : list Cancel) (w : World) : World :=
  mkWorld (w_store w) (w_agent w) (w_bridges w) (w_prompts w) (w_turns w) (w_submits w) l (w_stops w) (w_minted w) (w_abandoned w).
Definition set_stops (l : list Stop) (w : World) : World :=
  mkWorld (w_store w) (w_agent w) (w_bridges w) (w_prompts w) (w_turns w) (w_submits w) (w_cancels w) l (w_minted w) (w_abandoned w).
Definition mint (id : string) (w : World) : World :=
  mkWorld (w_store w) (w_agent w) (w_bridges w) (w_prompts w) (w_turns w) (w_submits w) (w_cancels w) (w_stops w)
    ({[ id ]} ∪ w_minted w) (w_abandoned w).
Definition abandon (id : string) (w : World) : World :=
  mkWorld (w_store w) (w_agent w) (w_bridges w) (w_prompts w) (w_turns w) (w_submits w) (w_cancels w) (w_stops w) (w_minted w)
    ({[ id ]} ∪ w_abandoned w).

(** ** Guards

    A lock is held by the calls whose guard is alive: the read side of the gate and
    the session's lock from their acquisition until the call returns or, in a cancel
    of a session of its own, until the notification is out. *)

Definition submit_gate (p : SubmitPhase) : bool := match p with SbStart | SbAnswered _ | SbDropped => false | _ => true end.
Definition submit_lock (p : SubmitPhase) : bool := match p with SbStart | SbGate | SbAnswered _ | SbDropped => false | _ => true end.
Definition cancel_gate (p : CancelPhase) : bool :=
  match p with
  | CnGate | CnLocked | CnBridge | CnListing _ | CnListed _ _ | CnLive _ _ | CnSubagent _ _ | CnSubRoot _ _ | CnSubCall _
  | CnSubSweep _ | CnSubWrite _ => true
  | _ => false
  end.
Definition cancel_lock (p : CancelPhase) : bool := match p with CnGate => false | p => cancel_gate p end.
Definition stop_gate (p : StopPhase) : bool := match p with StStart | StAnswered _ | StDropped => false | _ => true end.

Definition gate_readable (w : World) : bool := forallb (fun s => negb (stop_gate (sp_phase s))) (w_stops w).
Definition gate_writable (w : World) : bool :=
  gate_readable w && forallb (fun s => negb (submit_gate (sb_phase s))) (w_submits w)
  && forallb (fun c => negb (cancel_gate (cn_phase c))) (w_cancels w).
Definition lock_free (session_id : string) (w : World) : bool :=
  forallb (fun s => negb (submit_lock (sb_phase s) && bool_decide (sb_session s = session_id))) (w_submits w)
  && forallb (fun c => negb (cancel_lock (cn_phase c) && bool_decide (cn_session c = session_id))) (w_cancels w).

(** ** The registry *)

Definition is_finished (w : World) (id : string) : bool := match w_turns w !! id with Some t => ended t | None => true end.
Definition registered_prompts_for_session (session_id : string) (w : World) : list string :=
  (filter (fun p => p.2 = session_id /\ is_finished w p.1 = false) (map_to_list (w_prompts w))).*1.
Definition reap_finished (w : World) : World := set_registry (filter (fun p => is_finished w p.1 = false) (w_prompts w)) w.
Definition forget_prompts (ids : list string) (w : World) : World :=
  set_registry (foldr (fun id m => delete id m) (w_prompts w) ids) w.

Definition with_phase (p : TurnPhase) (t : Turn) : Turn :=
  mkTurn (tn_session t) (tn_agent_session t) (tn_message_id t) (tn_bridge t) (tn_dialect t) (tn_token t) p.
Definition fire_token (t : Turn) : Turn :=
  mkTurn (tn_session t) (tn_agent_session t) (tn_message_id t) (tn_bridge t) (tn_dialect t) true (tn_phase t).
Definition fire_tokens (ids : list string) (w : World) : World :=
  set_turns (map_imap (fun id t => Some (if bool_decide (id ∈ ids) then fire_token t else t)) (w_turns w)) w.
Definition cancel_prompts_for_session (session_id : string) (w : World) : World :=
  fire_tokens (filter (fun p => p.2 = session_id) (map_to_list (w_prompts w))).*1 w.
End world.
Arguments Submit : clear implicits.
Arguments World : clear implicits.

(** ** Steps *)

(** What a step is handed: nothing, an answer of the connection or the clock, a read,
    a write with its time and fresh ids ([None]: it did not reach the store), or the
    request is dropped while it waits. *)
Inductive Input :=
| Go
| Says (answer : bool)
| Read (ok : bool)
| Write (io : option ((nat -> string) * string))
| Capabilities (resume load servers : bool)
| Prepared (cwd : option string) (skipped : option (list Json))
| Dialect (d : ForkPointDialect)
| Result (r : result TurnError PromptResponse)
| TokenFired
| Message (m : option string)
| Poll (ok deadline : bool)
| Drop.

Section steps.
Context {Block : Type}.
Context (json_valid : string -> bool) (external : bool).
Context (print_json : Json -> string) (error_code public_message : TurnError -> string).
Context (print_notification : string -> UserMessageChunk Block -> option string).
Implicit Types (w : World Block).

(** A write job. *)
Definition commit {A} (io : option ((nat -> string) * string)) (job : (nat -> string) -> string -> M A) (w : World Block)
  : result SupervisorError A * World Block :=
  match io with
  | None => (Err (StateFailed None), w)
  | Some (ids, now) =>
      match job ids now (w_store w) with
      | Ok (a, st) => (Ok a, set_store st w)
      | Err e => (Err (StateFailed (Some e)), w)
      end
  end.
(** A read job. *)
Definition query {A} (ok : bool) (f : Store -> result SupervisorError A) (w : World Block) : result SupervisorError A :=
  if ok then f (w_store w) else Err (StateFailed None).
Definition store_error {A} (r : result StackError A) : result SupervisorError A :=
  match r with Ok a => Ok a | Err e => Err (StateFailed (Some e)) end.

Definition bridge (w : World Block) : result SupervisorError nat :=
  match w_agent w with AgRunning b => Ok b | _ => Err NotRunning end.

(** *** Submission *)

Definition attach_step (session_id : string) (kind : SessionAttachKind) (p : AttachPhase) (x : Input) (w : World Block)
  : option (result SupervisorError (option AttachPhase) * World Block) :=
  match p, x with
  | AtStart, Go => Some (let? b := bridge w in Ok (Some (AtBridge b)), w)
  | AtBridge b, Read ok => Some (let? record := query ok (fetch_open_session session_id) w in Ok (Some (AtRecord b record)), w)
  | AtRecord b record, Prepared cwd skipped =>
      Some (match cwd, skipped with
            | None, _ => Err CwdInvalid
            | Some _, None => Err McpRejected
            | Some cwd, Some skipped => Ok (Some (AtCall record cwd skipped))
            end, w)
  | AtCall record cwd skipped, Says ok => Some (if ok then Ok (Some (AtWrite record cwd skipped)) else Err BridgeFailed, w)
  | AtWrite record cwd skipped, Write io =>
      let (r, w) := commit io (attach_job json_valid external print_json session_id (s_agent_session_id record) cwd false kind skipped) w in
      Some (let? _ := r in Ok None, w)
  | _, _ => None
  end.

(** Resume is preferred to load; the servers are resolved once the kind is known. *)
Definition reattach_for_prompt (session_id : string) (resume load servers : bool) : result SupervisorError SessionAttachKind :=
  let? kind := if resume then Ok AttachResume else if load then Ok AttachLoad else Err (ReattachUnsupported session_id) in
  if servers then Ok kind else Err McpUnavailable.

Definition submit_next (s : Submit Block) (x : Input) (w : World Block) : option (SubmitPhase * World Block) :=
  let sid := sb_session s in
  let answer (r : result SupervisorError SubmitPhase) := match r with Ok p => p | Err e => SbAnswered (Err e) end in
  match sb_phase s, x with
  | SbStart, Go => if gate_readable w then Some (SbGate, w) else None
  | SbGate, Go => if lock_free sid w then Some (SbLocked, w) else None
  | SbLocked, Go => Some (answer (let? b := bridge w in Ok (SbBridge b)), w)
  | SbBridge b, Read ok =>
      Some (answer (let? record := query ok (fetch_open_session sid) w in Ok (SbOpen b (s_agent_session_id record))), w)
  | SbOpen b agent, Go => Some (SbReaped b agent, reap_finished w)
  | SbReaped b agent, Go =>
      Some (match registered_prompts_for_session sid w with [] => SbFree b agent | ids => SbListed b agent ids end, w)
  | SbListed b agent ids, Read ok =>
      Some (answer (let? live := query ok (fun st => store_error (live_rows ids st)) w in
                    match live with [] => Ok (SbFree b agent) | _ => Err (PromptInFlight sid) end), w)
  | SbFree b agent, Says true => Some (SbTouch b agent, w)
  | SbFree b agent, Capabilities resume load servers =>
      Some (answer (let? kind := reattach_for_prompt sid resume load servers in Ok (SbAttach b agent kind AtStart)), w)
  | SbTouch b agent, Write io =>
      let (r, w) := commit io (fun _ now => update_session_status external sid SESSION_STATUS_ACTIVE now) w in
      Some (answer (let? _ := r in Ok (SbReady b agent)), w)
  | SbAttach b agent kind p, x =>
      match attach_step sid kind p x w with
      | Some (r, w) =>
          Some (answer (let? next := r in Ok match next with Some p => SbAttach b agent kind p | None => SbReady b agent end), w)
      | None => None
      end
  | SbReady b agent, Go => Some (SbDrained b agent, w)
  | SbDrained b agent, Message _ => Some (SbTaken b agent, w)
  | SbTaken b agent, Write io =>
      match io with
      | None => Some (SbAnswered (Err (StateFailed None)), w)
      | Some (ids, now) =>
          (* The two ids are drawn before the job; neither is drawn twice. *)
          let prompt_id := ids 0%nat in
          let message_id := ids 1%nat in
          if bool_decide (prompt_id ∈ w_minted w) then None
          else
            let (r, w) := commit (Some (fun k => ids (2 + k)%nat, now))
                            (submit_job json_valid external print_notification sid agent message_id prompt_id (sb_prompt_json s)
                               (sb_blocks s)) (mint prompt_id w) in
            Some (answer (let? record := r in Ok (SbInserted b agent message_id record)), w)
      end
  | SbInserted b agent message_id record, Dialect d =>
      Some (SbSpawned record, set_turns (<[p_id record := mkTurn sid agent message_id b d false TnStart]> (w_turns w)) w)
  | SbSpawned record, Go => Some (SbRegistered record, set_registry (<[p_id record := sid]> (w_prompts w)) w)
  | SbRegistered record, Go => Some (SbAnswered (Ok record), reap_finished w)
  | _, _ => None
  end.

(** A dropped request lets go of its guards; a turn it has started runs on. *)
Definition submit_drop (s : Submit Block) (w : World Block) : option (SubmitPhase * World Block) :=
  match sb_phase s with
  | SbAnswered _ | SbDropped => None
  | SbSpawned record => Some (SbDropped, abandon (p_id record) w)
  | _ => Some (SbDropped, w)
  end.

Definition submit_step (i : nat) (x : Input) (w : World Block) : option (World Block) :=
  match w_submits w !! i with
  | None => None
  | Some s =>
      match match x with Drop => submit_drop s w | x => submit_next s x w end with
      | None => None
      | Some (p, w') => Some (set_submits (<[i := mkSubmit (sb_session s) (sb_blocks s) (sb_prompt_json s) p]> (w_submits w')) w')
      end
  end.

(** *** The turn *)

Definition acknowledged (t : Turn) (response : PromptResponse) : bool :=
  match tn_dialect t with
  | AcpStackDialect => bool_decide (meta_message_id (pr_meta response) = Some (tn_message_id t))
  | JetbrainsAir => true
  end.

Definition turn_next (id : string) (t : Turn) (x : Input) (w : World Block) : option (TurnPhase * World Block) :=
  match tn_phase t, x with
  | TnStart, Write io =>
      let (_, w) := commit io (fun _ now => update_prompt_status external id PRunning None None None None None now) w in
      Some (TnCalling, w)
  | TnCalling, Result r => Some (TnOutcome (Settled r), w)
  | TnCalling, TokenFired => if tn_token t then Some (TnOutcome OutcomeTokenFired, w) else None
  | TnOutcome o, Go => Some (TnDrained o, w)
  | TnDrained (Settled (Ok response) as o), Write io =>
      if acknowledged t response then
        let (_, w) := commit io (fun _ now => acknowledge_prompt_message_id external id (tn_message_id t) now) w in
        Some (TnAcknowledged o, w)
      else Some (TnAcknowledged o, w)
  | TnDrained ((Settled (Err _) | OutcomeTokenFired) as o), Message _ => Some (TnSettling o, w)
  | TnAcknowledged o, Message m => Some (match m with Some m => TnAnchor o m | None => TnSettling o end, w)
  | TnAnchor o m, Write io =>
      let (_, w) := commit io (fun _ now => record_prompt_agent_message_id external id m now) w in
      Some (TnSettling o, w)
  | TnSettling o, Write io =>
      let (r, w) := commit io (settle_job json_valid external print_json error_code public_message id
                                 (tn_session t) o) w in
      Some (TnEnded (match r with Ok _ => true | Err _ => false end), w)
  | TnEnded _, _ => None
  (* A panic ends the task where it is. *)
  | _, Drop => Some (TnEnded false, w)
  | _, _ => None
  end.
Definition turn_step (id : string) (x : Input) (w : World Block) : option (World Block) :=
  match w_turns w !! id with
  | None => None
  | Some t =>
      match turn_next id t x w with
      | None => None
      | Some (p, w') => Some (set_turns (<[id := with_phase p t]> (w_turns w')) w')
      end
  end.

(** *** Cancellation *)

(** A subagent is cancelled on its grant; nothing waits for it to settle. *)
Definition cancel_subagent (c : Cancel) (x : Input) (w : World Block) : option (CancelPhase * option (list string * gset string) * World Block) :=
  let go p := Some (p, cn_sent c, w) in
  let answer (r : result SupervisorError CancelPhase) := match r with Ok p => p | Err e => CnAnswered (Err e) end in
  match cn_phase c, x with
  | CnSubagent session subagent, Read ok =>
      go (answer (query ok (fun st =>
        match get_session (sa_root_session_id subagent) st with
        | None => Err (NoSuchSession (sa_root_session_id subagent))
        | Some _ => Ok (CnSubRoot session subagent)
        end) w))
  | CnSubRoot session subagent, Says settled =>
      go (if sa_cancel_granted subagent && settled then CnSubCall session else CnAnswered (Err (SubagentCancelUnavailable (s_id session))))
  | CnSubCall session, Says ok => go (if ok then CnSubSweep session else CnAnswered (Err BridgeFailed))
  | CnSubSweep session, Go => go (CnSubWrite session)
  | CnSubWrite session, Write io =>
      let (r, w) := commit io (fun ids now => cancel_requested_job json_valid external print_json (s_id session)
                                 (s_agent_session_id session) (ids 0%nat) now) w in
      Some (CnAnswered r, cn_sent c, w)
  | _, Drop => go CnDropped
  | _, _ => None
  end.

Definition cancel_next (c : Cancel) (x : Input) (w : World Block) : option (CancelPhase * option (list string * gset string) * World Block) :=
  let sid := cn_session c in
  let go p := Some (p, cn_sent c, w) in
  let answer (r : result SupervisorError CancelPhase) := match r with Ok p => p | Err e => CnAnswered (Err e) end in
  match cn_phase c, x with
  | CnStart, Go => if gate_readable w then go CnGate else None
  | CnGate, Go => if lock_free sid w then go CnLocked else None
  | CnLocked, Go => go (answer (let? _ := bridge w in Ok CnBridge))
  | CnBridge, Read ok =>
      go (answer (query ok (fun st =>
        match get_session sid st, get_subagent sid st with
        | None, _ => Err (NoSuchSession sid)
        | Some session, Some subagent => Ok (CnSubagent session subagent)
        | Some session, None => Ok (CnListing session)
        end) w))
  | CnListing session, Go =>
      go (match registered_prompts_for_session sid w with [] => CnLive session [] | ids => CnListed session ids end)
  | CnListed session ids, Read ok =>
      go (answer (let? live := query ok (fun st => store_error (live_rows ids st)) w in Ok (CnLive session live)))
  | CnLive session live, Says ok =>
      if ok then Some (CnSweep session live (replicate (length live) None), Some (live, dom (w_turns w)), w)
      else go (CnAnswered (Err BridgeFailed))
  (* The permission service settles the session's requests in steps of its own. *)
  | CnSweep session live observed, Go => go (CnPoll session live observed)
  | CnPoll session live observed, Poll ok deadline =>
      go (answer (let? observed := query ok (fun st => store_error (poll_rows live observed st)) w in
                  Ok (if forallb (fun o => bool_decide (is_Some o)) observed || deadline then
                        match cancel_settle_verdict observed with
                        | VerdictCancelled => CnForget session live
                        | verdict => CnAnswered (Err (NotCancelled (verdict_str verdict)))
                        end
                      else CnSweep session live observed)))
  | CnForget session live, Go => Some (CnWrite session, cn_sent c, forget_prompts live w)
  | CnWrite session, Write io =>
      let (r, w) := commit io (fun ids now => cancel_requested_job json_valid external print_json sid (s_agent_session_id session)
                                 (ids 0%nat) now) w in
      Some (CnAnswered r, cn_sent c, w)
  | CnSubagent _ _, _ | CnSubRoot _ _, _ | CnSubCall _, _ | CnSubSweep _, _ | CnSubWrite _, _ => cancel_subagent c x w
  | CnAnswered _, _ | CnDropped, _ => None
  | _, Drop => go CnDropped
  | _, _ => None
  end.

Definition cancel_step (i : nat) (x : Input) (w : World Block) : option (World Block) :=
  match w_cancels w !! i with
  | None => None
  | Some c =>
      match cancel_next c x w with
      | None => None
      | Some (p, sent, w') => Some (set_cancels (<[i := mkCancel (cn_session c) p sent]> (w_cancels w')) w')
      end
  end.

(** *** Stopping the agent *)

Definition stop_next (s : Stop) (x : Input) (w : World Block) : option (StopPhase * World Block) :=
  match sp_phase s, x with
  | StStart, Go => if gate_writable w then Some (StGate, w) else None
  | StGate, Read ok =>
      if sp_guarded s then
        Some (if ok then match query_restart_blockers (Some (sp_target s)) (w_store w) with
                         | [] => StChecked
                         | blockers => StAnswered (StopBlocked blockers)
                         end
              else StAnswered StopUnread, w)
      else Some (StChecked, w)
  | StChecked, Go =>
      match w_agent w with
      | AgRunning b => Some (StTaken b, set_agent AgStopping w)
      | _ => Some (StAnswered StopNotRunning, w)
      end
  | StTaken b, Go => Some (StFire b (map_to_list (w_prompts w)).*1, set_registry ∅ w)
  (* No await lies between the two: the handles are taken and their tokens fired. *)
  | StFire b ids, Go => Some (StWait b ids, fire_tokens ids w)
  | StFire b ids, _ => None
  (* Each task is awaited until it ends or the budget is spent. *)
  | StWait b (id :: rest), Says timeout => if is_finished w id || timeout then Some (StWait b rest, w) else None
  | StWait b [], Go => Some (StShutdown b, w)
  | StShutdown b, Says ok => Some (StStopped ok, set_agent AgStopped w)
  | StStopped ok, Write io =>
      let (_, w) := commit io (demote_sessions_on_agent_teardown json_valid external print_json (sp_target s) "agent_stopped") w in
      Some (StAnswered (StopDone ok), w)
  | StAnswered _, _ | StDropped, _ => None
  | _, Drop => Some (StDropped, w)
  | _, _ => None
  end.
Definition stop_step (i : nat) (x : Input) (w : World Block) : option (World Block) :=
  match w_stops w !! i with
  | None => None
  | Some s =>
      match stop_next s x w with
      | None => None
      | Some (p, w') => Some (set_stops (<[i := mkStop (sp_target s) (sp_guarded s) p]> (w_stops w')) w')
      end
  end.

(** *** The agent's own transitions *)

(** [start], and the restart after a crash, take the agent out of [AgStopped] and put the
    new bridge or [AgStopped] back. *)
Definition begin_start (w : World Block) : option (World Block) :=
  match w_agent w with AgStopped => Some (set_agent AgStarting w) | _ => None end.
Definition end_start (ok : bool) (w : World Block) : option (World Block) :=
  match w_agent w with
  | AgStarting =>
      Some (if ok then
              mkWorld (w_store w) (AgRunning (w_bridges w)) (S (w_bridges w)) (w_prompts w) (w_turns w) (w_submits w) (w_cancels w)
                (w_stops w) (w_minted w) (w_abandoned w)
            else set_agent AgStopped w)
  | _ => None
  end.
(** The exit of a bridge counts only while it is the running one. *)
Definition monitor_bridge_exit (b : nat) (w : World Block) : option (World Block) :=
  match w_agent w with AgRunning current => if bool_decide (b = current) then Some (set_agent AgStopped w) else None | _ => None end.
Definition try_begin_update (w : World Block) : option (World Block) :=
  match w_agent w with AgStopped => Some (set_agent AgUpdating w) | _ => None end.
Definition finish_update (w : World Block) : option (World Block) :=
  match w_agent w with AgUpdating => Some (set_agent AgStopped w) | _ => None end.

Inductive AgentMove := StartBegins | StartEnds (ok : bool) | BridgeExits (bridge : nat) | UpdateBegins | UpdateEnds.
Definition agent_step (m : AgentMove) (w : World Block) : option (World Block) :=
  match m with
  | StartBegins => begin_start w
  | StartEnds ok => end_start ok w
  | BridgeExits b => monitor_bridge_exit b w
  | UpdateBegins => try_begin_update w
  | UpdateEnds => finish_update w
  end.
End steps.
