(* ===== verification/SupervisorSafety.v ===== *)
(** What the supervisor guarantees about turns, over every interleaving of
    submissions, turns, cancels, stops, restarts, dropped requests and other writers:
    a session has one live turn at a time, a cancel that succeeds ended the turns it
    was for, and a settled task leaves no row in flight. *)

From S2P Require Import Prelude Store SinkOutbox ChangeFeed SessionEvents PermissionService PromptStore SessionStore.
From S2P Require Import SubagentStore SessionQueries SessionSink AcpCodec Supervisor.
Open Scope Z_scope.
Open Scope result_scope.

(** ** What a job may do to the prompt rows *)

(** A row that was not there stays away, and one that is still there keeps its
    verdict. *)
Definition fate (p p' : option PromptRecord) : Prop :=
  match p', p with None, _ => True | Some _, None => False | Some p', Some p => keeps p p' end.

Lemma fate_refl p : fate p p.
Proof. destruct p; [apply keeps_refl|done]. Qed.
Lemma fate_trans p1 p2 p3 : fate p1 p2 -> fate p2 p3 -> fate p1 p3.
Proof. destruct p1, p2, p3; simpl; try done. apply keeps_trans. Qed.

Definition calm {A} (m : M A) : Prop :=
  forall st a st', m st = Ok (a, st') -> forall id, fate (st_prompts st !! id) (st_prompts st' !! id).

Lemma calm_same {A} (m : M A) : (forall st a st', m st = Ok (a, st') -> st_prompts st' = st_prompts st) -> calm m.
Proof. intros H st a st' Hm id. rewrite (H _ _ _ Hm). apply fate_refl. Qed.
Lemma calm_ret {A} (a : A) : calm (ret a).
Proof. apply calm_same. by intros st b st' [= _ <-]. Qed.
Lemma calm_fail {A} e : calm (fail (A := A) e).
Proof. by apply calm_same. Qed.
Lemma calm_gets {A} (f : Store -> A) : calm (gets f).
Proof. apply calm_same. by intros st b st' [= _ <-]. Qed.
Lemma calm_modify f : (forall st, st_prompts (f st) = st_prompts st) -> calm (modify f).
Proof. intros H. apply calm_same. by intros st b st' [= _ <-]. Qed.
Lemma calm_bind {A B} (m : M A) (f : A -> M B) : calm m -> (forall a, calm (f a)) -> calm (bind m f).
Proof.
  intros Hm Hf st b st' (a & st1 & H1 & H2)%bind_ok id. eapply fate_trans; [by eapply Hm|by eapply Hf].
Qed.
Lemma calm_attempt {A} (m : M A) : calm m -> calm (attempt m).
Proof.
  intros Hm st u st' H id. unfold attempt in H. destruct (m st) as [[a st1]|] eqn:E; injection H as _ <-; [by eapply Hm|apply fate_refl].
Qed.
Lemma calm_for_each {A} (l : list A) (f : A -> M unit) : (forall x, calm (f x)) -> calm (for_each l f).
Proof. intros H. induction l; simpl; [apply calm_ret|by apply calm_bind]. Qed.
Lemma calm_bump id : calm (bump_session_change id).
Proof. apply calm_same. by intros st u st' [[_ ->]|(row & _ & _ & ->)]%bump_session_change_run. Qed.
Lemma calm_event json_valid sid e : calm (insert_session_event_row json_valid sid e).
Proof. apply calm_same. by intros st seq st' (_ & _ & _ & ->)%insert_session_event_row_run. Qed.
Lemma calm_enqueue_if external t i c : calm (enqueue_if external t i c).
Proof. unfold enqueue_if. destruct external; [by apply calm_modify|apply calm_ret]. Qed.
Lemma calm_bump_prompt id : calm (bump_prompt_session_change id).
Proof. apply calm_bind; [apply calm_gets|intros ps]. case_match; [apply calm_bump|apply calm_fail]. Qed.
Lemma calm_persist {R} external t i c (m : M R) : calm m -> calm (persist_with_outbox external t i c m).
Proof.
  intros Hm. unfold persist_with_outbox. apply calm_bind; [done|intros r]. apply calm_bind; [apply calm_enqueue_if|intros _; apply calm_ret].
Qed.
#[export] Hint Resolve calm_ret calm_fail calm_gets calm_bump calm_event calm_enqueue_if calm_bump_prompt calm_attempt calm_persist : calm.

Ltac calm_walk :=
  repeat first [ solve [auto with calm] | apply calm_bind; [|intros ?] | apply calm_for_each; intros ? | by apply calm_modify
    | apply calm_attempt | apply calm_persist | case_match ].

Lemma calm_append json_valid external sid l k s m p id now :
  calm (append_session_event_with_source json_valid external sid l k s m p id now).
Proof. unfold append_session_event_with_source, publish_session_event, publish. calm_walk. Qed.
#[export] Hint Resolve calm_append : calm.
Lemma calm_append_system json_valid external sid l k m p id now : calm (append_session_event json_valid external sid l k m p id now).
Proof. apply calm_append. Qed.
Lemma calm_update_session id f : calm (update_session id f).
Proof. unfold update_session. calm_walk. Qed.
#[export] Hint Resolve calm_append_system calm_update_session : calm.

(** Reading a row and writing one that keeps its verdict. *)
Lemma calm_write {A} id p p' (k : M A) st a st' :
  (set_prompt id p' ;; k) st = Ok (a, st') -> st_prompts st !! id = Some p -> keeps p p' -> calm k ->
  forall i, fate (st_prompts st !! i) (st_prompts st' !! i).
Proof.
  intros (u & st1 & H1 & H2)%bind_ok Hp Hk Hok i. eapply fate_trans; [|by eapply Hok]. injection H1 as _ <-. simpl.
  destruct (decide (i = id)) as [->|Hne]; [by rewrite Hp, lookup_insert_eq|]. rewrite lookup_insert_ne by done. apply fate_refl.
Qed.

Lemma calm_status external id s sr ec em fc fd now : calm (update_prompt_status external id s sr ec em fc fd now).
Proof.
  unfold update_prompt_status. intros st u st' H. apply bind_ok in H as (ps & st0 & H0 & H). injection H0 as <- <-.
  destruct (st_prompts st !! id) as [p|] eqn:E; [|done].
  destruct (status_settled (p_status p)) eqn:Es; [by eapply (calm_ret false)|].
  eapply (calm_write id p); [exact H|done|by apply keeps_open|calm_walk].
Qed.
Lemma calm_acknowledge external pid m now : calm (acknowledge_prompt_message_id external pid m now).
Proof.
  unfold acknowledge_prompt_message_id. apply calm_persist. intros st u st' H. apply bind_ok in H as (s & st0 & H0 & H).
  injection H0 as <- <-. destruct (st_prompts st !! pid) as [p|] eqn:E; [|done]. case_bool_decide; [|done].
  eapply (calm_write pid p); [exact H|done|by split|calm_walk].
Qed.
Lemma calm_agent_message external pid m now : calm (record_prompt_agent_message_id external pid m now).
Proof.
  unfold record_prompt_agent_message_id. apply calm_persist. intros st u st' H. apply bind_ok in H as (s & st0 & H0 & H).
  injection H0 as <- <-. destruct (st_prompts st !! pid) as [p|] eqn:E; [|done].
  eapply (calm_write pid p); [exact H|done|by split|calm_walk].
Qed.

(** A settlement also leaves its row settled. *)
Lemma settle_prompt_fate external id s replace now st a st' :
  settle_prompt external id s replace now st = Ok (a, st') ->
  (forall i, fate (st_prompts st !! i) (st_prompts st' !! i))
  /\ (forall p', st_prompts st' !! id = Some p' -> status_settled (p_status p') = true).
Proof.
  unfold settle_prompt. destruct (terminal (se_status s)) eqn:Et; simpl; [|done].
  intros H. apply bind_ok in H as (ps & st0 & H0 & H). injection H0 as <- <-.
  destruct (st_prompts st !! id) as [p|] eqn:E; [|done].
  destruct (prompt_status_from_str (p_status p)) as [cur|] eqn:Ec; [|done]. apply prompt_status_from_str_inv in Ec.
  assert (Hkept : forall u, (Ok (u, st) : result StackError _) = Ok (a, st') -> status_settled (p_status p) = true ->
    (forall i, fate (st_prompts st !! i) (st_prompts st' !! i))
    /\ (forall p', st_prompts st' !! id = Some p' -> status_settled (p_status p') = true)).
  { intros u [= _ <-] Hs. split; [intros i; apply fate_refl|]. intros p'. by rewrite E; intros [= <-]. }
  assert (Hwrote : forall u, keeps p (with_outcome (prompt_status_str (se_status s)) now (se_stop_reason s) (se_error_code s)
      (se_error_message s) (se_failure_class s) (se_failure_detail_json s) p) ->
    (set_prompt id (with_outcome (prompt_status_str (se_status s)) now (se_stop_reason s) (se_error_code s)
      (se_error_message s) (se_failure_class s) (se_failure_detail_json s) p) ;;
     bump_prompt_session_change id ;; enqueue_if external "prompts" id now ;; ret u) st = Ok (a, st') ->
    (forall i, fate (st_prompts st !! i) (st_prompts st' !! i))
    /\ (forall p', st_prompts st' !! id = Some p' -> status_settled (p_status p') = true)).
  { intros u Hk Hw. split; [eapply (calm_write id p); [exact Hw|done|done|calm_walk]|]. intros p' Hp'.
    apply bind_ok in Hw as (u1 & st1 & H1 & H2). injection H1 as _ <-.
    assert (Hc : calm (bump_prompt_session_change id ;; enqueue_if external "prompts" id now ;; ret u)) by calm_walk.
    specialize (Hc _ _ _ H2 id). rewrite Hp' in Hc. simpl in Hc. rewrite lookup_insert_eq in Hc. destruct Hc as [_ Hc]. apply Hc. simpl.
    by destruct (se_status s). }
  destruct cur; [apply (Hwrote _ ltac:(apply keeps_open; by rewrite Ec) H)|apply (Hwrote _ ltac:(apply keeps_open; by rewrite Ec) H)
    |apply (Hkept _ H); by rewrite Ec|apply (Hkept _ H); by rewrite Ec|apply (Hkept _ H); by rewrite Ec|].
  destruct replace; [|apply (Hkept _ H); by rewrite Ec]. refine (Hwrote _ _ H). split.
  - unfold verdict. rewrite Ec. simpl. intros [?|[?|?]]; discriminate.
  - intros _. simpl. by destruct (se_status s).
Qed.

Lemma calm_terminal_events json_valid external sid events ids now : calm (append_terminal_events json_valid external sid events ids now).
Proof. induction events; simpl; calm_walk. Qed.
Lemma calm_user_events json_valid external {Block} payload sid agent m p (blocks : list Block) ids now :
  calm (append_user_prompt_events json_valid external payload sid agent m p blocks ids now).
Proof. induction blocks; simpl; calm_walk. Qed.
Lemma calm_available_events json_valid external payload sids ids now : calm (append_available_events json_valid external payload sids ids now).
Proof. induction sids; simpl; calm_walk. Qed.
#[export] Hint Resolve calm_terminal_events calm_user_events calm_available_events calm_status calm_acknowledge calm_agent_message : calm.

Lemma calm_attach json_valid external print sid agent cwd explicit kind skipped ids now :
  calm (attach_job json_valid external print sid agent cwd explicit kind skipped ids now).
Proof. unfold attach_job, update_session_status_and_cwd, update_session_status, append_mcp_skipped_event. calm_walk. Qed.
Lemma calm_cancel_requested json_valid external print sid agent id now : calm (cancel_requested_job json_valid external print sid agent id now).
Proof. unfold cancel_requested_job. calm_walk. Qed.
Lemma calm_demote json_valid external print target reason ids now :
  calm (demote_sessions_on_agent_teardown json_valid external print target reason ids now).
Proof.
  unfold demote_sessions_on_agent_teardown, reconcile_orphaned_sessions, persist_many_with_outbox, enqueue. calm_walk.
Qed.
Lemma calm_activate external sid status now : calm (update_session_status external sid status now).
Proof. unfold update_session_status. calm_walk. Qed.

Lemma settle_job_run json_valid external print code public id sid o ids now st a st' :
  settle_job json_valid external print code public id sid o ids now st = Ok (a, st') ->
  (forall i, fate (st_prompts st !! i) (st_prompts st' !! i))
  /\ (forall p', st_prompts st' !! id = Some p' -> status_settled (p_status p') = true).
Proof.
  unfold settle_job. intros (settle & st1 & H1 & H2)%bind_ok. destruct (settle_prompt_fate _ _ _ _ _ _ _ _ H1) as [Hf Hs].
  match type of H2 with ?m st1 = _ => assert (Hc : calm m) by (destruct settle; calm_walk) end.
  specialize (Hc _ _ _ H2). split; [intros i; eapply fate_trans; [apply Hf|apply Hc]|]. intros p' Hp'. specialize (Hc id). rewrite Hp' in Hc.
  destruct (st_prompts st1 !! id) as [p1|] eqn:E; [|done]. apply Hc. by apply Hs.
Qed.

(** A submission adds the row of its prompt. *)
Lemma submit_job_run json_valid external {Block} payload sid agent m pid json (blocks : list Block) ids now st record st' :
  submit_job json_valid external payload sid agent m pid json blocks ids now st = Ok (record, st') ->
  p_id record = pid /\ (forall i, i <> pid -> fate (st_prompts st !! i) (st_prompts st' !! i)).
Proof.
  unfold submit_job. intros (r & st1 & H1 & H2)%bind_ok. apply bind_ok in H2 as (u & st2 & H2 & H3). injection H3 as <- <-.
  assert (Hc : calm (append_user_prompt_events json_valid external payload sid agent m pid blocks ids now)) by auto with calm.
  specialize (Hc _ _ _ H2). clear H2. unfold insert_prompt_with_message_id in H1.
  destruct (negb (json_valid _)); [done|]. apply bind_ok in H1 as (u1 & st3 & H1 & H3). injection H3 as <- <-.
  split; [done|]. intros i Hi. eapply fate_trans; [|apply Hc]. clear Hc u.
  unfold persist_with_outbox in H1. apply bind_ok in H1 as (u & st4 & H1 & H3).
  assert (Hc : calm (enqueue_if external "prompts" pid now ;; ret u)) by calm_walk. eapply fate_trans; [|by eapply Hc]. clear Hc H3.
  apply bind_ok in H1 as (u2 & st5 & H1 & H3). eapply fate_trans; [|by eapply calm_bump]. clear H3.
  unfold insert_prompt_row in H1. apply bind_ok in H1 as (s & st0 & H0 & H1). injection H0 as <- <-. simpl in H1.
  destruct (st_prompts st !! pid); [done|]. destruct (st_sessions st !! sid); [|done]. case_match; [|done].
  injection H1 as _ <-. simpl. rewrite lookup_insert_ne by done. apply fate_refl.
Qed.

(** Sweeps and streamed updates of other writers are calm too. *)
Lemma calm_stall_all external now reason stuck : calm (stall_all external now reason stuck).
Proof.
  induction stuck as [|s rest IH]; simpl; [apply calm_ret|]. intros st l st' H. apply bind_ok in H as (ps & st0 & H0 & H). injection H0 as <- <-.
  destruct (st_prompts st !! sp_id s) as [p|] eqn:E; [|by eapply IH]. destruct (prompt_in_flight p) eqn:Ef; [|by eapply IH].
  eapply (calm_write (sp_id s) p); [exact H|done|by apply keeps_open, in_flight_open|]. calm_walk.
Qed.
Lemma calm_mark_stalled json_extract external th reason now : calm (mark_stalled_prompts json_extract external th reason now).
Proof. unfold mark_stalled_prompts. calm_walk. apply calm_stall_all. Qed.
Lemma calm_session_update json_valid external parses sid kind payload id now :
  calm (append_session_update json_valid external parses sid kind payload id now).
Proof.
  assert (Ht : forall s t, calm (touch_oldest_prompt s t)).
  { intros s t st o st' H. unfold touch_oldest_prompt in H. apply bind_ok in H as (s0 & st0 & H0 & H). injection H0 as <- <-.
    destruct (in_flight_prompts_for_session _ _) as [|p ps]; [by eapply (calm_ret None)|].
    apply bind_ok in H as (u & st1 & H1 & H2). injection H1 as _ <-. injection H2 as _ <-. simpl. intros i.
    destruct (decide (p_id p = i)) as [->|Hne]; [|rewrite lookup_alter_ne by done; apply fate_refl].
    rewrite lookup_alter_eq. destruct (st_prompts st !! i); simpl; [by split|done]. }
  unfold append_session_update, insert_session_update_row, publish_session_event, publish. calm_walk.
Qed.
Lemma calm_delete external id now : calm (SessionStore.delete_session external id now).
Proof.
  assert (Hone : forall sid, calm (delete_one now sid)).
  { intros sid. unfold delete_one, delete_session_row, insert_session_tombstone, next_change_seq.
    apply calm_bind; [|intros _; calm_walk]. intros st u st' [= _ <-] i. simpl.
    destruct (filter _ (st_prompts st) !! i) as [p'|] eqn:E; [|done]. apply map_lookup_filter_Some in E as [-> _]. apply keeps_refl. }
  unfold SessionStore.delete_session, persist_many_with_outbox, enqueue. calm_walk.
Qed.

(** ** Live turns *)

Definition row_live (st : Store) (id : string) : Prop :=
  exists p, st_prompts st !! id = Some p /\ status_settled (p_status p) = false.
Definition cancelled_row (st : Store) (id : string) : Prop :=
  forall p, st_prompts st !! id = Some p -> p_status p = "cancelled"%string.
Definition settled_row (st : Store) (id : string) : Prop :=
  forall p, st_prompts st !! id = Some p -> status_settled (p_status p) = true.

Lemma fate_live st st' id : fate (st_prompts st !! id) (st_prompts st' !! id) -> row_live st' id -> row_live st id.
Proof.
  intros Hf (p' & Hp' & Hs). unfold row_live. rewrite Hp' in Hf. destruct (st_prompts st !! id) as [p|]; [|done]. destruct Hf as [_ Hf].
  exists p. split; [done|]. destruct (status_settled (p_status p)); [|done]. rewrite Hf in Hs; done.
Qed.
Lemma fate_settled st st' id : fate (st_prompts st !! id) (st_prompts st' !! id) -> settled_row st id -> settled_row st' id.
Proof.
  intros Hf Hs p' Hp'. unfold settled_row in Hs. rewrite Hp' in Hf. destruct (st_prompts st !! id) as [p|]; [|done]. apply Hf. by apply Hs.
Qed.
Lemma fate_cancelled st st' id : fate (st_prompts st !! id) (st_prompts st' !! id) -> cancelled_row st id -> cancelled_row st' id.
Proof.
  intros Hf Hs p' Hp'. unfold cancelled_row in Hs. rewrite Hp' in Hf. destruct (st_prompts st !! id) as [p|]; [|done]. destruct Hf as [Hf _].
  specialize (Hs p eq_refl). assert (Ho : outcome p' = outcome p) by (apply Hf; unfold verdict; auto). injection Ho as Ho _. congruence.
Qed.
Lemma settled_not_live st id : settled_row st id -> ~ row_live st id.
Proof. intros Hs (p & Hp & Hn). rewrite (Hs p Hp) in Hn. done. Qed.
Lemma cancelled_settled st id : cancelled_row st id -> settled_row st id.
Proof. intros Hc p Hp. by rewrite (Hc p Hp). Qed.

Section safety.
Context {Block : Type}.
Implicit Types (w : World Block).

(** A turn that is really running: not ended, its token not fired, its row in flight,
    and its submission not dropped on the way to the registry. *)
Definition live_in w (sid id : string) : Prop :=
  exists t, w_turns w !! id = Some t /\ ended t = false /\ tn_token t = false /\ tn_session t = sid
    /\ id ∉ w_abandoned w /\ row_live (w_store w) id.

(** Where a live turn can be found. *)
Definition tracked w (sid id : string) : Prop :=
  w_prompts w !! id = Some sid
  \/ (exists i s r, w_submits w !! i = Some s /\ sb_phase s = SbSpawned r /\ p_id r = id /\ sb_session s = sid)
  \/ (exists i s b ids, w_stops w !! i = Some s /\ sp_phase s = StFire b ids /\ id ∈ ids).

(** The prompt a submission has written a row for. *)
Definition prompt_of (p : SubmitPhase) : option string :=
  match p with SbInserted _ _ _ r | SbSpawned r => Some (p_id r) | _ => None end.

(** What a submission knows about its session. *)
Definition submit_ok w (s : Submit Block) : Prop :=
  match sb_phase s with
  | SbListed _ _ ids => forall id, live_in w (sb_session s) id -> id ∈ ids
  | SbFree _ _ | SbTouch _ _ | SbAttach _ _ _ _ | SbReady _ _ | SbDrained _ _ | SbTaken _ _ => forall id, ~ live_in w (sb_session s) id
  | SbInserted _ _ _ r => (forall id, ~ live_in w (sb_session s) id) /\ p_id r ∈ w_minted w /\ w_turns w !! p_id r = None
  | SbSpawned r =>
      (forall id, live_in w (sb_session s) id -> id = p_id r) /\ p_id r ∈ w_minted w
      /\ forall t, w_turns w !! p_id r = Some t -> tn_session t = sb_session s
  | _ => True
  end.

(** What a cancel saw of a row. *)
Definition seen_row (st : Store) (id : string) (o : option PromptStatus) : Prop :=
  match o with None => True | Some status => settled_row st id /\ (status = PCancelled -> cancelled_row st id) end.

Definition cancel_ok w (c : Cancel) : Prop :=
  match cn_phase c with
  | CnListed _ ids | CnLive _ ids => Forall (fun id => id ∈ w_minted w) ids /\ forall id, live_in w (cn_session c) id -> id ∈ ids
  | _ => True
  end
  /\ match cn_sent c with
     | None =>
         match cn_phase c with CnSweep _ _ _ | CnPoll _ _ _ | CnForget _ _ | CnWrite _ => False | _ => True end
     | Some (live, before) =>
         Forall (fun id => id ∈ w_minted w) live
         /\ before ⊆ dom (w_turns w)
         /\ (forall id, id ∈ before -> live_in w (cn_session c) id -> id ∈ live)
         /\ match cn_phase c with
            | CnSweep _ l observed | CnPoll _ l observed => l = live /\ Forall2 (seen_row (w_store w)) live observed
            | CnForget _ l => l = live /\ Forall (cancelled_row (w_store w)) live
            | CnWrite _ | CnAnswered (Ok _) => Forall (cancelled_row (w_store w)) live
            | CnAnswered (Err _) | CnDropped => True
            | _ => False
            end
     end.

Record inv w : Prop := mkInv {
  i_tracked : forall sid id, live_in w sid id -> tracked w sid id;
  i_unique : forall sid id id', live_in w sid id -> live_in w sid id' -> id = id';
  i_turns : forall id t, w_turns w !! id = Some t -> id ∈ w_minted w;
  i_registry : forall id sid, w_prompts w !! id = Some sid -> id ∈ w_minted w;
  i_ended : forall id t, w_turns w !! id = Some t -> tn_phase t = TnEnded true -> settled_row (w_store w) id;
  i_submits : forall i s, w_submits w !! i = Some s -> submit_ok w s;
  i_cancels : forall i c, w_cancels w !! i = Some c -> cancel_ok w c;
  i_inserted : forall i j s s' id, w_submits w !! i = Some s -> w_submits w !! j = Some s' ->
    prompt_of (sb_phase s) = Some id -> prompt_of (sb_phase s') = Some id -> i = j;
  i_submit_lock : forall i j s s', w_submits w !! i = Some s -> w_submits w !! j = Some s' ->
    submit_lock (sb_phase s) = true -> submit_lock (sb_phase s') = true -> sb_session s = sb_session s' -> i = j;
  i_cancel_lock : forall i j s c, w_submits w !! i = Some s -> w_cancels w !! j = Some c ->
    submit_lock (sb_phase s) = true -> cancel_lock (cn_phase c) = true -> sb_session s <> cn_session c;
  i_gate : forall k p, w_stops w !! k = Some p -> stop_gate (sp_phase p) = true ->
    (forall i s, w_submits w !! i = Some s -> submit_gate (sb_phase s) = false)
    /\ (forall i c, w_cancels w !! i = Some c -> cancel_gate (cn_phase c) = false);
}.

(** Steps that start no turn. *)
Record quiet w w' : Prop := mkQuiet {
  q_live : forall sid id, live_in w' sid id -> live_in w sid id;
  q_rows : forall id, id ∈ w_minted w -> fate (st_prompts (w_store w) !! id) (st_prompts (w_store w') !! id);
  q_minted : w_minted w ⊆ w_minted w';
  q_turns : forall id, w_turns w !! id = None <-> w_turns w' !! id = None;
  q_session : forall id t', w_turns w' !! id = Some t' -> exists t, w_turns w !! id = Some t /\ tn_session t' = tn_session t;
  q_ended : forall id t, w_turns w' !! id = Some t -> tn_phase t = TnEnded true ->
    (exists t0, w_turns w !! id = Some t0 /\ tn_phase t0 = TnEnded true) \/ settled_row (w_store w') id;
}.

Lemma quiet_submit w w' s : quiet w w' -> submit_ok w s -> submit_ok w' s.
Proof.
  intros [H1 H2 H3 H4 H6 H5]. unfold submit_ok. destruct (sb_phase s); try done.
  - intros H id Hl. apply H. by apply H1.
  - intros H id Hl%H1. by apply (H id).
  - intros H id Hl%H1. by apply (H id).
  - intros H id Hl%H1. by apply (H id).
  - intros H id Hl%H1. by apply (H id).
  - intros H id Hl%H1. by apply (H id).
  - intros H id Hl%H1. by apply (H id).
  - intros (H & Hm & Ht). split; [intros id Hl%H1; by apply (H id)|]. split; [set_solver|by apply H4].
  - intros (H & Hm & Ht). split; [intros id Hl%H1; by apply (H id)|]. split; [set_solver|]. intros t Hid.
    destruct (H6 _ _ Hid) as (t0 & Hid0 & ->). by apply Ht.
Qed.

Lemma fate_seen st st' id o : fate (st_prompts st !! id) (st_prompts st' !! id) -> seen_row st id o -> seen_row st' id o.
Proof.
  intros Hf. destruct o as [status|]; [|done]. simpl. intros [Hs Hc]. split; [by apply (fate_settled st)|].
  intros E. by apply (fate_cancelled st); auto.
Qed.

Lemma quiet_cancel w w' c : quiet w w' -> cancel_ok w c -> cancel_ok w' c.
Proof.
  intros [H1 H2 H3 H4 H6 H5] [Hk Hs]. assert (Hmint : forall l, Forall (fun id => id ∈ w_minted w) l -> Forall (fun id => id ∈ w_minted w') l).
  { intros l Hl. eapply Forall_impl; [exact Hl|]. set_solver. }
  assert (Hcan : forall l, Forall (fun id => id ∈ w_minted w) l -> Forall (cancelled_row (w_store w)) l -> Forall (cancelled_row (w_store w')) l).
  { intros l Hl Hc. rewrite Forall_forall in Hl, Hc |- *. intros id Hid. by apply (fate_cancelled (w_store w)); auto. }
  assert (Hseen : forall l obs, Forall (fun id => id ∈ w_minted w) l -> Forall2 (seen_row (w_store w)) l obs -> Forall2 (seen_row (w_store w')) l obs).
  { intros l obs Hl Ho. induction Ho as [|id o l obs Ho _ IH]; [done|]. apply Forall_cons in Hl as [Hid Hl].
    constructor; [by apply (fate_seen (w_store w)); auto|auto]. }
  split.
  - destruct (cn_phase c); try done; destruct Hk as [Hm Hl]; (split; [auto|]); intros id Hid; apply Hl; by apply H1.
  - destruct (cn_sent c) as [[live before]|]; [|done]. destruct Hs as (Hm & Hb & Hl & Hp). split; [auto|].
    split; [intros id Hid%Hb; rewrite elem_of_dom in Hid |- *; destruct (w_turns w' !! id) eqn:E; [by eexists|]; apply H4 in E; rewrite E in Hid; by destruct Hid|].
    split; [intros id Hid Hi; apply Hl; [done|]; by apply H1|].
    destruct (cn_phase c) as [| | | | | | | | | | | | | | | |[[]|]|]; try done; destruct_and?; split_and?; auto.
Qed.

(** Parts that change without a call moving. *)
Lemma inv_quiet w w' :
  inv w -> quiet w w' -> w_submits w' = w_submits w -> w_cancels w' = w_cancels w -> w_stops w' = w_stops w ->
  (forall sid id, live_in w' sid id -> tracked w' sid id) ->
  (forall id sid, w_prompts w' !! id = Some sid -> id ∈ w_minted w') ->
  inv w'.
Proof.
  intros [I1 I2 I3 I4 I5 I6 I7 I8 I9 I10 I11] Hq Es Ec Ep Ht Hr. pose proof Hq as [H1 H2 H3 H4 H6 H5].
  constructor; rewrite ?Es, ?Ec, ?Ep; try done.
  - intros sid id id' Hl%H1 Hl'%H1. by apply (I2 sid).
  - intros id t Hid. apply H3. destruct (w_turns w !! id) as [t0|] eqn:E; [by apply (I3 id t0)|]. apply H4 in E. congruence.
  - intros id t Hid Hp. destruct (H5 id t Hid Hp) as [(t0 & Ht0 & Hp0)|Hs]; [|done].
    apply (fate_settled (w_store w)); [apply H2; by apply (I3 id t0)|by apply (I5 id t0)].
  - intros i s Hs. apply (quiet_submit w); [done|by apply (I6 i)].
  - intros i c Hc. apply (quiet_cancel w); [done|by apply (I7 i)].
Qed.

(** Where tracking only needs the registry to grow. *)
Lemma quiet_tracked w w' :
  inv w -> quiet w w' -> w_submits w' = w_submits w -> w_stops w' = w_stops w ->
  (forall sid id, live_in w' sid id -> w_prompts w !! id = Some sid -> w_prompts w' !! id = Some sid) ->
  forall sid id, live_in w' sid id -> tracked w' sid id.
Proof.
  intros Hi Hq Es Ep Hr sid id Hl. destruct (i_tracked w Hi sid id (q_live w w' Hq sid id Hl)) as [Ht|[Ht|Ht]].
  - left. by apply Hr.
  - right; left. by rewrite Es.
  - right; right. by rewrite Ep.
Qed.

(** ** A call moves *)

Lemma live_in_submits w l sid id : live_in (set_submits l w) sid id <-> live_in w sid id.
Proof. done. Qed.

Lemma forallb_lookup {A} (f : A -> bool) l i x : forallb f l = true -> l !! i = Some x -> f x = true.
Proof. intros H Hi. rewrite forallb_forall in H. apply H. apply list_elem_of_In. by eapply list_elem_of_lookup_2. Qed.
Lemma gate_readable_spec w k p : gate_readable w = true -> w_stops w !! k = Some p -> stop_gate (sp_phase p) = false.
Proof. intros H Hk. apply negb_true_iff. exact (forallb_lookup _ _ _ _ H Hk). Qed.
Lemma lock_free_spec sid w :
  lock_free sid w = true ->
  (forall i s, w_submits w !! i = Some s -> submit_lock (sb_phase s) = true -> sb_session s <> sid)
  /\ (forall i c, w_cancels w !! i = Some c -> cancel_lock (cn_phase c) = true -> cn_session c <> sid).
Proof.
  unfold lock_free. intros [H1 H2]%andb_true_iff. split.
  - intros i s Hi Hl E. pose proof (forallb_lookup _ _ _ _ H1 Hi) as H. simpl in H. by rewrite Hl, bool_decide_true in H.
  - intros i c Hi Hl E. pose proof (forallb_lookup _ _ _ _ H2 Hi) as H. simpl in H. by rewrite Hl, bool_decide_true in H.
Qed.

Lemma inv_set_submit w i s s' :
  inv w -> w_submits w !! i = Some s -> sb_session s' = sb_session s -> submit_ok w s' ->
  (submit_lock (sb_phase s') = true -> submit_lock (sb_phase s) = true \/ lock_free (sb_session s) w = true) ->
  (submit_gate (sb_phase s') = true -> submit_gate (sb_phase s) = true \/ gate_readable w = true) ->
  (forall id, prompt_of (sb_phase s') = Some id ->
     forall j sj, j <> i -> w_submits w !! j = Some sj -> prompt_of (sb_phase sj) <> Some id) ->
  (forall r, sb_phase s = SbSpawned r -> ~ live_in w (sb_session s) (p_id r) \/ w_prompts w !! p_id r = Some (sb_session s)
     \/ exists r', sb_phase s' = SbSpawned r' /\ p_id r' = p_id r) ->
  inv (set_submits (<[i := s']> (w_submits w)) w).
Proof.
  intros Hinv Hi Esid Hok Hlock Hgate Hins Hsp. pose proof Hinv as [I1 I2 I3 I4 I5 I6 I7 I8 I9 I10 I11].
  assert (Hlt : (i < length (w_submits w))%nat) by by eapply lookup_lt_Some.
  assert (Hlk : forall j x, <[i := s']> (w_submits w) !! j = Some x -> j = i /\ x = s' \/ j <> i /\ w_submits w !! j = Some x).
  { intros j x Hj. destruct (decide (j = i)) as [->|Hne]; [rewrite list_lookup_insert_eq in Hj by done; left; by simplify_eq|].
    rewrite list_lookup_insert_ne in Hj by done. by right. }
  constructor; simpl; try done.
  - intros sid id Hl. destruct (I1 sid id Hl) as [Ht|[(j & sj & r & Hj & Hp & Hid & Hs)|Ht]]; [by left| |by right; right].
    destruct (decide (j = i)) as [->|Hne].
    + simplify_eq. destruct (Hsp r Hp) as [Hn|[Hr|(r' & Hp' & Hid')]]; [done|by left|]. right; left. exists i, s', r'.
      simpl. rewrite list_lookup_insert_eq by done. by rewrite Esid, Hid'.
    + right; left. exists j, sj, r. simpl. by rewrite list_lookup_insert_ne.
  - intros j x [[-> ->]|[_ Hj]]%Hlk; [done|by apply (I6 j)].
  - intros j k sj sk id [[-> ->]|[Hj Hsj]]%Hlk [[-> ->]|[Hk Hsk]]%Hlk Hp Hp'; [done| | |by eapply I8].
    + exfalso. by eapply (Hins _ Hp k sk).
    + exfalso. by eapply (Hins _ Hp' j sj).
  - intros j k sj sk [[-> ->]|[Hj Hsj]]%Hlk [[-> ->]|[Hk Hsk]]%Hlk L1 L2 E; [done| | |by eapply I9].
    + destruct (Hlock L1) as [Ho|Hf]; [by eapply (I9 i k s sk); [..|congruence]|].
      exfalso. by apply (proj1 (lock_free_spec _ _ Hf) k sk Hsk L2); congruence.
    + destruct (Hlock L2) as [Ho|Hf]; [by eapply (I9 j i sj s); [..|congruence]|].
      exfalso. by apply (proj1 (lock_free_spec _ _ Hf) j sj Hsj L1); congruence.
  - intros j k sj c [[-> ->]|[Hj Hsj]]%Hlk Hc L1 L2; [|by eapply I10]. rewrite Esid.
    destruct (Hlock L1) as [Ho|Hf]; [by eapply (I10 i k s c)|]. intros E. by apply (proj2 (lock_free_spec _ _ Hf) k c Hc L2).
  - intros k p Hk Hp. destruct (I11 k p Hk Hp) as [G1 G2]. split; [|done]. intros j x [[-> ->]|[_ Hj]]%Hlk; [|by eapply G1].
    destruct (submit_gate (sb_phase s')) eqn:E; [|done]. destruct (Hgate eq_refl) as [Ho|Hf]; [by rewrite (G1 i s Hi) in Ho|].
    by rewrite (gate_readable_spec _ _ _ Hf Hk) in Hp.
Qed.

Lemma inv_set_cancel w i c c' :
  inv w -> w_cancels w !! i = Some c -> cn_session c' = cn_session c -> cancel_ok w c' ->
  (cancel_lock (cn_phase c') = true -> cancel_lock (cn_phase c) = true \/ lock_free (cn_session c) w = true) ->
  (cancel_gate (cn_phase c') = true -> cancel_gate (cn_phase c) = true \/ gate_readable w = true) ->
  inv (set_cancels (<[i := c']> (w_cancels w)) w).
Proof.
  intros Hinv Hi Esid Hok Hlock Hgate. pose proof Hinv as [I1 I2 I3 I4 I5 I6 I7 I8 I9 I10 I11].
  assert (Hlt : (i < length (w_cancels w))%nat) by by eapply lookup_lt_Some.
  assert (Hlk : forall j x, <[i := c']> (w_cancels w) !! j = Some x -> j = i /\ x = c' \/ j <> i /\ w_cancels w !! j = Some x).
  { intros j x Hj. destruct (decide (j = i)) as [->|Hne]; [rewrite list_lookup_insert_eq in Hj by done; left; by simplify_eq|].
    rewrite list_lookup_insert_ne in Hj by done. by right. }
  constructor; simpl; try done.
  - intros j x [[-> ->]|[_ Hj]]%Hlk; [done|by apply (I7 j)].
  - intros j k sj x Hsj [[-> ->]|[_ Hk]]%Hlk L1 L2; [|by eapply I10]. rewrite Esid.
    destruct (Hlock L2) as [Ho|Hf]; [by eapply (I10 j i sj c)|]. by apply (proj1 (lock_free_spec _ _ Hf) j sj Hsj L1).
  - intros k p Hk Hp. destruct (I11 k p Hk Hp) as [G1 G2]. split; [done|]. intros j x [[-> ->]|[_ Hj]]%Hlk; [|by eapply G2].
    destruct (cancel_gate (cn_phase c')) eqn:E; [|done]. destruct (Hgate eq_refl) as [Ho|Hf]; [by rewrite (G2 i c Hi) in Ho|].
    by rewrite (gate_readable_spec _ _ _ Hf Hk) in Hp.
Qed.

Lemma inv_set_stop w i s s' :
  inv w -> w_stops w !! i = Some s ->
  (stop_gate (sp_phase s') = true -> stop_gate (sp_phase s) = true \/ gate_writable w = true) ->
  (forall b ids, sp_phase s = StFire b ids -> forall sid id, id ∈ ids -> ~ live_in w sid id) ->
  inv (set_stops (<[i := s']> (w_stops w)) w).
Proof.
  intros Hinv Hi Hgate Hfire. pose proof Hinv as [I1 I2 I3 I4 I5 I6 I7 I8 I9 I10 I11].
  assert (Hlt : (i < length (w_stops w))%nat) by by eapply lookup_lt_Some.
  constructor; simpl; try done.
  - intros sid id Hl. destruct (I1 sid id Hl) as [Ht|[Ht|(j & sj & b & ids & Hj & Hp & Hid)]]; [by left|by right; left|].
    destruct (decide (j = i)) as [->|Hne]; [simplify_eq; by destruct (Hfire b ids Hp sid id Hid)|].
    right; right. exists j, sj, b, ids. simpl. by rewrite list_lookup_insert_ne.
  - intros k p Hk Hp. destruct (decide (k = i)) as [->|Hne].
    + rewrite list_lookup_insert_eq in Hk by done. injection Hk as <-. destruct (Hgate Hp) as [Ho|Hw]; [by apply (I11 i s)|].
      unfold gate_writable in Hw. apply andb_true_iff in Hw as [[_ H1]%andb_true_iff H2]. split.
      * intros j x Hj. apply negb_true_iff. exact (forallb_lookup _ _ _ _ H1 Hj).
      * intros j x Hj. apply negb_true_iff. exact (forallb_lookup _ _ _ _ H2 Hj).
    + rewrite list_lookup_insert_ne in Hk by done. by apply (I11 k p).
Qed.

(** ** Arrivals *)

Lemma snoc_lookup {A} (l : list A) x j y : (l ++ [x]) !! j = Some y -> l !! j = Some y \/ y = x.
Proof. intros H%lookup_app_Some. destruct H as [H|[_ H]]; [by left|]. right. by apply list_lookup_singleton_Some in H as [_ <-]. Qed.

Lemma inv_submit_arrives w sid blocks json : inv w -> inv (set_submits (w_submits w ++ [mkSubmit sid blocks json SbStart]) w).
Proof.
  intros [I1 I2 I3 I4 I5 I6 I7 I8 I9 I10 I11]. constructor; simpl; try done.
  - intros s id Hl. destruct (I1 s id Hl) as [Ht|[(i & x & r & Hi & H)|Ht]]; [by left| |by right; right].
    right; left. exists i, x, r. split; [|done]. simpl. rewrite lookup_app_l; [done|by eapply lookup_lt_Some].
  - intros i s [Hi| ->]%snoc_lookup; [by apply (I6 i)|done].
  - intros i j s s' id Hi Hj Hp Hp'. apply snoc_lookup in Hi as [Hi| ->]; [|done]. apply snoc_lookup in Hj as [Hj| ->]; [|done].
    by eapply I8.
  - intros i j s s' Hi Hj L1 L2. apply snoc_lookup in Hi as [Hi| ->]; [|done]. apply snoc_lookup in Hj as [Hj| ->]; [|done]. by eapply I9.
  - intros i j s c [Hi| ->]%snoc_lookup Hj; [by eapply I10|done].
  - intros k p Hk Hp. destruct (I11 k p Hk Hp) as [G1 G2]. split; [|done]. intros i s [Hi| ->]%snoc_lookup; [by eapply G1|done].
Qed.
Lemma inv_cancel_arrives w sid : inv w -> inv (set_cancels (w_cancels w ++ [mkCancel sid CnStart None]) w).
Proof.
  intros [I1 I2 I3 I4 I5 I6 I7 I8 I9 I10 I11]. constructor; simpl; try done.
  - intros i c [Hi| ->]%snoc_lookup; [by apply (I7 i)|by split].
  - intros i j s c Hi [Hj| ->]%snoc_lookup; [by eapply I10|done].
  - intros k p Hk Hp. destruct (I11 k p Hk Hp) as [G1 G2]. split; [done|]. intros i c [Hi| ->]%snoc_lookup; [by eapply G2|done].
Qed.
Lemma inv_stop_arrives w target guarded : inv w -> inv (set_stops (w_stops w ++ [mkStop target guarded StStart]) w).
Proof.
  intros [I1 I2 I3 I4 I5 I6 I7 I8 I9 I10 I11]. constructor; simpl; try done.
  - intros s id Hl. destruct (I1 s id Hl) as [Ht|[Ht|(i & x & b & ids & Hi & H)]]; [by left|by right; left|].
    right; right. exists i, x, b, ids. split; [|done]. simpl. rewrite lookup_app_l; [done|by eapply lookup_lt_Some].
  - intros k p [Hk| ->]%snoc_lookup; [by apply (I11 k p)|done].
Qed.

(** ** A turn is spawned *)

Lemma inv_spawn w i s r t :
  inv w -> w_submits w !! i = Some s -> sb_phase s = SbSpawned r -> tn_session t = sb_session s -> tn_phase t = TnStart ->
  w_turns w !! p_id r = None -> (forall id, ~ live_in w (sb_session s) id) ->
  inv (set_turns (<[p_id r := t]> (w_turns w)) w).
Proof.
  intros Hinv Hi Hp Et Eph Hnone Hno. pose proof Hinv as [I1 I2 I3 I4 I5 I6 I7 I8 I9 I10 I11].
  pose proof (I6 i s Hi) as Hsok. unfold submit_ok in Hsok. rewrite Hp in Hsok. destruct Hsok as (_ & Hmint & _).
  set (w' := set_turns (<[p_id r := t]> (w_turns w)) w).
  assert (Hl : forall sid id, live_in w' sid id -> live_in w sid id \/ id = p_id r /\ sid = sb_session s).
  { intros sid id (t0 & Ht0 & H). simpl in Ht0. destruct (decide (id = p_id r)) as [->|Hne].
    - right. rewrite lookup_insert_eq in Ht0. injection Ht0 as <-. destruct H as (_ & _ & <- & _). by rewrite Et.
    - left. rewrite lookup_insert_ne in Ht0 by done. by exists t0. }
  assert (Hother : forall j x, w_submits w !! j = Some x -> submit_lock (sb_phase x) = true -> sb_session x = sb_session s -> x = s).
  { intros j x Hj L E. assert (j = i) as -> by (eapply (I9 j i x s); [done|done|done|by rewrite Hp|done]). congruence. }
  constructor; simpl; try done.
  - intros sid id [Hold|[-> ->]]%Hl; [by apply (I1 sid)|]. right; left. by exists i, s, r.
  - intros sid id id' [H|[-> ->]]%Hl [H'|[-> E']]%Hl; [by apply (I2 sid)| | |done].
    + subst sid. by destruct (Hno _ H).
    + by destruct (Hno _ H').
  - intros id t0 Ht0. destruct (decide (id = p_id r)) as [->|Hne]; [done|]. rewrite lookup_insert_ne in Ht0 by done. by apply (I3 id t0).
  - intros id t0 Ht0 He. destruct (decide (id = p_id r)) as [->|Hne].
    + rewrite lookup_insert_eq in Ht0. injection Ht0 as <-. congruence.
    + rewrite lookup_insert_ne in Ht0 by done. by apply (I5 id t0).
  - intros j x Hj. pose proof (I6 j x Hj) as Hx. unfold submit_ok in *. specialize (Hother j x Hj).
    assert (Hins : forall id, prompt_of (sb_phase x) = Some id -> id = p_id r -> j = i).
    { intros id Hpo ->. apply (I8 j i x s (p_id r)); [done|done|done|by rewrite Hp]. }
    destruct (sb_phase x) eqn:Ex; try done.
    1-7: intros id [Hold|[-> E]]%Hl; [by apply (Hx id)|]; specialize (Hother eq_refl E); congruence.
    + destruct Hx as (Hx & Hm & Ht). split; [|split; [done|]].
      * intros id [Hold|[-> E]]%Hl; [by apply (Hx id)|]. specialize (Hother eq_refl E). congruence.
      * unfold w'. simpl. rewrite lookup_insert_ne; [done|]. intros E. pose proof (Hins _ eq_refl (eq_sym E)). congruence.
    + destruct Hx as (Hx & Hm & Ht). split; [|split; [done|]].
      * intros id [Hold|[-> E]]%Hl; [by apply (Hx id)|]. specialize (Hother eq_refl E). congruence.
      * intros t0 Ht0. simpl in Ht0. destruct (decide (p_id record = p_id r)) as [E|Hne].
        -- rewrite E, lookup_insert_eq in Ht0. injection Ht0 as <-. pose proof (Hins _ eq_refl E). congruence.
        -- rewrite lookup_insert_ne in Ht0 by done. by apply Ht.
  - intros j c Hj. destruct (I7 j c Hj) as [Hk Hs]. split.
    + assert (Hses : cancel_lock (cn_phase c) = true -> sb_session s <> cn_session c).
      { intros L. apply (I10 i j s c); [done|done|by rewrite Hp|done]. }
      destruct (cn_phase c); try done; destruct Hk as [Hm Hk]; (split; [done|]); intros id [Hold|[-> E]]%Hl; auto;
        by destruct (Hses eq_refl).
    + destruct (cn_sent c) as [[live before]|]; [|done]. destruct Hs as (Hm & Hb & Hlv & Hph). split_and!; [done| | |done].
      * intros id Hid%Hb. apply elem_of_dom. apply elem_of_dom in Hid. unfold w'. simpl. destruct (decide (id = p_id r)) as [->|Hne]; [by rewrite lookup_insert_eq|].
        by rewrite lookup_insert_ne.
      * intros id Hid [Hold|[-> E]]%Hl; [by apply Hlv|]. apply Hb, elem_of_dom in Hid as [t0 Ht0]. congruence.
Qed.

(** ** Changes that start no turn *)

Lemma quiet_same w w' :
  w_store w' = w_store w -> w_turns w' = w_turns w -> w_minted w' = w_minted w -> w_abandoned w' = w_abandoned w -> quiet w w'.
Proof.
  intros E1 E2 E3 E4. constructor; unfold live_in; rewrite ?E1, ?E2, ?E3, ?E4; try done.
  - intros id _. apply fate_refl.
  - intros id t Ht. by exists t.
  - intros id t Ht Hp. left. by exists t.
Qed.
Lemma quiet_store w st : inv w -> (forall id, id ∈ w_minted w -> fate (st_prompts (w_store w) !! id) (st_prompts st !! id)) -> quiet w (set_store st w).
Proof.
  intros Hi Hf. constructor; simpl; try done.
  - intros sid id (t & Ht & H1 & H2 & H3 & H4 & H5). exists t. split_and!; try done. apply (fate_live _ st); [|done]. apply Hf. by apply (i_turns w Hi id t).
  - intros id t Ht. by exists t.
  - intros id t Ht Hp. left. by exists t.
Qed.
Lemma quiet_turn w id t p :
  w_turns w !! id = Some t -> (p = TnEnded true -> settled_row (w_store w) id) -> ended t = false ->
  quiet w (set_turns (<[id := with_phase p t]> (w_turns w)) w).
Proof.
  intros Ht Hp Hend. constructor; simpl; try done.
  - intros sid i (t0 & Ht0 & H1 & H2 & H3 & H4 & H5). simpl in *. destruct (decide (i = id)) as [->|Hne].
    + rewrite lookup_insert_eq in Ht0. injection Ht0 as <-. exists t. by split_and!.
    + rewrite lookup_insert_ne in Ht0 by done. exists t0. by split_and!.
  - intros i _. apply fate_refl.
  - intros i. destruct (decide (i = id)) as [->|Hne]; [rewrite lookup_insert_eq; split; congruence|by rewrite lookup_insert_ne].
  - intros i t0 [[<- <-]|[_ Ht0]]%lookup_insert_Some; [by exists t|by exists t0].
  - intros i t0 Ht0 He. destruct (decide (i = id)) as [->|Hne].
    + rewrite lookup_insert_eq in Ht0. injection Ht0 as <-. right. by apply Hp.
    + rewrite lookup_insert_ne in Ht0 by done. left. by exists t0.
Qed.
Lemma fired_lookup w ids id :
  w_turns (fire_tokens ids w) !! id = (fun t => if bool_decide (id ∈ ids) then fire_token t else t) <$> w_turns w !! id.
Proof. simpl. rewrite map_lookup_imap. by destruct (w_turns w !! id). Qed.
Lemma fired_live w ids sid id : live_in (fire_tokens ids w) sid id -> live_in w sid id /\ id ∉ ids.
Proof.
  intros (t & Ht & H). rewrite fired_lookup in Ht. destruct (w_turns w !! id) as [t0|] eqn:E; [|done]. simpl in Ht.
  case_bool_decide as Hin; injection Ht as <-; [by destruct H as (_ & ? & _)|]. split; [by exists t0|done].
Qed.
Lemma quiet_fire w ids : quiet w (fire_tokens ids w).
Proof.
  constructor.
  - intros sid id Hl. by apply fired_live in Hl as [? _].
  - intros id _. apply fate_refl.
  - done.
  - intros id. rewrite fired_lookup. by destruct (w_turns w !! id).
  - intros id t Ht. rewrite fired_lookup in Ht. destruct (w_turns w !! id) as [t0|]; [|done]. exists t0. split; [done|].
    simpl in Ht. case_bool_decide; by injection Ht as <-.
  - intros id t Ht Hp. rewrite fired_lookup in Ht. destruct (w_turns w !! id) as [t0|]; [|done]. left. exists t0. split; [done|].
    simpl in Ht. case_bool_decide; injection Ht as <-; done.
Qed.
Lemma quiet_mint w id : quiet w (mint id w).
Proof.
  constructor; simpl; try done; [intros i _; apply fate_refl|set_solver|intros i t Ht; by exists t|]. intros i t Ht Hp. left. by exists t.
Qed.
Lemma quiet_abandon w id : quiet w (abandon id w).
Proof.
  constructor; simpl; try done.
  - intros sid i (t & Ht & H1 & H2 & H3 & H4 & H5). exists t. simpl in *. split_and!; try done. set_solver.
  - intros i _. apply fate_refl.
  - intros i t Ht. by exists t.
  - intros i t Ht Hp. left. by exists t.
Qed.

Lemma inv_store w st : inv w -> (forall id, id ∈ w_minted w -> fate (st_prompts (w_store w) !! id) (st_prompts st !! id)) -> inv (set_store st w).
Proof.
  intros Hi Hf. pose proof (quiet_store w st Hi Hf) as Hq. apply (inv_quiet w); try done; [|apply Hi].
  apply (quiet_tracked w); try done.
Qed.

(** Only turns that are not running leave the registry. *)
Lemma inv_registry w m :
  inv w -> m ⊆ w_prompts w -> (forall sid id, live_in w sid id -> w_prompts w !! id = Some sid -> m !! id = Some sid) -> inv (set_registry m w).
Proof.
  intros Hi Hsub Hlive. assert (Hq : quiet w (set_registry m w)) by by apply quiet_same. apply (inv_quiet w); try done.
  - apply (quiet_tracked w); try done.
  - simpl. intros id sid Hid. apply (i_registry w Hi id sid). by eapply lookup_weaken.
Qed.
Lemma inv_reap w : inv w -> inv (reap_finished w).
Proof.
  intros Hi. apply inv_registry; [done|apply map_filter_subseteq|]. intros sid id (t & Ht & He & _) Hr.
  apply map_lookup_filter_Some. split; [done|]. simpl. unfold is_finished. by rewrite Ht.
Qed.
Lemma inv_fire w ids : inv w -> inv (fire_tokens ids w).
Proof.
  intros Hi. pose proof (quiet_fire w ids) as Hq. apply (inv_quiet w); try done; [|apply Hi]. by apply (quiet_tracked w).
Qed.
Lemma inv_agent w a : inv w -> inv (set_agent a w).
Proof.
  intros Hi. assert (Hq : quiet w (set_agent a w)) by by apply quiet_same. apply (inv_quiet w); try done; [|apply Hi]. by apply (quiet_tracked w).
Qed.

(** ** What the checks find *)

(** The registry lists every live turn of a session to the holder of its lock. *)
Lemma registered_complete w sid :
  inv w -> (forall k p b ids, w_stops w !! k = Some p -> sp_phase p <> StFire b ids) ->
  (forall i s r, w_submits w !! i = Some s -> sb_phase s = SbSpawned r -> sb_session s <> sid) ->
  forall id, live_in w sid id -> id ∈ registered_prompts_for_session sid w.
Proof.
  intros Hi Hstop Hsp id Hl. destruct (i_tracked w Hi sid id Hl) as [Hr|[(i & s & r & Hs & Hp & _ & Hsid)|(k & p & b & ids & Hk & Hp & _)]].
  - destruct Hl as (t & Ht & He & _). unfold registered_prompts_for_session. apply list_elem_of_fmap. exists (id, sid). split; [done|].
    apply list_elem_of_filter. split; [|by apply elem_of_map_to_list]. simpl. split; [done|]. unfold is_finished. by rewrite Ht.
  - by destruct (Hsp i s r Hs Hp).
  - by destruct (Hstop k p b ids Hk).
Qed.
Lemma registered_minted w sid : inv w -> Forall (fun id => id ∈ w_minted w) (registered_prompts_for_session sid w).
Proof.
  intros Hi. apply Forall_forall. intros id Hid. unfold registered_prompts_for_session in Hid.
  apply list_elem_of_fmap in Hid as ([i s] & -> & Hin). apply list_elem_of_filter in Hin as [_ Hin%elem_of_map_to_list]. by apply (i_registry w Hi i s).
Qed.

Lemma status_parsed p x : prompt_status_from_str (p_status p) = Ok x -> status_settled (p_status p) = terminal x.
Proof. intros ->%prompt_status_from_str_inv. by destruct x. Qed.

Lemma live_rows_spec ids st live : live_rows ids st = Ok live -> forall id, id ∈ ids -> row_live st id -> id ∈ live.
Proof.
  revert live. induction ids as [|i ids IH]; intros live; simpl; [by intros _ id ?%elem_of_nil|]. unfold get_prompt.
  destruct (st_prompts st !! i) as [p|] eqn:Ei.
  - destruct (prompt_status_from_str (p_status p)) as [x|] eqn:Ex; [|done]. simpl. destruct (live_rows ids st) as [rest|]; [|done].
    intros [= <-] id [->|Hid]%elem_of_cons Hl.
    + destruct Hl as (p0 & Hp0 & Hs). assert (p0 = p) as -> by congruence. rewrite (status_parsed p x Ex) in Hs. rewrite Hs. by left.
    + specialize (IH _ eq_refl id Hid Hl). destruct (terminal x); [done|by right].
  - intros Hr id [->|Hid]%elem_of_cons Hl; [destruct Hl as (p0 & Hp0 & _); congruence|]. by apply IH.
Qed.
Lemma live_rows_sub ids st live : live_rows ids st = Ok live -> forall id, id ∈ live -> id ∈ ids.
Proof.
  revert live. induction ids as [|i ids IH]; intros live; simpl; [by intros [= <-]|]. unfold get_prompt.
  destruct (st_prompts st !! i) as [p|].
  - destruct (prompt_status_from_str (p_status p)) as [x|]; [|done]. simpl. destruct (live_rows ids st) as [rest|]; [|done].
    intros [= <-] id Hid. destruct (terminal x); [right; by eapply IH|]. apply elem_of_cons in Hid as [->|Hid]; [by left|right; by eapply IH].
  - intros Hr id Hid. right. by eapply IH.
Qed.

(** Each pass of a cancel keeps what it saw and reads the rest. *)
Lemma poll_rows_spec ids observed st observed' :
  poll_rows ids observed st = Ok observed' -> Forall2 (seen_row st) ids observed -> Forall2 (seen_row st) ids observed'.
Proof.
  intros Hp Hs. revert observed' Hp. induction Hs as [|id o ids observed Ho _ IH]; intros observed'; simpl; [by intros [= <-]|].
  destruct o as [status|].
  - destruct (poll_rows ids observed st) as [rest|]; [|done]. intros [= <-]. constructor; auto.
  - unfold get_prompt. destruct (st_prompts st !! id) as [p|] eqn:Ei; [|done].
    destruct (prompt_status_from_str (p_status p)) as [x|] eqn:Ex; [|done]. simpl. destruct (poll_rows ids observed st) as [rest|]; [|done].
    intros [= <-]. constructor; [|auto]. destruct (terminal x) eqn:Et; [|done]. split.
    + intros p0 Hp0. assert (p0 = p) as -> by congruence. by rewrite (status_parsed p x Ex).
    + intros -> p0 Hp0. assert (p0 = p) as -> by congruence. by apply prompt_status_from_str_inv in Ex.
Qed.
Lemma verdict_cancelled observed st ids :
  Forall2 (seen_row st) ids observed -> cancel_settle_verdict observed = VerdictCancelled -> Forall (cancelled_row st) ids.
Proof.
  unfold cancel_settle_verdict. intros Hs. destruct (existsb _ observed); [done|]. destruct (forallb _ observed) eqn:E; [|done]. intros _.
  induction Hs as [|id o ids observed Ho _ IH]; [done|]. simpl in E. apply andb_true_iff in E as [->%bool_decide_eq_true E].
  constructor; [by apply Ho|auto].
Qed.

(** ** Submissions *)

Context (json_valid : string -> bool) (external : bool).
Context (print_json : Json -> string) (error_code public_message : TurnError -> string).
Context (print_notification : string -> UserMessageChunk Block -> option string).

Definition with_submit (i : nat) (s : Submit Block) (p : SubmitPhase) w : World Block :=
  set_submits (<[i := mkSubmit (sb_session s) (sb_blocks s) (sb_prompt_json s) p]> (w_submits w)) w.

(** A phase of the same guards. *)
Lemma inv_simple w i s p :
  inv w -> w_submits w !! i = Some s -> submit_ok w (mkSubmit (sb_session s) (sb_blocks s) (sb_prompt_json s) p) ->
  (submit_lock p = true -> submit_lock (sb_phase s) = true) -> (submit_gate p = true -> submit_gate (sb_phase s) = true) ->
  (forall r, sb_phase s <> SbSpawned r) -> (prompt_of p = None \/ prompt_of p = prompt_of (sb_phase s)) -> inv (with_submit i s p w).
Proof.
  intros Hi Hs Hok Hl Hg Hsp Hins. apply (inv_set_submit w i s); simpl; try done; [auto|auto| |].
  - intros id Hid j sj Hne Hj Hpj. destruct Hins as [E|E]; [congruence|]. apply Hne. apply (i_inserted w Hi j i sj s id); congruence.
  - intros r Hr. by destruct (Hsp r).
Qed.

Lemma commit_spec {A} io (job : (nat -> string) -> string -> M A) w r w' :
  (forall ids now, calm (job ids now)) -> commit io job w = (r, w') ->
  exists st, w' = set_store st w /\ forall id, fate (st_prompts (w_store w) !! id) (st_prompts st !! id).
Proof.
  intros Hc. unfold commit. destruct io as [[ids now]|].
  - destruct (job ids now (w_store w)) as [[a st]|] eqn:E; intros [= <- <-].
    + exists st. split; [done|]. intros id. by eapply Hc.
    + exists (w_store w). split; [by destruct w|]. intros id. apply fate_refl.
  - intros [= <- <-]. exists (w_store w). split; [by destruct w|]. intros id. apply fate_refl.
Qed.
Lemma inv_commit {A} io (job : (nat -> string) -> string -> M A) w r w' :
  inv w -> (forall ids now, calm (job ids now)) -> commit io job w = (r, w') ->
  inv w' /\ quiet w w' /\ w_submits w' = w_submits w /\ w_cancels w' = w_cancels w /\ w_stops w' = w_stops w /\ w_turns w' = w_turns w.
Proof.
  intros Hi Hc Hcm. destruct (commit_spec _ _ _ _ _ Hc Hcm) as (st & -> & Hf). split_and!; try done; [apply inv_store|apply quiet_store]; auto.
Qed.

(** A submission that holds its lock sees every live turn of its session. *)
Lemma submit_registered w i s :
  inv w -> w_submits w !! i = Some s -> submit_lock (sb_phase s) = true -> (forall r, sb_phase s <> SbSpawned r) ->
  forall id, live_in w (sb_session s) id -> id ∈ registered_prompts_for_session (sb_session s) w.
Proof.
  intros Hi Hs Hl Hn. apply registered_complete; [done| |].
  - intros k p b ids Hk Hp. destruct (i_gate w Hi k p Hk) as [Hg _]; [by rewrite Hp|]. specialize (Hg i s Hs).
    destruct (sb_phase s); done.
  - intros j x r Hj Hp E. assert (j = i) as -> by (eapply (i_submit_lock w Hi j i x s); [done|done|by rewrite Hp|done|done]).
    simplify_eq. by destruct (Hn r).
Qed.

Lemma attach_step_inv w sid kind p x r w' :
  inv w -> attach_step json_valid external print_json sid kind p x w = Some (r, w') ->
  inv w' /\ quiet w w' /\ w_submits w' = w_submits w.
Proof.
  intros Hi. assert (Hsame : inv w /\ quiet w w /\ w_submits w = w_submits w) by (split_and!; [done|by apply quiet_same|done]).
  unfold attach_step. destruct p as [|b|b record|record cwd skipped|record cwd skipped], x; try done; try (intros [= <- <-]; exact Hsame).
  destruct (commit _ _ w) as [r0 w0] eqn:E. intros [= <- <-].
  destruct (inv_commit _ _ _ _ _ Hi (fun ids now => calm_attach _ _ _ _ _ _ _ _ _ _ _) E) as (? & ? & ? & _). done.
Qed.

Lemma submit_next_free w i s x p w' :
  inv w -> w_submits w !! i = Some s ->
  match sb_phase s with SbFree _ _ | SbTouch _ _ | SbAttach _ _ _ _ | SbReady _ _ | SbDrained _ _ => true | _ => false end = true ->
  submit_next json_valid external print_json print_notification s x w = Some (p, w') -> inv (with_submit i s p w').
Proof.
  intros Hi Hs Hph. pose proof (i_submits w Hi i s Hs) as Hok. unfold submit_ok in Hok.
  assert (Hmove : forall w1 q, inv w1 -> quiet w w1 -> w_submits w1 = w_submits w -> (forall id, ~ live_in w (sb_session s) id) ->
    match q with SbTouch _ _ | SbAttach _ _ _ _ | SbReady _ _ | SbDrained _ _ | SbTaken _ _ | SbAnswered _ => true | _ => false end = true ->
    inv (with_submit i s q w1)).
  { intros w1 q H1 Hq Es Hno Hqp. apply inv_simple; [done|by rewrite Es| | | | |].
    - unfold submit_ok. simpl. destruct q; try done; intros id Hl%(q_live w w1 Hq); by apply (Hno id).
    - intros _. by destruct (sb_phase s).
    - intros _. by destruct (sb_phase s).
    - intros r E. by rewrite E in Hph.
    - left. by destruct q. }
  unfold submit_next. destruct (sb_phase s) as [| | | | | | |b agent|b agent|b agent kind ap|b agent|b agent| | | | | |]; try done; clear Hph.
  - destruct x as [|[]| | |resume load servers| | | | | | |]; try done; intros [= <- <-];
      (apply Hmove; [done|by apply quiet_same|done|done|]); [done|]. by destruct resume, load, servers.
  - destruct x as [| | |io| | | | | | | |]; try done. destruct (commit io _ w) as [r w1] eqn:E. intros [= <- <-].
    destruct (inv_commit _ _ _ _ _ Hi (fun ids now => calm_activate _ _ _ _) E) as (? & ? & ? & _). apply Hmove; try done. by destruct r.
  - destruct (attach_step _ _ _ _ _ _ _ _) as [[r w1]|] eqn:E; [|done]. intros [= <- <-].
    destruct (attach_step_inv _ _ _ _ _ _ _ Hi E) as (? & ? & ?). apply Hmove; try done. by destruct r as [[]|].
  - destruct x; try done. intros [= <- <-]. apply Hmove; try done. by apply quiet_same.
  - destruct x; try done. intros [= <- <-]. apply Hmove; try done. by apply quiet_same.
Qed.

Lemma submit_next_check w i s x p w' :
  inv w -> w_submits w !! i = Some s ->
  match sb_phase s with SbStart | SbGate | SbLocked | SbBridge _ | SbOpen _ _ | SbReaped _ _ | SbListed _ _ _ => true | _ => false end = true ->
  submit_next json_valid external print_json print_notification s x w = Some (p, w') -> inv (with_submit i s p w').
Proof.
  intros Hi Hs Hph. pose proof (i_submits w Hi i s Hs) as Hok. unfold submit_ok in Hok.
  assert (Hquiet : forall w1 q, inv w1 -> w_submits w1 = w_submits w -> submit_ok w1 (mkSubmit (sb_session s) (sb_blocks s) (sb_prompt_json s) q) ->
    (submit_lock q = true -> submit_lock (sb_phase s) = true) -> (submit_gate q = true -> submit_gate (sb_phase s) = true) ->
    prompt_of q = None -> inv (with_submit i s q w1)).
  { intros w1 q H1 Es Hq Hl Hg Hins. apply inv_simple; [done|by rewrite Es|done|done|done| |by left]. intros r E. by rewrite E in Hph. }
  pose proof (submit_registered w i s Hi Hs) as Hreg.
  unfold submit_next. destruct (sb_phase s) as [| | |b|b agent|b agent|b agent ids| | | | | | | | | | |] eqn:Ep; try done; clear Hph; destruct x; try done.
  - destruct (gate_readable w) eqn:Eg; [|done]. intros [= <- <-].
    apply (inv_set_submit w i s); simpl; rewrite ?Ep; try done. by right.
  - destruct (lock_free (sb_session s) w) eqn:El; [|done]. intros [= <- <-].
    apply (inv_set_submit w i s); simpl; rewrite ?Ep; try done; by auto.
  - intros [= <- <-]. unfold bridge. destruct (w_agent w); apply Hquiet; done.
  - intros [= <- <-]. destruct (query ok _ w); apply Hquiet; done.
  - intros [= <- <-]. apply Hquiet; try done. by apply inv_reap.
  - intros [= <- <-]. specialize (Hreg eq_refl ltac:(done)).
    destruct (registered_prompts_for_session (sb_session s) w) as [|id ids] eqn:Er; (apply Hquiet; try done).
    intros id Hl. by apply Hreg, elem_of_nil in Hl.
  - intros [= <- <-]. unfold query, store_error. destruct ok; simpl; [|apply Hquiet; done].
    destruct (live_rows ids (w_store w)) as [[|id live]|] eqn:El; simpl; apply Hquiet; try done.
    intros id Hl. pose proof (live_rows_spec _ _ _ El id (Hok id Hl)) as H. destruct Hl as (t & _ & _ & _ & _ & _ & Hr).
    by apply H, elem_of_nil in Hr.
Qed.

Lemma submit_next_insert w i s x b agent p w' :
  inv w -> w_submits w !! i = Some s -> sb_phase s = SbTaken b agent ->
  submit_next json_valid external print_json print_notification s x w = Some (p, w') -> inv (with_submit i s p w').
Proof.
  intros Hi Hs Ep. pose proof (i_submits w Hi i s Hs) as Hno. unfold submit_ok in Hno. rewrite Ep in Hno.
  unfold submit_next. rewrite Ep. destruct x as [| | |[[ids now]|]| | | | | | | |]; try done.
  2: { intros [= <- <-]. apply inv_simple; simpl; rewrite ?Ep; try done. by left. }
  case_bool_decide as Hm; [done|]. set (pid := ids 0%nat) in *.
  destruct (commit _ _ (mint pid w)) as [r w1] eqn:E. intros [= <- <-].
  assert (Hmint : quiet w (mint pid w)) by apply quiet_mint.
  assert (Him : inv (mint pid w)).
  { apply (inv_quiet w); try done; [by apply (quiet_tracked w)|]. intros id sid Hid. simpl. apply elem_of_union. right. by apply (i_registry w Hi id sid). }
  assert (Hfresh : w_turns w !! pid = None).
  { destruct (w_turns w !! pid) as [t|] eqn:Et; [|done]. by destruct (Hm (i_turns w Hi pid t Et)). }
  unfold commit in E. destruct (submit_job _ _ _ _ _ _ _ _ _ _ _ _) as [[record st]|e] eqn:Ej; injection E as <- <-.
  - destruct (submit_job_run _ _ _ _ _ _ _ _ _ _ _ _ _ _ Ej) as [Eid Hf]. simpl in Ej, Hf.
    assert (Hq : quiet w (set_store st (mint pid w))).
    { constructor; simpl; try done.
      - intros sid id (t & Ht & H1 & H2 & H3 & H4 & H5). exists t. split_and!; try done. apply (fate_live _ st); [|done]. apply Hf.
        intros ->. simpl in Ht. congruence.
      - intros id Hid. apply Hf. intros ->. done.
      - set_solver.
      - intros id t Ht. by exists t.
      - intros id t Ht Hp. left. by exists t. }
    assert (Hi1 : inv (set_store st (mint pid w))).
    { apply (inv_quiet w); try done; [by apply (quiet_tracked w)|]. intros id sid Hid. simpl. apply elem_of_union. right. by apply (i_registry w Hi id sid). }
    simpl. apply (inv_set_submit _ i s); simpl; rewrite ?Ep; try done; try by left.
    + split; [|split]; [|simpl; rewrite Eid; set_solver|simpl; by rewrite Eid].
      intros id Hl%(q_live _ _ Hq). by apply (Hno id).
    + intros id [= <-] j sj Hne Hj Hpj. pose proof (i_submits w Hi j sj Hj) as Hok. unfold submit_ok in Hok.
      destruct (sb_phase sj) as [| | | | | | | | | | | | |? ? ? r|r| | |]; try done; injection Hpj as Er; destruct Hok as (_ & Hin & _); congruence.
  - simpl. apply inv_simple; simpl; rewrite ?Ep; try done. by left.
Qed.

Lemma submit_next_spawn w i s x b agent m record p w' :
  inv w -> w_submits w !! i = Some s -> sb_phase s = SbInserted b agent m record ->
  submit_next json_valid external print_json print_notification s x w = Some (p, w') -> inv (with_submit i s p w').
Proof.
  intros Hi Hs Ep. pose proof (i_submits w Hi i s Hs) as Hok. unfold submit_ok in Hok. rewrite Ep in Hok. destruct Hok as (Hno & Hm & Hfresh).
  unfold submit_next. rewrite Ep. destruct x; try done. intros [= <- <-].
  set (s1 := mkSubmit (sb_session s) (sb_blocks s) (sb_prompt_json s) (SbSpawned record)).
  assert (Hlt : (i < length (w_submits w))%nat) by by eapply lookup_lt_Some.
  assert (H1 : inv (with_submit i s (SbSpawned record) w)).
  { apply inv_simple; simpl; rewrite ?Ep; try done; [|by right]. split; [intros id Hl; by destruct (Hno id Hl)|].
    split; [done|]. intros t Ht. simpl in Ht. congruence. }
  refine (inv_spawn (with_submit i s (SbSpawned record) w) i s1 record _ H1 _ _ _ _ _ _); try done. simpl. by rewrite list_lookup_insert_eq.
Qed.

Lemma submit_next_register w i s x p w' :
  inv w -> w_submits w !! i = Some s ->
  match sb_phase s with SbSpawned _ | SbRegistered _ | SbAnswered _ | SbDropped => true | _ => false end = true ->
  submit_next json_valid external print_json print_notification s x w = Some (p, w') -> inv (with_submit i s p w').
Proof.
  intros Hi Hs Hph. pose proof (i_submits w Hi i s Hs) as Hok. unfold submit_ok in Hok.
  unfold submit_next. destruct (sb_phase s) as [| | | | | | | | | | | | | |record|record| |] eqn:Ep; try done; destruct x; try done; intros [= <- <-].
  - destruct Hok as (Hone & Hm & Hses). set (w1 := set_registry (<[p_id record := sb_session s]> (w_prompts w)) w).
    assert (Hq : quiet w w1) by by apply quiet_same.
    assert (H1 : inv w1).
    { apply (inv_quiet w); try done.
      - apply (quiet_tracked w); try done. intros sid id (t & Ht & _ & _ & Esid & _) Hr. simpl.
        destruct (decide (id = p_id record)) as [->|Hne]; [|by rewrite lookup_insert_ne].
        rewrite lookup_insert_eq. f_equal. rewrite <- Esid. symmetry. by apply Hses.
      - intros id sid. simpl. intros [[<- _]|[_ Hid]]%lookup_insert_Some; [done|by apply (i_registry w Hi id sid)]. }
    apply (inv_set_submit w1 i s); simpl; rewrite ?Ep; try done; try by left. intros r [= <-]. right; left. apply lookup_insert_eq.
  - apply inv_simple; simpl; rewrite ?Ep; try done; [by apply inv_reap|by left].
Qed.

Lemma submit_step_inv i x w w' : inv w -> submit_step json_valid external print_json print_notification i x w = Some w' -> inv w'.
Proof.
  intros Hi. unfold submit_step. destruct (w_submits w !! i) as [s|] eqn:Hs; [|done].
  assert (Hnext : forall p w1, submit_next json_valid external print_json print_notification s x w = Some (p, w1) -> inv (with_submit i s p w1)).
  { intros p w1 E. destruct (sb_phase s) eqn:Ep.
    14: by eapply submit_next_spawn.
    13: by eapply submit_next_insert.
    1-7: eapply submit_next_check; [done|done|by rewrite Ep|exact E].
    1-5: eapply submit_next_free; [done|done|by rewrite Ep|exact E].
    1-4: eapply submit_next_register; [done|done|by rewrite Ep|exact E]. }
  assert (Hdrop : forall p w1, submit_drop s w = Some (p, w1) -> inv (with_submit i s p w1)).
  { intros p w1. unfold submit_drop. destruct (sb_phase s) as [| | | | | | | | | | | | | |record| | |] eqn:Ep; try done; intros [= <- <-].
    15: { apply (inv_set_submit (abandon (p_id record) w) i s); simpl; rewrite ?Ep; try done.
          - pose proof (quiet_abandon w (p_id record)) as Hq. apply (inv_quiet w); try done; [by apply (quiet_tracked w)|apply Hi].
          - intros r [= <-]. left. intros (t & _ & _ & _ & _ & Hn & _). simpl in Hn. set_solver. }
    all: apply inv_simple; simpl; rewrite ?Ep; try done; by left. }
  match goal with |- match ?m with Some _ => _ | None => _ end = _ -> _ =>
    assert (Hall : forall p w1, m = Some (p, w1) -> inv (with_submit i s p w1)) by (intros p w1; destruct x; auto); destruct m as [[p w1]|]
  end; [|done]. intros [= <-]. by apply Hall.
Qed.

(** ** Turns *)

Lemma inv_turn w id t p :
  inv w -> w_turns w !! id = Some t -> (p = TnEnded true -> settled_row (w_store w) id) -> ended t = false ->
  inv (set_turns (<[id := with_phase p t]> (w_turns w)) w).
Proof.
  intros Hi Ht Hp He. pose proof (quiet_turn w id t p Ht Hp He) as Hq. apply (inv_quiet w); try done; [by apply (quiet_tracked w)|apply Hi].
Qed.

(** A settlement that was committed leaves the row settled. *)
Lemma inv_settle w io id sid o r w' :
  inv w -> commit io (settle_job json_valid external print_json error_code public_message id sid o) w = (r, w') ->
  inv w' /\ w_turns w' = w_turns w /\ (r = Ok tt -> settled_row (w_store w') id).
Proof.
  intros Hi Hc. assert (Hcalm : forall ids now, calm (settle_job json_valid external print_json error_code public_message
    id sid o ids now)) by (intros ids now st a st' H; by apply settle_job_run in H as [H _]).
  destruct (inv_commit _ _ _ _ _ Hi Hcalm Hc) as (H1 & _ & _ & _ & _ & H2). split_and!; [done|done|]. intros ->.
  unfold commit in Hc. destruct io as [[ids now]|]; [|done].
  destruct (settle_job _ _ _ _ _ _ _ _ _ _ _) as [[a st]|] eqn:E; [|done]. injection Hc as _ <-. by apply settle_job_run in E as [_ E].
Qed.

Lemma turn_next_spec id t x w p w' :
  inv w -> turn_next json_valid external print_json error_code public_message id t x w = Some (p, w') ->
  inv w' /\ w_turns w' = w_turns w /\ ended t = false /\ (p = TnEnded true -> settled_row (w_store w') id).
Proof.
  intros Hi. unfold turn_next, ended.
  assert (Hsame : forall q, q <> TnEnded true -> inv w /\ w_turns w = w_turns w /\ false = false /\ (q = TnEnded true -> settled_row (w_store w) id)).
  { intros q Hq. by split_and!. }
  assert (Hcommit : forall {A} io (job : (nat -> string) -> string -> M A) r w1 q, (forall ids now, calm (job ids now)) -> commit io job w = (r, w1) ->
    q <> TnEnded true -> inv w1 /\ w_turns w1 = w_turns w /\ false = false /\ (q = TnEnded true -> settled_row (w_store w1) id)).
  { intros A io job r w1 q Hc E Hq. destruct (inv_commit _ _ _ _ _ Hi Hc E) as (H1 & _ & _ & _ & _ & H2). by split_and!. }
  destruct (tn_phase t) as [| |o|[[response|e]|]|o|o m|o|b]; destruct x as [| | |io| | | |r| |m'| |]; try done;
    try (intros [= <- <-]; apply Hsame; done).
  - destruct (commit io _ w) as [r w1] eqn:E. intros [= <- <-]. eapply (Hcommit _ _ _ _ _ _ (fun ids now => calm_status _ _ _ _ _ _ _ _ _) E). done.
  - destruct (tn_token t); [|done]. intros [= <- <-]. by apply Hsame.
  - destruct (acknowledged t response); [|intros [= <- <-]; by apply Hsame].
    destruct (commit io _ w) as [r w1] eqn:E. intros [= <- <-]. eapply (Hcommit _ _ _ _ _ _ (fun ids now => calm_acknowledge _ _ _ _) E). done.
  - destruct m'; intros [= <- <-]; by apply Hsame.
  - destruct (commit io _ w) as [r w1] eqn:E. intros [= <- <-]. eapply (Hcommit _ _ _ _ _ _ (fun ids now => calm_agent_message _ _ _ _) E). done.
  - destruct (commit io _ w) as [r w1] eqn:E. intros [= <- <-]. destruct (inv_settle _ _ _ _ _ _ _ Hi E) as (H1 & H2 & H3).
    split_and!; [done|done|done|]. destruct r as [[]|]; [|done]. intros _. by apply H3.
Qed.

Lemma turn_step_inv id x w w' :
  inv w -> turn_step json_valid external print_json error_code public_message id x w = Some w' -> inv w'.
Proof.
  intros Hi. unfold turn_step. destruct (w_turns w !! id) as [t|] eqn:Ht; [|done].
  destruct (turn_next _ _ _ _ _ id t x w) as [[p w1]|] eqn:E; [|done]. intros [= <-].
  destruct (turn_next_spec _ _ _ _ _ _ Hi E) as (H1 & H2 & H3 & H4). apply inv_turn; [done|by rewrite H2|done|done].
Qed.

(** ** Cancels *)

(** A cancel that holds its lock sees every live turn of its session. *)
Lemma cancel_registered w i c :
  inv w -> w_cancels w !! i = Some c -> cancel_lock (cn_phase c) = true ->
  forall id, live_in w (cn_session c) id -> id ∈ registered_prompts_for_session (cn_session c) w.
Proof.
  intros Hi Hc Hl. apply registered_complete; [done| |].
  - intros k p b ids Hk Hp. destruct (i_gate w Hi k p Hk) as [_ Hg]; [by rewrite Hp|]. specialize (Hg i c Hc).
    unfold cancel_lock in Hl. destruct (cn_phase c); done.
  - intros j x r Hj Hp. apply (i_cancel_lock w Hi j i x c); [done|done|by rewrite Hp|done].
Qed.

Lemma inv_forget w ids : inv w -> Forall (cancelled_row (w_store w)) ids -> inv (forget_prompts ids w).
Proof.
  intros Hi Hc. assert (Hsub : foldr (fun id m => delete id m) (w_prompts w) ids ⊆ w_prompts w).
  { clear Hc. induction ids as [|id ids IH]; [done|]. simpl. etrans; [apply delete_subseteq|done]. }
  apply inv_registry; [done|done|]. intros sid id Hl Hr. clear Hsub.
  assert (Hid : id ∉ ids).
  { intros Hin. rewrite Forall_forall in Hc. specialize (Hc id Hin). destruct Hl as (t & _ & _ & _ & _ & _ & Hrow).
    by apply (settled_not_live _ _ (cancelled_settled _ _ Hc)). }
  clear Hc Hl. induction ids as [|i ids IH]; [done|]. simpl. apply not_elem_of_cons in Hid as [Hne Hid]. rewrite lookup_delete_ne; auto.
Qed.

Definition with_cancel (i : nat) (c : Cancel) (p : CancelPhase) (sent : option (list string * gset string)) w : World Block :=
  set_cancels (<[i := mkCancel (cn_session c) p sent]> (w_cancels w)) w.

(** Before the notification nothing is recorded as sent. *)
Lemma cancel_unsent w i c :
  inv w -> w_cancels w !! i = Some c -> cancel_gate (cn_phase c) = true \/ cn_phase c = CnStart -> cn_sent c = None.
Proof.
  intros Hi Hc Hg. destruct (i_cancels w Hi i c Hc) as [_ Hs]. destruct (cn_sent c) as [[live before]|]; [|done].
  destruct Hs as (_ & _ & _ & Hs). destruct Hg as [Hg|Hg]; [by destruct (cn_phase c)|by rewrite Hg in Hs].
Qed.

(** A phase that holds no new guard. *)
Lemma inv_cancel w i c p sent :
  inv w -> w_cancels w !! i = Some c -> cancel_ok w (mkCancel (cn_session c) p sent) ->
  (cancel_lock p = true -> cancel_lock (cn_phase c) = true) -> (cancel_gate p = true -> cancel_gate (cn_phase c) = true) ->
  inv (with_cancel i c p sent w).
Proof. intros Hi Hc Hok Hl Hg. apply (inv_set_cancel w i c); simpl; try done; auto. Qed.

(** The phases that record nothing about turns. *)
Definition plain (p : CancelPhase) : bool :=
  match p with CnListed _ _ | CnLive _ _ | CnSweep _ _ _ | CnPoll _ _ _ | CnForget _ _ | CnWrite _ => false | _ => true end.
Lemma plain_ok w sid p : plain p = true -> cancel_ok w (mkCancel sid p None).
Proof. intros H. split; simpl; by destruct p. Qed.

(** The notification goes out with every live turn in its list. *)
Lemma live_sent_ok w sid session live :
  Forall (fun id => id ∈ w_minted w) live -> (forall id, live_in w sid id -> id ∈ live) ->
  cancel_ok w (mkCancel sid (CnSweep session live (replicate (length live) None)) (Some (live, dom (w_turns w)))).
Proof.
  intros Hm Hl. split; [done|]. simpl. split_and!; [done|done|auto|done|]. clear. induction live; simpl; constructor; done.
Qed.

Lemma cancel_next_locked w i c x p sent w' :
  inv w -> w_cancels w !! i = Some c -> cancel_gate (cn_phase c) = true \/ cn_phase c = CnStart ->
  cancel_next json_valid external print_json c x w = Some (p, sent, w') -> inv (with_cancel i c p sent w').
Proof.
  intros Hi Hc Hg. pose proof (cancel_unsent w i c Hi Hc Hg) as Es. pose proof (i_cancels w Hi i c Hc) as [Hk _].
  pose proof (cancel_registered w i c Hi Hc) as Hreg.
  assert (Hmove : forall q, plain q = true -> (cancel_lock q = true -> cancel_lock (cn_phase c) = true) ->
    (cancel_gate q = true -> cancel_gate (cn_phase c) = true) -> inv (with_cancel i c q None w)).
  { intros q Hq Hl Hgt. apply inv_cancel; [done|done|by apply plain_ok|done|done]. }
  assert (Hlist : forall q, match q with CnListed _ ids | CnLive _ ids => Forall (fun id => id ∈ w_minted w) ids /\
      forall id, live_in w (cn_session c) id -> id ∈ ids | _ => False end -> cancel_lock (cn_phase c) = true -> inv (with_cancel i c q None w)).
  { intros q Hq Hl. apply inv_cancel; [done|done| |done|intros _; by destruct (cn_phase c)]. split; simpl; by destruct q. }
  unfold cancel_next, cancel_subagent. rewrite Es.
  destruct (cn_phase c) as [| | | |session|session ids|session live| | | | |session sub|session sub|session|session|session| |] eqn:Ep; try by destruct Hg.
  all: destruct x as [|[]|ok|io| | | | | | | |]; try done; try (intros [= <- <- <-]; apply Hmove; done).
  - destruct (gate_readable w) eqn:E; [|done]. intros [= <- <- <-]. apply (inv_set_cancel w i c); simpl; try done; by right.
  - destruct (lock_free _ w) eqn:E; [|done]. intros [= <- <- <-]. apply (inv_set_cancel w i c); simpl; rewrite ?Ep; try done; auto.
  - intros [= <- <- <-]. unfold bridge. destruct (w_agent w); by apply Hmove.
  - intros [= <- <- <-]. unfold query. destruct ok; [|by apply Hmove]. destruct (get_session _ _); [|by apply Hmove].
    destruct (get_subagent _ _); by apply Hmove.
  - intros [= <- <- <-]. specialize (Hreg eq_refl). pose proof (registered_minted w (cn_session c) Hi) as Hm.
    destruct (registered_prompts_for_session (cn_session c) w); by apply Hlist.
  - intros [= <- <- <-]. unfold query, store_error. destruct ok; [|by apply Hmove]. destruct (live_rows ids (w_store w)) as [live|] eqn:E; [|by apply Hmove].
    apply Hlist; [|done]. destruct Hk as [Hm Hl]. split.
    + rewrite Forall_forall in Hm |- *. intros id Hid. apply Hm. by eapply live_rows_sub.
    + intros id Hid. eapply live_rows_spec; [done|by apply Hl|]. by destruct Hid as (t & _ & _ & _ & _ & _ & Hrow).
  - intros [= <- <- <-]. apply inv_cancel; try done. apply live_sent_ok; apply Hk.
  - intros [= <- <- <-]. unfold query. destruct ok; [|by apply Hmove]. destruct (get_session _ _); by apply Hmove.
  - intros [= <- <- <-]. destruct (sa_cancel_granted sub); by apply Hmove.
  - intros [= <- <- <-]. rewrite andb_false_r. by apply Hmove.
  - destruct (commit io _ w) as [r w1] eqn:E. intros [= <- <- <-].
    destruct (inv_commit _ _ _ _ _ Hi (fun ids now => calm_cancel_requested _ _ _ _ _ _ _) E) as (H1 & _ & _ & H2 & _).
    apply inv_cancel; [done|by rewrite H2|by apply plain_ok|done|done].
Qed.

(** The wait for the rows, the registry, and the event. *)
Lemma cancel_next_sent w i c x p sent w' :
  inv w -> w_cancels w !! i = Some c ->
  match cn_phase c with CnSweep _ _ _ | CnPoll _ _ _ | CnForget _ _ | CnWrite _ => true | _ => false end = true ->
  cancel_next json_valid external print_json c x w = Some (p, sent, w') -> inv (with_cancel i c p sent w').
Proof.
  intros Hi Hc Hph. pose proof (i_cancels w Hi i c Hc) as [_ Hs].
  destruct (cn_sent c) as [[live before]|] eqn:Es; [|by destruct (cn_phase c)]. destruct Hs as (Hm & Hb & Hl & Hs).
  assert (Hmove : forall w1 q, inv w1 -> quiet w w1 -> w_cancels w1 = w_cancels w ->
    match q with
    | CnSweep _ l observed | CnPoll _ l observed => l = live /\ Forall2 (seen_row (w_store w)) live observed
    | CnForget _ l => l = live /\ Forall (cancelled_row (w_store w)) live
    | CnWrite _ | CnAnswered (Ok _) => Forall (cancelled_row (w_store w)) live
    | CnAnswered (Err _) | CnDropped => True
    | _ => False
    end -> inv (with_cancel i c q (cn_sent c) w1)).
  { intros w1 q H1 Hqt Ec Hq. apply inv_cancel; [done|by rewrite Ec| |by destruct q|by destruct q].
    apply (quiet_cancel w); [done|]. split; simpl; [by destruct q|]. rewrite Es. by split_and!. }
  assert (Hsame : quiet w w) by by apply quiet_same.
  unfold cancel_next.
  destruct (cn_phase c) as [| | | | | | |session l obs|session l obs|session l|session| | | | | | |]; try done; destruct_and?; subst;
    destruct x as [| | |io| | | | | | |ok deadline|]; try done; try (intros [= <- <- <-]; apply Hmove; done).
  - intros [= <- <- <-]. unfold query, store_error. destruct ok; [|by apply Hmove].
    destruct (poll_rows live obs (w_store w)) as [observed|] eqn:E; simpl; [|by apply Hmove].
    match goal with H : Forall2 _ live obs |- _ => pose proof (poll_rows_spec _ _ _ _ E H) as Hseen end.
    destruct (_ || deadline); [|by apply Hmove]. destruct (cancel_settle_verdict observed) eqn:Ev; [|by apply Hmove..].
    apply Hmove; try done. split; [done|]. by eapply verdict_cancelled.
  - intros [= <- <- <-]. apply Hmove; [by apply inv_forget|by apply quiet_same|done|done].
  - destruct (commit io _ w) as [r w1] eqn:E. intros [= <- <- <-].
    destruct (inv_commit _ _ _ _ _ Hi (fun ids now => calm_cancel_requested _ _ _ _ _ _ _) E) as (H1 & H2 & _ & H3 & _).
    apply Hmove; try done. by destruct r.
Qed.

Lemma cancel_step_inv i x w w' : inv w -> cancel_step json_valid external print_json i x w = Some w' -> inv w'.
Proof.
  intros Hi. unfold cancel_step. destruct (w_cancels w !! i) as [c|] eqn:Hc; [|done].
  destruct (cancel_next _ _ _ c x w) as [[[p sent] w1]|] eqn:E; [|done]. intros [= <-].
  destruct (cn_phase c) eqn:Ep.
  17,18: unfold cancel_next in E; rewrite Ep in E; by destruct x.
  8-11: by eapply (cancel_next_sent w i c x p sent w1); [..|rewrite Ep|].
  all: eapply (cancel_next_locked w i c x p sent w1); [done|done|rewrite Ep; auto|done].
Qed.

(** ** Stops, restarts, other writers *)

Definition with_stop (i : nat) (s : Stop) (p : StopPhase) w : World Block :=
  set_stops (<[i := mkStop (sp_target s) (sp_guarded s) p]> (w_stops w)) w.

(** The handles are taken: from the registry into the hands of the stop. *)
Lemma inv_take_handles w i s b b' :
  inv w -> w_stops w !! i = Some s -> sp_phase s = StTaken b ->
  inv (with_stop i s (StFire b' (map_to_list (w_prompts w)).*1) (set_registry ∅ w)).
Proof.
  intros Hi Hs Ep. set (w1 := with_stop i s (StFire b' (map_to_list (w_prompts w)).*1) w).
  assert (Hlt : (i < length (w_stops w))%nat) by by eapply lookup_lt_Some.
  assert (H1 : inv w1) by (apply (inv_set_stop w i s); simpl; rewrite ?Ep; try done; by left).
  assert (Hq : quiet w1 (set_registry ∅ w1)) by by apply quiet_same.
  change (inv (set_registry ∅ w1)). apply (inv_quiet w1); try done. intros sid id Hl.
  destruct (i_tracked w1 H1 sid id Hl) as [Hr|[Ht|Ht]]; [|by right; left|by right; right].
  right; right. eexists i, _, b', _. split; [simpl; by apply list_lookup_insert_eq|]. split; [done|].
  apply list_elem_of_fmap. exists (id, sid). split; [done|]. by apply elem_of_map_to_list.
Qed.

Lemma stop_step_inv i x w w' : inv w -> stop_step json_valid external print_json i x w = Some w' -> inv w'.
Proof.
  intros Hi. unfold stop_step. destruct (w_stops w !! i) as [s|] eqn:Hs; [|done].
  destruct (stop_next _ _ _ s x w) as [[p w1]|] eqn:E; [|done]. intros [= <-]. change (inv (with_stop i s p w1)).
  assert (Hmove : forall w2 q, inv w2 -> w_stops w2 = w_stops w -> (forall b ids, sp_phase s <> StFire b ids) ->
    (stop_gate q = true -> stop_gate (sp_phase s) = true \/ gate_writable w2 = true) -> inv (with_stop i s q w2)).
  { intros w2 q H2 Es Hn Hg. apply (inv_set_stop w2 i s); [done|by rewrite Es|done|]. intros b ids Ep. by destruct (Hn b ids). }
  unfold stop_next in E.
  destruct (sp_phase s) as [| | |b|b ids|b [|id ids]|b|ok| |] eqn:Ep; destruct x as [|[]|ok'|io| | | | | | | |]; try done;
    try (injection E as <- <-; apply Hmove; by auto).
  - destruct (gate_writable w) eqn:Ew; [|done]. injection E as <- <-. apply Hmove; by auto.
  - destruct (sp_guarded s); injection E as <- <-; apply Hmove; by auto.
  - destruct (w_agent w); injection E as <- <-; apply Hmove; try done; try (by apply inv_agent); by auto.
  - injection E as <- <-. by eapply inv_take_handles.
  - injection E as <- <-. apply (inv_set_stop (fire_tokens ids w) i s); [by apply inv_fire|done|rewrite Ep; by left|].
    intros b' ids' Hp sid id Hid Hl. rewrite Ep in Hp. injection Hp as _ <-. by apply fired_live in Hl as [_ ?].
  - rewrite orb_true_r in E. injection E as <- <-. apply Hmove; by auto.
  - destruct (_ || false); [|done]. injection E as <- <-. apply Hmove; by auto.
  - injection E as <- <-. apply Hmove; [by apply inv_agent|by auto..].
  - injection E as <- <-. apply Hmove; [by apply inv_agent|by auto..].
  - destruct (commit io _ w) as [r w2] eqn:Ec. injection E as <- <-.
    destruct (inv_commit _ _ _ _ _ Hi (fun ids now => calm_demote _ _ _ _ _ _ _) Ec) as (H1 & _ & _ & _ & H2 & _). apply Hmove; by auto.
Qed.

Lemma agent_step_inv m w w' : inv w -> agent_step m w = Some w' -> inv w'.
Proof.
  intros Hi. unfold agent_step, begin_start, end_start, monitor_bridge_exit, try_begin_update, finish_update.
  destruct m as [|[]|b| |], (w_agent w); try done; try (intros [= <-]; by apply inv_agent).
  - intros [= <-]. match goal with |- inv ?v => assert (Hq : quiet w v) by by apply quiet_same end.
    apply (inv_quiet w); try done; [by apply (quiet_tracked w)|apply Hi].
  - case_bool_decide; [|done]. intros [= <-]. by apply inv_agent.
Qed.

(** ** Every interleaving *)

(** What other writers do: the streamed updates, sweeps, deletions and commands that
    write through the same store start no turn, and settle rows the way the store's
    operations do. *)
Definition others_write (st : Store) w : Prop :=
  forall id, id ∈ w_minted w -> fate (st_prompts (w_store w) !! id) (st_prompts st !! id).

Inductive sstep : World Block -> World Block -> Prop :=
| step_submit_arrives w sid blocks json : sstep w (set_submits (w_submits w ++ [mkSubmit sid blocks json SbStart]) w)
| step_cancel_arrives w sid : sstep w (set_cancels (w_cancels w ++ [mkCancel sid CnStart None]) w)
| step_stop_arrives w target guarded : sstep w (set_stops (w_stops w ++ [mkStop target guarded StStart]) w)
| step_submit w i x w' : submit_step json_valid external print_json print_notification i x w = Some w' -> sstep w w'
| step_turn w id x w' :
    turn_step json_valid external print_json error_code public_message id x w = Some w' -> sstep w w'
| step_cancel w i x w' : cancel_step json_valid external print_json i x w = Some w' -> sstep w w'
| step_stop w i x w' : stop_step json_valid external print_json i x w = Some w' -> sstep w w'
| step_agent w m w' : agent_step m w = Some w' -> sstep w w'
| step_teardown w sid : sstep w (cancel_prompts_for_session sid w)
| step_others w st : others_write st w -> sstep w (set_store st w).

Lemma inv_init st : inv (world_init st).
Proof.
  assert (Hl : forall sid id, ~ live_in (world_init (Block := Block) st) sid id) by by intros sid id (t & Ht & _).
  constructor; simpl; try done; intros sid id; intros; by destruct (Hl sid id).
Qed.
Lemma sstep_inv w w' : inv w -> sstep w w' -> inv w'.
Proof.
  intros Hi Hs. destruct Hs.
  - by apply inv_submit_arrives.
  - by apply inv_cancel_arrives.
  - by apply inv_stop_arrives.
  - by eapply submit_step_inv.
  - by eapply turn_step_inv.
  - by eapply cancel_step_inv.
  - by eapply stop_step_inv.
  - by eapply agent_step_inv.
  - by apply inv_fire.
  - by apply inv_store.
Qed.
Lemma supervisor_reachable_inv st w : rtc sstep (world_init st) w -> inv w.
Proof.
  intros H. assert (Hgen : forall w0, rtc sstep w0 w -> inv w0 -> inv w) by (intros w0 Hr; induction Hr; eauto using sstep_inv).
  apply (Hgen _ H). apply inv_init.
Qed.

(** C5. A session has one live turn at a time: over every interleaving of submissions,
    turns, cancels, stops, restarts, teardowns, dropped requests and other writers, two
    turns of one session that are running (task not ended, token not fired, row in
    flight, submission not dropped before it registered the turn) are the same turn. *)
Theorem one_turn_per_session st w sid id id' :
  rtc sstep (world_init st) w -> live_in w sid id -> live_in w sid id' -> id = id'.
Proof. intros H. by apply i_unique, (supervisor_reachable_inv st). Qed.

(** C6. A cancel that answers success: of the prompts it notified the agent about, every
    row that is still there says [cancelled]; and every turn of the session that was
    there when the notification went out has ended, or had its token fired by a stop or
    a teardown, or has a row that is no longer in flight. The one exception is a turn
    whose submission was dropped between its start and its registration: no cancel
    knows of it, and it may run on. *)
Theorem cancel_means_cancelled st w i sid live before :
  rtc sstep (world_init st) w -> w_cancels w !! i = Some (mkCancel sid (CnAnswered (Ok tt)) (Some (live, before))) ->
  Forall (cancelled_row (w_store w)) live
  /\ forall id t, id ∈ before -> w_turns w !! id = Some t -> tn_session t = sid -> id ∉ w_abandoned w ->
       ended t = true \/ tn_token t = true \/ settled_row (w_store w) id.
Proof.
  intros H Hc. destruct (i_cancels w (supervisor_reachable_inv st w H) i _ Hc) as [_ (_ & _ & Hl & Hs)]. simpl in Hl, Hs. split; [done|].
  intros id t Hid Ht Hsid Ha. destruct (ended t) eqn:He; [by left|]. destruct (tn_token t) eqn:Hk; [by right; left|]. right; right.
  intros p Hp. destruct (status_settled (p_status p)) eqn:Ep; [done|].
  assert (Hlive : live_in w sid id) by (exists t; split_and!; try done; by exists p).
  rewrite Forall_forall in Hs. specialize (Hs id (Hl id Hid Hlive)). by rewrite (cancelled_settled _ _ Hs p Hp) in Ep.
Qed.

(** A turn whose settlement was committed leaves no row in flight, whatever follows. *)
Theorem settled_turn_row st w id t :
  rtc sstep (world_init st) w -> w_turns w !! id = Some t -> tn_phase t = TnEnded true -> settled_row (w_store w) id.
Proof. intros H. by apply i_ended, (supervisor_reachable_inv st). Qed.

(** A stop that was dropped after it took the bridge leaves the agent [Stopping] for
    good: no later call of any kind takes it out of that state. *)
Definition stop_holds_bridge (p : StopPhase) : bool :=
  match p with StTaken _ | StFire _ _ | StWait _ _ | StShutdown _ => true | _ => false end.
Definition stranded w : Prop :=
  w_agent w = AgStopping /\ forall i s, w_stops w !! i = Some s -> stop_holds_bridge (sp_phase s) = false.

Lemma commit_frame {A} io (job : (nat -> string) -> string -> M A) w r w' :
  commit io job w = (r, w') -> w_agent w' = w_agent w /\ w_stops w' = w_stops w.
Proof. unfold commit. destruct io as [[ids now]|]; [destruct (job _ _ _) as [[a st]|]|]; by intros [= <- <-]. Qed.
Lemma submit_frame i x w w' :
  submit_step json_valid external print_json print_notification i x w = Some w' -> w_agent w' = w_agent w /\ w_stops w' = w_stops w.
Proof.
  unfold submit_step. destruct (w_submits w !! i) as [s|]; [|done].
  assert (Ha : forall sid kind p y r w1, attach_step json_valid external print_json sid kind p y w = Some (r, w1) ->
    w_agent w1 = w_agent w /\ w_stops w1 = w_stops w).
  { intros sid kind p y r w1. unfold attach_step. destruct p, y; try done; try (intros [= <- <-]; done).
    destruct (commit _ _ w) as [r0 w0] eqn:E. intros [= <- <-]. by apply commit_frame in E. }
  assert (Hn : forall p w1, submit_next json_valid external print_json print_notification s x w = Some (p, w1) ->
    w_agent w1 = w_agent w /\ w_stops w1 = w_stops w).
  { intros p w1. unfold submit_next.
    destruct (sb_phase s), x as [|[]| |[[ids now]|]| | | | | | | |]; try done; try (intros [= <- <-]; done);
      try (case_match; [|done]; intros [= <- <-]; done).
    all: try (destruct (commit _ _ _) as [r0 w0] eqn:E; intros [= <- <-]; by apply commit_frame in E).
    all: try (destruct (attach_step _ _ _ _ _ _ _ _) as [[r0 w0]|] eqn:E; [|done]; intros [= <- <-]; by eapply Ha).
    case_bool_decide; [done|]. destruct (commit _ _ _) as [r0 w0] eqn:E. intros [= <- <-]. by apply commit_frame in E. }
  assert (Hd : forall p w1, submit_drop s w = Some (p, w1) -> w_agent w1 = w_agent w /\ w_stops w1 = w_stops w).
  { intros p w1. unfold submit_drop. destruct (sb_phase s); try done; by intros [= <- <-]. }
  match goal with |- match ?m with Some _ => _ | None => _ end = _ -> _ =>
    assert (Hall : forall p w1, m = Some (p, w1) -> w_agent w1 = w_agent w /\ w_stops w1 = w_stops w) by (intros p w1; destruct x; first [exact (Hn p w1)|exact (Hd p w1)]);
    destruct m as [[p w1]|] end; [|done]. intros [= <-]. by destruct (Hall _ _ eq_refl).
Qed.

Lemma turn_frame id x w w' :
  turn_step json_valid external print_json error_code public_message id x w = Some w' ->
  w_agent w' = w_agent w /\ w_stops w' = w_stops w.
Proof.
  unfold turn_step. destruct (w_turns w !! id) as [t|]; [|done]. destruct (turn_next _ _ _ _ _ id t x w) as [[p w1]|] eqn:E; [|done].
  intros [= <-]. simpl. unfold turn_next in E.
  destruct (tn_phase t) as [| |o|[[response|e]|]|o|o m|o|b], x as [| | |io| | | |r| |m'| |]; try done; try (injection E as <- <-; done).
  all: try (destruct (commit _ _ _) as [r0 w0] eqn:Ec; injection E as <- <-; by apply commit_frame in Ec).
  - destruct (tn_token t); [|done]. by injection E as <- <-.
  - destruct (acknowledged t response); [|by injection E as <- <-].
    destruct (commit _ _ _) as [r0 w0] eqn:Ec. injection E as <- <-. by apply commit_frame in Ec.
Qed.
Lemma cancel_frame i x w w' :
  cancel_step json_valid external print_json i x w = Some w' -> w_agent w' = w_agent w /\ w_stops w' = w_stops w.
Proof.
  unfold cancel_step. destruct (w_cancels w !! i) as [c|]; [|done]. destruct (cancel_next _ _ _ c x w) as [[[p sent] w1]|] eqn:E; [|done].
  intros [= <-]. simpl. unfold cancel_next, cancel_subagent in E.
  destruct (cn_phase c), x as [|[]| |io| | | | | | | |]; try done; try (injection E as <- <- <-; done).
  all: try (case_match; [|done]; by injection E as <- <- <-).
  all: destruct (commit _ _ _) as [r0 w0] eqn:Ec; injection E as <- <- <-; by apply commit_frame in Ec.
Qed.

Lemma stranded_step w w' : stranded w -> sstep w w' -> stranded w'.
Proof.
  intros [Ha Hs] Hstep. assert (Hsame : forall v, w_agent v = w_agent w /\ w_stops v = w_stops w -> stranded v).
  { intros v [E1 E2]. split; [congruence|]. intros i s. rewrite E2. apply Hs. }
  destruct Hstep as [| |w target guarded|w i x w' H|w id x w' H|w i x w' H|w i x w' H|w m w' H| |]; try (by apply Hsame).
  - split; [done|]. intros i s [Hi| ->]%snoc_lookup; [by apply (Hs i)|done].
  - by apply Hsame, (submit_frame i x).
  - by apply Hsame, (turn_frame id x).
  - by apply Hsame, (cancel_frame i x).
  - unfold stop_step in H. destruct (w_stops w !! i) as [s|] eqn:Hi; [|done]. pose proof (Hs i s Hi) as Hp.
    destruct (stop_next _ _ _ s x w) as [[p w1]|] eqn:E; [|done]. injection H as <-.
    assert (Hn : w_agent w1 = w_agent w /\ w_stops w1 = w_stops w /\ stop_holds_bridge p = false).
    { unfold stop_next in E. destruct (sp_phase s), x as [| |yes|io| | | | | | | |]; try done; try (injection E as <- <-; done).
      - destruct (gate_writable w); [|done]. by injection E as <- <-.
      - destruct (sp_guarded s); [|by injection E as <- <-]. injection E as <- <-. by destruct yes; [destruct (query_restart_blockers _ _)|].
      - rewrite Ha in E. by injection E as <- <-.
      - destruct (commit _ _ _) as [r0 w0] eqn:Ec. injection E as <- <-. by apply commit_frame in Ec as [-> ->]. }
    destruct Hn as (E1 & E2 & Hb). split; simpl; [congruence|]. rewrite E2. intros j sj [(-> & <- & _)|[_ Hj]]%list_lookup_insert_Some; [done|by apply (Hs j)].
  - unfold agent_step, begin_start, end_start, monitor_bridge_exit, try_begin_update, finish_update in H. rewrite Ha in H. by destruct m.
Qed.
(** A stop whose request is dropped after it took the bridge strands the agent:
    once the agent is [Stopping] and no stop that holds its bridge is left, every state
    that follows still says [Stopping], so neither a start nor a stop ever succeeds. *)
Theorem dropped_stop_strands w w' : stranded w -> rtc sstep w w' -> w_agent w' = AgStopping.
Proof. intros H Hr. assert (stranded w') as [? _]; [|done]. induction Hr; eauto using stranded_step. Qed.
End safety.

(** ** Concrete schedules *)

Inductive Move :=
| MSubmit (sid : string)
| MCancel (sid : string)
| MStop (guarded : bool)
| MAt (i : nat) (x : Input)
| MTurn (id : string) (x : Input)
| MCancelAt (i : nat) (x : Input)
| MStopAt (i : nat) (x : Input)
| MAgent (m : AgentMove).

Definition demo_print (_ : Json) : string := "{}".
Definition demo_name (_ : TurnError) : string := "error".
Definition demo_chunk (_ : string) (_ : UserMessageChunk string) : option string := Some "{}"%string.
Notation demo_step := (sstep (Block := string) (fun _ => true) true demo_print demo_name demo_name demo_chunk).

Definition move (m : Move) (w : World string) : option (World string) :=
  match m with
  | MSubmit sid => Some (set_submits (w_submits w ++ [mkSubmit sid ["hello"%string] "{}" SbStart]) w)
  | MCancel sid => Some (set_cancels (w_cancels w ++ [mkCancel sid CnStart None]) w)
  | MStop guarded => Some (set_stops (w_stops w ++ [mkStop "t" guarded StStart]) w)
  | MAt i x => submit_step (fun _ => true) true demo_print demo_chunk i x w
  | MTurn id x => turn_step (fun _ => true) true demo_print demo_name demo_name id x w
  | MCancelAt i x => cancel_step (fun _ => true) true demo_print i x w
  | MStopAt i x => stop_step (fun _ => true) true demo_print i x w
  | MAgent m => agent_step m w
  end.
Fixpoint moves (l : list Move) (w : World string) : option (World string) :=
  match l with [] => Some w | m :: rest => match move m w with Some w' => moves rest w' | None => None end end.
Lemma moves_steps l w w' : moves l w = Some w' -> rtc demo_step w w'.
Proof.
  revert w. induction l as [|m l IH]; intros w; simpl; [intros [= ->]; apply rtc_refl|].
  destruct (move m w) as [w1|] eqn:E; [|done]. intros H. eapply rtc_l; [|by apply IH].
  destruct m; simpl in E; try (injection E as <-; by constructor); by econstructor.
Qed.
Definition reach (l : list Move) (w : World string) : World string := default w (moves l w).
Lemma reach_steps l w : is_Some (moves l w) -> rtc demo_step w (reach l w).
Proof. intros [w' H]. unfold reach. rewrite H. simpl. by apply (moves_steps l). Qed.

Fixpoint demo_ids (base : string) (n : nat) : string :=
  match n with 0%nat => base | S n => (demo_ids base n ++ "x")%string end.
Definition demo_write (base : string) : Input := Write (Some (demo_ids base, "t2"%string)).
Definition demo_rows : Store := set_sessions (<["s"%string := tree_row "s" "a1" 1]> ∅) (set_counter 1 0 empty_store).
Definition demo_start : World string := world_init demo_rows.
Definition upto_insert (i : nat) (base : string) : list Move :=
  MAt i <$> [Go; Go; Go; Read true; Go; Go; Says true; demo_write "w"; Go; Message None; demo_write base].
Definition submit_all (i : nat) (base : string) : list Move := upto_insert i base ++ (MAt i <$> [Dialect AcpStackDialect; Go; Go]).
Definition demo_running : list Move :=
  [MAgent StartBegins; MAgent (StartEnds true); MSubmit "s"] ++ submit_all 0 "p" ++ [MTurn "p" (demo_write "r")].
Definition cancelled_response : PromptResponse := mkPromptResponse StopCancelled None None.
Definition demo_cancelled : list Move :=
  [MCancel "s"] ++ (MCancelAt 0 <$> [Go; Go; Go; Read true; Go; Read true; Says true])
  ++ (MTurn "p" <$> [Result (Ok cancelled_response); Go; demo_write "k"; Message None; demo_write "e"])
  ++ (MCancelAt 0 <$> [Go; Poll true false; Go; demo_write "c"]).

(** A turn whose task runs on an unfired token, with its row in flight. *)
Definition running (w : World string) (sid id : string) : bool :=
  match w_turns w !! id, st_prompts (w_store w) !! id with
  | Some t, Some p =>
      negb (ended t) && negb (tn_token t) && bool_decide (tn_session t = sid) && negb (status_settled (p_status p))
  | _, _ => false
  end.
Lemma running_live w sid id : running w sid id = true -> id ∉ w_abandoned w -> live_in w sid id.
Proof.
  unfold running. destruct (w_turns w !! id) as [t|] eqn:Et; [|done]. destruct (st_prompts (w_store w) !! id) as [p|] eqn:Ep; [|done].
  rewrite !andb_true_iff, !negb_true_iff, bool_decide_eq_true. intros [[[H1 H2] H3] H4] Ha. exists t. split_and!; try done. by exists p.
Qed.

Lemma one_turn_per_session_witness :
  let w := reach demo_running demo_start in live_in w "s" "p" /\ forall id, live_in w "s" id -> id = "p"%string.
Proof.
  intros w. assert (Hp : live_in w "s" "p").
  { apply running_live; [vm_compute; reflexivity|]. apply (bool_decide_unpack (_ ∉ _)). vm_compute. exact I. }
  split; [exact Hp|]. intros id Hl.
  refine (one_turn_per_session (fun _ => true) true demo_print demo_name demo_name demo_chunk demo_rows w "s" id "p" _ Hl Hp).
  apply reach_steps. vm_compute. eauto.
Defined.

Lemma cancel_means_cancelled_witness :
  let w := reach (demo_running ++ demo_cancelled) demo_start in
  (exists p, st_prompts (w_store w) !! "p"%string = Some p)
  /\ Forall (cancelled_row (w_store w)) ["p"%string]
  /\ forall id t, id ∈ dom (w_turns (reach demo_running demo_start)) -> w_turns w !! id = Some t -> tn_session t = "s"%string ->
       id ∉ w_abandoned w -> ended t = true \/ tn_token t = true \/ settled_row (w_store w) id.
Proof.
  intros w. split; [vm_compute; eauto|].
  refine (cancel_means_cancelled (fun _ => true) true demo_print demo_name demo_name demo_chunk demo_rows w 0 "s" ["p"%string]
    (dom (w_turns (reach demo_running demo_start))) _ _).
  - apply reach_steps. vm_compute. eauto.
  - vm_compute. reflexivity.
Defined.

(** A request dropped between the start of its turn and its registration leaves a turn
    the next submission does not see: both run on one session. *)
Definition demo_lost : list Move :=
  [MAgent StartBegins; MAgent (StartEnds true); MSubmit "s"; MSubmit "s"] ++ upto_insert 0 "p" ++ (MAt 0 <$> [Dialect AcpStackDialect; Drop])
  ++ submit_all 1 "q" ++ [MTurn "p" (demo_write "r"); MTurn "q" (demo_write "r")].
Example dropped_submission_two_turns :
  let w := reach demo_lost demo_start in
  rtc demo_step demo_start w /\ running w "s" "p" = true /\ running w "s" "q" = true /\ w_prompts w !! "p"%string = None.
Proof. intros w. split_and!; [apply reach_steps; vm_compute; eauto|vm_compute; reflexivity..]. Qed.

(** A stop whose request is dropped while it waits for the turns strands the agent. *)
Definition demo_stranded : list Move := demo_running ++ [MStop false] ++ (MStopAt 0 <$> [Go; Read true; Go; Go; Go; Drop]).
Lemma dropped_stop_strands_witness :
  let w := reach demo_stranded demo_start in rtc demo_step demo_start w /\ forall w', rtc demo_step w w' -> w_agent w' = AgStopping.
Proof.
  intros w. split; [apply reach_steps; vm_compute; eauto|]. intros w' Hr.
  refine (dropped_stop_strands (fun _ => true) true demo_print demo_name demo_name demo_chunk w w' _ Hr).
  split; [vm_compute; reflexivity|]. intros [|i] s Hs; vm_compute in Hs; [|discriminate]. injection Hs as <-. reflexivity.
Defined.
