(* ===== verification/Sweeper.v ===== *)
(** The background sweeper (src/src/runtime/agent/sweeper.rs): one round is three write
    jobs, each of which can be lost or fail without holding up the next. A round gives
    up on exactly the turns that were quiet for too long, and to the supervisor it is
    one of the writers it has to live with. *)

From S2P Require Import Prelude Store SinkOutbox ChangeFeed SessionEvents PermissionService PromptStore SessionStore.
From S2P Require Import SubagentStore SessionQueries SessionSink AcpCodec Supervisor SupervisorSafety.
Open Scope Z_scope.

Definition SWEEPER_STALL_REASON : string := "no agent updates within threshold".
Definition EVENT_KIND_PROMPT_STALLED : string := "prompt.stalled".

Section sweeper.
Context (json_valid : string -> bool) (external : bool) (json_extract : string -> string -> JsonValue) (print_json : Json -> string).

Definition stalled_event_payload (prompt_id : string) (threshold_secs : Z) : string :=
  print_json (JsObject [("prompt_id", JsString prompt_id); ("threshold_secs", JsInt threshold_secs);
    ("cause", JsString SWEEPER_STALL_REASON)]%string).

Fixpoint append_stalled_events (stalled : list StuckPrompt) (ids : nat -> string) (now : string) : M unit :=
  match stalled with
  | [] => ret tt
  | s :: rest =>
      attempt (append_session_event_with_source json_valid external (sp_session_id s) "warn" EVENT_KIND_PROMPT_STALLED
        EVENT_SOURCE_SYSTEM "prompt stalled" (stalled_event_payload (sp_id s) (sp_threshold s)) (ids (length rest)) now) ;;
      append_stalled_events rest ids now
  end.

Definition sweep_stalled_prompts (th : Thresholds) (ids : nat -> string) (now : string) : M unit :=
  let* stalled := mark_stalled_prompts json_extract external th SWEEPER_STALL_REASON now in
  append_stalled_events stalled ids now.

(** [cutoff] is the formatted [now - threshold]. *)
Definition sweep_idle_sessions (cutoff : string) (threshold_secs : Z) (ids : nat -> string) (now : string) : M unit :=
  let* idle := mark_idle_sessions external cutoff now in
  append_available_events json_valid external
    (print_json (JsObject [("reason", JsString "idle"); ("threshold_secs", JsInt threshold_secs)]%string)) idle ids now.

Definition sweep_session_tombstones (cutoff : string) (ids : nat -> string) (now : string) : M unit :=
  let* _ := prune_session_tombstones cutoff in ret tt.

(** A job that does not reach the writer, or fails, is logged and leaves the store. *)
Definition write (io : option ((nat -> string) * string)) (job : (nat -> string) -> string -> M unit) (st : Store) : Store :=
  match io with
  | None => st
  | Some (ids, now) => match job ids now st with Ok (_, st') => st' | Err _ => st end
  end.

Record Round := mkRound {
  rd_thresholds : Thresholds; rd_idle_cutoff : string; rd_idle_secs : Z; rd_retention_cutoff : string;
  rd_stalled : option ((nat -> string) * string); rd_idle : option ((nat -> string) * string);
  rd_tombstones : option ((nat -> string) * string);
}.
(** One turn of the loop [StateSweeper::spawn] runs. *)
Definition sweep_round (r : Round) (st : Store) : Store :=
  write (rd_tombstones r) (sweep_session_tombstones (rd_retention_cutoff r))
    (write (rd_idle r) (sweep_idle_sessions (rd_idle_cutoff r) (rd_idle_secs r))
       (write (rd_stalled r) (sweep_stalled_prompts (rd_thresholds r)) st)).

(** ** What a round does to prompts *)

Lemma calm_stalled_events stalled ids now : calm (append_stalled_events stalled ids now).
Proof. induction stalled; simpl; calm_walk. Qed.
Lemma calm_stalled th ids now : calm (sweep_stalled_prompts th ids now).
Proof. apply calm_bind; [apply calm_mark_stalled|intros l; apply calm_stalled_events]. Qed.
Lemma calm_idle cutoff secs ids now : calm (sweep_idle_sessions cutoff secs ids now).
Proof. unfold sweep_idle_sessions, mark_idle_sessions, persist_many_with_outbox, enqueue. calm_walk. Qed.
Lemma calm_tombstones cutoff ids now : calm (sweep_session_tombstones cutoff ids now).
Proof. unfold sweep_session_tombstones, prune_session_tombstones. calm_walk. Qed.

Lemma write_fate io job st id : (forall ids now, calm (job ids now)) -> fate (st_prompts st !! id) (st_prompts (write io job st) !! id).
Proof.
  intros Hc. unfold write. destruct io as [[ids now]|]; [|apply fate_refl]. destruct (job ids now st) as [[u st']|] eqn:E; [|apply fate_refl].
  by apply (Hc ids now st u st').
Qed.

(** To the supervisor a round is a writer like any other. *)
Theorem sweep_is_other_write {Block} r (w : World Block) : others_write (sweep_round r (w_store w)) w.
Proof.
  intros id _. unfold sweep_round. eapply fate_trans; [apply (write_fate (rd_stalled r)), calm_stalled|].
  eapply fate_trans; [apply (write_fate (rd_idle r)), calm_idle|]. apply write_fate, calm_tombstones.
Qed.

(** Nothing stays in flight: after a round whose first job committed, a prompt the sweep
    gives up on has a final verdict, whether or not its task is still around and
    whatever became of the other two jobs. *)
Theorem sweep_settles_quiet r st id p ids now u st1 :
  prompt_ids st -> st_prompts st !! id = Some p -> gives_up json_extract (rd_thresholds r) st p = true ->
  rd_stalled r = Some (ids, now) -> sweep_stalled_prompts (rd_thresholds r) ids now st = Ok (u, st1) ->
  settled_row (sweep_round r st) id.
Proof.
  intros Hids Hp Hg Hio Hrun. unfold sweep_round. rewrite Hio. simpl. rewrite Hrun.
  assert (H1 : settled_row st1 id).
  { unfold sweep_stalled_prompts in Hrun. apply bind_ok in Hrun as (l & st0 & H0 & H2).
    pose proof (stalled_exactly _ _ _ _ _ _ _ _ H0 Hids id p Hp) as E. rewrite Hg in E.
    apply (fate_settled st0); [by apply (calm_stalled_events l ids now st0 u)|]. intros q Hq. rewrite E in Hq. by injection Hq as <-. }
  apply (fate_settled (write (rd_idle r) (sweep_idle_sessions (rd_idle_cutoff r) (rd_idle_secs r)) st1));
    [apply write_fate, calm_tombstones|].
  apply (fate_settled st1); [apply write_fate, calm_idle|done].
Qed.
End sweeper.

Lemma sweep_settles_quiet_witness :
  let r := mkRound (mkThresholds 600 3600 "t5" "t3") "t2" 900 "t1" (Some (fun n => "e"%string, "t9"%string)) None None in
  settled_row (sweep_round (fun _ => true) true (fun _ _ => JNull) (fun _ => "{}"%string) r (sample_prompts "running" "t4")) "p".
Proof.
  intros r.
  destruct (exec_ok (sweep_stalled_prompts (fun _ => true) true (fun _ _ => JNull) (fun _ => "{}"%string) (rd_thresholds r) (fun n => "e"%string) "t9")
    (sample_prompts "running" "t4") eq_refl) as [u H].
  refine (sweep_settles_quiet _ _ _ _ r (sample_prompts "running" "t4") "p" (sample_prompt "running" "t4") _ _ u _ _ eq_refl _ eq_refl H).
  - intros id p Hp. unfold sample_prompts in Hp. simpl in Hp.
    apply lookup_insert_Some in Hp as [[<- <-]|[_ Hp]]; [reflexivity|discriminate Hp].
  - vm_compute. reflexivity.
Defined.
