(* ===== verification/Histories.v ===== *)
(** Histories of the whole store: every committed operation of the modelled
    tables is a step, and the guarantees of the change feed and of the event
    log hold along every sequence of steps. *)

From S2P Require Import Prelude Text Store SinkOutbox ChangeFeed SessionEvents.
From S2P Require Import PermissionStore CommandStore PromptStore SessionStore SubagentStore Fork SessionListing.
Open Scope Z_scope.
Open Scope result_scope.

(** ** Session rows and the log *)

Lemma update_session_log id f : preserves log_inv (update_session id f).
Proof. unfold update_session. walk_log. Qed.
#[export] Hint Resolve update_session_log : acps.

Lemma insert_session_log json_valid external target_id agent_session_id record now :
  preserves log_inv (insert_session_for_target json_valid external target_id agent_session_id record now).
Proof.
  unfold insert_session_for_target, insert_session_row, next_change_seq, clear_session_tombstone.
  walk_log.
Qed.

Lemma rename_log external old new now : preserves log_inv (rename_session_target_id external old new now).
Proof.
  unfold rename_session_target_id. case_match; [apply preserves_ret|].
  apply preserves_bind; [apply preserves_gets|intros st0]. case_match; [apply preserves_fail|].
  apply preserves_bind; [|intros; apply preserves_ret]. apply persist_many_log. walk_log.
Qed.

Lemma delete_session_log external id now : preserves log_inv (delete_session external id now).
Proof.
  unfold delete_session. apply preserves_bind; [apply preserves_gets|intros ss].
  case_match; [|apply preserves_ret]. apply preserves_bind; [|intros; apply preserves_ret].
  apply persist_many_log. apply preserves_bind; [apply preserves_gets|intros subs].
  apply preserves_bind; [by apply preserves_modify|intros _].
  apply preserves_bind; [|intros; apply preserves_ret].
  apply preserves_for_each. intros x. apply delete_one_log.
Qed.

Lemma reconcile_sessions_log external target now :
  preserves log_inv (reconcile_orphaned_sessions external target now).
Proof. apply persist_many_log. walk_log. Qed.

Lemma mark_idle_log external cutoff now : preserves log_inv (mark_idle_sessions external cutoff now).
Proof. apply persist_many_log. walk_log. Qed.

Lemma prune_log cutoff : preserves log_inv (prune_session_tombstones cutoff).
Proof. intros st n st' Hi (p & -> & _)%prune_run. done. Qed.

(** ** Permissions *)

Lemma bump_acp_feed id : feed_ok (bump_acp_permission_session id).
Proof. unfold bump_acp_permission_session. walk_feed. Qed.
Lemma bump_acp_log id : preserves log_inv (bump_acp_permission_session id).
Proof. unfold bump_acp_permission_session. walk_log. Qed.
#[export] Hint Resolve bump_acp_log : acps.

Ltac walk_perm_feed :=
  repeat first
    [ solve [auto using feed_same_ok with acps] | apply bump_acp_feed
    | apply persist_with_outbox_feed | apply feed_ok_bind; [|intros ?]
    | apply feed_same_ok, feed_same_gets | apply feed_same_ok, feed_same_modify; done | case_match ].

Lemma append_permission_feed json_valid external input id now :
  feed_ok (append_permission_request json_valid external input id now).
Proof. unfold append_permission_request, insert_request. walk_perm_feed. Qed.
Lemma append_permission_log json_valid external input id now :
  preserves log_inv (append_permission_request json_valid external input id now).
Proof. unfold append_permission_request, insert_request. walk_log. Qed.

Lemma append_approved_feed json_valid external input principal reason id did now :
  feed_ok (append_approved_permission_request json_valid external input principal reason id did now).
Proof. unfold append_approved_permission_request, insert_request, insert_decision. walk_perm_feed. Qed.
Lemma append_approved_log json_valid external input principal reason id did now :
  preserves log_inv
    (append_approved_permission_request json_valid external input principal reason id did now).
Proof. unfold append_approved_permission_request, insert_request, insert_decision. walk_log. Qed.

Lemma decide_permission_feed external id s principal reason did now at' :
  feed_ok (decide_permission external id s principal reason did now at').
Proof. unfold decide_permission, update_permission, insert_decision. walk_perm_feed. Qed.
Lemma decide_permission_log external id s principal reason did now at' :
  preserves log_inv (decide_permission external id s principal reason did now at').
Proof. unfold decide_permission, update_permission, insert_decision. walk_log. Qed.

Lemma settle_orphans_feed external bump status reason now ids k l :
  feed_ok (settle_orphans external bump status reason now ids k l).
Proof.
  revert k. induction l as [|id l IH]; intros k; simpl; [walk_perm_feed|].
  apply feed_ok_bind; [|intros _; apply IH]. unfold settle_orphan, update_permission, insert_decision.
  walk_perm_feed.
Qed.
Lemma settle_orphans_log external bump status reason now ids k l :
  preserves log_inv (settle_orphans external bump status reason now ids k l).
Proof.
  revert k. induction l as [|id l IH]; intros k; simpl; [walk_log|].
  apply preserves_bind; [|intros _; apply IH]. unfold settle_orphan, update_permission, insert_decision.
  walk_log.
Qed.
#[export] Hint Resolve settle_orphans_log : acps.

Lemma reconcile_permissions_feed external ids now :
  feed_ok (reconcile_orphaned_permissions external ids now).
Proof.
  unfold reconcile_orphaned_permissions.
  repeat first [apply settle_orphans_feed | progress walk_perm_feed].
Qed.
Lemma reconcile_permissions_log external ids now :
  preserves log_inv (reconcile_orphaned_permissions external ids now).
Proof. unfold reconcile_orphaned_permissions. walk_log. Qed.

(** ** Commands *)

Lemma append_command_feed json_valid external input id now :
  feed_ok (append_command json_valid external input id now).
Proof. unfold append_command. walk_perm_feed. Qed.
Lemma append_command_log json_valid external input id now :
  preserves log_inv (append_command json_valid external input id now).
Proof. unfold append_command. walk_log. Qed.

Lemma update_command_feed id f : feed_ok (update_command id f).
Proof. unfold update_command. walk_perm_feed. Qed.
Lemma update_command_log id f : preserves log_inv (update_command id f).
Proof. unfold update_command. walk_log. Qed.
#[export] Hint Resolve update_command_log : acps.

(** An event of a command and the row it updates. *)
Lemma command_event_feed json_valid external level kind message payload id now cid f :
  feed_ok (let* event := append_event_with_source json_valid external level kind
             EVENT_SOURCE_COMMAND message payload id now in
           persist_with_outbox external "commands" cid (e_created_at event)
             (update_command cid (f event)) ;;
           ret event).
Proof.
  apply feed_ok_bind; [apply append_event_feed|intros e].
  apply feed_ok_bind; [apply persist_with_outbox_feed, update_command_feed|intros _].
  apply feed_same_ok, feed_same_ret.
Qed.
Lemma command_event_log json_valid external level kind message payload id now cid f :
  preserves log_inv
    (let* event := append_event_with_source json_valid external level kind
       EVENT_SOURCE_COMMAND message payload id now in
     persist_with_outbox external "commands" cid (e_created_at event)
       (update_command cid (f event)) ;;
     ret event).
Proof. apply preserves_bind; [apply append_event_log|intros e]. walk_log. Qed.

Lemma reconcile_commands_feed external ids now :
  feed_ok (reconcile_orphaned_commands external ids now).
Proof.
  unfold reconcile_orphaned_commands. apply feed_ok_bind; [walk_perm_feed|intros cs].
  apply feed_ok_bind; [walk_perm_feed|intros _]. apply feed_ok_bind; [|intros n; walk_perm_feed].
  generalize 0%nat. generalize (filter (fun p => command_open p.2 = true) (map_to_list cs)).*1.
  induction l as [|c l IH]; intros k; simpl; [walk_perm_feed|].
  repeat first [apply settle_orphans_feed | apply IH | apply feed_ok_bind; [|intros ?]
    | solve [auto using feed_same_ok with acps] | apply feed_same_ok, feed_same_gets].
Qed.
Lemma reconcile_commands_log external ids now :
  preserves log_inv (reconcile_orphaned_commands external ids now).
Proof.
  unfold reconcile_orphaned_commands. apply preserves_bind; [walk_log|intros cs].
  apply preserves_bind; [walk_log|intros _]. apply preserves_bind; [|intros n; walk_log].
  generalize 0%nat. generalize (filter (fun p => command_open p.2 = true) (map_to_list cs)).*1.
  induction l as [|c l IH]; intros k; simpl; [walk_log|].
  repeat first [apply IH | apply preserves_bind; [|intros ?] | solve [auto with acps]
    | apply preserves_gets].
Qed.

(** ** Prompts and the log *)

Lemma insert_prompt_log json_valid external r m now :
  preserves log_inv (insert_prompt_with_message_id json_valid external r m now).
Proof. unfold insert_prompt_with_message_id. walk_log. Qed.
Lemma acknowledge_log external pid m now :
  preserves log_inv (acknowledge_prompt_message_id external pid m now).
Proof. unfold acknowledge_prompt_message_id. walk_log. Qed.
Lemma agent_message_log external pid m now :
  preserves log_inv (record_prompt_agent_message_id external pid m now).
Proof. unfold record_prompt_agent_message_id. walk_log. Qed.
Lemma update_prompt_status_log external id s sr ec em fc fd now :
  preserves log_inv (update_prompt_status external id s sr ec em fc fd now).
Proof. unfold update_prompt_status. walk_log. Qed.
Lemma settle_prompt_log external id s replace now :
  preserves log_inv (settle_prompt external id s replace now).
Proof. unfold settle_prompt. walk_log. Qed.
Lemma stall_all_log external now reason stuck :
  preserves log_inv (stall_all external now reason stuck).
Proof.
  induction stuck as [|s rest IH]; simpl; [apply preserves_ret|].
  apply preserves_bind; [apply preserves_gets|intros ps].
  case_match; [case_match|]; [|done..].
  repeat first [exact IH | solve [auto with acps] | apply preserves_bind; [|intros ?]].
Qed.
Lemma mark_stalled_log json_extract external th reason now :
  preserves log_inv (mark_stalled_prompts json_extract external th reason now).
Proof.
  unfold mark_stalled_prompts. apply preserves_bind; [apply preserves_gets|intros st].
  case_match; [apply stall_all_log|apply preserves_fail].
Qed.

(** ** Operations that leave the subagent trees alone *)

Lemma persist_with_outbox_tree {R} external t i c (inner : M R) :
  tree_keeps inner -> tree_keeps (persist_with_outbox external t i c inner).
Proof. intros Hi. unfold persist_with_outbox. walk_tree. Qed.

Lemma update_session_tree id f : (forall s, s_id (f s) = s_id s) -> tree_keeps (update_session id f).
Proof.
  intros Hf st u st' H. unfold update_session in H. apply bind_ok in H as (ss & st0 & H0 & H).
  injection H0 as <- <-. destruct (st_sessions st !! id) as [s|] eqn:E; [|done].
  apply bind_ok in H as (u1 & st1 & H1 & H). injection H1 as _ <-. apply bump_tree in H.
  eapply same_tree_trans; [|exact H]. split; [|done]. simpl. rewrite fmap_insert, Hf.
  apply insert_id. by rewrite lookup_fmap, E.
Qed.

Lemma rename_tree external old new now : tree_keeps (rename_session_target_id external old new now).
Proof.
  unfold rename_session_target_id. case_match; [apply tree_keeps_ret|].
  apply tree_keeps_bind; [apply tree_keeps_gets|intros st0]. case_match; [apply tree_keeps_fail|].
  apply tree_keeps_bind; [|intros; apply tree_keeps_ret]. apply persist_many_tree.
  apply tree_keeps_bind; [apply tree_keeps_gets|intros ids].
  apply tree_keeps_bind; [|intros _; walk_tree]. apply tree_keeps_modify. intros st.
  apply edit_sessions_tree. intros s. by case_match.
Qed.

Lemma imap_subagents_tree st (f : string -> SubagentRecord -> SubagentRecord) :
  (forall i sa, (sa_session_id (f i sa), sa_parent_session_id (f i sa), sa_root_session_id (f i sa))
                = (sa_session_id sa, sa_parent_session_id sa, sa_root_session_id sa)) ->
  same_tree st (set_subagents (map_imap (fun i sa => Some (f i sa)) (st_subagents st)) st).
Proof.
  intros Hf. split; [done|]. simpl. apply map_eq. intros i. rewrite !lookup_fmap, map_lookup_imap.
  destruct (st_subagents st !! i); [|done]. simpl. by rewrite Hf.
Qed.

Lemma reconcile_sessions_tree external target now :
  tree_keeps (reconcile_orphaned_sessions external target now).
Proof.
  apply persist_many_tree. apply tree_keeps_bind; [apply tree_keeps_gets|intros st].
  apply tree_keeps_bind; [|intros _; apply tree_keeps_bind; [|intros _; walk_tree]];
    apply tree_keeps_modify; intros st0.
  - apply edit_sessions_tree. intros s. by case_match.
  - apply imap_subagents_tree. intros i sa. by case_match.
Qed.

Lemma mark_idle_tree external cutoff now : tree_keeps (mark_idle_sessions external cutoff now).
Proof.
  apply persist_many_tree. apply tree_keeps_bind; [apply tree_keeps_gets|intros st].
  apply tree_keeps_bind; [|intros _; walk_tree]. apply tree_keeps_modify; intros st0.
  apply edit_sessions_tree. intros s. by case_match.
Qed.

Lemma prune_tree cutoff : tree_keeps (prune_session_tombstones cutoff).
Proof. by intros st n st' (p & -> & _)%prune_run. Qed.

#[export] Hint Resolve persist_with_outbox_tree insert_session_update_row_tree : acps.

Lemma append_event_tree json_valid external level kind source message payload id now :
  tree_keeps (append_event_with_source json_valid external level kind source message payload id now).
Proof. unfold append_event_with_source, insert_unscoped_event_row. walk_tree. Qed.
Lemma append_session_event_tree json_valid external sid level kind source message payload id now :
  tree_keeps (append_session_event_with_source json_valid external sid level kind source message
                payload id now).
Proof. unfold append_session_event_with_source, persist_with_outbox, publish_session_event. walk_tree. Qed.
Lemma append_session_update_tree json_valid external parses sid kind payload id now :
  tree_keeps (append_session_update json_valid external parses sid kind payload id now).
Proof. unfold append_session_update, publish_session_event. walk_tree. Qed.
#[export] Hint Resolve append_event_tree : acps.

Lemma insert_prompt_tree json_valid external r m now :
  tree_keeps (insert_prompt_with_message_id json_valid external r m now).
Proof.
  unfold insert_prompt_with_message_id, insert_prompt_row, set_prompt, bump_prompt_session_change,
    persist_with_outbox. walk_tree.
Qed.
Lemma acknowledge_tree external pid m now : tree_keeps (acknowledge_prompt_message_id external pid m now).
Proof.
  unfold acknowledge_prompt_message_id, set_prompt, bump_prompt_session_change, persist_with_outbox.
  walk_tree.
Qed.
Lemma agent_message_tree external pid m now : tree_keeps (record_prompt_agent_message_id external pid m now).
Proof.
  unfold record_prompt_agent_message_id, set_prompt, bump_prompt_session_change, persist_with_outbox.
  walk_tree.
Qed.
Lemma update_prompt_status_tree external id s sr ec em fc fd now :
  tree_keeps (update_prompt_status external id s sr ec em fc fd now).
Proof.
  unfold update_prompt_status, set_prompt, bump_prompt_session_change, persist_with_outbox. walk_tree.
Qed.
Lemma settle_prompt_tree external id s replace now : tree_keeps (settle_prompt external id s replace now).
Proof.
  unfold settle_prompt, set_prompt, bump_prompt_session_change, persist_with_outbox. walk_tree.
Qed.
Lemma settle_orphan_prompts_tree json_valid external payload now ids k rows :
  tree_keeps (settle_orphan_prompts json_valid external payload now ids k rows).
Proof.
  revert k. induction rows as [|[i sid] rows IH]; intros k; simpl; [apply tree_keeps_ret|].
  unfold settle_orphan_prompt, bump_prompt_session_change. apply tree_keeps_bind; [walk_tree|intros e].
  apply tree_keeps_bind; [apply IH|intros l; apply tree_keeps_ret].
Qed.
Lemma reconcile_prompts_tree json_valid external payload reason now ids :
  tree_keeps (reconcile_orphaned_prompts json_valid external payload reason now ids).
Proof.
  unfold reconcile_orphaned_prompts. apply tree_keeps_bind; [apply tree_keeps_gets|intros ps].
  apply tree_keeps_bind; [by apply tree_keeps_modify|intros _].
  apply tree_keeps_bind; [apply settle_orphan_prompts_tree|intros es].
  unfold publish_session_event. walk_tree.
Qed.
Lemma stall_all_tree external now reason stuck : tree_keeps (stall_all external now reason stuck).
Proof.
  induction stuck as [|s rest IH]; simpl; [apply tree_keeps_ret|].
  apply tree_keeps_bind; [apply tree_keeps_gets|intros ps].
  case_match; [case_match|]; [|done..]. unfold set_prompt.
  repeat first [exact IH | solve [auto with acps] | apply tree_keeps_modify; done
    | apply tree_keeps_bind; [|intros ?]].
Qed.
Lemma mark_stalled_tree json_extract external th reason now :
  tree_keeps (mark_stalled_prompts json_extract external th reason now).
Proof.
  unfold mark_stalled_prompts. apply tree_keeps_bind; [apply tree_keeps_gets|intros st].
  case_match; [apply stall_all_tree|apply tree_keeps_fail].
Qed.

Lemma bump_acp_tree id : tree_keeps (bump_acp_permission_session id).
Proof. unfold bump_acp_permission_session. walk_tree. Qed.
#[export] Hint Resolve bump_acp_tree : acps.
Lemma append_permission_tree json_valid external input id now :
  tree_keeps (append_permission_request json_valid external input id now).
Proof. unfold append_permission_request, insert_request, persist_with_outbox. walk_tree. Qed.
Lemma append_approved_tree json_valid external input principal reason id did now :
  tree_keeps (append_approved_permission_request json_valid external input principal reason id did now).
Proof. unfold append_approved_permission_request, insert_request, insert_decision. walk_tree. Qed.
Lemma decide_permission_tree external id s principal reason did now at' :
  tree_keeps (decide_permission external id s principal reason did now at').
Proof. unfold decide_permission, update_permission, insert_decision. walk_tree. Qed.
Lemma settle_orphans_tree external bump status reason now ids k l :
  tree_keeps (settle_orphans external bump status reason now ids k l).
Proof.
  revert k. induction l as [|id l IH]; intros k; simpl; [walk_tree|].
  apply tree_keeps_bind; [|intros _; apply IH]. unfold settle_orphan, update_permission, insert_decision.
  walk_tree.
Qed.
#[export] Hint Resolve settle_orphans_tree : acps.
Lemma reconcile_permissions_tree external ids now :
  tree_keeps (reconcile_orphaned_permissions external ids now).
Proof. unfold reconcile_orphaned_permissions. walk_tree. Qed.

Lemma append_command_tree json_valid external input id now :
  tree_keeps (append_command json_valid external input id now).
Proof. unfold append_command, persist_with_outbox. walk_tree. Qed.
Lemma update_command_tree id f : tree_keeps (update_command id f).
Proof. unfold update_command. walk_tree. Qed.
Lemma command_event_tree json_valid external level kind message payload id now cid f :
  tree_keeps
    (let* event := append_event_with_source json_valid external level kind
       EVENT_SOURCE_COMMAND message payload id now in
     persist_with_outbox external "commands" cid (e_created_at event)
       (update_command cid (f event)) ;;
     ret event).
Proof. unfold update_command, persist_with_outbox. walk_tree. Qed.
Lemma reconcile_commands_tree external ids now :
  tree_keeps (reconcile_orphaned_commands external ids now).
Proof.
  unfold reconcile_orphaned_commands. apply tree_keeps_bind; [walk_tree|intros cs].
  apply tree_keeps_bind; [walk_tree|intros _]. apply tree_keeps_bind; [|intros n; walk_tree].
  generalize 0%nat. generalize (filter (fun p => command_open p.2 = true) (map_to_list cs)).*1.
  induction l as [|c l IH]; intros k; simpl; [walk_tree|].
  repeat first [apply IH | solve [auto with acps] | apply tree_keeps_bind; [|intros ?]].
Qed.

(** ** Forks *)

Lemma forest_fork json_valid external json_extract t a r parent held pids eids now :
  preserves forest
    (insert_forked_session json_valid external json_extract t a r parent held pids eids now).
Proof.
  intros st [row seq] st' Hf (Hid & Hn & _ & _ & cp & ce & m & st3 & o & _ & Hce & _ & ->)%fork_run.
  apply copy_events_frame in Hce as [me ->].
  by apply (forest_insert_session st (ns_id r) row Hf Hid Hn).
Qed.

(** ** Metadata and listings *)

Section listings.
Context (json_valid : string -> bool) (external : bool).
Context {J : Type} `{!EqDecision J} `{!MetadataJson J}.
Context (rfc3339_utc : string -> option string) (sync_payload : string -> string -> nat -> nat -> nat -> string).

Lemma write_metadata_feed id m now f :
  (forall s, s_change_seq (f s) = s_change_seq s) -> feed_ok (write_metadata json_valid external id m now f).
Proof.
  intros Hf. apply persist_with_outbox_feed. case_match; [|apply feed_same_ok, feed_same_fail].
  apply update_session_feed. intros s. by rewrite Hf.
Qed.

Lemma write_metadata_log id m now f : preserves log_inv (write_metadata json_valid external id m now f).
Proof. unfold write_metadata. walk_log. Qed.

Lemma write_metadata_tree id m now f :
  (forall s, s_id (f s) = s_id s) -> tree_keeps (write_metadata json_valid external id m now f).
Proof.
  intros Hf. apply persist_with_outbox_tree. case_match; [|walk_tree]. apply update_session_tree.
  intros s. by rewrite Hf.
Qed.

Lemma update_info_feed id title at' meta now :
  feed_ok (update_session_info json_valid external id title at' meta now).
Proof.
  unfold update_session_info. apply feed_ok_bind; [apply feed_same_ok, feed_same_gets|intros r].
  repeat case_match; try (apply feed_same_ok, feed_same_fail); by apply write_metadata_feed.
Qed.
Lemma update_info_log id title at' meta now :
  preserves log_inv (update_session_info json_valid external id title at' meta now).
Proof. unfold update_session_info. pose proof write_metadata_log. walk_log. Qed.
Lemma update_info_tree id title at' meta now :
  tree_keeps (update_session_info json_valid external id title at' meta now).
Proof.
  unfold update_session_info. apply tree_keeps_bind; [walk_tree|intros r].
  repeat case_match; try solve [walk_tree]; by apply write_metadata_tree.
Qed.

Lemma snapshot_feed key key_at id v now :
  feed_ok (replace_snapshot json_valid external key key_at id v now).
Proof.
  unfold replace_snapshot. apply feed_ok_bind; [apply feed_same_ok, feed_same_gets|intros r].
  repeat case_match; try (apply feed_same_ok, feed_same_fail); try (apply feed_same_ok, feed_same_ret).
  apply feed_ok_bind; [by apply write_metadata_feed|intros _; apply feed_same_ok, feed_same_ret].
Qed.
Lemma snapshot_log key key_at id v now :
  preserves log_inv (replace_snapshot json_valid external key key_at id v now).
Proof. unfold replace_snapshot. pose proof write_metadata_log. walk_log. Qed.
Lemma snapshot_tree key key_at id v now :
  tree_keeps (replace_snapshot json_valid external key key_at id v now).
Proof.
  unfold replace_snapshot. apply tree_keeps_bind; [walk_tree|intros r].
  repeat case_match; try solve [walk_tree]. apply tree_keeps_bind; [by apply write_metadata_tree|walk_tree].
Qed.

(** One row of a listing. *)
Lemma write_listed_feed w : feed_ok (write_listed json_valid external w).
Proof.
  destruct w as [row|row]; simpl.
  - intros st u st' Hi (n & st1 & H1 & (u2 & st2 & H2 & H3)%bind_ok)%bind_ok.
    apply next_change_seq_run in H1 as (Hlt & -> & ->). apply insert_session_row_run in H2 as [_ ->].
    destruct (insert_live_step st (s_id row) (with_change_seq (st_change_seq st + 1) row) Hi Hlt eq_refl) as [Hi1 Hs1].
    apply enqueue_if_feed in H3. destruct (feed_same_step _ _ H3 Hi1) as [Hi2 Hs2].
    split; [done|]. by eapply feed_step_trans.
  - intros st u st' Hi (u1 & st1 & H1 & (u2 & st2 & H2 & H3)%bind_ok)%bind_ok.
    destruct (json_valid _); [|done]. injection H1 as _ <-.
    assert (feed_inv st2 /\ feed_step st st2) as [Hi2 Hs2].
    { eapply (stamp_edited st (alter (updated_row row) (s_id row) (st_sessions st)) [s_id row] _ u2 st2 Hi); [| |done|].
      - apply map_eq. intros i. unfold live_seqs. rewrite !lookup_fmap, lookup_alter.
        case_decide; [subst i|done]. by destruct (st_sessions st !! _).
      - intros i Hn. apply lookup_alter_ne. set_solver.
      - simpl. apply bind_ok. exists u2, st2. split; [exact H2|by destruct u2]. }
    apply enqueue_if_feed in H3. destruct (feed_same_step _ _ H3 Hi2) as [Hi3 Hs3].
    split; [done|]. by eapply feed_step_trans.
Qed.

Lemma write_listed_log w : preserves log_inv (write_listed json_valid external w).
Proof. destruct w; simpl; unfold insert_session_row, clear_session_tombstone, next_change_seq; walk_log. Qed.

Lemma write_listed_forest w : preserves forest (write_listed json_valid external w).
Proof.
  destruct w as [row|row]; simpl.
  - intros st u st' Hf (n & st1 & H1 & (u2 & st2 & H2 & H3)%bind_ok)%bind_ok.
    apply next_change_seq_run in H1 as (Hlt & -> & ->). apply insert_session_row_run in H2 as [Hn ->].
    eapply (tree_keeps_forest _ (enqueue_if_tree external _ _ _)); [|exact H3].
    by apply (forest_insert_session st (s_id row) (with_change_seq (st_change_seq st + 1) row) Hf eq_refl Hn).
  - apply tree_keeps_forest. apply tree_keeps_bind; [|intros _; walk_tree]. case_match; [|walk_tree].
    apply tree_keeps_modify. intros st. split; [|done]. simpl. apply map_eq. intros i.
    rewrite !lookup_fmap, lookup_alter. case_decide; [subst i|done]. by destruct (st_sessions st !! _).
Qed.

Lemma listed_feed t records sync clock id now :
  feed_ok (apply_listed_sessions json_valid external rfc3339_utc sync_payload t records sync clock id now).
Proof.
  unfold apply_listed_sessions. apply feed_ok_bind; [apply feed_same_ok, feed_same_gets|intros st].
  repeat case_match; try (apply feed_same_ok, feed_same_fail); try (apply feed_same_ok, feed_same_ret);
    (apply feed_ok_bind; [apply feed_ok_for_each; intros w; apply write_listed_feed|intros _]);
    unfold insert_unscoped_event_row; walk_feed.
Qed.

Lemma listed_log t records sync clock id now :
  preserves log_inv (apply_listed_sessions json_valid external rfc3339_utc sync_payload t records sync clock id now).
Proof.
  unfold apply_listed_sessions. pose proof write_listed_log. walk_log.
Qed.

Lemma listed_forest t records sync clock id now :
  preserves forest (apply_listed_sessions json_valid external rfc3339_utc sync_payload t records sync clock id now).
Proof.
  unfold apply_listed_sessions. apply preserves_bind; [apply preserves_gets|intros st].
  repeat case_match; try apply preserves_fail; try apply preserves_ret;
    (apply preserves_bind; [apply preserves_for_each; intros w0; apply write_listed_forest|intros _]);
    apply tree_keeps_forest; unfold insert_unscoped_event_row; walk_tree.
Qed.
End listings.

(** ** The operations of the store *)

Section histories.
Context (json_valid json_parses : string -> bool) (external : bool)
  (prompt_payload : string -> string -> option string -> option string -> string)
  (output_payload : string -> string -> Z -> string -> string)
  (progress_payload : string -> string) (announced_payload : string -> string -> string -> string)
  (json_extract : string -> string -> JsonValue)
  (encode : str -> string) {J : Type} `{!EqDecision J} `{!MetadataJson J}
  (rfc3339_utc : string -> option string) (sync_payload : string -> string -> nat -> nat -> nat -> string).

(** A write of one of the modelled tables. *)
Inductive write : forall A, M A -> Prop :=
| w_insert_session t a r now : write _ (insert_session_for_target json_valid external t a r now)
| w_session_status id s now : write _ (update_session_status external id s now)
| w_session_cwd id s cwd now : write _ (update_session_status_and_cwd external id s cwd now)
| w_rename_target old new now : write _ (rename_session_target_id external old new now)
| w_delete_session id now : write _ (delete_session external id now)
| w_orphan_sessions t now : write _ (reconcile_orphaned_sessions external t now)
| w_idle_sessions cutoff now : write _ (mark_idle_sessions external cutoff now)
| w_prune cutoff : write _ (prune_session_tombstones cutoff)
| w_event level kind source message payload id now :
    write _ (append_event_with_source json_valid external level kind source message payload id now)
| w_session_event sid level kind source message payload id now :
    write _ (append_session_event_with_source json_valid external sid level kind source message
               payload id now)
| w_session_update sid kind payload id now :
    write _ (append_session_update json_valid external json_parses sid kind payload id now)
| w_insert_prompt r m now : write _ (insert_prompt_with_message_id json_valid external r m now)
| w_acknowledge pid m now : write _ (acknowledge_prompt_message_id external pid m now)
| w_agent_message pid m now : write _ (record_prompt_agent_message_id external pid m now)
| w_prompt_status id s sr ec em fc fd now :
    write _ (update_prompt_status external id s sr ec em fc fd now)
| w_settle_prompt id s replace now : write _ (settle_prompt external id s replace now)
| w_orphan_prompts reason now ids :
    write _ (reconcile_orphaned_prompts json_valid external prompt_payload reason now ids)
| w_stalled_prompts th reason now :
    write _ (mark_stalled_prompts json_extract external th reason now)
| w_permission input id now : write _ (append_permission_request json_valid external input id now)
| w_approved input principal reason id did now :
    write _ (append_approved_permission_request json_valid external input principal reason id did now)
| w_decide id s principal reason did now at' :
    write _ (decide_permission external id s principal reason did now at')
| w_orphan_permissions ids now : write _ (reconcile_orphaned_permissions external ids now)
| w_command input id now : write _ (append_command json_valid external input id now)
| w_start id now : write _ (start_command external id now)
| w_finish id s e d now : write _ (finish_command external id s e d now)
| w_truncated id now : write _ (mark_command_truncated external id now)
| w_output cid stream seq chunk id now :
    write _ (append_command_output json_valid external output_payload cid stream seq chunk id now)
| w_progress cid id now :
    write _ (append_command_progress json_valid external progress_payload cid id now)
| w_orphan_commands ids now : write _ (reconcile_orphaned_commands external ids now)
| w_subagent_update pid payload patch roots uid aid nid ua now aa :
    write _ (record_subagent_update json_valid json_parses external announced_payload pid payload patch
               roots uid aid nid ua now aa)
| w_withdraw root now : write _ (withdraw_subagent_state external root now)
| w_close_subagents root now : write _ (close_subagent_sessions external root now)
| w_next_batch limit now : write _ (next_batch limit now)
| w_recover : write _ recover_in_flight
| w_sent ids now : write _ (mark_sent ids now)
| w_failure ids e next now : write _ (mark_failure ids e next now)
| w_failure_window w n e now : write _ (record_failure_window encode w n e now)
| w_fork t a r parent held pids eids now :
    write _ (insert_forked_session json_valid external json_extract t a r parent held pids eids now)
| w_info id title at' meta now : write _ (update_session_info json_valid external id title at' meta now)
| w_snapshot key key_at id v now : write _ (replace_snapshot json_valid external key key_at id v now)
| w_listing t records sync clock id now :
    write _ (apply_listed_sessions json_valid external rfc3339_utc sync_payload t records sync clock id now).

(** A write that committed. *)
Definition store_step (st st' : Store) : Prop :=
  exists A (m : M A) a, write A m /\ m st = Ok (a, st').

(** The worker's writes touch the outbox and the failure windows alone. *)
Section worker_writes.
Context (P : Store -> Prop) (HP : forall st o f, P st -> P (set_failures f (set_outbox o st))).

Lemma outbox_keeps st o : P st -> P (set_outbox o st).
Proof. apply (HP st o (st_failures st)). Qed.
Lemma next_batch_keeps limit now : preserves P (next_batch limit now).
Proof. unfold next_batch. walk_preserves. by apply outbox_keeps. Qed.
Lemma recover_keeps : preserves P recover_in_flight.
Proof. unfold recover_in_flight. walk_preserves. by apply outbox_keeps. Qed.
Lemma mark_sent_keeps ids now : preserves P (mark_sent ids now).
Proof. destruct ids; [apply preserves_ret|]. apply preserves_modify. intros. by apply outbox_keeps. Qed.
Lemma mark_failure_keeps ids e next now : preserves P (mark_failure ids e next now).
Proof. destruct ids; [apply preserves_ret|]. apply preserves_modify. intros. by apply outbox_keeps. Qed.
Lemma failure_window_keeps w n e now : preserves P (record_failure_window encode w n e now).
Proof.
  apply preserves_modify. intros st Hst. specialize (HP st (st_outbox st)). destruct st. by apply HP.
Qed.
End worker_writes.

Lemma preserves_feed_ok {A} (m : M A) :
  (forall st, preserves (feed_same_stores st) m) -> feed_ok m.
Proof.
  intros H. apply feed_same_ok. intros st a st'. apply H. done.
Qed.

Lemma write_feed A (m : M A) : write A m -> feed_ok m.
Proof.
  destruct 1; [apply insert_session_feed | by apply persist_with_outbox_feed, update_session_feed | by apply persist_with_outbox_feed, update_session_feed
    |apply rename_feed | apply delete_session_feed | apply reconcile_sessions_feed
    |apply mark_idle_feed | apply prune_ok | apply append_event_feed
    |apply append_session_event_feed | apply append_session_update_feed | apply insert_prompt_feed
    |apply acknowledge_feed | apply agent_message_feed | apply update_prompt_status_feed
    |apply settle_prompt_feed | apply reconcile_prompts_feed | apply mark_stalled_feed
    |apply append_permission_feed | apply append_approved_feed | apply decide_permission_feed
    |apply reconcile_permissions_feed | apply append_command_feed | apply persist_with_outbox_feed, update_command_feed
    |apply persist_with_outbox_feed, update_command_feed | apply persist_with_outbox_feed, update_command_feed | apply command_event_feed
    |apply command_event_feed | apply reconcile_commands_feed | apply record_update_feed | apply withdraw_state_feed | apply close_subagents_feed | apply preserves_feed_ok; intros st0; by apply next_batch_keeps
    |apply preserves_feed_ok; intros st0; by apply recover_keeps | apply preserves_feed_ok; intros st0; by apply mark_sent_keeps | apply preserves_feed_ok; intros st0; by apply mark_failure_keeps
    |apply preserves_feed_ok; intros st0; by apply failure_window_keeps | apply fork_feed
    |apply update_info_feed | apply snapshot_feed | apply listed_feed].
Qed.

Lemma write_log A (m : M A) : write A m -> preserves log_inv m.
Proof.
  destruct 1; [apply insert_session_log | by apply persist_with_outbox_log, update_session_log | by apply persist_with_outbox_log, update_session_log
    |apply rename_log | apply delete_session_log | apply reconcile_sessions_log
    |apply mark_idle_log | apply prune_log | apply append_event_log
    |apply append_session_event_log | apply append_session_update_log | apply insert_prompt_log
    |apply acknowledge_log | apply agent_message_log | apply update_prompt_status_log
    |apply settle_prompt_log | apply reconcile_prompts_log | apply mark_stalled_log
    |apply append_permission_log | apply append_approved_log | apply decide_permission_log
    |apply reconcile_permissions_log | apply append_command_log | apply persist_with_outbox_log, update_command_log
    |apply persist_with_outbox_log, update_command_log | apply persist_with_outbox_log, update_command_log | apply command_event_log
    |apply command_event_log | apply reconcile_commands_log | apply record_update_log | apply withdraw_state_log | apply close_subagents_log | by apply next_batch_keeps
    |by apply recover_keeps | by apply mark_sent_keeps | by apply mark_failure_keeps
    |by apply failure_window_keeps | apply fork_log
    |apply update_info_log | apply snapshot_log | apply listed_log].
Qed.

Lemma forest_worker st o f : forest st -> forest (set_failures f (set_outbox o st)).
Proof. by apply forest_same. Qed.

Lemma write_forest A (m : M A) : write A m -> preserves forest m.
Proof.
  destruct 1; [apply forest_insert_session_for_target
    |by apply tree_keeps_forest, persist_with_outbox_tree, update_session_tree
    |by apply tree_keeps_forest, persist_with_outbox_tree, update_session_tree
    |apply tree_keeps_forest, rename_tree
    |intros st r st' Hf Hm; by eapply forest_delete_session
    |apply tree_keeps_forest, reconcile_sessions_tree
    |apply tree_keeps_forest, mark_idle_tree
    |apply tree_keeps_forest, prune_tree
    |apply tree_keeps_forest, append_event_tree
    |apply tree_keeps_forest, append_session_event_tree
    |apply tree_keeps_forest, append_session_update_tree
    |apply tree_keeps_forest, insert_prompt_tree
    |apply tree_keeps_forest, acknowledge_tree
    |apply tree_keeps_forest, agent_message_tree
    |apply tree_keeps_forest, update_prompt_status_tree
    |apply tree_keeps_forest, settle_prompt_tree
    |apply tree_keeps_forest, reconcile_prompts_tree
    |apply tree_keeps_forest, mark_stalled_tree
    |apply tree_keeps_forest, append_permission_tree
    |apply tree_keeps_forest, append_approved_tree
    |apply tree_keeps_forest, decide_permission_tree
    |apply tree_keeps_forest, reconcile_permissions_tree
    |apply tree_keeps_forest, append_command_tree
    |apply tree_keeps_forest, persist_with_outbox_tree, update_command_tree
    |apply tree_keeps_forest, persist_with_outbox_tree, update_command_tree
    |apply tree_keeps_forest, persist_with_outbox_tree, update_command_tree
    |apply tree_keeps_forest, command_event_tree
    |apply tree_keeps_forest, command_event_tree
    |apply tree_keeps_forest, reconcile_commands_tree
    |apply forest_record_update
    |apply tree_keeps_forest, withdraw_state_tree
    |apply tree_keeps_forest, close_subagents_tree
    |apply next_batch_keeps; exact forest_worker
    |apply recover_keeps; exact forest_worker
    |apply mark_sent_keeps; exact forest_worker
    |apply mark_failure_keeps; exact forest_worker
    |apply failure_window_keeps; exact forest_worker
    |apply forest_fork
    |apply tree_keeps_forest, update_info_tree
    |apply tree_keeps_forest, snapshot_tree
    |apply listed_forest].
Qed.

Lemma history_feed st st' :
  rtc store_step st st' -> feed_inv st -> feed_inv st' /\ feed_step st st'.
Proof.
  induction 1 as [|a b c (A & m & r & Hw & Hm) _ IH]; intros Hi; [by split; [|apply feed_step_refl]|].
  destruct (write_feed A m Hw _ _ _ Hi Hm) as [Hi1 Hs1]. destruct (IH Hi1) as [Hi2 Hs2].
  split; [done|]. by apply (feed_step_trans a b c).
Qed.

Lemma history_log st st' : rtc store_step st st' -> log_inv st -> log_inv st'.
Proof.
  induction 1 as [|a b c (A & m & r & Hw & Hm) _ IH]; [done|]. intros Hi.
  apply IH. by apply (write_log A m Hw a r b).
Qed.

Lemma feed_inv_empty : feed_inv empty_store.
Proof. split; [done|done|by intros|by intros]. Qed.

Lemma history_forest st st' : rtc store_step st st' -> forest st -> forest st'.
Proof.
  induction 1 as [|a b c (A & m & r & Hw & Hm) _ IH]; [done|]. intros Hi.
  apply IH. by apply (write_forest A m Hw a r b).
Qed.

(** C10. The change feed misses nothing. A client that last read at the feed's
    head pages on from there, with any page size, in any later store reached by
    any sequence of writes: as long as pruning has not passed its position, the
    pages end, and together they hold each id at most once, in the state the
    store has it in, and every session row that was created, changed or deleted
    in between. *)
Theorem change_feed_complete st st' limit :
  feed_inv st -> rtc store_step st st' -> st_pruned_through st' <= st_change_seq st ->
  (0 < limit)%nat ->
  exists fuel l, read_feed fuel (st_change_seq st) limit st' = Some l
  /\ NoDup (ch_session_id <$> l)
  /\ (forall c, c ∈ l -> ch_deleted c = bool_decide (st_sessions st' !! ch_session_id c = None))
  /\ (forall id, st_sessions st !! id <> st_sessions st' !! id -> id ∈ ch_session_id <$> l).
Proof.
  intros Hi H Hp Hlim. destruct (history_feed st st' H Hi) as [Hi' Hs].
  assert (st_change_seq st <= i64_max) as Hle by (pose proof (wf_counter _ _ _ _ Hi); lia).
  destruct (read_feed_perm (S (length (changes_after (st_change_seq st) st'))) (st_change_seq st)
              limit st' Hi' Hlim Hle ltac:(lia)) as (l & Hl & Hperm).
  eexists _, l. split; [exact Hl|].
  assert (forall c, c ∈ l -> stamp (live_seqs st') (dead_seqs st') (ch_session_id c)
                             = Some (ch_change_seq c, ch_deleted c)) as Hst.
  { intros c Hc. apply (changes_after_stamp (st_change_seq st)); [done|]. by rewrite <- Hperm. }
  split; [|split].
  - apply NoDup_fmap_2_strong; [|rewrite Hperm; by apply changes_after_nodup].
    intros c d Hc%Hst Hd%Hst E. rewrite E in Hc. rewrite Hc in Hd.
    destruct c, d; simpl in *. by simplify_eq.
  - intros c Hc%Hst. unfold stamp, live_seqs in Hc. rewrite lookup_fmap in Hc.
    destruct (st_sessions st' !! ch_session_id c); simpl in Hc; [by injection Hc as _ <-|].
    destruct (dead_seqs st' !! _); [by injection Hc as _ <-|done].
  - intros id Hne. destruct (feed_step_visible _ _ id Hs Hp Hne) as (c & Hc & Eid & _).
    rewrite <- Eid. apply list_elem_of_fmap_2. by rewrite Hperm.
Qed.

(** C29. The subagents a store holds always form trees: in every store a freshly
    migrated database reaches, each subagent row names live sessions, hangs under
    the root it names, that root is no subagent, and following parents from any
    subagent ends at its root. *)
Theorem subagents_form_trees st id sa :
  rtc store_step empty_store st -> st_subagents st !! id = Some sa ->
  is_Some (st_sessions st !! id) /\ st_subagents st !! sa_root_session_id sa = None
  /\ is_Some (st_sessions st !! sa_root_session_id sa)
  /\ tc (parent_of st) id (sa_root_session_id sa).
Proof.
  intros H Hsa. pose proof (history_forest _ _ H forest_empty) as Hf.
  destruct (fo_live _ Hf _ _ Hsa) as (_ & Hl & _ & Hr). split; [done|].
  split; [by eapply fo_root|]. split; [done|]. by apply chain_to_root.
Qed.

(** Every session's event log is numbered 1, 2, ..., n without gap or
    repetition, in every store a freshly migrated database reaches. *)
Theorem event_log_gapless st sid :
  rtc store_step empty_store st ->
  event_seq <$> session_events sid (st_events st)
  ≡ₚ seqZ 1 (Z.of_nat (length (session_events sid (st_events st)))).
Proof. intros H. apply (history_log _ _ H log_wf_empty). Qed.
End histories.

(** ** A small history *)

Definition always (s : string) : bool := true.
Definition demo_step : Store -> Store -> Prop :=
  store_step always always true (fun _ _ _ _ => "{}"%string) (fun _ _ _ _ => "{}"%string)
    (fun _ => "{}"%string) (fun _ _ _ => "{}"%string) (fun _ _ => JNull) (fun _ => ""%string) (J := string) Some (fun _ _ _ _ _ => "{}"%string).
Definition demo_insert (id : string) : M SessionRow :=
  insert_session_for_target always true "t" id (mkNewSession id "agent" "/w" None "{}") "t0".
Definition demo_event (id : string) : M Event :=
  append_session_event_with_source always true "a" "info" "k" "acp" "m" "{}" id "t1".
Definition demo_start : Store := exec (demo_insert "b") (exec (demo_insert "a") empty_store).
Definition demo_end : Store :=
  exec (delete_session true "a" "t2") (exec (update_session_status true "b" "closed" "t1") demo_start).

Lemma demo_exec {A} (m : M A) st :
  write always always true (fun _ _ _ _ => "{}"%string) (fun _ _ _ _ => "{}"%string)
    (fun _ => "{}"%string) (fun _ _ _ => "{}"%string) (fun _ _ => JNull) (fun _ => ""%string) (J := string) Some (fun _ _ _ _ _ => "{}"%string) A m ->
  succeeds m st = true -> demo_step st (exec m st).
Proof. intros Hw Hs. destruct (exec_ok m st Hs) as [a H]. by exists A, m, a. Qed.

Lemma demo_start_reached : rtc demo_step empty_store demo_start.
Proof.
  eapply rtc_l; [eapply (demo_exec (demo_insert "a")); [constructor|vm_compute; reflexivity]|].
  apply rtc_once. apply demo_exec; [constructor|vm_compute; reflexivity].
Qed.

Lemma demo_start_inv : feed_inv demo_start.
Proof. eapply history_feed; [exact demo_start_reached|apply feed_inv_empty]. Qed.

Lemma change_feed_complete_witness :
  exists fuel l, read_feed fuel (st_change_seq demo_start) 1 demo_end = Some l
  /\ "a"%string ∈ ch_session_id <$> l.
Proof.
  destruct (change_feed_complete always always true (fun _ _ _ _ => "{}"%string)
    (fun _ _ _ _ => "{}"%string) (fun _ => "{}"%string) (fun _ _ _ => "{}"%string) (fun _ _ => JNull)
    (fun _ => ""%string) (J := string) Some (fun _ _ _ _ _ => "{}"%string)
    demo_start demo_end 1 demo_start_inv) as (fuel & l & Hl & _ & _ & Hall).
  - eapply rtc_l; [eapply (demo_exec (update_session_status true "b" "closed" "t1"));
      [constructor|vm_compute; reflexivity]|].
    apply rtc_once. apply demo_exec; [constructor|vm_compute; reflexivity].
  - vm_compute. discriminate.
  - lia.
  - exists fuel, l. split; [exact Hl|]. apply Hall. vm_compute. discriminate.
Defined.

Lemma event_log_gapless_witness :
  let st := exec (demo_event "e2") (exec (demo_event "e1") demo_start) in
  event_seq <$> session_events "a" (st_events st)
  ≡ₚ seqZ 1 (Z.of_nat (length (session_events "a" (st_events st)))).
Proof.
  intros st. apply (event_log_gapless always always true (fun _ _ _ _ => "{}"%string)
    (fun _ _ _ _ => "{}"%string) (fun _ => "{}"%string) (fun _ _ _ => "{}"%string) (fun _ _ => JNull)
    (fun _ => ""%string) (J := string) Some (fun _ _ _ _ _ => "{}"%string)).
  etrans; [exact demo_start_reached|].
  eapply rtc_l; [eapply (demo_exec (demo_event "e1")); [constructor|vm_compute; reflexivity]|].
  apply rtc_once. apply demo_exec; [constructor|vm_compute; reflexivity].
Defined.

Definition demo_announce : M SubagentApplied :=
  record_subagent_update always always true (fun _ _ _ => "{}"%string) "a" "{}"
    (mkPatch "child" Keep Keep Keep None) [] "e1" "e2" "sub" "t3" "t3" "t3".

Lemma subagents_form_trees_witness :
  let st := exec demo_announce demo_start in
  exists sa, st_subagents st !! "sub"%string = Some sa
  /\ tc (parent_of st) "sub" (sa_root_session_id sa).
Proof.
  intros st.
  assert (exists sa, st_subagents st !! "sub"%string = Some sa) as [sa Hsa]
    by (eexists; vm_compute; reflexivity).
  exists sa. split; [exact Hsa|].
  apply (subagents_form_trees always always true (fun _ _ _ _ => "{}"%string)
    (fun _ _ _ _ => "{}"%string) (fun _ => "{}"%string) (fun _ _ _ => "{}"%string) (fun _ _ => JNull)
    (fun _ => ""%string) (J := string) Some (fun _ _ _ _ _ => "{}"%string) st "sub" sa); [|exact Hsa].
  etrans; [exact demo_start_reached|].
  apply rtc_once. apply demo_exec; [constructor|vm_compute; reflexivity].
Defined.
